(* ===== verification/_CoqProject ===== *)
-Q . S2P
Prelude.v
Programs.v
JsMap.v
Json.v
JsonText.v
StreamTypes.v
SteerRecovery.v
StoreState.v
StoreSteers.v
StoreParked.v
StoreJobs.v
StoreCleanup.v
StoreFrame.v
StoreRun.v
StoreEpochs.v
StoreClaims.v
StoreParking.v
StoreReaping.v
StoreRecovery.v
StoreFences.v
StoreQueue.v
StoreSteering.v
StoreIndex.v
Approval.v
ApprovalRaces.v
ApprovalRuns.v
Claims.v
ClaimRaces.v
ClaimRepair.v
Steering.v
Preempts.v
SteerRoutes.v
SteerAuthority.v
PreemptRuns.v
PreemptSafety.v
EventTransport.v
RedisFrames.v
RedisReceiver.v
RedisReorder.v
RedisOrder.v
RedisRuns.v
RedisWindow.v
RedisResume.v
RedisScripts.v
RedisPublisher.v
RedisSplicing.v
RedisProofs.v
RedisReceipts.v
RedisPublication.v
RedisDelivery.v
RedisAborts.v
RedisLua.v
RedisJobs.v
RedisRoundTrip.v
RedisClaims.v
RedisSteers.v
RedisRows.v
RedisAdmission.v
RedisDrain.v
RedisEdits.v
RedisStore.v
RedisLeftovers.v
RedisParcels.v
RedisRecovery.v
RedisParking.v
RedisTransitions.v
RedisWrites.v
StoreTransition.v
RedisTerminal.v
RedisMoves.v
RedisStatus.v
RedisClosing.v
RedisUpdates.v
RedisReplaced.v
RedisReaping.v
RedisStreams.v
RedisMembership.v
Sse.v
SseRuns.v
EditorPolicy.v
