(* ===== verification/Prelude.v ===== *)
(** * Verification of the Tempest-AI generation runtime

    This library models and verifies the parts of the TypeScript code of Tempest-AI that decide
    what happens to a running generation and to what its users say to it.  Paths below are
    relative to [packages/platform/api/src/] unless they start with [client/], which stands for
    [packages/platform/client/].

    ** The program and its parts

    A chat turn is a _generation_: a job under a stream id, created by a request, executed
    asynchronously, and followed by clients through an event stream.  While it runs, its user may
    _steer_ it (messages queued for the run), it may pause for a human _approval_, it may be
    replaced, aborted, or found dead by a cleanup pass.  Steers that were accepted but not
    injected are _parked_, and a recovery turn sends them again.

    - The job store ([stream/implementations/InMemoryJobStore.ts], contract and data types in
      [stream/interfaces/IJobStore.ts]) holds every job, steer, receipt, parked payload and
      idempotency claim.  All other parts act through its operations.
      Files [StreamTypes] (data), [StoreState] (the private fields and shared helpers),
      [StoreSteers], [StoreParked], [StoreJobs], [StoreCleanup] (the operations, by section).
    - The recovery payloads ([stream/SteerRecovery.ts]): file [SteerRecovery].
    - The approval lifecycle ([stream/ApprovalLifecycle.ts]): pause, resolve and expire, over the
      store.  File [Approval]; the interface between the two is the class [ApprovalStore], which
      the in-memory store instantiates in [ApprovalRaces].
    - The steering lifecycle ([stream/SteeringLifecycle.ts]): file [Steering].
    - The event transport ([stream/implementations/InMemoryEventTransport.ts]): file
      [EventTransport].
    - The Redis event transport ([stream/implementations/RedisEventTransport.ts],
      [stream/internal/coalescing.ts]), which carries the events of a generation between the
      replicas of a deployment.  [RedisFrames]: messages and their JSON; [RedisSplicing]: the
      characters of a frame, with its number spliced in by the server.  The publishing half:
      [RedisScripts] (the Lua scripts that number and publish, over the keys of a stream),
      [RedisPublisher] (batches, commands and their answers, receipts).  The receiving half:
      [RedisReceiver] (subscribers, reorder buffer, synchronization, abort and preempt listeners).
      [RedisProofs] has the durable proofs of aborts and drains, and [RedisAborts] any number of
      replicas that confirm aborts to each other, with the managers' retirement of runtimes that
      are fenced off the durable job.
    - The Redis job store ([stream/implementations/RedisJobStore.ts]), whose operations are Lua
      scripts over the keys of a stream.  [RedisLua]: keys, commands, Lua values and what [cjson]
      writes.  Scripts, and the methods that send them: [RedisSteers] (the steering queue),
      [RedisClaims] (idempotency claims), [RedisLeftovers] (parked steers), [RedisTransitions] (status
      transitions), [RedisClosing] (the end of a queue), [RedisUpdates] (updates, the fences of the
      provider and of terminal persistence, deletion), [RedisReplaced] (the acknowledgement of
      replaced generations), [RedisReaping] (the cleanup of stale jobs).  [RedisJobs]: a job as a
      hash, [serializeJob] and [deserializeJob].  [RedisMembership]: the sets that list running,
      paused and owing jobs and the jobs of a user, which concurrent processes rewrite from the
      hash.
    - The generation job manager's idempotent start ([stream/GenerationJobManager.ts], section
      "idempotency"): which of several requests for one turn creates the generation.  File [Claims]
      has its methods, as programs of store calls; [StoreClaims] what the store does to claims.
    - The interrupts of a generation (the same class, section "steering"; the boundaries of a run in
      [agents/steering/runtime.ts]): a steer may ask to interrupt the model; the manager arms and
      disarms the interrupts of the runtimes of its replica, and messages between replicas do the
      same elsewhere.  File [Preempts].
    - The steering routes ([agents/steering/request.ts], [agents/steering/refs.ts]): a user steers,
      takes a steer back, or turns it into an interrupt.  File [SteerRoutes], over the calls of
      [Preempts].
    - The desktop stream transport ([client/tempest/stream/TempestSSE.ts]), at the other end of the
      stream: files [Sse] and [SseRuns].
    - The editor's completion policy, risk badge and offline completion source
      ([client/tempest/views/editor/completionPolicy.ts], [risk.ts], [documentSource.ts]): file
      [EditorPolicy].

    [JsMap] models JavaScript's insertion-ordered [Map] and [Set], [Json] what [JSON.parse]
    returns, [JsonText] the characters that [JSON.stringify] writes and [JSON.parse] reads.  [Programs] has
    programs of asynchronous calls: pools of them that a scheduler
    interleaves, what a pool keeps invariant, races with at most one winner, and protocols: which calls
    a program may make, given a ghost state that the answers change.  The present file has
    what all parts share: results of code that may throw, expiry instants, lists deduplicated or
    sorted on a key, tactics and hints.

    ** How state and operations correspond to the code

    A class is a record of its fields ([Store], [Transport], [Sse]); a method is a function of the
    same name on that record, its guards and early returns in the source's order; a method that
    may throw returns a [result].  Definitions that carry no name of the source are the pieces of
    a method that several lemmas speak about (e.g. [transition_guard] of [transitionStatus]).

    - _Atomicity._  JavaScript runs without interruption between two [await]s.  Every store
      method but [createJob] has no [await] before its effects, so it is one function.
      [createJob] awaits the capacity eviction between its checks and its writes: it is split
      there into [createJob_begin] and [createJob_commit], and runs ([StoreRun.run]) interleave
      the two halves with any other operation.  [cleanup] awaits only settled promises and is one
      pass.  The methods of the approval lifecycle, of the idempotent start and of the interrupts, and
      the steering routes, are programs ([Programs.prog]) whose steps are the calls they await, or
      the synchronous sections between two of them; [ApprovalRaces], [ClaimRaces] and [PreemptRuns]
      let anything happen between two steps.  What the routes start and do not wait for is the next
      thing that they do.  An identifier drawn at random, and which of two promises
      settles first, are answers of the environment to such a call.
    - _Time._  Each synchronous segment reads one clock value, the argument [now].
    - _Snapshots._  [getJob] returns a value, although the in-memory store hands out the live
      object: its callers in the modelled code do not write to it.
    - _Numbers and strings._  Times, sequence numbers and counters are integers (the code uses
      them within the exact range of doubles); strings are byte strings, and sorting them follows
      the byte order.  JSON numbers are finite.  [jtext] is a JSON text up to [JSON.parse], the
      only way the code observes one, but for the frames that are spliced out of two texts: for
      those the parser is written out, and the splicing proved ([JsonText], [RedisSplicing]).
    - _Effects that are left out._  Logging.  Calls to callbacks are recorded or are calls of the
      program; callbacks of the approval lifecycle leave the store alone; listeners of the
      event transport do not call it back; listeners of the desktop transport may close it
      (parameter [closes]) and do not throw.  Subscribers of the Redis transport may leave and may
      throw when they are called (parameter [react]), and its abort callbacks may accept or decline
      (parameter [acknowledges]); what they do otherwise is not modelled.
    - _The Redis server_ runs one command at a time and answers the commands of one connection in
      the order they were sent; a command may be lost before or after it ran.  Frames reach a
      subscribed replica late, repeatedly or never.  Scripts are written over the keys of one
      stream, with the documented meaning of the commands they use.
    - _Parameters._  The graph behind the store's [WeakRef] is third-party code: its content and
      steps are arguments of [getContentParts] and [getRunSteps].  The length in bytes of a
      serialized event ([encoded_length]) only decides when a batch is full.  [lua_number] is what a
      number becomes when a script decodes and encodes it: itself when it is an integer of fourteen
      digits ([LuaNumber]), otherwise unspecified.  The digest of a request, the probe of the agent
      SDK and the length limit read from the environment are arguments of the steering routes.  [cjson] writes an empty array as an empty object;
      steers with empty arrays inside their files are outside the refinement ([item_fine]).

    ** What is proved

    - [StoreFrame]: what each operation leaves alone.  [StoreEpochs]: in every run generations
      are ordered by [createdAt], one that left never returns, and terminal statuses are final.
    - [StoreTransition]: [transitionStatus] is an exact compare-and-set, its comparisons and the
      properties of the job that it leaves written out ([StoreParking.transition_cas] is the form
      that other files use).  [StoreFences]: writers of a generation that is no longer current are inert, with two
      exceptions that are named there.
    - [StoreParking]: no accepted steer is lost when its generation ends, closes or is replaced;
      [StoreReaping]: nor when it is reaped or evicted, and the cleanup pass refines a policy on
      single jobs.  [StoreRecovery]: parked steers are readable by their owner only, hidden while
      a recovery turn sends them, and gone once consumed or discarded.
    - [StoreQueue]: admission with receipts, exactly-once queueing under retries, drain and
      restore, at-most-once delivery.  [StoreIndex]: the per-user listing is exact.
    - [ApprovalRaces]: at most one decision per review under every interleaving, from the
      interface [ApprovalStore] alone.  [ApprovalRuns]: the wait for a pause barrier ends, what
      resolve and expire answer, and the round trip from pause to resolve.
    - [ClaimRaces]: of any number of requests for one turn at most one is admitted and at most one
      creates a generation, whatever the interleaving, however often a claim is taken over, and
      although replies of the store are lost.  A claim is held under two keys, the second one for
      replicas that run an older release; it lives 25 hours, so that runs are bounded by that window
      ([StoreClaims.leased_once]), and each request has an identifier of its own.  [ClaimRepair]: an
      admitted request leaves both keys in agreement.
    - [PreemptSafety]: when everything that was started has finished and the running replica has heard
      of the removals, a steer that interrupts the run is still queued, whatever the interleaving of
      requests, cancellations, escalations, boundaries, handovers and messages on any number of
      replicas ([PreemptRuns] has the world, the protocol and the invariant; [StoreSteering] what the
      operations of the store do to queue and claims).  The replicas share one store, with the
      operations of the in-memory one; ids drawn at random are fresh; up to twenty steers are queued
      in the generation, the number of removals that a runtime remembers
      ([Preempts.PreemptExamples.a_tombstone_is_evicted] shows the limit); the store's protocol
      version of the job does not rise while it runs; boundaries and handovers of the generation run
      on the replica that owns it, whose runtime stays.  [Preempts.interrupts_are_bounded]: the
      interrupts of a runtime stay well formed.
    - [SteerAuthority]: the steering routes act on the user's own generations only, fenced to the one
      they read, and accept only what the store has confirmed.
    - [Steering]: a claim passes on all that the store hands out; a reconnecting subscriber is
      told exactly what it missed.  [EventTransport]: unsubscriptions and drain proofs are exact.
    - [RedisRuns]: a subscriber is called with increasing sequence numbers in every run, whatever
      the others do short of throwing ([RedisReorder] and [RedisOrder] have the invariants).
      [RedisWindow] and [RedisResume]: for subscribers that stay and do not throw, the reorder buffer
      implements a reference that only knows which numbers arrived, so that the order of arrival does
      not matter inside a window of a hundred frames, a subscriber that resumes misses nothing, and
      what waits for a lost frame is delivered by the timer; a subscriber that leaves while it is
      called breaks a flush ([RedisResume.leaving_breaks_the_flush], a defect of the code).
    - [RedisPublisher], [RedisReceipts], [RedisPublication]: batches are bounded and
      timed; receipts follow the order of emission, are settled once and name the frame of exactly
      their chunk; frames of a stream carry consecutive numbers whichever replica sent them (as long
      as counters do not expire, [timely], and other replicas run the same scripts, [honest_input]).
      [RedisDelivery] puts both halves together: what a generation emits reaches the subscribers of
      every replica once and in order.
    - [RedisProofs]: a proof is found exactly when it was recorded under the same ids within a day.
      [RedisAborts]: a confirmed abort was accepted by an owner of exactly that generation, or that
      owner had been fenced off and stopped its provider ([RedisRuns.calm] has the steps that
      cannot confirm one).  [RedisSplicing]: a frame is the JSON of its message, and is read back as it.
    - [RedisStore]: the Redis store gives the same answers as the in-memory store to every sequence
      of steering calls.  [RedisRows] relates the keys of a stream to the in-memory store;
      [RedisAdmission], [RedisDrain] and [RedisEdits] are the simulation, method by method.  The
      relation leaves key expiry out: receipts are assumed live on both sides
      ([RedisStore.receipts_live]).  Calls that callers do not make are answered differently and are
      excluded ([RedisStore.respected]): handing back nothing, cancelling a steer whose job is gone,
      queueing two steers under one id.  [clearSteers] is not compared: in memory it settles the
      receipts of the steers it drops, while in Redis that is left to the next read of a receipt.
    - [RedisRoundTrip]: a job that is written as a hash is read back, up to empty texts, defaults, what
      the reader validates and a property that it does not know ([RedisRoundTrip.as_read]); a receipt
      with an empty conversation id breaks the read
      ([RedisRoundTrip.empty_conversation_breaks_the_read], a defect of the code).  Reading throws where the source would hold a [NaN] or an [undefined]
      in a property that every job has.  A field of the hash holds a word or a document
      ([RedisLua.text]); which one is known from its name.
    - [RedisClaims]: the five scripts on idempotency claims answer as the in-memory store, for claims
      that expire by one clock.  A release that expects a claim without a token is outside of the
      theorem, because the two stores differ on it ([RedisClaims.tokenless_release_differs], a defect
      of the code); callers do not make one.
    - [RedisParking]: the Redis store answers every sequence of parkings, claims, consumptions and
      discards of parked steers as the in-memory one.  [RedisParcels] reads payloads up to the order
      of their properties; [RedisRecovery] is the simulation, method by method.  Payloads are those
      that the code parks: steers with texts, times that are not negative and no empty file lists.
    - [RedisStreams]: so does the whole life of a stream between its creation and its deletion: the
      Redis store answers every sequence of steering, recovery, closings, status transitions, updates,
      fences, acknowledgements and deletions as the in-memory one.  [RedisWrites]: the hash keeps the job that the
      in-memory store assigns; [RedisTerminal], [RedisMoves] and [RedisStatus]: the unsettled steers of a
      job that ends are marked, merged with what was parked and drained alike.  The relation holds
      neither the expiries nor the keys of content, events and epochs, which the scripts only delete or
      expire.  Callers respect what the manager does ([RedisStreams.proper]): transitions leave an active
      status, patches do not say whose job it is and set no property that they also clear, a closed
      queue has no steer that is also parked (the closing script and the in-memory store would keep
      different copies).  [RedisReaping.sweep_refines]: a visit of the cleanup leaves the stream
      as the in-memory visit does, for a job that both judge alike ([RedisReaping.swept_fine]).
    - [RedisMembership]: the membership sets list what the hash says, once every reconciliation has
      returned, whatever the interleaving, but for the set of a user that has expired, which can
      happen under a paused job ([RedisMembership.paused_job_leaves_its_user], a defect of the code).
      The set of jobs that owe a host action is left out of the theorem: it is also written without
      reconciling ([RedisMembership.listing_forgets_a_host_action], another one).
    - [SseRuns]: frames are shown once, none is lost, a closed stream is silent, an ended feed is
      reported.
    - [EditorPolicy]: only the answer to the open question is displayed, and the metrics add up;
      the badge says what was measured, the offline completion is the most used
      word, and the badge asks about the symbol that is completed.

    More places where the code does other than its comments say are recorded by the examples
    [SseRuns.covered_terminal_push_fails], [Steering.claim_of_orphaned_steers_is_destructive],
    [ClaimRaces.repair_leaves_no_winner] (two requests that repair a half-written claim may both be
    refused) and [ClaimRaces.release_forgets_a_creation] (a release checks and then deletes).

    ** Fuel

    The only loop without a structural bound is the wait for a pause barrier
    ([Approval.waitForPausePersistence], one turn per poll); [OutOfFuel] means that it is still
    waiting.  [ApprovalRuns.wait_is_bounded] gives the number of turns after which it has returned,
    without interference and whatever the state of the stream (what is left of the owner's
    deadline divided by the polling period, plus two: 1202 turns for a fresh barrier).  The fuel of
    [Sse.utf8_ok] and of [SteerRoutes.trim_leading] is the length of their input, and so
    is that of [JsonText.parse], which [JsonText.parse_stringify] shows to be enough for every text
    that is printed; the fuel of [RedisReceiver.flush_loop] is the number of messages in the buffer, each turn of which removes one.

    ** What is not modelled

    - [percentile] of [completionPolicy.ts], whose rank is a floating-point product.  The
      acceptance rate is the exact quotient, not its rounding to a double.
    - The rest of the Redis job store: the script that creates a job, the chunks of a stream, and
      the caches that a process keeps of its own streams.
    - The rest of the generation job manager ([stream/GenerationJobManager.ts]), which creates runtimes,
      publishes terminal events and orchestrates the store, the lifecycles and the transport; the media
      of a steer ([buildMedia]) and the rewriting of the transcript ([applySteer]), which are calls that
      may fail; and the TypeScript sidecar
      ([packages/ts-sidecar/src]): to be modelled next, on top of the parts above.
    - Vendored server and client code around third-party services (databases, model providers,
      React), the Rust desktop host and the Python engine. *)

From Stdlib Require Export ZArith Lia Sorted.
From stdpp Require Export base tactics decidable option numbers strings sets list.

#[global] Set Default Goal Selector "!".

(** ** Results of code that may throw *)

(** What a synchronous run of source code produces: a value, or the thrown error. *)
Inductive result (E A : Type) : Type :=
| Ok (a : A)
| Throw (e : E).
Arguments Ok {E A} a.
Arguments Throw {E A} e.

#[export] Instance result_ret {E} : MRet (result E) := fun A a => Ok a.
#[export] Instance result_bind {E} : MBind (result E) :=
  fun A B f r => match r with Ok a => f a | Throw e => Throw e end.
#[export] Instance result_fmap {E} : FMap (result E) :=
  fun A B f r => match r with Ok a => Ok (f a) | Throw e => Throw e end.

(** [is_ok r] holds when the run did not throw. *)
Definition is_ok {E A} (r : result E A) : bool :=
  match r with Ok _ => true | Throw _ => false end.

(** Run [k] only when the guard holds, otherwise throw [e]. *)
Definition ensure {E} (b : bool) (e : E) : result E () :=
  if b then Ok tt else Throw e.

(** ** Instants: a JavaScript number used as an expiry, finite or [Infinity] *)

Inductive instant :=
| At (z : Z)
| Never.

#[export] Instance instant_eq_dec : EqDecision instant.
Proof. solve_decision. Defined.

(** [t <= now] *)
Definition expired (t : instant) (now : Z) : bool :=
  match t with At z => bool_decide (z <= now)%Z | Never => false end.

(** [Math.max] on instants *)
Definition imax (a b : instant) : instant :=
  match a, b with
  | At x, At y => At (Z.max x y)
  | _, _ => Never
  end.

(** The order of instants. *)
Definition ile (a b : instant) : Prop :=
  match a, b with
  | _, Never => True
  | Never, At _ => False
  | At x, At y => (x <= y)%Z
  end.

(** ** Lists deduplicated on a key, keeping the first occurrence *)

(** The idiom [const seen = new Set(); l.filter(x => !seen.has(key x) && seen.add(key x))]. *)
Fixpoint dedup_from {A K : Type} `{EqDecision K} (key : A -> K) (seen : list K) (l : list A)
  : list A :=
  match l with
  | [] => []
  | x :: l' =>
      if decide (key x ∈ seen) then dedup_from key seen l'
      else x :: dedup_from key (key x :: seen) l'
  end.

Definition dedup_on {A K : Type} `{EqDecision K} (key : A -> K) (l : list A) : list A :=
  dedup_from key [] l.

(** The first element satisfying a boolean test ([Array.prototype.find]). *)
Fixpoint find_first {A} (p : A -> bool) (l : list A) : option A :=
  match l with
  | [] => None
  | x :: l' => if p x then Some x else find_first p l'
  end.

(** The index of the first element satisfying the test ([Array.prototype.findIndex]). *)
Fixpoint find_index {A} (p : A -> bool) (l : list A) : option nat :=
  match l with
  | [] => None
  | x :: l' => if p x then Some 0 else S <$> find_index p l'
  end.

(** Removal of the element at an index ([l.splice(i, 1)]). *)
Definition splice1 {A} (i : nat) (l : list A) : list A := take i l ++ drop (S i) l.

(** A stable sort by an integer key ([l.sort((a, b) => key(a) - key(b))]). *)
Fixpoint insert_on {A} (key : A -> Z) (x : A) (l : list A) : list A :=
  match l with
  | [] => [x]
  | y :: l' => if decide (key x <= key y)%Z then x :: l else y :: insert_on key x l'
  end.
Definition sort_on {A} (key : A -> Z) (l : list A) : list A := foldr (insert_on key) [] l.

(** ** Automation *)

Create HintDb tempest.

(** Case analysis on every [if decide] and [match] of the goal, with substitution. *)
Ltac cases := repeat (first [case_decide | case_bool_decide | case_match]; simplify_eq/=).

(** Destruct the conjunctions and existentials among the hypotheses. *)
Ltac destr_hyps :=
  repeat match goal with
    | H : _ /\ _ |- _ => destruct H
    | H : exists _, _ |- _ => destruct H
    end.

(** Turn [bool_decide] hypotheses into propositions. *)
Ltac bool_facts :=
  repeat match goal with
    | H : bool_decide _ = true |- _ => apply bool_decide_eq_true in H
    | H : bool_decide _ = false |- _ => apply bool_decide_eq_false in H
    | H : andb _ _ = true |- _ => apply andb_true_iff in H; destruct H
    | H : orb _ _ = false |- _ => apply orb_false_iff in H; destruct H
    | H : negb _ = true |- _ => apply negb_true_iff in H
    | H : negb _ = false |- _ => apply negb_false_iff in H
    end.

(** ** Lemmas on results *)

Lemma result_bind_ok {E A B} (r : result E A) (f : A -> result E B) b :
  (r ≫= f) = Ok b -> exists a, r = Ok a /\ f a = Ok b.
Proof. destruct r; [eauto | done]. Qed.

(** ** Lemmas on instants *)

Lemma imax_l a b : ile a (imax a b).
Proof. destruct a, b; simpl; (done || lia). Qed.

Lemma imax_r a b : ile b (imax a b).
Proof. destruct a, b; simpl; (done || lia). Qed.

Lemma ile_refl a : ile a a.
Proof. destruct a; simpl; (done || lia). Qed.

Lemma ile_trans a b c : ile a b -> ile b c -> ile a c.
Proof. destruct a, b, c; simpl; (done || lia). Qed.

Lemma expired_mono a b now : ile a b -> expired b now = true -> expired a now = true.
Proof.
  destruct a, b; simpl; try done. intros Hle H.
  bool_facts. apply bool_decide_eq_true. lia.
Qed.

Lemma expired_ile a b now : ile a b -> expired a now = false -> expired b now = false.
Proof.
  intros Hle Ha. destruct (expired b now) eqn:Hb; [|done].
  by rewrite (expired_mono a b now Hle Hb) in Ha.
Qed.

#[export] Hint Resolve imax_l imax_r ile_refl : tempest.

(** ** Lemmas on deduplication *)

Section dedup.
Context {A K : Type} `{EqDecision K} (key : A -> K).
Implicit Types (l : list A) (seen : list K).

Lemma dedup_from_sub seen l x : x ∈ dedup_from key seen l -> x ∈ l.
Proof.
  revert seen; induction l as [|y l IH]; intros seen; simpl; [done|].
  case_decide; rewrite ?elem_of_cons; naive_solver.
Qed.

Lemma dedup_from_fresh seen l x : x ∈ dedup_from key seen l -> key x ∉ seen.
Proof.
  revert seen; induction l as [|y l IH]; intros seen; simpl; [by rewrite elem_of_nil|].
  case_decide as Hy; [by eauto|].
  rewrite elem_of_cons; intros [->|Hx]; [done|].
  apply IH in Hx. by rewrite not_elem_of_cons in Hx; destruct Hx.
Qed.

Lemma dedup_from_keys seen l k :
  k ∈ key <$> dedup_from key seen l <-> k ∈ key <$> l /\ k ∉ seen.
Proof.
  revert seen; induction l as [|y l IH]; intros seen; simpl.
  - rewrite elem_of_nil. tauto.
  - case_decide as Hy; rewrite ?fmap_cons, ?elem_of_cons, ?IH, ?not_elem_of_cons;
      destruct (decide (k = key y)); naive_solver.
Qed.

Lemma dedup_on_keys l k : k ∈ key <$> dedup_on key l <-> k ∈ key <$> l.
Proof.
  unfold dedup_on. rewrite dedup_from_keys. split; [tauto|].
  intros; split; [done | apply not_elem_of_nil].
Qed.

Lemma dedup_from_nodup seen l : NoDup (key <$> dedup_from key seen l).
Proof.
  revert seen; induction l as [|y l IH]; intros seen; simpl; [constructor|].
  case_decide; [apply IH|]. constructor; [|apply IH].
  rewrite dedup_from_keys. rewrite not_elem_of_cons. naive_solver.
Qed.

Lemma dedup_on_nodup l : NoDup (key <$> dedup_on key l).
Proof. apply dedup_from_nodup. Qed.

Lemma dedup_from_id seen l :
  NoDup (key <$> l) -> (forall x, x ∈ l -> key x ∉ seen) -> dedup_from key seen l = l.
Proof.
  revert seen; induction l as [|y l IH]; intros seen; simpl; [done|].
  rewrite NoDup_cons. intros [Hny Hnd] Hs.
  rewrite decide_False by (apply Hs; set_solver). f_equal.
  apply IH; [done|]. intros x Hx. rewrite not_elem_of_cons. split.
  - intros Heq. apply Hny. rewrite <- Heq. by apply list_elem_of_fmap_2.
  - apply Hs. set_solver.
Qed.

Lemma dedup_on_id l : NoDup (key <$> l) -> dedup_on key l = l.
Proof. intros H. apply dedup_from_id; [done|]. intros; apply not_elem_of_nil. Qed.
End dedup.

(** ** Lemmas on [find_first], [find_index] and [splice1] *)

Lemma find_first_Some {A} (p : A -> bool) l x :
  find_first p l = Some x -> x ∈ l /\ p x = true.
Proof.
  induction l as [|y l IH]; simpl; [done|]. destruct (p y) eqn:Hy; intros H.
  - simplify_eq. split; [set_solver | done].
  - destruct (IH H). split; [set_solver | done].
Qed.

Lemma find_first_None {A} (p : A -> bool) l x :
  find_first p l = None -> x ∈ l -> p x = false.
Proof.
  induction l as [|y l IH]; simpl; [set_solver|]. destruct (p y) eqn:Hy; intros H Hx; [done|].
  apply elem_of_cons in Hx as [->|Hx]; auto.
Qed.

Lemma find_index_Some {A} (p : A -> bool) l i :
  find_index p l = Some i -> exists x, l !! i = Some x /\ p x = true.
Proof.
  revert i; induction l as [|y l IH]; intros i; simpl; [done|].
  destruct (p y) eqn:Hy; [intros [= <-]; eauto|].
  destruct (find_index p l) as [j|]; simpl; [|done]. intros [= <-]. simpl. eauto.
Qed.

Lemma splice1_sub {A} i (l : list A) x : x ∈ splice1 i l -> x ∈ l.
Proof.
  unfold splice1. rewrite elem_of_app. intros [H|H].
  - by eapply subseteq_take.
  - by eapply subseteq_drop.
Qed.

Lemma splice1_length {A} i (l : list A) :
  i < length l -> S (length (splice1 i l)) = length l.
Proof. intros H. unfold splice1. rewrite length_app, length_take, length_drop. lia. Qed.

Lemma splice1_perm {A} i (l : list A) x : l !! i = Some x -> l ≡ₚ x :: splice1 i l.
Proof.
  intros H. unfold splice1. rewrite <- (take_drop_middle l i x H) at 1.
  by rewrite Permutation_middle.
Qed.

(** ** Lemmas on sorting *)

Lemma insert_on_perm {A} (key : A -> Z) x l : insert_on key x l ≡ₚ x :: l.
Proof.
  induction l as [|y l IH]; simpl; [done|]. case_decide; [done|]. rewrite IH. constructor.
Qed.

Lemma sort_on_perm {A} (key : A -> Z) l : sort_on key l ≡ₚ l.
Proof. induction l as [|x l IH]; simpl; [done|]. by rewrite insert_on_perm, IH. Qed.

Lemma elem_of_sort_on {A} (key : A -> Z) l x : x ∈ sort_on key l <-> x ∈ l.
Proof. by rewrite sort_on_perm. Qed.

Lemma insert_on_sorted {A} (key : A -> Z) x l :
  StronglySorted (fun a b => key a <= key b)%Z l ->
  StronglySorted (fun a b => key a <= key b)%Z (insert_on key x l).
Proof.
  induction 1 as [|y l Hl IH Hy]; simpl; [repeat constructor|].
  case_decide as Hle.
  - constructor; [by constructor|]. constructor; [done|]. eapply Forall_impl; [exact Hy|].
    simpl. intros z Hz. lia.
  - constructor; [done|]. rewrite insert_on_perm. constructor; [lia | done].
Qed.

Lemma sort_on_sorted {A} (key : A -> Z) l :
  StronglySorted (fun a b => key a <= key b)%Z (sort_on key l).
Proof. induction l as [|x l IH]; simpl; [constructor|]. by apply insert_on_sorted. Qed.
