(* ===== verification/Programs.v ===== *)
(** * Asynchronous methods as programs of calls

    An [async] method runs without interruption between two [await]s, and anything may happen at
    an [await].  It is a program: a tree whose nodes are calls and whose branches are their
    answers.  A call is atomic; a pool of programs runs by letting one of them make its next call,
    or by letting the environment act. *)

From stdpp Require Import relations.
From S2P Require Import Prelude.

(** Calls of type [C], with the type of their answers; [E] is what a method may throw. *)
Inductive prog (C : Type -> Type) (E A : Type) : Type :=
| Done (r : result E A)
| Step {R : Type} (c : C R) (k : R -> prog C E A).
Arguments Done {C E A} r.
Arguments Step {C E A R} c k.

Section programs.
Context {C : Type -> Type} {E : Type}.
Abbreviation prog := (prog C E).

Fixpoint pbind {A B} (p : prog A) (f : A -> prog B) : prog B :=
  match p with
  | Done (Ok a) => f a
  | Done (Throw e) => Done (Throw e)
  | Step c k => Step c (fun r => pbind (k r) f)
  end.

Definition ret {A} (a : A) : prog A := Done (Ok a).
Definition fail {A} (e : E) : prog A := Done (Throw e).
Definition ask {R} (c : C R) : prog R := Step c ret.
(** The rest of a synchronous computation that may throw. *)
Definition lift {A} (r : result E A) : prog A := Done r.
(** [try { p } catch (e) { .. }]: the outcome of [p] as a value. *)
Fixpoint attempt {A} (p : prog A) : prog (result E A) :=
  match p with
  | Done r => ret r
  | Step c k => Step c (fun r => attempt (k r))
  end.

(** ** Predicates on the calls of a program *)

Section predicates.
(** The calls that a program may make, and the answers after which it has won. *)
Variable P : forall R, C R -> Prop.
Variable W : forall R, C R -> R -> Prop.

(** Every call satisfies [P], whatever the answers. *)
Fixpoint calls {A} (p : prog A) : Prop :=
  match p with
  | Done _ => True
  | Step c k => P _ c /\ forall r, calls (k r)
  end.

(** Until an answer in [W], the program cannot return a value outside [Q]. *)
Fixpoint guarded {A} (Q : A -> Prop) (p : prog A) : Prop :=
  match p with
  | Done (Ok a) => Q a
  | Done (Throw _) => True
  | Step c k => P _ c /\ forall r, (W _ c r /\ calls (k r)) \/ guarded Q (k r)
  end.

Lemma calls_bind {A B} (p : prog A) (f : A -> prog B) :
  calls p -> (forall a, calls (f a)) -> calls (pbind p f).
Proof.
  intros Hp Hf. induction p as [[a|e]|R c k IH]; simpl in *; [done | done|].
  destruct Hp as [Hc Hk]. split; [done|]. auto.
Qed.

Lemma calls_attempt {A} (p : prog A) : calls p -> calls (attempt p).
Proof.
  intros Hp. induction p as [r|R c k IH]; simpl in *; [done|]. destruct Hp as [Hc Hk].
  split; [done|]. auto.
Qed.

Lemma guarded_bind {A B} (Q : A -> Prop) (Q' : B -> Prop) (p : prog A) (f : A -> prog B) :
  guarded Q p -> (forall a, calls (f a)) -> (forall a, Q a -> guarded Q' (f a)) ->
  guarded Q' (pbind p f).
Proof.
  intros Hp Hc Hf. induction p as [[a|e]|R c k IH]; simpl in *; [auto | done|].
  destruct Hp as [Hcc Hk]. split; [done|]. intros r.
  destruct (Hk r) as [[Hw Ha]|Hg]; [left|right; auto].
  split; [done|]. by apply calls_bind.
Qed.

Lemma guarded_bind_calls {A B} (Q : B -> Prop) (p : prog A) (f : A -> prog B) :
  calls p -> (forall a, guarded Q (f a)) -> guarded Q (pbind p f).
Proof.
  intros Hp Hf. induction p as [[a|e]|R c k IH]; simpl in *; [auto | done|].
  destruct Hp as [Hc Hk]. split; [done|]. intros r. right. auto.
Qed.

Lemma guarded_calls {A} (Q : A -> Prop) (p : prog A) : (forall a, Q a) -> calls p -> guarded Q p.
Proof.
  intros HQ. induction p as [[a|e]|R c k IH]; simpl; [done | done|].
  intros [Hc Hk]. split; [done|]. intros r. right. auto.
Qed.
End predicates.

Lemma calls_weaken (P P' : forall R, C R -> Prop) {A} (p : prog A) :
  (forall R (c : C R), P R c -> P' R c) -> calls P p -> calls P' p.
Proof.
  intros H. induction p as [r|R c k IH]; simpl; [done|]. intros [Hc Hk]. split; auto.
Qed.

(** ** Pools of programs *)

Section pools.
(** One call on a shared state, and what everyone else may do to that state. *)
Context {St A : Type}.
Variable exec : forall R, C R -> St -> R -> St -> Prop.
Variable others : St -> St -> Prop.

Inductive pool_step : St * list (prog A) -> St * list (prog A) -> Prop :=
| step_call s s' i R (c : C R) k r ps :
    ps !! i = Some (Step c k) -> exec R c s r s' -> pool_step (s, ps) (s', <[i := k r]> ps)
| step_others s s' ps : others s s' -> pool_step (s, ps) (s', ps).

Definition pool_steps := rtc pool_step.

(** An invariant of the state that every call and the others preserve. *)
Lemma pool_invariant (P : forall R, C R -> Prop) (I : St -> Prop) s ps s' ps' :
  (forall R (c : C R) s r s', exec R c s r s' -> P R c -> I s -> I s') ->
  (forall s s', others s s' -> I s -> I s') ->
  pool_steps (s, ps) (s', ps') -> Forall (calls P) ps -> I s -> I s'.
Proof.
  intros Hc Ho Hsteps. remember (s, ps) as x eqn:Ex. remember (s', ps') as x' eqn:Ex'.
  revert s ps Ex. induction Hsteps as [x|x [s1 ps1] x' Hstep _ IH]; intros s ps -> Hp HI.
  - by injection Ex' as <- <-.
  - inversion Hstep as [s0 s0' i R c k r ps0 Hi He|s0 s0' ps0 Hs]; subst.
    + assert (Hcc : calls P (Step c k)) by (eapply Forall_lookup_1; eauto). destruct Hcc as [Hcc Hk].
      apply (IH eq_refl s1 (<[i:=k r]> ps)); [done | by apply Forall_insert | by eapply Hc].
    + apply (IH eq_refl s1 ps1); [done | done | by eapply Ho].
Qed.

(** ** Races

    A prize is taken once: a call that wins finds it there and leaves it gone, no call puts it
    back. *)

Variable P : forall R, C R -> Prop.
Variable W : forall R, C R -> R -> Prop.
Variable gone : St -> Prop.
(** What is known of every state. *)
Variable ok : St -> Prop.
Hypothesis exec_ok : forall R (c : C R) s r s', exec R c s r s' -> P R c -> ok s -> ok s'.
Hypothesis others_ok : forall s s', others s s' -> ok s -> ok s'.
Hypothesis exec_wins : forall R (c : C R) s r s',
  exec R c s r s' -> P R c -> ok s -> W R c r -> ~ gone s /\ gone s'.
Hypothesis exec_keeps : forall R (c : C R) s r s',
  exec R c s r s' -> P R c -> ok s -> gone s -> gone s'.
Hypothesis others_keep : forall s s', others s s' -> ok s -> gone s -> gone s'.

(** The values that only a winner returns. *)
Variable prize : A -> bool.
Definition has_won (p : prog A) : bool :=
  match p with Done (Ok a) => prize a | _ => false end.
Definition winners (ps : list (prog A)) : nat := length (filter (fun p => has_won p = true) ps).

(** A thread is marked once it has won; a marked thread means that the prize is gone. *)
Definition marks (l : list bool) : nat := length (filter (fun b => b = true) l).

Lemma marks_insert won i b b' :
  won !! i = Some b -> marks (<[i := b']> won) + Nat.b2n b = marks won + Nat.b2n b'.
Proof using.
  unfold marks. revert i. induction won as [|x won IH]; intros [|i] Hi; simpl in *; try done.
  - injection Hi as ->. rewrite !filter_cons. destruct b, b'; simpl; lia.
  - specialize (IH i Hi). rewrite !filter_cons. case_decide; simpl; lia.
Qed.

Lemma marks_replicate n : marks (replicate n false) = 0.
Proof using.
  unfold marks. induction n as [|n IH]; simpl; [done|]. by rewrite filter_cons, decide_False.
Qed.

Definition thread_ok (p : prog A) (won : bool) : Prop :=
  if won then calls P p else guarded P W (fun a => prize a = false) p.

Record pool_ok (s : St) (ps : list (prog A)) (won : list bool) : Prop := {
  po_threads : Forall2 thread_ok ps won;
  po_once : marks won <= 1;
  po_state : ok s;
  po_gone : marks won <> 0 -> gone s
}.

Lemma pool_ok_step s ps s' ps' won :
  pool_step (s, ps) (s', ps') -> pool_ok s ps won -> exists won', pool_ok s' ps' won'.
Proof using exec_ok others_ok exec_wins exec_keeps others_keep.
  intros Hstep [Ht Hone Hstate Hgone].
  inversion Hstep as [s0 s0' i R c k r ps0 Hi He|s0 s0' ps0 Ho]; subst.
  2: { exists won. split; [done | done | by eapply others_ok|].
       intros Hm. by eapply others_keep; [| |apply Hgone]. }
  destruct (Forall2_lookup_l _ _ _ _ _ Ht Hi) as (b & Hb & Hok).
  assert (Hc : P R c) by (destruct b; simpl in Hok; by destruct Hok).
  assert (Hkeep : gone s -> gone s') by by eapply exec_keeps.
  assert (Hstate' : ok s') by by eapply exec_ok.
  destruct b; simpl in Hok; destruct Hok as [_ Hk].
  - exists won. split; [|done | done | by eauto].
    rewrite <- (list_insert_id won i true Hb). by apply Forall2_insert, Hk.
  - destruct (Hk r) as [[Hw Ha]|Hg].
    + destruct (exec_wins R c s r s' He Hc Hstate Hw) as [Hnot Hg'].
      exists (<[i := true]> won). pose proof (marks_insert won i false true Hb) as Hmi.
      assert (Hz : marks won = 0) by (destruct (decide (marks won = 0)); [done|]; by destruct Hnot; auto).
      split; [by apply Forall2_insert | simpl in Hmi; lia | done | done].
    + exists won. split; [|done | done | by eauto].
      rewrite <- (list_insert_id won i false Hb). by apply Forall2_insert.
Qed.

Lemma winners_marks ps won : Forall2 thread_ok ps won -> winners ps <= marks won.
Proof using.
  unfold winners, marks. induction 1 as [|p b ps won Hp _ IH]; simpl; [lia|].
  rewrite !filter_cons. destruct b; simpl in Hp.
  - rewrite (decide_True (P := true = true)) by done. case_decide; simpl; lia.
  - rewrite (decide_False (P := false = true)), decide_False by
      (try done; destruct p as [[]|]; simpl in *; congruence). done.
Qed.

Lemma pool_ok_steps s ps s' ps' won :
  pool_steps (s, ps) (s', ps') -> pool_ok s ps won -> exists won', pool_ok s' ps' won'.
Proof using exec_ok others_ok exec_wins exec_keeps others_keep.
  intros Hsteps. remember (s, ps) as c eqn:Ec. remember (s', ps') as c' eqn:Ec'.
  revert s ps won Ec. induction Hsteps as [c|c [s1 ps1] c' Hstep _ IH]; intros s ps won -> Hok.
  - injection Ec' as <- <-. eauto.
  - destruct (pool_ok_step _ _ _ _ _ Hstep Hok) as [won1 Hok1]. by eapply IH.
Qed.

Lemma at_most_one_winner s ps s' ps' :
  ok s -> Forall (guarded P W (fun a => prize a = false)) ps ->
  pool_steps (s, ps) (s', ps') -> winners ps' <= 1.
Proof using exec_ok others_ok exec_wins exec_keeps others_keep.
  intros Hs Hd Hsteps.
  destruct (pool_ok_steps s ps s' ps' (replicate (length ps) false) Hsteps) as [won Hok].
  - pose proof (marks_replicate (length ps)) as Hm.
    split; [|lia | done | lia]. clear Hm Hsteps. by induction Hd; constructor.
  - pose proof (winners_marks _ _ (po_threads _ _ _ Hok)). pose proof (po_once _ _ _ Hok). lia.
Qed.
End pools.

(** ** Protocols

    A thread carries a ghost state: what it owes, what it knows.  [allowed] says which calls it may
    make in it, [next] which ghost states an answer may lead to. *)

Section protocols.
Context {St G : Type}.
Variable allowed : forall R, C R -> G -> Prop.
Variable next : forall R, C R -> R -> G -> G -> Prop.

(** Started in [g], the program keeps to the protocol and ends in [Q]. *)
Fixpoint follows {A} (Q : result E A -> G -> Prop) (g : G) (p : prog A) : Prop :=
  match p with
  | Done r => Q r g
  | Step c k => allowed _ c g /\ forall r, exists g', next _ c r g g' /\ follows Q g' (k r)
  end.

Lemma follows_weaken {A} (Q Q' : result E A -> G -> Prop) g p :
  (forall r g, Q r g -> Q' r g) -> follows Q g p -> follows Q' g p.
Proof.
  intros HQ. revert g. induction p as [r|R c k IH]; intros g; simpl; [auto|].
  intros [Hc Hk]. split; [done|]. intros r. destruct (Hk r) as (g' & Hn & Hf). eauto.
Qed.

Lemma follows_bind {A B} (Q : result E A -> G -> Prop) (Q' : result E B -> G -> Prop) g p f :
  follows Q g p -> (forall a g', Q (Ok a) g' -> follows Q' g' (f a)) ->
  (forall e g', Q (Throw e) g' -> Q' (Throw e) g') -> follows Q' g (pbind p f).
Proof.
  intros Hp Hf He. revert g Hp. induction p as [[a|e]|R c k IH]; intros g; simpl; [auto | auto|].
  intros [Hc Hk]. split; [done|]. intros r. destruct (Hk r) as (g' & Hn & Hr). eauto.
Qed.

Context {A : Type}.
Variable exec : forall R, C R -> St -> R -> St -> Prop.
Variable others : St -> St -> Prop.
(** The state and the ghost states of all threads, in any order. *)
Variable I : St -> list G -> Prop.
Hypothesis I_order : forall s gs gs', gs ≡ₚ gs' -> I s gs -> I s gs'.
Hypothesis exec_keeps : forall R (c : C R) s r s' g g' gs,
  exec R c s r s' -> allowed R c g -> next R c r g g' -> I s (g :: gs) -> I s' (g' :: gs).
Hypothesis others_keep : forall s s' gs, others s s' -> I s gs -> I s' gs.

Lemma protocol_step (Q : result E A -> G -> Prop) s ps s' ps' gs :
  pool_step exec others (s, ps) (s', ps') -> Forall2 (follows Q) gs ps -> I s gs ->
  exists gs', Forall2 (follows Q) gs' ps' /\ I s' gs'.
Proof using I_order exec_keeps others_keep.
  intros Hstep Hf HI. inversion Hstep as [s0 s0' i R c k r ps0 Hi He|s0 s0' ps0 Ho]; subst; [|eauto].
  destruct (Forall2_lookup_r _ _ _ _ _ Hf Hi) as (g & Hg & Hc & Hk).
  destruct (Hk r) as (g' & Hn & Hr). exists (<[i := g']> gs). split; [by apply Forall2_insert|].
  assert (Hlt : i < length gs) by by eapply lookup_lt_Some.
  set (rest := take i gs ++ drop (S i) gs).
  assert (Hperm : gs ≡ₚ g :: rest).
  { rewrite <- (take_drop_middle gs i g Hg) at 1. symmetry. apply Permutation_middle. }
  assert (Hperm' : <[i := g']> gs ≡ₚ g' :: rest).
  { rewrite insert_take_drop by done. symmetry. apply Permutation_middle. }
  eapply I_order; [by symmetry|]. eapply exec_keeps; [done | done | done|]. by eapply I_order.
Qed.

Lemma protocol_invariant (Q : result E A -> G -> Prop) s ps s' ps' gs :
  pool_steps exec others (s, ps) (s', ps') -> Forall2 (follows Q) gs ps -> I s gs ->
  exists gs', Forall2 (follows Q) gs' ps' /\ I s' gs'.
Proof using I_order exec_keeps others_keep.
  intros Hsteps. remember (s, ps) as x eqn:Ex. remember (s', ps') as x' eqn:Ex'.
  revert s ps gs Ex. induction Hsteps as [x|x [s1 ps1] x' Hstep _ IH]; intros s ps gs -> Hf HI.
  - injection Ex' as <- <-. eauto.
  - destruct (protocol_step _ _ _ _ _ _ Hstep Hf HI) as (gs1 & Hf1 & HI1). by eapply IH.
Qed.
End protocols.

(** ** Protocols whose ghost states are computed

    [advance] says what an answer makes of the ghost state. *)

Section ghosts.
Context {G : Type}.
Variable allowed : forall R, C R -> G -> Prop.
Variable advance : forall R, C R -> R -> G -> G.

(** Started in [g], the program keeps to the protocol and ends in [Q]. *)
Definition obeys {A} (Q : result E A -> G -> Prop) (g : G) (p : prog A) : Prop :=
  follows allowed (fun R c r g g' => g' = advance R c r g) Q g p.

Lemma obeys_step {A R} (Q : result E A -> G -> Prop) g (c : C R) (p : R -> prog A) :
  allowed _ c g -> (forall r, obeys Q (advance _ c r g) (p r)) -> obeys Q g (Step c p).
Proof. intros Hc Hp. split; [done|]. intros r. eexists. split; [done | apply Hp]. Qed.

Lemma obeys_bind {A B} (Q : result E A -> G -> Prop) (Q' : result E B -> G -> Prop) g
    (p : prog A) (f : A -> prog B) :
  obeys Q g p -> (forall x g', Q (Ok x) g' -> obeys Q' g' (f x)) ->
  (forall e g', Q (Throw e) g' -> Q' (Throw e) g') -> obeys Q' g (pbind p f).
Proof. apply follows_bind. Qed.

Lemma obeys_weaken {A} (Q Q' : result E A -> G -> Prop) g (p : prog A) :
  obeys Q g p -> (forall r g', Q r g' -> Q' r g') -> obeys Q' g p.
Proof. intros Hp HQ. by eapply follows_weaken. Qed.

Lemma obeys_ask {A R} (Q : result E A -> G -> Prop) g (c : C R) (f : R -> prog A) :
  allowed _ c g -> (forall r, obeys Q (advance _ c r g) (f r)) -> obeys Q g (pbind (ask c) f).
Proof. intros Hc Hf. by apply obeys_step. Qed.

Lemma obeys_ret {A} (Q : result E A -> G -> Prop) g x : Q (Ok x) g -> obeys Q g (ret x).
Proof. done. Qed.

(** Calls that the protocol does not look at. *)
Definition plain (R : Type) (c : C R) : Prop := forall g, allowed _ c g /\ forall r, advance _ c r g = g.
Definition unchanged {A} (g : G) : result E A -> G -> Prop := fun _ g' => g' = g.

Lemma obeys_plain {A} g (p : prog A) : calls plain p -> obeys (unchanged g) g p.
Proof.
  induction p as [r|R c p IH]; intros Hp; [done|]. destruct Hp as [Hc Hp]. destruct (Hc g) as [Hal Hg].
  apply obeys_step; [done|]. intros r. rewrite Hg. by apply IH.
Qed.

(** First a program that leaves the ghost state alone, then another. *)
Lemma obeys_after {A B} (Q : result E B -> G -> Prop) g (p : prog A) (f : A -> prog B) :
  obeys (unchanged g) g p -> (forall x, obeys Q g (f x)) -> (forall e, Q (Throw e) g) ->
  obeys Q g (pbind p f).
Proof.
  intros Hp Hf He. eapply obeys_bind; [exact Hp | |]; [intros x g' -> | intros e g' ->]; auto.
Qed.
End ghosts.
End programs.

Declare Scope prog_scope.
Delimit Scope prog_scope with prog.
Notation "'await' x <- p ; q" := (pbind p (fun x => q))
  (at level 200, x name, p at level 100, q at level 200) : prog_scope.
Open Scope prog_scope.
