(* ===== verification/JsMap.v ===== *)
(** * JavaScript [Map] and [Set] with string keys

    A [Map] remembers the order in which its keys were first inserted and its iteration follows
    that order; [set] on a present key replaces the value in place.  The model is the list of the
    entries in insertion order.  A [Set] of strings is the list of its members in that order. *)

From S2P Require Import Prelude.

Notation jsmap A := (list (string * A)).

Section ops.
Context {A : Type}.
Implicit Types (m : jsmap A) (k : string) (v : A).

(** [m.get(k)] *)
Fixpoint mget m k : option A :=
  match m with
  | [] => None
  | (k', v) :: m' => if decide (k' = k) then Some v else mget m' k
  end.

(** [m.has(k)] *)
Definition mhas m k : bool := bool_decide (is_Some (mget m k)).

(** [m.set(k, v)] *)
Fixpoint mset m k v : jsmap A :=
  match m with
  | [] => [(k, v)]
  | (k', v') :: m' => if decide (k' = k) then (k, v) :: m' else (k', v') :: mset m' k v
  end.

(** [m.delete(k)] *)
Definition mdel m k : jsmap A := filter (fun e => e.1 <> k) m.

(** Removal of every entry satisfying a test, the loop [for (const [k, v] of m) if ... delete]. *)
Definition mprune (p : string -> A -> bool) m : jsmap A :=
  filter (fun e => p e.1 e.2 = false) m.

(** In-place mutation of every value ([for (const v of m.values()) ...]). *)
Definition mmap (f : A -> A) m : jsmap A := (fun e => (e.1, f e.2)) <$> m.

Definition mkeys m : list string := m.*1.
Definition mvalues m : list A := m.*2.

(** The keys of a JavaScript map are distinct. *)
Definition mwf m : Prop := NoDup (mkeys m).
End ops.

(** [s.add(k)] and [s.delete(k)] on an insertion-ordered set of strings. *)
Definition sadd (s : list string) (k : string) : list string :=
  if decide (k ∈ s) then s else s ++ [k].
Definition sdel (s : list string) (k : string) : list string := filter (fun x => x <> k) s.

Section lemmas.
Context {A : Type}.
Implicit Types (m : jsmap A) (k : string) (v : A).

Lemma mget_mset_eq m k v : mget (mset m k v) k = Some v.
Proof. induction m as [|[k' v'] m IH]; simpl; cases; done. Qed.

Lemma mget_mset_ne m k k' v : k <> k' -> mget (mset m k v) k' = mget m k'.
Proof. intros H. induction m as [|[k0 v0] m IH]; simpl; repeat (case_decide; simplify_eq/=); done. Qed.

Lemma mget_mset m k k' v :
  mget (mset m k v) k' = if decide (k = k') then Some v else mget m k'.
Proof. case_decide; subst; [apply mget_mset_eq | by apply mget_mset_ne]. Qed.

Lemma mget_mdel_eq m k : mget (mdel m k) k = None.
Proof.
  induction m as [|[k' v'] m IH]; [done|]. unfold mdel in *. rewrite filter_cons.
  case_decide; [|done]. simpl. by rewrite decide_False.
Qed.

Lemma mget_mdel_ne m k k' : k <> k' -> mget (mdel m k) k' = mget m k'.
Proof.
  intros H. induction m as [|[k0 v0] m IH]; [done|]. unfold mdel in *. rewrite filter_cons.
  case_decide; simpl in *.
  - case_decide; [done | apply IH].
  - rewrite decide_False by naive_solver. apply IH.
Qed.

Lemma mget_mdel m k k' : mget (mdel m k) k' = if decide (k = k') then None else mget m k'.
Proof. case_decide; subst; [apply mget_mdel_eq | by apply mget_mdel_ne]. Qed.

Lemma mget_mmap f m k : mget (mmap f m) k = f <$> mget m k.
Proof. induction m as [|[k' v'] m IH]; simpl; [done|]. case_decide; done. Qed.

Lemma mget_mprune p m k v : mget (mprune p m) k = Some v -> exists v', mget m k = Some v'.
Proof.
  induction m as [|[k' v'] m IH]; [done|]. unfold mprune in *. rewrite filter_cons.
  simpl. case_decide; case_decide; simpl; rewrite ?decide_True, ?decide_False by done; eauto.
Qed.

Lemma mget_elem m k v : mget m k = Some v -> (k, v) ∈ m.
Proof. induction m as [|[k' v'] m IH]; simpl; [done|]. case_decide; set_solver. Qed.

Lemma elem_mget m k v : mwf m -> (k, v) ∈ m -> mget m k = Some v.
Proof.
  unfold mwf, mkeys. induction m as [|[k' v'] m IH]; simpl; [set_solver|].
  rewrite NoDup_cons. intros [Hn Hnd]. rewrite elem_of_cons. intros [Heq|Hin].
  - simplify_eq. by rewrite decide_True.
  - case_decide; [subst|by apply IH]. exfalso. apply Hn.
    by apply (list_elem_of_fmap_2 fst) in Hin.
Qed.

Lemma mkeys_mget m k : k ∈ mkeys m <-> is_Some (mget m k).
Proof.
  unfold mkeys. induction m as [|[k' v'] m IH]; simpl.
  - rewrite elem_of_nil. split; [done|]. by intros [? ?].
  - rewrite elem_of_cons, IH. case_decide; naive_solver.
Qed.

Lemma mget_None m k : mget m k = None <-> k ∉ mkeys m.
Proof. rewrite mkeys_mget, eq_None_not_Some. done. Qed.

Lemma mkeys_mset m k v k' : k' ∈ mkeys (mset m k v) <-> k' = k \/ k' ∈ mkeys m.
Proof.
  rewrite !mkeys_mget, mget_mset. case_decide; subst; [naive_solver|]. naive_solver.
Qed.

Lemma mwf_mset m k v : mwf m -> mwf (mset m k v).
Proof.
  unfold mwf. induction m as [|[k' v'] m IH]; simpl.
  - intros _. apply NoDup_singleton.
  - rewrite NoDup_cons. intros [Hn Hnd]. case_decide; subst; simpl.
    + by constructor.
    + constructor; [|by apply IH]. intros Hin.
      apply (mkeys_mset m k v k') in Hin as [?|?]; [congruence|done].
Qed.

Lemma mwf_filter (P : string * A -> Prop) `{!forall x, Decision (P x)} m :
  mwf m -> mwf (filter P m).
Proof.
  unfold mwf, mkeys. induction m as [|e m IH]; [done|]. rewrite fmap_cons, NoDup_cons.
  intros [Hn Hnd]. rewrite filter_cons. case_decide; [|auto].
  rewrite fmap_cons. constructor; [|auto]. intros Hin. apply Hn.
  apply list_elem_of_fmap in Hin as (e' & -> & He'). apply list_elem_of_filter in He' as [_ He'].
  by apply list_elem_of_fmap_2.
Qed.

Lemma mwf_mdel m k : mwf m -> mwf (mdel m k).
Proof. apply mwf_filter. Qed.

Lemma mwf_mprune p m : mwf m -> mwf (mprune p m).
Proof. apply mwf_filter. Qed.

Lemma mwf_mmap f m : mwf m -> mwf (mmap f m).
Proof.
  unfold mwf, mkeys, mmap. by rewrite <- list_fmap_compose.
Qed.

Lemma mget_mprune_wf p m k :
  mwf m -> mget (mprune p m) k = match mget m k with
                                | Some v => if p k v then None else Some v
                                | None => None
                                end.
Proof.
  intros Hwf. destruct (mget m k) as [v|] eqn:Hv.
  - destruct (p k v) eqn:Hp.
    + apply mget_None. unfold mkeys. intros Hin.
      apply list_elem_of_fmap in Hin as ([k' v'] & -> & Hin).
      apply list_elem_of_filter in Hin as [Hf Hin]. simpl in *.
      apply (elem_mget _ _ _ Hwf) in Hin. simplify_eq. congruence.
    + apply elem_mget; [by apply mwf_mprune|]. apply list_elem_of_filter. split; [done|].
      by apply mget_elem.
  - destruct (mget (mprune p m) k) as [v|] eqn:Hp; [|done].
    apply mget_mprune in Hp as [v' Hv']. congruence.
Qed.

Lemma mset_mset m k v v' : mset (mset m k v) k v' = mset m k v'.
Proof.
  induction m as [|[k0 v0] m IH]; simpl; [by rewrite decide_True|].
  case_decide as Hk; simpl; [by rewrite decide_True|]. by rewrite decide_False, IH.
Qed.

Lemma length_mset_some m k v : is_Some (mget m k) -> length (mset m k v) = length m.
Proof.
  induction m as [|[k' v'] m IH]; simpl; [by intros [? ?]|].
  case_decide; simpl; intros; [done|]. by rewrite IH.
Qed.

Lemma length_mset_none m k v : mget m k = None -> length (mset m k v) = S (length m).
Proof.
  induction m as [|[k' v'] m IH]; simpl; [done|].
  case_decide; simpl; intros; [done|]. by rewrite IH.
Qed.
End lemmas.

Lemma elem_sadd s k k' : k' ∈ sadd s k <-> k' = k \/ k' ∈ s.
Proof. unfold sadd. case_decide; set_solver. Qed.

Lemma elem_sdel s k k' : k' ∈ sdel s k <-> k' <> k /\ k' ∈ s.
Proof. unfold sdel. by rewrite list_elem_of_filter. Qed.

#[export] Hint Rewrite @mget_mset_eq @mget_mdel_eq @mget_mmap : jsmap.
#[export] Hint Resolve mwf_mset mwf_mdel mwf_mprune mwf_mmap : tempest.
