(* ===== verification/Json.v ===== *)
(** * JSON values and JSON texts

    The dynamically shaped data of the program: recovery payloads kept as JSON strings by the job
    store, request parameters, stream frames.  [json] is what [JSON.parse] can return; numbers are
    the finite ones, an integer or a finite decimal [m / 10^e] that is not an integer.  An object is
    the list of its own properties in insertion order.

    A JSON text is observed by the code only through [JSON.parse], so [jtext] is a text up to that
    observation: one that does not parse, or the value it parses to.  Property access follows
    JavaScript: on [null] it throws, on other non-objects it gives [undefined]; [undefined] is
    [None]. *)

From S2P Require Import Prelude JsMap.

Inductive jnum :=
| NInt (z : Z)
| NDec (m : Z) (e : positive).

#[export] Instance jnum_eq_dec : EqDecision jnum.
Proof. solve_decision. Defined.

Inductive json :=
| JNull
| JBool (b : bool)
| JNum (n : jnum)
| JStr (s : string)
| JArr (l : list json)
| JObj (o : list (string * json)).

Fixpoint json_eqb (a b : json) {struct a} : bool :=
  match a, b with
  | JNull, JNull => true
  | JBool x, JBool y => bool_decide (x = y)
  | JNum x, JNum y => bool_decide (x = y)
  | JStr x, JStr y => bool_decide (x = y)
  | JArr l, JArr l' =>
      (fix go l l' := match l, l' with
                      | [], [] => true
                      | x :: l, y :: l' => json_eqb x y && go l l'
                      | _, _ => false
                      end) l l'
  | JObj o, JObj o' =>
      (fix go o o' := match o, o' with
                      | [], [] => true
                      | (k, x) :: o, (k', y) :: o' =>
                          bool_decide (k = k') && json_eqb x y && go o o'
                      | _, _ => false
                      end) o o'
  | _, _ => false
  end.

(** ** Texts *)

Inductive jtext :=
| Malformed
| Text (v : json).

(** [JSON.parse], [None] when it throws. *)
Definition JSON_parse (t : jtext) : option json :=
  match t with Malformed => None | Text v => Some v end.

(** [JSON.stringify] of a value built from JSON. *)
Definition JSON_stringify (v : json) : jtext := Text v.

(** ** Property access *)

(** [v.k] where [v] is known not to be [null]; [None] is [undefined]. *)
Definition jfield (v : json) (k : string) : option json :=
  match v with JObj o => mget o k | _ => None end.

(** [v.k], throwing a [TypeError] on [null]. *)
Definition jprop (v : json) (k : string) : option (option json) :=
  match v with JNull => None | _ => Some (jfield v k) end.

(** [v.k = x] and [delete v.k] on an object. *)
Definition jset (v : json) (k : string) (x : json) : json :=
  match v with JObj o => JObj (mset o k x) | _ => v end.
Definition jdel (v : json) (k : string) : json :=
  match v with JObj o => JObj (mdel o k) | _ => v end.

(** A property written only when defined: [...(x !== undefined && { k: x })]. *)
Definition opt_prop (k : string) (x : option json) : list (string * json) :=
  match x with Some v => [(k, v)] | None => [] end.

(** ** Dynamic type tests *)

(** [x == null] *)
Definition nullish (x : option json) : bool :=
  match x with None | Some JNull => true | _ => false end.

(** [typeof x === 'string'], with the string. *)
Definition as_string (x : option json) : option string :=
  match x with Some (JStr s) => Some s | _ => None end.

(** [Array.isArray(x)], with the elements. *)
Definition as_array (x : option json) : option (list json) :=
  match x with Some (JArr l) => Some l | _ => None end.

(** [x === s] for a string [s]. *)
Definition is_string (x : option json) (s : string) : bool := bool_decide (as_string x = Some s).

(** [x === n] for an integer [n]. *)
Definition is_int (x : option json) (n : Z) : bool :=
  match x with Some (JNum (NInt z)) => bool_decide (z = n) | _ => false end.

(** [typeof v === 'object' && v !== null && !Array.isArray(v)] *)
Definition is_plain_object (v : json) : bool :=
  match v with JObj _ => true | _ => false end.

(** [v != null && typeof v === 'object'], arrays included. *)
Definition is_object (v : json) : bool :=
  match v with JObj _ | JArr _ => true | _ => false end.

(** [Number.MAX_SAFE_INTEGER] *)
Definition MAX_SAFE_INTEGER : Z := 2 ^ 53 - 1.

(** [Number.isSafeInteger(x) && x >= 0] for a number [x]. *)
Definition safe_epoch (z : Z) : bool := bool_decide (0 <= z <= MAX_SAFE_INTEGER)%Z.

(** [typeof x === 'number' && Number.isSafeInteger(x) && x >= 0] *)
Definition is_safe_epoch (x : option json) : bool :=
  match x with Some (JNum (NInt z)) => safe_epoch z | _ => false end.

(** ** Lemmas *)

Section json_ind.
Variable P : json -> Prop.
Hypothesis Hnull : P JNull.
Hypothesis Hbool : forall b, P (JBool b).
Hypothesis Hnum : forall n, P (JNum n).
Hypothesis Hstr : forall s, P (JStr s).
Hypothesis Harr : forall l, Forall P l -> P (JArr l).
Hypothesis Hobj : forall o, Forall (fun e => P e.2) o -> P (JObj o).

(** Induction with hypotheses on the elements of arrays and the values of objects. *)
Fixpoint json_nested_ind (v : json) : P v :=
  match v with
  | JNull => Hnull
  | JBool b => Hbool b
  | JNum n => Hnum n
  | JStr s => Hstr s
  | JArr l =>
      Harr l ((fix go l : Forall P l :=
                 match l with
                 | [] => List.Forall_nil P
                 | x :: l' => List.Forall_cons P x l' (json_nested_ind x) (go l')
                 end) l)
  | JObj o =>
      Hobj o ((fix go o : Forall (fun e : string * json => P e.2) o :=
                 match o with
                 | [] => List.Forall_nil _
                 | e :: o' => List.Forall_cons _ e o' (json_nested_ind e.2) (go o')
                 end) o)
  end.
End json_ind.

Lemma json_eqb_spec a b : json_eqb a b = true <-> a = b.
Proof.
  revert b. induction a as [| | | |l IH|o IH] using json_nested_ind; intros c;
    destruct c as [| | | |l'|o']; simpl; try done; try (rewrite bool_decide_eq_true; naive_solver).
  - revert l'. induction IH as [|x l Hx _ IHl]; intros [|y l']; try done.
    rewrite andb_true_iff, Hx, IHl. naive_solver.
  - revert o'. induction IH as [|[k x] o Hx _ IHo]; intros [|[k' y] o']; try done.
    rewrite !andb_true_iff, bool_decide_eq_true, Hx, IHo. naive_solver.
Qed.

#[export] Instance json_eq_dec : EqDecision json.
Proof.
  intros a b. destruct (json_eqb a b) eqn:H.
  - left. by apply json_eqb_spec.
  - right. intros ->. by rewrite (proj2 (json_eqb_spec b b) eq_refl) in H.
Defined.

#[export] Instance jtext_eq_dec : EqDecision jtext.
Proof. solve_decision. Defined.

Lemma as_string_Some x s : as_string x = Some s <-> x = Some (JStr s).
Proof. destruct x as [[]|]; naive_solver. Qed.

Lemma as_array_Some x l : as_array x = Some l <-> x = Some (JArr l).
Proof. destruct x as [[]|]; naive_solver. Qed.

Lemma is_string_true x s : is_string x s = true <-> x = Some (JStr s).
Proof. unfold is_string. by rewrite bool_decide_eq_true, as_string_Some. Qed.

Lemma is_int_true x n : is_int x n = true <-> x = Some (JNum (NInt n)).
Proof.
  unfold is_int. split.
  - intros H. repeat case_match; try done. bool_facts. by subst.
  - intros ->. by apply bool_decide_eq_true.
Qed.

Lemma jfield_jset_eq v k x : is_plain_object v = true -> jfield (jset v k x) k = Some x.
Proof. destruct v; simpl; try done. intros _. apply mget_mset_eq. Qed.

Lemma jfield_jset_ne v k k' x : k <> k' -> jfield (jset v k x) k' = jfield v k'.
Proof. destruct v; simpl; try done. intros. by apply mget_mset_ne. Qed.

Lemma jfield_jdel_eq v k : jfield (jdel v k) k = None.
Proof. destruct v; simpl; try done. apply mget_mdel_eq. Qed.

Lemma jfield_jdel_ne v k k' : k <> k' -> jfield (jdel v k) k' = jfield v k'.
Proof. destruct v; simpl; try done. intros. by apply mget_mdel_ne. Qed.
