(* ===== verification/JsonText.v ===== *)
(** * JSON as characters

    [JSON.stringify] and [JSON.parse] on texts: the strings of UTF-8 bytes that travel on a channel.
    Elsewhere a text is taken up to what [JSON.parse] makes of it ([Json.jtext]); here is the
    printer, the parser, and that the one undoes the other, for the code that cuts and splices the
    characters of a text.  The parser takes every text of the JSON grammar: blanks, escapes,
    fractions, exponents.  A number is the decimal that the text writes; lone surrogates, which
    have no bytes, are refused; the properties of an object keep the order of the text. *)

From Stdlib Require Import Ascii.
From stdpp Require Import pretty.
From S2P Require Import Prelude JsMap Json.

(** ** Characters *)

Definition quote : ascii := "034"%char.
Definition backslash : ascii := "092"%char.
Definition code (c : ascii) : N := N_of_ascii c.

Definition hex_char (d : N) : ascii := ascii_of_N (if (d <? 10)%N then 48 + d else 87 + d).
Definition hex_value (c : ascii) : option N :=
  let n := code c in
  if ((48 <=? n) && (n <=? 57))%N then Some (n - 48)%N
  else if ((97 <=? n) && (n <=? 102))%N then Some (n - 87)%N
  else if ((65 <=? n) && (n <=? 70))%N then Some (n - 55)%N else None.

Definition digit_value (c : ascii) : option N :=
  let n := code c in if ((48 <=? n) && (n <=? 57))%N then Some (n - 48)%N else None.

(** ** Printing *)

(** The text of a character inside of a string, before [rest]. *)
Definition escape (c : ascii) (rest : string) : string :=
  let n := code c in
  let short (l : ascii) := String backslash (String l rest) in
  if (n =? 34)%N then short quote
  else if (n =? 92)%N then short backslash
  else if (n =? 8)%N then short "b"%char
  else if (n =? 9)%N then short "t"%char
  else if (n =? 10)%N then short "n"%char
  else if (n =? 12)%N then short "f"%char
  else if (n =? 13)%N then short "r"%char
  else if (n <? 32)%N
  then String backslash ("u00" +:+ String (hex_char (n / 16)) (String (hex_char (n mod 16)) rest))
  else String c rest.

Fixpoint escapes (s rest : string) : string :=
  match s with EmptyString => rest | String c s => escape c (escapes s rest) end.
Definition quoted (s : string) : string := String quote (escapes s (String quote EmptyString)).

(** The last [n] decimals of [r], leading zeros included. *)
Fixpoint decimals (n : nat) (r : N) : string :=
  match n with
  | O => EmptyString
  | S n => String (pretty_N_char (r / 10 ^ N.of_nat n)) (decimals n (r mod 10 ^ N.of_nat n))
  end.

(** A decimal without an exponent, as numbers between 1e-6 and 1e21 are written. *)
Definition number_text (n : jnum) : string :=
  match n with
  | NInt z => pretty z
  | NDec m e =>
      let scale := (10 ^ Npos e)%N in let a := Z.abs_N m in
      (if (m <? 0)%Z then "-" else "") +:+ pretty (a / scale)%N +:+ "." +:+ decimals (Pos.to_nat e) (a mod scale)
  end.

(** [texts.join(',')] *)
Fixpoint join (texts : list string) : string :=
  match texts with
  | [] => EmptyString
  | [x] => x
  | x :: l => x +:+ "," +:+ join l
  end.

(** [JSON.stringify(v)] *)
Fixpoint stringify (v : json) : string :=
  match v with
  | JNull => "null"
  | JBool b => if b then "true" else "false"
  | JNum n => number_text n
  | JStr s => quoted s
  | JArr l => "[" +:+ join (List.map stringify l) +:+ "]"
  | JObj o => "{" +:+ join (List.map (fun e => quoted e.1 +:+ ":" +:+ stringify e.2) o) +:+ "}"
  end.

(** ** Parsing *)

Definition blank (c : ascii) : bool := bool_decide (code c ∈ [32; 9; 10; 13]%N).
Fixpoint skip (s : string) : string :=
  match s with String c s' => if blank c then skip s' else s | EmptyString => EmptyString end.

(** The bytes of a code point in UTF-8. *)
Definition utf8 (n : N) (rest : string) : string :=
  let tail (k : N) := ascii_of_N (128 + (n / k) mod 64) in
  if (n <? 128)%N then String (ascii_of_N n) rest
  else if (n <? 2048)%N then String (ascii_of_N (192 + n / 64)) (String (tail 1%N) rest)
  else if (n <? 65536)%N
  then String (ascii_of_N (224 + n / 4096)) (String (tail 64%N) (String (tail 1%N) rest))
  else String (ascii_of_N (240 + n / 262144))
         (String (tail 4096%N) (String (tail 64%N) (String (tail 1%N) rest))).

Definition hex4 (a b c d : ascii) : option N :=
  a ← hex_value a; b ← hex_value b; c ← hex_value c; d ← hex_value d;
  Some (4096 * a + 256 * b + 16 * c + d)%N.
Definition high_surrogate (n : N) : bool := ((55296 <=? n) && (n <? 56320))%N.
Definition low_surrogate (n : N) : bool := ((56320 <=? n) && (n <? 57344))%N.

(** The character after a backslash, other than [u]. *)
Definition unescape (c : ascii) : option ascii :=
  let n := code c in
  if (n =? 34)%N || (n =? 92)%N || (n =? 47)%N then Some c
  else if (n =? 98)%N then Some (ascii_of_N 8)
  else if (n =? 116)%N then Some (ascii_of_N 9)
  else if (n =? 110)%N then Some (ascii_of_N 10)
  else if (n =? 102)%N then Some (ascii_of_N 12)
  else if (n =? 114)%N then Some (ascii_of_N 13) else None.

(** The characters up to the closing quote, and the text after it. *)
Fixpoint chars (s : string) : option (string * string) :=
  match s with
  | EmptyString => None
  | String c s =>
      if decide (c = quote) then Some (EmptyString, s)
      else if decide (c = backslash) then
        match s with
        | String u s1 =>
            if decide (u = "u"%char) then
              match s1 with
              | String a (String b (String c (String d s2))) =>
                  n ← hex4 a b c d;
                  if high_surrogate n then
                    match s2 with
                    | String u1 (String u2 (String a (String b (String c (String d s3))))) =>
                        m ← hex4 a b c d;
                        if bool_decide (u1 = backslash /\ u2 = "u"%char) && low_surrogate m
                        then prod_map (utf8 (65536 + 1024 * (n - 55296) + (m - 56320))) id <$> chars s3
                        else None
                    | _ => None
                    end
                  else if low_surrogate n then None
                  else prod_map (utf8 n) id <$> chars s2
              | _ => None
              end
            else x ← unescape u; prod_map (String x) id <$> chars s1
        | EmptyString => None
        end
      else if (code c <? 32)%N then None
      else prod_map (String c) id <$> chars s
  end.

(** Digits, after [acc], with their number. *)
Fixpoint digits (acc : N) (count : nat) (s : string) : N * nat * string :=
  match s with
  | EmptyString => (acc, count, s)
  | String c s' =>
      match digit_value c with Some d => digits (10 * acc + d) (S count) s' | None => (acc, count, s) end
  end.

(** No leading zeros. *)
Definition integer_part (s : string) : option (N * string) :=
  match s with
  | EmptyString => None
  | String c s' =>
      if decide (c = "0"%char) then Some (0%N, s')
      else match digits 0 0 s with (_, O, _) => None | (m, _, rest) => Some (m, rest) end
  end.
Definition fraction (m : N) (s : string) : option (N * nat * string) :=
  match s with
  | String "."%char s' => match digits m 0 s' with (_, O, _) => None | r => Some r end
  | _ => Some (m, 0, s)
  end.
Definition exponent (s : string) : option (Z * string) :=
  match s with
  | String c s' =>
      if bool_decide (c = "e"%char \/ c = "E"%char) then
        let '(sign, s') :=
          match s' with String "+"%char t => (1%Z, t) | String "-"%char t => ((-1)%Z, t) | _ => (1%Z, s') end in
        match digits 0 0 s' with
        | (_, O, _) => None
        | (e, _, rest) => Some ((sign * Z.of_N e)%Z, rest)
        end
      else Some (0%Z, s)
  | EmptyString => Some (0%Z, s)
  end.

(** [m / 10^n] in lowest terms. *)
Fixpoint reduce (n : nat) (m : Z) : jnum :=
  match n with
  | O => NInt m
  | S n' => if (m mod 10 =? 0)%Z then reduce n' (m / 10) else NDec m (Pos.of_succ_nat n')
  end.
Definition scaled (m e : Z) : jnum :=
  match e with Zpos e => reduce (Pos.to_nat e) m | _ => NInt (m * 10 ^ (- e))%Z end.

Definition minus (s : string) : Z * string :=
  match s with String "-"%char t => ((-1)%Z, t) | _ => (1%Z, s) end.
Definition number (s : string) : option (jnum * string) :=
  let '(sign, s1) := minus s in
  match integer_part s1 with
  | None => None
  | Some (m, s2) =>
      match fraction m s2 with
      | None => None
      | Some (m, n, s3) =>
          match exponent s3 with
          | None => None
          | Some (e, s4) => Some (scaled (sign * Z.of_N m) (Z.of_nat n - e), s4)
          end
      end
  end.

Fixpoint literal (w s : string) : option string :=
  match w, s with
  | EmptyString, _ => Some s
  | String c w, String d s => if decide (c = d) then literal w s else None
  | _, _ => None
  end.

Section loops.
Variable value : string -> option (json * string).

(** The rest of a non-empty array, and of a non-empty object. *)
Fixpoint elements (n : nat) (s : string) : option (list json * string) :=
  match n with
  | O => None
  | S n =>
      '(v, s1) ← value s;
      match literal "," (skip s1) with
      | Some s2 => prod_map (cons v) id <$> elements n s2
      | None => pair [v] <$> literal "]" (skip s1)
      end
  end.
Fixpoint members (n : nat) (s : string) : option (list (string * json) * string) :=
  match n with
  | O => None
  | S n =>
      match skip s with
      | EmptyString => None
      | String c s1 =>
          if decide (c = quote) then
            '(k, s2) ← chars s1;
            s3 ← literal ":" (skip s2);
            '(v, s4) ← value s3;
            match literal "," (skip s4) with
            | Some s5 => prod_map (cons (k, v)) id <$> members n s5
            | None => pair [(k, v)] <$> literal "}" (skip s4)
            end
          else None
      end
  end.
End loops.

(** A later property replaces an earlier one of the same name. *)
Definition object_of (o : list (string * json)) : json := JObj (foldl (fun m e => mset m e.1 e.2) [] o).

Fixpoint value (n : nat) (s : string) : option (json * string) :=
  match n with
  | O => None
  | S n =>
      match skip s with
      | EmptyString => None
      | String c rest =>
          if decide (c = quote) then prod_map JStr id <$> chars rest
          else if decide (c = "["%char) then
            match literal "]" (skip rest) with
            | Some s1 => Some (JArr [], s1)
            | None => prod_map JArr id <$> elements (value n) n rest
            end
          else if decide (c = "{"%char) then
            match literal "}" (skip rest) with
            | Some s1 => Some (JObj [], s1)
            | None => prod_map object_of id <$> members (value n) n rest
            end
          else if decide (c = "n"%char) then pair JNull <$> literal "ull" rest
          else if decide (c = "t"%char) then pair (JBool true) <$> literal "rue" rest
          else if decide (c = "f"%char) then pair (JBool false) <$> literal "alse" rest
          else prod_map JNum id <$> number (String c rest)
      end
  end.

(** [JSON.parse(s)], [None] when it throws. *)
Definition parse (s : string) : option json :=
  '(v, rest) ← value (String.length s) s;
  match skip rest with EmptyString => Some v | _ => None end.
(** The text as the rest of the development takes it. *)
Definition text_of (s : string) : jtext := match parse s with Some v => Text v | None => Malformed end.

(** ** Values that are written plainly

    Numbers whose shortest decimal needs no exponent, and properties with distinct names. *)

Definition plain_number (n : jnum) : bool :=
  match n with
  | NInt z => (Z.abs z <? 10 ^ 21)%Z
  | NDec m e =>
      negb (m mod 10 =? 0)%Z && (10 ^ Zpos e <=? Z.abs m * 10 ^ 6)%Z && (Z.abs m <? 10 ^ (21 + Zpos e))%Z
  end.
Fixpoint plain (v : json) : bool :=
  match v with
  | JNum n => plain_number n
  | JArr l => forallb plain l
  | JObj o => bool_decide (NoDup (List.map fst o)) && forallb (fun e => plain e.2) o
  | _ => true
  end.

(** ** Strings *)

Lemma chars_escape c rest : chars (escape c rest) = prod_map (String c) id <$> chars rest.
Proof. by destruct c as [[] [] [] [] [] [] [] []]. Qed.

Lemma chars_escapes s rest : chars (escapes s (String quote rest)) = Some (s, rest).
Proof. induction s as [|c s IH]; [done|]. cbn [escapes]. by rewrite chars_escape, IH. Qed.

Lemma escape_app c a b : escape c (a +:+ b) = escape c a +:+ b.
Proof. by destruct c as [[] [] [] [] [] [] [] []]. Qed.
Lemma escapes_app s a b : escapes s (a +:+ b) = escapes s a +:+ b.
Proof. induction s as [|c s IH]; [done|]. cbn [escapes]. by rewrite IH, escape_app. Qed.

(** ** Numbers *)

Lemma digit_value_char (d : N) : (d < 10)%N -> digit_value (pretty_N_char d) = Some d.
Proof.
  intros Hd. assert (Hin : d ∈ [0; 1; 2; 3; 4; 5; 6; 7; 8; 9]%N) by (rewrite !elem_of_cons, elem_of_nil; lia).
  repeat (apply elem_of_cons in Hin as [->|Hin]; [reflexivity|]). by apply elem_of_nil in Hin.
Qed.

Lemma pretty_go_app (x : N) s t : pretty_N_go x (s +:+ t) = pretty_N_go x s +:+ t.
Proof.
  revert s. induction (N.lt_wf_0 x) as [x _ IH]. intros s.
  destruct (decide (x = 0)%N) as [->|Hx]; [by rewrite !pretty_N_go_0|].
  rewrite (pretty_N_go_step x (s +:+ t)), (pretty_N_go_step x s) by lia.
  exact (IH (x `div` 10)%N (N.div_lt x 10 ltac:(lia) ltac:(lia)) (String (pretty_N_char (x `mod` 10)) s)).
Qed.

Lemma digits_go (x : N) s :
  (0 < x)%N -> exists n, 0 < n /\ digits 0 0 (pretty_N_go x s) = digits x n s.
Proof.
  revert s. induction (N.lt_wf_0 x) as [x _ IH]. intros s Hx. rewrite pretty_N_go_step by lia.
  pose proof (N.div_mod x 10 ltac:(lia)) as Hdm. pose proof (N.mod_lt x 10 ltac:(lia)) as Hlt.
  destruct (decide (x / 10 = 0)%N) as [H0|Hne].
  - rewrite H0, pretty_N_go_0. exists 1. split; [lia|]. cbn [digits]. rewrite digit_value_char by done.
    f_equal. lia.
  - destruct (IH (x / 10)%N (N.div_lt x 10 ltac:(lia) ltac:(lia)) (String (pretty_N_char (x mod 10)) s))
      as (n & Hn & ->); [lia|].
    exists (S n). split; [lia|]. cbn [digits]. rewrite digit_value_char by done. f_equal. lia.
Qed.

(** A positive number starts with a digit that is not zero. *)
Lemma go_head (x : N) s :
  (0 < x)%N -> exists c s', pretty_N_go x s = String c s' /\ is_Some (digit_value c) /\ c <> "0"%char.
Proof.
  revert s. induction (N.lt_wf_0 x) as [x _ IH]. intros s Hx. rewrite pretty_N_go_step by lia.
  pose proof (N.mod_lt x 10 ltac:(lia)) as Hlt. pose proof (N.div_mod x 10 ltac:(lia)) as Hdm.
  destruct (decide (x / 10 = 0)%N) as [H0|Hne].
  - rewrite H0, pretty_N_go_0. eexists _, _. split; [done|]. rewrite digit_value_char by done.
    split; [by eexists|]. intros Hc. apply (f_equal digit_value) in Hc.
    rewrite digit_value_char in Hc by done. change (digit_value "0") with (Some 0%N) in Hc. injection Hc as Hc. lia.
  - apply IH; [apply N.div_lt; lia | lia].
Qed.

(** A text that does not go on with a digit. *)
Definition no_digit (s : string) : Prop := match s with EmptyString => True | String c _ => digit_value c = None end.
Lemma digits_end x n s : no_digit s -> digits x n s = (x, n, s).
Proof. destruct s as [|c s]; [done|]. cbn. by intros ->. Qed.

Lemma integer_part_pretty (x : N) rest :
  no_digit rest -> integer_part (pretty x +:+ rest) = Some (x, rest).
Proof.
  intros Hr. unfold pretty, pretty_N. case_decide as Hx; [by subst x|].
  rewrite <- pretty_go_app. destruct (go_head x ("" +:+ rest) ltac:(lia)) as (c & t & Hc & _ & Hz).
  rewrite Hc. cbn [integer_part]. rewrite decide_False by done. rewrite <- Hc.
  destruct (digits_go x ("" +:+ rest) ltac:(lia)) as (k & Hk & ->).
  change ("" +:+ rest) with rest. rewrite digits_end by done. by destruct k; [lia|].
Qed.

(** The head of a printed natural number. *)
Lemma pretty_head (x : N) : exists c t, pretty x = String c t /\ is_Some (digit_value c).
Proof.
  unfold pretty, pretty_N. case_decide; [by eexists _, _|].
  destruct (go_head x "" ltac:(lia)) as (c & t & Hc & Hd & _). by eexists _, _.
Qed.

Lemma digits_decimals n : forall acc k r rest,
  (r < 10 ^ N.of_nat n)%N -> no_digit rest ->
  digits acc k (decimals n r +:+ rest) = ((acc * 10 ^ N.of_nat n + r)%N, k + n, rest).
Proof.
  induction n as [|n IH]; intros acc k r rest Hr Hn.
  - cbn [decimals]. change ("" +:+ rest) with rest. rewrite digits_end by done. change (10 ^ N.of_nat 0)%N with 1%N in *. f_equal. f_equal; lia.
  - cbn [decimals]. assert (Hp : (0 < 10 ^ N.of_nat n)%N) by (apply N.neq_0_lt_0, N.pow_nonzero; lia).
    assert (Hs : (10 ^ N.of_nat (S n) = 10 * 10 ^ N.of_nat n)%N) by (rewrite Nat2N.inj_succ; apply N.pow_succ_r').
    set (p := (10 ^ N.of_nat n)%N) in *. rewrite Hs in *.
    change (String ?c ?s +:+ rest) with (String c (s +:+ rest)). cbn [digits].
    assert (Hd : (r / p < 10)%N) by (apply N.Div0.div_lt_upper_bound; lia).
    rewrite digit_value_char by done. rewrite IH; [|apply N.mod_lt; lia | done].
    fold p. f_equal. f_equal; [|lia]. pose proof (N.div_mod r p ltac:(lia)). nia.
Qed.

Lemma append_assoc (a b c : string) : (a +:+ b) +:+ c = a +:+ b +:+ c.
Proof. induction a as [|x a IH]; [done|]. exact (f_equal (String x) IH). Qed.
Lemma append_length (a b : string) : String.length (a +:+ b) = String.length a + String.length b.
Proof. induction a as [|x a IH]; [done|]. exact (f_equal S IH). Qed.

(** What may follow a value: nothing, or a separator. *)
Definition ends (s : string) : bool :=
  match s with EmptyString => true | String c _ => bool_decide (c ∈ [","; "]"; "}"]%char) end.

Lemma ends_number s : ends s = true ->
  no_digit s /\ (forall m, fraction m s = Some (m, 0, s)) /\ exponent s = Some (0%Z, s).
Proof.
  destruct s as [|c s]; [done|]. intros H%bool_decide_eq_true.
  repeat (apply elem_of_cons in H as [->|H]; [done|]). by apply elem_of_nil in H.
Qed.

Lemma minus_digit c t : is_Some (digit_value c) -> minus (String c t) = (1%Z, String c t).
Proof. intros [d Hd]. destruct c as [[] [] [] [] [] [] [] []]; try done; by vm_compute in Hd. Qed.
Lemma minus_pretty (x : N) rest : minus (pretty x +:+ rest) = (1%Z, pretty x +:+ rest).
Proof. destruct (pretty_head x) as (c & t & -> & Hd). by apply minus_digit. Qed.

Lemma reduce_lowest m e : (m mod 10 <> 0)%Z -> reduce (Pos.to_nat e) m = NDec m e.
Proof.
  intros Hm. destruct (Pos2Nat.is_succ e) as [n Hn]. rewrite Hn. cbn. rewrite (proj2 (Z.eqb_neq _ _) Hm).
  f_equal. apply Pos2Nat.inj. by rewrite SuccNat2Pos.id_succ.
Qed.

Lemma number_signed (sg : Z) (x : N) rest :
  ends rest = true -> sg = 1%Z \/ sg = (-1)%Z ->
  number ((if (sg <? 0)%Z then "-" else "") +:+ pretty x +:+ rest) = Some (NInt (sg * Z.of_N x), rest).
Proof.
  intros He Hs. destruct (ends_number rest He) as (Hn & Hf & Hx). unfold number.
  assert (Hm : minus ((if (sg <? 0)%Z then "-" else "") +:+ pretty x +:+ rest) = (sg, pretty x +:+ rest)).
  { destruct Hs as [-> | ->]; [exact (minus_pretty x rest) | done]. }
  rewrite Hm, integer_part_pretty, Hf, Hx by done.
  change (scaled ?y (Z.of_nat 0 - 0)) with (NInt (y * 1)). by rewrite Z.mul_1_r.
Qed.

Lemma number_read n rest : plain_number n = true -> ends rest = true -> number (number_text n +:+ rest) = Some (n, rest).
Proof.
  intros Hp He. destruct n as [z|m e]; cbn [number_text].
  - destruct z as [|p|p].
    + by apply (number_signed 1 0 rest He); left.
    + by apply (number_signed 1 (Npos p) rest He); left.
    + by apply (number_signed (-1) (Npos p) rest He); right.
  - destruct (ends_number rest He) as (Hn & Hf & Hx). cbn in Hp.
    apply andb_true_iff in Hp as [[Hm%negb_true_iff%Z.eqb_neq _]%andb_true_iff _].
    set (a := Z.abs_N m). set (p := (10 ^ Npos e)%N).
    assert (Hp : (0 < p)%N) by (apply N.neq_0_lt_0, N.pow_nonzero; lia).
    set (sg := (if (m <? 0)%Z then -1 else 1)%Z).
    rewrite !append_assoc. unfold number.
    assert (Hmin : minus ((if (m <? 0)%Z then "-" else "") +:+ pretty (a / p)%N +:+ "." +:+
      decimals (Pos.to_nat e) (a mod p) +:+ rest) =
      (sg, pretty (a / p)%N +:+ "." +:+ decimals (Pos.to_nat e) (a mod p) +:+ rest)).
    { unfold sg. destruct (m <? 0)%Z; [done | exact (minus_pretty (a / p)%N _)]. }
    rewrite Hmin, integer_part_pretty by done.
    assert (Hpn : p = (10 ^ N.of_nat (Pos.to_nat e))%N) by (unfold p; f_equal; lia).
    assert (Hfr : fraction (a / p) ("." +:+ decimals (Pos.to_nat e) (a mod p) +:+ rest) = Some (a, Pos.to_nat e, rest)).
    { change (fraction (a / p) ("." +:+ ?t)) with
        (match digits (a / p) 0 t with (_, O, _) => None | r => Some r end).
      rewrite digits_decimals; [|rewrite <- Hpn; apply N.mod_lt; lia | done]. rewrite <- Hpn. cbn [Nat.add].
      destruct (Pos2Nat.is_succ e) as [k Hk]. rewrite Hk. do 3 f_equal. pose proof (N.div_mod a p ltac:(lia)). lia. }
    rewrite Hfr, Hx. rewrite Z.sub_0_r, positive_nat_Z. cbn [scaled].
    replace (sg * Z.of_N a)%Z with m; [by rewrite reduce_lowest|].
    unfold sg, a. destruct (m <? 0)%Z eqn:E; lia.
Qed.

(** ** Values *)

(** How a printed value starts. *)
Definition starts (s : string) : Prop :=
  exists c t, s = String c t /\ blank c = false /\ c <> "]"%char /\ c <> "}"%char.

Lemma digit_starts c : is_Some (digit_value c) -> blank c = false /\ c <> "]"%char /\ c <> "}"%char.
Proof. intros [d Hd]. destruct c as [[] [] [] [] [] [] [] []]; try done; by vm_compute in Hd. Qed.

(** A number starts with a digit or a sign. *)
Lemma number_head n : exists c t, number_text n = String c t /\ (is_Some (digit_value c) \/ c = "-"%char).
Proof.
  assert (Hp : forall (x : N) s, exists c t, pretty x +:+ s = String c t /\ is_Some (digit_value c)).
  { intros x s. destruct (pretty_head x) as (c & t & -> & Hd). by exists c, (t +:+ s). }
  destruct n as [[|p|p]|m e]; cbn [number_text].
  - eexists _, _. split; [done|]. left. by eexists.
  - destruct (pretty_head (Npos p)) as (c & t & Ht & Hd). exists c, t. split; [exact Ht | by left].
  - eexists _, _. split; [done | by right].
  - destruct (m <? 0)%Z; [eexists _, _; split; [done | by right]|].
    edestruct Hp as (c & t & Ht & Hd). exists c, t. split; [exact Ht | by left].
Qed.

Lemma stringify_starts v : starts (stringify v).
Proof.
  destruct v as [|[]|n|s|l|o]; try (by eexists _, _).
  destruct (number_head n) as (c & t & Ht & H). exists c, t. split; [exact Ht|].
  destruct H as [Hd | ->]; [by apply digit_starts | done].
Qed.

Lemma starts_app s t : starts s -> starts (s +:+ t).
Proof. intros (c & u & -> & H). by exists c, (u +:+ t). Qed.
Lemma skip_starts s : starts s -> skip s = s.
Proof. intros (c & t & -> & H & _). cbn. by rewrite H. Qed.
Lemma starts_not s c : starts s -> c = "]"%char \/ c = "}"%char -> literal (String c EmptyString) s = None.
Proof. intros (d & t & -> & _ & H1 & H2) Hc. cbn. rewrite decide_False; [done|]. by destruct Hc as [-> | ->]; congruence. Qed.

Lemma value_number n s c t :
  s = String c t -> is_Some (digit_value c) \/ c = "-"%char -> value (S n) s = prod_map JNum id <$> number s.
Proof.
  intros -> [[d Hd] | ->]; [|done].
  destruct c as [[] [] [] [] [] [] [] []]; try done; by vm_compute in Hd.
Qed.

Section loop_lemmas.
Variable read : string -> option (json * string).
(** Values that are read back before whatever may follow. *)
Definition reads (v : json) : Prop := forall rest, ends rest = true -> read (stringify v +:+ rest) = Some (v, rest).

Lemma elements_read l n rest :
  l <> [] -> length l <= n -> Forall reads l ->
  elements read n (join (List.map stringify l) +:+ String "]" rest) = Some (l, rest).
Proof.
  revert n. induction l as [|v l IH]; intros n Hne Hn Hl; [done|]. destruct n as [|n]; [cbn in Hn; lia|].
  apply Forall_cons in Hl as [Hv Hl]. destruct l as [|w l].
  - cbn [List.map join elements]. by rewrite Hv.
  - change (join (List.map stringify (v :: w :: l))) with (stringify v +:+ "," +:+ join (List.map stringify (w :: l))).
    rewrite !append_assoc. cbn [elements]. rewrite Hv by done. cbn [mbind option_bind].
    change (literal "," (skip ("," +:+ ?x))) with (Some x). cbv iota beta. rewrite IH; [done | done | cbn in *; lia | done].
Qed.

Definition property (e : string * json) : string := quoted e.1 +:+ ":" +:+ stringify e.2.

Lemma member_read n k v tail :
  reads v -> ends tail = true ->
  members read (S n) (property (k, v) +:+ tail) =
  match literal "," (skip tail) with
  | Some s => prod_map (cons (k, v)) id <$> members read n s
  | None => pair [(k, v)] <$> literal "}" (skip tail)
  end.
Proof.
  intros Hv Ht. unfold property, quoted. cbn [fst snd]. rewrite !append_assoc.
  change (String quote ?x +:+ ?y) with (String quote (x +:+ y)). rewrite <- escapes_app.
  change (String quote EmptyString +:+ ?y) with (String quote y).
  cbn [members]. change (skip (String quote ?x)) with (String quote x). cbv iota beta.
  rewrite decide_True by done. rewrite chars_escapes. cbn [mbind option_bind].
  change (literal ":" (skip (":" +:+ ?x))) with (Some x). cbn [mbind option_bind]. by rewrite Hv.
Qed.

Lemma members_read (o : list (string * json)) n rest :
  o <> [] -> length o <= n -> Forall (fun e => reads e.2) o ->
  members read n (join (List.map property o) +:+ String "}" rest) = Some (o, rest).
Proof.
  revert n. induction o as [|[k v] o IH]; intros n Hne Hn Ho; [done|]. destruct n as [|n]; [cbn in Hn; lia|].
  apply Forall_cons in Ho as [Hv Ho]. cbn [snd] in Hv. destruct o as [|e o].
  - cbn [List.map join]. by rewrite member_read.
  - change (join (List.map property ((k, v) :: e :: o))) with
      (property (k, v) +:+ "," +:+ join (List.map property (e :: o))).
    rewrite !append_assoc, member_read by done.
    change (literal "," (skip ("," +:+ ?x))) with (Some x). cbv iota beta.
    rewrite IH; [done | done | cbn in *; lia | done].
Qed.
End loop_lemmas.

(** A text that is joined is at least as long as each part, and as there are parts. *)
Lemma join_bound {A} (f : A -> string) (l : list A) n :
  (forall x, x ∈ l -> f x <> EmptyString) -> String.length (join (List.map f l)) <= n ->
  length l <= n /\ Forall (fun x => String.length (f x) <= n) l.
Proof.
  revert n. induction l as [|x l IH]; intros n Hne Hn; [split; [cbn; lia | constructor]|].
  assert (Hx : 1 <= String.length (f x)).
  { specialize (Hne x ltac:(by left)). destruct (f x); [done | cbn; lia]. }
  destruct l as [|y l]; [cbn in *; split; [lia | by repeat constructor]|].
  change (join (List.map f (x :: y :: l))) with (f x +:+ "," +:+ join (List.map f (y :: l))) in Hn.
  rewrite !append_length in Hn. cbn [String.length] in Hn.
  destruct (IH (n - 2)) as [H1 H2]; [intros z Hz; apply Hne; by right | lia|].
  split; [cbn [length] in *; lia|]. constructor; [lia|]. eapply Forall_impl; [exact H2|]. intros z. cbn. lia.
Qed.

Lemma object_of_distinct o : NoDup (List.map fst o) -> object_of o = JObj o.
Proof.
  intros Hd. unfold object_of. f_equal.
  assert (H : forall (o m : list (string * json)), NoDup (List.map fst (m ++ o)) ->
    foldl (fun m e => mset m e.1 e.2) m o = m ++ o).
  { clear. induction o as [|[k v] o IH]; intros m Hd; [by rewrite app_nil_r|]. cbn [foldl fst snd].
    assert (Hk : mset m k v = m ++ [(k, v)]).
    { rewrite List.map_app in Hd. cbn in Hd. assert (Hn : k ∉ List.map fst m).
      { intros Hin. apply NoDup_app in Hd as (_ & Hd & _). by apply (Hd k Hin); left. }
      clear -Hn. induction m as [|[k' v'] m IH]; [done|]. cbn in *. apply not_elem_of_cons in Hn as [H1 H2].
      rewrite decide_False by done. by rewrite IH. }
    rewrite Hk, IH; [by rewrite <- app_assoc | by rewrite <- app_assoc]. }
  exact (H o [] Hd).
Qed.

Lemma fuel_positive v n : String.length (stringify v) <= n -> exists k, n = S k.
Proof.
  intros Hn. destruct n as [|k]; [|by exists k]. destruct (stringify_starts v) as (c & t & E & _).
  rewrite E in Hn. cbn in Hn. lia.
Qed.

Lemma value_read v : plain v = true -> forall n, String.length (stringify v) <= n -> reads (value n) v.
Proof.
  induction v as [|b|m|s|l IH|o IH] using json_nested_ind; intros Hp n Hn rest He;
    destruct (fuel_positive _ _ Hn) as [k ->]; rename k into n.
  - done.
  - by destruct b.
  - destruct (number_head m) as (c & t & Ht & Hc). cbn [stringify].
    rewrite (value_number n (number_text m +:+ rest) c (t +:+ rest)); [by rewrite number_read | by rewrite Ht | done].
  - cbn [stringify]. unfold quoted. change (String quote ?x +:+ ?y) with (String quote (x +:+ y)).
    rewrite <- escapes_app. change (String quote EmptyString +:+ ?y) with (String quote y). cbn [value].
    change (skip (String quote ?x)) with (String quote x). cbv iota beta. rewrite decide_True by done.
    by rewrite chars_escapes.
  - destruct l as [|x l]; [done|]. cbn [plain] in Hp. set (xs := x :: l) in *.
    cbn [stringify] in *. rewrite !append_assoc in *. rewrite !append_length in Hn. cbn [String.length] in Hn.
    destruct (join_bound stringify xs n) as [Hl Hs].
    { intros y _ Hy. destruct (stringify_starts y) as (c & t & E & _). by rewrite E in Hy. }
    { lia. }
    assert (Hst : starts (join (List.map stringify xs) +:+ String "]" rest)).
    { apply starts_app. unfold xs. destruct l; [apply stringify_starts|]. apply starts_app, stringify_starts. }
    change (value (S n) ("[" +:+ ?s)) with
      (match literal "]" (skip s) with
       | Some s1 => Some (JArr [], s1)
       | None => prod_map JArr id <$> elements (value n) n s
       end).
    change ("]" +:+ rest) with (String "]" rest).
    rewrite skip_starts, starts_not by (done || by left). rewrite elements_read; [done | done | done|].
    rewrite Forall_forall in Hs. apply Forall_forall. intros y Hy. rewrite forallb_forall in Hp.
    rewrite Forall_forall in IH. apply IH; [done | by apply Hp, list_elem_of_In | by apply Hs].
  - destruct o as [|e o]; [done|]. cbn [plain] in Hp. set (es := e :: o) in *.
    apply andb_true_iff in Hp as [Hd Hp]. apply bool_decide_eq_true in Hd.
    change (stringify (JObj es)) with ("{" +:+ join (List.map property es) +:+ "}") in *.
    rewrite !append_assoc in *. rewrite !append_length in Hn. cbn [String.length] in Hn.
    destruct (join_bound property es n) as [Hl Hs]; [done | lia|].
    assert (Hst : starts (join (List.map property es) +:+ String "}" rest)).
    { apply starts_app. unfold es. destruct o; [by eexists _, _|]. apply starts_app. by eexists _, _. }
    change (value (S n) ("{" +:+ ?s)) with
      (match literal "}" (skip s) with
       | Some s1 => Some (JObj [], s1)
       | None => prod_map object_of id <$> members (value n) n s
       end).
    change ("}" +:+ rest) with (String "}" rest).
    rewrite skip_starts, starts_not by (done || by right). rewrite members_read; [| done | done |].
    + cbn. by rewrite object_of_distinct.
    + rewrite Forall_forall in Hs. apply Forall_forall. intros y Hy. rewrite forallb_forall in Hp.
      rewrite Forall_forall in IH. apply IH; [done | by apply Hp, list_elem_of_In|].
      specialize (Hs y Hy). unfold property in Hs. rewrite !append_length in Hs. lia.
Qed.

(** What is printed is parsed back. *)
Lemma parse_stringify v : plain v = true -> parse (stringify v) = Some v.
Proof.
  intros Hp. unfold parse. pose proof (value_read v Hp _ (le_n _) EmptyString eq_refl) as H.
  assert (E : forall s, s +:+ EmptyString = s) by (induction s as [|c s IH]; [done | exact (f_equal (String c) IH)]).
  rewrite E in H. by rewrite H.
Qed.
Lemma text_of_stringify v : plain v = true -> text_of (stringify v) = JSON_stringify v.
Proof. intros Hp. unfold text_of. by rewrite parse_stringify. Qed.

Module JsonTextDemo.
Definition q (s : string) : string := String quote (s +:+ String quote EmptyString).
End JsonTextDemo.

Example blanks_and_escapes_parse :
  parse (" { " +:+ JsonTextDemo.q "a\u0041\/" +:+ " : [ 1.50e1 , -0.25, null ,{}, 12E-3 ] , " +:+
         JsonTextDemo.q "b" +:+ ":true}") =
  Some (JObj [("aA/", JArr [JNum (NInt 15); JNum (NDec (-25) 2); JNull; JObj []; JNum (NDec 12 3)]);
              ("b", JBool true)]).
Proof. by vm_compute. Qed.
Example malformed_texts_are_refused :
  parse <$> ["[1,2,]"; "01"; "{a:1}"; "1 2"; "[1"; "-"; "1."; JsonTextDemo.q "\ud83d"; JsonTextDemo.q "\x"; "nul"; ""] =
  replicate 11 None.
Proof. by vm_compute. Qed.
