(* ===== verification/StreamTypes.v ===== *)
(** * Data of the generation-job store ([stream/interfaces/IJobStore.ts])

    Jobs, steering messages, their receipts, the arguments of an atomic status transition and the
    idempotency claims, with the constants of the store contract.  Each TypeScript interface is a
    record in a module of its own, with the source's property names; an optional property is an
    [option].  The job properties that no modelled operation reads (sender, endpoint, model, usage
    snapshots, ...) are kept together, by name, in [Job.metadata]. *)

From stdpp Require Export pretty.
From S2P Require Import Prelude JsMap Json.

(** ** Constants *)

Definition PAUSE_PERSISTENCE_TIMEOUT_MS : Z := 30000.
Definition PAUSE_PERSISTENCE_TIMEOUT_ERROR : string := "Paused response persistence timed out".

(** Maximum number of steers queued at once, and the rejection codes of an enqueue. *)
Definition STEER_QUEUE_MAX_DEPTH : nat := 10.
Definition STEER_ENQUEUE_NOT_RUNNING : Z := -1.
Definition STEER_ENQUEUE_QUEUE_FULL : Z := -2.
Definition STEER_ENQUEUE_RECEIPT_FULL : Z := -3.

(** ** Job status and protocol version *)

Inductive JobStatus := running | complete | error | aborted | requires_action.

#[export] Instance JobStatus_eq_dec : EqDecision JobStatus.
Proof. solve_decision. Defined.

(** [['complete', 'error', 'aborted'].includes(status)] *)
Definition terminal (s : JobStatus) : bool :=
  match s with complete | error | aborted => true | running | requires_action => false end.

(** [status === 'running' || status === 'requires_action'] *)
Definition active (s : JobStatus) : bool :=
  match s with running | requires_action => true | complete | error | aborted => false end.

(** [GenerationProtocolVersion = 1 | 2] *)
Inductive GenerationProtocolVersion := V1 | V2.

#[export] Instance GenerationProtocolVersion_eq_dec : EqDecision GenerationProtocolVersion.
Proof. solve_decision. Defined.

Definition protocol_json (p : GenerationProtocolVersion) : json :=
  JNum (NInt (match p with V1 => 1 | V2 => 2 end)).

(** [Math.max] of two versions. *)
Definition protocol_max (p q : GenerationProtocolVersion) : GenerationProtocolVersion :=
  match p, q with V1, V1 => V1 | _, _ => V2 end.

(** ** The review a paused job waits for *)

Module PendingAction.
Record t := mk {
  actionId : string;
  expiresAt : option Z;
  payload : json
}.
End PendingAction.

#[export] Instance PendingAction_eq_dec : EqDecision PendingAction.t.
Proof. solve_decision. Defined.

(** ** Predecessors replaced by a creation *)

Module ReplacedGeneration.
Record t := mk {
  createdAt : Z;
  status : JobStatus;
  conversationId : option string;
  providerAbortReady : option bool;
  providerExecutionId : option string;
  providerDrained : option bool
}.
End ReplacedGeneration.

#[export] Instance ReplacedGeneration_eq_dec : EqDecision ReplacedGeneration.t.
Proof. solve_decision. Defined.

(** ** Jobs *)

(** [CreatedJobData]: [SerializableJobData] with the three properties that the stores keep
    non-enumerable ([creationAttemptId], [replacedJob], [replacedJobs]). *)
Module Job.
Record t := mk {
  streamId : string;
  userId : string;
  tenantId : option string;
  status : JobStatus;
  createdAt : Z;
  generationProtocolVersion : option GenerationProtocolVersion;
  checkpointNamespace : option string;
  completedAt : option Z;
  conversationId : option string;
  error : option string;
  idempotencyClientRequestId : option string;
  recoveredSteerId : option string;
  preemptCapable : option bool;
  providerAbortReady : option bool;
  providerExecutionId : option string;
  providerDrained : option bool;
  syncSent : bool;
  preserveForScheduleReconcile : option bool;
  terminalHostActionPending : option bool;
  terminalHostActionRefreshedAt : option Z;
  finalEvent : option string;
  terminalPersistencePending : option bool;
  terminalPersistenceStartedAt : option Z;
  pendingAction : option PendingAction.t;
  pendingActionId : option string;
  lastActiveAt : option Z;
  metadata : list (string * json);
  creationAttemptId : option string;
  replacedJob : option ReplacedGeneration.t;
  replacedJobs : option (list ReplacedGeneration.t)
}.
End Job.

#[export] Instance Job_eq_dec : EqDecision Job.t.
Proof. solve_decision. Defined.

(** One assigned property of a [Partial<SerializableJobData>]. *)
Inductive JobField :=
| F_streamId (v : string)
| F_userId (v : string)
| F_tenantId (v : string)
| F_status (v : JobStatus)
| F_createdAt (v : Z)
| F_generationProtocolVersion (v : GenerationProtocolVersion)
| F_checkpointNamespace (v : string)
| F_completedAt (v : Z)
| F_conversationId (v : string)
| F_error (v : string)
| F_idempotencyClientRequestId (v : string)
| F_recoveredSteerId (v : string)
| F_preemptCapable (v : bool)
| F_providerAbortReady (v : bool)
| F_providerExecutionId (v : string)
| F_providerDrained (v : bool)
| F_syncSent (v : bool)
| F_preserveForScheduleReconcile (v : bool)
| F_terminalHostActionPending (v : bool)
| F_terminalHostActionRefreshedAt (v : Z)
| F_finalEvent (v : string)
| F_terminalPersistencePending (v : bool)
| F_terminalPersistenceStartedAt (v : Z)
| F_pendingAction (v : PendingAction.t)
| F_pendingActionId (v : string)
| F_lastActiveAt (v : Z)
| F_metadata (key : string) (v : json).

(** [job.key = value] *)
Definition assign1 (j : Job.t) (f : JobField) : Job.t :=
  match f with
  | F_streamId v => {| j with Job.streamId := v |}
  | F_userId v => {| j with Job.userId := v |}
  | F_tenantId v => {| j with Job.tenantId := Some v |}
  | F_status v => {| j with Job.status := v |}
  | F_createdAt v => {| j with Job.createdAt := v |}
  | F_generationProtocolVersion v => {| j with Job.generationProtocolVersion := Some v |}
  | F_checkpointNamespace v => {| j with Job.checkpointNamespace := Some v |}
  | F_completedAt v => {| j with Job.completedAt := Some v |}
  | F_conversationId v => {| j with Job.conversationId := Some v |}
  | F_error v => {| j with Job.error := Some v |}
  | F_idempotencyClientRequestId v => {| j with Job.idempotencyClientRequestId := Some v |}
  | F_recoveredSteerId v => {| j with Job.recoveredSteerId := Some v |}
  | F_preemptCapable v => {| j with Job.preemptCapable := Some v |}
  | F_providerAbortReady v => {| j with Job.providerAbortReady := Some v |}
  | F_providerExecutionId v => {| j with Job.providerExecutionId := Some v |}
  | F_providerDrained v => {| j with Job.providerDrained := Some v |}
  | F_syncSent v => {| j with Job.syncSent := v |}
  | F_preserveForScheduleReconcile v => {| j with Job.preserveForScheduleReconcile := Some v |}
  | F_terminalHostActionPending v => {| j with Job.terminalHostActionPending := Some v |}
  | F_terminalHostActionRefreshedAt v => {| j with Job.terminalHostActionRefreshedAt := Some v |}
  | F_finalEvent v => {| j with Job.finalEvent := Some v |}
  | F_terminalPersistencePending v => {| j with Job.terminalPersistencePending := Some v |}
  | F_terminalPersistenceStartedAt v => {| j with Job.terminalPersistenceStartedAt := Some v |}
  | F_pendingAction v => {| j with Job.pendingAction := Some v |}
  | F_pendingActionId v => {| j with Job.pendingActionId := Some v |}
  | F_lastActiveAt v => {| j with Job.lastActiveAt := Some v |}
  | F_metadata k v => {| j with Job.metadata := mset (Job.metadata j) k v |}
  end.

(** [Object.assign(job, patch)] *)
Definition assign (j : Job.t) (patch : list JobField) : Job.t := foldl assign1 j patch.

(** The optional properties a transition may [delete]. *)
Inductive JobKey :=
| K_tenantId
| K_completedAt
| K_conversationId
| K_error
| K_recoveredSteerId
| K_preemptCapable
| K_providerExecutionId
| K_providerDrained
| K_terminalHostActionPending
| K_finalEvent
| K_terminalPersistencePending
| K_terminalPersistenceStartedAt
| K_pendingAction
| K_pendingActionId
| K_lastActiveAt
| K_metadata (key : string).

#[export] Instance JobKey_eq_dec : EqDecision JobKey.
Proof. solve_decision. Defined.

(** [delete job[key]] *)
Definition clear1 (j : Job.t) (k : JobKey) : Job.t :=
  match k with
  | K_tenantId => {| j with Job.tenantId := None |}
  | K_completedAt => {| j with Job.completedAt := None |}
  | K_conversationId => {| j with Job.conversationId := None |}
  | K_error => {| j with Job.error := None |}
  | K_recoveredSteerId => {| j with Job.recoveredSteerId := None |}
  | K_preemptCapable => {| j with Job.preemptCapable := None |}
  | K_providerExecutionId => {| j with Job.providerExecutionId := None |}
  | K_providerDrained => {| j with Job.providerDrained := None |}
  | K_terminalHostActionPending => {| j with Job.terminalHostActionPending := None |}
  | K_finalEvent => {| j with Job.finalEvent := None |}
  | K_terminalPersistencePending => {| j with Job.terminalPersistencePending := None |}
  | K_terminalPersistenceStartedAt => {| j with Job.terminalPersistenceStartedAt := None |}
  | K_pendingAction => {| j with Job.pendingAction := None |}
  | K_pendingActionId => {| j with Job.pendingActionId := None |}
  | K_lastActiveAt => {| j with Job.lastActiveAt := None |}
  | K_metadata k => {| j with Job.metadata := mdel (Job.metadata j) k |}
  end.

Definition clear (j : Job.t) (keys : list JobKey) : Job.t := foldl clear1 j keys.

(** [JobMetadataPatch]: the properties a caller may set at creation or on resume. *)
Module JobMetadataPatch.
Record t := mk {
  conversationId : option string;
  preemptCapable : option bool;
  providerExecutionId : option string;
  providerDrained : option bool;
  generationProtocolVersion : option GenerationProtocolVersion;
  preserveForScheduleReconcile : option bool;
  other : list (string * json)
}.

Definition empty : t := mk None None None None None None [].
End JobMetadataPatch.

(** The spread [...patch] as a list of assigned properties. *)
Definition metadata_fields (p : JobMetadataPatch.t) : list JobField :=
  option_list (F_conversationId <$> JobMetadataPatch.conversationId p) ++
  option_list (F_preemptCapable <$> JobMetadataPatch.preemptCapable p) ++
  option_list (F_providerExecutionId <$> JobMetadataPatch.providerExecutionId p) ++
  option_list (F_providerDrained <$> JobMetadataPatch.providerDrained p) ++
  option_list
    (F_generationProtocolVersion <$> JobMetadataPatch.generationProtocolVersion p) ++
  option_list
    (F_preserveForScheduleReconcile <$> JobMetadataPatch.preserveForScheduleReconcile p) ++
  ((fun e => F_metadata e.1 e.2) <$> JobMetadataPatch.other p).

(** [exp != null && exp <= Date.now()] for the expiry of the pending action. *)
Definition isPendingActionExpired (j : Job.t) (now : Z) : bool :=
  match Job.pendingAction j ≫= PendingAction.expiresAt with
  | Some exp => bool_decide (exp <= now)%Z
  | None => false
  end.

(** [!job.pendingAction || isPendingActionExpired(job)] *)
Definition isPendingActionStale (j : Job.t) (now : Z) : bool :=
  match Job.pendingAction j with
  | None => true
  | Some _ => isPendingActionExpired j now
  end.

(** ** Steering messages and their receipts *)

Module SteerQueueItem.
Record t := mk {
  steerId : string;
  clientSteerId : option string;
  text : string;
  userId : string;
  createdAt : Z;
  files : option (list json);
  preempt : option bool;
  preemptRevision : option Z
}.
End SteerQueueItem.

#[export] Instance SteerQueueItem_eq_dec : EqDecision SteerQueueItem.t.
Proof. solve_decision. Defined.

Inductive ReceiptState := queued | claimed | delivered | leftover | recovered | cancelled.

#[export] Instance ReceiptState_eq_dec : EqDecision ReceiptState.
Proof. solve_decision. Defined.

Module SteerReceipt.
Record t := mk {
  clientSteerId : string;
  fingerprint : string;
  userId : string;
  tenantId : option string;
  agentId : option string;
  endpoint : option string;
  generationCreatedAt : Z;
  item : SteerQueueItem.t;
  position : nat;
  state : ReceiptState
}.
End SteerReceipt.

#[export] Instance SteerReceipt_eq_dec : EqDecision SteerReceipt.t.
Proof. solve_decision. Defined.

(** [SteerReceiptInput = Omit<SteerReceipt, 'item' | 'position' | 'state'>] *)
Module SteerReceiptInput.
Record t := mk {
  clientSteerId : string;
  fingerprint : string;
  userId : string;
  tenantId : option string;
  agentId : option string;
  endpoint : option string;
  generationCreatedAt : Z
}.
End SteerReceiptInput.

(** [SteerEnqueueReceiptResult = SteerReceipt | SteerEnqueueResult | number] *)
Inductive SteerEnqueueOutcome :=
| EnqueueReceipt (r : SteerReceipt.t)
| EnqueueResult (item : SteerQueueItem.t) (position : nat)
| EnqueueRejected (code : Z).

(** [SteerArmResult] *)
Inductive SteerArmResult :=
| Armed (revision : Z) (item : SteerQueueItem.t)
| ArmMissing
| ArmIncapable.

(** ** Status transitions *)

Module JobStatusTransition.
Record t := mk {
  from : JobStatus;
  to : JobStatus;
  patch : list JobField;
  clear : list JobKey;
  expectActionId : option string;
  expectCreatedAt : option Z;
  steerReceiptTtlSeconds : option Z
}.
End JobStatusTransition.

(** [args.patch?.pendingAction?.expiresAt]: the last assigned pending action wins. *)
Definition patch_pendingAction (patch : list JobField) : option PendingAction.t :=
  foldl (fun acc f => match f with F_pendingAction a => Some a | _ => acc end) None patch.

Definition patch_approvalExpiry (patch : list JobField) : option Z :=
  patch_pendingAction patch ≫= PendingAction.expiresAt.

(** ** Idempotency claims *)

Module IdempotencyClaimValue.
Record t := mk {
  streamId : string;
  conversationId : string;
  generationProtocolVersion : option GenerationProtocolVersion;
  claimedAt : option Z;
  claimToken : option string;
  previousClaimToken : option string;
  startedAt : option Z
}.
End IdempotencyClaimValue.

#[export] Instance IdempotencyClaimValue_eq_dec : EqDecision IdempotencyClaimValue.t.
Proof. solve_decision. Defined.

(** ** Errors thrown by the store *)

(** [GenerationPredecessorState] *)
Module GenerationPredecessorState.
Record t := mk {
  createdAt : Z;
  status : option JobStatus;
  conversationId : option string;
  active : bool;
  verified : bool
}.
End GenerationPredecessorState.

Inductive StoreError :=
| PlainError (message : string)
| TypeError
| JobPredecessorMismatchError (currentJob : GenerationPredecessorState.t)
| RecoveredSteerPayloadMismatchError.

(** ** Fences *)

(** [expectedCreatedAt == null || createdAt === expectedCreatedAt] *)
Definition epoch_matches (expected : option Z) (createdAt : Z) : bool :=
  match expected with None => true | Some e => bool_decide (createdAt = e) end.

(** [tenantId == null || tenantId === other]: a record without a tenant is open to every tenant. *)
Definition tenant_matches (tenantId other : option string) : bool :=
  match tenantId with None => true | Some t => bool_decide (Some t = other) end.

(** The key of the per-user index: [tenantId ? `${tenantId}:${userId}` : userId]. *)
Definition user_key (tenantId : option string) (userId : string) : string :=
  match tenantId with
  | Some t => if decide (t = "") then userId else t +:+ ":" +:+ userId
  | None => userId
  end.

(** ** Lemmas *)

Lemma terminal_active s : terminal s = negb (active s).
Proof. by destruct s. Qed.

Lemma epoch_matches_Some e c : epoch_matches (Some e) c = true <-> c = e.
Proof. unfold epoch_matches. apply bool_decide_eq_true. Qed.

Lemma tenant_matches_refl t : tenant_matches t t = true.
Proof. destruct t; [by apply bool_decide_eq_true | done]. Qed.

(** The properties that identify a generation and its owner. *)
Definition identity_field (f : JobField) : bool :=
  match f with
  | F_streamId _ | F_userId _ | F_tenantId _ | F_createdAt _ => true
  | _ => false
  end.

Definition identity_key (k : JobKey) : bool :=
  match k with K_tenantId => true | _ => false end.

(** Two jobs that are the same generation of the same owner. *)
Record same_identity (a b : Job.t) : Prop := {
  si_streamId : Job.streamId a = Job.streamId b;
  si_userId : Job.userId a = Job.userId b;
  si_tenantId : Job.tenantId a = Job.tenantId b;
  si_createdAt : Job.createdAt a = Job.createdAt b
}.

#[export] Instance same_identity_equiv : Equivalence same_identity.
Proof.
  split.
  - intros ?; split; done.
  - intros ?? []; split; done.
  - intros ??? [] []; split; etrans; eauto.
Qed.

Lemma assign_identity j patch :
  Forall (fun f => identity_field f = false) patch -> same_identity (assign j patch) j.
Proof.
  unfold assign. intros H. revert j. induction H as [|f patch Hf _ IH]; intros j; simpl; [done|].
  etrans; [apply IH|]. destruct f; done.
Qed.

Lemma clear_identity j keys :
  Forall (fun k => identity_key k = false) keys -> same_identity (clear j keys) j.
Proof.
  unfold clear. intros H. revert j. induction H as [|k keys Hk _ IH]; intros j; simpl; [done|].
  etrans; [apply IH|]. destruct k; done.
Qed.
