(* ===== verification/SteerRecovery.v ===== *)
(** * Recovery payloads of parked steers
      ([stream/SteerRecovery.ts] and [toPendingSteer] of [stream/SteeringLifecycle.ts])

    A steer that was accepted but not injected before its run ended is parked, and a recovery turn
    must reproduce its text and the identity of its attachments exactly.  The identity of the
    attachments is the sorted list of their distinct file ids. *)

From stdpp Require Import sorting.
From S2P Require Import Prelude JsMap Json StreamTypes.

Module RecoveredSteerPayload.
Record t := mk { text : string; fileIds : list string }.
End RecoveredSteerPayload.

#[export] Instance RecoveredSteerPayload_eq_dec : EqDecision RecoveredSteerPayload.t.
Proof. solve_decision. Defined.

(** [Array.prototype.sort] on strings. *)
Definition sort_strings (l : list string) : list string := merge_sort String.le l.

(** The [file_id] of one attachment, when it names a file. *)
Definition recovery_file_id (file : json) : option string :=
  if is_object file then
    match as_string (jfield file "file_id") with
    | Some id => if decide (id = "") then None else Some id
    | None => None
    end
  else None.

(** [canonicalRecoveryFileIds(files)]; [None] is [null]. *)
Definition canonicalRecoveryFileIds (files : option json) : option (list string) :=
  if nullish files then Some []
  else match as_array files with
       | None => None
       | Some l =>
           ids ← mapM recovery_file_id l;
           Some (sort_strings (dedup_on id ids))
       end.

(** [buildRecoveredSteerPayload(text, files)] *)
Definition buildRecoveredSteerPayload (text files : option json)
  : option RecoveredSteerPayload.t :=
  match as_string text with
  | None => None
  | Some t =>
      match canonicalRecoveryFileIds files with
      | None => None
      | Some fileIds => Some (RecoveredSteerPayload.mk t fileIds)
      end
  end.

(** [fileIds.every((id, index) => index === 0 || fileIds[index - 1] < id)] *)
Fixpoint strictly_ascending (l : list string) : bool :=
  match l with
  | [] => true
  | x :: l' =>
      match l' with
      | [] => true
      | y :: _ => bool_decide (String.le x y /\ x <> y) && strictly_ascending l'
      end
  end.

(** [isRecoveredSteerPayload(value)] on a value of the declared type. *)
Definition isRecoveredSteerPayload (p : RecoveredSteerPayload.t) : bool :=
  let ids := RecoveredSteerPayload.fileIds p in
  forallb (fun i => bool_decide (i <> "")) ids &&
  bool_decide (length ids = length (dedup_on id ids)) &&
  strictly_ascending ids.

(** [recoveredSteerPayloadMatches(item, expected)] *)
Definition recoveredSteerPayloadMatches (item : json) (expected : RecoveredSteerPayload.t)
  : bool :=
  is_string (jfield item "text") (RecoveredSteerPayload.text expected) &&
  match canonicalRecoveryFileIds (jfield item "files") with
  | None => false
  | Some fileIds => bool_decide (fileIds = RecoveredSteerPayload.fileIds expected)
  end.

(** [toPendingSteer(item)]: the client-safe projection of a queued steer, without its [userId]. *)
Definition toPendingSteer (item : SteerQueueItem.t) : json :=
  JObj (
    [("steerId", JStr (SteerQueueItem.steerId item))] ++
    match SteerQueueItem.clientSteerId item with
    | Some c => if decide (c = "") then [] else [("clientSteerId", JStr c)]
    | None => []
    end ++
    [("text", JStr (SteerQueueItem.text item));
     ("createdAt", JNum (NInt (SteerQueueItem.createdAt item)))] ++
    match SteerQueueItem.files item with
    | Some (f :: fs) => [("files", JArr (f :: fs))]
    | _ => []
    end ++
    (if bool_decide (SteerQueueItem.preempt item = Some true)
     then [("preempt", JBool true)] else []) ++
    match SteerQueueItem.preemptRevision item with
    | Some r => [("preemptRevision", JNum (NInt r))]
    | None => []
    end).

(** ** Lemmas *)

Lemma sort_strings_perm l : sort_strings l ≡ₚ l.
Proof. apply merge_sort_Permutation. Qed.

Lemma sort_strings_sorted l : StronglySorted String.le (sort_strings l).
Proof. apply StronglySorted_merge_sort; apply _. Qed.

(** Two strictly sorted lists with the same members are equal. *)
Lemma sorted_same_members (l k : list string) :
  NoDup l -> NoDup k -> (forall x, x ∈ l <-> x ∈ k) -> sort_strings l = sort_strings k.
Proof.
  intros Hl Hk Hm. apply (StronglySorted_unique String.le).
  - apply sort_strings_sorted.
  - apply sort_strings_sorted.
  - rewrite !sort_strings_perm. by apply NoDup_Permutation.
Qed.

Lemma strictly_ascending_sorted l :
  NoDup l -> StronglySorted String.le l -> strictly_ascending l = true.
Proof.
  induction l as [|x l IH]; [done|]. rewrite NoDup_cons. intros [Hx Hnd] Hs.
  apply StronglySorted_inv in Hs as [Hs Hall]. destruct l as [|y l]; [done|].
  change (bool_decide (String.le x y /\ x <> y) && strictly_ascending (y :: l) = true).
  apply andb_true_iff. split; [|by apply IH].
  apply bool_decide_eq_true. split; [by inversion Hall | set_solver].
Qed.

(** The canonical list of attachments, from the ids it collects. *)
Lemma canonical_ids l ids :
  mapM recovery_file_id l = Some ids ->
  canonicalRecoveryFileIds (Some (JArr l)) = Some (sort_strings (dedup_on id ids)).
Proof. intros H. unfold canonicalRecoveryFileIds. simpl. by rewrite H. Qed.

Lemma recovery_file_id_nonempty f i : recovery_file_id f = Some i -> i <> "".
Proof. unfold recovery_file_id. intros H. by repeat case_match; simplify_eq. Qed.

Lemma canonical_spec files ids :
  canonicalRecoveryFileIds files = Some ids ->
  NoDup ids /\ StronglySorted String.le ids /\ Forall (fun i => i <> "") ids.
Proof.
  unfold canonicalRecoveryFileIds. destruct (nullish files); intros H.
  { simplify_eq. repeat constructor. }
  destruct (as_array files) as [l|]; [|done].
  destruct (mapM recovery_file_id l) as [raw|] eqn:Hraw; simpl in H; [|done]. simplify_eq.
  split; [|split].
  - rewrite sort_strings_perm. rewrite <- (list_fmap_id (dedup_on id raw)). apply dedup_on_nodup.
  - apply sort_strings_sorted.
  - rewrite Forall_forall. intros i Hi. rewrite (sort_strings_perm _) in Hi.
    apply dedup_from_sub in Hi. apply mapM_Some in Hraw.
    apply list_elem_of_lookup in Hi as [n Hn].
    destruct (Forall2_lookup_r _ _ _ _ _ Hraw Hn) as (f & _ & Hf).
    by eapply recovery_file_id_nonempty.
Qed.

Lemma dedup_on_same_length (l : list string) : NoDup l -> dedup_on id l = l.
Proof. intros H. apply dedup_on_id. by rewrite list_fmap_id. Qed.

(** Every payload the program builds passes the guard of the job store. *)
Lemma canonical_guard text ids :
  NoDup ids -> StronglySorted String.le ids -> Forall (fun i => i <> "") ids ->
  isRecoveredSteerPayload (RecoveredSteerPayload.mk text ids) = true.
Proof.
  intros Hnd Hs Hne. unfold isRecoveredSteerPayload. simpl.
  rewrite dedup_on_same_length by done. rewrite strictly_ascending_sorted by done.
  rewrite bool_decide_true by done. rewrite !andb_true_r.
  apply forallb_forall. intros i Hi. apply bool_decide_eq_true.
  rewrite Forall_forall in Hne. by apply Hne, list_elem_of_In.
Qed.
