(* ===== verification/StoreState.v ===== *)
(** * State of the in-memory job store ([stream/implementations/InMemoryJobStore.ts])

    The private fields of the class, the validation of parked recovery payloads, the retained
    generation epochs and the helpers that the steering, recovery and job operations share. *)

From S2P Require Import Prelude JsMap Json StreamTypes SteerRecovery.

(** ** Constants *)

Definition PARKED_STEERS_TTL_MS : Z := 5 * 60 * 1000.
Definition STEER_RECEIPT_TTL_MS : Z := 20 * 60 * 1000.
Definition STEER_RECEIPT_MAX_PER_STREAM : nat := 100.
Definition CREATE_REPLACEMENT_RECEIPT_MAX : nat := 32.
Definition TERMINAL_PERSISTENCE_RETENTION_MS : Z := 5 * 60 * 1000.
Definition HOST_ACTION_RETENTION_MS : Z := 24 * 60 * 60 * 1000.

(** ** Records kept in the maps *)

(** Volatile content of a job; [graphRef] is the run-step list of the referenced graph. *)
Module ContentState.
Record t := mk {
  contentParts : list json;
  graphRef : option (list json);
  collectedUsage : list json
}.
End ContentState.

Module Parked.
Record t := mk { payload : jtext; expiresAt : instant }.
End Parked.

Module ReceiptEntry.
Record t := mk { receipt : SteerReceipt.t; expiresAt : instant }.
End ReceiptEntry.

Module ClaimEntry.
Record t := mk { value : IdempotencyClaimValue.t; expiresAt : Z }.
End ClaimEntry.

Module RetainedEpoch.
Record t := mk { createdAt : Z; expiresAt : Z }.
End RetainedEpoch.

(** ** The store *)

Record Store := mkStore {
  jobs : jsmap Job.t;
  contentState : jsmap ContentState.t;
  cleanupInterval : bool;
  userJobMap : jsmap (list string);
  lastActivity : jsmap Z;
  steerQueues : jsmap (list SteerQueueItem.t);
  claimedSteers : jsmap (list SteerQueueItem.t);
  closedSteerQueues : list string;
  parkedSteers : jsmap Parked.t;
  steerReceipts : jsmap (jsmap ReceiptEntry.t);
  idempotencyClaims : jsmap ClaimEntry.t;
  ttlAfterComplete : Z;
  maxJobs : Z;
  lastGenerationEpoch : Z;
  generationEpochs : jsmap RetainedEpoch.t;
  staleJobTimeout : Z
}.

(** The constructor: a falsy [ttlAfterComplete] or [maxJobs] keeps the default. *)
Definition newStore (ttl max stale : option Z) : Store :=
  mkStore [] [] false [] [] [] [] [] [] [] []
    (match ttl with Some t => t | None => 0 end)
    (match max with Some m => if decide (m = 0)%Z then 1000 else m | None => 1000 end)%Z
    0 []
    (match stale with Some t => t | None => 1200000 end)%Z.

Definition with_jobs v (s : Store) : Store := {| s with jobs := v |}.
Definition with_contentState v (s : Store) : Store := {| s with contentState := v |}.
Definition with_userJobMap v (s : Store) : Store := {| s with userJobMap := v |}.
Definition with_lastActivity v (s : Store) : Store := {| s with lastActivity := v |}.
Definition with_steerQueues v (s : Store) : Store := {| s with steerQueues := v |}.
Definition with_claimedSteers v (s : Store) : Store := {| s with claimedSteers := v |}.
Definition with_closedSteerQueues v (s : Store) : Store := {| s with closedSteerQueues := v |}.
Definition with_parkedSteers v (s : Store) : Store := {| s with parkedSteers := v |}.
Definition with_steerReceipts v (s : Store) : Store := {| s with steerReceipts := v |}.
Definition with_idempotencyClaims v (s : Store) : Store := {| s with idempotencyClaims := v |}.
Definition with_lastGenerationEpoch v (s : Store) : Store :=
  {| s with lastGenerationEpoch := v |}.
Definition with_generationEpochs v (s : Store) : Store := {| s with generationEpochs := v |}.

(** ** A run that may throw, over the store

    The state written before a throw stays written, as in the source. *)

Definition M (A : Type) : Type := Store -> result StoreError A * Store.

Definition retM {A} (a : A) : M A := fun s => (Ok a, s).

Definition bindM {A B} (m : M A) (f : A -> M B) : M B :=
  fun s => match m s with
           | (Ok a, s') => f a s'
           | (Throw e, s') => (Throw e, s')
           end.

Declare Scope run_scope.
Delimit Scope run_scope with run.
Notation "m >>= f" := (bindM m f) (at level 60, right associativity) : run_scope.
Notation "m >> k" := (bindM m (fun _ => k)) (at level 60, right associativity) : run_scope.
Open Scope run_scope.

Definition throw {A} (e : StoreError) : M A := fun s => (Throw e, s).
Definition gets {A} (f : Store -> A) : M A := fun s => (Ok (f s), s).
Definition modify (f : Store -> Store) : M () := fun s => (Ok tt, f s).
Definition guard_throw (b : bool) (e : StoreError) : M () :=
  fun s => (if b then Throw e else Ok tt, s).

(** ** Validation of recovery payloads *)

(** [isValidParkedSteer(value)] *)
Definition isValidParkedSteer (value : json) : bool :=
  match value with
  | JObj _ =>
      match as_string (jfield value "steerId") with
      | Some id => bool_decide (id <> "")
      | None => false
      end &&
      (nullish (jfield value "clientSteerId") ||
       match as_string (jfield value "clientSteerId") with
       | Some id => bool_decide (id <> "")
       | None => false
       end) &&
      (nullish (jfield value "text") ||
       match as_string (jfield value "text") with Some _ => true | None => false end) &&
      (nullish (jfield value "createdAt") || is_safe_epoch (jfield value "createdAt")) &&
      (nullish (jfield value "recoveringCreatedAt") ||
       is_safe_epoch (jfield value "recoveringCreatedAt"))
  | _ => false
  end.

(** [usesReceiptSafeProtocol(job)] *)
Definition usesReceiptSafeProtocol (j : option Job.t) : bool :=
  match j with
  | Some j => bool_decide (Job.generationProtocolVersion j = Some V2)
  | None => false
  end.

(** [normalizeGenerationProtocol(value)], on a JSON value and on the typed property of a job. *)
Definition normalizeGenerationProtocol (value : option json) : GenerationProtocolVersion :=
  if is_int value 2 then V2 else V1.
Definition normalize_job_protocol (v : option GenerationProtocolVersion)
  : GenerationProtocolVersion := default V1 v.

(** [isValidGenerationProtocolMarker(value)] *)
Definition isValidGenerationProtocolMarker (value : option json) : bool :=
  nullish value || is_int value 1 || is_int value 2.

(** The steers of a payload when they are a non-empty array of valid items. *)
Definition valid_steers (v : json) : option (list json) :=
  match as_array (jfield v "steers") with
  | Some l => if decide (l <> [] /\ forallb isValidParkedSteer l = true) then Some l else None
  | None => None
  end.

(** The shape test that every owner-gated access to a parked payload makes:
    an object with a non-empty string [userId], a known protocol marker and valid steers. *)
Definition valid_recovery (v : json) : bool :=
  is_object v &&
  match as_string (jfield v "userId") with Some u => bool_decide (u <> "") | None => false end &&
  isValidGenerationProtocolMarker (jfield v "generationProtocolVersion") &&
  match valid_steers v with Some _ => true | None => false end.

(** [parsed.userId === userId && (parsed.tenantId == null || parsed.tenantId === tenantId)] *)
Definition payload_owner (v : json) (userId : string) (tenantId : option string) : bool :=
  is_string (jfield v "userId") userId &&
  (nullish (jfield v "tenantId") ||
   match tenantId with Some t => is_string (jfield v "tenantId") t | None => false end).

(** The parked record of a stream while it has not expired. *)
Definition live_parked (s : Store) (streamId : string) (now : Z) : option Parked.t :=
  match mget (parkedSteers s) streamId with
  | Some p => if expired (Parked.expiresAt p) now then None else Some p
  | None => None
  end.

(** [isParkedRecoveryCompatible(streamId, job)] *)
Definition isParkedRecoveryCompatible (s : Store) (streamId : string) (j : Job.t) (now : Z)
  : bool :=
  match live_parked s streamId now with
  | None => true
  | Some p =>
      match JSON_parse (Parked.payload p) with
      | None => false
      | Some v => valid_recovery v && payload_owner v (Job.userId j) (Job.tenantId j)
      end
  end.

(** ** Generation epochs *)

(** [getRetainedGenerationEpoch(streamId, now)]: reading an expired epoch deletes it. *)
Definition getRetainedGenerationEpoch (streamId : string) (now : Z) (s : Store)
  : option Z * Store :=
  match mget (generationEpochs s) streamId with
  | None => (None, s)
  | Some r =>
      if decide (RetainedEpoch.expiresAt r <= now)%Z
      then (None, with_generationEpochs (mdel (generationEpochs s) streamId) s)
      else (Some (RetainedEpoch.createdAt r), s)
  end.

(** [retainGenerationEpoch(streamId, createdAt, now)] *)
Definition retainGenerationEpoch (streamId : string) (createdAt now : Z) (s : Store) : Store :=
  match mget (generationEpochs s) streamId with
  | Some r =>
      if decide (createdAt < RetainedEpoch.createdAt r)%Z then s
      else with_generationEpochs
             (mset (generationEpochs s) streamId
                (RetainedEpoch.mk createdAt (now + PARKED_STEERS_TTL_MS))) s
  | None =>
      with_generationEpochs
        (mset (generationEpochs s) streamId
           (RetainedEpoch.mk createdAt (now + PARKED_STEERS_TTL_MS))) s
  end.

(** ** Receipts *)

(** The receipts of a stream ([this.steerReceipts.get(streamId)]), none as an empty map. *)
Definition receipts_of (s : Store) (streamId : string) : jsmap ReceiptEntry.t :=
  default [] (mget (steerReceipts s) streamId).

Definition receipt_of (s : Store) (streamId clientSteerId : string) : option ReceiptEntry.t :=
  mget (receipts_of s streamId) clientSteerId.

(** In-place mutation of every receipt entry of a stream. *)
Definition map_receipts (streamId : string) (f : ReceiptEntry.t -> ReceiptEntry.t) (s : Store)
  : Store :=
  match mget (steerReceipts s) streamId with
  | Some rs => with_steerReceipts (mset (steerReceipts s) streamId (mmap f rs)) s
  | None => s
  end.

(** In-place mutation of one receipt entry of a stream, when it exists. *)
Definition update_receipt (streamId clientSteerId : string)
    (f : ReceiptEntry.t -> ReceiptEntry.t) (s : Store) : Store :=
  match mget (steerReceipts s) streamId with
  | Some rs =>
      match mget rs clientSteerId with
      | Some e => with_steerReceipts (mset (steerReceipts s) streamId (mset rs clientSteerId (f e))) s
      | None => s
      end
  | None => s
  end.

Definition set_receipt_state (st : ReceiptState) (e : ReceiptEntry.t) : ReceiptEntry.t :=
  {| e with ReceiptEntry.receipt :=
       {| (ReceiptEntry.receipt e) with SteerReceipt.state := st |} |}.

Definition set_receipt_item (item : SteerQueueItem.t) (st : ReceiptState) (e : ReceiptEntry.t)
  : ReceiptEntry.t :=
  {| e with ReceiptEntry.receipt :=
       {| (ReceiptEntry.receipt e) with SteerReceipt.item := item; SteerReceipt.state := st |} |}.

Definition set_receipt_expiry (t : instant) (e : ReceiptEntry.t) : ReceiptEntry.t :=
  {| e with ReceiptEntry.expiresAt := t |}.

(** [entry.expiresAt = Math.max(entry.expiresAt, t)] *)
Definition extend_receipt (t : instant) (e : ReceiptEntry.t) : ReceiptEntry.t :=
  set_receipt_expiry (imax (ReceiptEntry.expiresAt e) t) e.

(** [Number.isFinite(e) ? Math.max(e, t) : t] *)
Definition bound_receipt (t : Z) (e : ReceiptEntry.t) : ReceiptEntry.t :=
  set_receipt_expiry
    (match ReceiptEntry.expiresAt e with At z => At (Z.max z t) | Never => At t end) e.

(** [settleSteerReceipts(streamId, items, state)] *)
Definition settleSteerReceipts (streamId : string) (items : list SteerQueueItem.t)
    (state : ReceiptState) (s : Store) : Store :=
  match mget (jobs s) streamId with
  | Some j =>
      if usesReceiptSafeProtocol (Some j)
      then foldl (fun s item =>
                    match SteerQueueItem.clientSteerId item with
                    | Some c => if decide (c = "") then s
                                else update_receipt streamId c (set_receipt_item item state) s
                    | None => s
                    end) s items
      else s
  | None =>
      foldl (fun s item =>
               match SteerQueueItem.clientSteerId item with
               | Some c => if decide (c = "") then s
                           else update_receipt streamId c (set_receipt_item item state) s
               | None => s
               end) s items
  end.

(** ** Queues *)

Definition queue_of (s : Store) (streamId : string) : list SteerQueueItem.t :=
  default [] (mget (steerQueues s) streamId).

(** [claimedSteerItems(streamId, generationCreatedAt)] *)
Definition claimedSteerItems (s : Store) (streamId : string) (generationCreatedAt : option Z)
  : list SteerQueueItem.t :=
  match mget (jobs s) streamId with
  | Some j =>
      if usesReceiptSafeProtocol (Some j) && epoch_matches generationCreatedAt (Job.createdAt j)
      then default [] (mget (claimedSteers s) streamId)
      else []
  | None => []
  end.

(** The distinct unsettled steers of a stream, claimed ones first. *)
Definition unsettled (s : Store) (streamId : string) (createdAt : Z)
  : list SteerQueueItem.t :=
  dedup_on SteerQueueItem.steerId
    (claimedSteerItems s streamId (Some createdAt) ++ queue_of s streamId).

(** ** Parking *)

(** The [steerId] of a parked item; a duplicate test compares objects by identity, so only
    primitive ids can be found again. *)
Definition parked_key (item : json) : option json := jfield item "steerId".
Definition by_value (k : option json) : bool :=
  match k with Some (JArr _) | Some (JObj _) => false | _ => true end.

Fixpoint dedup_parked (seen : list (option json)) (l : list json) : list json :=
  match l with
  | [] => []
  | x :: l' =>
      if decide (by_value (parked_key x) = true /\ parked_key x ∈ seen)
      then dedup_parked seen l'
      else x :: dedup_parked (parked_key x :: seen) l'
  end.

(** The recovery payload written for a job. *)
Definition recovery_payload (userId : string) (tenantId : option string)
    (protocol : GenerationProtocolVersion) (steers : list json) : json :=
  JObj ([("userId", JStr userId)] ++ opt_prop "tenantId" (JStr <$> tenantId) ++
        [("generationProtocolVersion", protocol_json protocol); ("steers", JArr steers)]).

(** The steers and the protocol already parked for the job, when its own and well marked. *)
Definition prior_parked (s : Store) (streamId : string) (j : Job.t) (now : Z)
  : list json * GenerationProtocolVersion :=
  let own := normalize_job_protocol (Job.generationProtocolVersion j) in
  match live_parked s streamId now with
  | None => ([], own)
  | Some p =>
      match JSON_parse (Parked.payload p) with
      | None => ([], own)
      | Some v =>
          if payload_owner v (Job.userId j) (Job.tenantId j) &&
             isValidGenerationProtocolMarker (jfield v "generationProtocolVersion")
          then match as_array (jfield v "steers") with
               | Some l =>
                   (l, protocol_max own
                         (normalizeGenerationProtocol (jfield v "generationProtocolVersion")))
               | None => ([], own)
               end
          else ([], own)
      end
  end.

(** [parkLeftovers(streamId, items, job, now)]; a [null] among the parked steers throws. *)
Definition parkLeftovers (streamId : string) (items : list SteerQueueItem.t) (j : option Job.t)
    (now : Z) : M () := fun s =>
  match j, items with
  | None, _ | _, [] => (Ok tt, s)
  | Some j, _ =>
      let '(prior, protocol) := prior_parked s streamId j now in
      if decide (JNull ∈ prior) then (Throw TypeError, s)
      else
        let merged := dedup_parked [] (prior ++ (toPendingSteer <$> items)) in
        let s1 := with_parkedSteers
                    (mset (parkedSteers s) streamId
                       (Parked.mk
                          (JSON_stringify
                             (recovery_payload (Job.userId j) (Job.tenantId j) protocol merged))
                          (At (now + PARKED_STEERS_TTL_MS)))) s in
        (Ok tt,
         foldl (fun s item =>
                  match SteerQueueItem.clientSteerId item with
                  | Some c => update_receipt streamId c
                                (bound_receipt (now + PARKED_STEERS_TTL_MS)) s
                  | None => s
                  end) s1 items)
  end.

(** [parkQueuedSteers(streamId, job, now)] *)
Definition parkQueuedSteers (streamId : string) (j : Job.t) (now : Z) : M () := fun s =>
  let queue := unsettled s streamId (Job.createdAt j) in
  match queue with
  | [] => (Ok tt, s)
  | _ :: _ =>
      (modify (settleSteerReceipts streamId queue leftover) >>
       parkLeftovers streamId queue (Some j) now >>
       modify (fun s => with_claimedSteers (mdel (claimedSteers s) streamId)
                          (with_steerQueues (mdel (steerQueues s) streamId) s))) s
  end.

(** ** Recovery leases *)

(** [runningRecoveryLeaseExpiry(now)] *)
Definition runningRecoveryLeaseExpiry (s : Store) (now : Z) : instant :=
  if decide (0 < staleJobTimeout s)%Z
  then At (now + staleJobTimeout s + PARKED_STEERS_TTL_MS)
  else Never.

(** The first item passing a test, stopping at a [null] (where the source throws). *)
Fixpoint find_item (p : json -> bool) (l : list json) : option json :=
  match l with
  | [] => None
  | JNull :: _ => None
  | x :: l' => if p x then Some x else find_item p l'
  end.

(** The item of a payload that job [j] is recovering. *)
Definition leased_by (j : Job.t) (item : json) : bool :=
  match Job.recoveredSteerId j with
  | Some r => is_string (jfield item "steerId") r &&
              is_int (jfield item "recoveringCreatedAt") (Job.createdAt j)
  | None => false
  end.

(** The tail of [extendRecoveryLease], once the payload and the leased item are known. *)
Definition extend_lease (streamId : string) (j : Job.t) (expiresAt : instant)
    (p : Parked.t) (v leased : json) (s : Store) : Store :=
  if payload_owner v (Job.userId j) (Job.tenantId j)
  then
    let s1 := with_parkedSteers
                (mset (parkedSteers s) streamId
                   {| p with Parked.expiresAt := imax (Parked.expiresAt p) expiresAt |}) s in
    match as_string (jfield leased "clientSteerId") with
    | Some c => update_receipt streamId c (extend_receipt expiresAt) s1
    | None => s1
    end
  else s.

(** [extendRecoveryLease(streamId, job, expiresAt)] *)
Definition extendRecoveryLease (streamId : string) (j : Job.t) (expiresAt : instant) (now : Z)
    (s : Store) : Store :=
  match Job.recoveredSteerId j with
  | None => s
  | Some _ =>
      match live_parked s streamId now with
      | None => s
      | Some p =>
          match JSON_parse (Parked.payload p) with
          | None => s
          | Some v =>
              match as_array (jfield v "steers") ≫= find_item (leased_by j) with
              | None => s
              | Some leased => extend_lease streamId j expiresAt p v leased s
              end
          end
      end
  end.

(** Marking of the first item with the given id as recovered by a generation. *)
Fixpoint mark_leased (steerId : string) (createdAt : Z) (l : list json)
  : list json * option json :=
  match l with
  | [] => ([], None)
  | x :: l' =>
      if is_string (jfield x "steerId") steerId
      then let x' := jset x "recoveringCreatedAt" (JNum (NInt createdAt)) in (x' :: l', Some x')
      else let '(l2, r) := mark_leased steerId createdAt l' in (x :: l2, r)
  end.

(** [leaseParkedSteer(streamId, steerId, ownerUserId, ownerTenantId, createdAt)] *)
Definition leaseParkedSteer (streamId : string) (steerId : option string) (ownerUserId : string)
    (ownerTenantId : option string) (createdAt now : Z) (s : Store) : Store :=
  match mget (jobs s) streamId with
  | Some j =>
      if usesReceiptSafeProtocol (Some j) then
        match live_parked s streamId now with
        | None => s
        | Some p =>
            match JSON_parse (Parked.payload p) with
            | None => s
            | Some v =>
                match as_array (jfield v "steers") with
                | None => s
                | Some l =>
                    if payload_owner v ownerUserId ownerTenantId && bool_decide (JNull ∉ l)
                    then
                      let cleared := (fun x => jdel x "recoveringCreatedAt") <$> l in
                      let '(marked, leased) :=
                        match steerId with
                        | Some id => mark_leased id createdAt cleared
                        | None => (cleared, None)
                        end in
                      let v' := jset v "steers" (JArr marked) in
                      let s1 :=
                        match leased with
                        | Some x =>
                            if bool_decide (Job.createdAt j = createdAt /\
                                            Job.recoveredSteerId j <> None)
                            then extend_lease streamId j (runningRecoveryLeaseExpiry s now) p v' x s
                            else s
                        | None => s
                        end in
                      match mget (parkedSteers s1) streamId with
                      | Some p1 =>
                          with_parkedSteers
                            (mset (parkedSteers s1) streamId
                               {| p1 with Parked.payload := JSON_stringify v' |}) s1
                      | None => s1
                      end
                    else s
                end
            end
        end
      else s
  | None => s
  end.
