(* ===== verification/StoreSteers.v ===== *)
(** * Steering queues, claims and receipts of the job store
      ([stream/implementations/InMemoryJobStore.ts], steering section)

    A steer is queued while its job runs, drained to the claimed list at a tool boundary, and
    settled when the injected content is appended.  A receipt per client id records how far it
    got.  Each method contains no [await], so each is one atomic step on the store. *)

From S2P Require Import Prelude JsMap Json StreamTypes SteerRecovery StoreState.

(** ** Enqueue *)

(** The persisted item: an interrupt request gets a revision, and the flag when the owner can
    seal. *)
Definition persisted_item (item : SteerQueueItem.t) (wantsPreempt : bool) (j : Job.t)
  : SteerQueueItem.t :=
  if wantsPreempt then
    let item := {| item with SteerQueueItem.preemptRevision := Some 1%Z |} in
    if bool_decide (Job.preemptCapable j = Some true)
    then {| item with SteerQueueItem.preempt := Some true |}
    else item
  else item.

(** The job a steer may be queued on: running, queue open, generation as expected. *)
Definition steerable_job (s : Store) (streamId : string) (expectedCreatedAt : option Z)
  : option Job.t :=
  match mget (jobs s) streamId with
  | Some j =>
      if bool_decide (Job.status j = running /\ streamId ∉ closedSteerQueues s) &&
         epoch_matches expectedCreatedAt (Job.createdAt j)
      then Some j else None
  | None => None
  end.

Definition set_queue (streamId : string) (q : list SteerQueueItem.t) (s : Store) : Store :=
  with_steerQueues (mset (steerQueues s) streamId q) s.

(** [enqueueSteerVersioned(streamId, item, wantsPreempt, expectedCreatedAt)] *)
Definition enqueueSteerVersioned (streamId : string) (item : SteerQueueItem.t)
    (wantsPreempt : bool) (expectedCreatedAt : option Z) (s : Store)
  : SteerEnqueueOutcome * Store :=
  match steerable_job s streamId expectedCreatedAt with
  | None => (EnqueueRejected STEER_ENQUEUE_NOT_RUNNING, s)
  | Some j =>
      let queue := queue_of s streamId in
      if decide (STEER_QUEUE_MAX_DEPTH <= length queue)
      then (EnqueueRejected STEER_ENQUEUE_QUEUE_FULL, s)
      else
        let persisted := persisted_item item wantsPreempt j in
        (EnqueueResult persisted (S (length queue)), set_queue streamId (queue ++ [persisted]) s)
  end.

(** [enqueueSteer(streamId, item, expectedCreatedAt)]: the queue depth or a rejection code. *)
Definition enqueueSteer (streamId : string) (item : SteerQueueItem.t)
    (expectedCreatedAt : option Z) (s : Store) : Z * Store :=
  match enqueueSteerVersioned streamId item false expectedCreatedAt s with
  | (EnqueueRejected code, s') => (code, s')
  | (EnqueueResult _ position, s') => (Z.of_nat position, s')
  | (EnqueueReceipt r, s') => (Z.of_nat (SteerReceipt.position r), s')
  end.

(** ** Receipts *)

(** [normalizeSteerReceipt(streamId, entry)]: the state after the repair. *)
Definition normalized_state (s : Store) (streamId : string) (r : SteerReceipt.t) : ReceiptState :=
  let sameActiveGeneration :=
    match mget (jobs s) streamId with
    | Some j => usesReceiptSafeProtocol (Some j) &&
                bool_decide (Job.createdAt j = SteerReceipt.generationCreatedAt r) &&
                active (Job.status j)
    | None => false
    end in
  match SteerReceipt.state r with
  | claimed => if sameActiveGeneration then claimed else leftover
  | queued =>
      if sameActiveGeneration &&
         existsb (fun i => bool_decide (SteerQueueItem.clientSteerId i =
                                        Some (SteerReceipt.clientSteerId r)))
                 (queue_of s streamId)
      then queued else leftover
  | st => st
  end.

Definition normalizeSteerReceipt (s : Store) (streamId : string) (e : ReceiptEntry.t)
  : ReceiptEntry.t :=
  set_receipt_state (normalized_state s streamId (ReceiptEntry.receipt e)) e.

Definition delete_receipt (streamId clientSteerId : string) (s : Store) : Store :=
  match mget (steerReceipts s) streamId with
  | Some rs => with_steerReceipts (mset (steerReceipts s) streamId (mdel rs clientSteerId)) s
  | None => s
  end.

(** [getSteerReceipt(streamId, clientSteerId)] *)
Definition getSteerReceipt (streamId clientSteerId : string) (now : Z) (s : Store)
  : option SteerReceipt.t * Store :=
  match receipt_of s streamId clientSteerId with
  | None => (None, s)
  | Some e =>
      if expired (ReceiptEntry.expiresAt e) now
      then (None, delete_receipt streamId clientSteerId s)
      else
        let e' := normalizeSteerReceipt s streamId e in
        (Some (ReceiptEntry.receipt e'),
         update_receipt streamId clientSteerId (fun _ => e') s)
  end.

Definition new_receipt (input : SteerReceiptInput.t) (item : SteerQueueItem.t) (position : nat)
  : SteerReceipt.t :=
  SteerReceipt.mk (SteerReceiptInput.clientSteerId input) (SteerReceiptInput.fingerprint input)
    (SteerReceiptInput.userId input) (SteerReceiptInput.tenantId input)
    (SteerReceiptInput.agentId input) (SteerReceiptInput.endpoint input)
    (SteerReceiptInput.generationCreatedAt input) item position queued.

(** [enqueueSteerWithReceipt(streamId, item, receiptInput, wantsPreempt, expectedCreatedAt)] *)
Definition enqueueSteerWithReceipt (streamId : string) (item : SteerQueueItem.t)
    (input : SteerReceiptInput.t) (wantsPreempt : bool) (expectedCreatedAt : option Z) (now : Z)
    (s : Store) : SteerEnqueueOutcome * Store :=
  let cid := SteerReceiptInput.clientSteerId input in
  let fresh (s : Store) : SteerEnqueueOutcome * Store :=
    match steerable_job s streamId expectedCreatedAt with
    | None => (EnqueueRejected STEER_ENQUEUE_NOT_RUNNING, s)
    | Some j =>
        if negb (usesReceiptSafeProtocol (Some j))
        then enqueueSteerVersioned streamId item wantsPreempt expectedCreatedAt s
        else
          let queue := queue_of s streamId in
          if decide (STEER_QUEUE_MAX_DEPTH <= length queue)
          then (EnqueueRejected STEER_ENQUEUE_QUEUE_FULL, s)
          else
            let receipts := mprune (fun _ e => expired (ReceiptEntry.expiresAt e) now)
                              (receipts_of s streamId) in
            if decide (STEER_RECEIPT_MAX_PER_STREAM <= length receipts)
            then (EnqueueRejected STEER_ENQUEUE_RECEIPT_FULL,
                  with_steerReceipts (mset (steerReceipts s) streamId receipts)
                    (set_queue streamId queue s))
            else
              let persisted := persisted_item item wantsPreempt j in
              let receipt := new_receipt input persisted (S (length queue)) in
              (EnqueueReceipt receipt,
               with_steerReceipts
                 (mset (steerReceipts s) streamId
                    (mset receipts cid
                       (ReceiptEntry.mk receipt (At (now + STEER_RECEIPT_TTL_MS)))))
                 (set_queue streamId (queue ++ [persisted]) s))
    end in
  match receipt_of s streamId cid with
  | Some e =>
      if expired (ReceiptEntry.expiresAt e) now
      then fresh (delete_receipt streamId cid s)
      else
        let e' := normalizeSteerReceipt s streamId e in
        (EnqueueReceipt (ReceiptEntry.receipt e'),
         update_receipt streamId cid (fun _ => e') s)
  | None => fresh s
  end.

(** ** Drain, restore, close *)

(** The receipt test of an item without a client id is void; otherwise its receipt must exist,
    carry the id it is stored under and hold. *)
Definition receipt_consistent (s : Store) (streamId : string) (createdAt : Z) (st : ReceiptState)
    (item : SteerQueueItem.t) : bool :=
  match SteerQueueItem.clientSteerId item with
  | None => true
  | Some c =>
      match receipt_of s streamId c with
      | None => false
      | Some e =>
          let r := ReceiptEntry.receipt e in
          bool_decide (SteerReceipt.clientSteerId r = c /\
                       SteerReceipt.generationCreatedAt r = createdAt /\
                       SteerReceipt.state r = st /\
                       SteerQueueItem.steerId (SteerReceipt.item r) =
                         SteerQueueItem.steerId item /\
                       SteerQueueItem.clientSteerId (SteerReceipt.item r) =
                         SteerQueueItem.clientSteerId item)
      end
  end.

Definition invalid_receipt (operation streamId : string) : StoreError :=
  PlainError ("Invalid steer receipt while " +:+ operation +:+ " " +:+ streamId).

(** [drainSteers(streamId, expectedCreatedAt)] *)
Definition drainSteers (streamId : string) (expectedCreatedAt : option Z) (now : Z)
  : M (list SteerQueueItem.t) := fun s =>
  match steerable_job s streamId expectedCreatedAt with
  | None => (Ok [], s)
  | Some j =>
      match queue_of s streamId with
      | [] => (Ok [], s)
      | (_ :: _) as queue =>
          if negb (usesReceiptSafeProtocol (Some j))
          then (Ok queue, set_queue streamId [] s)
          else if forallb (receipt_consistent s streamId (Job.createdAt j) queued) queue
          then
            let s1 := set_queue streamId [] s in
            let s2 := with_claimedSteers
                        (mset (claimedSteers s1) streamId
                           (default [] (mget (claimedSteers s1) streamId) ++ queue)) s1 in
            let s3 := settleSteerReceipts streamId queue claimed s2 in
            (Ok queue,
             foldl (fun s item =>
                      match SteerQueueItem.clientSteerId item with
                      | Some c => update_receipt streamId c
                                    (extend_receipt (At (now + STEER_RECEIPT_TTL_MS))) s
                      | None => s
                      end) s3 queue)
          else (Throw (invalid_receipt "draining" streamId), s)
      end
  end.

(** The receipt test of [restoreClaimedSteers], which does not compare the receipt's own id. *)
Definition claim_consistent (s : Store) (streamId : string) (createdAt : Z)
    (item : SteerQueueItem.t) : bool :=
  match SteerQueueItem.clientSteerId item with
  | None => true
  | Some c =>
      match receipt_of s streamId c with
      | None => false
      | Some e =>
          let r := ReceiptEntry.receipt e in
          bool_decide (SteerReceipt.generationCreatedAt r = createdAt /\
                       SteerReceipt.state r = claimed /\
                       SteerQueueItem.steerId (SteerReceipt.item r) =
                         SteerQueueItem.steerId item /\
                       SteerQueueItem.clientSteerId (SteerReceipt.item r) =
                         SteerQueueItem.clientSteerId item)
      end
  end.

Definition steer_ids (l : list SteerQueueItem.t) : list string := SteerQueueItem.steerId <$> l.

(** [restoreClaimedSteers(streamId, items, expectedCreatedAt)] *)
Definition restoreClaimedSteers (streamId : string) (items : list SteerQueueItem.t)
    (expectedCreatedAt : option Z) (s : Store) : bool * Store :=
  match steerable_job s streamId expectedCreatedAt with
  | None => (false, s)
  | Some j =>
      let current := queue_of s streamId in
      if negb (usesReceiptSafeProtocol (Some j))
      then
        (true,
         set_queue streamId
           (filter (fun i => SteerQueueItem.steerId i ∉ steer_ids current) items ++ current) s)
      else
        let claims := default [] (mget (claimedSteers s) streamId) in
        let actuallyClaimed :=
          filter (fun i => SteerQueueItem.steerId i ∈ steer_ids items) claims in
        if negb (bool_decide (length actuallyClaimed = length items)) then (false, s)
        else if negb (forallb (claim_consistent s streamId (Job.createdAt j)) actuallyClaimed)
        then (false, s)
        else
          let remaining := filter (fun i => SteerQueueItem.steerId i ∉ steer_ids items) claims in
          let s1 := match remaining with
                    | [] => with_claimedSteers (mdel (claimedSteers s) streamId) s
                    | _ :: _ => with_claimedSteers (mset (claimedSteers s) streamId remaining) s
                    end in
          let restored :=
            filter (fun i => SteerQueueItem.steerId i ∉ steer_ids current) actuallyClaimed in
          match restored with
          | [] => (true, s1)
          | _ :: _ =>
              (true, settleSteerReceipts streamId restored queued
                       (set_queue streamId (restored ++ current) s1))
          end
  end.

(** [closeAndDrainSteers(streamId, expectedCreatedAt)] *)
Definition closeAndDrainSteers (streamId : string) (expectedCreatedAt : option Z) (now : Z)
  : M (list SteerQueueItem.t) := fun s =>
  match mget (jobs s) streamId with
  | None => (Ok [], s)
  | Some j =>
      if negb (epoch_matches expectedCreatedAt (Job.createdAt j)) then (Ok [], s)
      else if negb (isParkedRecoveryCompatible s streamId j now)
      then (Throw (PlainError
                     "Generation recovery state is corrupt or belongs to another owner"), s)
      else
        let combined :=
          (if usesReceiptSafeProtocol (Some j)
           then claimedSteerItems s streamId expectedCreatedAt else []) ++
          queue_of s streamId in
        let leftovers := dedup_on SteerQueueItem.steerId combined in
        (modify (with_closedSteerQueues (sadd (closedSteerQueues s) streamId)) >>
         modify (fun s => if mhas (steerQueues s) streamId then set_queue streamId [] s else s) >>
         modify (settleSteerReceipts streamId leftovers leftover) >>
         modify (fun s => with_claimedSteers (mdel (claimedSteers s) streamId) s) >>
         parkLeftovers streamId leftovers (Some j) now >>
         retM leftovers) s
  end.

(** [peekSteers] and [peekClaimedSteers] *)
Definition peekSteers (s : Store) (streamId : string) (expectedCreatedAt : option Z)
  : list SteerQueueItem.t :=
  match expectedCreatedAt with
  | None => queue_of s streamId
  | Some e =>
      if bool_decide (Job.createdAt <$> mget (jobs s) streamId = Some e)
      then queue_of s streamId else []
  end.

Definition peekClaimedSteers (s : Store) (streamId : string) (expectedCreatedAt : option Z)
  : list SteerQueueItem.t := claimedSteerItems s streamId expectedCreatedAt.

(** [clearSteers(streamId)] *)
Definition clearSteers (streamId : string) (s : Store) : Store :=
  let s1 := settleSteerReceipts streamId
              (claimedSteerItems s streamId None ++ queue_of s streamId) leftover s in
  with_claimedSteers (mdel (claimedSteers s1) streamId)
    (with_steerQueues (mdel (steerQueues s1) streamId) s1).

(** ** Cancel and arm *)

(** The scan of [removeSteer]: an item without an id or a second match is corruption. *)
Fixpoint scan_steer (streamId steerId : string) (i : nat) (found : option nat)
    (l : list SteerQueueItem.t) : result StoreError (option nat) :=
  match l with
  | [] => Ok found
  | item :: l' =>
      if decide (SteerQueueItem.steerId item = "")
      then Throw (PlainError ("Invalid steer queue item while cancelling " +:+ streamId))
      else if decide (SteerQueueItem.steerId item = steerId)
      then match found with
           | Some _ => Throw (PlainError ("Duplicate steer id while cancelling " +:+ streamId))
           | None => scan_steer streamId steerId (S i) (Some i) l'
           end
      else scan_steer streamId steerId (S i) found l'
  end.

(** [queuedReceiptForMutation(streamId, job, item, operation)]: whether a receipt is bound to the
    item; throws when the bound receipt is missing or inconsistent. *)
Definition queuedReceiptForMutation (s : Store) (streamId : string) (j : Job.t)
    (item : SteerQueueItem.t) (operation : string) : result StoreError (option string) :=
  if negb (usesReceiptSafeProtocol (Some j)) then Ok None
  else match SteerQueueItem.clientSteerId item with
       | None => Ok None
       | Some c =>
           if receipt_consistent s streamId (Job.createdAt j) queued item
           then Ok (Some c)
           else Throw (invalid_receipt operation streamId)
       end.

(** [removeSteer(streamId, steerId, expectedCreatedAt)] *)
Definition removeSteer (streamId steerId : string) (expectedCreatedAt : option Z)
  : M bool := fun s =>
  let job := mget (jobs s) streamId in
  if match expectedCreatedAt with
     | None => false
     | Some e => negb (bool_decide (Job.createdAt <$> job = Some e))
     end
  then (Ok false, s)
  else match mget (steerQueues s) streamId with
  | None => (Ok false, s)
  | Some queue =>
      match scan_steer streamId steerId 0 None queue with
      | Throw e => (Throw e, s)
      | Ok None => (Ok false, s)
      | Ok (Some index) =>
          match queue !! index with
          | None => (Ok false, s)
          | Some target =>
              match job with
              | None =>
                  if bool_decide (SteerQueueItem.clientSteerId target <> None)
                  then (Throw (invalid_receipt "cancelling" streamId), s)
                  else (Ok true, set_queue streamId (splice1 index queue) s)
              | Some j =>
                  match queuedReceiptForMutation s streamId j target "cancelling" with
                  | Throw e => (Throw e, s)
                  | Ok bound =>
                      let s1 := set_queue streamId (splice1 index queue) s in
                      (Ok true,
                       match bound with
                       | Some c => update_receipt streamId c (set_receipt_item target cancelled) s1
                       | None => s1
                       end)
                  end
              end
          end
      end
  end.

(** [item.preemptRevision = (item.preemptRevision ?? 0) + 1] with the flag set or deleted. *)
Definition bump_preempt (flag : option bool) (item : SteerQueueItem.t) : SteerQueueItem.t :=
  {| item with SteerQueueItem.preempt := flag;
     SteerQueueItem.preemptRevision :=
       Some (default 0 (SteerQueueItem.preemptRevision item) + 1)%Z |}.

(** [receipt.item = { ...item }] *)
Definition set_item_of_receipt (item : SteerQueueItem.t) (e : ReceiptEntry.t) : ReceiptEntry.t :=
  set_receipt_item item (SteerReceipt.state (ReceiptEntry.receipt e)) e.

(** [armSteerVersioned(streamId, steerId, expectedCreatedAt)] *)
Definition armSteerVersioned (streamId steerId : string) (expectedCreatedAt : option Z)
  : M SteerArmResult := fun s =>
  match steerable_job s streamId expectedCreatedAt with
  | None => (Ok ArmMissing, s)
  | Some j =>
      let queue := queue_of s streamId in
      match find_index (fun i => bool_decide (SteerQueueItem.steerId i = steerId)) queue with
      | None => (Ok ArmMissing, s)
      | Some index =>
          match queue !! index with
          | None => (Ok ArmMissing, s)
          | Some item =>
              if negb (bool_decide (Job.preemptCapable j = Some true)) then (Ok ArmIncapable, s)
              else match queuedReceiptForMutation s streamId j item "arming" with
              | Throw e => (Throw e, s)
              | Ok bound =>
                  let item' := bump_preempt (Some true) item in
                  let s1 := set_queue streamId (<[index := item']> queue) s in
                  (Ok (Armed (default 0 (SteerQueueItem.preemptRevision item) + 1)%Z item'),
                   match bound with
                   | Some c => update_receipt streamId c (set_item_of_receipt item') s1
                   | None => s1
                   end)
              end
          end
      end
  end.

(** [armSteer]: the outcome alone. *)
Inductive SteerArmOutcome := armed | missing | incapable.
Definition arm_outcome (r : SteerArmResult) : SteerArmOutcome :=
  match r with Armed _ _ => armed | ArmMissing => missing | ArmIncapable => incapable end.
Definition armSteer (streamId steerId : string) (expectedCreatedAt : option Z)
  : M SteerArmOutcome :=
  armSteerVersioned streamId steerId expectedCreatedAt >>= fun r => retM (arm_outcome r).

Definition is_preempt (item : SteerQueueItem.t) : bool :=
  bool_decide (SteerQueueItem.preempt item = Some true).

(** [downgradeSteerPreempts(streamId, expectedCreatedAt)]; [None] is [null]. *)
Definition downgradeSteerPreempts (streamId : string) (expectedCreatedAt : option Z)
  : M (option (list SteerQueueItem.t)) := fun s =>
  match mget (jobs s) streamId with
  | None => (Ok None, s)
  | Some j =>
      if negb (epoch_matches expectedCreatedAt (Job.createdAt j)) ||
         bool_decide (Job.preemptCapable j = Some true)
      then (Ok None, s)
      else
        let queue := queue_of s streamId in
        let preempted := filter (fun i => is_preempt i = true) queue in
        match mapM (fun i => match queuedReceiptForMutation s streamId j i "downgrading" with
                             | Ok b => Some b
                             | Throw _ => None
                             end) preempted with
        | None => (Throw (invalid_receipt "downgrading" streamId), s)
        | Some bounds =>
            let changed := bump_preempt None <$> preempted in
            let s1 :=
              if mhas (steerQueues s) streamId
              then set_queue streamId
                     ((fun i => if is_preempt i then bump_preempt None i else i) <$> queue) s
              else s in
            (Ok (Some changed),
             foldl (fun s (p : option string * SteerQueueItem.t) =>
                      match p.1 with
                      | Some c => update_receipt streamId c (set_item_of_receipt p.2) s
                      | None => s
                      end) s1 (zip bounds changed))
        end
  end.

(** ** Durable application *)

(** [appendChunk(streamId, event, expectedCreatedAt, deliveredSteer)] *)
Definition appendChunk (streamId : string) (expectedCreatedAt : option Z)
    (deliveredSteer : option SteerQueueItem.t) (s : Store) : bool * Store :=
  match mget (jobs s) streamId with
  | None => (false, s)
  | Some j =>
      if negb (epoch_matches expectedCreatedAt (Job.createdAt j)) || negb (active (Job.status j))
      then (false, s)
      else match deliveredSteer with
      | None => (true, s)
      | Some steer =>
          if negb (bool_decide (Job.status j = running /\ streamId ∉ closedSteerQueues s))
          then (false, s)
          else if negb (usesReceiptSafeProtocol (Some j)) then (true, s)
          else
            let claims := default [] (mget (claimedSteers s) streamId) in
            match find_index
                    (fun i => bool_decide
                                (SteerQueueItem.steerId i = SteerQueueItem.steerId steer /\
                                 SteerQueueItem.clientSteerId i =
                                   SteerQueueItem.clientSteerId steer)) claims with
            | None => (false, s)
            | Some index =>
                if negb (receipt_consistent s streamId (Job.createdAt j) claimed steer)
                then (false, s)
                else
                  let claims' := splice1 index claims in
                  let s1 := match claims' with
                            | [] => with_claimedSteers (mdel (claimedSteers s) streamId) s
                            | _ :: _ =>
                                with_claimedSteers (mset (claimedSteers s) streamId claims') s
                            end in
                  (true,
                   match SteerQueueItem.clientSteerId steer with
                   | Some c => update_receipt streamId c (set_receipt_item steer delivered) s1
                   | None => s1
                   end)
            end
      end
  end.
