(* ===== verification/StoreParked.v ===== *)
(** * Parked steers: claim, discard and consume
      ([stream/implementations/InMemoryJobStore.ts], recovery section)

    Steers that outlive their run are parked under the stream with the identity of their owner.
    Reading them is gated on that identity.  A protocol-1 reader takes them away (the historical
    destructive read); a protocol-2 reader leaves them, and an item leased to an active recovery
    turn is hidden until that turn ends. *)

From S2P Require Import Prelude JsMap Json StreamTypes SteerRecovery StoreState.

(** [parkSteers(streamId, payload, expectedCreatedAt)] *)
Definition normalize_payload (j : option Job.t) (payload : jtext) : jtext :=
  match JSON_parse payload with
  | Some (JObj o) =>
      let v := JObj o in
      let protocol :=
        match j with
        | Some j => normalize_job_protocol (Job.generationProtocolVersion j)
        | None => normalizeGenerationProtocol (jfield v "generationProtocolVersion")
        end in
      JSON_stringify (jset v "generationProtocolVersion" (protocol_json protocol))
  | Some (JArr l) => JSON_stringify (JArr l)
  | _ => payload
  end.

Definition parkSteers (streamId : string) (payload : jtext) (expectedCreatedAt : option Z)
    (now : Z) (s : Store) : Store :=
  let j := mget (jobs s) streamId in
  if match expectedCreatedAt with
     | None => false
     | Some e => negb (bool_decide (Job.createdAt <$> j = Some e))
     end
  then s
  else with_parkedSteers
         (mset (parkedSteers s) streamId
            (Parked.mk (normalize_payload j payload) (At (now + PARKED_STEERS_TTL_MS)))) s.

(** The job that is recovering a parked item on behalf of the owner, when it is still active. *)
Definition active_recovery (s : Store) (streamId ownerUserId : string)
    (ownerTenantId : option string) : option Job.t :=
  match mget (jobs s) streamId with
  | Some j =>
      if bool_decide (Job.generationProtocolVersion j = Some V2) &&
         active (Job.status j) &&
         match Job.recoveredSteerId j with Some r => bool_decide (r <> "") | None => false end &&
         bool_decide (Job.userId j = ownerUserId) &&
         tenant_matches (Job.tenantId j) ownerTenantId
      then Some j else None
  | None => None
  end.

(** Whether a parked item is hidden by an active recovery. *)
Definition hidden (recovery : option Job.t) (item : json) : bool :=
  match recovery with Some j => leased_by j item | None => false end.

Definition visible_steers (recovery : option Job.t) (steers : list json) : list json :=
  (fun i => jdel i "recoveringCreatedAt") <$> filter (fun i => hidden recovery i = false) steers.
Definition leased_steers (recovery : option Job.t) (steers : list json) : list json :=
  filter (fun i => hidden recovery i = true) steers.

(** The payload [{ userId, tenantId?, generationProtocolVersion, steers }] rebuilt from a parsed
    one. *)
Definition rebuilt_payload (v : json) (protocol : GenerationProtocolVersion) (steers : list json)
  : json :=
  JObj (opt_prop "userId" (jfield v "userId") ++
        (if nullish (jfield v "tenantId") then [] else opt_prop "tenantId" (jfield v "tenantId")) ++
        [("generationProtocolVersion", protocol_json protocol); ("steers", JArr steers)]).

(** [claimParkedSteersDetailed(streamId, ownerUserId, ownerTenantId, requestedProtocolVersion)] *)
Definition claimParkedSteersDetailed (streamId ownerUserId : string)
    (ownerTenantId : option string) (requested : GenerationProtocolVersion) (now : Z) (s : Store)
  : option (GenerationProtocolVersion * jtext) * Store :=
  match live_parked s streamId now with
  | None => (None, with_parkedSteers (mdel (parkedSteers s) streamId) s)
  | Some p =>
      match JSON_parse (Parked.payload p) with
      | None => (None, s)
      | Some v =>
          match valid_steers v with
          | Some steers =>
              if valid_recovery v && payload_owner v ownerUserId ownerTenantId then
                let recovery := active_recovery s streamId ownerUserId ownerTenantId in
                let visible := visible_steers recovery steers in
                let leased := leased_steers recovery steers in
                let protocol :=
                  if is_int (jfield v "generationProtocolVersion") 2 &&
                     bool_decide (requested = V2) then V2 else V1 in
                if bool_decide (protocol = V1 /\ leased = []) then
                  (Some (V1, JSON_stringify
                               (jset (jset v "generationProtocolVersion" (protocol_json V1))
                                  "steers" (JArr visible))),
                   with_parkedSteers (mdel (parkedSteers s) streamId) s)
                else if bool_decide (visible = []) then (None, s)
                else
                  (Some (protocol, JSON_stringify (rebuilt_payload v protocol visible)),
                   if bool_decide (protocol = V1)
                   then with_parkedSteers
                          (mset (parkedSteers s) streamId
                             {| p with Parked.payload :=
                                  JSON_stringify (rebuilt_payload v V2 leased) |}) s
                   else s)
              else (None, s)
          | None => (None, s)
          end
      end
  end.

(** [claimParkedSteers]: the protocol-2 read, payload alone. *)
Definition claimParkedSteers (streamId ownerUserId : string) (ownerTenantId : option string)
    (now : Z) (s : Store) : option jtext * Store :=
  let '(r, s') := claimParkedSteersDetailed streamId ownerUserId ownerTenantId V2 now s in
  (snd <$> r, s').

(** Replacement of the parked steers of a stream, dropping the record when none is left. *)
Definition store_parked_steers (streamId : string) (p : Parked.t) (v : json) (l : list json)
    (s : Store) : Store :=
  match l with
  | [] => with_parkedSteers (mdel (parkedSteers s) streamId) s
  | _ :: _ =>
      with_parkedSteers
        (mset (parkedSteers s) streamId
           {| p with Parked.payload := JSON_stringify (jset v "steers" (JArr l)) |}) s
  end.

(** [discardSteerLeftover(...)] *)
Definition discardSteerLeftover (streamId clientSteerId steerId ownerUserId : string)
    (ownerTenantId : option string) (expectedGenerationCreatedAt : option Z) (now : Z) (s : Store)
  : bool * Store :=
  match receipt_of s streamId clientSteerId with
  | None => (false, s)
  | Some e =>
      let r := ReceiptEntry.receipt e in
      if negb (bool_decide (SteerReceipt.state r = leftover) &&
               epoch_matches expectedGenerationCreatedAt (SteerReceipt.generationCreatedAt r) &&
               bool_decide (SteerQueueItem.steerId (SteerReceipt.item r) = steerId) &&
               bool_decide (SteerReceipt.userId r = ownerUserId) &&
               tenant_matches (SteerReceipt.tenantId r) ownerTenantId)
      then (false, s)
      else if match mget (jobs s) streamId with
              | Some j =>
                  bool_decide (Job.recoveredSteerId j = Some steerId) &&
                  bool_decide (Job.userId j = ownerUserId) &&
                  tenant_matches (Job.tenantId j) ownerTenantId &&
                  active (Job.status j)
              | None => false
              end
      then (false, s)
      else
        let settle := update_receipt streamId clientSteerId (set_receipt_state cancelled) in
        match live_parked s streamId now with
        | None => (true, settle s)
        | Some p =>
            match JSON_parse (Parked.payload p) with
            | None => (false, s)
            | Some v =>
                if negb (payload_owner v ownerUserId ownerTenantId) then (false, s)
                else match valid_steers v with
                | None => (false, s)
                | Some steers =>
                    (true,
                     settle (store_parked_steers streamId p v
                               (filter (fun i => is_string (jfield i "steerId") steerId = false)
                                  steers) s))
                end
            end
        end
  end.

(** [consumeParkedSteer(...)] *)
Definition consumeParkedSteer (streamId steerId ownerUserId : string)
    (ownerTenantId : option string) (expectedCreatedAt now : Z) (s : Store) : bool * Store :=
  match mget (jobs s) streamId with
  | None => (false, s)
  | Some j =>
      if negb (bool_decide (Job.createdAt j = expectedCreatedAt) &&
               bool_decide (Job.userId j = ownerUserId) &&
               bool_decide (Job.recoveredSteerId j = Some steerId) &&
               tenant_matches (Job.tenantId j) ownerTenantId)
      then (false, s)
      else match live_parked s streamId now with
      | None => (true, s)
      | Some p =>
          match JSON_parse (Parked.payload p) with
          | None => (false, s)
          | Some v =>
              if negb (payload_owner v ownerUserId ownerTenantId) then (false, s)
              else match valid_steers v with
              | None => (false, s)
              | Some steers =>
                  match find_index
                          (fun i => is_string (jfield i "steerId") steerId &&
                                    is_int (jfield i "recoveringCreatedAt") expectedCreatedAt)
                          steers with
                  | None => (false, s)
                  | Some index =>
                      let cid := steers !! index ≫= fun i => as_string (jfield i "clientSteerId") in
                      let remaining := splice1 index steers in
                      match cid with
                      | None => (true, store_parked_steers streamId p v remaining s)
                      | Some c =>
                          match receipt_of s streamId c with
                          | None => (false, s)
                          | Some e =>
                              let r := ReceiptEntry.receipt e in
                              if bool_decide (SteerReceipt.state r = leftover) &&
                                 bool_decide
                                   (SteerQueueItem.steerId (SteerReceipt.item r) = steerId) &&
                                 bool_decide (SteerReceipt.userId r = ownerUserId) &&
                                 tenant_matches (SteerReceipt.tenantId r) ownerTenantId
                              then (true,
                                    store_parked_steers streamId p v remaining
                                      (update_receipt streamId c (set_receipt_state recovered) s))
                              else (false, s)
                          end
                      end
                  end
              end
          end
      end
  end.
