(* ===== verification/StoreJobs.v ===== *)
(** * Jobs of the in-memory store: creation, transitions, claims, cleanup
      ([stream/implementations/InMemoryJobStore.ts], job section)

    [createJob] is the only operation with an [await] between its checks and its writes (the
    capacity eviction), so it is split there: [createJob_begin] runs up to and including the
    eviction, [createJob_commit] re-validates and installs the job.  Any other operation may run
    in between. *)

From S2P Require Import Prelude JsMap Json StreamTypes SteerRecovery StoreState StoreSteers StoreParked.

(** ** Deletion and eviction *)

(** [deleteJob(streamId, expectedCreatedAt)] *)
Definition remove_from_index (key streamId : string) (m : jsmap (list string))
  : jsmap (list string) :=
  match mget m key with
  | None => m
  | Some ids =>
      match sdel ids streamId with
      | [] => mdel m key
      | (_ :: _) as ids' => mset m key ids'
      end
  end.

Definition deleteJob (streamId : string) (expectedCreatedAt : option Z) (now : Z) (s : Store)
  : bool * Store :=
  match mget (jobs s) streamId with
  | None => (false, s)
  | Some j =>
      if negb (epoch_matches expectedCreatedAt (Job.createdAt j)) then (false, s)
      else
        let s1 := retainGenerationEpoch streamId (Job.createdAt j) now s in
        (true,
         {| s1 with
            jobs := mdel (jobs s1) streamId;
            contentState := mdel (contentState s1) streamId;
            lastActivity := mdel (lastActivity s1) streamId;
            steerQueues := mdel (steerQueues s1) streamId;
            claimedSteers := mdel (claimedSteers s1) streamId;
            closedSteerQueues := sdel (closedSteerQueues s1) streamId;
            userJobMap :=
              remove_from_index (user_key (Job.tenantId j) (Job.userId j)) streamId
                (userJobMap s1) |})
  end.

(** The first entry with the smallest [createdAt], in iteration order. *)
Fixpoint oldest_job (best : option (string * Job.t)) (l : jsmap Job.t)
  : option (string * Job.t) :=
  match l with
  | [] => best
  | e :: l' =>
      oldest_job
        (match best with
         | Some b => if decide (Job.createdAt e.2 < Job.createdAt b.2)%Z then Some e else Some b
         | None => Some e
         end) l'
  end.

(** [evictOldest()] *)
Definition evictOldest (now : Z) : M () := fun s =>
  match oldest_job None (jobs s) with
  | None => (Ok tt, s)
  | Some (oldestId, j) =>
      if decide (oldestId = "") then (Ok tt, s)
      else (parkQueuedSteers oldestId j now >>
            modify (fun s => (deleteJob oldestId (Some (Job.createdAt j)) now s).2)) s
  end.

(** ** Creation *)

Module CreateArgs.
Record t := mk {
  streamId : string;
  userId : string;
  conversationId : option string;
  tenantId : option string;
  initialMetadata : JobMetadataPatch.t;
  recoveredSteerId : option string;
  idempotencyClaimKey : option string;
  idempotencyClaimToken : option string;
  idempotencyClientRequestId : option string;
  recoveredSteerPayload : option RecoveredSteerPayload.t;
  creationAttemptId : option string;
  expectedPredecessorCreatedAt : option Z;
  rejectActivePredecessor : bool
}.
End CreateArgs.

(** [CLIENT_REQUEST_ID_PATTERN = /^[A-Za-z0-9:_-]{1,128}$/] *)
Definition request_id_char (c : Ascii.ascii) : bool :=
  let n := Ascii.nat_of_ascii c in
  bool_decide (48 <= n <= 57) || bool_decide (65 <= n <= 90) || bool_decide (97 <= n <= 122) ||
  bool_decide (n = 58) || bool_decide (n = 95) || bool_decide (n = 45).
Definition valid_request_id (id : string) : bool :=
  bool_decide (1 <= String.length id <= 128) &&
  forallb request_id_char (String.list_ascii_of_string id).

Definition length_within (max : nat) (s : string) : bool :=
  bool_decide (1 <= String.length s <= max).

(** [assertCreateIdempotencyArguments(claimKey, claimToken, clientRequestId)], as a test *)
Definition validCreateIdempotencyArguments (claimKey claimToken clientRequestId : option string)
  : bool :=
  match claimKey, claimToken, clientRequestId with
  | None, None, None => true
  | Some k, Some t, Some r => length_within 1024 k && length_within 128 t && valid_request_id r
  | _, _, _ => false
  end.

(** The argument checks at the head of [createJob]. *)
Definition check_arguments (a : CreateArgs.t) : result StoreError () :=
  if decide (CreateArgs.userId a = "")
  then Throw (PlainError "Generation job requires a non-empty user id")
  else if negb (validCreateIdempotencyArguments (CreateArgs.idempotencyClaimKey a)
                  (CreateArgs.idempotencyClaimToken a) (CreateArgs.idempotencyClientRequestId a))
  then Throw (PlainError "Invalid generation job idempotency arguments")
  else if match CreateArgs.creationAttemptId a with
          | Some i => negb (length_within 128 i) | None => false end
  then Throw (PlainError "Invalid generation creation attempt id")
  else if match CreateArgs.expectedPredecessorCreatedAt a with
          | Some e => negb (safe_epoch e) | None => false end
  then Throw (PlainError "Invalid expected generation predecessor")
  else if match JobMetadataPatch.providerExecutionId (CreateArgs.initialMetadata a) with
          | Some i => negb (length_within 128 i) | None => false end
  then Throw (PlainError "Invalid provider execution id")
  else Ok tt.

(** [assertOwnerCompatible()] *)
Definition assertOwnerCompatible (a : CreateArgs.t) (now : Z) (s : Store)
  : result StoreError () :=
  let streamId := CreateArgs.streamId a in
  let userId := CreateArgs.userId a in
  let tenantId := CreateArgs.tenantId a in
  if match mget (jobs s) streamId with
     | Some j => negb (bool_decide (Job.userId j <> "" /\ Job.userId j = userId) &&
                       tenant_matches (Job.tenantId j) tenantId)
     | None => false
     end
  then Throw (PlainError "Generation job owner mismatch")
  else match live_parked s streamId now with
  | None => Ok tt
  | Some p =>
      match JSON_parse (Parked.payload p) with
      | None => Throw (PlainError "Generation recovery state is corrupt")
      | Some v =>
          if negb (valid_recovery v)
          then Throw (PlainError "Generation recovery state is corrupt")
          else if negb (payload_owner v userId tenantId)
          then Throw (PlainError "Generation job owner mismatch")
          else Ok tt
      end
  end.

(** [assertExpectedPredecessorCompatible()]; reading an expired retained epoch drops it. *)
Definition assertExpectedPredecessorCompatible (a : CreateArgs.t) (now : Z) : M () := fun s =>
  let current := mget (jobs s) (CreateArgs.streamId a) in
  let '(retained, s1) :=
    match current with
    | Some j => (Some (Job.createdAt j), s)
    | None => getRetainedGenerationEpoch (CreateArgs.streamId a) now s
    end in
  let mismatch (createdAt : Z) (isActive verified : bool) : StoreError :=
    JobPredecessorMismatchError
      (GenerationPredecessorState.mk createdAt (Job.status <$> current)
         (current ≫= Job.conversationId) isActive verified) in
  match current with
  | Some j =>
      if CreateArgs.rejectActivePredecessor a &&
         (active (Job.status j) || bool_decide (Job.terminalPersistencePending j = Some true))
      then (Throw (mismatch (Job.createdAt j) true true), s1)
      else if epoch_matches (CreateArgs.expectedPredecessorCreatedAt a) (Job.createdAt j)
      then (Ok tt, s1)
      else (Throw (mismatch (Job.createdAt j) (active (Job.status j)) true), s1)
  | None =>
      match CreateArgs.expectedPredecessorCreatedAt a with
      | None => (Ok tt, s1)
      | Some e =>
          if decide (retained = Some e) then (Ok tt, s1)
          else (Throw (mismatch (default e retained) false
                         (bool_decide (retained <> None))), s1)
      end
  end.

(** The steer a recovery turn names: the parked item, else the queued or claimed one. *)
Definition recovery_candidate (streamId steerId : string) (now : Z) (s : Store)
  : GenerationProtocolVersion * option json :=
  let parked :=
    match live_parked s streamId now ≫= fun p => JSON_parse (Parked.payload p) with
    | Some v =>
        match as_array (jfield v "steers") ≫=
                find_item (fun i => is_string (jfield i "steerId") steerId) with
        | Some i => Some (normalizeGenerationProtocol (jfield v "generationProtocolVersion"), i)
        | None => None
        end
    | None => None
    end in
  match parked with
  | Some (protocol, i) => (protocol, Some i)
  | None =>
      let j := mget (jobs s) streamId in
      let queuedItems :=
        claimedSteerItems s streamId (Job.createdAt <$> j) ++ queue_of s streamId in
      (normalize_job_protocol (j ≫= Job.generationProtocolVersion),
       toPendingSteer <$>
         find_first (fun i => bool_decide (SteerQueueItem.steerId i = steerId)) queuedItems)
  end.

(** [assertRecoveryCompatible()] *)
Definition assertRecoveryCompatible (a : CreateArgs.t) (now : Z) (s : Store)
  : result StoreError () :=
  match CreateArgs.recoveredSteerId a, CreateArgs.recoveredSteerPayload a with
  | None, None => Ok tt
  | None, Some _ => Throw RecoveredSteerPayloadMismatchError
  | Some _, None => Throw RecoveredSteerPayloadMismatchError
  | Some steerId, Some payload =>
      if negb (isRecoveredSteerPayload payload) then Throw RecoveredSteerPayloadMismatchError
      else if bool_decide
                (JobMetadataPatch.generationProtocolVersion (CreateArgs.initialMetadata a) =
                 Some V1)
      then Throw RecoveredSteerPayloadMismatchError
      else match recovery_candidate (CreateArgs.streamId a) steerId now s with
           | (V2, Some candidate) =>
               if recoveredSteerPayloadMatches candidate payload then Ok tt
               else Throw RecoveredSteerPayloadMismatchError
           | _ => Throw RecoveredSteerPayloadMismatchError
           end
  end.

(** The lease test on an idempotency claim: present, live, same token, not started. *)
Definition claim_leased (c : option ClaimEntry.t) (token : string) (now : Z) : bool :=
  match c with
  | None => false
  | Some c =>
      bool_decide (now < ClaimEntry.expiresAt c)%Z &&
      bool_decide (IdempotencyClaimValue.claimToken (ClaimEntry.value c) = Some token) &&
      bool_decide (IdempotencyClaimValue.startedAt (ClaimEntry.value c) = None)
  end.

Definition claim_taken_over : StoreError :=
  PlainError "Generation idempotency claim was taken over before job creation".

Definition assertClaim (a : CreateArgs.t) (now : Z) (s : Store) : result StoreError () :=
  match CreateArgs.idempotencyClaimKey a, CreateArgs.idempotencyClaimToken a with
  | Some key, Some token =>
      if claim_leased (mget (idempotencyClaims s) key) token now then Ok tt
      else Throw claim_taken_over
  | _, _ => Ok tt
  end.

Definition lift_check (f : Store -> result StoreError ()) : M () := fun s => (f s, s).

Definition validate_create (a : CreateArgs.t) (now : Z) : M () :=
  lift_check (assertOwnerCompatible a now) >>
  assertExpectedPredecessorCompatible a now >>
  lift_check (assertRecoveryCompatible a now).

Definition at_capacity (streamId : string) (s : Store) : bool :=
  negb (mhas (jobs s) streamId) && bool_decide (maxJobs s <= Z.of_nat (length (jobs s)))%Z.

(** [createJob] up to its only [await]. *)
Definition createJob_begin (a : CreateArgs.t) (now : Z) : M () :=
  lift_check (fun _ => check_arguments a) >>
  validate_create a now >>
  lift_check (assertClaim a now) >>
  fun s => if at_capacity (CreateArgs.streamId a) s then evictOldest now s else (Ok tt, s).

(** The replacement receipts inherited by a new job, oldest first, one per epoch. *)
Definition inherited_receipts (previous : option Job.t) : list ReplacedGeneration.t :=
  match previous with
  | None => []
  | Some j =>
      match Job.replacedJobs j with
      | Some l => l
      | None => option_list (Job.replacedJob j)
      end
  end.

Definition replaced_generation (j : Job.t) : ReplacedGeneration.t :=
  ReplacedGeneration.mk (Job.createdAt j) (Job.status j) (Job.conversationId j)
    (Job.providerAbortReady j) (Job.providerExecutionId j) (Job.providerDrained j).

Definition replacement_receipts (previous : option Job.t) : list ReplacedGeneration.t :=
  dedup_on ReplacedGeneration.createdAt
    (inherited_receipts previous ++ option_list (replaced_generation <$> previous)).

(** The installed job. *)
Definition new_job (a : CreateArgs.t) (createdAt : Z) (replaced : list ReplacedGeneration.t)
    (previous : option Job.t) : Job.t :=
  let m := CreateArgs.initialMetadata a in
  let legacy := bool_decide (JobMetadataPatch.generationProtocolVersion m = Some V1) in
  Job.mk
    (CreateArgs.streamId a)
    (CreateArgs.userId a)
    (match CreateArgs.tenantId a with
     | Some t => if decide (t = "") then None else Some t
     | None => None
     end)
    running
    createdAt
    (Some (if legacy then V1 else V2))
    (if legacy then None else Some (pretty createdAt))
    None
    (match CreateArgs.conversationId a with
     | Some c => Some c
     | None => JobMetadataPatch.conversationId m
     end)
    None
    (CreateArgs.idempotencyClientRequestId a)
    (CreateArgs.recoveredSteerId a)
    (JobMetadataPatch.preemptCapable m)
    (Some false)
    (JobMetadataPatch.providerExecutionId m)
    (match JobMetadataPatch.providerExecutionId m with Some _ => Some true | None => None end)
    false
    (JobMetadataPatch.preserveForScheduleReconcile m)
    None None None None None None None None
    (JobMetadataPatch.other m)
    (CreateArgs.creationAttemptId a)
    (match previous with Some _ => last replaced | None => None end)
    (match replaced with [] => None | _ :: _ => Some replaced end).

(** The job handed to the caller: its [replacedJob] carries no provider evidence. *)
Definition created_view (j : Job.t) (previous : option Job.t) : Job.t :=
  match previous with
  | None => j
  | Some p =>
      {| j with Job.replacedJob :=
           Some (ReplacedGeneration.mk (Job.createdAt p) (Job.status p) (Job.conversationId p)
                   None None None) |}
  end.

(** The epoch of a new generation: past the clock, its predecessor and every earlier one. *)
Definition next_epoch (now : Z) (previousCreatedAt : option Z) (lastEpoch : Z) : Z :=
  Z.max now (Z.max (match previousCreatedAt with Some p => p + 1 | None => 0 end)
                   (lastEpoch + 1)).

(** The per-user index after a creation. *)
Definition index_created (j : Job.t) (previous : option Job.t) (m : jsmap (list string))
  : jsmap (list string) :=
  let key := user_key (Job.tenantId j) (Job.userId j) in
  let m1 :=
    match previous with
    | Some p =>
        let previousKey := user_key (Job.tenantId p) (Job.userId p) in
        if decide (previousKey = key) then m
        else remove_from_index previousKey (Job.streamId j) m
    | None => m
    end in
  mset m1 key (sadd (default [] (mget m1 key)) (Job.streamId j)).

(** The writes of [createJob] once every check has passed. *)
Definition install_job (a : CreateArgs.t) (j : Job.t) (now : Z) (s : Store) : Store :=
  let streamId := CreateArgs.streamId a in
  let s1 := with_jobs (mset (jobs s) streamId j) s in
  let s2 := retainGenerationEpoch streamId (Job.createdAt j) now s1 in
  let s3 := leaseParkedSteer streamId (CreateArgs.recoveredSteerId a) (CreateArgs.userId a)
              (CreateArgs.tenantId a) (Job.createdAt j) now s2 in
  {| s3 with
     contentState := mdel (contentState s3) streamId;
     lastActivity := mdel (lastActivity s3) streamId;
     steerQueues := mdel (steerQueues s3) streamId;
     claimedSteers := mdel (claimedSteers s3) streamId;
     closedSteerQueues := sdel (closedSteerQueues s3) streamId |}.

Definition start_claim (a : CreateArgs.t) (createdAt : Z) (s : Store) : Store :=
  match CreateArgs.idempotencyClaimKey a with
  | Some key =>
      match mget (idempotencyClaims s) key with
      | Some c =>
          with_idempotencyClaims
            (mset (idempotencyClaims s) key
               {| c with ClaimEntry.value :=
                    {| (ClaimEntry.value c) with
                       IdempotencyClaimValue.startedAt := Some createdAt |} |}) s
      | None => s
      end
  | None => s
  end.

(** [createJob] from the re-validation after its [await] to its return. *)
Definition createJob_commit (a : CreateArgs.t) (now : Z) : M Job.t :=
  validate_create a now >> fun s =>
  let streamId := CreateArgs.streamId a in
  let previous := mget (jobs s) streamId in
  let '(previousCreatedAt, s1) :=
    match previous with
    | Some p => (Some (Job.createdAt p), s)
    | None => getRetainedGenerationEpoch streamId now s
    end in
  let createdAt := next_epoch now previousCreatedAt (lastGenerationEpoch s1) in
  let replaced := replacement_receipts previous in
  if decide (CREATE_REPLACEMENT_RECEIPT_MAX < length replaced)
  then (Throw (PlainError "Generation replacement receipt chain is full"), s1)
  else
    let s2 := with_lastGenerationEpoch createdAt s1 in
    let j := new_job a createdAt replaced previous in
    (lift_check (assertClaim a now) >>
     match previous with
     | Some p => parkQueuedSteers streamId p now
     | None => retM tt
     end >>
     modify (install_job a j now) >>
     modify (start_claim a createdAt) >>
     modify (fun s => with_userJobMap (index_created j previous (userJobMap s)) s) >>
     retM (created_view j previous)) s2.

(** [createJob] when nothing runs during the [await]. *)
Definition createJob (a : CreateArgs.t) (now : Z) : M Job.t :=
  createJob_begin a now >> createJob_commit a now.

(** ** Reads and simple writes *)

(** [getJob] and [hasJob] *)
Definition getJob (s : Store) (streamId : string) : option Job.t := mget (jobs s) streamId.
Definition hasJob (s : Store) (streamId : string) : bool := mhas (jobs s) streamId.

Definition set_job (streamId : string) (j : Job.t) (s : Store) : Store :=
  with_jobs (mset (jobs s) streamId j) s.

(** [acknowledgeReplacedJobs(streamId, creationAttemptId, replacedCreatedAts)] *)
Definition acknowledgeReplacedJobs (streamId creationAttemptId : string)
    (replacedCreatedAts : list Z) (s : Store) : bool * Store :=
  match mget (jobs s) streamId with
  | None => (false, s)
  | Some j =>
      if bool_decide (Job.creationAttemptId j = Some creationAttemptId)
      then
        let retained :=
          filter (fun r => ReplacedGeneration.createdAt r ∉ replacedCreatedAts)
            (inherited_receipts (Some j)) in
        (true,
         set_job streamId
           {| j with
              Job.replacedJobs := match retained with [] => None | _ :: _ => Some retained end;
              Job.replacedJob := last retained |} s)
      else (false, s)
  end.

(** [markProviderExecutionDrained] and [beginProviderExecution] *)
Definition markProviderExecutionDrained (streamId : string) (expectedCreatedAt : Z)
    (providerExecutionId : string) (s : Store) : bool * Store :=
  match mget (jobs s) streamId with
  | Some j =>
      if bool_decide (Job.createdAt j = expectedCreatedAt /\
                      Job.providerExecutionId j = Some providerExecutionId)
      then (true, set_job streamId {| j with Job.providerDrained := Some true |} s)
      else (false, s)
  | None => (false, s)
  end.

Definition beginProviderExecution (streamId : string) (expectedCreatedAt : Z)
    (providerExecutionId : string) (s : Store) : bool * Store :=
  match mget (jobs s) streamId with
  | Some j =>
      if bool_decide (Job.createdAt j = expectedCreatedAt /\
                      Job.providerExecutionId j = Some providerExecutionId /\
                      Job.status j = running /\
                      Job.providerDrained j = Some true)
      then (true, set_job streamId {| j with Job.providerDrained := Some false |} s)
      else (false, s)
  | None => (false, s)
  end.

(** [finalizeTerminalPersistence(streamId, expectedCreatedAt, finalEvent)] *)
Definition finalizeTerminalPersistence (streamId : string) (expectedCreatedAt : Z)
    (finalEvent : string) (s : Store) : bool * Store :=
  match mget (jobs s) streamId with
  | Some j =>
      if bool_decide (Job.createdAt j = expectedCreatedAt /\
                      Job.terminalPersistencePending j = Some true)
      then (true,
            set_job streamId
              {| j with Job.terminalPersistencePending := Some false;
                 Job.finalEvent := Some finalEvent |} s)
      else (false, s)
  | None => (false, s)
  end.

(** ** Status transitions *)

(** The guards of an atomic transition. *)
Definition transition_guard (args : JobStatusTransition.t) (j : Job.t) : bool :=
  bool_decide (Job.status j = JobStatusTransition.from args) &&
  match JobStatusTransition.expectActionId args with
  | None => true
  | Some a => bool_decide (Job.pendingActionId j = Some a)
  end &&
  epoch_matches (JobStatusTransition.expectCreatedAt args) (Job.createdAt j).

(** The job after the status, the patch and the cleared properties are written. *)
Definition transitioned (args : JobStatusTransition.t) (j : Job.t) : Job.t :=
  clear (assign {| j with Job.status := JobStatusTransition.to args |}
           (JobStatusTransition.patch args)) (JobStatusTransition.clear args).

(** The receipts of the generation outlive the transition. *)
Definition transition_receipts (args : JobStatusTransition.t) (createdAt : Z) (now : Z)
    (e : ReceiptEntry.t) : ReceiptEntry.t :=
  if negb (bool_decide (SteerReceipt.generationCreatedAt (ReceiptEntry.receipt e) = createdAt))
  then e
  else if bool_decide (JobStatusTransition.to args = requires_action /\
                       patch_approvalExpiry (JobStatusTransition.patch args) = None)
  then set_receipt_expiry Never e
  else
    let requested :=
      match JobStatusTransition.steerReceiptTtlSeconds args with
      | Some ttl => now + Z.max 1 ttl * 1000
      | None => 0
      end%Z in
    let terminalExpiry :=
      (if terminal (JobStatusTransition.to args) then now + PARKED_STEERS_TTL_MS else 0)%Z in
    let resumeExpiry :=
      (if decide (JobStatusTransition.from args = requires_action)
       then now + STEER_RECEIPT_TTL_MS else 0)%Z in
    let target := Z.max requested (Z.max terminalExpiry resumeExpiry) in
    if decide (0 < target)%Z then bound_receipt target e else e.

(** [transitionStatus(streamId, args)] *)
Definition transitionStatus (streamId : string) (args : JobStatusTransition.t) (now : Z)
  : M bool := fun s =>
  match mget (jobs s) streamId with
  | None => (Ok false, s)
  | Some j =>
      if negb (transition_guard args j) then (Ok false, s)
      else if terminal (JobStatusTransition.to args) && negb (isParkedRecoveryCompatible s streamId j now)
      then (Ok false, s)
      else
        ((if terminal (JobStatusTransition.to args) then parkQueuedSteers streamId j now
          else retM tt) >>
         let j' := transitioned args j in
         modify (set_job streamId j') >>
         modify (map_receipts streamId (transition_receipts args (Job.createdAt j') now)) >>
         modify (fun s =>
           match JobStatusTransition.to args with
           | running => extendRecoveryLease streamId j' (runningRecoveryLeaseExpiry s now) now s
           | requires_action =>
               extendRecoveryLease streamId j'
                 (match patch_approvalExpiry (JobStatusTransition.patch args) with
                  | None => Never
                  | Some e => imax (runningRecoveryLeaseExpiry s now)
                                (At (e + PARKED_STEERS_TTL_MS))
                  end) now s
           | _ => s
           end) >>
         retM true) s
  end.

(** [transitionStatusAndDrainSteers(streamId, args)] *)
Definition transitionStatusAndDrainSteers (streamId : string) (args : JobStatusTransition.t)
    (now : Z) : M (option (list SteerQueueItem.t)) := fun s =>
  if negb (terminal (JobStatusTransition.to args))
  then (Throw (PlainError "Steer-draining status transitions must be terminal"), s)
  else match mget (jobs s) streamId with
  | None => (Ok None, s)
  | Some j =>
      if negb (transition_guard args j) then (Ok None, s)
      else
        let drained := unsettled s streamId (Job.createdAt j) in
        (transitionStatus streamId args now >>= fun ok =>
         retM (if ok then Some drained else None)) s
  end.

(** [updateJob(streamId, updates, expectedCreatedAt)] *)
Definition patch_status (patch : list JobField) : option JobStatus :=
  foldl (fun acc f => match f with F_status st => Some st | _ => acc end) None patch.

Definition is_status_field (f : JobField) : bool :=
  match f with F_status _ => true | _ => false end.

Definition updateJob (streamId : string) (updates : list JobField)
    (expectedCreatedAt : option Z) (now : Z) : M () := fun s =>
  match mget (jobs s) streamId with
  | None => (Ok tt, s)
  | Some j =>
      if negb (epoch_matches expectedCreatedAt (Job.createdAt j)) then (Ok tt, s)
      else match patch_status updates with
      | Some st =>
          if terminal st && active (Job.status j)
          then
            (transitionStatus streamId
               (JobStatusTransition.mk (Job.status j) st
                  (filter (fun f => is_status_field f = false) updates) [] None
                  (Some (default (Job.createdAt j) expectedCreatedAt)) None) now >> retM tt) s
          else (Ok tt, set_job streamId (assign j updates) s)
      | None => (Ok tt, set_job streamId (assign j updates) s)
      end
  end.

(** ** Idempotency claims *)

Definition live_claim (s : Store) (key : string) (now : Z) : option ClaimEntry.t :=
  match mget (idempotencyClaims s) key with
  | Some c => if decide (ClaimEntry.expiresAt c <= now)%Z then None else Some c
  | None => None
  end.

Definition set_claim (key : string) (v : IdempotencyClaimValue.t) (expiresAt : Z) (s : Store)
  : Store :=
  with_idempotencyClaims (mset (idempotencyClaims s) key (ClaimEntry.mk v expiresAt)) s.

(** [claimIdempotencyKey(key, value, ttlSeconds)]: won, and the claim in force. *)
Definition claimIdempotencyKey (key : string) (value : IdempotencyClaimValue.t)
    (ttlSeconds now : Z) (s : Store) : (bool * IdempotencyClaimValue.t) * Store :=
  match live_claim s key now with
  | Some c => ((false, ClaimEntry.value c), s)
  | None => ((true, value), set_claim key value (now + ttlSeconds * 1000) s)
  end.

(** [takeoverIdempotencyKey(key, expected, value, ttlSeconds)] *)
Definition takeoverIdempotencyKey (key : string) (expected value : IdempotencyClaimValue.t)
    (ttlSeconds now : Z) (s : Store) : bool * Store :=
  match live_claim s key now with
  | Some c =>
      if bool_decide (IdempotencyClaimValue.claimToken (ClaimEntry.value c) =
                      IdempotencyClaimValue.claimToken expected /\
                      IdempotencyClaimValue.startedAt (ClaimEntry.value c) = None)
      then (true, set_claim key value (now + ttlSeconds * 1000) s)
      else (false, s)
  | None => (false, s)
  end.

(** [markIdempotencyKeyStarted(key, claimToken, startedAt, ttlSeconds)] *)
Definition markIdempotencyKeyStarted (key claimToken : string) (startedAt ttlSeconds now : Z)
    (s : Store) : bool * Store :=
  match live_claim s key now with
  | Some c =>
      let v := ClaimEntry.value c in
      if bool_decide (claimToken <> "" /\
                      IdempotencyClaimValue.claimToken v = Some claimToken) &&
         match IdempotencyClaimValue.startedAt v with
         | None => true
         | Some t => bool_decide (t = startedAt)
         end
      then (true, set_claim key {| v with IdempotencyClaimValue.startedAt := Some startedAt |}
                    (now + ttlSeconds * 1000) s)
      else (false, s)
  | None => (false, s)
  end.

(** [adoptIdempotencyKeyForJob(...)] *)
Definition adoptIdempotencyKeyForJob (key : string) (expected : IdempotencyClaimValue.t)
    (streamId userId clientRequestId : string) (tenantId : option string)
    (expectedCreatedAt ttlSeconds : Z) (allowMissingClientRequestId : bool) (now : Z) (s : Store)
  : bool * Store :=
  match live_claim s key now, mget (jobs s) streamId with
  | Some c, Some j =>
      let v := ClaimEntry.value c in
      if bool_decide (IdempotencyClaimValue.claimToken v =
                      IdempotencyClaimValue.claimToken expected /\
                      IdempotencyClaimValue.startedAt v = None /\
                      Job.userId j = userId /\
                      Job.createdAt j = expectedCreatedAt) &&
         tenant_matches (Job.tenantId j) tenantId &&
         match Job.idempotencyClientRequestId j with
         | None => allowMissingClientRequestId
         | Some r => bool_decide (r = clientRequestId)
         end &&
         active (Job.status j)
      then (true,
            set_claim key
              {| v with IdempotencyClaimValue.startedAt := Some (Job.createdAt j);
                 IdempotencyClaimValue.generationProtocolVersion :=
                   Some (normalize_job_protocol (Job.generationProtocolVersion j)) |}
              (now + ttlSeconds * 1000) s)
      else (false, s)
  | _, _ => (false, s)
  end.

(** [releaseIdempotencyKey(key, expected)] *)
Definition releaseIdempotencyKey (key : string) (expected : option IdempotencyClaimValue.t)
    (s : Store) : Store :=
  let release := with_idempotencyClaims (mdel (idempotencyClaims s) key) s in
  match expected with
  | None => release
  | Some e =>
      if bool_decide
           ((mget (idempotencyClaims s) key ≫=
               fun c => IdempotencyClaimValue.claimToken (ClaimEntry.value c)) =
            IdempotencyClaimValue.claimToken e)
      then release else s
  end.

(** ** Activity *)

(** [recordActivity(streamId, expectedCreatedAt)] *)
Definition recordActivity (streamId : string) (expectedCreatedAt : option Z) (now : Z)
    (s : Store) : Store :=
  match mget (jobs s) streamId with
  | Some j =>
      if epoch_matches expectedCreatedAt (Job.createdAt j)
      then
        let s1 := with_lastActivity (mset (lastActivity s) streamId now) s in
        let s2 := map_receipts streamId
                    (fun e => if bool_decide (SteerReceipt.generationCreatedAt
                                                (ReceiptEntry.receipt e) = Job.createdAt j)
                              then extend_receipt (At (now + STEER_RECEIPT_TTL_MS)) e else e) s1 in
        extendRecoveryLease streamId j (runningRecoveryLeaseExpiry s2 now) now s2
      else s
  | None => s
  end.

(** ** Listings *)

Definition getRunningJobs (s : Store) : list Job.t :=
  filter (fun j => Job.status j = running) (mvalues (jobs s)).
Definition getRequiresActionJobs (s : Store) : list Job.t :=
  filter (fun j => Job.status j = requires_action) (mvalues (jobs s)).
Definition getJobCount (s : Store) : nat := length (jobs s).
Definition getJobCountByStatus (s : Store) (st : JobStatus) : nat :=
  length (filter (fun j => Job.status j = st) (mvalues (jobs s))).

(** [getTerminalHostActionJobs()]: enumerating refreshes the retention of each job. *)
Definition getTerminalHostActionJobs (now : Z) (s : Store) : list Job.t * Store :=
  let refresh (j : Job.t) : Job.t :=
    if bool_decide (Job.terminalHostActionPending j = Some true)
    then {| j with Job.terminalHostActionRefreshedAt := Some now |} else j in
  let s' := with_jobs (mmap refresh (jobs s)) s in
  (filter (fun j => Job.terminalHostActionPending j = Some true) (mvalues (jobs s')), s').

(** [clearTerminalHostAction(streamId, expectedCreatedAt)] *)
Definition clearTerminalHostAction (streamId : string) (expectedCreatedAt : option Z) (s : Store)
  : Store :=
  match mget (jobs s) streamId with
  | Some j =>
      if epoch_matches expectedCreatedAt (Job.createdAt j)
      then set_job streamId {| j with Job.terminalHostActionPending := None |} s
      else s
  | None => s
  end.

(** One tracked id in [getJobIdsByUser]: listed, kept silently, or dropped from the index. *)
Inductive TrackedId := Listed | Silent | Dropped.

#[export] Instance TrackedId_eq_dec : EqDecision TrackedId.
Proof. solve_decision. Defined.

Definition classify_tracked (s : Store) (key : string) (includeUndrained : bool) (now : Z)
    (streamId : string) : TrackedId :=
  match mget (jobs s) streamId with
  | None => Dropped
  | Some j =>
      if negb (bool_decide (user_key (Job.tenantId j) (Job.userId j) = key)) then Dropped
      else
        let undrained := includeUndrained && bool_decide (Job.providerDrained j = Some false) in
        if active (Job.status j) || undrained then
          if bool_decide (Job.status j = requires_action) && isPendingActionStale j now &&
             negb undrained
          then Silent else Listed
        else if bool_decide (Job.providerDrained j = Some false) then Silent else Dropped
  end.

(** [getJobIdsByUser(userId, tenantId, includeUndrained)] *)
Definition getJobIdsByUser (userId : string) (tenantId : option string) (includeUndrained : bool)
    (now : Z) (s : Store) : list string * Store :=
  let key := user_key tenantId userId in
  match mget (userJobMap s) key with
  | None | Some [] => ([], s)
  | Some tracked =>
      let class := classify_tracked s key includeUndrained now in
      let ids := filter (fun i => class i = Listed) tracked in
      let kept := filter (fun i => class i <> Dropped) tracked in
      (ids,
       with_userJobMap
         (match kept with [] => mdel (userJobMap s) key | _ :: _ => mset (userJobMap s) key kept end)
         s)
  end.

Definition getActiveJobIdsByUser (userId : string) (tenantId : option string) :=
  getJobIdsByUser userId tenantId false.
Definition getCleanupBlockingJobIdsByUser (userId : string) (tenantId : option string) :=
  getJobIdsByUser userId tenantId true.
