(* ===== verification/StoreCleanup.v ===== *)
(** * Periodic cleanup and teardown of the in-memory store
      ([stream/implementations/InMemoryJobStore.ts]: [cleanup], [destroy], content state)

    One cleanup pass prunes the expired records, fails abandoned pause barriers, finalises stale
    approvals and collects the jobs to reap.  The pass awaits only promises that are already
    settled; it is modelled as one run over the jobs present at its start. *)

From S2P Require Import Prelude JsMap Json StreamTypes SteerRecovery StoreState StoreSteers StoreParked StoreJobs.

(** [initialize()]: the interval is armed once. *)
Definition initialize (s : Store) : Store := {| s with cleanupInterval := true |}.

(** ** One job of the cleanup loop *)

(** The transition that fails an abandoned pause barrier. *)
Definition pause_timeout_transition (j : Job.t) (actionId : string) (now : Z)
  : JobStatusTransition.t :=
  JobStatusTransition.mk requires_action error
    [F_completedAt now; F_error PAUSE_PERSISTENCE_TIMEOUT_ERROR]
    [K_pendingAction; K_pendingActionId; K_terminalPersistencePending;
     K_terminalPersistenceStartedAt]
    (Some actionId) (Some (Job.createdAt j)) None.

(** [job.terminalPersistenceStartedAt ?? job.createdAt] *)
Definition persistence_started (j : Job.t) : Z :=
  default (Job.createdAt j) (Job.terminalPersistenceStartedAt j).

(** The pause barrier of one job: [false] when the loop moves to the next job. *)
Definition cleanup_barrier (streamId : string) (j : Job.t) (now : Z) : M bool :=
  if bool_decide (Job.status j = requires_action /\ Job.terminalPersistencePending j = Some true)
  then
    if decide (now - persistence_started j < PAUSE_PERSISTENCE_TIMEOUT_MS)%Z then retM false
    else match Job.pendingActionId j with
    | None => retM false
    | Some actionId =>
        transitionStatusAndDrainSteers streamId (pause_timeout_transition j actionId now) now
          >>= fun failed => retM (match failed with Some _ => true | None => false end)
    end
  else retM true.

(** The bounded window in which a terminal job owing a host hook is retained. *)
Definition hostActionHeld (j : Job.t) (now : Z) : bool :=
  bool_decide (Job.terminalHostActionPending j = Some true) &&
  bool_decide (now - default (default 0%Z (Job.completedAt j)) (Job.terminalHostActionRefreshedAt j)
               <= HOST_ACTION_RETENTION_MS)%Z.

Definition terminal_ttl (s : Store) (j : Job.t) : Z :=
  if bool_decide (Job.terminalPersistencePending j = Some true)
  then Z.max (ttlAfterComplete s) TERMINAL_PERSISTENCE_RETENTION_MS
  else ttlAfterComplete s.

(** The job after a stale approval is finalised. *)
Definition expired_approval (j : Job.t) (now : Z) : Job.t :=
  {| j with
     Job.status := aborted;
     Job.completedAt := Some now;
     Job.error := Some "Approval expired before a decision was made";
     Job.terminalHostActionPending := Some true;
     Job.pendingAction := None;
     Job.pendingActionId := None |}.

(** The most recent liveness signal of a running job. *)
Definition last_active (s : Store) (streamId : string) (j : Job.t) : Z :=
  Z.max (default 0%Z (mget (lastActivity s) streamId))
    (Z.max (default 0%Z (Job.lastActiveAt j)) (Job.createdAt j)).

(** What the loop does with one job after the barrier: reap it when [true]. *)
Definition cleanup_finished (j : Job.t) (now : Z) : bool :=
  terminal (Job.status j) &&
  match Job.completedAt j with Some c => negb (bool_decide (c = 0)%Z) | None => false end &&
  negb (bool_decide (Job.preserveForScheduleReconcile j = Some true)) &&
  negb (hostActionHeld j now).

Definition cleanup_job (streamId : string) (now : Z) : M bool := fun s =>
  match mget (jobs s) streamId with
  | None => (Ok false, s)
  | Some j =>
      if cleanup_finished j now then
        let ttl := terminal_ttl s j in
        (Ok (bool_decide (ttl = 0)%Z ||
             bool_decide (ttl < now - default 0%Z (Job.completedAt j))%Z), s)
      else if bool_decide (Job.status j = requires_action) && isPendingActionStale j now then
        if isParkedRecoveryCompatible s streamId j now then
          (parkQueuedSteers streamId j now >>
           modify (set_job streamId (expired_approval j now)) >> retM false) s
        else (Ok false, s)
      else if bool_decide (0 < staleJobTimeout s)%Z && bool_decide (Job.status j = running) &&
              bool_decide (staleJobTimeout s < now - last_active s streamId j)%Z then
        if isParkedRecoveryCompatible s streamId j now then
          (parkQueuedSteers streamId j now >> retM true) s
        else (Ok false, s)
      else (Ok false, s)
  end.

(** The loop body for one stream: the generation to delete, if any. *)
Definition cleanup_visit (streamId : string) (now : Z) : M (option Z) := fun s =>
  match mget (jobs s) streamId with
  | None => (Ok None, s)
  | Some j =>
      (cleanup_barrier streamId j now >>= fun proceed =>
       if proceed
       then cleanup_job streamId now >>= fun reap =>
            retM (if reap then Some (Job.createdAt j) else None)
       else retM None) s
  end.

(** The loop over the jobs, collecting the streams to delete with their generation. *)
Fixpoint cleanup_jobs (streams : list string) (now : Z) : M (list (string * Z)) :=
  match streams with
  | [] => retM []
  | streamId :: rest =>
      cleanup_visit streamId now >>= fun r =>
      cleanup_jobs rest now >>= fun l =>
      retM (match r with Some e => (streamId, e) :: l | None => l end)
  end.

(** ** Pruning *)

Definition prune_expired (now : Z) (s : Store) : Store :=
  {| s with
     parkedSteers := mprune (fun _ p => expired (Parked.expiresAt p) now) (parkedSteers s);
     idempotencyClaims :=
       mprune (fun _ c => bool_decide (ClaimEntry.expiresAt c <= now)%Z) (idempotencyClaims s);
     generationEpochs :=
       mprune (fun _ r => bool_decide (RetainedEpoch.expiresAt r <= now)%Z)
         (generationEpochs s) |}.

Definition prune_receipts (now : Z) (s : Store) : Store :=
  with_steerReceipts
    (mprune (fun _ rs => bool_decide (rs = []))
       (mmap (mprune (fun _ e => expired (ReceiptEntry.expiresAt e) now)) (steerReceipts s))) s.

Definition delete_all (l : list (string * Z)) (now : Z) (s : Store) : Store :=
  foldl (fun s e => (deleteJob e.1 (Some e.2) now s).2) s l.

(** [cleanup()]: the number of reaped jobs. *)
Definition cleanup (now : Z) : M nat :=
  modify (prune_expired now) >>
  gets (fun s => mkeys (jobs s)) >>= fun streams =>
  cleanup_jobs streams now >>= fun toDelete =>
  modify (prune_receipts now) >>
  modify (delete_all toDelete now) >>
  retM (length toDelete).

(** [destroy()] *)
Definition destroy (s : Store) : Store :=
  {| s with cleanupInterval := false; jobs := []; contentState := []; userJobMap := [];
     steerQueues := []; claimedSteers := []; closedSteerQueues := []; parkedSteers := [];
     steerReceipts := []; idempotencyClaims := []; lastActivity := []; generationEpochs := [] |}.

(** ** Content state *)

(** [expectedCreatedAt != null && this.jobs.get(streamId)?.createdAt !== expectedCreatedAt] *)
Definition content_fenced (s : Store) (streamId : string) (expectedCreatedAt : option Z) : bool :=
  match expectedCreatedAt with
  | None => false
  | Some e => negb (bool_decide (Job.createdAt <$> mget (jobs s) streamId = Some e))
  end.

Definition update_content (streamId : string) (expectedCreatedAt : option Z)
    (fresh : ContentState.t) (f : ContentState.t -> ContentState.t) (s : Store) : Store :=
  if content_fenced s streamId expectedCreatedAt then s
  else with_contentState
         (mset (contentState s) streamId
            (match mget (contentState s) streamId with Some c => f c | None => fresh end)) s.

Definition setGraph (streamId : string) (graph : list json) (expectedCreatedAt : option Z) :=
  update_content streamId expectedCreatedAt (ContentState.mk [] (Some graph) [])
    (fun c => {| c with ContentState.graphRef := Some graph |}).

Definition setContentParts (streamId : string) (parts : list json)
    (expectedCreatedAt : option Z) :=
  update_content streamId expectedCreatedAt (ContentState.mk parts None [])
    (fun c => {| c with ContentState.contentParts := parts |}).

Definition setCollectedUsage (streamId : string) (usage : list json)
    (expectedCreatedAt : option Z) :=
  update_content streamId expectedCreatedAt (ContentState.mk [] None usage)
    (fun c => {| c with ContentState.collectedUsage := usage |}).

Definition getCollectedUsage (s : Store) (streamId : string) (expectedCreatedAt : option Z)
  : list json :=
  if content_fenced s streamId expectedCreatedAt then []
  else default [] (ContentState.collectedUsage <$> mget (contentState s) streamId).

Definition getContentParts (s : Store) (streamId : string) (expectedCreatedAt : option Z)
  : option (list json) :=
  if content_fenced s streamId expectedCreatedAt then None
  else ContentState.contentParts <$> mget (contentState s) streamId.

(** [getRunSteps]: [collected] tells whether the weakly referenced graph was reclaimed. *)
Definition getRunSteps (s : Store) (streamId : string) (expectedCreatedAt : option Z)
    (collected : bool) : list json :=
  if content_fenced s streamId expectedCreatedAt then []
  else match mget (contentState s) streamId ≫= ContentState.graphRef with
       | Some steps => if collected then [] else steps
       | None => []
       end.

(** [clearContentState]: unlike the setters, an absent job does not fence it. *)
Definition clearContentState (streamId : string) (expectedCreatedAt : option Z) (s : Store)
  : Store :=
  match mget (jobs s) streamId with
  | Some j =>
      if epoch_matches expectedCreatedAt (Job.createdAt j)
      then with_contentState (mdel (contentState s) streamId) s else s
  | None => with_contentState (mdel (contentState s) streamId) s
  end.
