(* ===== verification/StoreFrame.v ===== *)
(** * Frame lemmas of the store operations

    [core s] is the part of the state that identifies generations: the job table, the epoch
    clock, the retained epochs, the user index, the idempotency claims and the configuration.
    Steering and recovery operations leave it alone; the lemmas here say so once, for the
    [core] rewriting database, and describe what the parking helpers do write. *)

From S2P Require Import Prelude JsMap Json StreamTypes SteerRecovery StoreState StoreSteers StoreParked StoreJobs StoreCleanup.

Definition core (s : Store) :=
  (jobs s, lastGenerationEpoch s, generationEpochs s, userJobMap s, idempotencyClaims s,
   (ttlAfterComplete s, maxJobs s, staleJobTimeout s)).

Create HintDb core.

Lemma core_jobs s s' : core s' = core s -> jobs s' = jobs s.
Proof. by intros [=]. Qed.
Lemma core_epoch s s' : core s' = core s -> lastGenerationEpoch s' = lastGenerationEpoch s.
Proof. by intros [=]. Qed.
Lemma core_retained s s' : core s' = core s -> generationEpochs s' = generationEpochs s.
Proof. by intros [=]. Qed.
Lemma core_index s s' : core s' = core s -> userJobMap s' = userJobMap s.
Proof. by intros [=]. Qed.
Lemma core_claims s s' : core s' = core s -> idempotencyClaims s' = idempotencyClaims s.
Proof. by intros [=]. Qed.

(** An operation that folds core-preserving updates preserves the core. *)
Lemma core_foldl {A} (f : Store -> A -> Store) l s :
  (forall s a, core (f s a) = core s) -> core (foldl f s l) = core s.
Proof. intros Hf. revert s. induction l as [|a l IH]; intros s; simpl; [done|]. by rewrite IH. Qed.

(** [keeps f m]: the run [m] leaves the view [f] of the store as it is, throw or not. *)
Definition keeps {X A} (f : Store -> X) (m : M A) : Prop := forall s, f (m s).2 = f s.

Lemma keeps_bind {X A B} (f : Store -> X) (m : M A) (g : A -> M B) :
  keeps f m -> (forall a, keeps f (g a)) -> keeps f (m >>= g).
Proof.
  intros Hm Hg s. unfold bindM. specialize (Hm s).
  destruct (m s) as [[a|e] s'] eqn:E; simpl in *; [by rewrite Hg | done].
Qed.

(** Receipt updates preserve every view that does not look at the receipts; parking, every view
    that looks neither at the receipts nor at the parked steers. *)
Section receipt_frame.
Context {X : Type} (f : Store -> X) (Hr : forall v s, f (with_steerReceipts v s) = f s).

Lemma update_receipt_frame k c g s : f (update_receipt k c g s) = f s.
Proof using Hr. unfold update_receipt. repeat case_match; auto. Qed.

Lemma map_receipts_frame k g s : f (map_receipts k g s) = f s.
Proof using Hr. unfold map_receipts. case_match; auto. Qed.

Lemma fold_receipts_frame {A} (c : A -> option string) (g : A -> ReceiptEntry.t -> ReceiptEntry.t)
    k l s :
  f (foldl (fun s i => match c i with
                       | Some c => update_receipt k c (g i) s
                       | None => s
                       end) s l) = f s.
Proof using Hr.
  revert s. induction l as [|x l IH]; intros s; simpl; [done|]. rewrite IH.
  case_match; [apply update_receipt_frame | done].
Qed.

Lemma settle_frame k items st s : f (settleSteerReceipts k items st s) = f s.
Proof using Hr.
  assert (Hfold : forall s, f (foldl (fun s item =>
    match SteerQueueItem.clientSteerId item with
    | Some c => if decide (c = "") then s else update_receipt k c (set_receipt_item item st) s
    | None => s
    end) s items) = f s).
  { induction items as [|i l IH]; intros s0; simpl; [done|]. rewrite IH.
    destruct (SteerQueueItem.clientSteerId i); [|done]. case_decide; [done|].
    apply update_receipt_frame. }
  unfold settleSteerReceipts. repeat case_match; auto.
Qed.

Context (k : string) (Hp : forall v s, f (with_parkedSteers (mset (parkedSteers s) k v) s) = f s).

Lemma parkLeftovers_frame items j now : keeps f (parkLeftovers k items j now).
Proof using Hr Hp.
  intros s. unfold parkLeftovers. destruct j, items; try done.
  destruct (prior_parked _ _ _ _) as [prior protocol]. case_decide; [done|]. cbn [snd].
  by rewrite (fold_receipts_frame SteerQueueItem.clientSteerId), Hp.
Qed.

Context (Hq : forall s, f (with_claimedSteers (mdel (claimedSteers s) k)
                             (with_steerQueues (mdel (steerQueues s) k) s)) = f s).

Lemma parkQueuedSteers_frame j now : keeps f (parkQueuedSteers k j now).
Proof using Hr Hp Hq.
  intros s. unfold parkQueuedSteers. destruct (unsettled _ _ _) as [|x q]; [done|].
  apply keeps_bind; [intros ?; apply settle_frame|]. intros [].
  apply keeps_bind; [apply parkLeftovers_frame|]. intros [] s'. apply Hq.
Qed.
End receipt_frame.

Lemma core_update_receipt k c g s : core (update_receipt k c g s) = core s.
Proof. by apply update_receipt_frame. Qed.

Lemma core_map_receipts k g s : core (map_receipts k g s) = core s.
Proof. by apply map_receipts_frame. Qed.

Lemma core_set_queue k q s : core (set_queue k q s) = core s.
Proof. done. Qed.
Lemma core_with_claimed v s : core (with_claimedSteers v s) = core s.
Proof. done. Qed.
Lemma core_with_queues v s : core (with_steerQueues v s) = core s.
Proof. done. Qed.
Lemma core_with_parked v s : core (with_parkedSteers v s) = core s.
Proof. done. Qed.
Lemma core_with_receipts v s : core (with_steerReceipts v s) = core s.
Proof. done. Qed.
Lemma core_with_closed v s : core (with_closedSteerQueues v s) = core s.
Proof. done. Qed.

Lemma core_settle k items st s : core (settleSteerReceipts k items st s) = core s.
Proof. by apply settle_frame. Qed.

#[export] Hint Rewrite core_update_receipt core_map_receipts core_set_queue core_settle
  core_with_claimed core_with_queues core_with_parked core_with_receipts core_with_closed : core.

Lemma core_parkLeftovers k items j now s : core (parkLeftovers k items j now s).2 = core s.
Proof. by apply parkLeftovers_frame. Qed.

Lemma core_parkQueued k j now : keeps core (parkQueuedSteers k j now).
Proof. by apply parkQueuedSteers_frame. Qed.

(** Case analysis on the branches, then the frame lemmas. *)
Ltac core_tac :=
  intros; repeat case_match; simplify_eq/=; autorewrite with core; try done.

Lemma core_extend_lease k j t p v i s : core (extend_lease k j t p v i s) = core s.
Proof. unfold extend_lease. core_tac. Qed.

#[export] Hint Rewrite core_extend_lease : core.

Lemma core_extendRecoveryLease k j t now s : core (extendRecoveryLease k j t now s) = core s.
Proof. unfold extendRecoveryLease. core_tac. Qed.

Lemma core_leaseParked k id u t c now s : core (leaseParkedSteer k id u t c now s) = core s.
Proof. unfold leaseParkedSteer. core_tac. Qed.

#[export] Hint Rewrite core_parkLeftovers core_extendRecoveryLease core_leaseParked : core.

(** ** Steering and recovery operations *)

Lemma core_enqueueVersioned k i w e s : core (enqueueSteerVersioned k i w e s).2 = core s.
Proof. unfold enqueueSteerVersioned. core_tac. Qed.

Lemma core_delete_receipt k c s : core (delete_receipt k c s) = core s.
Proof. unfold delete_receipt. core_tac. Qed.

#[export] Hint Rewrite core_enqueueVersioned core_delete_receipt : core.

Lemma core_getReceipt k c now s : core (getSteerReceipt k c now s).2 = core s.
Proof. unfold getSteerReceipt. core_tac. Qed.

Lemma core_enqueueWithReceipt k i r w e now s :
  core (enqueueSteerWithReceipt k i r w e now s).2 = core s.
Proof. unfold enqueueSteerWithReceipt. core_tac. Qed.

Lemma core_drain k e now : keeps core (drainSteers k e now).
Proof.
  intros s. unfold drainSteers. destruct (steerable_job _ _ _); [|done].
  destruct (queue_of s k) as [|q l]; [done|]. case_match; [done|]. case_match; [|done].
  cbn [snd]. rewrite core_foldl; [by autorewrite with core | core_tac].
Qed.

Lemma core_restore k items e s : core (restoreClaimedSteers k items e s).2 = core s.
Proof. unfold restoreClaimedSteers. core_tac. Qed.

Lemma core_closeAndDrain k e now : keeps core (closeAndDrainSteers k e now).
Proof.
  intros s. unfold closeAndDrainSteers. destruct (mget (jobs s) k) as [j|]; [|done].
  do 2 (case_match; [done|]).
  match goal with |- core (?m s).2 = _ => enough (keeps core m) as Hk by apply Hk end.
  repeat (apply keeps_bind; [|intros []]); intros ?;
    first [apply core_parkLeftovers | apply core_settle | simpl; by case_match | done].
Qed.

Lemma core_clear k s : core (clearSteers k s) = core s.
Proof. unfold clearSteers. core_tac. Qed.

Lemma core_remove k id e : keeps core (removeSteer k id e).
Proof. intros s. unfold removeSteer. core_tac. Qed.

Lemma core_armVersioned k id e : keeps core (armSteerVersioned k id e).
Proof. intros s. unfold armSteerVersioned. core_tac. Qed.

Lemma core_downgrade k e : keeps core (downgradeSteerPreempts k e).
Proof.
  intros s. unfold downgradeSteerPreempts.
  repeat case_match; simplify_eq/=; try done; (rewrite core_foldl; core_tac).
Qed.

Lemma core_append k e d s : core (appendChunk k e d s).2 = core s.
Proof. unfold appendChunk. core_tac. Qed.

Lemma core_park k p e now s : core (parkSteers k p e now s) = core s.
Proof. unfold parkSteers. core_tac. Qed.

Lemma core_claimParked k u t r now s : core (claimParkedSteersDetailed k u t r now s).2 = core s.
Proof. unfold claimParkedSteersDetailed. core_tac. Qed.

Lemma core_store_parked k p v l s : core (store_parked_steers k p v l s) = core s.
Proof. unfold store_parked_steers. core_tac. Qed.

#[export] Hint Rewrite core_store_parked : core.

Lemma core_discard k c id u t e now s :
  core (discardSteerLeftover k c id u t e now s).2 = core s.
Proof. unfold discardSteerLeftover. core_tac. Qed.

Lemma core_consume k id u t e now s : core (consumeParkedSteer k id u t e now s).2 = core s.
Proof. unfold consumeParkedSteer. core_tac. Qed.

#[export] Hint Rewrite core_getReceipt core_enqueueWithReceipt core_restore core_clear core_append
  core_park core_claimParked core_discard core_consume : core.
