(* ===== verification/StoreRun.v ===== *)
(** * Runs of the in-memory store

    The public operations as one type of labels, their effect as one function, and runs as
    sequences of operations at arbitrary clock readings: the interleavings that concurrent
    requests can produce, since every operation but [createJob] is free of [await] and
    [createJob] is split at its only one. *)

From S2P Require Import Prelude JsMap Json StreamTypes SteerRecovery StoreState StoreSteers StoreParked StoreJobs StoreCleanup StoreFrame.

(** ** Operations *)

Inductive op :=
| CreateBegin (a : CreateArgs.t)
| CreateCommit (a : CreateArgs.t)
| Delete (k : string) (e : option Z)
| Acknowledge (k attempt : string) (replaced : list Z)
| MarkDrained (k : string) (e : Z) (execution : string)
| BeginProvider (k : string) (e : Z) (execution : string)
| FinalizeTerminal (k : string) (e : Z) (event : string)
| Transition (k : string) (args : JobStatusTransition.t)
| TransitionDrain (k : string) (args : JobStatusTransition.t)
| Update (k : string) (updates : list JobField) (e : option Z)
| ClaimKey (key : string) (v : IdempotencyClaimValue.t) (ttl : Z)
| TakeoverKey (key : string) (expected v : IdempotencyClaimValue.t) (ttl : Z)
| MarkStarted (key token : string) (startedAt ttl : Z)
| AdoptKey (key : string) (expected : IdempotencyClaimValue.t) (k user request : string)
    (tenant : option string) (e ttl : Z) (allowMissing : bool)
| ReleaseKey (key : string) (expected : option IdempotencyClaimValue.t)
| RecordActivity (k : string) (e : option Z)
| ListHostActions
| ClearHostAction (k : string) (e : option Z)
| JobIdsByUser (user : string) (tenant : option string) (undrained : bool)
| Enqueue (k : string) (i : SteerQueueItem.t) (preempt : bool) (e : option Z)
| EnqueueReceipted (k : string) (i : SteerQueueItem.t) (r : SteerReceiptInput.t)
    (preempt : bool) (e : option Z)
| GetReceipt (k c : string)
| Drain (k : string) (e : option Z)
| RestoreClaimed (k : string) (items : list SteerQueueItem.t) (e : option Z)
| CloseAndDrain (k : string) (e : option Z)
| ClearSteers (k : string)
| RemoveSteer (k id : string) (e : option Z)
| ArmSteer (k id : string) (e : option Z)
| DowngradePreempts (k : string) (e : option Z)
| AppendChunk (k : string) (e : option Z) (d : option SteerQueueItem.t)
| ParkSteers (k : string) (payload : jtext) (e : option Z)
| ClaimParked (k user : string) (tenant : option string) (requested : GenerationProtocolVersion)
| DiscardLeftover (k c id user : string) (tenant : option string) (e : option Z)
| ConsumeParked (k id user : string) (tenant : option string) (e : Z)
| SetGraph (k : string) (graph : list json) (e : option Z)
| SetContentParts (k : string) (parts : list json) (e : option Z)
| SetCollectedUsage (k : string) (usage : list json) (e : option Z)
| ClearContent (k : string) (e : option Z)
| Cleanup
| Destroy.

(** The state after an operation at clock reading [now]; a throw keeps what was written. *)
Definition run_op (o : op) (now : Z) (s : Store) : Store :=
  match o with
  | CreateBegin a => (createJob_begin a now s).2
  | CreateCommit a => (createJob_commit a now s).2
  | Delete k e => (deleteJob k e now s).2
  | Acknowledge k attempt l => (acknowledgeReplacedJobs k attempt l s).2
  | MarkDrained k e x => (markProviderExecutionDrained k e x s).2
  | BeginProvider k e x => (beginProviderExecution k e x s).2
  | FinalizeTerminal k e ev => (finalizeTerminalPersistence k e ev s).2
  | Transition k args => (transitionStatus k args now s).2
  | TransitionDrain k args => (transitionStatusAndDrainSteers k args now s).2
  | Update k u e => (updateJob k u e now s).2
  | ClaimKey key v ttl => (claimIdempotencyKey key v ttl now s).2
  | TakeoverKey key ex v ttl => (takeoverIdempotencyKey key ex v ttl now s).2
  | MarkStarted key tok st ttl => (markIdempotencyKeyStarted key tok st ttl now s).2
  | AdoptKey key ex k u r t e ttl b =>
      (adoptIdempotencyKeyForJob key ex k u r t e ttl b now s).2
  | ReleaseKey key ex => releaseIdempotencyKey key ex s
  | RecordActivity k e => recordActivity k e now s
  | ListHostActions => (getTerminalHostActionJobs now s).2
  | ClearHostAction k e => clearTerminalHostAction k e s
  | JobIdsByUser u t b => (getJobIdsByUser u t b now s).2
  | Enqueue k i w e => (enqueueSteerVersioned k i w e s).2
  | EnqueueReceipted k i r w e => (enqueueSteerWithReceipt k i r w e now s).2
  | GetReceipt k c => (getSteerReceipt k c now s).2
  | Drain k e => (drainSteers k e now s).2
  | RestoreClaimed k items e => (restoreClaimedSteers k items e s).2
  | CloseAndDrain k e => (closeAndDrainSteers k e now s).2
  | ClearSteers k => clearSteers k s
  | RemoveSteer k id e => (removeSteer k id e s).2
  | ArmSteer k id e => (armSteerVersioned k id e s).2
  | DowngradePreempts k e => (downgradeSteerPreempts k e s).2
  | AppendChunk k e d => (appendChunk k e d s).2
  | ParkSteers k p e => parkSteers k p e now s
  | ClaimParked k u t r => (claimParkedSteersDetailed k u t r now s).2
  | DiscardLeftover k c id u t e => (discardSteerLeftover k c id u t e now s).2
  | ConsumeParked k id u t e => (consumeParkedSteer k id u t e now s).2
  | SetGraph k g e => setGraph k g e s
  | SetContentParts k p e => setContentParts k p e s
  | SetCollectedUsage k u e => setCollectedUsage k u e s
  | ClearContent k e => clearContentState k e s
  | Cleanup => (cleanup now s).2
  | Destroy => destroy s
  end.

(** ** The discipline of the callers

    A run may be watched for one review: [avoid] is an action id that no operation of the run
    attaches to a job.  By default none is watched. *)

Class Avoid := avoid : option string.
#[export] Instance avoid_nothing : Avoid | 100 := None.

Section discipline.
Context {AV : Avoid}.

(** ** Disciplined operations

    The patch types admit every property of a job; no caller assigns the identity of a
    generation, moves a job out of a terminal status, or hides a status in a transition's
    patch. *)

Definition action_field (f : JobField) : bool :=
  match f with F_pendingActionId v => bool_decide (avoid = Some v) | _ => false end.

Definition patch_ok (f : JobField) : bool :=
  negb (identity_field f) && negb (is_status_field f) && negb (action_field f).

Definition update_ok (f : JobField) : bool :=
  negb (identity_field f) && match f with F_status st => terminal st | _ => true end &&
  negb (action_field f).

Definition transition_ok (args : JobStatusTransition.t) : bool :=
  active (JobStatusTransition.from args) &&
  forallb patch_ok (JobStatusTransition.patch args) &&
  forallb (fun k => negb (identity_key k)) (JobStatusTransition.clear args).

Definition op_ok (o : op) : bool :=
  match o with
  | Transition _ args | TransitionDrain _ args => transition_ok args
  | Update _ updates _ => forallb update_ok updates
  | _ => true
  end.

(** Runs: finite sequences of operations of disciplined callers. *)
Inductive reaches (s : Store) : Store -> Prop :=
| reaches_here : reaches s s
| reaches_op s' o now : reaches s s' -> op_ok o = true -> reaches s (run_op o now s').

Lemma reaches_trans s1 s2 s3 : reaches s1 s2 -> reaches s2 s3 -> reaches s1 s3.
Proof. intros H12 H23. induction H23; [done | by constructor]. Qed.

(** A run given as a list, for evaluation. *)
Definition run_ops (l : list (op * Z)) (s : Store) : Store :=
  foldl (fun s e => run_op e.1 e.2 s) s l.

Lemma run_ops_reaches l s :
  forallb (fun e => op_ok e.1) l = true -> reaches s (run_ops l s).
Proof.
  revert s. induction l as [|[o now] l IH]; intros s; simpl; [constructor|].
  rewrite andb_true_iff. intros [Ho Hl].
  eapply reaches_trans; [|by apply IH]. constructor; [constructor | done].
Qed.

(** ** Evolution of the job table

    [succ_job j j']: [j'] is a later record of the generation [j]. *)
Record succ_job (j j' : Job.t) : Prop := {
  sj_identity : same_identity j' j;
  sj_terminal : terminal (Job.status j) = true -> terminal (Job.status j') = true;
  sj_action : forall a, avoid = Some a ->
    Job.pendingActionId j <> Some a -> Job.pendingActionId j' <> Some a
}.

#[global] Instance succ_job_preorder : PreOrder succ_job.
Proof.
  split.
  - intros j. split; [done | auto | auto].
  - intros j1 j2 j3 [] []. split; [by etrans | auto | eauto].
Qed.

(** No generation appears; those that stay are later records of themselves. *)
Record quiet (s s' : Store) : Prop := {
  q_epoch : lastGenerationEpoch s' = lastGenerationEpoch s;
  q_jobs : forall k j', mget (jobs s') k = Some j' ->
    exists j, mget (jobs s) k = Some j /\ succ_job j j';
  q_retained : forall k r', mwf (generationEpochs s) -> mget (generationEpochs s') k = Some r' ->
    (exists r, mget (generationEpochs s) k = Some r /\
               RetainedEpoch.createdAt r' = RetainedEpoch.createdAt r) \/
    (exists j, mget (jobs s) k = Some j /\ RetainedEpoch.createdAt r' = Job.createdAt j);
  q_wf : mwf (jobs s) -> mwf (jobs s');
  q_rwf : mwf (generationEpochs s) -> mwf (generationEpochs s')
}.

#[global] Instance quiet_preorder : PreOrder quiet.
Proof.
  split.
  - intros s. split; [done | | eauto | done | done]. intros k j H. exists j. split; [done|]. reflexivity.
  - intros s1 s2 s3 H12 H23. split.
    + by rewrite (q_epoch _ _ H23), (q_epoch _ _ H12).
    + intros k j3 H3. destruct (q_jobs _ _ H23 _ _ H3) as (j2 & H2 & ?).
      destruct (q_jobs _ _ H12 _ _ H2) as (j1 & H1 & ?). exists j1. split; [done|]. by etrans.
    + intros k r3 Hw H3.
      destruct (q_retained _ _ H23 _ _ (q_rwf _ _ H12 Hw) H3) as [(r2 & H2 & ->)|(j2 & H2 & ->)].
      * destruct (q_retained _ _ H12 _ _ Hw H2) as [?|?]; [by left | by right].
      * destruct (q_jobs _ _ H12 _ _ H2) as (j1 & H1 & [[] _ _]). right. eauto.
    + intros H. apply (q_wf _ _ H23), (q_wf _ _ H12), H.
    + intros H. apply (q_rwf _ _ H23), (q_rwf _ _ H12), H.
Qed.

(** A generation that appears is newer than every earlier one. *)
Record evolves (s s' : Store) : Prop := {
  e_epoch : (lastGenerationEpoch s <= lastGenerationEpoch s')%Z;
  e_jobs : forall k j', mget (jobs s') k = Some j' ->
    (exists j, mget (jobs s) k = Some j /\ succ_job j j') \/
    (lastGenerationEpoch s < Job.createdAt j' <= lastGenerationEpoch s')%Z /\
    forall a, avoid = Some a -> Job.pendingActionId j' <> Some a
}.

#[global] Instance evolves_preorder : PreOrder evolves.
Proof.
  split.
  - intros s. split; [lia|]. intros k j H. left. exists j. split; [done|]. reflexivity.
  - intros s1 s2 s3 [He12 H12] [He23 H23]. split; [lia|]. intros k j3 H3.
    destruct (H23 _ _ H3) as [(j2 & H2 & Hs)|[? ?]]; [|right; split; [lia | done]].
    destruct (H12 _ _ H2) as [(j1 & H1 & ?)|[? ?]].
    + left. exists j1. split; [done|]. by etrans.
    + right. destruct Hs as [[_ _ _ ->] _ Ha]. split; [lia | eauto].
Qed.

Lemma quiet_evolves s s' : quiet s s' -> evolves s s'.
Proof. intros []. split; [lia|]. intros k j' H. left. eauto. Qed.

(** Operations that frame the core are quiet. *)
Lemma core_quiet s s' : core s' = core s -> quiet s s'.
Proof.
  intros [=]. split; [done | | | | ].
  - intros k j' Hj. exists j'. split; [congruence | reflexivity].
  - intros k r' _ Hr. left. exists r'. split; [congruence | done].
  - congruence.
  - congruence.
Qed.

(** Replacement of one job record by a later one. *)
Lemma quiet_set_job k j j' s :
  mget (jobs s) k = Some j -> succ_job j j' -> quiet s (set_job k j' s).
Proof.
  intros Hj Hs. split; [done | | eauto | | done].
  - intros k' j0. simpl. rewrite mget_mset. case_decide; [intros [= <-]; subst; eauto|].
    intros H'. exists j0. split; [done | reflexivity].
  - apply mwf_mset.
Qed.

(** Equal on the fields the relation reads. *)
Lemma quiet_same s s' :
  jobs s' = jobs s -> lastGenerationEpoch s' = lastGenerationEpoch s ->
  generationEpochs s' = generationEpochs s -> quiet s s'.
Proof.
  intros Hj He Hg. split; rewrite ?Hj, ?He, ?Hg; eauto.
  intros k j' H. exists j'. split; [done | reflexivity].
Qed.

End discipline.

(** ** Inputs for the evaluated instances of the theorems *)

Module Demo.
(** A creation request of a user on a stream, without claim or recovery. *)
Definition create (k user : string) : CreateArgs.t :=
  CreateArgs.mk k user None None JobMetadataPatch.empty None None None None None None None false.

Definition item (id : string) (c : option string) (user : string) : SteerQueueItem.t :=
  SteerQueueItem.mk id c "text" user 5 None None None.

Definition input (c user : string) (generation : Z) : SteerReceiptInput.t :=
  SteerReceiptInput.mk c "fp" user None None None generation.

Definition finish (from to : JobStatus) : JobStatusTransition.t :=
  JobStatusTransition.mk from to [] [] None None None.

Definition store : Store := newStore None None None.

(** One running generation of [u1] on [s1], created at 10. *)
Definition running1 : Store := run_ops [(CreateBegin (create "s1" "u1"), 10%Z);
                                        (CreateCommit (create "s1" "u1"), 10%Z)] store.

(** The same with a queued steer and its receipt. *)
Definition steered : Store :=
  run_ops [(EnqueueReceipted "s1" (item "st1" (Some "c1") "u1") (input "c1" "u1" 10) false None,
            11%Z);
           (Enqueue "s1" (item "st2" None "u1") false None, 12%Z)] running1.

(** The same contents in a store whose table holds one job. *)
Definition full : Store := {| steered with maxJobs := 1 |}.

(** The run above aborted with its two steers parked, and a turn that recovers the first. *)
Definition parked : Store := run_ops [(Transition "s1" (finish running aborted), 20%Z)] steered.

Definition recover (k user id : string) : CreateArgs.t :=
  CreateArgs.mk k user None None JobMetadataPatch.empty (Some id) None None None
    (Some (RecoveredSteerPayload.mk "text" [])) None None false.

Definition recovering : Store := run_ops [(CreateBegin (recover "s1" "u1" "st1"), 30%Z);
                                          (CreateCommit (recover "s1" "u1" "st1"), 30%Z)] parked.
End Demo.
