(* ===== verification/StoreEpochs.v ===== *)
(** * Generations of a stream over runs of the store

    Every operation but the commit of [createJob] is quiet: no generation appears, and a record
    that stays keeps its identity and a terminal status.  The commit installs a generation newer
    than all earlier ones.  Generations are therefore totally ordered by [createdAt], and one
    that has left its stream never comes back. *)

From S2P Require Import Prelude JsMap Json StreamTypes SteerRecovery StoreState StoreSteers StoreParked StoreJobs StoreCleanup StoreFrame StoreRun.

Section watched.
Context {AV : Avoid}.

(** ** Composition *)

Lemma quiet_bind {A B} (m : M A) (f : A -> M B) s :
  quiet s (m s).2 -> (forall a s', m s = (Ok a, s') -> quiet s' (f a s').2) ->
  quiet s ((m >>= f) s).2.
Proof.
  intros Hm Hf. unfold bindM. destruct (m s) as [[a|e] s'] eqn:E; simpl in *; [|done].
  etrans; [done|]. by apply Hf.
Qed.

Lemma keeps_quiet {A} (m : M A) s : keeps core m -> quiet s (m s).2.
Proof. intros H. apply core_quiet, H. Qed.

(** ** Quiet operations on jobs *)

Lemma quiet_drop_job k s s' :
  jobs s' = mdel (jobs s) k -> lastGenerationEpoch s' = lastGenerationEpoch s ->
  (forall k' r', mget (generationEpochs s') k' = Some r' ->
     mget (generationEpochs s) k' = Some r' \/
     exists j, mget (jobs s) k' = Some j /\ RetainedEpoch.createdAt r' = Job.createdAt j) ->
  (mwf (generationEpochs s) -> mwf (generationEpochs s')) ->
  quiet s s'.
Proof.
  intros Hj He Hr Hw. split; [done | | | | done].
  - intros k' j'. rewrite Hj, mget_mdel. case_decide; [done|].
    intros H'. exists j'. split; [done | reflexivity].
  - intros k' r' _ H'. destruct (Hr _ _ H') as [?|?]; [left; eauto | by right].
  - rewrite Hj. apply mwf_mdel.
Qed.

Lemma retain_epochs k c now s k' r' :
  mget (generationEpochs (retainGenerationEpoch k c now s)) k' = Some r' ->
  mget (generationEpochs s) k' = Some r' \/ (k' = k /\ RetainedEpoch.createdAt r' = c).
Proof.
  unfold retainGenerationEpoch. set (new := with_generationEpochs _ _).
  assert (Hnew : mget (generationEpochs new) k' = Some r' ->
    mget (generationEpochs s) k' = Some r' \/ (k' = k /\ RetainedEpoch.createdAt r' = c)).
  { subst new. simpl. rewrite mget_mset. case_decide; [|by left].
    intros [= <-]. by right. }
  repeat case_match; auto.
Qed.

Lemma retain_wf k c now s :
  mwf (generationEpochs s) -> mwf (generationEpochs (retainGenerationEpoch k c now s)).
Proof. unfold retainGenerationEpoch. intros H. repeat case_match; auto; by apply mwf_mset. Qed.

Lemma retain_jobs k c now s : jobs (retainGenerationEpoch k c now s) = jobs s.
Proof. unfold retainGenerationEpoch. by repeat case_match. Qed.
Lemma retain_epoch k c now s :
  lastGenerationEpoch (retainGenerationEpoch k c now s) = lastGenerationEpoch s.
Proof. unfold retainGenerationEpoch. by repeat case_match. Qed.

Lemma deleteJob_quiet k e now s : quiet s (deleteJob k e now s).2.
Proof.
  unfold deleteJob. destruct (mget (jobs s) k) as [j|] eqn:Hj; [|done].
  case_match; [done|]. simpl. apply (quiet_drop_job k); simpl.
  - by rewrite retain_jobs.
  - by rewrite retain_epoch.
  - intros k' r' [?|[-> Hc]]%retain_epochs; [by left|]. right. eauto.
  - apply retain_wf.
Qed.

Lemma evictOldest_quiet now s : quiet s (evictOldest now s).2.
Proof.
  unfold evictOldest. repeat case_match; try done. apply quiet_bind.
  - apply keeps_quiet, core_parkQueued.
  - intros [] s' _. apply deleteJob_quiet.
Qed.

Lemma getRetained_quiet k now s : quiet s (getRetainedGenerationEpoch k now s).2.
Proof.
  unfold getRetainedGenerationEpoch. repeat case_match; try done. simpl.
  split; [done | | | done | apply mwf_mdel].
  - intros k' j' H'. exists j'. split; [done | reflexivity].
  - intros k' r' _ H'. simpl in H'. rewrite mget_mdel in H'. case_decide; [done|]. left. eauto.
Qed.

Lemma assertPredecessor_quiet a now s :
  quiet s (assertExpectedPredecessorCompatible a now s).2.
Proof.
  unfold assertExpectedPredecessorCompatible.
  pose proof (getRetained_quiet (CreateArgs.streamId a) now s) as H.
  destruct (mget (jobs s) (CreateArgs.streamId a)).
  - by repeat case_match.
  - destruct (getRetainedGenerationEpoch _ _ _) as [r s']. simpl in H. by repeat case_match.
Qed.

Lemma validate_create_quiet a now s : quiet s (validate_create a now s).2.
Proof.
  unfold validate_create. repeat (apply quiet_bind; [|intros [] ??]);
    first [done | apply assertPredecessor_quiet].
Qed.

Lemma createJob_begin_quiet a now s : quiet s (createJob_begin a now s).2.
Proof.
  unfold createJob_begin. repeat (apply quiet_bind; [|intros [] ??]);
    first [done | apply assertPredecessor_quiet | idtac].
  case_match; [apply evictOldest_quiet | done].
Qed.

Lemma acknowledge_quiet k t l s : quiet s (acknowledgeReplacedJobs k t l s).2.
Proof.
  unfold acknowledgeReplacedJobs. destruct (mget (jobs s) k) as [j|] eqn:Hj; [|done].
  case_match; [|done]. by eapply quiet_set_job.
Qed.

Lemma markDrained_quiet k e x s : quiet s (markProviderExecutionDrained k e x s).2.
Proof.
  unfold markProviderExecutionDrained. destruct (mget (jobs s) k) as [j|] eqn:Hj; [|done].
  case_match; [|done]. by eapply quiet_set_job.
Qed.

Lemma beginProvider_quiet k e x s : quiet s (beginProviderExecution k e x s).2.
Proof.
  unfold beginProviderExecution. destruct (mget (jobs s) k) as [j|] eqn:Hj; [|done].
  case_match; [|done]. by eapply quiet_set_job.
Qed.

Lemma finalize_quiet k e x s : quiet s (finalizeTerminalPersistence k e x s).2.
Proof.
  unfold finalizeTerminalPersistence. destruct (mget (jobs s) k) as [j|] eqn:Hj; [|done].
  case_match; [|done]. by eapply quiet_set_job.
Qed.

Lemma clearHostAction_quiet k e s : quiet s (clearTerminalHostAction k e s).
Proof.
  unfold clearTerminalHostAction. destruct (mget (jobs s) k) as [j|] eqn:Hj; [|done].
  case_match; [|done]. by eapply quiet_set_job.
Qed.

(** ** Transitions and updates *)

Lemma transition_ok_inv args :
  transition_ok args = true ->
  active (JobStatusTransition.from args) = true /\
  forallb patch_ok (JobStatusTransition.patch args) = true /\
  Forall (fun k => identity_key k = false) (JobStatusTransition.clear args).
Proof.
  unfold transition_ok. intros [[Ha Hp]%andb_true_iff Hk]%andb_true_iff. split_and!; [done | done|].
  apply Forall_forall. intros k Hin. rewrite forallb_forall in Hk.
  apply negb_true_iff, Hk. by apply list_elem_of_In.
Qed.

Lemma patch_ok_identity p :
  forallb patch_ok p = true -> Forall (fun f => identity_field f = false) p.
Proof.
  intros H. apply Forall_forall. intros f Hf. rewrite forallb_forall in H.
  specialize (H f (proj1 (list_elem_of_In _ _) Hf)). unfold patch_ok in H. by bool_facts.
Qed.

Lemma update_ok_identity u :
  forallb update_ok u = true -> Forall (fun f => identity_field f = false) u.
Proof.
  intros H. apply Forall_forall. intros f Hf. rewrite forallb_forall in H.
  specialize (H f (proj1 (list_elem_of_In _ _) Hf)). unfold update_ok in H. by bool_facts.
Qed.

(** Assigned properties never attach the watched action. *)
Lemma assign_action p a j :
  forallb (fun f => negb (action_field f)) p = true -> avoid = Some a ->
  Job.pendingActionId j <> Some a -> Job.pendingActionId (assign j p) <> Some a.
Proof.
  intros Hp Ha. revert j. induction p as [|f p IH]; intros j; [done|]. simpl in Hp.
  apply andb_true_iff in Hp as [Hf Hp]. intros Hj.
  change (Job.pendingActionId (assign (assign1 j f) p) <> Some a). apply IH; [done|].
  destruct f; try done. simpl in *. intros [= ->]. by rewrite Ha, bool_decide_true in Hf.
Qed.

Lemma clear_action l a j :
  Job.pendingActionId j <> Some a -> Job.pendingActionId (clear j l) <> Some a.
Proof.
  unfold clear. revert j. induction l as [|x l IH]; intros j Hj; [done|]. simpl. apply IH.
  by destruct x.
Qed.

Lemma forallb_weaken {B} (p q : B -> bool) l :
  (forall x, p x = true -> q x = true) -> forallb p l = true -> forallb q l = true.
Proof. rewrite !forallb_forall. auto. Qed.

Lemma patch_ok_action p :
  forallb patch_ok p = true -> forallb (fun f => negb (action_field f)) p = true.
Proof. apply forallb_weaken. unfold patch_ok. by intros f [_ ?]%andb_true_iff. Qed.

Lemma update_ok_action p :
  forallb update_ok p = true -> forallb (fun f => negb (action_field f)) p = true.
Proof. apply forallb_weaken. unfold update_ok. by intros f [_ ?]%andb_true_iff. Qed.

Lemma transitioned_identity args j :
  transition_ok args = true -> same_identity (transitioned args j) j.
Proof.
  intros (_ & Hp & Hk)%transition_ok_inv. unfold transitioned.
  etrans; [by apply clear_identity|]. etrans; [by apply assign_identity, patch_ok_identity|]. done.
Qed.

Lemma transitioned_succ args j :
  transition_ok args = true -> transition_guard args j = true -> succ_job j (transitioned args j).
Proof.
  intros Hok Hg. split.
  - by apply transitioned_identity.
  - apply transition_ok_inv in Hok as (Hact & _). unfold transition_guard in Hg. bool_facts.
    assert (Ha : active (Job.status j) = true) by congruence.
    by rewrite (terminal_active (Job.status j)), Ha.
  - intros a Ha Hj. apply transition_ok_inv in Hok as (_ & Hp & _).
    apply clear_action, assign_action; [by apply patch_ok_action | done | done].
Qed.

Lemma transitionStatus_quiet k args now s :
  transition_ok args = true -> quiet s (transitionStatus k args now s).2.
Proof.
  intros Hok. unfold transitionStatus. destruct (mget (jobs s) k) as [j|] eqn:Hj; [|done].
  destruct (transition_guard args j) eqn:Hg; [|done]. simpl. case_match; [done|].
  assert (Hs := transitioned_succ args j Hok Hg).
  set (m := if terminal _ then _ else _).
  assert (Hm : keeps core m) by (subst m; case_match; [apply core_parkQueued | done]).
  apply quiet_bind; [by apply keeps_quiet|]. intros [] s1 H1.
  assert (Hj1 : mget (jobs s1) k = Some j).
  { specialize (Hm s). rewrite H1 in Hm. apply core_jobs in Hm. simpl in Hm. congruence. }
  apply quiet_bind; [by eapply quiet_set_job|]. intros [] s2 _.
  apply quiet_bind; [apply core_quiet, core_map_receipts|]. intros [] s3 _.
  apply quiet_bind; [|by intros [] s4 _]. apply core_quiet. simpl.
  case_match; auto using core_extendRecoveryLease.
Qed.

Lemma transitionDrain_quiet k args now s :
  transition_ok args = true -> quiet s (transitionStatusAndDrainSteers k args now s).2.
Proof.
  intros Hok. unfold transitionStatusAndDrainSteers. case_match; [done|].
  destruct (mget (jobs s) k); [|done]. case_match; [done|].
  apply quiet_bind; [by apply transitionStatus_quiet | done].
Qed.

Lemma assign_terminal j u :
  forallb update_ok u = true -> terminal (Job.status j) = true ->
  terminal (Job.status (assign j u)) = true.
Proof.
  revert j. induction u as [|f u IH]; intros j; [done|]. simpl.
  intros [Hf Hu]%andb_true_iff Hj.
  change (terminal (Job.status (assign (assign1 j f) u)) = true). apply IH; [done|].
  unfold update_ok in Hf. apply andb_true_iff in Hf as [[_ Hf]%andb_true_iff _]. by destruct f.
Qed.

Lemma update_transition_ok j st u x e :
  active (Job.status j) = true -> forallb update_ok u = true ->
  transition_ok (JobStatusTransition.mk (Job.status j) st
                   (filter (fun f => is_status_field f = false) u) [] x e None) = true.
Proof.
  intros Ha Hu. unfold transition_ok. simpl. rewrite Ha. simpl. rewrite andb_true_r.
  apply forallb_forall. intros f Hf%list_elem_of_In. apply list_elem_of_filter in Hf as [Hs Hf].
  rewrite forallb_forall in Hu. specialize (Hu f (proj1 (list_elem_of_In _ _) Hf)).
  unfold patch_ok, update_ok in *. rewrite Hs. bool_facts.
  match goal with H : identity_field f = false |- _ => rewrite H end.
  match goal with H : action_field f = false |- _ => rewrite H end. done.
Qed.

Lemma updateJob_quiet k u e now s :
  forallb update_ok u = true -> quiet s (updateJob k u e now s).2.
Proof.
  intros Hu. unfold updateJob. destruct (mget (jobs s) k) as [j|] eqn:Hj; [|done].
  assert (Hset : quiet s (set_job k (assign j u) s)).
  { eapply quiet_set_job; [done|]. split.
    - by apply assign_identity, update_ok_identity.
    - by apply assign_terminal.
    - intros a Ha. apply assign_action; [by apply update_ok_action | done]. }
  case_match; [done|]. case_match; [|done]. case_match eqn:Hc; [|done].
  bool_facts. apply quiet_bind; [|done]. apply transitionStatus_quiet.
  by apply update_transition_ok.
Qed.

(** ** The other operations *)

Lemma recordActivity_quiet k e now s : quiet s (recordActivity k e now s).
Proof.
  unfold recordActivity. repeat case_match; try done. apply core_quiet.
  by autorewrite with core.
Qed.

Lemma listHostActions_quiet now s : quiet s (getTerminalHostActionJobs now s).2.
Proof.
  unfold getTerminalHostActionJobs. simpl. split; [done | | eauto | apply mwf_mmap | done].
  intros k j'. simpl. rewrite mget_mmap. destruct (mget (jobs s) k) as [j|]; [|done].
  intros [= <-]. exists j. split; [done|]. by case_match.
Qed.

Lemma jobIdsByUser_quiet u t b now s : quiet s (getJobIdsByUser u t b now s).2.
Proof. unfold getJobIdsByUser. repeat case_match; by apply quiet_same. Qed.

Lemma update_content_quiet k e c f s : quiet s (update_content k e c f s).
Proof. unfold update_content. case_match; [done | by apply quiet_same]. Qed.

Lemma cleanup_barrier_quiet k j now s : quiet s (cleanup_barrier k j now s).2.
Proof.
  unfold cleanup_barrier. destruct (bool_decide _); [|done]. destruct (decide _); [done|].
  destruct (Job.pendingActionId j); [|done].
  apply quiet_bind; [by apply transitionDrain_quiet|]. intros [] s1 _; reflexivity.
Qed.

Lemma cleanup_job_quiet k now s : quiet s (cleanup_job k now s).2.
Proof.
  unfold cleanup_job. destruct (mget (jobs s) k) as [j|] eqn:Hj; [|done].
  case_match; [done|]. case_match.
  { case_match; [|done]. pose proof (core_parkQueued k j now s) as Hc.
    apply quiet_bind; [by apply core_quiet|]. intros [] s1 Hp. rewrite Hp in Hc.
    apply core_jobs in Hc. simpl in Hc.
    apply quiet_bind; [|done]. eapply quiet_set_job; [by rewrite Hc|]. done. }
  case_match; [|done]. case_match; [|done].
  apply quiet_bind; [|done]. apply core_quiet, core_parkQueued.
Qed.

Lemma cleanup_visit_quiet k now s : quiet s (cleanup_visit k now s).2.
Proof.
  unfold cleanup_visit. destruct (mget (jobs s) k) as [j|]; [|done].
  apply quiet_bind; [apply cleanup_barrier_quiet|]. intros [] s1 _; [|done].
  apply quiet_bind; [apply cleanup_job_quiet | done].
Qed.

Lemma cleanup_jobs_quiet l now s : quiet s (cleanup_jobs l now s).2.
Proof.
  revert s. induction l as [|k l IH]; intros s; simpl; [done|].
  apply quiet_bind; [apply cleanup_visit_quiet|]. intros r s1 _.
  apply quiet_bind; [apply IH | done].
Qed.

Lemma delete_all_quiet l now s : quiet s (delete_all l now s).
Proof.
  unfold delete_all. revert s. induction l as [|e l IH]; intros s; simpl; [done|].
  etrans; [apply deleteJob_quiet | apply IH].
Qed.


Lemma prune_expired_quiet now s : quiet s (prune_expired now s).
Proof.
  split; [done | | | done | apply mwf_mprune].
  - intros k j' H. exists j'. split; [done | reflexivity].
  - intros k r' Hw H. simpl in H. rewrite (mget_mprune_wf _ _ _ Hw) in H. left.
    repeat case_match; simplify_eq. eauto.
Qed.

Lemma cleanup_quiet now s : quiet s (cleanup now s).2.
Proof.
  unfold cleanup. apply quiet_bind; [apply prune_expired_quiet|]. intros [] s1 _.
  apply quiet_bind; [done|]. intros l s2 _.
  apply quiet_bind; [apply cleanup_jobs_quiet|]. intros d s3 _.
  apply quiet_bind; [by apply quiet_same|]. intros [] s4 _.
  apply quiet_bind; [apply delete_all_quiet | done].
Qed.

Lemma destroy_quiet s : quiet s (destroy s).
Proof. split; try done; intros; apply NoDup_nil_2. Qed.

(** ** Creation *)

Lemma next_epoch_last now p last : (last < next_epoch now p last)%Z.
Proof. unfold next_epoch. lia. Qed.

Lemma next_epoch_previous now p last : (p < next_epoch now (Some p) last)%Z.
Proof. unfold next_epoch. lia. Qed.

Lemma next_epoch_now now p last : (now <= next_epoch now p last)%Z.
Proof. unfold next_epoch. lia. Qed.

Lemma install_job_jobs a j now s :
  jobs (install_job a j now s) = mset (jobs s) (CreateArgs.streamId a) j.
Proof.
  unfold install_job. simpl.
  rewrite (core_jobs _ _ (core_leaseParked _ _ _ _ _ _ _)), retain_jobs. done.
Qed.

Lemma install_job_epoch a j now s :
  lastGenerationEpoch (install_job a j now s) = lastGenerationEpoch s.
Proof.
  unfold install_job. simpl.
  rewrite (core_epoch _ _ (core_leaseParked _ _ _ _ _ _ _)), retain_epoch. done.
Qed.

Lemma start_claim_jobs a c s : jobs (start_claim a c s) = jobs s.
Proof. unfold start_claim. by repeat case_match. Qed.

Lemma start_claim_epoch a c s : lastGenerationEpoch (start_claim a c s) = lastGenerationEpoch s.
Proof. unfold start_claim. by repeat case_match. Qed.

(** The checks of [createJob] may only drop an expired retained epoch. *)
Section create_frame.
Context {X : Type} (f : Store -> X) (Hf : forall v s, f (with_generationEpochs v s) = f s).

Lemma getRetained_frame k now s : f (getRetainedGenerationEpoch k now s).2 = f s.
Proof using Hf. unfold getRetainedGenerationEpoch. repeat case_match; try done. apply Hf. Qed.

Lemma assertPredecessor_frame a now : keeps f (assertExpectedPredecessorCompatible a now).
Proof using Hf.
  intros s. unfold assertExpectedPredecessorCompatible.
  pose proof (getRetained_frame (CreateArgs.streamId a) now s) as H.
  destruct (mget (jobs s) (CreateArgs.streamId a)); [by repeat case_match|].
  destruct (getRetainedGenerationEpoch _ _ _) as [r s']. simpl in H. by repeat case_match.
Qed.

Lemma validate_create_frame a now : keeps f (validate_create a now).
Proof using Hf.
  unfold validate_create. repeat (apply keeps_bind; [|intros []]);
    first [done | apply assertPredecessor_frame].
Qed.
End create_frame.

(** ** What a successful commit writes *)

Lemma bind_ok_inv {A B} (m : M A) (g : A -> M B) s b s' :
  (m >>= g) s = (Ok b, s') -> exists a s1, m s = (Ok a, s1) /\ g a s1 = (Ok b, s').
Proof. unfold bindM. destruct (m s) as [[a|e] s1]; [eauto | done]. Qed.

Lemma createJob_commit_inv a now s v s' :
  createJob_commit a now s = (Ok v, s') ->
  exists s0 s1 s2 p j,
    let previous := mget (jobs s) (CreateArgs.streamId a) in
    validate_create a now s = (Ok tt, s0) /\ jobs s0 = jobs s /\
    s1 = match previous with
         | Some _ => s0
         | None => (getRetainedGenerationEpoch (CreateArgs.streamId a) now s0).2
         end /\
    j = new_job a (next_epoch now p (lastGenerationEpoch s)) (replacement_receipts previous)
          previous /\
    (forall q, previous = Some q -> p = Some (Job.createdAt q)) /\
    length (replacement_receipts previous) <= CREATE_REPLACEMENT_RECEIPT_MAX /\
    assertClaim a now s = Ok tt /\
    match previous with
    | Some q => parkQueuedSteers (CreateArgs.streamId a) q now
    | None => retM tt
    end (with_lastGenerationEpoch (Job.createdAt j) s1) = (Ok tt, s2) /\
    v = created_view j previous /\
    s' = (let s3 := start_claim a (Job.createdAt j) (install_job a j now s2) in
          with_userJobMap (index_created j previous (userJobMap s3)) s3).
Proof.
  intros H. unfold createJob_commit in H. apply bind_ok_inv in H as ([] & s0 & Hv & H).
  assert (Hs0 : jobs s0 = jobs s /\ lastGenerationEpoch s0 = lastGenerationEpoch s /\
                idempotencyClaims s0 = idempotencyClaims s).
  { repeat split.
    - pose proof (validate_create_frame jobs ltac:(done) a now s) as F. by rewrite Hv in F.
    - pose proof (validate_create_frame lastGenerationEpoch ltac:(done) a now s) as F.
      by rewrite Hv in F.
    - pose proof (validate_create_frame idempotencyClaims ltac:(done) a now s) as F.
      by rewrite Hv in F. }
  destruct Hs0 as (Hj & He & Hc). rewrite Hj in H.
  set (previous := mget (jobs s) (CreateArgs.streamId a)) in *.
  set (s1 := match previous with Some _ => s0 | None =>
               (getRetainedGenerationEpoch (CreateArgs.streamId a) now s0).2 end).
  set (p := match previous with Some q => Some (Job.createdAt q) | None =>
              (getRetainedGenerationEpoch (CreateArgs.streamId a) now s0).1 end).
  assert (Hpair : match previous with
    | Some p => (Some (Job.createdAt p), s0)
    | None => getRetainedGenerationEpoch (CreateArgs.streamId a) now s0 end = (p, s1))
    by (subst p s1; destruct previous; [done|]; by destruct (getRetainedGenerationEpoch _ _ _)).
  rewrite Hpair in H. clear Hpair.
  assert (Hs1 : lastGenerationEpoch s1 = lastGenerationEpoch s /\
                idempotencyClaims s1 = idempotencyClaims s).
  { subst s1. destruct previous; [done|].
    by rewrite !getRetained_frame. }
  destruct Hs1 as [He1 Hc1]. rewrite He1 in H. case_decide; [done|].
  apply bind_ok_inv in H as ([] & sa & Ha & H). unfold lift_check in Ha.
  injection Ha as Ha <-.
  apply bind_ok_inv in H as ([] & s2 & Hp & H).
  unfold bindM, modify, retM in H. injection H as <- <-.
  exists s0, s1, s2, p, (new_job a (next_epoch now p (lastGenerationEpoch s))
    (replacement_receipts previous) previous).
  cbn zeta. split_and!; try done.
  - intros q Hq. subst p. by rewrite Hq.
  - lia.
  - unfold assertClaim in *. simpl in Ha. by rewrite Hc1 in Ha.
Qed.

(** The job table, the epoch clock and the user index. *)
Definition table (s : Store) := (jobs s, lastGenerationEpoch s, userJobMap s).

Lemma table_core s s' : core s' = core s -> table s' = table s.
Proof. by intros [=]; unfold table; congruence. Qed.

Lemma table_park k j now s r s' : parkQueuedSteers k j now s = (r, s') -> table s' = table s.
Proof. intros H. apply table_core. pose proof (core_parkQueued k j now s) as Hc. by rewrite H in Hc. Qed.

Lemma start_claim_table a c s : table (start_claim a c s) = table s.
Proof. unfold start_claim. by repeat case_match. Qed.

Lemma install_job_table a j now s :
  table (install_job a j now s) =
  (mset (jobs s) (CreateArgs.streamId a) j, lastGenerationEpoch s, userJobMap s).
Proof.
  unfold install_job. set (s1 := retainGenerationEpoch _ _ _ _).
  assert (H1 : table s1 = (mset (jobs s) (CreateArgs.streamId a) j, lastGenerationEpoch s,
    userJobMap s)) by (subst s1; unfold retainGenerationEpoch; by repeat case_match).
  rewrite <- H1. unfold table. simpl. by apply table_core, core_leaseParked.
Qed.

(** A commit that throws leaves the job table and the index alone. *)
Lemma createJob_commit_throw a now s e s' :
  createJob_commit a now s = (Throw e, s') ->
  jobs s' = jobs s /\ userJobMap s' = userJobMap s /\
  (lastGenerationEpoch s <= lastGenerationEpoch s')%Z.
Proof.
  unfold createJob_commit. unfold bindM at 1.
  pose proof (validate_create_frame table ltac:(done) a now s) as Hv.
  destruct (validate_create a now s) as [[[]|e0] s0]; injection Hv as Hj He Hm;
    [|intros [= <- <-]; rewrite Hj, He, Hm; split_and!; (done || lia)].
  set (pair := match mget (jobs s0) _ with Some p => _ | None => _ end).
  assert (Hp : table pair.2 = table s).
  { transitivity (table s0); [|unfold table; congruence].
    subst pair. destruct (mget (jobs s0) _); simpl; [done|]. by rewrite getRetained_frame. }
  destruct pair as [p s1]. injection Hp as Hj1 He1 Hm1.
  case_decide; [intros [= <- <-]; rewrite Hj1, He1, Hm1; split_and!; (done || lia)|].
  set (s2 := with_lastGenerationEpoch _ s1).
  assert (H2 : jobs s2 = jobs s /\ userJobMap s2 = userJobMap s /\
               (lastGenerationEpoch s <= lastGenerationEpoch s2)%Z).
  { split_and!; try done. subst s2. simpl. rewrite He1.
    pose proof (next_epoch_last now p (lastGenerationEpoch s)). lia. }
  clearbody s2. unfold bindM at 1. unfold lift_check.
  destruct (assertClaim a now s2) as [[]|]; [|intros [= <- <-]; done].
  unfold bindM at 1. destruct (mget (jobs s0) _) as [q|].
  - destruct (parkQueuedSteers _ _ _ _) as [[[]|] s3] eqn:Hs3; [done|]. intros [= <- <-].
    apply table_park in Hs3. injection Hs3 as -> -> ->. done.
  - unfold retM, bindM, modify. done.
Qed.

Lemma createJob_commit_jobs a now s v s' :
  createJob_commit a now s = (Ok v, s') ->
  exists p j,
    j = new_job a (next_epoch now p (lastGenerationEpoch s))
          (replacement_receipts (mget (jobs s) (CreateArgs.streamId a)))
          (mget (jobs s) (CreateArgs.streamId a)) /\
    v = created_view j (mget (jobs s) (CreateArgs.streamId a)) /\
    (forall q, mget (jobs s) (CreateArgs.streamId a) = Some q -> p = Some (Job.createdAt q)) /\
    jobs s' = mset (jobs s) (CreateArgs.streamId a) j /\
    lastGenerationEpoch s' = Job.createdAt j /\
    userJobMap s' =
      index_created j (mget (jobs s) (CreateArgs.streamId a)) (userJobMap s).
Proof.
  intros (s0 & s1 & s2 & p & j & Hv & Hj0 & Hs1 & Hj & Hq & _ & _ & Hpark & Hview & ->)
    %createJob_commit_inv.
  assert (H2 : table s2 = (jobs s, Job.createdAt j, userJobMap s)).
  { transitivity (table (with_lastGenerationEpoch (Job.createdAt j) s1)).
    - destruct (mget (jobs s) (CreateArgs.streamId a)); [by eapply table_park|].
      by injection Hpark as <-.
    - assert (H1 : table s1 = table s).
      { pose proof (validate_create_frame table ltac:(done) a now s) as Hf. rewrite Hv in Hf.
        rewrite <- Hf, Hs1. destruct (mget (jobs s) _); [done|]. by rewrite getRetained_frame. }
      injection H1 as Hj1 _ Hm1. unfold table. simpl. by rewrite Hj1, Hm1. }
  pose proof (start_claim_table a (Job.createdAt j) (install_job a j now s2)) as H3.
  rewrite install_job_table in H3. injection H2 as Hj2 He2 Hm2. injection H3 as Hj3 He3 Hm3.
  exists p, j. split_and!; try done; simpl.
  - by rewrite Hj3, Hj2.
  - by rewrite He3, He2.
  - by rewrite Hm3, Hm2.
Qed.

Lemma createJob_commit_evolves a now s : evolves s (createJob_commit a now s).2.
Proof.
  destruct (createJob_commit a now s) as [[v|e] s'] eqn:H.
  - apply createJob_commit_jobs in H as (p & j & Hj & _ & _ & Hjobs & He & _). simpl.
    pose proof (next_epoch_last now p (lastGenerationEpoch s)) as Hlt.
    assert (Hc : Job.createdAt j = next_epoch now p (lastGenerationEpoch s)) by by subst j.
    split; [lia|]. intros k j'. rewrite Hjobs, mget_mset. case_decide; [|eauto].
    + intros [= <-]. right. split; [lia|]. intros a' _. by rewrite Hj.
    + intros H'. left. exists j'. split; [done | reflexivity].
  - apply createJob_commit_throw in H as (Hj & _ & He). split; [done|]. simpl. rewrite Hj.
    intros k j' H'. left. exists j'. split; [done | reflexivity].
Qed.

(** ** Every operation evolves the store *)

Lemma run_op_quiet o now s :
  op_ok o = true -> match o with CreateCommit _ => False | _ => True end ->
  quiet s (run_op o now s).
Proof.
  intros Hok Ho. destruct o; simpl in *; try done;
    first [ apply core_quiet; by autorewrite with core
          | by apply keeps_quiet, core_drain | by apply keeps_quiet, core_closeAndDrain
          | by apply keeps_quiet, core_remove | by apply keeps_quiet, core_armVersioned
          | by apply keeps_quiet, core_downgrade
          | by apply createJob_begin_quiet | by apply deleteJob_quiet
          | by apply acknowledge_quiet | by apply markDrained_quiet
          | by apply beginProvider_quiet | by apply finalize_quiet
          | by apply transitionStatus_quiet | by apply transitionDrain_quiet
          | by apply updateJob_quiet | by apply recordActivity_quiet
          | by apply listHostActions_quiet | by apply clearHostAction_quiet
          | by apply jobIdsByUser_quiet | by apply update_content_quiet
          | by apply cleanup_quiet | by apply destroy_quiet | idtac ].
  - unfold claimIdempotencyKey. case_match; by apply quiet_same.
  - unfold takeoverIdempotencyKey. repeat case_match; by apply quiet_same.
  - unfold markIdempotencyKeyStarted. repeat case_match; by apply quiet_same.
  - unfold adoptIdempotencyKeyForJob. repeat case_match; by apply quiet_same.
  - unfold releaseIdempotencyKey. repeat case_match; by apply quiet_same.
  - unfold clearContentState. repeat case_match; by apply quiet_same.
Qed.

Lemma run_op_evolves o now s : op_ok o = true -> evolves s (run_op o now s).
Proof.
  intros Hok. destruct o; try (apply quiet_evolves, run_op_quiet; done).
  apply createJob_commit_evolves.
Qed.

Lemma reaches_evolves s s' : reaches s s' -> evolves s s'.
Proof.
  intros H. induction H as [|s' o now _ IH Hok]; [reflexivity|].
  etrans; [done|]. by apply run_op_evolves.
Qed.

(** ** Invariant of reachable stores *)

Record epochs_ok (s : Store) : Prop := {
  eo_wf : mwf (jobs s);
  eo_bound : forall k j, mget (jobs s) k = Some j ->
    (Job.createdAt j <= lastGenerationEpoch s)%Z;
  eo_distinct : forall k1 k2 j1 j2, mget (jobs s) k1 = Some j1 -> mget (jobs s) k2 = Some j2 ->
    Job.createdAt j1 = Job.createdAt j2 -> k1 = k2
}.

Lemma epochs_ok_new ttl max stale : epochs_ok (newStore ttl max stale).
Proof. split; simpl; try done. apply NoDup_nil_2. Qed.

Lemma epochs_ok_quiet s s' : quiet s s' -> epochs_ok s -> epochs_ok s'.
Proof.
  intros Hq [Hw Hb Hd]. split.
  - by apply (q_wf _ _ Hq).
  - intros k j' Hj'. destruct (q_jobs _ _ Hq _ _ Hj') as (j & Hj & [[_ _ _ ->] _ _]).
    rewrite (q_epoch _ _ Hq). eauto.
  - intros k1 k2 j1' j2' H1' H2' Heq.
    destruct (q_jobs _ _ Hq _ _ H1') as (j1 & H1 & [[_ _ _ Hc1] _ _]).
    destruct (q_jobs _ _ Hq _ _ H2') as (j2 & H2 & [[_ _ _ Hc2] _ _]).
    eapply Hd; [done | done |]. congruence.
Qed.

Lemma epochs_ok_commit a now s :
  epochs_ok s -> epochs_ok (createJob_commit a now s).2.
Proof.
  intros [Hw Hb Hd]. destruct (createJob_commit a now s) as [[v|e] s'] eqn:H; simpl.
  - apply createJob_commit_jobs in H as (p & j & Hj & _ & _ & Hjobs & He & _).
    assert (Hlt : (lastGenerationEpoch s < Job.createdAt j)%Z).
    { subst j. apply next_epoch_last. }
    split; rewrite ?Hjobs, ?He.
    + by apply mwf_mset.
    + intros k j'. rewrite mget_mset. case_decide; [intros [= <-]; lia|].
      intros Hk%Hb. lia.
    + intros k1 k2 j1 j2. rewrite !mget_mset. do 2 case_decide; subst; try done.
      * intros [= <-] Hk%Hb. lia.
      * intros Hk%Hb [= <-]. lia.
      * apply Hd.
  - apply createJob_commit_throw in H as (Hj & _ & He). split; rewrite ?Hj; eauto.
    intros k j Hk%Hb. lia.
Qed.

Lemma reaches_epochs_ok s s' : reaches s s' -> epochs_ok s -> epochs_ok s'.
Proof.
  intros H Hs. induction H as [|s' o now _ IH Hok]; [done|].
  destruct o; try (eapply epochs_ok_quiet; [by apply run_op_quiet | done]).
  by apply epochs_ok_commit.
Qed.

End watched.

(** ** Theorems *)

(** The generation that is current on a stream: what the [createdAt] fences compare. *)
Definition current (s : Store) (k : string) : option Z := Job.createdAt <$> mget (jobs s) k.

(** C1. No ABA on generations.  Along any run of the store from its construction, whatever the
    interleaving of the operations and the clock readings, a generation that is no longer the
    current one of its stream (replaced, deleted, evicted, reaped) never becomes current again:
    the [createdAt] fence that every asynchronous caller compares cannot be satisfied by a
    different generation. *)
Theorem generation_never_returns ttl max stale s0 s1 s2 k e :
  reaches (newStore ttl max stale) s0 -> reaches s0 s1 -> reaches s1 s2 ->
  current s0 k = Some e -> current s1 k <> Some e -> current s2 k <> Some e.
Proof.
  intros H0 H01 H12 He Hgone H2. unfold current in *.
  apply fmap_Some in He as (j & Hj & ->). apply fmap_Some in H2 as (j2 & H2 & Hc).
  pose proof (reaches_epochs_ok _ _ H0 (epochs_ok_new _ _ _)) as Hok.
  pose proof (eo_bound _ Hok _ _ Hj) as Hb.
  pose proof (e_epoch _ _ (reaches_evolves _ _ H01)) as Hle.
  destruct (e_jobs _ _ (reaches_evolves _ _ H12) _ _ H2) as [(j1 & H1 & [[_ _ _ Hc1] _ _])|[? _]].
  - apply Hgone. rewrite H1. simpl. congruence.
  - lia.
Qed.

Lemma generation_never_returns_witness :
  let s1 := run_ops [(Delete "s1" (Some 10%Z), 20%Z)] Demo.running1 in
  let s2 := run_ops [(CreateBegin (Demo.create "s1" "u1"), 5%Z);
                     (CreateCommit (Demo.create "s1" "u1"), 5%Z)] s1 in
  current s2 "s1" = Some 11%Z /\ current s2 "s1" <> Some 10%Z.
Proof.
  intros s1 s2. split; [by vm_compute|].
  apply (generation_never_returns None None None Demo.running1 s1).
  - by apply run_ops_reaches.
  - by apply run_ops_reaches.
  - by apply run_ops_reaches.
  - by vm_compute.
  - by vm_compute.
Defined.

(** C22. A generation that has reached a terminal status keeps a terminal status for as long as
    its record exists: no operation of a disciplined caller, in any order, revives it. *)
Theorem terminal_is_final s s' k j j' :
  epochs_ok s -> reaches s s' ->
  mget (jobs s) k = Some j -> terminal (Job.status j) = true ->
  mget (jobs s') k = Some j' -> Job.createdAt j' = Job.createdAt j ->
  terminal (Job.status j') = true.
Proof.
  intros Hok Hr Hj Ht Hj' Hc.
  pose proof (eo_bound _ Hok _ _ Hj) as Hb.
  destruct (e_jobs _ _ (reaches_evolves _ _ Hr) _ _ Hj') as [(j1 & H1 & [_ Hterm _])|[? _]]; [|lia].
  simplify_eq. auto.
Qed.

Lemma terminal_is_final_witness :
  let s := run_ops [(Transition "s1" (Demo.finish running complete), 20%Z)] Demo.running1 in
  let s' := run_ops [(Transition "s1" (Demo.finish running requires_action), 30%Z);
                     (Update "s1" [F_finalEvent "done"] None, 31%Z)] s in
  exists j', mget (jobs s') "s1" = Some j' /\ terminal (Job.status j') = true.
Proof.
  intros s s'.
  assert (E : exists j, mget (jobs s) "s1" = Some j /\ terminal (Job.status j) = true /\
                        Job.createdAt j = 10%Z) by (vm_compute; eauto).
  assert (E' : exists j, mget (jobs s') "s1" = Some j /\ Job.createdAt j = 10%Z)
    by (vm_compute; eauto).
  destruct E as (j & Hj & Ht & Hc), E' as (j' & Hj' & Hc'). exists j'. split; [done|].
  apply (terminal_is_final s s' "s1" j j').
  - apply (reaches_epochs_ok Demo.store).
    + eapply reaches_trans; by apply run_ops_reaches.
    + apply epochs_ok_new.
  - by apply run_ops_reaches.
  - exact Hj.
  - exact Ht.
  - exact Hj'.
  - by rewrite Hc, Hc'.
Defined.
