(* ===== verification/StoreClaims.v ===== *)
(** * Idempotency claims of the in-memory store: frames and leases

    Which operations look at a claim at all, and what can happen to one in a window of time in
    which it cannot expire.  A claim is what makes the creation of a job idempotent: [createJob]
    checks it and marks it started in the same synchronous segment. *)

From S2P Require Import Prelude JsMap Json StreamTypes SteerRecovery StoreState StoreSteers StoreParked.
From S2P Require Import StoreJobs StoreCleanup StoreFrame StoreRun StoreEpochs.

Abbreviation claims := idempotencyClaims.

(** ** Operations that do not look at claims *)

Lemma keeps_claims_core {A} (m : M A) : keeps core m -> keeps claims m.
Proof. intros H s. apply core_claims, H. Qed.

Lemma claims_delete k e now s : claims (deleteJob k e now s).2 = claims s.
Proof. unfold deleteJob, retainGenerationEpoch. by repeat case_match. Qed.

Lemma claims_evict now : keeps claims (evictOldest now).
Proof.
  intros s. unfold evictOldest. repeat case_match; try done.
  apply (keeps_bind claims); [apply keeps_claims_core, core_parkQueued|].
  intros [] s'. apply claims_delete.
Qed.

Lemma claims_begin a now : keeps claims (createJob_begin a now).
Proof.
  unfold createJob_begin. apply keeps_bind; [done|]. intros [].
  apply keeps_bind; [by apply validate_create_frame|]. intros [].
  apply keeps_bind; [done|]. intros [] s. case_match; [apply claims_evict | done].
Qed.

Lemma claims_transition k args now : keeps claims (transitionStatus k args now).
Proof.
  intros s. unfold transitionStatus. do 3 (case_match; try done).
  match goal with |- claims (?m s).2 = _ => enough (keeps claims m) as Hk by apply Hk end.
  apply keeps_bind; [case_match; [apply keeps_claims_core, core_parkQueued | done]|]. intros [].
  apply keeps_bind; [done|]. intros [].
  apply keeps_bind; [intros s1; apply core_claims, core_map_receipts|]. intros [].
  apply keeps_bind; [|done]. intros s1. apply core_claims. cbn [modify snd].
  case_match; autorewrite with core; done.
Qed.

Lemma claims_transitionDrain k args now : keeps claims (transitionStatusAndDrainSteers k args now).
Proof.
  intros s. unfold transitionStatusAndDrainSteers. do 3 (case_match; try done).
  by apply (keeps_bind claims); [apply claims_transition|].
Qed.

Lemma claims_update k u e now : keeps claims (updateJob k u e now).
Proof.
  intros s. unfold updateJob. repeat (case_match; try done).
  by apply (keeps_bind claims); [apply claims_transition|].
Qed.

Lemma claims_barrier k j now : keeps claims (cleanup_barrier k j now).
Proof.
  unfold cleanup_barrier. repeat (case_match; try done).
  apply keeps_bind; [apply claims_transitionDrain|]. by intros [].
Qed.

Lemma claims_cleanup_job k now : keeps claims (cleanup_job k now).
Proof.
  intros s. unfold cleanup_job. repeat (case_match; try done);
    (apply (keeps_bind claims); [apply keeps_claims_core, core_parkQueued|]; intros []; try done).
Qed.

Lemma claims_cleanup_jobs l now : keeps claims (cleanup_jobs l now).
Proof.
  induction l as [|k l IH]; [done|]. cbn [cleanup_jobs].
  apply keeps_bind; [|intros r; apply keeps_bind; [apply IH | done]].
  intros s. unfold cleanup_visit. destruct (mget (jobs s) k) as [j|]; [|done].
  apply (keeps_bind claims); [apply claims_barrier|]. intros [|]; [|done].
  apply keeps_bind; [apply claims_cleanup_job | done].
Qed.

Lemma claims_delete_all l now s : claims (delete_all l now s) = claims s.
Proof.
  unfold delete_all. revert s. induction l as [|e l IH]; intros s; [done|]. simpl.
  by rewrite IH, claims_delete.
Qed.

Lemma claims_cleanup now s :
  claims (cleanup now s).2 =
  mprune (fun _ c => bool_decide (ClaimEntry.expiresAt c <= now)%Z) (claims s).
Proof.
  unfold cleanup, bindM at 1. cbn [modify]. unfold bindM at 1. cbn [gets].
  pose proof (claims_cleanup_jobs (mkeys (jobs (prune_expired now s))) now (prune_expired now s)) as H.
  unfold bindM at 1. destruct (cleanup_jobs _ now _) as [[l|e] s1]; [|done].
  unfold bindM, modify, retM. cbn [snd]. by rewrite claims_delete_all.
Qed.

(** The operations that write claims. *)
Definition claim_op (o : op) : bool :=
  match o with
  | CreateCommit _ | ClaimKey _ _ _ | TakeoverKey _ _ _ _ | MarkStarted _ _ _ _
  | AdoptKey _ _ _ _ _ _ _ _ _ | ReleaseKey _ _ | Cleanup | Destroy => true
  | _ => false
  end.

Lemma claims_frame o now s : claim_op o = false -> claims (run_op o now s) = claims s.
Proof.
  destruct o; simpl; try done; intros _;
    first [ apply core_claims; by autorewrite with core
          | by apply keeps_claims_core, core_drain | by apply keeps_claims_core, core_closeAndDrain
          | by apply keeps_claims_core, core_remove | by apply keeps_claims_core, core_armVersioned
          | by apply keeps_claims_core, core_downgrade
          | by apply claims_begin | by apply claims_delete | by apply claims_transition
          | by apply claims_transitionDrain | by apply claims_update | idtac ].
  all: unfold acknowledgeReplacedJobs, markProviderExecutionDrained, beginProviderExecution,
    finalizeTerminalPersistence, recordActivity, clearTerminalHostAction, getJobIdsByUser,
    setGraph, setContentParts, setCollectedUsage, update_content, clearContentState;
    repeat case_match; try done; apply core_claims; autorewrite with core; done.
Qed.

(** ** Creation *)

Lemma start_claim_view a e s s' :
  claims s = claims s' -> claims (start_claim a e s) = claims (start_claim a e s').
Proof. intros Hs. unfold start_claim. rewrite Hs. by repeat case_match. Qed.

(** A failed commit leaves the claims alone; a successful one found its claim leased to its token
    and marks it started. *)
Lemma commit_claims a now s :
  match createJob_commit a now s with
  | (Ok _, s') => assertClaim a now s = Ok tt /\ exists e, claims s' = claims (start_claim a e s)
  | (Throw _, s') => claims s' = claims s
  end.
Proof.
  destruct (createJob_commit a now s) as [[v|e] s'] eqn:H.
  - pose proof H as Hi. apply createJob_commit_inv in Hi.
    destruct Hi as (s0 & s1 & s2 & p & j & Hv & _ & Hs1 & _ & _ & _ & Ha & Hp & _ & ->).
    split; [done|]. exists (Job.createdAt j).
    assert (Hc : claims s2 = claims s).
    { pose proof (validate_create_frame claims ltac:(done) a now s) as F0. rewrite Hv in F0.
      simpl in F0. rewrite <- F0.
      assert (F1 : claims s1 = claims s0) by (subst s1; case_match; [done | by apply getRetained_frame]).
      rewrite <- F1. clear - Hp. case_match; simpl in Hp.
      - match type of Hp with parkQueuedSteers ?k ?q ?n ?s = _ =>
          pose proof (core_claims _ _ (core_parkQueued k q n s)) as F2 end.
        by rewrite Hp in F2.
      - by injection Hp as <-. }
    assert (Hi : claims (install_job a j now s2) = claims s2).
    { unfold install_job. simpl. rewrite (core_claims _ _ (core_leaseParked _ _ _ _ _ _ _)).
      unfold retainGenerationEpoch. by repeat case_match. }
    rewrite Hc in Hi. apply (start_claim_view a (Job.createdAt j) _ _ Hi).
  - unfold createJob_commit, bindM at 1 in H.
    pose proof (validate_create_frame claims ltac:(done) a now s) as F0.
    destruct (validate_create a now s) as [[[]|e0] s0]; [|by injection H as _ <-]. simpl in F0.
    rewrite <- F0. destruct (mget (jobs s0) _) as [q|].
    + case_decide; [by injection H as _ <-|]. unfold bindM at 1, lift_check in H.
      destruct (assertClaim _ _ _) in H; [|by injection H as _ <-].
      unfold bindM at 1 in H. match type of H with context [parkQueuedSteers ?k ?q ?n ?s] =>
          pose proof (core_claims _ _ (core_parkQueued k q n s)) as F2 end.
      destruct (parkQueuedSteers _ _ _ _) as [[[]|] s2]; [done|]. by injection H as _ <-.
    + pose proof (getRetained_frame claims ltac:(done) (CreateArgs.streamId a) now s0) as F1.
      destruct (getRetainedGenerationEpoch _ _ _) as [r s1]. simpl in F1. rewrite <- F1.
      case_decide; [by injection H as _ <-|]. unfold bindM at 1, lift_check in H.
      destruct (assertClaim _ _ _) in H; [done | by injection H as _ <-].
Qed.

(** ** What an operation does to one claim *)

Definition unleased (now : Z) (c : option ClaimEntry.t) : Prop :=
  forall e, c = Some e -> (ClaimEntry.expiresAt e <= now)%Z.
Definition starts (e : Z) (v : IdempotencyClaimValue.t) : IdempotencyClaimValue.t :=
  {| v with IdempotencyClaimValue.startedAt := Some e |}.

Inductive claim_effect (key : string) (now : Z) : op -> option ClaimEntry.t -> option ClaimEntry.t -> Prop :=
| effect_none o c : claim_effect key now o c c
| effect_claim v ttl c : unleased now c ->
    claim_effect key now (ClaimKey key v ttl) c (Some (ClaimEntry.mk v (now + ttl * 1000)))
| effect_takeover ex v ttl c :
    (now < ClaimEntry.expiresAt c)%Z ->
    IdempotencyClaimValue.startedAt (ClaimEntry.value c) = None ->
    claim_effect key now (TakeoverKey key ex v ttl) (Some c)
      (Some (ClaimEntry.mk v (now + ttl * 1000)))
| effect_mark tok st ttl c :
    (now < ClaimEntry.expiresAt c)%Z ->
    claim_effect key now (MarkStarted key tok st ttl) (Some c)
      (Some (ClaimEntry.mk (starts st (ClaimEntry.value c)) (now + ttl * 1000)))
| effect_adopt ex k u r te e ttl b v c :
    (now < ClaimEntry.expiresAt c)%Z ->
    IdempotencyClaimValue.startedAt (ClaimEntry.value c) = None ->
    claim_effect key now (AdoptKey key ex k u r te e ttl b) (Some c)
      (Some (ClaimEntry.mk v (now + ttl * 1000)))
| effect_release ex c :
    (forall e, ex = Some e -> (c ≫= fun c => IdempotencyClaimValue.claimToken (ClaimEntry.value c)) =
                              IdempotencyClaimValue.claimToken e) ->
    claim_effect key now (ReleaseKey key ex) c None
| effect_cleanup c : (ClaimEntry.expiresAt c <= now)%Z -> claim_effect key now Cleanup (Some c) None
| effect_destroy c : claim_effect key now Destroy c None
| effect_create a e c :
    CreateArgs.idempotencyClaimKey a = Some key ->
    (is_Some (CreateArgs.idempotencyClaimToken a) -> (now < ClaimEntry.expiresAt c)%Z /\
       IdempotencyClaimValue.claimToken (ClaimEntry.value c) = CreateArgs.idempotencyClaimToken a /\
       IdempotencyClaimValue.startedAt (ClaimEntry.value c) = None) ->
    claim_effect key now (CreateCommit a) (Some c)
      (Some {| c with ClaimEntry.value := starts e (ClaimEntry.value c) |}).

Lemma set_claim_get key k v e s :
  mget (claims (set_claim k v e s)) key =
  if decide (k = key) then Some (ClaimEntry.mk v e) else mget (claims s) key.
Proof. simpl. by rewrite mget_mset. Qed.

Lemma live_claim_spec key now s :
  match live_claim s key now with
  | Some c => mget (claims s) key = Some c /\ (now < ClaimEntry.expiresAt c)%Z
  | None => unleased now (mget (claims s) key)
  end.
Proof.
  unfold live_claim, unleased. destruct (mget (claims s) key) as [c|]; [|done].
  case_decide; [by intros ? [= <-] | split; [done | lia]].
Qed.

Lemma commit_effect key a now s :
  claim_effect key now (CreateCommit a) (mget (claims s) key)
    (mget (claims (createJob_commit a now s).2) key).
Proof.
  pose proof (commit_claims a now s) as H. destruct (createJob_commit a now s) as [[v|e] s'].
  2: { cbn [snd]. by rewrite H; constructor. }
  destruct H as [Ha [e He]]. cbn [snd]. rewrite He. clear He. unfold start_claim.
  destruct (CreateArgs.idempotencyClaimKey a) as [k|] eqn:Ek; [|constructor].
  destruct (mget (claims s) k) as [c|] eqn:Ec; [|constructor]. cbn [claims with_idempotencyClaims].
  rewrite mget_mset. case_decide as Hk; [subst k|constructor]. rewrite Ec. constructor; [done|].
  intros [tok Htok]. unfold assertClaim in Ha. rewrite Ek, Htok in Ha.
  destruct (claim_leased _ _ _) eqn:El in Ha; [|done]. rewrite Ec in El. unfold claim_leased in El.
  rewrite Htok. by bool_facts.
Qed.

Lemma run_op_claim key o now s :
  mwf (claims s) ->
  claim_effect key now o (mget (claims s) key) (mget (claims (run_op o now s)) key).
Proof.
  intros Hw. destruct (claim_op o) eqn:Ho; [|rewrite claims_frame by done; constructor].
  destruct o as [ |a| | | | | | | | |k v ttl|k ex v ttl|k tok st ttl|k ex sid u r te e ttl b|k ex
    | | | | | | | | | | | | | | | | | | | | | | | | | ]; try done; cbn [run_op].
  - apply commit_effect.
  - unfold claimIdempotencyKey. pose proof (live_claim_spec k now s) as Hl.
    destruct (live_claim s k now); cbn [snd]; [constructor|]. rewrite set_claim_get.
    case_decide; [subst; by constructor | constructor].
  - unfold takeoverIdempotencyKey. pose proof (live_claim_spec k now s) as Hl.
    destruct (live_claim s k now) as [c|]; cbn [snd]; [|constructor].
    case_bool_decide as Hc; cbn [snd]; [|constructor]. rewrite set_claim_get.
    destruct (decide (k = key)); [subst|constructor]. destruct Hl as [-> Hl], Hc. by constructor.
  - unfold markIdempotencyKeyStarted. pose proof (live_claim_spec k now s) as Hl.
    destruct (live_claim s k now) as [c|]; cbn [snd]; [|constructor].
    destruct (_ && _); cbn [snd]; [|constructor]. rewrite set_claim_get.
    destruct (decide (k = key)); [subst|constructor]. destruct Hl as [-> Hl]. by constructor.
  - unfold adoptIdempotencyKeyForJob. pose proof (live_claim_spec k now s) as Hl.
    destruct (live_claim s k now) as [c|], (mget (jobs s) sid); cbn [snd]; try constructor.
    destruct (_ && _) eqn:Hc; cbn [snd]; [|constructor]. rewrite set_claim_get.
    destruct (decide (k = key)); [subst|constructor]. destruct Hl as [-> Hl]. constructor; [done|].
    bool_facts. naive_solver.
  - unfold releaseIdempotencyKey. destruct ex as [e|].
    + case_bool_decide as Hc; [|constructor]. simpl. rewrite mget_mdel.
      case_decide; [subst|constructor]. constructor. by intros e' [= <-].
    + simpl. rewrite mget_mdel. case_decide; [subst; by constructor | constructor].
  - rewrite claims_cleanup, mget_mprune_wf by done.
    destruct (mget (claims s) key) as [c|]; [|constructor].
    case_bool_decide; constructor. done.
  - constructor.
Qed.

Lemma run_op_claims_wf o now s : mwf (claims s) -> mwf (claims (run_op o now s)).
Proof.
  intros Hw. destruct (claim_op o) eqn:Ho; [|by rewrite claims_frame].
  destruct o; try done; cbn [run_op].
  - pose proof (commit_claims a now s) as H. destruct (createJob_commit a now s) as [[v|e] s'].
    + destruct H as [_ [e He]]. cbn [snd]. rewrite He. unfold start_claim. repeat case_match; try done. by apply mwf_mset.
    + cbn [snd]. by rewrite H.
  - unfold claimIdempotencyKey. case_match; [done|]. by apply mwf_mset.
  - unfold takeoverIdempotencyKey. repeat case_match; try done. by apply mwf_mset.
  - unfold markIdempotencyKeyStarted. repeat case_match; try done. all: by apply mwf_mset.
  - unfold adoptIdempotencyKeyForJob. repeat case_match; try done. all: by apply mwf_mset.
  - unfold releaseIdempotencyKey. repeat case_match; try done. all: by apply mwf_mdel.
  - rewrite claims_cleanup. by apply mwf_mprune.
  - constructor.
Qed.

(** ** A window of time in which no claim expires *)

Section window.
(** The claim watched and the window from [opens] to [closes]. *)
Variables (key : string) (opens closes : Z).

Definition long (c : ClaimEntry.t) : Prop := (closes <= ClaimEntry.expiresAt c)%Z.

(** The claim is there for the rest of the window. *)
Definition held (s : Store) : Prop := exists c, mget (claims s) key = Some c /\ long c.

(** Claims on the key last for the window, it is released with a token or not at all, and a job
    that names it comes with a token, as [check_arguments] makes sure. *)
Definition proper (o : op) (now : Z) : Prop :=
  match o with
  | ClaimKey k _ ttl | TakeoverKey k _ _ ttl | MarkStarted k _ _ ttl
  | AdoptKey k _ _ _ _ _ _ ttl _ => k = key -> (closes <= now + ttl * 1000)%Z
  | ReleaseKey k e => k = key -> e <> None
  | CreateCommit a => CreateArgs.idempotencyClaimKey a = Some key ->
                      is_Some (CreateArgs.idempotencyClaimToken a)
  | Destroy => False
  | _ => True
  end.
Definition releases (o : op) : Prop := match o with ReleaseKey k _ => k = key | _ => False end.

Lemma live_held now s : (now < closes)%Z -> held s -> is_Some (live_claim s key now).
Proof using.
  intros Hn (c & Hc & He). unfold live_claim, long in *. rewrite Hc, decide_False by lia. by exists c.
Qed.

Lemma held_step o now s :
  mwf (claims s) -> (now < closes)%Z -> proper o now -> ~ releases o -> held s ->
  held (run_op o now s).
Proof using.
  intros Hw Hn Hp Hr (c & Hc & Hl). pose proof (run_op_claim key o now s Hw) as He. unfold held.
  rewrite Hc in He. revert He. generalize (mget (claims (run_op o now s)) key). unfold long in *.
  intros c' He. inversion He; subst; simpl in *; try (done || lia); eauto.
Qed.

(** ** One creation per lease

    What has happened to the claim in a run: the tokens with which jobs were created under it, and
    the tokens that released it. *)

Definition creates (o : op) (now : Z) (s : Store) : list string :=
  match o with
  | CreateCommit a =>
      if decide (CreateArgs.idempotencyClaimKey a = Some key) then
        match (createJob_commit a now s).1 with
        | Ok _ => option_list (CreateArgs.idempotencyClaimToken a)
        | Throw _ => []
        end
      else []
  | _ => []
  end.
Definition frees (o : op) : list string :=
  match o with
  | ReleaseKey k (Some e) =>
      if decide (k = key) then option_list (IdempotencyClaimValue.claimToken e) else []
  | _ => []
  end.

(** Nobody has created under the claim and it does not expire inside the window, or the claim
    records the one creation. *)
Inductive lease (c : option ClaimEntry.t) : list string -> Prop :=
| lease_open : (forall e, c = Some e -> (ClaimEntry.expiresAt e <= opens)%Z \/ long e) -> lease c []
| lease_started e t :
    c = Some e -> long e -> IdempotencyClaimValue.claimToken (ClaimEntry.value e) = Some t ->
    IdempotencyClaimValue.startedAt (ClaimEntry.value e) <> None -> lease c [t].

Definition leased_once (s : Store) (created freed : list string) : Prop :=
  (exists t, t ∈ created /\ t ∈ freed) \/ lease (mget (claims s) key) created.

Lemma creates_spec o now s :
  creates o now s = [] \/
  exists a t, o = CreateCommit a /\ CreateArgs.idempotencyClaimKey a = Some key /\
    CreateArgs.idempotencyClaimToken a = Some t /\ creates o now s = [t] /\
    claim_leased (mget (claims s) key) t now = true /\
    exists e c, mget (claims s) key = Some c /\
      mget (claims (run_op o now s)) key =
        Some {| c with ClaimEntry.value := starts e (ClaimEntry.value c) |}.
Proof using.
  destruct o as [|a|k e|k at' l|k e x|k e x|k e ev|k args|k args|k u e|k v ttl|k ex v ttl
    |k tok st ttl|k ex sid u r te e ttl b|k ex| | | | | | | | | | | | | | | | | | | | | | | | |];
    try by left. unfold creates. cbn [run_op].
  destruct (decide _) as [Hk|]; [|by left]. pose proof (commit_claims a now s) as H.
  destruct (createJob_commit a now s) as [[v|e] s']; [|by left]. cbn [fst snd].
  destruct (CreateArgs.idempotencyClaimToken a) as [t|] eqn:Ht; [right | by left].
  destruct H as [Ha [e He]]. exists a, t. split_and!; try done.
  - unfold assertClaim in Ha. rewrite Hk, Ht in Ha. by destruct (claim_leased _ _ _).
  - unfold assertClaim in Ha. rewrite Hk, Ht in Ha. rewrite He. unfold start_claim. rewrite Hk.
    destruct (mget (claims s) key) as [c|] eqn:Hc; [|done]. exists e, c. split; [done|].
    simpl. apply mget_mset_eq.
Qed.

Lemma leased_step o now s created freed :
  mwf (claims s) -> (opens <= now < closes)%Z -> proper o now ->
  leased_once s created freed ->
  leased_once (run_op o now s) (created ++ creates o now s) (freed ++ frees o).
Proof using.
  intros Hw [Hn Hn'] Hp [(t & H1 & H2)|Hl]; [left; exists t; set_solver|].
  destruct (creates_spec o now s) as [Hc|(a & t & -> & Hk & Ht & Hcr & Hle & e & c & Hg & Hg')].
  - rewrite Hc, app_nil_r. clear Hc. pose proof (run_op_claim key o now s Hw) as He.
    unfold leased_once. revert He Hl. generalize (mget (claims (run_op o now s)) key),
      (mget (claims s) key). intros c' c He Hl.
    destruct Hl as [Hl|e t Hc Hlong Htok Hst]; [right; apply lease_open|].
    + intros e' Hc'. subst c'. unfold long in *.
      inversion He; subst; simpl in *; try (by eapply Hl); try (right; by apply Hp).
    + subst c. unfold long in *. inversion He; subst; simpl in *; try (by right; econstructor).
      * match goal with H : unleased _ _ |- _ => specialize (H e eq_refl) end. lia.
      * right. econstructor; [done | by apply Hp | done | done].
      * destruct ex as [ex|]; [|by destruct (Hp eq_refl)]. left. exists t. split; [set_solver|].
        rewrite decide_True by done. match goal with H : forall _, _ |- _ => specialize (H ex eq_refl) end.
        simpl in *. rewrite Htok in *. match goal with H : Some t = _ |- _ => rewrite <- H end. set_solver.
      * lia.
  - right. rewrite Hcr, Hg'. unfold claim_leased in Hle. rewrite Hg in Hle, Hl. bool_facts.
    inversion Hl as [Ho|e' t' He' Hlong Htok Hst]; subst.
    + destruct (Ho c eq_refl) as [Hx|Hx]; [lia|]. by econstructor.
    + by injection He' as <-.
Qed.
End window.
