(* ===== verification/StoreParking.v ===== *)
(** * No accepted steer is lost

    [parks s k u t ids until]: stream [k] holds a readable recovery payload of owner [(u, t)],
    unexpired before [until], in which every steer of [ids] is present.  The operations that end
    or replace a generation establish it for the steers still unsettled, and the owner's claim
    reads them back. *)

From S2P Require Import Prelude JsMap Json StreamTypes SteerRecovery StoreState StoreSteers StoreParked.
From S2P Require Import StoreJobs StoreCleanup StoreFrame StoreRun StoreEpochs.

Definition has_steer (l : list json) (id : string) : Prop :=
  exists x, x ∈ l /\ parked_key x = Some (JStr id).

Record parks (s : Store) (k u : string) (t : option string) (ids : list string) (until : Z)
  : Prop := {
  pk_entry : exists p v l,
    mget (parkedSteers s) k = Some p /\ JSON_parse (Parked.payload p) = Some v /\
    ile (At until) (Parked.expiresAt p) /\ valid_recovery v = true /\
    payload_owner v u t = true /\ valid_steers v = Some l /\ forall id, id ∈ ids -> has_steer l id
}.

(** What the server guarantees of the items it enqueues: an id, and a safe timestamp. *)
Definition item_ok (i : SteerQueueItem.t) : bool :=
  negb (bool_decide (SteerQueueItem.steerId i = "")) && safe_epoch (SteerQueueItem.createdAt i).

(** The steers parked under a stream that its owner could read at [now]. *)
Definition parked_before (s : Store) (k : string) (now : Z) : list string :=
  match live_parked s k now ≫= fun p => JSON_parse (Parked.payload p) ≫= valid_steers with
  | Some l => omap (fun x => as_string (parked_key x)) l
  | None => []
  end.

(** ** Parked items *)

Lemma pending_key i : parked_key (toPendingSteer i) = Some (JStr (SteerQueueItem.steerId i)).
Proof. done. Qed.

Lemma pending_valid i : item_ok i = true -> isValidParkedSteer (toPendingSteer i) = true.
Proof.
  unfold item_ok. destruct i as [id c txt u t f p r]. simpl. intros [Hid Ht]%andb_true_iff.
  bool_facts. unfold isValidParkedSteer, toPendingSteer. simpl.
  rewrite (bool_decide_eq_true_2 (id <> "")) by done.
  destruct c as [c|]; [case_decide|]; simpl; rewrite ?Ht;
    rewrite ?(bool_decide_eq_true_2 (c <> "")) by done;
    destruct f as [[|f fs]|], p as [[]|], r as [r|]; reflexivity.
Qed.

Lemma valid_parked_key x :
  isValidParkedSteer x = true -> exists id, parked_key x = Some (JStr id) /\ id <> "".
Proof.
  unfold isValidParkedSteer, parked_key. destruct x; try done. intros H. bool_facts.
  destruct (as_string (jfield _ "steerId")) as [id|] eqn:E; [|done].
  apply as_string_Some in E. bool_facts. eauto.
Qed.

Lemma valid_not_null x : isValidParkedSteer x = true -> x <> JNull.
Proof. by intros H ->. Qed.

Lemma valid_steers_Some v l :
  valid_steers v = Some l <->
  jfield v "steers" = Some (JArr l) /\ l <> [] /\ forallb isValidParkedSteer l = true.
Proof.
  unfold valid_steers. destruct (as_array (jfield v "steers")) as [l'|] eqn:E.
  - apply as_array_Some in E. case_decide; naive_solver.
  - split; [done|]. intros [H _]. rewrite H in E. done.
Qed.

Lemma valid_recovery_steers v : valid_recovery v = true -> exists l, valid_steers v = Some l.
Proof. unfold valid_recovery. intros H. bool_facts. destruct (valid_steers v); eauto; done. Qed.

(** [dedup_parked] drops only items whose id was seen. *)
Lemma dedup_parked_sub seen l x : x ∈ dedup_parked seen l -> x ∈ l.
Proof.
  revert seen. induction l as [|y l IH]; intros seen; simpl; [done|].
  case_decide; rewrite ?elem_of_cons; naive_solver.
Qed.

Lemma dedup_parked_keys seen l id :
  (exists x, x ∈ l /\ parked_key x = Some (JStr id)) ->
  Some (JStr id) ∈ seen \/ has_steer (dedup_parked seen l) id.
Proof.
  revert seen. induction l as [|y l IH]; intros seen (x & Hx & Hk); [set_solver|].
  simpl. apply elem_of_cons in Hx as [->|Hx].
  - case_decide as Hd; [left; by rewrite <- Hk; destruct Hd|]. right. exists y. set_solver.
  - case_decide as Hd; [eauto|].
    destruct (IH (parked_key y :: seen)) as [Hs|(z & Hz & Hzk)]; [eauto| |].
    + apply elem_of_cons in Hs as [Hs|?]; [|by left]. right. exists y. split; [set_solver | done].
    + right. exists z. split; [set_solver | done].
Qed.

Lemma dedup_parked_has l id : has_steer l id -> has_steer (dedup_parked [] l) id.
Proof. intros H. destruct (dedup_parked_keys [] l id H); set_solver. Qed.

Lemma dedup_parked_valid l :
  forallb isValidParkedSteer l = true -> forallb isValidParkedSteer (dedup_parked [] l) = true.
Proof.
  rewrite !forallb_forall. intros H x Hx%list_elem_of_In. apply H, list_elem_of_In.
  by eapply dedup_parked_sub.
Qed.

(** ** Recovery payloads *)

Lemma recovery_payload_valid u t p l :
  u <> "" -> l <> [] -> forallb isValidParkedSteer l = true ->
  valid_recovery (recovery_payload u t p l) = true /\
  valid_steers (recovery_payload u t p l) = Some l.
Proof.
  intros Hu Hl Hv.
  assert (E : valid_steers (recovery_payload u t p l) = Some l).
  { apply valid_steers_Some. split; [|done]. by destruct t, p. }
  split; [|done]. unfold valid_recovery. rewrite E.
  destruct t, p; simpl; by rewrite bool_decide_true.
Qed.

Lemma recovery_payload_owner u t p l : payload_owner (recovery_payload u t p l) u t = true.
Proof.
  unfold payload_owner. destruct t; simpl; unfold is_string; simpl;
    by rewrite !bool_decide_true.
Qed.

(** ** [parkLeftovers] *)

Lemma prior_parked_compatible s k j now :
  isParkedRecoveryCompatible s k j now = true ->
  (live_parked s k now = None /\ (prior_parked s k j now).1 = []) \/
  exists p v l, live_parked s k now = Some p /\ JSON_parse (Parked.payload p) = Some v /\
                valid_steers v = Some l /\ (prior_parked s k j now).1 = l.
Proof.
  unfold isParkedRecoveryCompatible, prior_parked.
  destruct (live_parked s k now) as [p|]; [|by left]. intros H. right.
  destruct (JSON_parse (Parked.payload p)) as [v|] eqn:Hp; [|done].
  apply andb_true_iff in H as [Hv Ho].
  destruct (valid_recovery_steers v Hv) as [l Hl].
  exists p, v, l. split_and!; try done. rewrite Ho.
  apply valid_steers_Some in Hl as (Hf & _ & _). unfold valid_recovery in Hv.
  apply andb_true_iff in Hv as [[_ Hm]%andb_true_iff _]. rewrite Hm, Hf. done.
Qed.

Lemma prior_valid s k j now :
  isParkedRecoveryCompatible s k j now = true ->
  forallb isValidParkedSteer (prior_parked s k j now).1 = true.
Proof.
  intros [[_ ->]|(p & v & l & _ & _ & Hl & ->)]%prior_parked_compatible; [done|].
  by apply valid_steers_Some in Hl as (_ & _ & ?).
Qed.

Lemma parkLeftovers_parks k items j now s :
  isParkedRecoveryCompatible s k j now = true -> Job.userId j <> "" -> items <> [] ->
  forallb item_ok items = true ->
  exists s', parkLeftovers k items (Some j) now s = (Ok tt, s') /\
    parks s' k (Job.userId j) (Job.tenantId j)
      (steer_ids items ++ parked_before s k now) (now + PARKED_STEERS_TTL_MS).
Proof.
  intros Hc Hu Hne Hok. unfold parkLeftovers. destruct items as [|i0 items0] eqn:Ei; [done|].
  rewrite <- Ei in *. clear Ei i0 items0.
  pose proof (prior_valid _ _ _ _ Hc) as Hpv. pose proof (prior_parked_compatible _ _ _ _ Hc) as Hpc.
  destruct (prior_parked s k j now) as [prior protocol]. simpl in *.
  rewrite decide_False.
  2: { intros Hn. rewrite forallb_forall in Hpv.
       specialize (Hpv _ (proj1 (list_elem_of_In _ _) Hn)). done. }
  set (all := prior ++ (toPendingSteer <$> items)).
  assert (Hav : forallb isValidParkedSteer all = true).
  { subst all. rewrite forallb_app, Hpv. simpl. rewrite forallb_forall in *.
    intros x Hx%list_elem_of_In. apply list_elem_of_fmap in Hx as (i & -> & Hi).
    by apply pending_valid, Hok, list_elem_of_In. }
  eexists. split; [done|]. split. eexists _, _, (dedup_parked [] all).
  rewrite (fold_receipts_frame parkedSteers ltac:(done) SteerQueueItem.clientSteerId). simpl.
  rewrite mget_mset_eq. split; [done|]. split; [done|]. split; [simpl; lia|].
  assert (Hids : forall id, id ∈ steer_ids items ++ parked_before s k now -> has_steer all id).
  { intros id [Hid|Hid]%elem_of_app.
    - apply list_elem_of_fmap in Hid as (i & -> & Hi). exists (toPendingSteer i).
      split; [|done]. apply elem_of_app. right. by apply list_elem_of_fmap_2.
    - unfold parked_before in Hid.
      destruct Hpc as [[Hl _]|(p & v & l & Hl & Hp & Hs & ->)]; rewrite Hl in Hid; simpl in Hid.
      + by apply not_elem_of_nil in Hid.
      + rewrite Hp in Hid. simpl in Hid. rewrite Hs in Hid.
        apply list_elem_of_omap in Hid as (x & Hx & Hk). exists x.
        split; [apply elem_of_app; by left | by apply as_string_Some]. }
  assert (Hde : dedup_parked [] all <> []).
  { destruct items as [|i items]; [done|]. intros E.
    destruct (dedup_parked_has all (SteerQueueItem.steerId i)) as (x & Hx & _).
    - apply Hids, elem_of_app. left. apply elem_of_cons. by left.
    - rewrite E in Hx. set_solver. }
  destruct (recovery_payload_valid (Job.userId j) (Job.tenantId j) protocol (dedup_parked [] all))
    as [Hv Hs]; [done | done | by apply dedup_parked_valid|].
  split_and!; [done | apply recovery_payload_owner | done|].
  intros id Hid. by apply dedup_parked_has, Hids.
Qed.

(** ** What the receipt and job updates leave alone *)

Definition parking (s : Store) :=
  (parkedSteers s, jobs s, steerQueues s, claimedSteers s).

Lemma parking_settle k items st s : parking (settleSteerReceipts k items st s) = parking s.
Proof. by apply settle_frame. Qed.

Lemma parking_map_receipts k f s : parking (map_receipts k f s) = parking s.
Proof. by apply map_receipts_frame. Qed.

Lemma compatible_parking k s s' j now :
  parking s' = parking s -> isParkedRecoveryCompatible s' k j now = isParkedRecoveryCompatible s k j now.
Proof. intros [=]. unfold isParkedRecoveryCompatible, live_parked. by rewrite H0. Qed.

Lemma parked_before_parking k s s' now :
  parking s' = parking s -> parked_before s' k now = parked_before s k now.
Proof. intros [=]. unfold parked_before, live_parked. by rewrite H0. Qed.

Lemma parks_same s s' k u t ids until :
  parkedSteers s' = parkedSteers s -> parks s k u t ids until -> parks s' k u t ids until.
Proof. intros He [(p & v & l & H)]. split. exists p, v, l. by rewrite He. Qed.

Lemma parks_sub s k u t ids ids' until :
  (forall i, i ∈ ids' -> i ∈ ids) -> parks s k u t ids until -> parks s k u t ids' until.
Proof.
  intros Hs [(p & v & l & ? & ? & ? & ? & ? & ? & H)]. split. exists p, v, l.
  split_and!; auto.
Qed.

(** ** [parkQueuedSteers] *)

Lemma parkQueuedSteers_parks k j now s :
  isParkedRecoveryCompatible s k j now = true -> Job.userId j <> "" ->
  unsettled s k (Job.createdAt j) <> [] ->
  forallb item_ok (unsettled s k (Job.createdAt j)) = true ->
  exists s', parkQueuedSteers k j now s = (Ok tt, s') /\
    parks s' k (Job.userId j) (Job.tenantId j)
      (steer_ids (unsettled s k (Job.createdAt j)) ++ parked_before s k now)
      (now + PARKED_STEERS_TTL_MS).
Proof.
  intros Hc Hu Hne Hok. unfold parkQueuedSteers.
  set (q := unsettled s k (Job.createdAt j)) in *. destruct q as [|x q0] eqn:Eq; [done|].
  rewrite <- Eq in *. clear Eq x q0.
  pose proof (parking_settle k q leftover s) as Hp.
  destruct (parkLeftovers_parks k q j now (settleSteerReceipts k q leftover s))
    as (s' & Hs' & Hparks); [|done|done|done|].
  { by rewrite (compatible_parking _ _ _ _ _ Hp). }
  exists (with_claimedSteers (mdel (claimedSteers s') k)
            (with_steerQueues (mdel (steerQueues s') k) s')).
  split.
  - unfold bindM, modify. rewrite Hs'. done.
  - rewrite (parked_before_parking _ _ _ _ Hp) in Hparks. by eapply parks_same; [|exact Hparks].
Qed.

(** A steer that is unsettled keeps a copy until it is parked. *)
Lemma parkQueuedSteers_ok k j now s s' r :
  isParkedRecoveryCompatible s k j now = true -> Job.userId j <> "" ->
  forallb item_ok (unsettled s k (Job.createdAt j)) = true ->
  parkQueuedSteers k j now s = (r, s') ->
  r = Ok tt /\
  (unsettled s k (Job.createdAt j) <> [] ->
   parks s' k (Job.userId j) (Job.tenantId j)
     (steer_ids (unsettled s k (Job.createdAt j)) ++ parked_before s k now)
     (now + PARKED_STEERS_TTL_MS)).
Proof.
  intros Hc Hu Hok H. destruct (unsettled s k (Job.createdAt j)) as [|x q] eqn:E.
  - unfold parkQueuedSteers in H. rewrite E in H. by injection H as <- <-.
  - destruct (parkQueuedSteers_parks k j now s Hc Hu) as (s'' & Hs & Hp); rewrite ?E; try done.
    rewrite H in Hs. injection Hs as -> ->. rewrite E in Hp. split; [done|]. by intros _.
Qed.

(** ** Claiming *)

Lemma no_recovery_visible l :
  visible_steers None l = (fun i => jdel i "recoveringCreatedAt") <$> l.
Proof.
  unfold visible_steers. f_equal. induction l as [|x l IH]; [done|].
  rewrite filter_cons, decide_True by done. by f_equal.
Qed.

Lemma no_recovery_leased l : leased_steers None l = [].
Proof.
  unfold leased_steers. induction l as [|x l IH]; [done|].
  rewrite filter_cons, decide_False; [done|]. simpl. congruence.
Qed.

Lemma has_steer_visible l id :
  has_steer l id -> has_steer ((fun i => jdel i "recoveringCreatedAt") <$> l) id.
Proof.
  intros (x & Hx & Hk). exists (jdel x "recoveringCreatedAt"). split.
  - by apply (list_elem_of_fmap_2 (fun i => jdel i "recoveringCreatedAt")).
  - unfold parked_key in *. by rewrite jfield_jdel_ne.
Qed.

Lemma rebuilt_steers v p l : jfield (rebuilt_payload v p l) "steers" = Some (JArr l).
Proof.
  unfold rebuilt_payload. simpl.
  destruct (jfield v "userId"), (nullish (jfield v "tenantId")), (jfield v "tenantId"), p; done.
Qed.

(** The payload returned by a claim holds the steers it lists. *)
Definition claims_steers (r : option (GenerationProtocolVersion * jtext)) (ids : list string)
  : Prop :=
  exists protocol v l, r = Some (protocol, Text v) /\ jfield v "steers" = Some (JArr l) /\
                       forall id, id ∈ ids -> has_steer l id.

Lemma parks_claim s k u t ids until requested now :
  parks s k u t ids until -> (now < until)%Z -> active_recovery s k u t = None ->
  claims_steers (claimParkedSteersDetailed k u t requested now s).1 ids.
Proof.
  intros [(p & v & l & Hp & Hv & Hile & Hr & Ho & Hl & Hids)] Hnow Ha.
  unfold claimParkedSteersDetailed, live_parked. rewrite Hp.
  assert (He : expired (Parked.expiresAt p) now = false).
  { apply (expired_ile (At until)); [done|]. apply bool_decide_eq_false. lia. }
  rewrite He, Hv, Hl, Hr, Ho, Ha. simpl.
  rewrite no_recovery_leased, no_recovery_visible.
  pose proof (proj1 (valid_steers_Some v l) Hl) as (Hf & Hne & _).
  case_bool_decide.
  - eexists _, _, _. split; [done|]. split.
    + apply jfield_jset_eq. unfold valid_recovery in Hr. by destruct v.
    + intros id Hid. by apply has_steer_visible, Hids.
  - rewrite bool_decide_false by (by destruct l). eexists _, _, _. split; [done|]. split.
    + apply rebuilt_steers.
    + intros id Hid. by apply has_steer_visible, Hids.
Qed.

Lemma inactive_no_recovery s k u t j :
  mget (jobs s) k = Some j -> active (Job.status j) = false -> active_recovery s k u t = None.
Proof. intros Hj Ha. unfold active_recovery. rewrite Hj, Ha, andb_false_r. done. Qed.

Lemma unrecovering_no_recovery s k u t j :
  mget (jobs s) k = Some j -> Job.recoveredSteerId j = None -> active_recovery s k u t = None.
Proof. intros Hj Ha. unfold active_recovery. rewrite Hj, Ha, andb_false_r. done. Qed.

Lemma absent_no_recovery s k u t : mget (jobs s) k = None -> active_recovery s k u t = None.
Proof. intros Hj. unfold active_recovery. by rewrite Hj. Qed.

(** ** A terminal transition *)

Lemma transition_terminal_inv k args now s s' :
  terminal (JobStatusTransition.to args) = true ->
  transitionStatus k args now s = (Ok true, s') ->
  exists j s1, mget (jobs s) k = Some j /\ transition_guard args j = true /\
    isParkedRecoveryCompatible s k j now = true /\ parkQueuedSteers k j now s = (Ok tt, s1) /\
    s' = map_receipts k (transition_receipts args (Job.createdAt (transitioned args j)) now)
           (set_job k (transitioned args j) s1).
Proof.
  intros Ht. unfold transitionStatus. destruct (mget (jobs s) k) as [j|]; [|done].
  destruct (transition_guard args j) eqn:Hg; [|done]. simpl. rewrite Ht. simpl.
  destruct (isParkedRecoveryCompatible s k j now) eqn:Hc; [|done]. simpl. intros H.
  apply bind_ok_inv in H as ([] & s1 & Hp & H). exists j, s1. split_and!; try done.
  unfold bindM, modify, retM in H. destruct (JobStatusTransition.to args); simplify_eq/=; done.
Qed.

Lemma assign_status_ok j p :
  forallb patch_ok p = true -> Job.status (assign j p) = Job.status j.
Proof.
  revert j. induction p as [|f p IH]; intros j; [done|]. simpl. rewrite andb_true_iff.
  intros [Hf Hp]. change (Job.status (assign (assign1 j f) p) = Job.status j).
  rewrite IH by done. by destruct f.
Qed.

Lemma clear_status j l : Job.status (clear j l) = Job.status j.
Proof. unfold clear. revert j. induction l as [|x l IH]; intros j; [done|]. simpl. rewrite IH. by destruct x. Qed.

Lemma transitioned_status args j :
  transition_ok args = true -> Job.status (transitioned args j) = JobStatusTransition.to args.
Proof.
  unfold transition_ok. intros [[_ Hp]%andb_true_iff _]%andb_true_iff.
  unfold transitioned. by rewrite clear_status, assign_status_ok.
Qed.

Lemma map_receipts_jobs k f s : jobs (map_receipts k f s) = jobs s.
Proof. apply core_jobs, core_map_receipts. Qed.

(** The items a terminal operation has to hand back to their owner. *)
Definition recoverable (s : Store) (k : string) (j : Job.t) (now : Z) : list string :=
  steer_ids (unsettled s k (Job.createdAt j)) ++ parked_before s k now.

(** ** Deletion, eviction and reaping *)

Lemma deleteJob_parked k e now s :
  parkedSteers (deleteJob k e now s).2 = parkedSteers s.
Proof.
  unfold deleteJob. destruct (mget (jobs s) k); [|done]. case_match; [done|]. simpl.
  unfold retainGenerationEpoch. by repeat case_match.
Qed.

Lemma deleteJob_gone k e now s j :
  mget (jobs s) k = Some j -> epoch_matches e (Job.createdAt j) = true ->
  mget (jobs (deleteJob k e now s).2) k = None.
Proof. intros Hj He. unfold deleteJob. rewrite Hj, He. simpl. apply mget_mdel_eq. Qed.

(** The scan keeps the smallest [createdAt]. *)
Lemma oldest_job_Some best l b :
  oldest_job best l = Some b ->
  (best = Some b \/ b ∈ l) /\
  forall e, (best = Some e \/ e ∈ l) -> (Job.createdAt b.2 <= Job.createdAt e.2)%Z.
Proof.
  revert best. induction l as [|e l IH]; intros best; simpl.
  - intros ->. split; [by left|]. intros e [[= ->]|He]; [lia | set_solver].
  - intros H. apply IH in H as [Hin Hle]. split.
    + destruct Hin as [Hb|?]; [|right; set_solver].
      destruct best as [b0|]; [case_decide|]; simplify_eq; set_solver.
    + intros e' He'. destruct best as [b0|]; [case_decide|].
      * destruct He' as [[= ->]|[->|He']%elem_of_cons]; [| |by apply Hle; right].
        -- specialize (Hle e (or_introl eq_refl)). lia.
        -- by apply Hle; left.
      * destruct He' as [[= ->]|[->|He']%elem_of_cons]; [by apply Hle; left| |by apply Hle; right].
        specialize (Hle b0 (or_introl eq_refl)). lia.
      * destruct He' as [?|[->|He']%elem_of_cons]; [done|by apply Hle; left|by apply Hle; right].
Qed.

(** ** Replacement *)

Lemma jdel_valid x :
  isValidParkedSteer x = true -> isValidParkedSteer (jdel x "recoveringCreatedAt") = true.
Proof.
  unfold isValidParkedSteer. destruct x as [| | | | |o]; try done. intros H.
  change (jdel (JObj o) "recoveringCreatedAt") with (JObj (mdel o "recoveringCreatedAt")).
  cbn [jfield] in *. rewrite !mget_mdel_ne by done. rewrite mget_mdel_eq. simpl.
  bool_facts. by rewrite H, H3, H2, H1.
Qed.

Lemma jset_valid x c :
  safe_epoch c = true -> isValidParkedSteer x = true ->
  isValidParkedSteer (jset x "recoveringCreatedAt" (JNum (NInt c))) = true.
Proof.
  intros Hc. unfold isValidParkedSteer. destruct x as [| | | | |o]; try done. intros H.
  change (jset (JObj o) "recoveringCreatedAt" (JNum (NInt c)))
    with (JObj (mset o "recoveringCreatedAt" (JNum (NInt c)))).
  cbn [jfield] in *. rewrite !mget_mset_ne by done. rewrite mget_mset_eq. simpl. rewrite Hc.
  bool_facts. by rewrite H, H3, H2, H1.
Qed.

Lemma mark_leased_spec id c l :
  safe_epoch c = true -> forallb isValidParkedSteer l = true ->
  forallb isValidParkedSteer (mark_leased id c l).1 = true /\
  length (mark_leased id c l).1 = length l /\
  forall i, has_steer l i -> has_steer (mark_leased id c l).1 i.
Proof.
  intros Hc. induction l as [|x l IH]; [done|]. simpl. rewrite andb_true_iff. intros [Hx Hl].
  destruct (IH Hl) as (Hv & Hlen & Hh). case_match.
  - simpl. rewrite jset_valid by done. split_and!; try done. intros i (y & Hy & Hk).
    apply elem_of_cons in Hy as [->|Hy].
    + eexists. split; [by left|]. unfold parked_key in *. by rewrite jfield_jset_ne.
    + exists y. split; [by right | done].
  - destruct (mark_leased id c l) as [l2 r]. simpl in *. rewrite Hx, Hlen. split_and!; try done.
    intros i (y & Hy & Hk). apply elem_of_cons in Hy as [->|Hy].
    + exists x. split; [by left | done].
    + destruct (Hh i) as (z & Hz & Hzk); [by exists y|]. exists z. split; [by right | done].
Qed.

Lemma forallb_fmap_valid l :
  forallb isValidParkedSteer l = true ->
  forallb isValidParkedSteer ((fun x => jdel x "recoveringCreatedAt") <$> l) = true.
Proof.
  rewrite !forallb_forall. intros H x Hx%list_elem_of_In.
  apply list_elem_of_fmap in Hx as (y & -> & Hy). by apply jdel_valid, H, list_elem_of_In.
Qed.

Lemma valid_recovery_jset v l l' :
  valid_recovery v = true -> valid_steers v = Some l -> l' <> [] ->
  forallb isValidParkedSteer l' = true ->
  valid_recovery (jset v "steers" (JArr l')) = true /\
  valid_steers (jset v "steers" (JArr l')) = Some l' /\
  forall u t, payload_owner (jset v "steers" (JArr l')) u t = payload_owner v u t.
Proof.
  intros Hr Hl Hne Hv. destruct v as [| | | | |o]; try done.
  assert (Hs : valid_steers (jset (JObj o) "steers" (JArr l')) = Some l').
  { apply valid_steers_Some. by rewrite jfield_jset_eq. }
  split_and!; [|done|].
  - unfold valid_recovery in *. rewrite Hs, !jfield_jset_ne by done. by rewrite Hl in Hr.
  - intros u t. unfold payload_owner. by rewrite !jfield_jset_ne.
Qed.

Lemma extend_lease_entry k j t p v x s :
  mget (parkedSteers s) k = Some p ->
  exists p', mget (parkedSteers (extend_lease k j t p v x s)) k = Some p' /\
             Parked.payload p' = Parked.payload p /\ ile (Parked.expiresAt p) (Parked.expiresAt p').
Proof.
  intros Hp. unfold extend_lease. case_match; [|exists p; auto with tempest].
  eexists. split_and!.
  - case_match; rewrite ?(update_receipt_frame parkedSteers ltac:(done)); simpl; apply mget_mset_eq.
  - done.
  - apply imax_l.
Qed.

(** The new generation may lease one item; every item stays readable. *)
Lemma leaseParked_parks s k id u t c now ids until :
  parks s k u t ids until -> (now < until)%Z -> safe_epoch c = true ->
  parks (leaseParkedSteer k id u t c now s) k u t ids until.
Proof.
  intros Hparks Hnow Hc. pose proof Hparks as [(p & v & l & Hp & Hv & Hile & Hr & Ho & Hl & Hids)].
  unfold leaseParkedSteer. destruct (mget (jobs s) k) as [j|]; [|done].
  destruct (usesReceiptSafeProtocol _); [|done].
  unfold live_parked. rewrite Hp.
  assert (He : expired (Parked.expiresAt p) now = false).
  { apply (expired_ile (At until)); [done|]. apply bool_decide_eq_false. lia. }
  rewrite He, Hv. pose proof (proj1 (valid_steers_Some v l) Hl) as (Hf & Hne & Hval).
  rewrite Hf. simpl. rewrite Ho. simpl. case_bool_decide; [|done].
  set (cleared := (fun x => jdel x "recoveringCreatedAt") <$> l).
  assert (Hcv : forallb isValidParkedSteer cleared = true) by by apply forallb_fmap_valid.
  assert (Hch : forall i, i ∈ ids -> has_steer cleared i).
  { intros i Hi. by apply has_steer_visible, Hids. }
  assert (Hcl : length cleared = length l) by (subst cleared; by rewrite length_fmap).
  set (m := match id with Some id => mark_leased id c cleared | None => (cleared, None) end).
  assert (Hm : forallb isValidParkedSteer m.1 = true /\ length m.1 = length l /\
               forall i, i ∈ ids -> has_steer m.1 i).
  { subst m. destruct id as [id|]; [|done].
    destruct (mark_leased_spec id c cleared Hc Hcv) as (? & ? & ?).
    split_and!; auto; congruence. }
  clearbody m. destruct m as [marked leased]. simpl in Hm. destruct Hm as (Hmv & Hml & Hmh).
  assert (Hmne : marked <> []) by (intros ->; destruct l; done).
  set (s1 := match leased with Some x => _ | None => s end).
  assert (Hs1 : exists p', mget (parkedSteers s1) k = Some p' /\
                           ile (Parked.expiresAt p) (Parked.expiresAt p')).
  { subst s1. destruct leased as [x|]; [case_bool_decide|]; try (exists p; by auto with tempest).
    destruct (extend_lease_entry k j (runningRecoveryLeaseExpiry s now) p
      (jset v "steers" (JArr marked)) x s Hp) as (p' & ? & _ & ?). eauto. }
  destruct Hs1 as (p' & Hp' & Hle). clearbody s1. rewrite Hp'.
  destruct (valid_recovery_jset v l marked Hr Hl Hmne Hmv) as (Hr' & Hl' & Ho').
  split. eexists _, _, marked. simpl. rewrite mget_mset_eq. split; [done|]. split; [done|].
  split_and!; try done.
  - exact (ile_trans _ _ _ Hile Hle).
  - by rewrite Ho'.
Qed.

Lemma payload_owner_tenant v u t t' :
  payload_owner v u t = true -> tenant_matches t t' = true -> payload_owner v u t' = true.
Proof.
  unfold payload_owner, tenant_matches. destruct (is_string _ _); [|done]. simpl.
  destruct (nullish _); [done|]. simpl. destruct t as [t|]; [|done].
  intros Ht Hm. bool_facts. subst. done.
Qed.

Lemma parks_tenant s k u t t' ids until :
  tenant_matches t t' = true -> parks s k u t ids until -> parks s k u t' ids until.
Proof.
  intros Ht [(p & v & l & ? & ? & ? & ? & ? & ? & ?)]. split. exists p, v, l.
  split_and!; try done. by eapply payload_owner_tenant.
Qed.

(** ** Theorems *)

(** C16. A terminal transition that wins loses no accepted steer: every steer that was queued or
    claimed but unsettled, and every one already parked, is in the payload that the owner's next
    claim returns, until the recovery window closes. *)
Theorem terminal_transition_keeps_steers k args now now' s s' j requested :
  transition_ok args = true -> terminal (JobStatusTransition.to args) = true ->
  mget (jobs s) k = Some j -> Job.userId j <> "" ->
  forallb item_ok (unsettled s k (Job.createdAt j)) = true ->
  unsettled s k (Job.createdAt j) <> [] ->
  transitionStatus k args now s = (Ok true, s') ->
  (now' < now + PARKED_STEERS_TTL_MS)%Z ->
  claims_steers (claimParkedSteersDetailed k (Job.userId j) (Job.tenantId j) requested now' s').1
    (recoverable s k j now).
Proof.
  intros Hok Ht Hj Hu Hi Hne H Hnow.
  apply transition_terminal_inv in H as (j0 & s1 & Hj0 & Hg & Hc & Hp & ->); [|done].
  simplify_eq. apply parkQueuedSteers_ok in Hp as [_ Hp]; try done.
  eapply parks_claim; [|done|].
  - eapply parks_same; [|by apply Hp]. pose proof (parking_map_receipts k
      (transition_receipts args (Job.createdAt (transitioned args j)) now)
      (set_job k (transitioned args j) s1)) as [= <- _ _ _]. done.
  - eapply inactive_no_recovery.
    + rewrite map_receipts_jobs. apply mget_mset_eq.
    + rewrite transitioned_status by done. rewrite terminal_active in Ht. by apply negb_true_iff.
Qed.

Lemma terminal_transition_keeps_steers_witness :
  exists j s', mget (jobs Demo.steered) "s1" = Some j /\
    transitionStatus "s1" (Demo.finish running aborted) 20 Demo.steered = (Ok true, s') /\
    claims_steers (claimParkedSteersDetailed "s1" (Job.userId j) (Job.tenantId j) V2 30 s').1
      (recoverable Demo.steered "s1" j 20) /\
    recoverable Demo.steered "s1" j 20 = ["st1"; "st2"].
Proof.
  set (s := Demo.steered). set (r := transitionStatus "s1" (Demo.finish running aborted) 20 s).
  assert (Hj : exists j, mget (jobs s) "s1" = Some j /\ Job.userId j = "u1" /\
    unsettled s "s1" (Job.createdAt j) =
      SteerQueueItem.mk "st1" (Some "c1") "text" "u1" 5 None None None ::
      [SteerQueueItem.mk "st2" None "text" "u1" 5 None None None] /\
    recoverable s "s1" j 20 = ["st1"; "st2"])
    by (eexists; split; [by vm_compute|]; by vm_compute).
  destruct Hj as (j & Hj & Hu & Hq & Hrec). exists j, r.2.
  assert (Hr : r = (Ok true, r.2)) by by vm_compute.
  split; [exact Hj|]. split; [exact Hr|]. split; [|exact Hrec].
  apply (terminal_transition_keeps_steers "s1" (Demo.finish running aborted) 20 30 s r.2 j V2).
  - by vm_compute.
  - by vm_compute.
  - exact Hj.
  - by rewrite Hu.
  - rewrite Hq. by vm_compute.
  - rewrite Hq. discriminate.
  - exact Hr.
  - by vm_compute.
Defined.

Lemma unsettled_parking s s' k e :
  parking s' = parking s -> unsettled s' k e = unsettled s k e.
Proof.
  intros [= _ Hj Hq Hc]. unfold unsettled, claimedSteerItems, queue_of. by rewrite Hj, Hq, Hc.
Qed.

Lemma install_job_parked a j now s :
  parkedSteers (install_job a j now s) =
  parkedSteers (leaseParkedSteer (CreateArgs.streamId a) (CreateArgs.recoveredSteerId a)
    (CreateArgs.userId a) (CreateArgs.tenantId a) (Job.createdAt j) now
    (retainGenerationEpoch (CreateArgs.streamId a) (Job.createdAt j) now
       (with_jobs (mset (jobs s) (CreateArgs.streamId a) j) s))).
Proof. done. Qed.

Lemma start_claim_parked a c s : parkedSteers (start_claim a c s) = parkedSteers s.
Proof. unfold start_claim. by repeat case_match. Qed.

Lemma retain_parked k c now s : parkedSteers (retainGenerationEpoch k c now s) = parkedSteers s.
Proof. unfold retainGenerationEpoch. by repeat case_match. Qed.

Lemma assertOwner_job a now s j :
  assertOwnerCompatible a now s = Ok tt -> mget (jobs s) (CreateArgs.streamId a) = Some j ->
  Job.userId j = CreateArgs.userId a /\ Job.userId j <> "" /\
  tenant_matches (Job.tenantId j) (CreateArgs.tenantId a) = true.
Proof.
  unfold assertOwnerCompatible. intros H Hj. rewrite Hj in H.
  destruct (bool_decide _) eqn:Hb; [|done]. apply bool_decide_eq_true in Hb as [? ?].
  destruct (tenant_matches _ _); done.
Qed.

Lemma validate_create_owner a now s s0 :
  validate_create a now s = (Ok tt, s0) -> assertOwnerCompatible a now s = Ok tt.
Proof.
  unfold validate_create. intros ([] & s1 & H & _)%bind_ok_inv. unfold lift_check in H.
  by injection H.
Qed.

Lemma new_job_recovered a c l p : Job.recoveredSteerId (new_job a c l p) = CreateArgs.recoveredSteerId a.
Proof. done. Qed.

(** C26. A creation that replaces a generation loses no accepted steer of it: the unsettled and
    the already parked steers of the replaced generation are all in the stream's recovery payload,
    readable by the creator for the recovery window; and unless the new turn itself recovers one
    of them, the creator's next claim returns them all. *)
Theorem replacement_keeps_steers a now now' s s' v j requested :
  createJob_commit a now s = (Ok v, s') ->
  mget (jobs s) (CreateArgs.streamId a) = Some j ->
  isParkedRecoveryCompatible s (CreateArgs.streamId a) j now = true ->
  forallb item_ok (unsettled s (CreateArgs.streamId a) (Job.createdAt j)) = true ->
  unsettled s (CreateArgs.streamId a) (Job.createdAt j) <> [] ->
  safe_epoch (Job.createdAt v) = true ->
  parks s' (CreateArgs.streamId a) (CreateArgs.userId a) (CreateArgs.tenantId a)
    (recoverable s (CreateArgs.streamId a) j now) (now + PARKED_STEERS_TTL_MS) /\
  (CreateArgs.recoveredSteerId a = None -> (now' < now + PARKED_STEERS_TTL_MS)%Z ->
   claims_steers (claimParkedSteersDetailed (CreateArgs.streamId a) (CreateArgs.userId a)
                    (CreateArgs.tenantId a) requested now' s').1
     (recoverable s (CreateArgs.streamId a) j now)).
Proof.
  intros H Hj Hc Hi Hne Hsafe. pose proof (createJob_commit_jobs _ _ _ _ _ H) as Hjobs.
  apply createJob_commit_inv in H as (s0 & s1 & s2 & p & j' & Hv & Hj0 & Hs1 & Hj' & _ & _ & _ &
    Hpark & -> & ->).
  set (k := CreateArgs.streamId a) in *.
  destruct (assertOwner_job a now s j (validate_create_owner _ _ _ _ Hv) Hj) as (Hu & Hune & Ht).
  cbn zeta in *. rewrite Hj in *. subst s1.
  pose proof (validate_create_frame parking ltac:(done) a now s) as Hp. rewrite Hv in Hp.
  change (parking s0 = parking s) in Hp.
  set (s1 := with_lastGenerationEpoch (Job.createdAt j') s0) in *.
  assert (Hp1 : parking s1 = parking s) by exact Hp.
  apply parkQueuedSteers_ok in Hpark as [_ Hparks].
  2: by rewrite (compatible_parking _ _ _ _ _ Hp1).
  2: done.
  2: by rewrite (unsettled_parking _ _ _ _ Hp1).
  rewrite (unsettled_parking _ _ _ _ Hp1), (parked_before_parking _ _ _ _ Hp1) in Hparks.
  specialize (Hparks Hne). change (Job.createdAt j' = _) with (Job.createdAt j' = _) in *.
  assert (Hfinal : parks (with_userJobMap
      (index_created j' (Some j) (userJobMap (start_claim a (Job.createdAt j') (install_job a j' now s2))))
      (start_claim a (Job.createdAt j') (install_job a j' now s2)))
      k (CreateArgs.userId a) (CreateArgs.tenantId a) (recoverable s k j now)
      (now + PARKED_STEERS_TTL_MS)).
  { eapply parks_same; [simpl; rewrite start_claim_parked, install_job_parked; reflexivity|].
    apply leaseParked_parks; [|unfold PARKED_STEERS_TTL_MS; lia | exact Hsafe].
    apply (parks_same s2); [by rewrite retain_parked|].
    rewrite <- Hu. eapply parks_tenant; [exact Ht | exact Hparks]. }
  split; [exact Hfinal|]. intros Hrec Hnow. eapply parks_claim; [exact Hfinal | done|].
  eapply (unrecovering_no_recovery _ _ _ _ j'); [|by rewrite Hj'].
  simpl. rewrite start_claim_jobs, install_job_jobs. apply mget_mset_eq.
Qed.

Lemma replacement_keeps_steers_witness :
  exists v s', createJob_commit (Demo.create "s1" "u1") 20 Demo.steered = (Ok v, s') /\
    claims_steers (claimParkedSteersDetailed "s1" "u1" None V2 30 s').1 ["st1"; "st2"].
Proof.
  set (s := Demo.steered).
  assert (Hv : match (createJob_commit (Demo.create "s1" "u1") 20 s).1 with
               | Ok v => safe_epoch (Job.createdAt v) | Throw _ => false end = true)
    by by vm_compute.
  destruct (createJob_commit (Demo.create "s1" "u1") 20 s) as [[v|e] s'] eqn:Hr; [|done].
  assert (Hj : match mget (jobs s) "s1" with
    | Some j => isParkedRecoveryCompatible s "s1" j 20 &&
                forallb item_ok (unsettled s "s1" (Job.createdAt j)) &&
                bool_decide (steer_ids (unsettled s "s1" (Job.createdAt j)) = ["st1"; "st2"]) &&
                bool_decide (recoverable s "s1" j 20 = ["st1"; "st2"])
    | None => false end = true) by by vm_compute.
  destruct (mget (jobs s) "s1") as [j|] eqn:Ej; [|done].
  apply andb_true_iff in Hj as [[[Hc Hi]%andb_true_iff Hids]%andb_true_iff Hrec].
  apply bool_decide_eq_true in Hids, Hrec.
  exists v, s'. split; [reflexivity|]. rewrite <- Hrec.
  apply (replacement_keeps_steers (Demo.create "s1" "u1") 20 30 s s' v j V2).
  - exact Hr.
  - exact Ej.
  - exact Hc.
  - exact Hi.
  - intros E. change (CreateArgs.streamId (Demo.create "s1" "u1")) with "s1" in E.
    rewrite E in Hids. discriminate.
  - exact Hv.
  - reflexivity.
  - reflexivity.
Defined.

(** Closing a run for good ([closeAndDrainSteers]) on the current generation returns the
    distinct unsettled steers, closes the queue to later messages, leaves nothing queued or
    claimed, and parks those steers, with what was parked before, for their owner. *)
Theorem closing_keeps_steers k e now s j :
  mget (jobs s) k = Some j -> epoch_matches e (Job.createdAt j) = true ->
  isParkedRecoveryCompatible s k j now = true -> Job.userId j <> "" ->
  let drained := dedup_on SteerQueueItem.steerId (claimedSteerItems s k e ++ queue_of s k) in
  forallb item_ok drained = true -> drained <> [] ->
  exists s', closeAndDrainSteers k e now s = (Ok drained, s') /\
    queue_of s' k = [] /\ mget (claimedSteers s') k = None /\ k ∈ closedSteerQueues s' /\
    parks s' k (Job.userId j) (Job.tenantId j) (steer_ids drained ++ parked_before s k now)
      (now + PARKED_STEERS_TTL_MS).
Proof.
  intros Hj He Hc Hu drained Hi Hne. unfold closeAndDrainSteers. rewrite Hj, He, Hc. cbn [negb].
  assert (Hcl : (if usesReceiptSafeProtocol (Some j) then claimedSteerItems s k e else []) =
                claimedSteerItems s k e).
  { unfold claimedSteerItems. rewrite Hj. by destruct (usesReceiptSafeProtocol (Some j)). }
  rewrite Hcl. fold drained. unfold bindM, modify, retM.
  set (s1 := with_closedSteerQueues (sadd (closedSteerQueues s) k) s).
  set (s2 := if mhas (steerQueues s1) k then set_queue k [] s1 else s1).
  set (s3 := settleSteerReceipts k drained leftover s2).
  set (s4 := with_claimedSteers (mdel (claimedSteers s3) k) s3).
  set (view := fun s => (steerQueues s, closedSteerQueues s, jobs s, parkedSteers s)).
  assert (H4 : view s4 = view s2) by (by apply (settle_frame view)).
  assert (H2 : parkedSteers s2 = parkedSteers s /\ jobs s2 = jobs s /\ queue_of s2 k = [] /\
               k ∈ closedSteerQueues s2).
  { subst s2 s1. unfold mhas, queue_of. simpl. case_bool_decide as Hh; simpl;
      rewrite ?mget_mset_eq, elem_sadd; split_and!; auto.
    destruct (mget (steerQueues s) k); [by destruct Hh | done]. }
  destruct H2 as (Hp2 & Hj2 & Hq2 & Hc2).
  assert (H4s : steerQueues s4 = steerQueues s2 /\ closedSteerQueues s4 = closedSteerQueues s2 /\
                parkedSteers s4 = parkedSteers s).
  { injection H4 as Hq Hcs Hjs Hps. split_and!; [exact Hq | exact Hcs | by rewrite <- Hp2]. }
  destruct H4s as (Hq & Hcs & Hps).
  assert (Hcl4 : mget (claimedSteers s4) k = None) by apply mget_mdel_eq.
  clearbody s4. clear H4 s3.
  destruct (parkLeftovers_parks k drained j now s4) as (s5 & H5 & Hparks); try done.
  { unfold isParkedRecoveryCompatible, live_parked in *. by rewrite Hps. }
  pose proof (parkLeftovers_frame (fun s => (steerQueues s, claimedSteers s, closedSteerQueues s))
    ltac:(done) k ltac:(done) drained (Some j) now s4) as Hf.
  rewrite H5 in *. injection Hf as Hf1 Hf2 Hf3. exists s5. split; [done|]. split_and!.
  - unfold queue_of in *. by rewrite Hf1, Hq.
  - by rewrite Hf2.
  - by rewrite Hf3, Hcs.
  - replace (parked_before s k now) with (parked_before s4 k now); [done|].
    unfold parked_before, live_parked. by rewrite Hps.
Qed.

Lemma closing_keeps_steers_witness :
  let s := Demo.steered in
  exists drained s', closeAndDrainSteers "s1" (Some 10%Z) 20 s = (Ok drained, s') /\
    steer_ids drained = ["st1"; "st2"] /\
    parks s' "s1" "u1" None ["st1"; "st2"] (20 + PARKED_STEERS_TTL_MS).
Proof.
  intros s.
  assert (Hj : match mget (jobs s) "s1" with
    | Some j => epoch_matches (Some 10%Z) (Job.createdAt j) &&
                isParkedRecoveryCompatible s "s1" j 20 &&
                bool_decide (Job.userId j = "u1" /\ Job.tenantId j = None)
    | None => false end = true) by by vm_compute.
  destruct (mget (jobs s) "s1") as [j|] eqn:Ej; [|done].
  apply andb_true_iff in Hj as [[He Hc]%andb_true_iff Ho].
  apply bool_decide_eq_true in Ho as [Hu Ht].
  set (drained := dedup_on SteerQueueItem.steerId
                    (claimedSteerItems s "s1" (Some 10%Z) ++ queue_of s "s1")).
  assert (Hids : steer_ids drained = ["st1"; "st2"]) by by vm_compute.
  destruct (closing_keeps_steers "s1" (Some 10%Z) 20 s j) as (s' & H & _ & _ & _ & Hp).
  - exact Ej.
  - exact He.
  - exact Hc.
  - by rewrite Hu.
  - by vm_compute.
  - intros E. fold drained in E. rewrite E in Hids. discriminate.
  - exists drained, s'. split; [exact H|]. split; [exact Hids|].
    rewrite <- Hu, <- Ht. eapply parks_sub; [|exact Hp]. intros i Hin. apply elem_of_app. left.
    fold drained. by rewrite Hids.
Defined.

(** ** The transition as a compare-and-set

    [transitionStatus], the one primitive on which every change of status of a job rests, as one
    test and one write, for the files that build on it.  What the test compares and the write
    leaves is written out in [StoreTransition]. *)

Lemma parkQueuedSteers_total k j now s :
  isParkedRecoveryCompatible s k j now = true ->
  exists s', parkQueuedSteers k j now s = (Ok tt, s').
Proof.
  intros Hc. unfold parkQueuedSteers. destruct (unsettled s k (Job.createdAt j)) as [|x q]; [eauto|].
  pose proof (parking_settle k (x :: q) leftover s) as Hp.
  rewrite <- (compatible_parking k s _ j now Hp) in Hc. unfold bindM, modify.
  set (s1 := settleSteerReceipts _ _ _ _) in *. clearbody s1.
  pose proof (prior_valid _ _ _ _ Hc) as Hpv. unfold parkLeftovers.
  destruct (prior_parked s1 k j now) as [prior protocol]. rewrite decide_False; [eauto|].
  intros Hn. rewrite forallb_forall in Hpv.
  specialize (Hpv _ (proj1 (list_elem_of_In _ _) Hn)). done.
Qed.

(** The compare: the guard of the caller, and, for a terminal status, that the queue can be parked
    for its owner. *)
Definition cas_allowed (s : Store) (k : string) (args : JobStatusTransition.t) (now : Z)
    (j : Job.t) : bool :=
  transition_guard args j &&
  (negb (terminal (JobStatusTransition.to args)) || isParkedRecoveryCompatible s k j now).

(** A store in which job [k] is [j'], and every other job what it was. *)
Definition job_written (s s' : Store) (k : string) (j' : Job.t) : Prop :=
  mget (jobs s') k = Some j' /\ forall k', k' <> k -> mget (jobs s') k' = mget (jobs s) k'.

Lemma job_written_core s s1 s2 k j' :
  jobs s1 = jobs s -> core s2 = core (set_job k j' s1) -> job_written s s2 k j'.
Proof.
  intros H1 Hc%core_jobs. unfold job_written. rewrite Hc. simpl. split.
  - apply mget_mset_eq.
  - intros k' Hk. by rewrite mget_mset_ne, H1.
Qed.

Lemma transition_cas k args now s j :
  mget (jobs s) k = Some j ->
  if cas_allowed s k args now j
  then exists s', transitionStatus k args now s = (Ok true, s') /\
                  job_written s s' k (transitioned args j)
  else transitionStatus k args now s = (Ok false, s).
Proof.
  intros Hj. unfold cas_allowed, transitionStatus. rewrite Hj.
  destruct (transition_guard args j); [|done]. simpl.
  assert (Hpark : terminal (JobStatusTransition.to args) && negb (isParkedRecoveryCompatible s k j now)
                  = false ->
    exists s1, (if terminal (JobStatusTransition.to args) then parkQueuedSteers k j now else retM tt) s
               = (Ok tt, s1) /\ jobs s1 = jobs s).
  { destruct (terminal _); [|by exists s]. simpl. intros Hc%negb_false_iff.
    destruct (parkQueuedSteers_total k j now s Hc) as [s1 Hs1]. exists s1. split; [done|].
    assert (Hf : jobs (parkQueuedSteers k j now s).2 = jobs s) by by apply parkQueuedSteers_frame.
    by rewrite Hs1 in Hf. }
  destruct (terminal (JobStatusTransition.to args) &&
            negb (isParkedRecoveryCompatible s k j now)) eqn:Hc.
  { apply andb_true_iff in Hc as [-> Hc%negb_true_iff]. by rewrite Hc. }
  destruct (Hpark eq_refl) as (s1 & Hs1 & Hjobs).
  replace (negb (terminal (JobStatusTransition.to args)) || isParkedRecoveryCompatible s k j now)
    with true by (symmetry; destruct (terminal _), (isParkedRecoveryCompatible _ _ _ _); done).
  unfold bindM, modify, retM in *. rewrite Hs1. eexists. split; [done|].
  apply (job_written_core _ s1); [done|].
  destruct (JobStatusTransition.to args);
    rewrite ?core_extendRecoveryLease; apply core_map_receipts.
Qed.
