(* ===== verification/StoreReaping.v ===== *)
(** * Cleanup and eviction

    The cleanup pass refines a policy that looks at one stream at a time: [cleanup_outcome] says
    what becomes of each job, and the pass never throws.  The jobs that the policy spares are
    untouched, and what it aborts or reaps hands its unsettled steers back. *)

From S2P Require Import Prelude JsMap Json StreamTypes SteerRecovery StoreState StoreSteers StoreParked.
From S2P Require Import StoreJobs StoreCleanup StoreFrame StoreRun StoreEpochs StoreParking.

(** ** The policy for one stream *)

Definition finished_outcome (s : Store) (j : Job.t) (now : Z) : option Job.t :=
  if cleanup_finished j now &&
     (bool_decide (terminal_ttl s j = 0)%Z ||
      bool_decide (terminal_ttl s j < now - default 0%Z (Job.completedAt j))%Z)
  then None else Some j.

Definition cleanup_outcome (s : Store) (k : string) (j : Job.t) (now : Z) : option Job.t :=
  match Job.status j with
  | requires_action =>
      if bool_decide (Job.terminalPersistencePending j = Some true) then
        if decide (now - persistence_started j < PAUSE_PERSISTENCE_TIMEOUT_MS)%Z then Some j
        else match Job.pendingActionId j with
        | Some a =>
            if isParkedRecoveryCompatible s k j now
            then finished_outcome s (transitioned (pause_timeout_transition j a now) j) now
            else Some j
        | None => Some j
        end
      else if isPendingActionStale j now && isParkedRecoveryCompatible s k j now
      then Some (expired_approval j now) else Some j
  | running =>
      if bool_decide (0 < staleJobTimeout s)%Z &&
         bool_decide (staleJobTimeout s < now - last_active s k j)%Z &&
         isParkedRecoveryCompatible s k j now
      then None else Some j
  | _ => finished_outcome s j now
  end.

(** ** Independence of the streams *)

(** Everything the pass reads or writes for stream [k]. *)
Definition kview (k : string) (s : Store) :=
  (mget (jobs s) k, mget (parkedSteers s) k, mget (lastActivity s) k, mget (steerQueues s) k,
   mget (claimedSteers s) k, (staleJobTimeout s, ttlAfterComplete s)).

Lemma kview_park k k' j now : k' <> k -> keeps (kview k) (parkQueuedSteers k' j now).
Proof.
  intros Hne. apply parkQueuedSteers_frame; try done; intros; unfold kview; simpl;
    by rewrite ?mget_mset_ne, ?mget_mdel_ne.
Qed.

Lemma kview_set_job k k' j s : k' <> k -> kview k (set_job k' j s) = kview k s.
Proof. intros Hne. unfold kview. simpl. by rewrite mget_mset_ne. Qed.

Lemma kview_transition k k' args now :
  k' <> k -> terminal (JobStatusTransition.to args) = true ->
  keeps (kview k) (transitionStatus k' args now).
Proof.
  intros Hne Ht s. unfold transitionStatus. destruct (mget (jobs s) k') as [j|]; [|done].
  case_match; [done|]. case_match; [done|]. rewrite Ht.
  apply keeps_bind; [by apply kview_park|]. intros [].
  apply keeps_bind; [intros ?; by apply kview_set_job|]. intros [].
  apply keeps_bind; [intros ?; by apply map_receipts_frame|]. intros [].
  apply keeps_bind; [|done]. intros s1. simpl. by destruct (JobStatusTransition.to args).
Qed.

Lemma kview_transitionDrain k k' args now :
  k' <> k -> terminal (JobStatusTransition.to args) = true ->
  keeps (kview k) (transitionStatusAndDrainSteers k' args now).
Proof.
  intros Hne Ht s. unfold transitionStatusAndDrainSteers. rewrite Ht. simpl.
  destruct (mget (jobs s) k'); [|done]. case_match; [done|].
  apply keeps_bind; [by apply kview_transition | done].
Qed.

Lemma kview_visit k k' now : k' <> k -> keeps (kview k) (cleanup_visit k' now).
Proof.
  intros Hne s. unfold cleanup_visit. destruct (mget (jobs s) k') as [j|]; [|done].
  apply keeps_bind.
  - intros s1. unfold cleanup_barrier. destruct (bool_decide _); [|done].
    destruct (decide _); [done|]. destruct (Job.pendingActionId j); [|done].
    apply keeps_bind; [by apply kview_transitionDrain | done].
  - intros [|]; [|done]. apply keeps_bind; [|done]. intros s1. unfold cleanup_job.
    destruct (mget (jobs s1) k') as [j1|]; [|done].
    case_match; [done|]. case_match; [case_match; [|done]|].
    + apply keeps_bind; [by apply kview_park|]. intros []. apply keeps_bind; [|done].
      intros s2. by apply kview_set_job.
    + case_match; [|done]. case_match; [|done].
      apply keeps_bind; [by apply kview_park | done].
Qed.

(** ** One visit *)

Lemma park_jobs k j now s s' r : parkQueuedSteers k j now s = (r, s') -> jobs s' = jobs s.
Proof. intros H. pose proof (core_parkQueued k j now s) as Hc. rewrite H in Hc. by apply core_jobs in Hc. Qed.

(** The configuration, which no pass writes. *)
Definition config (s : Store) := (ttlAfterComplete s, maxJobs s, staleJobTimeout s).

Lemma park_config k j now s s' r : parkQueuedSteers k j now s = (r, s') -> config s' = config s.
Proof.
  intros H. pose proof (core_parkQueued k j now s) as Hc. rewrite H in Hc.
  unfold config. by injection Hc as _ _ _ _ _ -> -> ->.
Qed.

(** The transition that fails a barrier wins whenever the recovery state is compatible. *)
Lemma pause_timeout_wins k j a now s :
  mget (jobs s) k = Some j -> Job.status j = requires_action -> Job.pendingActionId j = Some a ->
  transitionStatusAndDrainSteers k (pause_timeout_transition j a now) now s =
  if isParkedRecoveryCompatible s k j now then
    let '(_, s1) := parkQueuedSteers k j now s in
    let j' := transitioned (pause_timeout_transition j a now) j in
    (Ok (Some (unsettled s k (Job.createdAt j))),
     map_receipts k
       (transition_receipts (pause_timeout_transition j a now) (Job.createdAt j') now)
       (set_job k j' s1))
  else (Ok None, s).
Proof.
  intros Hj Hst Ha. unfold transitionStatusAndDrainSteers. simpl. rewrite Hj.
  assert (Hg : transition_guard (pause_timeout_transition j a now) j = true).
  { unfold transition_guard. simpl. by rewrite Hst, Ha, !bool_decide_true. }
  rewrite Hg. simpl. unfold bindM at 1, transitionStatus. rewrite Hj, Hg. simpl.
  destruct (isParkedRecoveryCompatible s k j now) eqn:Hc; [|done]. simpl.
  destruct (parkQueuedSteers_total k j now s Hc) as [s1 Hs1].
  unfold bindM. rewrite Hs1. done.
Qed.

(** What a visit leaves: the job of the policy, or the same generation marked for deletion. *)
Record visited (k : string) (s s' : Store) (j : Job.t) (now : Z) (r : option Z) : Prop := {
  v_job : exists j', mget (jobs s') k = Some j' /\ Job.createdAt j' = Job.createdAt j /\
                     cleanup_outcome s k j now = match r with Some _ => None | None => Some j' end;
  v_epoch : forall e, r = Some e -> e = Job.createdAt j
}.

Lemma finished_visit k s j now :
  mget (jobs s) k = Some j -> terminal (Job.status j) = true ->
  exists b, cleanup_job k now s = (Ok b, s) /\
            finished_outcome s j now = if b then None else Some j.
Proof.
  intros Hj Ht. unfold cleanup_job, finished_outcome. rewrite Hj.
  destruct (cleanup_finished j now); [by eexists|].
  exists false. by destruct (Job.status j); rewrite ?andb_false_r.
Qed.

Lemma running_visit k s j now :
  mget (jobs s) k = Some j -> Job.status j = running ->
  exists b s', cleanup_job k now s = (Ok b, s') /\ mget (jobs s') k = Some j /\
               cleanup_outcome s k j now = if b then None else Some j.
Proof.
  intros Hj Hst. unfold cleanup_job, cleanup_outcome. rewrite Hj, Hst.
  unfold cleanup_finished. rewrite Hst. simpl. rewrite andb_true_r.
  destruct (_ && _); simpl; [|by eexists _, _].
  destruct (isParkedRecoveryCompatible s k j now) eqn:Hc; simpl; [|by eexists _, _].
  destruct (parkQueuedSteers_total k j now s Hc) as [s1 Hs1]. unfold bindM. rewrite Hs1.
  exists true, s1. split_and!; [done | by rewrite (park_jobs _ _ _ _ _ _ Hs1) | done].
Qed.

Lemma approval_visit k s j now :
  mget (jobs s) k = Some j -> Job.status j = requires_action ->
  Job.terminalPersistencePending j <> Some true ->
  exists j' s', cleanup_job k now s = (Ok false, s') /\ mget (jobs s') k = Some j' /\
                Job.createdAt j' = Job.createdAt j /\ cleanup_outcome s k j now = Some j'.
Proof.
  intros Hj Hst Hp. unfold cleanup_job, cleanup_outcome. rewrite Hj, Hst.
  rewrite (bool_decide_eq_false_2 (_ = Some true)) by done.
  unfold cleanup_finished. rewrite Hst. simpl.
  destruct (isPendingActionStale j now); simpl; [|rewrite andb_false_r; by exists j, s].
  destruct (isParkedRecoveryCompatible s k j now) eqn:Hc; [|by exists j, s].
  destruct (parkQueuedSteers_total k j now s Hc) as [s1 Hs1]. unfold bindM. rewrite Hs1.
  eexists _, _. split; [done|]. split; [apply mget_mset_eq | done].
Qed.

Lemma barrier_visit k s j now :
  mget (jobs s) k = Some j -> Job.status j = requires_action ->
  Job.terminalPersistencePending j = Some true ->
  exists r s', cleanup_visit k now s = (Ok r, s') /\ visited k s s' j now r.
Proof.
  intros Hj Hst Hp. unfold cleanup_visit. rewrite Hj. unfold cleanup_barrier.
  rewrite bool_decide_true by done.
  assert (Hout : cleanup_outcome s k j now =
    if decide (now - persistence_started j < PAUSE_PERSISTENCE_TIMEOUT_MS)%Z then Some j
    else match Job.pendingActionId j with
      | Some a => if isParkedRecoveryCompatible s k j now
                  then finished_outcome s (transitioned (pause_timeout_transition j a now) j) now
                  else Some j
      | None => Some j end)
    by (unfold cleanup_outcome; rewrite Hst, (bool_decide_eq_true_2 _ Hp); reflexivity).
  assert (Hkeep : cleanup_outcome s k j now = Some j -> visited k s s j now None)
    by (intros ?; split; [eauto | done]).
  destruct (decide _); [by exists None, s; auto|].
  destruct (Job.pendingActionId j) as [a|] eqn:Ha; [|by exists None, s; auto].
  unfold bindM at 1 2. rewrite (pause_timeout_wins k j a now s Hj Hst Ha).
  destruct (isParkedRecoveryCompatible s k j now) eqn:Hc; [|by exists None, s; auto].
  destruct (parkQueuedSteers_total k j now s Hc) as [s1 Hs1]. rewrite Hs1.
  pose proof (park_config _ _ _ _ _ _ Hs1) as Hcfg. simpl.
  set (j' := transitioned (pause_timeout_transition j a now) j) in *.
  set (s2 := map_receipts _ _ _).
  assert (Hj2 : mget (jobs s2) k = Some j') by (subst s2; rewrite map_receipts_jobs; apply mget_mset_eq).
  assert (Hcfg2 : config s2 = config s) by (rewrite <- Hcfg; exact (map_receipts_frame config ltac:(done) k _ (set_job k j' s1))).
  destruct (finished_visit k s2 j' now Hj2) as (b & Hb & Hf); [done|].
  unfold bindM, retM. rewrite Hb. exists (if b then Some (Job.createdAt j) else None), s2.
  split; [done|]. split.
  + exists j'. split; [done|]. split; [done|]. rewrite Hout.
    replace (finished_outcome s j' now) with (finished_outcome s2 j' now).
    * rewrite Hf. by destruct b.
    * unfold finished_outcome, terminal_ttl. injection Hcfg2 as Httl _ _. by rewrite Httl.
  + destruct b; [by intros ? [= <-] | done].
Qed.

Lemma plain_visit k s j now :
  mget (jobs s) k = Some j ->
  ~ (Job.status j = requires_action /\ Job.terminalPersistencePending j = Some true) ->
  exists r s', cleanup_visit k now s = (Ok r, s') /\ visited k s s' j now r.
Proof.
  intros Hj Hb. unfold cleanup_visit. rewrite Hj. unfold cleanup_barrier.
  rewrite bool_decide_false by done. unfold bindM, retM.
  destruct (terminal (Job.status j)) eqn:Ht.
  { destruct (finished_visit k s j now Hj Ht) as (b & Hb' & Hf). rewrite Hb'.
    exists (if b then Some (Job.createdAt j) else None), s. split; [done|]. split.
    - exists j. split; [done|]. split; [done|]. transitivity (finished_outcome s j now).
      + unfold cleanup_outcome. by destruct (Job.status j).
      + rewrite Hf. by destruct b.
    - destruct b; [by intros ? [= <-] | done]. }
  destruct (Job.status j) eqn:Hst; try done.
  + destruct (running_visit k s j now Hj Hst) as (b & s' & Hb' & Hj' & Ho). rewrite Hb'.
    exists (if b then Some (Job.createdAt j) else None), s'. split; [done|]. split.
    * exists j. split; [done|]. split; [done|]. rewrite Ho. by destruct b.
    * destruct b; [by intros ? [= <-] | done].
  + destruct (approval_visit k s j now Hj Hst) as (j' & s' & Hb' & Hj' & He & Ho);
      [naive_solver|]. rewrite Hb'. exists None, s'. split; [done|]. split; [eauto | done].
Qed.

Lemma visit_spec k s j now :
  mget (jobs s) k = Some j -> exists r s', cleanup_visit k now s = (Ok r, s') /\ visited k s s' j now r.
Proof.
  intros Hj. destruct (decide (Job.status j = requires_action /\
                               Job.terminalPersistencePending j = Some true)) as [[Hst Hp]|Hb].
  - by apply barrier_visit.
  - by apply plain_visit.
Qed.

(** ** The loop *)

Lemma visit_total k now s : exists r s', cleanup_visit k now s = (Ok r, s').
Proof.
  destruct (mget (jobs s) k) as [j|] eqn:Hj.
  - destruct (visit_spec k s j now Hj) as (r & s' & H & _). eauto.
  - unfold cleanup_visit. rewrite Hj. eauto.
Qed.

Lemma loop_total l now s : exists d s', cleanup_jobs l now s = (Ok d, s').
Proof.
  revert s. induction l as [|k l IH]; intros s; simpl; [by eexists _, _|].
  destruct (visit_total k now s) as (r & s1 & H1). destruct (IH s1) as (d & s2 & H2).
  unfold bindM. rewrite H1, H2. by eexists _, _.
Qed.

(** A stream outside the list is left alone. *)
Lemma loop_frame k l now s d s' :
  k ∉ l -> cleanup_jobs l now s = (Ok d, s') ->
  kview k s' = kview k s /\ forall e, (k, e) ∉ d.
Proof.
  revert s d s'. induction l as [|k' l IH]; intros s d s' Hk; simpl.
  { intros [= <- <-]. split; [done | set_solver]. }
  apply not_elem_of_cons in Hk as [Hne Hk].
  intros (r & s1 & H1 & (d1 & s2 & H2 & H3)%bind_ok_inv)%bind_ok_inv.
  injection H3 as <- <-. destruct (IH _ _ _ Hk H2) as [Hv Hd].
  pose proof (kview_visit k k' now ltac:(done) s) as Hf. rewrite H1 in Hf. simpl in Hf.
  split; [congruence|]. intros e. destruct r; [|apply Hd].
  rewrite elem_of_cons. intros [[=]|He]; [done | by apply (Hd e)].
Qed.

(** A stream in the list is visited once, in the state it had at the start. *)
Lemma loop_at k l now s d s' :
  NoDup l -> k ∈ l -> cleanup_jobs l now s = (Ok d, s') ->
  exists s1 r s2, kview k s1 = kview k s /\ cleanup_visit k now s1 = (Ok r, s2) /\
                  kview k s' = kview k s2 /\ forall e, (k, e) ∈ d <-> r = Some e.
Proof.
  revert s d s'. induction l as [|k' l IH]; intros s d s' Hnd Hk; [set_solver|].
  apply NoDup_cons in Hnd as [Hk' Hnd]. simpl.
  intros (r & s1 & H1 & (d1 & s2 & H2 & H3)%bind_ok_inv)%bind_ok_inv. injection H3 as <- <-.
  destruct (decide (k = k')) as [<-|Hne].
  - exists s, r, s1. destruct (loop_frame _ _ _ _ _ _ Hk' H2) as [Hv Hd].
    split_and!; try done. intros e. destruct r as [e'|].
    + rewrite elem_of_cons. split.
      * intros [[= ->]|He]; [done | by destruct (Hd e)].
      * intros [= ->]. by left.
    + split; [intros He; by destruct (Hd e) | done].
  - apply elem_of_cons in Hk as [?|Hk]; [done|].
    destruct (IH _ _ _ Hnd Hk H2) as (sa & ra & sb & Ha & Hb & Hc & Hd).
    pose proof (kview_visit k k' now ltac:(done) s) as Hf. rewrite H1 in Hf. simpl in Hf.
    exists sa, ra, sb. split_and!; try done; [congruence|].
    intros e. rewrite <- Hd. destruct r; [|done]. rewrite elem_of_cons. naive_solver.
Qed.

(** ** The deletions *)

Lemma deleteJob_other k k' e now s :
  k <> k' -> mget (jobs (deleteJob k e now s).2) k' = mget (jobs s) k'.
Proof.
  intros Hne. unfold deleteJob. destruct (mget (jobs s) k); [|done]. case_match; [done|].
  simpl. by rewrite mget_mdel_ne, retain_jobs.
Qed.

Lemma delete_all_absent k d now s :
  mget (jobs s) k = None -> mget (jobs (delete_all d now s)) k = None.
Proof.
  unfold delete_all. revert s. induction d as [|[k' e] d IH]; intros s Hs; simpl; [done|].
  apply IH. destruct (mget (jobs (deleteJob k' (Some e) now s).2) k) eqn:E; [|done].
  destruct (q_jobs _ _ (deleteJob_quiet k' (Some e) now s) _ _ E) as (j & Hj & _). congruence.
Qed.

Lemma delete_all_spared k d now s :
  (forall e, (k, e) ∉ d) -> mget (jobs (delete_all d now s)) k = mget (jobs s) k.
Proof.
  unfold delete_all. revert s. induction d as [|[k' e] d IH]; intros s Hd; simpl; [done|].
  assert (Hne : k' <> k) by (intros ->; apply (Hd e); by left).
  rewrite IH; [by apply deleteJob_other|]. intros e' He'. apply (Hd e'). by right.
Qed.

Lemma delete_all_hit k d now s j :
  mget (jobs s) k = Some j -> (k, Job.createdAt j) ∈ d ->
  mget (jobs (delete_all d now s)) k = None.
Proof.
  unfold delete_all. revert s. induction d as [|[k' e] d IH]; intros s Hj Hd; simpl; [set_solver|].
  destruct (mget (jobs (deleteJob k' (Some e) now s).2) k) as [j'|] eqn:E.
  - assert (Hj' : j' = j).
    { destruct (decide (k' = k)) as [->|Hne].
      - unfold deleteJob in E. rewrite Hj in E. case_match; simplify_eq/=; [done|].
        by rewrite mget_mdel_eq in E.
      - rewrite deleteJob_other in E by done. congruence. }
    subst j'. apply IH; [done|]. apply elem_of_cons in Hd as [[= <- <-]|?]; [|done].
    unfold deleteJob in E. rewrite Hj in E. simpl in E. rewrite bool_decide_true in E by done.
    simpl in E. by rewrite mget_mdel_eq in E.
  - by apply delete_all_absent.
Qed.

(** ** The pass *)

Lemma outcome_view k s s' j now :
  kview k s' = kview k s -> cleanup_outcome s' k j now = cleanup_outcome s k j now.
Proof.
  intros [= _ Hp Ha _ _ Hst Httl].
  unfold cleanup_outcome, finished_outcome, terminal_ttl, last_active, isParkedRecoveryCompatible,
    live_parked. by rewrite Hp, Ha, Hst, Httl.
Qed.

Lemma prune_expired_jobs now s : jobs (prune_expired now s) = jobs s.
Proof. done. Qed.

Lemma delete_all_parked l now s : parkedSteers (delete_all l now s) = parkedSteers s.
Proof.
  unfold delete_all. revert s. induction l as [|e l IH]; intros s; simpl; [done|].
  by rewrite IH, deleteJob_parked.
Qed.

Lemma cleanup_refines_policy_aux now s :
  mwf (jobs s) ->
  exists d s1, cleanup_jobs (mkeys (jobs s)) now (prune_expired now s) = (Ok d, s1) /\
    cleanup now s = (Ok (length d), delete_all d now (prune_receipts now s1)) /\
    forall k, mget (jobs (delete_all d now (prune_receipts now s1))) k =
      mget (jobs s) k ≫= fun j => cleanup_outcome (prune_expired now s) k j now.
Proof.
  intros Hwf. unfold cleanup. set (s0 := prune_expired now s).
  destruct (loop_total (mkeys (jobs s0)) now s0) as (d & s1 & Hl).
  exists d, s1. split; [exact Hl|]. split.
  { unfold bindM, modify, gets, retM. fold s0. by rewrite Hl. }
  intros k. change (jobs s) with (jobs s0). destruct (mget (jobs s0) k) as [j|] eqn:Hj; simpl.
  - assert (Hk : k ∈ mkeys (jobs s0)) by (apply mkeys_mget; by rewrite Hj).
    destruct (loop_at k _ _ _ _ _ Hwf Hk Hl) as (sa & r & sb & Ha & Hv & Hb & Hd).
    assert (Hja : mget (jobs sa) k = Some j) by (injection Ha as -> _; done).
    destruct (visit_spec k sa j now Hja) as (r' & sb' & Hv' & [Hjob Hepoch]).
    rewrite Hv in Hv'. injection Hv' as <- <-. destruct Hjob as (j' & Hj' & Hc & Ho).
    rewrite (outcome_view _ _ _ _ _ Ha) in Ho. rewrite Ho.
    assert (Hj1 : mget (jobs s1) k = Some j') by (injection Hb as -> _; done).
    destruct r as [e|].
    + apply (delete_all_hit _ _ _ _ j'); [done|]. apply Hd. rewrite (Hepoch e eq_refl). congruence.
    + rewrite delete_all_spared; [done|]. intros e He. by apply Hd in He.
  - apply delete_all_absent. simpl. assert (Hk : k ∉ mkeys (jobs s0)) by by apply mget_None.
    destruct (loop_frame k _ _ _ _ _ Hk Hl) as [Hv _]. injection Hv as -> _. done.
Qed.

(** C17. The cleanup pass never throws, and what it does to the job table is exactly the per-job
    policy applied to every stream, independently of the others and of the iteration order:
    a job is kept, finalised or deleted as [cleanup_outcome] says of its own record. *)
Theorem cleanup_refines_policy now s :
  mwf (jobs s) ->
  exists n s', cleanup now s = (Ok n, s') /\
    forall k, mget (jobs s') k =
      mget (jobs s) k ≫= fun j => cleanup_outcome (prune_expired now s) k j now.
Proof.
  intros Hwf. destruct (cleanup_refines_policy_aux now s Hwf) as (d & s1 & _ & H & Hk). eauto.
Qed.

Lemma cleanup_refines_policy_witness :
  exists n s', cleanup 5000000 Demo.steered = (Ok n, s') /\ mget (jobs s') "s1" = None.
Proof.
  destruct (cleanup_refines_policy 5000000 Demo.steered) as (n & s' & H & Hk).
  - vm_compute. apply NoDup_singleton.
  - exists n, s'. split; [exact H|]. rewrite Hk. by vm_compute.
Defined.

(** ** Nothing is lost *)

Definition handed_back (s s' : Store) (k : string) (j : Job.t) (now : Z) : Prop :=
  parks s' k (Job.userId j) (Job.tenantId j) (steer_ids (unsettled s k (Job.createdAt j)))
    (now + PARKED_STEERS_TTL_MS).

Lemma parks_view s s' k u t ids until :
  mget (parkedSteers s') k = mget (parkedSteers s) k ->
  parks s k u t ids until -> parks s' k u t ids until.
Proof. intros He [(p & v & l & H)]. split. exists p, v, l. by rewrite He. Qed.

Section handing_back.
Context (k : string) (s : Store) (j : Job.t) (now : Z).
Context (Hj : mget (jobs s) k = Some j) (Hu : Job.userId j <> "").
Context (Hi : forallb item_ok (unsettled s k (Job.createdAt j)) = true).
Context (Hne : unsettled s k (Job.createdAt j) <> []).

Lemma park_hands_back s1 :
  isParkedRecoveryCompatible s k j now = true -> parkQueuedSteers k j now s = (Ok tt, s1) ->
  handed_back s s1 k j now.
Proof using Hu Hi Hne.
  intros Hc Hs1. apply parkQueuedSteers_ok in Hs1 as [_ Hp]; try done.
  eapply parks_sub; [|by apply Hp]. intros i ?. apply elem_of_app. by left.
Qed.

Lemma cleanup_job_hands_back b s' :
  terminal (Job.status j) = false -> cleanup_job k now s = (Ok b, s') ->
  s' = s /\ b = false \/ handed_back s s' k j now.
Proof using Hj Hu Hi Hne.
  intros Ht. unfold cleanup_job. rewrite Hj. unfold cleanup_finished. rewrite Ht. simpl.
  destruct (isParkedRecoveryCompatible s k j now) eqn:Hc.
  2: { repeat case_match; intros [= <- <-]; by left. }
  destruct (parkQueuedSteers_total k j now s Hc) as [s1 Hs1].
  pose proof (park_hands_back s1 Hc Hs1) as Hb. unfold bindM, modify, retM. rewrite Hs1.
  repeat case_match; intros [= <- <-]; auto. right. by apply (parks_view s1).
Qed.

Lemma visit_hands_back r s' :
  active (Job.status j) = true -> cleanup_visit k now s = (Ok r, s') ->
  cleanup_outcome s k j now = Some j \/ handed_back s s' k j now.
Proof using Hj Hu Hi Hne.
  intros Hact Hv. destruct (visit_spec k s j now Hj) as (r' & s2 & Hv' & [Hjob _]).
  rewrite Hv in Hv'. injection Hv' as <- <-.
  assert (Ht : terminal (Job.status j) = false) by by rewrite terminal_active, Hact.
  unfold cleanup_visit in Hv. rewrite Hj in Hv. unfold cleanup_barrier in Hv.
  destruct (decide (Job.status j = requires_action /\ Job.terminalPersistencePending j = Some true))
    as [[Hst Hp]|Hb].
  - rewrite bool_decide_true in Hv by done. revert Hv. case_decide as Hd.
    { intros _. left. unfold cleanup_outcome.
      by rewrite Hst, (bool_decide_eq_true_2 _ Hp), decide_True. }
    destruct (Job.pendingActionId j) as [a|] eqn:Ha.
    2: { intros _. left. unfold cleanup_outcome.
         by rewrite Hst, (bool_decide_eq_true_2 _ Hp), decide_False, Ha. }
    unfold bindM at 1 2. rewrite (pause_timeout_wins k j a now s Hj Hst Ha).
    destruct (isParkedRecoveryCompatible s k j now) eqn:Hc.
    2: { intros _. left. unfold cleanup_outcome.
         by rewrite Hst, (bool_decide_eq_true_2 _ Hp), decide_False, Ha, Hc. }
    destruct (parkQueuedSteers_total k j now s Hc) as [s1 Hs1]. rewrite Hs1. simpl.
    set (j' := transitioned (pause_timeout_transition j a now) j).
    set (s3 := map_receipts _ _ _). intros Hv. right.
    assert (Hj3 : mget (jobs s3) k = Some j')
      by (subst s3; rewrite map_receipts_jobs; apply mget_mset_eq).
    destruct (finished_visit k s3 j' now Hj3) as (b & Hb & _); [done|].
    unfold bindM, retM in Hv. rewrite Hb in Hv. injection Hv as _ <-.
    apply (parks_view s1); [|by apply park_hands_back].
    apply (map_receipts_frame (fun s => mget (parkedSteers s) k) ltac:(done) k _ (set_job k j' s1)).
  - rewrite bool_decide_false in Hv by done. unfold bindM, retM in Hv.
    destruct (cleanup_job k now s) as [[b|] s3] eqn:Hcj; [|done]. injection Hv as <- <-.
    destruct (cleanup_job_hands_back b s3 Ht Hcj) as [[-> ->]|?]; [|by right].
    left. destruct Hjob as (j' & Hj' & _ & Ho). rewrite Ho. congruence.
Qed.
End handing_back.

(** C36. Whatever active job the pass aborts or reaps, its unsettled steers are in the stream's
    recovery payload afterwards, readable by the job's owner for the recovery window. *)
Theorem cleanup_keeps_steers now s k j n s' :
  mwf (jobs s) -> mget (jobs s) k = Some j -> active (Job.status j) = true ->
  Job.userId j <> "" -> forallb item_ok (unsettled s k (Job.createdAt j)) = true ->
  unsettled s k (Job.createdAt j) <> [] ->
  cleanup now s = (Ok n, s') -> mget (jobs s') k <> Some j ->
  parks s' k (Job.userId j) (Job.tenantId j) (steer_ids (unsettled s k (Job.createdAt j)))
    (now + PARKED_STEERS_TTL_MS).
Proof.
  intros Hwf Hj Hact Hu Hi Hne Hrun Hgone.
  destruct (cleanup_refines_policy_aux now s Hwf) as (d & s1 & Hl & Hrun2 & Hpol).
  rewrite Hrun in Hrun2. injection Hrun2 as -> ->.
  set (s0 := prune_expired now s) in *.
  assert (Hk : k ∈ mkeys (jobs s0)) by (apply mkeys_mget; simpl; by rewrite Hj).
  destruct (loop_at k _ _ _ _ _ Hwf Hk Hl) as (sa & r & sb & Ha & Hv & Hb & _).
  assert (Hun : unsettled sa k (Job.createdAt j) = unsettled s k (Job.createdAt j)).
  { injection Ha as Ha1 _ _ Ha4 Ha5 _ _. unfold unsettled, claimedSteerItems, queue_of.
    by rewrite Ha1, Ha4, Ha5. }
  assert (Hja : mget (jobs sa) k = Some j) by (injection Ha as -> _; done).
  destruct (visit_hands_back k sa j now Hja Hu) with (r := r) (s' := sb) as [Ho|Hh];
    try (by rewrite Hun); try done.
  - destruct Hgone. rewrite Hpol. simpl. rewrite Hj. simpl.
    by rewrite (outcome_view _ _ _ _ _ Ha) in Ho.
  - unfold handed_back in Hh. rewrite Hun in Hh. apply (parks_view sb); [|exact Hh].
    rewrite delete_all_parked. injection Hb as _ Hb2 _. exact Hb2.
Qed.

Lemma cleanup_keeps_steers_witness :
  exists n s', cleanup 5000000 Demo.steered = (Ok n, s') /\ mget (jobs s') "s1" = None /\
    parks s' "s1" "u1" None ["st1"; "st2"] (5000000 + PARKED_STEERS_TTL_MS).
Proof.
  set (s := Demo.steered).
  destruct (cleanup 5000000 s) as [[n|e] s'] eqn:Hrun; [|by vm_compute in Hrun].
  exists n, s'. split; [reflexivity|].
  assert (Hgone : mget (jobs s') "s1" = None).
  { assert (E : mget (jobs (cleanup 5000000 s).2) "s1" = None) by by vm_compute.
    by rewrite Hrun in E. }
  split; [exact Hgone|].
  assert (Hj : match mget (jobs s) "s1" with
    | Some j => active (Job.status j) && forallb item_ok (unsettled s "s1" (Job.createdAt j)) &&
                bool_decide (steer_ids (unsettled s "s1" (Job.createdAt j)) = ["st1"; "st2"]) &&
                bool_decide (Job.userId j = "u1" /\ Job.tenantId j = None)
    | None => false end = true) by by vm_compute.
  destruct (mget (jobs s) "s1") as [j|] eqn:Ej; [|done].
  apply andb_true_iff in Hj as [[[Hact Hi]%andb_true_iff Hids]%andb_true_iff Ho].
  apply bool_decide_eq_true in Hids, Ho. destruct Ho as [Hu Ht].
  rewrite <- Hids, <- Hu, <- Ht. apply (cleanup_keeps_steers 5000000 s "s1" j n s').
  - vm_compute. apply NoDup_singleton.
  - exact Ej.
  - exact Hact.
  - by rewrite Hu.
  - exact Hi.
  - intros E. rewrite E in Hids. discriminate.
  - exact Hrun.
  - by rewrite Hgone.
Defined.

(** ** Eviction *)

Lemma oldest_job_None best l : oldest_job best l = None -> best = None /\ l = [].
Proof.
  revert best. induction l as [|e l IH]; intros best; simpl; [done|].
  intros [H _]%IH. destruct best; [case_decide|]; done.
Qed.

Lemma createJob_begin_inv a now s s' :
  createJob_begin a now s = (Ok tt, s') ->
  exists s0, parking s0 = parking s /\ maxJobs s0 = maxJobs s /\
    (if at_capacity (CreateArgs.streamId a) s0 then evictOldest now s0 else (Ok tt, s0)) =
    (Ok tt, s').
Proof.
  unfold createJob_begin. intros ([] & s1 & H1 & ([] & s2 & H2 & ([] & s3 & H3 & H)%bind_ok_inv)
    %bind_ok_inv)%bind_ok_inv. unfold lift_check in H1, H3.
  injection H1 as _ <-. injection H3 as _ <-. exists s2. split_and!; [| |exact H].
  - pose proof (validate_create_frame parking ltac:(done) a now s) as F. by rewrite H2 in F.
  - pose proof (validate_create_frame maxJobs ltac:(done) a now s) as F. by rewrite H2 in F.
Qed.

(** When the table is full, a creation evicts exactly one job, the one created first, and
    the evicted job's unsettled steers stay readable by its owner. *)
Theorem eviction_keeps_steers a now s s' :
  mwf (jobs s) -> jobs s <> [] -> at_capacity (CreateArgs.streamId a) s = true ->
  createJob_begin a now s = (Ok tt, s') ->
  exists k j, mget (jobs s) k = Some j /\
    (forall k' j', mget (jobs s) k' = Some j' -> (Job.createdAt j <= Job.createdAt j')%Z) /\
    (k <> "" -> forall k', mget (jobs s') k' = if decide (k = k') then None else mget (jobs s) k') /\
    (k <> "" -> isParkedRecoveryCompatible s k j now = true -> Job.userId j <> "" ->
     forallb item_ok (unsettled s k (Job.createdAt j)) = true ->
     unsettled s k (Job.createdAt j) <> [] -> handed_back s s' k j now).
Proof.
  intros Hwf Hne Hcap H.
  apply createJob_begin_inv in H as (s0 & Hp & Hm & H).
  assert (Hj0 : jobs s0 = jobs s) by (by injection Hp as _ ? _ _).
  replace (at_capacity (CreateArgs.streamId a) s0) with true in H
    by (rewrite <- Hcap; unfold at_capacity; by rewrite Hj0, Hm).
  unfold evictOldest in H. rewrite Hj0 in H.
  destruct (oldest_job None (jobs s)) as [[k j]|] eqn:Ho; [|by apply oldest_job_None in Ho as [_ ?]].
  apply oldest_job_Some in Ho as [[?|Hin] Hmin]; [done|].
  assert (Hj : mget (jobs s) k = Some j) by by apply elem_mget.
  exists k, j. split; [done|]. split.
  { intros k' j' Hj'. apply (Hmin (k', j')). right. by apply mget_elem. }
  destruct (decide (k = "")) as [|Hk]; [done|]. apply bind_ok_inv in H as ([] & s1 & H1 & H).
  injection H as <-. pose proof (park_jobs _ _ _ _ _ _ H1) as Hj1. rewrite Hj0 in Hj1.
  split; intros _.
  - intros k'. case_decide as Hkk; [subst k'|].
    + apply (deleteJob_gone _ _ _ _ j); [by rewrite Hj1 | by apply bool_decide_eq_true].
    + rewrite deleteJob_other by done. by rewrite Hj1.
  - intros Hc Hu Hi Hun. apply (parks_view s1); [by rewrite deleteJob_parked|].
    pose proof (unsettled_parking _ _ k (Job.createdAt j) Hp) as Hun0.
    rewrite <- Hun0 in Hi, Hun. rewrite <- (compatible_parking _ _ _ _ _ Hp) in Hc.
    unfold handed_back. rewrite <- Hun0. by apply park_hands_back.
Qed.

Lemma eviction_keeps_steers_witness :
  exists s', createJob_begin (Demo.create "s2" "u2") 20 (Demo.full) = (Ok tt, s') /\
    mget (jobs s') "s1" = None /\ parks s' "s1" "u1" None ["st1"; "st2"] (20 + PARKED_STEERS_TTL_MS).
Proof.
  set (s := Demo.full).
  destruct (createJob_begin (Demo.create "s2" "u2") 20 s) as [[[]|e] s'] eqn:Hrun;
    [|by vm_compute in Hrun].
  exists s'. split; [reflexivity|].
  destruct (eviction_keeps_steers (Demo.create "s2" "u2") 20 s s') as (k & j & Hj & _ & Hg & Hh).
  - vm_compute. apply NoDup_singleton.
  - by vm_compute.
  - by vm_compute.
  - exact Hrun.
  - assert (Hk : k = "s1").
    { assert (E : mkeys (jobs s) = ["s1"]) by by vm_compute.
      assert (Hin : k ∈ mkeys (jobs s)) by (apply mkeys_mget; by rewrite Hj).
      rewrite E in Hin. by apply list_elem_of_singleton in Hin. }
    subst k. split; [rewrite Hg by done; apply decide_True; done|].
    assert (Hf : match mget (jobs s) "s1" with
      | Some j => isParkedRecoveryCompatible s "s1" j 20 &&
                  forallb item_ok (unsettled s "s1" (Job.createdAt j)) &&
                  bool_decide (steer_ids (unsettled s "s1" (Job.createdAt j)) = ["st1"; "st2"]) &&
                  bool_decide (Job.userId j = "u1" /\ Job.tenantId j = None)
      | None => false end = true) by by vm_compute.
    rewrite Hj in Hf. apply andb_true_iff in Hf as [[[Hc Hi]%andb_true_iff Hids]%andb_true_iff Ho].
    apply bool_decide_eq_true in Hids, Ho. destruct Ho as [Hu Ht].
    rewrite <- Hids, <- Hu, <- Ht. apply Hh.
    + done.
    + exact Hc.
    + by rewrite Hu.
    + exact Hi.
    + intros E. rewrite E in Hids. discriminate.
Defined.
