(* ===== verification/StoreRecovery.v ===== *)
(** * Access to parked steers

    Who can read, discard and consume a parked steer, and what each access leaves behind. *)

From S2P Require Import Prelude JsMap Json StreamTypes SteerRecovery StoreState StoreSteers StoreParked.
From S2P Require Import StoreJobs StoreCleanup StoreFrame StoreRun StoreEpochs StoreParking.

(** The steers of the live, readable payload of a stream. *)
Definition parked_payload (s : Store) (k : string) (now : Z) : option json :=
  live_parked s k now ≫= fun p => JSON_parse (Parked.payload p).

(** ** Reading *)

(** C19. The owner gate.  While a recovery payload is live, a caller who is not its owner (another
    user, or a tenant other than the payload's) reads nothing, discards nothing, consumes
    nothing, and leaves the store exactly as it was. *)
Theorem parked_steers_are_private s k u t now v requested c id e e' :
  parked_payload s k now = Some v -> payload_owner v u t = false ->
  claimParkedSteersDetailed k u t requested now s = (None, s) /\
  discardSteerLeftover k c id u t e now s = (false, s) /\
  consumeParkedSteer k id u t e' now s = (false, s).
Proof.
  unfold parked_payload. intros Hp Ho.
  destruct (live_parked s k now) as [p|] eqn:Hl; [|done]. simpl in Hp. split_and!.
  - unfold claimParkedSteersDetailed. rewrite Hl, Hp, Ho, andb_false_r. by case_match.
  - unfold discardSteerLeftover. rewrite Hl, Hp, Ho. simpl. by repeat case_match.
  - unfold consumeParkedSteer. rewrite Hl, Hp, Ho. simpl. by repeat case_match.
Qed.

(** A protocol-2 read of protocol-2 recovery state takes nothing away: it leaves the store
    as it was, so repeating it at the same instant returns the same steers (a lost response can
    be asked for again). *)
Theorem claim_v2_is_a_read s k u t now v :
  parked_payload s k now = Some v -> is_int (jfield v "generationProtocolVersion") 2 = true ->
  (claimParkedSteersDetailed k u t V2 now s).2 = s.
Proof.
  unfold parked_payload. intros Hp Hv.
  destruct (live_parked s k now) as [p|] eqn:Hl; [|done]. simpl in Hp.
  unfold claimParkedSteersDetailed. rewrite Hl, Hp, Hv.
  destruct (valid_steers v); [|done].
  destruct (valid_recovery v && payload_owner v u t); [|done].
  rewrite (bool_decide_eq_true_2 (V2 = V2) eq_refl). cbn [andb].
  rewrite (bool_decide_eq_false_2 (V2 = V1 /\ _)) by naive_solver.
  by destruct (bool_decide (visible_steers _ _ = [])).
Qed.

(** The historical protocol-1 read hands every steer over exactly once: when it returns a
    payload and no recovery turn holds a lease, a second read by anyone finds nothing. *)
Theorem claim_v1_takes_all s k u t now r s' u' t' requested now' :
  active_recovery s k u t = None ->
  claimParkedSteersDetailed k u t V1 now s = (Some r, s') ->
  r.1 = V1 /\ claimParkedSteersDetailed k u' t' requested now' s' = (None, s').
Proof.
  intros Ha H. unfold claimParkedSteersDetailed in H. rewrite Ha in H.
  destruct (live_parked s k now) as [p|]; [|done].
  destruct (JSON_parse _) as [v|]; [|done]. destruct (valid_steers v); [|done].
  destruct (valid_recovery v && payload_owner v u t); [|done].
  rewrite (bool_decide_eq_false_2 (V1 = V2)), andb_false_r, no_recovery_leased in H by done.
  rewrite bool_decide_true in H by done. injection H as <- <-. split; [done|].
  unfold claimParkedSteersDetailed, live_parked. simpl. rewrite mget_mdel_eq.
  f_equal. destruct s; unfold with_parkedSteers; simpl. f_equal.
  unfold mdel. rewrite list_filter_filter_l; [done|]. naive_solver.
Qed.

(** ** Recovery leases *)

Lemma visible_not_leased j l x :
  x ∈ visible_steers (Some j) l ->
  exists y, y ∈ l /\ x = jdel y "recoveringCreatedAt" /\ leased_by j y = false.
Proof.
  unfold visible_steers. intros (y & -> & Hy)%list_elem_of_fmap.
  apply list_elem_of_filter in Hy as [? ?]. eauto.
Qed.

(** The ids a claim returns. *)
Definition claimed_id (r : option (GenerationProtocolVersion * jtext)) (id : string) : Prop :=
  exists protocol v l, r = Some (protocol, Text v) /\ jfield v "steers" = Some (JArr l) /\
                       has_steer l id.

Lemma claim_visible s k u t requested now id v l :
  parked_payload s k now = Some v -> valid_steers v = Some l ->
  claimed_id (claimParkedSteersDetailed k u t requested now s).1 id ->
  has_steer (visible_steers (active_recovery s k u t) l) id.
Proof.
  unfold parked_payload. intros Hp Hl (protocol & v' & l' & Hr & Hl' & Hs).
  destruct (live_parked s k now) as [p|] eqn:Hlive; [|done]. simpl in Hp.
  unfold claimParkedSteersDetailed in Hr. rewrite Hlive, Hp, Hl in Hr.
  destruct (valid_recovery v && payload_owner v u t) eqn:Hv; [|done].
  apply andb_true_iff in Hv as [Hv _].
  destruct (bool_decide (_ = V1 /\ _)) in Hr;
    [|destruct (bool_decide (visible_steers _ _ = [])) in Hr; [done|]]; injection Hr as _ <-.
  - rewrite jfield_jset_eq in Hl'; [by injection Hl' as <-|].
    unfold valid_recovery in Hv. by destruct v.
  - rewrite rebuilt_steers in Hl'. by injection Hl' as <-.
Qed.

Lemma leased_hidden s k u t requested now j id v l :
  active_recovery s k u t = Some j -> Job.recoveredSteerId j = Some id ->
  parked_payload s k now = Some v -> valid_steers v = Some l ->
  (forall x, x ∈ l -> parked_key x = Some (JStr id) ->
             is_int (jfield x "recoveringCreatedAt") (Job.createdAt j) = true) ->
  ~ claimed_id (claimParkedSteersDetailed k u t requested now s).1 id.
Proof.
  intros Ha Hid Hp Hl Hmark Hc. apply (claim_visible _ _ _ _ _ _ _ _ _ Hp Hl) in Hc.
  rewrite Ha in Hc. destruct Hc as (x & Hx & Hk).
  apply visible_not_leased in Hx as (y & Hy & -> & Hn). unfold parked_key in Hk.
  rewrite jfield_jdel_ne in Hk by done.
  unfold leased_by in Hn. rewrite Hid, (Hmark y Hy Hk), andb_true_r in Hn.
  by rewrite (proj2 (is_string_true _ _) Hk) in Hn.
Qed.

(** Between the creation of a recovery turn and its end, the steer it holds is hidden from
    its owner's reads: when the marked item is the only one with that id, no claim returns it, so
    it cannot be recovered twice at once. *)
Theorem leased_steer_is_hidden s k u t requested now j id v l :
  active_recovery s k u t = Some j -> Job.recoveredSteerId j = Some id ->
  parked_payload s k now = Some v -> valid_steers v = Some l ->
  (forall x, x ∈ l -> parked_key x = Some (JStr id) ->
             is_int (jfield x "recoveringCreatedAt") (Job.createdAt j) = true) ->
  ~ claimed_id (claimParkedSteersDetailed k u t requested now s).1 id.
Proof. apply leased_hidden. Qed.

(** ** Consumption and discard *)

Lemma receipt_of_update k c f s :
  receipt_of (update_receipt k c f s) k c = f <$> receipt_of s k c.
Proof.
  unfold receipt_of, receipts_of, update_receipt. destruct (mget (steerReceipts s) k) as [rs|] eqn:E.
  - simpl. destruct (mget rs c) as [e|] eqn:Ec; simpl.
    + by rewrite mget_mset_eq; simpl; rewrite mget_mset_eq.
    + by rewrite E; simpl; rewrite Ec.
  - by rewrite E.
Qed.

Lemma store_parked_receipts k p v l s : steerReceipts (store_parked_steers k p v l s) = steerReceipts s.
Proof. unfold store_parked_steers. by case_match. Qed.

Lemma receipt_of_same s s' k c :
  steerReceipts s' = steerReceipts s -> receipt_of s' k c = receipt_of s k c.
Proof. unfold receipt_of, receipts_of. by intros ->. Qed.

(** The recovery payload after the steers were replaced by [l]. *)
Lemma store_parked_payload k p v l s now :
  expired (Parked.expiresAt p) now = false ->
  parked_payload (store_parked_steers k p v l s) k now =
  match l with [] => None | _ :: _ => Some (jset v "steers" (JArr l)) end.
Proof.
  intros He. unfold parked_payload, live_parked, store_parked_steers. destruct l; simpl.
  - by rewrite mget_mdel_eq.
  - rewrite mget_mset_eq. simpl. by rewrite He.
Qed.

Lemma live_parked_fresh s k now p : live_parked s k now = Some p -> expired (Parked.expiresAt p) now = false.
Proof. unfold live_parked. destruct (mget _ _); [|done]. case_match; naive_solver. Qed.

Lemma parked_payload_update k c f s k' now :
  parked_payload (update_receipt k c f s) k' now = parked_payload s k' now.
Proof.
  unfold parked_payload, live_parked.
  by rewrite (update_receipt_frame parkedSteers ltac:(done)).
Qed.

(** Consumption removes exactly the item that the consuming generation had leased: the other
    parked items stay, in the same readable payload, and the receipt of the consumed one, when it
    has one, is settled as recovered. *)
Theorem consume_takes_the_leased_item s k id u t c now s' v l :
  parked_payload s k now = Some v -> is_plain_object v = true -> valid_steers v = Some l ->
  consumeParkedSteer k id u t c now s = (true, s') ->
  exists x rest, l ≡ₚ x :: rest /\ parked_key x = Some (JStr id) /\
    is_int (jfield x "recoveringCreatedAt") c = true /\
    parked_payload s' k now =
      match rest with [] => None | _ :: _ => Some (jset v "steers" (JArr rest)) end /\
    forall cid, as_string (jfield x "clientSteerId") = Some cid ->
      exists e, receipt_of s' k cid = Some e /\
                SteerReceipt.state (ReceiptEntry.receipt e) = recovered.
Proof.
  unfold parked_payload at 1. intros Hp Hobj Hl H.
  destruct (live_parked s k now) as [p|] eqn:Hlive; [|done]. simpl in Hp.
  pose proof (live_parked_fresh _ _ _ _ Hlive) as Hfresh.
  unfold consumeParkedSteer in H. rewrite Hlive, Hp, Hl in H.
  destruct (mget (jobs s) k) as [j|]; [|done].
  destruct (negb _) in H; [done|]. destruct (negb _) in H; [done|].
  destruct (find_index _ l) as [i|] eqn:Hfi; [|done].
  apply find_index_Some in Hfi as (x & Hx & Hpx). apply andb_true_iff in Hpx as [Hid Hc].
  exists x, (splice1 i l). rewrite Hx in H. simpl in H.
  split; [by apply splice1_perm|]. split; [by apply is_string_true|]. split; [done|].
  destruct (as_string (jfield x "clientSteerId")) as [cid|].
  - destruct (receipt_of s k cid) as [e|] eqn:Hr; [|done].
    destruct (_ && _) in H; [|done]. injection H as <-. split.
    + by apply store_parked_payload.
    + intros cid' [= <-]. exists (set_receipt_state recovered e). split; [|done].
      rewrite (receipt_of_same (update_receipt k cid (set_receipt_state recovered) s))
        by apply store_parked_receipts. by rewrite receipt_of_update, Hr.
  - injection H as <-. split; [by apply store_parked_payload | done].
Qed.

(** A discard that succeeds cancels the receipt and leaves no parked item with that id, and
    no other item is lost; while the owner's recovery turn for that steer is running or paused it
    is refused without any effect. *)
Theorem discard_is_final s k c id u t e now v l :
  parked_payload s k now = Some v -> valid_steers v = Some l ->
  (forall s', discardSteerLeftover k c id u t e now s = (true, s') ->
     (exists entry, receipt_of s' k c = Some entry /\
                    SteerReceipt.state (ReceiptEntry.receipt entry) = cancelled) /\
     exists l', parked_payload s' k now =
                  match l' with [] => None | _ :: _ => Some (jset v "steers" (JArr l')) end /\
                ~ has_steer l' id /\ forall id', id' <> id -> has_steer l id' -> has_steer l' id') /\
  (forall j, mget (jobs s) k = Some j -> Job.recoveredSteerId j = Some id ->
     Job.userId j = u -> tenant_matches (Job.tenantId j) t = true -> active (Job.status j) = true ->
     discardSteerLeftover k c id u t e now s = (false, s)).
Proof.
  unfold parked_payload at 1. intros Hp Hl.
  destruct (live_parked s k now) as [p|] eqn:Hlive; [|done]. simpl in Hp.
  pose proof (live_parked_fresh _ _ _ _ Hlive) as Hfresh. split.
  - intros s' H. unfold discardSteerLeftover in H. rewrite Hlive, Hp, Hl in H.
    destruct (receipt_of s k c) as [entry|] eqn:Hr; [|done].
    destruct (negb _) in H; [done|]. destruct (match mget (jobs s) k with Some _ => _ | None => _ end);
      [done|]. destruct (negb _) in H; [done|]. injection H as <-. split.
    + rewrite receipt_of_update, (receipt_of_same s) by apply store_parked_receipts.
      rewrite Hr. by eexists.
    + exists (filter (fun i => is_string (jfield i "steerId") id = false) l).
      rewrite parked_payload_update. split; [by apply store_parked_payload|]. split.
      * intros (x & Hx & Hk). apply list_elem_of_filter in Hx as [Hf _].
        unfold parked_key in Hk. by rewrite (proj2 (is_string_true _ _) Hk) in Hf.
      * intros id' Hne (x & Hx & Hk). exists x. split; [|done]. apply list_elem_of_filter.
        split; [|done]. destruct (is_string _ id) eqn:E; [|done].
        apply is_string_true in E. unfold parked_key in Hk. congruence.
  - intros j Hj Hid Hu Ht Ha. unfold discardSteerLeftover.
    destruct (receipt_of s k c) as [entry|]; [|done]. destruct (negb _); [done|].
    rewrite Hj, Ht, Ha, !bool_decide_true by done. done.
Qed.

(** ** A recovery turn *)

Lemma mark_leased_all id c l x :
  NoDup (parked_key <$> l) -> x ∈ (mark_leased id c l).1 -> parked_key x = Some (JStr id) ->
  forallb isValidParkedSteer l = true -> is_int (jfield x "recoveringCreatedAt") c = true.
Proof.
  induction l as [|y l IH]; simpl; [set_solver|].
  rewrite NoDup_cons, andb_true_iff. intros [Hy Hnd] Hx Hk [Hv Hl].
  destruct (is_string (jfield y "steerId") id) eqn:E.
  - apply is_string_true in E. simpl in Hx. apply elem_of_cons in Hx as [->|Hx].
    + rewrite jfield_jset_eq by (by destruct y). apply is_int_true. done.
    + destruct Hy. unfold parked_key at 1. rewrite E, <- Hk. by apply list_elem_of_fmap_2.
  - destruct (mark_leased id c l) as [l2 r]. simpl in *.
    apply elem_of_cons in Hx as [->|Hx]; [|by apply IH].
    unfold parked_key in Hk. by rewrite (proj2 (is_string_true _ _) Hk) in E.
Qed.

Lemma find_item_Some p l x : find_item p l = Some x -> x ∈ l /\ p x = true.
Proof.
  induction l as [|y l IH]; [done|].
  assert (H : y = JNull \/ find_item p (y :: l) = if p y then Some y else find_item p l)
    by (destruct y; auto).
  destruct H as [->|H]; [done|]. rewrite H. destruct (p y) eqn:E.
  - intros [= ->]. split; [by left | done].
  - intros [? ?]%IH. split; [by right | done].
Qed.

(** A recovery creation installs a protocol-2 job. *)
Lemma recovery_protocol a now s id :
  assertRecoveryCompatible a now s = Ok tt -> CreateArgs.recoveredSteerId a = Some id ->
  JobMetadataPatch.generationProtocolVersion (CreateArgs.initialMetadata a) <> Some V1.
Proof.
  unfold assertRecoveryCompatible. intros H Hid. rewrite Hid in H.
  destruct (CreateArgs.recoveredSteerPayload a); [|done].
  destruct (negb _); [done|]. by case_bool_decide.
Qed.

Lemma live_parked_Some s k now p : live_parked s k now = Some p -> mget (parkedSteers s) k = Some p.
Proof.
  unfold live_parked. destruct (mget (parkedSteers s) k) as [q|]; [|done].
  by destruct (expired _ _).
Qed.

Lemma leaseParked_payload k id u t c now s j v l now' v' :
  mget (jobs s) k = Some j -> usesReceiptSafeProtocol (Some j) = true ->
  parked_payload s k now = Some v -> valid_steers v = Some l -> payload_owner v u t = true ->
  parked_payload (leaseParkedSteer k (Some id) u t c now s) k now' = Some v' ->
  v' = jset v "steers" (JArr (mark_leased id c ((fun x => jdel x "recoveringCreatedAt") <$> l)).1).
Proof.
  intros Hj Hsafe Hp Hl Ho. unfold leaseParkedSteer. rewrite Hj, Hsafe.
  unfold parked_payload in Hp. destruct (live_parked s k now) as [p|] eqn:Hlive; [|done].
  simpl in Hp. rewrite Hp. apply valid_steers_Some in Hl as (Hf & _ & Hval).
  rewrite Hf, Ho. simpl. rewrite bool_decide_true.
  2: { intros Hn. rewrite forallb_forall in Hval.
       specialize (Hval _ (proj1 (list_elem_of_In _ _) Hn)). done. }
  set (cleared := (fun x => jdel x "recoveringCreatedAt") <$> l).
  destruct (mark_leased id c cleared) as [marked leased]. simpl.
  set (s1 := match leased with Some x => _ | None => s end).
  assert (Hs1 : exists p', mget (parkedSteers s1) k = Some p').
  { pose proof (live_parked_Some _ _ _ _ Hlive) as Hps. subst s1. destruct leased as [x|]; [case_bool_decide|]; eauto.
    destruct (extend_lease_entry k j (runningRecoveryLeaseExpiry s now) p
      (jset v "steers" (JArr marked)) x s Hps) as (p' & ? & _). eauto. }
  destruct Hs1 as (p' & Hp'). clearbody s1. rewrite Hp'.
  unfold parked_payload, live_parked. simpl. rewrite mget_mset_eq. case_match; [done|].
  by intros [= <-].
Qed.

Lemma lease_cleared_keys (l : list json) :
  parked_key <$> ((fun x => jdel x "recoveringCreatedAt") <$> l) = parked_key <$> l.
Proof.
  rewrite <- list_fmap_compose. apply list_fmap_ext. intros _ x _. unfold parked_key. simpl.
  by rewrite jfield_jdel_ne.
Qed.

Lemma assertOwner_payload a now s v :
  assertOwnerCompatible a now s = Ok tt -> parked_payload s (CreateArgs.streamId a) now = Some v ->
  payload_owner v (CreateArgs.userId a) (CreateArgs.tenantId a) = true.
Proof.
  unfold assertOwnerCompatible, parked_payload. intros H Hp.
  destruct (match mget (jobs s) _ with Some _ => _ | None => _ end) in H; [done|].
  destruct (live_parked s _ now) as [p|]; [|done]. simpl in Hp. rewrite Hp in H.
  destruct (negb _) in H; [done|]. by destruct (payload_owner v _ _).
Qed.

Lemma validate_create_recovery a now s s0 :
  validate_create a now s = (Ok tt, s0) -> assertRecoveryCompatible a now s0 = Ok tt.
Proof.
  unfold validate_create. intros ([] & s1 & _ & ([] & s2 & _ & H)%bind_ok_inv)%bind_ok_inv.
  unfold lift_check in H. by injection H as ? <-.
Qed.

Lemma tenant_matches_truthy t :
  tenant_matches (match t with Some t => if decide (t = "") then None else Some t | None => None end)
    t = true.
Proof. destruct t as [t|]; [case_decide; [done|] | done]. by apply bool_decide_eq_true. Qed.

Lemma claim_None_payload s k u t r now :
  parked_payload s k now = None -> (claimParkedSteersDetailed k u t r now s).1 = None.
Proof.
  unfold parked_payload, claimParkedSteersDetailed. destruct (live_parked s k now); [|done].
  simpl. by intros ->.
Qed.

Lemma claim_invalid s k u t r now v :
  parked_payload s k now = Some v -> valid_steers v = None ->
  (claimParkedSteersDetailed k u t r now s).1 = None.
Proof.
  unfold parked_payload, claimParkedSteersDetailed. destruct (live_parked s k now); [|done].
  simpl. intros -> Hv. by rewrite Hv.
Qed.

(** Replacing a settled generation writes no recovery payload. *)
Lemma commit_parked a now s s0 s2 epoch :
  let k := CreateArgs.streamId a in
  let s1 := match mget (jobs s) k with
            | Some _ => s0
            | None => (getRetainedGenerationEpoch k now s0).2
            end in
  validate_create a now s = (Ok tt, s0) ->
  match mget (jobs s) k with
  | Some q => parkQueuedSteers k q now
  | None => retM tt
  end (with_lastGenerationEpoch epoch s1) = (Ok tt, s2) ->
  (forall q, mget (jobs s) k = Some q -> unsettled s k (Job.createdAt q) = []) ->
  parkedSteers s2 = parkedSteers s.
Proof.
  intros k s1 Hv Hpark Hun.
  pose proof (validate_create_frame parking ltac:(done) a now s) as Hf. rewrite Hv in Hf.
  change (parking s0 = parking s) in Hf.
  assert (Hp1 : parking s1 = parking s).
  { subst s1. destruct (mget (jobs s) k); [done|]. rewrite <- Hf.
    by apply (getRetained_frame parking). }
  destruct (mget (jobs s) k) as [q|] eqn:Hq; [|injection Hpark as <-; by injection Hp1 as ?].
  unfold parkQueuedSteers in Hpark.
  replace (unsettled (with_lastGenerationEpoch epoch s1) k (Job.createdAt q))
    with (@nil SteerQueueItem.t) in Hpark.
  - injection Hpark as <-. by injection Hp1 as ?.
  - rewrite <- (Hun q eq_refl). symmetry. by apply unsettled_parking.
Qed.

(** What a recovery turn leaves: the turn is current and holds its lease, and whatever payload is
    read later is the parked one with the lease marked. *)
Lemma recovery_commit a now s v s' id pv l :
  createJob_commit a now s = (Ok v, s') ->
  CreateArgs.recoveredSteerId a = Some id -> id <> "" ->
  (forall q, mget (jobs s) (CreateArgs.streamId a) = Some q ->
     unsettled s (CreateArgs.streamId a) (Job.createdAt q) = []) ->
  parked_payload s (CreateArgs.streamId a) now = Some pv -> valid_steers pv = Some l ->
  exists j', Job.createdAt v = Job.createdAt j' /\ Job.recoveredSteerId j' = Some id /\
    active_recovery s' (CreateArgs.streamId a) (CreateArgs.userId a) (CreateArgs.tenantId a)
      = Some j' /\
    forall now' v', parked_payload s' (CreateArgs.streamId a) now' = Some v' ->
      v' = jset pv "steers" (JArr (mark_leased id (Job.createdAt j')
                                     ((fun x => jdel x "recoveringCreatedAt") <$> l)).1).
Proof.
  intros H Hid Hne Hun Hp Hl.
  apply createJob_commit_inv in H as (s0 & s1 & s2 & p & j' & Hv & Hj0 & Hs1 & Hj' & _ & _ & _ &
    Hpark & Hview & Hs').
  set (k := CreateArgs.streamId a) in *. cbn zeta in *. exists j'.
  assert (Hp2 : parkedSteers s2 = parkedSteers s).
  { rewrite Hs1 in Hpark. by apply (commit_parked a now s s0 s2 (Job.createdAt j') Hv Hpark). }
  set (s3 := retainGenerationEpoch k (Job.createdAt j') now (with_jobs (mset (jobs s2) k j') s2)) in *.
  assert (Hj3 : mget (jobs s3) k = Some j') by (subst s3; rewrite retain_jobs; apply mget_mset_eq).
  assert (Hp3 : parked_payload s3 k now = Some pv).
  { rewrite <- Hp. unfold parked_payload, live_parked. subst s3.
    rewrite retain_parked. simpl. by rewrite Hp2. }
  pose proof (assertOwner_payload _ _ _ _ (validate_create_owner _ _ _ _ Hv) Hp) as Ho.
  pose proof (recovery_protocol _ _ _ _ (validate_create_recovery _ _ _ _ Hv) Hid) as Hprot.
  assert (Hv2 : Job.generationProtocolVersion j' = Some V2)
    by (rewrite Hj'; simpl; by rewrite bool_decide_false).
  split_and!.
  - rewrite Hview. by destruct (mget (jobs s) k).
  - by rewrite Hj'.
  - unfold active_recovery. rewrite Hs'. simpl. rewrite start_claim_jobs, install_job_jobs.
    rewrite mget_mset_eq, Hv2. rewrite Hj'. simpl. rewrite Hid, tenant_matches_truthy.
    by rewrite !bool_decide_true.
  - intros now' v' Hp'. apply (leaseParked_payload k id (CreateArgs.userId a) (CreateArgs.tenantId a)
      (Job.createdAt j') now s3 j' pv l now' v'); try done.
    + unfold usesReceiptSafeProtocol. by rewrite Hv2, bool_decide_true.
    + rewrite <- Hp', Hs', <- Hid. unfold parked_payload, live_parked. simpl.
      by rewrite start_claim_parked.
Qed.

(** C27. A recovery turn takes its steer out of circulation from the moment it exists: in the state
    left by a creation that names a parked steer, on a stream whose replaced generation, if any, has
    no unsettled steers, no read by the owner, whenever it comes, returns that steer. *)
Theorem recovery_turn_hides_its_steer a now s v s' id pv l requested now' :
  createJob_commit a now s = (Ok v, s') ->
  CreateArgs.recoveredSteerId a = Some id -> id <> "" ->
  (forall q, mget (jobs s) (CreateArgs.streamId a) = Some q ->
     unsettled s (CreateArgs.streamId a) (Job.createdAt q) = []) ->
  parked_payload s (CreateArgs.streamId a) now = Some pv -> valid_steers pv = Some l ->
  NoDup (parked_key <$> l) -> safe_epoch (Job.createdAt v) = true ->
  ~ claimed_id (claimParkedSteersDetailed (CreateArgs.streamId a) (CreateArgs.userId a)
                  (CreateArgs.tenantId a) requested now' s').1 id.
Proof.
  intros H Hid Hne Hun Hp Hl Hnd Hsafe Hclaim.
  destruct (recovery_commit a now s v s' id pv l H Hid Hne Hun Hp Hl) as (j' & Hc & Hr & Hact & Hpay).
  rewrite Hc in Hsafe. set (k := CreateArgs.streamId a) in *.
  destruct (parked_payload s' k now') as [v'|] eqn:Hp'.
  2: { destruct Hclaim as (? & ? & ? & Hn & _). by rewrite claim_None_payload in Hn. }
  pose proof (Hpay now' v' Hp') as Hlease.
  pose proof Hl as (Hlf & Hlne & Hlv)%valid_steers_Some.
  destruct (mark_leased_spec id (Job.createdAt j') ((fun x => jdel x "recoveringCreatedAt") <$> l))
    as (Hmv & Hmlen & _); [done | by apply forallb_fmap_valid|].
  set (marked := (mark_leased id _ _).1) in *.
  assert (Hl' : valid_steers v' = Some marked).
  { rewrite Hlease. apply valid_steers_Some. split; [|split; [|done]].
    - apply jfield_jset_eq. by destruct pv.
    - intros E. rewrite E, length_fmap in Hmlen. by destruct l. }
  revert Hclaim. apply (leased_hidden _ _ _ _ _ _ j' _ v' marked); try done.
  intros x Hx Hk. subst marked. eapply mark_leased_all; [|exact Hx | exact Hk|].
  - by rewrite lease_cleared_keys.
  - by apply forallb_fmap_valid.
Qed.

(** ** Instances *)

Lemma parked_steers_are_private_witness :
  exists v, parked_payload Demo.parked "s1" 40 = Some v /\
    claimParkedSteersDetailed "s1" "u2" None V2 40 Demo.parked = (None, Demo.parked).
Proof.
  destruct (parked_payload Demo.parked "s1" 40) as [v|] eqn:E; [|by vm_compute in E].
  exists v. split; [reflexivity|].
  apply (parked_steers_are_private Demo.parked "s1" "u2" None 40 v V2 "c1" "st1" None 10).
  - exact E.
  - vm_compute in E. injection E as <-. by vm_compute.
Defined.

Lemma claim_v2_is_a_read_witness :
  (claimParkedSteersDetailed "s1" "u1" None V2 40 Demo.parked).2 = Demo.parked.
Proof.
  destruct (parked_payload Demo.parked "s1" 40) as [v|] eqn:E; [|by vm_compute in E].
  apply (claim_v2_is_a_read Demo.parked "s1" "u1" None 40 v).
  - exact E.
  - vm_compute in E. injection E as <-. by vm_compute.
Defined.

Lemma claim_v1_takes_all_witness :
  exists r s', claimParkedSteersDetailed "s1" "u1" None V1 40 Demo.parked = (Some r, s') /\
    claimParkedSteersDetailed "s1" "u1" None V1 41 s' = (None, s').
Proof.
  destruct (claimParkedSteersDetailed "s1" "u1" None V1 40 Demo.parked) as [[r|] s'] eqn:E;
    [|by vm_compute in E].
  exists r, s'. split; [reflexivity|].
  apply (claim_v1_takes_all Demo.parked "s1" "u1" None 40 r s' "u1" None V1 41).
  - by vm_compute.
  - exact E.
Defined.

Lemma leased_steer_is_hidden_witness :
  ~ claimed_id (claimParkedSteersDetailed "s1" "u1" None V2 40 Demo.recovering).1 "st1".
Proof.
  destruct (active_recovery Demo.recovering "s1" "u1" None) as [j|] eqn:Ej; [|by vm_compute in Ej].
  destruct (parked_payload Demo.recovering "s1" 40) as [v|] eqn:E; [|by vm_compute in E].
  destruct (valid_steers v) as [l|] eqn:El.
  2: { vm_compute in E. injection E as <-. by vm_compute in El. }
  apply (leased_steer_is_hidden Demo.recovering "s1" "u1" None V2 40 j "st1" v l).
  - exact Ej.
  - vm_compute in Ej. by injection Ej as <-.
  - exact E.
  - exact El.
  - vm_compute in E. injection E as <-. vm_compute in El. injection El as <-.
    vm_compute in Ej. injection Ej as <-.
    intros x [->|[->|Hx%elem_of_nil]%elem_of_cons]%elem_of_cons Hk; [by vm_compute | | done].
    by vm_compute in Hk.
Defined.

Lemma consume_takes_the_leased_item_witness :
  exists s' x, consumeParkedSteer "s1" "st1" "u1" None 30 40 Demo.recovering = (true, s') /\
    parked_key x = Some (JStr "st1") /\ is_int (jfield x "recoveringCreatedAt") 30 = true.
Proof.
  destruct (consumeParkedSteer "s1" "st1" "u1" None 30 40 Demo.recovering) as [[] s'] eqn:Ec;
    [|by vm_compute in Ec].
  destruct (parked_payload Demo.recovering "s1" 40) as [v|] eqn:E; [|by vm_compute in E].
  destruct (valid_steers v) as [l|] eqn:El.
  2: { vm_compute in E. injection E as <-. by vm_compute in El. }
  destruct (consume_takes_the_leased_item Demo.recovering "s1" "st1" "u1" None 30 40 s' v l)
    as (x & rest & _ & Hk & Hc & _).
  - exact E.
  - vm_compute in E. by injection E as <-.
  - exact El.
  - exact Ec.
  - exists s', x. split; [reflexivity|]. split; [exact Hk | exact Hc].
Defined.

Lemma discard_is_final_witness :
  exists s' l', discardSteerLeftover "s1" "c1" "st1" "u1" None None 40 Demo.parked = (true, s') /\
    ~ has_steer l' "st1" /\ has_steer l' "st2".
Proof.
  destruct (discardSteerLeftover "s1" "c1" "st1" "u1" None None 40 Demo.parked) as [[] s'] eqn:Ec;
    [|by vm_compute in Ec].
  destruct (parked_payload Demo.parked "s1" 40) as [v|] eqn:E; [|by vm_compute in E].
  destruct (valid_steers v) as [l|] eqn:El.
  2: { vm_compute in E. injection E as <-. by vm_compute in El. }
  destruct (discard_is_final Demo.parked "s1" "c1" "st1" "u1" None None 40 v l) as [H _].
  - exact E.
  - exact El.
  - destruct (H s' Ec) as (_ & l' & _ & Hn & Hk). exists s', l'. split; [reflexivity|].
    split; [exact Hn|]. apply Hk; [done|].
    vm_compute in E. injection E as <-. vm_compute in El. injection El as <-.
    eexists. split; [right; left; reflexivity | reflexivity].
Defined.

Lemma recovery_turn_hides_its_steer_witness :
  exists v s', createJob_commit (Demo.recover "s1" "u1" "st1") 30 Demo.parked = (Ok v, s') /\
    ~ claimed_id (claimParkedSteersDetailed "s1" "u1" None V1 50 s').1 "st1".
Proof.
  set (a := Demo.recover "s1" "u1" "st1").
  assert (Hv : match (createJob_commit a 30 Demo.parked).1 with
               | Ok v => safe_epoch (Job.createdAt v) | Throw _ => false end = true)
    by by vm_compute.
  destruct (createJob_commit a 30 Demo.parked) as [[v|e] s'] eqn:Hr; [|done].
  exists v, s'. split; [reflexivity|].
  destruct (parked_payload Demo.parked "s1" 30) as [pv|] eqn:E; [|by vm_compute in E].
  destruct (valid_steers pv) as [l|] eqn:El.
  2: { vm_compute in E. injection E as <-. by vm_compute in El. }
  apply (recovery_turn_hides_its_steer a 30 Demo.parked v s' "st1" pv l V1 50).
  - exact Hr.
  - reflexivity.
  - done.
  - intros q Hq. change (mget (jobs Demo.parked) "s1" = Some q) in Hq.
    vm_compute in Hq. injection Hq as <-. by vm_compute.
  - exact E.
  - exact El.
  - vm_compute in E. injection E as <-. vm_compute in El. injection El as <-.
    apply (bool_decide_unpack _). by vm_compute.
  - exact Hv.
Defined.
