(* ===== verification/StoreFences.v ===== *)
(** * Generation fences

    Asynchronous writers carry the [createdAt] of the generation they work for.  When another
    generation (or none) is current, the operations they call do nothing. *)

From S2P Require Import Prelude JsMap Json StreamTypes SteerRecovery StoreState StoreSteers StoreParked.
From S2P Require Import StoreJobs StoreCleanup StoreFrame StoreRun StoreEpochs.

(** The stream and the generation of its job that a call expects. *)
Definition fence (o : op) : option (string * Z) :=
  match o with
  | Delete k (Some e) | Update k _ (Some e) | RecordActivity k (Some e)
  | ClearHostAction k (Some e) | Enqueue k _ _ (Some e) | EnqueueReceipted k _ _ _ (Some e)
  | Drain k (Some e) | RestoreClaimed k _ (Some e) | CloseAndDrain k (Some e)
  | RemoveSteer k _ (Some e) | ArmSteer k _ (Some e) | DowngradePreempts k (Some e)
  | AppendChunk k (Some e) _ | ParkSteers k _ (Some e) | SetGraph k _ (Some e)
  | SetContentParts k _ (Some e) | SetCollectedUsage k _ (Some e) | ClearContent k (Some e) => Some (k, e)
  | MarkDrained k e _ | BeginProvider k e _ | FinalizeTerminal k e _ | ConsumeParked k _ _ _ e
  | AdoptKey _ _ k _ _ _ e _ _ => Some (k, e)
  | Transition k args | TransitionDrain k args => (k,.) <$> JobStatusTransition.expectCreatedAt args
  | _ => None
  end.

(** Of the receipts, all but the one of a stream and a client id are the same; that one is gone, or
    has another state; and if there was none, nothing has changed. *)
Definition but_receipt (k c : string) (s s' : Store) : Prop :=
  s' = with_steerReceipts (steerReceipts s') s /\
  (forall k' c', (k', c') <> (k, c) -> receipt_of s' k' c' = receipt_of s k' c') /\
  (forall r', receipt_of s' k c = Some r' ->
     exists r st, receipt_of s k c = Some r /\ r' = set_receipt_state st r) /\
  (receipt_of s k c = None -> s' = s).

(** What a call with a foreign fence leaves. *)
Definition left_by (o : op) (s s' : Store) : Prop :=
  match o with
  | EnqueueReceipted k _ input _ _ => but_receipt k (SteerReceiptInput.clientSteerId input) s s'
  | ClearContent k _ =>
      match mget (jobs s) k with
      | Some _ => s' = s
      | None => s' = with_contentState (mdel (contentState s) k) s
      end
  | _ => s' = s
  end.

Lemma foreign_epoch s k e j :
  current s k <> Some e -> mget (jobs s) k = Some j -> epoch_matches (Some e) (Job.createdAt j) = false.
Proof.
  unfold current. intros Hc Hj. rewrite Hj in Hc. apply bool_decide_eq_false. simpl in Hc. congruence.
Qed.

Lemma foreign_decide s k e j :
  current s k <> Some e -> mget (jobs s) k = Some j -> Job.createdAt j <> e.
Proof. unfold current. intros Hc Hj. rewrite Hj in Hc. simpl in Hc. congruence. Qed.

Lemma foreign_steerable s k e : current s k <> Some e -> steerable_job s k (Some e) = None.
Proof.
  intros Hc. unfold steerable_job. destruct (mget (jobs s) k) as [j|] eqn:Hj; [|done].
  by rewrite (foreign_epoch _ _ _ _ Hc Hj), andb_false_r.
Qed.

Lemma foreign_transition s k args e now :
  JobStatusTransition.expectCreatedAt args = Some e -> current s k <> Some e ->
  transitionStatus k args now s = (Ok false, s).
Proof.
  intros He Hc. unfold transitionStatus. destruct (mget (jobs s) k) as [j|] eqn:Hj; [|done].
  unfold transition_guard. by rewrite He, (foreign_epoch _ _ _ _ Hc Hj), andb_false_r.
Qed.

Lemma foreign_transitionDrain s k args e now :
  JobStatusTransition.expectCreatedAt args = Some e -> current s k <> Some e ->
  (transitionStatusAndDrainSteers k args now s).2 = s.
Proof.
  intros He Hc. unfold transitionStatusAndDrainSteers. destruct (negb _); [done|].
  destruct (mget (jobs s) k) as [j|] eqn:Hj; [|done].
  unfold transition_guard. by rewrite He, (foreign_epoch _ _ _ _ Hc Hj), andb_false_r.
Qed.

Lemma foreign_adopt key ex k u r te e ttl b now s :
  current s k <> Some e -> adoptIdempotencyKeyForJob key ex k u r te e ttl b now s = (false, s).
Proof.
  intros Hc. unfold adoptIdempotencyKeyForJob. destruct (live_claim s key now) as [c|]; [|done].
  destruct (mget (jobs s) k) as [j|] eqn:Hj; [|done]. pose proof (foreign_decide s k e j Hc Hj).
  by rewrite bool_decide_false by naive_solver.
Qed.

(** A receipted enqueue reads the receipt of an earlier attempt, whatever the generation. *)
Lemma receipt_dropped k c s k' c' :
  (k', c') <> (k, c) -> receipt_of (delete_receipt k c s) k' c' = receipt_of s k' c'.
Proof.
  intros Hne. unfold delete_receipt, receipt_of, receipts_of.
  destruct (mget (steerReceipts s) k) as [rs|] eqn:E; [|done]. cbn.
  destruct (decide (k = k')) as [<-|Hk].
  - rewrite mget_mset_eq, E. cbn. apply mget_mdel_ne. congruence.
  - by rewrite mget_mset_ne.
Qed.
Lemma receipt_of_dropped k c s : receipt_of (delete_receipt k c s) k c = None.
Proof.
  unfold delete_receipt, receipt_of, receipts_of.
  destruct (mget (steerReceipts s) k) as [rs|] eqn:E; [|by rewrite E]. cbn.
  rewrite mget_mset_eq. cbn. apply mget_mdel_eq.
Qed.
Lemma receipt_of_changed k c f s k' c' :
  receipt_of (update_receipt k c f s) k' c' =
  if decide ((k', c') = (k, c)) then f <$> receipt_of s k c else receipt_of s k' c'.
Proof.
  unfold update_receipt, receipt_of, receipts_of.
  destruct (mget (steerReceipts s) k) as [rs|] eqn:E; cbn; [|case_decide; simplify_eq; by rewrite ?E].
  destruct (mget rs c) as [r|] eqn:Er; cbn; [|case_decide; simplify_eq; rewrite ?E; cbn; by rewrite ?Er].
  destruct (decide (k = k')) as [<-|Hk].
  - rewrite mget_mset_eq, E. cbn. case_decide as Hd; simplify_eq; [apply mget_mset_eq|].
    apply mget_mset_ne. congruence.
  - rewrite mget_mset_ne by done. by rewrite decide_False by congruence.
Qed.

Lemma foreign_receipted k it input w e now s :
  current s k <> Some e ->
  but_receipt k (SteerReceiptInput.clientSteerId input) s
    (enqueueSteerWithReceipt k it input w (Some e) now s).2.
Proof.
  intros Hc. unfold enqueueSteerWithReceipt. set (c := SteerReceiptInput.clientSteerId input).
  destruct (receipt_of s k c) as [r|] eqn:Er.
  2: { rewrite (foreign_steerable _ _ _ Hc). split_and!; [by destruct s | done | cbn; rewrite ?Er; congruence | done]. }
  destruct (expired (ReceiptEntry.expiresAt r) now).
  - rewrite foreign_steerable by (by unfold current, delete_receipt; case_match). cbn. split_and!.
    + unfold delete_receipt. case_match; by destruct s.
    + intros k' c'. apply receipt_dropped.
    + by rewrite receipt_of_dropped.
    + congruence.
  - cbn. split_and!.
    + unfold update_receipt. repeat case_match; by destruct s.
    + intros k' c' Hne. by rewrite receipt_of_changed, decide_False.
    + rewrite receipt_of_changed, decide_True, Er by done. intros r' [= <-]. by eexists _, _.
    + congruence.
Qed.

Lemma foreign_clear s k e :
  current s k <> Some e -> left_by (ClearContent k (Some e)) s (clearContentState k (Some e) s).
Proof.
  intros Hc. unfold clearContentState, left_by. destruct (mget (jobs s) k) as [j|] eqn:Hj; [|done].
  by rewrite (foreign_epoch _ _ _ _ Hc Hj).
Qed.

Lemma foreign_content s k e : current s k <> Some e -> content_fenced s k (Some e) = true.
Proof. intros Hc. unfold content_fenced. by rewrite bool_decide_false. Qed.

(** C21. Stale writers are inert.  A call that expects a generation which is not the current one of
    its stream (it was replaced, or its job is gone) leaves the whole store as it was, with two
    exceptions: an enqueue with a receipt answers from the receipt of an earlier attempt, and may
    bring the state of that one receipt up to date or drop it when it has expired, but admits
    nothing; and clearing the content of a stream without a job clears it.  The discard of a leftover
    is fenced on the generation of its receipt instead: where the receipt is of another one, or
    there is none, it leaves the store as it was. *)
Theorem stale_writers_are_inert o now s :
  (forall k e, fence o = Some (k, e) -> current s k <> Some e -> left_by o s (run_op o now s)) /\
  (forall k c id u t e, o = DiscardLeftover k c id u t (Some e) ->
     (forall r, receipt_of s k c = Some r -> SteerReceipt.generationCreatedAt (ReceiptEntry.receipt r) <> e) ->
     run_op o now s = s).
Proof.
  split.
  - intros k e Hf Hc. destruct o; simpl in Hf; try discriminate;
    repeat match goal with
      | H : match ?x with Some _ => _ | None => None end = Some _ |- _ => destruct x; [|discriminate]
      | H : _ <$> _ = Some _ |- _ => apply fmap_Some in H as (? & ? & ?)
      end; simplify_eq; try (by apply foreign_receipted); try (by apply foreign_clear); simpl;
    try (unfold enqueueSteerVersioned, drainSteers, restoreClaimedSteers, armSteerVersioned;
         by rewrite (foreign_steerable _ _ _ Hc));
    try (unfold setGraph, setContentParts, setCollectedUsage, update_content;
         by rewrite (foreign_content _ _ _ Hc));
    try (unfold current in Hc; unfold parkSteers, removeSteer; by rewrite bool_decide_false);
    try (by rewrite foreign_adopt);
    try (unfold deleteJob, updateJob, recordActivity, clearTerminalHostAction, closeAndDrainSteers,
           downgradeSteerPreempts, appendChunk;
         destruct (mget (jobs s) k) as [j|] eqn:Hj; [|done];
         by rewrite (foreign_epoch s k _ j Hc Hj));
    try (unfold markProviderExecutionDrained, beginProviderExecution, finalizeTerminalPersistence,
           consumeParkedSteer;
         destruct (mget (jobs s) k) as [j|] eqn:Hj; [|done];
         pose proof (foreign_decide s k _ j Hc Hj);
         rewrite bool_decide_false by naive_solver; done);
    try (by erewrite foreign_transition); by erewrite foreign_transitionDrain.
  - intros k c id u t e -> Hr. cbn. unfold discardSteerLeftover.
    destruct (receipt_of s k c) as [r|]; [|done]. specialize (Hr r eq_refl).
    unfold epoch_matches. by rewrite (bool_decide_false (SteerReceipt.generationCreatedAt _ = e)), andb_false_r by done.
Qed.

Lemma stale_writers_are_inert_witness :
  run_op (AppendChunk "s1" (Some 9%Z) (Some (Demo.item "st1" (Some "c1") "u1"))) 20 Demo.steered =
  Demo.steered.
Proof.
  apply (proj1 (stale_writers_are_inert
    (AppendChunk "s1" (Some 9%Z) (Some (Demo.item "st1" (Some "c1") "u1"))) 20 Demo.steered) "s1" 9%Z); by vm_compute.
Defined.
