(* ===== verification/StoreQueue.v ===== *)
(** * The steering queue: admission, delivery, hand-back

    A steer admitted with a receipt is queued once however often its request is retried; draining
    and restoring are inverse; a claimed steer is delivered at most once and never after the queue
    closed. *)

From S2P Require Import Prelude JsMap Json StreamTypes SteerRecovery StoreState StoreSteers StoreParked.
From S2P Require Import StoreJobs StoreCleanup StoreFrame StoreRun StoreEpochs StoreParking StoreRecovery.

(** ** Admission *)

Lemma steerable_job_Some s k e j :
  steerable_job s k e = Some j ->
  mget (jobs s) k = Some j /\ Job.status j = running /\ k ∉ closedSteerQueues s /\
  epoch_matches e (Job.createdAt j) = true.
Proof.
  unfold steerable_job. destruct (mget (jobs s) k) as [j0|]; [|done].
  destruct (bool_decide _) eqn:E1; [|done]. destruct (epoch_matches e _) eqn:E2; [|done].
  apply bool_decide_eq_true in E1. naive_solver.
Qed.

(** The receipts of a stream that have not expired. *)
Definition live_receipts (s : Store) (k : string) (now : Z) : nat :=
  length (mprune (fun _ e => expired (ReceiptEntry.expiresAt e) now) (receipts_of s k)).

Lemma queue_of_set k q s : queue_of (set_queue k q s) k = q.
Proof. unfold queue_of, set_queue. simpl. by rewrite mget_mset_eq. Qed.

Lemma queue_of_receipts k v s : queue_of (with_steerReceipts v s) k = queue_of s k.
Proof. done. Qed.

Lemma persisted_id item w j : SteerQueueItem.steerId (persisted_item item w j) = SteerQueueItem.steerId item.
Proof. unfold persisted_item. by repeat case_match. Qed.

(** Admission with a receipt on a running protocol-2 generation, for a client id that has no
    receipt yet, has exactly three outcomes: the queue is full (10 waiting) and nothing changes;
    the receipts are full (100 live ones) and no steer is queued; or the steer is appended at the
    end, its position is the new depth, and its receipt says it is queued. *)
Theorem admission_spec k item input w e now s j :
  steerable_job s k e = Some j -> usesReceiptSafeProtocol (Some j) = true ->
  receipt_of s k (SteerReceiptInput.clientSteerId input) = None ->
  let '(r, s') := enqueueSteerWithReceipt k item input w e now s in
  (STEER_QUEUE_MAX_DEPTH <= length (queue_of s k) /\
   r = EnqueueRejected STEER_ENQUEUE_QUEUE_FULL /\ s' = s) \/
  (length (queue_of s k) < STEER_QUEUE_MAX_DEPTH /\
   STEER_RECEIPT_MAX_PER_STREAM <= live_receipts s k now /\
   r = EnqueueRejected STEER_ENQUEUE_RECEIPT_FULL /\ queue_of s' k = queue_of s k) \/
  (length (queue_of s k) < STEER_QUEUE_MAX_DEPTH /\
   live_receipts s k now < STEER_RECEIPT_MAX_PER_STREAM /\
   exists receipt entry,
     r = EnqueueReceipt receipt /\
     SteerReceipt.item receipt = persisted_item item w j /\
     SteerReceipt.state receipt = queued /\
     SteerReceipt.position receipt = length (queue_of s' k) /\
     queue_of s' k = queue_of s k ++ [persisted_item item w j] /\
     receipt_of s' k (SteerReceiptInput.clientSteerId input) = Some entry /\
     ReceiptEntry.receipt entry = receipt /\
     ReceiptEntry.expiresAt entry = At (now + STEER_RECEIPT_TTL_MS)).
Proof.
  intros Hs Hv Hr. unfold enqueueSteerWithReceipt. rewrite Hr, Hs, Hv. simpl.
  unfold live_receipts. case_decide as Hq; [by left|].
  case_decide as Hf; cbn beta iota; right.
  - left. rewrite queue_of_receipts, queue_of_set. split_and!; (done || lia).
  - right. split; [lia|]. split; [lia|].
    eexists _, (ReceiptEntry.mk _ (At (now + STEER_RECEIPT_TTL_MS))). split; [done|].
    rewrite queue_of_receipts, queue_of_set. simpl.
    split_and!; try done.
    + rewrite length_app. simpl. lia.
    + unfold receipt_of, receipts_of. simpl. by rewrite mget_mset_eq; simpl; rewrite mget_mset_eq.
Qed.

(** A retried submission is not queued twice.  While the receipt of a client id has not
    expired, submitting again with that id, whatever the item, the generation or the time, returns
    the item first recorded and queues nothing. *)
Theorem retry_queues_nothing k item input w e now s entry :
  receipt_of s k (SteerReceiptInput.clientSteerId input) = Some entry ->
  expired (ReceiptEntry.expiresAt entry) now = false ->
  exists r s', enqueueSteerWithReceipt k item input w e now s = (EnqueueReceipt r, s') /\
    SteerReceipt.item r = SteerReceipt.item (ReceiptEntry.receipt entry) /\
    steerQueues s' = steerQueues s /\ claimedSteers s' = claimedSteers s.
Proof.
  intros Hr He. unfold enqueueSteerWithReceipt. rewrite Hr, He.
  eexists _, _. split; [done|]. split; [done|].
  pose proof (update_receipt_frame (fun s => (steerQueues s, claimedSteers s)) ltac:(done) k
    (SteerReceiptInput.clientSteerId input)
    (fun _ => normalizeSteerReceipt s k entry) s) as [= ??]. done.
Qed.

(** ** Draining and restoring *)

Definition queue_view (s : Store) := (steerQueues s, claimedSteers s, jobs s, closedSteerQueues s).

Lemma queue_view_settle k items st s : queue_view (settleSteerReceipts k items st s) = queue_view s.
Proof. by apply settle_frame. Qed.

Lemma queue_view_fold {A} (c : A -> option string) (g : A -> ReceiptEntry.t -> ReceiptEntry.t) k l s :
  queue_view (foldl (fun s i => match c i with
                                | Some c => update_receipt k c (g i) s
                                | None => s
                                end) s l) = queue_view s.
Proof. by apply fold_receipts_frame. Qed.

Definition claims_of (s : Store) (k : string) : list SteerQueueItem.t :=
  default [] (mget (claimedSteers s) k).

Lemma drain_effect k e now s s' q j :
  steerable_job s k e = Some j -> usesReceiptSafeProtocol (Some j) = true ->
  drainSteers k e now s = (Ok q, s') ->
  q = queue_of s k /\ jobs s' = jobs s /\ closedSteerQueues s' = closedSteerQueues s /\
  queue_of s' k = [] /\ claims_of s' k = claims_of s k ++ q.
Proof.
  intros Hs Hv. unfold drainSteers. rewrite Hs, Hv.
  destruct (queue_of s k) as [|x l] eqn:Hq.
  - intros [= <- <-]. by rewrite Hq, app_nil_r.
  - cbn [negb]. case_match; [|done]. generalize (x :: l) as q0. intros q0 [= <- <-].
    match goal with |- context [foldl ?f ?s0 ?l0] => set (s3 := foldl f s0 l0) end.
    assert (Hw : queue_view s3 = (mset (steerQueues s) k [],
        mset (claimedSteers s) k (claims_of s k ++ q0), jobs s, closedSteerQueues s)).
    { subst s3. rewrite (queue_view_fold SteerQueueItem.clientSteerId), queue_view_settle. done. }
    injection Hw as Hw1 Hw2 Hw3 Hw4. unfold queue_of, claims_of.
    rewrite Hw1, Hw2, Hw3, Hw4, !mget_mset_eq. done.
Qed.

Lemma filter_all {A} (P : A -> Prop) `{!forall x, Decision (P x)} (l : list A) :
  (forall x, x ∈ l -> P x) -> filter P l = l.
Proof.
  induction l as [|x l IH]; intros Hall; [done|]. rewrite filter_cons, decide_True.
  - f_equal. apply IH. intros y Hy. apply Hall. by right.
  - apply Hall. by left.
Qed.

Lemma steerable_same s s' k e :
  jobs s' = jobs s -> closedSteerQueues s' = closedSteerQueues s ->
  steerable_job s' k e = steerable_job s k e.
Proof. unfold steerable_job. by intros -> ->. Qed.

(** The queue and the claims hold each steer once. *)
Definition steers_distinct (s : Store) (k : string) : Prop :=
  NoDup (steer_ids (claims_of s k ++ queue_of s k)).

(** Draining hands over the whole queue, in order, exactly once: nothing stays queued, the
    steers move to the end of the claimed list, and a second drain returns nothing. *)
Theorem drain_is_exhaustive k e now now' s s' q j :
  steerable_job s k e = Some j -> usesReceiptSafeProtocol (Some j) = true ->
  drainSteers k e now s = (Ok q, s') ->
  q = queue_of s k /\ queue_of s' k = [] /\ claims_of s' k = claims_of s k ++ q /\
  drainSteers k e now' s' = (Ok [], s').
Proof.
  intros Hs Hv H. destruct (drain_effect _ _ _ _ _ _ _ Hs Hv H) as (-> & Hj & Hc & Hq & Hcl).
  split_and!; try done. unfold drainSteers.
  by rewrite (steerable_same s s' k e Hj Hc), Hs, Hq.
Qed.

(** A steer the drain took is recorded as claimed: its receipt passes the test of the restore. *)
Lemma restore_effect k items e s j :
  steerable_job s k e = Some j -> usesReceiptSafeProtocol (Some j) = true ->
  steers_distinct s k -> NoDup (steer_ids items) -> (forall x, x ∈ items -> x ∈ claims_of s k) ->
  forallb (claim_consistent s k (Job.createdAt j))
    (filter (fun i => SteerQueueItem.steerId i ∈ steer_ids items) (claims_of s k)) = true ->
  exists s', restoreClaimedSteers k items e s = (true, s') /\
    queue_of s' k =
      filter (fun i => SteerQueueItem.steerId i ∈ steer_ids items) (claims_of s k) ++ queue_of s k /\
    claims_of s' k = filter (fun i => SteerQueueItem.steerId i ∉ steer_ids items) (claims_of s k).
Proof.
  intros Hs Hv Hd Hi Hsub Hc. unfold restoreClaimedSteers. rewrite Hs, Hv. cbn [negb].
  fold (claims_of s k).
  set (mine := filter (fun i => SteerQueueItem.steerId i ∈ steer_ids items) (claims_of s k)) in *.
  set (others := filter (fun i => SteerQueueItem.steerId i ∉ steer_ids items) (claims_of s k)).
  unfold steers_distinct, steer_ids in Hd. rewrite fmap_app in Hd.
  apply NoDup_app in Hd as (Hdc & Hdis & Hdq).
  assert (Hperm : mine ≡ₚ items).
  { apply NoDup_Permutation.
    - apply NoDup_filter. by apply NoDup_fmap_1 in Hdc.
    - by apply NoDup_fmap_1 in Hi.
    - intros x. subst mine. rewrite list_elem_of_filter. split.
      + intros [Hx Hin]. apply list_elem_of_fmap in Hx as (y & Hxy & Hy).
        replace x with y; [done|]. specialize (Hsub y Hy).
        apply list_elem_of_lookup in Hin as [n Hn]. apply list_elem_of_lookup in Hsub as [m Hm].
        assert (n = m) as <-; [|congruence].
        eapply (NoDup_lookup _ _ _ (SteerQueueItem.steerId x) Hdc).
        * by rewrite list_lookup_fmap, Hn.
        * rewrite list_lookup_fmap, Hm. simpl. by rewrite Hxy.
      + intros Hx. split; [by apply list_elem_of_fmap_2 | by apply Hsub]. }
  rewrite bool_decide_true by by rewrite Hperm. cbn [negb]. rewrite Hc. cbn [negb].
  set (s1 := match others with [] => _ | _ :: _ => _ end).
  assert (H1 : queue_of s1 k = queue_of s k /\ claims_of s1 k = others).
  { subst s1. unfold queue_of, claims_of. destruct others eqn:E; simpl.
    - by rewrite mget_mdel_eq.
    - by rewrite mget_mset_eq. }
  assert (Hrest : filter (fun i => SteerQueueItem.steerId i ∉ steer_ids (queue_of s k)) mine = mine).
  { apply filter_all. intros x Hx. apply list_elem_of_filter in Hx as [_ Hx].
    intros Hq. eapply Hdis; [|exact Hq]. by apply list_elem_of_fmap_2. }
  rewrite Hrest. destruct mine as [|x l] eqn:E; rewrite <- E in *.
  - exists s1. rewrite E. destruct H1 as [-> ->]. done.
  - eexists. split; [done|].
    pose proof (queue_view_settle k mine queued (set_queue k (mine ++ queue_of s k) s1)) as Hw.
    injection Hw as Hw1 Hw2 _ _. destruct H1 as [_ H1].
    unfold queue_of at 1, claims_of at 1. rewrite Hw1, Hw2. simpl. rewrite mget_mset_eq.
    split; [done|]. exact H1.
Qed.

(** ** Receipts through a drain *)

Lemma receipt_of_update_ne k c c' f s :
  c <> c' -> receipt_of (update_receipt k c f s) k c' = receipt_of s k c'.
Proof.
  intros Hne. unfold receipt_of, receipts_of, update_receipt.
  destruct (mget (steerReceipts s) k) as [rs|] eqn:E; [|by rewrite E].
  destruct (mget rs c); simpl; [|by rewrite E].
  rewrite mget_mset_eq. simpl. by rewrite mget_mset_ne.
Qed.

Lemma fold_receipts_keep {A} (cl : A -> option string) (g : A -> ReceiptEntry.t -> ReceiptEntry.t)
    k c (l : list A) s e :
  (forall i e, ReceiptEntry.receipt (g i e) = ReceiptEntry.receipt e) ->
  receipt_of s k c = Some e ->
  exists e', receipt_of (foldl (fun s i => match cl i with
                                           | Some c => update_receipt k c (g i) s
                                           | None => s
                                           end) s l) k c = Some e' /\
             ReceiptEntry.receipt e' = ReceiptEntry.receipt e.
Proof.
  intros Hg. revert s e. induction l as [|x l IH]; intros s e He; simpl; [eauto|].
  destruct (cl x) as [c'|]; [|by apply IH]. destruct (decide (c' = c)) as [->|Hne].
  - destruct (IH (update_receipt k c (g x) s) (g x e)) as (e' & H1 & H2).
    + by rewrite receipt_of_update, He.
    + exists e'. by rewrite H1, H2, Hg.
  - apply IH. by rewrite receipt_of_update_ne.
Qed.

(** The settlement of a list of steers with distinct receipts. *)
Lemma settle_receipt k items st s j c x e :
  mget (jobs s) k = Some j -> usesReceiptSafeProtocol (Some j) = true ->
  receipt_of s k c = Some e -> SteerQueueItem.clientSteerId x = Some c -> c <> "" ->
  (forall i, i ∈ items -> SteerQueueItem.clientSteerId i = Some c -> i = x) ->
  (x ∈ items -> receipt_of (settleSteerReceipts k items st s) k c = Some (set_receipt_item x st e)).
Proof.
  intros Hj Hv He Hx Hc Huniq. unfold settleSteerReceipts. rewrite Hj, Hv.
  match goal with |- _ -> receipt_of (foldl ?f _ _) _ _ = _ => set (step := f) end.
  assert (Hgen : forall items s e, receipt_of s k c = Some e ->
    (forall i, i ∈ items -> SteerQueueItem.clientSteerId i = Some c -> i = x) ->
    (x ∈ items \/ e = set_receipt_item x st e) ->
    receipt_of (foldl step s items) k c = Some (set_receipt_item x st e)); [|by intros; apply Hgen; auto].
  clear items s e Hj He Huniq. induction items as [|i l IH]; intros s e He Huniq Hor; simpl.
  - destruct Hor as [?%elem_of_nil|Heq]; [done|]. by rewrite <- Heq.
  - assert (Hstep : forall c', SteerQueueItem.clientSteerId i = Some c' -> c' <> c ->
      receipt_of (step s i) k c = Some e).
    { intros c' Hi Hne. subst step. cbn beta. rewrite Hi. destruct (decide (c' = "")); [done|].
      by rewrite receipt_of_update_ne. }
    destruct (decide (SteerQueueItem.clientSteerId i = Some c)) as [Hi|Hi].
    + rewrite (Huniq i (list_elem_of_here _ _) Hi) in *.
      replace (set_receipt_item x st e) with (set_receipt_item x st (set_receipt_item x st e)) by done.
      apply IH; [|by intros i' ?; apply Huniq; right|by right].
      subst step. cbn beta. rewrite Hx, decide_False by done. by rewrite receipt_of_update, He.
    + apply IH; [|by intros i' ?; apply Huniq; right|].
      * destruct (SteerQueueItem.clientSteerId i) as [c'|] eqn:Hi'.
        -- apply (Hstep c'); [done | congruence].
        -- subst step. cbn beta. by rewrite Hi'.
      * destruct Hor as [[->|?]%elem_of_cons|?]; [done | by left | by right].
Qed.

Definition client_ok (i : SteerQueueItem.t) : bool :=
  negb (bool_decide (SteerQueueItem.clientSteerId i = Some "")).

Lemma receipt_consistent_same_id s k e st x y c :
  receipt_consistent s k e st x = true -> receipt_consistent s k e st y = true ->
  SteerQueueItem.clientSteerId x = Some c -> SteerQueueItem.clientSteerId y = Some c ->
  SteerQueueItem.steerId x = SteerQueueItem.steerId y.
Proof.
  unfold receipt_consistent. intros Hx Hy Hcx Hcy. rewrite Hcx in Hx. rewrite Hcy in Hy.
  destruct (receipt_of s k c); [|done].
  apply bool_decide_eq_true in Hx as (_ & _ & _ & Hx & _), Hy as (_ & _ & _ & Hy & _). congruence.
Qed.

Lemma nodup_ids_inj l (x y : SteerQueueItem.t) :
  NoDup (steer_ids l) -> x ∈ l -> y ∈ l -> SteerQueueItem.steerId x = SteerQueueItem.steerId y -> x = y.
Proof.
  intros Hd Hx Hy He. apply list_elem_of_lookup in Hx as [n Hn], Hy as [m Hm].
  assert (n = m) as <-; [|congruence].
  eapply (NoDup_lookup _ _ _ (SteerQueueItem.steerId x) Hd).
  - unfold steer_ids. by rewrite list_lookup_fmap, Hn.
  - unfold steer_ids. rewrite list_lookup_fmap, Hm. simpl. by rewrite He.
Qed.

(** After a drain every drained steer passes the claim test. *)
Lemma drain_claims_consistent k e now s s' q j x :
  steerable_job s k e = Some j -> usesReceiptSafeProtocol (Some j) = true ->
  NoDup (steer_ids (queue_of s k)) -> forallb client_ok (queue_of s k) = true ->
  drainSteers k e now s = (Ok q, s') -> x ∈ q -> claim_consistent s' k (Job.createdAt j) x = true.
Proof.
  intros Hs Hv Hd Hok H Hx. unfold drainSteers in H. rewrite Hs, Hv in H.
  pose proof (steerable_job_Some _ _ _ _ Hs) as (Hj & _).
  destruct (queue_of s k) as [|x0 l] eqn:Hq; [injection H as <- <-; by apply elem_of_nil in Hx|].
  cbn [negb] in H. destruct (forallb _ (x0 :: l)) eqn:Hcons in H; [|done].
  revert Hd Hok Hcons Hx H. generalize (x0 :: l) as q0. intros q0 Hd Hok Hcons Hx [= <- <-].
  rewrite forallb_forall in Hok, Hcons.
  unfold claim_consistent. destruct (SteerQueueItem.clientSteerId x) as [c|] eqn:Hc; [|done].
  assert (Hxc := Hcons x (proj1 (list_elem_of_In _ _) Hx)).
  assert (Hcne : c <> "").
  { intros ->. specialize (Hok x (proj1 (list_elem_of_In _ _) Hx)). unfold client_ok in Hok.
    by rewrite Hc in Hok. }
  pose proof Hxc as Hrec. unfold receipt_consistent in Hrec. rewrite Hc in Hrec.
  destruct (receipt_of s k c) as [entry|] eqn:Hentry; [|done].
  apply bool_decide_eq_true in Hrec as (_ & Hgen & _).
  match goal with |- context [settleSteerReceipts k q0 claimed ?s2] =>
    pose proof (settle_receipt k q0 claimed s2 j c x entry Hj Hv Hentry Hc Hcne) as Hset end.
  destruct (fold_receipts_keep SteerQueueItem.clientSteerId
    (fun _ => extend_receipt (At (now + STEER_RECEIPT_TTL_MS))) k c q0 _ _ ltac:(done)
    (Hset ltac:(intros i Hi Hic; eapply (nodup_ids_inj q0); eauto;
                eapply receipt_consistent_same_id; eauto;
                apply Hcons; by apply list_elem_of_In) Hx)) as (e' & He' & Hr').
  rewrite He', Hr'. apply bool_decide_eq_true. simpl. by split_and!.
Qed.

(** Restoring what a drain took is its inverse: after a drain that failed to be injected, the
    hand-back succeeds and the queue and the claimed list are what they were before the drain. *)
Theorem restore_undoes_drain k e now s s1 q j :
  steerable_job s k e = Some j -> usesReceiptSafeProtocol (Some j) = true ->
  steers_distinct s k -> forallb client_ok (queue_of s k) = true ->
  drainSteers k e now s = (Ok q, s1) ->
  exists s2, restoreClaimedSteers k q e s1 = (true, s2) /\
    queue_of s2 k = queue_of s k /\ claims_of s2 k = claims_of s k.
Proof.
  intros Hs Hv Hd Hok H. destruct (drain_effect _ _ _ _ _ _ _ Hs Hv H) as (Hq & Hj & Hc & Hq1 & Hc1).
  pose proof Hd as Hd'. unfold steers_distinct, steer_ids in Hd'. rewrite fmap_app in Hd'.
  apply NoDup_app in Hd' as (Hdc & Hdis & Hdq).
  assert (Hmine : filter (fun i => SteerQueueItem.steerId i ∈ steer_ids q) (claims_of s1 k) = q).
  { rewrite Hc1, filter_app. rewrite (filter_all _ q) by (intros; by apply list_elem_of_fmap_2).
    replace (filter _ (claims_of s k)) with (@nil SteerQueueItem.t); [done|]. symmetry.
    destruct (filter _ (claims_of s k)) as [|x l] eqn:E; [done|].
    assert (Hx : x ∈ filter (fun i => SteerQueueItem.steerId i ∈ steer_ids q) (claims_of s k))
      by (rewrite E; by left).
    apply list_elem_of_filter in Hx as [Hx Hin]. exfalso. rewrite Hq in Hx.
    eapply Hdis; [|exact Hx]. by apply list_elem_of_fmap_2. }
  destruct (restore_effect k q e s1 j) as (s2 & H2 & Hq2 & Hc2).
  - by rewrite (steerable_same s s1 k e Hj Hc).
  - done.
  - unfold steers_distinct. by rewrite Hq1, app_nil_r, Hc1, Hq.
  - by rewrite Hq.
  - intros x Hx. rewrite Hc1. apply elem_of_app. by right.
  - rewrite Hmine. apply forallb_forall. intros x Hx%list_elem_of_In.
    by apply (drain_claims_consistent k e now s s1 q j x).
  - exists s2. split; [done|]. rewrite Hq2, Hmine, Hq1, app_nil_r. split; [done|].
    rewrite Hc2, Hc1, filter_app. rewrite filter_all.
    + replace (filter _ q) with (@nil SteerQueueItem.t); [by rewrite app_nil_r|].
      destruct (filter _ q) as [|x l] eqn:E; [done|].
      assert (Hx : x ∈ filter (fun i => SteerQueueItem.steerId i ∉ steer_ids q) q)
        by (rewrite E; by left).
      apply list_elem_of_filter in Hx as [Hx Hin]. exfalso. by apply Hx, list_elem_of_fmap_2.
    + intros x Hx Hin. rewrite Hq in Hin. eapply Hdis; [|exact Hin]. by apply list_elem_of_fmap_2.
Qed.

(** ** Delivery *)

Lemma splice1_ids_fresh i (l : list SteerQueueItem.t) x :
  NoDup (steer_ids l) -> l !! i = Some x ->
  SteerQueueItem.steerId x ∉ steer_ids (splice1 i l).
Proof.
  intros Hd Hx Hin. pose proof (splice1_perm i l x Hx) as Hp. unfold steer_ids in *.
  rewrite Hp in Hd. simpl in Hd. by apply NoDup_cons in Hd as [? _].
Qed.

Lemma splice1_ids_sub i (l : list SteerQueueItem.t) id : id ∈ steer_ids (splice1 i l) -> id ∈ steer_ids l.
Proof.
  intros (x & -> & Hx)%list_elem_of_fmap. apply list_elem_of_fmap_2. by eapply splice1_sub.
Qed.

Lemma find_index_absent {A} (p : A -> bool) l :
  (forall x, x ∈ l -> p x = false) -> find_index p l = None.
Proof.
  induction l as [|x l IH]; intros Hall; simpl; [done|]. rewrite (Hall x) by by left.
  rewrite IH; [done|]. intros y Hy. apply Hall. by right.
Qed.

Lemma append_effect k e x s s' j :
  mget (jobs s) k = Some j -> usesReceiptSafeProtocol (Some j) = true ->
  appendChunk k e (Some x) s = (true, s') ->
  exists i y, claims_of s k !! i = Some y /\
    SteerQueueItem.steerId y = SteerQueueItem.steerId x /\
    Job.status j = running /\ k ∉ closedSteerQueues s /\
    jobs s' = jobs s /\ closedSteerQueues s' = closedSteerQueues s /\
    queue_of s' k = queue_of s k /\ claims_of s' k = splice1 i (claims_of s k).
Proof.
  intros Hj Hv. unfold appendChunk. rewrite Hj.
  destruct (negb _ || _); [done|]. destruct (bool_decide _) eqn:Hrun; [|done]. cbn [negb].
  apply bool_decide_eq_true in Hrun as [Hst Hcl].
  rewrite Hv. cbn [negb]. fold (claims_of s k). destruct (find_index _ _) as [i|] eqn:Hi; [|done].
  apply find_index_Some in Hi as (y & Hy & Hyx). apply bool_decide_eq_true in Hyx as [Hyx _].
  destruct (negb _); [done|]. intros [= <-]. exists i, y.
  set (s1 := match splice1 i (claims_of s k) with [] => _ | _ :: _ => _ end).
  assert (H1 : queue_view s1 = (steerQueues s, claimedSteers s1, jobs s, closedSteerQueues s) /\
               claims_of s1 k = splice1 i (claims_of s k)).
  { subst s1. unfold claims_of. destruct (splice1 _ _); simpl.
    - by rewrite mget_mdel_eq.
    - by rewrite mget_mset_eq. }
  destruct H1 as [H1 H2].
  assert (Hfin : forall s2, queue_view s2 = queue_view s1 ->
    jobs s2 = jobs s /\ closedSteerQueues s2 = closedSteerQueues s /\
    queue_of s2 k = queue_of s k /\ claims_of s2 k = splice1 i (claims_of s k)).
  { intros s2 Hs2. rewrite <- H2. rewrite H1 in Hs2. injection Hs2 as Hq Hc -> ->.
    unfold queue_of, claims_of. by rewrite Hq, Hc. }
  split_and!; try done; apply Hfin;
    (destruct (SteerQueueItem.clientSteerId x); [by apply update_receipt_frame | done]).
Qed.

(** C18. A claimed steer is delivered at most once and is never both delivered and handed back:
    the durable append of a delivered steer succeeds only while its generation runs with an open
    queue, takes the steer off the claimed list, so that no later drain, close or terminal
    transition finds it among the unsettled ones, and refuses a second append of the same steer. *)
Theorem delivered_at_most_once k e x s s' j :
  mget (jobs s) k = Some j -> usesReceiptSafeProtocol (Some j) = true -> steers_distinct s k ->
  appendChunk k e (Some x) s = (true, s') ->
  Job.status j = running /\ k ∉ closedSteerQueues s /\
  SteerQueueItem.steerId x ∈ steer_ids (claims_of s k) /\
  SteerQueueItem.steerId x ∉ steer_ids (unsettled s' k (Job.createdAt j)) /\
  appendChunk k e (Some x) s' = (false, s').
Proof.
  intros Hj Hv Hd H.
  destruct (append_effect k e x s s' j Hj Hv H)
    as (i & y & Hy & Hyx & Hst & Hcl & Hj' & Hc' & Hq' & Hcs').
  pose proof Hd as Hd'. unfold steers_distinct, steer_ids in Hd'. rewrite fmap_app in Hd'.
  apply NoDup_app in Hd' as (Hdc & Hdis & _).
  assert (Hin : SteerQueueItem.steerId x ∈ steer_ids (claims_of s k)).
  { rewrite <- Hyx. apply list_elem_of_fmap_2. by apply list_elem_of_lookup_2 in Hy. }
  assert (Hout : SteerQueueItem.steerId x ∉ steer_ids (claims_of s' k))
    by (rewrite Hcs', <- Hyx; by apply splice1_ids_fresh).
  split_and!; try done.
  - unfold unsettled, steer_ids. rewrite dedup_on_keys, fmap_app, elem_of_app. intros [Hc|Hc].
    + apply Hout. unfold claimedSteerItems in Hc. rewrite Hj', Hj, Hv in Hc.
      rewrite (proj2 (epoch_matches_Some _ _) eq_refl) in Hc. exact Hc.
    + rewrite Hq' in Hc. by apply (Hdis (SteerQueueItem.steerId x)).
  - unfold appendChunk. rewrite Hj', Hj, Hc'.
    destruct (negb _ || _); [done|]. destruct (negb _); [done|]. rewrite Hv. cbn [negb].
    fold (claims_of s' k). rewrite find_index_absent; [done|].
    intros z Hz. apply bool_decide_eq_false. intros [Hzx _]. apply Hout. rewrite <- Hzx.
    by apply list_elem_of_fmap_2.
Qed.

(** Once a run's queue has closed, nothing more is accepted, drained, handed back, armed or
    delivered on it: every steering operation refuses and leaves the store as it was. *)
Theorem closed_queue_is_inert k s e i w x q id now :
  k ∈ closedSteerQueues s ->
  enqueueSteerVersioned k i w e s = (EnqueueRejected STEER_ENQUEUE_NOT_RUNNING, s) /\
  drainSteers k e now s = (Ok [], s) /\
  restoreClaimedSteers k q e s = (false, s) /\
  armSteerVersioned k id e s = (Ok ArmMissing, s) /\
  appendChunk k e (Some x) s = (false, s).
Proof.
  intros Hc. assert (Hs : steerable_job s k e = None).
  { destruct (steerable_job s k e) as [j|] eqn:E; [|done].
    apply steerable_job_Some in E as (_ & _ & ? & _). done. }
  unfold enqueueSteerVersioned, drainSteers, restoreClaimedSteers, armSteerVersioned. rewrite Hs.
  split_and!; try done. unfold appendChunk. destruct (mget (jobs s) k); [|done].
  destruct (negb _ || _); [done|]. rewrite bool_decide_false by naive_solver. done.
Qed.

(** ** Instances *)

Lemma demo_steered_job :
  exists j, steerable_job Demo.steered "s1" None = Some j /\ mget (jobs Demo.steered) "s1" = Some j /\
            usesReceiptSafeProtocol (Some j) = true.
Proof.
  destruct (steerable_job Demo.steered "s1" None) as [j|] eqn:E; [|by vm_compute in E].
  pose proof (steerable_job_Some _ _ _ _ E) as (Hj & _). exists j. split; [done|]. split; [done|].
  vm_compute in E. by injection E as <-.
Qed.

Lemma admission_spec_witness :
  exists r s', enqueueSteerWithReceipt "s1" (Demo.item "st3" (Some "c3") "u1")
    (Demo.input "c3" "u1" 10) true None 15 Demo.steered = (EnqueueReceipt r, s') /\
    SteerReceipt.position r = length (queue_of s' "s1").
Proof.
  destruct demo_steered_job as (j & Hs & _ & Hv).
  pose proof (admission_spec "s1" (Demo.item "st3" (Some "c3") "u1") (Demo.input "c3" "u1" 10) true
    None 15 Demo.steered j Hs Hv ltac:(by vm_compute)) as H.
  destruct (enqueueSteerWithReceipt _ _ _ _ _ _ _) as [r s'].
  destruct H as [(H & _)|[(_ & H & _)|(_ & _ & receipt & entry & -> & _ & _ & Hp & _)]].
  - exfalso. vm_compute in H. lia.
  - exfalso. vm_compute in H. lia.
  - exists receipt, s'. split; [reflexivity | exact Hp].
Defined.

Lemma retry_queues_nothing_witness :
  exists r s', enqueueSteerWithReceipt "s1" (Demo.item "other" (Some "c1") "u1")
    (Demo.input "c1" "u1" 10) true (Some 99%Z) 15 Demo.steered = (EnqueueReceipt r, s') /\
    SteerQueueItem.steerId (SteerReceipt.item r) = "st1" /\
    steerQueues s' = steerQueues Demo.steered.
Proof.
  destruct (receipt_of Demo.steered "s1" "c1") as [entry|] eqn:E; [|by vm_compute in E].
  destruct (retry_queues_nothing "s1" (Demo.item "other" (Some "c1") "u1") (Demo.input "c1" "u1" 10)
    true (Some 99%Z) 15 Demo.steered entry) as (r & s' & H & Hi & Hq & _).
  - exact E.
  - vm_compute in E. by injection E as <-.
  - exists r, s'. split; [exact H|]. split; [|exact Hq]. rewrite Hi.
    vm_compute in E. by injection E as <-.
Defined.

Lemma drain_is_exhaustive_witness :
  exists q s', drainSteers "s1" None 15 Demo.steered = (Ok q, s') /\
    steer_ids q = ["st1"; "st2"] /\ drainSteers "s1" None 16 s' = (Ok [], s').
Proof.
  destruct demo_steered_job as (j & Hs & _ & Hv).
  destruct (drainSteers "s1" None 15 Demo.steered) as [[q|e] s'] eqn:E; [|by vm_compute in E].
  destruct (drain_is_exhaustive "s1" None 15 16 Demo.steered s' q j Hs Hv E) as (Hq & _ & _ & H).
  exists q, s'. split; [reflexivity|]. split; [rewrite Hq; by vm_compute | exact H].
Defined.

Lemma restore_undoes_drain_witness :
  exists q s1 s2, drainSteers "s1" None 15 Demo.steered = (Ok q, s1) /\
    restoreClaimedSteers "s1" q None s1 = (true, s2) /\
    queue_of s2 "s1" = queue_of Demo.steered "s1".
Proof.
  destruct demo_steered_job as (j & Hs & _ & Hv).
  destruct (drainSteers "s1" None 15 Demo.steered) as [[q|e] s1] eqn:E; [|by vm_compute in E].
  destruct (restore_undoes_drain "s1" None 15 Demo.steered s1 q j) as (s2 & H2 & Hq & _).
  - exact Hs.
  - exact Hv.
  - apply (bool_decide_unpack _). by vm_compute.
  - by vm_compute.
  - exact E.
  - exists q, s1, s2. split; [reflexivity|]. split; [exact H2 | exact Hq].
Defined.

Lemma delivered_at_most_once_witness :
  let x := Demo.item "st1" (Some "c1") "u1" in
  let s := run_ops [(Drain "s1" None, 15%Z)] Demo.steered in
  exists s', appendChunk "s1" None (Some x) s = (true, s') /\
             appendChunk "s1" None (Some x) s' = (false, s').
Proof.
  intros x s.
  destruct (mget (jobs s) "s1") as [j|] eqn:Ej; [|by vm_compute in Ej].
  destruct (appendChunk "s1" None (Some x) s) as [[] s'] eqn:E; [|by vm_compute in E].
  destruct (delivered_at_most_once "s1" None x s s' j) as (_ & _ & _ & _ & H).
  - exact Ej.
  - vm_compute in Ej. by injection Ej as <-.
  - apply (bool_decide_unpack _). by vm_compute.
  - exact E.
  - exists s'. split; [reflexivity | exact H].
Defined.

Lemma closed_queue_is_inert_witness :
  let s := run_ops [(CloseAndDrain "s1" None, 15%Z)] Demo.steered in
  enqueueSteerVersioned "s1" (Demo.item "st9" None "u1") false None s =
    (EnqueueRejected STEER_ENQUEUE_NOT_RUNNING, s).
Proof.
  intros s.
  apply (closed_queue_is_inert "s1" s None (Demo.item "st9" None "u1") false
           (Demo.item "st9" None "u1") [] "st1" 16).
  vm_compute. by left.
Defined.
