(* ===== verification/StoreSteering.v ===== *)
(** * The queue of an open generation over runs of the store

    A generation is open while it is the active job of its stream and its queue takes steers.  No
    operation reopens one.  Every operation other than the steering operations themselves leaves
    the queue of a generation alone as long as the generation stays open: whatever takes steers
    away (transitions, replacement, reaping, eviction) also ends or closes the generation. *)

From S2P Require Import Prelude JsMap Json StreamTypes SteerRecovery StoreState StoreSteers StoreParked.
From S2P Require Import StoreJobs StoreCleanup StoreFrame StoreRun StoreEpochs StoreParking StoreReaping StoreQueue.

(** What the steering operations of stream [k] read and write. *)
Definition sview (k : string) (s : Store) :=
  (mget (steerQueues s) k, mget (claimedSteers s) k, bool_decide (k ∈ closedSteerQueues s)).

Section frames.
Context (k : string).
Notation sview := (sview k).

Lemma sview_settle k' items st s : sview (settleSteerReceipts k' items st s) = sview s.
Proof. by apply settle_frame. Qed.

Lemma sview_update_receipt k' c f s : sview (update_receipt k' c f s) = sview s.
Proof. by apply update_receipt_frame. Qed.

Lemma sview_map_receipts k' f s : sview (map_receipts k' f s) = sview s.
Proof. by apply map_receipts_frame. Qed.

Lemma sview_receipts v s : sview (with_steerReceipts v s) = sview s.
Proof. done. Qed.
Lemma sview_parked v s : sview (with_parkedSteers v s) = sview s.
Proof. done. Qed.
Lemma sview_jobs k' j s : sview (set_job k' j s) = sview s.
Proof. done. Qed.

Lemma sview_extend_lease k' j t p v i s : sview (extend_lease k' j t p v i s) = sview s.
Proof.
  unfold extend_lease. repeat case_match; try done. by rewrite sview_update_receipt, sview_parked.
Qed.

Lemma sview_extendRecoveryLease k' j t now s : sview (extendRecoveryLease k' j t now s) = sview s.
Proof. unfold extendRecoveryLease. repeat case_match; try done. apply sview_extend_lease. Qed.

Lemma sview_leaseParked k' id u t c now s : sview (leaseParkedSteer k' id u t c now s) = sview s.
Proof.
  unfold leaseParkedSteer. destruct (mget (jobs s) k'); [|done].
  repeat (case_match; try done); cbv zeta; simplify_eq; rewrite ?sview_parked, ?sview_extend_lease; done.
Qed.

Lemma sview_park k' j now : k' <> k -> keeps sview (parkQueuedSteers k' j now).
Proof.
  intros Hne. apply parkQueuedSteers_frame; try done; intros; unfold StoreSteering.sview; simpl;
    by rewrite ?mget_mset_ne, ?mget_mdel_ne.
Qed.

Lemma sview_parkLeftovers k' l j now : keeps sview (parkLeftovers k' l j now).
Proof. by apply parkLeftovers_frame. Qed.

(** Parking that throws has not touched the queue. *)
Lemma sview_park_throw j now s e s' :
  parkQueuedSteers k j now s = (Throw e, s') -> sview s' = sview s.
Proof.
  unfold parkQueuedSteers. destruct (unsettled _ _ _) as [|x q]; [done|].
  unfold bindM, modify. pose proof (sview_parkLeftovers k (x :: q) (Some j) now
    (settleSteerReceipts k (x :: q) leftover s)) as H.
  destruct (parkLeftovers _ _ _ _ _) as [[[]|e'] s1]; [done|]. intros [= <- <-].
  simpl in H. by rewrite H, sview_settle.
Qed.
End frames.

#[export] Hint Rewrite sview_settle sview_update_receipt sview_map_receipts sview_receipts sview_parked
  sview_jobs sview_extend_lease sview_extendRecoveryLease sview_leaseParked : sview.

(** ** Open generations *)

Section steady.
Context (k : string) (g : Z).

Record open (s : Store) : Prop := {
  op_job : exists j, mget (jobs s) k = Some j /\ Job.createdAt j = g /\ active (Job.status j) = true;
  op_queue : k ∉ closedSteerQueues s
}.

(** From [s] to [s'] the generation was not reopened, and if it is still open then its queue is
    the same and its claims are among those it had. *)
Record steady (s s' : Store) : Prop := {
  sd_open : open s' -> open s;
  sd_queue : open s' -> queue_of s' k = queue_of s k;
  sd_claims : open s' -> sublist (claims_of s' k) (claims_of s k)
}.

#[global] Instance steady_preorder : PreOrder steady.
Proof.
  split; [by split|]. intros s1 s2 s3 [A1 A2 A3] [B1 B2 B3]. split; intros H.
  - auto.
  - rewrite B2 by done. auto.
  - etrans; [apply B3, H|]. auto.
Qed.

Lemma steady_closed s s' : ~ open s' -> steady s s'.
Proof. by split. Qed.

Lemma sview_eq s s' : sview k s' = sview k s ->
  queue_of s' k = queue_of s k /\ claims_of s' k = claims_of s k /\
  (k ∈ closedSteerQueues s' <-> k ∈ closedSteerQueues s).
Proof.
  intros [= Hq Hc Hk]. unfold queue_of, claims_of. rewrite Hq, Hc. split_and!; [done | done|].
  by rewrite <- (bool_decide_eq_true (k ∈ closedSteerQueues s')), Hk, bool_decide_eq_true.
Qed.

Lemma open_back s s' : quiet s s' -> open s' -> (k ∈ closedSteerQueues s -> k ∈ closedSteerQueues s') ->
  open s.
Proof.
  intros Hq [(j' & Hj' & Hg & Ha) Hc] Hs. destruct (q_jobs _ _ Hq _ _ Hj') as (j & Hj & [Hid Ht _]).
  split; [|by auto]. exists j. split_and!; [done | destruct Hid; congruence|].
  rewrite terminal_active, negb_true_iff, terminal_active in Ht.
  destruct (active (Job.status j)); [done|]. rewrite negb_true_iff in Ht.
  by rewrite Ht in Ha.
Qed.

Lemma steady_view s s' : quiet s s' -> sview k s' = sview k s -> steady s s'.
Proof.
  intros Hq (Hqu & Hc & Hk)%sview_eq. split; intros Ho; [|done | by rewrite Hc].
  apply (open_back s s' Hq Ho). tauto.
Qed.

(** Composition with a run that may throw. *)
Lemma steady_bind {A B} (m : M A) (f : A -> M B) s :
  steady s (m s).2 -> (forall a s', m s = (Ok a, s') -> steady s' (f a s').2) ->
  steady s ((m >>= f) s).2.
Proof.
  intros Hm Hf. unfold bindM. destruct (m s) as [[a|e] s'] eqn:E; simpl in *; [|done].
  etrans; [done|]. by apply Hf.
Qed.

Lemma steady_keeps {A} (m : M A) s : keeps core m -> keeps (sview k) m -> steady s (m s).2.
Proof. intros Hc Hv. apply steady_view; [by apply keeps_quiet | apply Hv]. Qed.

Lemma not_open_job s j : mget (jobs s) k = Some j -> terminal (Job.status j) = true -> ~ open s.
Proof.
  intros Hj Ht [(j' & Hj' & _ & Ha) _]. rewrite terminal_active in Ht. simplify_eq. by rewrite Ha in Ht.
Qed.

Lemma not_open_gone s : mget (jobs s) k = None -> ~ open s.
Proof. intros Hj [(j' & Hj' & _) _]. congruence. Qed.

(** ** Jobs *)

Lemma steady_transition k' args now s :
  transition_ok args = true -> steady s (transitionStatus k' args now s).2.
Proof.
  intros Hok. pose proof (transitionStatus_quiet k' args now s Hok) as Hq. revert Hq.
  unfold transitionStatus. destruct (mget (jobs s) k') as [j|] eqn:Hj; [|done].
  destruct (transition_guard args j) eqn:Hg; [|done]. simpl. case_match; [done|].
  destruct (terminal (JobStatusTransition.to args)) eqn:Ht.
  - unfold bindM, modify, retM. destruct (parkQueuedSteers k' j now s) as [[[]|e] s1] eqn:Hp.
    + destruct (decide (k' = k)) as [->|Hne].
      * intros _. apply steady_closed. apply (not_open_job _ (transitioned args j)).
        -- revert Ht. destruct (JobStatusTransition.to args); try done; intros _; cbn [snd];
             rewrite map_receipts_jobs; apply mget_mset_eq.
        -- by rewrite transitioned_status.
      * intros Hq. apply steady_view; [done|].
        pose proof (sview_park k k' j now Hne s) as Hv. rewrite Hp in Hv. cbn [snd] in Hv.
        rewrite <- Hv. cbn [snd].
        destruct (JobStatusTransition.to args); try done; by autorewrite with sview.
    + intros Hq. apply steady_view; [done|]. cbn [snd]. destruct (decide (k' = k)) as [->|Hne].
      * by eapply sview_park_throw.
      * pose proof (sview_park k k' j now Hne s) as Hv. by rewrite Hp in Hv.
  - intros Hq. apply steady_view; [done|]. unfold bindM, modify, retM. cbn [snd].
    destruct (JobStatusTransition.to args); try done; by autorewrite with sview.
Qed.

Lemma steady_transitionDrain k' args now s :
  transition_ok args = true -> steady s (transitionStatusAndDrainSteers k' args now s).2.
Proof.
  intros Hok. unfold transitionStatusAndDrainSteers. case_match; [done|].
  destruct (mget (jobs s) k'); [|done]. case_match; [done|].
  apply steady_bind; [by apply steady_transition | done].
Qed.

Lemma steady_update k' u e now s :
  forallb update_ok u = true -> steady s (updateJob k' u e now s).2.
Proof.
  intros Hu. pose proof (updateJob_quiet k' u e now s Hu) as Hq. revert Hq. unfold updateJob.
  destruct (mget (jobs s) k') as [j|] eqn:Hj; [|done]. case_match; [done|].
  case_match; [|intros Hq; by apply steady_view].
  case_match eqn:Hc; [|intros Hq; by apply steady_view]. intros _.
  bool_facts. apply steady_bind; [|done]. apply steady_transition.
  by apply update_transition_ok.
Qed.

Lemma sview_deleteJob k' e now s : k' <> k -> sview k (deleteJob k' e now s).2 = sview k s.
Proof.
  intros Hne. unfold deleteJob. destruct (mget (jobs s) k') as [t|]; [|done]. case_match; [done|].
  assert (Hs : forall s1, sview k s1 = sview k s ->
    sview k {| s1 with
      jobs := mdel (jobs s1) k';
      contentState := mdel (contentState s1) k';
      lastActivity := mdel (lastActivity s1) k';
      steerQueues := mdel (steerQueues s1) k';
      claimedSteers := mdel (claimedSteers s1) k';
      closedSteerQueues := sdel (closedSteerQueues s1) k';
      userJobMap := remove_from_index (user_key (Job.tenantId t) (Job.userId t)) k' (userJobMap s1) |}
    = sview k s).
  { intros s1 <-. unfold sview. cbn. rewrite !mget_mdel_ne by done. do 2 f_equal.
    apply bool_decide_ext. unfold sdel. rewrite list_elem_of_filter. naive_solver. }
  apply Hs. unfold retainGenerationEpoch. by repeat case_match.
Qed.

Lemma steady_delete k' e now s : steady s (deleteJob k' e now s).2.
Proof.
  destruct (decide (k' = k)) as [->|Hne].
  - destruct (mget (jobs (deleteJob k e now s).2) k) eqn:Hj.
    + unfold deleteJob in *. destruct (mget (jobs s) k); [|done]. case_match; [done|].
      cbn in Hj. by rewrite mget_mdel_eq in Hj.
    + by apply steady_closed, not_open_gone.
  - apply steady_view; [apply deleteJob_quiet | by apply sview_deleteJob].
Qed.

Lemma steady_park_delete k' j now s :
  mget (jobs s) k' = Some j ->
  steady s ((parkQueuedSteers k' j now >>
             modify (fun s => (deleteJob k' (Some (Job.createdAt j)) now s).2)) s).2.
Proof.
  intros Hj. unfold bindM, modify. pose proof (core_parkQueued k' j now s) as Hc.
  destruct (parkQueuedSteers k' j now s) as [[[]|e] s1] eqn:Hp; cbn [snd] in *.
  - destruct (decide (k' = k)) as [->|Hne].
    + apply steady_closed, not_open_gone. unfold deleteJob.
      rewrite (core_jobs _ _ Hc), Hj. cbn. rewrite bool_decide_true by done. cbn. apply mget_mdel_eq.
    + etrans; [|apply steady_delete]. apply steady_view; [by apply core_quiet|].
      pose proof (sview_park k k' j now Hne s) as Hv. by rewrite Hp in Hv.
  - apply steady_view; [by apply core_quiet|]. destruct (decide (k' = k)) as [->|Hne].
    + by eapply sview_park_throw.
    + pose proof (sview_park k k' j now Hne s) as Hv. by rewrite Hp in Hv.
Qed.

Lemma oldest_job_in best l k' j :
  oldest_job best l = Some (k', j) -> best = Some (k', j) \/ (k', j) ∈ l.
Proof.
  revert best. induction l as [|x l IH]; intros best; cbn [oldest_job]; [by left|].
  intros [H|H]%IH; [|right; by right].
  destruct best; [case_decide|]; simplify_eq; [right; by left | by left | right; by left].
Qed.

Lemma steady_evict now s : mwf (jobs s) -> steady s (evictOldest now s).2.
Proof.
  intros Hw. unfold evictOldest. destruct (oldest_job None (jobs s)) as [[k' j]|] eqn:Ho; [|done].
  case_decide; [done|]. apply oldest_job_in in Ho as [?|Ho]; [done|].
  by apply steady_park_delete, elem_mget.
Qed.

Lemma steady_begin a now s : mwf (jobs s) -> steady s (createJob_begin a now s).2.
Proof.
  intros Hw. unfold createJob_begin. apply steady_bind; [done|]. intros [] s1 [= _ <-].
  pose proof (validate_create_quiet a now s) as Hq.
  pose proof (validate_create_frame (sview k) ltac:(done) a now s) as Hv.
  apply steady_bind; [by apply steady_view|]. intros [] s2 H2. rewrite H2 in Hq, Hv.
  apply steady_bind; [done|]. intros [] s3 [= _ <-]. case_match; [|done].
  apply steady_evict. by apply (q_wf _ _ Hq).
Qed.

Lemma sview_install a j now s :
  CreateArgs.streamId a <> k -> sview k (install_job a j now s) = sview k s.
Proof.
  intros Hne. unfold install_job. cbv zeta.
  match goal with |- context [leaseParkedSteer ?a1 ?a2 ?a3 ?a4 ?a5 ?a6 ?s0] =>
    assert (Hv : sview k (leaseParkedSteer a1 a2 a3 a4 a5 a6 s0) = sview k s);
    [|set (s3 := leaseParkedSteer a1 a2 a3 a4 a5 a6 s0) in *; clearbody s3] end.
  { rewrite sview_leaseParked. unfold retainGenerationEpoch. by repeat case_match. }
  rewrite <- Hv. unfold sview. cbn. rewrite !mget_mdel_ne by done. do 2 f_equal.
  apply bool_decide_ext. unfold sdel. rewrite list_elem_of_filter. naive_solver.
Qed.

Lemma sview_created a c m s : sview k (with_userJobMap (m (userJobMap (start_claim a c s))) (start_claim a c s)) = sview k s.
Proof. unfold start_claim. by repeat case_match. Qed.

Lemma sview_commit a now s :
  CreateArgs.streamId a <> k \/ is_ok (createJob_commit a now s).1 = false ->
  sview k (createJob_commit a now s).2 = sview k s.
Proof.
  intros Hcase. unfold createJob_commit in *. unfold bindM at 1 in Hcase. unfold bindM at 1.
  pose proof (validate_create_frame (sview k) ltac:(done) a now s) as Hv.
  destruct (validate_create a now s) as [[[]|e] s0]; [|done]. cbn [snd] in Hv. rewrite <- Hv. clear Hv.
  set (pair := match mget (jobs s0) _ with Some p => _ | None => _ end) in *.
  assert (Hp : sview k pair.2 = sview k s0).
  { subst pair. destruct (mget (jobs s0) _); simpl; [done|]. by rewrite getRetained_frame. }
  clearbody pair. destruct pair as [p s1]. cbn [snd] in Hp. rewrite <- Hp. clear Hp.
  case_decide; [done|]. unfold bindM at 1 in Hcase. unfold bindM at 1. unfold lift_check in *.
  set (s2 := with_lastGenerationEpoch _ s1) in *.
  destruct (assertClaim a now s2); [|done].
  change (sview k s1) with (sview k s2). clearbody s2.
  unfold bindM, modify, retM in *. destruct (mget (jobs s0) _) as [q|].
  - destruct (parkQueuedSteers _ q now s2) as [[[]|e] s3] eqn:Hpark; cbn [fst snd is_ok] in *.
    + destruct Hcase as [Hne|]; [|done].
      pose proof (sview_park k _ q now Hne s2) as Hv. rewrite Hpark in Hv. cbn [snd] in Hv. rewrite <- Hv.
      rewrite (sview_created _ _ (index_created _ _)). by apply sview_install.
    + destruct (decide (CreateArgs.streamId a = k)) as [Heq|Hne].
      * rewrite Heq in Hpark. by eapply sview_park_throw.
      * pose proof (sview_park k _ q now Hne s2) as Hv. by rewrite Hpark in Hv.
  - cbn [fst snd is_ok] in *. destruct Hcase as [Hne|]; [|done].
    rewrite (sview_created _ _ (index_created _ _)). by apply sview_install.
Qed.

Lemma steady_commit a now s :
  (g <= lastGenerationEpoch s)%Z -> steady s (createJob_commit a now s).2.
Proof.
  intros Hg. destruct (decide (CreateArgs.streamId a = k)) as [Heq|Hne];
    destruct (createJob_commit a now s) as [[v|e] s'] eqn:H; cbn [snd].
  2: { pose proof (createJob_commit_throw _ _ _ _ _ H) as (Hj & _).
       pose proof (sview_commit a now s) as Hv. rewrite H in Hv. cbn in Hv.
       specialize (Hv (or_intror eq_refl)). apply sview_eq in Hv as (Hq & Hc & Hk).
       split; intros [Ho Hcl]; [|done | by rewrite Hc]. rewrite Hj in Ho. split; [done | by rewrite <- Hk]. }
  1: { apply steady_closed. intros [(j' & Hj' & Hc & _) _].
       apply createJob_commit_jobs in H as (p & j & Hj & _ & _ & Hjobs & _).
       rewrite Hjobs, Heq, mget_mset_eq in Hj'. simplify_eq.
       pose proof (next_epoch_last now p (lastGenerationEpoch s)). cbn in Hg. lia. }
  all: pose proof (sview_commit a now s (or_introl Hne)) as Hv; rewrite H in Hv; cbn in Hv;
    apply sview_eq in Hv as (Hq & Hc & Hk).
  - apply createJob_commit_jobs in H as (p & j & _ & _ & _ & Hjobs & _).
    split; intros [(j' & Hj' & Ho) Hcl]; [|done | by rewrite Hc].
    rewrite Hjobs, mget_mset_ne in Hj' by done. split; [eauto | by rewrite <- Hk].
  - apply createJob_commit_throw in H as (Hj & _).
    split; intros [(j' & Hj' & Ho) Hcl]; [|done | by rewrite Hc]. rewrite Hj in Hj'.
    split; [eauto | by rewrite <- Hk].
Qed.

(** ** The cleanup pass *)

Lemma steady_barrier k' j now s : steady s (cleanup_barrier k' j now s).2.
Proof.
  unfold cleanup_barrier. destruct (bool_decide _); [|done]. destruct (decide _); [done|].
  destruct (Job.pendingActionId j); [|done].
  apply steady_bind; [by apply steady_transitionDrain|]. intros [] s1 _; reflexivity.
Qed.

Lemma job_steady k' now s r s' :
  cleanup_job k' now s = (Ok r, s') -> steady s s' \/ (k' = k /\ r = true).
Proof.
  intros H. pose proof (cleanup_job_quiet k' now s) as Hq. rewrite H in Hq. cbn [snd] in Hq.
  unfold cleanup_job in H. destruct (mget (jobs s) k') as [j|] eqn:Hj; [|left; by simplify_eq].
  assert (Hpark : forall s1, k' <> k -> parkQueuedSteers k' j now s = (Ok tt, s1) ->
    sview k s1 = sview k s).
  { intros s1 Hne Hp. pose proof (sview_park k k' j now Hne s) as Hv. by rewrite Hp in Hv. }
  case_match; [left; by simplify_eq|].
  case_match.
  { case_match; [|left; by simplify_eq].
    apply bind_ok_inv in H as ([] & s1 & Hp & H). unfold bindM, modify, retM in H. simplify_eq.
    left. destruct (decide (k' = k)) as [->|Hne].
    - apply steady_closed. eapply not_open_job; [by apply mget_mset_eq | done].
    - apply steady_view; [done|]. by rewrite sview_jobs, (Hpark s1). }
  case_match; [|left; by simplify_eq]. case_match; [|left; by simplify_eq].
  apply bind_ok_inv in H as ([] & s1 & Hp & H). unfold retM in H. simplify_eq.
  destruct (decide (k' = k)); [by right|]. left. apply steady_view; [done | by apply Hpark].
Qed.

(** A generation that is marked for deletion under its own number. *)
Definition marked (s : Store) (e : Z) : Prop :=
  forall j, mget (jobs s) k = Some j -> Job.createdAt j = e.

Lemma marked_quiet s s' e : quiet s s' -> marked s e -> marked s' e.
Proof.
  intros Hq Hm j' Hj'. destruct (q_jobs _ _ Hq _ _ Hj') as (j & Hj & [[_ _ _ ->] _ _]). auto.
Qed.

Lemma visit_steady k' now s r s' :
  cleanup_visit k' now s = (Ok r, s') ->
  steady s s' \/ exists e, k' = k /\ r = Some e /\ marked s' e.
Proof.
  intros H. pose proof (cleanup_visit_quiet k' now s) as Hq. rewrite H in Hq. cbn [snd] in Hq.
  unfold cleanup_visit in H. destruct (mget (jobs s) k') as [j|] eqn:Hj; [|left; by simplify_eq].
  apply bind_ok_inv in H as (b & s1 & Hb & H). pose proof (steady_barrier k' j now s) as Hs.
  rewrite Hb in Hs. cbn [snd] in Hs. destruct b; [|unfold retM in H; simplify_eq; by left].
  apply bind_ok_inv in H as (r' & s2 & Hr & H). unfold retM in H. simplify_eq.
  destruct (job_steady _ _ _ _ _ Hr) as [Hr'|[-> ->]]; [left; by etrans|].
  right. exists (Job.createdAt j). split_and!; [done | done|].
  apply (marked_quiet s s' _ Hq). intros j' Hj'. congruence.
Qed.

Lemma loop_steady l now s d s' :
  cleanup_jobs l now s = (Ok d, s') ->
  steady s s' \/ exists e, (k, e) ∈ d /\ marked s' e.
Proof.
  revert s d s'. induction l as [|k' l IH]; intros s d s'; cbn [cleanup_jobs].
  { intros [= <- <-]. by left. }
  intros (r & s1 & H1 & (d1 & s2 & H2 & H3)%bind_ok_inv)%bind_ok_inv. unfold retM in H3. simplify_eq.
  pose proof (cleanup_jobs_quiet l now s1) as Hq. rewrite H2 in Hq. cbn [snd] in Hq.
  destruct (IH _ _ _ H2) as [Hs|(e & He & Hm)].
  2: { right. exists e. split; [|done]. destruct r; [by right | done]. }
  destruct (visit_steady _ _ _ _ _ H1) as [Hv|(e & -> & -> & Hm)]; [left; by etrans|].
  right. exists e. split; [by left|]. by apply (marked_quiet s1).
Qed.

Lemma steady_delete_all l now s : steady s (delete_all l now s).
Proof.
  unfold delete_all. revert s. induction l as [|e l IH]; intros s; simpl; [done|].
  etrans; [apply steady_delete | apply IH].
Qed.

Lemma steady_cleanup now s : steady s (cleanup now s).2.
Proof.
  unfold cleanup. unfold bindM, modify, gets, retM.
  destruct (loop_total (mkeys (jobs (prune_expired now s))) now (prune_expired now s)) as (d & s1 & Hl).
  rewrite Hl. cbn [snd].
  assert (Hp : steady s (prune_expired now s)) by (apply steady_view; [apply prune_expired_quiet | done]).
  destruct (loop_steady _ _ _ _ _ Hl) as [Hs|(e & He & Hm)].
  - etrans; [exact Hp|]. etrans; [exact Hs|]. etrans; [|apply steady_delete_all].
    by apply steady_view; [apply quiet_same|].
  - apply steady_closed. intros [(j & Hj & _) _].
    destruct (mget (jobs (prune_receipts now s1)) k) as [j1|] eqn:Hj1.
    + assert (Hc : Job.createdAt j1 = e) by by apply Hm. subst e.
      by rewrite (delete_all_hit _ _ _ _ j1) in Hj.
    + by rewrite delete_all_absent in Hj.
Qed.

(** ** Every operation but those on steers *)

Definition steer_op (o : op) : bool :=
  match o with
  | Enqueue _ _ _ _ | EnqueueReceipted _ _ _ _ _ | Drain _ _ | RestoreClaimed _ _ _ | RemoveSteer _ _ _
  | ArmSteer _ _ _ | DowngradePreempts _ _ | ClearSteers _ => true
  | _ => false
  end.

Lemma steady_close k' e now s : steady s (closeAndDrainSteers k' e now s).2.
Proof.
  pose proof (core_closeAndDrain k' e now s) as Hc. apply core_quiet in Hc. revert Hc.
  unfold closeAndDrainSteers. destruct (mget (jobs s) k') as [j|]; [|done].
  do 2 (case_match; [done|]). intros Hq.
  set (l := dedup_on _ _) in *. clearbody l.
  destruct (decide (k' = k)) as [->|Hne].
  - apply steady_closed. intros [_ Hk]. apply Hk. clear Hk Hq.
    match goal with |- _ ∈ closedSteerQueues ((modify ?f >> ?m) s).2 =>
      assert (Hkeep : keeps closedSteerQueues m) end.
    { apply keeps_bind; [intros ?; simpl; by case_match|]. intros [].
      apply keeps_bind; [intros ?; by apply settle_frame|]. intros [].
      apply keeps_bind; [done|]. intros [].
      apply keeps_bind; [|done]. by apply parkLeftovers_frame. }
    unfold bindM at 1. unfold modify at 1. rewrite Hkeep. cbn. unfold sadd.
    case_decide; [done|]. apply elem_of_app. right. by left.
  - apply steady_view; [done|].
    match goal with |- sview k ((modify ?f >> ?m) s).2 = _ =>
      assert (Hkeep : keeps (sview k) m); [|unfold bindM at 1; unfold modify at 1; rewrite Hkeep] end.
    2: { unfold sview. cbn. do 2 f_equal. apply bool_decide_ext. unfold sadd.
         case_decide; [done|]. rewrite elem_of_app, list_elem_of_singleton. naive_solver. }
    apply keeps_bind.
    { intros s2. cbn. case_match; [|done]. unfold sview. cbn. by rewrite mget_mset_ne. }
    intros []. apply keeps_bind; [intros ?; by apply settle_frame|]. intros [].
    apply keeps_bind; [intros ?; unfold sview; cbn; by rewrite mget_mdel_ne|]. intros [].
    apply keeps_bind; [|done]. apply sview_parkLeftovers.
Qed.

Lemma splice1_sublist {A} i (l : list A) : sublist (splice1 i l) l.
Proof.
  unfold splice1. revert i. induction l as [|x l IH]; intros [|i]; simpl; try done.
  - rewrite drop_0. by constructor.
  - constructor. apply IH.
Qed.

Lemma steady_append k' e d s : steady s (appendChunk k' e d s).2.
Proof.
  assert (Hq : quiet s (appendChunk k' e d s).2) by apply core_quiet, core_append.
  revert Hq. unfold appendChunk. destruct (mget (jobs s) k') as [j|]; [|done].
  case_match; [done|]. destruct d as [x|]; [|done]. case_match; [done|]. case_match; [done|].
  cbv zeta. destruct (find_index _ _) as [i|]; [|done]. case_match; [done|]. cbn [snd].
  intros Hq. pose proof (splice1_sublist i (default [] (mget (claimedSteers s) k'))) as Hs.
  set (s1 := match splice1 i _ with [] => _ | _ => _ end) in *.
  assert (Hmid : queue_of s1 k = queue_of s k /\ sublist (claims_of s1 k) (claims_of s k) /\
               closedSteerQueues s1 = closedSteerQueues s).
  { subst s1. destruct (splice1 i _) eqn:E; (split_and!; [done | | done]); unfold claims_of; cbn;
      (destruct (decide (k' = k)) as [->|Hne];
       [rewrite ?mget_mdel_eq, ?mget_mset_eq | by rewrite ?mget_mdel_ne, ?mget_mset_ne]);
      [apply sublist_nil_l | exact Hs]. }
  clearbody s1.
  match goal with |- steady s ?s2 => assert (Hend : sview k s2 = sview k s1) end.
  { case_match; [apply sview_update_receipt | done]. }
  apply sview_eq in Hend as (Hq2 & Hc2 & Hk2). destruct Hmid as (Hq1 & Hc1 & Hk1).
  split; intros Ho; [|congruence | by rewrite Hc2].
  apply (open_back _ _ Hq Ho). rewrite Hk2, Hk1. done.
Qed.

(** A generation that is open stays as it is, whatever else happens to the store. *)
Theorem run_op_steady o now s :
  op_ok o = true -> steer_op o = false -> epochs_ok s -> (g <= lastGenerationEpoch s)%Z ->
  steady s (run_op o now s).
Proof.
  intros Hok Ho He Hg.
  assert (Hcase : (exists a, o = CreateCommit a) \/ match o with CreateCommit _ => False | _ => True end)
    by (destruct o; eauto).
  destruct Hcase as [[a ->]|Hn]; [by apply steady_commit|].
  assert (Hq : quiet s (run_op o now s)) by by apply run_op_quiet.
  destruct o; try done; simpl in *;
    first [ by apply steady_begin; destruct He | by apply steady_delete | by apply steady_transition
          | by apply steady_transitionDrain | by apply steady_update | by apply steady_append
          | by apply steady_close | by apply steady_cleanup
          | by apply steady_closed, not_open_gone | idtac ].
  all: apply steady_view; [exact Hq|]; clear Hq;
    unfold acknowledgeReplacedJobs, markProviderExecutionDrained, beginProviderExecution,
      finalizeTerminalPersistence, recordActivity, clearTerminalHostAction, getJobIdsByUser,
      setGraph, setContentParts, setCollectedUsage, update_content, clearContentState,
      claimIdempotencyKey, takeoverIdempotencyKey, markIdempotencyKeyStarted,
      adoptIdempotencyKeyForJob, releaseIdempotencyKey, getSteerReceipt, delete_receipt,
      discardSteerLeftover, parkSteers, claimParkedSteersDetailed, consumeParkedSteer,
      store_parked_steers, getTerminalHostActionJobs;
    repeat case_match; try done; simplify_eq/=; autorewrite with sview; try done.
Qed.
End steady.

(** ** The steering operations *)

Section effects.
Context (k : string).

Lemma sview_set_queue k' q s : k' <> k -> sview k (set_queue k' q s) = sview k s.
Proof. intros Hne. unfold sview. cbn. by rewrite mget_mset_ne. Qed.

Lemma sview_set_claims k' l s : k' <> k ->
  sview k (with_claimedSteers (mset (claimedSteers s) k' l) s) = sview k s.
Proof. intros Hne. unfold sview. cbn. by rewrite mget_mset_ne. Qed.

Lemma sview_del_claims k' s : k' <> k ->
  sview k (with_claimedSteers (mdel (claimedSteers s) k') s) = sview k s.
Proof. intros Hne. unfold sview. cbn. by rewrite mget_mdel_ne. Qed.

Lemma sview_fold {A} (c : A -> option string) (f : A -> ReceiptEntry.t -> ReceiptEntry.t) k' l s :
  sview k (foldl (fun s i => match c i with
                             | Some c => update_receipt k' c (f i) s
                             | None => s
                             end) s l) = sview k s.
Proof. by apply fold_receipts_frame. Qed.

Lemma sview_delete_receipt k' c s : sview k (delete_receipt k' c s) = sview k s.
Proof. unfold delete_receipt. by case_match. Qed.

(** An operation on the steers of another stream. *)
Lemma steer_other o now s :
  match o with
  | Enqueue k' _ _ _ | EnqueueReceipted k' _ _ _ _ | Drain k' _ | RestoreClaimed k' _ _
  | RemoveSteer k' _ _ | ArmSteer k' _ _ | DowngradePreempts k' _ => k' <> k
  | _ => False
  end -> sview k (run_op o now s) = sview k s.
Proof.
  destruct o; try done; intros Hne; cbn [run_op].
  - unfold enqueueSteerVersioned. repeat case_match; try done. by apply sview_set_queue.
  - unfold enqueueSteerWithReceipt, enqueueSteerVersioned. cbv zeta.
    repeat case_match; try done; cbn [snd]; autorewrite with sview;
      rewrite ?sview_set_queue, ?sview_delete_receipt by done; done.
  - unfold drainSteers. repeat case_match; try done; cbn [snd].
    + by apply sview_set_queue.
    + rewrite sview_fold, sview_settle, sview_set_claims, sview_set_queue; done.
  - unfold restoreClaimedSteers. cbv zeta. repeat case_match; try done; cbn [snd];
      autorewrite with sview;
      rewrite ?sview_set_queue, ?sview_set_claims, ?sview_del_claims by done; done.
  - unfold removeSteer. cbv zeta. repeat case_match; try done; cbn [snd]; autorewrite with sview;
      rewrite ?sview_set_queue by done; done.
  - unfold armSteerVersioned. cbv zeta. repeat case_match; try done; cbn [snd];
      autorewrite with sview; rewrite ?sview_set_queue by done; done.
  - unfold downgradeSteerPreempts. cbv zeta. repeat case_match; try done; cbn [snd];
      rewrite (sview_fold fst (fun p => set_item_of_receipt p.2)); try done; by apply sview_set_queue.
Qed.

(** What an operation on the steers of stream [k] may change. *)
Record rewrites (s s' : Store) (q c : list SteerQueueItem.t) : Prop := {
  rw_queue : queue_of s' k = q;
  rw_claims : claims_of s' k = c;
  rw_closed : k ∈ closedSteerQueues s' <-> k ∈ closedSteerQueues s;
  rw_core : core s' = core s
}.

Lemma rewrites_same s s' :
  sview k s' = sview k s -> core s' = core s -> rewrites s s' (queue_of s k) (claims_of s k).
Proof. intros (Hq & Hc & Hk)%sview_eq Hcore. by split. Qed.

Lemma rewrites_open s s' g q c : rewrites s s' q c -> open k g s' <-> open k g s.
Proof.
  intros [_ _ Hk Hc%core_jobs]. split; intros [(j & Hj & H) Hn]; rewrite ?Hc, ?Hk in *;
    (split; [|by rewrite ?Hk; auto]); exists j; rewrite ?Hc; done.
Qed.

(** An operation that writes only the queue, and receipts. *)
Lemma rewrites_queue s s' q :
  sview k s' = sview k (set_queue k q s) -> core s' = core s -> rewrites s s' q (claims_of s k).
Proof.
  intros (Hq & Hc & Hk)%sview_eq Hcore. split; [|done | done | done].
  rewrite Hq. apply queue_of_set.
Qed.

Lemma steerable_open g s e j :
  open k g s -> steerable_job s k (Some e) = Some j -> e = g /\ Job.createdAt j = g.
Proof.
  intros [(j' & Hj' & Hg & _) _]. unfold steerable_job. rewrite Hj'. case_match eqn:E; [|done].
  intros [= <-]. apply andb_true_iff in E as [_ E%epoch_matches_Some]. split; congruence.
Qed.

(** [enqueued item outcome]: the item of the queue that this very call put there. *)
Definition enqueued (id : string) (o : SteerEnqueueOutcome) : option SteerQueueItem.t :=
  match o with
  | EnqueueResult p _ => Some p
  | EnqueueReceipt r =>
      if decide (SteerQueueItem.steerId (SteerReceipt.item r) = id) then Some (SteerReceipt.item r)
      else None
  | EnqueueRejected _ => None
  end.

(** What a call that may have put its own item into the queue leaves behind. *)
Definition admits (id : string) (e : option Z) (o : SteerEnqueueOutcome) (s s' : Store) : Prop :=
  match enqueued id o with
  | Some p => SteerQueueItem.steerId p = id /\ is_Some (steerable_job s k e) /\
      rewrites s s' (queue_of s k ++ [p]) (claims_of s k)
  | None => rewrites s s' (queue_of s k) (claims_of s k)
  end.

Lemma enqueue_rewrites item w e s o s' :
  enqueueSteerVersioned k item w e s = (o, s') -> admits (SteerQueueItem.steerId item) e o s s'.
Proof.
  unfold enqueueSteerVersioned, admits. destruct (steerable_job s k e) as [j|] eqn:Hs.
  - case_decide; intros [= <- <-]; cbn [enqueued]; [by apply rewrites_same|].
    split; [apply persisted_id|]. split; [done|]. by apply rewrites_queue.
  - intros [= <- <-]. by apply rewrites_same.
Qed.

Lemma receipts_rewrites s s0 s' q c :
  sview k s0 = sview k s -> core s0 = core s -> rewrites s0 s' q c -> rewrites s s' q c.
Proof.
  intros (_ & _ & Hk)%sview_eq Hcore [? ? ? ?]. split; [done | done | by etrans | by etrans].
Qed.

Lemma admits_receipts id e o s s0 s' :
  sview k s0 = sview k s -> core s0 = core s -> steerable_job s0 k e = steerable_job s k e ->
  admits id e o s0 s' -> admits id e o s s'.
Proof.
  intros Hv Hc Hst. unfold admits. apply (sview_eq k) in Hv as Hvs. destruct Hvs as (-> & -> & _). rewrite Hst.
  destruct (enqueued id o); [|by apply receipts_rewrites].
  intros (? & ? & H). split; [done|]. split; [done|]. by eapply receipts_rewrites.
Qed.

Lemma enqueue_unreceipted item input w e now s o s' :
  receipt_of s k (SteerReceiptInput.clientSteerId input) = None ->
  enqueueSteerWithReceipt k item input w e now s = (o, s') ->
  admits (SteerQueueItem.steerId item) e o s s'.
Proof.
  intros Hr. unfold enqueueSteerWithReceipt, admits. rewrite Hr.
  assert (Hsame : rewrites s s (queue_of s k) (claims_of s k)) by by apply rewrites_same.
  destruct (steerable_job s k e) as [j|] eqn:Hj; [|by intros [= <- <-]].
  destruct (usesReceiptSafeProtocol (Some j)); cbn [negb].
  2: { intros H%enqueue_rewrites. unfold admits in H. by rewrite Hj in H. }
  case_decide; [by intros [= <- <-]|].
  case_decide; intros [= <- <-]; cbn [enqueued]; [by apply rewrites_queue|].
  cbn [new_receipt SteerReceipt.item]. rewrite decide_True by apply persisted_id.
  split; [apply persisted_id|]. split; [done|]. by apply rewrites_queue.
Qed.

Lemma enqueue_receipt_rewrites item input w e now s o s' :
  (forall c x, receipt_of s k c = Some x ->
     SteerQueueItem.steerId (SteerReceipt.item (ReceiptEntry.receipt x)) <> SteerQueueItem.steerId item) ->
  enqueueSteerWithReceipt k item input w e now s = (o, s') ->
  admits (SteerQueueItem.steerId item) e o s s'.
Proof.
  intros Hfresh. set (c := SteerReceiptInput.clientSteerId input).
  destruct (receipt_of s k c) as [x|] eqn:Hr; [|by apply enqueue_unreceipted].
  destruct (expired (ReceiptEntry.expiresAt x) now) eqn:Hx.
  - assert (Hnone : receipt_of (delete_receipt k c s) k c = None).
    { unfold delete_receipt, receipt_of, receipts_of in *. destruct (mget (steerReceipts s) k) eqn:E.
      - cbn. rewrite mget_mset_eq. apply mget_mdel_eq.
      - by rewrite E. }
    intros H. apply (admits_receipts _ _ _ s (delete_receipt k c s));
      [apply sview_delete_receipt | apply core_delete_receipt | |].
    { unfold delete_receipt. by destruct (mget (steerReceipts s) k). }
    apply (enqueue_unreceipted item input w e now); [done|]. rewrite <- H.
    unfold enqueueSteerWithReceipt. fold c. by rewrite Hr, Hnone, Hx.
  - unfold enqueueSteerWithReceipt. fold c. rewrite Hr, Hx. intros [= <- <-]. unfold admits.
    cbn [enqueued]. rewrite decide_False.
    + apply rewrites_same; [apply sview_update_receipt | apply core_update_receipt].
    + exact (Hfresh _ _ Hr).
Qed.

(** Draining takes the whole queue; the claims can only grow by what was taken. *)
Lemma drain_rewrites e now s r s' :
  drainSteers k e now s = (r, s') ->
  exists q c, rewrites s s' q c /\
    ((q = queue_of s k /\ c = claims_of s k /\ match r with Ok l => l = [] | Throw _ => True end) \/
     (is_Some (steerable_job s k e) /\ r = Ok (queue_of s k) /\ q = [] /\
      (c = claims_of s k \/ c = claims_of s k ++ queue_of s k))).
Proof.
  unfold drainSteers. intros H.
  assert (Hsame : s' = s -> rewrites s s' (queue_of s k) (claims_of s k))
    by (intros ->; by apply rewrites_same).
  destruct (steerable_job s k e) as [j|] eqn:Hs.
  2: { injection H as <- <-. eexists _, _. split; [by apply Hsame | by left]. }
  destruct (queue_of s k) as [|x l] eqn:Hq.
  { injection H as <- <-. eexists _, _. split; [by apply Hsame | left; done]. }
  rewrite <- Hq in *. clear x l Hq.
  destruct (usesReceiptSafeProtocol (Some j)) eqn:Hv; cbn [negb] in H.
  - case_match.
    + injection H as <- <-. eexists _, _. split; [|right; split_and!; [done | done | done | by right]].
      match goal with |- rewrites s ?s4 _ _ =>
        assert (Hw : sview k s4 = sview k (with_claimedSteers (mset (claimedSteers s) k
          (claims_of s k ++ queue_of s k)) (set_queue k [] s))) by (by rewrite sview_fold, sview_settle);
        assert (Hcore : core s4 = core s) end.
      { pose proof (core_foldl (fun s item => match SteerQueueItem.clientSteerId item with
          | Some c => update_receipt k c (extend_receipt (At (now + STEER_RECEIPT_TTL_MS))) s
          | None => s end)) as Hfold. rewrite Hfold; [by autorewrite with core|].
        intros; case_match; by autorewrite with core. }
      apply sview_eq in Hw as (Hq' & Hc' & Hk').
      split; [|rewrite Hc'; unfold claims_of; cbn; by rewrite mget_mset_eq | done | done].
      rewrite Hq'. apply queue_of_set.
    + injection H as <- <-. eexists _, _. split; [by apply Hsame | by left].
  - injection H as <- <-. eexists _, _. split; [by apply rewrites_queue|].
    right. split_and!; [done | done | done | by left].
Qed.

Lemma remove_rewrites id e s r s' :
  removeSteer k id e s = (r, s') ->
  exists q, rewrites s s' q (claims_of s k) /\
    ((q = queue_of s k /\ r <> Ok true) \/
     (r = Ok true /\ exists i x, queue_of s k !! i = Some x /\ SteerQueueItem.steerId x = id /\
        q = splice1 i (queue_of s k))).
Proof.
  unfold removeSteer. cbv zeta. intros H.
  assert (Hsame : forall r0, (r0, s) = (r, s') -> r0 <> Ok true ->
    exists q, rewrites s s' q (claims_of s k) /\ ((q = queue_of s k /\ r <> Ok true) \/
     (r = Ok true /\ exists i x, queue_of s k !! i = Some x /\ SteerQueueItem.steerId x = id /\
        q = splice1 i (queue_of s k)))).
  { intros r0 [= -> ->] Hr. eexists. split; [by apply rewrites_same | by left]. }
  case_match; [by eapply Hsame|].
  destruct (mget (steerQueues s) k) as [queue|] eqn:Hqueue; [|by eapply Hsame].
  assert (Hq : queue_of s k = queue) by (unfold queue_of; by rewrite Hqueue).
  destruct (scan_steer k id 0 None queue) as [[index|]|] eqn:Hscan; try by eapply Hsame.
  assert (Hi : exists x, queue !! index = Some x /\ SteerQueueItem.steerId x = id).
  { assert (Hg : forall l i found, scan_steer k id i found l = Ok (Some index) ->
      found = Some index \/ exists x, i <= index /\ l !! (index - i) = Some x /\
        SteerQueueItem.steerId x = id).
    { induction l as [|x l IH]; intros i found; cbn [scan_steer]; [intros [= ->]; by left|].
      repeat case_decide; [done | |].
      - destruct found; [done|]. intros [[= ->]|(y & Hi & Hy & Hid)]%IH.
        + right. exists x. rewrite Nat.sub_diag. split_and!; [lia | done | done].
        + right. exists y. split_and!; [lia | | done].
          replace (index - i) with (S (index - S i)) by lia. done.
      - intros [->|(y & Hi & Hy & Hid)]%IH; [by left|]. right. exists y. split_and!; [lia | | done].
        replace (index - i) with (S (index - S i)) by lia. done. }
    apply Hg in Hscan as [?|(x & _ & Hx & Hid)]; [done|]. rewrite Nat.sub_0_r in Hx. eauto. }
  destruct Hi as (target & Ht & Hid). rewrite Ht in H.
  assert (Hdone : forall s0, (Ok true, s0) = (r, s') ->
    sview k s0 = sview k (set_queue k (splice1 index queue) s) -> core s0 = core s ->
    exists q, rewrites s s' q (claims_of s k) /\ ((q = queue_of s k /\ r <> Ok true) \/
     (r = Ok true /\ exists i x, queue_of s k !! i = Some x /\ SteerQueueItem.steerId x = id /\
        q = splice1 i (queue_of s k)))).
  { intros s0 [= <- <-] Hv Hc. eexists. split; [by apply rewrites_queue|].
    right. split; [done|]. exists index, target. rewrite Hq. done. }
  destruct (mget (jobs s) k) as [j|].
  - destruct (queuedReceiptForMutation _ _ _ _ _) as [b|]; [|by eapply Hsame].
    apply (Hdone _ H); destruct b; by autorewrite with sview core.
  - case_match; [by eapply Hsame|]. by apply (Hdone _ H).
Qed.

(** The steers that a restore puts in front of the queue, and the claims it leaves. *)
Definition restored_steers (s : Store) (items : list SteerQueueItem.t) (j : Job.t)
  : list SteerQueueItem.t :=
  filter (fun i => SteerQueueItem.steerId i ∉ steer_ids (queue_of s k))
    (if usesReceiptSafeProtocol (Some j)
     then filter (fun i => SteerQueueItem.steerId i ∈ steer_ids items) (claims_of s k)
     else items).

Lemma restore_rewrites items e s b s' :
  restoreClaimedSteers k items e s = (b, s') ->
  (b = false /\ rewrites s s' (queue_of s k) (claims_of s k)) \/
  (b = true /\ exists j, steerable_job s k e = Some j /\
     (usesReceiptSafeProtocol (Some j) = true ->
      length (filter (fun i => SteerQueueItem.steerId i ∈ steer_ids items) (claims_of s k)) =
      length items) /\
     exists c, sublist c (claims_of s k) /\
       (usesReceiptSafeProtocol (Some j) = true -> forall x, x ∈ c -> SteerQueueItem.steerId x ∉ steer_ids items) /\
       rewrites s s' (restored_steers s items j ++ queue_of s k) c).
Proof.
  unfold restoreClaimedSteers, restored_steers. cbv zeta. intros H.
  assert (Hsame : (false, s) = (b, s') -> b = false /\ rewrites s s' (queue_of s k) (claims_of s k))
    by (intros [= <- <-]; split; [done|]; by apply rewrites_same).
  destruct (steerable_job s k e) as [j|]; [|left; by apply Hsame].
  destruct (usesReceiptSafeProtocol (Some j)) eqn:Hv; cbn [negb] in H.
  2: { injection H as <- <-. right. split; [done|]. exists j. rewrite Hv. split; [done|]. split; [done|].
       exists (claims_of s k). split; [done|]. split; [done|]. by apply rewrites_queue. }
  fold (claims_of s k) in H. set (acts := filter _ (claims_of s k)) in *.
  set (rest := filter (fun i => _ ∉ steer_ids items) (claims_of s k)) in *.
  destruct (bool_decide (length acts = length items)) eqn:Hl; cbn [negb] in H; [|left; by apply Hsame].
  apply bool_decide_eq_true in Hl.
  destruct (forallb _ acts); cbn [negb] in H; [|left; by apply Hsame].
  right. set (s1 := match rest with [] => _ | _ => _ end) in H.
  assert (H1 : queue_of s1 k = queue_of s k /\ claims_of s1 k = rest /\
               closedSteerQueues s1 = closedSteerQueues s /\ core s1 = core s).
  { subst s1. destruct rest; (split_and!; [done | | done | done]); unfold claims_of; cbn;
      by rewrite ?mget_mdel_eq, ?mget_mset_eq. }
  clearbody s1. destruct H1 as (Hq1 & Hc1 & Hk1 & Hcore1).
  set (res := filter _ acts) in *.
  assert (Hb : b = true /\ sview k s' = sview k (set_queue k (res ++ queue_of s k) s1) /\
               core s' = core s1 \/ b = true /\ res = [] /\ s' = s1).
  { destruct res eqn:Hres; injection H as <- <-; [by right|]. left. split; [done|]. split.
    - by rewrite sview_settle.
    - by autorewrite with core. }
  assert (Hrw : b = true /\ rewrites s s' (res ++ queue_of s k) rest).
  { destruct Hb as [(-> & Hv' & Hc')|(-> & Hr & ->)].
    - split; [done|]. apply (rewrites_queue s1) in Hv'; [|done].
      destruct Hv' as [Hq' Hcl' Hk' _]. split; [done | congruence | by rewrite Hk', Hk1 | congruence].
    - split; [done|]. rewrite Hr. split; [done | done | by rewrite Hk1 | done]. }
  destruct Hrw as [-> Hrw]. split; [done|]. exists j. rewrite Hv. split; [done|]. split; [done|].
  exists rest. split; [apply sublist_filter|]. split; [|done].
  intros _ x Hx%list_elem_of_filter. tauto.
Qed.

Lemma arm_rewrites id e s r s' :
  armSteerVersioned k id e s = (r, s') ->
  (rewrites s s' (queue_of s k) (claims_of s k) /\ forall rev x, r <> Ok (Armed rev x)) \/
  exists i x, is_Some (steerable_job s k e) /\ queue_of s k !! i = Some x /\ SteerQueueItem.steerId x = id /\
    r = Ok (Armed (default 0 (SteerQueueItem.preemptRevision x) + 1)%Z (bump_preempt (Some true) x)) /\
    rewrites s s' (<[i := bump_preempt (Some true) x]> (queue_of s k)) (claims_of s k).
Proof.
  unfold armSteerVersioned. cbv zeta. intros H.
  assert (Hsame : forall r0, (r0, s) = (r, s') -> (forall rev x, r0 <> Ok (Armed rev x)) ->
    rewrites s s' (queue_of s k) (claims_of s k) /\ forall rev x, r <> Ok (Armed rev x))
    by (intros r0 [= <- <-] Hr; split; [by apply rewrites_same | done]).
  destruct (steerable_job s k e) as [j|] eqn:Hj; [|left; by eapply Hsame].
  destruct (find_index _ _) as [i|] eqn:Hi; [|left; by eapply Hsame].
  destruct (queue_of s k !! i) as [x|] eqn:Hx; [|left; by eapply Hsame].
  case_match; [left; by eapply Hsame|].
  destruct (queuedReceiptForMutation _ _ _ _ _) as [b|]; [|left; by eapply Hsame].
  right. injection H as <- <-. exists i, x. split; [done|]. split; [done|]. split.
  - apply find_index_Some in Hi as (y & Hy & Hid). rewrite Hx in Hy. injection Hy as ->.
    by apply bool_decide_eq_true in Hid.
  - split; [done|]. apply rewrites_queue; destruct b; by autorewrite with sview core.
Qed.

Definition downgraded_queue (l : list SteerQueueItem.t) : list SteerQueueItem.t :=
  (fun i => if is_preempt i then bump_preempt None i else i) <$> l.

Lemma downgrade_rewrites e s r s' :
  downgradeSteerPreempts k e s = (r, s') ->
  (rewrites s s' (queue_of s k) (claims_of s k) /\ forall l, r <> Ok (Some l)) \/
  (match mget (jobs s) k with Some j => epoch_matches e (Job.createdAt j) | None => false end = true /\
   r = Ok (Some (bump_preempt None <$> filter (fun i => is_preempt i = true) (queue_of s k))) /\
   rewrites s s' (downgraded_queue (queue_of s k)) (claims_of s k)).
Proof.
  unfold downgradeSteerPreempts. cbv zeta. intros H.
  assert (Hsame : forall r0, (r0, s) = (r, s') -> (forall l, r0 <> Ok (Some l)) ->
    rewrites s s' (queue_of s k) (claims_of s k) /\ forall l, r <> Ok (Some l))
    by (intros r0 [= <- <-] Hr; split; [by apply rewrites_same | done]).
  destruct (mget (jobs s) k) as [j|]; [|left; by eapply Hsame].
  destruct (epoch_matches e (Job.createdAt j)) eqn:He; cbn [negb orb] in H; [|left; by eapply Hsame].
  case_match; [left; by eapply Hsame|].
  destruct (mapM _ _) as [bounds|]; [|left; by eapply Hsame].
  right. injection H as <- <-. split; [done|]. split; [done|].
  match goal with |- rewrites s ?s1 _ _ => set (s' := s1) end.
  assert (Hc : core s' = core s).
  { subst s'. rewrite core_foldl; [by destruct (mhas _ _)|].
    intros s0 p. destruct p.1; [apply core_update_receipt | done]. }
  assert (Hv : sview k s' = sview k (if mhas (steerQueues s) k
    then set_queue k (downgraded_queue (queue_of s k)) s else s))
    by (subst s'; by rewrite (sview_fold fst (fun p => set_item_of_receipt p.2))).
  clearbody s'. destruct (mhas (steerQueues s) k) eqn:Hm; [by apply rewrites_queue|].
  assert (Hq : queue_of s k = []).
  { unfold mhas in Hm. apply bool_decide_eq_false in Hm. unfold queue_of.
    destruct (mget (steerQueues s) k); [by destruct Hm | done]. }
  pose proof (rewrites_same s s' Hv Hc) as Hr. rewrite Hq in *. exact Hr.
Qed.
End effects.
