(* ===== verification/StoreIndex.v ===== *)
(** * The per-user index

    [getActiveJobIdsByUser] answers from an index that every job operation maintains lazily.  The
    invariant [index_ok] says that every active job is tracked under its owner; it holds in every
    reachable store, so the listing is exact. *)

From S2P Require Import Prelude JsMap Json StreamTypes SteerRecovery StoreState StoreSteers StoreParked.
From S2P Require Import StoreJobs StoreCleanup StoreFrame StoreRun StoreEpochs.

Definition tracked (m : jsmap (list string)) (j : Job.t) : list string :=
  default [] (mget m (user_key (Job.tenantId j) (Job.userId j))).

Definition index_ok (s : Store) : Prop :=
  forall k j, mget (jobs s) k = Some j -> active (Job.status j) = true ->
              k ∈ tracked (userJobMap s) j.

Lemma index_ok_new ttl max stale : index_ok (newStore ttl max stale).
Proof. intros k j. done. Qed.

Lemma succ_job_active j j' :
  succ_job j j' -> active (Job.status j') = true -> active (Job.status j) = true.
Proof.
  intros [_ Ht _] Ha. destruct (active (Job.status j)) eqn:E; [done|].
  rewrite !terminal_active, E, Ha in Ht. by specialize (Ht eq_refl).
Qed.

Lemma succ_job_tracked m j j' : succ_job j j' -> tracked m j' = tracked m j.
Proof. intros [[_ Hu Ht _] _ _]. unfold tracked. by rewrite Hu, Ht. Qed.

(** A quiet operation that only ever removes from the index streams whose job is gone. *)
Lemma index_ok_quiet s s' :
  quiet s s' -> index_ok s ->
  (forall k j, mget (jobs s') k = Some j -> active (Job.status j) = true ->
     k ∈ tracked (userJobMap s) j -> k ∈ tracked (userJobMap s') j) ->
  index_ok s'.
Proof.
  intros Hq Hok Hmap k j' Hj' Ha. apply Hmap; [done | done|].
  destruct (q_jobs _ _ Hq _ _ Hj') as (j & Hj & Hs).
  rewrite (succ_job_tracked _ _ _ Hs). apply Hok; [done|]. by eapply succ_job_active.
Qed.

Lemma index_ok_same s s' : quiet s s' -> userJobMap s' = userJobMap s -> index_ok s -> index_ok s'.
Proof. intros Hq Hm Hok. apply (index_ok_quiet s); [done | done|]. by rewrite Hm. Qed.

(** ** Deletion *)

Lemma remove_from_index_keeps key k k' m key' :
  k' <> k -> k' ∈ default [] (mget m key') ->
  k' ∈ default [] (mget (remove_from_index key k m) key').
Proof.
  intros Hne Hin. unfold remove_from_index. destruct (mget m key) as [ids|] eqn:E; [|done].
  assert (Hids : key = key' -> k' ∈ sdel ids k).
  { intros <-. rewrite E in Hin. by apply elem_sdel. }
  destruct (sdel ids k) as [|x l] eqn:Ed.
  - rewrite mget_mdel. case_decide as Hk; [|done]. by apply Hids, elem_of_nil in Hk.
  - rewrite mget_mset. case_decide as Hk; [|done]. by apply Hids.
Qed.

Lemma deleteJob_index k e now s : index_ok s -> index_ok (deleteJob k e now s).2.
Proof.
  intros Hok. apply (index_ok_quiet s); [apply deleteJob_quiet | done|].
  intros k' j'. unfold deleteJob. destruct (mget (jobs s) k) as [j|] eqn:Hj; [|done].
  destruct (negb _); [done|]. simpl. rewrite mget_mdel. case_decide as Hk; [done|].
  intros _ _. unfold tracked.
  replace (userJobMap (retainGenerationEpoch k (Job.createdAt j) now s)) with (userJobMap s)
    by (unfold retainGenerationEpoch; by repeat case_match).
  apply remove_from_index_keeps. congruence.
Qed.

Lemma delete_all_index l now s : index_ok s -> index_ok (delete_all l now s).
Proof.
  unfold delete_all. revert s. induction l as [|e l IH]; intros s Hok; simpl; [done|].
  by apply IH, deleteJob_index.
Qed.

(** ** Reading *)

Lemma jobIdsByUser_index u t b now s : index_ok s -> index_ok (getJobIdsByUser u t b now s).2.
Proof.
  intros Hok. apply (index_ok_quiet s); [apply jobIdsByUser_quiet | done|].
  intros k j. unfold getJobIdsByUser. set (key := user_key t u).
  destruct (mget (userJobMap s) key) as [[|x l]|] eqn:E; [done| |done]. cbn [snd].
  intros Hj Ha Hin. change (mget (jobs s) k = Some j) in Hj.
  set (ids := x :: l) in *. unfold tracked in *.
  assert (Hkeep : user_key (Job.tenantId j) (Job.userId j) = key ->
    k ∈ filter (fun i => classify_tracked s key b now i <> Dropped) ids).
  { intros Hk. rewrite Hk, E in Hin. apply list_elem_of_filter. split; [|done].
    unfold classify_tracked. rewrite Hj, bool_decide_true by done. cbn [negb].
    rewrite Ha. cbn [orb]. by case_match. }
  destruct (filter (fun i => classify_tracked s key b now i <> Dropped) ids) as [|y q] eqn:Ef; simpl.
  - rewrite mget_mdel. case_decide as Hk; [|done]. by symmetry in Hk; apply Hkeep, elem_of_nil in Hk.
  - rewrite mget_mset. case_decide as Hk; [|done]. by apply Hkeep.
Qed.

(** ** Creation *)

Lemma index_created_spec j previous m k' j' :
  k' = Job.streamId j \/ (k' <> Job.streamId j /\ k' ∈ tracked m j') ->
  (k' = Job.streamId j -> j' = j) -> k' ∈ tracked (index_created j previous m) j'.
Proof.
  intros Hor Heq. unfold index_created. set (key := user_key (Job.tenantId j) (Job.userId j)).
  set (m1 := match previous with Some p => _ | None => m end).
  assert (H1 : k' <> Job.streamId j -> k' ∈ tracked m j' -> k' ∈ tracked m1 j').
  { intros Hne Hin. subst m1. destruct previous as [p|]; [|done]. case_decide; [done|].
    by apply remove_from_index_keeps. }
  unfold tracked in *. rewrite mget_mset.
  destruct Hor as [Hk|[Hne Hin]].
  - rewrite (Heq Hk). rewrite decide_True by done. simpl. rewrite Hk. apply elem_sadd. by left.
  - specialize (H1 Hne Hin). case_decide as Hkey; [|done]. simpl. apply elem_sadd.
    right. by rewrite Hkey.
Qed.

Lemma commit_index a now s : index_ok s -> index_ok (createJob_commit a now s).2.
Proof.
  intros Hok. destruct (createJob_commit a now s) as [[v|e] s'] eqn:H; simpl.
  - apply createJob_commit_jobs in H as (p & j & Hj & _ & _ & Hjobs & _ & Hm).
    assert (Hsid : Job.streamId j = CreateArgs.streamId a) by by rewrite Hj.
    intros k' j' Hk' Ha. rewrite Hm. rewrite Hjobs, mget_mset in Hk'.
    apply index_created_spec; rewrite Hsid.
    + case_decide as Hk; [by left|]. right. split; [congruence|]. by apply Hok.
    + intros ->. rewrite decide_True in Hk' by done. congruence.
  - apply createJob_commit_throw in H as (Hj & Hm & _). intros k j. rewrite Hj, Hm. apply Hok.
Qed.

(** ** The other operations *)

Lemma core_same_index s s' : core s' = core s -> index_ok s -> index_ok s'.
Proof. intros Hc. apply index_ok_same; [by apply core_quiet | by apply core_index]. Qed.

(** The operations that do not touch the index. *)
Definition leaves_index (o : op) : bool :=
  match o with
  | CreateBegin _ | CreateCommit _ | Delete _ _ | JobIdsByUser _ _ _ | Cleanup | Destroy => false
  | _ => true
  end.

Lemma transitionStatus_map k args now : keeps userJobMap (transitionStatus k args now).
Proof.
  intros s. unfold transitionStatus. destruct (mget (jobs s) k) as [j|]; [|done].
  case_match; [done|]. case_match; [done|].
  apply keeps_bind; [case_match; [by apply parkQueuedSteers_frame | done]|]. intros [].
  apply keeps_bind; [done|]. intros [].
  apply keeps_bind; [intros ?; by apply map_receipts_frame|]. intros [].
  apply keeps_bind; [|done]. intros s1. simpl. case_match; try done;
    by apply core_index, core_extendRecoveryLease.
Qed.

Lemma leaves_index_map o now s : leaves_index o = true -> userJobMap (run_op o now s) = userJobMap s.
Proof.
  intros Ho. destruct o; try discriminate; simpl;
    try (apply core_index; by autorewrite with core);
    try (apply core_index; first [apply core_drain | apply core_closeAndDrain | apply core_remove
           | apply core_armVersioned | apply core_downgrade]);
    try apply transitionStatus_map;
    try (unfold setGraph, setContentParts, setCollectedUsage, update_content, clearContentState,
           acknowledgeReplacedJobs, markProviderExecutionDrained, beginProviderExecution,
           finalizeTerminalPersistence, clearTerminalHostAction, claimIdempotencyKey,
           takeoverIdempotencyKey, markIdempotencyKeyStarted, adoptIdempotencyKeyForJob,
           releaseIdempotencyKey, getTerminalHostActionJobs; by repeat case_match).
  - unfold transitionStatusAndDrainSteers. case_match; [done|].
    destruct (mget (jobs s) k); [|done]. case_match; [done|].
    by apply keeps_bind; [apply transitionStatus_map|].
  - unfold updateJob. destruct (mget (jobs s) k); [|done]. case_match; [done|].
    case_match; [|done]. case_match; [|done].
    by apply keeps_bind; [apply transitionStatus_map|].
  - unfold recordActivity. destruct (mget (jobs s) k); [|done]. case_match; [|done].
    apply core_index. by autorewrite with core.
Qed.

Lemma evict_index now s : index_ok s -> index_ok (evictOldest now s).2.
Proof.
  intros Hok. unfold evictOldest. destruct (oldest_job None (jobs s)) as [[k j]|]; [|done].
  case_decide; [done|]. unfold bindM, modify.
  pose proof (core_parkQueued k j now s) as Hc.
  destruct (parkQueuedSteers k j now s) as [[[]|e] s1]; simpl in *.
  - by apply deleteJob_index, (core_same_index s).
  - by apply (core_same_index s).
Qed.

Lemma createJob_begin_index a now s : index_ok s -> index_ok (createJob_begin a now s).2.
Proof.
  intros Hok. unfold createJob_begin, lift_check, bindM at 1. destruct (check_arguments a); [|done].
  unfold bindM at 1. pose proof (validate_create_frame table ltac:(done) a now s) as Hf.
  pose proof (validate_create_quiet a now s) as Hq.
  destruct (validate_create a now s) as [[[]|e] s1]; injection Hf as _ _ Hm;
    apply (index_ok_same s) in Hq; try done.
  unfold bindM at 1. destruct (assertClaim a now s1); [|done].
  case_match; [by apply evict_index | done].
Qed.

Lemma cleanup_jobs_map l now : keeps userJobMap (cleanup_jobs l now).
Proof.
  induction l as [|k l IH]; [done|]. simpl.
  apply keeps_bind; [|intros r; by apply keeps_bind].
  intros s. unfold cleanup_visit. destruct (mget (jobs s) k) as [j|]; [|done].
  apply keeps_bind.
  - intros s1. unfold cleanup_barrier. destruct (bool_decide _); [|done].
    destruct (decide _); [done|]. destruct (Job.pendingActionId j) as [x|]; [|done].
    apply keeps_bind; [|done]. intros s2.
    by apply (leaves_index_map (TransitionDrain k (pause_timeout_transition j x now))).
  - intros [|]; [|done]. apply keeps_bind; [|done]. intros s1. unfold cleanup_job.
    destruct (mget (jobs s1) k) as [j1|]; [|done].
    assert (Hp : keeps userJobMap (parkQueuedSteers k j1 now)) by by apply parkQueuedSteers_frame.
    case_match; [done|]. case_match; [case_match; [|done]|].
    + apply keeps_bind; [done|]. intros []. by apply keeps_bind.
    + case_match; [|done]. case_match; [|done]. by apply keeps_bind.
Qed.

Lemma cleanup_index now s : index_ok s -> index_ok (cleanup now s).2.
Proof.
  intros Hok. unfold cleanup, bindM, modify, gets, retM.
  set (s0 := prune_expired now s). set (l := mkeys (jobs s0)).
  assert (H0 : index_ok s0) by (apply (index_ok_same s); [apply prune_expired_quiet | done | done]).
  pose proof (cleanup_jobs_quiet l now s0) as Hq. pose proof (cleanup_jobs_map l now s0) as Hm.
  destruct (cleanup_jobs l now s0) as [[d|e] s1]; simpl in *;
    pose proof (index_ok_same _ _ Hq Hm H0) as H1; [|done].
  by apply delete_all_index.
Qed.

Lemma run_op_index o now s : op_ok o = true -> index_ok s -> index_ok (run_op o now s).
Proof.
  intros Ho Hok. destruct (leaves_index o) eqn:Hl.
  - apply (index_ok_same s); [|by apply leaves_index_map | done].
    apply run_op_quiet; [done|]. by destruct o.
  - destruct o; try discriminate; simpl.
    + by apply createJob_begin_index.
    + by apply commit_index.
    + by apply deleteJob_index.
    + by apply jobIdsByUser_index.
    + by apply cleanup_index.
Qed.

Lemma reaches_index s s' : reaches s s' -> index_ok s -> index_ok s'.
Proof. intros H Hok. induction H; [done|]. by apply run_op_index. Qed.

(** ** The listing *)

(** C23. The active listing is exact.  In every store reached from the construction, the listing of
    a user's active streams contains a stream exactly when its current job belongs to that user
    key and is running, or paused on a review that is still live: no active job is ever missing
    from the index, whatever deletions, replacements, evictions and pruning came before. *)
Theorem active_listing_is_exact ttl max stale s u t now k :
  reaches (newStore ttl max stale) s ->
  k ∈ (getActiveJobIdsByUser u t now s).1 <->
  exists j, mget (jobs s) k = Some j /\ user_key (Job.tenantId j) (Job.userId j) = user_key t u /\
    (Job.status j = running \/ Job.status j = requires_action /\ isPendingActionStale j now = false).
Proof.
  intros Hr. pose proof (reaches_index _ _ Hr (index_ok_new _ _ _)) as Hok.
  unfold getActiveJobIdsByUser, getJobIdsByUser. set (key := user_key t u).
  assert (Hclass : forall j, mget (jobs s) k = Some j ->
    user_key (Job.tenantId j) (Job.userId j) = key ->
    (classify_tracked s key false now k = Listed <->
     Job.status j = running \/ Job.status j = requires_action /\ isPendingActionStale j now = false)).
  { intros j Hj Hk. unfold classify_tracked. rewrite Hj, bool_decide_true by done. simpl.
    destruct (Job.status j), (isPendingActionStale j now); simpl; repeat case_bool_decide; naive_solver. }
  assert (Htrack : (k ∈ default [] (mget (userJobMap s) key) /\
                    classify_tracked s key false now k = Listed) <->
    exists j, mget (jobs s) k = Some j /\ user_key (Job.tenantId j) (Job.userId j) = key /\
      (Job.status j = running \/
       Job.status j = requires_action /\ isPendingActionStale j now = false)).
  { split.
    - intros [Hin Hc]. unfold classify_tracked in Hc. destruct (mget (jobs s) k) as [j|] eqn:Hj; [|done].
      destruct (bool_decide (user_key (Job.tenantId j) (Job.userId j) = key)) eqn:Hk; [|done].
      apply bool_decide_eq_true in Hk. exists j. split_and!; [done | done|].
      apply Hclass; [done | done|]. unfold classify_tracked. by rewrite Hj, bool_decide_true.
    - intros (j & Hj & Hk & Hst). split; [|by apply (Hclass j)].
      rewrite <- Hk. apply Hok; [done|]. destruct Hst as [->|[-> _]]; done. }
  rewrite <- Htrack. destruct (mget (userJobMap s) key) as [[|x l]|]; cbn [fst default].
  - split; [by intros ?%elem_of_nil | by intros [?%elem_of_nil _]].
  - rewrite list_elem_of_filter. simpl. tauto.
  - split; [by intros ?%elem_of_nil | by intros [?%elem_of_nil _]].
Qed.

Lemma active_listing_is_exact_witness :
  "s1" ∈ (getActiveJobIdsByUser "u1" None 12 Demo.steered).1.
Proof.
  apply (active_listing_is_exact None None None Demo.steered "u1" None 12 "s1").
  - apply (reaches_trans _ Demo.running1); by apply run_ops_reaches.
  - destruct (mget (jobs Demo.steered) "s1") as [j|] eqn:E; [|by vm_compute in E].
    exists j. split; [reflexivity|]. vm_compute in E. injection E as <-. split; [by vm_compute|]. by left.
Defined.
