(* ===== verification/Approval.v ===== *)
(** * The approval lifecycle ([stream/ApprovalLifecycle.ts])

    Pause, resolve and expire a run that waits for a human review.  The methods are [async]: other
    requests run at each of their [await]s.  A method is therefore a program of calls ([prog]);
    one call is atomic, and anything may happen between two.  The lifecycle is written against
    the interface [ApprovalStore], whose laws are what the store promises to it; the in-memory
    store discharges them in [ApprovalRaces.v]. *)

From stdpp Require Import relations.
From S2P Require Import Prelude Programs JsMap Json StreamTypes StoreState StoreSteers StoreParked StoreJobs.

(** ** Calls and programs *)

(** A call, with the type of its answer. *)
Inductive call : Type -> Type :=
| GetJob (k : string) : call (option Job.t)
| TransitionStatus (k : string) (args : JobStatusTransition.t) : call (result StoreError bool)
| TransitionAndDrain (k : string) (args : JobStatusTransition.t)
    : call (result StoreError (option (list SteerQueueItem.t)))
| DateNow : call Z
| Delay (ms : Z) : call ()
| OnPaused (k : string) (createdAt : Z) : call ()
| OnResumed (k : string) (createdAt : Z) : call ()
| OnExpired (k : string) (createdAt : Z) : call ()
| OnPausePersistenceFailed (k : string) (createdAt : Z) (error : string)
    (drained : list SteerQueueItem.t) : call ().

(** What a lifecycle method can throw; [OutOfFuel] stands for a wait that is still going on. *)
Inductive LifecycleError :=
| FromStore (e : StoreError)
| UnsafeBarrier (k : string)
| OutOfFuel.

Abbreviation prog := (Programs.prog call LifecycleError).

(** A call whose failure rejects the promise. *)
Definition try_call {R} (c : call (result StoreError R)) : prog R :=
  Step c (fun r => match r with Ok a => ret a | Throw e => Done (Throw (FromStore e)) end).

(** ** Pause *)

(** [pausePersistenceActionId(actionId)] *)
Definition pausePersistenceActionId (actionId : string) : string :=
  "pause-persistence:" +:+ actionId.

(** [ApprovalPauseOptions] *)
Module PauseOptions.
Record t := mk {
  discoveredTools : option (list string);
  activityPhaseSnapshot : option json;
  expectedCreatedAt : option Z;
  persistencePending : bool
}.
End PauseOptions.

(** [Math.ceil(x / 1000)] *)
Definition ceil_seconds (x : Z) : Z := - ((- x) / 1000).

(** The lifetime of the receipts of a paused generation, in seconds. *)
Definition pauseReceiptTtl (pendingAction : PendingAction.t) (now : Z) : Z :=
  Z.max (24 * 60 * 60)
    (match PendingAction.expiresAt pendingAction with
     | Some e => ceil_seconds (e - now) + 60
     | None => 0
     end).

(** The patch written by [pause]. *)
Definition pause_patch (pendingAction : PendingAction.t) (o : PauseOptions.t)
    (persistenceStartedAt : Z) : list JobField :=
  [F_pendingAction pendingAction;
   F_pendingActionId
     (if PauseOptions.persistencePending o
      then pausePersistenceActionId (PendingAction.actionId pendingAction)
      else PendingAction.actionId pendingAction)] ++
  (if PauseOptions.persistencePending o
   then [F_terminalPersistencePending true; F_terminalPersistenceStartedAt persistenceStartedAt]
   else []) ++
  match PauseOptions.discoveredTools o with
  | Some (t :: ts) => [F_metadata "discoveredTools" (JArr (JStr <$> t :: ts))]
  | _ => []
  end ++
  match PauseOptions.activityPhaseSnapshot o with
  | Some v => [F_metadata "activityPhaseSnapshot" v]
  | None => []
  end.

Definition pause_args (pendingAction : PendingAction.t) (o : PauseOptions.t) (createdAt now : Z)
  : JobStatusTransition.t :=
  JobStatusTransition.mk running requires_action (pause_patch pendingAction o now) [] None
    (Some createdAt) (Some (pauseReceiptTtl pendingAction now)).

(** [pause(streamId, pendingAction, options)] *)
Definition pause (k : string) (pendingAction : PendingAction.t) (o : PauseOptions.t) : prog bool :=
  await job <- ask (GetJob k);
  match job with
  | None => ret false
  | Some j =>
      if negb (bool_decide (Job.status j = running)) ||
         negb (epoch_matches (PauseOptions.expectedCreatedAt o) (Job.createdAt j))
      then ret false
      else
        let createdAt := default (Job.createdAt j) (PauseOptions.expectedCreatedAt o) in
        await now <- ask DateNow;
        await ok <- try_call (TransitionStatus k (pause_args pendingAction o createdAt now));
        if ok then await _ <- ask (OnPaused k createdAt); ret true else ret false
  end.

(** ** The pause barrier *)

(** [ownsPausePersistence(streamId, expectedActionId, expectedCreatedAt)] *)
Definition owns_barrier (expectedActionId : string) (expectedCreatedAt : option Z)
    (job : option Job.t) : bool :=
  match job with
  | None => false
  | Some j =>
      bool_decide (Job.status j = requires_action /\
                   Job.terminalPersistencePending j = Some true /\
                   (PendingAction.actionId <$> Job.pendingAction j) = Some expectedActionId /\
                   Job.pendingActionId j = Some (pausePersistenceActionId expectedActionId)) &&
      epoch_matches expectedCreatedAt (Job.createdAt j)
  end.
Definition ownsPausePersistence (k expectedActionId : string) (expectedCreatedAt : option Z)
  : prog bool :=
  await job <- ask (GetJob k); ret (owns_barrier expectedActionId expectedCreatedAt job).

(** [finishPausePersistence(streamId, expectedActionId, expectedCreatedAt)] *)
Definition finish_args (expectedActionId : string) (expectedCreatedAt : option Z)
  : JobStatusTransition.t :=
  JobStatusTransition.mk requires_action requires_action
    [F_pendingActionId expectedActionId; F_terminalPersistencePending false]
    [K_terminalPersistenceStartedAt] (Some (pausePersistenceActionId expectedActionId))
    expectedCreatedAt None.
Definition finishPausePersistence (k expectedActionId : string) (expectedCreatedAt : option Z)
  : prog bool := try_call (TransitionStatus k (finish_args expectedActionId expectedCreatedAt)).

(** [job.terminalPersistenceStartedAt ?? job.createdAt] *)
Definition barrier_started (j : Job.t) : Z :=
  default (Job.createdAt j) (Job.terminalPersistenceStartedAt j).

Definition stale_args (j : Job.t) (actionId : string) (completedAt : Z) : JobStatusTransition.t :=
  JobStatusTransition.mk requires_action error
    [F_completedAt completedAt; F_error PAUSE_PERSISTENCE_TIMEOUT_ERROR]
    [K_pendingAction; K_pendingActionId; K_terminalPersistencePending;
     K_terminalPersistenceStartedAt]
    (Some actionId) (Some (Job.createdAt j)) None.

(** [failStalePausePersistence(streamId, expectedCreatedAt)]; a throw of the notification is
    caught and logged. *)
Definition failStalePausePersistence (k : string) (expectedCreatedAt : option Z) : prog bool :=
  await job <- ask (GetJob k);
  match job with
  | None => ret false
  | Some j =>
      match Job.pendingActionId j with
      | None => ret false
      | Some actionId =>
          if negb (bool_decide (Job.status j = requires_action)) ||
             negb (bool_decide (Job.terminalPersistencePending j = Some true)) ||
             negb (epoch_matches expectedCreatedAt (Job.createdAt j))
          then ret false
          else
            await now <- ask DateNow;
            if decide (now - barrier_started j < PAUSE_PERSISTENCE_TIMEOUT_MS)%Z then ret false
            else
              await completedAt <- ask DateNow;
              await drained <- try_call (TransitionAndDrain k (stale_args j actionId completedAt));
              match drained with
              | None => ret false
              | Some l =>
                  await _ <- ask (OnPausePersistenceFailed k (Job.createdAt j)
                         PAUSE_PERSISTENCE_TIMEOUT_ERROR l);
                  ret true
              end
      end
  end.

(** The test on which the wait returns. *)
Definition barrier_up (expectedCreatedAt : option Z) (job : option Job.t) : bool :=
  match job with
  | None => false
  | Some j =>
      bool_decide (Job.status j = requires_action) &&
      bool_decide (Job.terminalPersistencePending j = Some true) &&
      epoch_matches expectedCreatedAt (Job.createdAt j)
  end.

(** [waitForPausePersistence(streamId, expectedCreatedAt)], at most [fuel] turns of its loop. *)
Fixpoint waitForPausePersistence (fuel : nat) (k : string) (expectedCreatedAt : option Z)
  : prog (option Job.t) :=
  match fuel with
  | O => Done (Throw OutOfFuel)
  | S fuel =>
      await job <- ask (GetJob k);
      match job with
      | None => ret None
      | Some j =>
          if negb (barrier_up expectedCreatedAt job) then ret job
          else
            await now <- ask DateNow;
            let elapsed := (now - barrier_started j)%Z in
            if decide (PAUSE_PERSISTENCE_TIMEOUT_MS <= elapsed)%Z then
              await failed <- failStalePausePersistence k
                           (Some (default (Job.createdAt j) expectedCreatedAt));
              if failed then waitForPausePersistence fuel k expectedCreatedAt
              else
                await current <- ask (GetJob k);
                match current with
                | Some c =>
                    if bool_decide (Job.createdAt c = Job.createdAt j /\
                                    Job.status c = requires_action /\
                                    Job.terminalPersistencePending c = Some true /\
                                    Job.pendingActionId c = Job.pendingActionId j)
                    then Done (Throw (UnsafeBarrier k))
                    else waitForPausePersistence fuel k expectedCreatedAt
                | None => waitForPausePersistence fuel k expectedCreatedAt
                end
            else
              await _ <- ask (Delay (Z.min 25 (PAUSE_PERSISTENCE_TIMEOUT_MS - elapsed)));
              waitForPausePersistence fuel k expectedCreatedAt
      end
  end.

(** ** Expire, resolve, peek *)

Definition paused_as (expectedCreatedAt : option Z) (j : Job.t) : bool :=
  bool_decide (Job.status j = requires_action) && epoch_matches expectedCreatedAt (Job.createdAt j).

Definition expire_args (expectedActionId : option string) (createdAt now : Z) (mark : bool)
  : JobStatusTransition.t :=
  JobStatusTransition.mk requires_action aborted
    ([F_error "Approval expired before a decision was made"; F_completedAt now] ++
     (if mark then [F_terminalHostActionPending true] else []))
    [K_pendingAction; K_pendingActionId] expectedActionId (Some createdAt) None.

(** [expireWithIdentity(streamId, expectedActionId, expectedCreatedAt, { markHostActionPending })] *)
Definition expireWithIdentity (fuel : nat) (k : string) (expectedActionId : option string)
    (expectedCreatedAt : option Z) (mark : bool) : prog (option Job.t) :=
  await job <- waitForPausePersistence fuel k expectedCreatedAt;
  match job with
  | None => ret None
  | Some j =>
      if negb (paused_as expectedCreatedAt j) then ret None
      else
        await now <- ask DateNow;
        await ok <- try_call (TransitionStatus k
                           (expire_args expectedActionId (Job.createdAt j) now mark));
        if ok then await _ <- ask (OnExpired k (Job.createdAt j)); ret (Some j) else ret None
  end.

(** [expire(streamId, expectedActionId, expectedCreatedAt)] *)
Definition expire (fuel : nat) (k : string) (expectedActionId : option string)
    (expectedCreatedAt : option Z) : prog bool :=
  await r <- expireWithIdentity fuel k expectedActionId expectedCreatedAt false;
  ret (match r with Some _ => true | None => false end).

Definition resolve_args (expectedActionId : option string) (resumePatch : JobMetadataPatch.t)
    (createdAt now : Z) : JobStatusTransition.t :=
  JobStatusTransition.mk requires_action running
    (F_lastActiveAt now :: metadata_fields resumePatch) [K_pendingAction; K_pendingActionId]
    expectedActionId (Some createdAt) None.

(** [resolve(streamId, expectedActionId, resumePatch, expectedCreatedAt)] *)
Definition resolve (fuel : nat) (k : string) (expectedActionId : option string)
    (resumePatch : JobMetadataPatch.t) (expectedCreatedAt : option Z) : prog bool :=
  await job <- waitForPausePersistence fuel k expectedCreatedAt;
  match job with
  | None => ret false
  | Some j =>
      if negb (paused_as expectedCreatedAt j) then ret false
      else match Job.pendingAction j with
      | None => await _ <- expire fuel k None (Some (Job.createdAt j)); ret false
      | Some action =>
          await now <- ask DateNow;
          if isPendingActionExpired j now then
            await _ <- expire fuel k (Some (default (PendingAction.actionId action) expectedActionId))
              (Some (Job.createdAt j));
            ret false
          else
            await now' <- ask DateNow;
            await resumed <- try_call (TransitionStatus k
                          (resolve_args expectedActionId resumePatch (Job.createdAt j) now'));
            if resumed then await _ <- ask (OnResumed k (Job.createdAt j)); ret true else ret false
      end
  end.

(** [peek(streamId)] *)
Definition peek_view (job : option Job.t) (now : Z) : option PendingAction.t :=
  match job with
  | Some j =>
      if bool_decide (Job.status j = requires_action) && negb (isPendingActionStale j now)
      then Job.pendingAction j else None
  | None => None
  end.
Definition peek (k : string) : prog (option PendingAction.t) :=
  await job <- ask (GetJob k);
  await now <- ask DateNow;
  ret (peek_view job now).

(** ** What the store promises *)

(** The operations that the lifecycle calls. *)
Class ApprovalStore (St : Type) := {
  as_job : St -> string -> option Job.t;
  as_transition : string -> JobStatusTransition.t -> Z -> St -> result StoreError bool * St;
  as_transitionDrain : string -> JobStatusTransition.t -> Z -> St ->
    result StoreError (option (list SteerQueueItem.t)) * St;
  (** what everyone else may do between two calls, the review [a] of stream [k] watched *)
  as_others : string -> string -> St -> St -> Prop
}.

(** Review [a] is the one the current job of stream [k] is waiting on. *)
Definition attached {St} `{ApprovalStore St} (s : St) (k a : string) : Prop :=
  exists j, as_job s k = Some j /\ Job.pendingActionId j = Some a.

(** A patch that attaches no review [a]. *)
Definition calm_patch (a : string) (p : list JobField) : bool :=
  forallb (fun f => match f with
                    | F_pendingActionId v => negb (bool_decide (v = a))
                    | F_streamId _ | F_userId _ | F_tenantId _ | F_createdAt _ | F_status _ => false
                    | _ => true
                    end) p.
Definition calm (a : string) (args : JobStatusTransition.t) : bool :=
  active (JobStatusTransition.from args) && calm_patch a (JobStatusTransition.patch args) &&
  forallb (fun k => negb (identity_key k)) (JobStatusTransition.clear args).

(** The atomic compare-and-set contract. *)
Class ApprovalStoreLaws (St : Type) `{ApprovalStore St} := {
  law_win : forall k args now s s', as_transition k args now s = (Ok true, s') ->
    exists j, as_job s k = Some j /\ transition_guard args j = true /\
              as_job s' k = Some (transitioned args j);
  law_calm : forall k args now s k' a, calm a args = true -> ~ attached s k' a ->
    ~ attached (as_transition k args now s).2 k' a;
  law_calm_drain : forall k args now s k' a, calm a args = true -> ~ attached s k' a ->
    ~ attached (as_transitionDrain k args now s).2 k' a;
  law_others : forall k a s s', as_others k a s s' -> ~ attached s k a -> ~ attached s' k a
}.

(** ** Execution

    One call on a store at a clock reading.  Callbacks and delays leave the store alone: what they
    trigger elsewhere is the business of the others. *)
Section execution.
Context {St : Type} `{ApprovalStore St}.

Definition exec {R} (c : call R) (now : Z) (s : St) : R * St :=
  match c in call R return R * St with
  | GetJob k => (as_job s k, s)
  | TransitionStatus k args => as_transition k args now s
  | TransitionAndDrain k args => as_transitionDrain k args now s
  | DateNow => (now, s)
  | Delay _ | OnPaused _ _ | OnResumed _ _ | OnExpired _ _ | OnPausePersistenceFailed _ _ _ _ =>
      (tt, s)
  end.

(** A run with nothing in between, the clock advanced by each delay. *)
Fixpoint run_alone {A} (p : prog A) (clock : Z) (s : St) : result LifecycleError A * Z * St :=
  match p with
  | Done r => (r, clock, s)
  | Step c k =>
      let '(r, s') := exec c clock s in
      let clock' := match c with Delay ms => (clock + ms)%Z | _ => clock end in
      run_alone (k r) clock' s'
  end.

(** Concurrent requests: a pool of programs, one of which makes its next call at some clock
    reading, or the others act. *)
Definition pool_step (k a : string) : St * list (prog bool) -> St * list (prog bool) -> Prop :=
  Programs.pool_step (fun R (c : call R) s r s' => exists now, exec c now s = (r, s'))
    (as_others k a).
Definition pool_steps (k a : string) := rtc (pool_step k a).

(** The programs of the pool that have answered [true]. *)
Definition has_won (p : prog bool) : bool := Programs.has_won id p.
Definition winners (ps : list (prog bool)) : nat := Programs.winners id ps.
End execution.
