(* ===== verification/ApprovalRaces.v ===== *)
(** * At most one decision per review

    Whatever the interleaving of resolve and expire requests for one review with each other and
    with everything else the server does, at most one of them answers [true], provided that nobody
    attaches the same action id again.  The argument uses only the compare-and-set contract of
    [ApprovalStore]; the in-memory store satisfies it. *)

From stdpp Require Import relations.
From S2P Require Import Prelude Programs JsMap Json StreamTypes StoreState StoreSteers StoreParked StoreJobs.
From S2P Require Import StoreCleanup StoreFrame StoreRun StoreEpochs Approval.

Section races.
Context {St : Type} `{ApprovalStoreLaws St} (k a : string).

(** ** Programs that can answer [true] only by winning the review *)

Definition calm_call {R} (c : call R) : bool :=
  match c with
  | TransitionStatus _ args | TransitionAndDrain _ args => calm a args
  | _ => true
  end.

(** A compare-and-set on review [a] of stream [k] that takes the review away. *)
Definition takes (k' : string) (args : JobStatusTransition.t) : bool :=
  bool_decide (k' = k /\ JobStatusTransition.expectActionId args = Some a /\
               K_pendingActionId ∈ JobStatusTransition.clear args).

Definition wins {R} (c : call R) : R -> bool :=
  match c in call R return R -> bool with
  | TransitionStatus k' args => fun r => takes k' args && match r with Ok b => b | _ => false end
  | _ => fun _ => false
  end.

Abbreviation all_calm := (calls (fun R (c : call R) => calm_call c = true)).
Abbreviation guarded := (Programs.guarded (fun R (c : call R) => calm_call c = true)
                           (fun R (c : call R) r => wins c r = true)).

(** ** The lifecycle programs *)

Lemma calm_stale j x now : calm a (stale_args j x now) = true.
Proof. done. Qed.

Lemma calm_fail k' e : all_calm (failStalePausePersistence k' e).
Proof.
  unfold failStalePausePersistence. split; [done|]. intros [j|]; simpl; [|done].
  destruct (Job.pendingActionId j); [|done]. destruct (negb _ || negb _ || negb _); [done|].
  split; [done|]. intros now. simpl. destruct (decide _); [done|].
  split; [done|]. intros now'. simpl. split; [done|].
  intros [[l|]|e']; simpl; repeat split.
Qed.

Lemma calm_wait n k' e : all_calm (waitForPausePersistence n k' e).
Proof.
  induction n as [|n IH]; [done|].
  change (waitForPausePersistence (S n) k' e) with
    (await job <- ask (GetJob k');
     match job with
     | None => ret None
     | Some j =>
         if negb (barrier_up e job) then ret job
         else
           await now <- ask DateNow;
           let elapsed := (now - barrier_started j)%Z in
           if decide (PAUSE_PERSISTENCE_TIMEOUT_MS <= elapsed)%Z then
             await failed <- failStalePausePersistence k' (Some (default (Job.createdAt j) e));
             if failed then waitForPausePersistence n k' e
             else
               await current <- ask (GetJob k');
               match current with
               | Some c =>
                   if bool_decide (Job.createdAt c = Job.createdAt j /\
                                   Job.status c = requires_action /\
                                   Job.terminalPersistencePending c = Some true /\
                                   Job.pendingActionId c = Job.pendingActionId j)
                   then Done (Throw (UnsafeBarrier k'))
                   else waitForPausePersistence n k' e
               | None => waitForPausePersistence n k' e
               end
           else
             await _ <- ask (Delay (Z.min 25 (PAUSE_PERSISTENCE_TIMEOUT_MS - elapsed)));
             waitForPausePersistence n k' e
     end).
  apply calls_bind; [done|]. intros [j|]; [|done]. destruct (negb _); [done|].
  apply calls_bind; [done|]. intros now. cbn zeta. destruct (decide _).
  - apply calls_bind; [apply calm_fail|]. intros [|]; [done|].
    apply calls_bind; [done|]. intros [c|]; [|done]. by destruct (bool_decide _).
  - by apply calls_bind.
Qed.

Lemma calm_metadata p : calm_patch a (metadata_fields p) = true.
Proof.
  unfold metadata_fields, calm_patch. rewrite !forallb_app.
  assert (Hm : forall l : list (string * json), forallb (fun f => match f with
      | F_pendingActionId v => negb (bool_decide (v = a))
      | F_streamId _ | F_userId _ | F_tenantId _ | F_createdAt _ | F_status _ => false
      | _ => true end) ((fun e => F_metadata e.1 e.2) <$> l) = true)
    by (induction l; simpl; auto).
  rewrite Hm. destruct p as [[] [] [] [] [] [] ?]; done.
Qed.

Lemma calm_expire_args x e now m : calm a (expire_args x e now m) = true.
Proof. by destruct m. Qed.

Lemma calm_resolve_args x p e now : calm a (resolve_args x p e now) = true.
Proof.
  unfold calm, resolve_args. cbn [JobStatusTransition.patch JobStatusTransition.from
    JobStatusTransition.clear]. change (calm_patch a (F_lastActiveAt now :: metadata_fields p))
    with (calm_patch a (metadata_fields p)). by rewrite calm_metadata.
Qed.

Lemma calm_expireWithIdentity n k' x e m : all_calm (expireWithIdentity n k' x e m).
Proof.
  apply calls_bind; [apply calm_wait|]. intros [j|]; [|done]. destruct (negb _); [done|].
  split; [done|]. intros now. split; [apply calm_expire_args|].
  intros [[]|err]; simpl; repeat split.
Qed.

Lemma calm_expire n k' x e : all_calm (expire n k' x e).
Proof. apply calls_bind; [apply calm_expireWithIdentity|]. by intros [j|]. Qed.

Lemma guarded_expire n e : guarded (fun b => b = false) (expire n k (Some a) e).
Proof.
  apply (guarded_bind _ _ (fun r => r = None)).
  - apply guarded_bind_calls; [apply calm_wait|]. intros [j|]; [|done]. destruct (negb _); [done|].
    split; [done|]. intros now. right. split; [apply calm_expire_args|].
    intros [[]|err]; simpl; [left | by right | by right]. split; [|by repeat split].
    unfold takes. rewrite bool_decide_true; [done|]. split_and!; try done. simpl. set_solver.
  - by intros [j|].
  - by intros [j|].
Qed.

Lemma guarded_resolve n p e : guarded (fun b => b = false) (resolve n k (Some a) p e).
Proof.
  apply guarded_bind_calls; [apply calm_wait|]. intros [j|]; [|done]. destruct (negb _); [done|].
  destruct (Job.pendingAction j) as [action|].
  - split; [done|]. intros now. right. simpl. destruct (isPendingActionExpired j now).
    + apply guarded_bind_calls; [apply calm_expire | done].
    + split; [done|]. intros now'. right. split; [apply calm_resolve_args|].
      intros [[]|err]; simpl; [left | by right | by right]. split; [|by repeat split].
      unfold takes. rewrite bool_decide_true; [done|]. split_and!; try done. simpl. set_solver.
  - apply guarded_bind_calls; [apply calm_expire | done].
Qed.

(** ** One call *)

Lemma clear_pending l j : K_pendingActionId ∈ l -> Job.pendingActionId (clear j l) = None.
Proof.
  unfold clear. revert j. induction l as [|x l IH]; intros j; [by intros ?%elem_of_nil|].
  simpl. intros [<-|Hin]%elem_of_cons; [|by apply IH].
  assert (Hn : forall l j, Job.pendingActionId j = None ->
                           Job.pendingActionId (foldl clear1 j l) = None).
  { intros l0. induction l0 as [|y l0 IH0]; intros j0 Hj0; [done|]. simpl. apply IH0.
    by destruct y. }
  by apply Hn.
Qed.

Lemma exec_win {R} (c : call R) now (s s' : St) r :
  exec c now s = (r, s') -> wins c r = true -> attached s k a /\ ~ attached s' k a.
Proof.
  destruct c; simpl; try done. intros He [Ht Hr]%andb_true_iff.
  destruct r as [[]|]; try done. apply bool_decide_eq_true in Ht as (-> & Ha & Hk).
  apply law_win in He as (j & Hj & Hg & Hj'). split.
  - exists j. split; [done|]. unfold transition_guard in Hg. rewrite Ha in Hg. by bool_facts.
  - intros (j' & Hj2 & Hp). rewrite Hj' in Hj2. injection Hj2 as <-.
    unfold transitioned in Hp. by rewrite clear_pending in Hp.
Qed.

Lemma exec_calm {R} (c : call R) now (s s' : St) r :
  exec c now s = (r, s') -> calm_call c = true -> ~ attached s k a -> ~ attached s' k a.
Proof.
  destruct c; simpl; intros He Hc Hn; try (by injection He as _ <-).
  - pose proof (law_calm k0 args now s k a Hc Hn) as Hl. by rewrite He in Hl.
  - pose proof (law_calm_drain k0 args now s k a Hc Hn) as Hl. by rewrite He in Hl.
Qed.

(** ** The pool *)

(** Requests that decide review [a] of stream [k]. *)
Inductive decides : prog bool -> Prop :=
| decides_resolve n p e : decides (resolve n k (Some a) p e)
| decides_expire n e : decides (expire n k (Some a) e).

Lemma decides_guarded p : decides p -> guarded (fun b => b = false) p.
Proof. intros []; [apply guarded_resolve | apply guarded_expire]. Qed.

Lemma races_lose s ps s' ps' :
  Forall decides ps -> pool_steps k a (s, ps) (s', ps') -> winners ps' <= 1.
Proof.
  intros Hd. eapply at_most_one_winner with (gone := fun s => ~ attached s k a)
    (P := fun R (c : call R) => calm_call c = true) (W := fun R (c : call R) r => wins c r = true)
    (ok := fun _ => True); try done.
  - intros R c s0 r s1 [now He] _ _ Hw. destruct (exec_win c now s0 s1 r He Hw) as [Ha Hn].
    split; [intros H'; by apply H' | done].
  - intros R c s0 r s1 [now He] Hc _. by eapply exec_calm.
  - intros s0 s1 Ho _. by apply law_others.
  - eapply Forall_impl; [exact Hd|]. apply decides_guarded.
Qed.
End races.

(** ** The in-memory store *)

#[export] Instance memory_approval : ApprovalStore Store := {
  as_job s k := getJob s k;
  as_transition k args now s := transitionStatus k args now s;
  as_transitionDrain k args now s := transitionStatusAndDrainSteers k args now s;
  as_others k a s s' := reaches (AV := Some a) s s'
}.

Lemma calm_transition_ok a args : calm a args = true -> transition_ok (AV := Some a) args = true.
Proof.
  unfold calm, transition_ok, calm_patch. intros [[-> Hp]%andb_true_iff ->]%andb_true_iff.
  rewrite andb_true_r. simpl. revert Hp. apply forallb_weaken. intros f Hf.
  unfold patch_ok, action_field, avoid. destruct f; try done. simpl. revert Hf.
  case_bool_decide; [done|]. intros _. by rewrite bool_decide_false by congruence.
Qed.

Lemma quiet_detached a s s' k :
  quiet (AV := Some a) s s' -> ~ attached s k a -> ~ attached s' k a.
Proof.
  intros Hq Hn (j' & Hj' & Hp). destruct (q_jobs _ _ Hq _ _ Hj') as (j & Hj & Hs).
  revert Hp. apply (sj_action _ _ Hs a eq_refl). intros Hp. apply Hn. by exists j.
Qed.

#[export] Instance memory_approval_laws : ApprovalStoreLaws Store.
Proof.
  split.
  - intros k args now s s' H. simpl in *. unfold transitionStatus in H.
    destruct (mget (jobs s) k) as [j|] eqn:Hj; [|done].
    destruct (transition_guard args j) eqn:Hg; [|done]. destruct (_ && _) in H; [done|].
    exists j. split; [done|]. split; [done|].
    apply bind_ok_inv in H as ([] & s1 & _ & H). unfold bindM, modify, retM in H.
    injection H as <-. unfold getJob.
    assert (Hx : forall s2, core s2 = core (set_job k (transitioned args j) s1) ->
                           mget (jobs s2) k = Some (transitioned args j)).
    { intros s2 ->%core_jobs. apply mget_mset_eq. }
    apply Hx. destruct (JobStatusTransition.to args);
      rewrite ?core_extendRecoveryLease; apply core_map_receipts.
  - intros k args now s k' a Hc. apply quiet_detached. simpl.
    by apply transitionStatus_quiet, calm_transition_ok.
  - intros k args now s k' a Hc. apply quiet_detached. simpl.
    by apply transitionDrain_quiet, calm_transition_ok.
  - intros k a s s' Hr Hn (j' & Hj' & Hp). simpl in *.
    destruct (e_jobs _ _ (reaches_evolves _ _ Hr) _ _ Hj') as [(j & Hj & Hs)|[_ Hnew]].
    + revert Hp. apply (sj_action _ _ Hs a eq_refl). intros Hp. apply Hn. by exists j.
    + by apply (Hnew a).
Qed.

(** ** Theorem *)

(** A scheduler: thread [i] of the pool makes its next call at clock reading [now]. *)
Definition turn (c : Store * list (prog bool)) (e : nat * Z) : Store * list (prog bool) :=
  match c.2 !! e.1 with
  | Some (Step q cont) => let '(r, s') := exec q e.2 c.1 in (s', <[e.1 := cont r]> c.2)
  | _ => c
  end.
Definition schedule (l : list (nat * Z)) (c : Store * list (prog bool)) :=
  foldl turn c l.

Lemma schedule_steps k a l c : pool_steps k a c (schedule l c).
Proof.
  unfold schedule. revert c. induction l as [|[i now] l IH]; intros c; [constructor|]. simpl.
  etrans; [|apply IH]. clear IH. unfold turn. destruct c as [s ps]. simpl.
  destruct (ps !! i) as [[|R q cont]|] eqn:E; [constructor | | constructor].
  destruct (exec q now s) as [r s'] eqn:Ee. apply rtc_once. eapply step_call; [done|]. by exists now.
Qed.

Lemma schedule_pair k a l c :
  pool_steps k a c ((schedule l c).1, (schedule l c).2).
Proof. rewrite <- surjective_pairing. apply schedule_steps. Qed.

(** C2. One decision per review.  However the resolve and expire requests for one paused review
    interleave at their awaits, with each other and with any other operation of the server that
    does not attach the same action id anew, at most one of them answers [true]: a run is never
    driven twice by two approval clicks, nor both resumed and expired. *)
Theorem one_decision_per_review (s : Store) k a ps s' ps' :
  Forall (decides k a) ps -> pool_steps k a (s, ps) (s', ps') -> winners ps' <= 1.
Proof. apply races_lose. Qed.

(** A paused run and two clicks on the same review. *)
Definition demo_review : PendingAction.t := PendingAction.mk "act" (Some 1000%Z) JNull.
Definition demo_paused : Store :=
  run_ops [(Transition "s1" (pause_args demo_review (PauseOptions.mk None None None false) 10 20),
            20%Z)] Demo.running1.
Definition demo_click : prog bool := resolve 5 "s1" (Some "act") JobMetadataPatch.empty None.

Lemma one_decision_per_review_witness :
  let c := schedule [(0, 30%Z); (1, 30%Z); (0, 31%Z); (1, 31%Z); (0, 32%Z); (1, 32%Z);
                     (1, 33%Z); (0, 33%Z); (0, 34%Z); (1, 34%Z)] (demo_paused, [demo_click; demo_click]) in
  has_won <$> c.2 = [false; true] /\ winners c.2 <= 1.
Proof.
  intros c. split; [by vm_compute|].
  apply (one_decision_per_review demo_paused "s1" "act" [demo_click; demo_click] c.1 c.2).
  - repeat constructor.
  - apply schedule_pair.
Defined.
