(* ===== verification/ApprovalRuns.v ===== *)
(** * What a lifecycle request does

    Requests run without interference on the in-memory store: the wait ends within the bounded
    owner deadline, and resolve and expire do what they say. *)

From stdpp Require Import relations.
From S2P Require Import Prelude Programs JsMap Json StreamTypes StoreState StoreSteers StoreParked StoreJobs.
From S2P Require Import StoreCleanup StoreFrame StoreRun StoreEpochs StoreParking StoreReaping Approval ApprovalRaces.

Lemma run_alone_bind {A B} (p : prog A) (f : A -> prog B) clock (s : Store) :
  run_alone (pbind p f) clock s =
  match run_alone p clock s with
  | (Ok a, clock', s') => run_alone (f a) clock' s'
  | (Throw e, clock', s') => (Throw e, clock', s')
  end.
Proof.
  revert clock s. induction p as [[a|e]|R c k IH]; intros clock s; simpl; [done | done|].
  by destruct (exec c clock s) as [r s1].
Qed.

(** ** Failing a stale barrier *)

Definition barred (e : option Z) (s : Store) (k : string) (j : Job.t) : Prop :=
  mget (jobs s) k = Some j /\ barrier_up e (Some j) = true.

Lemma barred_facts e s k j :
  barred e s k j ->
  mget (jobs s) k = Some j /\ Job.status j = requires_action /\
  Job.terminalPersistencePending j = Some true /\ epoch_matches e (Job.createdAt j) = true.
Proof. intros [Hj [[Ha Hb]%andb_true_iff Hc]%andb_true_iff]. by bool_facts. Qed.

Lemma stale_args_timeout j x now : stale_args j x now = pause_timeout_transition j x now.
Proof. done. Qed.

(** Once the lease has run out, the barrier either becomes a terminal error or stays as it is. *)
Lemma fail_stale_alone e s k j clock :
  barred e s k j -> (PAUSE_PERSISTENCE_TIMEOUT_MS <= clock - barrier_started j)%Z ->
  (exists s', run_alone (failStalePausePersistence k
                (Some (default (Job.createdAt j) e))) clock s = (Ok true, clock, s') /\
     exists j', mget (jobs s') k = Some j' /\ Job.status j' = error) \/
  run_alone (failStalePausePersistence k (Some (default (Job.createdAt j) e))) clock s =
    (Ok false, clock, s).
Proof.
  intros Hb Ht. apply barred_facts in Hb as (Hj & Hst & Hp & He).
  unfold failStalePausePersistence. simpl. unfold getJob. rewrite Hj.
  destruct (Job.pendingActionId j) as [x|] eqn:Hx; [|by right].
  assert (Hep : bool_decide (Job.createdAt j = default (Job.createdAt j) e) = true).
  { apply bool_decide_eq_true. destruct e as [e|]; [|done]. by apply epoch_matches_Some in He. }
  rewrite Hst, Hp, Hep, !bool_decide_true by done. simpl. rewrite decide_False by lia. simpl.
  rewrite stale_args_timeout, (pause_timeout_wins k j x clock s Hj Hst Hx).
  destruct (isParkedRecoveryCompatible s k j clock) eqn:Hc; [|by right]. left.
  destruct (parkQueuedSteers_total k j clock s Hc) as [s1 ->]. simpl.
  eexists. split; [done|]. eexists. split; [rewrite map_receipts_jobs; apply mget_mset_eq | done].
Qed.

(** ** The wait *)

(** Turns of the wait that only sleep, from an elapsed time. *)
Definition sleeps (elapsed : Z) : nat :=
  Z.to_nat ((Z.max 0 (PAUSE_PERSISTENCE_TIMEOUT_MS - elapsed) + 24) / 25).

Lemma wait_done e k n clock s :
  barrier_up e (mget (jobs s) k) = false ->
  run_alone (waitForPausePersistence (S n) k e) clock s = (Ok (mget (jobs s) k), clock, s).
Proof.
  intros Hb. simpl. unfold getJob. destruct (mget (jobs s) k) as [j|]; [|done].
  by rewrite Hb.
Qed.

#[local] Opaque failStalePausePersistence.
Lemma wait_turn e k n clock s j :
  mget (jobs s) k = Some j -> barrier_up e (Some j) = true ->
  run_alone (waitForPausePersistence (S n) k e) clock s =
  if decide (PAUSE_PERSISTENCE_TIMEOUT_MS <= clock - barrier_started j)%Z then
    match run_alone (failStalePausePersistence k (Some (default (Job.createdAt j) e))) clock s with
    | (Ok true, clock', s') => run_alone (waitForPausePersistence n k e) clock' s'
    | (Ok false, clock', s') =>
        match mget (jobs s') k with
        | Some c =>
            if bool_decide (Job.createdAt c = Job.createdAt j /\ Job.status c = requires_action /\
                            Job.terminalPersistencePending c = Some true /\
                            Job.pendingActionId c = Job.pendingActionId j)
            then (Throw (UnsafeBarrier k), clock', s')
            else run_alone (waitForPausePersistence n k e) clock' s'
        | None => run_alone (waitForPausePersistence n k e) clock' s'
        end
    | (Throw err, clock', s') => (Throw err, clock', s')
    end
  else run_alone (waitForPausePersistence n k e)
         (clock + Z.min 25 (PAUSE_PERSISTENCE_TIMEOUT_MS - (clock - barrier_started j))) s.
Proof.
  intros Hj Hb. simpl. unfold getJob. rewrite Hj. cbn [run_alone]. rewrite Hb. simpl.
  destruct (decide _); [|done]. rewrite run_alone_bind.
  destruct (run_alone (failStalePausePersistence _ _) _ _) as [[[[]|err] clock'] s']; [done| |done].
  simpl. unfold getJob. destruct (mget (jobs s') k); [|done]. by destruct (bool_decide _).
Qed.
#[local] Transparent failStalePausePersistence.

(** A turn after the deadline is the last but one: the barrier is failed, or the wait throws. *)
Lemma wait_late e k n clock s j :
  barred e s k j -> (PAUSE_PERSISTENCE_TIMEOUT_MS <= clock - barrier_started j)%Z ->
  (exists s' j', run_alone (waitForPausePersistence (S (S n)) k e) clock s =
     (Ok (Some j'), clock, s') /\ mget (jobs s') k = Some j' /\ Job.status j' = error) \/
  run_alone (waitForPausePersistence (S (S n)) k e) clock s = (Throw (UnsafeBarrier k), clock, s).
Proof.
  intros Hbar Ht. pose proof Hbar as [Hj Hb]. rewrite (wait_turn e k _ clock s j Hj Hb).
  rewrite decide_True by done.
  destruct (fail_stale_alone e s k j clock Hbar Ht) as [(s' & -> & j' & Hj' & Hst)| ->].
  - left. exists s', j'. rewrite wait_done; [by rewrite Hj'|]. rewrite Hj'. simpl.
    by rewrite Hst, bool_decide_false.
  - right. rewrite Hj. apply barred_facts in Hbar as (_ & Hs & Hp & _).
    by rewrite bool_decide_true.
Qed.

Lemma sleeps_0 x : sleeps x = 0 <-> (PAUSE_PERSISTENCE_TIMEOUT_MS <= x)%Z.
Proof.
  unfold sleeps. split.
  - intros H. destruct (Z_lt_le_dec x PAUSE_PERSISTENCE_TIMEOUT_MS); [|done].
    assert (1 <= (Z.max 0 (PAUSE_PERSISTENCE_TIMEOUT_MS - x) + 24) / 25)%Z by
      (apply Z.div_le_lower_bound; lia). lia.
  - intros H. by rewrite Z.max_l by lia.
Qed.

Lemma sleeps_S x n :
  sleeps x = S n -> sleeps (x + Z.min 25 (PAUSE_PERSISTENCE_TIMEOUT_MS - x)) = n.
Proof.
  unfold sleeps. set (T := PAUSE_PERSISTENCE_TIMEOUT_MS). intros H.
  destruct (Z_lt_le_dec x T) as [Hx|Hx]; [|rewrite Z.max_l in H by lia; done].
  rewrite Z.max_r in H by lia. destruct (Z_le_gt_dec 25 (T - x)) as [Hm|Hm].
  - rewrite Z.min_l, Z.max_r by lia.
    replace (T - x + 24)%Z with ((T - (x + 25) + 24) + 1 * 25)%Z in H by lia.
    rewrite Z.div_add in H by lia. lia.
  - rewrite Z.min_r, Z.max_l by lia. change ((0 + 24) / 25)%Z with 0%Z.
    assert ((T - x + 24) / 25 < 2)%Z by (apply Z.div_lt_upper_bound; lia). lia.
Qed.

(** How a wait may end: with the job it last read, the barrier being down, or with the error that
    says that the stale barrier could not be failed. *)
Definition wait_ended (k : string) (e : option Z) (s' : Store)
    (r : result LifecycleError (option Job.t)) : Prop :=
  match r with
  | Ok job => job = mget (jobs s') k /\ barrier_up e job = false
  | Throw err => err = UnsafeBarrier k
  end.

(** How long the owner of the barrier of stream [k] has been at work. *)
Definition waited (s : Store) (k : string) (clock : Z) : Z :=
  match mget (jobs s) k with Some j => clock - barrier_started j | None => 0 end.

(** A run that is paused while its owner persists the pause. *)
Definition demo_barred : Store :=
  run_ops [(Transition "s1" (pause_args demo_review (PauseOptions.mk None None None true) 10 20),
            20%Z)] Demo.running1.

(** C37. The wait for a pause owner is bounded.  Without interference, and whatever the state of
    the stream, [waitForPausePersistence] ends within the owner's 30 seconds of sleeping (1200
    turns at most for a barrier that starts now) plus two more turns of its loop: it returns the
    job once the barrier is down, or it throws because the stale barrier cannot be failed safely;
    it never goes on waiting. *)
Theorem wait_is_bounded fuel k e clock s :
  sleeps (waited s k clock) + 2 <= fuel ->
  let '(r, _, s') := run_alone (waitForPausePersistence fuel k e) clock s in wait_ended k e s' r.
Proof.
  remember (sleeps (waited s k clock)) as n eqn:En. revert fuel clock En.
  induction n as [|n IH]; intros fuel clock En Hfuel; destruct fuel as [|[|fuel]]; try lia;
    (destruct (barrier_up e (mget (jobs s) k)) eqn:Hb; [|by rewrite (wait_done _ _ _ _ _ Hb)]);
    unfold waited in *; (destruct (mget (jobs s) k) as [j|] eqn:Hj; [|done]);
    symmetry in En.
  - apply sleeps_0 in En.
    destruct (wait_late e k fuel clock s j (conj Hj Hb) En) as [(s' & j' & -> & Hj' & Hst)| ->];
      [|done].
    split; [done|]. simpl. by rewrite Hst, bool_decide_false.
  - rewrite (wait_turn e k _ clock s j Hj Hb), decide_False by (rewrite <- sleeps_0; lia).
    apply IH; [|lia]. symmetry. apply sleeps_S in En. rewrite <- En. f_equal. lia.
Qed.

Lemma wait_is_bounded_witness :
  let '(r, _, s') := run_alone (waitForPausePersistence 1202 "s1" None) 20 demo_barred in
  barrier_up None (mget (jobs demo_barred) "s1") = true /\ wait_ended "s1" None s' r.
Proof.
  pose proof (wait_is_bounded 1202 "s1" None 20 demo_barred) as H.
  destruct (run_alone _ _ _) as [[r c] s']. split; [by vm_compute|].
  apply H. apply Nat.leb_le. by vm_compute.
Defined.

(** ** Resolve and expire *)

Lemma paused_barrier_down e e' j :
  paused_as e j = true -> barrier_up e (Some j) = false -> e' = Some (Job.createdAt j) ->
  barrier_up e' (Some j) = false.
Proof.
  unfold paused_as, barrier_up. intros [Ha Hb]%andb_true_iff Hc ->.
  rewrite Ha, Hb, andb_true_r in Hc. by rewrite Ha, Hc.
Qed.

Lemma paused_as_self e j : paused_as e j = true -> paused_as (Some (Job.createdAt j)) j = true.
Proof.
  unfold paused_as. intros [-> _]%andb_true_iff. simpl. by apply bool_decide_eq_true.
Qed.

(** One request whose last step is the compare-and-set [args] on the job [j] that it read. *)
Definition cas_run (s s' : Store) (k : string) (args : JobStatusTransition.t) (now : Z) (j : Job.t)
    (won : bool) (r : result LifecycleError bool) : Prop :=
  if cas_allowed s k args now j
  then r = Ok won /\ job_written s s' k (transitioned args j)
  else r = Ok false /\ s' = s.

Lemma run_alone_wait {A} fuel k e (f : option Job.t -> prog A) clock (s : Store) :
  barrier_up e (mget (jobs s) k) = false ->
  run_alone (pbind (waitForPausePersistence (S fuel) k e) f) clock s =
  run_alone (f (mget (jobs s) k)) clock s.
Proof. intros Hb. by rewrite run_alone_bind, wait_done. Qed.

Lemma expire_alone fuel k x e clock s j :
  mget (jobs s) k = Some j -> barrier_up e (Some j) = false -> paused_as e j = true ->
  exists r s', run_alone (expire (S fuel) k x e) clock s = (r, clock, s') /\
    cas_run s s' k (expire_args x (Job.createdAt j) clock false) clock j true r.
Proof.
  intros Hj Hb Hp. unfold expire, expireWithIdentity.
  rewrite run_alone_bind, run_alone_wait by by rewrite Hj.
  rewrite Hj, Hp. cbn [negb run_alone pbind ask exec ret try_call as_transition memory_approval].
  unfold cas_run.
  pose proof (transition_cas k (expire_args x (Job.createdAt j) clock false) clock s j Hj) as H.
  destruct (cas_allowed _ _ _ _ _).
  - destruct H as (s' & -> & Hw). by eexists _, s'.
  - rewrite H. by eexists _, s.
Qed.

(** What a request to resolve does with the paused job it finds: the transition it attempts, and
    its answer when the transition goes through. *)
Definition resolve_attempt (x : option string) (p : JobMetadataPatch.t) (now : Z) (j : Job.t)
  : bool * JobStatusTransition.t :=
  match Job.pendingAction j with
  | None => (false, expire_args None (Job.createdAt j) now false)
  | Some a =>
      if isPendingActionExpired j now
      then (false, expire_args (Some (default (PendingAction.actionId a) x)) (Job.createdAt j) now
                     false)
      else (true, resolve_args x p (Job.createdAt j) now)
  end.

Lemma cas_run_false s s' k args now j r :
  cas_run s s' k args now j true r -> cas_run s s' k args now j false (Ok false).
Proof. unfold cas_run. destruct (cas_allowed _ _ _ _ _); by intros [_ ?]. Qed.

Lemma resolve_alone fuel k x p e clock s j :
  mget (jobs s) k = Some j -> barrier_up e (Some j) = false -> paused_as e j = true ->
  exists r s', run_alone (resolve (S fuel) k x p e) clock s = (r, clock, s') /\
    let '(won, args) := resolve_attempt x p clock j in cas_run s s' k args clock j won r.
Proof.
  intros Hj Hb Hp. unfold resolve. rewrite run_alone_wait by by rewrite Hj.
  rewrite Hj, Hp. cbn [negb]. unfold resolve_attempt.
  pose proof (paused_barrier_down e _ j Hp Hb eq_refl) as Hb'.
  pose proof (paused_as_self e j Hp) as Hp'.
  destruct (Job.pendingAction j) as [a|].
  - cbn [run_alone pbind ask exec ret]. destruct (isPendingActionExpired j clock).
    + rewrite run_alone_bind.
      destruct (expire_alone fuel k (Some (default (PendingAction.actionId a) x))
                  (Some (Job.createdAt j)) clock s j Hj Hb' Hp') as (r & s' & -> & Hr).
      exists (Ok false), s'. split; [|by eapply cas_run_false].
      destruct r as [b|err]; [done|]. unfold cas_run in Hr.
      destruct (cas_allowed _ _ _ _ _); by destruct Hr.
    + cbn [run_alone pbind ask exec ret try_call as_transition memory_approval].
      unfold cas_run. pose proof (transition_cas k
        (resolve_args x p (Job.createdAt j) clock) clock s j Hj) as H.
      destruct (cas_allowed _ _ _ _ _).
      * destruct H as (s' & -> & Hw). by eexists _, s'.
      * rewrite H. by eexists _, s.
  - rewrite run_alone_bind.
    destruct (expire_alone fuel k None (Some (Job.createdAt j)) clock s j Hj Hb' Hp')
      as (r & s' & -> & Hr).
    exists (Ok false), s'. split; [|by eapply cas_run_false].
    destruct r as [b|err]; [done|]. unfold cas_run in Hr.
    destruct (cas_allowed _ _ _ _ _); by destruct Hr.
Qed.

(** What resolving does.  Without interference and with no pause being persisted, [resolve]
    answers [true] only for the live review of the expected generation and action, and then the
    job runs again, with the caller's patch and without the review; a lost or expired review
    moves the job to [aborted] and answers [false]; in every other case the answer is [false] and
    nothing changes. *)
Theorem resolve_outcome fuel k x p e clock s :
  barrier_up e (mget (jobs s) k) = false ->
  let '(r, _, s') := run_alone (resolve (S fuel) k x p e) clock s in
  match mget (jobs s) k with
  | Some j =>
      if paused_as e j
      then let '(won, args) := resolve_attempt x p clock j in cas_run s s' k args clock j won r
      else r = Ok false /\ s' = s
  | None => r = Ok false /\ s' = s
  end.
Proof.
  intros Hb. destruct (mget (jobs s) k) as [j|] eqn:Hj.
  - destruct (paused_as e j) eqn:Hp.
    + destruct (resolve_alone fuel k x p e clock s j Hj Hb Hp) as (r & s' & -> & Hr). done.
    + unfold resolve. rewrite run_alone_wait by by rewrite Hj. by rewrite Hj, Hp.
  - unfold resolve. rewrite run_alone_wait by by rewrite Hj. by rewrite Hj.
Qed.

Lemma resolve_outcome_witness :
  let '(r, _, s') := run_alone (resolve 5 "s1" (Some "act") JobMetadataPatch.empty None) 30 demo_paused in
  r = Ok true /\ match mget (jobs demo_paused) "s1" with
  | Some j =>
      if paused_as None j
      then let '(won, args) := resolve_attempt (Some "act") JobMetadataPatch.empty 30 j in
           cas_run demo_paused s' "s1" args 30 j won r
      else r = Ok false /\ s' = demo_paused
  | None => r = Ok false /\ s' = demo_paused
  end.
Proof.
  pose proof (resolve_outcome 4 "s1" (Some "act") JobMetadataPatch.empty None 30 demo_paused) as H.
  assert (Hr : (run_alone (resolve 5 "s1" (Some "act") JobMetadataPatch.empty None) 30
                  demo_paused).1.1 = Ok true) by by vm_compute.
  destruct (run_alone _ _ _) as [[r c] s']. split; [exact Hr|]. apply H. by vm_compute.
Defined.

(** ** A review, from the pause to the decision *)

Lemma transition_active k args now s j :
  mget (jobs s) k = Some j -> transition_guard args j = true ->
  terminal (JobStatusTransition.to args) = false ->
  exists s', transitionStatus k args now s = (Ok true, s') /\
             mget (jobs s') k = Some (transitioned args j).
Proof.
  intros Hj Hg Ht. pose proof (transition_cas k args now s j Hj) as H.
  unfold cas_allowed in H. rewrite Hg, Ht in H. destruct H as (s' & Hs' & [Hw _]). eauto.
Qed.

Lemma pause_alone k action o clock s j :
  mget (jobs s) k = Some j -> Job.status j = running ->
  epoch_matches (PauseOptions.expectedCreatedAt o) (Job.createdAt j) = true ->
  exists s', run_alone (pause k action o) clock s = (Ok true, clock, s') /\
             mget (jobs s') k = Some (transitioned (pause_args action o (Job.createdAt j) clock) j).
Proof.
  intros Hj Hst He. unfold pause. cbn [run_alone pbind ask exec ret as_job memory_approval].
  unfold getJob. rewrite Hj, Hst, He, bool_decide_true by done.
  replace (default (Job.createdAt j) (PauseOptions.expectedCreatedAt o)) with (Job.createdAt j).
  2: { destruct (PauseOptions.expectedCreatedAt o); [|done].
       simpl in *. by apply bool_decide_eq_true in He. }
  destruct (transition_active k (pause_args action o (Job.createdAt j) clock) clock s j Hj)
    as (s' & Hs' & Hj'); [|done|].
  { unfold transition_guard. simpl. by rewrite Hst, !bool_decide_true. }
  exists s'. split; [|done].
  cbn [negb orb run_alone pbind ask exec ret try_call as_transition memory_approval].
  by rewrite Hs'.
Qed.

Lemma transitioned_pause action o e now j :
  let j' := transitioned (pause_args action o e now) j in
  Job.status j' = requires_action /\ Job.createdAt j' = Job.createdAt j /\
  Job.pendingAction j' = Some action /\
  Job.pendingActionId j' = Some (if PauseOptions.persistencePending o
    then pausePersistenceActionId (PendingAction.actionId action) else PendingAction.actionId action) /\
  Job.terminalPersistencePending j' =
    (if PauseOptions.persistencePending o then Some true else Job.terminalPersistencePending j).
Proof. by destruct o as [[[|]|] [] ? []]. Qed.

(** Pause for a review, tell when the pause is persisted, read the review, approve it. *)
Definition review (k : string) (action : PendingAction.t) (o : PauseOptions.t)
  : prog (bool * bool * option PendingAction.t * bool) :=
  await paused <- pause k action o;
  await finished <- (if PauseOptions.persistencePending o
                     then finishPausePersistence k (PendingAction.actionId action)
                            (PauseOptions.expectedCreatedAt o)
                     else ret true);
  await seen <- peek k;
  await resolved <- resolve 1 k (Some (PendingAction.actionId action)) JobMetadataPatch.empty
                      (PauseOptions.expectedCreatedAt o);
  ret (paused, finished, seen, resolved).

(** The paused job as the reviewer finds it. *)
Record reviewable (s : Store) (k : string) (action : PendingAction.t) (o : PauseOptions.t)
    (createdAt : Z) (j : Job.t) : Prop := {
  rv_job : mget (jobs s) k = Some j;
  rv_status : Job.status j = requires_action;
  rv_epoch : Job.createdAt j = createdAt;
  rv_action : Job.pendingAction j = Some action;
  rv_id : Job.pendingActionId j = Some (PendingAction.actionId action);
  rv_down : Job.terminalPersistencePending j <> Some true
}.

Lemma finish_alone k action o clock s j :
  mget (jobs s) k = Some j -> Job.status j = running ->
  Job.terminalPersistencePending j <> Some true ->
  epoch_matches (PauseOptions.expectedCreatedAt o) (Job.createdAt j) = true ->
  exists s' j',
    run_alone (await paused <- pause k action o;
               await finished <- (if PauseOptions.persistencePending o
                  then finishPausePersistence k (PendingAction.actionId action)
                         (PauseOptions.expectedCreatedAt o)
                  else ret true);
               ret (paused, finished)) clock s = (Ok (true, true), clock, s') /\
    reviewable s' k action o (Job.createdAt j) j'.
Proof.
  intros Hj Hst Hpp He. rewrite run_alone_bind.
  destruct (pause_alone k action o clock s j Hj Hst He) as (s1 & -> & Hj1).
  destruct (transitioned_pause action o (Job.createdAt j) clock j) as (H1 & H2 & H3 & H4 & H5).
  set (j1 := transitioned _ j) in *. destruct (PauseOptions.persistencePending o).
  - destruct (transition_active k (finish_args (PendingAction.actionId action)
      (PauseOptions.expectedCreatedAt o)) clock s1 j1 Hj1) as (s' & Hs' & Hj'); [|done|].
    { unfold transition_guard. simpl. by rewrite H1, H2, He, H4, !bool_decide_true. }
    rewrite run_alone_bind. unfold finishPausePersistence, try_call.
    cbn [run_alone exec as_transition memory_approval]. rewrite Hs'. eexists s', _.
    split; [done|]. split; [exact Hj' | done | exact H2 | exact H3 | done | done].
  - exists s1, j1. split; [done|]. split; try done. by rewrite H5.
Qed.

(** C38. A review, end to end.  Pausing a running generation, persisting the pause if asked to,
    reading the review before it expires and approving it succeeds at each step: the reader sees
    the very record that was attached, and afterwards the same generation runs, its liveness
    refreshed and nothing left to decide. *)
Theorem review_roundtrip k action o clock s j :
  mget (jobs s) k = Some j -> Job.status j = running ->
  Job.terminalPersistencePending j <> Some true ->
  epoch_matches (PauseOptions.expectedCreatedAt o) (Job.createdAt j) = true ->
  (forall exp, PendingAction.expiresAt action = Some exp -> (clock < exp)%Z) ->
  exists s' j', run_alone (review k action o) clock s = (Ok (true, true, Some action, true), clock, s') /\
    mget (jobs s') k = Some j' /\ Job.status j' = running /\ Job.createdAt j' = Job.createdAt j /\
    Job.pendingAction j' = None /\ Job.pendingActionId j' = None /\
    Job.lastActiveAt j' = Some clock.
Proof.
  intros Hj Hst Hpp He Hexp.
  destruct (finish_alone k action o clock s j Hj Hst Hpp He) as (s1 & j1 & Hrun & [H1 H2 H3 H4 H5 H6]).
  assert (Hfresh : isPendingActionExpired j1 clock = false).
  { unfold isPendingActionExpired. rewrite H4. simpl.
    destruct (PendingAction.expiresAt action) as [exp|]; [|done].
    apply bool_decide_eq_false. specialize (Hexp exp eq_refl). lia. }
  assert (Hpaused : paused_as (PauseOptions.expectedCreatedAt o) j1 = true).
  { unfold paused_as. by rewrite H2, H3, He, bool_decide_true. }
  assert (Hdown : barrier_up (PauseOptions.expectedCreatedAt o) (Some j1) = false).
  { simpl. rewrite (bool_decide_eq_false_2 _ H6). by rewrite andb_false_r. }
  destruct (resolve_alone 0 k (Some (PendingAction.actionId action)) JobMetadataPatch.empty _
              clock s1 j1 H1 Hdown Hpaused) as (r & s' & Hr & Hcas).
  unfold resolve_attempt in Hcas. rewrite H4, Hfresh in Hcas. unfold cas_run, cas_allowed in Hcas.
  replace (transition_guard _ j1) with true in Hcas.
  2: { symmetry. unfold transition_guard. simpl. by rewrite H2, H5, !bool_decide_true. }
  destruct Hcas as [-> [Hw _]]. eexists s', _. split; [|by split_and!].
  revert Hrun. unfold review. rewrite !run_alone_bind.
  destruct (run_alone (pause k action o) clock s) as [[[p|err] c1] s2]; [|done].
  rewrite !run_alone_bind. destruct (run_alone _ c1 s2) as [[[f|err] c2] s3]; [|done].
  intros [= -> -> -> ->]. rewrite run_alone_bind. unfold peek at 1.
  cbn [run_alone pbind ask exec ret as_job memory_approval]. unfold getJob.
  rewrite H1, run_alone_bind, Hr. cbn [run_alone ret]. unfold peek_view, isPendingActionStale.
  by rewrite H2, H4, Hfresh, bool_decide_true.
Qed.

Lemma review_roundtrip_witness :
  exists s' j', run_alone (review "s1" demo_review (PauseOptions.mk None None (Some 10%Z) true)) 20
                  Demo.running1 = (Ok (true, true, Some demo_review, true), 20%Z, s') /\
    mget (jobs s') "s1" = Some j' /\ Job.status j' = running /\ Job.createdAt j' = 10%Z /\
    Job.pendingAction j' = None /\ Job.pendingActionId j' = None /\
    Job.lastActiveAt j' = Some 20%Z.
Proof.
  destruct (mget (jobs Demo.running1) "s1") as [j|] eqn:Hj; [|by vm_compute in Hj].
  pose proof (review_roundtrip "s1" demo_review (PauseOptions.mk None None (Some 10%Z) true) 20
    Demo.running1 j Hj) as H.
  vm_compute in Hj. injection Hj as <-. apply H.
  - by vm_compute.
  - by vm_compute.
  - by vm_compute.
  - by intros exp [= <-].
Defined.
