(* ===== verification/Claims.v ===== *)
(** * One generation per client request ([stream/GenerationJobManager.ts])

    A request to start a generation carries an id chosen by the client; a retry carries the same
    id and must not start a second generation.  The manager claims two keys of the store for a
    request, which no single operation of the store covers: a key per user and request that old
    replicas know, and a key per stream that is checked when the job is created.  The methods
    below claim, repair, take over, re-adopt and release them; they are programs of calls
    ([Programs]), any of which may fail with or without having been executed. *)

From S2P Require Import Prelude Programs JsMap Json StreamTypes.

(** ** Claims *)

Definition IDEMPOTENCY_TTL_SECONDS : Z := 25 * 60 * 60.
Definition LEGACY_IDEMPOTENCY_TTL_SECONDS : Z := 26 * 60 * 60.
Definition MAX_SAFE_INTEGER : Z := 2 ^ 53 - 1.

(** [TokenIdempotencyClaim]: a claim whose coordinates and token have been checked. *)
Module TokenClaim.
Record t := mk {
  streamId : string;
  conversationId : string;
  generationProtocolVersion : GenerationProtocolVersion;
  claimedAt : Z;
  claimToken : string;
  previousClaimToken : option string;
  startedAt : option Z
}.
End TokenClaim.

#[export] Instance TokenClaim_eq_dec : EqDecision TokenClaim.t.
Proof. solve_decision. Defined.

(** The claim as the store keeps it. *)
Definition claim_value (c : TokenClaim.t) : IdempotencyClaimValue.t :=
  IdempotencyClaimValue.mk (TokenClaim.streamId c) (TokenClaim.conversationId c)
    (Some (TokenClaim.generationProtocolVersion c)) (Some (TokenClaim.claimedAt c))
    (Some (TokenClaim.claimToken c)) (TokenClaim.previousClaimToken c) (TokenClaim.startedAt c).

(** [normalizeClaimProtocol(value)] *)
Definition normalizeClaimProtocol (v : option GenerationProtocolVersion)
  : GenerationProtocolVersion := if bool_decide (v = Some V2) then V2 else V1.

(** [Number.isSafeInteger(z) && z >= 0] *)
Definition safe_epoch (z : Z) : bool := bool_decide (0 <= z <= MAX_SAFE_INTEGER)%Z.

(** The checks of [assertClaimCoordinates]; those on types hold by typing. *)
Definition coordinates_ok (v : IdempotencyClaimValue.t) : bool :=
  bool_decide (IdempotencyClaimValue.streamId v <> "") &&
  bool_decide (IdempotencyClaimValue.conversationId v <> "") &&
  match IdempotencyClaimValue.claimedAt v with Some z => safe_epoch z | None => false end &&
  match IdempotencyClaimValue.startedAt v with Some z => safe_epoch z | None => true end.

Definition invalid_claim (context : string) : string :=
  "Invalid " +:+ context +:+ " generation idempotency claim".

Definition assertClaimCoordinates (value : option IdempotencyClaimValue.t) (context : string)
  : result string IdempotencyClaimValue.t :=
  match value with
  | Some v => if coordinates_ok v then Ok v else Throw (invalid_claim context)
  | None => Throw (invalid_claim context)
  end.

(** A token: neither empty nor longer than 128. *)
Definition token_ok (t : string) : bool :=
  bool_decide (t <> "") && bool_decide (String.length t <= 128).

(** [normalizeTokenClaim(value, context)] *)
Definition normalizeTokenClaim (value : option IdempotencyClaimValue.t) (context : string)
  : result string TokenClaim.t :=
  match assertClaimCoordinates value context with
  | Throw e => Throw e
  | Ok v =>
      match IdempotencyClaimValue.claimToken v, IdempotencyClaimValue.claimedAt v with
      | Some token, Some claimedAt =>
          if token_ok token &&
             match IdempotencyClaimValue.previousClaimToken v with
             | Some p => token_ok p && bool_decide (p <> token)
             | None => true
             end
          then Ok (TokenClaim.mk (IdempotencyClaimValue.streamId v)
                     (IdempotencyClaimValue.conversationId v)
                     (normalizeClaimProtocol (IdempotencyClaimValue.generationProtocolVersion v))
                     claimedAt token (IdempotencyClaimValue.previousClaimToken v)
                     (IdempotencyClaimValue.startedAt v))
          else Throw (invalid_claim context +:+ " token")
      | _, _ => Throw (invalid_claim context +:+ " token")
      end
  end.

(** [normalizeTokenlessLegacyClaim(value)] *)
Definition normalizeTokenlessLegacyClaim (value : option IdempotencyClaimValue.t)
  : result string IdempotencyClaimValue.t :=
  match assertClaimCoordinates value "legacy" with
  | Throw e => Throw e
  | Ok v =>
      if bool_decide (IdempotencyClaimValue.claimToken v = None /\
                      IdempotencyClaimValue.previousClaimToken v = None /\
                      IdempotencyClaimValue.startedAt v = None) &&
         bool_decide (normalizeClaimProtocol
                        (IdempotencyClaimValue.generationProtocolVersion v) = V1)
      then Ok {| v with IdempotencyClaimValue.generationProtocolVersion := Some V1 |}
      else Throw "Invalid tokenless legacy generation idempotency claim"
  end.

(** [assertClaimMatchesRequest(value, streamId, conversationId)] *)
Definition assertClaimMatchesRequest (c : TokenClaim.t) (streamId conversationId : string)
  : result string () :=
  if bool_decide (TokenClaim.streamId c = streamId /\
                  TokenClaim.conversationId c = conversationId)
  then Ok tt else Throw "Mismatched generation idempotency claim coordinates".

(** [claimsMirrorExactly(left, right)]: all the properties agree. *)
Definition claimsMirrorExactly (left right : TokenClaim.t) : bool :=
  bool_decide (TokenClaim.streamId left = TokenClaim.streamId right) &&
  bool_decide (TokenClaim.conversationId left = TokenClaim.conversationId right) &&
  bool_decide (TokenClaim.claimedAt left = TokenClaim.claimedAt right) &&
  bool_decide (TokenClaim.claimToken left = TokenClaim.claimToken right) &&
  bool_decide (TokenClaim.previousClaimToken left = TokenClaim.previousClaimToken right) &&
  bool_decide (TokenClaim.generationProtocolVersion left =
               TokenClaim.generationProtocolVersion right) &&
  bool_decide (TokenClaim.startedAt left = TokenClaim.startedAt right).

(** [assertClaimMirrors(legacy, primary)]: the primary may know that the generation started. *)
Definition assertClaimMirrors (legacy primary : TokenClaim.t) : result string () :=
  let startedRepair := bool_decide (TokenClaim.startedAt legacy = None /\
                                    TokenClaim.startedAt primary <> None) in
  if bool_decide (TokenClaim.streamId legacy = TokenClaim.streamId primary) &&
     bool_decide (TokenClaim.conversationId legacy = TokenClaim.conversationId primary) &&
     bool_decide (TokenClaim.claimedAt legacy = TokenClaim.claimedAt primary) &&
     bool_decide (TokenClaim.claimToken legacy = TokenClaim.claimToken primary) &&
     bool_decide (TokenClaim.previousClaimToken legacy =
                  TokenClaim.previousClaimToken primary) &&
     (bool_decide (TokenClaim.generationProtocolVersion legacy =
                   TokenClaim.generationProtocolVersion primary) || startedRepair) &&
     (bool_decide (TokenClaim.startedAt legacy = None) ||
      bool_decide (TokenClaim.startedAt legacy = TokenClaim.startedAt primary))
  then Ok tt
  else Throw "Mismatched legacy and primary generation idempotency claims".

(** [isClaimTakeoverOf(predecessor, candidate)] *)
Definition isClaimTakeoverOf (predecessor candidate : TokenClaim.t) : bool :=
  bool_decide (TokenClaim.previousClaimToken candidate = Some (TokenClaim.claimToken predecessor)) &&
  bool_decide (TokenClaim.claimToken candidate <> TokenClaim.claimToken predecessor) &&
  bool_decide (TokenClaim.streamId candidate = TokenClaim.streamId predecessor) &&
  bool_decide (TokenClaim.conversationId candidate = TokenClaim.conversationId predecessor) &&
  bool_decide (TokenClaim.generationProtocolVersion candidate =
               TokenClaim.generationProtocolVersion predecessor) &&
  bool_decide (TokenClaim.claimedAt predecessor <= TokenClaim.claimedAt candidate)%Z.

(** [isRecoverableTakeoverSplit(legacy, primary)] *)
Definition isRecoverableTakeoverSplit (legacy primary : TokenClaim.t) : bool :=
  bool_decide (TokenClaim.startedAt legacy = None) &&
  bool_decide (TokenClaim.startedAt primary = None) &&
  isClaimTakeoverOf legacy primary.

(** ** Calls *)

(** What the methods await or read; a call of the store may fail. *)
Inductive call : Type -> Type :=
| DateNow : call Z
| RandomUUID : call string
| FirstOfTwo : call bool
| ClaimIdempotencyKey (key : string) (value : IdempotencyClaimValue.t) (ttlSeconds : Z)
    : call (result string (bool * IdempotencyClaimValue.t))
| TakeoverIdempotencyKey (key : string) (expected value : IdempotencyClaimValue.t)
    (ttlSeconds : Z) : call (result string bool)
| ReleaseIdempotencyKey (key : string) (expected : option IdempotencyClaimValue.t)
    : call (result string ())
| AdoptIdempotencyKeyForJob (key : string) (expected : IdempotencyClaimValue.t)
    (streamId userId clientRequestId : string) (tenantId : option string)
    (expectedCreatedAt ttlSeconds : Z) (allowMissingClientRequestId : bool)
    : call (result string bool)
| GetJob (streamId : string) : call (result string (option Job.t)).

Abbreviation prog := (Programs.prog call string).

(** [await this.jobStore.f(..)]: a failed call rejects the promise. *)
Definition store {R} (c : call (result string R)) : prog R :=
  Step c (fun r => Done r).

(** [IdempotencyClaimResult] *)
Inductive ClaimSource := Primary | Legacy.
Module ClaimResult.
Record t := mk {
  claimed : bool;
  existing : option IdempotencyClaimValue.t;
  source : ClaimSource
}.
End ClaimResult.

Definition won (c : TokenClaim.t) : ClaimResult.t :=
  ClaimResult.mk true (Some (claim_value c)) Primary.
Definition duplicate (c : TokenClaim.t) : ClaimResult.t :=
  ClaimResult.mk false (Some (claim_value c)) Primary.

(** ** Keys *)

Section request.
(** The user and the client's request id. *)
Variables userId clientRequestId : string.

Definition generationClaimKey (streamId : string) : string :=
  "{" +:+ streamId +:+ "}:" +:+ userId +:+ ":" +:+ clientRequestId.
Definition legacyGenerationClaimKey : string :=
  "{" +:+ userId +:+ ":" +:+ clientRequestId +:+ "}".

Definition claim_legacy (v : TokenClaim.t) : prog (bool * IdempotencyClaimValue.t) :=
  store (ClaimIdempotencyKey legacyGenerationClaimKey (claim_value v)
           LEGACY_IDEMPOTENCY_TTL_SECONDS).
Definition claim_primary (streamId : string) (v : TokenClaim.t)
  : prog (bool * IdempotencyClaimValue.t) :=
  store (ClaimIdempotencyKey (generationClaimKey streamId) (claim_value v)
           IDEMPOTENCY_TTL_SECONDS).

(** [probe.claimed ? value : normalizeTokenClaim(probe.existing, context)] *)
Definition probed (probe : bool * IdempotencyClaimValue.t) (value : TokenClaim.t)
    (context : string) : result string TokenClaim.t :=
  if probe.1 then Ok value else normalizeTokenClaim (Some probe.2) context.

(** ** Repair *)

(** [synchronizeLegacyGenerationClaim(userId, clientRequestId, expectedLegacy, primary)] *)
Definition synchronizeLegacyGenerationClaim (expectedLegacy primary : TokenClaim.t) : prog () :=
  await synchronized <- attempt (store (TakeoverIdempotencyKey legacyGenerationClaimKey
                                    (claim_value expectedLegacy) (claim_value primary)
                                    LEGACY_IDEMPOTENCY_TTL_SECONDS));
  match synchronized with
  | Ok true => ret tt
  | _ =>
      await probe <- claim_legacy primary;
      await current <- lift (probed probe primary "legacy");
      if claimsMirrorExactly current primary then ret tt
      else
        match synchronized with
        | Throw e => fail e
        | Ok _ =>
            await _ <- lift (assertClaimMirrors current primary);
            fail "Legacy generation idempotency claim could not be synchronized"
        end
  end.

(** [tombstoneObservedGenerationClaim(..)] *)
Definition tombstoneObservedGenerationClaim (streamId : string) (claim : TokenClaim.t)
    (createdAt : Z) (protocol : GenerationProtocolVersion) : prog TokenClaim.t :=
  let tombstone := {| claim with TokenClaim.startedAt := Some createdAt;
                      TokenClaim.generationProtocolVersion := protocol |} in
  await marked <- attempt (store (TakeoverIdempotencyKey (generationClaimKey streamId)
                             (claim_value claim) (claim_value tombstone)
                             IDEMPOTENCY_TTL_SECONDS));
  await _ <- match marked with
             | Ok true => ret tt
             | _ =>
                 await probe <- claim_primary streamId tombstone;
                 await current <- lift (probed probe tombstone "observed generation tombstone");
                 if claimsMirrorExactly current tombstone then ret tt
                 else
                   match marked with
                   | Throw e => fail e
                   | Ok _ => fail "Observed generation idempotency claim changed before it was fenced"
                   end
             end;
  await _ <- synchronizeLegacyGenerationClaim claim tombstone;
  ret tombstone.

(** ** Admission *)

(** [claimGeneration(userId, clientRequestId, streamId, conversationId, protocol)] *)
Definition claimGeneration (streamId conversationId : string)
    (generationProtocolVersion : option GenerationProtocolVersion) : prog ClaimResult.t :=
  await now <- ask DateNow;
  await token <- ask RandomUUID;
  let value := TokenClaim.mk streamId conversationId
                 (normalizeClaimProtocol generationProtocolVersion) now token None None in
  await legacyResult <- claim_legacy value;
  if legacyResult.1 then
    await primaryResult <- claim_primary streamId value;
    if primaryResult.1 then ret (won value)
    else
      await primary <- lift (normalizeTokenClaim (Some primaryResult.2) "primary");
      await _ <- lift (assertClaimMatchesRequest primary streamId conversationId);
      await _ <- synchronizeLegacyGenerationClaim value primary;
      ret (duplicate primary)
  else
    match IdempotencyClaimValue.claimToken legacyResult.2 with
    | None =>
        await old <- lift (normalizeTokenlessLegacyClaim (Some legacyResult.2));
        ret (ClaimResult.mk false (Some old) Legacy)
    | Some _ =>
        await legacy <- lift (normalizeTokenClaim (Some legacyResult.2) "legacy");
        await _ <- lift (assertClaimMatchesRequest legacy streamId conversationId);
        await primaryResult <- claim_primary streamId legacy;
        if primaryResult.1 then ret (duplicate legacy)
        else
          await primary <- lift (normalizeTokenClaim (Some primaryResult.2) "primary");
          await _ <- lift (assertClaimMatchesRequest primary streamId conversationId);
          if isRecoverableTakeoverSplit legacy primary then
            await _ <- synchronizeLegacyGenerationClaim legacy primary;
            ret (duplicate primary)
          else
            await _ <- lift (assertClaimMirrors legacy primary);
            await _ <- (if bool_decide (TokenClaim.startedAt primary <> None /\
                                        TokenClaim.startedAt legacy = None)
                        then synchronizeLegacyGenerationClaim legacy primary else ret tt);
            ret (duplicate primary)
    end.

(** [takeoverGeneration(userId, clientRequestId, streamId, expected)]: the two probes that
    follow a lost reply are sent together, in either order. *)
Definition probe_both (streamId : string) (expected : TokenClaim.t)
  : prog ((bool * IdempotencyClaimValue.t) * (bool * IdempotencyClaimValue.t)) :=
  await primaryFirst <- ask FirstOfTwo;
  if (primaryFirst : bool) then
    await p <- attempt (claim_primary streamId expected);
    await l <- attempt (claim_legacy expected);
    await p <- lift p; await l <- lift l; ret (p, l)
  else
    await l <- attempt (claim_legacy expected);
    await p <- attempt (claim_primary streamId expected);
    await l <- lift l; await p <- lift p; ret (p, l).

(** The [catch] of the primary CAS. *)
Definition settle_lost_takeover (streamId : string) (expected value : TokenClaim.t)
    (error : string) : prog ClaimResult.t :=
  await observed <- probe_both streamId expected;
  await primary <- lift (probed observed.1 expected "primary");
  await legacy <- lift (probed observed.2 expected "legacy");
  if isRecoverableTakeoverSplit legacy primary then
    await _ <- synchronizeLegacyGenerationClaim legacy primary;
    ret (if claimsMirrorExactly primary value then won value else duplicate primary)
  else if claimsMirrorExactly legacy primary && claimsMirrorExactly primary value
  then ret (won value)
  else if claimsMirrorExactly legacy primary && isClaimTakeoverOf expected primary
  then ret (duplicate primary)
  else fail error.

(** The second CAS, undone on the primary key when it does not succeed. *)
Definition mirror_takeover (streamId : string) (expected value : TokenClaim.t)
  : prog ClaimResult.t :=
  await legacyTaken <- attempt (store (TakeoverIdempotencyKey legacyGenerationClaimKey
                                   (claim_value expected) (claim_value value)
                                   LEGACY_IDEMPOTENCY_TTL_SECONDS));
  let release := store (ReleaseIdempotencyKey (generationClaimKey streamId)
                          (Some (claim_value value))) in
  match legacyTaken with
  | Ok true => ret (won value)
  | Ok false =>
      await released <- attempt release;
      match released with
      | Ok _ => ret (ClaimResult.mk false None Primary)
      | Throw e => await _ <- attempt release; fail e
      end
  | Throw e => await _ <- attempt release; fail e
  end.

Definition takeoverGeneration (streamId : string) (expected : IdempotencyClaimValue.t)
  : prog ClaimResult.t :=
  match IdempotencyClaimValue.claimToken expected with
  | None =>
      await old <- lift (normalizeTokenlessLegacyClaim (Some expected));
      ret (ClaimResult.mk false (Some old) Legacy)
  | Some _ =>
      await expectedClaim <- lift (normalizeTokenClaim (Some expected) "takeover");
      let conversationId := TokenClaim.conversationId expectedClaim in
      await _ <- lift (assertClaimMatchesRequest expectedClaim streamId conversationId);
      await primaryProbe <- claim_primary streamId expectedClaim;
      await primary <- lift (probed primaryProbe expectedClaim "primary");
      await legacyProbe <- claim_legacy expectedClaim;
      await legacy <- lift (probed legacyProbe expectedClaim "legacy");
      await _ <- lift (assertClaimMatchesRequest primary streamId conversationId);
      await _ <- lift (assertClaimMatchesRequest legacy streamId conversationId);
      if isRecoverableTakeoverSplit legacy primary then
        await _ <- synchronizeLegacyGenerationClaim legacy primary;
        ret (duplicate primary)
      else
        await _ <- lift (assertClaimMirrors legacy primary);
        if bool_decide (TokenClaim.startedAt primary <> None) then
          await _ <- (if bool_decide (TokenClaim.startedAt legacy = None)
                      then synchronizeLegacyGenerationClaim legacy primary else ret tt);
          ret (duplicate primary)
        else
          await now <- ask DateNow;
          await token <- ask RandomUUID;
          let value :=
            TokenClaim.mk streamId conversationId
              (TokenClaim.generationProtocolVersion expectedClaim)
              (Z.max now (Z.min MAX_SAFE_INTEGER (TokenClaim.claimedAt expectedClaim + 1)))
              token (Some (TokenClaim.claimToken expectedClaim)) None in
          await primaryTaken <- attempt (store (TakeoverIdempotencyKey
                                            (generationClaimKey streamId)
                                            (claim_value expectedClaim) (claim_value value)
                                            IDEMPOTENCY_TTL_SECONDS));
          match primaryTaken with
          | Throw e => settle_lost_takeover streamId expectedClaim value e
          | Ok false => ret (ClaimResult.mk false None Primary)
          | Ok true => mirror_takeover streamId expectedClaim value
          end
  end.

(** ** Reacquired claims *)

(** The tenant of the request: none, or not the system's. *)
Definition safe_tenant (tenantId : option string) : option string :=
  match tenantId with
  | Some t => if bool_decide (t <> "" /\ t <> "__SYSTEM__") then Some t else None
  | None => None
  end.

(** [resumeClaimedGeneration(userId, clientRequestId, streamId, claim)] in the context of a tenant. *)
Definition resumeClaimedGeneration (tenant : option string) (streamId : string)
    (claim : IdempotencyClaimValue.t) : prog (option TokenClaim.t) :=
  let tenantId := safe_tenant tenant in
  await normalizedClaim <- lift (normalizeTokenClaim (Some claim) "reacquired");
  let conversationId := TokenClaim.conversationId normalizedClaim in
  await _ <- lift (assertClaimMatchesRequest normalizedClaim streamId conversationId);
  await job <- store (GetJob streamId);
  match job with
  | None => ret None
  | Some j =>
      if negb (bool_decide (Job.userId j = userId) && tenant_matches (Job.tenantId j) tenantId &&
               active (Job.status j))
      then ret None
      else
        let missing := bool_decide (Job.idempotencyClientRequestId j = None) in
        if negb missing &&
           negb (bool_decide (Job.idempotencyClientRequestId j = Some clientRequestId))
        then ret None
        else
          let conversationMatches :=
            bool_decide (default streamId (Job.conversationId j) = conversationId) in
          let jobProtocol := normalizeClaimProtocol (Job.generationProtocolVersion j) in
          await adopted <- attempt (store (AdoptIdempotencyKeyForJob
                                      (generationClaimKey streamId)
                                      (claim_value normalizedClaim) streamId userId
                                      clientRequestId tenantId (Job.createdAt j)
                                      IDEMPOTENCY_TTL_SECONDS missing));
          match adopted with
          | Ok true =>
              let adoptedClaim :=
                {| normalizedClaim with
                   TokenClaim.startedAt := Some (Job.createdAt j);
                   TokenClaim.generationProtocolVersion := jobProtocol |} in
              await _ <- synchronizeLegacyGenerationClaim normalizedClaim adoptedClaim;
              if missing || negb conversationMatches
              then fail "Active legacy generation was conservatively fenced without attaching the retry"
              else ret (Some adoptedClaim)
          | _ =>
              await fenced <- attempt (tombstoneObservedGenerationClaim streamId normalizedClaim
                                   (Job.createdAt j) jobProtocol);
              match fenced, adopted with
              | Throw _, Throw e => fail e
              | Throw e, Ok _ => fail e
              | Ok _, _ =>
                  fail "Live generation settled while its idempotency claim was conservatively fenced"
              end
          end
  end.

(** ** Release *)

(** [releaseGeneration(userId, clientRequestId, streamId, expected)] *)
Definition releaseGeneration (streamId : string) (expected : option IdempotencyClaimValue.t)
  : prog () :=
  match expected ≫= IdempotencyClaimValue.claimToken with
  | None => ret tt
  | Some _ =>
      await expectedClaim <- lift (normalizeTokenClaim expected "release");
      await _ <- lift (assertClaimMatchesRequest expectedClaim streamId
                         (TokenClaim.conversationId expectedClaim));
      await primaryProbe <- claim_primary streamId expectedClaim;
      await primary <- lift (probed primaryProbe expectedClaim "primary");
      await _ <- lift (assertClaimMirrors expectedClaim primary);
      if bool_decide (TokenClaim.startedAt primary <> None) then ret tt
      else
        await _ <- store (ReleaseIdempotencyKey (generationClaimKey streamId)
                            (Some (claim_value expectedClaim)));
        await legacyProbe <- claim_legacy expectedClaim;
        await legacy <- lift (probed legacyProbe expectedClaim "legacy");
        await _ <- lift (assertClaimMirrors legacy expectedClaim);
        if bool_decide (TokenClaim.startedAt legacy <> None) then ret tt
        else store (ReleaseIdempotencyKey legacyGenerationClaimKey
                      (Some (claim_value expectedClaim)))
  end.

(** [confirmLegacyStartedFence(..)]: whether both keys record that generation [job] started. *)
Definition confirmLegacyStartedFence (streamId conversationId claimToken : string)
    (createdAt : Z) (protocol : option GenerationProtocolVersion) : prog bool :=
  await now <- ask DateNow;
  let fallback := TokenClaim.mk streamId conversationId (normalizeClaimProtocol protocol) now
                    claimToken None (Some createdAt) in
  await primaryResult <- claim_primary streamId fallback;
  if primaryResult.1 then ret false
  else
    await primary <- lift (normalizeTokenClaim (Some primaryResult.2) "primary started fence");
    await _ <- lift (assertClaimMatchesRequest primary streamId conversationId);
    if negb (bool_decide (TokenClaim.claimToken primary = claimToken /\
                          TokenClaim.startedAt primary = Some createdAt /\
                          TokenClaim.generationProtocolVersion primary =
                          normalizeClaimProtocol protocol))
    then ret false
    else
      await legacyResult <- claim_legacy primary;
      await legacy <- lift (probed legacyResult primary "legacy started fence");
      ret (claimsMirrorExactly legacy primary).
End request.
