(* ===== verification/ClaimRaces.v ===== *)
(** * Start requests that race

    The methods of [Claims] run concurrently over the in-memory store, on several replicas and
    with anything else that the server does.  A call of the store may fail before it runs, or after
    it ran, when only its reply is lost.  In the window that follows the first use of a request id,
    in which no claim can expire, at most one request is admitted, and at most one generation is
    created under a claim that is not released. *)

From stdpp Require Import relations.
From S2P Require Import Prelude Programs JsMap Json StreamTypes StoreState StoreSteers StoreParked.
From S2P Require Import StoreJobs StoreCleanup StoreFrame StoreRun StoreEpochs StoreClaims Claims.

(** ** Calls on the store *)

(** The operation that a call executes. *)
Definition call_op {R} (c : call R) : option op :=
  match c with
  | ClaimIdempotencyKey key v ttl => Some (ClaimKey key v ttl)
  | TakeoverIdempotencyKey key e v ttl => Some (TakeoverKey key e v ttl)
  | ReleaseIdempotencyKey key e => Some (ReleaseKey key e)
  | AdoptIdempotencyKeyForJob key e k u r t at' ttl b => Some (AdoptKey key e k u r t at' ttl b)
  | _ => None
  end.

(** A call that is answered, or that fails with or without having been executed. *)
Definition answered {A} (s : Store) (a : A) (after : Store) (r : result string A) (s' : Store)
  : Prop :=
  (r = Ok a /\ s' = after) \/ exists e, r = Throw e /\ (s' = s \/ s' = after).

Definition exec (now : Z) (s : Store) {R} (c : call R) : R -> Store -> Prop :=
  match c in call R return R -> Store -> Prop with
  | DateNow => fun r s' => r = now /\ s' = s
  | RandomUUID | FirstOfTwo => fun _ s' => s' = s
  | ClaimIdempotencyKey key v ttl =>
      let '(r, s') := claimIdempotencyKey key v ttl now s in answered s r s'
  | TakeoverIdempotencyKey key e v ttl =>
      let '(r, s') := takeoverIdempotencyKey key e v ttl now s in answered s r s'
  | ReleaseIdempotencyKey key e => answered s tt (releaseIdempotencyKey key e s)
  | AdoptIdempotencyKeyForJob key e k u r t at' ttl b =>
      let '(r, s') := adoptIdempotencyKeyForJob key e k u r t at' ttl b now s in answered s r s'
  | GetJob k => answered s (getJob s k) s
  end.

Lemma answered_state {A} s (a : A) after r s' :
  answered s a after r s' -> s' = s \/ s' = after.
Proof. intros [[_ ->]|(e & _ & [->| ->])]; auto. Qed.

Lemma exec_state now s R (c : call R) r s' :
  exec now s c r s' -> s' = s \/ exists o, call_op c = Some o /\ s' = run_op o now s.
Proof.
  destruct c; cbn [exec call_op run_op].
  - intros [_ ->]. by left.
  - intros ->. by left.
  - intros ->. by left.
  - destruct (claimIdempotencyKey _ _ _ _ _) as [a s1] eqn:E.
    intros [->| ->]%answered_state; [by left|right]. eexists. split; [done|]. simpl. by rewrite E.
  - destruct (takeoverIdempotencyKey _ _ _ _ _ _) as [a s1] eqn:E.
    intros [->| ->]%answered_state; [by left|right]. eexists. split; [done|]. simpl. by rewrite E.
  - intros [->| ->]%answered_state; [by left|right]. eexists. split; [done|]. done.
  - destruct (adoptIdempotencyKeyForJob _ _ _ _ _ _ _ _ _ _ _) as [a s1] eqn:E.
    intros [->| ->]%answered_state; [by left|right]. eexists. split; [done|]. simpl. by rewrite E.
  - intros [->| ->]%answered_state; by left.
Qed.

(** ** Calls of the manager's methods *)

Section request.
Variables userId clientRequestId : string.
Abbreviation legacyKey := (legacyGenerationClaimKey userId clientRequestId).

(** Claims last for the window; a release is fenced by a token and spares the key [avoid]. *)
Definition fine (avoid : option string) {R} (c : call R) : Prop :=
  match c with
  | ClaimIdempotencyKey _ _ ttl | TakeoverIdempotencyKey _ _ _ ttl
  | AdoptIdempotencyKeyForJob _ _ _ _ _ _ _ ttl _ => (IDEMPOTENCY_TTL_SECONDS <= ttl)%Z
  | ReleaseIdempotencyKey k e => e <> None /\ avoid <> Some k
  | _ => True
  end.
(** The legacy key is claimed. *)
Definition admits {R} (c : call R) : R -> Prop :=
  match c in call R return R -> Prop with
  | ClaimIdempotencyKey k _ _ =>
      fun r => k = legacyKey /\ match r with Ok (true, _) => True | _ => False end
  | _ => fun _ => False
  end.

Abbreviation fine_calls avoid := (calls (fun R (c : call R) => fine avoid c)).
Abbreviation guarded avoid :=
  (Programs.guarded (fun R (c : call R) => fine avoid c) (fun R (c : call R) r => admits c r)).

(** Every method is a tree of binds, attempts and calls: walk it. *)
Ltac walk :=
  repeat first
    [ done
    | apply calls_bind; [|intros]
    | apply calls_attempt
    | split; [try done|intros]
    | case_match ].

Lemma fine_synchronize avoid e p :
  fine_calls avoid (synchronizeLegacyGenerationClaim userId clientRequestId e p).
Proof. unfold synchronizeLegacyGenerationClaim. walk. Qed.

Lemma fine_tombstone avoid k cl e p :
  fine_calls avoid (tombstoneObservedGenerationClaim userId clientRequestId k cl e p).
Proof.
  unfold tombstoneObservedGenerationClaim. walk; apply fine_synchronize.
Qed.

Ltac walk_methods := walk; try apply fine_synchronize; try apply fine_tombstone.

Lemma fine_claim avoid k conv p :
  fine_calls avoid (claimGeneration userId clientRequestId k conv p).
Proof. unfold claimGeneration. walk_methods. Qed.

Lemma fine_resume avoid te k cl :
  fine_calls avoid (resumeClaimedGeneration userId clientRequestId te k cl).
Proof. unfold resumeClaimedGeneration. walk_methods. Qed.

Lemma fine_takeover avoid k ex :
  avoid <> Some (generationClaimKey userId clientRequestId k) ->
  fine_calls avoid (takeoverGeneration userId clientRequestId k ex).
Proof.
  intros Ha. unfold takeoverGeneration, settle_lost_takeover, mirror_takeover, probe_both.
  walk_methods.
Qed.

Lemma fine_release k ex : fine_calls None (releaseGeneration userId clientRequestId k ex).
Proof. unfold releaseGeneration. walk_methods. Qed.

Lemma fine_confirm avoid k conv tok e p :
  fine_calls avoid (confirmLegacyStartedFence userId clientRequestId k conv tok e p).
Proof. unfold confirmLegacyStartedFence. walk_methods. Qed.

(** ** Admission *)

Lemma guarded_claim avoid k conv p :
  guarded avoid (fun r => ClaimResult.claimed r = false) (claimGeneration userId clientRequestId k conv p).
Proof.
  unfold claimGeneration. apply guarded_bind_calls; [walk|]. intros now.
  apply guarded_bind_calls; [walk|]. intros token. cbv zeta.
  set (value := TokenClaim.mk _ _ _ _ _ _ _). clearbody value. split; [done|].
  intros [[[] old]|e]; [left|right|by right]; cbn [pbind fst snd].
  - split; [done|]. walk_methods.
  - destruct (IdempotencyClaimValue.claimToken old).
    + apply guarded_bind_calls; [walk|]. intros legacy. 
      apply guarded_bind_calls; [walk|]. intros _.
      apply guarded_bind_calls; [walk|]. intros [[] w]; [done|]. cbn [fst].
      apply guarded_bind_calls; [walk|]. intros primary.
      apply guarded_bind_calls; [walk|]. intros _.
      destruct (isRecoverableTakeoverSplit legacy primary).
      * apply guarded_bind_calls; [apply fine_synchronize | done].
      * apply guarded_bind_calls; [walk|]. intros _.
        apply guarded_bind_calls; [case_match; [apply fine_synchronize | done] | done].
    + apply guarded_bind_calls; [walk | done].
Qed.

(** ** The requests of a pool *)

(** What a request ends with: the answer of a start, or anything. *)
Inductive outcome := Concluded (claimed : bool) | Settled.
Definition prize (o : outcome) : bool := match o with Concluded b => b | Settled => false end.

Definition start (streamId conversationId : string) (p : option GenerationProtocolVersion)
  : prog outcome :=
  await r <- claimGeneration userId clientRequestId streamId conversationId p;
  ret (Concluded (ClaimResult.claimed r)).
Definition finish {A} (p : prog A) : prog outcome := await _ <- p; ret Settled.

(** Start requests, retries and takeovers for one request id, on any stream. *)
Inductive competes : prog outcome -> Prop :=
| competes_start k conv p : competes (start k conv p)
| competes_takeover k ex : competes (finish (takeoverGeneration userId clientRequestId k ex))
| competes_resume te k cl : competes (finish (resumeClaimedGeneration userId clientRequestId te k cl))
| competes_confirm k conv tok e p :
    competes (finish (confirmLegacyStartedFence userId clientRequestId k conv tok e p)).
(** The same, and releases. *)
Inductive requests : prog outcome -> Prop :=
| requests_competes p : competes p -> requests p
| requests_release k ex : requests (finish (releaseGeneration userId clientRequestId k ex)).

(** The window opened at [opens]: no claim taken in it expires. *)
Variable opens : Z.
Definition closes : Z := opens + IDEMPOTENCY_TTL_SECONDS * 1000.
Definition within (now : Z) : Prop := (opens <= now < closes)%Z.

(** A call, at a time of the window. *)
Definition timely {R} (c : call R) (s : Store) (r : R) (s' : Store) : Prop :=
  exists now, within now /\ exec now s c r s'.
(** Anything else that the server does, short of releasing the claim on [key]. *)
Definition elsewhere (key : string) (s s' : Store) : Prop :=
  exists o now, within now /\ proper key closes o now /\ ~ releases key o /\ s' = run_op o now s.

Lemma fine_proper avoid key R (c : call R) o now :
  within now -> fine avoid c -> call_op c = Some o ->
  proper key closes o now /\ (avoid = Some key -> ~ releases key o).
Proof.
  unfold within, closes. intros Hn. destruct c; cbn; intros Hf [= <-]; cbn; try (split; [intros _; lia | by intros _ []]).
  destruct Hf as [He Ha]. split; [done|]. intros -> ->. done.
Qed.

Lemma keys_differ k :
  valid_request_id clientRequestId = true ->
  generationClaimKey userId clientRequestId k <> legacyKey.
Proof.
  intros Hv He. unfold valid_request_id in Hv. apply andb_true_iff in Hv as [Hl Hc].
  apply bool_decide_eq_true in Hl. rewrite forallb_forall in Hc.
  assert (Happ : forall x y, String.list_ascii_of_string (x +:+ y) =
                             String.list_ascii_of_string x ++ String.list_ascii_of_string y).
  { intros x y. induction x as [|a x IH]; [done|]. simpl. by rewrite IH. }
  apply (f_equal String.list_ascii_of_string) in He. unfold generationClaimKey, legacyGenerationClaimKey in He.
  rewrite !Happ in He. rewrite !app_assoc in He.
  assert (Hne : String.list_ascii_of_string clientRequestId <> []).
  { destruct clientRequestId; cbn in *; [lia | done]. }
  destruct (exists_last Hne) as (l & a & Ea). rewrite Ea, app_assoc in He.
  apply app_inj_2 in He as [_ He]; [|done]. injection He as ->.
  assert (Ha : request_id_char (Ascii.ascii_of_nat 125) = true).
  { apply Hc. rewrite Ea. apply in_or_app. right. by left. }
  by vm_compute in Ha.
Qed.

Lemma competes_fine avoid p :
  (forall k, avoid <> Some (generationClaimKey userId clientRequestId k)) ->
  competes p -> fine_calls avoid p.
Proof.
  intros Ha []; unfold start, finish; apply calls_bind; try done;
    [apply fine_claim | by apply fine_takeover | apply fine_resume | apply fine_confirm].
Qed.

Lemma competes_guarded avoid p :
  (forall k, avoid <> Some (generationClaimKey userId clientRequestId k)) ->
  competes p -> guarded avoid (fun o => prize o = false) p.
Proof.
  intros Ha Hp. destruct Hp as [k conv q|k ex|te k cl|k conv tok e q].
  - unfold start. apply (guarded_bind _ _ (fun r => ClaimResult.claimed r = false));
      [apply guarded_claim | done | by intros r].
  - apply guarded_bind_calls; [by apply fine_takeover | done].
  - apply guarded_bind_calls; [apply fine_resume | done].
  - apply guarded_bind_calls; [apply fine_confirm | done].
Qed.
End request.

(** ** Theorems *)

(** C3. One admission per request.  However the start requests, retries and takeovers that carry
    one request id interleave at their awaits, on any replicas and streams, whatever calls of the
    store fail or lose their reply, and whatever else the server does, at most one start request
    is admitted in the 25 hours that follow, unless a claim is released. *)
Theorem one_admission_per_request userId clientRequestId opens (s : Store) ps s' ps' :
  valid_request_id clientRequestId = true -> mwf (idempotencyClaims s) ->
  Forall (competes userId clientRequestId) ps ->
  pool_steps (fun R (c : call R) => timely opens c)
    (elsewhere opens (legacyGenerationClaimKey userId clientRequestId)) (s, ps) (s', ps') ->
  winners prize ps' <= 1.
Proof.
  intros Hv Hw Hps. set (key := legacyGenerationClaimKey userId clientRequestId).
  assert (Hk : forall k, Some key <> Some (generationClaimKey userId clientRequestId k)).
  { intros k He%(inj Some). by apply (keys_differ userId clientRequestId k Hv). }
  eapply at_most_one_winner with (gone := held key (closes opens))
    (P := fun R (c : call R) => fine (Some key) c)
    (W := fun R (c : call R) r => admits userId clientRequestId c r)
    (ok := fun s => mwf (idempotencyClaims s)); try done.
  - intros R c s0 r s1 (now & _ & He) _ Hs. apply exec_state in He as [->|(o & _ & ->)]; [done|].
    by apply run_op_claims_wf.
  - intros s0 s1 (o & now & _ & _ & _ & ->) Hs. by apply run_op_claims_wf.
  - intros R c s0 r s1 (now & Hn & He) Hf Hs Ha. unfold within in Hn.
    destruct c; try done. destruct Ha as [-> Ha]. cbn [exec] in He.
    unfold claimIdempotencyKey in He. fold key in He.
    destruct (live_claim s0 key now) as [e|] eqn:El.
    + by destruct He as [[-> _]|(e' & -> & _)].
    + destruct He as [[_ ->]|(e' & -> & _)]; [|done]. split.
      * intros Hh. apply (live_held key (closes opens) now) in Hh; [|lia].
        destruct Hh as [c Hc]. congruence.
      * eexists. split; [rewrite set_claim_get; by rewrite decide_True|]. unfold long, closes. cbn in *. lia.
  - intros R c s0 r s1 (now & Hn & He) Hf Hs Hh.
    apply exec_state in He as [->|(o & Ho & ->)]; [done|].
    destruct (fine_proper opens (Some key) key R c o now Hn Hf Ho) as [Hp Hr].
    apply held_step; [done | by destruct Hn | done | by apply Hr | done].
  - intros s0 s1 (o & now & Hn & Hp & Hr & ->) Hs Hh. apply held_step; try done. by destruct Hn.
  - eapply Forall_impl; [exact Hps|]. intros p. by apply competes_guarded.
Qed.

(** ** Generations created under a claim

    A run also records the tokens with which jobs were created under the claim on [key], and the
    tokens with which its release was asked for. *)

Record Traced := { store_of : Store; created : list string; freed : list string }.

Section trace.
Variables (opens : Z) (key : string).

Definition traced_call {R} (c : call R) (t : Traced) (r : R) (t' : Traced) : Prop :=
  timely opens c (store_of t) r (store_of t') /\ created t' = created t /\
  freed t' = freed t ++ match call_op c with Some o => frees key o | None => [] end.

(** What else the server does: the creation of jobs, and everything that does not act on the
    claim's key against its discipline. *)
Definition traced_op (t t' : Traced) : Prop :=
  exists o now, within opens now /\ proper key (closes opens) o now /\
    store_of t' = run_op o now (store_of t) /\
    created t' = created t ++ creates key o now (store_of t) /\ freed t' = freed t ++ frees key o.

Definition lease_kept (t : Traced) : Prop :=
  mwf (idempotencyClaims (store_of t)) /\
  leased_once key opens (closes opens) (store_of t) (created t) (freed t).

Lemma leased_freed s cr fr fr' :
  leased_once key opens (closes opens) s cr fr -> leased_once key opens (closes opens) s cr (fr ++ fr').
Proof. intros [(x & H1 & H2)|H]; [left; exists x; set_solver | by right]. Qed.

Lemma call_op_creates R (c : call R) o now s : call_op c = Some o -> creates key o now s = [].
Proof. destruct c; cbn; intros [= <-]; done. Qed.

Lemma traced_call_keeps R (c : call R) t r t' :
  traced_call c t r t' -> fine None c -> lease_kept t -> lease_kept t'.
Proof.
  intros [(now & Hn & He) [Hc Hf]] Hfine [Hw Hl]. unfold lease_kept. rewrite Hc, Hf.
  apply exec_state in He as [->|(o & Ho & ->)].
  - split; [done | by apply leased_freed].
  - rewrite Ho. split; [by apply run_op_claims_wf|].
    rewrite <- (app_nil_r (created t)), <- (call_op_creates R c o now (store_of t) Ho).
    apply leased_step; [done | done | | done]. by eapply fine_proper.
Qed.

Lemma traced_op_keeps t t' : traced_op t t' -> lease_kept t -> lease_kept t'.
Proof.
  intros (o & now & Hn & Hp & Hs & Hc & Hf) [Hw Hl]. unfold lease_kept. rewrite Hs, Hc, Hf.
  split; [by apply run_op_claims_wf | by apply leased_step].
Qed.
End trace.

Lemma requests_fine u c p : requests u c p -> calls (fun R (c : call R) => fine None c) p.
Proof.
  intros [q Hq|k ex]; [by apply (competes_fine u c None)|].
  apply calls_bind; [apply fine_release | done].
Qed.

(** C4. One generation per claim.  From the first use of a request id on a stream, and whatever
    requests with that id do (start, retry, take over, resume, release), whatever calls fail or
    lose their reply, and whatever jobs the server creates, at most one job is created under the
    claim in the 25 hours that follow, unless the very token that created one was also used to
    release the claim. *)
Theorem one_generation_per_claim userId clientRequestId streamId opens (s : Store) ps s' ps' cr fr :
  let key := generationClaimKey userId clientRequestId streamId in
  mwf (idempotencyClaims s) -> unleased opens (mget (idempotencyClaims s) key) ->
  Forall (requests userId clientRequestId) ps ->
  pool_steps (fun R (c : call R) => traced_call opens key c) (traced_op opens key)
    (Build_Traced s [] [], ps) (Build_Traced s' cr fr, ps') ->
  length cr <= 1 \/ exists t, t ∈ cr /\ t ∈ fr.
Proof.
  intros key Hw Hu Hps Hsteps.
  assert (Hk : lease_kept opens key (Build_Traced s' cr fr)).
  { eapply pool_invariant; [| |exact Hsteps| |].
    - intros R c t r t' H Hf. by eapply traced_call_keeps.
    - apply traced_op_keeps.
    - eapply Forall_impl; [exact Hps|]. apply requests_fine.
    - split; [done|]. right. apply lease_open. intros e He. left. by apply Hu. }
  destruct Hk as [_ [Hf|Hl]]; [by right|left]. cbn [store_of created] in Hl.
  inversion Hl; simpl; lia.
Qed.

(** ** Evaluated instances *)

(** A scheduler: at each turn thread [i] makes its next call at a time, and the call is answered,
    fails before it runs, or runs and loses its reply. *)
Inductive reply := Answered | Refused | Lost.

Definition lose {R} (c : call R) : R -> R :=
  match c in call R return R -> R with
  | ClaimIdempotencyKey _ _ _ => fun _ => Throw "connection lost"
  | TakeoverIdempotencyKey _ _ _ _ => fun _ => Throw "connection lost"
  | ReleaseIdempotencyKey _ _ => fun _ => Throw "connection lost"
  | AdoptIdempotencyKeyForJob _ _ _ _ _ _ _ _ _ => fun _ => Throw "connection lost"
  | GetJob _ => fun _ => Throw "connection lost"
  | _ => fun r => r
  end.

(** The answer of a call when it is answered; [uuid] is what [randomUUID] returns. *)
Definition answer (uuid : string) (now : Z) (s : Store) {R} (c : call R) : R * Store :=
  match c in call R return R * Store with
  | DateNow => (now, s)
  | RandomUUID => (uuid, s)
  | FirstOfTwo => (true, s)
  | ClaimIdempotencyKey key v ttl =>
      let '(r, s') := claimIdempotencyKey key v ttl now s in (Ok r, s')
  | TakeoverIdempotencyKey key e v ttl =>
      let '(r, s') := takeoverIdempotencyKey key e v ttl now s in (Ok r, s')
  | ReleaseIdempotencyKey key e => (Ok tt, releaseIdempotencyKey key e s)
  | AdoptIdempotencyKeyForJob key e k u r t at' ttl b =>
      let '(r, s') := adoptIdempotencyKeyForJob key e k u r t at' ttl b now s in (Ok r, s')
  | GetJob k => (Ok (getJob s k), s)
  end.

Definition play (uuid : string) (now : Z) (y : reply) (s : Store) {R} (c : call R) : R * Store :=
  let '(r, s') := answer uuid now s c in
  match y with Answered => (r, s') | Refused => (lose c r, s) | Lost => (lose c r, s') end.

Lemma play_exec uuid now y s R (c : call R) :
  exec now s c (play uuid now y s c).1 (play uuid now y s c).2.
Proof.
  unfold play. destruct c; cbn [answer exec]; repeat case_match; simplify_eq/=; try done;
    first [by left | right; eexists; split; [done | auto]].
Qed.

Definition turn (x : Store * list (prog outcome)) (e : nat * string * Z * reply)
  : Store * list (prog outcome) :=
  let '(i, uuid, now, y) := e in
  match x.2 !! i with
  | Some (Step c k) => let '(r, s') := play uuid now y x.1 c in (s', <[i := k r]> x.2)
  | _ => x
  end.

Lemma turns_steps opens others l x :
  forallb (fun e => bool_decide (within opens e.1.2)) l = true ->
  pool_steps (fun R (c : call R) => timely opens c) others x (foldl turn x l).
Proof.
  revert x. induction l as [|[[[i uuid] now] y] l IH]; intros x Hl; [constructor|].
  apply andb_true_iff in Hl as [Hn Hl]. apply bool_decide_eq_true in Hn. etrans; [|by apply IH].
  destruct x as [s ps]. cbn [turn fst snd]. destruct (ps !! i) as [[|R c k]|] eqn:E; try constructor.
  pose proof (play_exec uuid now y s R c) as He. destruct (play uuid now y s c) as [r s'].
  apply rtc_once. eapply step_call; [done|]. exists now. by split.
Qed.

Module ClaimDemo.
Definition click : prog outcome := start "u1" "req1" "s1" "s1" (Some V2).
Definition pool (l : list (nat * string * Z * reply)) : Store * list (prog outcome) :=
  foldl turn (newStore None None None, [click; click; click]) l.
Definition call_at (i : nat) (uuid : string) (now : Z) (y : reply) : nat * string * Z * reply :=
  (i, uuid, now, y).
(** The retry arrives before, between or after the two claims of the first request. *)
Definition in_order : list (nat * string * Z * reply) :=
  [call_at 0 "t0" 10 Answered; call_at 1 "t1" 11 Answered; call_at 0 "t0" 12 Answered;
   call_at 1 "t1" 13 Answered; call_at 2 "t2" 14 Answered; call_at 2 "t2" 14 Answered;
   call_at 0 "t0" 15 Answered; call_at 2 "t2" 15 Lost; call_at 0 "t0" 16 Answered;
   call_at 1 "t1" 17 Answered; call_at 1 "t1" 18 Answered].
Definition between : list (nat * string * Z * reply) :=
  [call_at 0 "t0" 10 Answered; call_at 0 "t0" 10 Answered; call_at 0 "t0" 10 Answered;
   call_at 1 "t1" 11 Answered; call_at 1 "t1" 11 Answered; call_at 1 "t1" 11 Answered;
   call_at 1 "t1" 12 Answered;
   call_at 0 "t0" 13 Answered; call_at 0 "t0" 14 Answered; call_at 0 "t0" 15 Answered].
End ClaimDemo.

Lemma one_admission_per_request_witness :
  has_won prize <$> (ClaimDemo.pool ClaimDemo.in_order).2 = [true; false; false] /\
  winners prize (ClaimDemo.pool ClaimDemo.in_order).2 <= 1.
Proof.
  split; [by vm_compute|].
  eapply (one_admission_per_request "u1" "req1" 10 (newStore None None None)
           [ClaimDemo.click; ClaimDemo.click; ClaimDemo.click] (ClaimDemo.pool ClaimDemo.in_order).1).
  - by vm_compute.
  - constructor.
  - repeat constructor.
  - rewrite <- surjective_pairing. by apply turns_steps.
Defined.

(** A retry that arrives between the two claims of the first request claims the second key on its
    behalf; the first request then takes its own claim for another's, and nobody is admitted. *)
Example repair_leaves_no_winner :
  has_won prize <$> (ClaimDemo.pool ClaimDemo.between).2 = [false; false; false] /\
  (ClaimDemo.pool ClaimDemo.between).2 !! 0 = Some (ret (Concluded false)) /\
  (ClaimDemo.pool ClaimDemo.between).2 !! 1 = Some (ret (Concluded false)).
Proof. by vm_compute. Qed.

(** Runs that also create jobs: a move is a call of a thread or an operation of the server. *)
Inductive move :=
| Make (i : nat) (uuid : string) (now : Z) (y : reply)
| Do (o : op) (now : Z).

(** The creations, with the token that names their claim. *)
Definition creation (o : op) : bool :=
  match o with
  | CreateBegin _ => true
  | CreateCommit a => bool_decide (CreateArgs.idempotencyClaimToken a <> None)
  | _ => false
  end.
Definition move_ok (opens : Z) (m : move) : bool :=
  match m with
  | Make _ _ now _ => bool_decide (within opens now)
  | Do o now => bool_decide (within opens now) && creation o
  end.

Definition traced_move (key : string) (x : Traced * list (prog outcome)) (m : move)
  : Traced * list (prog outcome) :=
  let '(t, ps) := x in
  match m with
  | Make i uuid now y =>
      match ps !! i with
      | Some (Step c k) =>
          let '(r, s') := play uuid now y (store_of t) c in
          (Build_Traced s' (created t)
             (freed t ++ match call_op c with Some o => frees key o | None => [] end),
           <[i := k r]> ps)
      | _ => x
      end
  | Do o now =>
      (Build_Traced (run_op o now (store_of t)) (created t ++ creates key o now (store_of t))
         (freed t ++ frees key o), ps)
  end.

Lemma traced_steps opens key l x :
  forallb (move_ok opens) l = true ->
  pool_steps (fun R (c : call R) => traced_call opens key c) (traced_op opens key) x
    (foldl (traced_move key) x l).
Proof.
  revert x. induction l as [|m l IH]; intros [t ps] Hl; [constructor|].
  apply andb_true_iff in Hl as [Hm Hl]. etrans; [|by apply IH]. clear IH Hl.
  destruct m as [i uuid now y|o now]; cbn [traced_move move_ok] in *.
  - apply bool_decide_eq_true in Hm. destruct (ps !! i) as [[|R c k]|] eqn:E; try constructor.
    pose proof (play_exec uuid now y (store_of t) R c) as He.
    destruct (play uuid now y (store_of t) c) as [r s'].
    apply rtc_once. eapply step_call; [done|]. split_and!; [by exists now | done | done].
  - apply andb_true_iff in Hm as [Hn Ho]. apply bool_decide_eq_true in Hn.
    apply rtc_once, step_others. exists o, now. split_and!; try done.
    destruct o; try done. cbn in *. apply bool_decide_eq_true in Ho. intros _.
    by apply not_eq_None_Some.
Qed.

Module TraceDemo.
Definition key : string := generationClaimKey "u1" "req1" "s1".
Definition create (token : string) : CreateArgs.t :=
  CreateArgs.mk "s1" "u1" None None JobMetadataPatch.empty None (Some key) (Some token)
    (Some "req1") None None None false.
(** The claim that thread 0 takes. *)
Definition claim0 : TokenClaim.t := TokenClaim.mk "s1" "s1" V2 10 "t0" None None.
Definition release : prog outcome :=
  finish (releaseGeneration "u1" "req1" "s1" (Some (claim_value claim0))).
Definition pool (l : list move) : Traced * list (prog outcome) :=
  foldl (traced_move key) (Build_Traced (newStore None None None) [] [],
                           [ClaimDemo.click; ClaimDemo.click; release]) l.
Definition makes (i n : nat) (uuid : string) (now : Z) : list move :=
  replicate n (Make i uuid now Answered).
Definition creating (token : string) (now : Z) : list move :=
  [Do (CreateBegin (create token)) now; Do (CreateCommit (create token)) now].
(** The first request creates, a retry does not, and a second creation is refused. *)
Definition once : list move :=
  makes 0 4 "t0" 10 ++ creating "t0" 11 ++ makes 1 5 "t1" 12 ++ creating "t1" 13 ++ creating "t0" 14.
(** A release has read that nothing started when the creation commits. *)
Definition torn : list move :=
  makes 0 4 "t0" 10 ++ makes 2 1 "" 11 ++ creating "t0" 12 ++ makes 2 3 "" 13 ++
  makes 1 4 "t1" 14 ++ creating "t1" 15.
End TraceDemo.

Lemma one_generation_per_claim_witness :
  created (TraceDemo.pool TraceDemo.once).1 = ["t0"] /\
  (length (created (TraceDemo.pool TraceDemo.once).1) <= 1 \/
   exists t, t ∈ created (TraceDemo.pool TraceDemo.once).1 /\
             t ∈ freed (TraceDemo.pool TraceDemo.once).1).
Proof.
  split; [by vm_compute|].
  apply (one_generation_per_claim "u1" "req1" "s1" 10 (newStore None None None)
           [ClaimDemo.click; ClaimDemo.click; TraceDemo.release]
           (store_of (TraceDemo.pool TraceDemo.once).1) (TraceDemo.pool TraceDemo.once).2).
  - constructor.
  - intros e He. by vm_compute in He.
  - repeat apply Forall_cons_2; [do 2 constructor | do 2 constructor | apply requests_release | done].
  - assert (H : pool_steps (fun R (c : call R) => traced_call 10 TraceDemo.key c)
                  (traced_op 10 TraceDemo.key)
                  (Build_Traced (newStore None None None) [] [],
                   [ClaimDemo.click; ClaimDemo.click; TraceDemo.release])
                  (TraceDemo.pool TraceDemo.once)) by by apply traced_steps.
    by destruct (TraceDemo.pool TraceDemo.once) as [[s cr fr] ps].
Defined.

(** [releaseGeneration] reads that nothing started and deletes the claim in two calls: a creation
    that commits between them is forgotten, and the retry that follows creates again. *)
Example release_forgets_a_creation :
  created (TraceDemo.pool TraceDemo.torn).1 = ["t0"; "t1"] /\
  freed (TraceDemo.pool TraceDemo.torn).1 = ["t0"].
Proof. by vm_compute. Qed.
