(* ===== verification/ClaimRepair.v ===== *)
(** * The two keys of a request agree again

    A request that fails between its calls leaves its two keys different.  Any later start request
    or takeover that is answered from the stream's key repairs them: both then hold the claim that
    it answers with. *)

From S2P Require Import Prelude Programs JsMap Json StreamTypes StoreState StoreSteers StoreParked.
From S2P Require Import StoreJobs StoreCleanup StoreFrame StoreRun StoreEpochs StoreClaims Claims ClaimRaces.

(** ** Runs without interference *)

Section alone.
Variables (uuid : string) (now : Z).

Fixpoint run_alone {A} (p : prog A) (s : Store) : result string A * Store :=
  match p with
  | Done r => (r, s)
  | Step c k => let '(r, s') := answer uuid now s c in run_alone (k r) s'
  end.

Lemma run_bind {A B} (p : prog A) (f : A -> prog B) s :
  run_alone (pbind p f) s =
  match run_alone p s with
  | (Ok a, s') => run_alone (f a) s'
  | (Throw e, s') => (Throw e, s')
  end.
Proof.
  revert s. induction p as [[a|e]|R c k IH]; intros s; cbn; [done | done|].
  destruct (answer uuid now s c) as [r s']. apply IH.
Qed.

Lemma run_attempt {A} (p : prog A) s :
  run_alone (attempt p) s = (Ok (run_alone p s).1, (run_alone p s).2).
Proof.
  revert s. induction p as [r|R c k IH]; intros s; cbn; [done|].
  destruct (answer uuid now s c) as [r s']. apply IH.
Qed.

Lemma run_bind_ok {A B} (p : prog A) (f : A -> prog B) s b s' :
  run_alone (pbind p f) s = (Ok b, s') ->
  exists a s1, run_alone p s = (Ok a, s1) /\ run_alone (f a) s1 = (Ok b, s').
Proof.
  rewrite run_bind. destruct (run_alone p s) as [[a|e] s1]; [|done]. intros H. by exists a, s1.
Qed.

(** ** What the keys hold *)

(** The key holds claim [c], as the manager reads it. *)
Definition holds (key : string) (s : Store) (c : TokenClaim.t) : Prop :=
  exists w, live_claim s key now = Some w /\
    (ClaimEntry.value w = claim_value c \/
     exists context, normalizeTokenClaim (Some (ClaimEntry.value w)) context = Ok c).

Lemma live_set key k v ttl s :
  (0 < ttl)%Z ->
  live_claim (set_claim k v (now + ttl * 1000) s) key now =
  if decide (k = key) then Some (ClaimEntry.mk v (now + ttl * 1000)) else live_claim s key now.
Proof using.
  intros Ht. unfold live_claim. rewrite set_claim_get. case_decide; [|done]. cbn.
  by rewrite decide_False by lia.
Qed.

Lemma normalize_token v context c :
  normalizeTokenClaim (Some v) context = Ok c ->
  IdempotencyClaimValue.claimToken v = Some (TokenClaim.claimToken c) /\
  IdempotencyClaimValue.startedAt v = TokenClaim.startedAt c.
Proof using.
  unfold normalizeTokenClaim, assertClaimCoordinates. destruct (coordinates_ok v); [|done].
  destruct (IdempotencyClaimValue.claimToken v), (IdempotencyClaimValue.claimedAt v); try done.
  destruct (_ && _); [|done]. by intros [= <-].
Qed.

Lemma run_claim key v ttl s r s1 :
  run_alone (store (ClaimIdempotencyKey key (claim_value v) ttl)) s = (Ok r, s1) -> (0 < ttl)%Z ->
  (r.1 = true /\ s1 = set_claim key (claim_value v) (now + ttl * 1000) s /\ holds key s1 v) \/
  (r.1 = false /\ s1 = s /\ exists w, live_claim s key now = Some w /\ r.2 = ClaimEntry.value w).
Proof using.
  cbn. unfold claimIdempotencyKey.
  destruct (live_claim s key now) as [w|] eqn:E; cbn;
    intros [= <- <-] Ht; [right | left].
  - split_and!; try done. by exists w.
  - split_and!; try done. eexists. rewrite live_set by done. rewrite decide_True by done.
    split; [done | by left].
Qed.

Lemma run_lift {A} (r : result string A) s a s1 :
  run_alone (lift r) s = (Ok a, s1) -> r = Ok a /\ s1 = s.
Proof using. cbn. by intros [= -> ->]. Qed.

(** A probe followed by its reading: the key holds what was read; when it was free it got [v]. *)
Lemma run_probe {A} key v ttl context (f : TokenClaim.t -> prog A) s a s2 :
  (0 < ttl)%Z ->
  run_alone (pbind (store (ClaimIdempotencyKey key (claim_value v) ttl))
               (fun probe => pbind (lift (probed probe v context)) f)) s = (Ok a, s2) ->
  exists c s1, holds key s1 c /\ run_alone (f c) s1 = (Ok a, s2) /\
    (s1 = s \/ (live_claim s key now = None /\ c = v /\
                s1 = set_claim key (claim_value v) (now + ttl * 1000) s)).
Proof using.
  intros Ht H. apply run_bind_ok in H as (r & s1 & Hr & H).
  apply run_bind_ok in H as (c & s1' & [Hp ->]%run_lift & H).
  destruct (run_claim _ _ _ _ _ _ Hr Ht) as [(Hb & Hs & Hh)|(Hb & -> & w & Hw & Hv)];
    unfold probed in Hp; rewrite Hb in Hp.
  - injection Hp as <-. exists v, s1. split_and!; [done | done|]. right. split_and!; try done.
    clear - Hr Hb. cbn in Hr. unfold claimIdempotencyKey in Hr.
    destruct (live_claim s key now); [|done]. by injection Hr as <- <-.
  - exists c, s. split_and!; [|done | by left]. exists w. split; [done|]. right. exists context.
    by rewrite <- Hv.
Qed.

Lemma mirror_eq a b : claimsMirrorExactly a b = true <-> a = b.
Proof using.
  unfold claimsMirrorExactly. destruct a, b. cbn. rewrite !andb_true_iff, !bool_decide_eq_true.
  split; [intros [[[[[[? ?] ?] ?] ?] ?] ?]; f_equal; congruence | intros [=]; split_and!; congruence].
Qed.

Lemma holds_other key k c ttl s c' :
  (0 < ttl)%Z -> k <> key -> holds key s c' ->
  holds key (set_claim k c (now + ttl * 1000) s) c'.
Proof using.
  intros Ht Hk (w & Hw & Hv). exists w. split; [|done]. rewrite live_set by done.
  by rewrite decide_False.
Qed.

(** ** The repair *)

Variables userId clientRequestId streamId : string.
Abbreviation legacyKey := (legacyGenerationClaimKey userId clientRequestId).
Abbreviation primaryKey := (generationClaimKey userId clientRequestId streamId).
Hypothesis request_ok : valid_request_id clientRequestId = true.

Lemma primary_legacy : legacyKey <> primaryKey.
Proof using request_ok. intros H. by apply (keys_differ userId clientRequestId streamId). Qed.

Lemma run_synchronize e p s s1 :
  run_alone (synchronizeLegacyGenerationClaim userId clientRequestId e p) s = (Ok tt, s1) ->
  holds legacyKey s1 p /\ forall c, holds primaryKey s c -> holds primaryKey s1 c.
Proof using request_ok.
  unfold synchronizeLegacyGenerationClaim. intros H.
  apply run_bind_ok in H as (t & s0 & Ht & H). rewrite run_attempt in Ht. injection Ht as <- <-.
  cbn [run_alone store answer] in H. unfold takeoverIdempotencyKey in H.
  assert (Hset : forall s, holds legacyKey (set_claim legacyKey (claim_value p)
    (now + LEGACY_IDEMPOTENCY_TTL_SECONDS * 1000) s) p /\
    forall c, holds primaryKey s c -> holds primaryKey (set_claim legacyKey (claim_value p)
    (now + LEGACY_IDEMPOTENCY_TTL_SECONDS * 1000) s) c).
  { intros s'. split; [|intros c; apply holds_other; [done | apply primary_legacy]].
    eexists. rewrite live_set, decide_True by done. split; [done | by left]. }
  assert (Hprobe : forall (t : result string bool), t <> Ok true ->
    run_alone (await probe <- claim_legacy userId clientRequestId p;
               await current <- lift (probed probe p "legacy");
               if claimsMirrorExactly current p then ret tt
               else match t with
                    | Throw e => fail e
                    | Ok _ => await _ <- lift (assertClaimMirrors current p);
                              fail "Legacy generation idempotency claim could not be synchronized"
                    end) s = (Ok tt, s1) ->
    holds legacyKey s1 p /\ forall c, holds primaryKey s c -> holds primaryKey s1 c).
  { intros t Hn Hr. apply run_probe in Hr as (c & s2 & Hh & Hr & Hs); [|done].
    destruct (claimsMirrorExactly c p) eqn:Em.
    - apply mirror_eq in Em as ->. injection Hr as <-. split; [done|].
      destruct Hs as [->|(_ & _ & ->)]; [done | apply Hset].
    - exfalso. destruct t; [|done]. rewrite run_bind in Hr. cbn in Hr.
      by destruct (assertClaimMirrors c p). }
  destruct (live_claim s legacyKey now) as [w|]; [|by apply (Hprobe (Ok false))].
  destruct (bool_decide _); [|by apply (Hprobe (Ok false))]. cbn in H. injection H as <-. apply Hset.
Qed.

(** Both keys hold [c]. *)
Definition mirrored (s : Store) (c : TokenClaim.t) : Prop :=
  holds legacyKey s c /\ holds primaryKey s c.

Lemma synchronized_mirrored e p s s1 :
  run_alone (synchronizeLegacyGenerationClaim userId clientRequestId e p) s = (Ok tt, s1) ->
  holds primaryKey s p -> mirrored s1 p.
Proof using request_ok. intros H Hp. apply run_synchronize in H as [H1 H2]. split; auto. Qed.

(** Two claims that mirror each other without a repair are equal. *)
Lemma mirrors_equal legacy primary :
  assertClaimMirrors legacy primary = Ok tt ->
  ~ (TokenClaim.startedAt primary <> None /\ TokenClaim.startedAt legacy = None) -> legacy = primary.
Proof using.
  unfold assertClaimMirrors. destruct legacy as [a1 a2 a3 a4 a5 a6 a7], primary as [b1 b2 b3 b4 b5 b6 b7].
  cbn. destruct (_ && _) eqn:H; [|done]. intros _ Hn.
  apply andb_true_iff in H as [H H7]. apply andb_true_iff in H as [H H6]. bool_facts.
  assert (a7 = b7) as ->.
  { apply orb_true_iff in H7 as [H7|H7]; bool_facts; [|done]. subst a7.
    destruct b7; [|done]. exfalso. by apply Hn. }
  assert (a3 = b3) as ->; [|congruence].
  apply orb_true_iff in H6 as [H6|H6]; bool_facts; naive_solver.
Qed.

(** The common tail of both methods: the two keys were read as [legacy] and [primary]. *)
Lemma run_repair legacy primary s s1 :
  holds legacyKey s legacy -> holds primaryKey s primary ->
  assertClaimMirrors legacy primary = Ok tt ->
  run_alone (if bool_decide (TokenClaim.startedAt primary <> None /\ TokenClaim.startedAt legacy = None)
             then synchronizeLegacyGenerationClaim userId clientRequestId legacy primary
             else ret tt) s = (Ok tt, s1) ->
  mirrored s1 primary.
Proof using request_ok.
  intros Hl Hp Ha. case_bool_decide as Hc.
  - intros H. by eapply synchronized_mirrored.
  - intros [= <-]. apply mirrors_equal in Ha as ->; [|done]. by split.
Qed.

Lemma run_split legacy primary s s1 r :
  holds primaryKey s primary ->
  run_alone (await _ <- synchronizeLegacyGenerationClaim userId clientRequestId legacy primary;
             ret (duplicate primary)) s = (Ok r, s1) ->
  ClaimResult.existing r = Some (claim_value primary) /\ mirrored s1 primary.
Proof using request_ok.
  intros Hp H. apply run_bind_ok in H as ([] & s2 & Hs & H). injection H as <- <-.
  split; [done|]. by eapply synchronized_mirrored.
Qed.

Lemma run_start conv p s r s1 :
  run_alone (claimGeneration userId clientRequestId streamId conv p) s = (Ok r, s1) ->
  ClaimResult.source r = Primary ->
  exists c, ClaimResult.existing r = Some (claim_value c) /\ mirrored s1 c.
Proof using request_ok.
  unfold claimGeneration. intros H Hsrc.
  apply run_bind_ok in H as (now' & s0 & [= <- <-] & H).
  apply run_bind_ok in H as (token & s0 & [= <- <-] & H). cbv zeta in H.
  set (value := TokenClaim.mk _ _ _ _ _ _ _) in H. clearbody value.
  assert (Hne : legacyKey <> primaryKey) by apply primary_legacy.
  apply run_bind_ok in H as (l & s2 & Hl & H).
  apply run_claim in Hl as [(Hb & -> & Hh)|(Hb & -> & w & Hw & Hv)]; [| |done]; rewrite Hb in H.
  - apply run_bind_ok in H as (q & s3 & Hq & H).
    apply run_claim in Hq as [(Hb' & -> & Hh')|(Hb' & -> & w & Hw & Hv)]; [| |done];
      rewrite Hb' in H.
    + injection H as <- <-. exists value. split; [done|]. split; [by apply holds_other | done].
    + apply run_bind_ok in H as (primary & s4 & [Hn ->]%run_lift & H).
      apply run_bind_ok in H as ([] & s4 & [_ ->]%run_lift & H).
      apply run_split in H; [by exists primary|]. exists w. split; [done|]. right.
      exists "primary". by rewrite <- Hv.
  - destruct (IdempotencyClaimValue.claimToken l.2).
    2: { apply run_bind_ok in H as (old & s3 & _ & H). by injection H as <- <-. }
    apply run_bind_ok in H as (legacy & s3 & [Hn ->]%run_lift & H).
    assert (Hlh : holds legacyKey s legacy).
    { exists w. split; [done|]. right. exists "legacy". by rewrite <- Hv. }
    apply run_bind_ok in H as ([] & s4 & [_ ->]%run_lift & H).
    apply run_bind_ok in H as (q & s3 & Hq & H).
    apply run_claim in Hq as [(Hb' & -> & Hh')|(Hb' & -> & w' & Hw' & Hv')]; [| |done];
      rewrite Hb' in H.
    + injection H as <- <-. exists legacy. split; [done|]. split; [|done].
      by apply holds_other.
    + apply run_bind_ok in H as (primary & s4 & [Hn' ->]%run_lift & H).
      assert (Hph : holds primaryKey s primary).
      { exists w'. split; [done|]. right. exists "primary". by rewrite <- Hv'. }
      apply run_bind_ok in H as ([] & s4 & [_ ->]%run_lift & H). exists primary.
      destruct (isRecoverableTakeoverSplit legacy primary); [by apply run_split in H|].
      apply run_bind_ok in H as ([] & s4 & [Hm ->]%run_lift & H).
      apply run_bind_ok in H as ([] & s4 & Hr & H). injection H as <- <-. split; [done|].
      by eapply run_repair.
Qed.

Lemma run_mirror_takeover expected value s r s1 :
  run_alone (mirror_takeover userId clientRequestId streamId expected value) s = (Ok r, s1) ->
  holds primaryKey s value ->
  (r = won value /\ mirrored s1 value) \/ ClaimResult.existing r = None.
Proof using request_ok.
  unfold mirror_takeover. intros H Hp. rewrite run_bind, run_attempt in H.
  cbn [run_alone store answer] in H. unfold takeoverIdempotencyKey in H.
  assert (Hrel : forall s, run_alone (await released <- attempt (store (ReleaseIdempotencyKey primaryKey
      (Some (claim_value value)))); match released with
      | Ok _ => ret (ClaimResult.mk false None Primary)
      | Throw e => await _ <- attempt (store (ReleaseIdempotencyKey primaryKey
                     (Some (claim_value value)))); fail e end) s = (Ok r, s1) ->
    ClaimResult.existing r = None).
  { intros s' Hr. rewrite run_bind, run_attempt in Hr. cbn in Hr. by injection Hr as <- _. }
  destruct (live_claim s legacyKey now) as [w|]; [|right; by eapply Hrel].
  destruct (bool_decide _); [|right; by eapply Hrel]. cbn in H. injection H as <- <-. left.
  split; [done|]. split; [|apply holds_other; [done | apply primary_legacy | done]].
  eexists. rewrite live_set, decide_True by done. split; [done | by left].
Qed.

Lemma run_takeover expected s r s1 v :
  run_alone (takeoverGeneration userId clientRequestId streamId expected) s = (Ok r, s1) ->
  ClaimResult.source r = Primary -> ClaimResult.existing r = Some v ->
  exists c, v = claim_value c /\ mirrored s1 c.
Proof using request_ok.
  unfold takeoverGeneration. intros H Hsrc Hex.
  assert (Hne : legacyKey <> primaryKey) by apply primary_legacy.
  destruct (IdempotencyClaimValue.claimToken expected).
  2: { apply run_bind_ok in H as (old & s2 & _ & H). by injection H as <- <-. }
  apply run_bind_ok in H as (ec & s2 & [_ ->]%run_lift & H). cbv zeta in H.
  apply run_bind_ok in H as ([] & s2 & [_ ->]%run_lift & H).
  apply run_probe in H as (primary & s2 & Hp & H & _); [|done].
  apply run_probe in H as (legacy & s3 & Hl & H & Hs3); [|done].
  assert (Hp3 : holds primaryKey s3 primary).
  { destruct Hs3 as [->|(_ & _ & ->)]; [done|]. by apply holds_other. }
  clear Hs3 Hp. apply run_bind_ok in H as ([] & s4 & [_ ->]%run_lift & H).
  apply run_bind_ok in H as ([] & s4 & [_ ->]%run_lift & H).
  destruct (isRecoverableTakeoverSplit legacy primary).
  { apply run_split in H as [Hx Hm]; [|done]. rewrite Hex in Hx. injection Hx as ->. by exists primary. }
  apply run_bind_ok in H as ([] & s4 & [Hm ->]%run_lift & H).
  case_bool_decide as Hst.
  - apply run_bind_ok in H as ([] & s4 & Hr & H). injection H as <- <-. injection Hex as <-.
    exists primary. split; [done|]. apply (run_repair legacy primary s3); try done.
    case_bool_decide as Hls; [|by rewrite bool_decide_false by tauto].
    by rewrite bool_decide_true.
  - apply run_bind_ok in H as (now' & s4 & [= <- <-] & H).
    apply run_bind_ok in H as (token & s4 & [= <- <-] & H). cbv zeta in H.
    set (value := TokenClaim.mk _ _ _ _ _ _ _) in H. clearbody value.
    apply run_bind_ok in H as (taken & s4 & Ht & H). rewrite run_attempt in Ht.
    cbn [run_alone store answer] in Ht. unfold takeoverIdempotencyKey in Ht.
    destruct (live_claim s3 primaryKey now) as [w|].
    2: { injection Ht as <- <-. by injection H as <- <-. }
    destruct (bool_decide _); [|injection Ht as <- <-; by injection H as <- <-].
    injection Ht as <- <-. apply run_mirror_takeover in H as [[-> Hm']|Hn].
    + injection Hex as <-. by exists value.
    + congruence.
    + eexists. rewrite live_set, decide_True by done. split; [done | by left].
Qed.
End alone.

(** ** Theorem *)

(** C5. Claims are repaired. A start request or takeover that runs alone, with no other request
    between its calls and no call of the store failing, and that is answered from the stream's key,
    leaves both keys of the request holding the claim that it answers with, whatever half-finished
    requests left in them before: the next one, on an old replica or a new one, sees the same owner.
    *)
Theorem answered_claims_are_mirrored uuid now userId clientRequestId streamId s :
  valid_request_id clientRequestId = true ->
  (forall conv p r s',
     run_alone uuid now (claimGeneration userId clientRequestId streamId conv p) s = (Ok r, s') ->
     ClaimResult.source r = Primary ->
     exists c, ClaimResult.existing r = Some (claim_value c) /\
               mirrored now userId clientRequestId streamId s' c) /\
  (forall expected r s' v,
     run_alone uuid now (takeoverGeneration userId clientRequestId streamId expected) s = (Ok r, s') ->
     ClaimResult.source r = Primary -> ClaimResult.existing r = Some v ->
     exists c, v = claim_value c /\ mirrored now userId clientRequestId streamId s' c).
Proof.
  intros Hv. split.
  - intros conv p r s' H. by eapply run_start.
  - intros ex r s' v H. by eapply run_takeover.
Qed.

(** A start request that finds a takeover which reached the stream's key only. *)
Lemma answered_claims_are_mirrored_witness :
  let old := TokenClaim.mk "s1" "s1" V2 10 "t0" None None in
  let new := TokenClaim.mk "s1" "s1" V2 20 "t1" (Some "t0") None in
  let s := set_claim (generationClaimKey "u1" "req1" "s1") (claim_value new) 1000000000
             (set_claim (legacyGenerationClaimKey "u1" "req1") (claim_value old) 1000000000
                (newStore None None None)) in
  exists c, mirrored 30 "u1" "req1" "s1"
              (run_alone "t2" 30 (claimGeneration "u1" "req1" "s1" "s1" (Some V2)) s).2 c /\
            TokenClaim.claimToken c = "t1".
Proof.
  intros old new s.
  destruct (run_alone "t2" 30 (claimGeneration "u1" "req1" "s1" "s1" (Some V2)) s) as [[r|e] s'] eqn:E;
    [|by vm_compute in E].
  destruct (answered_claims_are_mirrored "t2" 30 "u1" "req1" "s1" s eq_refl) as [H _].
  destruct (H "s1" (Some V2) r s' E) as (c & Hc & Hm); [by vm_compute in E; injection E as <- _|].
  exists c. split; [done|]. vm_compute in E. injection E as <- _. vm_compute in Hc. by injection Hc.
Defined.
