(* ===== verification/Steering.v ===== *)
(** * The steering lifecycle ([stream/SteeringLifecycle.ts])

    The methods that routes and hooks call.  Most forward to one store operation; [park] and
    [claimDetailed] write and read the recovery payload, and [synthesizeAppliedSteerEvents] tells
    a reconnecting subscriber what it missed.  Each is written against the in-memory store, whose
    methods neither wait nor throw here. *)

From S2P Require Import Prelude JsMap Json StreamTypes SteerRecovery StoreState StoreSteers StoreParked StoreJobs.
From S2P Require Import StoreCleanup StoreFrame StoreRun StoreEpochs StoreParking StoreReaping StoreRecovery.

(** ** Forwarding methods *)

(** [SteerOwner] *)
Module SteerOwner.
Record t := mk { userId : string; tenantId : option string }.
End SteerOwner.

(** [ParkedSteerRecovery] *)
Module ParkedSteerRecovery.
Record t := mk { generationProtocolVersion : GenerationProtocolVersion; steers : list json }.
End ParkedSteerRecovery.

Definition enqueue (k : string) (item : SteerQueueItem.t) (e : option Z) := enqueueSteer k item e.
Definition enqueueVersioned (k : string) (item : SteerQueueItem.t) (wantsPreempt : bool)
    (e : option Z) := enqueueSteerVersioned k item wantsPreempt e.
Definition enqueueWithReceipt (k : string) (item : SteerQueueItem.t) (receipt : SteerReceiptInput.t)
    (wantsPreempt : bool) (e : option Z) (now : Z) :=
  enqueueSteerWithReceipt k item receipt wantsPreempt e now.
Definition getReceipt (k clientSteerId : string) (now : Z) := getSteerReceipt k clientSteerId now.
Definition peekQueue (k : string) (e : option Z) (s : Store) := peekSteers s k e.
Definition arm (k steerId : string) (e : option Z) := armSteer k steerId e.
Definition armVersioned (k steerId : string) (e : option Z) := armSteerVersioned k steerId e.
Definition downgradePreempts (k : string) (e : option Z) := downgradeSteerPreempts k e.
Definition clearQueue (k : string) := clearSteers k.
Definition drain (k : string) (e : option Z) (now : Z) := drainSteers k e now.
Definition restoreClaimed (k : string) (items : list SteerQueueItem.t) (e : option Z) :=
  restoreClaimedSteers k items e.
Definition closeAndDrain (k : string) (e : option Z) (now : Z) := closeAndDrainSteers k e now.
Definition cancel (k steerId : string) (e : option Z) := removeSteer k steerId e.
Definition discardLeftover (k clientSteerId steerId : string) (owner : SteerOwner.t)
    (e : option Z) (now : Z) :=
  discardSteerLeftover k clientSteerId steerId (SteerOwner.userId owner) (SteerOwner.tenantId owner)
    e now.
Definition consumeRecovered (k steerId : string) (owner : SteerOwner.t) (e : Z) (now : Z) :=
  consumeParkedSteer k steerId (SteerOwner.userId owner) (SteerOwner.tenantId owner) e now.

(** ** Parking and claiming *)

(** [park(streamId, steers, owner, expectedCreatedAt)] *)
Definition park_payload (steers : list json) (owner : SteerOwner.t) : json :=
  JObj ([("userId", JStr (SteerOwner.userId owner))] ++
        opt_prop "tenantId" (JStr <$> SteerOwner.tenantId owner) ++ [("steers", JArr steers)]).

Definition park (k : string) (steers : list json) (owner : SteerOwner.t) (e : option Z) (now : Z)
    (s : Store) : Store :=
  match steers with
  | [] => s
  | _ :: _ => parkSteers k (JSON_stringify (park_payload steers owner)) e now s
  end.

(** The part of [claimDetailed] that reads the payload handed out by the store. *)
Definition read_claim (requester : SteerOwner.t) (protocol : GenerationProtocolVersion) (raw : jtext)
  : ParkedSteerRecovery.t :=
  let nothing := ParkedSteerRecovery.mk protocol [] in
  match JSON_parse raw with
  | None | Some JNull => nothing
  | Some v =>
      if negb (payload_owner v (SteerOwner.userId requester) (SteerOwner.tenantId requester))
      then nothing
      else if negb (bool_decide
                (normalizeGenerationProtocol (jfield v "generationProtocolVersion") = protocol))
      then nothing
      else ParkedSteerRecovery.mk protocol (default [] (as_array (jfield v "steers")))
  end.

(** [claimDetailed(streamId, requester, requestedProtocolVersion)] *)
Definition claimDetailed (k : string) (requester : SteerOwner.t)
    (requested : GenerationProtocolVersion) (now : Z) (s : Store) : ParkedSteerRecovery.t * Store :=
  let '(detailed, s') :=
    claimParkedSteersDetailed k (SteerOwner.userId requester) (SteerOwner.tenantId requester)
      requested now s in
  (match detailed with
   | None => ParkedSteerRecovery.mk V1 []
   | Some (protocol, raw) => read_claim requester protocol raw
   end, s').

(** [claim(streamId, requester)] *)
Definition claim (k : string) (requester : SteerOwner.t) (now : Z) (s : Store) : list json * Store :=
  let '(r, s') := claimDetailed k requester V2 now s in (ParkedSteerRecovery.steers r, s').

(** ** Events missed by a reconnecting subscriber *)

(** One entry of a [SteerContentView]. *)
Module ContentPart.
Record t := mk { type_ : option string; steerId : option string; clientSteerId : option string }.
End ContentPart.

(** The data of an [on_steer_applied] event. *)
Module SteerApplied.
Record t := mk {
  steerId : string;
  clientSteerId : option string;
  index : nat;
  part : ContentPart.t;
  conversationId : string;
  responseMessageId : option string
}.
End SteerApplied.

(** The id of a steer part, when the entry is one. *)
Definition steer_part_id (p : option ContentPart.t) : option string :=
  match p with
  | Some p => if decide (ContentPart.type_ p = Some "steer") then ContentPart.steerId p else None
  | None => None
  end.

(** [x && { key: x }] on a string: kept unless empty. *)
Definition truthy (x : option string) : option string :=
  match x with Some c => if decide (c = "") then None else Some c | None => None end.

Definition applied_event (conversationId : string) (responseMessageId : option string) (i : nat)
    (p : ContentPart.t) (id : string) : SteerApplied.t :=
  SteerApplied.mk id (truthy (ContentPart.clientSteerId p)) i p conversationId
    (truthy responseMessageId).

Fixpoint missed_from (known : list string) (conversationId : string)
    (responseMessageId : option string) (i : nat) (fresh : list (option ContentPart.t))
  : list SteerApplied.t :=
  match fresh with
  | [] => []
  | part :: rest =>
      match part, steer_part_id part with
      | Some p, Some id =>
          if decide (id ∈ known) then []
          else [applied_event conversationId responseMessageId i p id]
      | _, _ => []
      end ++ missed_from known conversationId responseMessageId (S i) rest
  end.

(** [synthesizeAppliedSteerEvents(snapshotContent, liveQueue, freshContent, meta)] *)
Definition synthesizeAppliedSteerEvents (snapshotContent : list (option ContentPart.t))
    (liveQueue : list SteerQueueItem.t) (freshContent : list (option ContentPart.t))
    (conversationId : string) (responseMessageId : option string) : list SteerApplied.t :=
  missed_from (omap steer_part_id snapshotContent ++ (SteerQueueItem.steerId <$> liveQueue))
    conversationId responseMessageId 0 freshContent.

(** ** Lemmas *)

Lemma normalize_protocol p : normalizeGenerationProtocol (Some (protocol_json p)) = p.
Proof. by destruct p. Qed.

(** What the store hands out is a payload of the owner, marked with the protocol it announces. *)
Lemma claim_payload_shape k u t requested now s protocol raw s' :
  claimParkedSteersDetailed k u t requested now s = (Some (protocol, raw), s') ->
  exists v l, raw = Text v /\ v <> JNull /\ payload_owner v u t = true /\
    normalizeGenerationProtocol (jfield v "generationProtocolVersion") = protocol /\
    jfield v "steers" = Some (JArr l).
Proof.
  unfold claimParkedSteersDetailed. destruct (live_parked s k now) as [p|]; [|done].
  destruct (JSON_parse _) as [v|]; [|done]. destruct (valid_steers v) as [l|]; [|done].
  destruct (valid_recovery v && payload_owner v u t) eqn:Hv; [|done].
  apply andb_true_iff in Hv as [Hv Ho].
  assert (Hobj : exists o, v = JObj o) by (unfold valid_recovery in Hv; destruct v; naive_solver).
  destruct Hobj as [o ->]. set (recovery := active_recovery s k u t). cbn zeta.
  destruct (bool_decide (_ /\ leased_steers _ _ = [])).
  - intros [= <- <- <-]. eexists _, _. split; [done|]. split; [done|]. simpl. split_and!.
    + revert Ho. unfold payload_owner. simpl. by rewrite !mget_mset_ne.
    + by rewrite mget_mset_ne, mget_mset_eq.
    + by rewrite mget_mset_eq.
  - destruct (bool_decide _); [done|]. intros [= <- <- <-]. eexists _, _. split; [done|].
    split; [done|]. revert Ho. unfold payload_owner, rebuilt_payload. simpl.
    destruct (mget o "userId") as [x|]; [|done]. simpl.
    destruct (mget o "tenantId") as [[]|]; simpl; intros Ho; (split_and!; [exact Ho | apply normalize_protocol | done]).
Qed.

(** Reading through the lifecycle loses nothing of what the store hands out. *)
Lemma read_claim_complete requester protocol v l :
  v <> JNull -> payload_owner v (SteerOwner.userId requester) (SteerOwner.tenantId requester) = true ->
  normalizeGenerationProtocol (jfield v "generationProtocolVersion") = protocol ->
  jfield v "steers" = Some (JArr l) ->
  read_claim requester protocol (Text v) = ParkedSteerRecovery.mk protocol l.
Proof.
  intros Hv Ho Hp Hs. unfold read_claim. simpl. rewrite Ho, Hp, Hs, bool_decide_true by done.
  by destruct v.
Qed.

(** The lifecycle passes on all the store hands out.  A claim of parked steers, which may take
    them out of the store for good, returns to its caller every steer of the payload that the
    store hands out and no other: neither the second owner check nor the protocol check ever
    drops a payload that has just been taken. *)
Theorem claim_passes_everything_on k requester requested now s :
  let '(r, s') := claimDetailed k requester requested now s in
  let store := claimParkedSteersDetailed k (SteerOwner.userId requester)
                 (SteerOwner.tenantId requester) requested now s in
  s' = store.2 /\ forall id, claimed_id store.1 id <-> has_steer (ParkedSteerRecovery.steers r) id.
Proof.
  unfold claimDetailed.
  destruct (claimParkedSteersDetailed _ _ _ _ _ _) as [[[protocol raw]|] s'] eqn:E; cbn zeta;
    (split; [done|]); intros id; simpl.
  - apply claim_payload_shape in E as (v & l & -> & Hv & Ho & Hp & Hl).
    rewrite (read_claim_complete _ _ _ _ Hv Ho Hp Hl). simpl. split.
    + intros (q & v' & l' & [= <- <-] & Hl' & H). congruence.
    + intros H. by exists protocol, v, l.
  - split; [by intros (? & ? & ? & ? & _) | by intros (x & ?%elem_of_nil & _)].
Qed.

Lemma missed_from_spec known conv resp i fresh ev :
  ev ∈ missed_from known conv resp i fresh <->
  exists n p id, fresh !! n = Some (Some p) /\ steer_part_id (Some p) = Some id /\ id ∉ known /\
    ev = applied_event conv resp (i + n) p id.
Proof.
  revert i. induction fresh as [|part fresh IH]; intros i; cbn [missed_from].
  - split; [by intros ?%elem_of_nil | by intros (n & p & id & Hn & _)].
  - rewrite elem_of_app, IH. split.
    + intros [Hev|(n & p & id & Hn & Hid & Hk & ->)].
      * destruct part as [p|]; [|by apply elem_of_nil in Hev].
        destruct (steer_part_id (Some p)) as [id|] eqn:Hid; [|by apply elem_of_nil in Hev].
        case_decide as Hk; [by apply elem_of_nil in Hev|].
        apply list_elem_of_singleton in Hev as ->. exists 0, p, id. by rewrite Nat.add_0_r.
      * exists (S n), p, id. split_and!; [done | done | done | f_equal; lia].
    + intros ([|n] & p & id & Hn & Hid & Hk & ->); simpl in Hn.
      * injection Hn as ->. left. rewrite Hid, decide_False by done. apply list_elem_of_singleton.
        by rewrite Nat.add_0_r.
      * right. exists n, p, id. split_and!; [done | done | done | f_equal; lia].
Qed.

Lemma missed_from_sorted known conv resp i fresh :
  StronglySorted lt (SteerApplied.index <$> missed_from known conv resp i fresh) /\
    Forall (fun ev => i <= SteerApplied.index ev) (missed_from known conv resp i fresh).
Proof.
  revert i. induction fresh as [|part fresh IH]; intros i; cbn [missed_from]; [repeat constructor|].
  destruct (IH (S i)) as [H1 H2].
  assert (H3 : Forall (fun ev => i <= SteerApplied.index ev) (missed_from known conv resp (S i) fresh))
    by (eapply Forall_impl; [exact H2|]; simpl; intros; lia).
  destruct part as [p|]; [|done]. destruct (steer_part_id (Some p)); [|done].
  case_decide; [done|]. simpl. split; [|by constructor].
  constructor; [done|]. apply Forall_fmap. eapply Forall_impl; [exact H2|]. simpl. intros; lia.
Qed.

(** C39. A reconnecting subscriber is told exactly what it missed.  The synthesized events are,
    in the order of the content and once per part, those steer parts of the fresh content whose
    steer is neither applied in the snapshot the subscriber holds nor still queued. *)
Theorem missed_events_are_exact snapshot queue fresh conv resp :
  let events := synthesizeAppliedSteerEvents snapshot queue fresh conv resp in
  StronglySorted lt (SteerApplied.index <$> events) /\
    forall ev, ev ∈ events <->
    exists i p id, fresh !! i = Some (Some p) /\ steer_part_id (Some p) = Some id /\
    id ∉ omap steer_part_id snapshot /\ id ∉ (SteerQueueItem.steerId <$> queue) /\
    ev = applied_event conv resp i p id.
Proof.
  cbn zeta. split; [apply missed_from_sorted|]. intros ev. unfold synthesizeAppliedSteerEvents.
  rewrite missed_from_spec. split; intros (i & p & id & H); exists i, p, id;
    rewrite not_elem_of_app in *; naive_solver.
Qed.

(** A payload parked by a job that is gone is of protocol 1, so that a claim takes it away: losing
    the response of [claim] loses the steers. *)
Example claim_of_orphaned_steers_is_destructive :
  let owner := SteerOwner.mk "u1" None in
  let steer := toPendingSteer (Demo.item "st1" None "u1") in
  let s := park "s1" [steer] owner None 10 (newStore None None None) in
  let '(first, s') := claim "s1" owner 20 s in
  let '(second, _) := claim "s1" owner 21 s' in
  first = [steer] /\ second = [].
Proof. by vm_compute. Qed.
