(* ===== verification/Preempts.v ===== *)
(** * Interrupt requests ([stream/GenerationJobManager.ts], [agents/steering/runtime.ts])

    A steer may ask to interrupt the model.  The replica that runs a generation keeps the ids of
    the steers that ask (the _armed_ ids), and the run polls whether there are any; a boundary of
    the run drains the queue of the store, injects the steers and disarms their ids.  Arming and
    disarming travel over a channel that loses, delays and repeats messages, so that the manager
    remembers which ids were disarmed, and checks the queue before it arms on a message.

    A synchronous section of the manager is one constructor of [sync]; the methods are programs
    ([Programs]) of such sections, store operations and messages.  [here] is the replica they run
    on. *)

From S2P Require Import Prelude Programs JsMap Json StreamTypes StoreSteers.

Definition PREEMPT_TOMBSTONE_MAX : nat := STEER_QUEUE_MAX_DEPTH * 2.

(** ** Data *)

Inductive PreemptOp := Arm | Clear.

Module PreemptMessage.
Record t := mk {
  op : PreemptOp;
  createdAt : Z;
  steerIds : list string;
  revisions : option (jsmap Z)
}.
End PreemptMessage.

(** [RuntimeJobState['preempt']]: two insertion-ordered sets and a map. *)
Module PreemptState.
Record t := mk {
  createdAt : Z;
  ids : list string;
  cleared : list string;
  minArmRevision : jsmap Z
}.
End PreemptState.

(** [RuntimeJobState], as far as interrupts go; [identity] tells objects apart. *)
Module Runtime.
Record t := mk {
  identity : nat;
  createdAt : Z;
  aborted : bool;
  replacementTransportHold : bool;
  preempt : option PreemptState.t
}.
End Runtime.

Definition with_preempt (p : option PreemptState.t) (r : Runtime.t) : Runtime.t :=
  {| r with Runtime.preempt := p |}.

(** The fields of the manager that the methods below use. *)
Module Manager.
Record t := mk {
  runtimeState : jsmap Runtime.t;
  ownedJobs : jsmap Z
}.
End Manager.

Definition runtime_of (m : Manager.t) (streamId : string) : option Runtime.t :=
  mget (Manager.runtimeState m) streamId.
Definition set_runtime (streamId : string) (r : Runtime.t) (m : Manager.t) : Manager.t :=
  {| m with Manager.runtimeState := mset (Manager.runtimeState m) streamId r |}.

(** [this.runtimeState.get(streamId) === runtime] *)
Definition is_current (m : Manager.t) (streamId : string) (identity : nat) : bool :=
  bool_decide (Runtime.identity <$> runtime_of m streamId = Some identity).

(** ** Arming and disarming *)

(** [ensurePreemptState(runtime, createdAt)]: the state it leaves in the runtime. *)
Definition ensurePreemptState (r : Runtime.t) (createdAt : Z) : PreemptState.t :=
  default (PreemptState.mk createdAt [] [] []) (Runtime.preempt r).

(** [revisions?.[id] ?? 0] *)
Definition revision_in (revisions : option (jsmap Z)) (id : string) : Z :=
  default 0%Z (revisions ≫= fun m => mget m id).

(** [state.minArmRevision.get(id) ?? 0] *)
Definition floor_of (st : PreemptState.t) (id : string) : Z :=
  default 0%Z (mget (PreemptState.minArmRevision st) id).

Definition arm1 (revisions : option (jsmap Z)) (acc : nat * PreemptState.t) (id : string)
  : nat * PreemptState.t :=
  let '(accepted, st) := acc in
  if bool_decide (id ∈ PreemptState.cleared st) ||
     bool_decide (revision_in revisions id < floor_of st id)%Z ||
     bool_decide (STEER_QUEUE_MAX_DEPTH <= length (PreemptState.ids st))
  then (accepted, st)
  else (S accepted, {| st with PreemptState.ids := sadd (PreemptState.ids st) id |}).

(** [armPreemptIds(runtime, createdAt, steerIds, revisions)] *)
Definition armPreemptIds (r : Runtime.t) (createdAt : Z) (steerIds : list string)
    (revisions : option (jsmap Z)) : nat * Runtime.t :=
  let '(accepted, st) := foldl (arm1 revisions) (0, ensurePreemptState r createdAt) steerIds in
  (accepted, with_preempt (Some st) r).

(** [steer.preemptRevision ?? 0] *)
Definition revision_of (i : SteerQueueItem.t) : Z := default 0%Z (SteerQueueItem.preemptRevision i).

Definition downgrade1 (st : PreemptState.t) (steer : string * Z) : PreemptState.t :=
  {| st with PreemptState.ids := sdel (PreemptState.ids st) steer.1;
     PreemptState.minArmRevision :=
       mset (PreemptState.minArmRevision st) steer.1 (steer.2 + 1)%Z |}.

Definition id_revision (i : SteerQueueItem.t) : string * Z := (SteerQueueItem.steerId i, revision_of i).

(** [downgradePreemptIds(runtime, createdAt, steers)] *)
Definition downgradePreemptIds (r : Runtime.t) (createdAt : Z) (steers : list SteerQueueItem.t)
  : Runtime.t :=
  with_preempt
    (Some (foldl downgrade1 (ensurePreemptState r createdAt) (id_revision <$> steers))) r.

Definition clear1 (st : PreemptState.t) (id : string) : PreemptState.t :=
  let st := {| st with PreemptState.ids := sdel (PreemptState.ids st) id |} in
  if bool_decide (id ∈ PreemptState.cleared st) then st
  else
    let kept :=
      if bool_decide (PREEMPT_TOMBSTONE_MAX <= length (PreemptState.cleared st))
      then match PreemptState.cleared st with
           | oldest :: _ => sdel (PreemptState.cleared st) oldest
           | [] => []
           end
      else PreemptState.cleared st in
    {| st with PreemptState.cleared := sadd kept id |}.

(** [clearPreemptIds(runtime, createdAt, steerIds)] *)
Definition clearPreemptIds (r : Runtime.t) (createdAt : Z) (steerIds : list string) : Runtime.t :=
  with_preempt (Some (foldl clear1 (ensurePreemptState r createdAt) steerIds)) r.

(** [releasePreemptSubscription(runtime, force)]: what it does to the requests. *)
Definition releasePreemptSubscription (force : bool) (r : Runtime.t) : Runtime.t :=
  if Runtime.replacementTransportHold r && negb force then r else with_preempt None r.

(** ** Synchronous sections of the manager *)

(** The item of the queue, if any, that the message's id refers to, and what to do with it. *)
Inductive verdict := Removed | Downgraded (i : SteerQueueItem.t) | Unbacked | Backed (revision : Z).

Definition judge (queued : list SteerQueueItem.t) (msg : PreemptMessage.t) (id : string) : verdict :=
  match find_first (fun i => bool_decide (SteerQueueItem.steerId i = id)) (rev queued) with
  | None => Removed
  | Some item =>
      if negb (is_preempt item) then Downgraded item
      else if bool_decide (revision_of item < revision_in (PreemptMessage.revisions msg) id)%Z
           then Unbacked
           else Backed (revision_of item)
  end.

Definition is_removed (v : verdict) : bool := match v with Removed => true | _ => false end.
Definition is_backed (v : verdict) : bool := match v with Backed _ => true | _ => false end.

Definition removed_ids (queued : list SteerQueueItem.t) (msg : PreemptMessage.t) : list string :=
  filter (fun id => is_removed (judge queued msg id) = true) (PreemptMessage.steerIds msg).
Definition downgraded_items (queued : list SteerQueueItem.t) (msg : PreemptMessage.t)
  : list SteerQueueItem.t :=
  omap (fun id => match judge queued msg id with Downgraded i => Some i | _ => None end)
    (PreemptMessage.steerIds msg).
Definition backed_revisions (queued : list SteerQueueItem.t) (msg : PreemptMessage.t) : jsmap Z :=
  foldl (fun m id => match judge queued msg id with Backed rev => mset m id rev | _ => m end) []
    (PreemptMessage.steerIds msg).
Definition backed_ids (queued : list SteerQueueItem.t) (msg : PreemptMessage.t) : list string :=
  filter (fun id => is_backed (judge queued msg id) = true) (PreemptMessage.steerIds msg).

(** Run [f] unless the list is empty. *)
Definition unless_nil {A} (l : list A) (f : Runtime.t -> Runtime.t) (r : Runtime.t) : Runtime.t :=
  match l with [] => r | _ :: _ => f r end.

(** What [validateAndArmPreemptMessage] does once it has read the queue. *)
Definition validated (queued : list SteerQueueItem.t) (msg : PreemptMessage.t) (r : Runtime.t)
  : Runtime.t :=
  let createdAt := PreemptMessage.createdAt msg in
  let removedIds := removed_ids queued msg in
  let downgraded := downgraded_items queued msg in
  let backedIds := backed_ids queued msg in
  let backedRevisions := backed_revisions queued msg in
  unless_nil backedIds (fun r => (armPreemptIds r createdAt backedIds (Some backedRevisions)).2)
    (unless_nil downgraded (fun r => downgradePreemptIds r createdAt downgraded)
       (unless_nil removedIds (fun r => clearPreemptIds r createdAt removedIds) r)).

(** The sections, with what they return. *)
Inductive sync : Type -> Type :=
| ArmOwned (streamId steerId : string) (jobCreatedAt revision : Z) : sync (option bool)
| NoteRemoved (streamId : string) (steerIds : list string) (jobCreatedAt : option Z)
  : sync (option Z)
| IsPreemptRequested (streamId : string) : sync bool
| GetArmedPreemptIds (streamId : string) (jobCreatedAt : option Z) : sync (list string)
| ClearPreemptRequests (streamId : string) (steerIds : list string) (jobCreatedAt : option Z)
  : sync ()
| DowngradeHere (streamId : string) (jobCreatedAt : Z) (steers : list SteerQueueItem.t) : sync ()
| SnapshotArmed (streamId : string) (jobCreatedAt : Z) : sync (option nat * list string)
| DropOrphans (streamId : string) (identity : option nat) (armedIds backed : list string)
    (jobCreatedAt : Z) : sync ()
| Validated (streamId : string) (identity : nat) (msg : PreemptMessage.t)
    (queued : list SteerQueueItem.t) : sync ().

(** The current runtime of a stream, if it is of the given generation. *)
Definition runtime_at (m : Manager.t) (streamId : string) (jobCreatedAt : option Z)
  : option Runtime.t :=
  match runtime_of m streamId with
  | Some r => if epoch_matches jobCreatedAt (Runtime.createdAt r) then Some r else None
  | None => None
  end.

(** Update it. *)
Definition at_runtime (streamId : string) (jobCreatedAt : option Z) (f : Runtime.t -> Runtime.t)
    (m : Manager.t) : Manager.t :=
  match runtime_at m streamId jobCreatedAt with
  | Some r => set_runtime streamId (f r) m
  | None => m
  end.

Definition armed_ids (r : Runtime.t) : list string :=
  match Runtime.preempt r with Some st => PreemptState.ids st | None => [] end.

(** [requestPreempt] up to its publication; [None] means that the owner is elsewhere. *)
Definition armOwned (streamId steerId : string) (jobCreatedAt revision : Z) (m : Manager.t)
  : option bool * Manager.t :=
  if bool_decide (mget (Manager.ownedJobs m) streamId = Some jobCreatedAt) then
    match runtime_at m streamId (Some jobCreatedAt) with
    | Some r =>
        let '(accepted, r') :=
          armPreemptIds r jobCreatedAt [steerId] (Some [(steerId, revision)]) in
        (Some (bool_decide (0 < accepted)), set_runtime streamId r' m)
    | None => (None, m)
    end
  else (None, m).

(** [noteSteersRemoved] up to its publication: the generation it publishes for, if any. *)
Definition noteRemoved (streamId : string) (steerIds : list string) (jobCreatedAt : option Z)
    (m : Manager.t) : option Z * Manager.t :=
  (match jobCreatedAt with
   | Some e => Some e
   | None => Runtime.createdAt <$> runtime_of m streamId
   end,
   at_runtime streamId jobCreatedAt
     (fun r => clearPreemptIds r (default (Runtime.createdAt r) jobCreatedAt) steerIds) m).

(** [isPreemptRequested(streamId)] *)
Definition isPreemptRequested (streamId : string) (m : Manager.t) : bool :=
  bool_decide (0 < length (default [] (armed_ids <$> runtime_of m streamId))).

(** [getArmedPreemptIds(streamId, jobCreatedAt)] *)
Definition getArmedPreemptIds (streamId : string) (jobCreatedAt : option Z) (m : Manager.t)
  : list string := default [] (armed_ids <$> runtime_at m streamId jobCreatedAt).

(** [clearPreemptRequests(streamId, steerIds, jobCreatedAt)] *)
Definition clearPreemptRequests (streamId : string) (steerIds : list string)
    (jobCreatedAt : option Z) : Manager.t -> Manager.t :=
  match steerIds with
  | [] => fun m => m
  | _ :: _ =>
      at_runtime streamId jobCreatedAt
        (fun r => match Runtime.preempt r with
                  | Some _ => clearPreemptIds r (Runtime.createdAt r) steerIds
                  | None => r
                  end)
  end.

(** The runtime whose armed ids [rearmQueuedPreempts] snapshots, and these ids. *)
Definition snapshotArmed (streamId : string) (jobCreatedAt : Z) (m : Manager.t)
  : option nat * list string :=
  (Runtime.identity <$> runtime_of m streamId,
   getArmedPreemptIds streamId (Some jobCreatedAt) m).

(** Its reconciliation, on the runtime of the snapshot only. *)
Definition dropOrphans (streamId : string) (identity : option nat) (armedIds backed : list string)
    (jobCreatedAt : Z) (m : Manager.t) : Manager.t :=
  match identity with
  | Some i =>
      if is_current m streamId i then
        at_runtime streamId None
          (unless_nil (filter (fun id => id ∉ backed) armedIds)
             (fun r => clearPreemptIds r jobCreatedAt (filter (fun id => id ∉ backed) armedIds))) m
      else m
  | None => m
  end.

Definition run_sync {R} (c : sync R) (m : Manager.t) : R * Manager.t :=
  match c with
  | ArmOwned k id g revision => armOwned k id g revision m
  | NoteRemoved k ids e => noteRemoved k ids e m
  | IsPreemptRequested k => (isPreemptRequested k m, m)
  | GetArmedPreemptIds k e => (getArmedPreemptIds k e m, m)
  | ClearPreemptRequests k ids e => (tt, clearPreemptRequests k ids e m)
  | DowngradeHere k g steers =>
      (tt, at_runtime k (Some g) (fun r => downgradePreemptIds r g steers) m)
  | SnapshotArmed k g => (snapshotArmed k g m, m)
  | DropOrphans k i armedIds backed g => (tt, dropOrphans k i armedIds backed g m)
  | Validated k i msg items =>
      (tt, if is_current m k i
           then at_runtime k (Some (PreemptMessage.createdAt msg)) (validated items msg) m
           else m)
  end.

(** The callback of [registerPreemptSubscription] for the runtime [identity]: it disarms at once,
    and reports whether the message asks to arm. *)
Definition onPreempt (streamId : string) (identity : nat) (msg : PreemptMessage.t) (m : Manager.t)
  : bool * Manager.t :=
  match runtime_at m streamId (Some (PreemptMessage.createdAt msg)) with
  | Some r =>
      if bool_decide (Runtime.identity r = identity) then
        match PreemptMessage.op msg with
        | Clear =>
            (false, set_runtime streamId
                      (clearPreemptIds r (PreemptMessage.createdAt msg)
                         (PreemptMessage.steerIds msg)) m)
        | Arm => (true, m)
        end
      else (false, m)
  | None => (false, m)
  end.

(** ** Calls

    What the methods and the routes of steering wait for: sections of the manager, messages,
    operations of the store, and code that is given to them. *)

(** [SteerRequestUser] *)
Module SteerRequestUser.
Record t := mk { id : option string; tenantId : option string }.
End SteerRequestUser.

(** The part of a job's facade that the routes read. *)
Module JobFacade.
Record t := mk {
  status : JobStatus;
  createdAt : Z;
  userId : option string;
  tenantId : option string;
  generationProtocolVersion : option GenerationProtocolVersion;
  agent_id : option string;
  endpoint : option string
}.
End JobFacade.

(** [SteerMediaResult] and [InjectedMessage], whose role and source are constants. *)
Inductive injected_content := MediaContent (parts : list json) | TextContent (text : string).

(** The steers of an [on_steer_updated] event. *)
Module SteerUpdate.
Record t := mk {
  steerId : string;
  clientSteerId : option string;
  preempt : bool;
  preemptRevision : Z
}.
End SteerUpdate.

Inductive failure :=
| StoreFailure (e : StoreError)
| Rejection (message : string).

Inductive call : Type -> Type :=
| Sync {R} (replica : nat) (c : sync R) : call R
| Deliver (replica : nat) (streamId : string) (identity : nat) : call (bool * PreemptMessage.t)
| Publish (streamId : string) (msg : PreemptMessage.t) : call bool
| EmitSteerUpdated (streamId : string) (createdAt : Z) (steers : list SteerUpdate.t)
  : call (result string ())
| PeekSteers (streamId : string) (e : option Z) : call (list SteerQueueItem.t)
| DrainSteers (streamId : string) (e : option Z)
  : call (result StoreError (list SteerQueueItem.t))
| RestoreClaimedSteers (streamId : string) (items : list SteerQueueItem.t) (e : option Z)
  : call (result StoreError bool)
| DowngradeSteers (streamId : string) (e : option Z)
  : call (result StoreError (option (list SteerQueueItem.t)))
| CancelSteer (streamId steerId : string) (e : option Z) : call (result StoreError bool)
| ArmSteerVersioned (streamId steerId : string) (e : option Z)
  : call (result StoreError SteerArmResult)
| EnqueueVersioned (streamId : string) (item : SteerQueueItem.t) (wantsPreempt : bool)
    (e : option Z) : call (string * SteerEnqueueOutcome)
| EnqueueWithReceipt (streamId : string) (item : SteerQueueItem.t)
    (receipt : SteerReceiptInput.t) (wantsPreempt : bool) (e : option Z)
  : call (string * SteerEnqueueOutcome)
| ReadReceipt (streamId clientSteerId : string) : call (option SteerReceipt.t)
| DiscardSteerLeftover (streamId clientSteerId steerId : string) (owner : SteerRequestUser.t)
    (e : Z) : call bool
| GetJob (streamId : string) : call (option JobFacade.t)
| ApplySteer (item : SteerQueueItem.t) : call (result string ())
| BuildMedia (item : SteerQueueItem.t) : call (result string (option (list json)))
| GetFiles (file_ids : list string) (user : string) (tenantId : option string)
  : call (result string (option (list json)))
| UpdateFilesUsage (file_ids : list string) (owner : SteerRequestUser.t)
  : call (result string (list json))
| CheckAgentAccess (agentId endpoint : option string) : call (result string bool)
| ReadSignal : call bool
| Now : call Z.

#[global] Abbreviation sprog := (prog call failure).

(** The value of a call that may reject; a rejection propagates. *)
Definition value {A} (p : sprog (result StoreError A)) : sprog A :=
  await r <- p; match r with Ok a => ret a | Throw e => fail (StoreFailure e) end.
Definition settled {A} (p : sprog (result string A)) : sprog A :=
  await r <- p; match r with Ok a => ret a | Throw e => fail (Rejection e) end.

Section methods.
Variable here : nat.
(** Whether the transport has [emitPreempt]: it does between replicas. *)
Variable publishes : bool.

(** ** The manager's methods *)

Definition arm_message (jobCreatedAt : Z) (steerId : string) (revision : Z) : PreemptMessage.t :=
  PreemptMessage.mk Arm jobCreatedAt [steerId] (Some [(steerId, revision)]).
Definition clear_message (createdAt : Z) (steerIds : list string) : PreemptMessage.t :=
  PreemptMessage.mk Clear createdAt steerIds None.

(** [requestPreempt(streamId, steerId, jobCreatedAt, revision)] *)
Definition requestPreempt (streamId steerId : string) (jobCreatedAt revision : Z) : sprog bool :=
  await owned <- ask (Sync here (ArmOwned streamId steerId jobCreatedAt revision));
  match owned with
  | Some confirmed => ret confirmed
  | None =>
      if publishes then ask (Publish streamId (arm_message jobCreatedAt steerId revision))
      else ret false
  end.

(** [noteSteersRemoved(streamId, steerIds, jobCreatedAt)] *)
Definition noteSteersRemoved (streamId : string) (steerIds : list string)
    (jobCreatedAt : option Z) : sprog bool :=
  match steerIds with
  | [] => ret true
  | _ :: _ =>
      await createdAt <- ask (Sync here (NoteRemoved streamId steerIds jobCreatedAt));
      match createdAt with
      | None => ret true
      | Some createdAt =>
          if publishes then
            await published <- ask (Publish streamId (clear_message createdAt steerIds));
            if published : bool then ret true
            else ask (Publish streamId (clear_message createdAt steerIds))
          else ret true
      end
  end.

(** The listener of [registerPreemptSubscription], for one message, followed by
    [validateAndArmPreemptMessage] when it asks to arm. *)
Definition receivePreempt (streamId : string) (identity : nat) : sprog () :=
  await delivered <- ask (Deliver here streamId identity);
  let '(arms, msg) := delivered in
  if arms : bool then
    await queued <- ask (PeekSteers streamId (Some (PreemptMessage.createdAt msg)));
    ask (Sync here (Validated streamId identity msg queued))
  else ret tt.

(** The steers of the event that [rearmQueuedPreempts] emits. *)
Definition downgrade_update (i : SteerQueueItem.t) : SteerUpdate.t :=
  SteerUpdate.mk (SteerQueueItem.steerId i)
    (match SteerQueueItem.clientSteerId i with
     | Some c => if decide (c = "") then None else Some c
     | None => None
     end) false (revision_of i).

Fixpoint rearm_all (streamId : string) (jobCreatedAt : Z) (items : list SteerQueueItem.t)
  : sprog nat :=
  match items with
  | [] => ret 0
  | item :: items =>
      await _ <- requestPreempt streamId (SteerQueueItem.steerId item) jobCreatedAt
                   (revision_of item);
      await n <- rearm_all streamId jobCreatedAt items;
      ret (S n)
  end.

(** [rearmQueuedPreempts(streamId, jobCreatedAt)] *)
Definition rearmQueuedPreempts (streamId : string) (jobCreatedAt : Z) : sprog nat :=
  await downgraded <- value (ask (DowngradeSteers streamId (Some jobCreatedAt)));
  match downgraded with
  | Some steers =>
      await _ <- ask (Sync here (DowngradeHere streamId jobCreatedAt steers));
      match steers with
      | [] => ret 0
      | _ :: _ =>
          await _ <- settled (ask (EmitSteerUpdated streamId jobCreatedAt
                                     (downgrade_update <$> steers)));
          ret 0
      end
  | None =>
      await snapshot <- ask (Sync here (SnapshotArmed streamId jobCreatedAt));
      let '(runtime, armedBeforeRead) := snapshot in
      await queued <- ask (PeekSteers streamId (Some jobCreatedAt));
      let backedItems := filter (fun i => is_preempt i = true) queued in
      await _ <- ask (Sync here (DropOrphans streamId runtime armedBeforeRead
                                   (steer_ids backedItems) jobCreatedAt));
      rearm_all streamId jobCreatedAt backedItems
  end.

(** ** The boundaries of a run ([agents/steering/runtime.ts]) *)

(** Whether [opts.buildMedia] is given. *)
Variable buildsMedia : bool.

(** Apply the drained steers in order, up to the first failure: those applied, and the rest. *)
Fixpoint apply_steers (steers : list SteerQueueItem.t)
  : sprog (list SteerQueueItem.t * list SteerQueueItem.t) :=
  match steers with
  | [] => ret ([], [])
  | item :: rest =>
      await r <- ask (ApplySteer item);
      match r with
      | Ok _ => await both <- apply_steers rest; ret (item :: both.1, both.2)
      | Throw _ => ret ([], steers)
      end
  end.

(** The ids that were handed back. *)
Definition restore_steers (streamId : string) (failedSteers : list SteerQueueItem.t)
    (jobCreatedAt : option Z) : sprog (list string) :=
  match failedSteers with
  | [] => ret []
  | _ :: _ =>
      await r <- ask (RestoreClaimedSteers streamId failedSteers jobCreatedAt);
      ret (match r with Ok true => steer_ids failedSteers | _ => [] end)
  end.

(** The content injected for one steer. *)
Definition injected_message (item : SteerQueueItem.t) : sprog injected_content :=
  if buildsMedia && bool_decide (0 < length (default [] (SteerQueueItem.files item))) then
    await r <- ask (BuildMedia item);
    ret (match r with
         | Ok (Some content) => MediaContent content
         | _ => TextContent (SteerQueueItem.text item)
         end)
  else ret (TextContent (SteerQueueItem.text item)).

Fixpoint injected_messages (items : list SteerQueueItem.t) : sprog (list injected_content) :=
  match items with
  | [] => ret []
  | item :: items =>
      await m <- injected_message item;
      await rest <- injected_messages items;
      ret (m :: rest)
  end.

(** The ids the boundary has spent: what was armed before it, and what it drained, less what it
    handed back. *)
Definition spent_ids (armedBeforeDrain restoredIds : list string)
    (steers : list SteerQueueItem.t) : list string :=
  foldl sadd (foldl sadd [] (filter (fun id => id ∉ restoredIds) armedBeforeDrain))
    (filter (fun id => id ∉ restoredIds) (steer_ids steers)).

(** [drainAndBuildInjections(opts)].  The last publication is not awaited by the source; it is
    the last thing the program does, and what it answers is not used. *)
Definition drainAndBuildInjections (streamId : string) (jobCreatedAt : option Z)
  : sprog (list injected_content) :=
  await armedBeforeDrain <- ask (Sync here (GetArmedPreemptIds streamId jobCreatedAt));
  await steers <- value (ask (DrainSteers streamId jobCreatedAt));
  match steers with
  | [] =>
      await _ <- ask (Sync here (ClearPreemptRequests streamId armedBeforeDrain jobCreatedAt));
      ret []
  | _ :: _ =>
      await both <- apply_steers steers;
      await restoredIds <- restore_steers streamId both.2 jobCreatedAt;
      await injected <- injected_messages both.1;
      await _ <- noteSteersRemoved streamId (spent_ids armedBeforeDrain restoredIds steers)
                   jobCreatedAt;
      ret injected
  end.

(** [createSteerDrainHook] and [createSteerPreemptBoundaryHook], which share their body: nothing
    in the scope of a subagent. *)
Definition steerBoundaryHook (agentId : option string) (streamId : string)
    (jobCreatedAt : option Z) : sprog (option (list injected_content)) :=
  match agentId with
  | Some _ => ret None
  | None =>
      await injected <- drainAndBuildInjections streamId jobCreatedAt;
      ret (match injected with [] => None | _ :: _ => Some injected end)
  end.
End methods.

(** ** The interrupts of a runtime are bounded *)

(** At most [STEER_QUEUE_MAX_DEPTH] armed ids, at most [PREEMPT_TOMBSTONE_MAX] removals remembered,
    no id twice, and none that is armed although it was removed. *)
Record tidy (st : PreemptState.t) : Prop := {
  td_ids : NoDup (PreemptState.ids st);
  td_cleared : NoDup (PreemptState.cleared st);
  td_apart : forall id, id ∈ PreemptState.ids st -> id ∉ PreemptState.cleared st;
  td_few : length (PreemptState.ids st) <= STEER_QUEUE_MAX_DEPTH;
  td_tombstones : length (PreemptState.cleared st) <= PREEMPT_TOMBSTONE_MAX
}.

Definition tidy_runtime (r : Runtime.t) : Prop := forall st, Runtime.preempt r = Some st -> tidy st.
Definition tidy_manager (m : Manager.t) : Prop :=
  forall k r, runtime_of m k = Some r -> tidy_runtime r.

Lemma sadd_nodup l id : NoDup l -> NoDup (sadd l id).
Proof.
  unfold sadd. case_decide as Hin; [done|]. intros Hl. apply NoDup_app.
  split_and!; [done | set_solver | apply NoDup_singleton].
Qed.

Lemma sadd_length l id : length (sadd l id) <= S (length l).
Proof. unfold sadd. case_decide; rewrite ?length_app; simpl; lia. Qed.

Lemma sdel_length l id : length (sdel l id) <= length l.
Proof. apply length_filter. Qed.

Lemma sdel_nodup l id : NoDup l -> NoDup (sdel l id).
Proof. apply NoDup_filter. Qed.

Lemma sdel_length_in l id : id ∈ l -> length (sdel l id) < length l.
Proof. intros H. apply length_filter_lt with id; [done|]. tauto. Qed.

Lemma tidy_arm1 revs acc id : tidy acc.2 -> tidy (arm1 revs acc id).2.
Proof.
  destruct acc as [n st]. intros []. cbn [arm1 snd] in *. destruct (_ || _) eqn:E; [done|].
  apply orb_false_iff in E as [[Ec _]%orb_false_iff El].
  apply bool_decide_eq_false in Ec, El. split; cbn; auto using sadd_nodup.
  - intros x [->|Hx]%elem_sadd; auto.
  - pose proof (sadd_length (PreemptState.ids st) id). lia.
Qed.

Lemma tidy_downgrade1 st x : tidy st -> tidy (downgrade1 st x).
Proof.
  intros []. split; cbn; auto using sdel_nodup.
  - intros y [_ Hy]%elem_sdel. auto.
  - pose proof (sdel_length (PreemptState.ids st) x.1). lia.
Qed.

(** Making room for a removal. *)
Lemma kept_room l :
  NoDup l -> length l <= PREEMPT_TOMBSTONE_MAX ->
  let kept := if bool_decide (PREEMPT_TOMBSTONE_MAX <= length l)
              then match l with oldest :: _ => sdel l oldest | [] => [] end else l in
  NoDup kept /\ kept ⊆ l /\ length kept < PREEMPT_TOMBSTONE_MAX.
Proof.
  intros Hl Hlen kept. subst kept. destruct (bool_decide _) eqn:E.
  - destruct l as [|o l]; [by apply bool_decide_eq_true in E; inversion E|].
    split_and!; [by apply sdel_nodup | by intros y [_ Hy]%elem_sdel|].
    pose proof (sdel_length_in (o :: l) o ltac:(by left)). lia.
  - apply bool_decide_eq_false in E. split_and!; [done | done | lia].
Qed.

Lemma tidy_clear1 st id : tidy st -> tidy (clear1 st id).
Proof.
  intros []. unfold clear1. cbv zeta. cbn [PreemptState.ids PreemptState.cleared].
  pose proof (sdel_length (PreemptState.ids st) id). destruct (bool_decide (id ∈ _)) eqn:Ei.
  { split; cbn [PreemptState.ids PreemptState.cleared]; auto using sdel_nodup; [|lia].
    intros y [_ Hy]%elem_sdel. auto. }
  pose proof (kept_room _ td_cleared0 td_tombstones0) as (Hk & Hs & Hlen). cbv zeta in *.
  set (kept := if bool_decide (PREEMPT_TOMBSTONE_MAX <= _) then _ else _) in *. clearbody kept.
  split; cbn [PreemptState.ids PreemptState.cleared]; auto using sdel_nodup, sadd_nodup; [|lia|].
  - intros y [Hne Hy]%elem_sdel [->|Hc]%elem_sadd; [done|]. apply (td_apart0 y Hy), Hs, Hc.
  - pose proof (sadd_length kept id). lia.
Qed.

Lemma tidy_foldl {A B} (f : A -> B -> A) (get : A -> PreemptState.t) a l :
  (forall a x, tidy (get a) -> tidy (get (f a x))) -> tidy (get a) -> tidy (get (foldl f a l)).
Proof. intros Hf. revert a. induction l; simpl; auto. Qed.

Lemma tidy_ensure r createdAt : tidy_runtime r -> tidy (ensurePreemptState r createdAt).
Proof.
  unfold ensurePreemptState. intros H. destruct (Runtime.preempt r) as [st|] eqn:E; simpl; [by apply H|].
  split; cbn; try constructor; try lia. intros x Hx. by apply not_elem_of_nil in Hx.
Qed.

Lemma tidy_armed r g ids revs : tidy_runtime r -> tidy_runtime (armPreemptIds r g ids revs).2.
Proof.
  intros H%(tidy_ensure r g) st. unfold armPreemptIds.
  pose proof (tidy_foldl (arm1 revs) snd (0, ensurePreemptState r g) ids (tidy_arm1 revs) H) as Hf.
  destruct (foldl _ _ _) as [n st']. cbn in *. by intros [= <-].
Qed.

Lemma tidy_downgraded r g l : tidy_runtime r -> tidy_runtime (downgradePreemptIds r g l).
Proof.
  intros H%(tidy_ensure r g) st. cbn. intros [= <-].
  apply (tidy_foldl downgrade1 id); [apply tidy_downgrade1 | done].
Qed.

Lemma tidy_cleared r g l : tidy_runtime r -> tidy_runtime (clearPreemptIds r g l).
Proof.
  intros H%(tidy_ensure r g) st. cbn. intros [= <-].
  apply (tidy_foldl clear1 id); [apply tidy_clear1 | done].
Qed.

#[export] Hint Resolve tidy_armed tidy_downgraded tidy_cleared : core.

Lemma tidy_validated items msg r : tidy_runtime r -> tidy_runtime (validated items msg r).
Proof.
  intros H. unfold validated, unless_nil. destruct (backed_ids _ _), (downgraded_items _ _), (removed_ids _ _); auto.
Qed.

(** What a section may do to a runtime: update it by [f], or leave it. *)
Lemma runtime_of_set m k k' r :
  runtime_of (set_runtime k' r m) k = if decide (k' = k) then Some r else runtime_of m k.
Proof.
  unfold runtime_of, set_runtime. cbn. case_decide as E; [rewrite E; apply mget_mset_eq | by apply mget_mset_ne].
Qed.

Lemma runtime_at_Some m k e r :
  runtime_at m k e = Some r -> runtime_of m k = Some r /\ epoch_matches e (Runtime.createdAt r) = true.
Proof. unfold runtime_at. repeat case_match; naive_solver. Qed.

Lemma at_runtime_of m k' e f k :
  runtime_of (at_runtime k' e f m) k = runtime_of m k \/
  exists r, k' = k /\ runtime_at m k e = Some r /\ runtime_of (at_runtime k' e f m) k = Some (f r).
Proof.
  unfold at_runtime. destruct (runtime_at m k' e) as [r|] eqn:E; [|by left].
  rewrite runtime_of_set. destruct (decide (k' = k)) as [Ek|]; [right; subst; eauto | by left].
Qed.

(** C32. Whatever sections run and messages arrive, a runtime has at most ten armed interrupts and
    remembers at most twenty removals, each once, and no removed id is armed. *)
Theorem interrupts_are_bounded m k i msg {R} (c : sync R) :
  tidy_manager m -> tidy_manager (run_sync c m).2 /\ tidy_manager (onPreempt k i msg m).2.
Proof.
  intros Hm.
  assert (Hat : forall k' e f, (forall r, tidy_runtime r -> tidy_runtime (f r)) ->
    tidy_manager (at_runtime k' e f m)).
  { intros k' e f Hf k0 r Hr. destruct (at_runtime_of m k' e f k0) as [H|(r0 & -> & [H0 _]%runtime_at_Some & H)];
      rewrite H in Hr; [by eapply Hm|]. injection Hr as <-. apply Hf. by eapply Hm. }
  split.
  - destruct c; cbn [run_sync snd]; try done.
    + unfold armOwned. case_match; [|done].
      destruct (runtime_at m streamId (Some jobCreatedAt)) as [r|] eqn:E; [|done].
      pose proof (tidy_armed r jobCreatedAt [steerId] (Some [(steerId, revision)])) as Ha.
      destruct (armPreemptIds _ _ _ _) as [n r']. apply runtime_at_Some in E as [E _].
      intros k0 r0. cbn [snd]. rewrite runtime_of_set. destruct (decide (_ = k0)); [|exact (Hm k0 r0)].
      intros [= <-]. by eapply Ha, Hm.
    + apply Hat. auto.
    + unfold clearPreemptRequests. destruct steerIds; [done|]. apply Hat. intros r Hr. case_match; auto.
    + apply Hat. auto.
    + unfold dropOrphans. repeat case_match; try done. apply Hat. intros r Hr. unfold unless_nil. case_match; auto.
    + case_match; [|done]. apply Hat. intros r Hr. by apply tidy_validated.
  - unfold onPreempt. destruct (runtime_at m k _) as [r|] eqn:E; [|done].
    apply runtime_at_Some in E as [E _]. case_match; [|done]. case_match; [done|]. cbn [snd].
    intros k0 r0. rewrite runtime_of_set. destruct (decide (_ = k0)); [|exact (Hm k0 r0)]. intros [= <-].
    apply tidy_cleared. by eapply Hm.
Qed.

Module PreemptExamples.
Definition runtime : Runtime.t := Runtime.mk 7 10 false false None.
Definition manager : Manager.t := Manager.mk [("s1", runtime)] [("s1", 10%Z)].
Definition run {R} (c : sync R) (m : Manager.t) : Manager.t := (run_sync c m).2.
Definition arm (id : string) : sync (option bool) := ArmOwned "s1" id 10 1.
Definition remove (id : string) : sync (option Z) := NoteRemoved "s1" [id] (Some 10%Z).
Definition clear_a : PreemptMessage.t := PreemptMessage.mk Clear 10 ["a"] None.

(** An interrupt that arrives after the removal of its steer is refused. *)
Example late_arm_is_refused :
  (run_sync (arm "a") (run (remove "a") manager)).1 = Some false /\
  (run_sync (arm "a") manager).1 = Some true.
Proof. by vm_compute. Qed.

(** Removals are remembered up to a limit: after twenty others the first is forgotten, and its
    interrupt would be armed. *)
Example a_tombstone_is_evicted :
  let others := ["b1"; "b2"; "b3"; "b4"; "b5"; "b6"; "b7"; "b8"; "b9"; "b10";
                 "b11"; "b12"; "b13"; "b14"; "b15"; "b16"; "b17"; "b18"; "b19"; "b20"] in
  (run_sync (arm "a") (run (NoteRemoved "s1" others (Some 10%Z)) (run (remove "a") manager))).1 =
  Some true.
Proof. by vm_compute. Qed.
End PreemptExamples.

Lemma interrupts_are_bounded_witness :
  tidy_manager (run_sync (PreemptExamples.arm "a") PreemptExamples.manager).2 /\
  tidy_manager (onPreempt "s1" 7 PreemptExamples.clear_a PreemptExamples.manager).2.
Proof.
  apply (interrupts_are_bounded PreemptExamples.manager "s1" 7 PreemptExamples.clear_a
           (PreemptExamples.arm "a")).
  intros k r Hr st Hst. unfold runtime_of in Hr. apply mget_elem in Hr.
  apply list_elem_of_singleton in Hr as [= -> ->]. done.
Defined.
