(* ===== verification/SteerRoutes.v ===== *)
(** * The routes of steering ([agents/steering/request.ts], [agents/steering/refs.ts])

    A user steers a running generation, takes a queued steer back, or turns it into an interrupt.
    The three handlers check the request, check whose job it is, and then make one operation of the
    store; they are programs of calls ([Preempts.call]).  What the source does not await, it starts
    at that point and does not use the result of: here it is the next call.

    Strings are the bytes of their UTF-8 encoding. *)

From S2P Require Import Prelude Programs JsMap Json StreamTypes StoreSteers Steering Preempts.

(** ** Strings *)

Definition bytes_of (s : string) : list Ascii.ascii := String.list_ascii_of_string s.
Definition of_bytes (l : list Ascii.ascii) : string := String.string_of_list_ascii l.

(** [s.length]: one unit per character, two from U+10000 on; continuation bytes do not count. *)
Definition utf16_units (c : Ascii.ascii) : nat :=
  let n := Ascii.nat_of_ascii c in
  if bool_decide (128 <= n < 192) then 0 else if bool_decide (240 <= n) then 2 else 1.
Definition utf16_length (s : string) : nat := sum_list_with utf16_units (bytes_of s).

(** The characters that [trim] removes, as bytes: tab to carriage return, space, no-break space,
    the spaces of Unicode, the line and paragraph separators, the byte order mark. *)
Definition whitespace : list (list nat) :=
  [[9]; [10]; [11]; [12]; [13]; [32]; [194; 160]; [225; 154; 128];
   [226; 128; 128]; [226; 128; 129]; [226; 128; 130]; [226; 128; 131]; [226; 128; 132];
   [226; 128; 133]; [226; 128; 134]; [226; 128; 135]; [226; 128; 136]; [226; 128; 137];
   [226; 128; 138]; [226; 128; 168]; [226; 128; 169]; [226; 128; 175]; [226; 129; 159];
   [227; 128; 128]; [239; 187; 191]].

Fixpoint strip_prefix (p : list nat) (l : list Ascii.ascii) : option (list Ascii.ascii) :=
  match p, l with
  | [], _ => Some l
  | x :: p, c :: l => if bool_decide (Ascii.nat_of_ascii c = x) then strip_prefix p l else None
  | _ :: _, [] => None
  end.

(** Remove leading characters of [ws]; the fuel is the length of the text. *)
Fixpoint trim_leading (ws : list (list nat)) (fuel : nat) (l : list Ascii.ascii)
  : list Ascii.ascii :=
  match fuel with
  | 0 => l
  | S fuel =>
      match omap (fun p => strip_prefix p l) ws with
      | rest :: _ => trim_leading ws fuel rest
      | [] => l
      end
  end.

Definition js_trim (s : string) : string :=
  let l := bytes_of s in
  let l := trim_leading whitespace (length l) l in
  of_bytes (rev (trim_leading (reverse <$> whitespace) (length l) (reverse l))).

(** [s.replace(/\0/g, '')] *)
Definition remove_nul (s : string) : string :=
  of_bytes (filter (fun c => Ascii.nat_of_ascii c <> 0) (bytes_of s)).

(** [/^[A-Za-z0-9_-]+$/] *)
Definition client_id_char (c : Ascii.ascii) : bool :=
  let n := Ascii.nat_of_ascii c in
  bool_decide (48 <= n <= 57) || bool_decide (65 <= n <= 90) || bool_decide (97 <= n <= 122) ||
  bool_decide (n = 95) || bool_decide (n = 45).

(** ** Attachments *)

Definition STEER_MAX_FILES : nat := 10.

(** A property kept when it has the given type. *)
Definition string_prop (o : list (string * json)) (k : string) : list (string * json) :=
  match mget o k with Some (JStr s) => [(k, JStr s)] | _ => [] end.
Definition number_prop (o : list (string * json)) (k : string) : list (string * json) :=
  match mget o k with Some (JNum n) => [(k, JNum n)] | _ => [] end.

(** [toSteerFileRef(raw)] *)
Definition toSteerFileRef (raw : json) : option json :=
  match raw with
  | JObj o =>
      match mget o "file_id" with
      | Some (JStr id) =>
          if decide (id = "") then None
          else Some (JObj ([("file_id", JStr id)] ++ string_prop o "type" ++
                           string_prop o "filepath" ++ string_prop o "filename" ++
                           number_prop o "height" ++ number_prop o "width" ++
                           number_prop o "bytes"))
      | _ => None
      end
  | _ => None
  end.

(** [file?.file_id], when it is a string that is not empty. *)
Definition ref_id (file : json) : option string :=
  match as_string (jfield file "file_id") with
  | Some id => if decide (id = "") then None else Some id
  | None => None
  end.

(** [collectFileIds(files)] *)
Definition collectFileIds (files : list json) : list string := dedup_on (fun id => id) (omap ref_id files).

(** [buildOwnerFilter(fileIds, user)]: the user and the tenant to look under. *)
Definition buildOwnerFilter (fileIds : list string) (user : SteerRequestUser.t)
  : option (string * option string) :=
  match truthy (SteerRequestUser.id user), fileIds with
  | Some id, _ :: _ => Some (id, truthy (SteerRequestUser.tenantId user))
  | _, _ => None
  end.

Inductive files_error := TOO_MANY_FILES | INVALID_FILES.
Definition files_error_code (e : files_error) : string :=
  match e with TOO_MANY_FILES => "TOO_MANY_FILES" | INVALID_FILES => "INVALID_FILES" end.

(** [sanitizeSteerFiles(rawFiles)] *)
Definition sanitizeSteerFiles (rawFiles : option json) : result files_error (option (list json)) :=
  match as_array rawFiles with
  | None | Some [] => Ok None
  | Some raws =>
      if decide (STEER_MAX_FILES < length raws) then Throw TOO_MANY_FILES
      else match mapM toSteerFileRef raws with
           | Some files => Ok (Some files)
           | None => Throw INVALID_FILES
           end
  end.

(** ** Requests *)

Module SteerRequestBody.
Record t := mk {
  conversationId : option json;
  generationCreatedAt : option json;
  text : option json;
  clientSteerId : option json;
  files : option json;
  preempt : option json
}.
End SteerRequestBody.

(** [SteerCancelBody], also of [handleSteerArm]. *)
Module SteerCancelBody.
Record t := mk {
  conversationId : option json;
  generationCreatedAt : option json;
  steerId : option json;
  clientSteerId : option json
}.
End SteerCancelBody.

(** [SteerRequestDeps]: the protocol, when the property is there at all, and which of the
    functions are given. *)
Module SteerRequestDeps.
Record t := mk {
  generationProtocolVersion : option (option GenerationProtocolVersion);
  requireIdempotentDelivery : bool;
  signal : bool;
  getFiles : bool;
  updateFilesUsage : bool;
  checkAgentAccess : bool
}.
End SteerRequestDeps.

Module SteerRequestResult.
Record t := mk { status : Z; body : list (string * json) }.
End SteerRequestResult.

(** The outcome, with the final value of the protocol context. *)
Abbreviation outcome := (SteerRequestResult.t * GenerationProtocolVersion)%type.

Definition refuse (status : Z) (code : string) : SteerRequestResult.t :=
  SteerRequestResult.mk status [("code", JStr code)].

(** [protocolFromOptions(options)] *)
Definition protocolFromOptions (marker : option (option GenerationProtocolVersion))
  : GenerationProtocolVersion :=
  match marker with
  | None => V2
  | Some v => if bool_decide (v = Some V2) then V2 else V1
  end.

(** [capProtocolToJob(protocol, job)] *)
Definition capProtocolToJob (protocol : GenerationProtocolVersion) (job : JobFacade.t)
  : GenerationProtocolVersion :=
  if bool_decide (protocol = V2 /\ JobFacade.generationProtocolVersion job = Some V2)
  then V2 else V1.

(** [attachProtocol(result, protocol)] *)
Definition attachProtocol (marker : option (option GenerationProtocolVersion)) (o : outcome)
  : SteerRequestResult.t :=
  match marker with
  | None => o.1
  | Some _ =>
      SteerRequestResult.mk (SteerRequestResult.status o.1)
        (mset (SteerRequestResult.body o.1) "generationProtocolVersion" (protocol_json o.2))
  end.

(** [parseExpectedGenerationCreatedAt(value)]; [None] when it is invalid. *)
Definition parseExpectedGenerationCreatedAt (value : option json) : option (option Z) :=
  match value with
  | None | Some JNull => Some None
  | Some (JNum (NInt z)) => if safe_epoch z then Some (Some z) else None
  | Some _ => None
  end.

(** A conversation id that is neither empty nor ['new']. *)
Definition parseConversationId (value : option json) : option string :=
  match as_string value with
  | Some c => if bool_decide (c = "" \/ c = "new") then None else Some c
  | None => None
  end.

(** A client id that is absent or well formed; [None] when it is invalid. *)
Definition parseClientSteerId (value : option json) : option (option string) :=
  if nullish value then Some None
  else match as_string value with
       | Some c =>
           if bool_decide (1 <= String.length c <= 128) && forallb client_id_char (bytes_of c)
           then Some (Some c) else None
       | None => None
       end.

(** [hasTenantMismatch(metadata, user)] *)
Definition hasTenantMismatch (tenantId : option string) (user : SteerRequestUser.t) : bool :=
  negb (tenant_matches tenantId (SteerRequestUser.tenantId user)).

(** [user.id ?? ''] *)
Definition user_id (user : SteerRequestUser.t) : string := default "" (SteerRequestUser.id user).

Definition opt_number (k : string) (x : option Z) : list (string * json) :=
  opt_prop k ((fun z => JNum (NInt z)) <$> x).

(** [receiptResponse(conversationId, receipt)] *)
Definition receiptResponse (conversationId : string) (r : SteerReceipt.t) : SteerRequestResult.t :=
  let item := SteerReceipt.item r in
  SteerRequestResult.mk 202
    ([("status", JStr "queued");
      ("steerId", JStr (SteerQueueItem.steerId item));
      ("position", JNum (NInt (Z.of_nat (SteerReceipt.position r))));
      ("conversationId", JStr conversationId);
      ("preempt", JBool (is_preempt item));
      ("settled", JBool (negb (bool_decide (SteerReceipt.state r = queued \/
                                            SteerReceipt.state r = claimed))));
      ("leftover", JBool (bool_decide (SteerReceipt.state r = leftover)));
      ("replayed", JBool true)] ++
     opt_number "preemptRevision" (SteerQueueItem.preemptRevision item)).

(** ** Helpers with calls *)

(** [getSteerMaxLength()], read once per request; the limit is an argument of the handler. *)
Definition DEFAULT_STEER_MAX_LENGTH : Z := 16000.

(** [resolveSteerFiles(files, user, getFiles)] *)
Definition resolveSteerFiles (files : list json) (user : SteerRequestUser.t)
  : sprog (option (list json)) :=
  let ids := collectFileIds files in
  match buildOwnerFilter ids user with
  | None => ret None
  | Some (userId, tenantId) =>
      await docs <- settled (ask (GetFiles ids userId tenantId));
      let docsById := rev (default [] docs) in
      ret (mapM (fun id =>
             find_first (fun d => is_string (jfield d "file_id") id) docsById ≫= toSteerFileRef) ids)
  end.

(** [markSteerFilesUsed(streamId, item, owner, deps)] *)
Definition markSteerFilesUsed (files : option (list json)) (owner : SteerRequestUser.t)
    (deps : SteerRequestDeps.t) : sprog bool :=
  let fileIds := collectFileIds (default [] files) in
  if SteerRequestDeps.updateFilesUsage deps && bool_decide (fileIds <> []) then
    await updated <- ask (UpdateFilesUsage fileIds owner);
    ret (match updated with
         | Ok l =>
             let updatedIds := omap (fun f => as_string (jfield f "file_id")) (l : list json) in
             forallb (fun id => bool_decide (id ∈ updatedIds)) fileIds
         | Throw _ => false
         end)
  else ret true.

(** [isAborted(deps.signal)] *)
Definition isAborted (deps : SteerRequestDeps.t) : sprog bool :=
  if SteerRequestDeps.signal deps then ask ReadSignal else ret false.

Definition steer_update (item : SteerQueueItem.t) : SteerUpdate.t :=
  SteerUpdate.mk (SteerQueueItem.steerId item) (truthy (SteerQueueItem.clientSteerId item))
    (is_preempt item) (revision_of item).

(** [publishSteerUpdate(streamId, createdAt, item)] *)
Definition publishSteerUpdate (streamId : string) (createdAt : Z) (item : SteerQueueItem.t)
  : sprog () :=
  await _ <- ask (EmitSteerUpdated streamId createdAt [steer_update item]);
  ret tt.

(** What the checks that need no job find in the body. *)
Module Parsed.
Record t := mk {
  conversationId : string;
  expectedGeneration : option Z;
  text : string;
  clientSteerId : option string;
  files : option (list json);
  wantsPreempt : bool;
  fingerprint : string
}.
End Parsed.

Section handlers.
Variable here : nat.
Variable publishes : bool.
(** [createHash('sha256')] of the JSON text of a value, in base64url. *)
Variable sha256_base64url : json -> string.

(** [steerFingerprint(text, files, preempt)] *)
Definition steerFingerprint (text : string) (files : option (list json)) (preempt : bool) : string :=
  sha256_base64url (JObj [("text", JStr text); ("files", JArr (default [] files));
                          ("preempt", JBool preempt)]).

(** ** Steering *)

Definition EMPTY_TEXT : SteerRequestResult.t := refuse 400 "EMPTY_TEXT".

(** [handleSteerRequestInternal] up to its first call. *)
Definition parseSteerRequest (maxLength : Z) (body : SteerRequestBody.t) (deps : SteerRequestDeps.t)
  : result SteerRequestResult.t Parsed.t :=
  match parseConversationId (SteerRequestBody.conversationId body) with
  | None => Throw (refuse 400 "INVALID_CONVERSATION")
  | Some conversationId =>
  match parseExpectedGenerationCreatedAt (SteerRequestBody.generationCreatedAt body) with
  | None => Throw (refuse 400 "INVALID_GENERATION_IDENTITY")
  | Some expectedGeneration =>
  match as_string (SteerRequestBody.text body) with
  | None => Throw EMPTY_TEXT
  | Some raw =>
  let text := js_trim (remove_nul raw) in
  if bool_decide (utf16_length text = 0) then Throw EMPTY_TEXT
  else if bool_decide (maxLength < Z.of_nat (utf16_length text))%Z
  then Throw (SteerRequestResult.mk 413 [("code", JStr "STEER_TOO_LONG");
                                         ("maxLength", JNum (NInt maxLength))])
  else
  match parseClientSteerId (SteerRequestBody.clientSteerId body) with
  | None => Throw (refuse 400 "INVALID_CLIENT_STEER_ID")
  | Some clientSteerId =>
  if SteerRequestDeps.requireIdempotentDelivery deps && bool_decide (clientSteerId = None)
  then Throw (refuse 400 "CLIENT_STEER_ID_REQUIRED")
  else
  match sanitizeSteerFiles (SteerRequestBody.files body) with
  | Throw e => Throw (refuse 400 (files_error_code e))
  | Ok files =>
      let wantsPreempt := match SteerRequestBody.preempt body with
                          | Some (JBool b) => b
                          | _ => false
                          end in
      Ok (Parsed.mk conversationId expectedGeneration text clientSteerId files wantsPreempt
            (steerFingerprint text files wantsPreempt))
  end end end end end.

(** The answer for a receipt that was there before: whose it is, which generation and which words
    it is for, and whether its files are kept. *)
Definition replaySteer (user : SteerRequestUser.t) (deps : SteerRequestDeps.t) (p : Parsed.t)
    (receipt : SteerReceipt.t) : sprog SteerRequestResult.t :=
  if negb (bool_decide (SteerReceipt.userId receipt = user_id user)) ||
     hasTenantMismatch (SteerReceipt.tenantId receipt) user
  then ret (refuse 403 "UNAUTHORIZED")
  else if negb (match Parsed.expectedGeneration p with
                | Some e => bool_decide (SteerReceipt.generationCreatedAt receipt = e)
                | None => true
                end)
  then ret (refuse 409 "RUN_REPLACED")
  else if negb (bool_decide (SteerReceipt.fingerprint receipt = Parsed.fingerprint p))
  then ret (refuse 409 "STEER_IDEMPOTENCY_CONFLICT")
  else
    await kept <- markSteerFilesUsed (SteerQueueItem.files (SteerReceipt.item receipt))
                    (SteerRequestUser.mk (Some (SteerReceipt.userId receipt))
                       (SteerReceipt.tenantId receipt)) deps;
    ret (if kept : bool then receiptResponse (Parsed.conversationId p) receipt
         else refuse 503 "STEER_FILE_RETENTION_FAILED").

(** Why the job does not take this user's steers, if it does not; before the agent is checked. *)
Definition refuseJob (user : SteerRequestUser.t) (expectedGeneration : option Z)
    (job : JobFacade.t) : option SteerRequestResult.t :=
  if terminal (JobFacade.status job) then Some (refuse 404 "NO_ACTIVE_RUN")
  else if negb (bool_decide (JobFacade.userId job = SteerRequestUser.id user)) ||
          hasTenantMismatch (JobFacade.tenantId job) user
  then Some (refuse 403 "UNAUTHORIZED")
  else if negb (match expectedGeneration with
                | Some e => bool_decide (JobFacade.createdAt job = e)
                | None => true
                end)
  then Some (refuse 409 "RUN_REPLACED")
  else None.

(** The item of the request; its id is drawn by the call that queues it. *)
Definition steer_item (user : SteerRequestUser.t) (p : Parsed.t) (protocol : GenerationProtocolVersion)
    (queuedFiles : option (list json)) (now : Z) : SteerQueueItem.t :=
  SteerQueueItem.mk "" (if bool_decide (protocol = V2) then Parsed.clientSteerId p else None)
    (Parsed.text p) (user_id user) now queuedFiles None None.

Definition steer_receipt (user : SteerRequestUser.t) (p : Parsed.t) (job owner : JobFacade.t)
    (clientSteerId : string) : SteerReceiptInput.t :=
  SteerReceiptInput.mk clientSteerId (Parsed.fingerprint p) (user_id user)
    (truthy (SteerRequestUser.tenantId user)) (truthy (JobFacade.agent_id job))
    (truthy (JobFacade.endpoint job)) (JobFacade.createdAt owner).

(** What the enqueue came to: an answer at once, a rejection code, or the item as it is queued and
    the revision of its interrupt. *)
Inductive admission :=
| Answered (r : SteerRequestResult.t)
| Rejected (depth : Z)
| QueuedAt (position : nat) (item : SteerQueueItem.t) (preemptRevision : option Z).

(** The answer to an outcome of [enqueueWithReceipt]; [steerId] is the id of this very call. *)
Definition read_receipted (user : SteerRequestUser.t) (p : Parsed.t) (steerId : string)
    (o : SteerEnqueueOutcome) : admission :=
  match o with
  | EnqueueRejected depth => Rejected depth
  | EnqueueResult _ _ => Answered (refuse 409 "STEER_IDEMPOTENCY_CONFLICT")
  | EnqueueReceipt r =>
      if negb (bool_decide (SteerReceipt.fingerprint r = Parsed.fingerprint p))
      then Answered (refuse 409 "STEER_IDEMPOTENCY_CONFLICT")
      else if negb (bool_decide (SteerReceipt.userId r = user_id user)) ||
              hasTenantMismatch (SteerReceipt.tenantId r) user
      then Answered (refuse 403 "UNAUTHORIZED")
      else if negb (match Parsed.expectedGeneration p with
                    | Some e => bool_decide (SteerReceipt.generationCreatedAt r = e)
                    | None => true
                    end)
      then Answered (refuse 409 "RUN_REPLACED")
      else if negb (bool_decide (SteerQueueItem.steerId (SteerReceipt.item r) = steerId))
      then Answered (receiptResponse (Parsed.conversationId p) r)
      else QueuedAt (SteerReceipt.position r) (SteerReceipt.item r)
             (SteerQueueItem.preemptRevision (SteerReceipt.item r))
  end.

(** The answer to an outcome of [enqueueVersioned]. *)
Definition read_versioned (o : SteerEnqueueOutcome) : admission :=
  match o with
  | EnqueueRejected depth => Rejected depth
  | EnqueueResult item position => QueuedAt position item (SteerQueueItem.preemptRevision item)
  | EnqueueReceipt r =>
      QueuedAt (SteerReceipt.position r) (SteerReceipt.item r)
        (SteerQueueItem.preemptRevision (SteerReceipt.item r))
  end.

(** The enqueue, fenced to the generation the checks were made against. *)
Definition enqueueSteerRequest (user : SteerRequestUser.t) (p : Parsed.t)
    (protocol : GenerationProtocolVersion) (job owner : JobFacade.t)
    (queuedFiles : option (list json)) : sprog admission :=
  await now <- ask Now;
  let streamId := Parsed.conversationId p in
  let item := steer_item user p protocol queuedFiles now in
  let fence := Some (JobFacade.createdAt owner) in
  match Parsed.clientSteerId p with
  | Some clientSteerId =>
      if bool_decide (protocol = V2) then
        await r <- ask (EnqueueWithReceipt streamId item (steer_receipt user p job owner clientSteerId)
                          (Parsed.wantsPreempt p) fence);
        ret (read_receipted user p (r.1 : string) (r.2 : SteerEnqueueOutcome))
      else
        await r <- ask (EnqueueVersioned streamId item (Parsed.wantsPreempt p) fence);
        ret (read_versioned (r.2 : SteerEnqueueOutcome))
  | None =>
      await r <- ask (EnqueueVersioned streamId item (Parsed.wantsPreempt p) fence);
      ret (read_versioned (r.2 : SteerEnqueueOutcome))
  end.

(** The answer to a rejected enqueue; a queue that does not run is looked at again.  The store rejects
    with three codes; the third is the last case here. *)
Definition rejectedSteer (streamId : string) (owner : JobFacade.t) (depth : Z)
  : sprog SteerRequestResult.t :=
  if bool_decide (depth = STEER_ENQUEUE_QUEUE_FULL) then ret (refuse 429 "STEER_QUEUE_FULL")
  else if bool_decide (depth = STEER_ENQUEUE_RECEIPT_FULL)
  then ret (refuse 429 "STEER_RECEIPT_LIMIT")
  else
    await liveJob <- ask (GetJob streamId);
    ret (match liveJob with
         | Some j =>
             if bool_decide (JobFacade.createdAt j = JobFacade.createdAt owner)
             then if bool_decide (JobFacade.status j = requires_action)
                  then refuse 409 "RUN_PAUSED" else refuse 404 "NO_ACTIVE_RUN"
             else if active (JobFacade.status j) then refuse 409 "RUN_REPLACED"
             else refuse 404 "NO_ACTIVE_RUN"
         | None => refuse 404 "NO_ACTIVE_RUN"
         end).

(** The answer to an accepted steer. *)
Definition queued_response (conversationId : string) (protocol : GenerationProtocolVersion)
    (position : nat) (item : SteerQueueItem.t) (preemptRevision : option Z) : SteerRequestResult.t :=
  SteerRequestResult.mk 202
    ([("status", JStr "queued"); ("steerId", JStr (SteerQueueItem.steerId item));
      ("position", JNum (NInt (Z.of_nat position))); ("conversationId", JStr conversationId);
      ("preempt", JBool (is_preempt item))] ++
     (if bool_decide (protocol = V2) then opt_number "preemptRevision" preemptRevision else [])).

(** What follows an accepted steer: its correlation is published, an interrupt is requested. *)
Definition acceptedSteer (p : Parsed.t) (protocol : GenerationProtocolVersion) (owner : JobFacade.t)
    (position : nat) (item : SteerQueueItem.t) (preemptRevision : option Z)
  : sprog SteerRequestResult.t :=
  let streamId := Parsed.conversationId p in
  let createdAt := JobFacade.createdAt owner in
  await _ <- (if bool_decide (protocol = V2 /\ SteerQueueItem.clientSteerId item <> None)
              then publishSteerUpdate streamId createdAt item else ret tt);
  await _ <- (if is_preempt item
              then requestPreempt here publishes streamId (SteerQueueItem.steerId item) createdAt
                     (if bool_decide (protocol = V2) then default 0%Z preemptRevision else 0%Z)
              else ret false);
  ret (queued_response streamId protocol position item preemptRevision).

(** Whether the installed SDK supports steering ([isSteeringSupported()]). *)
Variable steeringSupported : bool.

(** The checks after the enqueue is decided on: the owner is read again for an interrupt, the files
    are made durable, the request may be aborted in between. *)
Definition admitSteer (user : SteerRequestUser.t) (deps : SteerRequestDeps.t) (p : Parsed.t)
    (protocol : GenerationProtocolVersion) (job : JobFacade.t) (queuedFiles : option (list json))
  : sprog SteerRequestResult.t :=
  let streamId := Parsed.conversationId p in
  await owner <- (if Parsed.wantsPreempt p
                  then await again <- ask (GetJob streamId); ret (default job again)
                  else ret job);
  if negb (bool_decide (JobFacade.createdAt owner = JobFacade.createdAt job))
  then ret (if active (JobFacade.status owner) then refuse 409 "RUN_REPLACED"
            else refuse 404 "NO_ACTIVE_RUN")
  else
    await gone <- isAborted deps;
    if gone : bool then ret (refuse 499 "STEER_ABORTED") else
    await kept <- markSteerFilesUsed queuedFiles user deps;
    if negb kept then ret (refuse 503 "STEER_FILE_RETENTION_FAILED") else
    await gone <- isAborted deps;
    if gone : bool then ret (refuse 499 "STEER_ABORTED") else
    await admitted <- enqueueSteerRequest user p protocol job owner queuedFiles;
    match (admitted : admission) with
    | Answered r => ret r
    | Rejected depth => rejectedSteer streamId owner depth
    | QueuedAt position item preemptRevision =>
        acceptedSteer p protocol owner position item preemptRevision
    end.

(** The files of the request, looked up under the user when the host can. *)
Definition resolveFiles (user : SteerRequestUser.t) (deps : SteerRequestDeps.t)
    (files : option (list json)) : sprog (result SteerRequestResult.t (option (list json))) :=
  match files with
  | Some files =>
      if SteerRequestDeps.getFiles deps then
        await resolved <- resolveSteerFiles files user;
        ret (match (resolved : option (list json)) with
             | Some l => Ok (Some l)
             | None => Throw (refuse 400 "INVALID_FILES")
             end)
      else ret (Ok (Some files))
  | None => ret (Ok None)
  end.

(** From the job on: whose it is, its agent, its state, the protocol. *)
Definition steerJob (user : SteerRequestUser.t) (deps : SteerRequestDeps.t) (p : Parsed.t)
    (protocol : GenerationProtocolVersion) (job : JobFacade.t) : sprog SteerRequestResult.t :=
  match refuseJob user (Parsed.expectedGeneration p) job with
  | Some r => ret r
  | None =>
      await allowed <- (if SteerRequestDeps.checkAgentAccess deps
                        then settled (ask (CheckAgentAccess (JobFacade.agent_id job)
                                             (JobFacade.endpoint job)))
                        else ret true);
      if negb allowed then ret (refuse 403 "FORBIDDEN")
      else if bool_decide (JobFacade.status job = requires_action)
      then ret (refuse 409 "RUN_PAUSED")
      else if negb steeringSupported then ret (refuse 501 "STEER_UNSUPPORTED")
      else if SteerRequestDeps.requireIdempotentDelivery deps && bool_decide (protocol <> V2)
      then ret (refuse 409 "STEER_IDEMPOTENCY_UNAVAILABLE")
      else
        await files <- resolveFiles user deps (Parsed.files p);
        match (files : result SteerRequestResult.t (option (list json))) with
        | Throw r => ret r
        | Ok queuedFiles => admitSteer user deps p protocol job queuedFiles
        end
  end.

(** [handleSteerRequestInternal(user, body, deps, protocol)] *)
Definition handleSteerRequestInternal (maxLength : Z) (user : SteerRequestUser.t)
    (body : SteerRequestBody.t) (deps : SteerRequestDeps.t) (protocol : GenerationProtocolVersion)
  : sprog outcome :=
  match parseSteerRequest maxLength body deps with
  | Throw r => ret (r, protocol)
  | Ok p =>
      let streamId := Parsed.conversationId p in
      await job <- ask (GetJob streamId);
      await receipt <- match Parsed.clientSteerId p with
                       | Some c => if bool_decide (protocol = V2) then ask (ReadReceipt streamId c)
                                   else ret None
                       | None => ret None
                       end;
      match (receipt : option SteerReceipt.t) with
      | Some receipt => await r <- replaySteer user deps p receipt; ret (r, protocol)
      | None =>
          match (job : option JobFacade.t) with
          | None => ret (refuse 404 "NO_ACTIVE_RUN", V1)
          | Some job =>
              let protocol := capProtocolToJob protocol job in
              await r <- steerJob user deps p protocol job; ret (r, protocol)
          end
      end
  end.

(** [handleSteerRequest(user, body, deps)] *)
Definition handleSteerRequest (maxLength : Z) (user : SteerRequestUser.t)
    (body : SteerRequestBody.t) (deps : SteerRequestDeps.t) : sprog SteerRequestResult.t :=
  let marker := SteerRequestDeps.generationProtocolVersion deps in
  await o <- handleSteerRequestInternal maxLength user body deps (protocolFromOptions marker);
  ret (attachProtocol marker (o : outcome)).

(** ** Taking a steer back *)

Definition removal (removed : bool) : SteerRequestResult.t :=
  SteerRequestResult.mk 200 [("removed", JBool removed)].
Definition replayed_removal : SteerRequestResult.t :=
  SteerRequestResult.mk 200 [("removed", JBool true); ("replayed", JBool true)].

(** What [readOwnedReceipt] finds; anything but [NoReceipt] sets [sawReceipt]. *)
Inductive owned_receipt := NoReceipt | ForeignReceipt | OwnedReceipt (r : SteerReceipt.t).

Definition saw (o : owned_receipt) : bool := match o with NoReceipt => false | _ => true end.

Section cancel.
Variable user : SteerRequestUser.t.
Variable streamId steerId : string.
Variable clientSteerId : option string.
Variable expectedGeneration : option Z.

Definition readOwnedReceipt (protocol : GenerationProtocolVersion) : sprog owned_receipt :=
  match clientSteerId with
  | Some c =>
      if bool_decide (protocol = V2) then
        await receipt <- ask (ReadReceipt streamId c);
        ret (match (receipt : option SteerReceipt.t) with
             | None => NoReceipt
             | Some r =>
                 if bool_decide (SteerReceipt.userId r = user_id user) &&
                    negb (hasTenantMismatch (SteerReceipt.tenantId r) user) &&
                    bool_decide (SteerQueueItem.steerId (SteerReceipt.item r) = steerId)
                 then OwnedReceipt r else ForeignReceipt
             end)
      else ret NoReceipt
  | None => ret NoReceipt
  end.

(** The answers that a receipt gives by itself. *)
Definition settled_by (o : owned_receipt) : option SteerRequestResult.t :=
  match o with
  | NoReceipt => None
  | ForeignReceipt => Some (refuse 403 "UNAUTHORIZED")
  | OwnedReceipt r =>
      if negb (match expectedGeneration with
               | Some e => bool_decide (SteerReceipt.generationCreatedAt r = e)
               | None => true
               end)
      then Some (refuse 409 "RUN_REPLACED")
      else if bool_decide (SteerReceipt.state r = cancelled) then Some replayed_removal
      else None
  end.

(** [settleReceipt()], with whether a receipt was seen. *)
Definition settleReceipt (protocol : GenerationProtocolVersion)
  : sprog (option SteerRequestResult.t * bool) :=
  await first <- readOwnedReceipt protocol;
  match settled_by first, first, clientSteerId with
  | Some r, _, _ => ret (Some r, saw first)
  | None, OwnedReceipt receipt, Some c =>
      if bool_decide (SteerReceipt.state receipt = leftover) then
        await discarded <- ask (DiscardSteerLeftover streamId c steerId
                                  (SteerRequestUser.mk (Some (user_id user))
                                     (SteerRequestUser.tenantId user))
                                  (SteerReceipt.generationCreatedAt receipt));
        if discarded : bool then ret (Some replayed_removal, true)
        else
          await raced <- readOwnedReceipt protocol;
          ret (settled_by raced, true)
      else ret (None, true)
  | None, _, _ => ret (None, saw first)
  end.

(** [handleSteerCancelInternal] once its job is known. *)
Definition cancelSteer (protocol : GenerationProtocolVersion) (job : JobFacade.t)
  : sprog SteerRequestResult.t :=
  if negb (bool_decide (JobFacade.userId job = SteerRequestUser.id user)) ||
     hasTenantMismatch (JobFacade.tenantId job) user
  then ret (refuse 403 "UNAUTHORIZED")
  else if negb (match expectedGeneration with
                | Some e => bool_decide (JobFacade.createdAt job = e)
                | None => true
                end)
  then ret (refuse 409 "RUN_REPLACED")
  else
    await removed <- value (ask (CancelSteer streamId steerId (Some (JobFacade.createdAt job))));
    if removed : bool then
      (* the answer waits a second for the publication at most; it is the same either way *)
      await _ <- noteSteersRemoved here publishes streamId [steerId] (Some (JobFacade.createdAt job));
      ret (removal true)
    else
      await settlement <- settleReceipt protocol;
      ret (default (removal false) (fst (settlement : option SteerRequestResult.t * bool))).

Definition cancelInternal (protocol : GenerationProtocolVersion) : sprog outcome :=
  await job <- ask (GetJob streamId);
  await replay <- settleReceipt protocol;
  let '(settlement, sawReceipt) := (replay : option SteerRequestResult.t * bool) in
  match settlement, (job : option JobFacade.t) with
  | Some r, _ => ret (r, protocol)
  | None, Some job =>
      let protocol := capProtocolToJob protocol job in
      await r <- cancelSteer protocol job; ret (r, protocol)
  | None, None =>
      await raced <- settleReceipt protocol;
      let '(settlement, sawAgain) := (raced : option SteerRequestResult.t * bool) in
      ret (match settlement with
           | Some r => (r, protocol)
           | None => (removal false, if sawReceipt || sawAgain then protocol else V1)
           end)
  end.
End cancel.

(** The steer id of a request: a string that is not empty. *)
Definition parseSteerId (value : option json) : option string := truthy (as_string value).

(** The client id of a cancellation, whose characters are not looked at. *)
Definition parseCancelClientId (value : option json) : option (option string) :=
  if nullish value then Some None
  else match as_string value with
       | Some c => if bool_decide (1 <= utf16_length c <= 128) then Some (Some c) else None
       | None => None
       end.

(** [handleSteerCancelInternal(user, body, protocol)] *)
Definition handleSteerCancelInternal (user : SteerRequestUser.t) (body : SteerCancelBody.t)
    (protocol : GenerationProtocolVersion) : sprog outcome :=
  match parseConversationId (SteerCancelBody.conversationId body),
        parseExpectedGenerationCreatedAt (SteerCancelBody.generationCreatedAt body),
        parseSteerId (SteerCancelBody.steerId body),
        parseCancelClientId (SteerCancelBody.clientSteerId body) with
  | None, _, _, _ => ret (refuse 400 "INVALID_CONVERSATION", protocol)
  | _, None, _, _ => ret (refuse 400 "INVALID_GENERATION_IDENTITY", protocol)
  | _, _, None, _ => ret (refuse 400 "INVALID_STEER_ID", protocol)
  | _, _, _, None => ret (refuse 400 "INVALID_CLIENT_STEER_ID", protocol)
  | Some streamId, Some expectedGeneration, Some steerId, Some clientSteerId =>
      cancelInternal user streamId steerId clientSteerId expectedGeneration protocol
  end.

(** [handleSteerCancel(user, body, options)] *)
Definition handleSteerCancel (user : SteerRequestUser.t) (body : SteerCancelBody.t)
    (marker : option (option GenerationProtocolVersion)) : sprog SteerRequestResult.t :=
  await o <- handleSteerCancelInternal user body (protocolFromOptions marker);
  ret (attachProtocol marker (o : outcome)).

(** ** Turning a steer into an interrupt *)

Definition arm_response (armed : bool) (more : list (string * json)) : SteerRequestResult.t :=
  SteerRequestResult.mk 200 (("armed", JBool armed) :: more).

(** [handleSteerArmInternal] once its job is known. *)
Definition armSteerOf (user : SteerRequestUser.t) (streamId steerId : string)
    (expectedGeneration : option Z) (protocol : GenerationProtocolVersion) (job : JobFacade.t)
  : sprog SteerRequestResult.t :=
  if negb (bool_decide (JobFacade.userId job = SteerRequestUser.id user)) ||
     hasTenantMismatch (JobFacade.tenantId job) user
  then ret (refuse 403 "UNAUTHORIZED")
  else if negb (match expectedGeneration with
                | Some e => bool_decide (JobFacade.createdAt job = e)
                | None => true
                end)
  then ret (refuse 409 "RUN_REPLACED")
  else
    let createdAt := JobFacade.createdAt job in
    await outcome <- value (ask (ArmSteerVersioned streamId steerId (Some createdAt)));
    match (outcome : SteerArmResult) with
    | ArmIncapable => ret (arm_response false [("code", JStr "PREEMPT_UNSUPPORTED")])
    | ArmMissing => ret (arm_response false [])
    | Armed preemptRevision armedItem =>
        await _ <- (if bool_decide (protocol = V2)
                    then publishSteerUpdate streamId createdAt armedItem else ret tt);
        await _ <- requestPreempt here publishes streamId steerId createdAt preemptRevision;
        ret (arm_response true
               (if bool_decide (protocol = V2)
                then [("preemptRevision", JNum (NInt preemptRevision))] else []))
    end.

(** [handleSteerArmInternal(user, body, protocol)] *)
Definition handleSteerArmInternal (user : SteerRequestUser.t) (body : SteerCancelBody.t)
    (protocol : GenerationProtocolVersion) : sprog outcome :=
  match parseConversationId (SteerCancelBody.conversationId body),
        parseExpectedGenerationCreatedAt (SteerCancelBody.generationCreatedAt body),
        parseSteerId (SteerCancelBody.steerId body) with
  | None, _, _ => ret (refuse 400 "INVALID_CONVERSATION", protocol)
  | _, None, _ => ret (refuse 400 "INVALID_GENERATION_IDENTITY", protocol)
  | _, _, None => ret (refuse 400 "INVALID_STEER_ID", protocol)
  | Some streamId, Some expectedGeneration, Some steerId =>
      await job <- ask (GetJob streamId);
      match (job : option JobFacade.t) with
      | None => ret (arm_response false [], V1)
      | Some job =>
          let protocol := capProtocolToJob protocol job in
          await r <- armSteerOf user streamId steerId expectedGeneration protocol job;
          ret (r, protocol)
      end
  end.

(** [handleSteerArm(user, body, options)] *)
Definition handleSteerArm (user : SteerRequestUser.t) (body : SteerCancelBody.t)
    (marker : option (option GenerationProtocolVersion)) : sprog SteerRequestResult.t :=
  await o <- handleSteerArmInternal user body (protocolFromOptions marker);
  ret (attachProtocol marker (o : outcome)).
End handlers.
