(* ===== verification/SteerAuthority.v ===== *)
(** * What the routes of steering may do, and what their answers mean

    A route acts on a generation only after it has read the job and found it to be the user's, and
    fences what it does to that generation; it tells the user that a steer is accepted only when the
    store has told it so.  Both are protocols ([Programs.obeys]): the ghost state is what the route
    has been told. *)

From S2P Require Import Prelude Programs JsMap Json StreamTypes StoreSteers Steering Preempts SteerRoutes.

Section authority.
Context (user : SteerRequestUser.t).
(** Whether the host checks the access to agents. *)
Context (checked : bool).

(** The generations that were read and are the user's; whether the access was granted; the ids of
    the steers that the store has confirmed. *)
Record Told := mkTold { own : list (string * Z); granted : bool; confirmed : list string }.
Definition untold : Told := mkTold [] false [].

Definition owned_job (job : JobFacade.t) : bool :=
  bool_decide (JobFacade.userId job = SteerRequestUser.id user) &&
  negb (hasTenantMismatch (JobFacade.tenantId job) user).

Definition confirm (o : SteerEnqueueOutcome) : list string :=
  match o with
  | EnqueueResult p _ => [SteerQueueItem.steerId p]
  | EnqueueReceipt r => [SteerQueueItem.steerId (SteerReceipt.item r)]
  | EnqueueRejected _ => []
  end.

Definition told {R} (c : call R) : R -> Told -> Told :=
  match c in call R return R -> Told -> Told with
  | GetJob k => fun r a =>
      match r with
      | Some job =>
          if owned_job job then {| a with own := (k, JobFacade.createdAt job) :: own a |} else a
      | None => a
      end
  | CheckAgentAccess _ _ => fun r a =>
      match r with Ok true => {| a with granted := true |} | _ => a end
  | EnqueueVersioned _ _ _ _ | EnqueueWithReceipt _ _ _ _ _ => fun r a =>
      {| a with confirmed := confirm r.2 ++ confirmed a |}
  | ReadReceipt _ _ => fun r a =>
      match r with
      | Some x => {| a with confirmed := SteerQueueItem.steerId (SteerReceipt.item x) :: confirmed a |}
      | None => a
      end
  | _ => fun _ a => a
  end.

(** The fence is a generation of the user's. *)
Definition fenced (k : string) (e : option Z) (a : Told) : Prop :=
  exists c, e = Some c /\ (k, c) ∈ own a.

Definition entitled {R} (c : call R) (a : Told) : Prop :=
  match c with
  (* queueing: under the user's name, with access to the agent *)
  | EnqueueVersioned k item _ e =>
      fenced k e a /\ SteerQueueItem.userId item = user_id user /\ (checked = true -> granted a = true)
  | EnqueueWithReceipt k item input _ e =>
      fenced k e a /\ SteerQueueItem.userId item = user_id user /\ (checked = true -> granted a = true) /\
      SteerReceiptInput.userId input = user_id user /\
      e = Some (SteerReceiptInput.generationCreatedAt input)
  | CancelSteer k _ e | ArmSteerVersioned k _ e => fenced k e a
  | EmitSteerUpdated k c _ => fenced k (Some c) a
  | Sync _ (ArmOwned k _ c _) => fenced k (Some c) a
  | Sync _ (NoteRemoved k _ e) => fenced k e a
  (* messages of the channel go to a stream of the user's *)
  | Publish k _ => exists c, (k, c) ∈ own a
  (* what needs no job is done under the user's name *)
  | DiscardSteerLeftover _ _ _ owner _ =>
      user_id owner = user_id user /\ SteerRequestUser.tenantId owner = SteerRequestUser.tenantId user
  | UpdateFilesUsage _ owner => user_id owner = user_id user
  | GetFiles _ u _ => u = user_id user
  (* reads *)
  | GetJob _ | ReadReceipt _ _ | CheckAgentAccess _ _ | ReadSignal | Now => True
  | _ => False
  end.

#[local] Abbreviation obeys := (obeys (@entitled) (@told)).
#[local] Abbreviation plain := (plain (@entitled) (@told)).

(** What is known does not shrink. *)
Definition grows (a a' : Told) : Prop :=
  own a ⊆ own a' /\ (granted a = true -> granted a' = true) /\ confirmed a ⊆ confirmed a'.

#[local] Instance grows_preorder : PreOrder grows.
Proof.
  split; [by intros a|]. intros a b c (? & ? & ?) (? & ? & ?). split_and!; [by etrans | auto | by etrans].
Qed.

Lemma fenced_grows k e a a' : grows a a' -> fenced k e a -> fenced k e a'.
Proof. intros (Ho & _) (c & ? & ?). exists c. auto. Qed.

Lemma told_grows {R} (c : call R) r a : grows a (told c r a).
Proof.
  destruct c; cbn; try reflexivity; repeat case_match; try reflexivity;
    split_and!; cbn; try done; try (intros x Hx; by right); intros x Hx; apply elem_of_app; by right.
Qed.

(** ** Helpers that neither change nor learn anything of use *)

Definition learns {A} (a : Told) : result failure A -> Told -> Prop := fun _ a' => grows a a'.

Lemma learns_after {A B} (Q : result failure B -> Told -> Prop) a (p : sprog A) (f : A -> sprog B) :
  obeys (learns a) a p -> (forall x a', grows a a' -> obeys Q a' (f x)) ->
  (forall e a', grows a a' -> Q (Throw e) a') -> obeys Q a (pbind p f).
Proof. intros Hp Hf He. eapply obeys_bind; [exact Hp | exact Hf | exact He]. Qed.

Lemma entitled_grows {R} (c : call R) a a' : grows a a' -> entitled c a -> entitled c a'.
Proof.
  intros Hg. pose proof Hg as (Ho & Hgr & _).
  assert (Hc : checked = true -> (checked = true -> granted a = true) -> granted a' = true) by auto.
  destruct c; cbn; try done; try (match goal with s : sync _ |- _ => destruct s; cbn; try done end);
    try apply (fenced_grows _ _ _ _ Hg).
  - intros (c & Hc'). exists c. auto.
  - intros (H & ? & ?). split; [by eapply fenced_grows | auto].
  - intros (H & ? & ? & ? & ?). split; [by eapply fenced_grows | auto].
Qed.

(** A program all of whose calls are allowed already. *)
Lemma learns_calls {A} a (p : sprog A) :
  calls (fun R (c : call R) => entitled c a) p -> obeys (learns a) a p.
Proof.
  intros Hp. enough (H : forall a', grows a a' -> obeys (learns a) a' p) by by apply H.
  induction p as [r|R c p IH]; intros a' Hg; [done|]. destruct Hp as [Hc Hp].
  apply obeys_step; [by eapply entitled_grows|]. intros r. apply IH; [done|]. etrans; [exact Hg | apply told_grows].
Qed.

#[local] Ltac walk1 :=
  first [ exact I | done | apply calls_bind; [|intros ?] | split; [cbn; eauto | intros ?] | case_match ].
#[local] Ltac walk := repeat walk1.

(** The answer says that the steer is accepted only if the store has confirmed it. *)
Definition accepts (a : Told) (res : SteerRequestResult.t) : Prop :=
  SteerRequestResult.status res = 202%Z ->
  exists id, mget (SteerRequestResult.body res) "steerId" = Some (JStr id) /\ id ∈ confirmed a.
Definition sound : result failure SteerRequestResult.t -> Told -> Prop := fun r a =>
  forall res, r = Ok res -> accepts a res.
Definition sound_outcome : result failure outcome -> Told -> Prop := fun r a =>
  forall o, r = Ok o -> accepts a o.1.

Lemma sound_refuse status code a : status <> 202%Z -> sound (Ok (refuse status code)) a.
Proof. intros H res [= <-] Hs. done. Qed.
#[local] Hint Extern 1 (sound (Ok (refuse _ _)) _) => (apply sound_refuse; lia) : core.

Lemma sound_receipt k r a :
  SteerQueueItem.steerId (SteerReceipt.item r) ∈ confirmed a -> sound (Ok (receiptResponse k r)) a.
Proof. intros Hc res [= <-] _. eexists. split; [reflexivity | exact Hc]. Qed.

(** ** Queueing *)

Lemma calls_kept files owner deps a :
  user_id owner = user_id user -> calls (fun R (c : call R) => entitled c a) (markSteerFilesUsed files owner deps).
Proof. intros H. unfold markSteerFilesUsed. cbv zeta. walk. Qed.

Lemma replay_sound deps p r a :
  SteerQueueItem.steerId (SteerReceipt.item r) ∈ confirmed a -> obeys sound a (replaySteer user deps p r).
Proof.
  intros Hc. unfold replaySteer.
  destruct (bool_decide (SteerReceipt.userId r = user_id user)) eqn:Hu; cbn [negb orb]; [|by apply obeys_ret; auto].
  apply bool_decide_eq_true in Hu. destruct (hasTenantMismatch _ _); [by apply obeys_ret; auto|].
  destruct (negb _); [by apply obeys_ret; auto|]. destruct (negb _); [by apply obeys_ret; auto|].
  eapply learns_after; [apply learns_calls, calls_kept; exact Hu | |by intros e a' _ res].
  intros kept a' (_ & _ & Hg). apply obeys_ret. destruct kept; [|auto]. by apply sound_receipt, Hg.
Qed.

(** What an admission is worth. *)
Definition admission_sound (a : Told) : result failure admission -> Told -> Prop := fun r a' =>
  grows a a' /\
  match r with
  | Ok (Answered res) => accepts a' res
  | Ok (QueuedAt _ item _) => SteerQueueItem.steerId item ∈ confirmed a'
  | _ => True
  end.

Lemma versioned_sound a k item wants e id o :
  admission_sound a (Ok (read_versioned o)) (told (EnqueueVersioned k item wants e) (id, o) a).
Proof.
  split; [apply told_grows|]. cbn [told snd confirmed].
  destruct o; cbn [read_versioned confirm]; try done; by left.
Qed.

Lemma receipted_sound a p k item input wants e id o :
  admission_sound a (Ok (read_receipted user p id o)) (told (EnqueueWithReceipt k item input wants e) (id, o) a).
Proof.
  split; [apply told_grows|]. cbn [told snd confirmed]. unfold read_receipted.
  destruct o as [r|i n|depth]; [| by intros ? | done]. cbn [confirm].
  destruct (negb _); [by intros ?|]. destruct (_ || _); [by intros ?|]. destruct (negb _); [by intros ?|].
  destruct (negb _); [|by left]. intros _. eexists. split; [reflexivity|]. by left.
Qed.

Lemma enqueue_sound p protocol job owner files a :
  (Parsed.conversationId p, JobFacade.createdAt owner) ∈ own a -> (checked = true -> granted a = true) ->
  obeys (admission_sound a) a (enqueueSteerRequest user p protocol job owner files).
Proof.
  intros Ho Hc. unfold enqueueSteerRequest. apply obeys_ask; [done|]. intros now. cbv zeta. cbn [told].
  assert (Hf : fenced (Parsed.conversationId p) (Some (JobFacade.createdAt owner)) a) by (eexists; eauto).
  destruct (Parsed.clientSteerId p) as [c|]; [destruct (bool_decide _)|].
  - apply obeys_ask; [by split_and!|]. intros [id o]. apply receipted_sound.
  - apply obeys_ask; [by split_and!|]. intros [id o]. apply versioned_sound.
  - apply obeys_ask; [by split_and!|]. intros [id o]. apply versioned_sound.
Qed.

Lemma accepted_sound here publishes p protocol owner position item rev a :
  (Parsed.conversationId p, JobFacade.createdAt owner) ∈ own a -> SteerQueueItem.steerId item ∈ confirmed a ->
  obeys sound a (acceptedSteer here publishes p protocol owner position item rev).
Proof.
  intros Ho Hc. unfold acceptedSteer. cbv zeta.
  assert (Hf : fenced (Parsed.conversationId p) (Some (JobFacade.createdAt owner)) a) by (eexists; eauto).
  eapply learns_after; [apply learns_calls; unfold publishSteerUpdate; walk | | by intros e a' _ res].
  intros _ a1 Hg1. eapply learns_after; [apply learns_calls | | by intros e a' _ res].
  { destruct (is_preempt item); [|done]. unfold requestPreempt.
    assert (Hf1 : fenced (Parsed.conversationId p) (Some (JobFacade.createdAt owner)) a1) by by eapply fenced_grows.
    assert (Hp : exists c, (Parsed.conversationId p, c) ∈ own a1) by (destruct Hf1 as (c & _ & ?); eauto).
    walk. }
  intros _ a2 Hg2. apply obeys_ret. intros res [= <-] _. eexists. split; [reflexivity|].
  destruct Hg1 as (_ & _ & Hg1), Hg2 as (_ & _ & Hg2). auto.
Qed.

Lemma admit_sound here publishes deps p protocol job files a :
  (Parsed.conversationId p, JobFacade.createdAt job) ∈ own a -> (checked = true -> granted a = true) ->
  obeys sound a (admitSteer here publishes user deps p protocol job files).
Proof.
  intros Ho Hc. unfold admitSteer. cbv zeta.
  assert (Hstay : forall a', grows a a' -> (Parsed.conversationId p, JobFacade.createdAt job) ∈ own a' /\
    (checked = true -> granted a' = true)) by (intros a' (H1 & H2 & _); auto).
  eapply learns_after; [apply learns_calls; walk | | by intros e a' _ res]. intros owner a1 Hg1.
  destruct (bool_decide (JobFacade.createdAt owner = JobFacade.createdAt job)) eqn:He; cbn [negb].
  2: { apply obeys_ret. destruct (active _); auto. }
  apply bool_decide_eq_true in He.
  eapply learns_after; [apply learns_calls; unfold isAborted; walk | | by intros e a' _ res]. intros gone a2 Hg2.
  destruct gone; [by apply obeys_ret; auto|].
  eapply learns_after; [apply learns_calls, calls_kept; done | | by intros e a' _ res]. intros kept a3 Hg3.
  destruct kept; cbn [negb]; [|by apply obeys_ret; auto].
  eapply learns_after; [apply learns_calls; unfold isAborted; walk | | by intros e a' _ res]. intros gone a4 Hg4.
  destruct gone; [by apply obeys_ret; auto|].
  destruct (Hstay a4 ltac:(by do 3 (etrans; [eassumption|]))) as [Ho4 Hc4].
  eapply obeys_bind; [apply enqueue_sound; [by rewrite He | done] | | by intros e a' _ res].
  intros adm a5 [Hg5 Hadm]. destruct adm as [r|depth|position item rev].
  - apply obeys_ret. by intros res [= <-].
  - unfold rejectedSteer. destruct (bool_decide _); [by apply obeys_ret; auto|].
    destruct (bool_decide _); [by apply obeys_ret; auto|]. apply obeys_ask; [done|]. intros live. apply obeys_ret.
    repeat case_match; auto.
  - apply accepted_sound; [|done]. rewrite He. destruct Hg5 as (H5 & _). by apply H5.
Qed.

Lemma steerJob_sound here publishes supported deps p protocol job a :
  SteerRequestDeps.checkAgentAccess deps = checked ->
  (Parsed.conversationId p, JobFacade.createdAt job) ∈ own a \/ owned_job job = false ->
  obeys sound a (steerJob here publishes supported user deps p protocol job).
Proof.
  intros Hck Ho. unfold steerJob, refuseJob.
  destruct (terminal _); [by apply obeys_ret; auto|]. unfold owned_job in Ho.
  destruct (bool_decide (JobFacade.userId job = SteerRequestUser.id user)); cbn [negb orb andb] in *;
    [|by apply obeys_ret; auto].
  destruct (hasTenantMismatch (JobFacade.tenantId job) user); cbn [negb] in Ho; [by apply obeys_ret; auto|].
  destruct Ho as [Ho|]; [|done]. destruct (negb _); [by apply obeys_ret; auto|].
  assert (Hrest : forall allowed a1, (Parsed.conversationId p, JobFacade.createdAt job) ∈ own a1 ->
    (allowed = true -> checked = true -> granted a1 = true) ->
    obeys sound a1 (if negb allowed then ret (refuse 403 "FORBIDDEN")
      else if bool_decide (JobFacade.status job = requires_action) then ret (refuse 409 "RUN_PAUSED")
      else if negb supported then ret (refuse 501 "STEER_UNSUPPORTED")
      else if SteerRequestDeps.requireIdempotentDelivery deps && bool_decide (protocol <> V2)
      then ret (refuse 409 "STEER_IDEMPOTENCY_UNAVAILABLE")
      else await files <- resolveFiles user deps (Parsed.files p);
           match (files : result SteerRequestResult.t (option (list json))) with
           | Throw r => ret r
           | Ok queuedFiles => admitSteer here publishes user deps p protocol job queuedFiles
           end)).
  { intros allowed a1 Ho1 Hg. destruct allowed; cbn [negb]; [|by apply obeys_ret; auto].
    destruct (bool_decide _); [by apply obeys_ret; auto|]. destruct supported; cbn [negb]; [|by apply obeys_ret; auto].
    destruct (_ && _); [by apply obeys_ret; auto|].
    assert (Hfiles : obeys (fun r a' => grows a1 a' /\ match r with Ok (Throw res) => accepts a' res | _ => True end) a1
      (resolveFiles user deps (Parsed.files p))).
    { unfold resolveFiles, resolveSteerFiles, settled. destruct (Parsed.files p) as [l|]; [|done].
      destruct (SteerRequestDeps.getFiles deps); [|done]. unfold buildOwnerFilter.
      destruct (truthy (SteerRequestUser.id user)) as [u|] eqn:Hu; [|split; [done | by intros ?]].
      destruct (collectFileIds l) eqn:Hl; [split; [done | by intros ?]|]. apply obeys_step.
      - cbn. unfold user_id. unfold truthy in Hu. by repeat case_match; simplify_eq.
      - intros [docs|e]; [|done]. cbn [pbind ret fail]. apply obeys_ret. split; [done|].
        destruct (mapM _ _); [done | by intros ?]. }
    eapply obeys_bind; [exact Hfiles | | by intros e a' _ res].
    intros files a2 [Hg2 Hf]. destruct files as [files|res].
    - destruct Hg2 as (H2 & H3 & _). apply admit_sound; auto.
    - apply obeys_ret. by intros res' [= <-]. }
  destruct (SteerRequestDeps.checkAgentAccess deps) eqn:Hd.
  - unfold settled. apply obeys_step; [done|]. intros [b|e]; cbn [pbind ret fail]; [|by intros res].
    apply (Hrest b); [by destruct b | by intros -> _].
  - apply (Hrest true); [done|]. congruence.
Qed.

Lemma attach_sound marker o a : accepts a o.1 -> sound (Ok (attachProtocol marker o)) a.
Proof.
  intros H res [= <-]. unfold attachProtocol. destruct marker as [m|]; [|exact H].
  intros Hs. destruct (H Hs) as (id & Hid & Hc). exists id. split; [|done]. cbn. by rewrite mget_mset_ne.
Qed.

Lemma request_sound here publishes sha supported maxLength body deps :
  SteerRequestDeps.checkAgentAccess deps = checked ->
  obeys sound untold (handleSteerRequest here publishes sha supported maxLength user body deps).
Proof.
  intros Hck. unfold handleSteerRequest. cbv zeta.
  eapply (obeys_bind _ _ sound_outcome); [| |by intros e a' _ res].
  2: { intros o a Ho. apply obeys_ret, attach_sound. by apply Ho. }
  unfold handleSteerRequestInternal. destruct (parseSteerRequest _ _ _ _) as [p|res] eqn:Hp.
  2: { apply obeys_ret. intros o [= <-] Hs. exfalso. revert Hp. cbn in Hs. unfold parseSteerRequest.
       repeat (case_match; try (by intros [= <-])); intros [= <-]; done. }
  apply obeys_ask; [done|]. intros job. set (a1 := told (GetJob _) job untold).
  assert (Hown : forall j, job = Some j -> (Parsed.conversationId p, JobFacade.createdAt j) ∈ own a1 \/ owned_job j = false).
  { intros j ->. subst a1. cbn. destruct (owned_job j); [left; by left | by right]. }
  clearbody a1.
  assert (Hrec : obeys (fun r a' => grows a1 a' /\ match r with
      | Ok (Some x) => SteerQueueItem.steerId (SteerReceipt.item x) ∈ confirmed a' | _ => True end) a1
    (match Parsed.clientSteerId p with
     | Some c => if bool_decide (protocolFromOptions (SteerRequestDeps.generationProtocolVersion deps) = V2)
                 then ask (ReadReceipt (Parsed.conversationId p) c) else ret None
     | None => ret None
     end : sprog (option SteerReceipt.t))).
  { destruct (Parsed.clientSteerId p); [|done]. destruct (bool_decide _); [|done]. apply obeys_step; [done|].
    intros r. apply obeys_ret. split; [apply (told_grows (ReadReceipt _ _))|]. destruct r; [|done]. cbn. by left. }
  eapply obeys_bind; [exact Hrec | | by intros e a' _ o].
  intros receipt a2 [Hg Hr]. destruct receipt as [receipt|].
  - eapply obeys_bind; [by apply replay_sound | | by intros e a' _ o].
    intros r a3 H3. apply obeys_ret. intros o [= <-]. by apply H3.
  - destruct job as [job|]; [|apply obeys_ret; by intros o [= <-]]. cbv zeta.
    eapply obeys_bind; [apply steerJob_sound; [done|] | | by intros e a' _ o].
    + destruct (Hown job eq_refl) as [H|H]; [left | by right]. destruct Hg as (Ho & _). by apply Ho.
    + intros r a3 H3. apply obeys_ret. intros o [= <-]. by apply H3.
Qed.

(** ** Taking back and escalating *)

Definition anything {A} : result failure A -> Told -> Prop := fun _ _ => True.

Lemma anything_bind {A B} a (p : sprog A) (f : A -> sprog B) :
  obeys (learns a) a p -> (forall x a', grows a a' -> obeys anything a' (f x)) ->
  obeys anything a (pbind p f).
Proof. intros Hp Hf. by eapply learns_after. Qed.

Lemma calls_settle k id c e protocol a :
  calls (fun R (c : call R) => entitled c a) (settleReceipt user k id c e protocol).
Proof. unfold settleReceipt, readOwnedReceipt. walk. Qed.

(** What remains once the job is the user's. *)
Lemma cancel_calls here publishes k id c e protocol job a :
  (k, JobFacade.createdAt job) ∈ own a \/ owned_job job = false ->
  calls (fun R (c : call R) => entitled c a) (cancelSteer here publishes user k id c e protocol job).
Proof.
  intros Ho. unfold cancelSteer, owned_job in *.
  destruct (bool_decide (JobFacade.userId job = _)); cbn [negb orb andb] in *; [|done].
  destruct (hasTenantMismatch _ _); cbn [negb] in *; [done|]. destruct Ho as [Ho|]; [|done].
  destruct (negb _); [done|].
  assert (Hf : fenced k (Some (JobFacade.createdAt job)) a) by (eexists; eauto).
  assert (Hp : exists c, (k, c) ∈ own a) by eauto.
  unfold value, noteSteersRemoved. repeat first [apply calls_settle | walk1].
Qed.

Lemma arm_calls here publishes k id e protocol job a :
  (k, JobFacade.createdAt job) ∈ own a \/ owned_job job = false ->
  calls (fun R (c : call R) => entitled c a) (armSteerOf here publishes user k id e protocol job).
Proof.
  intros Ho. unfold armSteerOf, owned_job in *.
  destruct (bool_decide (JobFacade.userId job = _)); cbn [negb orb andb] in *; [|done].
  destruct (hasTenantMismatch _ _); cbn [negb] in *; [done|]. destruct Ho as [Ho|]; [|done].
  destruct (negb _); [done|].
  assert (Hf : fenced k (Some (JobFacade.createdAt job)) a) by (eexists; eauto).
  assert (Hp : exists c, (k, c) ∈ own a) by eauto.
  unfold value, publishSteerUpdate, requestPreempt. walk.
Qed.

Lemma job_read k job a : job = None \/ exists j, job = Some j /\
  ((k, JobFacade.createdAt j) ∈ own (told (GetJob k) job a) \/ owned_job j = false).
Proof.
  destruct job as [j|]; [right; exists j; split; [done|] | by left]. cbn.
  destruct (owned_job j); [left; by left | by right].
Qed.

Lemma cancel_entitled here publishes body marker :
  obeys anything untold (handleSteerCancel here publishes user body marker).
Proof.
  unfold handleSteerCancel. eapply (obeys_bind _ _ anything); [|by intros o a|by intros e a].
  unfold handleSteerCancelInternal. repeat (case_match; try done). unfold cancelInternal.
  apply obeys_ask; [done|]. intros job. pose proof (job_read s job untold) as Hj.
  match goal with |- context [told (GetJob ?x) job untold] => set (a1 := told (GetJob x) job untold) in * end.
  clearbody a1. apply anything_bind; [apply learns_calls, calls_settle|]. intros [settlement saw] a2 Hg.
  destruct settlement; [done|]. destruct Hj as [->|(j & -> & Hj)].
  - apply anything_bind; [apply learns_calls, calls_settle|]. by intros [? ?].
  - apply anything_bind; [apply learns_calls, cancel_calls | done].
    destruct Hj as [Hj|Hj]; [left | by right]. destruct Hg as (Ho & _). by apply Ho.
Qed.

Lemma arm_entitled here publishes body marker :
  obeys anything untold (handleSteerArm here publishes user body marker).
Proof.
  unfold handleSteerArm. eapply (obeys_bind _ _ anything); [|by intros o a|by intros e a].
  unfold handleSteerArmInternal. repeat (case_match; try done).
  apply obeys_ask; [done|]. intros job. pose proof (job_read s job untold) as Hj.
  destruct Hj as [->|(j & -> & Hj)]; [done|].
  apply anything_bind; [by apply learns_calls, arm_calls | done].
Qed.
End authority.

(** C7. The routes act on the user's own generations.  Whatever their calls answer: a steer is
    queued, taken back or turned into an interrupt, and a removal or an interrupt is published, only
    on a stream whose job the route has read and found to be this user's and tenant's, and every
    such operation of the store is fenced to the generation that was read; queued items carry the
    user's id, and where the host checks the access to the agent it was granted before; what is done
    without a job (a leftover discarded, files kept or looked up) is done under the user's id.  And
    a steering request is answered with 202 only for a steer id that the store has confirmed. *)
Theorem routes_act_on_own_generations here publishes sha supported maxLength user deps request cancel
    marker arm marker' :
  obeys (@entitled user (SteerRequestDeps.checkAgentAccess deps)) (@told user) sound untold
    (handleSteerRequest here publishes sha supported maxLength user request deps) /\
  obeys (@entitled user false) (@told user) anything untold
    (handleSteerCancel here publishes user cancel marker) /\
  obeys (@entitled user false) (@told user) anything untold
    (handleSteerArm here publishes user arm marker').
Proof.
  split_and!; [by apply request_sound | apply cancel_entitled | apply arm_entitled].
Qed.
