(* ===== verification/PreemptRuns.v ===== *)
(** * No interrupt without its steer

    Any number of requests, cancellations, escalations, boundaries, handovers and channel messages
    run on any number of replicas over one store.  An interrupt that is armed on the replica that
    runs the generation belongs to a steer that is still queued for it, or to one that somebody has
    taken out and is about to report: when nobody has anything left to report, the run is not
    interrupted for a steer that is gone.

    Each thread carries a ghost state ([Programs.protocols]): the steers that it has taken out of
    the queue and neither put back nor reported, and the ids that it has come to know. *)

From S2P Require Import Prelude Programs JsMap Json StreamTypes SteerRecovery StoreState StoreSteers StoreParked.
From S2P Require Import StoreJobs StoreCleanup StoreFrame StoreRun StoreEpochs StoreQueue StoreSteering.
From S2P Require Import Steering Preempts SteerRoutes.

(** ** The world: one store, the managers of the replicas, the channel *)

Record World := mkWorld {
  store : Store;
  managers : nat -> Manager.t;
  (** the messages sent so far, with their streams; any of them may be lost *)
  wire : list (string * PreemptMessage.t);
  (** which of them a listener has heard: replica, runtime, message *)
  heard : list (nat * nat * (string * PreemptMessage.t));
  (** the ids of the steers queued so far, with their streams *)
  minted : list (string * string)
}.

Definition with_store (s : Store) (w : World) : World := {| w with store := s |}.
Definition set_manager (n : nat) (m : Manager.t) (w : World) : World :=
  {| w with managers := fun x => if decide (x = n) then m else managers w x |}.

(** An id drawn at random: different from those drawn before and from those of the receipts. *)
Definition fresh_id (w : World) (k id : string) : Prop :=
  id ∉ (minted w).*2 /\
  forall c x, receipt_of (store w) k c = Some x ->
    SteerQueueItem.steerId (SteerReceipt.item (ReceiptEntry.receipt x)) <> id.

Definition with_id (id : string) (item : SteerQueueItem.t) : SteerQueueItem.t :=
  {| item with SteerQueueItem.steerId := id |}.

(** Record the id of a steer that was queued. *)
Definition mint (k id : string) (o : SteerEnqueueOutcome) (w : World) : World :=
  match enqueued id o with
  | Some _ => {| w with minted := (k, id) :: minted w |}
  | None => w
  end.

(** A call, its answer and the world after it.  Store operations read a clock; what a publication
    answers says nothing about whether anybody hears the message; calls to code that is not part of
    the model answer anything. *)
Definition exec {R} (c : call R) (w : World) : R -> World -> Prop :=
  match c in call R return R -> World -> Prop with
  | Sync n c => fun r w' =>
      let '(r0, m) := run_sync c (managers w n) in r = r0 /\ w' = set_manager n m w
  | Deliver n k i => fun r w' =>
      exists msg, (k, msg) ∈ wire w /\
        let '(arms, m) := onPreempt k i msg (managers w n) in
        r = (arms, msg) /\
        w' = {| (set_manager n m w) with heard := (n, i, (k, msg)) :: heard w |}
  | Publish k msg => fun _ w' => w' = {| w with wire := wire w ++ [(k, msg)] |}
  | PeekSteers k e => fun r w' => r = peekSteers (store w) k e /\ w' = w
  | DrainSteers k e => fun r w' =>
      exists now s, drainSteers k e now (store w) = (r, s) /\ w' = with_store s w
  | RestoreClaimedSteers k items e => fun r w' =>
      exists b s, restoreClaimedSteers k items e (store w) = (b, s) /\ r = Ok b /\ w' = with_store s w
  | DowngradeSteers k e => fun r w' =>
      exists s, downgradeSteerPreempts k e (store w) = (r, s) /\ w' = with_store s w
  | CancelSteer k id e => fun r w' =>
      exists s, removeSteer k id e (store w) = (r, s) /\ w' = with_store s w
  | ArmSteerVersioned k id e => fun r w' =>
      exists s, armSteerVersioned k id e (store w) = (r, s) /\ w' = with_store s w
  | EnqueueVersioned k item wants e => fun r w' =>
      fresh_id w k r.1 /\ exists s,
        enqueueSteerVersioned k (with_id r.1 item) wants e (store w) = (r.2, s) /\
        w' = mint k r.1 r.2 (with_store s w)
  | EnqueueWithReceipt k item input wants e => fun r w' =>
      fresh_id w k r.1 /\ exists now s,
        enqueueSteerWithReceipt k (with_id r.1 item) input wants e now (store w) = (r.2, s) /\
        w' = mint k r.1 r.2 (with_store s w)
  | ReadReceipt k c => fun r w' =>
      exists now s, getSteerReceipt k c now (store w) = (r, s) /\ w' = with_store s w
  | DiscardSteerLeftover k c id owner e => fun r w' =>
      exists now s, discardSteerLeftover k c id (user_id owner) (SteerRequestUser.tenantId owner)
                      (Some e) now (store w) = (r, s) /\ w' = with_store s w
  | _ => fun _ w' => w' = w
  end.

(** ** The generation and the runtime that are watched *)

Section watch.
Context (k : string) (g : Z) (n0 i0 : nat).

(** The runtime [i0] is the one that replica [n0] runs the generation with. *)
Definition watches (o : option Runtime.t) (r : Runtime.t) : Prop :=
  o = Some r /\ Runtime.identity r = i0 /\ Runtime.createdAt r = g /\ Runtime.aborted r = false.

(** What the managers do to their runtimes besides: a manager does not touch the interrupts of a
    runtime that it keeps, unless it aborts it or the generation is over; it does not bring back a
    runtime that it has dropped, and a new one has no interrupts. *)
Definition keeps_runtime (w : World) (n : nat) (m : Manager.t) : Prop :=
  forall r, runtime_of m k = Some r ->
    Runtime.preempt r = None /\
      (n = n0 -> Runtime.identity r = i0 -> open k g (store w) -> Runtime.aborted r = true) \/
    exists r0, runtime_of (managers w n) k = Some r0 /\
      Runtime.identity r = Runtime.identity r0 /\ Runtime.createdAt r = Runtime.createdAt r0 /\
      Runtime.preempt r = Runtime.preempt r0 /\ (Runtime.aborted r0 = true -> Runtime.aborted r = true).

Definition receipt_safe (s : Store) : bool := usesReceiptSafeProtocol (mget (jobs s) k).

(** Everything else: operations of the store that are not on steers, by callers that keep the
    discipline of [StoreRun] and do not move the job to the receipt-safe protocol; the managers. *)
Inductive others (w : World) : World -> Prop :=
| others_store o now :
    op_ok o = true -> steer_op o = false ->
    (open k g (run_op o now (store w)) ->
     receipt_safe (run_op o now (store w)) = true -> receipt_safe (store w) = true) ->
    others w (with_store (run_op o now (store w)) w)
| others_manager n m : keeps_runtime w n m -> others w (set_manager n m w).

(** ** Ghost states *)

(** The ids that a thread has taken out of the queue and neither put back nor reported; the ids
    that it knows. *)
Record Ghost := mkGhost { owes : list string; seen : list string }.

Definition idle : Ghost := mkGhost [] [].
Definition sees (ids : list string) (a : Ghost) : Ghost := mkGhost (owes a) (seen a ++ ids).
Definition takes (ids : list string) (a : Ghost) : Ghost :=
  mkGhost (owes a ++ ids) (seen a ++ ids).
Definition pays (ids : list string) (a : Ghost) : Ghost :=
  mkGhost (filter (fun id => id ∉ ids) (owes a)) (seen a).

(** The stream and the fence of a call are those of the generation. *)
Definition ours (k' : string) (e : option Z) : bool := bool_decide (k' = k /\ e = Some g).

(** [NoteRemoved] answers with the fence that it is given. *)
Definition answers (e r : option Z) : bool :=
  match e with Some _ => bool_decide (r = e) | None => true end.

(** What a section on replica [n] changes in the ghost state, and what it needs. *)
Definition advance_sync {R} (n : nat) (c : sync R) : R -> Ghost -> Ghost :=
  match c in sync R return R -> Ghost -> Ghost with
  | NoteRemoved k' ids e => fun r a =>
      if answers e r then if ours k' e && bool_decide (n = n0) then pays ids a else a
      else pays ids (sees ids a)
  | GetArmedPreemptIds k' e => fun r a =>
      if ours k' e && bool_decide (n = n0) then sees r a else a
  | SnapshotArmed k' e => fun r a =>
      if ours k' (Some e) && bool_decide (n = n0) then sees r.2 a else a
  | _ => fun _ a => a
  end.

Definition allowed_sync {R} (n : nat) (c : sync R) (a : Ghost) : Prop :=
  match c with
  | ArmOwned k' id e _ => ours k' (Some e) = true -> id ∈ seen a
  | NoteRemoved k' ids e | ClearPreemptRequests k' ids e =>
      (k' = k -> e <> None) /\ (ours k' e = true -> ids ⊆ seen a)
  | DropOrphans k' _ ids _ _ => k' = k -> n = n0 -> ids ⊆ seen a
  | Validated k' _ msg _ =>
      ours k' (Some (PreemptMessage.createdAt msg)) = true -> PreemptMessage.steerIds msg ⊆ seen a
  | _ => True
  end.

Definition clears (msg : PreemptMessage.t) : bool :=
  match PreemptMessage.op msg with Clear => true | Arm => false end.

(** The id of the steer that an enqueue reports. *)
Definition outcome_ids (o : SteerEnqueueOutcome) : list string :=
  match o with
  | EnqueueResult p _ => [SteerQueueItem.steerId p]
  | EnqueueReceipt r => [SteerQueueItem.steerId (SteerReceipt.item r)]
  | EnqueueRejected _ => []
  end.

Definition advance {R} (c : call R) : R -> Ghost -> Ghost :=
  match c in call R return R -> Ghost -> Ghost with
  | Sync n c => advance_sync n c
  | Deliver n k' i => fun r a =>
      if ours k' (Some (PreemptMessage.createdAt r.2)) then sees (PreemptMessage.steerIds r.2) a
      else a
  | Publish k' msg => fun _ a =>
      if ours k' (Some (PreemptMessage.createdAt msg)) && clears msg
      then pays (PreemptMessage.steerIds msg) a else a
  | PeekSteers k' e => fun r a => if ours k' e then sees (steer_ids r) a else a
  | DrainSteers k' e => fun r a =>
      match r with Ok l => if ours k' e then takes (steer_ids l) a else a | Throw _ => a end
  | RestoreClaimedSteers k' items e => fun r a =>
      match r with Ok true => if ours k' e then pays (steer_ids items) a else a | _ => a end
  | CancelSteer k' id e => fun r a =>
      match r with Ok true => if ours k' e then takes [id] a else a | _ => a end
  | ArmSteerVersioned k' id e => fun r a =>
      match r with Ok (Armed _ _) => if ours k' e then sees [id] a else a | _ => a end
  | EnqueueVersioned k' _ _ e => fun r a => if ours k' e then sees (outcome_ids r.2) a else a
  | EnqueueWithReceipt k' _ _ _ e => fun r a =>
      match enqueued r.1 r.2 with
      | Some _ => if ours k' e then sees [r.1] a else a
      | None => a
      end
  | _ => fun _ a => a
  end.

Definition allowed {R} (c : call R) (a : Ghost) : Prop :=
  match c with
  | Sync n c => allowed_sync n c a
  | Publish k' msg =>
      ours k' (Some (PreemptMessage.createdAt msg)) = true -> PreemptMessage.steerIds msg ⊆ seen a
  | RestoreClaimedSteers k' items e =>
      (k' = k -> e <> None) /\ (ours k' e = true -> steer_ids items ⊆ seen a)
  | DrainSteers k' e | CancelSteer k' _ e | ArmSteerVersioned k' _ e
  | EnqueueVersioned k' _ _ e | EnqueueWithReceipt k' _ _ _ e => k' = k -> e <> None
  | _ => True
  end.

(** ** What is known of the watched generation while it is open *)

Definition minted_of (w : World) : list string := (filter (fun p => p.1 = k) (minted w)).*2.

Record view := mkView {
  vq : list SteerQueueItem.t;
  vc : list SteerQueueItem.t;
  vp : bool;
  vm : list string;
  vr : option Runtime.t;
  vw : list (string * PreemptMessage.t);
  vh : list (nat * nat * (string * PreemptMessage.t))
}.

Definition view_of (w : World) : view :=
  mkView (queue_of (store w) k) (claims_of (store w) k) (receipt_safe (store w)) (minted_of w)
    (runtime_of (managers w n0) k) (wire w) (heard w).

Definition state_of (r : Runtime.t) : PreemptState.t := ensurePreemptState r g.

(** A message that disarms ids of the generation. *)
Definition disarms (msg : PreemptMessage.t) (id : string) : Prop :=
  PreemptMessage.op msg = Clear /\ PreemptMessage.createdAt msg = g /\
  id ∈ PreemptMessage.steerIds msg.

(** The steer is queued, or its removal is reported or about to be. *)
Definition covered (v : view) (os : list string) (id : string) : Prop :=
  id ∈ steer_ids (vq v) \/ id ∈ os \/ exists msg, (k, msg) ∈ vw v /\ disarms msg id.

(** The interrupts of a runtime of the generation are among the recorded ids. *)
Record fits (m : list string) (st : PreemptState.t) : Prop := {
  ft_tidy : tidy st;
  ft_ids : PreemptState.ids st ⊆ m;
  ft_cleared : PreemptState.cleared st ⊆ m
}.

(** [os] and [ss] are the ids that the threads owe and know. *)
Record safe (v : view) (os ss : list string) : Prop := {
  sf_minted : steer_ids (vc v ++ vq v) ++ ss ⊆ vm v;
  sf_distinct : vp v = true -> NoDup (steer_ids (vc v ++ vq v));
  sf_wire : forall msg, (k, msg) ∈ vw v -> PreemptMessage.createdAt msg = g ->
    PreemptMessage.steerIds msg ⊆ vm v;
  sf_fits : forall r, vr v = Some r -> Runtime.createdAt r = g -> fits (vm v) (state_of r);
  sf_known : forall r id, watches (vr v) r -> id ∈ vm v ->
    covered v os id \/ id ∈ PreemptState.cleared (state_of r);
  sf_heard : forall r msg id, watches (vr v) r -> (n0, i0, (k, msg)) ∈ vh v -> disarms msg id ->
    id ∈ PreemptState.cleared (state_of r)
}.

Definition owed (gs : list Ghost) : list string := gs ≫= owes.
Definition known (gs : list Ghost) : list string := gs ≫= seen.

(** The invariant; the runtime remembers [PREEMPT_TOMBSTONE_MAX] removals. *)
Record inv (w : World) (gs : list Ghost) : Prop := {
  in_epochs : epochs_ok (store w);
  in_epoch : (g <= lastGenerationEpoch (store w))%Z;
  in_safe : length (minted_of w) <= PREEMPT_TOMBSTONE_MAX -> open k g (store w) ->
    safe (view_of w) (owed gs) (known gs)
}.

(** ** Sections on the watched runtime *)

(** [st'] has all the tombstones of [st]; its ids are recorded if those of [st] are. *)
Record evolves (m : list string) (st st' : PreemptState.t) : Prop := {
  ev_fits : fits m st -> fits m st';
  ev_cleared : fits m st -> PreemptState.cleared st ⊆ PreemptState.cleared st'
}.

#[local] Instance evolves_preorder m : PreOrder (evolves m).
Proof.
  split; [by intros st; split|]. intros x y z [H1 H2] [H3 H4]. split; [auto|].
  intros Hf. etrans; [by apply H2 | by apply H4, H1].
Qed.

Lemma evolves_foldl {A B} m (f : A -> B -> A) (get : A -> PreemptState.t) (P : B -> Prop) a l :
  (forall a x, P x -> evolves m (get a) (get (f a x))) -> Forall P l ->
  evolves m (get a) (get (foldl f a l)).
Proof.
  intros Hf Hl. revert a. induction Hl as [|x l Hx _ IH]; intros a; simpl; [done|].
  etrans; [by apply Hf|]. apply IH.
Qed.

Lemma evolves_arm1 m revs acc id : id ∈ m -> evolves m acc.2 (arm1 revs acc id).2.
Proof.
  intros Hid. pose proof (tidy_arm1 revs acc id) as Ht. destruct acc as [n st]. cbn [snd] in *.
  assert (Hc : PreemptState.cleared (arm1 revs (n, st) id).2 = PreemptState.cleared st /\
    forall x, x ∈ PreemptState.ids (arm1 revs (n, st) id).2 -> x = id \/ x ∈ PreemptState.ids st).
  { cbn [arm1]. destruct (_ || _); [by split; [|intros x; right]|]. split; [done|].
    intros x. apply elem_sadd. }
  destruct Hc as [Hc Hi]. split; [|by rewrite Hc].
  intros []. split; [auto | | by rewrite Hc]. intros x [->|Hx]%Hi; auto.
Qed.

Lemma evolves_downgrade1 m st x : evolves m st (downgrade1 st x).
Proof.
  split; [|done]. intros []. split; [by apply tidy_downgrade1 | | done].
  intros y [_ Hy]%elem_sdel. auto.
Qed.

(** No tombstone is evicted while so few ids are recorded. *)
Lemma clear1_fits m st id :
  length m <= PREEMPT_TOMBSTONE_MAX -> id ∈ m -> fits m st ->
  PreemptState.cleared (clear1 st id) = sadd (PreemptState.cleared st) id /\
  PreemptState.ids (clear1 st id) = sdel (PreemptState.ids st) id.
Proof.
  intros Hm Hid [[] _ Hc]. unfold clear1. cbv zeta. cbn [PreemptState.ids PreemptState.cleared].
  destruct (bool_decide (id ∈ _)) eqn:Ei.
  - apply bool_decide_eq_true in Ei. split; [|done]. unfold sadd. by rewrite decide_True.
  - apply bool_decide_eq_false in Ei. split; [|done].
    assert (Hlen : length (id :: PreemptState.cleared st) <= length m).
    { apply submseteq_length, NoDup_submseteq; [by constructor|]. set_solver. }
    rewrite bool_decide_eq_false_2 by (simpl in Hlen; lia). done.
Qed.

Lemma evolves_clear1 m st id :
  length m <= PREEMPT_TOMBSTONE_MAX -> id ∈ m -> evolves m st (clear1 st id).
Proof.
  intros Hm Hid. split; intros Hf; destruct (clear1_fits m st id Hm Hid Hf) as [Hc Hi].
  - destruct Hf. split; [by apply tidy_clear1 | |].
    + rewrite Hi. intros y [_ Hy]%elem_sdel. auto.
    + rewrite Hc. intros y [->|Hy]%elem_sadd; auto.
  - rewrite Hc. intros y Hy. apply elem_sadd. by right.
Qed.

Lemma evolves_clear m st ids :
  length m <= PREEMPT_TOMBSTONE_MAX -> ids ⊆ m ->
  evolves m st (foldl clear1 st ids) /\
  (fits m st -> ids ⊆ PreemptState.cleared (foldl clear1 st ids)).
Proof.
  intros Hm. revert st. induction ids as [|id ids IH]; intros st Hs; simpl.
  { split; [reflexivity|]. intros _ x Hx. by apply not_elem_of_nil in Hx. }
  assert (Hid : id ∈ m) by set_solver. pose proof (evolves_clear1 m st id Hm Hid) as H1.
  destruct (IH (clear1 st id) ltac:(set_solver)) as [H2 Hall].
  split; [by etrans|]. intros Hf. pose proof (ev_fits _ _ _ H1 Hf) as Hf1.
  intros x Hx. apply elem_of_cons in Hx as [->|Hx]; [|by apply Hall].
  apply (ev_cleared _ _ _ H2 Hf1). destruct (clear1_fits m st id Hm Hid Hf) as [-> _].
  apply elem_sadd. by left.
Qed.

(** [r'] is [r] with such a state. *)
Record touches (m : list string) (r r' : Runtime.t) : Prop := {
  to_same : Runtime.identity r' = Runtime.identity r /\ Runtime.createdAt r' = Runtime.createdAt r /\
    Runtime.aborted r' = Runtime.aborted r;
  to_state : Runtime.createdAt r = g -> evolves m (state_of r) (state_of r')
}.

#[local] Instance touches_preorder m : PreOrder (touches m).
Proof.
  split; [by intros r; split|]. intros x y z [(? & ? & ?) Hxy] [(? & ? & ?) Hyz].
  split; [split_and!; congruence|]. intros Hg. etrans; [by apply Hxy|]. apply Hyz. congruence.
Qed.

Lemma fits_any m r c : fits m (state_of r) <-> fits m (ensurePreemptState r c).
Proof.
  unfold state_of, ensurePreemptState. destruct (Runtime.preempt r); [done|].
  split; intros [[]]; split; try done; by split.
Qed.

Lemma cleared_any r c :
  PreemptState.cleared (ensurePreemptState r c) = PreemptState.cleared (state_of r).
Proof. unfold state_of, ensurePreemptState. by destruct (Runtime.preempt r). Qed.

(** A section that replaces the state of a runtime, read with any epoch. *)
Lemma touches_state m r c st' :
  (Runtime.createdAt r = g -> evolves m (ensurePreemptState r c) st') ->
  touches m r (with_preempt (Some st') r).
Proof.
  intros H. split; [done|]. intros Hg. destruct (H Hg) as [Hf Hc].
  split; intros Hf0; apply (fits_any m r c) in Hf0; [auto|]. rewrite <- (cleared_any r c). auto.
Qed.

Lemma touches_arm m r c ids revs :
  (Runtime.createdAt r = g -> ids ⊆ m) -> touches m r (armPreemptIds r c ids revs).2.
Proof.
  intros Hs. unfold armPreemptIds.
  pose proof (fun Hg => evolves_foldl m (arm1 revs) snd (fun id => id ∈ m) (0, ensurePreemptState r c) ids
    (fun a x => evolves_arm1 m revs a x) (proj2 (Forall_forall _ _) (Hs Hg))) as H.
  destruct (foldl _ _ _) as [n st']. by apply touches_state with c.
Qed.

Lemma touches_downgrade m r c l : touches m r (downgradePreemptIds r c l).
Proof.
  apply touches_state with c. intros _.
  apply (evolves_foldl m downgrade1 id (fun _ => True)); [intros; apply evolves_downgrade1|].
  by apply Forall_true.
Qed.

Section clears.
Context (m : list string).
Hypothesis few : length m <= PREEMPT_TOMBSTONE_MAX.

Lemma touches_clear r c ids :
  (Runtime.createdAt r = g -> ids ⊆ m) -> touches m r (clearPreemptIds r c ids).
Proof using few.
  intros Hs. apply touches_state with c. intros Hg. by apply evolves_clear, Hs.
Qed.

Lemma clear_remembers r c ids :
  ids ⊆ m -> fits m (state_of r) -> ids ⊆ PreemptState.cleared (state_of (clearPreemptIds r c ids)).
Proof using few.
  intros Hs Hf. destruct (evolves_clear m (ensurePreemptState r c) ids few Hs) as [_ H].
  cbn. apply H. by apply fits_any.
Qed.

Lemma touches_validated r msg l :
  (Runtime.createdAt r = g -> PreemptMessage.steerIds msg ⊆ m) -> touches m r (validated l msg r).
Proof using few.
  intros Hs. unfold validated, unless_nil.
  assert (Hf : forall P `{forall x, Decision (P x)}, Runtime.createdAt r = g ->
    filter P (PreemptMessage.steerIds msg) ⊆ m).
  { intros P ? Hg x Hx%list_elem_of_filter. apply (Hs Hg), Hx. }
  assert (H1 : touches m r (match removed_ids l msg with
    | [] => r | _ :: _ => clearPreemptIds r (PreemptMessage.createdAt msg) (removed_ids l msg) end)).
  { destruct (removed_ids l msg) eqn:E; [done|]. rewrite <- E. apply touches_clear. apply Hf. }
  set (r1 := match removed_ids l msg with [] => _ | _ => _ end) in *. clearbody r1.
  assert (H2 : touches m r1 (match downgraded_items l msg with
    | [] => r1 | _ :: _ => downgradePreemptIds r1 (PreemptMessage.createdAt msg) (downgraded_items l msg) end)).
  { destruct (downgraded_items l msg); [done|]. apply touches_downgrade. }
  set (r2 := match downgraded_items l msg with [] => _ | _ => _ end) in *. clearbody r2.
  etrans; [exact H1|]. etrans; [exact H2|].
  destruct (backed_ids l msg) eqn:E; [done|]. rewrite <- E. apply touches_arm. intros Hg.
  apply Hf. destruct H1 as [(_ & ? & _) _], H2 as [(_ & ? & _) _]. congruence.
Qed.

(** The watched runtime after a section: it was there, and it remembers what the section removes. *)
Definition removed_by {R} (c : sync R) : list string :=
  match c with NoteRemoved k' ids e => if ours k' e then ids else [] | _ => [] end.

Record moved (removed : list string) (o o' : option Runtime.t) : Prop := {
  mv_from : forall r', o' = Some r' -> exists r, o = Some r /\ touches m r r';
  mv_removed : forall r r', o = Some r -> o' = Some r' -> Runtime.createdAt r = g ->
    fits m (state_of r) -> removed ⊆ PreemptState.cleared (state_of r')
}.

Lemma moved_same o : moved [] o o.
Proof using. split; [intros r' ?; by exists r'|]. intros ? ? ? ? ? ? x Hx. by apply not_elem_of_nil in Hx. Qed.

Lemma moved_at M k' e f :
  (forall r, k' = k -> runtime_at M k e = Some r -> touches m r (f r)) ->
  moved [] (runtime_of M k) (runtime_of (at_runtime k' e f M) k).
Proof using.
  intros Hf. destruct (at_runtime_of M k' e f k) as [->|(r & -> & Hr & ->)]; [apply moved_same|].
  pose proof (Hf r eq_refl Hr) as Ht. apply runtime_at_Some in Hr as [Hr _]. rewrite Hr.
  split; [intros r' [= <-]; by exists r|]. intros ? ? ? ? ? ? x Hx. by apply not_elem_of_nil in Hx.
Qed.
Lemma moved_set M r r' removed :
  runtime_of M k = Some r -> touches m r r' ->
  (fits m (state_of r) -> removed ⊆ PreemptState.cleared (state_of r')) ->
  moved removed (runtime_of M k) (Some r').
Proof using.
  intros -> Ht Hr. split; [intros r1 [= <-]; by exists r|]. intros r1 r2 [= <-] [= <-] _. done.
Qed.

Lemma run_sync_moved {R} (c : sync R) a M :
  allowed_sync n0 c a -> seen a ⊆ m ->
  moved (removed_by c) (runtime_of M k) (runtime_of (run_sync c M).2 k).
Proof using few.
  intros Hal Hs. destruct c; cbn [run_sync snd removed_by allowed_sync] in *; try apply moved_same.
  - unfold armOwned. destruct (bool_decide _); [|apply moved_same].
    destruct (runtime_at M streamId (Some jobCreatedAt)) as [r|] eqn:Hr; [|apply moved_same].
    apply runtime_at_Some in Hr as [Hr He%epoch_matches_Some].
    pose proof (touches_arm m r jobCreatedAt [steerId] (Some [(steerId, revision)])) as Ht.
    destruct (armPreemptIds _ _ _ _) as [n r']. cbn [snd] in *. rewrite runtime_of_set.
    destruct (decide (streamId = k)) as [->|]; [|apply moved_same].
    apply moved_set with r; [done | | by intros _ x Hx%not_elem_of_nil].
    apply Ht. intros Hg x Hx%list_elem_of_singleton. subst x. apply Hs, Hal.
    unfold ours. apply bool_decide_eq_true. split; congruence.
  - destruct Hal as [Hne Hal]. destruct (ours streamId jobCreatedAt) eqn:Ho.
    + unfold ours in Ho. apply bool_decide_eq_true in Ho as [-> ->].
      cbn [noteRemoved snd]. unfold noteRemoved, at_runtime. cbn [snd].
      destruct (runtime_at M k (Some g)) as [r|] eqn:Hr.
      2: { split; [intros r' ?; by exists r'|]. intros r r' H1 H2 Hg _. unfold runtime_at in Hr.
           rewrite H1 in Hr. destruct (epoch_matches (Some g) (Runtime.createdAt r)) eqn:E; [done|].
           by rewrite (proj2 (epoch_matches_Some _ _)) in E. }
      apply runtime_at_Some in Hr as [Hr _]. rewrite runtime_of_set, decide_True by done.
      assert (Hsub : steerIds ⊆ m) by (etrans; [by apply Hal | done]).
      apply moved_set with r; [done | by apply touches_clear | by apply clear_remembers].
    + apply moved_at. intros r -> [Hr He]%runtime_at_Some. apply touches_clear. intros Hg.
      destruct jobCreatedAt as [e|]; [|by destruct (Hne eq_refl)]. apply epoch_matches_Some in He.
      unfold ours in Ho. apply bool_decide_eq_false in Ho. exfalso. apply Ho. split; congruence.
  - destruct Hal as [Hne Hal]. unfold clearPreemptRequests. destruct steerIds as [|x l]; [apply moved_same|].
    apply moved_at. intros r -> [Hr He]%runtime_at_Some. destruct (Runtime.preempt r); [|done].
    apply touches_clear. intros Hg. destruct jobCreatedAt as [e|]; [|by destruct (Hne eq_refl)].
    apply epoch_matches_Some in He. etrans; [apply Hal|done]. unfold ours. apply bool_decide_eq_true.
    split; congruence.
  - apply moved_at. intros r -> _. apply touches_downgrade.
  - unfold dropOrphans. destruct identity as [i|]; [|apply moved_same].
    destruct (is_current _ _ _); [|apply moved_same]. apply moved_at. intros r -> _.
    unfold unless_nil. destruct (filter _ armedIds) as [|x l] eqn:E; [done|]. rewrite <- E.
    apply touches_clear. intros _ y Hy%list_elem_of_filter. apply Hs, Hal; [done | done | apply Hy].
  - destruct (is_current _ _ _); [|apply moved_same]. apply moved_at. intros r -> [Hr He%epoch_matches_Some]%runtime_at_Some.
    apply touches_validated. intros Hg. etrans; [apply Hal | done].
    unfold ours. apply bool_decide_eq_true. split; congruence.
Qed.

(** A message at the watched runtime. *)
Lemma onPreempt_moved k' i msg M :
  (k' = k -> PreemptMessage.createdAt msg = g -> PreemptMessage.steerIds msg ⊆ m) ->
  moved [] (runtime_of M k) (runtime_of (onPreempt k' i msg M).2 k) /\
  (k' = k -> i = i0 -> forall r r' id, watches (runtime_of M k) r -> fits m (state_of r) ->
     runtime_of (onPreempt k' i msg M).2 k = Some r' -> disarms msg id ->
     id ∈ PreemptState.cleared (state_of r')).
Proof using few.
  intros Hs. unfold onPreempt.
  destruct (runtime_at M k' (Some (PreemptMessage.createdAt msg))) as [r|] eqn:Hr.
  2: { split; [apply moved_same|]. intros -> -> r r' id (Hr0 & _ & Hg & _) _ _ (_ & Hm & _).
       unfold runtime_at in Hr. rewrite Hr0 in Hr.
       by rewrite (proj2 (epoch_matches_Some _ _)) in Hr by congruence. }
  apply runtime_at_Some in Hr as [Hr He%epoch_matches_Some].
  destruct (bool_decide (Runtime.identity r = i)) eqn:Ei.
  2: { split; [apply moved_same|]. intros -> -> r0 r' id (Hr0 & Hi & _) _ _ _.
       apply bool_decide_eq_false in Ei. destruct Ei. congruence. }
  destruct (PreemptMessage.op msg) eqn:Eo; cbn [snd].
  { split; [apply moved_same|]. intros -> -> r0 r' id _ _ _ (Ho & _). congruence. }
  rewrite runtime_of_set. destruct (decide (k' = k)) as [->|]; [|by split; [apply moved_same|]].
  split.
  - apply moved_set with r; [done | | by intros _ x Hx%not_elem_of_nil].
    apply touches_clear. intros Hg. apply Hs; congruence.
  - intros _ _ r0 r' id (Hr0 & _ & Hg & _) Hf [= <-] (_ & Hm & Hid).
    rewrite Hr in Hr0. injection Hr0 as ->. apply (clear_remembers r0 _ (PreemptMessage.steerIds msg)); auto.
Qed.
End clears.

(** ** The view after a call *)

Definition with_runtime (o : option Runtime.t) (v : view) : view := {| v with vr := o |}.

Lemma watches_moved m removed o o' r' :
  moved m removed o o' -> watches o' r' -> exists r, watches o r /\ touches m r r'.
Proof.
  intros [Hf _] (H & Hi & Hg & Ha). destruct (Hf r' H) as (r & Hr & Ht). exists r.
  split; [|done]. destruct Ht as [(? & ? & ?) _]. split_and!; congruence.
Qed.

Lemma safe_moved v os ss os' ss' removed o' :
  safe v os ss -> moved (vm v) removed (vr v) o' ->
  (forall id, id ∈ os -> id ∈ os' \/ id ∈ removed) -> ss' ⊆ vm v ->
  safe (with_runtime o' v) os' ss'.
Proof.
  intros [] Hm Ho Hs. split; cbn; try done.
  - set_solver.
  - intros r' Hr' Hg'. destruct (mv_from _ _ _ _ Hm r' Hr') as (r & Hr & [(_ & Hg & _) Hev]).
    rewrite Hg in Hg'. by apply (ev_fits _ _ _ (Hev Hg')), sf_fits0.
  - intros r' id Hw' Hid. destruct (watches_moved _ _ _ _ _ Hm Hw') as (r & Hw & [_ Hev]).
    pose proof Hw as (Hr & _ & Hg & _). pose proof (sf_fits0 r Hr Hg) as Hf.
    destruct (sf_known0 r id Hw Hid) as [[Hq|[Hin|Hw2]]|Hc].
    + by left; left.
    + destruct (Ho id Hin) as [Hin'|Hrem]; [left; right; by left | right].
      eapply mv_removed; [done | done | by destruct Hw' | done | done | done].
    + left; right; by right.
    + right. by apply (ev_cleared _ _ _ (Hev Hg) Hf).
  - intros r' msg id Hw' Hh Hd. destruct (watches_moved _ _ _ _ _ Hm Hw') as (r & Hw & [_ Hev]).
    pose proof Hw as (Hr & _ & Hg & _). apply (ev_cleared _ _ _ (Hev Hg)); [by apply sf_fits0|]. eauto.
Qed.

(** The threads know more, and owe less that is otherwise covered. *)
Lemma safe_ghost v os ss os' ss' :
  safe v os ss -> (forall id, id ∈ os -> id ∈ os') -> ss' ⊆ vm v -> safe v os' ss'.
Proof.
  intros Hs Ho Hss. pose proof (safe_moved v os ss os' ss' [] (vr v) Hs (moved_same _ _)) as H.
  destruct v. apply H; [|done]. intros id Hid. left. auto.
Qed.

Lemma safe_sent v os ss os' ss' k' msg :
  safe v os ss ->
  (k' = k -> PreemptMessage.createdAt msg = g -> PreemptMessage.steerIds msg ⊆ vm v) ->
  (forall id, id ∈ os -> id ∈ os' \/ k' = k /\ disarms msg id) -> ss' ⊆ vm v ->
  safe {| v with vw := vw v ++ [(k', msg)] |} os' ss'.
Proof.
  intros [] Hm Ho Hs. split; cbn; try done.
  - set_solver.
  - intros msg' [Hin|Hin%list_elem_of_singleton]%elem_of_app; [auto|]. injection Hin as <- <-. auto.
  - intros r id Hw Hid. destruct (sf_known0 r id Hw Hid) as [[Hq|[Hin|(msg' & Hin & Hd)]]|Hc].
    + by left; left.
    + left; right. destruct (Ho id Hin) as [?|[-> Hd]]; [by left | right].
      exists msg. split; [apply elem_of_app; right; by apply list_elem_of_singleton | done].
    + left; right; right. exists msg'. split; [apply elem_of_app; by left | done].
    + by right.
Qed.

Lemma safe_heard v os ss n i k' msg :
  safe v os ss ->
  (n = n0 -> i = i0 -> k' = k -> forall r id, watches (vr v) r -> disarms msg id ->
     id ∈ PreemptState.cleared (state_of r)) ->
  safe {| v with vh := (n, i, (k', msg)) :: vh v |} os ss.
Proof.
  intros [] Hh. split; cbn; try done.
  intros r msg' id Hw [[= -> -> -> ->]|Hin]%elem_of_cons Hd; eauto.
Qed.

Lemma safe_store v os ss os' ss' q c p m :
  safe v os ss -> vm v ⊆ m -> steer_ids (c ++ q) ++ ss' ⊆ m ->
  (p = true -> NoDup (steer_ids (c ++ q))) ->
  (forall id, id ∈ m -> id ∈ vm v \/ id ∈ steer_ids q) ->
  (forall id, id ∈ steer_ids (vq v) \/ id ∈ os -> id ∈ steer_ids q \/ id ∈ os') ->
  safe {| v with vq := q; vc := c; vp := p; vm := m |} os' ss'.
Proof.
  intros [] Hm Hin Hnd Hnew Ho. split; cbn; try done.
  - intros msg Hw Hg. by etrans; [apply sf_wire0|].
  - intros r Hr Hg. destruct (sf_fits0 r Hr Hg). split; [done | |]; by etrans.
  - intros r id Hw Hid. destruct (Hnew id Hid) as [Hid'|Hq]; [|by left; left].
    destruct (sf_known0 r id Hw Hid') as [[Hq|[Hin'|Hw']]|Hc].
    + destruct (Ho id (or_introl Hq)); [by left; left | by left; right; left].
    + destruct (Ho id (or_intror Hin')); [by left; left | by left; right; left].
    + left; right; by right.
    + by right.
Qed.

(** ** The invariant is kept *)

Lemma safe_seen v os ss : safe v os ss -> ss ⊆ vm v.
Proof. intros [Hm _ _ _ _ _] x Hx. apply Hm, elem_of_app. by right. Qed.

Lemma safe_queued v os ss id : safe v os ss -> id ∈ steer_ids (vq v) -> id ∈ vm v.
Proof.
  intros [Hm _ _ _ _ _] Hx. apply Hm, elem_of_app. left. unfold steer_ids in *.
  rewrite fmap_app. apply elem_of_app. by right.
Qed.

Lemma inv_next w w' gs gs' :
  inv w gs -> core (store w') = core (store w) -> length (minted_of w) <= length (minted_of w') ->
  (open k g (store w') -> open k g (store w)) ->
  (length (minted_of w') <= PREEMPT_TOMBSTONE_MAX -> open k g (store w) ->
   safe (view_of w) (owed gs) (known gs) -> safe (view_of w') (owed gs') (known gs')) ->
  inv w' gs'.
Proof.
  intros [He Hg Hs] Hc Hm Ho Hstep. split.
  - apply (epochs_ok_quiet (store w)); [by apply core_quiet | done].
  - by rewrite (core_epoch _ _ Hc).
  - intros Hfew Hopen. apply Hstep; [done | auto|]. apply Hs; [lia | auto].
Qed.

Lemma pays_in ids a id : id ∈ owes a -> id ∈ owes (pays ids a) \/ id ∈ ids.
Proof. intros H. destruct (decide (id ∈ ids)); [by right | left]. by apply list_elem_of_filter. Qed.

(** The thread that makes the call, and the others. *)
Lemma owed_cons a a' gs (P : string -> Prop) :
  (forall id, id ∈ owes a -> id ∈ owes a' \/ P id) ->
  forall id, id ∈ owed (a :: gs) -> id ∈ owed (a' :: gs) \/ P id.
Proof.
  intros H id. unfold owed. cbn. rewrite !elem_of_app. intros [Hid|Hid]; [|by left; right].
  destruct (H id Hid); [by left; left | by right].
Qed.

Lemma known_cons a a' gs m :
  known (a :: gs) ⊆ m -> seen a' ⊆ m -> known (a' :: gs) ⊆ m.
Proof. unfold known. cbn. intros H Ha x [Hx|Hx]%elem_of_app; [auto|]. apply H, elem_of_app. by right. Qed.

Lemma known_head a gs m : known (a :: gs) ⊆ m -> seen a ⊆ m.
Proof. unfold known. cbn. intros H x Hx. apply H, elem_of_app. by left. Qed.

Lemma sees_in ids a m : seen a ⊆ m -> ids ⊆ m -> seen (sees ids a) ⊆ m.
Proof. intros Ha Hi x [Hx|Hx]%elem_of_app; auto. Qed.

Lemma armed_ids_state r : armed_ids r = PreemptState.ids (state_of r).
Proof. unfold armed_ids, state_of, ensurePreemptState. by destruct (Runtime.preempt r). Qed.

Lemma armed_minted v os ss M :
  safe v os ss -> vr v = runtime_of M k -> getArmedPreemptIds k (Some g) M ⊆ vm v.
Proof.
  intros [] Hr. unfold getArmedPreemptIds. destruct (runtime_at M k (Some g)) as [r|] eqn:E; cbn;
    [|by intros x Hx%not_elem_of_nil].
  apply runtime_at_Some in E as [E He%epoch_matches_Some]. rewrite armed_ids_state.
  apply sf_fits0; congruence.
Qed.

Lemma advance_noted k' ids e M n a :
  advance_sync n (NoteRemoved k' ids e) (run_sync (NoteRemoved k' ids e) M).1 a =
  if ours k' e && bool_decide (n = n0) then pays ids a else a.
Proof.
  assert (H : answers e (run_sync (NoteRemoved k' ids e) M).1 = true)
    by (destruct e; [by apply bool_decide_eq_true | done]).
  cbn [advance_sync]. by rewrite H.
Qed.

Lemma advance_elsewhere {R} n (c : sync R) M a :
  n <> n0 -> advance_sync n c (run_sync c M).1 a = a.
Proof.
  intros Hn. destruct c; try done; [rewrite advance_noted|cbn [advance_sync]..];
    by rewrite (bool_decide_eq_false_2 (n = n0)), andb_false_r.
Qed.

Lemma advance_sync_ok {R} (c : sync R) M a v os ss :
  safe v os ss -> vr v = runtime_of M k -> seen a ⊆ vm v ->
  let a' := advance_sync n0 c (run_sync c M).1 a in
  (forall id, id ∈ owes a -> id ∈ owes a' \/ id ∈ removed_by c) /\ seen a' ⊆ vm v.
Proof.
  intros Hs Hr Ha.
  assert (Hb : bool_decide (n0 = n0) = true) by by apply bool_decide_eq_true.
  destruct c; cbv zeta; try rewrite advance_noted; cbn [run_sync fst advance_sync removed_by];
    rewrite ?Hb, ?andb_true_r; try (split; [by left | done]).
  - destruct (ours streamId jobCreatedAt); [|split; [by left | done]]. split; [|done]. apply pays_in.
  - destruct (ours streamId jobCreatedAt) eqn:Ho; [|split; [by left | done]]. split; [by left|].
    unfold ours in Ho. apply bool_decide_eq_true in Ho as [-> ->].
    apply sees_in; [done|]. by eapply armed_minted.
  - destruct (ours streamId _) eqn:Ho; [|split; [by left | done]]. split; [by left|].
    unfold ours in Ho. apply bool_decide_eq_true in Ho as [-> [= ->]].
    apply sees_in; [done|]. by eapply armed_minted.
Qed.

Lemma inv_sync {R} n (c : sync R) w a gs :
  allowed_sync n c a -> inv w (a :: gs) ->
  inv (set_manager n (run_sync c (managers w n)).2 w)
    (advance_sync n c (run_sync c (managers w n)).1 a :: gs).
Proof.
  intros Hal Hinv. eapply inv_next; [exact Hinv | done | done | done|].
  intros Hfew _ Hs. pose proof (safe_seen _ _ _ Hs) as Hk.
  destruct (advance_sync_ok c (managers w n0) a _ _ _ Hs eq_refl (known_head _ _ _ Hk)) as [Ho Hss].
  destruct (decide (n = n0)) as [->|Hne].
  - assert (Hv : view_of (set_manager n0 (run_sync c (managers w n0)).2 w) =
      with_runtime (runtime_of (run_sync c (managers w n0)).2 k) (view_of w)).
    { unfold view_of, set_manager. cbn. by rewrite decide_True. }
    rewrite Hv. eapply safe_moved; [exact Hs | | | ].
    + eapply run_sync_moved; [exact Hfew | exact Hal | by eapply known_head].
    + apply owed_cons, Ho.
    + eapply known_cons; [exact Hk | exact Hss].
  - assert (Hv : view_of (set_manager n (run_sync c (managers w n)).2 w) = view_of w).
    { unfold view_of, set_manager. cbn. by rewrite decide_False. }
    by rewrite Hv, advance_elsewhere.
Qed.

Lemma ours_eq k' e : ours k' e = true <-> k' = k /\ e = Some g.
Proof. unfold ours. apply bool_decide_eq_true. Qed.

Lemma ours_other k' e : k' <> k -> ours k' e = false.
Proof. intros H. unfold ours. apply bool_decide_eq_false. tauto. Qed.

(** Messages of the channel name recorded ids only. *)
Lemma inv_deliver n k' i msg w a gs :
  (k', msg) ∈ wire w -> inv w (a :: gs) ->
  inv {| (set_manager n (onPreempt k' i msg (managers w n)).2 w) with
         heard := (n, i, (k', msg)) :: heard w |}
    ((if ours k' (Some (PreemptMessage.createdAt msg)) then sees (PreemptMessage.steerIds msg) a
      else a) :: gs).
Proof.
  intros Hw Hinv. eapply inv_next; [exact Hinv | done | done | done|].
  intros Hfew _ Hs. pose proof (safe_seen _ _ _ Hs) as Hk.
  assert (Hids : k' = k -> PreemptMessage.createdAt msg = g -> PreemptMessage.steerIds msg ⊆ vm (view_of w)).
  { intros -> Hg. by apply (sf_wire _ _ _ Hs). }
  set (a' := if ours _ _ then _ else a).
  assert (Ha : owes a' = owes a /\ seen a' ⊆ vm (view_of w)).
  { subst a'. pose proof (known_head _ _ _ Hk). destruct (ours _ _) eqn:Ho; [|done].
    apply ours_eq in Ho as [-> [= Hg]]. split; [done|]. apply sees_in; auto. }
  destruct Ha as [Ho Hss].
  assert (Ho' : forall id, id ∈ owed (a :: gs) -> id ∈ owed (a' :: gs)) by (unfold owed; cbn; by rewrite Ho).
  assert (Hs' : known (a' :: gs) ⊆ vm (view_of w)) by by eapply known_cons.
  destruct (decide (n = n0)) as [->|Hne].
  - destruct (onPreempt_moved _ Hfew k' i msg (managers w n0) Hids) as [Hm Hc].
    pose proof (safe_moved _ _ _ _ _ _ _ Hs Hm (fun id H => or_introl (Ho' id H)) Hs') as Hs1.
    apply (safe_heard _ _ _ n0 i k' msg) in Hs1.
    2: { cbn. intros _ -> -> r id Hr' Hd. destruct (watches_moved _ _ _ _ _ Hm Hr') as (r0 & Hr0 & _).
         eapply Hc; [done | done | exact Hr0 | | by destruct Hr' | done].
         destruct Hr0 as (? & _ & ? & _). by apply (sf_fits _ _ _ Hs). }
    unfold view_of, with_runtime in *. cbn in *. by rewrite decide_True.
  - pose proof (safe_ghost _ _ _ _ _ Hs Ho' Hs') as Hs1.
    apply (safe_heard _ _ _ n i k' msg) in Hs1; [|done].
    unfold view_of in *. cbn in *. by rewrite decide_False.
Qed.

Lemma inv_publish k' msg r w a gs :
  allowed (Publish k' msg) a -> inv w (a :: gs) ->
  inv {| w with wire := wire w ++ [(k', msg)] |} (advance (Publish k' msg) r a :: gs).
Proof.
  intros Hal Hinv. eapply inv_next; [exact Hinv | done | done | done|].
  intros Hfew _ Hs. pose proof (safe_seen _ _ _ Hs) as Hk. pose proof (known_head _ _ _ Hk) as Ha.
  cbn [allowed advance] in *.
  apply (safe_sent (view_of w) (owed (a :: gs)) (known (a :: gs))); [done | | |].
  - intros -> Hg. etrans; [apply Hal, ours_eq; by split; [|f_equal] | done].
  - apply owed_cons. intros id Hid. destruct (ours _ _ && _) eqn:E; [|by left].
    apply andb_true_iff in E as [[-> [= Hg]]%ours_eq Hc].
    destruct (pays_in (PreemptMessage.steerIds msg) a id Hid) as [?|?]; [by left | right].
    split; [done|]. unfold clears in Hc. by destruct (PreemptMessage.op msg) eqn:E.
  - eapply known_cons; [done|]. by destruct (ours _ _ && _).
Qed.

(** A call that changes at most the steers and the receipts of the store. *)
Lemma inv_steers w s m a a' gs :
  core s = core (store w) -> (k ∈ closedSteerQueues (store w) -> k ∈ closedSteerQueues s) ->
  length (minted_of w) <= length (filter (fun p => p.1 = k) m) ->
  (open k g (store w) -> safe (view_of w) (owed (a :: gs)) (known (a :: gs)) ->
   safe {| (view_of w) with vq := queue_of s k; vc := claims_of s k; vm := (filter (fun p => p.1 = k) m).*2 |}
     (owed (a' :: gs)) (known (a' :: gs))) ->
  inv w (a :: gs) -> inv {| (with_store s w) with minted := m |} (a' :: gs).
Proof.
  intros Hc Hk Hm Hstep Hinv. pose proof (core_jobs _ _ Hc) as Hj.
  eapply inv_next; [exact Hinv | done | etrans; [exact Hm|]; unfold minted_of; cbn; by rewrite length_fmap | |].
  - intros [(j & Hjj & H) Hn]. cbn in *. split; [|auto]. exists j. by rewrite <- Hj.
  - intros _ Ho Hs. specialize (Hstep Ho Hs). unfold view_of, receipt_safe in *. cbn in *. by rewrite Hj.
Qed.

(** The common case: the ids in the queue and among the claims are still recorded. *)
Lemma inv_rewrites w s q c a a' gs :
  rewrites k (store w) s q c ->
  (open k g (store w) -> safe (view_of w) (owed (a :: gs)) (known (a :: gs)) ->
   steer_ids (c ++ q) ++ seen a' ⊆ minted_of w /\
   (receipt_safe (store w) = true -> NoDup (steer_ids (c ++ q))) /\
   (forall id, id ∈ steer_ids (queue_of (store w) k) \/ id ∈ owes a -> id ∈ steer_ids q \/ id ∈ owes a')) ->
  inv w (a :: gs) -> inv (with_store s w) (a' :: gs).
Proof.
  intros [Hq Hc Hk Hcore] H Hinv.
  change (inv {| (with_store s w) with minted := minted w |} (a' :: gs)).
  apply (inv_steers w s (minted w) a); [done | tauto | unfold minted_of; by rewrite length_fmap | | done].
  intros Hopen Hs. destruct (H Hopen Hs) as (Hin & Hnd & Ho). rewrite Hq, Hc.
  apply (safe_store (view_of w) (owed (a :: gs)) (known (a :: gs)) _ _ q c (vp (view_of w)));
    [done | done | | done | by left |].
  - intros x [Hx|Hx]%elem_of_app; [apply Hin, elem_of_app; by left|].
    revert x Hx. change (known (a' :: gs) ⊆ minted_of w). eapply known_cons; [by apply safe_seen in Hs|].
    intros x Hx. apply Hin, elem_of_app. by right.
  - intros id. unfold owed. cbn. rewrite !elem_of_app. intros [Hx|[Hx|Hx]].
    + destruct (Ho id (or_introl Hx)); auto.
    + destruct (Ho id (or_intror Hx)); auto.
    + auto.
Qed.

(** The queue and the claims are as before, the threads know more. *)
Lemma inv_sees w s a a' gs :
  rewrites k (store w) s (queue_of (store w) k) (claims_of (store w) k) ->
  (forall id, id ∈ owes a -> id ∈ owes a') ->
  (open k g (store w) -> safe (view_of w) (owed (a :: gs)) (known (a :: gs)) -> seen a ⊆ minted_of w ->
   seen a' ⊆ minted_of w) ->
  inv w (a :: gs) -> inv (with_store s w) (a' :: gs).
Proof.
  intros Hrw Ho Hseen. apply (inv_rewrites w s (queue_of (store w) k) (claims_of (store w) k) a); [done|]. intros Hopen Hs.
  pose proof (known_head _ _ _ (safe_seen _ _ _ Hs)) as Ha. split_and!.
  - intros x [Hx|Hx]%elem_of_app; [apply (sf_minted _ _ _ Hs), elem_of_app; by left | by eapply Hseen].
  - apply (sf_distinct _ _ _ Hs).
  - intros id [Hid|Hid]; [by left | right; auto].
Qed.

Lemma inv_ghost w a a' gs :
  (forall id, id ∈ owes a -> id ∈ owes a') ->
  (open k g (store w) -> safe (view_of w) (owed (a :: gs)) (known (a :: gs)) -> seen a ⊆ minted_of w ->
   seen a' ⊆ minted_of w) ->
  inv w (a :: gs) -> inv w (a' :: gs).
Proof.
  intros Ho Hs Hinv. assert (Hw : with_store (store w) w = w) by by destruct w. rewrite <- Hw.
  eapply inv_sees; [by apply rewrites_same | exact Ho | exact Hs | exact Hinv].
Qed.

Lemma inv_other w s a gs :
  sview k s = sview k (store w) -> core s = core (store w) -> inv w (a :: gs) ->
  inv (with_store s w) (a :: gs).
Proof. intros Hv Hc. by apply inv_sees; [apply rewrites_same| |]. Qed.

(** *** Operations of the store *)

Lemma sublist_ids l l' : sublist l l' -> sublist (steer_ids l) (steer_ids l').
Proof. induction 1; cbn; by constructor. Qed.

Lemma steer_ids_app l l' : steer_ids (l ++ l') = steer_ids l ++ steer_ids l'.
Proof. apply fmap_app. Qed.

Lemma nodup_sub c q c' q' :
  NoDup (steer_ids (c ++ q)) -> sublist (c' ++ q') (c ++ q) -> NoDup (steer_ids (c' ++ q')).
Proof. intros Hnd Hs. eapply sublist_NoDup; [exact Hnd | by apply sublist_ids]. Qed.

Lemma inv_peek k' e w a gs :
  inv w (a :: gs) ->
  inv w ((if ours k' e then sees (steer_ids (peekSteers (store w) k' e)) a else a) :: gs).
Proof.
  apply inv_ghost; [by destruct (ours _ _)|]. intros _ Hs Ha. destruct (ours _ _) eqn:E; [|done].
  apply ours_eq in E as [-> ->]. apply sees_in; [done|]. unfold peekSteers. case_match.
  - intros x Hx. by apply (safe_queued _ _ _ x Hs).
  - by intros x Hx%not_elem_of_nil.
Qed.

Lemma inv_drain k' e now r s w a gs :
  (k' = k -> e <> None) -> drainSteers k' e now (store w) = (r, s) -> inv w (a :: gs) ->
  inv (with_store s w) (advance (DrainSteers k' e) r a :: gs).
Proof.
  intros Hal H. cbn [advance]. destruct (decide (k' = k)) as [->|Hne].
  2: { assert (Ha : match r with Ok l => if ours k' e then takes (steer_ids l) a else a | Throw _ => a end = a)
         by (rewrite ours_other by done; by destruct r).
       rewrite Ha. apply inv_other.
       - pose proof (steer_other k (Drain k' e) now (store w) Hne) as Hv. cbn in Hv. by rewrite H in Hv.
       - pose proof (core_drain k' e now (store w)) as Hc. by rewrite H in Hc. }
  destruct (drain_rewrites k e now _ r s H) as (q & c & Hrw & [(-> & -> & Hr)|(Hst & -> & -> & Hc)]).
  - apply inv_sees; [done | |].
    + intros id Hid. destruct r as [l|]; [|done]. destruct (ours _ _); [|done]. apply elem_of_app. by left.
    + intros _ _ Ha. destruct r as [l|]; [|done]. subst l. destruct (ours _ _); [|done].
      by apply sees_in; [|intros x Hx%not_elem_of_nil].
  - apply (inv_rewrites w s [] c a); [done|]. intros Hopen Hs.
    assert (Ho : ours k e = true).
    { apply ours_eq. split; [done|]. destruct e as [e|]; [|by destruct (Hal eq_refl)].
      destruct Hst as [j Hst]. f_equal. by eapply steerable_open. }
    rewrite Ho. pose proof (known_head _ _ _ (safe_seen _ _ _ Hs)) as Ha.
    assert (Hin : steer_ids (claims_of (store w) k ++ queue_of (store w) k) ⊆ minted_of w).
    { intros x Hx. apply (sf_minted _ _ _ Hs), elem_of_app. by left. }
    assert (Hsub : sublist (c ++ []) (claims_of (store w) k ++ queue_of (store w) k)).
    { rewrite app_nil_r. destruct Hc as [->| ->]; [by apply sublist_inserts_r | done]. }
    split_and!.
    + intros x [Hx|Hx]%elem_of_app.
      * apply Hin. revert Hx. apply sublist_subseteq. by apply sublist_ids.
      * revert x Hx. apply sees_in; [done|]. intros x Hx. apply Hin. rewrite steer_ids_app. apply elem_of_app. by right.
    + intros Hp. eapply nodup_sub; [by apply (sf_distinct _ _ _ Hs) | exact Hsub].
    + intros id [Hid|Hid]; right; cbn; apply elem_of_app; [by right | by left].
Qed.

Lemma inv_cancel k' id e r s w a gs :
  (k' = k -> e <> None) -> removeSteer k' id e (store w) = (r, s) -> inv w (a :: gs) ->
  inv (with_store s w) (advance (CancelSteer k' id e) r a :: gs).
Proof.
  intros Hal H. cbn [advance]. destruct (decide (k' = k)) as [->|Hne].
  2: { assert (Ha : match r with Ok true => if ours k' e then takes [id] a else a | _ => a end = a)
         by (rewrite ours_other by done; by destruct r as [[]|]).
       rewrite Ha. apply inv_other.
       - pose proof (steer_other k (RemoveSteer k' id e) 0%Z (store w) Hne) as Hv. cbn in Hv. by rewrite H in Hv.
       - pose proof (core_remove k' id e (store w)) as Hc. by rewrite H in Hc. }
  destruct (remove_rewrites k id e _ r s H) as (q & Hrw & [[-> Hr]|(-> & i & x & Hx & Hid & ->)]).
  - assert (Ha : match r with Ok true => if ours k e then takes [id] a else a | _ => a end = a)
      by (by destruct r as [[]|]).
    rewrite Ha. by apply inv_sees.
  - apply (inv_rewrites w s (splice1 i (queue_of (store w) k)) (claims_of (store w) k) a); [done|]. intros Hopen Hs.
    assert (Ho : ours k e = true).
    { apply ours_eq. split; [done|]. destruct e as [e|]; [|by destruct (Hal eq_refl)]. f_equal.
      unfold removeSteer in H. destruct Hopen as [(j & Hj & Hg & _) _]. rewrite Hj in H. cbn in H.
      destruct (bool_decide (Some (Job.createdAt j) = Some e)) eqn:E; [|done].
      apply bool_decide_eq_true in E. congruence. }
    rewrite Ho. pose proof (known_head _ _ _ (safe_seen _ _ _ Hs)) as Ha.
    pose proof (splice1_sublist i (queue_of (store w) k)) as Hsub.
    assert (Hin : id ∈ minted_of w).
    { rewrite <- Hid. apply (safe_queued _ _ _ _ Hs). by apply list_elem_of_fmap_2, list_elem_of_lookup_2 with i. }
    split_and!.
    + intros y [Hy|Hy]%elem_of_app.
      * apply (sf_minted _ _ _ Hs), elem_of_app. left. revert Hy. apply sublist_subseteq, sublist_ids. by apply sublist_app.
      * revert y Hy. apply sees_in; [done|]. by intros y ->%list_elem_of_singleton.
    + intros Hp. eapply nodup_sub; [by apply (sf_distinct _ _ _ Hs)|]. by apply sublist_app.
    + intros y [Hy|Hy]; [|right; cbn; apply elem_of_app; by left].
      unfold steer_ids in Hy. rewrite (splice1_perm i _ x Hx), fmap_cons, elem_of_cons, Hid in Hy.
      destruct Hy as [->|Hy]; [right; cbn; apply elem_of_app; right; by apply list_elem_of_singleton | by left].
Qed.

(** What a restore puts back. *)
Lemma restored_ids s items j :
  (usesReceiptSafeProtocol (Some j) = true -> NoDup (steer_ids (claims_of s k))) ->
  (usesReceiptSafeProtocol (Some j) = true ->
   length (filter (fun i => SteerQueueItem.steerId i ∈ steer_ids items) (claims_of s k)) = length items) ->
  steer_ids items ⊆ steer_ids (restored_steers k s items j ++ queue_of s k).
Proof.
  intros Hnd Hlen id Hid. rewrite steer_ids_app, elem_of_app.
  destruct (decide (id ∈ steer_ids (queue_of s k))) as [?|Hq]; [by right | left].
  unfold restored_steers.
  assert (Hin : exists x, SteerQueueItem.steerId x = id /\
    x ∈ (if usesReceiptSafeProtocol (Some j)
         then filter (fun i => SteerQueueItem.steerId i ∈ steer_ids items) (claims_of s k) else items)).
  { destruct (usesReceiptSafeProtocol (Some j)).
    - set (acts := filter _ _) in *.
      assert (Hp : steer_ids acts ≡ₚ steer_ids items).
      { apply submseteq_length_Permutation.
        - apply NoDup_submseteq.
          + eapply sublist_NoDup; [by apply Hnd|]. apply sublist_ids, sublist_filter.
          + intros x (y & -> & [Hy _]%list_elem_of_filter)%list_elem_of_fmap. done.
        - unfold steer_ids. rewrite !length_fmap, Hlen by done. done. }
      rewrite <- Hp in Hid. apply list_elem_of_fmap in Hid as (y & -> & Hy). eauto.
    - apply list_elem_of_fmap in Hid as (y & -> & Hy). eauto. }
  destruct Hin as (x & <- & Hx). apply list_elem_of_fmap_2, list_elem_of_filter. done.
Qed.

(** The restored steers are among the claims, when these are kept; they are not left there. *)
Lemma restored_nodup s items j c :
  usesReceiptSafeProtocol (Some j) = true -> NoDup (steer_ids (claims_of s k ++ queue_of s k)) ->
  sublist c (claims_of s k) -> (forall x, x ∈ c -> SteerQueueItem.steerId x ∉ steer_ids items) ->
  NoDup (steer_ids (c ++ restored_steers k s items j ++ queue_of s k)).
Proof.
  intros Hp Hnd Hc Hout. unfold restored_steers. rewrite Hp, !steer_ids_app in *.
  apply NoDup_app in Hnd as (Hndc & Hd & Hndq).
  set (acts := filter (fun i => _ ∈ steer_ids items) (claims_of s k)).
  assert (Hs1 : sublist (steer_ids acts) (steer_ids (claims_of s k))) by apply sublist_ids, sublist_filter.
  set (res := filter (fun i => _ ∉ _) acts).
  assert (Hs2 : sublist (steer_ids res) (steer_ids acts)) by apply sublist_ids, sublist_filter.
  assert (Hcs : sublist (steer_ids c) (steer_ids (claims_of s k))) by by apply sublist_ids.
  apply NoDup_app. split_and!; [by apply (sublist_NoDup _ _ Hndc) | |].
  - intros id (x & -> & Hx)%list_elem_of_fmap [Hr|Hq]%elem_of_app.
    + apply (sublist_subseteq _ _ Hs2) in Hr. apply list_elem_of_fmap in Hr as (y & He & Hy).
      apply list_elem_of_filter in Hy as [Hy _]. apply (Hout x Hx). by rewrite He.
    + refine (Hd _ _ Hq). apply (sublist_subseteq _ _ Hcs). by apply list_elem_of_fmap_2.
  - apply NoDup_app. split_and!; [apply (sublist_NoDup _ _ Hndc); by etrans | | done].
    intros id (x & -> & [Hx _]%list_elem_of_filter)%list_elem_of_fmap. done.
Qed.

Lemma inv_restore k' items e b s w a gs :
  allowed (RestoreClaimedSteers k' items e) a ->
  restoreClaimedSteers k' items e (store w) = (b, s) -> inv w (a :: gs) ->
  inv (with_store s w) (advance (RestoreClaimedSteers k' items e) (Ok b) a :: gs).
Proof.
  intros [Hne Hal] H. cbn [advance]. destruct (decide (k' = k)) as [->|Hk].
  2: { assert (Ha : (if b then if ours k' e then pays (steer_ids items) a else a else a) = a)
         by (rewrite ours_other by done; by destruct b).
       rewrite Ha. apply inv_other.
       - pose proof (steer_other k (RestoreClaimed k' items e) 0%Z (store w) Hk) as Hv. cbn in Hv. by rewrite H in Hv.
       - pose proof (core_restore k' items e (store w)) as Hc. by rewrite H in Hc. }
  destruct (restore_rewrites k items e _ b s H) as [[-> Hrw]|(-> & j & Hj & Hlen & c & Hc & Hout & Hrw)];
    [by apply inv_sees|].
  apply (inv_rewrites w s (restored_steers k (store w) items j ++ queue_of (store w) k) c a); [done|].
  intros Hopen Hs.
  assert (Hjob : mget (jobs (store w)) k = Some j).
  { unfold steerable_job in Hj. by repeat case_match; simplify_eq. }
  assert (Ho : ours k e = true).
  { apply ours_eq. split; [done|]. destruct e as [e|]; [|by destruct (Hne eq_refl)]. f_equal. by eapply steerable_open. }
  rewrite Ho. specialize (Hal Ho). pose proof (known_head _ _ _ (safe_seen _ _ _ Hs)) as Ha.
  assert (Hin : steer_ids (claims_of (store w) k ++ queue_of (store w) k) ⊆ minted_of w).
  { intros x Hx. apply (sf_minted _ _ _ Hs), elem_of_app. by left. }
  assert (Hp : receipt_safe (store w) = usesReceiptSafeProtocol (Some j)) by (unfold receipt_safe; by rewrite Hjob).
  split_and!.
  - intros x [Hx|Hx]%elem_of_app; [|by apply Ha].
    rewrite !steer_ids_app, !elem_of_app in Hx. rewrite steer_ids_app in Hin.
    destruct Hx as [Hx|[Hx|Hx]].
    + apply Hin, elem_of_app. left. revert Hx. by apply sublist_subseteq, sublist_ids.
    + apply list_elem_of_fmap in Hx as (y & -> & [_ Hy]%list_elem_of_filter).
      destruct (usesReceiptSafeProtocol (Some j)).
      * apply list_elem_of_filter in Hy as [Hy _]. by apply Ha, Hal.
      * apply Ha, Hal. by apply list_elem_of_fmap_2.
    + apply Hin, elem_of_app. by right.
  - rewrite Hp. intros Hv. apply restored_nodup; auto. apply (sf_distinct _ _ _ Hs). cbn. by rewrite Hp.
  - pose proof (restored_ids (store w) items j) as Hr. intros id [Hid|Hid].
    + left. rewrite steer_ids_app. apply elem_of_app. by right.
    + destruct (pays_in (steer_ids items) a id Hid) as [?|Hi]; [by right | left].
      apply Hr; [|done | done]. intros Hv. pose proof (sf_distinct _ _ _ Hs) as Hnd. cbn in Hnd.
      rewrite Hp, steer_ids_app in Hnd. by destruct (proj1 (NoDup_app _ _) (Hnd Hv)).
Qed.

(** The queue changes, but for its ids. *)
Lemma inv_same_ids w s q a a' gs :
  rewrites k (store w) s q (claims_of (store w) k) -> steer_ids q = steer_ids (queue_of (store w) k) ->
  owes a' = owes a ->
  (open k g (store w) -> steer_ids q ⊆ minted_of w -> seen a ⊆ minted_of w -> seen a' ⊆ minted_of w) ->
  inv w (a :: gs) -> inv (with_store s w) (a' :: gs).
Proof.
  intros Hrw Hq Ho Hseen. apply (inv_rewrites w s q (claims_of (store w) k) a); [done|]. intros Hopen Hs.
  pose proof (known_head _ _ _ (safe_seen _ _ _ Hs)) as Ha. rewrite steer_ids_app, Hq, <- steer_ids_app, Ho.
  split_and!; [|apply (sf_distinct _ _ _ Hs) | done].
  intros x [Hx|Hx]%elem_of_app; [apply (sf_minted _ _ _ Hs), elem_of_app; by left|].
  apply Hseen; [done | | done | done]. rewrite Hq. intros y Hy. by apply (safe_queued _ _ _ y Hs).
Qed.

Lemma inv_arm k' id e r s w a gs :
  (k' = k -> e <> None) -> armSteerVersioned k' id e (store w) = (r, s) -> inv w (a :: gs) ->
  inv (with_store s w) (advance (ArmSteerVersioned k' id e) r a :: gs).
Proof.
  intros Hal H. cbn [advance]. destruct (decide (k' = k)) as [->|Hne].
  2: { assert (Ha : match r with Ok (Armed _ _) => if ours k' e then sees [id] a else a | _ => a end = a)
         by (rewrite ours_other by done; by destruct r as [[]|]).
       rewrite Ha. apply inv_other.
       - pose proof (steer_other k (ArmSteer k' id e) 0%Z (store w) Hne) as Hv. cbn in Hv. by rewrite H in Hv.
       - pose proof (core_armVersioned k' id e (store w)) as Hc. by rewrite H in Hc. }
  destruct (arm_rewrites k id e _ r s H) as [[Hrw Hr]|(i & x & Hst & Hx & Hid & -> & Hrw)].
  - assert (Ha : match r with Ok (Armed _ _) => if ours k e then sees [id] a else a | _ => a end = a).
    { destruct r as [[rev x| |]|]; try done. by destruct (Hr rev x). }
    rewrite Ha. by apply inv_sees.
  - assert (Hq : steer_ids (<[i:=bump_preempt (Some true) x]> (queue_of (store w) k)) =
                 steer_ids (queue_of (store w) k)).
    { unfold steer_ids. rewrite list_fmap_insert. apply list_insert_id. by rewrite list_lookup_fmap, Hx. }
    apply (inv_same_ids w s _ a _ gs Hrw Hq); [by destruct (ours _ _)|].
    intros _ Hin Ha. destruct (ours _ _); [|done]. apply sees_in; [done|].
    intros y ->%list_elem_of_singleton. apply Hin. rewrite Hq, <- Hid.
    by apply list_elem_of_fmap_2, list_elem_of_lookup_2 with i.
Qed.

Lemma inv_downgrade k' e r s w a gs :
  downgradeSteerPreempts k' e (store w) = (r, s) -> inv w (a :: gs) -> inv (with_store s w) (a :: gs).
Proof.
  intros H. destruct (decide (k' = k)) as [->|Hne].
  2: { apply inv_other.
       - pose proof (steer_other k (DowngradePreempts k' e) 0%Z (store w) Hne) as Hv. cbn in Hv. by rewrite H in Hv.
       - pose proof (core_downgrade k' e (store w)) as Hc. by rewrite H in Hc. }
  destruct (downgrade_rewrites k e _ r s H) as [[Hrw _]|(_ & _ & Hrw)]; [by apply inv_sees|].
  apply (inv_same_ids w s _ a a gs Hrw); [|done | done].
  unfold steer_ids, downgraded_queue. rewrite <- list_fmap_compose. apply list_fmap_ext.
  intros i x _. cbn. by case_match.
Qed.

(** A steer is queued under a fresh id, or nothing happens. *)
Lemma inv_admit k' id e o s w a a' gs :
  fresh_id w k' id -> core s = core (store w) ->
  (k' <> k -> sview k s = sview k (store w)) -> (k' = k -> admits k id e o (store w) s) ->
  owes a' = owes a ->
  (forall x, x ∈ seen a' -> x ∈ seen a \/ k' = k /\ x = id /\ is_Some (enqueued id o)) ->
  inv w (a :: gs) -> inv (mint k' id o (with_store s w)) (a' :: gs).
Proof.
  intros [Hfresh _] Hcore Hother Hadm Ho Hseen Hinv.
  assert (Hsee : (k' <> k \/ enqueued id o = None) -> forall m, seen a ⊆ m -> seen a' ⊆ m).
  { intros Hno m Ha x [?|(-> & -> & [p Hp])]%Hseen; [auto|]. destruct Hno; congruence. }
  assert (Howed : owed (a' :: gs) = owed (a :: gs)) by (unfold owed; cbn; by rewrite Ho).
  destruct (decide (k' = k)) as [->|Hne].
  - specialize (Hadm eq_refl). unfold admits, mint in *.
    destruct (enqueued id o) as [p|] eqn:Hp.
    2: { apply (inv_sees w s a a' gs Hadm); [by rewrite Ho | | done]. intros _ _ Ha. apply Hsee; auto. }
    destruct Hadm as (Hid & _ & [Hq Hc Hk _]).
    apply (inv_steers w s ((k, id) :: minted w) a a'); [done | tauto | | | done].
    { rewrite filter_cons_True by done. unfold minted_of. cbn. rewrite length_fmap. lia. }
    intros _ Hs. rewrite Hq, Hc, filter_cons_True, Howed by done. cbn [fmap list_fmap snd].
    assert (Hid' : id ∉ minted_of w).
    { intros (x & -> & [_ Hx]%list_elem_of_filter)%list_elem_of_fmap. by apply Hfresh, list_elem_of_fmap_2. }
    assert (Hin : steer_ids (claims_of (store w) k ++ queue_of (store w) k) ⊆ minted_of w).
    { intros x Hx. apply (sf_minted _ _ _ Hs), elem_of_app. by left. }
    assert (Hids : steer_ids (claims_of (store w) k ++ queue_of (store w) k ++ [p]) =
                   steer_ids (claims_of (store w) k ++ queue_of (store w) k) ++ [id])
      by (by rewrite app_assoc, steer_ids_app, <- Hid).
    apply (safe_store (view_of w) (owed (a :: gs)) (known (a :: gs)) _ _ _ _ (vp (view_of w)));
      [done | intros x Hx; by right | | | |].
    + rewrite Hids. intros x. rewrite !elem_of_app, list_elem_of_singleton.
      intros [[Hx| ->]|Hx]; [right; by apply Hin | by left|].
      revert x Hx. change (known (a' :: gs) ⊆ id :: minted_of w). eapply known_cons.
      * intros x Hx. right. by apply (safe_seen _ _ _ Hs).
      * intros x [Hx|(_ & -> & _)]%Hseen; [right | by left]. by apply (known_head _ _ _ (safe_seen _ _ _ Hs)).
    + intros Hv. rewrite Hids. apply NoDup_app. split_and!; [by apply (sf_distinct _ _ _ Hs) | |by apply NoDup_singleton].
      intros x Hx%Hin ->%list_elem_of_singleton. done.
    + intros x [->|Hx]%elem_of_cons; [right | by left]. rewrite steer_ids_app, <- Hid. apply elem_of_app. right.
      by apply list_elem_of_singleton.
    + intros x [Hx|Hx]; [left | by right]. rewrite steer_ids_app. apply elem_of_app. by left.
  - assert (Hm : inv (with_store s w) (a :: gs)) by (apply inv_other; auto).
    apply (inv_ghost _ a); [by rewrite Ho | intros _ _ Ha; apply Hsee; auto|]. unfold mint.
    destruct (enqueued id o); [|done].
    set (w' := {| (with_store s w) with minted := _ |}).
    assert (Hmm : minted_of w' = minted_of (with_store s w)) by (change (minted_of w') with ((filter (fun p => p.1 = k) ((k', id) :: minted w)).*2);
          by rewrite filter_cons_False).
    eapply inv_next; [exact Hm | done | by rewrite Hmm | done |]. intros _ _ Hs.
    unfold view_of in *. rewrite Hmm. exact Hs.
Qed.

Lemma inv_enqueue k' item wants e id o s w a gs :
  fresh_id w k' id -> enqueueSteerVersioned k' (with_id id item) wants e (store w) = (o, s) ->
  inv w (a :: gs) ->
  inv (mint k' id o (with_store s w)) (advance (EnqueueVersioned k' item wants e) (id, o) a :: gs).
Proof.
  intros Hf H. cbn [advance fst snd]. apply (inv_admit k' id e); [done | | | | |].
  - pose proof (core_enqueueVersioned k' (with_id id item) wants e (store w)) as Hc. by rewrite H in Hc.
  - intros Hne. pose proof (steer_other k (Enqueue k' (with_id id item) wants e) 0%Z (store w) Hne) as Hv.
    cbn in Hv. by rewrite H in Hv.
  - intros ->. by apply enqueue_rewrites in H.
  - by destruct (ours _ _).
  - intros x. destruct (ours k' e) eqn:Ho; [|by left]. apply ours_eq in Ho as [-> _].
    intros [Hx|Hx]%elem_of_app; [by left | right].
    assert (Ho : match o with EnqueueResult p _ => SteerQueueItem.steerId p = id | EnqueueReceipt _ => False
                 | EnqueueRejected _ => True end).
    { unfold enqueueSteerVersioned in H. repeat case_match; simplify_eq; try done. apply persisted_id. }
    destruct o as [|p n|]; cbn in Hx; [done | | by apply not_elem_of_nil in Hx].
    apply list_elem_of_singleton in Hx. subst x. split_and!; [done | done|]. by exists p.
Qed.

Lemma inv_receipted k' item input wants e id o now s w a gs :
  fresh_id w k' id -> enqueueSteerWithReceipt k' (with_id id item) input wants e now (store w) = (o, s) ->
  inv w (a :: gs) ->
  inv (mint k' id o (with_store s w)) (advance (EnqueueWithReceipt k' item input wants e) (id, o) a :: gs).
Proof.
  intros Hf H. cbn [advance fst snd]. apply (inv_admit k' id e); [done | | | | |].
  - pose proof (core_enqueueWithReceipt k' (with_id id item) input wants e now (store w)) as Hc. by rewrite H in Hc.
  - intros Hne. pose proof (steer_other k (EnqueueReceipted k' (with_id id item) input wants e) now (store w) Hne) as Hv.
    cbn in Hv. by rewrite H in Hv.
  - intros ->. apply enqueue_receipt_rewrites in H; [done|]. apply Hf.
  - destruct (enqueued id o); [by destruct (ours _ _) | done].
  - intros x. destruct (enqueued id o); [|by left]. destruct (ours k' e) eqn:Ho; [|by left].
    apply ours_eq in Ho as [-> _]. intros [Hx|Hx%list_elem_of_singleton]%elem_of_app; [by left | right]. eauto.
Qed.

(** What is not an operation on steers. *)
Lemma inv_steady w s gs :
  steady k g (store w) s -> (open k g s -> receipt_safe s = true -> receipt_safe (store w) = true) ->
  epochs_ok s -> (g <= lastGenerationEpoch s)%Z ->
  inv w gs -> inv (with_store s w) gs.
Proof.
  intros [Ho Hq Hc] Hp He Hg Hinv. split; [done | done|]. cbn. intros Hfew Hopen.
  pose proof (in_safe _ _ Hinv Hfew (Ho Hopen)) as Hs. unfold view_of. cbn.
  rewrite Hq by done.
  assert (Hsub : sublist (claims_of s k ++ queue_of (store w) k) (claims_of (store w) k ++ queue_of (store w) k))
    by (apply sublist_app; [by apply Hc | done]).
  apply (safe_store (view_of w) (owed gs) (known gs) _ _ _ _ _ _ Hs); [done | | | by left | tauto].
  - intros x [Hx|Hx]%elem_of_app; apply (sf_minted _ _ _ Hs), elem_of_app; [left | by right].
    revert Hx. by apply sublist_subseteq, sublist_ids.
  - intros Hv. eapply nodup_sub; [|exact Hsub]. apply (sf_distinct _ _ _ Hs). cbn. auto.
Qed.

(** Such an operation, by a caller that keeps the discipline. *)
Lemma inv_run_op o now w gs :
  op_ok o = true -> steer_op o = false ->
  (open k g (run_op o now (store w)) ->
   receipt_safe (run_op o now (store w)) = true -> receipt_safe (store w) = true) ->
  inv w gs -> inv (with_store (run_op o now (store w)) w) gs.
Proof.
  intros Hok Hst Hp Hinv. pose proof (in_epochs _ _ Hinv) as He. pose proof (in_epoch _ _ Hinv) as Hg.
  assert (Hr : reaches (store w) (run_op o now (store w))) by (constructor; [constructor | done]).
  apply inv_steady; [by apply run_op_steady | done | by apply (reaches_epochs_ok (store w)) | | done].
  etrans; [exact Hg|]. apply (e_epoch _ _ (reaches_evolves _ _ Hr)).
Qed.

Theorem inv_step {R} (c : call R) w r w' a gs :
  exec c w r w' -> allowed c a -> inv w (a :: gs) -> inv w' (advance c r a :: gs).
Proof.
  intros He Hal Hinv. destruct c; cbn [exec] in He; try (rewrite He; exact Hinv).
  - destruct (run_sync c (managers w replica)) as [r0 m] eqn:E. destruct He as [-> ->].
    pose proof (inv_sync replica c w a gs Hal Hinv) as H. by rewrite E in H.
  - destruct He as (msg & Hw & He). destruct (onPreempt streamId identity msg (managers w replica)) as [arms m] eqn:E.
    destruct He as [-> ->]. pose proof (inv_deliver replica streamId identity msg w a gs Hw Hinv) as H. by rewrite E in H.
  - rewrite He. by apply inv_publish.
  - destruct He as [-> ->]. by apply inv_peek.
  - destruct He as (now & s & H & ->). by eapply inv_drain.
  - destruct He as (b & s & H & -> & ->). by apply inv_restore.
  - destruct He as (s & H & ->). by eapply inv_downgrade.
  - destruct He as (s & H & ->). by eapply inv_cancel.
  - destruct He as (s & H & ->). by eapply inv_arm.
  - destruct He as (Hf & s & H & ->). destruct r. by apply inv_enqueue.
  - destruct He as (Hf & now & s & H & ->). destruct r. by eapply inv_receipted.
  - destruct He as (now & s & H & ->).
    pose proof (inv_run_op (GetReceipt streamId clientSteerId) now w (a :: gs)) as Hop. cbn in Hop. rewrite H in Hop.
    apply Hop; try done. unfold receipt_safe.
    pose proof (core_getReceipt streamId clientSteerId now (store w)) as Hc. rewrite H in Hc. by rewrite (core_jobs _ _ Hc).
  - destruct He as (now & s & H & ->).
    pose proof (inv_run_op (DiscardLeftover streamId clientSteerId steerId (user_id owner)
      (SteerRequestUser.tenantId owner) (Some e)) now w (a :: gs)) as Hop. cbn in Hop. rewrite H in Hop.
    apply Hop; try done. unfold receipt_safe.
    pose proof (core_discard streamId clientSteerId steerId (user_id owner) (SteerRequestUser.tenantId owner) (Some e) now (store w)) as Hc. rewrite H in Hc. by rewrite (core_jobs _ _ Hc).
Qed.

Lemma inv_others w w' gs : others w w' -> inv w gs -> inv w' gs.
Proof.
  intros Ho Hinv. destruct Ho as [o now Hok Hst Hp|n m Hk]; [by apply inv_run_op|].
  eapply inv_next; [exact Hinv | done | done | done|]. intros Hfew Hopen [].
  destruct (decide (n = n0)) as [->|Hne].
  2: { unfold view_of, set_manager in *. cbn in *. by rewrite decide_False. }
  assert (Hv : view_of (set_manager n0 m w) = with_runtime (runtime_of m k) (view_of w))
    by (unfold view_of, set_manager; cbn; by rewrite decide_True).
  rewrite Hv.
  assert (Hw : forall r, watches (runtime_of m k) r -> exists r0, watches (vr (view_of w)) r0 /\ state_of r = state_of r0).
  { intros r (Hr & Hi & Hg & Ha). destruct (Hk r Hr) as [[_ Hnew]|(r0 & Hr0 & Hi0 & Hg0 & Hp0 & Ha0)].
    - rewrite (Hnew eq_refl Hi Hopen) in Ha. done.
    - exists r0. unfold state_of, ensurePreemptState. rewrite Hp0. split; [|done]. split_and!; [done | congruence | congruence|].
      destruct (Runtime.aborted r0); [|done]. by rewrite Ha0 in Ha. }
  split; cbn; try done.
  - intros r Hr Hg. destruct (Hk r Hr) as [[Hn _]|(r0 & Hr0 & Hi0 & Hg0 & Hp0 & Ha0)].
    + unfold state_of, ensurePreemptState. rewrite Hn. cbn. split; [|by intros x Hx%not_elem_of_nil..].
      apply (tidy_ensure (Runtime.mk 0 0 false false None) g). by intros st [=].
    + unfold state_of, ensurePreemptState. rewrite Hp0. apply sf_fits0; [done | congruence].
  - intros r id Hr. destruct (Hw r Hr) as (r0 & Hr0 & ->). by apply sf_known0.
  - intros r msg id Hr. destruct (Hw r Hr) as (r0 & Hr0 & ->). by apply sf_heard0.
Qed.

(** The order of the threads does not matter. *)
Lemma inv_order w gs gs' : gs ≡ₚ gs' -> inv w gs -> inv w gs'.
Proof.
  intros Hp [He Hg Hs]. split; [done | done|]. intros Hfew Hopen. specialize (Hs Hfew Hopen).
  eapply safe_ghost; [exact Hs | |].
  - intros id. unfold owed. by rewrite Hp.
  - intros id. unfold known. rewrite <- Hp. apply (safe_seen _ _ _ Hs).
Qed.
End watch.
