(* ===== verification/PreemptSafety.v ===== *)
(** * No interrupt without its steer: the programs and the theorem

    The listener of the channel, the boundaries of a run, the handover and the three routes keep to
    the protocol of [PreemptRuns]; so does any pool of them. *)

From stdpp Require Import relations.
From S2P Require Import Prelude Programs JsMap Json StreamTypes StoreState StoreSteers StoreRun StoreEpochs StoreQueue.
From S2P Require Import StoreSteering Steering Preempts SteerRoutes PreemptRuns.

Section safety.
Context (k : string) (g : Z) (n0 i0 : nat).
#[local] Abbreviation ours := (ours k g).
#[local] Abbreviation advance := (advance k g n0).
#[local] Abbreviation allowed := (allowed k g n0).

(** ** Keeping to the protocol *)

#[local] Abbreviation obeys :=
  (obeys (@PreemptRuns.allowed k g n0) (@PreemptRuns.advance k g n0)).
#[local] Abbreviation plain :=
  (plain (@PreemptRuns.allowed k g n0) (@PreemptRuns.advance k g n0)).

(** ** The manager's methods *)

Lemma requestPreempt_obeys here publishes k' id g' revision a :
  (ours k' (Some g') = true -> id ∈ seen a) ->
  obeys (unchanged a) a (requestPreempt here publishes k' id g' revision).
Proof.
  intros Hid. unfold requestPreempt. apply obeys_ask; [exact Hid|]. intros [b|]; [done|].
  destruct publishes; [|done]. apply obeys_step.
  - cbn. intros Ho x ->%list_elem_of_singleton. auto.
  - intros r. cbn. by rewrite andb_false_r.
Qed.

(** What is left to report once [ids] are reported. *)
Definition reported {A} (k' : string) (e : option Z) (ids : list string) (a : Ghost)
  : result failure A -> Ghost -> Prop := fun _ a' =>
  forall id, id ∈ owes a' -> id ∈ owes a /\ (ours k' e = true -> id ∉ ids).

Lemma pays_out ids a id : id ∈ owes (pays ids a) -> id ∈ owes a /\ id ∉ ids.
Proof. intros [? ?]%list_elem_of_filter. done. Qed.

Lemma reported_trans {A} k' e ids a a' (r : result failure A) a2 :
  reported (A := A) k' e ids a r a' -> (forall id, id ∈ owes a2 -> id ∈ owes a') -> reported k' e ids a r a2.
Proof. intros H Hs id Hid. by apply H, Hs. Qed.

Lemma advance_publish_owes k' msg r a id :
  id ∈ owes (advance (Publish k' msg) r a) -> id ∈ owes a.
Proof. cbn. destruct (_ && _); [|done]. by intros [? _]%pays_out. Qed.

Lemma noteSteersRemoved_obeys here publishes k' ids e a :
  (k' = k -> e <> None) -> (ours k' e = true -> ids ⊆ seen a /\ (publishes = true \/ here = n0)) ->
  obeys (reported k' e ids a) a (noteSteersRemoved here publishes k' ids e).
Proof.
  intros He Ho. unfold noteSteersRemoved. destruct ids as [|x l].
  { intros id Hid. split; [done|]. intros _. apply not_elem_of_nil. }
  set (ids := x :: l) in *. clearbody ids.
  apply obeys_ask; [cbn; split; [done|]; intros H; by apply Ho|]. intros c. cbn [PreemptRuns.advance advance_sync].
  set (a1 := if answers e c then _ else _).
  assert (H1 : (forall c', c = Some c' -> ours k' (Some c') = true -> ids ⊆ seen a1) /\
               (forall id, id ∈ owes a1 -> id ∈ owes a) /\
               (ours k' e = true -> here = n0 \/ answers e c = false -> forall id, id ∈ owes a1 -> id ∉ ids)).
  { subst a1. destruct (answers e c) eqn:Hans.
    - split_and!.
      + intros c' -> [Hk Hc]%ours_eq.
        assert (Hg : ours k' e = true).
        { apply ours_eq. split; [done|]. destruct e as [e|]; [|by destruct (He Hk)].
          apply bool_decide_eq_true in Hans. congruence. }
        rewrite Hg. destruct (Ho Hg) as [Hs _]. by destruct (bool_decide (here = n0)).
      + intros id. destruct (_ && _); [|done]. by intros [? _]%pays_out.
      + intros -> [->|?]; [|done]. rewrite (bool_decide_eq_true_2 (n0 = n0)) by done. by intros id [_ ?]%pays_out.
    - split_and!.
      + intros c' _ _ y Hy. apply elem_of_app. by right.
      + by intros id [? _]%pays_out.
      + by intros _ _ id [_ ?]%pays_out. }
  clearbody a1. destruct H1 as (Hs & Hin & Hout).
  assert (Hdone : forall r : bool, (ours k' e = true -> here = n0 \/ answers e c = false) ->
    reported k' e ids a (@Ok failure _ r) a1).
  { intros r Hh id Hid. split; [auto|]. intros H. by apply Hout; auto. }
  assert (Hans : ours k' e = true -> c = Some g \/ answers e c = false).
  { intros [-> ->]%ours_eq. cbn. destruct (bool_decide (c = Some g)) eqn:E; [left | by right].
    by apply bool_decide_eq_true in E. }
  destruct c as [c|].
  2: { apply obeys_ret, Hdone. intros H. destruct (Hans H); [done | by right]. }
  destruct publishes.
  2: { apply obeys_ret, Hdone. intros H. destruct (Ho H) as [_ [?|?]]; [done | by left]. }
  assert (Hpub : forall r, reported k' e ids a (@Ok failure bool true) (advance (Publish k' (clear_message c ids)) r a1)).
  { intros r id Hid. pose proof (advance_publish_owes _ _ _ _ _ Hid) as Hid1. split; [auto|]. intros H.
    destruct (Hans H) as [[= ->]|?]; [|by apply Hout; auto].
    apply ours_eq in H as [-> _]. cbn in Hid. rewrite (proj2 (ours_eq k g k (Some g))) in Hid by done.
    by apply pays_out in Hid as [_ ?]. }
  assert (Hal : forall r, allowed (Publish k' (clear_message c ids)) (advance (Publish k' (clear_message c ids)) r a1)).
  { intros r. cbn. intros H. specialize (Hs c eq_refl H). by destruct (_ && _). }
  apply obeys_ask; [intros H; by apply (Hs c)|]. intros [].
  - apply obeys_ret. apply Hpub.
  - apply obeys_step; [apply Hal|]. intros r. apply obeys_ret. intros id Hid%advance_publish_owes.
    apply (Hpub false id Hid).
Qed.

(** ** The listener and the handover *)

Lemma receivePreempt_obeys here k' i a :
  obeys (fun _ a' => owes a' = owes a) a (receivePreempt here k' i).
Proof.
  unfold receivePreempt. apply obeys_ask; [done|]. intros [arms msg]. destruct arms; cbn [PreemptRuns.advance snd].
  2: { apply obeys_ret. by destruct (PreemptRuns.ours _ _ _ _). }
  match goal with |- obeys _ ?x _ => set (a1 := x) end.
  assert (H1 : owes a1 = owes a /\ (ours k' (Some (PreemptMessage.createdAt msg)) = true ->
                                    PreemptMessage.steerIds msg ⊆ seen a1)).
  { subst a1. destruct (PreemptRuns.ours _ _ _ _); [|done]. split; [done|]. intros _ x Hx. apply elem_of_app. by right. }
  clearbody a1. destruct H1 as [Ho Hs]. apply obeys_ask; [done|]. intros l. cbn [PreemptRuns.advance].
  apply obeys_step.
  - cbn. intros H. rewrite H. intros x Hx. apply elem_of_app. left. by apply Hs.
  - intros []. apply obeys_ret. cbn. by destruct (PreemptRuns.ours _ _ _ _).
Qed.

Lemma rearm_all_obeys here publishes k' g' items a :
  (ours k' (Some g') = true -> steer_ids items ⊆ seen a) ->
  obeys (unchanged a) a (rearm_all here publishes k' g' items).
Proof.
  induction items as [|x items IH]; intros Hs; [done|]. cbn [rearm_all].
  apply obeys_after; [|intros _|done].
  - apply requestPreempt_obeys. intros H. apply (Hs H). by left.
  - apply obeys_after; [|done..]. apply IH. intros H y Hy. apply (Hs H). by right.
Qed.

Lemma rearm_obeys here publishes k' g' a :
  (k' = k -> here = n0 /\ g' = g) ->
  obeys (fun _ a' => owes a' = owes a) a (rearmQueuedPreempts here publishes k' g').
Proof.
  intros Hk. unfold rearmQueuedPreempts, value. apply obeys_step; [done|]. intros [[steers|]|e]; cbn [pbind]; [..|done].
  - apply obeys_ask; [done|]. intros []. destruct steers; [done|]. apply obeys_step; [done|].
    by intros [[]|e].
  - apply obeys_ask; [done|]. intros [runtime armed]. cbn [PreemptRuns.advance advance_sync snd].
    match goal with |- obeys _ ?x _ => set (a1 := x) end.
    assert (H1 : owes a1 = owes a /\ (k' = k -> armed ⊆ seen a1)).
    { subst a1. split; [by destruct (_ && _)|]. intros ->. destruct (Hk eq_refl) as [-> ->].
      rewrite (proj2 (ours_eq k g k (Some g))), (bool_decide_eq_true_2 (n0 = n0)) by done.
      intros x Hx. apply elem_of_app. by right. }
    clearbody a1. destruct H1 as [Ho Hs]. apply obeys_ask; [done|]. intros l. cbn [PreemptRuns.advance].
    match goal with |- obeys _ ?x _ => set (a2 := x) end.
    assert (H2 : owes a2 = owes a /\ (k' = k -> armed ⊆ seen a2) /\
                 (ours k' (Some g') = true -> steer_ids l ⊆ seen a2)).
    { subst a2. destruct (PreemptRuns.ours _ _ _ _); [|done]. split_and!; [done | |].
      - intros H x Hx. apply elem_of_app. left. by apply Hs.
      - intros _ x Hx. apply elem_of_app. by right. }
    clearbody a2. destruct H2 as (Ho2 & Hs2 & Hl). apply obeys_ask; [by intros H _; apply Hs2|]. intros [].
    eapply obeys_weaken; [apply rearm_all_obeys|by intros r a' ->].
    intros H. etrans; [|by apply Hl]. apply sublist_subseteq, sublist_ids, sublist_filter.
Qed.

(** ** The boundaries *)

Lemma apply_steers_obeys steers a :
  obeys (fun r a' => a' = a /\ exists both, r = Ok both /\ steer_ids both.2 ⊆ steer_ids steers) a
    (apply_steers steers).
Proof.
  induction steers as [|x l IH]; cbn [apply_steers]; [split; [done|]; by exists ([], [])|].
  apply obeys_ask; [done|]. intros [[]|e].
  - eapply obeys_bind; [exact IH | |].
    + intros both a' [-> (b & [= <-] & Hb)]. split; [done|]. eexists. split; [done|]. cbn.
      intros y Hy. right. by apply Hb.
    + intros e a' [_ (b & ? & _)]. done.
  - split; [done|]. eexists. by split.
Qed.

(** The ids that were handed back are paid for. *)
Definition handed_back (k' : string) (e : option Z) (a : Ghost)
  : result failure (list string) -> Ghost -> Prop := fun r a' =>
  exists ids, r = Ok ids /\ seen a' = seen a /\
    forall id, id ∈ owes a' -> id ∈ owes a /\ (ours k' e = true -> id ∉ ids).

Lemma restore_steers_obeys k' e failed a :
  (k' = k -> e <> None) -> (ours k' e = true -> steer_ids failed ⊆ seen a) ->
  obeys (handed_back k' e a) a (restore_steers k' failed e).
Proof.
  intros He Hs. unfold restore_steers.
  assert (Hnil : handed_back k' e a (Ok []) a).
  { exists []. split_and!; [done | done|]. intros id Hid. split; [done|]. intros _. apply not_elem_of_nil. }
  destruct failed as [|x l]; [exact Hnil|]. set (failed := x :: l) in *. clearbody failed.
  apply obeys_ask; [by split|]. intros [[]|er]; try exact Hnil. cbn [PreemptRuns.advance].
  exists (steer_ids failed). split; [done|]. destruct (PreemptRuns.ours k g k' e) eqn:E; split; try done.
  intros id Hid%pays_out. tauto.
Qed.

(** It does not throw: what fails to build is replaced by the text. *)
Lemma injected_obeys buildsMedia items a :
  obeys (fun r a' => a' = a /\ exists l, r = Ok l) a (injected_messages buildsMedia items).
Proof.
  induction items as [|x l IH]; cbn [injected_messages]; [split; eauto|].
  assert (Hx : obeys (fun r a' => a' = a /\ exists m, r = Ok m) a (injected_message buildsMedia x)).
  { unfold injected_message. destruct (_ && _); [|split; eauto]. apply obeys_ask; [done|]. split; eauto. }
  eapply obeys_bind; [exact Hx | | by intros e a' [_ (? & ?)]]. intros m a' [-> _].
  eapply obeys_bind; [exact IH | | by intros e a' [_ (? & ?)]]. intros rest a' [-> _]. split; eauto.
Qed.

Lemma spent_in armed restored steers id :
  id ∈ spent_ids armed restored steers <->
  (id ∈ armed \/ id ∈ steer_ids steers) /\ id ∉ restored.
Proof.
  unfold spent_ids.
  assert (Hf : forall l acc, id ∈ foldl sadd acc l <-> id ∈ acc \/ id ∈ l).
  { induction l as [|x l IH]; intros acc; cbn; [set_solver|]. rewrite IH, elem_sadd, elem_of_cons. tauto. }
  rewrite !Hf, !list_elem_of_filter, elem_of_nil. tauto.
Qed.

Lemma drainAndBuild_obeys here publishes buildsMedia k' e a :
  (k' = k -> here = n0 /\ e = Some g) -> owes a = [] ->
  obeys (fun _ a' => owes a' = []) a (drainAndBuildInjections here publishes buildsMedia k' e).
Proof.
  intros Hk Ha. unfold drainAndBuildInjections. assert (He : k' = k -> e <> None) by (intros [_ ->]%Hk; done).
  apply obeys_ask; [done|]. intros armed. cbn [PreemptRuns.advance advance_sync].
  match goal with |- obeys _ ?x _ => set (a1 := x) end.
  assert (H1 : owes a1 = [] /\ (ours k' e = true -> armed ⊆ seen a1)).
  { subst a1. split; [by destruct (_ && _)|]. intros H. rewrite H. apply ours_eq in H as [Hkk _].
    destruct (Hk Hkk) as [-> _]. rewrite bool_decide_eq_true_2 by done. intros x Hx. apply elem_of_app. by right. }
  clearbody a1. destruct H1 as [Ho Hs]. apply obeys_step; [exact He|]. intros [steers|er]; cbn [pbind ret fail]; [|done].
  cbn [PreemptRuns.advance]. match goal with |- obeys _ ?x _ => set (a2 := x) end.
  assert (H2 : (forall id, id ∈ owes a2 -> ours k' e = true /\ id ∈ steer_ids steers) /\
               (ours k' e = true -> armed ⊆ seen a2 /\ steer_ids steers ⊆ seen a2)).
  { subst a2. destruct (PreemptRuns.ours k g k' e) eqn:E; [|by split; [rewrite Ho; intros id Hid%not_elem_of_nil|]].
    cbn. rewrite Ho. split; [done|]. intros _. split; intros x Hx; apply elem_of_app; [left; by apply Hs | by right]. }
  clearbody a2. destruct H2 as [Ho2 Hs2]. destruct steers as [|x l].
  - apply obeys_ask; [split; [done|]; by intros []%Hs2|]. intros []. apply obeys_ret. cbn.
    destruct (owes a2) as [|id ids] eqn:E; [done|]. destruct (Ho2 id) as [_ H]; [by left|].
    by apply not_elem_of_nil in H.
  - set (steers := x :: l) in *. clearbody steers. clear x l.
    eapply obeys_bind; [apply apply_steers_obeys | | by intros er a' [_ (? & ? & _)]].
    intros both a' [-> (b & [= <-] & Hb)].
    eapply obeys_bind; [apply restore_steers_obeys; [done|] | | by intros er a' (? & ? & _)].
    { intros H. etrans; [exact Hb|]. by apply Hs2. }
    intros ids a3 (ids' & [= <-] & Hs3 & Ho3).
    eapply obeys_bind; [apply injected_obeys | | by intros er a' [_ (? & ?)]]. intros injected a4 [-> _].
    assert (Hspent : owes a3 = [] \/ ours k' e = true).
    { destruct (owes a3) as [|id l] eqn:E; [by left|]. right. apply (Ho2 id), (Ho3 id). by left. }
    assert (Hend : forall a5, (forall id, id ∈ owes a5 -> id ∈ owes a3 /\
      (ours k' e = true -> id ∉ spent_ids armed ids steers)) -> owes a5 = []).
    { intros a5 H5. destruct (owes a5) as [|id l] eqn:E; [done|]. exfalso.
      destruct (H5 id) as [H3 Hout]; [by left|]. destruct Hspent as [Hn|H]; [by rewrite Hn in H3; apply not_elem_of_nil in H3|].
      apply (Hout H), spent_in. destruct (Ho3 id H3) as [H2 Hids]. split; [right; by apply Ho2 | auto]. }
    eapply obeys_bind; [apply noteSteersRemoved_obeys; [done|] | |].
    + intros H. split; [|right; apply ours_eq in H as [H _]; by destruct (Hk H)].
      destruct (Hs2 H) as [Harmed Hsteers].
      intros id [[Hid|Hid] _]%spent_in; rewrite Hs3; [by apply Harmed | by apply Hsteers].
    + intros r a5 H5. apply obeys_ret, Hend, H5.
    + intros er a5 H5. apply Hend, H5.
Qed.

Lemma boundary_obeys here publishes buildsMedia agentId k' e a :
  (k' = k -> here = n0 /\ e = Some g) -> owes a = [] ->
  obeys (fun _ a' => owes a' = []) a (steerBoundaryHook here publishes buildsMedia agentId k' e).
Proof.
  intros Hk Ha. destruct agentId; [exact Ha|]. cbn [steerBoundaryHook].
  eapply obeys_bind; [by apply drainAndBuild_obeys | |]; [by intros l a' H; destruct l | done].
Qed.

(** ** The routes *)

#[local] Ltac plainly :=
  repeat first [ exact I | apply calls_bind; [|intros ?] | split; [by split | intros ?] | case_match ].

Lemma plain_replay user deps p receipt : calls plain (replaySteer user deps p receipt).
Proof. unfold replaySteer, markSteerFilesUsed. cbv zeta. plainly. Qed.

Lemma plain_files user deps files : calls plain (resolveFiles user deps files).
Proof. unfold resolveFiles, resolveSteerFiles, settled. cbv zeta. plainly. Qed.

Lemma plain_kept files owner deps : calls plain (markSteerFilesUsed files owner deps).
Proof. unfold markSteerFilesUsed. cbv zeta. plainly. Qed.

Lemma plain_aborted deps : calls plain (isAborted deps).
Proof. unfold isAborted. plainly. Qed.

Lemma plain_rejected k' owner depth : calls plain (rejectedSteer k' owner depth).
Proof. unfold rejectedSteer. plainly. Qed.

Lemma plain_settle user k' id c e protocol : calls plain (settleReceipt user k' id c e protocol).
Proof. unfold settleReceipt, readOwnedReceipt. plainly. Qed.

(** A route keeps the ghost state, but for what it comes to know. *)
Definition settles {A} (a : Ghost) : result failure A -> Ghost -> Prop := fun _ a' => owes a' = owes a.

Lemma settles_after {A B} a (p : sprog A) (f : A -> sprog B) :
  calls plain p -> (forall x, obeys (settles a) a (f x)) -> obeys (settles a) a (pbind p f).
Proof. intros Hp Hf. apply obeys_after; [by apply obeys_plain | done | done]. Qed.

Lemma settles_plain {A} a (p : sprog A) : calls plain p -> obeys (settles a) a p.
Proof. intros Hp. eapply obeys_weaken; [by apply obeys_plain|]. by intros r a' ->. Qed.

Lemma settles_bind {A B} a (p : sprog A) (f : A -> sprog B) :
  obeys (settles a) a p -> (forall x a', owes a' = owes a -> obeys (settles a) a' (f x)) ->
  obeys (settles a) a (pbind p f).
Proof. intros Hp Hf. eapply obeys_bind; [exact Hp | intros x a'; apply Hf | done]. Qed.

(** What the thread knows of an admission. *)
Definition admitted (k' : string) (createdAt : Z) (a : Ghost) : result failure admission -> Ghost -> Prop :=
  fun r a' => owes a' = owes a /\
    match r with
    | Ok (QueuedAt _ item _) =>
        ours k' (Some createdAt) = true -> SteerQueueItem.steerId item ∈ seen a'
    | _ => True
    end.

Lemma versioned_admitted k' item wants c o a id :
  admitted k' c a (Ok (read_versioned o)) (advance (EnqueueVersioned k' item wants (Some c)) (id, o) a).
Proof.
  cbn [PreemptRuns.advance snd]. split; [by destruct (PreemptRuns.ours _ _ _ _)|].
  destruct o; cbn [read_versioned]; try done; intros ->; apply elem_of_app; right; by left.
Qed.

Lemma read_receipted_queued user p id o position item rev :
  read_receipted user p id o = QueuedAt position item rev ->
  enqueued id o = Some item /\ SteerQueueItem.steerId item = id.
Proof.
  unfold read_receipted. intros H. destruct o as [r| |]; try done.
  destruct (negb _); [done|]. destruct (_ || _); [done|]. destruct (negb _); [done|].
  destruct (bool_decide (SteerQueueItem.steerId (SteerReceipt.item r) = id)) eqn:E; [|done]. cbn [negb] in H.
  apply bool_decide_eq_true in E. injection H as _ <- _. cbn. by rewrite decide_True.
Qed.

Lemma enqueueSteer_obeys user p protocol job owner files a :
  obeys (admitted (Parsed.conversationId p) (JobFacade.createdAt owner) a) a
    (enqueueSteerRequest user p protocol job owner files).
Proof.
  unfold enqueueSteerRequest. apply obeys_ask; [done|]. intros now. cbv zeta.
  assert (Hv : obeys (admitted (Parsed.conversationId p) (JobFacade.createdAt owner) a) a
    (await r <- ask (EnqueueVersioned (Parsed.conversationId p) (steer_item user p protocol files now)
                       (Parsed.wantsPreempt p) (Some (JobFacade.createdAt owner)));
     ret (read_versioned (r.2 : SteerEnqueueOutcome)))).
  { apply obeys_ask; [done|]. intros [id o]. apply versioned_admitted. }
  destruct (Parsed.clientSteerId p) as [c|]; [|exact Hv]. destruct (bool_decide _); [|exact Hv].
  apply obeys_ask; [done|]. intros [id o]. apply obeys_ret. cbn [PreemptRuns.advance fst snd].
  split; [destruct (enqueued id o); [by destruct (PreemptRuns.ours _ _ _ _) | done]|].
  destruct (read_receipted user p id o) as [|depth|position item rev] eqn:Er; try done. intros Hours.
  apply read_receipted_queued in Er as [-> <-]. rewrite Hours. apply elem_of_app. right. by left.
Qed.

Lemma acceptedSteer_obeys here publishes p protocol owner position item rev a :
  (ours (Parsed.conversationId p) (Some (JobFacade.createdAt owner)) = true ->
   SteerQueueItem.steerId item ∈ seen a) ->
  obeys (settles a) a (acceptedSteer here publishes p protocol owner position item rev).
Proof.
  intros Hid. unfold acceptedSteer. cbv zeta. apply settles_after; [unfold publishSteerUpdate; plainly|]. intros _.
  apply obeys_after; [|done..]. destruct (is_preempt item); [|done]. by apply requestPreempt_obeys.
Qed.

Lemma admitSteer_obeys here publishes user deps p protocol job files a :
  obeys (settles a) a (admitSteer here publishes user deps p protocol job files).
Proof.
  unfold admitSteer. cbv zeta. apply settles_after; [plainly|]. intros owner.
  destruct (negb _); [by destruct (active _)|]. apply settles_after; [apply plain_aborted|]. intros []; [done|].
  apply settles_after; [apply plain_kept|]. intros []; [|done]. cbn [negb].
  apply settles_after; [apply plain_aborted|]. intros []; [done|].
  eapply obeys_bind; [apply enqueueSteer_obeys | | by intros e a' [? _]].
  intros adm a' [Ho Hadm]. destruct adm as [r|depth|position item rev].
  - exact Ho.
  - eapply obeys_weaken; [apply settles_plain, plain_rejected|]. intros r a2 H. unfold settles in *. congruence.
  - eapply obeys_weaken; [by apply acceptedSteer_obeys|]. intros r a2 H. unfold settles in *. congruence.
Qed.

Lemma handleSteerRequest_obeys here publishes sha supported maxLength user body deps a :
  obeys (settles a) a (handleSteerRequest here publishes sha supported maxLength user body deps).
Proof.
  unfold handleSteerRequest, handleSteerRequestInternal. cbv zeta.
  apply settles_bind; [|done].
  destruct (parseSteerRequest _ _ _ _) as [p|r]; [|done].
  apply settles_after; [plainly|]. intros job. apply settles_after; [plainly|]. intros receipt.
  destruct receipt as [receipt|].
  - apply settles_after; [apply plain_replay | done].
  - destruct job as [job|]; [|done]. apply settles_bind; [|done]. unfold steerJob. destruct (refuseJob _ _ _); [done|].
    apply settles_after; [unfold settled; plainly|]. intros []; [|done]. cbn [negb].
    destruct (bool_decide _); [done|]. destruct supported; [|done]. cbn [negb]. destruct (_ && _); [done|].
    apply settles_after; [apply plain_files|]. intros [files|r]; [|done]. apply admitSteer_obeys.
Qed.

(** A thread that owes nothing in the end. *)
Definition even {A} : result failure A -> Ghost -> Prop := fun _ a' => owes a' = [].

Lemma even_bind {A B} a (p : sprog A) (f : A -> sprog B) :
  obeys even a p -> (forall x a', owes a' = [] -> obeys even a' (f x)) -> obeys even a (pbind p f).
Proof. intros Hp Hf. eapply obeys_bind; [exact Hp | intros x a'; apply Hf | done]. Qed.

Lemma even_settles {A} a (p : sprog A) : owes a = [] -> obeys (settles a) a p -> obeys even a p.
Proof. intros Ha Hp. eapply obeys_weaken; [exact Hp|]. intros r a' H. unfold settles, even in *. congruence. Qed.

Lemma even_after {A B} a (p : sprog A) (f : A -> sprog B) :
  owes a = [] -> calls plain p -> (forall x, obeys even a (f x)) -> obeys even a (pbind p f).
Proof. intros Ha Hp Hf. apply obeys_after; [by apply obeys_plain | done | done]. Qed.

Lemma cancelSteer_obeys here publishes user k' id c e protocol job a :
  (publishes = true \/ here = n0) -> owes a = [] ->
  obeys even a (cancelSteer here publishes user k' id c e protocol job).
Proof.
  intros Hpub Ha. unfold cancelSteer. destruct (_ || _); [done|]. destruct (negb _); [done|]. unfold value.
  apply obeys_step; [done|]. intros [removed|er]; cbn [pbind ret fail]; [|done].
  destruct removed.
  2: { apply even_after; [done | apply plain_settle | done]. }
  cbn [PreemptRuns.advance]. set (cat := JobFacade.createdAt job).
  match goal with |- obeys _ ?x _ => set (a1 := x) end.
  assert (H1 : (forall x, x ∈ owes a1 -> ours k' (Some cat) = true /\ x = id) /\
               (ours k' (Some cat) = true -> id ∈ seen a1)).
  { subst a1. destruct (PreemptRuns.ours k g k' (Some cat)); [|by split; [rewrite Ha; intros x Hx%not_elem_of_nil|]].
    cbn. rewrite Ha. split; [by intros x ->%list_elem_of_singleton|]. intros _. apply elem_of_app. right. by left. }
  clearbody a1. destruct H1 as [Ho Hs].
  eapply obeys_bind; [apply noteSteersRemoved_obeys; [done|] | |].
  - intros H. split; [|done]. intros x ->%list_elem_of_singleton. auto.
  - intros b a2 H2. apply obeys_ret. unfold even. destruct (owes a2) as [|x l] eqn:E; [done|].
    destruct (H2 x) as [Hx Hout]; [rewrite E; by left|]. destruct (Ho x Hx) as [H ->].
    exfalso. apply (Hout H). by left.
  - intros er a2 H2. unfold even. destruct (owes a2) as [|x l] eqn:E; [done|].
    destruct (H2 x) as [Hx Hout]; [rewrite E; by left|]. destruct (Ho x Hx) as [H ->].
    exfalso. apply (Hout H). by left.
Qed.

Lemma handleSteerCancel_obeys here publishes user body marker a :
  (publishes = true \/ here = n0) -> owes a = [] ->
  obeys even a (handleSteerCancel here publishes user body marker).
Proof.
  intros Hpub Ha. unfold handleSteerCancel, handleSteerCancelInternal. apply even_bind; [|done].
  repeat (case_match; try done). unfold cancelInternal.
  apply even_after; [done | plainly|]. intros job. apply even_after; [done | apply plain_settle|]. intros [settlement saw].
  destruct settlement; [done|]. destruct job as [job|].
  - apply even_bind; [by apply cancelSteer_obeys | done].
  - apply even_after; [done | apply plain_settle|]. by intros [? ?].
Qed.

Lemma armSteer_obeys here publishes user k' id e protocol job a :
  owes a = [] -> obeys even a (armSteerOf here publishes user k' id e protocol job).
Proof.
  intros Ha. unfold armSteerOf. destruct (_ || _); [done|]. destruct (negb _); [done|].
  cbv zeta. unfold value. apply obeys_step; [done|]. intros [out|er]; cbn [pbind ret fail]; [|done].
  destruct out as [rev item| |]; cbn [PreemptRuns.advance]; [|done..].
  match goal with |- obeys _ ?x _ => set (a1 := x) end.
  assert (H1 : owes a1 = [] /\ (ours k' (Some (JobFacade.createdAt job)) = true -> id ∈ seen a1)).
  { subst a1. split; [by destruct (PreemptRuns.ours _ _ _ _)|]. intros ->. apply elem_of_app. right. by left. }
  clearbody a1. destruct H1 as [Ho Hs]. apply even_after; [done | unfold publishSteerUpdate; plainly|]. intros _.
  apply even_settles; [done|]. apply obeys_after; [|done..]. by apply requestPreempt_obeys.
Qed.

Lemma handleSteerArm_obeys here publishes user body marker a :
  owes a = [] -> obeys even a (handleSteerArm here publishes user body marker).
Proof.
  intros Ha. unfold handleSteerArm, handleSteerArmInternal. apply even_bind; [|done].
  repeat (case_match; try done). apply even_after; [done | plainly|]. intros job. destruct job as [job|]; [|done].
  apply even_bind; [by apply armSteer_obeys | done].
Qed.

(** ** Any number of them *)

Definition forget {A} (p : sprog A) : sprog () := await _ <- p; ret tt.

(** What runs: listeners, routes and methods on any replica, for any stream; the boundaries and the
    handovers of the generation are those of the replica that runs it; a route on another replica
    has a channel to publish on. *)
Inductive thread : sprog () -> Prop :=
| runs_listener here k' i : thread (receivePreempt here k' i)
| runs_rearm here publishes k' g' :
    (k' = k -> here = n0 /\ g' = g) -> thread (forget (rearmQueuedPreempts here publishes k' g'))
| runs_boundary here publishes buildsMedia agentId k' e :
    (k' = k -> here = n0 /\ e = Some g) ->
    thread (forget (steerBoundaryHook here publishes buildsMedia agentId k' e))
| runs_request here publishes sha supported maxLength user body deps :
    thread (forget (handleSteerRequest here publishes sha supported maxLength user body deps))
| runs_cancel here publishes user body marker :
    (publishes = true \/ here = n0) -> thread (forget (handleSteerCancel here publishes user body marker))
| runs_arm here publishes user body marker :
    thread (forget (handleSteerArm here publishes user body marker)).

Lemma forget_obeys {A} a (p : sprog A) : obeys even a p -> obeys even a (forget p).
Proof. intros Hp. by apply even_bind. Qed.

Lemma thread_obeys p : thread p -> obeys even idle p.
Proof.
  intros [here k' i|here pub k' g' H|here pub bm agent k' e H|here pub sha sup mx user body deps
    |here pub user body marker H|here pub user body marker];
    [|apply forget_obeys..].
  - apply even_settles; [done|]. apply receivePreempt_obeys.
  - apply even_settles; [done|]. by apply rearm_obeys.
  - by apply boundary_obeys.
  - apply even_settles; [done|]. apply handleSteerRequest_obeys.
  - by apply handleSteerCancel_obeys.
  - by apply handleSteerArm_obeys.
Qed.

(** A generation that begins: an empty queue, a runtime without interrupts, nothing sent. *)
Record begins (w : World) : Prop := {
  bg_store : epochs_ok (store w) /\ (g <= lastGenerationEpoch (store w))%Z;
  bg_empty : queue_of (store w) k = [] /\ claims_of (store w) k = [] /\ minted_of k w = [];
  bg_runtime : forall r, runtime_of (managers w n0) k = Some r -> Runtime.preempt r = None;
  bg_silent : forall msg, (k, msg) ∈ wire w -> PreemptMessage.createdAt msg <> g;
  bg_deaf : forall msg, (n0, i0, (k, msg)) ∉ heard w
}.

Lemma begins_inv w n : begins w -> inv k g n0 i0 w (replicate n idle).
Proof.
  intros [[He Hg] (Hq & Hc & Hm) Hr Hw Hh]. split; [done | done|]. intros _ _.
  assert (Howed : owed (replicate n idle) = []) by (clear; by induction n).
  assert (Hknown : known (replicate n idle) = []) by (clear; by induction n).
  assert (Hnil : forall x : string, x ∈ [] -> False) by (intros x; apply not_elem_of_nil).
  rewrite Howed, Hknown. split; cbn; rewrite ?Hq, ?Hc, ?Hm; try done.
  - intros _. constructor.
  - intros msg Hin Hmsg. by destruct (Hw msg Hin).
  - intros r Hrun _. unfold state_of, ensurePreemptState. rewrite (Hr r Hrun). cbn.
    split; [|done..]. apply (tidy_ensure (Runtime.mk 0 0 false false None) g). by intros st [=].
  - intros r id _ Hin. by destruct (Hnil id).
  - intros r msg id _ Hin. by destruct (Hh msg).
Qed.

(** C6. No interrupt without its steer, for a generation that begins with an empty queue and no
    interrupts: when every request, cancellation, escalation, boundary, handover and listener has
    finished, in whatever order their calls were interleaved, and the running replica has heard of
    the removals that were sent, then a steer that interrupts the run is still in the queue. It
    assumes that no more than PREEMPT_TOMBSTONE_MAX (20) steers were enqueued on the stream, since
    the tombstone of a removed steer can be evicted beyond that; that the boundaries and the
    handover of the generation run on the replica that owns it; that a cancellation elsewhere has a
    channel to publish on; that the job does not move up to the receipt-safe protocol while the
    generation is open; and that, besides, managers neither change the interrupts of a runtime that
    they keep, except by aborting it, nor bring back one that they dropped. *)
Theorem no_interrupt_without_its_steer w ps w' ps' r id :
  begins w -> Forall thread ps ->
  pool_steps (fun R (c : call R) => exec c) (others k g n0 i0) (w, ps) (w', ps') ->
  Forall (fun p => exists x, p = Done x) ps' ->
  open k g (store w') -> watches g i0 (runtime_of (managers w' n0) k) r ->
  length (minted_of k w') <= PREEMPT_TOMBSTONE_MAX ->
  (forall msg x, (k, msg) ∈ wire w' -> disarms g msg x ->
     exists msg', (n0, i0, (k, msg')) ∈ heard w' /\ disarms g msg' x) ->
  id ∈ armed_ids r -> id ∈ steer_ids (queue_of (store w') k).
Proof.
  intros Hb Hps Hsteps Hdone Hopen Hr Hfew Hheard Hid.
  assert (Hi : exists gs, Forall2 (obeys even) gs ps' /\ inv k g n0 i0 w' gs).
  { eapply (protocol_invariant (C := call) (E := failure) (@PreemptRuns.allowed k g n0)
      (fun R (c : call R) r a a' => a' = advance c r a) (fun R (c : call R) => exec c)
      (others k g n0 i0) (inv k g n0 i0)) with (gs := replicate (length ps) idle).
    - intros s gs gs'. apply inv_order.
    - intros R c s x s' a a' gs He Hal -> Hi. by eapply inv_step.
    - intros s s' gs. apply inv_others.
    - exact Hsteps.
    - clear -Hps. induction Hps; constructor; [by apply thread_obeys | done].
    - by apply begins_inv. }
  destruct Hi as (gs & Hf & Hinv).
  pose proof (in_safe _ _ _ _ _ _ Hinv Hfew Hopen) as Hs.
    assert (Howed : owed gs = []).
    { clear -Hf Hdone. induction Hf as [|a p gs ps Hp _ IH]; [done|]. unfold owed in *. cbn.
      apply Forall_cons in Hdone as [(x & ->) Hd]. rewrite (IH Hd). cbn in Hp. by rewrite Hp. }
    pose proof Hr as (Hrun & _ & Hg & _). rewrite armed_ids_state with (g := g) in Hid.
    destruct (sf_fits _ _ _ _ _ _ _ Hs r Hrun Hg) as [[_ _ Hapart _ _] Hin _].
    assert (Hnot : id ∉ PreemptState.cleared (state_of g r)) by auto.
    destruct (sf_known _ _ _ _ _ _ _ Hs r id Hr (Hin _ Hid)) as [[Hq|[Ho|(msg & Hw & Hd)]]|Hc]; [done | | |done].
    + rewrite Howed in Ho. by apply not_elem_of_nil in Ho.
    + destruct (Hheard msg id Hw Hd) as (msg' & Hh & Hd'). destruct Hnot. by eapply (sf_heard _ _ _ _ _ _ _ Hs).
Qed.
End safety.

(** ** A run: a steer that interrupts, from its request to the armed interrupt *)

Module PreemptDemo.
Definition store0 : Store := run_ops [(Update "s1" [F_preemptCapable true] (Some 10%Z), 20%Z)] Demo.running1.
Definition runtime0 : Runtime.t := Runtime.mk 7 10 false false None.
Definition manager0 : Manager.t := Manager.mk [("s1", runtime0)] [("s1", 10%Z)].
Definition world0 : World := mkWorld store0 (fun _ => manager0) [] [] [].

Definition user : SteerRequestUser.t := SteerRequestUser.mk (Some "u1") None.
Definition deps : SteerRequestDeps.t := SteerRequestDeps.mk None false false false false false.
Definition body : SteerRequestBody.t :=
  SteerRequestBody.mk (Some (JStr "s1")) None (Some (JStr "stop")) None None (Some (JBool true)).
Definition facade : JobFacade.t := JobFacade.mk running 10 (Some "u1") None None None None.

Definition request : sprog () :=
  forget (handleSteerRequest 0 true (fun _ => "fp") true 16000%Z user body deps).

(** After the enqueue, and after the interrupt is armed. *)
Definition item0 : SteerQueueItem.t := SteerQueueItem.mk "" None "stop" "u1" 30 None None None.
Definition queued0 : SteerEnqueueOutcome * Store :=
  enqueueSteerVersioned "s1" (with_id "a" item0) true (Some 10%Z) store0.
Definition world1 : World := mint "s1" "a" queued0.1 (with_store queued0.2 world0).
Definition armed1 : option bool * Manager.t := run_sync (ArmOwned "s1" "a" 10 1) manager0.
Definition world2 : World := set_manager 0 armed1.2 world1.
Definition answer : sprog () := ret tt.
End PreemptDemo.

Lemma no_interrupt_without_its_steer_witness :
  "a" ∈ armed_ids (Runtime.mk 7 10 false false (Some (PreemptState.mk 10 ["a"] [] []))) /\
  "a" ∈ steer_ids (queue_of (store PreemptDemo.world2) "s1").
Proof.
  split; [by left|].
  apply (no_interrupt_without_its_steer "s1" 10 0 7 PreemptDemo.world0 [PreemptDemo.request]
           PreemptDemo.world2 [PreemptDemo.answer]
           (Runtime.mk 7 10 false false (Some (PreemptState.mk 10 ["a"] [] [])))).
  - split; [| done | | |].
    + split; [|by vm_compute]. apply (reaches_epochs_ok Demo.store); [|apply epochs_ok_new].
      apply (reaches_trans _ Demo.running1); by apply run_ops_reaches.
    + intros r [= <-]. done.
    + intros msg Hin. by apply not_elem_of_nil in Hin.
    + intros msg. apply not_elem_of_nil.
  - constructor; [|constructor]. apply runs_request.
  - eapply rtc_l; [eapply (step_call _ _ _ _ 0 _ _ _ (Some PreemptDemo.facade)); [reflexivity | exact eq_refl]|].
    eapply rtc_l; [eapply (step_call _ _ _ _ 0 _ _ _ (Some PreemptDemo.facade)); [reflexivity | exact eq_refl]|].
    eapply rtc_l; [eapply (step_call _ _ _ _ 0 _ _ _ 30%Z); [reflexivity | exact eq_refl]|].
    eapply rtc_l; [eapply (step_call _ _ _ _ 0 _ _ _ ("a", PreemptDemo.queued0.1)); [reflexivity |]|].
    { split; [split; [apply not_elem_of_nil|]; by intros c x Hx|]. eexists. split; reflexivity. }
    eapply rtc_l; [eapply (step_call _ _ _ _ 0 _ _ _ PreemptDemo.armed1.1); [reflexivity | by split]|].
    apply rtc_refl.
  - constructor; [|constructor]. by eexists.
  - split; [eexists; split_and!; reflexivity|]. apply not_elem_of_nil.
  - by split_and!.
  - by vm_compute; lia.
  - intros msg x Hin. by apply not_elem_of_nil in Hin.
  - by left.
Defined.
