(* ===== verification/EventTransport.v ===== *)
(** * The in-memory event transport ([stream/implementations/InMemoryEventTransport.ts])

    Listeners per stream on Node's [EventEmitter], and the proofs that a provider execution has
    drained.  A subscription registers three listeners under one identity.  The calls made to
    listeners and callbacks are recorded; they are assumed not to call the transport back. *)

From Stdlib Require Import Ascii.
From stdpp Require Import pretty sorting.
From S2P Require Import Prelude JsMap Json.

(** ** State *)

(** An emitter: the listeners of its three events, in order of registration. *)
Module Emitter.
Record t := mk { chunk : list nat; done_ : list nat; error_ : list nat }.
Definition empty : t := mk [] [] [].
End Emitter.

(** [StreamState] *)
Module StreamState.
Record t := mk { emitter : Emitter.t; allSubscribersLeftCallback : option nat }.
End StreamState.

Inductive Call :=
| OnChunk (listener : nat) (event : json) (generationId : option Z)
| OnDone (listener : nat) (event : json) (generationId : option Z)
| OnError (listener : nat) (error : string) (generationId : option Z)
| AllSubscribersLeft (callback : nat).

Record Transport := {
  streams : jsmap StreamState.t;
  providerDrainProofs : jsmap Z;
  providerDrainWrites : nat;
  fresh : nat;
  calls : list Call
}.

Definition newTransport : Transport := Build_Transport [] [] 0 0 [].

Definition PROVIDER_DRAIN_PROOF_TTL_MS : Z := 5 * 60000.

(** ** Listeners *)

Definition state_of (k : string) (s : Transport) : StreamState.t :=
  default (StreamState.mk Emitter.empty None) (mget (streams s) k).

Definition put (k : string) (st : StreamState.t) (s : Transport) : Transport :=
  {| s with streams := mset (streams s) k st |}.
Definition note (l : list Call) (s : Transport) : Transport := {| s with calls := calls s ++ l |}.

Definition on (id : nat) (e : Emitter.t) : Emitter.t :=
  Emitter.mk (Emitter.chunk e ++ [id]) (Emitter.done_ e ++ [id]) (Emitter.error_ e ++ [id]).

(** [subscribe(streamId, handlers)]: the identity under which [unsubscribe] is called. *)
Definition subscribe (k : string) (s : Transport) : nat * Transport :=
  let st := state_of k s in
  let id := fresh s in
  (id,
   {| (put k {| st with StreamState.emitter := on id (StreamState.emitter st) |} s)
      with fresh := S id |}).

Definition off (id : nat) (e : Emitter.t) : Emitter.t :=
  let without := filter (fun l => l <> id) in
  Emitter.mk (without (Emitter.chunk e)) (without (Emitter.done_ e)) (without (Emitter.error_ e)).

Definition call_left (st : StreamState.t) : list Call :=
  AllSubscribersLeft <$> option_list (StreamState.allSubscribersLeftCallback st).

(** The [unsubscribe] closure of a subscription. *)
Definition unsubscribe (k : string) (id : nat) (s : Transport) : Transport :=
  match mget (streams s) k with
  | None => s
  | Some st =>
      let e := StreamState.emitter st in
      if negb (bool_decide (id ∈ Emitter.chunk e)) then s
      else
        let e' := off id e in
        if decide (Emitter.chunk e' = [])
        then note (call_left st) (put k {| st with StreamState.emitter := Emitter.empty |} s)
        else put k {| st with StreamState.emitter := e' |} s
  end.

Definition listeners_of (f : Emitter.t -> list nat) (k : string) (s : Transport) : list nat :=
  match mget (streams s) k with Some st => f (StreamState.emitter st) | None => [] end.

Definition emitChunk (k : string) (event : json) (generationId : option Z) (s : Transport)
  : Transport :=
  note ((fun l => OnChunk l event generationId) <$> listeners_of Emitter.chunk k s) s.
Definition emitDone (k : string) (event : json) (generationId : option Z) (s : Transport)
  : Transport :=
  note ((fun l => OnDone l event generationId) <$> listeners_of Emitter.done_ k s) s.
(** Nothing is emitted without a listener: Node throws on an unhandled [error] event. *)
Definition emitError (k error : string) (generationId : option Z) (s : Transport) : Transport :=
  note ((fun l => OnError l error generationId) <$> listeners_of Emitter.error_ k s) s.

Definition getSubscriberCount (k : string) (s : Transport) : nat :=
  length (listeners_of Emitter.chunk k s).
Definition isFirstSubscriber (k : string) (s : Transport) : bool :=
  bool_decide (getSubscriberCount k s = 1).

Definition onAllSubscribersLeft (k : string) (callback : nat) (s : Transport) : Transport :=
  put k {| (state_of k s) with StreamState.allSubscribersLeftCallback := Some callback |} s.

Definition closeLocalSubscribers (k error : string) (s : Transport) : Transport :=
  match mget (streams s) k with
  | None => s
  | Some st =>
      let e := StreamState.emitter st in
      let s1 := note ((fun l => OnError l error None) <$> Emitter.error_ e) s in
      if decide (Emitter.chunk e = []) then s1
      else note (call_left st) (put k {| st with StreamState.emitter := Emitter.empty |} s1)
  end.

Definition cleanup (k : string) (s : Transport) : Transport :=
  {| s with streams := mdel (streams s) k |}.
Definition getStreamCount (s : Transport) : nat := length (streams s).
Definition getTrackedStreamIds (s : Transport) : list string := mkeys (streams s).

(** ** Provider drain proofs *)

Definition providerDrainKey (k : string) (generationId : Z) (providerExecutionId : string) : string :=
  k +:+ ":" +:+ pretty generationId +:+ ":" +:+ providerExecutionId.

(** The sweep of every 256th write. *)
Definition sweep (now : Z) (m : jsmap Z) : jsmap Z :=
  mprune (fun _ e => bool_decide (e <= now)%Z) m.

Definition recordProviderDrain (k : string) (generationId : Z) (providerExecutionId : string)
    (now : Z) (s : Transport) : Transport :=
  let writes := S (providerDrainWrites s) in
  let m := if decide (Nat.modulo writes 256 = 0) then sweep now (providerDrainProofs s)
           else providerDrainProofs s in
  {| s with providerDrainWrites := writes;
     providerDrainProofs :=
       mset m (providerDrainKey k generationId providerExecutionId)
         (now + PROVIDER_DRAIN_PROOF_TTL_MS)%Z |}.

Definition hasProviderDrain (k : string) (generationId : Z) (providerExecutionId : string)
    (now : Z) (s : Transport) : bool * Transport :=
  let key := providerDrainKey k generationId providerExecutionId in
  match mget (providerDrainProofs s) key with
  | None => (false, s)
  | Some e =>
      if decide (e <= now)%Z
      then (false, {| s with providerDrainProofs := mdel (providerDrainProofs s) key |})
      else (true, s)
  end.

Definition destroy (s : Transport) : Transport :=
  {| s with streams := []; providerDrainProofs := []; providerDrainWrites := 0 |}.

(** ** Operations at instants of a clock that never goes back *)

Inductive TransportOp :=
| Subscribe (k : string)
| Unsubscribe (k : string) (id : nat)
| EmitChunk (k : string) (event : json) (generationId : option Z)
| EmitDone (k : string) (event : json) (generationId : option Z)
| EmitError (k error : string) (generationId : option Z)
| WhenAllLeft (k : string) (callback : nat)
| CloseLocal (k error : string)
| CleanupStream (k : string)
| RecordDrain (k : string) (generationId : Z) (providerExecutionId : string)
| QueryDrain (k : string) (generationId : Z) (providerExecutionId : string).

Definition apply_op (s : Transport) (o : TransportOp * Z) : Transport :=
  match o.1 with
  | Subscribe k => (subscribe k s).2
  | Unsubscribe k id => unsubscribe k id s
  | EmitChunk k e g => emitChunk k e g s
  | EmitDone k e g => emitDone k e g s
  | EmitError k e g => emitError k e g s
  | WhenAllLeft k c => onAllSubscribersLeft k c s
  | CloseLocal k e => closeLocalSubscribers k e s
  | CleanupStream k => cleanup k s
  | RecordDrain k g p => recordProviderDrain k g p o.2 s
  | QueryDrain k g p => (hasProviderDrain k g p o.2 s).2
  end.

Definition run_transport (l : list (TransportOp * Z)) (s : Transport) : Transport :=
  foldl apply_op s l.

(** ** Listeners are consistent *)

Record listening (s : Transport) : Prop := {
  li_same : forall k st, mget (streams s) k = Some st ->
    Emitter.done_ (StreamState.emitter st) = Emitter.chunk (StreamState.emitter st) /\
    Emitter.error_ (StreamState.emitter st) = Emitter.chunk (StreamState.emitter st) /\
    NoDup (Emitter.chunk (StreamState.emitter st));
  li_fresh : forall k st id, mget (streams s) k = Some st ->
    id ∈ Emitter.chunk (StreamState.emitter st) -> id < fresh s
}.

Lemma mget_put k st s k' :
  mget (streams (put k st s)) k' = if decide (k = k') then Some st else mget (streams s) k'.
Proof. apply mget_mset. Qed.

Lemma listening_put k st s :
  listening s ->
  Emitter.done_ (StreamState.emitter st) = Emitter.chunk (StreamState.emitter st) /\
  Emitter.error_ (StreamState.emitter st) = Emitter.chunk (StreamState.emitter st) /\
  NoDup (Emitter.chunk (StreamState.emitter st)) ->
  (forall id, id ∈ Emitter.chunk (StreamState.emitter st) -> id < fresh s) -> listening (put k st s).
Proof.
  intros [H1 H2] Hst Hid. split.
  - intros k' st'. rewrite mget_put. case_decide; [by intros [= <-] | apply H1].
  - intros k' st' id. rewrite mget_put. case_decide; [intros [= <-]; apply Hid | apply H2].
Qed.

Lemma listening_state_of k s :
  listening s ->
  let e := StreamState.emitter (state_of k s) in
  Emitter.done_ e = Emitter.chunk e /\ Emitter.error_ e = Emitter.chunk e /\
  NoDup (Emitter.chunk e) /\ forall id, id ∈ Emitter.chunk e -> id < fresh s.
Proof.
  intros [H1 H2]. unfold state_of. destruct (mget (streams s) k) as [st|] eqn:E; simpl.
  - destruct (H1 k st E) as (? & ? & ?). split_and!; eauto.
  - split_and!; [done | done | constructor | by intros ? ?%elem_of_nil].
Qed.

Lemma listening_same s s' :
  streams s' = streams s -> fresh s' = fresh s -> listening s -> listening s'.
Proof. intros Hs Hf [H1 H2]. split; rewrite ?Hs, ?Hf; auto. Qed.

Lemma listening_unsubscribe k id s : listening s -> listening (unsubscribe k id s).
Proof.
  intros Hs. unfold unsubscribe. destruct (mget (streams s) k) as [st|] eqn:E; [|done].
  destruct (negb _); [done|]. pose proof Hs as [H1 H2]. destruct (H1 k st E) as (Hd & He & Hn).
  case_decide.
  - eapply (listening_same (put k _ s)); [done | done|]. apply listening_put; [done| |].
    + split_and!; [done | done | constructor].
    + by intros ? ?%elem_of_nil.
  - apply listening_put; [done| |]; simpl.
    + rewrite Hd, He. split_and!; [done | done | by apply NoDup_filter].
    + intros i [_ Hi]%list_elem_of_filter. eauto.
Qed.

Lemma listening_op s o : listening s -> listening (apply_op s o).
Proof.
  intros Hs. destruct o as [[k|k id|k e g|k e g|k e g|k c|k e|k|k g p|k g p] now];
    unfold apply_op; cbn [fst snd].
  - destruct (listening_state_of k s Hs) as (H1 & H2 & H3 & H4). unfold subscribe. simpl.
    split; simpl.
    + intros k' st'. rewrite mget_mset. case_decide; [|by apply Hs]. intros [= <-]. simpl.
      rewrite H1, H2. split_and!; [done | done|]. apply NoDup_app. split; [done|].
      split; [|apply NoDup_singleton]. intros i Hi ->%list_elem_of_singleton. apply H4 in Hi. lia.
    + intros k' st' i. rewrite mget_mset. case_decide.
      * intros [= <-]. simpl. intros [Hi%H4|Hi%list_elem_of_singleton]%elem_of_app; lia.
      * intros Hk Hi. pose proof (li_fresh _ Hs _ _ _ Hk Hi). lia.
  - by apply listening_unsubscribe.
  - by apply (listening_same s).
  - by apply (listening_same s).
  - by apply (listening_same s).
  - destruct (listening_state_of k s Hs) as (H1 & H2 & H3 & H4).
    apply listening_put; [done | simpl; auto | exact H4].
  - unfold closeLocalSubscribers. destruct (mget (streams s) k) as [st|]; [|done].
    case_decide; [by apply (listening_same s)|].
    eapply (listening_same (put k _ s)); [done | done|]. apply listening_put; [done| |].
    + split_and!; [done | done | constructor].
    + by intros ? ?%elem_of_nil.
  - destruct Hs as [H1 H2]. split; simpl; intros k' st'; [|intros id]; rewrite mget_mdel;
      (case_decide; [done|]); [apply H1 | apply H2].
  - by apply (listening_same s).
  - apply (listening_same s); [| |done]; unfold hasProviderDrain;
      (destruct (mget (providerDrainProofs s) _); [|done]); by case_decide.
Qed.

Lemma listening_run l s : listening s -> listening (run_transport l s).
Proof. revert s. induction l as [|o l IH]; intros s Hs; simpl; [done|]. by apply IH, listening_op. Qed.

(** ** Drain proofs and their keys *)

Fixpoint colon_free (s : string) : bool :=
  match s with
  | EmptyString => true
  | String c rest => negb (bool_decide (c = ":"%char)) && colon_free rest
  end.

Lemma colon_split a b x y :
  colon_free a = true -> colon_free b = true -> a +:+ ":" +:+ x = b +:+ ":" +:+ y -> a = b /\ x = y.
Proof.
  revert b. induction a as [|c a IH]; intros [|d b]; simpl.
  - intros _ _ [= H]. by simpl in H; subst.
  - intros _ Hb [= <- _]. by rewrite bool_decide_true in Hb.
  - intros Ha _ [= -> _]. by rewrite bool_decide_true in Ha.
  - intros [_ Ha]%andb_true_iff [_ Hb]%andb_true_iff [= -> H]. destruct (IH b Ha Hb H) as [-> ->]. done.
Qed.

Lemma pretty_N_colon_free (n : N) s : colon_free s = true -> colon_free (pretty_N_go n s) = true.
Proof.
  revert s. induction (N.lt_wf_0 n) as [n _ IH]. intros s Hs.
  destruct (decide (0 < n)%N) as [Hn|Hn].
  - rewrite pretty_N_go_step by done. apply IH; [by apply N.div_lt|]. simpl. rewrite Hs, andb_true_r.
    unfold pretty_N_char. by repeat case_match.
  - replace n with 0%N by lia. by rewrite pretty_N_go_0.
Qed.

Lemma pretty_Z_colon_free (z : Z) : colon_free (pretty z) = true.
Proof.
  assert (HN : forall n : N, colon_free (pretty n) = true).
  { intros n. unfold pretty, pretty_N. case_decide; [done|]. by apply pretty_N_colon_free. }
  destruct z as [|p|p]; [done | apply HN |].
  change (colon_free (pretty (Z.neg p))) with (colon_free (pretty (N.pos p))). apply HN.
Qed.

Lemma providerDrainKey_inj k g p k' g' p' :
  colon_free k = true -> colon_free k' = true ->
  providerDrainKey k g p = providerDrainKey k' g' p' -> k = k' /\ g = g' /\ p = p'.
Proof.
  unfold providerDrainKey. intros Hk Hk' H.
  apply colon_split in H as [-> H]; [|done|done].
  apply colon_split in H as [Hg ->]; [|apply pretty_Z_colon_free|apply pretty_Z_colon_free].
  by apply (inj pretty) in Hg as ->.
Qed.

(** The instant of the last record of an execution in a history. *)
Definition recorded_at (k : string) (g : Z) (p : string) (o : TransportOp * Z) : option Z :=
  match o.1 with
  | RecordDrain k' g' p' => if decide (k' = k /\ g' = g /\ p' = p) then Some o.2 else None
  | _ => None
  end.
Definition last_recorded (k : string) (g : Z) (p : string) (l : list (TransportOp * Z)) : option Z :=
  last (omap (recorded_at k g p) l).

(** The clock of a history does not go back, and the streams it records have no colon in their id
    (they are UUIDs). *)
Definition orderly (l : list (TransportOp * Z)) : Prop :=
  StronglySorted (fun a b => a.2 <= b.2)%Z l /\
  Forall (fun o => match o.1 with RecordDrain k _ _ => colon_free k = true | _ => True end) l.

(** The proof of the last record is there, or it has expired. *)
Definition proof_is (m : jsmap Z) (key : string) (t : option Z) (now : Z) : Prop :=
  match t with
  | Some t => mget m key = Some (t + PROVIDER_DRAIN_PROOF_TTL_MS)%Z \/
              mget m key = None /\ (t + PROVIDER_DRAIN_PROOF_TTL_MS <= now)%Z
  | None => mget m key = None
  end.

Lemma proof_is_later m key t now now' : (now <= now')%Z -> proof_is m key t now -> proof_is m key t now'.
Proof. unfold proof_is. destruct t; [|done]. intros ? [?|[? ?]]; [by left | right; split; [done|lia]]. Qed.

Lemma proof_is_sweep m key t now : mwf m -> proof_is m key t now -> proof_is (sweep now m) key t now.
Proof.
  intros Hwf. unfold proof_is, sweep. rewrite mget_mprune_wf by done. destruct t as [t|].
  - intros [->|[-> ?]]; simpl; [|by right]. case_bool_decide; [right; split; [done|lia] | by left].
  - by intros ->.
Qed.

Lemma orderly_snoc l o :
  orderly (l ++ [o]) -> orderly l /\ (forall x, x ∈ l -> (x.2 <= o.2)%Z) /\
  match o.1 with RecordDrain k _ _ => colon_free k = true | _ => True end.
Proof.
  intros [Hs Hf]. apply Forall_app in Hf as [Hf Ho]. apply Forall_cons in Ho as [Ho _].
  apply StronglySorted_app in Hs as (Hle & Hs & _). split_and!; [by split | | done].
  intros x Hx. apply Hle; [done | by left].
Qed.

Lemma last_recorded_snoc k g p l o :
  last_recorded k g p (l ++ [o]) =
  match recorded_at k g p o with Some t => Some t | None => last_recorded k g p l end.
Proof.
  unfold last_recorded. rewrite omap_app. simpl.
  destruct (recorded_at k g p o); [by rewrite last_snoc | by rewrite app_nil_r].
Qed.

Lemma record_proof k g p k' g' p' t s lr :
  colon_free k = true -> colon_free k' = true ->
  mwf (providerDrainProofs s) ->
  proof_is (providerDrainProofs s) (providerDrainKey k g p) lr t ->
  let m := providerDrainProofs (recordProviderDrain k' g' p' t s) in
  mwf m /\ proof_is m (providerDrainKey k g p)
    (if decide (k' = k /\ g' = g /\ p' = p) then Some t else lr) t.
Proof.
  intros Hk Hk' Hwf Hp. unfold recordProviderDrain. cbn zeta. cbn [providerDrainProofs].
  set (m := if decide (Nat.modulo _ 256 = 0) then _ else _).
  assert (Hm : mwf m /\ proof_is m (providerDrainKey k g p) lr t).
  { subst m. case_decide; [|done]. split; [by apply mwf_mprune | by apply proof_is_sweep]. }
  clearbody m. destruct Hm as [Hwm Hpm]. split; [by apply mwf_mset|]. case_decide as Hd.
  - destruct Hd as (-> & -> & ->). left. apply mget_mset_eq.
  - unfold proof_is in *. rewrite mget_mset_ne; [done|].
    intros He. apply Hd. by apply providerDrainKey_inj in He.
Qed.

Lemma query_proof key k' g' p' t s lr :
  mwf (providerDrainProofs s) -> proof_is (providerDrainProofs s) key lr t ->
  let m := providerDrainProofs (hasProviderDrain k' g' p' t s).2 in
  mwf m /\ proof_is m key lr t.
Proof.
  intros Hwf Hp. unfold hasProviderDrain.
  destruct (mget (providerDrainProofs s) (providerDrainKey k' g' p')) as [e|] eqn:E; [|done].
  case_decide as He; [|done]. cbn. split; [by apply mwf_mdel|].
  destruct (decide (providerDrainKey k' g' p' = key)) as [<-|Hne].
  - unfold proof_is in *. rewrite mget_mdel_eq. destruct lr as [t0|]; [|done].
    right. split; [done|]. destruct Hp as [Hp|[Hp _]]; rewrite E in Hp; [|done]. by injection Hp as ->.
  - unfold proof_is in *. by rewrite mget_mdel_ne.
Qed.

Lemma drain_history l k g p now :
  orderly l -> colon_free k = true -> (forall o, o ∈ l -> (o.2 <= now)%Z) ->
  let m := providerDrainProofs (run_transport l newTransport) in
  mwf m /\ proof_is m (providerDrainKey k g p) (last_recorded k g p l) now.
Proof.
  intros Hl Hk. revert now. induction l as [|o l IH] using rev_ind; intros now Hnow.
  { split; [constructor | done]. }
  apply orderly_snoc in Hl as (Hl & Hle & Ho). destruct (IH Hl o.2 Hle) as [Hwf Hp]. clear IH.
  unfold run_transport in *. rewrite foldl_app. cbn [foldl].
  set (s := foldl apply_op newTransport l) in *.
  assert (H : mwf (providerDrainProofs (apply_op s o)) /\
    proof_is (providerDrainProofs (apply_op s o)) (providerDrainKey k g p)
      (last_recorded k g p (l ++ [o])) o.2).
  { rewrite last_recorded_snoc. unfold recorded_at. destruct o as [o t]. cbn [fst snd] in *.
    destruct o as [k'|k' id|k' e g'|k' e g'|k' e g'|k' c|k' e|k'|k' g' p'|k' g' p'];
      unfold apply_op; cbn [fst snd]; try done.
    - unfold unsubscribe. destruct (mget (streams s) k'); [|done]. destruct (negb _); [done|].
      by case_decide.
    - unfold closeLocalSubscribers. destruct (mget (streams s) k'); [|done]. by case_decide.
    - destruct (record_proof k g p k' g' p' t s _ Hk Ho Hwf Hp) as [? Hr]. split; [done|].
      by case_decide.
    - by apply query_proof. }
  destruct H as [? H]. split; [done|]. eapply proof_is_later; [|exact H]. apply Hnow. set_solver.
Qed.

(** ** Theorems *)

(** An unsubscription concerns its own subscription only.  In every reachable transport, the
    [unsubscribe] of a live subscription removes its three listeners, and no others, and tells the
    owner that all subscribers have left exactly when it was the last one; the [unsubscribe] of a
    subscription that is gone (unsubscribed before, closed, or of a stream that was cleaned up,
    even if the stream was opened anew since) changes nothing. *)
Theorem unsubscribe_is_exact l k id :
  let s := run_transport l newTransport in
  let s' := unsubscribe k id s in
  let before := listeners_of Emitter.chunk k s in
  let after := filter (fun i => i <> id) before in
  (id ∈ before ->
     listeners_of Emitter.chunk k s' = after /\ listeners_of Emitter.done_ k s' = after /\
     listeners_of Emitter.error_ k s' = after /\
     calls s' = calls s ++ (if decide (after = []) then call_left (state_of k s) else [])) /\
  (id ∉ before -> s' = s) /\
  forall k', k' <> k -> mget (streams s') k' = mget (streams s) k'.
Proof.
  cbn zeta. set (s := run_transport l newTransport).
  assert (Hs : listening s) by (apply listening_run; split; by intros ? ? ?).
  unfold unsubscribe, listeners_of, state_of. destruct (mget (streams s) k) as [st|] eqn:E.
  2: { split_and!; [by intros ?%elem_of_nil | done | done]. }
  destruct (li_same _ Hs k st E) as (Hd & He & Hn).
  destruct (decide (id ∈ Emitter.chunk (StreamState.emitter st))) as [Hin|Hin].
  - rewrite bool_decide_true by done. cbn [negb]. split_and!; [intros _ | done |].
    + unfold off. cbn [Emitter.chunk]. set (after := filter _ (Emitter.chunk _)).
      case_decide as Ha; cbn [streams calls note put]; rewrite mget_mset_eq; cbn.
      * by rewrite Ha.
      * rewrite Hd, He, app_nil_r. done.
    + intros k' Hk. case_decide; cbn [streams note put]; by rewrite mget_mset_ne.
  - rewrite bool_decide_false by done. by split_and!.
Qed.

(** Drain proofs are exact.  Over a history whose clock does not go back and whose streams have
    no colon in their id, the transport confirms that a provider execution has drained exactly
    when that very execution was recorded less than five minutes ago, whatever the other records,
    queries and sweeps in between. *)
Theorem drain_proofs_are_exact l k g p now :
  orderly l -> colon_free k = true -> (forall o, o ∈ l -> (o.2 <= now)%Z) ->
  (hasProviderDrain k g p now (run_transport l newTransport)).1 = true <->
  exists t, last_recorded k g p l = Some t /\ (now < t + PROVIDER_DRAIN_PROOF_TTL_MS)%Z.
Proof.
  intros Hl Hk Hnow. destruct (drain_history l k g p now Hl Hk Hnow) as [_ Hp].
  unfold hasProviderDrain. unfold proof_is in Hp. destruct (last_recorded k g p l) as [t|].
  - destruct Hp as [->|[-> He]].
    + case_decide; simpl; split; try done; [intros (t' & [= <-] & ?); lia|].
      intros _. exists t. split; [done | lia].
    + simpl. split; [done|]. intros (t' & [= <-] & ?). lia.
  - rewrite Hp. simpl. split; [done | by intros (? & ? & _)].
Qed.

Lemma drain_proofs_are_exact_witness :
  (hasProviderDrain "s1" 7 "x" 400 (run_transport [(RecordDrain "s1" 7 "x", 100%Z);
     (RecordDrain "s1" 8 "x", 200%Z)] newTransport)).1 = true /\
  last_recorded "s1" 7 "x" [(RecordDrain "s1" 7 "x", 100%Z); (RecordDrain "s1" 8 "x", 200%Z)]
    = Some 100%Z.
Proof.
  split; [|by vm_compute].
  apply (drain_proofs_are_exact [(RecordDrain "s1" 7 "x", 100%Z); (RecordDrain "s1" 8 "x", 200%Z)]).
  - split; [|by repeat constructor]. constructor; [by repeat constructor|].
    apply Forall_cons. split; [simpl; lia | by apply Forall_nil].
  - by vm_compute.
  - intros o [->|[->|Ho%elem_of_nil]%elem_of_cons]%elem_of_cons; simpl; [lia | lia | done].
  - exists 100%Z. split; [by vm_compute | by vm_compute].
Defined.

(** Without that condition two executions can share a proof. *)
Example colliding_drain_keys :
  (hasProviderDrain "a" 1 "2:x" 10 (run_transport [(RecordDrain "a:1" 2 "x", 5%Z)] newTransport)).1
    = true.
Proof. by vm_compute. Qed.
