(* ===== verification/RedisFrames.v ===== *)
(** * Frames of the Redis event transport ([stream/implementations/RedisEventTransport.ts])

    The pub/sub channel of a stream, the messages that travel on it, and their JSON form.  A frame
    is published by splicing the sequence number, allocated by the server, between two fragments
    serialized by the sender; the result is the JSON of the message with its number, which is how
    it is written here ([wire]).  That the characters come out as this JSON is shown in
    [RedisSplicing].  [decode] reads a frame back by the property accesses of [handleMessage];
    shapes that no sender produces give [None]. *)

From Stdlib Require Import Ascii.
From S2P Require Import Prelude JsMap Json.

(** ** Channels *)

(** [CHANNELS.events(streamId)] *)
Definition events_channel (streamId : string) : string := "stream:{" +:+ streamId +:+ "}:events".

(** [s.startsWith(p)], with the rest of [s]. *)
Fixpoint strip_prefix (p s : string) : option string :=
  match p, s with
  | EmptyString, _ => Some s
  | String c p, String d s => if decide (c = d) then strip_prefix p s else None
  | _, _ => None
  end.

(** The longest prefix without a closing brace, and what follows it. *)
Fixpoint until_brace (s : string) : string * string :=
  match s with
  | EmptyString => (EmptyString, EmptyString)
  | String c rest =>
      if decide (c = "}"%char) then (EmptyString, s)
      else let '(a, b) := until_brace rest in (String c a, b)
  end.

(** [channel.match(/^stream:\{([^}]+)\}:events$/)]: the captured stream id. *)
Definition stream_of_channel (channel : string) : option string :=
  match strip_prefix "stream:{" channel with
  | None => None
  | Some rest =>
      let '(streamId, suffix) := until_brace rest in
      if decide (streamId <> "" /\ suffix = "}:events") then Some streamId else None
  end.

(** ** Messages *)

(** [EventTypes] *)
Inductive EventType := CHUNK | CHUNK_BATCH | DONE | ERROR | ABORT | ABORT_ACK | PREEMPT.

#[export] Instance EventType_eq_dec : EqDecision EventType.
Proof. solve_decision. Defined.

Definition type_name (t : EventType) : string :=
  match t with
  | CHUNK => "chunk" | CHUNK_BATCH => "chunk_batch" | DONE => "done" | ERROR => "error"
  | ABORT => "abort" | ABORT_ACK => "abort_ack" | PREEMPT => "preempt"
  end.

Definition all_types : list EventType := [CHUNK; CHUNK_BATCH; DONE; ERROR; ABORT; ABORT_ACK; PREEMPT].

(** [PreemptMessage] ([stream/interfaces/IJobStore.ts]) *)
Inductive PreemptOp := arm | clear.

Module PreemptMessage.
Record t := mk {
  op : PreemptOp;
  createdAt : Z;
  steerIds : list string;
  revisions : option (jsmap Z)
}.
End PreemptMessage.

(** [PubSubMessage] *)
Module PubSubMessage.
Record t := mk {
  type : EventType;
  seq : option Z;
  data : option json;
  error : option string;
  baseSeq : option Z;
  events : option (list json);
  generationId : option Z;
  abortRequestId : option string;
  preempt : option PreemptMessage.t
}.
(** [{ type }] *)
Definition of_type (ty : EventType) : t := mk ty None None None None None None None None.
End PubSubMessage.

#[export] Instance PreemptOp_eq_dec : EqDecision PreemptOp.
Proof. solve_decision. Defined.
#[export] Instance PreemptMessage_eq_dec : EqDecision PreemptMessage.t.
Proof. solve_decision. Defined.
#[export] Instance PubSubMessage_eq_dec : EqDecision PubSubMessage.t.
Proof. solve_decision. Defined.

(** ** JSON form *)

Definition jint (z : Z) : json := JNum (NInt z).
Definition as_int (x : option json) : option Z :=
  match x with Some (JNum (NInt z)) => Some z | _ => None end.

Definition revisions_json (r : jsmap Z) : json := JObj ((fun e => (e.1, jint e.2)) <$> r).
Definition preempt_json (p : PreemptMessage.t) : json :=
  JObj ([("op", JStr (match PreemptMessage.op p with arm => "arm" | clear => "clear" end));
         ("createdAt", jint (PreemptMessage.createdAt p));
         ("steerIds", JArr (JStr <$> PreemptMessage.steerIds p))] ++
        opt_prop "revisions" (revisions_json <$> PreemptMessage.revisions p)).

(** The frame of a message: [type] and the spliced number first, then the other properties. *)
Definition wire (m : PubSubMessage.t) : json :=
  JObj ([("type", JStr (type_name (PubSubMessage.type m)))] ++
        opt_prop "seq" (jint <$> PubSubMessage.seq m) ++
        opt_prop "baseSeq" (jint <$> PubSubMessage.baseSeq m) ++
        opt_prop "data" (PubSubMessage.data m) ++
        opt_prop "error" (JStr <$> PubSubMessage.error m) ++
        opt_prop "generationId" (jint <$> PubSubMessage.generationId m) ++
        opt_prop "events" (JArr <$> PubSubMessage.events m) ++
        opt_prop "abortRequestId" (JStr <$> PubSubMessage.abortRequestId m) ++
        opt_prop "preempt" (preempt_json <$> PubSubMessage.preempt m)).

(** The event type of a name. *)
Definition type_of (x : option json) : option EventType :=
  match as_string x with
  | Some s => find_first (fun t => bool_decide (type_name t = s)) all_types
  | None => None
  end.

Definition strings_of (l : list json) : list string := omap (fun i => as_string (Some i)) l.
Definition revisions_of (v : json) : option (jsmap Z) :=
  match v with
  | JObj r => Some (omap (fun e => pair e.1 <$> as_int (Some e.2)) r)
  | _ => None
  end.

Definition preempt_of (v : json) : option PreemptMessage.t :=
  match as_string (jfield v "op"), as_int (jfield v "createdAt"), as_array (jfield v "steerIds") with
  | Some op, Some createdAt, Some ids =>
      Some (PreemptMessage.mk (if decide (op = "arm") then arm else clear) createdAt
        (strings_of ids) (jfield v "revisions" ≫= revisions_of))
  | _, _, _ => None
  end.

(** The message that a parsed frame stands for. *)
Definition decode (v : json) : option PubSubMessage.t :=
  (fun ty => PubSubMessage.mk ty (as_int (jfield v "seq")) (jfield v "data")
     (as_string (jfield v "error")) (as_int (jfield v "baseSeq")) (as_array (jfield v "events"))
     (as_int (jfield v "generationId")) (as_string (jfield v "abortRequestId"))
     (jfield v "preempt" ≫= preempt_of))
  <$> type_of (jfield v "type").

(** ** Lemmas *)

Lemma type_of_name t : type_of (Some (JStr (type_name t))) = Some t.
Proof. by destruct t. Qed.

Lemma omap_inv {A B} (f : B -> option A) (g : A -> B) (l : list A) :
  (forall x, f (g x) = Some x) -> omap f (g <$> l) = l.
Proof.
  intros H. induction l as [|x l IH]; [done|]. rewrite fmap_cons. cbn [omap list_omap].
  rewrite H. f_equal. exact IH.
Qed.

Lemma strings_of_json l : strings_of (JStr <$> l) = l.
Proof. unfold strings_of. by apply omap_inv. Qed.
Lemma revisions_of_json r : revisions_of (revisions_json r) = Some r.
Proof. unfold revisions_of, revisions_json. f_equal. apply omap_inv. by intros []. Qed.

Lemma preempt_of_json p : preempt_of (preempt_json p) = Some p.
Proof.
  destruct p as [op z ids r]. unfold preempt_of.
  assert (Hr : jfield (preempt_json (PreemptMessage.mk op z ids r)) "revisions" = revisions_json <$> r)
    by (by destruct r).
  trans (Some (PreemptMessage.mk op z (strings_of (JStr <$> ids))
    (jfield (preempt_json (PreemptMessage.mk op z ids r)) "revisions" ≫= revisions_of)));
    [by destruct op|].
  rewrite Hr, strings_of_json. destruct r as [r|]; [|done].
  change ((revisions_json <$> Some r) ≫= revisions_of) with (revisions_of (revisions_json r)).
  by rewrite revisions_of_json.
Qed.

Lemma strip_prefix_some p s r : strip_prefix p s = Some r -> s = p +:+ r.
Proof.
  revert s. induction p as [|c p IH]; intros s; simpl; [by intros [= ->]|].
  destruct s as [|d s]; [done|]. case_decide as Hc; [|done]. subst d. intros Hs. by rewrite (IH s Hs).
Qed.
Lemma strip_prefix_app p s : strip_prefix p (p +:+ s) = Some s.
Proof. induction p as [|c p IH]; simpl; [done|]. by rewrite decide_True. Qed.

(** No closing brace occurs in the text. *)
Fixpoint brace_free (s : string) : bool :=
  match s with
  | EmptyString => true
  | String c rest => negb (bool_decide (c = "}"%char)) && brace_free rest
  end.

Lemma until_brace_app s rest :
  brace_free s = true -> until_brace (s +:+ String "}" rest) = (s, String "}" rest).
Proof.
  induction s as [|c s IH]; simpl; [done|]. intros [Hc Hs]%andb_true_iff. bool_facts.
  by rewrite decide_False, IH.
Qed.

Lemma until_brace_split s : until_brace s = ((until_brace s).1, (until_brace s).2) /\
  s = (until_brace s).1 +:+ (until_brace s).2 /\ brace_free (until_brace s).1 = true.
Proof.
  induction s as [|c s (IH1 & IH2 & IH3)]; simpl; [done|]. case_decide as Hc; [by subst|].
  destruct (until_brace s) as [a b]. simpl in *. subst s. split_and!; [done | done|].
  by rewrite bool_decide_false.
Qed.

Lemma channel_of_stream k : k <> "" -> brace_free k = true -> stream_of_channel (events_channel k) = Some k.
Proof.
  intros Hk Hb. unfold stream_of_channel, events_channel. rewrite strip_prefix_app.
  change ("}:events") with (String "}" ":events"). rewrite until_brace_app by done.
  by rewrite decide_True.
Qed.

Lemma mget_opt_eq k x (m : list (string * json)) :
  mget (opt_prop k x ++ m) k = match x with Some v => Some v | None => mget m k end.
Proof. destruct x as [v|]; simpl; [by rewrite decide_True | done]. Qed.
Lemma mget_opt_ne k x (m : list (string * json)) k' :
  k <> k' -> mget (opt_prop k x ++ m) k' = mget m k'.
Proof. intros H. destruct x as [v|]; simpl; [by rewrite decide_False | done]. Qed.

Lemma decode_wire m : decode (wire m) = Some m.
Proof.
  destruct m as [ty seq data err base evs gen req pre]. unfold decode, wire.
  rewrite <- (app_nil_r (opt_prop "preempt" _)). simpl.
  rewrite type_of_name. simpl. f_equal.
  f_equal; (repeat (rewrite mget_opt_ne by done)); rewrite mget_opt_eq;
    (repeat (rewrite mget_opt_ne by done)); simpl;
    [by destruct seq | by destruct data | by destruct err | by destruct base |
     by destruct evs | by destruct gen | by destruct req |].
  destruct pre as [p|]; [|done]. simpl. by rewrite preempt_of_json.
Qed.

Lemma channel_unique k channel : stream_of_channel channel = Some k -> channel = events_channel k.
Proof.
  unfold stream_of_channel. destruct (strip_prefix "stream:{" channel) as [rest|] eqn:Hs; [|done].
  apply strip_prefix_some in Hs as ->. destruct (until_brace_split rest) as (Hp & Hr & _).
  destruct (until_brace rest) as [a b]. cbn in Hr. case_decide as Hd; [|done]. intros [= <-].
  destruct Hd as [_ ->]. by rewrite Hr.
Qed.
