(* ===== verification/RedisReceiver.v ===== *)
(** * The receiving half of the Redis event transport
      ([stream/implementations/RedisEventTransport.ts])

    Subscribers of each stream, the reorder buffer that puts the frames of a stream back in the
    order of their sequence numbers, and the listeners of aborts, preempts and abort
    acknowledgements.  A method runs without [await] up to the command it sends to the server,
    so each segment is one function; what the server answers later is the argument of the next
    segment.

    What the clients of the transport do when they are called is a parameter: a subscriber may
    unsubscribe (the manager does, on a terminal event) and may throw; an abort callback may
    acknowledge, decline or throw.  Apart from that they do not call the transport back. *)

From stdpp Require Import gmap.
From S2P Require Import Prelude JsMap Json RedisFrames.

(** ** State *)

(** [ReorderBuffer]; a timer is armed or not. *)
Module ReorderBuffer.
Record t := mk {
  nextSeq : Z;
  pending : gmap Z PubSubMessage.t;
  flushTimeout : bool;
  deliveryDeferred : bool
}.
Definition empty : t := mk 0 ∅ false false.
End ReorderBuffer.

(** [AbortAckWaiter]; the promise is known by the request id. *)
Module AbortAckWaiter.
Record t := mk { generationId : Z }.
End AbortAckWaiter.

(** [StreamSubscribers], with the identity of the object ([this.streams.get(k) === state]). *)
Module StreamSubscribers.
Record t := mk {
  ident : nat;
  count : nat;
  handlers : list nat;
  allSubscribersLeftCallback : option nat;
  abortCallbacks : list nat;
  abortAckWaiters : jsmap AbortAckWaiter.t;
  preemptCallbacks : list nat;
  reorderBuffer : ReorderBuffer.t
}.
End StreamSubscribers.
Import StreamSubscribers ReorderBuffer.
Abbreviation StreamState := StreamSubscribers.t.

(** What a subscriber is called with: [onChunk], [onDone], [onError]. *)
Inductive Call :=
| ChunkCall (data : option json) (generationId : option Z)
| DoneCall (data : option json) (generationId : option Z)
| ErrorCall (error : string) (generationId : option Z).

(** What the transport does to the world, in order. *)
Inductive Effect :=
| Delivered (subscriber : nat) (seq : option Z) (c : Call)
| AllLeft (callback : nat)
| AbortCalled (registration : nat) (generationId : option Z)
| PreemptCalled (registration : nat) (msg : PreemptMessage.t)
| AckSettled (abortRequestId : string) (acknowledged : bool)
| StoreAck (streamId : string) (generationId : Z) (abortRequestId : string)
| Published (streamId : string) (m : PubSubMessage.t)
| ChannelSubscribed (channel : string)
| ChannelUnsubscribed (channel : string).

(** The fields of the class that this half uses; [channelSubscriptions] holds promises. *)
Record Receiver := {
  streams : jsmap StreamState;
  channelSubscriptions : jsmap nat;
  subscriberIdCounter : nat;
  fresh : nat;
  log : list Effect
}.
Definition newReceiver : Receiver := Build_Receiver [] [] 0 0 [].

Definition MAX_BUFFER_SIZE : nat := 100.

(** What a run can throw: a subscriber's error, the [TypeError] of reading a property of
    [undefined], or the failure of a Redis command. *)
Inductive JsError := HandlerError | MissingMessage | RedisError.

Definition Run : Type := result JsError () * Receiver.
Definition done_ (s : Receiver) : Run := (Ok tt, s).
Definition and_then (r : Run) (k : Receiver -> Run) : Run :=
  match r with (Ok _, s) => k s | (Throw e, s) => (Throw e, s) end.
(** [try { ... } catch (err) { logger.error(...) }] *)
Definition caught (r : Run) : Receiver := r.2.

(** ** Updates *)

Definition emit (l : list Effect) (s : Receiver) : Receiver := {| s with log := log s ++ l |}.
Definition on_stream (k : string) (f : StreamState -> StreamState) (s : Receiver) : Receiver :=
  match mget (streams s) k with
  | Some st => {| s with streams := mset (streams s) k (f st) |}
  | None => s
  end.
Definition with_buffer (f : ReorderBuffer.t -> ReorderBuffer.t) (st : StreamState) : StreamState :=
  {| st with reorderBuffer := f (reorderBuffer st) |}.
Definition on_buffer (k : string) (f : ReorderBuffer.t -> ReorderBuffer.t) : Receiver -> Receiver :=
  on_stream k (with_buffer f).
(** The buffer of a stream whose state is known to be there. *)
Definition buffer_of (k : string) (s : Receiver) : ReorderBuffer.t :=
  match mget (streams s) k with Some st => reorderBuffer st | None => ReorderBuffer.empty end.

Definition put_pending (q : Z) (m : PubSubMessage.t) (b : ReorderBuffer.t) : ReorderBuffer.t :=
  {| b with pending := <[q := m]> (pending b) |}.
Definition drop_pending (q : Z) (b : ReorderBuffer.t) : ReorderBuffer.t :=
  {| b with pending := delete q (pending b) |}.
Definition set_nextSeq (q : Z) (b : ReorderBuffer.t) : ReorderBuffer.t := {| b with nextSeq := q |}.
Definition set_timer (armed : bool) (b : ReorderBuffer.t) : ReorderBuffer.t :=
  {| b with flushTimeout := armed |}.
Definition set_deferred (d : bool) (b : ReorderBuffer.t) : ReorderBuffer.t :=
  {| b with deliveryDeferred := d |}.
(** [buffer.nextSeq++] *)
Definition bump (b : ReorderBuffer.t) : ReorderBuffer.t := {| b with nextSeq := (nextSeq b + 1)%Z |}.

(** [[...buffer.pending.keys()].sort((a, b) => a - b)] *)
Definition sorted_seqs (p : gmap Z PubSubMessage.t) : list Z :=
  sort_on (fun q => q) (fst <$> map_to_list p).

(** [getOrCreateStreamState(streamId)] *)
Definition createStreamState (id : nat) : StreamState :=
  StreamSubscribers.mk id 0 [] None [] [] [] ReorderBuffer.empty.
Definition getOrCreateStreamState (k : string) (s : Receiver) : StreamState * Receiver :=
  match mget (streams s) k with
  | Some st => (st, s)
  | None =>
      let st := createStreamState (fresh s) in
      (st, {| s with streams := mset (streams s) k st; fresh := S (fresh s) |})
  end.

(** [ensureChannelSubscription(channel)]: the promise, and the command when there is none yet. *)
Definition ensureChannelSubscription (channel : string) (s : Receiver) : nat * Receiver :=
  match mget (channelSubscriptions s) channel with
  | Some p => (p, s)
  | None =>
      let p := fresh s in
      (p, emit [ChannelSubscribed channel]
            {| s with channelSubscriptions := mset (channelSubscriptions s) channel p;
               fresh := S p |})
  end.

(** The [catch] of [ensureChannelSubscription]. *)
Definition subscription_failed (channel : string) (p : nat) (s : Receiver) : Receiver :=
  if decide (mget (channelSubscriptions s) channel = Some p)
  then {| s with channelSubscriptions := mdel (channelSubscriptions s) channel |} else s.

(** [resetReorderBuffer(streamId)] *)
Definition resetReorderBuffer (k : string) : Receiver -> Receiver :=
  on_buffer k (fun b => ReorderBuffer.mk 0 ∅ false false).

(** [unsubscribeUnusedChannel(streamId, state)], [id] being the identity of [state]. *)
Definition unsubscribeUnusedChannel (k : string) (id : nat) (s : Receiver) : Receiver :=
  match mget (streams s) k with
  | Some st =>
      if decide (ident st <> id \/ 0 < count st \/ abortCallbacks st <> [] \/
                 abortAckWaiters st <> [] \/ preemptCallbacks st <> [])
      then s
      else
        let channel := events_channel k in
        match mget (channelSubscriptions s) channel with
        | None => s
        | Some _ =>
            emit [ChannelUnsubscribed channel]
              {| s with channelSubscriptions := mdel (channelSubscriptions s) channel |}
        end
  | None => s
  end.

(** [detachStreamSubscribers(streamId, state)]; what the callback throws is caught. *)
Definition detachStreamSubscribers (k : string) (st : StreamState) (s : Receiver) : Receiver :=
  emit (AllLeft <$> option_list (allSubscribersLeftCallback st))
    (unsubscribeUnusedChannel k (ident st) (resetReorderBuffer k s)).

(** The [unsubscribe] closure of subscriber [id], created on the state of identity [sid]. *)
Definition unsubscribe (k : string) (sid id : nat) (s : Receiver) : Receiver :=
  match mget (streams s) k with
  | Some st =>
      if decide (ident st = sid /\ id ∈ handlers st) then
        let st' := {| st with handlers := filter (fun h => h <> id) (handlers st);
                      count := pred (count st) |} in
        let s1 := {| s with streams := mset (streams s) k st' |} in
        if decide (count st' = 0) then detachStreamSubscribers k st' s1 else s1
      else s
  | None => s
  end.

(** [subscribe(streamId, handlers, options)]: the identities its [unsubscribe] is for. *)
Definition subscribe (k : string) (deferSequenceDelivery : bool) (s : Receiver)
  : (nat * nat) * Receiver :=
  let id := S (subscriberIdCounter s) in
  let s0 := {| s with subscriberIdCounter := id |} in
  let '(st, s1) := getOrCreateStreamState k s0 in
  let s2 := if decide (count st = 0)
            then on_buffer k (set_deferred deferSequenceDelivery) (resetReorderBuffer k s1)
            else s1 in
  let s3 := on_stream k (fun st => {| st with count := S (count st);
                                      handlers := handlers st ++ [id] |}) s2 in
  ((ident st, id), (ensureChannelSubscription (events_channel k) s3).2).

(** What a subscriber does when it is called. *)
Module Reaction.
Record t := mk { leaves : bool; fails : bool }.
End Reaction.

(** The call made for a message, if it is of a type that subscribers are called for. *)
Definition call_of (m : PubSubMessage.t) : option Call :=
  let g := PubSubMessage.generationId m in
  match PubSubMessage.type m with
  | CHUNK => Some (ChunkCall (PubSubMessage.data m) g)
  | DONE => Some (DoneCall (PubSubMessage.data m) g)
  | ERROR => Some (ErrorCall (default "Unknown error" (PubSubMessage.error m)) g)
  | _ => None
  end.

(** [settleAbortAck(streamId, state, abortRequestId, acknowledged)] *)
Definition settleAbortAck (k : string) (id : nat) (abortRequestId : string) (acknowledged : bool)
    (s : Receiver) : Receiver :=
  match mget (streams s) k with
  | Some st =>
      if decide (ident st = id) then
        match mget (abortAckWaiters st) abortRequestId with
        | None => s
        | Some _ =>
            unsubscribeUnusedChannel k id
              (emit [AckSettled abortRequestId acknowledged]
                 (on_stream k (fun st => {| st with abortAckWaiters :=
                                              mdel (abortAckWaiters st) abortRequestId |}) s))
        end
      else s
  | None => s
  end.

Section clients.
(** What the subscribers do, knowing all that happened, and what the abort callbacks answer. *)
Variable react : list Effect -> nat -> Call -> Reaction.t.
Variable acknowledges : list Effect -> nat -> option Z -> bool.

(** ** Delivery *)

(** The loop of [deliverMessage] over the subscribers. *)
Fixpoint call_handlers (k : string) (seq : option Z) (c : Call) (ids : list nat) (s : Receiver)
  : Run :=
  match ids with
  | [] => done_ s
  | id :: ids =>
      match mget (streams s) k with
      | None => done_ s
      | Some st =>
          if decide (id ∈ handlers st) then
            let r := react (log s) id c in
            let s1 := emit [Delivered id seq c] s in
            let s2 := if Reaction.leaves r then unsubscribe k (ident st) id s1 else s1 in
            if Reaction.fails r then (Throw HandlerError, s2) else call_handlers k seq c ids s2
          else call_handlers k seq c ids s
      end
  end.

(** The loop over the abort callbacks, and whether one of them acknowledged; what they throw is
    caught. *)
Fixpoint call_aborts (g : option Z) (regs : list nat) (s : Receiver) : bool * Receiver :=
  match regs with
  | [] => (false, s)
  | r :: regs =>
      let ack := acknowledges (log s) r g in
      let '(acked, s') := call_aborts g regs (emit [AbortCalled r g] s) in
      (ack || acked, s')
  end.

(** The part of [deliverMessage] after the subscribers. *)
Definition deliver_internal (k : string) (m : PubSubMessage.t) (s : Receiver) : Receiver :=
  match mget (streams s) k with
  | None => s
  | Some st =>
      let g := PubSubMessage.generationId m in
      match PubSubMessage.type m with
      | ABORT_ACK =>
          match PubSubMessage.abortRequestId m, g with
          | Some requestId, Some g =>
              match mget (abortAckWaiters st) requestId with
              | Some w =>
                  if decide (AbortAckWaiter.generationId w = g)
                  then settleAbortAck k (ident st) requestId true s else s
              | None => s
              end
          | _, _ => s
          end
      | ABORT =>
          let '(acked, s1) := call_aborts g (abortCallbacks st) s in
          match PubSubMessage.abortRequestId m, g with
          | Some requestId, Some g =>
              if acked then emit [StoreAck k g requestId] s1 else s1
          | _, _ => s1
          end
      | PREEMPT =>
          match PubSubMessage.preempt m with
          | Some p => emit ((fun r => PreemptCalled r p) <$> preemptCallbacks st) s
          | None => s
          end
      | _ => s
      end
  end.

(** [deliverMessage(streamId, state, message)]; reading [message.type] throws when there is no
    message. *)
Definition deliverMessage (k : string) (message : option PubSubMessage.t) (s : Receiver) : Run :=
  match message with
  | None => (Throw MissingMessage, s)
  | Some m =>
      and_then
        match call_of m, mget (streams s) k with
        | Some c, Some st => call_handlers k (PubSubMessage.seq m) c (handlers st) s
        | _, _ => done_ s
        end
        (fun s => done_ (deliver_internal k m s))
  end.

(** ** The reorder buffer *)

(** The loop of [flushPendingMessages]: each turn removes a message, so that as many turns as
    there are messages are enough. *)
Fixpoint flush_loop (fuel : nat) (k : string) (s : Receiver) : Run :=
  let b := buffer_of k s in
  match pending b !! nextSeq b with
  | None => done_ s
  | Some m =>
      match fuel with
      | O => done_ s
      | S fuel =>
          and_then (deliverMessage k (Some m) (on_buffer k (drop_pending (nextSeq b)) s))
            (fun s => flush_loop fuel k (on_buffer k bump s))
      end
  end.

Definition flushPendingMessages (k : string) (s : Receiver) : Run :=
  and_then (flush_loop (size (pending (buffer_of k s))) k s)
    (fun s => done_ (on_buffer k (fun b =>
       if decide (size (pending b) = 0) then set_timer false b else b) s)).

(** The loop of [forceFlushBuffer] over the sorted sequence numbers. *)
Fixpoint force_loop (k : string) (seqs : list Z) (s : Receiver) : Run :=
  match seqs with
  | [] => done_ s
  | q :: seqs =>
      let m := pending (buffer_of k s) !! q in
      and_then (deliverMessage k m (on_buffer k (drop_pending q) s)) (force_loop k seqs)
  end.

Definition forceFlushBuffer (k : string) (s : Receiver) : Run :=
  let s0 := on_buffer k (set_timer false) s in
  match last (sorted_seqs (pending (buffer_of k s))) with
  | None => done_ s0
  | Some q =>
      and_then (force_loop k (sorted_seqs (pending (buffer_of k s))) s0)
        (fun s => done_ (on_buffer k (set_nextSeq (q + 1)%Z) s))
  end.

(** [scheduleFlushTimeout], and what its timer does when it fires. *)
Definition scheduleFlushTimeout (k : string) : Receiver -> Receiver := on_buffer k (set_timer true).

Definition flush_timer (k : string) (s : Receiver) : Run :=
  if flushTimeout (buffer_of k s) then
    let s0 := on_buffer k (set_timer false) s in
    if decide (size (pending (buffer_of k s)) = 0) then done_ s0 else forceFlushBuffer k s0
  else done_ s.

(** The branch shared by both handlers below for the expected message. *)
Definition deliver_next (k : string) (m : PubSubMessage.t) (s : Receiver) : Run :=
  and_then (deliverMessage k (Some m) s)
    (fun s => flushPendingMessages k (on_buffer k bump s)).

Definition handleTerminalEvent (k : string) (q : Z) (m : PubSubMessage.t) (s : Receiver) : Run :=
  let b := buffer_of k s in
  if deliveryDeferred b then done_ (on_buffer k (put_pending q m) s)
  else if decide (q < nextSeq b)%Z then done_ s
  else if decide (q = nextSeq b) then deliver_next k m s
  else done_ (scheduleFlushTimeout k (on_buffer k (put_pending q m) s)).

Definition handleOrderedChunk (k : string) (q : Z) (m : PubSubMessage.t) (s : Receiver) : Run :=
  let b := buffer_of k s in
  if deliveryDeferred b then done_ (on_buffer k (put_pending q m) s)
  else if decide (q = nextSeq b) then deliver_next k m s
  else if decide (nextSeq b < q)%Z then
    let s1 := on_buffer k (put_pending q m) s in
    if decide (MAX_BUFFER_SIZE <= size (pending (buffer_of k s1)))
    then forceFlushBuffer k s1
    else done_ (scheduleFlushTimeout k s1)
  else done_ s.

(** The loop over the events of a batch, each isolated from what the others throw. *)
Definition chunk_at (g : option Z) (q : Z) (e : json) : PubSubMessage.t :=
  PubSubMessage.mk CHUNK (Some q) (Some e) None None None g None None.
Fixpoint handle_batch (k : string) (g : option Z) (q : Z) (es : list json) (s : Receiver) : Receiver :=
  match es with
  | [] => s
  | e :: es => handle_batch k g (q + 1)%Z es (caught (handleOrderedChunk k q (chunk_at g q e) s))
  end.

(** The types that reach the transport's own listeners without any subscriber. *)
Definition internal_type (t : EventType) : bool :=
  match t with ABORT | ABORT_ACK | PREEMPT => true | _ => false end.

(** The part of [handleMessage] on a decoded message of a known stream. *)
Definition receive (k : string) (m : PubSubMessage.t) (s : Receiver) : Receiver :=
  match mget (streams s) k with
  | None => s
  | Some st =>
      if bool_decide (count st = 0) && negb (internal_type (PubSubMessage.type m)) then s
      else
        match PubSubMessage.type m, PubSubMessage.seq m with
        | CHUNK, Some q => caught (handleOrderedChunk k q m s)
        | (DONE | ERROR), Some q => caught (handleTerminalEvent k q m s)
        | ty, _ =>
            match ty, PubSubMessage.baseSeq m, PubSubMessage.events m with
            | CHUNK_BATCH, Some base, Some es =>
                handle_batch k (PubSubMessage.generationId m) base es s
            | _, _, _ => caught (deliverMessage k (Some m) s)
            end
        end
  end.

(** [handleMessage(channel, message)] *)
Definition handleMessage (channel : string) (message : jtext) (s : Receiver) : Receiver :=
  match stream_of_channel channel with
  | None => s
  | Some k =>
      match JSON_parse message ≫= decode with
      | None => s
      | Some m => receive k m s
      end
  end.

(** ** Synchronization with the shared counter *)

(** Pruning of the messages that the local replay already delivered. *)
Definition prune_below (q : Z) (b : ReorderBuffer.t) : ReorderBuffer.t :=
  {| b with pending := filter (fun e => q <= e.1)%Z (pending b) |}.
Definition drop_replayed (replayedNextSeq : option Z) (b : ReorderBuffer.t) : ReorderBuffer.t :=
  match replayedNextSeq with Some r => prune_below r b | None => b end.

(** The frontier computed from the counter, the replay and what is still pending. *)
Definition advance (frontier : Z) (b : ReorderBuffer.t) : ReorderBuffer.t :=
  match sorted_seqs (pending b) with
  | [] => set_nextSeq (Z.max (nextSeq b) frontier) b
  | minPending :: _ => set_nextSeq (Z.max (nextSeq b) (Z.min frontier minPending)) b
  end.

(** The end of both branches of [syncReorderBuffer]: release, flush, arm the timer for gaps. *)
Definition release_deferred (k : string) (s : Receiver) : Run :=
  and_then (flushPendingMessages k (on_buffer k (set_deferred false) s))
    (fun s => done_ (if decide (size (pending (buffer_of k s)) = 0) then s
                     else scheduleFlushTimeout k s)).

(** [syncReorderBuffer(streamId, replayedNextSeq)] from the answer of the server on, [initial]
    being the identity of the state when the counter was asked for; [None] is a failed command,
    [Some c] the parsed counter. *)
Definition sync_prefix (k : string) (replayedNextSeq : option Z) (counter : Z) (s : Receiver) : Receiver :=
  on_buffer k (fun b =>
    advance (default counter replayedNextSeq) (drop_replayed replayedNextSeq (set_timer false b))) s.

Definition sync_failed (k : string) (replayedNextSeq : option Z) (s : Receiver) : Run :=
  if deliveryDeferred (buffer_of k s) then
    and_then (release_deferred k
      (on_buffer k (fun b =>
         set_nextSeq (Z.max (nextSeq b) (default (nextSeq b) replayedNextSeq))
           (drop_replayed replayedNextSeq b)) s))
      (fun s => (Throw RedisError, s))
  else (Throw RedisError, s).

Definition syncReorderBuffer (k : string) (initial : option nat) (replayedNextSeq : option Z)
    (reply : option (option Z)) (s : Receiver) : Run :=
  let same := bool_decide (initial = ident <$> mget (streams s) k) in
  match reply with
  | None => if same && bool_decide (is_Some (mget (streams s) k))
            then sync_failed k replayedNextSeq s else (Throw RedisError, s)
  | Some raw =>
      if negb same || negb (bool_decide (is_Some (mget (streams s) k))) then done_ s
      else release_deferred k (sync_prefix k replayedNextSeq (default 0%Z raw) s)
  end.

(** ** Other operations on subscribers *)

(** [closeLocalSubscribers(streamId, error)]; what the handlers throw is caught, and they may
    unsubscribe. *)
Fixpoint close_handlers (k : string) (error : string) (ids : list nat) (s : Receiver) : Receiver :=
  match ids with
  | [] => s
  | id :: ids =>
      let c := ErrorCall error None in
      let s1 := emit [Delivered id None c] s in
      let s2 := match mget (streams s) k with
                | Some st => if Reaction.leaves (react (log s) id c)
                             then unsubscribe k (ident st) id s1 else s1
                | None => s1
                end in
      close_handlers k error ids s2
  end.

Definition closeLocalSubscribers (k error : string) (s : Receiver) : Receiver :=
  match mget (streams s) k with
  | None => s
  | Some st =>
      let s1 := close_handlers k error (handlers st) s in
      match mget (streams s1) k with
      | None => s1
      | Some st1 =>
          if decide (handlers st1 = []) then s1
          else
            let st2 := {| st1 with handlers := []; count := 0 |} in
            detachStreamSubscribers k st2 {| s1 with streams := mset (streams s1) k st2 |}
      end
  end.
End clients.

Definition getSubscriberCount (k : string) (s : Receiver) : nat :=
  match mget (streams s) k with Some st => count st | None => 0 end.
Definition isFirstSubscriber (k : string) (s : Receiver) : bool :=
  bool_decide (getSubscriberCount k s = 1).
Definition onAllSubscribersLeft (k : string) (callback : nat) (s : Receiver) : Receiver :=
  on_stream k (fun st => {| st with allSubscribersLeftCallback := Some callback |})
    (getOrCreateStreamState k s).2.

(** ** Aborts and preempts *)

Definition abort_message (g : option Z) (requestId : option string) : PubSubMessage.t :=
  PubSubMessage.mk ABORT None None None None None g requestId None.
Definition ack_message (g : Z) (requestId : string) : PubSubMessage.t :=
  PubSubMessage.mk ABORT_ACK None None None None None (Some g) (Some requestId) None.

Definition emitAbort (k : string) (g : option Z) (s : Receiver) : Receiver :=
  emit [Published k (abort_message g None)] s.

(** [publishAbortAcknowledgement] once the proof is stored, or could not be. *)
Definition ack_stored (k : string) (g : Z) (requestId : string) (stored : bool) (s : Receiver)
  : Receiver :=
  if stored then emit [Published k (ack_message g requestId)] s else s.

(** [emitAbortConfirmed]: after the durable proof was looked up ([Some false]: there is none;
    [None]: the lookup failed), either it answers [true] or it waits for the channel. *)
Definition confirm_begin (k : string) (proof : option bool) (s : Receiver)
  : option (nat * nat) * Receiver :=
  match proof with
  | Some true => (None, s)
  | _ =>
      let '(st, s1) := getOrCreateStreamState k s in
      let '(p, s2) := ensureChannelSubscription (events_channel k) s1 in
      (Some (ident st, p), s2)
  end.

(** Once the channel is there: [false] when the state was replaced, otherwise a waiter is
    registered and the abort published. *)
Definition confirm_ready (k : string) (id : nat) (g : Z) (requestId : string) (s : Receiver)
  : option bool * Receiver :=
  match mget (streams s) k with
  | Some st =>
      if decide (ident st = id) then
        (None, emit [Published k (abort_message (Some g) (Some requestId))]
           (on_stream k (fun st => {| st with abortAckWaiters :=
              mset (abortAckWaiters st) requestId (AbortAckWaiter.mk g) |}) s))
      else (Some false, s)
  | None => (Some false, s)
  end.

(** [onAbort] and [onPreempt]: registration, the [catch] when the channel fails, and the returned
    function. *)
Inductive Registry := Aborts | Preempts.

Definition registered (r : Registry) (st : StreamState) : list nat :=
  match r with Aborts => abortCallbacks st | Preempts => preemptCallbacks st end.
Definition set_registered (r : Registry) (l : list nat) (st : StreamState) : StreamState :=
  match r with
  | Aborts => {| st with abortCallbacks := l |}
  | Preempts => {| st with preemptCallbacks := l |}
  end.

Definition register (r : Registry) (k : string) (s : Receiver) : (nat * nat * nat) * Receiver :=
  let '(st, s1) := getOrCreateStreamState k s in
  let reg := fresh s1 in
  let s2 := on_stream k (fun st => set_registered r (registered r st ++ [reg]) st)
              {| s1 with fresh := S reg |} in
  let '(p, s3) := ensureChannelSubscription (events_channel k) s2 in
  ((ident st, reg, p), s3).

Definition unregister (r : Registry) (k : string) (id reg : nat) (s : Receiver) : Receiver :=
  match mget (streams s) k with
  | Some st =>
      if decide (ident st = id /\ reg ∈ registered r st) then
        unsubscribeUnusedChannel k id
          (on_stream k (fun st => set_registered r (filter (fun x => x <> reg) (registered r st)) st) s)
      else s
  | None => s
  end.

Definition emitPreempt (k : string) (msg : PreemptMessage.t) (s : Receiver) : Receiver :=
  emit [Published k (PubSubMessage.mk PREEMPT None None None None None None None (Some msg))] s.

(** ** Teardown *)

Definition getTrackedStreamIds (s : Receiver) : list string := mkeys (streams s).

Definition settle_all (st : StreamState) : list Effect :=
  (fun requestId => AckSettled requestId false) <$> mkeys (abortAckWaiters st).

(** [cleanup(streamId)], without the batches of the sending half. *)
Definition cleanup (k : string) (s : Receiver) : Receiver :=
  let s1 := match mget (streams s) k with Some st => emit (settle_all st) s | None => s end in
  let channel := events_channel k in
  let s2 := match mget (channelSubscriptions s1) channel with
            | Some _ => emit [ChannelUnsubscribed channel]
                          {| s1 with channelSubscriptions := mdel (channelSubscriptions s1) channel |}
            | None => s1
            end in
  {| s2 with streams := mdel (streams s2) k |}.

Definition destroy (s : Receiver) : Receiver :=
  let s1 := emit (concat (settle_all <$> mvalues (streams s)) ++
                  (ChannelUnsubscribed <$> mkeys (channelSubscriptions s))) s in
  {| s1 with streams := []; channelSubscriptions := [] |}.
