(* ===== verification/RedisReorder.v ===== *)
(** * The reorder buffer in every run of the receiving half

    Frames of a stream may reach a replica late, twice or never; what its subscribers see is
    nevertheless ordered.  [base] and [stream_ok] are the invariants of the subscribers and of the
    buffers; each operation preserves them, whatever the subscribers do short of throwing. *)

From stdpp Require Import gmap.
From S2P Require Import Prelude JsMap Json RedisFrames RedisReceiver.
Import StreamSubscribers ReorderBuffer.

(** ** State access *)

Lemma mget_on_stream k f s k' :
  mget (streams (on_stream k f s)) k' =
  if decide (k = k') then f <$> mget (streams s) k' else mget (streams s) k'.
Proof.
  unfold on_stream. destruct (mget (streams s) k) as [st|] eqn:E; simpl.
  - rewrite mget_mset. case_decide; subst; by rewrite ?E.
  - case_decide; subst; by rewrite ?E.
Qed.

Lemma on_stream_log k f s : log (on_stream k f s) = log s.
Proof. unfold on_stream. by destruct (mget _ _). Qed.
Lemma on_stream_counter k f s : subscriberIdCounter (on_stream k f s) = subscriberIdCounter s.
Proof. unfold on_stream. by destruct (mget _ _). Qed.
Lemma on_stream_channels k f s : channelSubscriptions (on_stream k f s) = channelSubscriptions s.
Proof. unfold on_stream. by destruct (mget _ _). Qed.
Lemma on_stream_fresh k f s : fresh (on_stream k f s) = fresh s.
Proof. unfold on_stream. by destruct (mget _ _). Qed.

#[export] Hint Rewrite on_stream_log on_stream_counter on_stream_channels on_stream_fresh : receiver.

Lemma buffer_of_at k s st : mget (streams s) k = Some st -> buffer_of k s = reorderBuffer st.
Proof. unfold buffer_of. by intros ->. Qed.

Lemma on_buffer_ext k f g s :
  (forall st, mget (streams s) k = Some st -> f (reorderBuffer st) = g (reorderBuffer st)) ->
  on_buffer k f s = on_buffer k g s.
Proof.
  intros H. unfold on_buffer, on_stream. destruct (mget (streams s) k) as [st|] eqn:E; [|done].
  unfold with_buffer. by rewrite (H st eq_refl).
Qed.

Lemma on_buffer_twice k f g s : on_buffer k g (on_buffer k f s) = on_buffer k (fun b => g (f b)) s.
Proof.
  unfold on_buffer, on_stream. destruct (mget (streams s) k) as [st|] eqn:E; [|by rewrite E].
  cbn [streams]. rewrite mget_mset_eq. cbn [streams]. by rewrite mset_mset.
Qed.

(** The sequence numbers delivered to a subscriber, in order. *)
Definition delivery (id : nat) (e : Effect) : option Z :=
  match e with Delivered i q _ => if decide (i = id) then q else None | _ => None end.
Definition delivered_to (id : nat) (l : list Effect) : list Z := omap (delivery id) l.

Lemma delivered_app id l l' : delivered_to id (l ++ l') = delivered_to id l ++ delivered_to id l'.
Proof. apply omap_app. Qed.

(** No call of a subscriber. *)
Definition quiet (e : Effect) : Prop := match e with Delivered _ (Some _) _ => False | _ => True end.
Lemma delivered_quiet id l : Forall quiet l -> delivered_to id l = [].
Proof.
  induction 1 as [|e l He _ IH]; [done|]. unfold delivered_to in *. simpl.
  destruct e as [i [q|] c| | | | | | | |]; try done. simpl. by case_decide.
Qed.

(** ** Invariants *)

(** Everything delivered to the subscribers of [st] is below [n]. *)
Definition below (n : Z) (l : list Effect) (st : StreamState) : Prop :=
  forall id q, id ∈ handlers st -> q ∈ delivered_to id l -> (q < n)%Z.

Record base (s : Receiver) : Prop := {
  ba_count : forall k st, mget (streams s) k = Some st ->
    count st = length (handlers st) /\ NoDup (handlers st);
  ba_ids : forall k st id, mget (streams s) k = Some st -> id ∈ handlers st ->
    id <= subscriberIdCounter s;
  ba_apart : forall k k' st st' id, mget (streams s) k = Some st -> mget (streams s) k' = Some st' ->
    id ∈ handlers st -> id ∈ handlers st' -> k = k';
  ba_new : forall id, subscriberIdCounter s < id -> delivered_to id (log s) = [];
  ba_sorted : forall id, StronglySorted Z.lt (delivered_to id (log s))
}.

(** A message of the kinds that subscribers are called for. *)
Definition sequenced (m : PubSubMessage.t) : Prop :=
  PubSubMessage.type m = CHUNK \/ PubSubMessage.type m = DONE \/ PubSubMessage.type m = ERROR.

(** What the buffer holds: messages under their own number, none of them negative. *)
Definition own (q : Z) (m : PubSubMessage.t) : Prop :=
  PubSubMessage.seq m = Some q /\ sequenced m /\ (0 <= q)%Z.
Definition holds_own (p : gmap Z PubSubMessage.t) : Prop := map_Forall own p.
Definition above (n : Z) (p : gmap Z PubSubMessage.t) : Prop := map_Forall (fun q _ => n < q)%Z p.

Record buffer_ok (b : ReorderBuffer.t) : Prop := {
  bo_next : (0 <= nextSeq b)%Z;
  bo_above : deliveryDeferred b = false -> above (nextSeq b) (pending b);
  bo_zero : deliveryDeferred b = true -> nextSeq b = 0%Z
}.

(** A message that waits for an earlier one waits for a timer as well; there is none while
    delivery is deferred. *)
Definition timed (b : ReorderBuffer.t) : Prop :=
  if deliveryDeferred b then flushTimeout b = false else pending b <> ∅ -> flushTimeout b = true.

Definition stream_ok (l : list Effect) (st : StreamState) : Prop :=
  holds_own (pending (reorderBuffer st)) /\ timed (reorderBuffer st) /\
  (handlers st <> [] -> below (nextSeq (reorderBuffer st)) l st /\ buffer_ok (reorderBuffer st)).

Lemma timed_empty b : pending b = ∅ -> deliveryDeferred b = false -> timed b.
Proof. unfold timed. by intros -> ->. Qed.
Lemma stream_ok_empty l st :
  handlers st = [] -> pending (reorderBuffer st) = ∅ ->
  deliveryDeferred (reorderBuffer st) = false -> stream_ok l st.
Proof.
  intros Hh Hp Hd. split_and!; [by rewrite Hp; apply map_Forall_empty | by apply timed_empty |].
  by rewrite Hh.
Qed.

(** The invariant everywhere, and everywhere but at one stream. *)
Definition receiver_ok (s : Receiver) : Prop :=
  base s /\ forall k st, mget (streams s) k = Some st -> stream_ok (log s) st.
Definition ok_but (k : string) (s : Receiver) : Prop :=
  base s /\ forall k' st, k' <> k -> mget (streams s) k' = Some st -> stream_ok (log s) st.

Lemma ok_but_close k s :
  ok_but k s -> (forall st, mget (streams s) k = Some st -> stream_ok (log s) st) -> receiver_ok s.
Proof.
  intros [Hb Ho] Hk. split; [done|]. intros k' st Hst.
  destruct (decide (k' = k)) as [->|]; eauto.
Qed.

Lemma ok_open k s : receiver_ok s -> ok_but k s.
Proof. intros [Hb Ho]. split; eauto. Qed.

(** Changes that neither touch the subscribers nor call them. *)
Lemma ok_but_change k s s' :
  (forall k', (handlers <$> mget (streams s') k') = (handlers <$> mget (streams s) k') /\
              (count <$> mget (streams s') k') = (count <$> mget (streams s) k')) ->
  (forall k', k' <> k -> (reorderBuffer <$> mget (streams s') k') =
                         (reorderBuffer <$> mget (streams s) k')) ->
  subscriberIdCounter s' = subscriberIdCounter s ->
  (exists l, log s' = log s ++ l /\ Forall quiet l) ->
  ok_but k s -> ok_but k s'.
Proof.
  intros Hh Hbuf Hc (l & Hl & Hq) [[B1 B2 B3 B4 B5] Ho].
  assert (Hd : forall id, delivered_to id (log s') = delivered_to id (log s)).
  { intros id. by rewrite Hl, delivered_app, (delivered_quiet id l Hq), app_nil_r. }
  assert (Hget : forall k' st', mget (streams s') k' = Some st' -> exists st,
            mget (streams s) k' = Some st /\ handlers st = handlers st' /\ count st = count st').
  { intros k' st' E. destruct (Hh k') as [H1 H2]. rewrite E in H1, H2.
    destruct (mget (streams s) k') as [st|]; naive_solver. }
  split; [split|].
  - intros k' st' E. destruct (Hget _ _ E) as (st & E' & <- & <-). eauto.
  - intros k' st' id E. destruct (Hget _ _ E) as (st & E' & <- & _). rewrite Hc. eauto.
  - intros k1 k2 st1 st2 id E1 E2. destruct (Hget _ _ E1) as (? & ? & <- & _).
    destruct (Hget _ _ E2) as (? & ? & <- & _). eauto.
  - intros id. rewrite Hc, Hd. auto.
  - intros id. by rewrite Hd.
  - intros k' st' Hk E. destruct (Hget _ _ E) as (st & E' & H1 & _).
    pose proof (Hbuf k' Hk) as Hb. rewrite E, E' in Hb. injection Hb as Hb.
    specialize (Ho k' st Hk E'). unfold stream_ok, below in *. rewrite <- H1, Hb.
    destruct Ho as (Hown & Htm & Ho). split_and!; [done | done|]. intros Hne.
    destruct (Ho Hne) as [H2 H3].
    split; [|done]. intros id q. rewrite Hd. apply H2.
Qed.

Lemma ok_but_buffer k f s : ok_but k s -> ok_but k (on_buffer k f s).
Proof.
  apply ok_but_change; unfold on_buffer.
  - intros k'. rewrite mget_on_stream. case_decide; [|done]. by destruct (mget (streams s) k').
  - intros k' Hk. rewrite mget_on_stream. by rewrite decide_False.
  - apply on_stream_counter.
  - exists []. rewrite app_nil_r, on_stream_log. by split.
Qed.

Lemma ok_but_emit k l s : Forall quiet l -> ok_but k s -> ok_but k (emit l s).
Proof. intros Hl. apply ok_but_change; [done | done | done |]. by exists l. Qed.

(** ** Leaving *)

Lemma unused_streams k id s : streams (unsubscribeUnusedChannel k id s) = streams s.
Proof. unfold unsubscribeUnusedChannel. destruct (mget (streams s) k); [|done]. case_decide; [done|]. by case_match. Qed.
Lemma unused_counter k id s :
  subscriberIdCounter (unsubscribeUnusedChannel k id s) = subscriberIdCounter s.
Proof. unfold unsubscribeUnusedChannel. destruct (mget (streams s) k); [|done]. case_decide; [done|]. by case_match. Qed.
Lemma unused_log k id s :
  exists l, log (unsubscribeUnusedChannel k id s) = log s ++ l /\ Forall quiet l.
Proof.
  unfold unsubscribeUnusedChannel.
  destruct (mget (streams s) k); [case_decide; [|case_match]|];
    first [ by exists []; rewrite app_nil_r | eexists; split; [done | by repeat constructor] ].
Qed.

Lemma ok_but_unused k k' id s : ok_but k s -> ok_but k (unsubscribeUnusedChannel k' id s).
Proof.
  apply ok_but_change; rewrite ?unused_streams, ?unused_counter; try done. apply unused_log.
Qed.

Lemma ok_but_detach k st s : ok_but k s -> ok_but k (detachStreamSubscribers k st s).
Proof.
  intros H. unfold detachStreamSubscribers. apply ok_but_emit.
  - apply Forall_fmap, Forall_true. done.
  - by apply ok_but_unused, ok_but_buffer.
Qed.

Lemma detach_streams k st s :
  streams (detachStreamSubscribers k st s) = streams (resetReorderBuffer k s).
Proof. unfold detachStreamSubscribers. simpl. apply unused_streams. Qed.

Lemma detach_log k st s :
  exists l, log (detachStreamSubscribers k st s) = log s ++ l /\ Forall quiet l.
Proof.
  unfold detachStreamSubscribers. cbn [emit log].
  destruct (unused_log k (ident st) (resetReorderBuffer k s)) as (l & -> & Hq).
  unfold resetReorderBuffer, on_buffer. rewrite on_stream_log, <- app_assoc.
  eexists. split; [done|]. apply Forall_app. split; [done|]. apply Forall_fmap, Forall_true. done.
Qed.

(** The removal of subscribers from a stream. *)
Lemma ok_but_remove k st l s :
  ok_but k s -> mget (streams s) k = Some st -> l ⊆ handlers st -> NoDup l ->
  ok_but k {| s with streams := mset (streams s) k {| st with handlers := l; count := length l |} |}.
Proof.
  intros [[B1 B2 B3 B4 B5] Ho] E Hl Hnd.
  assert (Hget : forall k' st', mget (mset (streams s) k {| st with handlers := l; count := length l |}) k'
            = Some st' -> exists st0, mget (streams s) k' = Some st0 /\ handlers st' ⊆ handlers st0 /\
              (k' <> k -> st' = st0)).
  { intros k' st'. rewrite mget_mset. case_decide as Hk.
    - subst. intros [= <-]. exists st. by split_and!.
    - intros E'. by exists st'. }
  split; [split|]; simpl; try done.
  - intros k' st'. rewrite mget_mset. case_decide; [|apply B1]. by intros [= <-].
  - intros k' st' id E' Hid. destruct (Hget _ _ E') as (st0 & E0 & Hs & _). eauto.
  - intros k1 k2 st1 st2 id E1 E2 H1 H2. destruct (Hget _ _ E1) as (? & ? & ? & _).
    destruct (Hget _ _ E2) as (? & ? & ? & _). eauto.
  - intros k' st' Hk E'. destruct (Hget _ _ E') as (st0 & E0 & _ & ->); eauto.
Qed.

(** Where a subscriber leaves: the others stay, the buffer is reset when it was the last one. *)
Definition left_from (k : string) (s s' : Receiver) : Prop :=
  match mget (streams s) k with
  | None => mget (streams s') k = None
  | Some st => exists st', mget (streams s') k = Some st' /\ ident st' = ident st /\
      handlers st' ⊆ handlers st /\
      (handlers st' <> [] \/ handlers st = [] -> reorderBuffer st' = reorderBuffer st) /\
      (handlers st' = [] -> handlers st <> [] -> reorderBuffer st' = ReorderBuffer.mk 0 ∅ false false)
  end.

Lemma left_from_refl k s : left_from k s s.
Proof.
  unfold left_from. destruct (mget (streams s) k) as [st|]; [|done]. exists st. by split_and!.
Qed.

Lemma left_from_trans k s1 s2 s3 : left_from k s1 s2 -> left_from k s2 s3 -> left_from k s1 s3.
Proof.
  unfold left_from. destruct (mget (streams s1) k) as [st1|].
  - intros (st2 & -> & I2 & H2 & B2 & R2) (st3 & -> & I3 & H3 & B3 & R3). exists st3.
    assert (Hn : handlers st2 = [] -> handlers st3 = [])
      by (intros E; rewrite E in H3; by destruct (handlers st3); [|set_solver]).
    split_and!; [done | congruence | set_solver | |].
    + intros H. destruct (decide (handlers st2 = [])) as [E|E].
      * destruct H as [H|H]; [by rewrite Hn in H|]. rewrite B3, B2 by auto. done.
      * destruct H as [H|H]; [rewrite B3, B2 by auto; done|].
        rewrite H in H2. destruct (handlers st2); [done | set_solver].
    + intros H Hne. destruct (decide (handlers st2 = [])) as [E|E]; [|by apply R3].
      rewrite B3 by auto. by apply R2.
  - intros ->. done.
Qed.

Lemma length_remove (id : nat) l :
  NoDup l -> id ∈ l -> length (filter (fun h => h <> id) l) = pred (length l).
Proof.
  induction 1 as [|h l Hh Hnd IH]; [by intros ?%elem_of_nil|]. rewrite elem_of_cons, filter_cons.
  case_decide as Hd; simpl.
  - intros [->|Hin]; [done|]. rewrite IH by done. destruct l; [by apply elem_of_nil in Hin | done].
  - intros _. f_equal. assert (h = id) as -> by (destruct (decide (h = id)); done).
    clear -Hh. induction l as [|x l IH]; [done|]. apply not_elem_of_cons in Hh as [H1 H2].
    rewrite filter_cons_True by done. simpl. by rewrite IH.
Qed.

Lemma unsubscribe_ok k sid id s :
  ok_but k s -> ok_but k (unsubscribe k sid id s) /\ left_from k s (unsubscribe k sid id s) /\
  exists l, log (unsubscribe k sid id s) = log s ++ l /\ Forall quiet l.
Proof.
  intros Hs. unfold unsubscribe. destruct (mget (streams s) k) as [st|] eqn:E.
  2: { split_and!; [done | apply left_from_refl | by exists []; rewrite app_nil_r]. }
  case_decide as Hd; [|split_and!; [done | apply left_from_refl | by exists []; rewrite app_nil_r]].
  destruct Hd as [_ Hin]. pose proof Hs as [[B1 _ _ _ _] _]. destruct (B1 k st E) as [Hc Hnd].
  set (l' := filter (fun h => h <> id) (handlers st)).
  assert (Hlen : pred (count st) = length l').
  { by rewrite Hc, <- (length_remove id (handlers st)). }
  pose proof (ok_but_remove k st l' s Hs E) as Hr. specialize (Hr ltac:(by intros ? [_ ?]%list_elem_of_filter)).
  specialize (Hr ltac:(by apply NoDup_filter)).
  set (st' := {| st with handlers := l'; count := pred (count st) |}).
  replace {| st with handlers := l'; count := length l' |} with st' in Hr by (subst st'; by rewrite Hlen).
  set (s1 := {| s with streams := mset (streams s) k st' |}) in *.
  assert (E1 : mget (streams s1) k = Some st') by (simpl; by rewrite mget_mset_eq).
  change (count st') with (pred (count st)). rewrite Hlen.
  assert (Hl : left_from k s (if decide (length l' = 0) then detachStreamSubscribers k st' s1 else s1)).
  { unfold left_from. rewrite E. case_decide as Hz.
    - unfold left_from. rewrite detach_streams. unfold resetReorderBuffer, on_buffer.
      rewrite mget_on_stream, decide_True, E1 by done. simpl. eexists. split; [done|]. simpl.
      apply length_zero_iff_nil in Hz. rewrite Hz.
      split_and!; [done | set_solver | | done].
      intros [?|Hn]; [done|]. rewrite Hn in Hin. by apply elem_of_nil in Hin.
    - exists st'. split_and!; [done | done | by intros ? [_ ?]%list_elem_of_filter | done |].
      simpl. intros ->. simpl in Hz. lia. }
  case_decide.
  - split_and!; [by apply ok_but_detach | done|]. apply (detach_log k st' s1).
  - split_and!; [done | done | by exists []; rewrite app_nil_r].
Qed.

Lemma unsubscribe_others k sid id s st id' :
  mget (streams s) k = Some st -> id' <> id ->
  exists st', mget (streams (unsubscribe k sid id s)) k = Some st' /\
    (id' ∈ handlers st' <-> id' ∈ handlers st).
Proof.
  intros E Hne. unfold unsubscribe. rewrite E. case_decide; [|by exists st].
  assert (Hf : id' ∈ filter (fun h => h <> id) (handlers st) <-> id' ∈ handlers st)
    by (rewrite list_elem_of_filter; tauto).
  case_decide.
  - rewrite detach_streams. unfold resetReorderBuffer, on_buffer. rewrite mget_on_stream.
    cbn [streams]. rewrite decide_True, mget_mset_eq by done. eexists. split; [done | exact Hf].
  - cbn [streams]. rewrite mget_mset_eq. eexists. split; [done | exact Hf].
Qed.

(** ** Delivering *)

Lemma delivered_one id i q c :
  delivered_to id [Delivered i (Some q) c] = if decide (i = id) then [q] else [].
Proof. unfold delivered_to. simpl. by case_decide. Qed.

Lemma snoc_sorted l (q : Z) :
  StronglySorted Z.lt l -> (forall x, x ∈ l -> x < q)%Z -> StronglySorted Z.lt (l ++ [q]).
Proof.
  induction 1 as [|x l Hl IH Hx]; simpl; intros Hq; [repeat constructor|].
  constructor; [apply IH; set_solver|]. apply Forall_app. split; [done|].
  constructor; [apply Hq; set_solver | constructor].
Qed.

Lemma ok_but_delivered k st id q c s :
  ok_but k s -> mget (streams s) k = Some st -> id ∈ handlers st ->
  (forall x, x ∈ delivered_to id (log s) -> x < q)%Z ->
  ok_but k (emit [Delivered id (Some q) c] s).
Proof.
  intros [[B1 B2 B3 B4 B5] Ho] E Hin Hq.
  split; [split|]; cbn [emit streams subscriberIdCounter log]; try done.
  - intros i Hi. rewrite delivered_app, B4, delivered_one by done. simpl. case_decide; [|done].
    subst. pose proof (B2 _ _ _ E Hin). lia.
  - intros i. rewrite delivered_app, delivered_one. case_decide; [subst; by apply snoc_sorted|].
    rewrite app_nil_r. apply B5.
  - intros k' st' Hk E'. destruct (Ho k' st' Hk E') as (H0 & H0' & H). split_and!; [done | done|]. intros Hne.
    destruct (H Hne) as [H1 H2]. split; [|done].
    intros i x Hi. rewrite delivered_app, delivered_one. case_decide.
    + subst. destruct Hk. eauto.
    + rewrite app_nil_r. by apply H1.
Qed.

Section runs.
Variable react : list Effect -> nat -> Call -> Reaction.t.
Variable acknowledges : list Effect -> nat -> option Z -> bool.
(** Subscribers may leave, but do not throw. *)
Hypothesis no_throw : forall l id c, Reaction.fails (react l id c) = false.

Lemma call_handlers_ok k q c ids s st :
  ok_but k s -> mget (streams s) k = Some st -> NoDup ids ->
  (forall id x, id ∈ ids -> id ∈ handlers st -> x ∈ delivered_to id (log s) -> x < q)%Z ->
  exists s', call_handlers react k (Some q) c ids s = (Ok tt, s') /\ ok_but k s' /\ left_from k s s' /\
    forall id, delivered_to id (log s') =
               delivered_to id (log s) ++ (if decide (id ∈ ids /\ id ∈ handlers st) then [q] else []).
Proof.
  revert s st. induction ids as [|i ids IH]; intros s st Hs E Hnd Hq; cbn [call_handlers].
  { exists s. split_and!; [done | done | apply left_from_refl|]. intros id.
    rewrite decide_False by (intros (H0 & _); by apply elem_of_nil in H0). by rewrite app_nil_r. }
  apply NoDup_cons in Hnd as [Hi Hnd]. rewrite E. case_decide as Hin.
  - set (s1 := emit [Delivered i (Some q) c] s).
    assert (H1 : ok_but k s1) by (apply (ok_but_delivered k st); eauto; set_solver).
    assert (E1 : mget (streams s1) k = Some st) by done.
    set (s2 := if Reaction.leaves _ then _ else _). rewrite no_throw.
    assert (H2 : ok_but k s2 /\ left_from k s1 s2 /\
              (exists l, log s2 = log s1 ++ l /\ Forall quiet l) /\
              forall id', id' <> i -> exists st', mget (streams s2) k = Some st' /\
                (id' ∈ handlers st' <-> id' ∈ handlers st)).
    { subst s2. destruct (Reaction.leaves _).
      - destruct (unsubscribe_ok k (ident st) i s1 H1) as (? & ? & ?). split_and!; [done..|].
        intros id' Hne. by apply unsubscribe_others.
      - split_and!; [done | apply left_from_refl | by exists []; rewrite app_nil_r |].
        intros id' _. by exists st. }
    clearbody s2. destruct H2 as (H2 & L2 & (l & Hl & Hql) & Ho).
    pose proof L2 as L2'. unfold left_from in L2'. rewrite E1 in L2'. destruct L2' as (st2 & E2 & _ & Hsub & _).
    assert (Hd2 : forall id, delivered_to id (log s2) =
              delivered_to id (log s) ++ (if decide (i = id) then [q] else [])).
    { intros id. rewrite Hl, delivered_app, (delivered_quiet id l Hql), app_nil_r.
      unfold s1. cbn [emit log]. by rewrite delivered_app, delivered_one. }
    destruct (IH s2 st2 H2 E2 Hnd) as (s' & -> & H3 & L3 & Hd).
    { intros id x Hid Hh. rewrite Hd2. rewrite decide_False by (intros ->; done). rewrite app_nil_r.
      apply Hq; set_solver. }
    exists s'. split_and!; [done | done | |].
    + eapply left_from_trans; [|exact L3]. exact L2.
    + intros id. rewrite Hd, Hd2. destruct (decide (i = id)) as [<-|Hne].
      * rewrite decide_False by (by intros [? _]).
        rewrite decide_True by (split; [set_solver | done]). by rewrite app_nil_r.
      * rewrite app_nil_r. destruct (Ho id (not_eq_sym Hne)) as (st2' & E2' & Hiff).
        rewrite E2 in E2'. injection E2' as <-. f_equal. apply decide_ext. set_solver.
  - destruct (IH s st Hs E Hnd) as (s' & -> & H3 & L3 & Hd); [set_solver|].
    exists s'. split_and!; [done | done | done|]. intros id. rewrite Hd. f_equal. apply decide_ext.
    set_solver.
Qed.

Lemma internal_sequenced k m s : sequenced m -> deliver_internal acknowledges k m s = s.
Proof.
  unfold deliver_internal. destruct (mget _ _); [|done]. by intros [-> | [-> | ->]].
Qed.

Lemma deliver_ok k q m s st :
  ok_but k s -> mget (streams s) k = Some st -> sequenced m -> PubSubMessage.seq m = Some q ->
  (handlers st <> [] -> below q (log s) st) ->
  exists s', deliverMessage react acknowledges k (Some m) s = (Ok tt, s') /\ ok_but k s' /\
    left_from k s s' /\
    forall id, delivered_to id (log s') =
               delivered_to id (log s) ++ (if decide (id ∈ handlers st) then [q] else []).
Proof.
  intros Hs E Hm Hseq Hb. unfold deliverMessage. rewrite E, Hseq.
  assert (Hc : exists c, call_of m = Some c)
    by (unfold call_of; destruct Hm as [-> | [-> | ->]]; eauto).
  destruct Hc as [c ->]. pose proof Hs as [[B1 _ _ _ _] _]. destruct (B1 k st E) as [_ Hnd].
  destruct (call_handlers_ok k q c (handlers st) s st Hs E Hnd) as (s' & -> & H1 & H2 & H3).
  { intros id x Hid _ Hx. eapply Hb; [|done|done]. intros Hn. rewrite Hn in Hid.
    by apply elem_of_nil in Hid. }
  cbn [and_then]. rewrite (internal_sequenced k m s') by done. exists s'.
  split_and!; [done | done | done|]. intros id. rewrite H3. f_equal. apply decide_ext. tauto.
Qed.

(** ** Loops of the reorder buffer *)

Definition at_stream (k : string) (P : StreamState -> Prop) (s : Receiver) : Prop :=
  forall st, mget (streams s) k = Some st -> P st.

Lemma on_buffer_at k f s st :
  mget (streams s) k = Some st -> mget (streams (on_buffer k f s)) k = Some (with_buffer f st).
Proof. intros E. unfold on_buffer. by rewrite mget_on_stream, decide_True, E by done. Qed.

Lemma on_buffer_none k f s : mget (streams s) k = None -> on_buffer k f s = s.
Proof. unfold on_buffer, on_stream. by intros ->. Qed.

Lemma own_delete q p : holds_own p -> holds_own (delete q p).
Proof. apply map_Forall_delete. Qed.

(** Delivery of a message taken out of the buffer of [k]: who is left has seen it, and the buffer
    is untouched unless everybody left. *)
Lemma deliver_from k q m s st :
  ok_but k s -> mget (streams s) k = Some st -> own q m ->
  (handlers st <> [] -> below q (log s) st) ->
  exists s' st', deliverMessage react acknowledges k (Some m) s = (Ok tt, s') /\ ok_but k s' /\
    mget (streams s') k = Some st' /\ handlers st' ⊆ handlers st /\
    (reorderBuffer st' = reorderBuffer st \/
     handlers st' = [] /\ reorderBuffer st' = ReorderBuffer.mk 0 ∅ false false) /\
    (handlers st' <> [] -> handlers st <> [] /\ below (q + 1) (log s') st').
Proof.
  intros Hs E (Hseq & Hm & _) Hb.
  destruct (deliver_ok k q m s st Hs E Hm Hseq Hb) as (s' & -> & H1 & H2 & H3).
  unfold left_from in H2. rewrite E in H2. destruct H2 as (st' & E' & _ & Hsub & Hsame & Hreset).
  exists s', st'. split_and!; [done | done | done | done | |].
  - destruct (decide (handlers st' = [])) as [Hn|Hn]; [|left; auto].
    destruct (decide (handlers st = [])) as [Hn0|Hn0]; [left; auto | right; auto].
  - intros Hn. assert (Hne : handlers st <> []).
    { intros E0. rewrite E0 in Hsub. destruct (handlers st'); [done | set_solver]. }
    split; [done|]. intros id x Hid. rewrite H3, decide_True by auto.
    rewrite elem_of_app, list_elem_of_singleton. intros [Hx|Hx]; [|lia].
    assert (x < q)%Z; [|lia]. eapply Hb; [done | by apply Hsub | done].
Qed.

(** The state of the buffer while [flushPendingMessages] runs, [t] being its timer. *)
Record flushing (t : bool) (l : list Effect) (st : StreamState) : Prop := {
  fl_own : holds_own (pending (reorderBuffer st));
  fl_now : deliveryDeferred (reorderBuffer st) = false;
  fl_timer : pending (reorderBuffer st) <> ∅ -> flushTimeout (reorderBuffer st) = t;
  fl_live : handlers st <> [] ->
    below (nextSeq (reorderBuffer st)) l st /\ (0 <= nextSeq (reorderBuffer st))%Z /\
    map_Forall (fun q _ => nextSeq (reorderBuffer st) <= q)%Z (pending (reorderBuffer st))
}.

Lemma pop_flushing t s s1 st st1 n m :
  flushing t (log s) st -> nextSeq (reorderBuffer st) = n -> pending (reorderBuffer st) !! n = Some m ->
  (reorderBuffer st1 = reorderBuffer (with_buffer (drop_pending n) st) \/
   handlers st1 = [] /\ reorderBuffer st1 = ReorderBuffer.mk 0 ∅ false false) ->
  (handlers st1 <> [] -> handlers st <> [] /\ below (n + 1) (log s1) st1) ->
  flushing t (log s1) (with_buffer bump st1) /\
  size (pending (reorderBuffer st1)) < size (pending (reorderBuffer st)).
Proof.
  intros [Hown Hnow Ht Hlive] Hn Hm Hbuf Hkeep.
  assert (Hp0 : pending (reorderBuffer st) <> ∅)
    by (intros H0; by rewrite H0, lookup_empty in Hm).
  assert (Hsz : size (pending (reorderBuffer st)) <> 0) by (by rewrite map_size_empty_iff).
  destruct Hbuf as [Hb|[Hn1 Hb]].
  - rewrite Hb. cbn. split.
    + split; cbn; rewrite ?Hb; cbn.
      * by apply own_delete.
      * done.
      * intros _. by apply Ht.
      * intros Hne. destruct (Hkeep Hne) as [Hne0 Hlow]. destruct (Hlive Hne0) as (_ & H0 & Hge).
        split_and!; [by rewrite Hn | lia |]. intros q m' Hq.
        apply lookup_delete_Some in Hq as [Hq1 Hq2]. specialize (Hge q m' Hq2). simpl in Hge. lia.
    + rewrite map_size_delete_Some by eauto. lia.
  - rewrite Hb. cbn. rewrite map_size_empty. split; [|lia].
    split; cbn; rewrite ?Hb, ?Hn1; [apply map_Forall_empty | done | done | done].
Qed.

Lemma flush_loop_ok fuel k t s :
  ok_but k s -> at_stream k (flushing t (log s)) s -> size (pending (buffer_of k s)) <= fuel ->
  exists s', flush_loop react acknowledges fuel k s = (Ok tt, s') /\ ok_but k s' /\
    size (pending (buffer_of k s')) <= size (pending (buffer_of k s)) /\
    at_stream k (fun st => flushing t (log s') st /\
      pending (reorderBuffer st) !! nextSeq (reorderBuffer st) = None) s'.
Proof.
  revert s. induction fuel as [|fuel IH]; intros s Hs Hfl Hsz; cbn [flush_loop].
  - assert (Hp : pending (buffer_of k s) = ∅) by (apply map_size_empty_iff; lia).
    rewrite Hp, lookup_empty. exists s. rewrite Hp. split_and!; [done | done | done|].
    intros st E. split; [auto|].
    rewrite (buffer_of_at k s st E) in Hp. by rewrite Hp, lookup_empty.
  - destruct (pending (buffer_of k s) !! nextSeq (buffer_of k s)) as [m|] eqn:Em.
    2: { exists s. split_and!; [done | done | done|]. intros st E. split; [auto|].
         by rewrite (buffer_of_at k s st E) in Em. }
    destruct (mget (streams s) k) as [st|] eqn:E; [|by unfold buffer_of in Em; rewrite E in Em].
    rewrite (buffer_of_at k s st E) in *. pose proof (Hfl st E) as Hst.
    set (n := nextSeq (reorderBuffer st)) in *.
    pose proof (on_buffer_at k (drop_pending n) s st E) as E0.
    destruct (deliver_from k n m (on_buffer k (drop_pending n) s) (with_buffer (drop_pending n) st))
      as (s1 & st1 & -> & H1 & E1 & Hsub & Hbuf & Hkeep);
      [by apply ok_but_buffer | done | exact (fl_own _ _ _ Hst _ _ Em) | |].
    { intros Hne. destruct (fl_live _ _ _ Hst Hne) as [Hb _]. unfold on_buffer. by rewrite on_stream_log. }
    cbn [and_then]. pose proof (on_buffer_at k bump s1 st1 E1) as E2.
    destruct (pop_flushing t s s1 st st1 n m Hst eq_refl Em Hbuf Hkeep) as [Hfl1 Hlt].
    destruct (IH (on_buffer k bump s1)) as (s2 & -> & H2 & Hsz2 & Hat2).
    + by apply ok_but_buffer.
    + intros st2. rewrite E2. intros [= <-]. unfold on_buffer. by rewrite on_stream_log.
    + rewrite (buffer_of_at _ _ _ E2). cbn. lia.
    + exists s2. rewrite (buffer_of_at _ _ _ E2) in Hsz2. cbn in Hsz2.
      split_and!; [done | done | lia | done].
Qed.

(** After a flush the buffer only holds messages beyond a gap; its timer is cleared when it holds
    none. *)
Record flushed (t : bool) (l : list Effect) (st : StreamState) : Prop := {
  fd_own : holds_own (pending (reorderBuffer st));
  fd_now : deliveryDeferred (reorderBuffer st) = false;
  fd_timer : pending (reorderBuffer st) <> ∅ -> flushTimeout (reorderBuffer st) = t;
  fd_live : handlers st <> [] ->
    below (nextSeq (reorderBuffer st)) l st /\ (0 <= nextSeq (reorderBuffer st))%Z /\
    above (nextSeq (reorderBuffer st)) (pending (reorderBuffer st))
}.

Lemma flushed_ok t l st :
  flushed t l st -> (pending (reorderBuffer st) <> ∅ -> t = true) -> stream_ok l st.
Proof.
  intros [H1 Hd H2 H3] Ht. unfold stream_ok, timed. rewrite Hd. split_and!; [done | |].
  - intros Hp. rewrite H2 by done. auto.
  - intros Hne. destruct (H3 Hne) as (Hb & H0 & Ha). split; [done|].
    split; [done | done | by rewrite Hd].
Qed.

Lemma flush_ok k t s :
  ok_but k s -> at_stream k (flushing t (log s)) s ->
  exists s', flushPendingMessages react acknowledges k s = (Ok tt, s') /\ ok_but k s' /\
    size (pending (buffer_of k s')) <= size (pending (buffer_of k s)) /\
    at_stream k (flushed t (log s')) s'.
Proof.
  intros Hs Hfl. unfold flushPendingMessages.
  destruct (flush_loop_ok _ k t s Hs Hfl (le_n _)) as (s1 & -> & H1 & Hsz & Hat). cbn [and_then].
  eexists. split; [done|]. split; [by apply ok_but_buffer|].
  destruct (mget (streams s1) k) as [st1|] eqn:E1.
  2: { rewrite on_buffer_none by done. split; [done|]. intros st. by rewrite E1. }
  split; [rewrite (buffer_of_at _ _ _ (on_buffer_at k _ s1 st1 E1));
          rewrite (buffer_of_at _ _ _ E1) in Hsz; cbn; by case_decide|].
  intros st. rewrite (on_buffer_at k _ s1 st1 E1). intros [= <-].
  destruct (Hat st1 E1) as [[Hown Hd Ht Hlive] Hgap]. unfold on_buffer. rewrite on_stream_log.
  split; cbn; case_decide as Hz; cbn; try done.
  - intros Hp. by apply map_size_empty_iff in Hz.
  - intros Hne. destruct (Hlive Hne) as (Hb & H0 & Hge). split_and!; [done | done|].
    apply map_size_empty_iff in Hz. rewrite Hz. apply map_Forall_empty.
  - intros Hne. destruct (Hlive Hne) as (Hb & H0 & Hge). split_and!; [done | done|].
    intros q m Hq. specialize (Hge q m Hq). simpl in Hge.
    assert (q <> nextSeq (reorderBuffer st1)) by congruence. lia.
Qed.

(** ** Forced flushes *)

Lemma elem_of_sorted_seqs p q : q ∈ sorted_seqs p <-> is_Some (p !! q).
Proof.
  unfold sorted_seqs. rewrite elem_of_sort_on, list_elem_of_fmap. split.
  - intros ([q' m] & -> & Hin). apply elem_of_map_to_list in Hin. eauto.
  - intros [m Hm]. exists (q, m). split; [done|]. by apply elem_of_map_to_list.
Qed.

Lemma sorted_seqs_nodup p : NoDup (sorted_seqs p).
Proof. unfold sorted_seqs. rewrite sort_on_perm. apply NoDup_fst_map_to_list. Qed.

Lemma sorted_seqs_sorted p : StronglySorted Z.lt (sorted_seqs p).
Proof.
  pose proof (sorted_seqs_nodup p) as Hnd. unfold sorted_seqs in *. set (l := fst <$> map_to_list p) in *.
  pose proof (sort_on_sorted (fun q : Z => q) l) as Hs. clearbody l. revert Hnd Hs.
  generalize (sort_on (fun q : Z => q) l). induction l0 as [|x l0 IH]; [constructor|].
  intros [Hx Hnd]%NoDup_cons Hs. apply StronglySorted_inv in Hs as [Hs Hle].
  constructor; [by apply IH|]. rewrite Forall_forall in *. intros y Hy.
  assert (x <> y) by (intros ->; done). specialize (Hle y Hy). simpl in Hle. lia.
Qed.

Lemma sorted_seqs_nil p : sorted_seqs p = [] <-> p = ∅.
Proof.
  split.
  - intros Hn. apply map_empty. intros q. destruct (p !! q) as [m|] eqn:E; [|done].
    assert (Hin : q ∈ sorted_seqs p) by (apply elem_of_sorted_seqs; eauto).
    rewrite Hn in Hin. by apply elem_of_nil in Hin.
  - intros ->. unfold sorted_seqs. by rewrite map_to_list_empty.
Qed.

(** The state of the buffer while [forceFlushBuffer] runs, [L] being what is left to deliver. *)
Record forcing (lo : Z) (L : list Z) (l : list Effect) (st : StreamState) : Prop := {
  fo_own : holds_own (pending (reorderBuffer st));
  fo_now : deliveryDeferred (reorderBuffer st) = false;
  fo_left : (forall q, q ∈ L <-> is_Some (pending (reorderBuffer st) !! q)) \/
            pending (reorderBuffer st) = ∅ /\ handlers st = [];
  fo_live : handlers st <> [] ->
    below lo l st /\ (0 <= nextSeq (reorderBuffer st))%Z
}.

Lemma forcing_nil lo l st : forcing lo [] l st -> pending (reorderBuffer st) = ∅.
Proof.
  intros [_ _ [Hin|[? _]] _]; [|done]. apply map_empty. intros q.
  destruct (_ !! q) eqn:E; [|done]. assert (Hq : q ∈ []) by (apply Hin; eauto).
  by apply elem_of_nil in Hq.
Qed.

Lemma pop_forcing lo q L s s1 st st1 m :
  forcing lo (q :: L) (log s) st -> pending (reorderBuffer st) !! q = Some m -> Forall (Z.lt q) L ->
  (reorderBuffer st1 = reorderBuffer (with_buffer (drop_pending q) st) \/
   handlers st1 = [] /\ reorderBuffer st1 = ReorderBuffer.mk 0 ∅ false false) ->
  (handlers st1 <> [] -> handlers st <> [] /\ below (q + 1) (log s1) st1) ->
  forcing (q + 1) L (log s1) st1.
Proof.
  intros [Hown Hnow Hleft Hlive] Hm HL Hbuf Hkeep. destruct Hbuf as [Hb|[Hn Hb]].
  - rewrite Forall_forall in HL. split; rewrite ?Hb; cbn.
    + by apply own_delete.
    + done.
    + destruct Hleft as [Hin|[He _]]; [|by rewrite He, lookup_empty in Hm]. left. intros x.
      rewrite lookup_delete_is_Some, <- Hin, elem_of_cons. split; [|naive_solver].
      intros Hx. specialize (HL x Hx). split; [lia | auto].
    + intros Hne. destruct (Hkeep Hne) as [Hne0 Hlow]. by destruct (Hlive Hne0).
  - split; rewrite ?Hb, ?Hn; cbn; [apply map_Forall_empty | done | by right | done].
Qed.

Lemma force_loop_ok k L lo s :
  ok_but k s -> StronglySorted Z.lt L -> Forall (fun q => lo <= q)%Z L ->
  at_stream k (forcing lo L (log s)) s ->
  exists r s', force_loop react acknowledges k L s = (r, s') /\ ok_but k s' /\
    at_stream k (fun st => pending (reorderBuffer st) = ∅ /\ deliveryDeferred (reorderBuffer st) = false /\
      (r = Ok tt -> forcing (default lo ((fun q => (q + 1)%Z) <$> last L)) [] (log s') st) /\
      (handlers st <> [] -> r = Ok tt)) s'.
Proof.
  revert lo s. induction L as [|q L IH]; intros lo s Hs Hsort Hlo Hat; cbn [force_loop].
  { exists (Ok tt), s. split_and!; [done | done|]. intros st E. specialize (Hat st E).
    split_and!; [by eapply forcing_nil | by eapply fo_now | done | done]. }
  apply StronglySorted_inv in Hsort as [Hsort Hq]. apply Forall_cons in Hlo as [Hq0 Hlo].
  destruct (mget (streams s) k) as [st|] eqn:E.
  2: { unfold buffer_of. rewrite E. cbn. exists (Throw MissingMessage), s.
       rewrite on_buffer_none by done. split_and!; [done | done|]. intros st. by rewrite E. }
  pose proof (Hat st E) as Hst. rewrite (buffer_of_at k s st E).
  pose proof (on_buffer_at k (drop_pending q) s st E) as E0.
  assert (H0 : ok_but k (on_buffer k (drop_pending q) s)) by (by apply ok_but_buffer).
  destruct (pending (reorderBuffer st) !! q) as [m|] eqn:Em.
  2: { cbn. exists (Throw MissingMessage), (on_buffer k (drop_pending q) s).
       destruct Hst as [_ Hnow [Hin|[He Hn]] _].
       { destruct (proj1 (Hin q)) as [? Hx]; [by left | congruence]. }
       split_and!; [done | done|]. intros st'. rewrite E0. intros [= <-]. cbn. rewrite He, Hn.
       split_and!; [apply delete_empty | done | done | done]. }
  destruct (deliver_from k q m _ _ H0 E0) as (s1 & st1 & -> & H1 & E1 & Hsub & Hbuf & Hkeep).
  { exact (fo_own _ _ _ _ Hst _ _ Em). }
  { intros Hne. destruct (fo_live _ _ _ _ Hst Hne) as [Hb _]. unfold on_buffer. rewrite on_stream_log.
    intros id x Hid Hx. specialize (Hb id x Hid Hx). lia. }
  cbn [and_then].
  destruct (IH (q + 1)%Z s1 H1 Hsort) as (r & s2 & -> & H2 & Hat2).
  { eapply Forall_impl; [exact Hq|]. simpl. lia. }
  { intros st'. rewrite E1. intros [= <-]. by apply (pop_forcing lo q L s s1 st st1 m). }
  exists r, s2. split_and!; [done | done|]. intros st' E'. destruct (Hat2 st' E') as (Hp & Hd & Hf & Hr).
  split_and!; [done | done | | done]. intros Hok. specialize (Hf Hok). rewrite last_cons. by destruct (last L).
Qed.

(** A forced flush empties the buffer in order, or everybody left while it ran. *)
Lemma force_ok k s :
  ok_but k s ->
  at_stream k (fun st => let b := reorderBuffer st in
    holds_own (pending b) /\ deliveryDeferred b = false /\ (handlers st <> [] ->
      below (nextSeq b) (log s) st /\ (0 <= nextSeq b)%Z /\ above (nextSeq b) (pending b))) s ->
  exists r s', forceFlushBuffer react acknowledges k s = (r, s') /\ ok_but k s' /\
    at_stream k (fun st => stream_ok (log s') st /\ pending (reorderBuffer st) = ∅ /\
      (handlers st <> [] -> r = Ok tt)) s'.
Proof.
  intros Hs Hat. unfold forceFlushBuffer. set (L := sorted_seqs (pending (buffer_of k s))).
  pose proof (sorted_seqs_sorted (pending (buffer_of k s))) as Hsort. fold L in Hsort.
  set (s0 := on_buffer k (set_timer false) s).
  assert (H0 : ok_but k s0) by (by apply ok_but_buffer).
  destruct (mget (streams s) k) as [st|] eqn:E.
  2: { assert (HL : L = []) by (unfold L, buffer_of; rewrite E; by apply sorted_seqs_nil).
       rewrite HL. exists (Ok tt), s0. split_and!; [done | done|]. intros st.
       unfold s0. rewrite on_buffer_none by done. by rewrite E. }
  pose proof (on_buffer_at k (set_timer false) s st E) as E0. fold s0 in E0.
  assert (HL : forall q, q ∈ L <-> is_Some (pending (reorderBuffer st) !! q))
    by (intros q; unfold L; rewrite elem_of_sorted_seqs; by rewrite (buffer_of_at k s st E)).
  destruct (Hat st E) as (Hown & Hnow & Hlive).
  assert (Hlog : log s0 = log s) by apply on_stream_log.
  assert (Hf0 : forcing (match L with [] => nextSeq (reorderBuffer st) | q :: _ => q end) L (log s0)
                  (with_buffer (set_timer false) st)).
  { split; cbn; [done | done | by left|]. intros Hne. rewrite Hlog.
    destruct (Hlive Hne) as (Hb & Hn & Ha). split; [|done].
    destruct L as [|y L']; [done|]. intros id x Hid Hx.
    assert (Hy : is_Some (pending (reorderBuffer st) !! y)) by (apply HL; by left).
    destruct Hy as [m Hm]. specialize (Ha y m Hm). specialize (Hb id x Hid Hx). simpl in *. lia. }
  destruct (last L) as [qn|] eqn:HqL.
  2: { apply last_None in HqL. rewrite HqL in Hf0. pose proof (forcing_nil _ _ _ Hf0) as Hp.
       exists (Ok tt), s0. split_and!; [done | done|]. intros st'. rewrite E0. intros [= <-].
       split_and!; [|done|done]. split_and!; [done | by apply timed_empty |]. intros Hne.
       rewrite Hlog. destruct (Hlive Hne) as (Hb & Hn & Ha). split; [done|].
       split; cbn; [done | done | congruence]. }
  set (lo := match L with [] => nextSeq (reorderBuffer st) | q :: _ => q end) in *.
  destruct (force_loop_ok k L lo s0 H0 Hsort) as (r & s1 & -> & H1 & Hat1);
    [| intros st'; rewrite E0; intros [= <-]; exact Hf0 |].
  { subst lo. destruct L as [|x L']; [constructor|]. apply StronglySorted_inv in Hsort as [_ Hx].
    constructor; [lia|]. eapply Forall_impl; [exact Hx|]. simpl. lia. }
  rewrite HqL in Hat1. cbn in Hat1.
  assert (Hq0 : (0 <= qn)%Z).
  { assert (Hin : qn ∈ L) by (by apply last_Some_elem_of). apply HL in Hin as [m Hm]. apply (Hown qn m Hm). }
  destruct r as [[]|e]; cbn [and_then].
  - exists (Ok tt), (on_buffer k (set_nextSeq (qn + 1)%Z) s1). split; [done|].
    split; [by apply ok_but_buffer|]. intros st'.
    destruct (mget (streams s1) k) as [st1|] eqn:E1.
    2: { rewrite on_buffer_none by done. by rewrite E1. }
    rewrite (on_buffer_at k _ s1 st1 E1). intros [= <-]. destruct (Hat1 st1 E1) as (Hp & Hd & Hf & _).
    destruct (Hf eq_refl) as [Hown1 _ _ Hl1]. unfold on_buffer. rewrite on_stream_log.
    split_and!; [|done|done]. split_and!; [done | by apply timed_empty |]. cbn. intros Hne.
    destruct (Hl1 Hne) as (Hb & Hn). split; [done|].
    split; cbn; rewrite ?Hp; [lia | intros _; apply map_Forall_empty | congruence].
  - exists (Throw e), s1. split_and!; [done | done|]. intros st1 E1.
    destruct (Hat1 st1 E1) as (Hp & Hd & _ & Hr). split_and!; [|done|done].
    apply stream_ok_empty; [|done|done]. destruct (decide (handlers st1 = [])) as [|Hne]; [done|].
    by specialize (Hr Hne).
Qed.
End runs.
