(* ===== verification/RedisOrder.v ===== *)
(** * What the subscribers of a replica see

    Runs of the receiving half under every sequence of subscriptions, frames, timers,
    synchronizations and teardowns. *)

From stdpp Require Import gmap.
From S2P Require Import Prelude JsMap Json RedisFrames RedisReceiver RedisReorder.
Import StreamSubscribers ReorderBuffer.

(** ** Changes of the rest of the state *)

Lemma receiver_ok_change s s' :
  (forall k, (handlers <$> mget (streams s') k) = (handlers <$> mget (streams s) k) /\
             (count <$> mget (streams s') k) = (count <$> mget (streams s) k) /\
             (reorderBuffer <$> mget (streams s') k) = (reorderBuffer <$> mget (streams s) k)) ->
  subscriberIdCounter s' = subscriberIdCounter s ->
  (exists l, log s' = log s ++ l /\ Forall quiet l) ->
  receiver_ok s -> receiver_ok s'.
Proof.
  intros Hh Hc Hl Hs.
  assert (Hb : forall k, ok_but k s').
  { intros k. eapply ok_but_change; [| | exact Hc | exact Hl | by apply ok_open].
    - intros k'. destruct (Hh k') as (? & ? & ?). done.
    - intros k' _. destruct (Hh k') as (? & ? & ?). done. }
  split; [apply (Hb "")|]. intros k st E. destruct (Hb (k +:+ "x")) as [_ Ho]. apply (Ho k); [|done].
  clear. induction k as [|c k IH]; [done|]. intros [= H]. by apply IH.
Qed.

Lemma receiver_ok_emit l s : Forall quiet l -> receiver_ok s -> receiver_ok (emit l s).
Proof. intros Hl. apply receiver_ok_change; [done | done |]. by exists l. Qed.

(** A change of one stream that leaves its subscribers and its buffer alone. *)
Lemma receiver_ok_stream k f s :
  (forall st, handlers (f st) = handlers st /\ count (f st) = count st /\
              reorderBuffer (f st) = reorderBuffer st) ->
  receiver_ok s -> receiver_ok (on_stream k f s).
Proof.
  intros Hf. apply receiver_ok_change.
  - intros k'. rewrite mget_on_stream. case_decide; [|done].
    destruct (mget (streams s) k') as [st|]; [|done]. destruct (Hf st) as (? & ? & ?). simpl.
    by split_and!; f_equal.
  - apply on_stream_counter.
  - exists []. rewrite app_nil_r, on_stream_log. by split.
Qed.

Lemma receiver_ok_unused k id s : receiver_ok s -> receiver_ok (unsubscribeUnusedChannel k id s).
Proof.
  apply receiver_ok_change; rewrite ?unused_streams, ?unused_counter; try done. apply unused_log.
Qed.

Lemma receiver_ok_settle k id r b s : receiver_ok s -> receiver_ok (settleAbortAck k id r b s).
Proof.
  intros Hs. unfold settleAbortAck. destruct (mget (streams s) k); [|done]. case_decide; [|done].
  destruct (mget _ _); [|done]. apply receiver_ok_unused, receiver_ok_emit; [by repeat constructor|].
  by apply receiver_ok_stream.
Qed.

Lemma receiver_ok_channel c s : receiver_ok s -> receiver_ok (ensureChannelSubscription c s).2.
Proof.
  unfold ensureChannelSubscription. destruct (mget _ c); [done|].
  apply receiver_ok_change; [done | done |]. eexists. split; [done | by repeat constructor].
Qed.

(** ** New streams *)

Lemma getOrCreate_at k s :
  let '(st, s') := getOrCreateStreamState k s in
  mget (streams s') k = Some st /\ log s' = log s /\
  subscriberIdCounter s' = subscriberIdCounter s /\
  forall k', k' <> k -> mget (streams s') k' = mget (streams s) k'.
Proof.
  unfold getOrCreateStreamState. destruct (mget (streams s) k) as [st|] eqn:E; [done|]. simpl.
  rewrite mget_mset_eq. split_and!; [done | done | done|]. intros k' Hk. by rewrite mget_mset_ne.
Qed.

Lemma receiver_ok_create k s : receiver_ok s -> receiver_ok (getOrCreateStreamState k s).2.
Proof.
  intros Hs. unfold getOrCreateStreamState. destruct (mget (streams s) k) as [st|] eqn:E; [done|].
  simpl. destruct Hs as [[B1 B2 B3 B4 B5] Ho].
  assert (Hget : forall k' st', mget (mset (streams s) k (createStreamState (fresh s))) k' = Some st' ->
            st' = createStreamState (fresh s) \/ mget (streams s) k' = Some st').
  { intros k' st'. rewrite mget_mset. case_decide; [intros [= <-]; by left | by right]. }
  split; [split|]; simpl; try done.
  - intros k' st' H. destruct (Hget _ _ H) as [->|H']; [split; [done | constructor] | eauto].
  - intros k' st' id H. destruct (Hget _ _ H) as [->|H']; [by intros ?%elem_of_nil | eauto].
  - intros k1 k2 st1 st2 id H1 H2. destruct (Hget _ _ H1) as [->|H1']; [by intros ?%elem_of_nil|].
    destruct (Hget _ _ H2) as [->|H2']; [by intros ? ?%elem_of_nil | eauto].
  - intros k' st' H. destruct (Hget _ _ H) as [->|H']; [|eauto].
    by apply stream_ok_empty.
Qed.

Section runs.
Variable react : list Effect -> nat -> Call -> Reaction.t.
Variable acknowledges : list Effect -> nat -> option Z -> bool.
Hypothesis no_throw : forall l id c, Reaction.fails (react l id c) = false.

(** ** Deliveries without a number *)

Lemma left_from_ok k s s' : receiver_ok s -> ok_but k s' -> left_from k s s' ->
  (exists l, log s' = log s ++ l /\ Forall quiet l) -> receiver_ok s'.
Proof.
  intros [_ Ho] Hb Hl (l & Hll & Hq). apply (ok_but_close k); [done|]. intros st' E'.
  unfold left_from in Hl. destruct (mget (streams s) k) as [st|] eqn:E; [|congruence].
  destruct Hl as (st1 & E1 & _ & Hsub & Hsame & Hreset). rewrite E' in E1. injection E1 as <-.
  destruct (Ho k st E) as (Hown & Htm & Hlive).
  assert (Hd : forall id, delivered_to id (log s') = delivered_to id (log s))
    by (intros id; by rewrite Hll, delivered_app, (delivered_quiet id l Hq), app_nil_r).
  destruct (decide (handlers st' = [])) as [Hn|Hn].
  - unfold stream_ok. rewrite Hn. destruct (decide (handlers st = [])) as [Hn0|Hn0].
    + by rewrite Hsame by auto.
    + rewrite Hreset by done. split_and!; [apply map_Forall_empty | by apply timed_empty | done].
  - unfold stream_ok. rewrite (Hsame (or_introl Hn)). split_and!; [done | done|]. intros _.
    assert (Hne : handlers st <> []).
    { intros E0. rewrite E0 in Hsub. destruct (handlers st'); [done | set_solver]. }
    destruct (Hlive Hne) as [Hb1 Hb2]. split; [|done].
    intros id q Hid. rewrite Hd. apply Hb1. by apply Hsub.
Qed.

Lemma receiver_ok_unsubscribe k sid id s : receiver_ok s -> receiver_ok (unsubscribe k sid id s).
Proof.
  intros Hs. destruct (unsubscribe_ok k sid id s (ok_open k s Hs)) as (H1 & H2 & H3).
  by apply (left_from_ok k s).
Qed.

Lemma call_handlers_quiet k c ids s :
  receiver_ok s -> receiver_ok (call_handlers react k None c ids s).2.
Proof.
  revert s. induction ids as [|id ids IH]; intros s Hs; cbn [call_handlers]; [done|].
  destruct (mget (streams s) k) as [st|]; [|done]. case_decide; [|by apply IH].
  rewrite no_throw. apply IH.
  assert (H1 : receiver_ok (emit [Delivered id None c] s))
    by (apply receiver_ok_emit; [by repeat constructor | done]).
  destruct (Reaction.leaves _); [by apply receiver_ok_unsubscribe | done].
Qed.

Lemma call_aborts_log g regs s :
  streams (call_aborts acknowledges g regs s).2 = streams s /\
  subscriberIdCounter (call_aborts acknowledges g regs s).2 = subscriberIdCounter s /\
  exists l, log (call_aborts acknowledges g regs s).2 = log s ++ l /\ Forall quiet l.
Proof.
  revert s. induction regs as [|r regs IH]; intros s; cbn [call_aborts].
  { split_and!; [done | done|]. exists []. by rewrite app_nil_r. }
  destruct (IH (emit [AbortCalled r g] s)) as (H1 & H2 & l & H3 & H4).
  destruct (call_aborts acknowledges g regs (emit [AbortCalled r g] s)) as [a s']. simpl in *.
  split_and!; [done | done|]. exists (AbortCalled r g :: l). rewrite H3, <- app_assoc.
  by split; [|constructor].
Qed.

Lemma receiver_ok_internal k m s : receiver_ok s -> receiver_ok (deliver_internal acknowledges k m s).
Proof.
  intros Hs. unfold deliver_internal. destruct (mget (streams s) k) as [st|]; [|done].
  destruct (PubSubMessage.type m); try done.
  - destruct (call_aborts_log (PubSubMessage.generationId m) (abortCallbacks st) s) as (H1 & H2 & H3).
    destruct (call_aborts _ _ _ s) as [a s1]. simpl in *.
    assert (H : receiver_ok s1) by (eapply receiver_ok_change; [| exact H2 | exact H3 | exact Hs];
      intros k'; by rewrite H1).
    destruct (PubSubMessage.abortRequestId m), (PubSubMessage.generationId m); try done.
    destruct a; [|done]. apply receiver_ok_emit; [by repeat constructor | done].
  - destruct (PubSubMessage.abortRequestId m), (PubSubMessage.generationId m); try done.
    destruct (mget _ _); [|done]. case_decide; [by apply receiver_ok_settle | done].
  - destruct (PubSubMessage.preempt m); [|done]. apply receiver_ok_emit; [|done].
    apply Forall_fmap, Forall_true. done.
Qed.

Lemma receiver_ok_unnumbered k m s :
  receiver_ok s -> PubSubMessage.seq m = None \/ call_of m = None ->
  receiver_ok (caught (deliverMessage react acknowledges k (Some m) s)).
Proof.
  intros Hs Hm. unfold deliverMessage, caught.
  assert (H : receiver_ok
    (match call_of m, mget (streams s) k with
     | Some c, Some st => call_handlers react k (PubSubMessage.seq m) c (handlers st) s
     | _, _ => done_ s end).2).
  { destruct (call_of m) as [c|]; [|done]. destruct (mget (streams s) k); [|done].
    destruct Hm as [->|?]; [by apply call_handlers_quiet | done]. }
  destruct (match call_of m with Some _ => _ | None => _ end) as [[[]|e] s']; simpl in *; [|done].
  by apply receiver_ok_internal.
Qed.

(** ** Numbered frames *)

Lemma stream_ok_at k s st : receiver_ok s -> mget (streams s) k = Some st -> stream_ok (log s) st.
Proof. intros [_ H]. apply H. Qed.

(** A change of the buffer of [k] that keeps its contract. *)
Lemma receiver_ok_buffer k f s :
  receiver_ok s ->
  (forall st, mget (streams s) k = Some st -> stream_ok (log s) (with_buffer f st)) ->
  receiver_ok (on_buffer k f s).
Proof.
  intros Hs Hf. apply (ok_but_close k); [by apply ok_but_buffer, ok_open|].
  intros st'. unfold on_buffer. rewrite mget_on_stream, decide_True, on_stream_log by done.
  destruct (mget (streams s) k) as [st|] eqn:E; simpl; [|done]. intros [= <-]. by apply Hf.
Qed.

(** Buffering a message beyond the frontier, or any message while delivery is deferred. *)
Lemma put_ok k q m s :
  receiver_ok s -> own q m ->
  (forall st, mget (streams s) k = Some st -> handlers st <> [] ->
     deliveryDeferred (reorderBuffer st) = false -> nextSeq (reorderBuffer st) < q)%Z ->
  receiver_ok (on_buffer k (fun b => let b' := put_pending q m b in
    if deliveryDeferred b then b' else set_timer true b') s).
Proof.
  intros Hs Hm Hq. apply receiver_ok_buffer; [done|]. intros st E.
  destruct (stream_ok_at k s st Hs E) as (Hown & Htm & Hlive). specialize (Hq st E).
  assert (Hown' : holds_own (<[q := m]> (pending (reorderBuffer st)))) by (by apply map_Forall_insert_2).
  unfold stream_ok, timed in *. cbn.
  destruct (deliveryDeferred (reorderBuffer st)) eqn:Hd; cbn; rewrite Hd.
  - split_and!; [done | done |]. intros Hne. destruct (Hlive Hne) as [Hb [B1 B2 B3]].
    split; [done|]. split; cbn; [done | congruence | auto].
  - split_and!; [done | done |]. intros Hne. destruct (Hlive Hne) as [Hb [B1 B2 B3]].
    split; [done|]. split; cbn; rewrite ?Hd; [done | | done].
    intros _. apply map_Forall_insert_2; [auto | by apply B2].
Qed.

(** The state in which the messages after the expected one are flushed. *)
Lemma next_flushing n l l1 st st1 :
  stream_ok l st -> deliveryDeferred (reorderBuffer st) = false -> nextSeq (reorderBuffer st) = n ->
  (reorderBuffer st1 = reorderBuffer st \/
   handlers st1 = [] /\ reorderBuffer st1 = ReorderBuffer.mk 0 ∅ false false) ->
  (handlers st1 <> [] -> handlers st <> [] /\ below (n + 1) l1 st1) ->
  flushing (flushTimeout (reorderBuffer st)) l1 (with_buffer bump st1) /\
  size (pending (reorderBuffer st1)) <= size (pending (reorderBuffer st)).
Proof.
  intros (Hown & Htm & Hlive) Hd Hn Hbuf Hkeep. destruct Hbuf as [Hb|[Hn1 Hb]].
  - rewrite Hb. split; [|done]. split; cbn; rewrite Hb; [done | done | done |]. intros Hne.
    destruct (Hkeep Hne) as [Hne0 Hlow]. destruct (Hlive Hne0) as [_ [B1 B2 _]].
    split_and!; [by rewrite Hn | lia |]. intros x m Hx. specialize (B2 Hd x m Hx).
    simpl in *. lia.
  - rewrite Hb. cbn. rewrite map_size_empty. split; [|lia].
    split; cbn; rewrite ?Hb, ?Hn1; [apply map_Forall_empty | done | done | done].
Qed.

(** The expected message: delivered, then whatever it unblocks. *)
Lemma next_ok k q m s st :
  receiver_ok s -> mget (streams s) k = Some st -> own q m ->
  deliveryDeferred (reorderBuffer st) = false -> nextSeq (reorderBuffer st) = q ->
  exists s', deliver_next react acknowledges k m s = (Ok tt, s') /\ receiver_ok s'.
Proof.
  intros Hs E Hm Hd Hq. pose proof (stream_ok_at k s st Hs E) as Hst. unfold deliver_next.
  destruct (deliver_from react acknowledges no_throw k q m s st (ok_open k s Hs) E Hm)
    as (s1 & st1 & -> & H1 & E1 & Hsub & Hbuf & Hkeep).
  { intros Hne. rewrite <- Hq. by apply Hst. }
  cbn [and_then]. pose proof (on_buffer_at k bump s1 st1 E1) as E2.
  destruct (next_flushing q (log s) (log s1) st st1 Hst Hd Hq Hbuf Hkeep) as [Hfl Hsz1].
  destruct (flush_ok react acknowledges no_throw k (flushTimeout (reorderBuffer st)) (on_buffer k bump s1))
    as (s2 & -> & H2 & Hsz & Hat).
  { by apply ok_but_buffer. }
  { intros st2. rewrite E2. intros [= <-]. unfold on_buffer. by rewrite on_stream_log. }
  exists s2. split; [done|]. apply (ok_but_close k); [done|]. intros st2 Es2.
  apply (flushed_ok _ _ _ (Hat st2 Es2)). intros Hp. destruct Hst as (_ & Htm & _).
  unfold timed in Htm. rewrite Hd in Htm. apply Htm. intros Hp0. apply Hp, map_size_empty_iff.
  rewrite (buffer_of_at k s2 st2 Es2), (buffer_of_at _ _ _ E2) in Hsz. cbn in Hsz.
  rewrite Hp0, map_size_empty in Hsz1. lia.
Qed.

Lemma put_now k q m s st :
  receiver_ok s -> mget (streams s) k = Some st -> own q m ->
  deliveryDeferred (reorderBuffer st) = true -> receiver_ok (on_buffer k (put_pending q m) s).
Proof.
  intros Hs E Hm Hd.
  rewrite (on_buffer_ext k _ (fun b => let b' := put_pending q m b in
    if deliveryDeferred b then b' else set_timer true b'));
    [|intros st'; rewrite E; intros [= <-]; by rewrite Hd].
  apply put_ok; [done | done|]. intros st'. rewrite E. intros [= <-]. congruence.
Qed.

Lemma put_later k q m s st :
  receiver_ok s -> mget (streams s) k = Some st -> own q m ->
  deliveryDeferred (reorderBuffer st) = false -> (nextSeq (reorderBuffer st) < q)%Z ->
  receiver_ok (scheduleFlushTimeout k (on_buffer k (put_pending q m) s)).
Proof.
  intros Hs E Hm Hd Hq. unfold scheduleFlushTimeout. rewrite on_buffer_twice.
  rewrite (on_buffer_ext k _ (fun b => let b' := put_pending q m b in
    if deliveryDeferred b then b' else set_timer true b'));
    [|intros st'; rewrite E; intros [= <-]; by rewrite Hd].
  apply put_ok; [done | done|]. intros st'. rewrite E. by intros [= <-].
Qed.

Lemma force_put_ok k q m s st :
  receiver_ok s -> mget (streams s) k = Some st -> own q m ->
  deliveryDeferred (reorderBuffer st) = false -> (nextSeq (reorderBuffer st) < q)%Z ->
  receiver_ok (caught (forceFlushBuffer react acknowledges k (on_buffer k (put_pending q m) s))).
Proof.
  intros Hs E Hm Hd Hq. destruct (stream_ok_at k s st Hs E) as (Hown & _ & Hlive).
  destruct (force_ok react acknowledges no_throw k (on_buffer k (put_pending q m) s))
    as (r & s' & -> & H1 & Hat).
  { by apply ok_but_buffer, ok_open. }
  { intros st'. rewrite (on_buffer_at k _ s st E). intros [= <-]. cbn.
    split_and!; [by apply map_Forall_insert_2 | done |]. intros Hne. unfold on_buffer.
    rewrite on_stream_log. destruct (Hlive Hne) as [Hb [B1 B2 _]]. split_and!; [done | done |]. apply map_Forall_insert_2; [done|]. by apply B2. }
  apply (ok_but_close k); [done|]. intros st' E'. by destruct (Hat st' E').
Qed.

Lemma numbered_ok k q m s st :
  receiver_ok s -> mget (streams s) k = Some st -> own q m ->
  receiver_ok (caught (handleOrderedChunk react acknowledges k q m s)) /\
  receiver_ok (caught (handleTerminalEvent react acknowledges k q m s)).
Proof.
  intros Hs E Hm. unfold handleOrderedChunk, handleTerminalEvent. rewrite (buffer_of_at k s st E).
  destruct (deliveryDeferred (reorderBuffer st)) eqn:Hd; [by pose proof (put_now k q m s st Hs E Hm Hd)|].
  destruct (decide (q = nextSeq (reorderBuffer st))) as [Hq|Hq].
  { rewrite decide_False by lia.
    destruct (next_ok k q m s st Hs E Hm Hd (eq_sym Hq)) as (s' & -> & H). done. }
  destruct (decide (nextSeq (reorderBuffer st) < q)%Z) as [Hlt|Hlt].
  2: { by rewrite (decide_True (P := (q < nextSeq (reorderBuffer st))%Z)) by lia. }
  rewrite (decide_False (P := (q < nextSeq (reorderBuffer st))%Z)) by lia.
  split; [case_decide; [by apply (force_put_ok k q m s st)|]|]; by apply (put_later k q m s st).
Qed.
End runs.
