(* ===== verification/RedisRuns.v ===== *)
(** * Runs of the receiving half

    Every sequence of subscriptions, frames, timers, synchronizations, registrations and teardowns
    of a replica, in any order: the invariants of [RedisReorder] hold throughout.

    A step is _calm_ when it neither settles a waiter of [emitAbortConfirmed] with [true], nor sets
    out to store an acknowledgement, nor publishes one, nor adds a waiter.  Every operation is calm
    but the delivery of an abort or an acknowledgement and the segments of [emitAbortConfirmed] and
    [publishAbortAcknowledgement]. *)

From stdpp Require Import gmap.
From S2P Require Import Prelude JsMap Json RedisFrames RedisReceiver RedisReorder RedisOrder.
Import StreamSubscribers ReorderBuffer.

(** ** What reaches the transport *)

(** Calls of its methods, frames of the channel, timers that fire, answers of the server.  The
    segments of a method after an [await] are inputs of their own. *)
Inductive Input :=
| Subscribe (k : string) (deferSequenceDelivery : bool)
| Unsubscribe (k : string) (sid id : nat)
| Arrives (channel : string) (message : jtext)
| TimerFires (k : string)
| Synced (k : string) (initial : option nat) (replayedNextSeq : option Z) (reply : option (option Z))
| CloseLocal (k error : string)
| WhenAllLeft (k : string) (callback : nat)
| Register (r : Registry) (k : string)
| Unregister (r : Registry) (k : string) (id reg : nat)
| ChannelFailed (channel : string) (p : nat)
| EmitAbort (k : string) (generationId : option Z)
| EmitPreempt (k : string) (msg : PreemptMessage.t)
| AckStored (k : string) (generationId : Z) (abortRequestId : string) (stored : bool)
| ConfirmBegin (k : string) (proof : option bool)
| ConfirmReady (k : string) (id : nat) (generationId : Z) (abortRequestId : string)
| ConfirmEnds (k : string) (id : nat) (abortRequestId : string) (proof : bool)
| Cleanup (k : string)
| Destroy.

(** Frames carry the numbers that the shared counter gave them, which are not negative, and a
    replay resumes from such a number. *)
Definition numbered (m : PubSubMessage.t) : Prop :=
  (forall q, PubSubMessage.seq m = Some q -> (0 <= q)%Z) /\
  (forall q, PubSubMessage.baseSeq m = Some q -> (0 <= q)%Z).
Definition input_ok (i : Input) : Prop :=
  match i with
  | Arrives _ message => forall m, JSON_parse message ≫= decode = Some m -> numbered m
  | _ => True
  end.

Section runs.
Variable react : list Effect -> nat -> Call -> Reaction.t.
Variable acknowledges : list Effect -> nat -> option Z -> bool.

Definition step (i : Input) (s : Receiver) : Receiver :=
  match i with
  | Subscribe k d => (subscribe k d s).2
  | Unsubscribe k sid id => unsubscribe k sid id s
  | Arrives channel message => handleMessage react acknowledges channel message s
  | TimerFires k => caught (flush_timer react acknowledges k s)
  | Synced k initial replayed reply =>
      caught (syncReorderBuffer react acknowledges k initial replayed reply s)
  | CloseLocal k error => closeLocalSubscribers react k error s
  | WhenAllLeft k callback => onAllSubscribersLeft k callback s
  | Register r k => (register r k s).2
  | Unregister r k id reg => unregister r k id reg s
  | ChannelFailed channel p => subscription_failed channel p s
  | EmitAbort k g => emitAbort k g s
  | EmitPreempt k msg => emitPreempt k msg s
  | AckStored k g requestId stored => ack_stored k g requestId stored s
  | ConfirmBegin k proof => (confirm_begin k proof s).2
  | ConfirmReady k id g requestId => (confirm_ready k id g requestId s).2
  | ConfirmEnds k id requestId proof => settleAbortAck k id requestId proof s
  | Cleanup k => cleanup k s
  | Destroy => destroy s
  end.

Fixpoint run (inputs : list Input) (s : Receiver) : Receiver :=
  match inputs with [] => s | i :: inputs => run inputs (step i s) end.

(** ** Frames *)

Hypothesis no_throw : forall l id c, Reaction.fails (react l id c) = false.

Lemma deliver_none k m s :
  mget (streams s) k = None -> deliverMessage react acknowledges k (Some m) s = (Ok tt, s).
Proof.
  intros E. unfold deliverMessage. rewrite E.
  destruct (call_of m); unfold done_; cbn; unfold deliver_internal; by rewrite E.
Qed.

Lemma buffer_of_none k s : mget (streams s) k = None -> buffer_of k s = ReorderBuffer.empty.
Proof. unfold buffer_of. by intros ->. Qed.

Lemma flush_none k s :
  mget (streams s) k = None -> flushPendingMessages react acknowledges k s = (Ok tt, s).
Proof.
  intros E. unfold flushPendingMessages. rewrite (buffer_of_none k s E).
  cbn [pending ReorderBuffer.empty]. rewrite map_size_empty. cbn [flush_loop].
  rewrite (buffer_of_none k s E). cbn [pending ReorderBuffer.empty]. rewrite lookup_empty.
  unfold done_. cbn [and_then]. by rewrite on_buffer_none.
Qed.

Lemma ordered_none k q m s :
  mget (streams s) k = None -> handleOrderedChunk react acknowledges k q m s = (Ok tt, s).
Proof.
  intros E. unfold handleOrderedChunk, deliver_next, scheduleFlushTimeout.
  rewrite deliver_none by done. cbn [and_then]. rewrite !on_buffer_none by done.
  rewrite flush_none, (buffer_of_none k s E) by done. cbn [deliveryDeferred ReorderBuffer.empty].
  case_decide; [done|]. case_decide; [|done]. rewrite decide_False; [done|].
  cbn [pending ReorderBuffer.empty]. rewrite map_size_empty. unfold MAX_BUFFER_SIZE. lia.
Qed.

Lemma batch_ok k g q es s :
  receiver_ok s -> (0 <= q)%Z -> receiver_ok (handle_batch react acknowledges k g q es s).
Proof.
  revert q s. induction es as [|e es IH]; intros q s Hs Hq; cbn [handle_batch]; [done|].
  apply IH; [|lia]. destruct (mget (streams s) k) as [st|] eqn:E; [|by rewrite ordered_none].
  apply (numbered_ok react acknowledges no_throw k q _ s st Hs E).
  split_and!; [done | by left | done].
Qed.

Lemma receive_ok k m s : receiver_ok s -> numbered m -> receiver_ok (receive react acknowledges k m s).
Proof.
  intros Hs [Hseq Hbase]. unfold receive. destruct (mget (streams s) k) as [st|] eqn:E; [|done].
  destruct (_ && _); [done|].
  assert (Hu : PubSubMessage.seq m = None \/ call_of m = None ->
    receiver_ok (caught (deliverMessage react acknowledges k (Some m) s)))
    by (by apply receiver_ok_unnumbered).
  assert (Hn : forall q, PubSubMessage.seq m = Some q -> sequenced m ->
    receiver_ok (caught (handleOrderedChunk react acknowledges k q m s)) /\
    receiver_ok (caught (handleTerminalEvent react acknowledges k q m s))).
  { intros q Hq Hm. apply (numbered_ok react acknowledges no_throw k q m s st Hs E).
    by split_and!; [done | done | apply Hseq]. }
  unfold sequenced, call_of in *.
  destruct (PubSubMessage.type m), (PubSubMessage.seq m) as [q|];
    try (by apply Hu; auto); try (by apply (Hn q); auto).
  all: destruct (PubSubMessage.baseSeq m) as [base|]; [|by apply Hu; auto];
    destruct (PubSubMessage.events m) as [es|]; [|by apply Hu; auto]; apply batch_ok; auto.
Qed.

Lemma handleMessage_ok channel message s :
  receiver_ok s -> input_ok (Arrives channel message) ->
  receiver_ok (handleMessage react acknowledges channel message s).
Proof.
  intros Hs Hi. unfold handleMessage. destruct (stream_of_channel channel); [|done].
  simpl in Hi. destruct (JSON_parse message ≫= decode) as [m|]; [|done]. apply receive_ok; auto.
Qed.

(** ** Timers *)

Lemma flush_timer_ok k s : receiver_ok s -> receiver_ok (caught (flush_timer react acknowledges k s)).
Proof.
  intros Hs. unfold flush_timer. destruct (mget (streams s) k) as [st|] eqn:E.
  2: { unfold buffer_of. by rewrite E. }
  rewrite (buffer_of_at k s st E). destruct (flushTimeout (reorderBuffer st)) eqn:Ht; [|done].
  destruct (stream_ok_at k s st Hs E) as (Hown & Htm & Hlive). unfold timed in Htm.
  destruct (deliveryDeferred (reorderBuffer st)) eqn:Hd; [congruence|].
  case_decide as Hz; cbn [caught].
  - apply map_size_empty_iff in Hz. apply receiver_ok_buffer; [done|]. intros st'. rewrite E.
    intros [= <-]. split_and!; [done | by apply timed_empty |]. intros Hne.
    destruct (Hlive Hne) as [Hb [B1 B2 B3]]. split; [done|]. by split.
  - destruct (force_ok react acknowledges no_throw k (on_buffer k (set_timer false) s))
      as (r & s' & -> & H1 & Hat).
    { by apply ok_but_buffer, ok_open. }
    { intros st'. rewrite (on_buffer_at k _ s st E). intros [= <-]. split_and!; [done | done|].
      intros Hne. destruct (Hlive Hne) as [Hb [B1 B2 _]]. unfold on_buffer. rewrite on_stream_log.
      split_and!; [done | done |]. by apply B2. }
    apply (ok_but_close k); [done|]. intros st' E'. by destruct (Hat st' E').
Qed.

(** ** Synchronization *)

(** The buffer when delivery is released: nothing pending is behind the frontier. *)
Definition releasable (l : list Effect) (st : StreamState) : Prop :=
  holds_own (pending (reorderBuffer st)) /\ (handlers st <> [] ->
    below (nextSeq (reorderBuffer st)) l st /\ (0 <= nextSeq (reorderBuffer st))%Z /\
    map_Forall (fun q _ => nextSeq (reorderBuffer st) <= q)%Z (pending (reorderBuffer st))).

Lemma below_le n n' l st : below n l st -> (n <= n')%Z -> below n' l st.
Proof. intros H Hn id q Hid Hq. specialize (H id q Hid Hq). lia. Qed.

Lemma advance_ok b frontier :
  let b' := advance frontier b in
  pending b' = pending b /\ (nextSeq b <= nextSeq b')%Z /\
  ((forall q m, pending b !! q = Some m -> nextSeq b <= q)%Z ->
   map_Forall (fun q _ => nextSeq b' <= q)%Z (pending b)).
Proof.
  unfold advance. pose proof (elem_of_sorted_seqs (pending b)) as Hin.
  pose proof (sorted_seqs_sorted (pending b)) as Hs.
  destruct (sorted_seqs (pending b)) as [|x L] eqn:E; cbn.
  - apply sorted_seqs_nil in E. rewrite E. split_and!; [done | lia |]. intros _. apply map_Forall_empty.
  - split_and!; [done | lia |]. intros H q m Hq. specialize (H q m Hq).
    apply StronglySorted_inv in Hs as [_ Hx]. rewrite Forall_forall in Hx.
    assert (Hq' : q ∈ x :: L) by (apply Hin; eauto). apply elem_of_cons in Hq' as [->|Hq']; [lia|].
    specialize (Hx q Hq'). lia.
Qed.

Lemma release_ok k s :
  ok_but k s -> at_stream k (releasable (log s)) s ->
  exists s', release_deferred react acknowledges k s = (Ok tt, s') /\ receiver_ok s'.
Proof.
  intros Hs Hat. unfold release_deferred. set (s0 := on_buffer k (set_deferred false) s).
  assert (H0 : ok_but k s0) by (by apply ok_but_buffer).
  destruct (flush_ok react acknowledges no_throw k (flushTimeout (buffer_of k s)) s0 H0)
    as (s1 & -> & H1 & _ & Hat1).
  { intros st0 E0. unfold s0, on_buffer in *. rewrite mget_on_stream, decide_True in E0 by done.
    destruct (mget (streams s) k) as [st|] eqn:E; [|done]. injection E0 as <-.
    destruct (Hat st E) as [Hown Hlive]. rewrite on_stream_log, (buffer_of_at k s st E). by split. }
  cbn [and_then]. eexists. split; [done|]. destruct (mget (streams s1) k) as [st1|] eqn:E1.
  2: { apply (ok_but_close k).
       - unfold scheduleFlushTimeout. rewrite on_buffer_none by done. by case_decide.
       - intros st. unfold scheduleFlushTimeout. rewrite on_buffer_none by done.
         case_decide; by rewrite E1. }
  pose proof (Hat1 st1 E1) as Hst1. rewrite (buffer_of_at k s1 st1 E1). case_decide as Hz.
  - apply (ok_but_close k); [done|]. intros st. rewrite E1. intros [= <-].
    apply (flushed_ok _ _ _ Hst1). apply map_size_empty_iff in Hz. by rewrite Hz.
  - apply (ok_but_close k); [by apply ok_but_buffer|]. intros st. unfold scheduleFlushTimeout.
    rewrite (on_buffer_at k _ s1 st1 E1). intros [= <-]. unfold on_buffer. rewrite on_stream_log.
    apply (flushed_ok true); [|done]. destruct Hst1. by split.
Qed.
(** The buffer of a live stream before its synchronization. *)
Lemma live_pending k s st q m :
  receiver_ok s -> mget (streams s) k = Some st -> handlers st <> [] ->
  pending (reorderBuffer st) !! q = Some m -> (nextSeq (reorderBuffer st) <= q)%Z.
Proof.
  intros Hs E Hne Hq. destruct (stream_ok_at k s st Hs E) as (Hown & _ & Hlive).
  destruct (Hlive Hne) as [_ [B1 B2 B3]]. destruct (deliveryDeferred (reorderBuffer st)) eqn:Hd.
  - rewrite B3 by done. by apply (Hown q m).
  - specialize (B2 eq_refl q m Hq). simpl in B2. lia.
Qed.

Lemma dropped q m replayed b :
  pending (drop_replayed replayed b) !! q = Some m ->
  pending b !! q = Some m /\ (forall r, replayed = Some r -> r <= q)%Z.
Proof.
  destruct replayed as [r|]; cbn; [|by split].
  intros [Hq Hr]%map_lookup_filter_Some. split; [done|]. by intros ? [= <-].
Qed.
Lemma dropped_next replayed b : nextSeq (drop_replayed replayed b) = nextSeq b.
Proof. by destruct replayed. Qed.

Lemma prefix_releasable k replayed counter s :
  receiver_ok s ->
  ok_but k (sync_prefix k replayed counter s) /\
  at_stream k (releasable (log (sync_prefix k replayed counter s))) (sync_prefix k replayed counter s).
Proof.
  intros Hs. unfold sync_prefix. split; [by apply ok_but_buffer, ok_open|]. intros st'.
  destruct (mget (streams s) k) as [st|] eqn:E; [|by rewrite on_buffer_none, E].
  rewrite (on_buffer_at k _ s st E). intros [= <-]. unfold on_buffer. rewrite on_stream_log.
  set (b := drop_replayed replayed (set_timer false (reorderBuffer st))).
  assert (Hn : nextSeq b = nextSeq (reorderBuffer st)) by (unfold b; by rewrite dropped_next).
  destruct (stream_ok_at k s st Hs E) as (Hown & _ & Hlive).
  destruct (advance_ok b (default counter replayed)) as (Hp & Hle & Hge). cbn zeta in *.
  unfold releasable, with_buffer. cbn. fold b. rewrite Hp.
  split; [intros q m Hq; by apply Hown, (dropped q m replayed _ Hq)|].
  intros Hne. destruct (Hlive Hne) as [Hb [B1 _ _]].
  split_and!; [eapply below_le; [exact Hb | lia] | lia |]. apply Hge. intros q m Hq. rewrite Hn.
  eapply live_pending; eauto. by apply (dropped q m replayed _ Hq).
Qed.

Lemma failed_ok k replayed s :
  receiver_ok s -> receiver_ok (caught (sync_failed react acknowledges k replayed s)).
Proof.
  intros Hs. unfold sync_failed. destruct (deliveryDeferred (buffer_of k s)); [|done].
  set (s1 := on_buffer k _ s).
  destruct (release_ok k s1) as (s' & -> & H); [by apply ok_but_buffer, ok_open | | done].
  intros st'. subst s1. destruct (mget (streams s) k) as [st|] eqn:E; [|by rewrite on_buffer_none, E].
  rewrite (on_buffer_at k _ s st E). intros [= <-]. unfold on_buffer. rewrite on_stream_log.
  destruct (stream_ok_at k s st Hs E) as (Hown & _ & Hlive).
  unfold releasable, with_buffer. cbn.
  split; [intros q m Hq; by apply Hown, (dropped q m replayed _ Hq)|].
  intros Hne. destruct (Hlive Hne) as [Hb [B1 _ _]].
  split_and!; [eapply below_le; [exact Hb | lia] | lia |]. intros q m Hq.
  destruct (dropped q m replayed _ Hq) as [Hq' Hr].
  pose proof (live_pending k s st q m Hs E Hne Hq').
  destruct replayed as [r|]; cbn; [specialize (Hr r eq_refl)|]; lia.
Qed.

Lemma sync_ok k initial replayed reply s :
  receiver_ok s ->
  receiver_ok (caught (syncReorderBuffer react acknowledges k initial replayed reply s)).
Proof.
  intros Hs. unfold syncReorderBuffer. destruct reply as [raw|].
  - destruct (_ || _); [done|].
    destruct (prefix_releasable k replayed (default 0%Z raw) s Hs) as [H1 H2].
    by destruct (release_ok k _ H1 H2) as (s' & -> & H).
  - destruct (_ && _); [by apply failed_ok | done].
Qed.

(** ** Subscriptions *)

Lemma receiver_ok_counter n s :
  receiver_ok s -> subscriberIdCounter s <= n -> receiver_ok {| s with subscriberIdCounter := n |}.
Proof.
  intros [[B1 B2 B3 B4 B5] Ho] Hn. split; [split|]; cbn; try done.
  - intros k st id E Hid. specialize (B2 k st id E Hid). lia.
  - intros id Hid. apply B4. lia.
Qed.

(** The entry of a subscriber that has seen nothing. *)
Definition enter (id : nat) (st : StreamState) : StreamState :=
  {| st with count := S (count st); handlers := handlers st ++ [id] |}.

Lemma enter_ok k id s st :
  receiver_ok s -> mget (streams s) k = Some st -> buffer_ok (reorderBuffer st) ->
  id <= subscriberIdCounter s -> delivered_to id (log s) = [] ->
  (forall k' st', mget (streams s) k' = Some st' -> id ∉ handlers st') ->
  receiver_ok (on_stream k (enter id) s).
Proof.
  intros Hs E Hbuf Hid Hnew Hfresh. pose proof Hs as [[B1 B2 B3 B4 B5] Ho].
  assert (Hget : forall k' st', mget (streams (on_stream k (enter id) s)) k' = Some st' ->
            (k' = k /\ st' = enter id st) \/ mget (streams s) k' = Some st').
  { intros k' st'. rewrite mget_on_stream. case_decide; [|by right]. subst. rewrite E.
    intros [= <-]. by left. }
  split; [split|]; rewrite ?on_stream_counter, ?on_stream_log; try done.
  - intros k' st' H. destruct (Hget _ _ H) as [[-> ->]|H']; [|eauto].
    destruct (B1 k st E) as [Hc Hnd]. cbn. rewrite length_app, Hc. split; [simpl; lia|].
    apply NoDup_app. split_and!; [done | | by apply NoDup_singleton].
    intros x Hx ->%list_elem_of_singleton. by apply (Hfresh k st E).
  - intros k' st' x H. destruct (Hget _ _ H) as [[-> ->]|H']; [|eauto]. cbn.
    rewrite elem_of_app, list_elem_of_singleton. intros [Hx| ->]; [eauto | done].
  - intros k1 k2 st1 st2 x H1 H2 X1 X2.
    destruct (Hget _ _ H1) as [[-> ->]|H1'], (Hget _ _ H2) as [[-> ->]|H2']; try done; eauto.
    + cbn in X1. rewrite elem_of_app, list_elem_of_singleton in X1.
      destruct X1 as [X1| ->]; [eauto | by destruct (Hfresh k2 st2 H2')].
    + cbn in X2. rewrite elem_of_app, list_elem_of_singleton in X2.
      destruct X2 as [X2| ->]; [eauto | by destruct (Hfresh k1 st1 H1')].
  - intros k' st' H. destruct (Hget _ _ H) as [[-> ->]|H']; [|eauto].
    destruct (Ho k st E) as (Hown & Htm & Hlive). split_and!; [done | done|]. intros _.
    split; [|done]. intros x q. cbn. rewrite elem_of_app, list_elem_of_singleton.
    intros [Hx| ->]; [|rewrite Hnew; by intros ?%elem_of_nil].
    apply Hlive; [|done]. intros Hn. rewrite Hn in Hx. by apply elem_of_nil in Hx.
Qed.

(** The identities that were not given out yet are nowhere. *)
Lemma unknown k id s st :
  receiver_ok s -> subscriberIdCounter s < id -> mget (streams s) k = Some st -> id ∉ handlers st.
Proof. intros [[_ B2 _ _ _] _] Hid E Hin. specialize (B2 k st id E Hin). lia. Qed.

Lemma create_counter k n s :
  streams (getOrCreateStreamState k {| s with subscriberIdCounter := n |}).2 =
  streams (getOrCreateStreamState k s).2.
Proof. unfold getOrCreateStreamState. cbn. by destruct (mget (streams s) k). Qed.

(** The attachment of the first subscriber starts with a new buffer. *)
Definition attach (k : string) (d : bool) (st : StreamState) (s : Receiver) : Receiver :=
  if decide (count st = 0) then on_buffer k (set_deferred d) (resetReorderBuffer k s) else s.

Lemma attach_ok k d s st :
  receiver_ok s -> mget (streams s) k = Some st ->
  receiver_ok (attach k d st s) /\ exists st', mget (streams (attach k d st s)) k = Some st' /\
    handlers st' = handlers st /\ buffer_ok (reorderBuffer st') /\
    subscriberIdCounter (attach k d st s) = subscriberIdCounter s /\
    log (attach k d st s) = log s /\
    forall k', k' <> k -> mget (streams (attach k d st s)) k' = mget (streams s) k'.
Proof.
  intros Hs E. pose proof Hs as [[B1 _ _ _ _] Ho]. destruct (B1 k st E) as [Hc _].
  unfold attach. case_decide as Hz.
  - unfold resetReorderBuffer. rewrite on_buffer_twice. split.
    + apply receiver_ok_buffer; [done|]. intros st'. rewrite E. intros [= <-].
      split_and!; [apply map_Forall_empty | destruct d; cbn; [done | by intros []] |].
      intros Hne. destruct Hne. apply length_zero_iff_nil. cbn. congruence.
    + rewrite (on_buffer_at k _ s st E). eexists. split; [done|].
      unfold on_buffer. rewrite on_stream_counter, on_stream_log.
      split_and!; [done | | done | done |].
      * split; cbn; [done | intros _; apply map_Forall_empty | done].
      * intros k' Hk. rewrite mget_on_stream. by rewrite decide_False.
  - split; [done|]. exists st. split_and!; try done. apply (Ho k st E).
    intros Hn. rewrite Hn in Hc. done.
Qed.

Lemma subscribe_ok k d s : receiver_ok s -> receiver_ok (subscribe k d s).2.
Proof.
  intros Hs. unfold subscribe. set (id := S (subscriberIdCounter s)).
  set (s0 := {| s with subscriberIdCounter := id |}).
  assert (H0 : receiver_ok s0) by (apply receiver_ok_counter; [done | unfold id; lia]).
  pose proof (getOrCreate_at k s0) as Hg. pose proof (receiver_ok_create k s0 H0) as H1.
  pose proof (create_counter k id s) as Hsame. fold s0 in Hsame.
  destruct (getOrCreateStreamState k s0) as [st s1]. destruct Hg as (E1 & Hl1 & Hc1 & Ho1).
  cbn [snd] in *. apply receiver_ok_channel. fold (attach k d st s1).
  assert (Hfresh : forall k' st', mget (streams s1) k' = Some st' -> id ∉ handlers st').
  { intros k' st'. rewrite Hsame. apply unknown; [by apply receiver_ok_create|].
    unfold getOrCreateStreamState, id. destruct (mget (streams s) k); cbn; lia. }
  destruct (attach_ok k d s1 st H1 E1) as (H2 & st2 & E2 & Hh & Hb & Hc2 & Hl2 & Ho2).
  apply (enter_ok k id _ st2); try done.
  - by rewrite Hc2, Hc1.
  - rewrite Hl2, Hl1. cbn. destruct Hs as [[_ _ _ B4 _] _]. apply B4. unfold id. lia.
  - intros k' st' E'. destruct (decide (k' = k)) as [->|Hk].
    + rewrite E2 in E'. injection E' as <-. rewrite Hh. eauto.
    + rewrite Ho2 in E' by done. eauto.
Qed.

(** ** The other operations *)

Lemma close_handlers_ok k error ids s :
  receiver_ok s -> receiver_ok (close_handlers react k error ids s).
Proof.
  revert s. induction ids as [|id ids IH]; intros s Hs; cbn [close_handlers]; [done|]. apply IH.
  assert (H1 : receiver_ok (emit [Delivered id None (ErrorCall error None)] s))
    by (apply receiver_ok_emit; [by repeat constructor | done]).
  destruct (mget (streams s) k); [|done]. case_match; [by apply (receiver_ok_unsubscribe react) | done].
Qed.

Lemma closeLocal_ok k error s : receiver_ok s -> receiver_ok (closeLocalSubscribers react k error s).
Proof.
  intros Hs. unfold closeLocalSubscribers. destruct (mget (streams s) k) as [st|] eqn:E; [|done].
  pose proof (close_handlers_ok k error (handlers st) s Hs) as H1.
  set (s1 := close_handlers react k error (handlers st) s) in *. clearbody s1.
  destruct (mget (streams s1) k) as [st1|] eqn:E1; [|done]. case_decide as Hne; [done|].
  set (st2 := {| st1 with handlers := []; count := 0 |}).
  pose proof (ok_but_remove k st1 [] s1 (ok_open k s1 H1) E1 (list_subseteq_nil _) (NoDup_nil_2)) as H2.
  apply (ok_but_close k); [by apply ok_but_detach|]. intros st'. rewrite detach_streams.
  unfold resetReorderBuffer, on_buffer. rewrite mget_on_stream, decide_True by done. cbn [streams].
  rewrite mget_mset_eq. intros [= <-]. by apply stream_ok_empty.
Qed.

Lemma whenAllLeft_ok k callback s : receiver_ok s -> receiver_ok (onAllSubscribersLeft k callback s).
Proof. intros Hs. apply receiver_ok_stream; [done | by apply receiver_ok_create]. Qed.

Lemma set_registered_same r l st :
  handlers (set_registered r l st) = handlers st /\ count (set_registered r l st) = count st /\
  reorderBuffer (set_registered r l st) = reorderBuffer st.
Proof. by destruct r. Qed.

Lemma register_ok r k s : receiver_ok s -> receiver_ok (register r k s).2.
Proof.
  intros Hs. unfold register. pose proof (receiver_ok_create k s Hs) as H1.
  destruct (getOrCreateStreamState k s) as [st s1]. cbn [snd] in *.
  set (s2 := on_stream k _ _).
  assert (H2 : receiver_ok s2).
  { apply receiver_ok_stream; [intros ?; apply set_registered_same|].
    revert H1. apply receiver_ok_change; [done | done|]. exists []. by rewrite app_nil_r. }
  pose proof (receiver_ok_channel (events_channel k) s2 H2) as H3.
  by destruct (ensureChannelSubscription (events_channel k) s2).
Qed.

Lemma unregister_ok r k id reg s : receiver_ok s -> receiver_ok (unregister r k id reg s).
Proof.
  intros Hs. unfold unregister. destruct (mget (streams s) k); [|done]. case_decide; [|done].
  apply receiver_ok_unused, receiver_ok_stream; [intros ?; apply set_registered_same | done].
Qed.

Lemma channels_ok f s :
  receiver_ok s -> receiver_ok {| s with channelSubscriptions := f |}.
Proof. apply receiver_ok_change; [done | done|]. exists []. by rewrite app_nil_r. Qed.

Lemma confirm_ok k proof id g requestId s :
  receiver_ok s ->
  receiver_ok (confirm_begin k proof s).2 /\ receiver_ok (confirm_ready k id g requestId s).2.
Proof.
  intros Hs. split.
  - unfold confirm_begin. destruct proof as [[]|]; [done| |].
    all: pose proof (receiver_ok_create k s Hs) as H1.
    all: destruct (getOrCreateStreamState k s) as [st s1]; cbn [snd] in *.
    all: pose proof (receiver_ok_channel (events_channel k) s1 H1) as H3.
    all: by destruct (ensureChannelSubscription (events_channel k) s1).
  - unfold confirm_ready. destruct (mget (streams s) k); [|done]. case_decide; [|done]. cbn [snd].
    apply receiver_ok_emit; [by repeat constructor|]. by apply receiver_ok_stream.
Qed.

Lemma settle_all_quiet st : Forall quiet (settle_all st).
Proof. apply Forall_fmap, Forall_true. done. Qed.

(** Streams that are forgotten. *)
Lemma receiver_ok_forget f s :
  (forall k st, mget f k = Some st -> mget (streams s) k = Some st) ->
  receiver_ok s -> receiver_ok {| s with streams := f |}.
Proof.
  intros Hf [[B1 B2 B3 B4 B5] Ho]. split; [split|]; cbn; eauto.
Qed.

Lemma cleanup_ok k s : receiver_ok s -> receiver_ok (cleanup k s).
Proof.
  intros Hs. unfold cleanup. apply receiver_ok_forget.
  - intros k' st. rewrite mget_mdel. by case_decide.
  - assert (H1 : receiver_ok (match mget (streams s) k with
                              | Some st => emit (settle_all st) s | None => s end)).
    { destruct (mget (streams s) k); [|done]. apply receiver_ok_emit; [apply settle_all_quiet | done]. }
    destruct (mget (channelSubscriptions _) _); [|done].
    apply receiver_ok_emit; [by repeat constructor|]. by apply channels_ok.
Qed.

Lemma destroy_ok s : receiver_ok s -> receiver_ok (destroy s).
Proof.
  intros Hs. unfold destroy. set (s1 := emit _ s).
  assert (H1 : receiver_ok s1).
  { apply receiver_ok_emit; [|done]. apply Forall_app. split.
    - apply Forall_concat, Forall_fmap, Forall_true. intros st. apply settle_all_quiet.
    - apply Forall_fmap, Forall_true. done. }
  exact (receiver_ok_forget [] _ ltac:(done) (channels_ok [] s1 H1)).
Qed.

(** ** Steps and runs *)

Lemma step_ok i s : receiver_ok s -> input_ok i -> receiver_ok (step i s).
Proof.
  intros Hs Hi. destruct i; cbn [step]; try done.
  - by apply subscribe_ok.
  - by apply (receiver_ok_unsubscribe react).
  - by apply handleMessage_ok.
  - by apply flush_timer_ok.
  - by apply sync_ok.
  - by apply closeLocal_ok.
  - by apply whenAllLeft_ok.
  - by apply register_ok.
  - by apply unregister_ok.
  - unfold subscription_failed. case_decide; [by apply channels_ok | done].
  - apply receiver_ok_emit; [by repeat constructor | done].
  - apply receiver_ok_emit; [by repeat constructor | done].
  - unfold ack_stored. destruct stored; [|done]. apply receiver_ok_emit; [by repeat constructor | done].
  - by apply (confirm_ok k proof 0 0%Z "").
  - by apply (confirm_ok k None).
  - by apply receiver_ok_settle.
  - by apply cleanup_ok.
  - by apply destroy_ok.
Qed.

Lemma new_ok : receiver_ok newReceiver.
Proof. split; [split|]; try done. intros id. constructor. Qed.

Lemma run_ok inputs s : Forall input_ok inputs -> receiver_ok s -> receiver_ok (run inputs s).
Proof.
  intros H. revert s. induction H as [|i inputs Hi _ IH]; intros s Hs; [done|].
  apply IH. by apply step_ok.
Qed.

Lemma reached_ok inputs : Forall input_ok inputs -> receiver_ok (run inputs newReceiver).
Proof. intros H. apply run_ok; [done | apply new_ok]. Qed.
End runs.

(** C14. Whatever arrives, in whatever order and how often, and whatever subscribers come, go and
    resume, as long as none of them throws: each subscriber is called with increasing sequence
    numbers, so that no frame is delivered to it twice or after a later one. *)
Theorem deliveries_increase react acknowledges
    (no_throw : forall l id c, Reaction.fails (react l id c) = false) (inputs : list Input)
    (Hin : Forall input_ok inputs) (id : nat) :
  StronglySorted Z.lt (delivered_to id (log (run react acknowledges inputs newReceiver))).
Proof.
  destruct (reached_ok react acknowledges no_throw inputs Hin) as [[_ _ _ _ Hs] _]. apply Hs.
Qed.

(** A run in which frames 1, 0, 0 and 2 arrive, and the subscriber leaves at the last. *)
Definition quick_leaver (l : list Effect) (id : nat) (c : Call) : Reaction.t :=
  Reaction.mk (match c with DoneCall _ _ => true | _ => false end) false.
Definition sample_chunk (q : Z) : PubSubMessage.t :=
  PubSubMessage.mk CHUNK (Some q) (Some (jint q)) None None None None None None.
Definition sample_done (q : Z) : PubSubMessage.t :=
  PubSubMessage.mk DONE (Some q) None None None None None None None.
Definition arrival (k : string) (m : PubSubMessage.t) : Input :=
  Arrives (events_channel k) (JSON_stringify (wire m)).

Lemma arrival_ok k m : numbered m -> input_ok (arrival k m).
Proof. intros Hm m' Hm'. cbn in Hm'. rewrite decode_wire in Hm'. by injection Hm' as <-. Qed.

Definition sample_run : list Input :=
  [Subscribe "s" false; arrival "s" (sample_chunk 1); arrival "s" (sample_chunk 0);
   arrival "s" (sample_chunk 0); arrival "s" (sample_done 2); arrival "s" (sample_chunk 3)].

Lemma sample_numbered q m :
  (0 <= q)%Z -> m = sample_chunk q \/ m = sample_done q -> numbered m.
Proof. by intros Hq [-> | ->]; split; cbn; [intros ? [= <-] | done | intros ? [= <-] | done]. Qed.

Example deliveries_increase_witness :
  delivered_to 1 (log (run quick_leaver (fun _ _ _ => true) sample_run newReceiver)) = [0; 1; 2]%Z /\
  StronglySorted Z.lt
    (delivered_to 1 (log (run quick_leaver (fun _ _ _ => true) sample_run newReceiver))).
Proof.
  split; [vm_compute; reflexivity|]. apply deliveries_increase; [done|].
  unfold sample_run. rewrite !Forall_cons. split_and!; try done;
    apply arrival_ok; (eapply sample_numbered; [|eauto]; lia).
Defined.

(** ** What a step of a replica may acknowledge *)

(** Effects other than the settlement of a waiter by an acknowledgement, the storing of an
    acknowledgement, and its publication. *)
Definition hushed (e : Effect) : Prop :=
  match e with
  | StoreAck _ _ _ | AckSettled _ true => False
  | Published _ m => PubSubMessage.type m <> ABORT_ACK
  | _ => True
  end.

(** Only messages of the kinds that subscribers are called for wait in the buffers. *)
Definition held (p : gmap Z PubSubMessage.t) : Prop := map_Forall (fun _ m => sequenced m) p.
Definition all_held (s : Receiver) : Prop :=
  forall k st, mget (streams s) k = Some st -> held (pending (reorderBuffer st)).

(** A waiter of a stream, for a request id. *)
Definition waits (s : Receiver) (k requestId : string) (w : AbortAckWaiter.t) : Prop :=
  exists st, mget (streams s) k = Some st /\ mget (abortAckWaiters st) requestId = Some w.

(** The log grows by hushed effects, and no waiter appears. *)
Record calm (s s' : Receiver) : Prop := {
  ca_log : exists l, log s' = log s ++ l /\ Forall hushed l;
  ca_waiters : forall k r w, waits s' k r w -> waits s k r w;
  ca_held : all_held s -> all_held s'
}.

#[export] Instance calm_preorder : PreOrder calm.
Proof.
  split.
  - intros s. split; [exists []; by rewrite app_nil_r | done | done].
  - intros s1 s2 s3 [(l & Hl & Fl) W H] [(l' & Hl' & Fl') W' H']. split; [|auto|auto].
    exists (l ++ l'). rewrite Hl', Hl, app_assoc. split; [done | by apply Forall_app].
Qed.

Lemma calm_same s s' : log s' = log s -> streams s' = streams s -> calm s s'.
Proof.
  intros Hl Hs. split; unfold waits, all_held; rewrite ?Hs; try done.
  exists []. by rewrite app_nil_r.
Qed.
Lemma calm_emit l s : Forall hushed l -> calm s (emit l s).
Proof. intros Hl. split; [by exists l | done | done]. Qed.

Lemma calm_stream k f s :
  (forall st r w, mget (abortAckWaiters (f st)) r = Some w -> mget (abortAckWaiters st) r = Some w) ->
  (forall st, held (pending (reorderBuffer st)) -> held (pending (reorderBuffer (f st)))) ->
  calm s (on_stream k f s).
Proof.
  intros Hw Hp. split.
  - exists []. by rewrite on_stream_log, app_nil_r.
  - intros k' r w (st & Hst & Hr). rewrite mget_on_stream in Hst. case_decide; [|by exists st].
    apply fmap_Some in Hst as (st0 & E0 & ->). exists st0. eauto.
  - intros H k' st. rewrite mget_on_stream. case_decide; [|apply H].
    intros (st0 & E0 & ->)%fmap_Some. eauto.
Qed.
Lemma calm_buffer k f s :
  (forall b, held (pending b) -> held (pending (f b))) -> calm s (on_buffer k f s).
Proof. intros H. apply calm_stream; [done|]. intros st. apply H. Qed.

Lemma held_empty : held ∅.
Proof. apply map_Forall_empty. Qed.
Lemma held_insert q m p : sequenced m -> held p -> held (<[q := m]> p).
Proof. intros. by apply map_Forall_insert_2. Qed.
Lemma held_delete q p : held p -> held (delete q p).
Proof. intros. by apply map_Forall_delete. Qed.
Lemma held_filter (P : Z * PubSubMessage.t -> Prop) `{!forall x, Decision (P x)} p :
  held p -> held (filter P p).
Proof. intros Hh q m [Hq _]%map_lookup_filter_Some. by apply (Hh q m). Qed.

Create HintDb calm.
#[export] Hint Resolve held_empty held_insert held_delete held_filter calm_buffer calm_emit : calm.
#[export] Hint Extern 1 (calm ?s ?s) => reflexivity : calm.
#[export] Hint Extern 1 (Forall hushed _) => repeat constructor : calm.

(** ** Operations *)

Lemma calm_unused k id s : calm s (unsubscribeUnusedChannel k id s).
Proof.
  destruct (unused_log k id s) as (l & Hl & _). unfold unsubscribeUnusedChannel.
  destruct (mget (streams s) k); [case_decide; [|case_match]|]; try reflexivity.
  etransitivity; [|apply calm_emit; by repeat constructor]. by apply calm_same.
Qed.

Lemma calm_detach k st s : calm s (detachStreamSubscribers k st s).
Proof.
  unfold detachStreamSubscribers, resetReorderBuffer.
  etransitivity; [|apply calm_emit; by apply Forall_fmap, Forall_true].
  etransitivity; [|apply calm_unused]. auto with calm.
Qed.

(** A state put in place of the one that is there, with the same waiters and buffer. *)
Lemma calm_put k st st' s :
  mget (streams s) k = Some st -> abortAckWaiters st' = abortAckWaiters st ->
  reorderBuffer st' = reorderBuffer st ->
  calm s {| s with streams := mset (streams s) k st' |}.
Proof.
  intros E Hw Hb. split; [by exists []; rewrite app_nil_r | |].
  - intros k' r w (st0 & E0 & Hr). cbn in E0. rewrite mget_mset in E0. case_decide; [|by exists st0].
    injection E0 as <-. subst k'. exists st. by rewrite <- Hw.
  - intros H k' st0. cbn. rewrite mget_mset. case_decide; [|apply H]. intros [= <-]. rewrite Hb.
    by apply (H k).
Qed.

Lemma calm_unsubscribe k sid id s : calm s (unsubscribe k sid id s).
Proof.
  unfold unsubscribe. destruct (mget (streams s) k) as [st|] eqn:E; [|reflexivity].
  destruct (decide _); [|reflexivity]. destruct (decide _); [|by apply (calm_put k st)].
  etransitivity; [|apply calm_detach]. by apply (calm_put k st).
Qed.

Lemma calm_create k s : calm s (getOrCreateStreamState k s).2.
Proof.
  unfold getOrCreateStreamState. destruct (mget (streams s) k) as [st|] eqn:E; [reflexivity|].
  split; [by exists []; rewrite app_nil_r | |].
  - intros k' r w (st & Hst & Hr). cbn in Hst. rewrite mget_mset in Hst.
    case_decide; [by injection Hst as <- | by exists st].
  - intros H k' st. cbn. rewrite mget_mset. case_decide; [|apply H]. intros [= <-]. apply held_empty.
Qed.

Lemma calm_channel c s : calm s (ensureChannelSubscription c s).2.
Proof.
  unfold ensureChannelSubscription. destruct (mget _ _); [reflexivity|]. cbn.
  etransitivity; [|apply calm_emit; by repeat constructor]. by apply calm_same.
Qed.

Lemma calm_settle k id r s : calm s (settleAbortAck k id r false s).
Proof.
  unfold settleAbortAck. destruct (mget (streams s) k) as [st|] eqn:E; [|reflexivity].
  case_decide; [|reflexivity]. destruct (mget (abortAckWaiters st) r); [|reflexivity].
  etransitivity; [|apply calm_unused]. etransitivity; [|apply calm_emit; by repeat constructor].
  apply calm_stream; [|done]. intros st' r' w'. cbn. rewrite mget_mdel. by case_decide.
Qed.

(** Runs that may throw: whatever the end, the state they leave. *)
Lemma calm_then s r k : calm s r.2 -> (forall s', calm s' (k s').2) -> calm s (and_then r k).2.
Proof. intros H Hk. destruct r as [[] s']; cbn in *; [|done]. etransitivity; [done | apply Hk]. Qed.

Section clients.
Variable react : list Effect -> nat -> Call -> Reaction.t.
Variable acknowledges : list Effect -> nat -> option Z -> bool.

Lemma calm_handlers k q c ids s : calm s (call_handlers react k q c ids s).2.
Proof.
  revert s. induction ids as [|id ids IH]; intros s; cbn [call_handlers]; [reflexivity|].
  destruct (mget (streams s) k) as [st|]; [|reflexivity].
  destruct (decide _); [|apply IH]. cbv zeta.
  set (s2 := if Reaction.leaves _ then _ else _).
  assert (Hs2 : calm s s2).
  { transitivity (emit [Delivered id q c] s); [auto with calm|]. subst s2.
    destruct (Reaction.leaves _); [apply calm_unsubscribe | reflexivity]. }
  destruct (Reaction.fails _); [done|]. etransitivity; [exact Hs2 | apply IH].
Qed.

Lemma calm_deliver k m s :
  (forall m', m = Some m' -> sequenced m') -> calm s (deliverMessage react acknowledges k m s).2.
Proof.
  intros Hm. destruct m as [m|]; [|reflexivity]. specialize (Hm m eq_refl). unfold deliverMessage.
  apply calm_then; [|intros s'; cbn; by rewrite internal_sequenced].
  destruct (call_of m), (mget (streams s) k); try reflexivity. apply calm_handlers.
Qed.

(** Popping a message of the buffer. *)
Lemma calm_pop k q s :
  all_held s -> calm s (deliverMessage react acknowledges k (pending (buffer_of k s) !! q)
                          (on_buffer k (drop_pending q) s)).2.
Proof.
  intros Hs. transitivity (on_buffer k (drop_pending q) s).
  - apply calm_buffer. intros b. apply held_delete.
  - apply calm_deliver. intros m Hq. unfold buffer_of in Hq.
    destruct (mget (streams s) k) as [st|] eqn:E; [by apply (Hs k st E q)|].
    by cbn in Hq; rewrite lookup_empty in Hq.
Qed.

(** Sequences of runs that need the buffers to hold such messages. *)
Lemma calm_then_held s r k :
  all_held s -> calm s r.2 -> (forall s', all_held s' -> calm s' (k s').2) -> calm s (and_then r k).2.
Proof.
  intros Hs H Hk. destruct r as [[] s']; cbn in *; [|done]. etransitivity; [done|].
  apply Hk. by apply (ca_held _ _ H).
Qed.

Lemma calm_flush_loop fuel k s :
  all_held s -> calm s (flush_loop react acknowledges fuel k s).2.
Proof.
  revert s. induction fuel as [|fuel IH]; intros s Hs; cbn [flush_loop]; cbv zeta;
    destruct (pending _ !! _) as [m|] eqn:E; try reflexivity.
  apply calm_then_held; [done | rewrite <- E; by apply calm_pop |]. intros s' Hs'.
  assert (Hb : calm s' (on_buffer k bump s')) by auto with calm.
  etransitivity; [exact Hb|]. apply IH. by apply (ca_held _ _ Hb).
Qed.

Lemma calm_flush k s : all_held s -> calm s (flushPendingMessages react acknowledges k s).2.
Proof.
  intros Hs. unfold flushPendingMessages. apply calm_then; [by apply calm_flush_loop|].
  intros s'. apply calm_buffer. intros b Hb. by case_decide.
Qed.

Lemma calm_force_loop k L s : all_held s -> calm s (force_loop react acknowledges k L s).2.
Proof.
  revert s. induction L as [|q L IH]; intros s Hs; cbn [force_loop]; [reflexivity|]. cbv zeta.
  apply calm_then_held; [done | by apply calm_pop | done].
Qed.

Lemma calm_force k s : all_held s -> calm s (forceFlushBuffer react acknowledges k s).2.
Proof.
  intros Hs. unfold forceFlushBuffer. cbv zeta.
  assert (Hb : calm s (on_buffer k (set_timer false) s)) by auto with calm.
  destruct (last _); [|done]. etransitivity; [exact Hb|].
  apply calm_then; [apply calm_force_loop; by apply (ca_held _ _ Hb)|].
  intros s'. cbn. auto with calm.
Qed.

Lemma calm_timer k s : all_held s -> calm s (flush_timer react acknowledges k s).2.
Proof.
  intros Hs. unfold flush_timer. destruct (flushTimeout _); [|reflexivity].
  assert (Hb : calm s (on_buffer k (set_timer false) s)) by auto with calm.
  case_decide; [done|]. etransitivity; [exact Hb|]. apply calm_force. by apply (ca_held _ _ Hb).
Qed.

Lemma calm_next k m s :
  sequenced m -> all_held s -> calm s (deliver_next react acknowledges k m s).2.
Proof.
  intros Hm Hs. unfold deliver_next. apply calm_then_held; [done | |].
  - apply calm_deliver. by intros m' [= <-].
  - intros s' Hs'. assert (Hb : calm s' (on_buffer k bump s')) by auto with calm.
    etransitivity; [exact Hb|]. apply calm_flush. by apply (ca_held _ _ Hb).
Qed.

Lemma calm_put_pending k q m s : sequenced m -> calm s (on_buffer k (put_pending q m) s).
Proof. intros Hm. apply calm_buffer. intros b. by apply held_insert. Qed.

Lemma calm_terminal k q m s :
  sequenced m -> all_held s -> calm s (handleTerminalEvent react acknowledges k q m s).2.
Proof.
  intros Hm Hs. unfold handleTerminalEvent, scheduleFlushTimeout. cbv zeta.
  pose proof (calm_put_pending k q m s Hm) as Hp.
  destruct (deliveryDeferred _); [done|]. case_decide; [reflexivity|].
  case_decide; [by apply calm_next|]. etransitivity; [exact Hp|]. cbn. auto with calm.
Qed.

Lemma calm_ordered k q m s :
  sequenced m -> all_held s -> calm s (handleOrderedChunk react acknowledges k q m s).2.
Proof.
  intros Hm Hs. unfold handleOrderedChunk, scheduleFlushTimeout. cbv zeta.
  pose proof (calm_put_pending k q m s Hm) as Hp.
  destruct (deliveryDeferred _); [done|]. case_decide; [by apply calm_next|].
  case_decide; [|reflexivity]. etransitivity; [exact Hp|].
  case_decide; [apply calm_force; by apply (ca_held _ _ Hp) | cbn; auto with calm].
Qed.

Lemma calm_batch k g q es s :
  all_held s -> calm s (handle_batch react acknowledges k g q es s).
Proof.
  revert q s. induction es as [|e es IH]; intros q s Hs; cbn [handle_batch]; [reflexivity|].
  assert (Ho : calm s (caught (handleOrderedChunk react acknowledges k q (chunk_at g q e) s)))
    by (apply calm_ordered; [by left | done]).
  etransitivity; [exact Ho|]. apply IH. by apply (ca_held _ _ Ho).
Qed.

Lemma calm_receive k m s :
  PubSubMessage.type m <> ABORT -> PubSubMessage.type m <> ABORT_ACK -> all_held s ->
  calm s (receive react acknowledges k m s).
Proof.
  intros H1 H2 Hs. unfold receive. destruct (mget (streams s) k) as [st|] eqn:E; [|reflexivity].
  destruct (_ && _); [reflexivity|].
  assert (Hd : calm s (caught (deliverMessage react acknowledges k (Some m) s))).
  { destruct (decide (sequenced m)) as [Hm|Hm]; [apply calm_deliver; by intros m' [= <-]|].
    unfold deliverMessage, call_of, deliver_internal, sequenced in *. rewrite E.
    destruct (PubSubMessage.type m); try (by exfalso; apply Hm; auto); try done;
      cbn; rewrite E; try reflexivity.
    destruct (PubSubMessage.preempt m); [|reflexivity]. apply calm_emit.
    by apply Forall_fmap, Forall_true. }
  destruct (PubSubMessage.type m) eqn:Ht; try congruence; destruct (PubSubMessage.seq m) as [q|];
    try exact Hd.
  1: by apply calm_ordered; [left|].
  3,4: apply calm_terminal; [unfold sequenced; auto | exact Hs].
  all: destruct (PubSubMessage.baseSeq m), (PubSubMessage.events m);
    first [exact Hd | exact (calm_batch _ _ _ _ _ Hs)].
Qed.

Lemma calm_release k s : all_held s -> calm s (release_deferred react acknowledges k s).2.
Proof.
  intros Hs. unfold release_deferred, scheduleFlushTimeout.
  assert (Hb : calm s (on_buffer k (set_deferred false) s)) by auto with calm.
  etransitivity; [exact Hb|]. apply calm_then; [apply calm_flush; by apply (ca_held _ _ Hb)|].
  intros s'. cbn. case_decide; [reflexivity | auto with calm].
Qed.

Lemma held_drop r b : held (pending b) -> held (pending (drop_replayed r b)).
Proof. destruct r; [|done]. apply held_filter. Qed.
Lemma pending_advance f b : pending (advance f b) = pending b.
Proof. unfold advance. by destruct (sorted_seqs _). Qed.

Lemma calm_sync k initial replayed reply s :
  all_held s -> calm s (syncReorderBuffer react acknowledges k initial replayed reply s).2.
Proof.
  intros Hs. unfold syncReorderBuffer. cbv zeta. destruct reply as [raw|].
  - destruct (_ || _); [reflexivity|].
    assert (Hb : calm s (sync_prefix k replayed (default 0%Z raw) s)).
    { apply calm_buffer. intros b Hb. rewrite pending_advance. by apply held_drop. }
    etransitivity; [exact Hb|]. apply calm_release. by apply (ca_held _ _ Hb).
  - destruct (_ && _); [|reflexivity]. unfold sync_failed.
    destruct (deliveryDeferred _); [|reflexivity]. apply calm_then; [|reflexivity].
    etransitivity; [|apply calm_release].
    + apply calm_buffer. intros b. apply held_drop.
    + apply (ca_held s); [|done]. apply calm_buffer. intros b. apply held_drop.
Qed.

Lemma calm_subscribe k d s : calm s (subscribe k d s).2.
Proof.
  unfold subscribe. cbv zeta. set (s0 := {| subscriberIdCounter := _ |}).
  assert (E0 : calm s s0) by (by apply calm_same). pose proof (calm_create k s0) as Hc.
  destruct (getOrCreateStreamState k s0) as [st s1]. cbn [snd] in Hc.
  etransitivity; [exact E0|]. etransitivity; [exact Hc|]. etransitivity; [|apply calm_channel].
  etransitivity; [|apply calm_stream; done]. case_decide; [|reflexivity].
  unfold resetReorderBuffer. etransitivity; apply calm_buffer; [|done]. auto with calm.
Qed.

Lemma calm_close k error s : calm s (closeLocalSubscribers react k error s).
Proof.
  assert (Hh : forall ids s, calm s (close_handlers react k error ids s)).
  { induction ids as [|id ids IH]; intros s'; cbn [close_handlers]; [reflexivity|]. cbv zeta.
    etransitivity; [|apply IH]. transitivity (emit [Delivered id None (ErrorCall error None)] s').
    - auto with calm.
    - destruct (mget (streams s') k); [|reflexivity].
      destruct (Reaction.leaves _); [apply calm_unsubscribe | reflexivity]. }
  unfold closeLocalSubscribers. destruct (mget (streams s) k) as [st|]; [|reflexivity]. cbv zeta.
  etransitivity; [apply (Hh (handlers st))|].
  destruct (mget (streams (close_handlers _ _ _ _ s)) k) as [st1|] eqn:E1; [|reflexivity].
  case_decide; [reflexivity|]. etransitivity; [|apply calm_detach]. by apply (calm_put k st1).
Qed.
End clients.

Lemma calm_whenAllLeft k callback s : calm s (onAllSubscribersLeft k callback s).
Proof. unfold onAllSubscribersLeft. etransitivity; [apply calm_create|]. by apply calm_stream. Qed.

Lemma calm_registered r l k s : calm s (on_stream k (fun st => set_registered r (l st) st) s).
Proof. apply calm_stream; by destruct r. Qed.

Lemma calm_register r k s : calm s (register r k s).2.
Proof.
  unfold register. pose proof (calm_create k s) as Hc.
  destruct (getOrCreateStreamState k s) as [st s1]. cbn [snd] in Hc. cbv zeta.
  pose proof (calm_registered r (fun st => registered r st ++ [fresh s1]) k
    {| s1 with fresh := S (fresh s1) |}) as Hr.
  pose proof (calm_channel (events_channel k) (on_stream k (fun st => set_registered r
    (registered r st ++ [fresh s1]) st)
    {| s1 with fresh := S (fresh s1) |})) as Hch.
  destruct (ensureChannelSubscription _ _) as [p s3]. cbn [snd] in *.
  etransitivity; [exact Hc|]. etransitivity; [|exact Hch]. etransitivity; [|exact Hr].
  by apply calm_same.
Qed.

Lemma calm_unregister r k id reg s : calm s (unregister r k id reg s).
Proof.
  unfold unregister. destruct (mget _ _); [|reflexivity]. destruct (decide _); [|reflexivity].
  etransitivity; [|apply calm_unused].
  apply (calm_registered r (fun st => filter (fun x => x <> reg) (registered r st))).
Qed.

Lemma calm_begin k proof s : calm s (confirm_begin k proof s).2.
Proof.
  unfold confirm_begin. destruct proof as [[]|]; [reflexivity| |].
  all: pose proof (calm_create k s) as Hc; destruct (getOrCreateStreamState k s) as [st s1];
    cbn [snd] in Hc; pose proof (calm_channel (events_channel k) s1) as Hch;
    destruct (ensureChannelSubscription _ s1) as [p s2]; cbn [snd] in *; by etransitivity.
Qed.

Lemma calm_forget s s' :
  log s' = log s -> (forall k st, mget (streams s') k = Some st -> mget (streams s) k = Some st) ->
  calm s s'.
Proof.
  intros Hl Hs. split.
  - exists []. by rewrite Hl, app_nil_r.
  - intros k r w (st & Hst & Hr). exists st. eauto.
  - intros H k st Hst. eauto.
Qed.

Lemma settled_hushed st : Forall hushed (settle_all st).
Proof. unfold settle_all. by apply Forall_fmap, Forall_true. Qed.

Lemma calm_cleanup k s : calm s (cleanup k s).
Proof.
  unfold cleanup. cbv zeta. set (s1 := match mget (streams s) k with Some st => _ | None => s end).
  assert (Hs1 : calm s s1).
  { subst s1. destruct (mget (streams s) k); [apply calm_emit, settled_hushed | reflexivity]. }
  set (s2 := match mget (channelSubscriptions s1) _ with Some _ => _ | None => s1 end).
  assert (Hs2 : calm s1 s2).
  { subst s2. destruct (mget (channelSubscriptions s1) _); [|reflexivity].
    etransitivity; [|apply calm_emit; by repeat constructor]. by apply calm_same. }
  etransitivity; [exact Hs1|]. etransitivity; [exact Hs2|]. apply calm_forget; [done|].
  intros k' st. cbn. rewrite mget_mdel. by case_decide.
Qed.

Lemma calm_destroy s : calm s (destroy s).
Proof.
  unfold destroy. cbv zeta. etransitivity; [apply calm_emit|by apply calm_forget].
  apply Forall_app. split; [|by apply Forall_fmap, Forall_true].
  apply Forall_concat, Forall_fmap, Forall_true. intros st. apply settled_hushed.
Qed.

(** The callbacks of an abort, and the one that accepted it. *)
Lemma call_aborts_calm acknowledges g regs s :
  calm s (call_aborts acknowledges g regs s).2 /\
  ((call_aborts acknowledges g regs s).1 = true ->
   exists before registration after,
     log (call_aborts acknowledges g regs s).2 = before ++ AbortCalled registration g :: after /\
     acknowledges before registration g = true).
Proof.
  revert s. induction regs as [|r regs IH]; intros s; cbn [call_aborts]; [by split; [reflexivity|]|].
  destruct (IH (emit [AbortCalled r g] s)) as [Hc Ha].
  destruct (call_aborts acknowledges g regs (emit [AbortCalled r g] s)) as [a s'] eqn:E.
  cbn [fst snd] in *. split.
  - transitivity (emit [AbortCalled r g] s); [auto with calm | done].
  - destruct (acknowledges (log s) r g) eqn:Hr; [|exact Ha]. intros _.
    destruct (ca_log _ _ Hc) as (l & Hl & _). exists (log s), r, l. split; [|done].
    rewrite Hl. cbn [emit log]. by rewrite <- app_assoc.
Qed.
