(* ===== verification/RedisWindow.v ===== *)
(** * Reordering against its specification

    For subscribers that stay and do not throw, the reorder buffer is compared with a reference:
    once the numbers [seen] have arrived, in any order and with any repetition, exactly the frames
    from the starting number up to the first one missing are delivered, in order, once, and the
    others wait under an armed timer.  This holds as long as no frame is a hundred ahead of the
    first missing one, where the transport gives up waiting. *)

From stdpp Require Import gmap.
From S2P Require Import Prelude JsMap Json RedisFrames RedisReceiver RedisReorder RedisOrder RedisRuns.
Import StreamSubscribers ReorderBuffer.

(** ** The first missing number *)

Fixpoint frontier_from (fuel : nat) (seen : list Z) (n : Z) : Z :=
  match fuel with
  | O => n
  | S fuel => if decide (n ∈ seen) then frontier_from fuel seen (n + 1)%Z else n
  end.
Definition frontier (seen : list Z) (n : Z) : Z := frontier_from (length seen) seen n.

(** [f] is the first number from [n] on that is not in [seen]. *)
Definition first_missing (seen : list Z) (n f : Z) : Prop :=
  (n <= f)%Z /\ (forall x, n <= x < f -> x ∈ seen)%Z /\ f ∉ seen.

Lemma first_missing_unique seen n f f' : first_missing seen n f -> first_missing seen n f' -> f = f'.
Proof.
  intros (H1 & H2 & H3) (H1' & H2' & H3').
  destruct (Z.lt_total f f') as [Hlt|[Heq|Hlt]]; [|done|].
  - destruct H3. apply H2'. lia.
  - destruct H3'. apply H2. lia.
Qed.

Lemma frontier_from_spec fuel seen n :
  let f := frontier_from fuel seen n in
  (n <= f)%Z /\ (forall x, n <= x < f -> x ∈ seen)%Z /\ (f ∉ seen \/ f = n + Z.of_nat fuel)%Z.
Proof.
  revert n. induction fuel as [|fuel IH]; intros n; cbn.
  { split_and!; [lia | intros; lia | right; lia]. }
  case_decide as Hn; [|split_and!; [lia | intros; lia | by left]].
  destruct (IH (n + 1)%Z) as (H1 & H2 & H3). split_and!; [lia | | destruct H3; [by left | right; lia]].
  intros x Hx. destruct (decide (x = n)) as [->|]; [done|]. apply H2. lia.
Qed.

Lemma NoDup_subset_length {A} (l l' : list A) : NoDup l -> l ⊆ l' -> length l <= length l'.
Proof.
  intros Hnd Hsub. apply submseteq_length, NoDup_submseteq; done.
Qed.

(** As many turns as numbers seen are enough. *)
Lemma frontier_spec seen n : first_missing seen n (frontier seen n).
Proof.
  unfold frontier. destruct (frontier_from_spec (length seen) seen n) as (H1 & H2 & H3).
  set (f := frontier_from (length seen) seen n) in *. split_and!; [done | done|].
  destruct H3 as [|Hf]; [done|]. intros Hin.
  assert (Hl : length (seqZ n (Z.of_nat (S (length seen)))) <= length seen).
  { apply NoDup_subset_length; [apply NoDup_seqZ|]. intros x Hx. apply elem_of_seqZ in Hx.
    destruct (decide (x = f)) as [->|]; [done|]. apply H2. lia. }
  rewrite length_seqZ in Hl. lia.
Qed.

Lemma frontier_eq seen n f : first_missing seen n f -> frontier seen n = f.
Proof. apply first_missing_unique, frontier_spec. Qed.

(** A number that is not the missing one changes nothing; the missing one moves the frontier. *)
Lemma frontier_other seen n q : q <> frontier seen n -> frontier (seen ++ [q]) n = frontier seen n.
Proof.
  intros Hq. apply frontier_eq. destruct (frontier_spec seen n) as (H1 & H2 & H3).
  split_and!; [done | set_solver |]. rewrite elem_of_app, list_elem_of_singleton. intros [?|?]; congruence.
Qed.
Lemma frontier_next seen n :
  let f := frontier seen n in let f' := frontier (seen ++ [f]) n in
  (f < f')%Z /\ (forall x, f + 1 <= x < f' -> x ∈ seen)%Z /\ f' ∉ seen.
Proof.
  cbn zeta. destruct (frontier_spec seen n) as (H1 & H2 & H3).
  destruct (frontier_spec (seen ++ [frontier seen n]) n) as (H1' & H2' & H3').
  generalize dependent (frontier (seen ++ [frontier seen n]) n). generalize dependent (frontier seen n).
  intros f H1 H2 H3 f' H1' H2' H3'. rewrite elem_of_app, list_elem_of_singleton in H3'.
  split_and!; [| |tauto].
  - destruct (Z.lt_total f f') as [|[Heq|Hlt]]; [done | naive_solver |]. destruct H3'. left. apply H2. lia.
  - intros x Hx. specialize (H2' x ltac:(lia)).
    rewrite elem_of_app, list_elem_of_singleton in H2'. destruct H2' as [|Hxf]; [done | lia].
Qed.

Lemma frontier_nil n : frontier [] n = n.
Proof. done. Qed.

(** ** A stream with another buffer, after some effects *)

Definition settled (k : string) (b : ReorderBuffer.t) (l : list Effect) (s : Receiver) : Receiver :=
  emit l (on_buffer k (fun _ => b) s).

Lemma settled_at k b l s st :
  mget (streams s) k = Some st ->
  mget (streams (settled k b l s)) k = Some (with_buffer (fun _ => b) st).
Proof. intros E. unfold settled. cbn [emit streams]. by apply on_buffer_at. Qed.

Lemma mset_same {A} (m : jsmap A) k v : mget m k = Some v -> mset m k v = m.
Proof.
  induction m as [|[k' v'] m IH]; simpl; [done|]. case_decide; [subst; by intros [= ->]|].
  intros Hg. by rewrite IH.
Qed.

Lemma settled_start k s st : mget (streams s) k = Some st -> settled k (reorderBuffer st) [] s = s.
Proof.
  intros E. unfold settled, on_buffer, on_stream. rewrite E.
  replace (with_buffer (fun _ => reorderBuffer st) st) with st by (by destruct st).
  rewrite mset_same by done. unfold emit. cbn. rewrite app_nil_r. by destruct s.
Qed.

Lemma settled_buffer k f b l s : on_buffer k f (settled k b l s) = settled k (f b) l s.
Proof.
  unfold settled. rewrite <- (on_buffer_twice k (fun _ => b) f).
  unfold on_buffer, on_stream, emit. cbn. destruct (mget (streams _) k); done.
Qed.

Lemma settled_emit k b l l' s : emit l' (settled k b l s) = settled k b (l ++ l') s.
Proof. unfold settled, emit. cbn. by rewrite app_assoc. Qed.

Lemma settled_buffer_of k b l s st : mget (streams s) k = Some st -> buffer_of k (settled k b l s) = b.
Proof. intros E. by rewrite (buffer_of_at _ _ _ (settled_at k b l s st E)). Qed.

(** The calls made for a message. *)
Definition calls (hs : list nat) (m : PubSubMessage.t) : list Effect :=
  match call_of m with
  | Some c => (fun id => Delivered id (PubSubMessage.seq m) c) <$> hs
  | None => []
  end.

Section steady.
Variable react : list Effect -> nat -> Call -> Reaction.t.
Variable acknowledges : list Effect -> nat -> option Z -> bool.
Hypothesis stay : forall l id c, react l id c = Reaction.mk false false.

(** ** Deliveries *)

Lemma call_handlers_steady k q c ids b l s st :
  mget (streams s) k = Some st -> ids ⊆ handlers st ->
  call_handlers react k q c ids (settled k b l s) =
  (Ok tt, settled k b (l ++ ((fun id => Delivered id q c) <$> ids)) s).
Proof.
  intros E. revert l. induction ids as [|id ids IH]; intros l Hsub; cbn [call_handlers].
  { unfold done_. by rewrite app_nil_r. }
  rewrite (settled_at k b l s st E), decide_True by (cbn; apply Hsub; by left). rewrite stay.
  cbn [Reaction.leaves Reaction.fails]. rewrite settled_emit, IH by (intros x Hx; apply Hsub; by right).
  rewrite fmap_cons, <- app_assoc. done.
Qed.

Lemma deliver_steady k m b l s st :
  mget (streams s) k = Some st -> sequenced m ->
  deliverMessage react acknowledges k (Some m) (settled k b l s) =
  (Ok tt, settled k b (l ++ calls (handlers st) m) s).
Proof.
  intros E Hm. unfold deliverMessage, calls. rewrite (settled_at k b l s st E).
  assert (Hc : exists c, call_of m = Some c)
    by (unfold call_of; destruct Hm as [-> | [-> | ->]]; eauto).
  destruct Hc as [c ->]. rewrite (call_handlers_steady _ _ _ _ _ _ _ st) by done.
  cbn [and_then]. by rewrite internal_sequenced.
Qed.

(** ** Flushing *)

(** The frames that may arrive: the one with number [q]. *)
Variable frame : Z -> PubSubMessage.t.
Hypothesis frames_ok : forall q, sequenced (frame q) /\ PubSubMessage.seq (frame q) = Some q.

Definition calls_from (hs : list nat) (n f : Z) : list Effect :=
  concat ((fun q => calls hs (frame q)) <$> seqZ n (f - n)).

Lemma calls_from_nil hs n : calls_from hs n n = [].
Proof. unfold calls_from. by rewrite Z.sub_diag. Qed.
Lemma calls_from_cons hs n f :
  (n < f)%Z -> calls_from hs n f = calls hs (frame n) ++ calls_from hs (n + 1) f.
Proof.
  intros H. unfold calls_from. rewrite seqZ_cons by lia. cbn.
  by replace (Z.pred (f - n)) with (f - (n + 1))%Z by lia.
Qed.
Lemma calls_from_app hs n f f' :
  (n <= f <= f')%Z -> calls_from hs n f' = calls_from hs n f ++ calls_from hs f f'.
Proof.
  intros H. unfold calls_from. rewrite <- concat_app, <- fmap_app. do 2 f_equal.
  replace (f' - n)%Z with ((f - n) + (f' - f))%Z by lia. rewrite seqZ_app by lia.
  by replace (n + (f - n))%Z with f by lia.
Qed.

(** Removal of the numbers from [n] to [f]. *)
Definition without (n f : Z) (p : gmap Z PubSubMessage.t) : gmap Z PubSubMessage.t :=
  filter (fun e => ~ (n <= e.1 < f)%Z) p.

Lemma lookup_without n f p q :
  without n f p !! q = if decide (n <= q < f)%Z then None else p !! q.
Proof.
  unfold without. case_decide as H.
  - apply map_lookup_filter_None. right. simpl. auto.
  - destruct (p !! q) as [m|] eqn:E.
    + by apply map_lookup_filter_Some.
    + apply map_lookup_filter_None. by left.
Qed.

Lemma without_nil n p : without n n p = p.
Proof. apply map_eq. intros q. rewrite lookup_without. case_decide; [lia | done]. Qed.
Lemma without_cons n f p : (n < f)%Z -> without n f p = without (n + 1) f (delete n p).
Proof.
  intros H. apply map_eq. intros q. rewrite !lookup_without, lookup_delete.
  repeat case_decide; try done; lia.
Qed.

Lemma flush_loop_steady k fuel f b l s st :
  mget (streams s) k = Some st ->
  (nextSeq b <= f)%Z -> Z.to_nat (f - nextSeq b) <= fuel ->
  (forall q, nextSeq b <= q < f -> pending b !! q = Some (frame q))%Z -> pending b !! f = None ->
  flush_loop react acknowledges fuel k (settled k b l s) =
  (Ok tt, settled k {| b with nextSeq := f; pending := without (nextSeq b) f (pending b) |}
            (l ++ calls_from (handlers st) (nextSeq b) f) s).
Proof.
  intros E. revert b l. induction fuel as [|fuel IH]; intros b l Hle Hfuel Hall Hnone.
  - assert (f = nextSeq b) as -> by lia. cbn [flush_loop].
    rewrite (settled_buffer_of k b l s st E), Hnone, calls_from_nil, without_nil, app_nil_r.
    by destruct b.
  - destruct (decide (nextSeq b = f)) as [Hf|Hf].
    + cbn [flush_loop]. rewrite (settled_buffer_of k b l s st E). subst f.
      rewrite Hnone, calls_from_nil, without_nil, app_nil_r. by destruct b.
    + cbn [flush_loop]. rewrite (settled_buffer_of k b l s st E), (Hall (nextSeq b)) by lia.
      rewrite settled_buffer, (deliver_steady k _ _ _ s st E) by apply frames_ok. cbn [and_then].
      rewrite settled_buffer, IH; cbn; [| lia | lia | | ].
      * rewrite <- app_assoc, <- calls_from_cons, <- without_cons by lia. done.
      * intros q Hq. rewrite lookup_delete_ne by lia. apply Hall. lia.
      * by rewrite lookup_delete_ne by lia.
Qed.
Lemma size_at_least (p : gmap Z PubSubMessage.t) n f :
  (forall q, n <= q < f -> is_Some (p !! q))%Z -> Z.to_nat (f - n) <= size p.
Proof.
  intros H. rewrite <- size_dom, <- (length_seqZ n).
  rewrite <- (size_list_to_set (C := gset Z)) by apply NoDup_seqZ.
  apply subseteq_size. intros q Hq. apply elem_of_list_to_set, elem_of_seqZ in Hq.
  apply elem_of_dom, H. lia.
Qed.
Lemma size_at_most (p : gmap Z PubSubMessage.t) n f :
  (forall q, is_Some (p !! q) -> n <= q < f)%Z -> size p <= Z.to_nat (f - n).
Proof.
  intros H. rewrite <- size_dom, <- (length_seqZ n).
  rewrite <- (size_list_to_set (C := gset Z)) by apply NoDup_seqZ.
  apply subseteq_size. intros q Hq. apply elem_of_dom, H in Hq.
  apply elem_of_list_to_set, elem_of_seqZ. lia.
Qed.

Lemma flush_steady k f b l s st :
  mget (streams s) k = Some st -> (nextSeq b <= f)%Z ->
  (forall q, nextSeq b <= q < f -> pending b !! q = Some (frame q))%Z -> pending b !! f = None ->
  let p := without (nextSeq b) f (pending b) in
  flushPendingMessages react acknowledges k (settled k b l s) =
  (Ok tt, settled k {| b with nextSeq := f; pending := p;
                      flushTimeout := negb (bool_decide (p = ∅)) && flushTimeout b |}
            (l ++ calls_from (handlers st) (nextSeq b) f) s).
Proof.
  intros E Hle Hall Hnone p. unfold flushPendingMessages. rewrite (settled_buffer_of k b l s st E).
  rewrite (flush_loop_steady k _ f b l s st E Hle); [| | done | done].
  2: { apply size_at_least. intros q Hq. rewrite Hall by done. by eexists. }
  cbn [and_then]. unfold done_. rewrite settled_buffer. cbn [pending]. fold p. do 2 f_equal.
  case_decide as Hz; cbn.
  - rewrite bool_decide_true by (by apply map_size_empty_iff). by destruct b.
  - rewrite bool_decide_false by (by rewrite <- map_size_empty_iff). by destruct b.
Qed.

(** ** The buffer that has seen the numbers [seen] since the frontier was [n] *)

Record holding (seen : list Z) (n : Z) (b : ReorderBuffer.t) : Prop := {
  ho_now : deliveryDeferred b = false;
  ho_next : nextSeq b = frontier seen n;
  ho_timer : flushTimeout b = negb (bool_decide (pending b = ∅));
  ho_pending : forall q, pending b !! q =
    if decide (q ∈ seen /\ frontier seen n < q)%Z then Some (frame q) else None;
  ho_window : forall q, q ∈ seen -> (q < frontier seen n + 100)%Z
}.

Lemma holding_same seen n b q :
  holding seen n b -> (q < frontier seen n)%Z -> holding (seen ++ [q]) n b.
Proof.
  intros [H1 H2 H3 H4 H5] Hq. assert (Hf : frontier (seen ++ [q]) n = frontier seen n)
    by (apply frontier_other; lia).
  split; rewrite ?Hf; try done.
  - intros x. rewrite H4. apply decide_ext. rewrite elem_of_app, list_elem_of_singleton.
    split; [tauto|]. intros [[?| ->] ?]; [done | lia].
  - intros x. rewrite elem_of_app, list_elem_of_singleton. intros [Hx| ->]; [by apply H5 | lia].
Qed.
Lemma holding_put seen n b q :
  holding seen n b -> (frontier seen n < q < frontier seen n + 100)%Z ->
  let b' := set_timer true (put_pending q (frame q) b) in
  holding (seen ++ [q]) n b' /\ size (pending b') < MAX_BUFFER_SIZE.
Proof.
  intros [H1 H2 H3 H4 H5] Hq. assert (Hf : frontier (seen ++ [q]) n = frontier seen n)
    by (apply frontier_other; lia).
  split.
  - split; cbn [set_timer put_pending nextSeq pending flushTimeout deliveryDeferred]; rewrite ?Hf; try done.
    + rewrite bool_decide_false by apply insert_non_empty. done.
    + intros x. destruct (decide (q = x)) as [<-|Hx].
      * rewrite lookup_insert_eq, decide_True; [done|]. split; [|lia].
        rewrite elem_of_app, list_elem_of_singleton. by right.
      * rewrite lookup_insert_ne, H4 by done. apply decide_ext.
        rewrite elem_of_app, list_elem_of_singleton. intuition congruence.
    + intros x. rewrite elem_of_app, list_elem_of_singleton. intros [Hx| ->]; [by apply H5 | lia].
  - cbn. pose proof (size_at_most (<[q:=frame q]> (pending b)) (frontier seen n + 1) (frontier seen n + 100)) as Hs.
    unfold MAX_BUFFER_SIZE. enough (size (<[q:=frame q]> (pending b)) <= 99) by lia.
    replace 99 with (Z.to_nat (frontier seen n + 100 - (frontier seen n + 1))) by lia. apply Hs.
    intros x. rewrite lookup_insert_is_Some, H4. intros [<-|[_ Hx]]; [lia|].
    case_decide as Hin; [|by destruct Hx]. destruct Hin as [Hin ?]. specialize (H5 x Hin). lia.
Qed.

Lemma holding_next seen n b :
  holding seen n b ->
  let f := frontier seen n in
  let f' := frontier (seen ++ [f]) n in
  let p := without (f + 1) f' (pending b) in
  (forall q, f + 1 <= q < f' -> pending b !! q = Some (frame q))%Z /\ pending b !! f' = None /\
  holding (seen ++ [f]) n {| b with nextSeq := f'; pending := p;
                             flushTimeout := negb (bool_decide (p = ∅)) && flushTimeout b |}.
Proof.
  intros [H1 H2 H3 H4 H5]. cbn zeta. destruct (frontier_next seen n) as (Hlt & Hall & Hnot).
  cbn zeta in *. set (f := frontier seen n) in *. set (f' := frontier (seen ++ [f]) n) in *.
  split_and!.
  - intros q Hq. rewrite H4, decide_True; [done|]. split; [by apply Hall | lia].
  - rewrite H4, decide_False; [done|]. by intros [? _].
  - split; cbn [nextSeq pending flushTimeout deliveryDeferred]; fold f'; try done.
    + rewrite H3. destruct (decide (pending b = ∅)) as [Hp|Hp].
      * rewrite (bool_decide_true (_ = _)); [done|]. apply map_eq. intros q.
        rewrite lookup_without, Hp, lookup_empty. by destruct (decide _).
      * rewrite (bool_decide_false (pending b = ∅)) by done. by rewrite andb_true_r.
    + intros x. rewrite lookup_without. destruct (decide (f + 1 <= x < f')%Z) as [Hx|Hx].
      * rewrite decide_False; [done|]. lia.
      * rewrite H4. apply decide_ext. rewrite elem_of_app, list_elem_of_singleton.
        assert (x ∈ seen -> f < x -> f' < x)%Z.
        { intros Hin Hfx. assert (x <> f') by (intros ->; done). lia. }
        intuition lia.
    + intros x. rewrite elem_of_app, list_elem_of_singleton. intros [Hx| ->]; [|lia].
      specialize (H5 x Hx). lia.
Qed.

(** ** One frame *)

(** The branches of [handleMessage] for numbered frames. *)
Definition offer (k : string) (m : PubSubMessage.t) (s : Receiver) : Run :=
  match PubSubMessage.type m, PubSubMessage.seq m with
  | CHUNK, Some q => handleOrderedChunk react acknowledges k q m s
  | (DONE | ERROR), Some q => handleTerminalEvent react acknowledges k q m s
  | _, _ => done_ s
  end.

Lemma offer_steady k seen n b l s st q :
  mget (streams s) k = Some st -> holding seen n b -> (q < frontier seen n + 100)%Z ->
  exists b', holding (seen ++ [q]) n b' /\
    offer k (frame q) (settled k b l s) =
    (Ok tt, settled k b' (l ++ calls_from (handlers st) (frontier seen n) (frontier (seen ++ [q]) n)) s).
Proof.
  intros E Hb Hq. destruct (frames_ok q) as [Hty Hseq]. unfold offer. rewrite Hseq.
  set (f := frontier seen n) in *.
  assert (Hoff : match PubSubMessage.type (frame q) with
    | CHUNK => handleOrderedChunk react acknowledges k q (frame q) (settled k b l s)
    | DONE | ERROR => handleTerminalEvent react acknowledges k q (frame q) (settled k b l s)
    | _ => done_ (settled k b l s)
    end =
    (if decide (q < f)%Z then done_ (settled k b l s)
     else if decide (q = f) then deliver_next react acknowledges k (frame q) (settled k b l s)
     else done_ (settled k (set_timer true (put_pending q (frame q) b)) l s))).
  { pose proof Hb as [H1 H2 _ _ _]. fold f in H2.
    unfold handleOrderedChunk, handleTerminalEvent, scheduleFlushTimeout.
    rewrite (settled_buffer_of k b l s st E), !settled_buffer, H1, H2.
    rewrite (settled_buffer_of k _ l s st E).
    destruct (decide (q < f)%Z); [|destruct (decide (q = f))].
    - destruct Hty as [-> | [-> | ->]]; try done.
      rewrite decide_False by lia. by rewrite decide_False by lia.
    - by destruct Hty as [-> | [-> | ->]].
    - assert (Hput : (f < q < f + 100)%Z) by lia.
      destruct (holding_put seen n b q Hb Hput) as [_ Hsz].
      destruct Hty as [-> | [-> | ->]]; try done.
      rewrite decide_True by lia. rewrite decide_False; [done|]. cbn in *. lia. }
  rewrite Hoff. clear Hoff. case_decide as Hlt; [|case_decide as Heq].
  - exists b. split; [by apply holding_same|]. rewrite frontier_other by (fold f; lia). fold f.
    by rewrite calls_from_nil, app_nil_r.
  - subst q. destruct (holding_next seen n b Hb) as (Hall & Hnone & Hb2). cbn zeta in *. fold f in Hall, Hnone, Hb2.
    eexists. split; [exact Hb2|]. unfold deliver_next.
    rewrite (deliver_steady k _ b l s st E) by apply frames_ok. cbn [and_then].
    rewrite settled_buffer. destruct (frontier_next seen n) as (Hlt' & _ & _). cbn zeta in Hlt'. fold f in Hlt'.
    pose proof (ho_next _ _ _ Hb) as Hn. fold f in Hn.
    rewrite (flush_steady k (frontier (seen ++ [f]) n) (bump b) _ s st E); cbn; rewrite ?Hn; try done; [|lia].
    rewrite <- app_assoc, <- calls_from_cons by done. done.
  - destruct (holding_put seen n b q Hb) as [Hb2 _]; [fold f; lia|].
    eexists. split; [exact Hb2|]. rewrite frontier_other by (fold f; lia). fold f.
    by rewrite calls_from_nil, app_nil_r.
Qed.
(** ** Many frames *)

(** The frames of a batch, and of any message. *)
Fixpoint batch_chunks (g : option Z) (q : Z) (es : list json) : list PubSubMessage.t :=
  match es with [] => [] | e :: es => chunk_at g q e :: batch_chunks g (q + 1)%Z es end.
Definition expand (m : PubSubMessage.t) : list PubSubMessage.t :=
  match PubSubMessage.type m, PubSubMessage.baseSeq m, PubSubMessage.events m with
  | CHUNK_BATCH, Some base, Some es => batch_chunks (PubSubMessage.generationId m) base es
  | _, _, _ => [m]
  end.
Fixpoint process (k : string) (ms : list PubSubMessage.t) (s : Receiver) : Receiver :=
  match ms with [] => s | m :: ms => process k ms (caught (offer k m s)) end.

Lemma process_app k ms ms' s : process k (ms ++ ms') s = process k ms' (process k ms s).
Proof. revert s. induction ms as [|m ms IH]; intros s; [done | apply IH]. Qed.

Lemma batch_process k g q es s :
  handle_batch react acknowledges k g q es s = process k (batch_chunks g q es) s.
Proof. revert q s. induction es as [|e es IH]; intros q s; [done | apply IH]. Qed.

Lemma receive_process k m s st :
  mget (streams s) k = Some st -> count st <> 0 -> Forall (fun m => exists q, m = frame q) (expand m) ->
  receive react acknowledges k m s = process k (expand m) s.
Proof.
  intros E Hc Hm. unfold receive. rewrite E, bool_decide_false by done. cbn [andb].
  unfold expand in *.
  assert (Hone : Forall (fun m => exists q, m = frame q) [m] ->
    sequenced m /\ exists q, PubSubMessage.seq m = Some q).
  { intros [[q ->] _]%Forall_cons. destruct (frames_ok q). eauto. }
  destruct (PubSubMessage.type m) eqn:Ety; unfold process, offer.
  2: { destruct (PubSubMessage.baseSeq m), (PubSubMessage.events m);
       try (destruct (Hone Hm) as [Hs _]; unfold sequenced in Hs; rewrite Ety in Hs; by destruct Hs as [|[|]]).
       destruct (PubSubMessage.seq m); apply batch_process. }
  all: destruct (Hone Hm) as [Hs [q Hq]]; unfold sequenced in Hs; rewrite Ety in *; rewrite ?Hq; try done.
  all: by destruct Hs as [|[|]].
Qed.

(** No frame is a hundred or more ahead of the first missing one when it arrives. *)
Fixpoint windowed (seen : list Z) (n : Z) (qs : list Z) : bool :=
  match qs with
  | [] => true
  | q :: qs => bool_decide (q < frontier seen n + 100)%Z && windowed (seen ++ [q]) n qs
  end.

Lemma frontier_mono seen qs n : (frontier seen n <= frontier (seen ++ qs) n)%Z.
Proof.
  destruct (frontier_spec seen n) as (H1 & H2 & H3).
  destruct (frontier_spec (seen ++ qs) n) as (H1' & H2' & H3').
  destruct (Z.le_gt_cases (frontier seen n) (frontier (seen ++ qs) n)) as [|Hlt]; [done|].
  destruct H3'. rewrite elem_of_app. left. apply H2. lia.
Qed.

Lemma windowed_app seen n qs qs' :
  windowed seen n (qs ++ qs') = windowed seen n qs && windowed (seen ++ qs) n qs'.
Proof.
  revert seen. induction qs as [|q qs IH]; intros seen; cbn; [by rewrite app_nil_r|].
  by rewrite IH, <- andb_assoc, <- app_assoc.
Qed.

Lemma windowed_all seen n qs q :
  windowed seen n qs = true -> q ∈ qs -> (q < frontier (seen ++ qs) n + 100)%Z.
Proof.
  revert seen. induction qs as [|x qs IH]; intros seen; [by intros _ ?%elem_of_nil|]. cbn [windowed].
  intros [Hx Hw]%andb_true_iff Hq. apply bool_decide_eq_true in Hx.
  replace (seen ++ x :: qs) with ((seen ++ [x]) ++ qs) by (by rewrite <- app_assoc).
  apply elem_of_cons in Hq as [->|Hq]; [|by apply IH].
  rewrite <- app_assoc. pose proof (frontier_mono seen ([x] ++ qs) n). lia.
Qed.

Lemma process_steady k seen n b l s st qs :
  mget (streams s) k = Some st -> holding seen n b -> windowed seen n qs = true ->
  exists b', holding (seen ++ qs) n b' /\
    process k (frame <$> qs) (settled k b l s) =
    settled k b' (l ++ calls_from (handlers st) (frontier seen n) (frontier (seen ++ qs) n)) s.
Proof.
  intros E. revert seen b l. induction qs as [|q qs IH]; intros seen b l Hb Hw.
  { exists b. by rewrite app_nil_r, calls_from_nil, app_nil_r. }
  cbn [windowed] in Hw. apply andb_true_iff in Hw as [Hq Hw]. apply bool_decide_eq_true in Hq.
  destruct (offer_steady k seen n b l s st q E Hb Hq) as (b1 & Hb1 & Ho).
  rewrite fmap_cons. cbn [process]. rewrite Ho. cbn [caught snd].
  destruct (IH (seen ++ [q]) b1 (l ++ calls_from (handlers st) (frontier seen n) (frontier (seen ++ [q]) n)) Hb1 Hw)
    as (b2 & Hb2 & ->).
  exists b2. rewrite <- app_assoc in Hb2 |- *. rewrite <- (app_assoc seen [q] qs). split; [done|].
  rewrite <- calls_from_app; [done|].
  pose proof (frontier_mono seen [q] n). pose proof (frontier_mono (seen ++ [q]) qs n) as H2.
  rewrite <- app_assoc in H2. done.
Qed.
End steady.
