(* ===== verification/RedisResume.v ===== *)
(** * From subscription to delivery

    The reference of [RedisWindow] carried through whole runs: what a subscriber sees of the
    frames that arrive in any order, of those that arrive while it replays what it missed, and of
    those that are stuck behind a lost one until the timer gives up. *)

From stdpp Require Import gmap.
From S2P Require Import Prelude JsMap Json RedisFrames RedisReceiver RedisReorder RedisOrder RedisRuns RedisWindow.
Import StreamSubscribers ReorderBuffer.

(** The arrival of messages on the channel of a stream. *)
Definition arrivals (k : string) (ms : list PubSubMessage.t) : list Input :=
  (fun m => Arrives (events_channel k) (JSON_stringify (wire m))) <$> ms.

Definition proper_id (k : string) : Prop := k <> "" /\ brace_free k = true.

Section steady.
Variable react : list Effect -> nat -> Call -> Reaction.t.
Variable acknowledges : list Effect -> nat -> option Z -> bool.
Hypothesis stay : forall l id c, react l id c = Reaction.mk false false.
Variable frame : Z -> PubSubMessage.t.
Hypothesis frames_ok : forall q, sequenced (frame q) /\ PubSubMessage.seq (frame q) = Some q.

Lemma arrives_receive k m s :
  proper_id k ->
  step react acknowledges (Arrives (events_channel k) (JSON_stringify (wire m))) s =
  receive react acknowledges k m s.
Proof.
  intros [Hk Hb]. cbn [step]. unfold handleMessage. rewrite channel_of_stream by done.
  cbn. by rewrite decode_wire.
Qed.

Lemma receiver_run_app inputs inputs' s :
  run react acknowledges (inputs ++ inputs') s =
  run react acknowledges inputs' (run react acknowledges inputs s).
Proof. revert s. induction inputs as [|i inputs IH]; intros s; [done | apply IH]. Qed.

(** ** Subscribers that stay *)

(** Somebody is subscribed. *)
Definition live (k : string) (s : Receiver) : Prop :=
  exists st, mget (streams s) k = Some st /\ count st <> 0.

Lemma live_on_stream k k' f s :
  (forall st, count (f st) = count st) -> live k s -> live k (on_stream k' f s).
Proof.
  intros Hf (st & E & Hc). unfold live. rewrite mget_on_stream. case_decide; [|by exists st].
  rewrite E. exists (f st). by rewrite Hf.
Qed.
Lemma live_on_buffer k f s : live k s -> live k (on_buffer k f s).
Proof. by apply live_on_stream. Qed.

Lemma live_streams k s s' : streams s' = streams s -> live k s -> live k s'.
Proof. unfold live. by intros ->. Qed.

Lemma call_handlers_live k q c ids s : live k s -> live k (call_handlers react k q c ids s).2.
Proof.
  revert s. induction ids as [|id ids IH]; intros s Hs; cbn [call_handlers]; [done|].
  destruct (mget (streams s) k); [|done]. case_decide; [|by apply IH]. rewrite stay. by apply IH.
Qed.

Lemma internal_live k m s : live k s -> live k (deliver_internal acknowledges k m s).
Proof.
  intros Hs. unfold deliver_internal, settleAbortAck.
  destruct (mget (streams s) k) as [st|]; [|done]. destruct (PubSubMessage.type m); try done.
  - destruct (call_aborts_log acknowledges (PubSubMessage.generationId m) (abortCallbacks st) s) as [H1 _].
    destruct (call_aborts _ _ _ s) as [a s1]. cbn [snd] in H1.
    destruct (PubSubMessage.abortRequestId m), (PubSubMessage.generationId m);
      try destruct a; by apply (live_streams k s).
  - repeat case_match; try done.
    eapply live_streams; [apply unused_streams|]. by apply live_on_stream.
  - by destruct (PubSubMessage.preempt m).
Qed.

Lemma deliver_live k m s : live k s -> live k (deliverMessage react acknowledges k m s).2.
Proof.
  intros Hs. unfold deliverMessage. destruct m as [m|]; [|done].
  assert (H : live k (match call_of m, mget (streams s) k with
    | Some c, Some st => call_handlers react k (PubSubMessage.seq m) c (handlers st) s
    | _, _ => done_ s end).2)
    by (destruct (call_of m), (mget (streams s) k); [by apply call_handlers_live | done..]).
  destruct (match call_of m with Some _ => _ | None => _ end) as [[[]|e] s1]; [|done].
  by apply internal_live.
Qed.

Lemma and_then_live k r f :
  live k r.2 -> (forall s, live k s -> live k (f s).2) -> live k (and_then r f).2.
Proof. destruct r as [[[]|e] s]; cbn; auto. Qed.

Lemma flush_live k s : live k s -> live k (flushPendingMessages react acknowledges k s).2.
Proof.
  intros Hs. unfold flushPendingMessages. apply and_then_live; [|intros; by apply live_on_buffer].
  generalize (size (pending (buffer_of k s))) as fuel. intros fuel. revert s Hs.
  induction fuel as [|fuel IH]; intros s Hs; cbn [flush_loop]; destruct (_ !! _); try done.
  apply and_then_live; [by apply deliver_live, live_on_buffer|]. intros s1 Hs1.
  by apply IH, live_on_buffer.
Qed.

Lemma force_live k s : live k s -> live k (forceFlushBuffer react acknowledges k s).2.
Proof.
  intros Hs. unfold forceFlushBuffer. destruct (last _); [|by apply live_on_buffer].
  apply and_then_live; [|intros; by apply live_on_buffer].
  generalize (sorted_seqs (pending (buffer_of k s))) as L. intros L.
  assert (H0 : live k (on_buffer k (set_timer false) s)) by (by apply live_on_buffer).
  revert H0. generalize (on_buffer k (set_timer false) s). clear s Hs.
  induction L as [|q L IH]; intros s Hs; cbn [force_loop]; [done|].
  apply and_then_live; [by apply deliver_live, live_on_buffer | exact IH].
Qed.

Lemma next_live k m s : live k s -> live k (deliver_next react acknowledges k m s).2.
Proof.
  intros Hs. apply and_then_live; [by apply deliver_live|]. intros s1 Hs1.
  by apply flush_live, live_on_buffer.
Qed.

Lemma offer_live k m s : live k s -> live k (caught (offer react acknowledges k m s)).
Proof.
  intros Hs. unfold offer, handleOrderedChunk, handleTerminalEvent, caught, scheduleFlushTimeout.
  destruct (PubSubMessage.type m), (PubSubMessage.seq m); try done; repeat case_decide;
    repeat case_match; try done;
    first [by apply next_live | by apply force_live, live_on_buffer |
           by apply live_on_buffer | by apply live_on_buffer, live_on_buffer].
Qed.

Lemma process_live k ms s : live k s -> live k (process react acknowledges k ms s).
Proof. revert s. induction ms as [|m ms IH]; intros s Hs; [done|]. by apply IH, offer_live. Qed.

(** A run of arrivals offers every frame, those of a batch one by one. *)
Lemma run_arrivals k ms s :
  proper_id k -> live k s ->
  Forall (fun m => exists q, m = frame q) (concat (expand <$> ms)) ->
  run react acknowledges (arrivals k ms) s = process react acknowledges k (concat (expand <$> ms)) s.
Proof.
  intros Hk. revert s. induction ms as [|m ms IH]; intros s Hs Hms; [done|].
  rewrite fmap_cons in Hms |- *. cbn [concat] in *. apply Forall_app in Hms as [Hm Hms].
  unfold arrivals. rewrite fmap_cons. cbn [run]. fold (arrivals k ms).
  rewrite arrives_receive, process_app by done. destruct Hs as (st & E & Hc) eqn:Hs'.
  rewrite (receive_process react acknowledges frame frames_ok k m s st E Hc Hm).
  apply IH; [by apply process_live | done].
Qed.
(** ** In any order *)

Lemma holding_fresh n : holding frame [] n (ReorderBuffer.mk n ∅ false false).
Proof. split; try done. intros q Hq. by apply elem_of_nil in Hq. Qed.

Lemma settled_live k b l s st :
  mget (streams s) k = Some st -> count st <> 0 -> live k (settled k b l s).
Proof. intros E Hc. eexists. split; [by apply settled_at | done]. Qed.

Lemma run_holding k seen n b l s st ms qs :
  proper_id k -> mget (streams s) k = Some st -> count st <> 0 -> holding frame seen n b ->
  concat (expand <$> ms) = frame <$> qs -> windowed seen n qs = true ->
  exists b', holding frame (seen ++ qs) n b' /\
    run react acknowledges (arrivals k ms) (settled k b l s) =
    settled k b' (l ++ calls_from frame (handlers st) (frontier seen n) (frontier (seen ++ qs) n)) s.
Proof.
  intros Hk E Hc Hb Hms Hw.
  destruct (process_steady react acknowledges stay frame frames_ok k seen n b l s st qs E Hb Hw)
    as (b' & Hb' & Hp).
  exists b'. split; [done|]. rewrite <- Hp, <- Hms. apply run_arrivals; [done | by apply (settled_live k b l s st)|].
  rewrite Hms. apply Forall_fmap, Forall_true. intros q. by exists q.
Qed.

Lemma holding_ext seen seen' n b b' :
  (forall q, q ∈ seen <-> q ∈ seen') -> holding frame seen n b -> holding frame seen' n b' -> b = b'.
Proof.
  intros Hq [H1 H2 H3 H4 _] [H1' H2' H3' H4' _].
  assert (Hf : frontier seen n = frontier seen' n).
  { apply frontier_eq. destruct (frontier_spec seen' n) as (A & B & C).
    split_and!; [done | intros x Hx; apply Hq; auto | by rewrite Hq]. }
  assert (Hp : pending b = pending b').
  { apply map_eq. intros q. rewrite H4, H4', Hf. apply decide_ext. by rewrite Hq. }
  rewrite Hp in H3. clear H4 H4'. destruct b, b'. cbn [pending nextSeq flushTimeout deliveryDeferred] in *.
  by rewrite H1, H1', H2, H2', H3, H3', Hf, Hp.
Qed.

(** ** While a replay is under way *)

(** The buffer that holds back the frames [seen]. *)
Record deferring (seen : list Z) (b : ReorderBuffer.t) : Prop := {
  de_deferred : deliveryDeferred b = true;
  de_next : nextSeq b = 0%Z;
  de_timer : flushTimeout b = false;
  de_pending : forall q, pending b !! q = if decide (q ∈ seen) then Some (frame q) else None
}.

Lemma offer_deferred k seen b l s st q :
  mget (streams s) k = Some st -> deferring seen b ->
  offer react acknowledges k (frame q) (settled k b l s) =
    (Ok tt, settled k (put_pending q (frame q) b) l s) /\
  deferring (seen ++ [q]) (put_pending q (frame q) b).
Proof.
  intros E [H1 H2 H3 H4]. destruct (frames_ok q) as [Hty Hseq]. split.
  - unfold offer, handleOrderedChunk, handleTerminalEvent.
    rewrite Hseq, (settled_buffer_of k b l s st E), H1, settled_buffer.
    by destruct Hty as [-> | [-> | ->]].
  - split; cbn; try done. intros x. destruct (decide (q = x)) as [<-|Hx].
    + rewrite lookup_insert_eq, decide_True; [done|]. rewrite elem_of_app, list_elem_of_singleton. by right.
    + rewrite lookup_insert_ne, H4 by done. apply decide_ext.
      rewrite elem_of_app, list_elem_of_singleton. intuition congruence.
Qed.

Lemma process_deferred k seen b l s st qs :
  mget (streams s) k = Some st -> deferring seen b ->
  exists b', deferring (seen ++ qs) b' /\
    process react acknowledges k (frame <$> qs) (settled k b l s) = settled k b' l s.
Proof.
  intros E. revert seen b. induction qs as [|q qs IH]; intros seen b Hb.
  { exists b. by rewrite app_nil_r. }
  rewrite fmap_cons. cbn [process]. destruct (offer_deferred k seen b l s st q E Hb) as [-> Hb1].
  cbn [caught snd]. destruct (IH (seen ++ [q]) _ Hb1) as (b' & Hb' & ->).
  exists b'. by rewrite <- app_assoc in Hb'.
Qed.

(** ** The end of the replay *)

Definition released (r : Z) (b : ReorderBuffer.t) : ReorderBuffer.t :=
  ReorderBuffer.mk r (pending (prune_below r b)) false true.

Lemma prefix_released r b :
  (0 <= r)%Z -> nextSeq b = 0%Z -> flushTimeout b = false -> deliveryDeferred b = true ->
  advance r (drop_replayed (Some r) (set_timer false b)) = released r b /\
  set_nextSeq (Z.max (nextSeq b) r) (drop_replayed (Some r) b) = released r b.
Proof.
  intros Hr Hn Ht Hd. split.
  - unfold advance. destruct (sorted_seqs _) as [|x L] eqn:E.
    + unfold set_nextSeq, released. cbn. rewrite Hn, Hd. f_equal. lia.
    + assert (Hx : (r <= x)%Z).
      { assert (Hin : x ∈ x :: L) by (by left). rewrite <- E in Hin.
        apply elem_of_sorted_seqs in Hin as [m Hm]. cbn in Hm.
        by apply map_lookup_filter_Some in Hm as [_ Hx]. }
      unfold set_nextSeq, released. cbn. rewrite Hn, Hd. f_equal. lia.
  - unfold set_nextSeq, released. cbn. rewrite Hn, Hd, Ht. f_equal. lia.
Qed.

Lemma release_steady k seen r b l s st :
  mget (streams s) k = Some st -> deferring seen b ->
  let live_ := filter (fun q => r <= q)%Z seen in
  (forall q, q ∈ live_ -> q < frontier live_ r + 100)%Z ->
  exists b', holding frame live_ r b' /\
    release_deferred react acknowledges k (settled k (released r b) l s) =
    (Ok tt, settled k b' (l ++ calls_from frame (handlers st) r (frontier live_ r)) s).
Proof.
  intros E [H1 H2 H3 H4] live_ Hw. destruct (frontier_spec live_ r) as (F1 & F2 & F3).
  set (f := frontier live_ r) in *.
  assert (Hp : forall q, pending (released r b) !! q = if decide (q ∈ live_) then Some (frame q) else None).
  { intros q. cbn. destruct (decide (q ∈ live_)) as [Hq|Hq]; subst live_.
    - apply list_elem_of_filter in Hq as [Hq1 Hq2]. apply map_lookup_filter_Some.
      by rewrite H4, decide_True.
    - apply map_lookup_filter_None. rewrite H4. case_decide as Hs; [|by left]. right.
      intros m _ Hr. apply Hq, list_elem_of_filter. done. }
  set (p := without r f (pending (released r b))).
  assert (Hp' : forall q, p !! q = if decide (q ∈ live_ /\ f < q)%Z then Some (frame q) else None).
  { intros q. unfold p. rewrite lookup_without. destruct (decide (r <= q < f)%Z) as [Hq|Hq].
    - rewrite decide_False; [done|]. lia.
    - rewrite Hp. apply decide_ext. split; [|tauto]. intros Hin. split; [done|].
      assert (q <> f) by (intros ->; done).
      assert (r <= q)%Z by (by apply list_elem_of_filter in Hin as [? _]). lia. }
  assert (Hhold : holding frame live_ r (ReorderBuffer.mk f p (negb (bool_decide (p = ∅))) false))
    by (by split).
  eexists. split; [exact Hhold|]. unfold release_deferred. rewrite settled_buffer.
  rewrite (flush_steady react acknowledges stay frame frames_ok k f _ l s st E); cbn [set_deferred nextSeq pending].
  2: done.
  2: { intros q Hq. rewrite Hp, decide_True; [done|]. by apply F2. }
  2: { by rewrite Hp, decide_False. }
  cbn [released nextSeq pending flushTimeout deliveryDeferred]. fold p.
  rewrite andb_false_r. cbn [and_then]. unfold done_, scheduleFlushTimeout. rewrite settled_buffer.
  rewrite (settled_buffer_of k _ _ s st E). cbn [pending].
  change (without r f (pending (prune_below r b))) with p. destruct (decide (size p = 0)) as [Hz|Hz].
  - rewrite bool_decide_true by (by apply map_size_empty_iff). done.
  - rewrite bool_decide_false by (by rewrite <- map_size_empty_iff). done.
Qed.
(** Whatever the counter says, and even when it cannot be read, the replay decides. *)
Lemma sync_steady k seen r reply b l s st :
  mget (streams s) k = Some st -> deferring seen b -> (0 <= r)%Z ->
  let live_ := filter (fun q => r <= q)%Z seen in
  (forall q, q ∈ live_ -> q < frontier live_ r + 100)%Z ->
  exists b', holding frame live_ r b' /\
    step react acknowledges (Synced k (Some (ident st)) (Some r) reply) (settled k b l s) =
    settled k b' (l ++ calls_from frame (handlers st) r (frontier live_ r)) s.
Proof.
  intros E Hb Hr live_ Hw. destruct (release_steady k seen r b l s st E Hb Hw) as (b' & Hb' & Hrel).
  exists b'. split; [done|]. destruct Hb as [H1 H2 H3 H4].
  destruct (prefix_released r b Hr H2 H3 H1) as [Hp Hf].
  cbn [step]. unfold syncReorderBuffer. rewrite (settled_at k b l s st E).
  cbn [fmap option_fmap option_map]. change (ident (with_buffer _ st)) with (ident st).
  rewrite !bool_decide_true by (try done; by eexists). cbn [negb orb andb]. destruct reply as [raw|].
  - unfold sync_prefix. rewrite settled_buffer. change (default _ (Some r)) with r. by rewrite Hp, Hrel.
  - unfold sync_failed. rewrite (settled_buffer_of k b l s st E), H1, settled_buffer.
    change (default _ (Some r)) with r. by rewrite Hf, Hrel.
Qed.

(** ** Subscribing *)

(** The state that a first subscriber finds itself in. *)
Lemma subscribe_first k d s :
  receiver_ok s -> getSubscriberCount k s = 0 ->
  exists st, let '((sid, id), s0) := subscribe k d s in
    mget (streams s0) k = Some st /\ ident st = sid /\ handlers st = [id] /\ count st = 1 /\
    reorderBuffer st = ReorderBuffer.mk 0 ∅ false d.
Proof.
  intros [[B1 _ _ _ _] _] Hc. unfold subscribe, getSubscriberCount in *.
  set (id := S (subscriberIdCounter s)). set (s0 := {| s with subscriberIdCounter := id |}).
  assert (Hst : exists st, (getOrCreateStreamState k s0).1 = st /\ count st = 0 /\ handlers st = []).
  { unfold getOrCreateStreamState. cbn. destruct (mget (streams s) k) as [st|] eqn:E; cbn.
    - exists st. split_and!; [done | done|]. destruct (B1 k st E) as [Hl _].
      apply length_zero_iff_nil. congruence.
    - eexists. by split_and!. }
  destruct Hst as (st & Hst & Hz & Hn). pose proof (getOrCreate_at k s0) as Hg.
  destruct (getOrCreateStreamState k s0) as [st' s1]. cbn in Hst. subst st'.
  destruct Hg as (E1 & _). rewrite decide_True by done.
  unfold resetReorderBuffer. rewrite on_buffer_twice.
  pose proof (on_buffer_at k (fun b => set_deferred d (ReorderBuffer.mk 0 ∅ false false)) s1 st E1) as E2.
  set (s2 := on_buffer k _ s1) in *.
  eexists. unfold ensureChannelSubscription.
  set (s3 := on_stream k _ s2).
  assert (E3 : mget (streams s3) k = Some (enter id
      (with_buffer (fun b => set_deferred d (ReorderBuffer.mk 0 ∅ false false)) st))).
  { unfold s3. by rewrite mget_on_stream, decide_True, E2 by done. }
  destruct (mget (channelSubscriptions s3) (events_channel k)); cbn;
    (split_and!; [exact E3 | done | by cbn; rewrite Hn | by cbn; rewrite Hz | done]).
Qed.

Lemma deferring_fresh : deferring [] (ReorderBuffer.mk 0 ∅ false true).
Proof. by split. Qed.
(** What a resumed subscriber gets: from the end of its replay on, everything, in order. *)
Lemma resume_run k ms1 qs1 r reply ms2 qs2 s :
  receiver_ok s -> getSubscriberCount k s = 0 -> proper_id k -> (0 <= r)%Z ->
  concat (expand <$> ms1) = frame <$> qs1 -> concat (expand <$> ms2) = frame <$> qs2 ->
  let qs := filter (fun q => r <= q)%Z qs1 ++ qs2 in
  windowed [] r qs = true ->
  let '((sid, id), s0) := subscribe k true s in
  exists b, holding frame qs r b /\
    run react acknowledges
      (arrivals k ms1 ++ [Synced k (Some sid) (Some r) reply] ++ arrivals k ms2) s0 =
    settled k b (calls_from frame [id] r (frontier qs r)) s0.
Proof.
  intros Hs Hc Hk Hr Hm1 Hm2 qs Hw. destruct (subscribe_first k true s Hs Hc) as (st & H).
  destruct (subscribe k true s) as [[sid id] s0]. destruct H as (E & Hid & Hh & Hct & Hbuf).
  assert (Hlive : count st <> 0) by lia.
  unfold qs in Hw. rewrite windowed_app in Hw. apply andb_true_iff in Hw as [Hw1 Hw2].
  cbn [app] in Hw2. pose proof (settled_start k s0 st E) as Hst. rewrite Hbuf in Hst.
  destruct (process_deferred k [] _ [] s0 st qs1 E deferring_fresh) as (b1 & Hb1 & Hp).
  rewrite Hst, <- Hm1 in Hp. rewrite receiver_run_app, run_arrivals, Hp; [| done | by exists st |].
  2: { rewrite Hm1. apply Forall_fmap, Forall_true. intros q. by exists q. }
  cbn [app] in Hb1. cbn [app run]. rewrite <- Hid.
  destruct (sync_steady k qs1 r reply b1 [] s0 st E Hb1 Hr) as (b2 & Hb2 & ->).
  { intros q Hq. by apply (windowed_all [] r _ q Hw1). }
  destruct (run_holding k _ r b2 ([] ++ calls_from frame (handlers st) r (frontier (filter (fun q => r <= q)%Z qs1) r)) s0 st ms2 qs2 Hk E Hlive Hb2 Hm2 Hw2)
    as (b3 & Hb3 & ->).
  exists b3. split; [done|]. rewrite Hh. cbn [app].
  rewrite <- calls_from_app; [done|]. split; [apply frontier_spec | apply frontier_mono].
Qed.

(** ** Timers *)

(** The calls for what is pending, in the order of the numbers. *)
Definition pending_calls (hs : list nat) (p : gmap Z PubSubMessage.t) : list Effect :=
  concat ((fun q => from_option (calls hs) [] (p !! q)) <$> sorted_seqs p).

Lemma force_loop_steady k L b l s st (p : gmap Z PubSubMessage.t) :
  mget (streams s) k = Some st -> NoDup L ->
  (forall q, q ∈ L -> exists m, pending b !! q = Some m /\ p !! q = Some m /\ sequenced m) ->
  exists b', force_loop react acknowledges k L (settled k b l s) =
      (Ok tt, settled k b' (l ++ concat ((fun q => from_option (calls (handlers st)) [] (p !! q)) <$> L)) s) /\
    flushTimeout b' = flushTimeout b /\ deliveryDeferred b' = deliveryDeferred b /\
    forall q, pending b' !! q = if decide (q ∈ L) then None else pending b !! q.
Proof.
  intros E. revert b l. induction L as [|x L IH]; intros b l Hnd HL; cbn [force_loop].
  { exists b. rewrite app_nil_r. split_and!; [done..|]. intros q. rewrite decide_False; [done|].
    apply not_elem_of_nil. }
  apply NoDup_cons in Hnd as [Hx Hnd]. destruct (HL x) as (m & Hm & Hpm & Hty); [by left|].
  rewrite (settled_buffer_of k b l s st E), Hm, settled_buffer.
  rewrite (deliver_steady react acknowledges stay k m _ l s st E Hty). cbn [and_then].
  destruct (IH (drop_pending x b) (l ++ calls (handlers st) m) Hnd) as (b' & -> & Ht & Hd & Hp).
  { intros q Hq. destruct (HL q) as (m' & H1 & H2 & H3); [by right|]. exists m'. split_and!; [|done..].
    cbn. rewrite lookup_delete_ne; [done|]. by intros ->. }
  exists b'. split_and!; [| done | done |].
  - rewrite <- app_assoc, fmap_cons. cbn [concat]. by rewrite Hpm.
  - intros q. rewrite Hp. cbn. destruct (decide (x = q)) as [<-|Hne].
    + rewrite lookup_delete_eq, (decide_True (P := x ∈ x :: L)) by (by left). by destruct (decide _).
    + rewrite lookup_delete_ne by done. apply decide_ext. rewrite elem_of_cons. intuition congruence.
Qed.

(** The timer of a stream whose subscribers stay delivers all that waits. *)
Lemma timer_steady k s st :
  receiver_ok s -> mget (streams s) k = Some st -> flushTimeout (reorderBuffer st) = true ->
  pending (reorderBuffer st) <> ∅ ->
  exists n, step react acknowledges (TimerFires k) s =
    settled k (ReorderBuffer.mk n ∅ false false) (pending_calls (handlers st) (pending (reorderBuffer st))) s.
Proof.
  intros Hs E Ht Hp. destruct (stream_ok_at k s st Hs E) as (Hown & Htm & _). unfold timed in Htm.
  destruct (deliveryDeferred (reorderBuffer st)) eqn:Hd; [congruence|].
  cut (exists n, step react acknowledges (TimerFires k) (settled k (reorderBuffer st) [] s) =
    settled k (ReorderBuffer.mk n ∅ false false) (pending_calls (handlers st) (pending (reorderBuffer st))) s);
    [by rewrite (settled_start k s st E)|].
  cbn [step]. unfold flush_timer, forceFlushBuffer.
  rewrite (settled_buffer_of k _ [] s st E), Ht, !settled_buffer.
  rewrite decide_False by (by rewrite map_size_empty_iff).
  rewrite (settled_buffer_of k _ [] s st E). cbn [set_timer pending].
  set (p := pending (reorderBuffer st)) in *.
  assert (Hne : sorted_seqs p <> []) by (by rewrite sorted_seqs_nil).
  destruct (last (sorted_seqs p)) as [x|] eqn:Hx; [|by apply last_None in Hx].
  destruct (force_loop_steady k (sorted_seqs p) (set_timer false (set_timer false (reorderBuffer st))) [] s st p E)
    as (b' & -> & Ht' & Hd' & Hp').
  { apply sorted_seqs_nodup. }
  { intros q Hq. apply elem_of_sorted_seqs in Hq as [m Hm]. exists m.
    split_and!; [done | done | by apply (Hown q m)]. }
  cbn [and_then caught]. unfold done_. rewrite settled_buffer. cbn [caught snd]. exists (x + 1)%Z.
  cbn [app]. unfold pending_calls. f_equal. unfold set_nextSeq. cbn in Ht', Hd'. rewrite Ht', Hd', Hd.
  f_equal. apply map_empty. intros q. rewrite Hp'. case_decide as Hq; [done|]. cbn.
  rewrite elem_of_sorted_seqs in Hq. fold p. by apply eq_None_not_Some.
Qed.
End steady.

(** ** Theorems *)

Lemma windowed_receive react acknowledges frame k ms qs n s st
    (stay : forall l id c, react l id c = Reaction.mk false false)
    (frames_ok : forall q, sequenced (frame q) /\ PubSubMessage.seq (frame q) = Some q) :
  proper_id k -> mget (streams s) k = Some st -> count st <> 0 ->
  reorderBuffer st = ReorderBuffer.mk n ∅ false false ->
  concat (expand <$> ms) = frame <$> qs -> windowed [] n qs = true ->
  exists b, holding frame qs n b /\
    run react acknowledges (arrivals k ms) s =
    settled k b (calls_from frame (handlers st) n (frontier qs n)) s.
Proof.
  intros Hk E Hc Hb Hms Hw.
  destruct (run_holding react acknowledges stay frame frames_ok k [] n _ [] s st ms qs Hk E Hc
              (holding_fresh frame n) Hms Hw) as (b & Hhold & Hrun).
  exists b. split; [done|]. rewrite <- Hb, (settled_start k s st E) in Hrun. exact Hrun.
Qed.

(** C28. The order in which frames arrive, how often, and whether they come alone or in batches does
    not matter: for two runs of arrivals of the same frames, with no firing of the reorder timer in
    between and no frame a hundred ahead of the first missing one, subscribers that stay and do not
    throw see the same calls and the replica ends in the same state. *)
Theorem arrival_order_is_irrelevant react acknowledges frame k ms ms' qs qs' n s st
    (stay : forall l id c, react l id c = Reaction.mk false false)
    (frames_ok : forall q, sequenced (frame q) /\ PubSubMessage.seq (frame q) = Some q)
    (Hk : proper_id k) (E : mget (streams s) k = Some st) (Hc : count st <> 0)
    (Hb : reorderBuffer st = ReorderBuffer.mk n ∅ false false)
    (Hms : concat (expand <$> ms) = frame <$> qs) (Hms' : concat (expand <$> ms') = frame <$> qs')
    (Hw : windowed [] n qs = true) (Hw' : windowed [] n qs' = true)
    (Hsame : forall q, q ∈ qs <-> q ∈ qs') :
  run react acknowledges (arrivals k ms) s = run react acknowledges (arrivals k ms') s.
Proof.
  destruct (windowed_receive react acknowledges frame k ms qs n s st) as (b & Hh & ->); [done..|].
  destruct (windowed_receive react acknowledges frame k ms' qs' n s st) as (b' & Hh' & ->); [done..|].
  rewrite (holding_ext frame qs qs' n b b' Hsame Hh Hh'). do 2 f_equal. apply frontier_eq.
  destruct (frontier_spec qs' n) as (F1 & F2 & F3).
  split_and!; [done | intros x Hx; apply Hsame; auto | by rewrite Hsame].
Qed.

(** C13. A subscriber that attaches to a running stream with no other subscriber, replays what it
    missed up to number [r] while live frames are held back, and then synchronizes, is called for
    exactly the frames from [r] on up to the first one still missing, once each and in order:
    nothing of the replay twice, nothing of the live frames lost, whatever the server answered and
    in whatever order the frames arrive, provided that none of them is a hundred or more ahead of
    the first missing one (the overflow flush would skip), that the reorder timer does not fire
    meanwhile, and that subscribers stay and do not throw. *)
Theorem resumed_subscriber_misses_nothing react acknowledges frame inputs k ms1 qs1 r reply ms2 qs2
    (stay : forall l id c, react l id c = Reaction.mk false false)
    (frames_ok : forall q, sequenced (frame q) /\ PubSubMessage.seq (frame q) = Some q)
    (Hin : Forall input_ok inputs)
    (Hc : getSubscriberCount k (run react acknowledges inputs newReceiver) = 0)
    (Hk : proper_id k) (Hr : (0 <= r)%Z)
    (Hms1 : concat (expand <$> ms1) = frame <$> qs1) (Hms2 : concat (expand <$> ms2) = frame <$> qs2)
    (Hw : windowed [] r (filter (fun q => r <= q)%Z qs1 ++ qs2) = true) :
  let qs := filter (fun q => r <= q)%Z qs1 ++ qs2 in
  let '((sid, id), s0) := subscribe k true (run react acknowledges inputs newReceiver) in
  exists b, holding frame qs r b /\
    run react acknowledges (arrivals k ms1 ++ [Synced k (Some sid) (Some r) reply] ++ arrivals k ms2) s0 =
    settled k b (calls_from frame [id] r (frontier qs r)) s0.
Proof.
  apply resume_run; try done. apply reached_ok; [|done]. intros l id c. by rewrite stay.
Qed.


(** *** At concrete inputs *)

Definition stays (l : list Effect) (id : nat) (c : Call) : Reaction.t := Reaction.mk false false.
Definition never (l : list Effect) (r : nat) (g : option Z) : bool := false.
Definition sample_batch (base : Z) (n : nat) : PubSubMessage.t :=
  PubSubMessage.mk CHUNK_BATCH None None None (Some base)
    (Some (jint <$> seqZ base (Z.of_nat n))) None None None.

Lemma sample_frames_ok q :
  sequenced (sample_chunk q) /\ PubSubMessage.seq (sample_chunk q) = Some q.
Proof. split; [by left | done]. Qed.
Lemma sample_arrivals_ok k qs :
  Forall (fun q => 0 <= q)%Z qs -> Forall input_ok (arrivals k (sample_chunk <$> qs)).
Proof.
  intros H. do 2 apply Forall_fmap. apply (Forall_impl _ _ _ H). intros q Hq.
  apply arrival_ok, (sample_numbered q); [done | by left].
Qed.
Lemma sample_proper : proper_id "s".
Proof. by split. Qed.

Example arrival_order_is_irrelevant_witness :
  let s := run stays never [Subscribe "s" false] newReceiver in
  run stays never (arrivals "s" (sample_chunk <$> [2; 0; 1; 0; 5])%Z) s =
  run stays never (arrivals "s" [sample_batch 0 3; sample_chunk 5]) s /\
  delivered_to 1 (log (run stays never (arrivals "s" (sample_chunk <$> [2; 0; 1; 0; 5])%Z) s)) = [0; 1; 2]%Z.
Proof.
  cbn zeta. split; [|vm_compute; reflexivity].
  eapply (arrival_order_is_irrelevant stays never sample_chunk "s" _ _ [2; 0; 1; 0; 5]%Z [0; 1; 2; 5]%Z 0
    _ _ (fun _ _ _ => eq_refl) sample_frames_ok sample_proper);
    [vm_compute; reflexivity | vm_compute; discriminate | vm_compute; reflexivity .. |].
  intros q. rewrite !elem_of_cons. tauto.
Defined.

Example resumed_subscriber_misses_nothing_witness :
  exists b, holding sample_chunk [4; 3; 5]%Z 3 b /\
    run stays never
      (arrivals "s" (sample_chunk <$> [4; 2]%Z) ++ [Synced "s" (Some 0) (Some 3%Z) None] ++
       arrivals "s" (sample_chunk <$> [3; 5]%Z)) (subscribe "s" true newReceiver).2 =
    settled "s" b (calls_from sample_chunk [1] 3 6) (subscribe "s" true newReceiver).2.
Proof.
  exact (resumed_subscriber_misses_nothing stays never sample_chunk [] "s" (sample_chunk <$> [4; 2]%Z)
    [4; 2]%Z 3 None (sample_chunk <$> [3; 5]%Z) [3; 5]%Z (fun _ _ _ => eq_refl) sample_frames_ok
    (Forall_nil_2 _) eq_refl sample_proper ltac:(lia) eq_refl eq_refl eq_refl).
Defined.


(** *** A subscriber that leaves while the timer flushes *)

(** The last subscriber leaves at a call: its state is detached and its buffer forgotten. *)
Lemma leaving_deliver react acknowledges k id b q m c s st :
  mget (streams s) k = Some st -> handlers st = [id] -> count st = 1 ->
  sequenced m -> call_of m = Some c -> PubSubMessage.seq m = Some q ->
  (forall l, react l id c = Reaction.mk true false) ->
  exists s', deliverMessage react acknowledges k (Some m) (settled k b [] s) = (Ok tt, s') /\
    buffer_of k s' = ReorderBuffer.empty /\ delivered_to id (log s') = delivered_to id (log s) ++ [q].
Proof.
  intros E Hh Hc Hty Hcall Hq Hr. unfold deliverMessage. rewrite (settled_at k b [] s st E), Hcall, Hq.
  change (handlers (with_buffer _ st)) with (handlers st). rewrite Hh. cbn [call_handlers].
  rewrite (settled_at k b [] s st E). change (handlers (with_buffer _ st)) with (handlers st).
  rewrite Hh, decide_True, Hr by (by left). cbn [Reaction.leaves Reaction.fails].
  set (s2 := unsubscribe _ _ _ _).
  assert (H2 : buffer_of k s2 = ReorderBuffer.empty /\
               exists l, log s2 = log s ++ [Delivered id (Some q) c] ++ l /\ Forall quiet l).
  { subst s2. unfold unsubscribe. cbn [emit streams]. rewrite (settled_at k b [] s st E).
    change (ident (with_buffer _ st)) with (ident st).
    change (handlers (with_buffer _ st)) with (handlers st).
    change (count (with_buffer _ st)) with (count st). rewrite Hh, Hc.
    rewrite decide_True by (split; [done | by left]). cbn [pred]. rewrite decide_True by done.
    match goal with |- context [detachStreamSubscribers k ?a ?b] => set (st' := a); set (s1 := b) end.
    assert (E1 : mget (streams s1) k = Some st') by apply mget_mset_eq. split.
    - unfold buffer_of. rewrite detach_streams. unfold resetReorderBuffer.
      by rewrite (on_buffer_at k _ s1 st' E1).
    - match goal with |- context [detachStreamSubscribers k ?a ?b] =>
        destruct (detach_log k a b) as (l & Hl & Hql) end.
      exists l. split; [|done]. etrans; [exact Hl|]. unfold settled, on_buffer. cbn [emit log]. rewrite on_stream_log, app_nil_r.
      by rewrite <- app_assoc. }
  destruct H2 as (Hbuf & l & Hl & Hql). unfold done_. cbn [and_then].
  rewrite internal_sequenced by done. exists s2. split_and!; [done | done|].
  rewrite Hl, !delivered_app, (delivered_quiet id l Hql), app_nil_r. cbn. by rewrite decide_True.
Qed.

(** C29. A subscriber that leaves at a terminal frame, as the generation manager does, resets the buffer
    that the timer is flushing: when more frames wait behind it, the flush reads a message that is
    no longer there and throws in the callback of the timer. *)
Theorem leaving_breaks_the_flush react acknowledges k id q q' L m c s st
    (E : mget (streams s) k = Some st) (Hh : handlers st = [id]) (Hc : count st = 1)
    (Ht : flushTimeout (reorderBuffer st) = true)
    (HL : sorted_seqs (pending (reorderBuffer st)) = q :: q' :: L)
    (Hm : pending (reorderBuffer st) !! q = Some m) (Hty : sequenced m)
    (Hq : PubSubMessage.seq m = Some q) (Hcall : call_of m = Some c)
    (Hr : forall l, react l id c = Reaction.mk true false) :
  exists s', flush_timer react acknowledges k s = (Throw MissingMessage, s') /\
    delivered_to id (log s') = delivered_to id (log s) ++ [q].
Proof.
  cut (exists s', flush_timer react acknowledges k (settled k (reorderBuffer st) [] s) =
    (Throw MissingMessage, s') /\ delivered_to id (log s') = delivered_to id (log s) ++ [q]);
    [by rewrite (settled_start k s st E)|].
  unfold flush_timer, forceFlushBuffer.
  rewrite (settled_buffer_of k _ [] s st E), Ht, !settled_buffer, (settled_buffer_of k _ [] s st E).
  cbn [set_timer pending]. rewrite HL. rewrite decide_False.
  2: { intros Hz. apply map_size_empty_iff, sorted_seqs_nil in Hz. by rewrite Hz in HL. }
  destruct (last (q :: q' :: L)) as [x|] eqn:Hx; [|by apply last_None in Hx]. cbn [force_loop].
  rewrite (settled_buffer_of k _ [] s st E). cbn [set_timer pending]. rewrite Hm, settled_buffer.
  destruct (leaving_deliver react acknowledges k id
    (drop_pending q (set_timer false (set_timer false (reorderBuffer st)))) q m c s st)
    as (s' & -> & Hb & Hd); [done..|].
  cbn [and_then]. rewrite Hb. cbn [pending ReorderBuffer.empty]. rewrite lookup_empty.
  eexists. split; [done|]. unfold on_buffer. by rewrite on_stream_log.
Qed.

Example leaving_breaks_the_flush_witness :
  let s := run quick_leaver never
             (Subscribe "s" false :: arrivals "s" [sample_chunk 9; sample_done 8]) newReceiver in
  exists s', flush_timer quick_leaver never "s" s = (Throw MissingMessage, s') /\
    delivered_to 1 (log s') = [8%Z].
Proof.
  intros s. destruct (mget (streams s) "s") as [st|] eqn:E; [|vm_compute in E; discriminate].
  pose proof E as E'. vm_compute in E'. injection E' as <-.
  exact (leaving_breaks_the_flush quick_leaver never "s" 1 8 9 [] (sample_done 8) _ s _ E
    eq_refl eq_refl eq_refl eq_refl eq_refl (or_intror (or_introl eq_refl)) eq_refl eq_refl
    (fun _ => eq_refl)).
Defined.
