(* ===== verification/RedisScripts.v ===== *)
(** * The scripts that number and publish frames ([stream/implementations/RedisEventTransport.ts])

    [PUBLISH_SEQ_LUA] and [PUBLISH_REPLACED_DONE_LUA] run on the server, one at a time, on the keys
    of one stream.  They are written here as functions of those keys, line by line; the commands
    they use ([GET], [SET .. NX EX], [HGET], [EXISTS], [INCRBY], [TTL], [EXPIRE], [PUBLISH]) have
    their documented meaning.  The fragments of a payload that the caller serialized around the
    number stand for the message without its number. *)

From stdpp Require Import pretty.
From S2P Require Import Prelude JsMap Json RedisFrames.

(** ** Keys *)

(** A value with the seconds it has left; [None] when it does not expire. *)
Module Key.
Record t (A : Type) := mk { value : A; ttl : option Z }.
Arguments mk {A}.
Arguments value {A}.
Arguments ttl {A}.
End Key.

(** [TTL key] *)
Definition TTL {A} (k : option (Key.t A)) : Z :=
  match k with
  | None => -2
  | Some key => default (-1)%Z (Key.ttl key)
  end.
(** [EXPIRE key seconds] *)
Definition EXPIRE {A} (seconds : Z) (k : option (Key.t A)) : option (Key.t A) :=
  (fun key => Key.mk (Key.value key) (Some seconds)) <$> k.

(** The fields of the job hash that the scripts read; all are texts. *)
Module JobHash.
Record t := mk {
  createdAt : option string;
  status : option string;
  creationAttemptId : option string;
  replacedGenerations : option jtext;
  replacedCreatedAt : option string
}.
End JobHash.

(** [KEYS.sequence], [KEYS.job] and [KEYS.generationEpoch] of a stream. *)
Record StreamKeys := {
  sequence : option (Key.t Z);
  job : option (Key.t JobHash.t);
  generationEpoch : option (Key.t string)
}.
Definition no_keys : StreamKeys := Build_StreamKeys None None None.

Definition HGET {A} (field : JobHash.t -> option A) (ks : StreamKeys) : option A :=
  job ks ≫= fun key => field (Key.value key).
(** The counter, absent as zero, and [INCRBY]. *)
Definition counter (ks : StreamKeys) : Z := from_option Key.value 0%Z (sequence ks).
Definition INCRBY (count : Z) (ks : StreamKeys) : StreamKeys :=
  {| ks with sequence := Some (Key.mk (counter ks + count)%Z (sequence ks ≫= Key.ttl)) |}.

(** ** Frames *)

(** [payloadPrefix .. seq .. payloadSuffix] *)
Definition splice (q : Z) (m : PubSubMessage.t) : PubSubMessage.t :=
  match PubSubMessage.type m with
  | CHUNK_BATCH => {| m with PubSubMessage.baseSeq := Some q |}
  | _ => {| m with PubSubMessage.seq := Some q |}
  end.

(** ** [PUBLISH_SEQ_LUA] *)

(** [ARGV] *)
Module PublishArgs.
Record t := mk {
  message : PubSubMessage.t;
  sequenceTtlSeconds : Z;
  expectCreatedAt : string;
  allowRetainedEpoch : bool;
  generationEpochGraceTtl : Z;
  requireActiveJob : bool;
  sequenceCount : Z
}.
End PublishArgs.
Import PublishArgs.

(** The generation guard: whether it passes, and the marker it may claim on the way. *)
Definition generation_guard (a : PublishArgs.t) (ks : StreamKeys) : bool * StreamKeys :=
  if decide (expectCreatedAt a <> "" /\ HGET JobHash.createdAt ks <> Some (expectCreatedAt a)) then
    if decide (is_Some (job ks) \/ allowRetainedEpoch a = false) then (false, ks)
    else
      let ks1 := match generationEpoch ks with
                 | None => {| ks with generationEpoch :=
                     Some (Key.mk (expectCreatedAt a) (Some (generationEpochGraceTtl a))) |}
                 | Some _ => ks
                 end in
      (bool_decide (Key.value <$> generationEpoch ks1 = Some (expectCreatedAt a)), ks1)
  else (true, ks).

Definition status_guard (a : PublishArgs.t) (ks : StreamKeys) : bool :=
  negb (requireActiveJob a) ||
  bool_decide (HGET JobHash.status ks = Some "running" \/
               HGET JobHash.status ks = Some "requires_action").

(** The refresh of the counter's expiry. *)
Definition refresh (ttl : Z) (ks : StreamKeys) : StreamKeys :=
  if decide (TTL (sequence ks) < ttl / 2)%Z then
    let jobTtl := TTL (job ks) in
    {| ks with sequence := EXPIRE (if decide (ttl < jobTtl)%Z then jobTtl else ttl) (sequence ks) |}
  else ks.

(** The reply, the keys afterwards, and what is published. *)
Definition Reply : Type := Z * StreamKeys * option PubSubMessage.t.

(** The number given, the counter moved and the frame published. *)
Definition number_and_publish (m : PubSubMessage.t) (ttl count : Z) (ks : StreamKeys) : Reply :=
  let ks1 := INCRBY count ks in
  let seq := (counter ks1 - count)%Z in
  (seq, refresh ttl ks1, Some (splice seq m)).

Definition PUBLISH_SEQ (a : PublishArgs.t) (ks : StreamKeys) : Reply :=
  let '(passes, ks1) := generation_guard a ks in
  if passes && status_guard a ks1
  then number_and_publish (message a) (sequenceTtlSeconds a) (sequenceCount a) ks1
  else ((-1)%Z, ks1, None).

(** ** [PUBLISH_REPLACED_DONE_LUA] *)

(** [type(v) == "table"] of a decoded value, and its positions [1 .. #v]. *)
Definition is_table (v : json) : bool := match v with JArr _ | JObj _ => true | _ => false end.
Definition positions (v : json) : list json := match v with JArr l => l | _ => [] end.

(** [tostring(receipt.createdAt or "") == text], [text] being the decimal text of an integer.
    [tostring] writes fourteen significant digits; a longer number is no timestamp, and is not
    matched here. *)
Definition receipt_is (text : string) (receipt : json) : bool :=
  match jfield receipt "createdAt" with
  | Some (JStr s) => bool_decide (s = text)
  | Some (JNum (NInt z)) => bool_decide (Z.abs z < 10 ^ 14)%Z && bool_decide (pretty z = text)
  | None | Some (JBool false) => bool_decide (text = "")
  | _ => false
  end.

(** Whether the hash carries the receipt of the replaced generation; [None] when the receipts do
    not decode. *)
Definition authorized (replaced : string) (ks : StreamKeys) : option bool :=
  match HGET JobHash.replacedGenerations ks with
  | Some raw =>
      match JSON_parse raw with
      | Some receipts =>
          if is_table receipts
          then Some (existsb (fun r => is_table r && receipt_is replaced r) (positions receipts))
          else None
      | None => None
      end
  | None => Some (bool_decide (HGET JobHash.replacedCreatedAt ks = Some replaced))
  end.

Definition PUBLISH_REPLACED_DONE (m : PubSubMessage.t) (ttl : Z) (replaced attemptId : string)
    (ks : StreamKeys) : Reply :=
  if decide (HGET JobHash.creationAttemptId ks <> Some attemptId) then ((-1)%Z, ks, None)
  else match authorized replaced ks with
       | Some true => number_and_publish m ttl 1 ks
       | _ => ((-1)%Z, ks, None)
       end.

(** ** Lemmas *)

Lemma counter_INCRBY n ks : counter (INCRBY n ks) = (counter ks + n)%Z.
Proof. done. Qed.

Lemma refresh_counter ttl ks : counter (refresh ttl ks) = counter ks.
Proof. unfold refresh. case_decide; [|done]. unfold counter. cbn. by destruct (sequence ks). Qed.
Lemma refresh_job ttl ks : job (refresh ttl ks) = job ks.
Proof. unfold refresh. by case_decide. Qed.
Lemma refresh_epoch ttl ks : generationEpoch (refresh ttl ks) = generationEpoch ks.
Proof. unfold refresh. by case_decide. Qed.

Lemma INCRBY_TTL n ks :
  TTL (sequence (INCRBY n ks)) = Z.max (-1) (TTL (sequence ks)) \/
  TTL (sequence (INCRBY n ks)) = TTL (sequence ks).
Proof. unfold INCRBY, TTL. cbn. destruct (sequence ks) as [[v t]|]; [by right | by left]. Qed.

Lemma refresh_TTL ttl ks :
  is_Some (sequence ks) ->
  TTL (sequence (refresh ttl ks)) =
  if decide (TTL (sequence ks) < ttl / 2)%Z then Z.max ttl (TTL (job ks)) else TTL (sequence ks).
Proof.
  intros [key Hkey]. unfold refresh. case_decide as Hlt; [|done]. cbn [sequence]. rewrite Hkey. unfold EXPIRE. cbn. case_decide; lia.
Qed.

Lemma guard_counter a ks : sequence (generation_guard a ks).2 = sequence ks.
Proof. unfold generation_guard. repeat case_decide; cbn; try done; by destruct (generationEpoch ks). Qed.
Lemma guard_job a ks : job (generation_guard a ks).2 = job ks.
Proof. unfold generation_guard. repeat case_decide; cbn; try done; by destruct (generationEpoch ks). Qed.

(** What a reply promises: either nothing is numbered, or the counter moves by the count and the
    frame carries the number it had. *)
Definition numbers (count : Z) (m : PubSubMessage.t) (ks : StreamKeys) (r : Reply) : Prop :=
  let '(seq, ks', published) := r in
  match published with
  | None => seq = (-1)%Z /\ sequence ks' = sequence ks
  | Some f => seq = counter ks /\ counter ks' = (counter ks + count)%Z /\ f = splice seq m
  end.

Lemma number_and_publish_numbers m ttl count ks :
  numbers count m ks (number_and_publish m ttl count ks).
Proof.
  unfold number_and_publish, numbers. rewrite refresh_counter, !counter_INCRBY.
  replace (counter ks + count - count)%Z with (counter ks) by lia. done.
Qed.

Lemma PUBLISH_SEQ_numbers a ks : numbers (sequenceCount a) (message a) ks (PUBLISH_SEQ a ks).
Proof.
  unfold PUBLISH_SEQ. pose proof (guard_counter a ks) as Hc.
  destruct (generation_guard a ks) as [p ks1]. cbn in Hc. destruct (p && _); [|done].
  assert (Hcounter : counter ks1 = counter ks) by (unfold counter; by rewrite Hc).
  pose proof (number_and_publish_numbers (message a) (sequenceTtlSeconds a) (sequenceCount a) ks1) as H.
  unfold numbers, number_and_publish in *. by rewrite Hcounter in H.
Qed.

Lemma PUBLISH_REPLACED_DONE_numbers m ttl replaced attemptId ks :
  numbers 1 m ks (PUBLISH_REPLACED_DONE m ttl replaced attemptId ks).
Proof.
  unfold PUBLISH_REPLACED_DONE. case_decide; [done|].
  destruct (authorized replaced ks) as [[]|]; try done. apply number_and_publish_numbers.
Qed.
