(* ===== verification/RedisPublisher.v ===== *)
(** * The publishing half of the Redis event transport
      ([stream/implementations/RedisEventTransport.ts], [stream/internal/coalescing.ts])

    A replica sends the scripts of [RedisScripts] over one connection, which answers them in the
    order they were sent.  Coalescable chunks wait in a batch per stream until a timer, a full
    batch, another generation or an ordering barrier flushes them.  Terminal events first wait for
    the answer of the flush.  Between the commands of this replica the server runs those of others,
    jobs change and keys age. *)

From Stdlib Require Import QArith Qround.
From stdpp Require Import pretty.
From S2P Require Import Prelude JsMap Json RedisFrames RedisScripts.

(** ** Constants *)

Definition SEQUENCE_TTL_SECONDS : Z := 86400.
Definition GENERATION_EPOCH_GRACE_TTL_SECONDS : Z := 300.
Definition MAX_COALESCE_WINDOW_MS : Z := 1000.
Definition MAX_COALESCED_EVENTS : nat := 64.
Definition MAX_COALESCED_BYTES : Z := 128 * 1024.

(** [resolveCoalesceWindowMs]: the environment variable as a number, [None] when not finite. *)
Definition resolveCoalesceWindowMs (raw : option Q) : Z :=
  match raw with
  | None => 0
  | Some q => if Qle_bool q 0 then 0 else Z.min (Qfloor q) MAX_COALESCE_WINDOW_MS
  end.

(** ** State *)

(** [PendingChunkBatch]; promises are known by numbers. *)
Module PendingChunkBatch.
Record t := mk {
  generationId : option Z;
  events : list json;
  resolvers : list nat;
  bytes : Z;
  timer : bool
}.
Definition start (g : option Z) : t := mk g [] [] 0 false.
End PendingChunkBatch.
Import PendingChunkBatch.

(** What the receipt of a chunk resolves to: its number, [false], or [undefined]. *)
Inductive Receipt := Sequence (q : Z) | Fenced | Unknown.

Inductive Script :=
| PublishSeq (a : PublishArgs.t)
| ReplacedDone (m : PubSubMessage.t) (ttl : Z) (replaced attemptId : string).

(** What is done with the reply of a command. *)
Inductive Continuation :=
| ChunkReceipt (receipt : nat)
| BatchReceipts (receipts : list nat)
| TerminalEnd (call : nat).

Record Command := {
  commandId : nat;
  streamId : string;
  script : Script;
  continuation : Continuation
}.

(** A terminal event that waits for a flush: [None] when there was nothing to flush. *)
Record Terminal := {
  call : nat;
  after : option nat;
  target : string;
  terminalScript : Script
}.

Inductive Outcome :=
| Settled (receipt : nat) (r : Receipt)
| Ended (call : nat) (resolved : bool).

(** The chunk that a receipt was returned for; no operation reads it. *)
Record Emission := {
  receiptOf : nat;
  stream : string;
  event : json;
  generation : option Z
}.

Record System := {
  pendingBatches : jsmap PendingChunkBatch.t;
  connection : list Command;
  terminals : list Terminal;
  fresh : nat;
  emissions : list Emission;
  outcomes : list Outcome;
  redis : jsmap StreamKeys;
  published : list (string * PubSubMessage.t)
}.
Definition newSystem : System := Build_System [] [] [] 0 [] [] [] [].

Definition keys_of (k : string) (s : System) : StreamKeys := default no_keys (mget (redis s) k).

(** ** Sending *)

Definition issue (k : string) (sc : Script) (cont : Continuation) (s : System) : nat * System :=
  (fresh s, {| s with connection := connection s ++ [Build_Command (fresh s) k sc cont];
                      fresh := S (fresh s) |}).

(** [publishWithSequence] and [evalPublishSequenced] *)
Definition evalPublishSequenced (m : PubSubMessage.t) (count : nat) (g : option Z)
    (allowRetainedEpoch requireActiveJob : bool) : Script :=
  PublishSeq (PublishArgs.mk m SEQUENCE_TTL_SECONDS
    (match g with Some g => pretty g | None => "" end)
    allowRetainedEpoch GENERATION_EPOCH_GRACE_TTL_SECONDS requireActiveJob (Z.of_nat count)).

Definition chunk_message (e : json) (g : option Z) : PubSubMessage.t :=
  PubSubMessage.mk CHUNK None (Some e) None None None g None None.
Definition batch_message (es : list json) (g : option Z) : PubSubMessage.t :=
  PubSubMessage.mk CHUNK_BATCH None None None None (Some es) g None None.
Definition done_message (e : json) (g : option Z) : PubSubMessage.t :=
  PubSubMessage.mk DONE None (Some e) None None None g None None.
Definition error_message (e : string) (g : option Z) : PubSubMessage.t :=
  PubSubMessage.mk ERROR None None (Some e) None None g None None.

Definition is_some {A} (x : option A) : bool := match x with Some _ => true | None => false end.

(** [flushCoalescedChunks(streamId)]: the command it waits for, if there was a batch. *)
Definition flushCoalescedChunks (k : string) (s : System) : option nat * System :=
  match mget (pendingBatches s) k with
  | None => (None, s)
  | Some b =>
      let s1 := {| s with pendingBatches := mdel (pendingBatches s) k |} in
      let '(c, s2) := issue k (evalPublishSequenced (batch_message (events b) (generationId b))
                                 (length (events b)) (generationId b) false (is_some (generationId b)))
                        (BatchReceipts (resolvers b)) s1 in
      (Some c, s2)
  end.

Definition new_receipt (k : string) (e : json) (g : option Z) (s : System) : nat * System :=
  (fresh s, {| s with fresh := S (fresh s);
                      emissions := emissions s ++ [Build_Emission (fresh s) k e g] |}).

Section transport.
(** [JSON.stringify(event).length], and the resolved window. *)
Variable encoded_length : json -> nat.
Variable coalesceWindowMs : Z.

(** [enqueueCoalescedChunk] *)
Definition enqueueCoalescedChunk (k : string) (e : json) (g : option Z) (s : System) : nat * System :=
  let s1 := match mget (pendingBatches s) k with
            | Some b => if decide (generationId b <> g) then (flushCoalescedChunks k s).2 else s
            | None => s
            end in
  let b := default (PendingChunkBatch.start g) (mget (pendingBatches s1) k) in
  let '(r, s2) := new_receipt k e g s1 in
  let b1 := PendingChunkBatch.mk (generationId b) (events b ++ [e]) (resolvers b ++ [r])
              (bytes b + Z.of_nat (encoded_length e))%Z (timer b) in
  let put b s := {| s with pendingBatches := mset (pendingBatches s) k b |} in
  let s3 := if decide (MAX_COALESCED_EVENTS <= length (events b1) \/ (MAX_COALESCED_BYTES <= bytes b1)%Z)
            then (flushCoalescedChunks k (put b1 s2)).2
            else put {| b1 with timer := true |} s2 in
  (r, s3).

(** [publishChunkWithReceipt] *)
Definition publishChunkWithReceipt (k : string) (e : json) (g : option Z) (coalesce : bool) (s : System)
  : nat * System :=
  if coalesce && bool_decide (0 < coalesceWindowMs)%Z then enqueueCoalescedChunk k e g s
  else
    let s1 := (flushCoalescedChunks k s).2 in
    let '(r, s2) := new_receipt k e g s1 in
    (r, (issue k (evalPublishSequenced (chunk_message e g) 1 g false (is_some g)) (ChunkReceipt r) s2).2).

(** [emitChunk] *)
Definition emitChunk (k : string) (e : json) (g : option Z) (s : System) : System :=
  (publishChunkWithReceipt k e g false s).2.

(** The timer of a batch. *)
Definition batch_timer (k : string) (s : System) : System :=
  match mget (pendingBatches s) k with
  | Some b => if timer b then (flushCoalescedChunks k s).2 else s
  | None => s
  end.

(** [flushPendingChunks] *)
Definition flushPendingChunks (k : string) (s : System) : System := (flushCoalescedChunks k s).2.

(** [discardCoalescedChunks] *)
Definition discardCoalescedChunks (k : string) (s : System) : System :=
  match mget (pendingBatches s) k with
  | None => s
  | Some b =>
      {| s with pendingBatches := mdel (pendingBatches s) k;
                outcomes := outcomes s ++ ((fun r => Settled r Unknown) <$> resolvers b) |}
  end.

(** The teardown of all batches in [destroy]. *)
Definition discardAll (s : System) : System :=
  foldl (fun s k => discardCoalescedChunks k s) s (mkeys (pendingBatches s)).

(** ** Terminal events *)

(** The common start of the terminal emitters: flush, then wait. *)
Definition begin_terminal (k : string) (sc : Script) (s : System) : System :=
  let '(waits, s1) := flushCoalescedChunks k s in
  {| s1 with terminals := terminals s1 ++ [Build_Terminal (fresh s1) waits k sc]; fresh := S (fresh s1) |}.

Definition emitDone (k : string) (e : json) (g : option Z) : System -> System :=
  begin_terminal k (evalPublishSequenced (done_message e g) 1 g true false).
Definition emitError (k : string) (e : string) (g : option Z) : System -> System :=
  begin_terminal k (evalPublishSequenced (error_message e g) 1 g true false).
Definition emitReplacedDoneConfirmed (k : string) (e : json) (replaced : Z) (attemptId : string)
  : System -> System :=
  begin_terminal k (ReplacedDone (done_message e (Some replaced)) SEQUENCE_TTL_SECONDS
                      (pretty replaced) attemptId).

(** The flush of a terminal event was answered: its own command is sent. *)
Definition flush_answered (t : Terminal) (s : System) : bool :=
  match after t with
  | None => true
  | Some c => negb (existsb (fun command => Nat.eqb (commandId command) c) (connection s))
  end.
Definition resume_terminal (n : nat) (s : System) : System :=
  match terminals s !! n with
  | Some t =>
      if flush_answered t s
      then (issue (target t) (terminalScript t) (TerminalEnd (call t))
              {| s with terminals := delete n (terminals s) |}).2
      else s
  | None => s
  end.

(** ** The server *)

Definition run_script (sc : Script) (ks : StreamKeys) : Reply :=
  match sc with
  | PublishSeq a => PUBLISH_SEQ a ks
  | ReplacedDone m ttl replaced attemptId => PUBLISH_REPLACED_DONE m ttl replaced attemptId ks
  end.

Definition serve (k : string) (sc : Script) (s : System) : Z * System :=
  let '(seq, ks, frame) := run_script sc (keys_of k s) in
  (seq, {| s with redis := mset (redis s) k ks;
                  published := published s ++ option_list (pair k <$> frame) |}).

(** What the sender does with a reply; [None] is a failed command. *)
Definition receipt_of (reply : option Z) (offset : Z) : Receipt :=
  match reply with
  | None => Unknown
  | Some z => if decide (z = -1)%Z then Fenced else Sequence (z + offset)
  end.
Definition continue (cont : Continuation) (reply : option Z) : list Outcome :=
  match cont with
  | ChunkReceipt r => [Settled r (receipt_of reply 0)]
  | BatchReceipts rs => imap (fun i r => Settled r (receipt_of reply (Z.of_nat i))) rs
  | TerminalEnd c => [Ended c (bool_decide (reply <> None /\ reply <> Some (-1)%Z))]
  end.

(** The next command of the connection: it may fail before it runs, or its reply may be lost. *)
Inductive Delivery := Answered | NotRun | ReplyLost.

Definition answer (d : Delivery) (s : System) : System :=
  match connection s with
  | [] => s
  | c :: cs =>
      let s0 := {| s with connection := cs |} in
      let '(reply, s1) :=
        match d with
        | NotRun => (None, s0)
        | Answered => let '(z, s1) := serve (streamId c) (script c) s0 in (Some z, s1)
        | ReplyLost => (None, (serve (streamId c) (script c) s0).2)
        end in
      {| s1 with outcomes := outcomes s1 ++ continue (continuation c) reply |}
  end.

(** ** Everything else *)

(** What others do to the keys of a stream, and the passing of time. *)
Definition set_job (j : option (Key.t JobHash.t)) (ks : StreamKeys) : StreamKeys := {| ks with job := j |}.
Definition set_epoch (e : option (Key.t string)) (ks : StreamKeys) : StreamKeys :=
  {| ks with generationEpoch := e |}.
Definition age {A} (n : Z) (k : option (Key.t A)) : option (Key.t A) :=
  k ≫= fun key =>
    match Key.ttl key with
    | None => Some key
    | Some t => if decide (t <= n)%Z then None else Some (Key.mk (Key.value key) (Some (t - n)%Z))
    end.
Definition age_keys (n : Z) (ks : StreamKeys) : StreamKeys :=
  Build_StreamKeys (age n (sequence ks)) (age n (job ks)) (age n (generationEpoch ks)).

Inductive Input :=
| Emit (k : string) (e : json) (g : option Z) (coalesce : bool)
| BatchTimer (k : string)
| Flush (k : string)
| Discard (k : string)
| DiscardAll
| Done (k : string) (e : json) (g : option Z)
| Error (k : string) (e : string) (g : option Z)
| Replaced (k : string) (e : json) (replaced : Z) (attemptId : string)
| Resume (n : nat)
| Answer (d : Delivery)
| Elsewhere (k : string) (sc : Script)
| JobChanges (k : string) (j : option (Key.t JobHash.t))
| EpochChanges (k : string) (e : option (Key.t string))
| Ages (n : Z).

Definition step (i : Input) (s : System) : System :=
  match i with
  | Emit k e g coalesce => (publishChunkWithReceipt k e g coalesce s).2
  | BatchTimer k => batch_timer k s
  | Flush k => flushPendingChunks k s
  | Discard k => discardCoalescedChunks k s
  | DiscardAll => discardAll s
  | Done k e g => emitDone k e g s
  | Error k e g => emitError k e g s
  | Replaced k e replaced attemptId => emitReplacedDoneConfirmed k e replaced attemptId s
  | Resume n => resume_terminal n s
  | Answer d => answer d s
  | Elsewhere k sc => (serve k sc s).2
  | JobChanges k j => {| s with redis := mset (redis s) k (set_job j (keys_of k s)) |}
  | EpochChanges k e => {| s with redis := mset (redis s) k (set_epoch e (keys_of k s)) |}
  | Ages n => {| s with redis := mmap (age_keys n) (redis s) |}
  end.

Fixpoint run (inputs : list Input) (s : System) : System :=
  match inputs with [] => s | i :: inputs => run inputs (step i s) end.
End transport.

(** ** Batches *)

(** A batch that waits is not full, and waits for a timer. *)
Definition batch_waits (b : PendingChunkBatch.t) : Prop :=
  timer b = true /\ 0 < length (events b) < MAX_COALESCED_EVENTS /\ (bytes b < MAX_COALESCED_BYTES)%Z.
Definition batches_wait (s : System) : Prop :=
  forall k b, mget (pendingBatches s) k = Some b -> batch_waits b.

Lemma flush_batches k s :
  pendingBatches (flushCoalescedChunks k s).2 = mdel (pendingBatches s) k \/
  pendingBatches (flushCoalescedChunks k s).2 = pendingBatches s.
Proof. unfold flushCoalescedChunks. destruct (mget (pendingBatches s) k); [by left | by right]. Qed.

Lemma del_waits k s s' :
  pendingBatches s' = mdel (pendingBatches s) k \/ pendingBatches s' = pendingBatches s ->
  batches_wait s -> batches_wait s'.
Proof.
  intros [H|H] Hs k' b; rewrite H; [rewrite mget_mdel; case_decide; [done|] |]; apply Hs.
Qed.

Lemma flush_waits k s : batches_wait s -> batches_wait (flushCoalescedChunks k s).2.
Proof. apply del_waits with k, flush_batches. Qed.

Lemma same_waits s s' : pendingBatches s' = pendingBatches s -> batches_wait s -> batches_wait s'.
Proof. intros H. apply del_waits with "". by right. Qed.

Lemma enqueue_waits len k e g s : batches_wait s -> batches_wait (enqueueCoalescedChunk len k e g s).2.
Proof.
  intros Hs. unfold enqueueCoalescedChunk.
  set (s1 := match mget (pendingBatches s) k with Some b => _ | None => s end).
  assert (H1 : batches_wait s1)
    by (subst s1; destruct (mget (pendingBatches s) k); [case_decide; [by apply flush_waits|]|]; done).
  clearbody s1. set (b := default _ _). cbn [new_receipt snd]. set (b1 := PendingChunkBatch.mk _ _ _ _ _).
  case_decide as Hfull.
  - unfold flushCoalescedChunks. cbn [pendingBatches]. rewrite mget_mset_eq. unfold issue.
    intros k' b'. cbn [snd pendingBatches]. rewrite mget_mdel. case_decide; [done|].
    rewrite mget_mset_ne by done. apply H1.
  - intros k' b'. cbn [snd pendingBatches]. rewrite mget_mset. case_decide; [|apply H1]. intros [= <-].
    assert (0 < length (events b1)) by (cbn; rewrite length_app; cbn; lia).
    assert (length (events b1) < MAX_COALESCED_EVENTS /\ (bytes b1 < MAX_COALESCED_BYTES)%Z)
      by (split; [apply Nat.nle_gt | apply Z.nle_gt]; tauto).
    by split_and!; [| | tauto | tauto].
Qed.

Lemma step_waits len window i s : batches_wait s -> batches_wait (step len window i s).
Proof.
  intros Hs. destruct i; cbn [step]; try (by apply (same_waits s)).
  - unfold publishChunkWithReceipt. destruct (_ && _); [by apply enqueue_waits|].
    cbn [new_receipt snd]. apply (same_waits (flushCoalescedChunks k s).2); [done|]. by apply flush_waits.
  - unfold batch_timer. destruct (mget _ _) as [b|]; [|done]. destruct (timer b); [by apply flush_waits | done].
  - by apply flush_waits.
  - revert Hs. apply (del_waits k). unfold discardCoalescedChunks. destruct (mget _ _); [by left | by right].
  - unfold discardAll. generalize (mkeys (pendingBatches s)) as ks. intros ks. revert s Hs.
    induction ks as [|k ks IH]; intros s Hs; [done|]. apply IH. revert Hs. apply (del_waits k).
    unfold discardCoalescedChunks. destruct (mget _ _); [by left | by right].
  - unfold emitDone, begin_terminal. pose proof (flush_waits k s Hs) as H.
    destruct (flushCoalescedChunks k s) as [w s1]. by apply (same_waits s1).
  - unfold emitError, begin_terminal. pose proof (flush_waits k s Hs) as H.
    destruct (flushCoalescedChunks k s) as [w s1]. by apply (same_waits s1).
  - unfold emitReplacedDoneConfirmed, begin_terminal. pose proof (flush_waits k s Hs) as H.
    destruct (flushCoalescedChunks k s) as [w s1]. by apply (same_waits s1).
  - unfold resume_terminal. destruct (terminals s !! n); [|done].
    destruct (flush_answered _ s); [by apply (same_waits s) | done].
  - unfold answer. destruct (connection s) as [|c cs]; [done|].
    unfold serve. destruct (run_script _ _) as [[z ks] f].
    destruct d; by apply (same_waits s).
  - unfold serve. destruct (run_script _ _) as [[z ks] f]. by apply (same_waits s).
Qed.

(** C30. In every run, a batch that waits holds at least one and less than the permitted number of
    events and bytes, and its timer is armed: no chunk waits for ever, and no frame is larger than
    a full batch. *)
Theorem batches_are_small_and_timed len window (inputs : list Input) (k : string) (b : PendingChunkBatch.t)
    (Hb : mget (pendingBatches (run len window inputs newSystem)) k = Some b) :
  timer b = true /\ 0 < length (events b) < MAX_COALESCED_EVENTS /\ (bytes b < MAX_COALESCED_BYTES)%Z.
Proof.
  assert (H : forall s, batches_wait s -> batches_wait (run len window inputs s)).
  { clear Hb. induction inputs as [|i inputs IH]; intros s Hs; [done|]. by apply IH, step_waits. }
  by eapply (H newSystem).
Qed.

Example batches_are_small_and_timed_witness :
  let s := run (fun _ => 10) 50
    [Emit "s" JNull None true; Emit "s" JNull None true; Emit "s" JNull None true] newSystem in
  exists b, mget (pendingBatches s) "s" = Some b /\ length (events b) = 3 /\
    (timer b = true /\ 0 < length (events b) < MAX_COALESCED_EVENTS /\ (bytes b < MAX_COALESCED_BYTES)%Z).
Proof.
  eexists. split; [reflexivity|]. split; [reflexivity|].
  apply (batches_are_small_and_timed (fun _ => 10) 50
    [Emit "s" JNull None true; Emit "s" JNull None true; Emit "s" JNull None true] "s").
  reflexivity.
Defined.
