(* ===== verification/RedisSplicing.v ===== *)
(** * The characters of a frame ([stream/implementations/RedisEventTransport.ts])

    The sender serializes the two fragments of a frame around its number, and the server splices the
    number in between: [buildPayloadParts], the fragments of a batch in [flushCoalescedChunks], and
    the concatenation of [PUBLISH_SEQ_LUA].  Here they are written character by character, over the
    printer and the parser of [JsonText].  The text that travels is the JSON of the message with its
    number, which the rest of the development takes it for ([RedisFrames.wire], [splice]). *)

From stdpp Require Import pretty.
From Stdlib Require Import Ascii.
From S2P Require Import Prelude JsMap Json JsonText RedisFrames RedisScripts RedisPublisher.

(** ** Fragments *)

Definition key (name : string) : string := quoted name +:+ ":".

(** [s.slice(1, -1)] *)
Definition slice_inner (s : string) : string := String.substring 1 (String.length s - 2) s.

(** [rest] of [const { type, ...rest } = message]. *)
Definition rest_of (m : PubSubMessage.t) : json :=
  JObj (opt_prop "data" (PubSubMessage.data m) ++
        opt_prop "error" (JStr <$> PubSubMessage.error m) ++
        opt_prop "generationId" (jint <$> PubSubMessage.generationId m) ++
        opt_prop "events" (JArr <$> PubSubMessage.events m) ++
        opt_prop "abortRequestId" (JStr <$> PubSubMessage.abortRequestId m) ++
        opt_prop "preempt" (preempt_json <$> PubSubMessage.preempt m)).

(** [buildPayloadParts(message)] *)
Definition buildPayloadParts (m : PubSubMessage.t) : string * string :=
  let encodedRest := stringify (rest_of m) in
  let inner := slice_inner encodedRest in
  ("{" +:+ key "type" +:+ stringify (JStr (type_name (PubSubMessage.type m))) +:+ "," +:+ key "seq",
   if decide (0 < String.length inner) then "," +:+ inner +:+ "}" else "}").

(** The fragments of a batch: [events] are texts already. *)
Definition batch_parts (events : list string) (generationId : option Z) : string * string :=
  ("{" +:+ key "type" +:+ stringify (JStr (type_name CHUNK_BATCH)) +:+ "," +:+ key "baseSeq",
   match generationId with Some g => "," +:+ key "generationId" +:+ pretty g | None => "" end +:+
   "," +:+ key "events" +:+ "[" +:+ join events +:+ "]}").

(** [ARGV[2] .. string.format('%d', seq) .. ARGV[3]] *)
Definition spliced (parts : string * string) (seq : Z) : string := parts.1 +:+ pretty seq +:+ parts.2.

(** The text that is published for a message that waits for its number. *)
Definition published_text (m : PubSubMessage.t) (seq : Z) : string :=
  match PubSubMessage.type m, PubSubMessage.events m with
  | CHUNK_BATCH, Some es => spliced (batch_parts (List.map stringify es) (PubSubMessage.generationId m)) seq
  | _, _ => spliced (buildPayloadParts m) seq
  end.

(** A message as the methods build it before it is numbered: a batch has events and perhaps a
    generation, the others have no events and no base. *)
Definition unnumbered (m : PubSubMessage.t) : Prop :=
  PubSubMessage.seq m = None /\ PubSubMessage.baseSeq m = None /\
  match PubSubMessage.type m with
  | CHUNK_BATCH => exists es, m = batch_message es (PubSubMessage.generationId m)
  | _ => True
  end.

(** Numbers below 1e21, payloads whose numbers are written plainly, distinct names. *)
Definition small_int (z : Z) : Prop := (Z.abs z < 10 ^ 21)%Z.
Record plain_message (m : PubSubMessage.t) : Prop := {
  pm_data : forall v, PubSubMessage.data m = Some v -> plain v = true;
  pm_events : forall es, PubSubMessage.events m = Some es -> forallb plain es = true;
  pm_generation : forall g, PubSubMessage.generationId m = Some g -> small_int g;
  pm_seq : forall q, PubSubMessage.seq m = Some q -> small_int q;
  pm_base : forall q, PubSubMessage.baseSeq m = Some q -> small_int q;
  pm_preempt : forall p, PubSubMessage.preempt m = Some p ->
    small_int (PreemptMessage.createdAt p) /\
    forall r, PreemptMessage.revisions p = Some r -> mwf r /\ Forall (fun e => small_int e.2) r
}.

(** ** Cutting *)

Lemma substring_prefix (s t : string) : String.substring 0 (String.length s) (s +:+ t) = s.
Proof. induction s as [|c s IH]; [by destruct t | exact (f_equal (String c) IH)]. Qed.

Lemma slice_inner_braces a s b : slice_inner (String a (s +:+ String b EmptyString)) = s.
Proof.
  unfold slice_inner. cbn [String.length]. rewrite append_length. cbn [String.length].
  replace (S (String.length s + 1) - 2) with (String.length s) by lia.
  exact (substring_prefix s (String b EmptyString)).
Qed.

Lemma join_cons x l : join (x :: l) = x +:+ match l with [] => EmptyString | _ => "," +:+ join l end.
Proof.
  destruct l as [|y l]; [|done]. cbn. induction x as [|c x IH]; [done | exact (f_equal (String c) IH)].
Qed.

(** An object whose first two properties are spliced in front of the others. *)
Lemma stringify_members a b o :
  stringify (JObj (a :: b :: o)) =
  "{" +:+ property a +:+ "," +:+ property b +:+
  match o with [] => "}" | _ => "," +:+ join (List.map property o) +:+ "}" end.
Proof.
  change (stringify (JObj (a :: b :: o))) with ("{" +:+ join (property a :: property b :: List.map property o) +:+ "}").
  rewrite !join_cons. destruct o as [|e o]; cbn [List.map]; rewrite ?append_assoc; done.
Qed.

Lemma inner_members o : slice_inner (stringify (JObj o)) = join (List.map property o).
Proof. exact (slice_inner_braces "{"%char (join (List.map property o)) "}"%char). Qed.

Lemma property_long e : 0 < String.length (property e).
Proof. unfold property, quoted. rewrite append_length. cbn [String.length]. lia. Qed.

Lemma tail_members o :
  (if decide (0 < String.length (join (List.map property o)))
   then "," +:+ join (List.map property o) +:+ "}" else "}") =
  match o with [] => "}" | _ => "," +:+ join (List.map property o) +:+ "}" end.
Proof.
  destruct o as [|e o]; [done|]. rewrite decide_True; [done|]. cbn [List.map]. rewrite join_cons, append_length.
  pose proof (property_long e). lia.
Qed.

(** ** The text is the JSON of the numbered message *)

Lemma stringify_jint z : stringify (jint z) = pretty z.
Proof. done. Qed.

Lemma payload_spliced m q :
  PubSubMessage.seq m = None -> PubSubMessage.baseSeq m = None ->
  spliced (buildPayloadParts m) q = stringify (wire {| m with PubSubMessage.seq := Some q |}).
Proof.
  intros Hq Hb. set (rest := match rest_of m with JObj o => o | _ => [] end).
  assert (Hrest : rest_of m = JObj rest) by done.
  assert (Hw : wire {| m with PubSubMessage.seq := Some q |} =
    JObj (("type", JStr (type_name (PubSubMessage.type m))) :: ("seq", jint q) :: rest)).
  { unfold wire. cbn. by rewrite Hb. }
  rewrite Hw, stringify_members. unfold spliced, buildPayloadParts. cbn [fst snd].
  rewrite Hrest, inner_members, tail_members. unfold property, key. cbn [fst snd].
  rewrite !append_assoc. rewrite stringify_jint. by destruct rest.
Qed.

Lemma batch_spliced es g q :
  spliced (batch_parts (List.map stringify es) g) q =
  stringify (wire {| (batch_message es g) with PubSubMessage.baseSeq := Some q |}).
Proof.
  set (rest := opt_prop "generationId" (jint <$> g) ++ [("events", JArr es)]).
  assert (Hw : wire {| (batch_message es g) with PubSubMessage.baseSeq := Some q |} =
    JObj (("type", JStr (type_name CHUNK_BATCH)) :: ("baseSeq", jint q) :: rest)).
  { unfold wire, rest. by destruct g. }
  rewrite Hw, stringify_members. unfold spliced, batch_parts, rest. cbn [fst snd].
  destruct g as [g|]; cbn [fmap option_fmap option_map opt_prop app List.map]; rewrite ?join_cons;
    cbn [join List.map]; unfold property, key; cbn [fst snd stringify];
    rewrite !append_assoc, ?stringify_jint; done.
Qed.

Lemma published_spliced m q :
  unnumbered m -> published_text m q = stringify (wire (splice q m)).
Proof.
  intros (Hq & Hb & Ht). destruct (decide (PubSubMessage.type m = CHUNK_BATCH)) as [E|E].
  - rewrite E in Ht. destruct Ht as [es ->]. apply batch_spliced.
  - assert (Hs : splice q m = {| m with PubSubMessage.seq := Some q |}).
    { unfold splice. by destruct (PubSubMessage.type m). }
    assert (Hp : published_text m q = spliced (buildPayloadParts m) q).
    { unfold published_text. by destruct (PubSubMessage.type m). }
    rewrite Hs, Hp. by apply payload_spliced.
Qed.

(** ** The frame is a plain value *)

Lemma opt_prop_plain k x : (forall v, x = Some v -> plain v = true) ->
  forallb (fun e => plain e.2) (opt_prop k x) = true.
Proof. destruct x as [v|]; [|done]. intros H. cbn. by rewrite H. Qed.
Lemma opt_prop_names k x : List.map fst (opt_prop k x) `sublist_of` [k].
Proof. destruct x; [done | by apply sublist_nil_l]. Qed.

Lemma small_plain z : small_int z -> plain (jint z) = true.
Proof. intros H. cbn. by apply Z.ltb_lt. Qed.

Lemma preempt_plain p :
  small_int (PreemptMessage.createdAt p) ->
  (forall r, PreemptMessage.revisions p = Some r -> mwf r /\ Forall (fun e => small_int e.2) r) ->
  plain (preempt_json p) = true.
Proof.
  intros Hc Hr. unfold preempt_json. cbn [plain]. apply andb_true_iff. split.
  - apply bool_decide_eq_true. by destruct (PreemptMessage.revisions p); apply (bool_decide_unpack _).
  - cbn [app forallb snd]. rewrite (small_plain _ Hc). cbn [andb].
    apply andb_true_iff. split; [by destruct (PreemptMessage.op p)|]. cbn [plain].
    apply andb_true_iff. split; [by induction (PreemptMessage.steerIds p)|].
    apply opt_prop_plain. intros v Hv. destruct (PreemptMessage.revisions p) as [r|] eqn:E; [|done].
    injection Hv as <-. destruct (Hr r eq_refl) as [Hw Hs]. unfold revisions_json. cbn [plain].
    apply andb_true_iff. split.
    + apply bool_decide_eq_true. unfold mwf, mkeys in Hw. clear -Hw. rewrite <- list_fmap_compose in *. done.
    + clear -Hs. induction Hs as [|e r He _ IH]; [done|]. cbn [fmap list_fmap forallb]. rewrite IH.
      cbn [snd]. by rewrite (small_plain _ He).
Qed.

Lemma wire_plain m : plain_message m -> plain (wire m) = true.
Proof.
  intros [H1 H2 H3 H4 H5 H6]. unfold wire. cbn [plain]. apply andb_true_iff. split.
  - apply bool_decide_eq_true. rewrite !List.map_app.
    apply (sublist_NoDup _ (["type"] ++ ["seq"] ++ ["baseSeq"] ++ ["data"] ++ ["error"] ++ ["generationId"] ++
      ["events"] ++ ["abortRequestId"] ++ ["preempt"])).
    + by apply (bool_decide_unpack _).
    + repeat first [apply opt_prop_names | apply sublist_app | done].
  - assert (Hi : forall k x, (forall z, x = Some z -> small_int z) ->
      forallb (fun e => plain e.2) (opt_prop k (jint <$> x)) = true).
    { intros k x H. apply opt_prop_plain. intros v (z & Hz & ->)%fmap_Some. apply small_plain. by apply H. }
    assert (Hs : forall k x, forallb (fun e => plain e.2) (opt_prop k (JStr <$> x)) = true).
    { intros k x. apply opt_prop_plain. by intros v (s & _ & ->)%fmap_Some. }
    rewrite !forallb_app, !Hi, !Hs by done. cbn [andb forallb snd plain].
    rewrite !opt_prop_plain; [done | | | done].
    + intros v (p & Hp & ->)%fmap_Some. destruct (H6 p Hp). by apply preempt_plain.
    + intros v (es & He & ->)%fmap_Some. by apply H2.
Qed.

Lemma splice_plain q m : small_int q -> plain_message m -> plain_message (splice q m).
Proof.
  intros Hq [H1 H2 H3 H4 H5 H6]. unfold splice. destruct (PubSubMessage.type m); (split; try done; by intros z [= <-]).
Qed.

(** C35. Frames survive the splicing of their number.  The text that is published for a message, the two
    fragments of the sender with the decimal number of the server in between, is character for
    character the JSON of the message with that number; JSON.parse reads it, and the receiver
    decodes it as the same message with that number.  The same for the events of a batch, which are
    serialized one by one, when they are published, and joined, and for a message that is published
    without a number.  The channel of a stream is that of no other, and its stream is read off it.
    The stream id is not empty and has no closing brace, the payload's numbers are written without
    an exponent and below 1e21, and the property names of its objects are distinct. *)
Theorem frames_round_trip (k : string) (m : PubSubMessage.t) (q : Z)
    (Hk : k <> "") (Hb : brace_free k = true) (Hm : plain_message m) (Hq : small_int q) :
  stream_of_channel (events_channel k) = Some k /\
  (forall channel, stream_of_channel channel = Some k -> channel = events_channel k) /\
  (unnumbered m ->
     published_text m q = stringify (wire (splice q m)) /\
     parse (published_text m q) ≫= decode = Some (splice q m) /\
     text_of (published_text m q) = JSON_stringify (wire (splice q m))) /\
  parse (stringify (wire m)) ≫= decode = Some m /\
  text_of (stringify (wire m)) = JSON_stringify (wire m).
Proof.
  pose proof (wire_plain _ Hm) as Hw. pose proof (wire_plain _ (splice_plain q m Hq Hm)) as Hs. split_and!.
  - by apply channel_of_stream.
  - by apply channel_unique.
  - intros Hu. rewrite published_spliced by done. split_and!; [done | | by apply text_of_stringify].
    rewrite parse_stringify by done. apply decode_wire.
  - rewrite parse_stringify by done. apply decode_wire.
  - by apply text_of_stringify.
Qed.

(** ** At concrete inputs *)

Module SplicingDemo.
Definition q (s : string) : string := String quote (s +:+ String quote EmptyString).
Definition event : json := JObj [("text", JStr (String quote (String backslash "x"))); ("score", JNum (NDec 25 2))].
Definition chunk : PubSubMessage.t := chunk_message event (Some 7%Z).
Definition batch : PubSubMessage.t := batch_message [event; jint 2] None.
End SplicingDemo.

Example chunk_text :
  published_text SplicingDemo.chunk 41 =
  "{" +:+ SplicingDemo.q "type" +:+ ":" +:+ SplicingDemo.q "chunk" +:+ "," +:+ SplicingDemo.q "seq" +:+ ":41," +:+
  SplicingDemo.q "data" +:+ ":{" +:+ SplicingDemo.q "text" +:+ ":" +:+
  SplicingDemo.q (String backslash (String quote (String backslash (String backslash "x")))) +:+ "," +:+
  SplicingDemo.q "score" +:+ ":0.25}," +:+ SplicingDemo.q "generationId" +:+ ":7}".
Proof. by vm_compute. Qed.

Example batch_is_read :
  parse (published_text SplicingDemo.batch 5) ≫= decode =
  Some {| SplicingDemo.batch with PubSubMessage.baseSeq := Some 5%Z |}.
Proof. by vm_compute. Qed.

Lemma frames_round_trip_witness :
  parse (published_text SplicingDemo.chunk 41) ≫= decode = Some (splice 41 SplicingDemo.chunk) /\
  parse (published_text SplicingDemo.batch 5) ≫= decode = Some (splice 5 SplicingDemo.batch).
Proof.
  split.
  - apply (frames_round_trip "c1" SplicingDemo.chunk 41); [done | done | | done | by split_and!].
    split; cbn; try done; [by intros v [= <-] | by intros g [= <-]].
  - apply (frames_round_trip "c1" SplicingDemo.batch 5); [done | done | | done | split_and!; try done; by eexists].
    split; cbn; try done. by intros v [= <-].
Defined.
