(* ===== verification/RedisProofs.v ===== *)
(** * Durable proofs of the Redis event transport
      ([stream/implementations/RedisEventTransport.ts])

    That the owner of a generation processed an abort, and that a provider execution has unwound,
    are keys of the server that live for a day.  The names of the keys are texts built from ids:
    what a lookup finds is what was recorded under the same ids. *)

From Stdlib Require Import Ascii.
From stdpp Require Import gmap pretty.
From S2P Require Import Prelude RedisFrames RedisScripts RedisPublisher.

(** ** Keys *)

(** [KEYS.abortAck] and [KEYS.providerDrain] *)
Definition abortAck (streamId : string) (generationId : Z) : string :=
  "stream:{" +:+ streamId +:+ "}:abort-ack:" +:+ pretty generationId.
Definition providerDrain (streamId : string) (generationId : Z) (providerExecutionId : string)
  : string :=
  "stream:{" +:+ streamId +:+ "}:provider-drain:" +:+ pretty generationId +:+ ":" +:+
    providerExecutionId.

(** [ABORT_ACK_TTL_SECONDS], [PROVIDER_DRAIN_TTL_SECONDS] *)
Definition ABORT_ACK_TTL_SECONDS : Z := 86400.
Definition PROVIDER_DRAIN_TTL_SECONDS : Z := 86400.

(** ** Commands *)

(** The keys of all streams that hold proofs. *)
Abbreviation Proofs := (gmap string (Key.t string)).

(** [SET key value EX seconds], [GET key], and time that passes. *)
Definition SET_EX (key value : string) (seconds : Z) (ps : Proofs) : Proofs :=
  <[key := Key.mk value (Some seconds)]> ps.
Definition GET (key : string) (ps : Proofs) : option string := Key.value <$> ps !! key.
Definition age (seconds : Z) (key : Key.t string) : option (Key.t string) :=
  match Key.ttl key with
  | None => Some key
  | Some t => if decide (seconds < t)%Z then Some (Key.mk (Key.value key) (Some (t - seconds)%Z))
              else None
  end.
Definition elapse (seconds : Z) (ps : Proofs) : Proofs := omap (age seconds) ps.

(** A [SET] as its sender sees it: answered, lost before it ran, or lost after. *)
Definition record_ (key : string) (seconds : Z) (d : Delivery) (ps : Proofs) : bool * Proofs :=
  match d with
  | Answered => (true, SET_EX key "1" seconds ps)
  | NotRun => (false, ps)
  | ReplyLost => (false, SET_EX key "1" seconds ps)
  end.
Definition recordAbortAcknowledgement (k : string) (g : Z) : Delivery -> Proofs -> bool * Proofs :=
  record_ (abortAck k g) ABORT_ACK_TTL_SECONDS.
Definition recordProviderDrain (k : string) (g : Z) (p : string)
  : Delivery -> Proofs -> bool * Proofs :=
  record_ (providerDrain k g p) PROVIDER_DRAIN_TTL_SECONDS.

Definition hasDurableAbortAck (k : string) (g : Z) (ps : Proofs) : bool :=
  bool_decide (GET (abortAck k g) ps = Some "1").
Definition hasProviderDrain (k : string) (g : Z) (p : string) (ps : Proofs) : bool :=
  bool_decide (GET (providerDrain k g p) ps = Some "1").

(** ** Names of keys *)

(** A decimal numeral, possibly negative. *)
Definition numeral_char (c : ascii) : bool :=
  bool_decide (c ∈ ["-"; "0"; "1"; "2"; "3"; "4"; "5"; "6"; "7"; "8"; "9"]%char).
Fixpoint numeral (s : string) : bool :=
  match s with EmptyString => true | String c s => numeral_char c && numeral s end.

Lemma digit_numeral (n : N) : numeral_char (pretty_N_char n) = true.
Proof. unfold pretty_N_char. by repeat case_match. Qed.

Lemma pretty_N_go_numeral (x : N) s : numeral s = true -> numeral (pretty_N_go x s) = true.
Proof.
  revert s. induction (N.lt_wf_0 x) as [x _ IH]. intros s Hs.
  destruct (decide (x = 0)%N) as [->|Hx]; [by rewrite pretty_N_go_0|].
  rewrite pretty_N_go_step by lia. apply IH; [by apply N.div_lt; lia|]. cbn [numeral].
  by rewrite digit_numeral.
Qed.

Lemma pretty_numeral (z : Z) : numeral (pretty z) = true.
Proof.
  assert (Hn : forall n : N, numeral (pretty n) = true).
  { intros n. unfold pretty, pretty_N. case_decide; [done|]. by apply pretty_N_go_numeral. }
  destruct z as [|p|p]; [done | apply (Hn (Npos p))|].
  change (numeral ("-" +:+ pretty (Npos p)) = true). cbn. apply (Hn (Npos p)).
Qed.

Lemma numeral_brace s : numeral s = true -> brace_free s = true.
Proof.
  induction s as [|c s IH]; [done|]. cbn. intros [Hc Hs]%andb_true_iff. rewrite IH by done.
  rewrite bool_decide_false; [done|]. by intros ->.
Qed.

Lemma numeral_split a b x y :
  numeral a = true -> numeral b = true -> a +:+ ":" +:+ x = b +:+ ":" +:+ y -> a = b /\ x = y.
Proof.
  revert b. induction a as [|c a IH]; intros [|d b]; cbn; intros Ha Hb.
  - intros [= H]. by split.
  - intros [= <- _]. by apply andb_true_iff in Hb as [Hd _].
  - intros [= -> _]. by apply andb_true_iff in Ha as [Hd _].
  - apply andb_true_iff in Ha as [_ Ha], Hb as [_ Hb]. intros [= -> H].
    by destruct (IH b Ha Hb H) as [-> ->].
Qed.

Lemma brace_free_app a b : brace_free (a +:+ b) = brace_free a && brace_free b.
Proof.
  induction a as [|c a IH]; [done|]. change (String c a +:+ b) with (String c (a +:+ b)).
  cbn [brace_free]. by rewrite IH, andb_assoc.
Qed.

Lemma brace_split k k' t t' :
  brace_free k = true -> brace_free t = true -> k +:+ "}" +:+ t = k' +:+ "}" +:+ t' ->
  k = k' /\ t = t'.
Proof.
  revert k'. induction k as [|c k IH]; intros [|d k']; cbn; intros Hk Ht.
  - intros [= H]. by split.
  - intros [= _ H]. exfalso. change (t = k' +:+ "}" +:+ t') in H. subst t.
    rewrite !brace_free_app, andb_false_r in Ht. discriminate Ht.
  - intros [= -> _]. by apply andb_true_iff in Hk as [Hc _].
  - apply andb_true_iff in Hk as [_ Hk]. intros [= -> H]. by destruct (IH k' Hk Ht H) as [-> ->].
Qed.

(** The part of a key behind its stream id decides between the kinds. *)
Lemma stream_key_split k k' t t' :
  brace_free k = true -> brace_free t = true ->
  "stream:{" +:+ k +:+ "}" +:+ t = "stream:{" +:+ k' +:+ "}" +:+ t' -> k = k' /\ t = t'.
Proof. intros Hk Ht [= H]. by apply brace_split. Qed.

Lemma ack_tail_brace (g : Z) : brace_free (":abort-ack:" +:+ pretty g) = true.
Proof. rewrite brace_free_app. by rewrite (numeral_brace _ (pretty_numeral g)). Qed.
Lemma drain_tail_brace (g : Z) p :
  brace_free p = true -> brace_free (":provider-drain:" +:+ pretty g +:+ ":" +:+ p) = true.
Proof. intros Hp. rewrite !brace_free_app, Hp. by rewrite (numeral_brace _ (pretty_numeral g)). Qed.

Lemma abortAck_inj k g k' g' :
  brace_free k = true -> abortAck k g = abortAck k' g' -> k = k' /\ g = g'.
Proof.
  intros Hk H. destruct (stream_key_split k k' _ _ Hk (ack_tail_brace g) H) as [-> Ht].
  split; [done|]. injection Ht as Ht. by apply (inj pretty).
Qed.
Lemma abortAck_not_drain k g k' g' p :
  brace_free k = true -> abortAck k g <> providerDrain k' g' p.
Proof. intros Hk H. by destruct (stream_key_split k k' _ _ Hk (ack_tail_brace g) H). Qed.

Lemma providerDrain_inj k g p k' g' p' :
  brace_free k = true -> brace_free p = true -> providerDrain k g p = providerDrain k' g' p' ->
  k = k' /\ g = g' /\ p = p'.
Proof.
  intros Hk Hp H. destruct (stream_key_split k k' _ _ Hk (drain_tail_brace g p Hp) H) as [-> Ht].
  injection Ht as Ht. split; [done|].
  destruct (numeral_split _ _ _ _ (pretty_numeral g) (pretty_numeral g') Ht) as [Hg ->].
  split; [by apply (inj pretty) | done].
Qed.
Lemma providerDrain_not_ack k g p k' g' :
  brace_free k = true -> brace_free p = true -> providerDrain k g p <> abortAck k' g'.
Proof. intros Hk Hp H. by destruct (stream_key_split k k' _ _ Hk (drain_tail_brace g p Hp) H). Qed.

(** ** Histories *)

(** What happens to the proofs: replicas record them, and they age. *)
Inductive ProofEvent :=
| RecordAck (k : string) (g : Z) (d : Delivery)
| RecordDrain (k : string) (g : Z) (p : string) (d : Delivery)
| Elapse (seconds : N).

Definition proof_step (ps : Proofs) (e : ProofEvent) : Proofs :=
  match e with
  | RecordAck k g d => (recordAbortAcknowledgement k g d ps).2
  | RecordDrain k g p d => (recordProviderDrain k g p d ps).2
  | Elapse n => elapse (Z.of_N n) ps
  end.
Definition proofs_after (l : list ProofEvent) : Proofs := foldl proof_step ∅ l.

(** The key that an event writes, and the time that passes. *)
Definition written (e : ProofEvent) : option string :=
  match e with
  | RecordAck _ _ NotRun | RecordDrain _ _ _ NotRun | Elapse _ => None
  | RecordAck k g _ => Some (abortAck k g)
  | RecordDrain k g p _ => Some (providerDrain k g p)
  end.
Definition duration (e : ProofEvent) : Z := match e with Elapse n => Z.of_N n | _ => 0 end.
Definition elapsed (l : list ProofEvent) : Z := foldr (fun e t => duration e + t)%Z 0%Z l.

(** The time since the last write of a key. *)
Definition since (key : string) (l : list ProofEvent) : option Z :=
  foldl (fun t e => if decide (written e = Some key) then Some 0%Z else Z.add (duration e) <$> t)
    None l.

Lemma elapsed_app l l' : elapsed (l ++ l') = (elapsed l + elapsed l')%Z.
Proof. unfold elapsed. induction l as [|e l IH]; cbn [foldr app]; lia. Qed.
Lemma duration_nonneg e : (0 <= duration e)%Z.
Proof. destruct e; cbn; lia. Qed.
Lemma elapsed_nonneg l : (0 <= elapsed l)%Z.
Proof. unfold elapsed. induction l as [|e l IH]; cbn [foldr]; [lia|]. pose proof (duration_nonneg e). lia. Qed.

Lemma proofs_snoc l e : proofs_after (l ++ [e]) = proof_step (proofs_after l) e.
Proof. unfold proofs_after. by rewrite foldl_app. Qed.

Lemma proof_step_write ps e key :
  written e = Some key -> proof_step ps e = <[key := Key.mk "1" (Some 86400%Z)]> ps.
Proof. destruct e as [k g []|k g p []|n]; cbn; try done; by intros [= <-]. Qed.
Lemma proof_step_other ps e key :
  written e <> Some key ->
  proof_step ps e !! key =
    match e with Elapse n => ps !! key ≫= age (Z.of_N n) | _ => ps !! key end.
Proof.
  intros Hw. destruct e as [k g d|k g p d|n]; [| | apply lookup_omap].
  all: destruct d; cbn in *; try done; apply lookup_insert_ne; congruence.
Qed.

Lemma since_snoc key l e :
  since key (l ++ [e]) =
    if decide (written e = Some key) then Some 0%Z else Z.add (duration e) <$> since key l.
Proof. unfold since. by rewrite foldl_app. Qed.
Lemma since_nonneg key l t : since key l = Some t -> (0 <= t)%Z.
Proof.
  revert t. induction l as [|e l IH] using rev_ind; intros t; [done|]. rewrite since_snoc.
  case_decide; [intros [= <-]; lia|]. destruct (since key l) as [t'|]; [|done]. intros [= <-].
  specialize (IH t' eq_refl). pose proof (duration_nonneg e). lia.
Qed.

(** A key holds [1] for a day from its last write on. *)
Lemma proofs_exact key l :
  proofs_after l !! key =
    since key l ≫= fun t => if decide (t < 86400)%Z then Some (Key.mk "1" (Some (86400 - t)%Z)) else None.
Proof.
  induction l as [|e l IH] using rev_ind; [done|]. rewrite proofs_snoc, since_snoc.
  case_decide as Hw; [rewrite (proof_step_write _ _ _ Hw), lookup_insert_eq; done|].
  rewrite proof_step_other, IH by done.
  pose proof (since_nonneg key l) as Hn. destruct (since key l) as [t|]; cbn [fmap option_fmap option_map mbind option_bind].
  2: by destruct e.
  specialize (Hn t eq_refl). destruct e as [k g d|k g p d|n]; cbn [duration]; try done.
  case_decide as Ht; cbn [mbind option_bind]; unfold age; cbn [Key.ttl Key.value].
  - destruct (decide (Z.of_N n < 86400 - t)%Z).
    + rewrite decide_True by lia. do 3 f_equal. lia.
    + by rewrite decide_False by lia.
  - by rewrite decide_False by lia.
Qed.

(** The last write is the one after which the least time passed. *)
Lemma since_split key l t :
  since key l = Some t -> exists l1 e l2, l = l1 ++ e :: l2 /\ written e = Some key /\ elapsed l2 = t.
Proof.
  revert t. induction l as [|e l IH] using rev_ind; intros t; [done|]. rewrite since_snoc.
  case_decide as Hw; [intros [= <-]; by exists l, e, []|].
  destruct (since key l) as [t'|]; [|done]. intros [= <-].
  destruct (IH t' eq_refl) as (l1 & e1 & l2 & -> & Hk & Ht). exists l1, e1, (l2 ++ [e]).
  split_and!; [by rewrite <- app_assoc | done |]. rewrite elapsed_app. cbn. lia.
Qed.
Lemma since_least key l1 e l2 :
  written e = Some key -> exists t, since key (l1 ++ e :: l2) = Some t /\ (t <= elapsed l2)%Z.
Proof.
  intros Hw. induction l2 as [|e' l2 IH] using rev_ind.
  - exists 0%Z. rewrite since_snoc. by rewrite decide_True.
  - destruct IH as (t & Ht & Hle).
    change (l1 ++ e :: l2 ++ [e']) with (l1 ++ (e :: l2) ++ [e']). rewrite app_assoc, since_snoc, Ht.
    pose proof (elapsed_nonneg (l2 ++ [e'])). case_decide; eexists; (split; [done|]); [done|].
    rewrite elapsed_app. cbn. lia.
Qed.

(** A lookup answers yes exactly when the key was written less than a day before. *)
Lemma lookup_exact key l :
  GET key (proofs_after l) = Some "1" <->
  exists l1 e l2, l = l1 ++ e :: l2 /\ written e = Some key /\ (elapsed l2 < 86400)%Z.
Proof.
  unfold GET. rewrite proofs_exact. split.
  - destruct (since key l) as [t|] eqn:Hs; [|done]. cbn [mbind option_bind].
    case_decide; [|done]. intros _. destruct (since_split key l t Hs) as (l1 & e & l2 & -> & Hw & <-).
    by exists l1, e, l2.
  - intros (l1 & e & l2 & -> & Hw & Ht). destruct (since_least key l1 e l2 Hw) as (t & -> & Hle).
    cbn [mbind option_bind]. rewrite decide_True by lia. done.
Qed.

(** A stored record of an abort and of a drain, among the events. *)
Definition records_ack (k : string) (g : Z) (e : ProofEvent) : Prop :=
  exists d, e = RecordAck k g d /\ d <> NotRun.
Definition records_drain (k : string) (g : Z) (p : string) (e : ProofEvent) : Prop :=
  exists d, e = RecordDrain k g p d /\ d <> NotRun.

Lemma written_ack k g e :
  brace_free k = true -> written e = Some (abortAck k g) <-> records_ack k g e.
Proof.
  intros Hk. split.
  - destruct e as [k' g' d|k' g' p d|n]; cbn; [| |done].
    + intros H. assert (Heq : abortAck k' g' = abortAck k g) by (destruct d; congruence).
      destruct (abortAck_inj k g k' g' Hk (eq_sym Heq)) as [<- <-]. exists d. by destruct d.
    + intros H. exfalso. apply (abortAck_not_drain k g k' g' p Hk). destruct d; congruence.
  - intros (d & -> & Hd). by destruct d.
Qed.
Lemma written_drain k g p e :
  brace_free k = true -> brace_free p = true ->
  written e = Some (providerDrain k g p) <-> records_drain k g p e.
Proof.
  intros Hk Hp. split.
  - destruct e as [k' g' d|k' g' p' d|n]; cbn; [| |done].
    + intros H. exfalso. apply (providerDrain_not_ack k g p k' g' Hk Hp). destruct d; congruence.
    + intros H. assert (Heq : providerDrain k g p = providerDrain k' g' p') by (destruct d; congruence).
      destruct (providerDrain_inj k g p k' g' p' Hk Hp Heq) as (<- & <- & <-). exists d. by destruct d.
  - intros (d & -> & Hd). by destruct d.
Qed.

(** C34. Whatever the replicas of all streams record and however time passes, the abort of a
    generation, or the drain of one of its provider executions, is proved to a replica exactly when
    that abort, or that drain, was recorded within the last day: ids are told apart inside the
    texts of the keys, and an answer that was lost does not undo the record. *)
Theorem durable_proofs_are_exact (l : list ProofEvent) (k : string) (g : Z) (p : string)
    (Hk : brace_free k = true) (Hp : brace_free p = true) :
  (hasDurableAbortAck k g (proofs_after l) = true <->
   exists l1 e l2, l = l1 ++ e :: l2 /\ records_ack k g e /\ (elapsed l2 < ABORT_ACK_TTL_SECONDS)%Z) /\
  (hasProviderDrain k g p (proofs_after l) = true <->
   exists l1 e l2, l = l1 ++ e :: l2 /\ records_drain k g p e /\
     (elapsed l2 < PROVIDER_DRAIN_TTL_SECONDS)%Z).
Proof.
  unfold hasDurableAbortAck, hasProviderDrain. rewrite !bool_decide_eq_true, !lookup_exact.
  unfold ABORT_ACK_TTL_SECONDS, PROVIDER_DRAIN_TTL_SECONDS.
  split; split; intros (l1 & e & l2 & -> & Hw & Ht); exists l1, e, l2;
    (split_and!; [done | | done]); revert Hw; by first [apply written_ack | apply written_drain].
Qed.

Lemma durable_proofs_are_exact_witness :
  hasDurableAbortAck "c1" 7 (proofs_after [RecordDrain "c1" 7 "x" Answered; RecordAck "c1" 7 ReplyLost;
    Elapse 86399]) = true.
Proof.
  refine (proj2 (proj1 (durable_proofs_are_exact [RecordDrain "c1" 7 "x" Answered;
    RecordAck "c1" 7 ReplyLost; Elapse 86399] "c1" 7 "x" eq_refl eq_refl)) _).
  exists [RecordDrain "c1" 7 "x" Answered], (RecordAck "c1" 7 ReplyLost), [Elapse 86399].
  split_and!; [done | exists ReplyLost; by split | by vm_compute].
Defined.
