(* ===== verification/RedisReceipts.v ===== *)
(** * Receipts of published chunks

    A receipt is settled when its chunk was numbered, fenced, or lost.  In every run of a replica
    the receipts of a stream that name a number follow the order in which the chunks were emitted,
    whatever is batched, flushed, fenced, lost or discarded on the way; the number is the one under
    which exactly that chunk was published; and no receipt is settled twice. *)

From S2P Require Import Prelude JsMap Json RedisFrames RedisScripts RedisPublisher.
Import PendingChunkBatch.

(** ** The line of a stream: the receipts not yet settled, in the order in which they will be *)

Definition receipts_of (c : Command) : list nat :=
  match continuation c with ChunkReceipt r => [r] | BatchReceipts rs => rs | TerminalEnd _ => [] end.
Definition queued_in (k : string) (cs : list Command) : list nat :=
  concat ((fun c => if decide (streamId c = k) then receipts_of c else []) <$> cs).
Definition waiting (k : string) (s : System) : list nat :=
  match mget (pendingBatches s) k with Some b => resolvers b | None => [] end.
Definition line (k : string) (s : System) : list nat := queued_in k (connection s) ++ waiting k s.

Definition settled_receipt (o : Outcome) : option nat :=
  match o with Settled r _ => Some r | Ended _ _ => None end.
Definition settled (s : System) : list nat := omap settled_receipt (outcomes s).

Lemma queued_app k cs cs' : queued_in k (cs ++ cs') = queued_in k cs ++ queued_in k cs'.
Proof. unfold queued_in. by rewrite fmap_app, concat_app. Qed.
Lemma queued_one k c :
  queued_in k [c] = if decide (streamId c = k) then receipts_of c else [].
Proof. unfold queued_in. cbn. by rewrite app_nil_r. Qed.

(** ** Invariants *)

Definition named (s : System) (e : Emission) (q : Z) : Prop :=
  e ∈ emissions s /\ Settled (receiptOf e) (Sequence q) ∈ outcomes s.

Record ordered (s : System) : Prop := {
  or_line : forall k, StronglySorted lt (line k s);
  or_emitted : forall k r, r ∈ line k s ->
    exists e, e ∈ emissions s /\ receiptOf e = r /\ stream e = k;
  or_fresh : forall e, e ∈ emissions s -> receiptOf e < fresh s;
  or_unique : forall e e', e ∈ emissions s -> e' ∈ emissions s -> receiptOf e = receiptOf e' -> e = e';
  or_named : forall e q, named s e q ->
    (q < counter (keys_of (stream e) s))%Z /\ forall r, r ∈ line (stream e) s -> receiptOf e < r;
  or_sorted : forall e e' q q', named s e q -> named s e' q' -> stream e = stream e' ->
    receiptOf e < receiptOf e' -> (q < q')%Z;
  or_settled : forall r, r ∈ settled s -> r < fresh s /\ forall k, r ∉ line k s;
  or_once : NoDup (settled s)
}.

Lemma elem_of_sublist {A} (x : A) l l' : sublist l l' -> x ∈ l -> x ∈ l'.
Proof. intros H Hx. eapply elem_of_submseteq; [exact Hx | by apply sublist_submseteq]. Qed.

Lemma StronglySorted_sublist {A} (R : A -> A -> Prop) l l' :
  sublist l l' -> StronglySorted R l' -> StronglySorted R l.
Proof.
  induction 1 as [|x l l' H IH|x l l' H IH]; intros Hs; [done | |].
  - apply StronglySorted_inv in Hs as [Hs Hx]. constructor; [by apply IH|].
    rewrite Forall_forall in *. intros y Hy. apply Hx. by eapply elem_of_sublist.
  - apply StronglySorted_inv in Hs as [Hs Hx]. by apply IH.
Qed.

(** Steps that emit nothing and number nothing: lines may only lose receipts, counters only grow. *)
Lemma ordered_shrink s s' l :
  emissions s' = emissions s -> fresh s <= fresh s' -> outcomes s' = outcomes s ++ l ->
  (forall r q, Settled r (Sequence q) ∉ l) ->
  (forall k, sublist (line k s') (line k s)) ->
  (forall k, counter (keys_of k s) <= counter (keys_of k s'))%Z ->
  NoDup (omap settled_receipt l) ->
  (forall r, r ∈ omap settled_receipt l -> exists k, r ∈ line k s /\ r ∉ line k s') ->
  ordered s -> ordered s'.
Proof.
  intros He Hf Ho Hl Hline Hc Hnd Hleft [O1 O2 O3 O4 O5 O6 O7 O8].
  assert (Hn : forall e q, named s' e q -> named s e q).
  { intros e q [H1 H2]. split; [by rewrite <- He|]. rewrite Ho in H2.
    apply elem_of_app in H2 as [|H2]; [done|]. by destruct (Hl _ _ H2). }
  assert (Hin : forall k r, r ∈ line k s' -> r ∈ line k s) by (intros k r; by apply elem_of_sublist).
  assert (Hset : settled s' = settled s ++ omap settled_receipt l) by (unfold settled; by rewrite Ho, omap_app).
  split.
  - intros k. eapply StronglySorted_sublist; eauto.
  - intros k r Hr. rewrite He. eauto.
  - intros e. rewrite He. intros Hx. specialize (O3 e Hx). lia.
  - rewrite He. auto.
  - intros e q H. destruct (O5 e q (Hn e q H)) as [H1 H2]. split; [specialize (Hc (stream e)); lia | eauto].
  - intros e e' q q' H H'. apply O6; by apply Hn.
  - intros r. rewrite Hset, elem_of_app. intros [Hr|Hr].
    + destruct (O7 r Hr) as [H1 H2]. split; [lia|]. intros k Hk. eapply H2, Hin, Hk.
    + destruct (Hleft r Hr) as (k & Hk & Hk'). destruct (O2 k r Hk) as (e & E1 & E2 & E3).
      split; [specialize (O3 e E1); lia|]. intros k' Hr'. destruct (O2 k' r (Hin k' r Hr')) as (e' & E1' & E2' & E3').
      assert (e = e') as <- by (apply O4; congruence). congruence.
  - rewrite Hset. apply NoDup_app. split_and!; [done | | done].
    intros r Hr Hr'. destruct (Hleft r Hr') as (k & Hk & _). by apply (proj2 (O7 r Hr) k).
Qed.

(** A chunk that enters the line of its stream. *)
Lemma ordered_emit s s' k e g :
  emissions s' = emissions s ++ [Build_Emission (fresh s) k e g] -> fresh s < fresh s' ->
  outcomes s' = outcomes s -> line k s' = line k s ++ [fresh s] ->
  (forall k', k' <> k -> line k' s' = line k' s) ->
  (forall k', keys_of k' s' = keys_of k' s) ->
  ordered s -> ordered s'.
Proof.
  intros He Hf Ho Hk Hother Hkeys [O1 O2 O3 O4 O5 O6 O7 O8].
  set (e0 := Build_Emission (fresh s) k e g) in *.
  assert (Hlt : forall k' r, r ∈ line k' s -> r < fresh s).
  { intros k' r Hr. destruct (O2 k' r Hr) as (e' & E1 & <- & _). auto. }
  assert (Hmem : forall e', e' ∈ emissions s' -> e' ∈ emissions s \/ e' = e0)
    by (intros e'; rewrite He, elem_of_app, list_elem_of_singleton; done).
  assert (Hset : settled s' = settled s) by (unfold settled; by rewrite Ho).
  assert (Hn : forall e' q, named s' e' q -> named s e' q).
  { intros e' q [H1 H2]. rewrite Ho in H2. destruct (Hmem e' H1) as [H|H]; [by split|]. subst e'.
    assert (Hin : fresh s ∈ settled s).
    { unfold settled. apply list_elem_of_omap. by eexists. }
    destruct (O7 _ Hin) as [? _]. lia. }
  assert (Hline : forall k' r, r ∈ line k' s' -> r ∈ line k' s \/ (k' = k /\ r = fresh s)).
  { intros k' r. destruct (decide (k' = k)) as [->|Hne]; [|rewrite Hother by done; by left].
    rewrite Hk, elem_of_app, list_elem_of_singleton. intros [?|?]; [by left | by right]. }
  split.
  - intros k'. destruct (decide (k' = k)) as [->|Hne]; [|rewrite Hother by done; apply O1].
    rewrite Hk. specialize (Hlt k). revert Hlt. generalize (O1 k). generalize (line k s).
    induction 1 as [|x l Hl IH Hx]; intros Hlt; cbn; [repeat constructor|].
    constructor; [apply IH; intros r Hr; apply Hlt; by right|]. apply Forall_app. split; [done|].
    constructor; [apply Hlt; by left | constructor].
  - intros k' r Hr. rewrite He. destruct (Hline k' r Hr) as [Hr'|[-> ->]].
    + destruct (O2 k' r Hr') as (e' & E1 & E2 & E3). exists e'. split_and!; [|done..].
      apply elem_of_app. by left.
    + exists e0. split_and!; [|done..]. apply elem_of_app. right. by left.
  - intros e' H. destruct (Hmem e' H) as [H'|H']; [specialize (O3 e' H'); lia|]. subst e'. cbn. lia.
  - intros e1 e2 H1 H2 Heq. destruct (Hmem e1 H1) as [H1'|H1'], (Hmem e2 H2) as [H2'|H2']; [auto | | | congruence].
    + specialize (O3 e1 H1'). rewrite H2' in Heq. cbn in Heq. lia.
    + specialize (O3 e2 H2'). rewrite H1' in Heq. cbn in Heq. lia.
  - intros e' q H. pose proof (Hn e' q H) as H0. destruct (O5 e' q H0) as [H1 H2]. rewrite Hkeys.
    split; [done|]. intros r Hr. destruct (Hline _ r Hr) as [Hr'|[_ ->]]; [auto|]. apply O3, H0.
  - intros e1 e2 q q' H1 H2. apply O6; by apply Hn.
  - rewrite Hset. intros r Hr. destruct (O7 r Hr) as [H1 H2]. split; [lia|]. intros k' Hk'.
    destruct (Hline _ r Hk') as [Hr'|[_ ->]]; [by apply (H2 k')|]. lia.
  - by rewrite Hset.
Qed.

(** ** Answers *)

Lemma settled_continue cont reply :
  omap settled_receipt (continue cont reply) =
  match cont with ChunkReceipt r => [r] | BatchReceipts rs => rs | TerminalEnd _ => [] end.
Proof.
  destruct cont as [r|rs|c]; [done | | done]. cbn [continue]. revert reply. cut (forall f : nat -> Receipt,
    omap settled_receipt (imap (fun i r => Settled r (f i)) rs) = rs);
    [intros H reply; apply (H (fun i => receipt_of reply (Z.of_nat i)))|].
  induction rs as [|r rs IH]; intros f; [done|].
  rewrite imap_cons. cbn. f_equal. exact (IH (fun i => f (S i))).
Qed.

Lemma elem_of_continue cont reply r x :
  Settled r x ∈ continue cont reply <->
  exists i, match cont with ChunkReceipt r => [r] | BatchReceipts rs => rs | TerminalEnd _ => [] end !! i
            = Some r /\ x = receipt_of reply (Z.of_nat i).
Proof.
  destruct cont as [r'|rs|c]; cbn [continue].
  - rewrite list_elem_of_singleton. split.
    + intros [= -> ->]. by exists 0.
    + intros ([|i] & [= ->] & ->). done.
  - rewrite elem_of_lookup_imap. naive_solver.
  - rewrite list_elem_of_singleton. split; [done|]. by intros ([|] & [=] & _).
Qed.

Lemma sorted_lookup_lt l i j (x y : nat) :
  StronglySorted lt l -> l !! i = Some x -> l !! j = Some y -> (x < y <-> i < j).
Proof.
  intros Hs. revert i j. induction Hs as [|z l Hs IH Hz]; intros i j; [done|].
  rewrite Forall_forall in Hz. destruct i as [|i], j as [|j]; cbn.
  - intros [= ->] [= ->]. lia.
  - intros [= ->] Hy. apply list_elem_of_lookup_2, Hz in Hy. lia.
  - intros Hx [= ->]. apply list_elem_of_lookup_2, Hz in Hx. lia.
  - intros Hx Hy. rewrite (IH i j Hx Hy). lia.
Qed.

Lemma sorted_app_lt (l l' : list nat) x y :
  StronglySorted lt (l ++ l') -> x ∈ l -> y ∈ l' -> x < y.
Proof.
  induction l as [|z l IH]; [by intros _ ?%elem_of_nil|]. cbn.
  intros [Hs Hz]%StronglySorted_inv Hx Hy. rewrite Forall_forall in Hz.
  apply elem_of_cons in Hx as [->|Hx]; [|by apply IH]. apply Hz, elem_of_app. by right.
Qed.

Lemma sorted_NoDup (l : list nat) : StronglySorted lt l -> NoDup l.
Proof.
  induction 1 as [|x l Hl IH Hx]; constructor; [|done]. intros Hin. rewrite Forall_forall in Hx.
  specialize (Hx x Hin). lia.
Qed.

Section answer.
Variables (s s' : System) (c : Command) (cs : list Command) (reply : option Z).
Hypothesis Hconn : connection s = c :: cs.
Hypothesis Hconn' : connection s' = cs.
Hypothesis Hbatch : pendingBatches s' = pendingBatches s.
Hypothesis Hemit : emissions s' = emissions s.
Hypothesis Hfresh : fresh s' = fresh s.
Hypothesis Hout : outcomes s' = outcomes s ++ continue (continuation c) reply.
Hypothesis Hcounter : forall k, (counter (keys_of k s) <= counter (keys_of k s'))%Z.
Hypothesis Hnumber : forall z, reply = Some z -> z <> (-1)%Z ->
  z = counter (keys_of (streamId c) s) /\
  (z + Z.of_nat (length (receipts_of c)) <= counter (keys_of (streamId c) s'))%Z.

Lemma answer_line k :
  line k s = (if decide (streamId c = k) then receipts_of c else []) ++ line k s'.
Proof using Hconn Hconn' Hbatch.
  unfold line, waiting. rewrite Hconn, Hconn', Hbatch, app_assoc. f_equal.
Qed.

(** A receipt named now is an earlier one, or the answered command's. *)
Lemma answer_named e q :
  ordered s -> named s' e q ->
  named s e q \/
  exists i z, receipts_of c !! i = Some (receiptOf e) /\ stream e = streamId c /\ reply = Some z /\
    z <> (-1)%Z /\ q = (z + Z.of_nat i)%Z.
Proof using All.
  intros [O1 O2 O3 O4 O5 O6 O7 O8] [H1 H2]. rewrite Hemit in H1. rewrite Hout in H2.
  apply elem_of_app in H2 as [H2|H2]; [left; by split|]. right.
  apply elem_of_continue in H2 as (i & Hi & Hq). unfold receipt_of in Hq.
  destruct reply as [z|]; [|done]. case_decide as Hz; [done|]. injection Hq as ->. exists i, z.
  split_and!; [exact Hi | | done..].
  assert (Hin : receiptOf e ∈ line (streamId c) s).
  { rewrite answer_line, decide_True by done. apply elem_of_app. left. by eapply list_elem_of_lookup_2. }
  destruct (O2 _ _ Hin) as (e' & E1 & E2 & E3). by rewrite (O4 e e' H1 E1 (eq_sym E2)).
Qed.

Lemma ordered_answer : ordered s -> ordered s'.
Proof using All.
  intros Hs. pose proof Hs as [O1 O2 O3 O4 O5 O6 O7 O8].
  assert (Hsub : forall k, sublist (line k s') (line k s))
    by (intros k; rewrite answer_line; by apply sublist_inserts_l).
  assert (Hin : forall k r, r ∈ line k s' -> r ∈ line k s) by (intros k r; by apply elem_of_sublist).
  assert (Hc : forall r, r ∈ receipts_of c -> r ∈ line (streamId c) s /\ forall x, x ∈ line (streamId c) s' -> r < x).
  { intros r Hr. pose proof (answer_line (streamId c)) as Hl. rewrite decide_True in Hl by done.
    split; [rewrite Hl; apply elem_of_app; by left|]. intros x Hx.
    specialize (O1 (streamId c)). rewrite Hl in O1. by eapply sorted_app_lt. }
  assert (Hnd : NoDup (receipts_of c)).
  { pose proof (O1 (streamId c)) as H. rewrite answer_line, decide_True in H by done.
    by apply sorted_NoDup, NoDup_app in H as [? _]. }
  assert (Hset : settled s' = settled s ++ receipts_of c).
  { unfold settled. rewrite Hout, omap_app, settled_continue. done. }
  assert (Hgone : forall r k, r ∈ receipts_of c -> r ∉ line k s').
  { intros r k Hr Hk. destruct (Hc r Hr) as [Hl Hlt]. destruct (decide (k = streamId c)) as [->|Hne].
    - specialize (Hlt r Hk). lia.
    - destruct (O2 _ _ Hl) as (e & E1 & E2 & E3), (O2 _ _ (Hin _ _ Hk)) as (e' & E1' & E2' & E3').
      apply Hne. rewrite <- E3, <- E3'. f_equal. apply O4; congruence. }
  split.
  - intros k. eapply StronglySorted_sublist; eauto.
  - intros k r Hr. rewrite Hemit. eauto.
  - intros e. rewrite Hemit, Hfresh. auto.
  - rewrite Hemit. auto.
  - intros e q H. destruct (answer_named e q Hs H) as [H0|(i & z & Hi & Hst & Hr & Hz & ->)].
    + destruct (O5 e q H0) as [H1 H2]. split; [specialize (Hcounter (stream e)); lia | eauto].
    + destruct (Hnumber z Hr Hz) as [Hz1 Hz2]. apply lookup_lt_Some in Hi as Hlen. rewrite Hst.
      split; [lia|]. apply Hc. by eapply list_elem_of_lookup_2.
  - intros e e' q q' H H' Hst Hlt.
    destruct (answer_named e q Hs H) as [H0|(i & z & Hi & Hst1 & Hr & Hz & ->)],
             (answer_named e' q' Hs H') as [H0'|(j & z' & Hj & Hst2 & Hr' & Hz' & ->)].
    + eauto.
    + destruct (Hnumber z' Hr' Hz') as [Hz1 _]. destruct (O5 e q H0) as [Hq _].
      rewrite Hst, Hst2 in Hq. lia.
    + exfalso. destruct (O5 e' q' H0') as [_ Hq]. apply list_elem_of_lookup_2 in Hi.
      destruct (Hc _ Hi) as [Hl _]. rewrite <- Hst, Hst1 in Hq. specialize (Hq _ Hl). lia.
    + assert (z = z') as <- by congruence.
      pose proof (O1 (streamId c)) as Hsrt. rewrite answer_line, decide_True in Hsrt by done.
      pose proof (sorted_lookup_lt _ i j _ _ Hsrt (lookup_app_l_Some _ _ _ _ Hi)
                    (lookup_app_l_Some _ _ _ _ Hj)). lia.
  - intros r. rewrite Hset, elem_of_app. intros [Hr|Hr].
    + destruct (O7 r Hr) as [H1 H2]. split; [lia|]. intros k Hk. eapply H2, Hin, Hk.
    + destruct (Hc r Hr) as [Hl _]. destruct (O2 _ _ Hl) as (e & E1 & E2 & E3).
      split; [specialize (O3 e E1); lia|]. auto.
  - rewrite Hset. apply NoDup_app. split_and!; [done | | done].
    intros r Hr Hr'. destruct (Hc r Hr') as [Hl _]. by apply (proj2 (O7 r Hr) (streamId c)).
Qed.
End answer.

(** ** Operations *)

(** How many numbers a script asks for, and that it asks for one per receipt. *)
Definition asks (sc : Script) : Z :=
  match sc with PublishSeq a => PublishArgs.sequenceCount a | ReplacedDone _ _ _ _ => 1 end.

Record sized (s : System) : Prop := {
  sz_connection : forall c, c ∈ connection s -> (Z.of_nat (length (receipts_of c)) <= asks (script c))%Z;
  sz_batches : forall k b, mget (pendingBatches s) k = Some b -> length (resolvers b) = length (events b);
  sz_terminals : forall t, t ∈ terminals s -> (0 <= asks (terminalScript t))%Z
}.

Definition good (s : System) : Prop := ordered s /\ sized s.

Lemma ordered_same s s' :
  emissions s' = emissions s -> fresh s <= fresh s' -> outcomes s' = outcomes s ->
  (forall k, line k s' = line k s) ->
  (forall k, counter (keys_of k s) <= counter (keys_of k s'))%Z -> ordered s -> ordered s'.
Proof.
  intros He Hf Ho Hl Hc. apply (ordered_shrink s s' []); try done.
  - by rewrite app_nil_r.
  - intros r q. apply not_elem_of_nil.
  - intros k. by rewrite Hl.
  - constructor.
  - intros r Hr. by apply elem_of_nil in Hr.
Qed.

Lemma issue_line k k' sc cont s :
  queued_in k' (connection (issue k sc cont s).2) =
  queued_in k' (connection s) ++ (if decide (k = k') then receipts_of (Build_Command (fresh s) k sc cont) else []).
Proof. unfold issue. cbn [snd connection]. by rewrite queued_app, queued_one. Qed.

Lemma flush_line k k' s : line k' (flushCoalescedChunks k s).2 = line k' s.
Proof.
  unfold flushCoalescedChunks. destruct (mget (pendingBatches s) k) as [b|] eqn:E; [|done].
  unfold line, waiting, issue. cbn [snd connection pendingBatches].
  rewrite queued_app, queued_one, mget_mdel. cbn [streamId receipts_of continuation].
  case_decide as Hk; cbn.
  - subst k'. by rewrite E, app_nil_r.
  - by rewrite app_nil_r.
Qed.

Lemma flush_frame k s :
  emissions (flushCoalescedChunks k s).2 = emissions s /\
  fresh s <= fresh (flushCoalescedChunks k s).2 /\
  outcomes (flushCoalescedChunks k s).2 = outcomes s /\
  redis (flushCoalescedChunks k s).2 = redis s /\
  published (flushCoalescedChunks k s).2 = published s /\
  terminals (flushCoalescedChunks k s).2 = terminals s.
Proof.
  unfold flushCoalescedChunks. destruct (mget (pendingBatches s) k); [|done].
  unfold issue. cbn. split_and!; try done. lia.
Qed.

Lemma flush_good k s : good s -> good (flushCoalescedChunks k s).2.
Proof.
  intros [Ho Hz]. destruct (flush_frame k s) as (F1 & F2 & F3 & F4 & F5 & F6). split.
  - apply (ordered_same s); try done; [intros; apply flush_line|]. intros k'.
    unfold keys_of. by rewrite F4.
  - destruct Hz as [Z1 Z2 Z3]. unfold flushCoalescedChunks in *.
    destruct (mget (pendingBatches s) k) as [b|] eqn:E; [|by split].
    unfold issue in *. cbn in *. split; cbn.
    + intros c. rewrite elem_of_app, list_elem_of_singleton. intros [Hc| ->]; [auto|]. cbn.
      rewrite (Z2 k b E). lia.
    + intros k' b'. rewrite mget_mdel. case_decide; [done | eauto].
    + done.
Qed.

Lemma sized_emit s s' c :
  connection s' = connection s ++ option_list c ->
  (forall c0, c = Some c0 -> (Z.of_nat (length (receipts_of c0)) <= asks (script c0))%Z) ->
  (forall k b, mget (pendingBatches s') k = Some b -> length (resolvers b) = length (events b)) ->
  terminals s' = terminals s -> sized s -> sized s'.
Proof.
  intros Hc Hc0 Hb Ht [Z1 Z2 Z3]. split; [| done | by rewrite Ht].
  intros c'. rewrite Hc, elem_of_app. intros [H|H]; [auto|].
  destruct c as [c0|]; cbn in H; [|by apply elem_of_nil in H].
  apply list_elem_of_singleton in H. subst c'. by apply Hc0.
Qed.

Section steps.
Variable encoded_length : json -> nat.
Variable coalesceWindowMs : Z.

(** A chunk joins the batch of its stream. *)
Lemma join_good k e g b timer s :
  good s -> (mget (pendingBatches s) k = Some b \/ mget (pendingBatches s) k = None /\ resolvers b = [] /\ events b = []) ->
  forall bytes, good {| (new_receipt k e g s).2 with pendingBatches :=
    mset (pendingBatches s) k (PendingChunkBatch.mk (generationId b) (events b ++ [e])
      (resolvers b ++ [fresh s]) bytes timer) |}.
Proof.
  intros [Ho Hz] Hb bytes. split.
  - apply (ordered_emit s _ k e g); try done; [cbn; lia| |].
    + unfold line, waiting. cbn [connection pendingBatches]. rewrite mget_mset_eq. cbn.
      destruct Hb as [->|(-> & -> & _)]; cbn; by rewrite <- ?app_assoc, ?app_nil_r.
    + intros k' Hk. unfold line, waiting. cbn. by rewrite mget_mset_ne.
  - eapply (sized_emit s _ None); cbn; [by rewrite app_nil_r | done | | done | done].
    intros k' b'. rewrite mget_mset. case_decide; [|apply Hz]. intros [= <-]. cbn.
    rewrite !length_app. cbn. destruct Hb as [Hb|(_ & -> & ->)]; [|done].
    by rewrite (sz_batches s Hz k b Hb).
Qed.

Lemma enqueue_good k e g s :
  good s -> good (enqueueCoalescedChunk encoded_length k e g s).2.
Proof.
  intros Hs. unfold enqueueCoalescedChunk.
  set (s1 := match mget (pendingBatches s) k with Some b => _ | None => s end).
  assert (H1 : good s1).
  { subst s1. destruct (mget (pendingBatches s) k); [|done]. case_decide; [by apply flush_good | done]. }
  clearbody s1. set (b := default _ _). cbn [new_receipt].
  assert (Hb : mget (pendingBatches s1) k = Some b \/
               mget (pendingBatches s1) k = None /\ resolvers b = [] /\ events b = []).
  { subst b. destruct (mget (pendingBatches s1) k); [by left | by right]. }
  cbn [snd]. case_decide; cbn [timer generationId events resolvers].
  - apply flush_good. exact (join_good k e g b _ s1 H1 Hb _).
  - exact (join_good k e g b _ s1 H1 Hb _).
Qed.

Lemma publish_good k e g coalesce s :
  good s -> good (publishChunkWithReceipt encoded_length coalesceWindowMs k e g coalesce s).2.
Proof.
  intros Hs. unfold publishChunkWithReceipt. destruct (_ && _); [by apply enqueue_good|].
  pose proof (flush_good k s Hs) as [Ho Hz].
  assert (Hw : mget (pendingBatches (flushCoalescedChunks k s).2) k = None).
  { unfold flushCoalescedChunks. destruct (mget (pendingBatches s) k) eqn:E; [|done].
    unfold issue. cbn. apply mget_mdel_eq. }
  set (s1 := (flushCoalescedChunks k s).2) in *. clearbody s1. cbn [new_receipt snd]. unfold issue.
  cbn [snd]. split.
  - apply (ordered_emit s1 _ k e g); try done; [cbn; lia| |].
    + unfold line, waiting. cbn [connection pendingBatches]. rewrite Hw, queued_app, queued_one, !app_nil_r.
      cbn [streamId]. by rewrite decide_True.
    + intros k' Hk. unfold line, waiting. cbn [connection pendingBatches]. rewrite queued_app, queued_one.
      cbn [streamId]. by rewrite decide_False, app_nil_r.
  - eapply (sized_emit s1 _ (Some _)); cbn; [done | intros ? [= <-]; cbn; lia | | done | done].
    apply Hz.
Qed.

Lemma discard_good k s : good s -> good (discardCoalescedChunks k s).
Proof.
  intros [Ho Hz]. unfold discardCoalescedChunks.
  destruct (mget (pendingBatches s) k) as [b|] eqn:E; [|done].
  assert (Hrs : omap settled_receipt ((fun r => Settled r Unknown) <$> resolvers b) = resolvers b).
  { induction (resolvers b) as [|r rs IH]; [done|]. rewrite fmap_cons. cbn. by rewrite IH. }
  assert (Hlk : line k s = queued_in k (connection s) ++ resolvers b)
    by (unfold line, waiting; by rewrite E).
  split.
  - eapply (ordered_shrink s _ ((fun r => Settled r Unknown) <$> resolvers b)); try done.
    + intros r q Hr. by apply list_elem_of_fmap in Hr as (? & [=] & _).
    + intros k'. unfold line, waiting. cbn [connection pendingBatches]. rewrite mget_mdel. case_decide as Hk; [|done].
      rewrite app_nil_r. subst. by apply sublist_inserts_r.
    + rewrite Hrs. pose proof (or_line s Ho k) as H. rewrite Hlk in H.
      by apply sorted_NoDup, NoDup_app in H as (_ & _ & ?).
    + rewrite Hrs. intros r Hr. exists k. split; [rewrite Hlk; apply elem_of_app; by right|].
      unfold line, waiting. cbn [connection pendingBatches]. rewrite mget_mdel_eq, app_nil_r. intros Hq.
      pose proof (or_line s Ho k) as H. rewrite Hlk in H.
      pose proof (sorted_app_lt _ _ _ _ H Hq Hr). lia.
  - destruct Hz as [Z1 Z2 Z3]. split; cbn; [done | | done]. intros k' b'. rewrite mget_mdel.
    case_decide; [done | eauto].
Qed.

Lemma terminal_good k sc s : good s -> (0 <= asks sc)%Z -> good (begin_terminal k sc s).
Proof.
  intros Hs Hsc. unfold begin_terminal. pose proof (flush_good k s Hs) as [Ho Hz].
  destruct (flushCoalescedChunks k s) as [w s1]. cbn [snd] in *. split.
  - apply (ordered_same s1); try done. cbn. lia.
  - destruct Hz as [Z1 Z2 Z3]. split; cbn; [done..|]. intros t.
    rewrite elem_of_app, list_elem_of_singleton. intros [?| ->]; [auto | done].
Qed.

Lemma resume_good n s : good s -> good (resume_terminal n s).
Proof.
  intros [Ho Hz]. unfold resume_terminal. destruct (terminals s !! n) as [t|] eqn:E; [|done].
  destruct (flush_answered t s); [|done]. unfold issue. cbn [snd]. split.
  - apply (ordered_same s); try done; [cbn; lia|]. intros k. unfold line, waiting.
    cbn [connection pendingBatches]. rewrite queued_app, queued_one. cbn. case_decide; by rewrite app_nil_r.
  - destruct Hz as [Z1 Z2 Z3]. split; cbn; [|done|].
    + intros c. rewrite elem_of_app, list_elem_of_singleton. intros [?| ->]; [auto|]. cbn.
      apply Z3. by eapply list_elem_of_lookup_2.
    + intros t' Ht. apply Z3. eapply elem_of_sublist; [|exact Ht]. apply sublist_delete.
Qed.
(** ** The server *)

Definition message_of (sc : Script) : PubSubMessage.t :=
  match sc with PublishSeq a => PublishArgs.message a | ReplacedDone m _ _ _ => m end.

Lemma run_script_numbers sc ks : numbers (asks sc) (message_of sc) ks (run_script sc ks).
Proof. destruct sc; [apply PUBLISH_SEQ_numbers | apply PUBLISH_REPLACED_DONE_numbers]. Qed.

Lemma keys_of_serve k k' sc s :
  keys_of k' (serve k sc s).2 = if decide (k = k') then (run_script sc (keys_of k s)).1.2 else keys_of k' s.
Proof.
  unfold serve, keys_of. destruct (run_script sc _) as [[z ks] f]. cbn. rewrite mget_mset.
  by case_decide.
Qed.

(** The reply, and what it does to the counters. *)
Lemma serve_counter k sc s :
  (0 <= asks sc)%Z ->
  (forall k', counter (keys_of k' s) <= counter (keys_of k' (serve k sc s).2))%Z /\
  ((serve k sc s).1 <> (-1)%Z ->
   (serve k sc s).1 = counter (keys_of k s) /\
   (counter (keys_of k (serve k sc s).2) = counter (keys_of k s) + asks sc)%Z).
Proof.
  intros Hsc. pose proof (run_script_numbers sc (keys_of k s)) as Hn.
  assert (Hreply : (serve k sc s).1 = (run_script sc (keys_of k s)).1.1)
    by (unfold serve; by destruct (run_script sc _) as [[z ks] f]).
  rewrite Hreply, !keys_of_serve, (decide_True (P := k = k)) by done.
  destruct (run_script sc (keys_of k s)) as [[z ks] f] eqn:Hr. cbn in *. split.
  - intros k'. rewrite keys_of_serve, Hr. case_decide as Hk; [|done]. subst k'. cbn.
    destruct f as [f|]; [lia|]. destruct Hn as [_ Hn]. unfold counter. by rewrite Hn.
  - intros Hz. destruct f; [lia | tauto].
Qed.

Lemma serve_frame k sc s :
  let s' := (serve k sc s).2 in
  connection s' = connection s /\ pendingBatches s' = pendingBatches s /\
  terminals s' = terminals s /\ emissions s' = emissions s /\ fresh s' = fresh s /\
  outcomes s' = outcomes s.
Proof. unfold serve. by destruct (run_script sc _) as [[z ks] f]. Qed.

Lemma answer_good d s : good s -> good (answer d s).
Proof.
  intros [Ho Hz]. unfold answer. destruct (connection s) as [|c cs] eqn:Ec; [done|].
  set (s0 := {| s with connection := cs |}). destruct Hz as [Z1 Z2 Z3].
  assert (Hc : (Z.of_nat (length (receipts_of c)) <= asks (script c))%Z)
    by (apply Z1; rewrite Ec; by left).
  destruct (serve_counter (streamId c) (script c) s0) as [Hmono Hnum]; [lia|].
  destruct (serve_frame (streamId c) (script c) s0) as (F1 & F2 & F3 & F4 & F5 & F6).
  destruct (serve (streamId c) (script c) s0) as [z s1]. cbn [fst snd] in *.
  assert (Hs0 : sized s0) by (split; [intros c' H; apply Z1; rewrite Ec; by right | done | done]).
  split.
  - destruct d; eapply (ordered_answer s _ c cs); cbn [connection pendingBatches emissions fresh outcomes];
      rewrite ?F1, ?F2, ?F4, ?F5, ?F6; try done; try (intros k; exact (Hmono k)); try lia.
    intros z' [= <-] Hz'. destruct (Hnum Hz') as [Hz1 Hcount]. split; [exact Hz1|].
    unfold keys_of in *. subst s0. cbn [redis] in *. lia.
  - destruct Hs0 as [Y1 Y2 Y3]. destruct d; split; cbn [connection pendingBatches terminals];
      rewrite ?F1, ?F2, ?F3; done.
Qed.

(** ** Runs in which no counter expires *)

(** The server forgets a counter a day after its last use, or later; these are the runs in which it
    does not, and in which other replicas ask for no negative count. *)
Definition input_ok (i : Input) (s : System) : Prop :=
  match i with
  | Elsewhere _ sc => (0 <= asks sc)%Z
  | Ages n => forall k, counter (keys_of k s) = 0%Z \/ age n (sequence (keys_of k s)) <> None
  | _ => True
  end.
Fixpoint timely (inputs : list Input) (s : System) : Prop :=
  match inputs with
  | [] => True
  | i :: inputs => input_ok i s /\ timely inputs (step encoded_length coalesceWindowMs i s)
  end.

Lemma good_redis f s :
  good s -> (forall k, counter (keys_of k s) <= counter (default no_keys (mget f k)))%Z ->
  good {| s with redis := f |}.
Proof.
  intros [Ho [Z1 Z2 Z3]] Hf. split; [|by split]. by apply (ordered_same s).
Qed.

Lemma counter_age n ks :
  (counter ks = 0 \/ age n (sequence ks) <> None)%Z -> counter (age_keys n ks) = counter ks.
Proof.
  unfold counter, age_keys, age. cbn. destruct (sequence ks) as [[v [t|]]|]; cbn; [|done..].
  case_decide; cbn; [|done]. by intros [->|[]].
Qed.

Lemma discard_all_good ks s : good s -> good (foldl (fun s k => discardCoalescedChunks k s) s ks).
Proof. revert s. induction ks as [|k ks IH]; intros s Hs; [done|]. by apply IH, discard_good. Qed.

Lemma step_good i s :
  good s -> input_ok i s -> good (step encoded_length coalesceWindowMs i s).
Proof.
  intros Hs Hi. destruct i; cbn [step].
  - by apply publish_good.
  - unfold batch_timer. destruct (mget _ _) as [b|]; [|done]. destruct (timer b); [by apply flush_good | done].
  - by apply flush_good.
  - by apply discard_good.
  - by apply discard_all_good.
  - by apply terminal_good.
  - by apply terminal_good.
  - by apply terminal_good.
  - by apply resume_good.
  - by apply answer_good.
  - cbn in Hi. destruct (serve_counter k sc s Hi) as [Hmono _].
    destruct (serve_frame k sc s) as (F1 & F2 & F3 & F4 & F5 & F6).
    destruct Hs as [Ho [Z1 Z2 Z3]]. split.
    + apply (ordered_same s); rewrite ?F4, ?F5, ?F6; try done. intros k'. unfold line, waiting. by rewrite F1, F2.
    + split; by rewrite ?F1, ?F2, ?F3.
  - apply good_redis; [done|]. intros k'. unfold keys_of. rewrite mget_mset. case_decide; [|done]. by subst.
  - apply good_redis; [done|]. intros k'. unfold keys_of. rewrite mget_mset. case_decide; [|done]. by subst.
  - apply good_redis; [done|]. intros k. specialize (Hi k). unfold keys_of in *. rewrite mget_mmap.
    destruct (mget (redis s) k) as [ks|]; [|done].
    change (counter ks <= counter (age_keys n ks))%Z. by rewrite counter_age.
Qed.

Lemma new_good : good newSystem.
Proof.
  split.
  - split.
    + intros k. constructor.
    + intros k r Hr. by apply elem_of_nil in Hr.
    + intros e He. by apply elem_of_nil in He.
    + intros e e' He. by apply elem_of_nil in He.
    + intros e q [He _]. by apply elem_of_nil in He.
    + intros e e' q q' [He _]. by apply elem_of_nil in He.
    + intros r Hr. by apply elem_of_nil in Hr.
    + constructor.
  - split; [| done |]; intros x Hx; by apply elem_of_nil in Hx.
Qed.

Lemma run_good inputs s :
  timely inputs s -> good s -> good (run encoded_length coalesceWindowMs inputs s).
Proof.
  revert s. induction inputs as [|i inputs IH]; intros s Ht Hs; [done|]. destruct Ht as [Hi Ht].
  cbn [run]. apply IH; [done|]. by apply step_good.
Qed.
End steps.
