(* ===== verification/RedisPublication.v ===== *)
(** * What is published

    The frames of a stream carry consecutive numbers from zero on, whichever replica sent them; and
    a receipt that names a number names the frame of exactly its chunk. *)

From S2P Require Import Prelude JsMap Json RedisFrames RedisReceiver RedisReorder RedisWindow RedisScripts RedisPublisher RedisReceipts.
Import PendingChunkBatch.

(** The frames published on the channel of a stream, those of a batch one by one. *)
Definition frames_in (k : string) (l : list (string * PubSubMessage.t)) : list PubSubMessage.t :=
  concat ((fun p => if decide (p.1 = k) then expand p.2 else []) <$> l).
Definition frames (k : string) (s : System) : list PubSubMessage.t := frames_in k (published s).

Lemma frames_app k l l' : frames_in k (l ++ l') = frames_in k l ++ frames_in k l'.
Proof. unfold frames_in. by rewrite fmap_app, concat_app. Qed.

Lemma serve_frames k k' sc s :
  frames k' (serve k sc s).2 =
  frames k' s ++ (if decide (k = k') then from_option expand [] (run_script sc (keys_of k s)).2 else []).
Proof.
  unfold serve, frames. destruct (run_script sc (keys_of k s)) as [[z ks] f]. cbn [snd published].
  rewrite frames_app. f_equal. destruct f as [f|]; cbn.
  - unfold frames_in. cbn. by rewrite app_nil_r.
  - by case_decide.
Qed.

(** A frame that subscribers are called for, under its number. *)
Definition frame_at (q : Z) (f : PubSubMessage.t) : Prop := sequenced f /\ PubSubMessage.seq f = Some q.

Lemma batch_chunks_numbers g q es :
  Forall2 frame_at (seqZ q (Z.of_nat (length es))) (batch_chunks g q es).
Proof.
  revert q. induction es as [|e es IH]; intros q; [constructor|].
  rewrite seqZ_cons by (cbn; lia). cbn [batch_chunks length].
  replace (Z.pred (Z.of_nat (S (length es)))) with (Z.of_nat (length es)) by lia.
  replace (Z.succ q) with (q + 1)%Z by lia. constructor; [|apply IH]. split; [by left | done].
Qed.

(** ** Consecutive numbers *)

(** The messages that the transport numbers, and scripts that ask for as many numbers as their
    message carries events. *)
Definition publishable (m : PubSubMessage.t) : Prop :=
  sequenced m \/
  (PubSubMessage.type m = CHUNK_BATCH /\ is_Some (PubSubMessage.events m)).
Definition weight (m : PubSubMessage.t) : Z :=
  match PubSubMessage.type m, PubSubMessage.events m with
  | CHUNK_BATCH, Some es => Z.of_nat (length es)
  | _, _ => 1
  end.
Definition honest (sc : Script) : Prop := publishable (message_of sc) /\ asks sc = weight (message_of sc).

Lemma expand_numbers q m :
  publishable m -> Forall2 frame_at (seqZ q (weight m)) (expand (splice q m)).
Proof.
  intros [Hm|[Hty [es He]]]; unfold expand, splice, weight.
  - assert (Hone : seqZ q 1 = [q]) by (by rewrite seqZ_cons).
    unfold sequenced in Hm. destruct m as [ty]. cbn in Hm |- *.
    destruct ty; try (by destruct Hm as [|[|]]); cbn; rewrite Hone;
      (constructor; [|constructor]); by split.
  - rewrite Hty, He. cbn. rewrite ?Hty, ?He. apply batch_chunks_numbers.
Qed.

Lemma honest_eval m n g a b :
  publishable m -> weight m = Z.of_nat n -> honest (evalPublishSequenced m n g a b).
Proof. by intros H1 H2; split. Qed.

Record numbered_from_zero (s : System) : Prop := {
  nz_connection : forall c, c ∈ connection s -> honest (script c);
  nz_terminals : forall t, t ∈ terminals s -> honest (terminalScript t);
  nz_frames : forall k, Forall2 frame_at (seqZ 0 (counter (keys_of k s))) (frames k s);
  nz_counter : forall k, (0 <= counter (keys_of k s))%Z
}.

Lemma weight_nonneg m : (0 <= weight m)%Z.
Proof. unfold weight. destruct (PubSubMessage.type m), (PubSubMessage.events m); lia. Qed.

Lemma serve_numbered k sc s :
  honest sc -> numbered_from_zero s -> numbered_from_zero (serve k sc s).2.
Proof.
  intros [Hp Ha] [N1 N2 N3 N4]. destruct (serve_frame k sc s) as (F1 & _ & F3 & _).
  pose proof (run_script_numbers sc (keys_of k s)) as Hn.
  assert (Hk : forall k', Forall2 frame_at (seqZ 0 (counter (keys_of k' (serve k sc s).2)))
      (frames k' (serve k sc s).2) /\ (0 <= counter (keys_of k' (serve k sc s).2))%Z).
  { intros k'. rewrite serve_frames, keys_of_serve.
    destruct (run_script sc (keys_of k s)) as [[z ks] f]. cbn [fst snd] in *.
    case_decide as Hd; [subst k' | by rewrite app_nil_r].
    destruct f as [f|]; cbn in Hn |- *.
    - destruct Hn as (Hz & Hc & ->). rewrite Hc, Ha, Hz.
      pose proof (weight_nonneg (message_of sc)). pose proof (N4 k).
      split; [|lia]. rewrite seqZ_app by lia. apply Forall2_app; [apply N3 | by apply expand_numbers].
    - destruct Hn as [_ Hs]. unfold counter. rewrite Hs, app_nil_r. split; [apply N3 | apply N4]. }
  split; [by rewrite F1 | by rewrite F3 | apply Hk | apply Hk].
Qed.

Lemma numbered_same s s' :
  (forall c, c ∈ connection s' -> c ∈ connection s \/ honest (script c)) ->
  (forall t, t ∈ terminals s' -> t ∈ terminals s \/ honest (terminalScript t)) ->
  published s' = published s -> (forall k, counter (keys_of k s') = counter (keys_of k s)) ->
  numbered_from_zero s -> numbered_from_zero s'.
Proof.
  intros Hc Ht Hp Hk [N1 N2 N3 N4]. unfold frames in *. split.
  - intros c H. destruct (Hc c H); auto.
  - intros t H. destruct (Ht t H); auto.
  - intros k. unfold frames. by rewrite Hp, Hk.
  - intros k. by rewrite Hk.
Qed.

Lemma issue_connection k sc cont s c :
  c ∈ connection (issue k sc cont s).2 -> c ∈ connection s \/ script c = sc.
Proof.
  unfold issue. cbn. rewrite elem_of_app, list_elem_of_singleton. intros [?| ->]; [by left | by right].
Qed.

Lemma flush_numbered k s : numbered_from_zero s -> numbered_from_zero (flushCoalescedChunks k s).2.
Proof.
  destruct (flush_frame k s) as (_ & _ & _ & F4 & F5 & F6). apply numbered_same.
  - intros c. unfold flushCoalescedChunks. destruct (mget (pendingBatches s) k) as [b|]; [|by left].
    unfold issue. cbn. rewrite elem_of_app, list_elem_of_singleton. intros [?| ->]; [by left | right].
    cbn. apply honest_eval; [right; split; [done | by eexists] | done].
  - intros t. rewrite F6. by left.
  - done.
  - intros k'. unfold keys_of. by rewrite F4.
Qed.

Section steps.
Variable encoded_length : json -> nat.
Variable coalesceWindowMs : Z.

Lemma publish_numbered k e g coalesce s :
  numbered_from_zero s ->
  numbered_from_zero (publishChunkWithReceipt encoded_length coalesceWindowMs k e g coalesce s).2.
Proof.
  intros Hs. unfold publishChunkWithReceipt. destruct (_ && _).
  - unfold enqueueCoalescedChunk. set (s1 := match mget (pendingBatches s) k with Some _ => _ | None => s end).
    assert (H1 : numbered_from_zero s1).
    { subst s1. destruct (mget _ _); [|done]. case_decide; [by apply flush_numbered | done]. }
    clearbody s1. cbn [new_receipt snd].
    case_decide; [apply flush_numbered|]; revert H1; apply numbered_same; try done; by left.
  - pose proof (flush_numbered k s Hs) as H1. set (s1 := (flushCoalescedChunks k s).2) in *. clearbody s1.
    cbn [new_receipt snd]. revert H1. apply numbered_same; try done; [|by left].
    intros c [H|H]%issue_connection; [by left | right]. rewrite H.
    apply honest_eval; [left; by left | done].
Qed.

Lemma terminal_numbered k sc s :
  honest sc -> numbered_from_zero s -> numbered_from_zero (begin_terminal k sc s).
Proof.
  intros Hsc Hs. unfold begin_terminal. pose proof (flush_numbered k s Hs) as H1.
  destruct (flushCoalescedChunks k s) as [w s1]. cbn [snd] in H1. revert H1.
  apply numbered_same; try done; [by left|]. intros t. cbn. rewrite elem_of_app, list_elem_of_singleton.
  intros [?| ->]; [by left | by right].
Qed.

Lemma discard_numbered k s : numbered_from_zero s -> numbered_from_zero (discardCoalescedChunks k s).
Proof.
  unfold discardCoalescedChunks. destruct (mget _ _); [|done]. apply numbered_same; try done; by left.
Qed.

(** What other replicas run are the same scripts. *)
Definition honest_input (i : Input) : Prop :=
  match i with Elsewhere _ sc => honest sc | _ => True end.

Lemma step_numbered i s :
  numbered_from_zero s -> input_ok i s -> honest_input i ->
  numbered_from_zero (step encoded_length coalesceWindowMs i s).
Proof.
  intros Hs Hi Hh. destruct i; cbn [step].
  - by apply publish_numbered.
  - unfold batch_timer. destruct (mget _ _) as [b|]; [|done].
    destruct (timer b); [by apply flush_numbered | done].
  - by apply flush_numbered.
  - by apply discard_numbered.
  - unfold discardAll. generalize (mkeys (pendingBatches s)) as ks. intros ks. clear Hi. revert s Hs.
    induction ks as [|k ks IH]; intros s Hs; [done|]. by apply IH, discard_numbered.
  - apply terminal_numbered; [|done]. apply honest_eval; [left; right; by left | done].
  - apply terminal_numbered; [|done]. apply honest_eval; [left; right; by right | done].
  - apply terminal_numbered; [|done]. split; [left; right; by left | done].
  - unfold resume_terminal. destruct (terminals s !! n) as [t|] eqn:E; [|done].
    destruct (flush_answered t s); [|done]. pose proof (nz_terminals s Hs t (list_elem_of_lookup_2 _ _ _ E)) as Ht.
    revert Hs. apply numbered_same; try done.
    + intros c [H|H]%issue_connection; [by left | right]. by rewrite H.
    + intros t' H. left. eapply elem_of_sublist; [apply sublist_delete | exact H].
  - unfold answer. destruct (connection s) as [|c cs] eqn:Ec; [done|].
    set (s0 := {| s with connection := cs |}).
    assert (H0 : numbered_from_zero s0)
      by (revert Hs; apply numbered_same; try done; [intros c'; rewrite Ec; by left; right | by left]).
    assert (H1 : numbered_from_zero (serve (streamId c) (script c) s0).2).
    { apply serve_numbered; [|done]. apply (nz_connection s Hs). rewrite Ec. by left. }
    destruct (serve _ _ s0) as [z s1]. cbn [snd] in H1.
    destruct d; [revert H1 | revert H0 | revert H1]; apply numbered_same; try done; by left.
  - by apply serve_numbered.
  - revert Hs. apply numbered_same; try done; [by left | by left |]. intros k'. unfold keys_of. cbn.
    rewrite mget_mset. case_decide; [|done]. by subst.
  - revert Hs. apply numbered_same; try done; [by left | by left |]. intros k'. unfold keys_of. cbn.
    rewrite mget_mset. case_decide; [|done]. by subst.
  - revert Hs. apply numbered_same; try done; [by left | by left |]. intros k.
    specialize (Hi k). unfold keys_of in *. cbn [redis]. rewrite mget_mmap.
    destruct (mget (redis s) k) as [ks|]; [|done]. by apply counter_age.
Qed.

Lemma run_numbered inputs s :
  timely encoded_length coalesceWindowMs inputs s -> Forall honest_input inputs ->
  numbered_from_zero s -> numbered_from_zero (run encoded_length coalesceWindowMs inputs s).
Proof.
  intros Ht Hh. revert s Ht. induction Hh as [|i inputs Hi _ IH]; intros s Ht Hs; [done|].
  destruct Ht as [Ht Hts]. cbn [run]. apply IH; [done|]. by apply step_numbered.
Qed.

Lemma new_numbered : numbered_from_zero newSystem.
Proof. split; [| | constructor | done]; intros x Hx; by apply elem_of_nil in Hx. Qed.
End steps.

(** ** Receipts name the frames of their chunks

    The batch or command that holds a receipt holds the chunk it was returned for, at the same
    position; so the number that the receipt names is the number of that chunk's frame. *)

(** The frame of a chunk under a number. *)
Definition frame_of (e : Emission) (q : Z) : PubSubMessage.t := chunk_at (generation e) q (event e).

(** The receipts [rs] were returned for the chunks [es] of stream [k]. *)
Definition match_up (l : list Emission) (k : string) (g : option Z) (rs : list nat) (es : list json) : Prop :=
  Forall2 (fun r e => Build_Emission r k e g ∈ l) rs es.

Definition carries (l : list Emission) (c : Command) : Prop :=
  match continuation c with
  | ChunkReceipt r => exists e g b, script c = evalPublishSequenced (chunk_message e g) 1 g false b /\
      Build_Emission r (streamId c) e g ∈ l
  | BatchReceipts rs => exists es g b,
      script c = evalPublishSequenced (batch_message es g) (length es) g false b /\
      match_up l (streamId c) g rs es
  | TerminalEnd _ => True
  end.

Record exact (s : System) : Prop := {
  ex_batches : forall k b, mget (pendingBatches s) k = Some b ->
    match_up (emissions s) k (generationId b) (resolvers b) (events b);
  ex_connection : forall c, c ∈ connection s -> carries (emissions s) c;
  ex_named : forall e q, named s e q -> frame_of e q ∈ frames (stream e) s
}.

Lemma match_up_mono l l' k g rs es : l ⊆ l' -> match_up l k g rs es -> match_up l' k g rs es.
Proof. intros Hl H. eapply Forall2_impl; [exact H|]. intros r e. apply Hl. Qed.
Lemma carries_mono l l' c : l ⊆ l' -> carries l c -> carries l' c.
Proof.
  intros Hl. unfold carries. destruct (continuation c); [| |done].
  - intros (e & g & b & H1 & H2). exists e, g, b. auto.
  - intros (es & g & b & H1 & H2). exists es, g, b. split; [done | by eapply match_up_mono].
Qed.

(** Steps that name no number. *)
Lemma exact_quiet s s' l :
  emissions s ⊆ emissions s' -> outcomes s' = outcomes s ++ l ->
  (forall r q, Settled r (Sequence q) ∉ l) ->
  (forall r q, Settled r (Sequence q) ∈ outcomes s -> r < fresh s) ->
  (forall e, e ∈ emissions s' -> e ∈ emissions s \/ receiptOf e = fresh s) ->
  (forall k, frames k s ⊆ frames k s') ->
  (forall k b, mget (pendingBatches s') k = Some b ->
     mget (pendingBatches s) k = Some b \/
     match_up (emissions s') k (generationId b) (resolvers b) (events b)) ->
  (forall c, c ∈ connection s' -> c ∈ connection s \/ carries (emissions s') c) ->
  exact s -> exact s'.
Proof.
  intros He Ho Hl Hfresh Hnew Hf Hb Hc [E1 E2 E3]. split.
  - intros k b H. destruct (Hb k b H) as [H'|H']; [|done]. eapply match_up_mono; eauto.
  - intros c H. destruct (Hc c H) as [H'|H']; [|done]. eapply carries_mono; eauto.
  - intros e q [H1 H2]. rewrite Ho in H2. apply elem_of_app in H2 as [H2|H2]; [|by destruct (Hl _ _ H2)].
    destruct (Hnew e H1) as [H1'|H1']; [apply Hf, E3; by split|].
    specialize (Hfresh _ _ H2). lia.
Qed.

Lemma settled_fresh s r q : ordered s -> Settled r (Sequence q) ∈ outcomes s -> r < fresh s.
Proof.
  intros Ho Hr. destruct (or_settled s Ho r) as [H _]; [|done].
  unfold settled. apply list_elem_of_omap. by eexists.
Qed.

(** Steps that touch neither receipts nor outcomes. *)
Lemma exact_same s s' :
  good s -> emissions s' = emissions s -> outcomes s' = outcomes s ->
  (forall k, frames k s ⊆ frames k s') ->
  (forall k b, mget (pendingBatches s') k = Some b -> mget (pendingBatches s) k = Some b) ->
  (forall c, c ∈ connection s' -> c ∈ connection s \/ carries (emissions s') c) ->
  exact s -> exact s'.
Proof.
  intros [Ho _] He Hout Hf Hb Hc. apply (exact_quiet s s' []); try done.
  - by rewrite He.
  - by rewrite app_nil_r.
  - intros r q. apply not_elem_of_nil.
  - intros r q. by apply settled_fresh.
  - intros e. rewrite He. by left.
  - intros k b H. left. by apply Hb.
Qed.

Lemma flush_exact k s : good s -> exact s -> exact (flushCoalescedChunks k s).2.
Proof.
  intros Hg Hs. destruct (flush_frame k s) as (F1 & _ & F3 & _ & F5 & _).
  apply (exact_same s); try done; [by intros k'; unfold frames; rewrite F5 | |].
  - intros k' b'. unfold flushCoalescedChunks. destruct (mget (pendingBatches s) k); [|done].
    unfold issue. cbn. rewrite mget_mdel. by case_decide.
  - intros c. rewrite F1. unfold flushCoalescedChunks.
    destruct (mget (pendingBatches s) k) as [b|] eqn:E; [|by left].
    unfold issue. cbn. rewrite elem_of_app, list_elem_of_singleton. intros [?| ->]; [by left|]. right.
    exists (events b), (generationId b), (is_some (generationId b)). split; [done|].
    by apply (ex_batches s Hs).
Qed.

Section steps.
Variable encoded_length : json -> nat.
Variable coalesceWindowMs : Z.

Lemma emit_exact s s' k e g :
  good s -> emissions s' = emissions s ++ [Build_Emission (fresh s) k e g] ->
  outcomes s' = outcomes s -> published s' = published s ->
  (forall k b, mget (pendingBatches s') k = Some b ->
     mget (pendingBatches s) k = Some b \/
     match_up (emissions s') k (generationId b) (resolvers b) (events b)) ->
  (forall c, c ∈ connection s' -> c ∈ connection s \/ carries (emissions s') c) ->
  exact s -> exact s'.
Proof.
  intros [Ho _] He Hout Hp. intros Hb Hc. apply (exact_quiet s s' []); try done.
  - rewrite He. by apply list_subseteq_app_l.
  - by rewrite app_nil_r.
  - intros r q. apply not_elem_of_nil.
  - intros r q. by apply settled_fresh.
  - intros x. rewrite He, elem_of_app, list_elem_of_singleton. intros [?| ->]; [by left | by right].
  - intros k'. unfold frames. by rewrite Hp.
Qed.

Lemma join_exact k e g b timer bytes s :
  good s -> exact s -> generationId b = g ->
  (mget (pendingBatches s) k = Some b \/ mget (pendingBatches s) k = None /\ resolvers b = [] /\ events b = []) ->
  exact {| (new_receipt k e g s).2 with pendingBatches :=
    mset (pendingBatches s) k (PendingChunkBatch.mk (generationId b) (events b ++ [e])
      (resolvers b ++ [fresh s]) bytes timer) |}.
Proof.
  intros Hg Hs Hgen Hb. apply (emit_exact s _ k e g); try done; [|by left]. intros k' b'. cbn.
  rewrite mget_mset. case_decide; [|by left]. intros [= <-]. right. subst k'. cbn. rewrite Hgen.
  apply Forall2_app.
  - assert (H : match_up (emissions s) k g (resolvers b) (events b)).
    { destruct Hb as [Hb|(_ & -> & ->)]; [|constructor]. rewrite <- Hgen. by apply (ex_batches s Hs). }
    eapply match_up_mono; [|exact H]. by apply list_subseteq_app_l.
  - constructor; [|constructor]. apply elem_of_app. right. by left.
Qed.

Lemma publish_exact k e g coalesce s :
  good s -> exact s ->
  exact (publishChunkWithReceipt encoded_length coalesceWindowMs k e g coalesce s).2.
Proof.
  intros Hg Hs. unfold publishChunkWithReceipt. destruct (_ && _).
  - unfold enqueueCoalescedChunk. set (s1 := match mget (pendingBatches s) k with Some _ => _ | None => s end).
    assert (H1 : good s1 /\ exact s1 /\
      (forall b, mget (pendingBatches s1) k = Some b -> generationId b = g)).
    { subst s1. destruct (mget (pendingBatches s) k) as [b|] eqn:E; [|split_and!; [done..|by rewrite E]].
      case_decide as Hd.
      - split_and!; [by apply flush_good | by apply flush_exact |]. intros b'.
        unfold flushCoalescedChunks. rewrite E. unfold issue. cbn. by rewrite mget_mdel_eq.
      - split_and!; [done..|]. rewrite E. intros b' [= <-].
        destruct (decide (generationId b = g)); done. }
    clearbody s1. destruct H1 as (H1 & H2 & Hgen). set (b := default _ _). cbn [new_receipt snd].
    assert (Hb : mget (pendingBatches s1) k = Some b \/
                 mget (pendingBatches s1) k = None /\ resolvers b = [] /\ events b = []).
    { subst b. destruct (mget (pendingBatches s1) k); [by left | by right]. }
    assert (Hbg : generationId b = g).
    { subst b. destruct (mget (pendingBatches s1) k); [by apply Hgen | done]. }
    case_decide; cbn [timer generationId events resolvers].
    + apply flush_exact; [exact (join_good k e g b _ s1 H1 Hb _)|].
      exact (join_exact k e g b _ _ s1 H1 H2 Hbg Hb).
    + exact (join_exact k e g b _ _ s1 H1 H2 Hbg Hb).
  - pose proof (flush_good k s Hg) as H1. pose proof (flush_exact k s Hg Hs) as H2.
    set (s1 := (flushCoalescedChunks k s).2) in *. clearbody s1. cbn [new_receipt snd].
    apply (emit_exact s1 _ k e g); try done; [by left|].
    unfold issue. cbn [snd connection]. intros c. rewrite elem_of_app, list_elem_of_singleton.
    intros [?| ->]; [by left | right]. exists e, g, (is_some g). split; [done|].
    cbn. apply elem_of_app. right. by left.
Qed.

Lemma terminal_exact k sc s : good s -> exact s -> exact (begin_terminal k sc s).
Proof.
  intros Hg Hs. unfold begin_terminal. pose proof (flush_good k s Hg) as H1.
  pose proof (flush_exact k s Hg Hs) as H2. destruct (flushCoalescedChunks k s) as [w s1]. cbn [snd] in *.
  apply (exact_same s1); try done. by left.
Qed.

Lemma discard_exact k s : good s -> exact s -> exact (discardCoalescedChunks k s).
Proof.
  intros Hg Hs. unfold discardCoalescedChunks. destruct (mget (pendingBatches s) k) as [b|] eqn:E; [|done].
  eapply (exact_quiet s); try done.
  - intros r q Hr. by apply list_elem_of_fmap in Hr as (? & [=] & _).
  - intros r q. apply settled_fresh, Hg.
  - by left.
  - intros k' b'. cbn. rewrite mget_mdel. case_decide; [done | by left].
  - by left.
Qed.

(** ** Answers *)

Lemma batch_chunks_lookup g q es i e :
  es !! i = Some e -> chunk_at g (q + Z.of_nat i) e ∈ batch_chunks g q es.
Proof.
  revert q i. induction es as [|x es IH]; intros q i; [done|]. destruct i as [|i]; cbn [lookup list_lookup batch_chunks].
  - intros [= ->]. rewrite Z.add_0_r. by left.
  - intros Hi. right. replace (q + Z.of_nat (S i))%Z with (q + 1 + Z.of_nat i)%Z by lia. by apply IH.
Qed.

(** A number named by an answer is that of the frame just published. *)
Lemma answered_frame s c z ks i r :
  carries (emissions s) c -> (run_script (script c) ks).1.1 = z ->
  z <> (-1)%Z -> receipts_of c !! i = Some r ->
  exists e, e ∈ emissions s /\ receiptOf e = r /\ stream e = streamId c /\
    frame_of e (z + Z.of_nat i) ∈ from_option expand [] (run_script (script c) ks).2.
Proof.
  intros Hc Hr Hz Hi. pose proof (run_script_numbers (script c) ks) as Hn.
  assert (Hm : (run_script (script c) ks).2 = Some (splice z (message_of (script c)))).
  { destruct (run_script (script c) ks) as [[z' f] [m|]]; cbn in *; [|by destruct Hn; subst].
    destruct Hn as (-> & _ & ->). by subst z. }
  rewrite Hm. cbn [from_option]. unfold carries, receipts_of in *.
  destruct (continuation c) as [r'|rs|]; [| |done].
  - destruct Hc as (e & g & b & -> & He). destruct i as [|i]; [|done]. injection Hi as ->.
    eexists. split; [exact He|]. split_and!; [done..|]. cbn. rewrite Z.add_0_r. by left.
  - destruct Hc as (es & g & b & -> & Hmu).
    destruct (Forall2_lookup_l _ _ _ _ _ Hmu Hi) as (e & He & Hem).
    eexists. split; [exact Hem|]. split_and!; [done..|]. by apply batch_chunks_lookup.
Qed.

Lemma answer_exact d s : good s -> exact s -> exact (answer d s).
Proof.
  intros Hg Hs. pose proof Hg as [Ho Hz]. unfold answer.
  destruct (connection s) as [|c cs] eqn:Ec; [done|]. set (s0 := {| s with connection := cs |}).
  assert (Hcar : carries (emissions s) c) by (apply (ex_connection s Hs); rewrite Ec; by left).
  assert (Hcs : forall c', c' ∈ cs -> c' ∈ connection s) by (intros c' H; rewrite Ec; by right).
  pose proof (serve_frames (streamId c)) as Hsf.
  destruct (serve_frame (streamId c) (script c) s0) as (F1 & F2 & F3 & F4 & F5 & F6).
  assert (Hmono : forall k, frames k s ⊆ frames k (serve (streamId c) (script c) s0).2)
    by (intros k; rewrite serve_frames; by apply list_subseteq_app_l).
  assert (Hlost : forall r q, Settled r (Sequence q) ∉ continue (continuation c) None)
    by (intros r q (i & _ & H)%elem_of_continue; done).
  destruct (serve (streamId c) (script c) s0) as [z s1] eqn:Esv. cbn [snd] in *.
  assert (Hq : forall l, (forall r q, Settled r (Sequence q) ∉ l) -> forall s', s' = s0 \/ s' = s1 ->
    exact {| s' with outcomes := outcomes s' ++ l |}).
  { intros l Hl s' Hs'. eapply (exact_quiet s); [| |exact Hl|..|exact Hs]; destruct Hs' as [-> | ->];
      cbn [emissions outcomes pendingBatches connection]; rewrite ?F1, ?F2, ?F4, ?F6; try done;
      try (by left); try (intros r q; by apply settled_fresh); try (intros; left; auto). }
  destruct d; [| by apply Hq; [|left] | by apply Hq; [|right]].
  destruct (decide (z = -1)%Z) as [Hz1|Hz1].
  { apply Hq; [|by right]. intros r q (i & _ & H)%elem_of_continue. unfold receipt_of in H.
    by rewrite decide_True in H. }
  split; cbn [emissions outcomes pendingBatches connection]; rewrite ?F1, ?F2, ?F4, ?F6.
  - apply (ex_batches s Hs).
  - intros c' Hc'. by apply (ex_connection s Hs), Hcs.
  - intros e q [H1 H2]. cbn [emissions outcomes] in H1, H2. rewrite ?F4 in H1. rewrite ?F6 in H2.
    apply elem_of_app in H2 as [H2|H2]; [apply Hmono, (ex_named s Hs); by split|].
    apply elem_of_continue in H2 as (i & Hi & Hx). unfold receipt_of in Hx.
    rewrite decide_False in Hx by done. injection Hx as ->.
    unfold serve in Esv. destruct (run_script (script c) (keys_of (streamId c) s0)) as [[z' ks'] f'] eqn:Er.
    injection Esv as -> Hs1.
    destruct (answered_frame s c z (keys_of (streamId c) s0) i (receiptOf e) Hcar) as (e' & E1 & E2 & E3 & E4);
      [by rewrite Er | done | done |].
    assert (e = e') as <- by (apply (or_unique s Ho); [done | done | by rewrite E2]).
    unfold frames. cbn [published]. rewrite <- Hs1. cbn [published].
    rewrite frames_app, elem_of_app. right. rewrite Er in E4. cbn in E4.
    destruct f' as [f|]; [|by apply elem_of_nil in E4]. cbn in E4. unfold frames_in. cbn.
    rewrite E3, app_nil_r. by rewrite decide_True.
Qed.

Lemma step_exact i s :
  good s -> exact s -> exact (step encoded_length coalesceWindowMs i s).
Proof.
  intros Hg Hs. destruct i; cbn [step].
  - by apply publish_exact.
  - unfold batch_timer. destruct (mget _ _) as [b|]; [|done]. destruct (timer b); [by apply flush_exact | done].
  - by apply flush_exact.
  - by apply discard_exact.
  - unfold discardAll. generalize (mkeys (pendingBatches s)) as ks. intros ks. revert s Hg Hs.
    induction ks as [|k ks IH]; intros s Hg Hs; [done|].
    apply IH; [by apply discard_good | by apply discard_exact].
  - by apply terminal_exact.
  - by apply terminal_exact.
  - by apply terminal_exact.
  - unfold resume_terminal. destruct (terminals s !! n) as [t|] eqn:E; [|done].
    destruct (flush_answered t s); [|done]. apply (exact_same s); try done.
    unfold issue. cbn [snd connection]. intros c. rewrite elem_of_app, list_elem_of_singleton.
    intros [?| ->]; [by left | by right].
  - by apply answer_exact.
  - destruct (serve_frame k sc s) as (F1 & F2 & F3 & F4 & F5 & F6).
    apply (exact_same s); try done.
    + intros k'. rewrite serve_frames. by apply list_subseteq_app_l.
    + intros k' b. by rewrite F2.
    + intros c. rewrite F1. by left.
  - apply (exact_same s); try done. by left.
  - apply (exact_same s); try done. by left.
  - apply (exact_same s); try done. by left.
Qed.

Lemma run_exact inputs s :
  timely encoded_length coalesceWindowMs inputs s -> good s -> exact s ->
  exact (run encoded_length coalesceWindowMs inputs s).
Proof.
  revert s. induction inputs as [|i inputs IH]; intros s Ht Hg Hs; [done|]. destruct Ht as [Hi Ht].
  cbn [run]. apply IH; [done | by apply step_good | by apply step_exact].
Qed.

Lemma new_exact : exact newSystem.
Proof. split; [done | |]; [intros c Hc; by apply elem_of_nil in Hc|]. intros e q [He _]. by apply elem_of_nil in He. Qed.
End steps.
