(* ===== verification/RedisDelivery.v ===== *)
(** * What the Redis event transport promises

    The theorems about publishing, and about both halves together: what a generation emits reaches
    the subscribers of every replica in the order of emission. *)

From stdpp Require Import pretty gmap.
From S2P Require Import Prelude JsMap Json RedisFrames RedisReceiver RedisReorder RedisOrder RedisRuns RedisWindow RedisResume RedisScripts RedisPublisher RedisReceipts RedisPublication.

(** ** Fences *)

(** Who may publish: the caller named no generation, or the job is that generation's, or there is no
    job, the caller is a terminal event, and the marker is its own or free. *)
Definition may_publish (a : PublishArgs.t) (ks : StreamKeys) : Prop :=
  PublishArgs.expectCreatedAt a = "" \/
  HGET JobHash.createdAt ks = Some (PublishArgs.expectCreatedAt a) \/
  (job ks = None /\ PublishArgs.allowRetainedEpoch a = true /\
   default (PublishArgs.expectCreatedAt a) (Key.value <$> generationEpoch ks) = PublishArgs.expectCreatedAt a).
Definition job_active (a : PublishArgs.t) (ks : StreamKeys) : Prop :=
  PublishArgs.requireActiveJob a = false \/
  HGET JobHash.status ks = Some "running" \/ HGET JobHash.status ks = Some "requires_action".

Lemma guard_passes a ks : (generation_guard a ks).1 = true <-> may_publish a ks.
Proof.
  unfold generation_guard, may_publish.
  destruct (decide (PublishArgs.expectCreatedAt a = "")) as [He|He].
  { rewrite decide_False by tauto. cbn. tauto. }
  destruct (decide (HGET JobHash.createdAt ks = Some (PublishArgs.expectCreatedAt a))) as [Hc|Hc].
  { rewrite decide_False by tauto. cbn. tauto. }
  rewrite decide_True by done. case_decide as Hj; cbn.
  - split; [done|]. intros [?|[?|(H1 & H2 & _)]]; [done..|]. destruct Hj as [Hj|Hj]; [|congruence].
    rewrite H1 in Hj. by destruct Hj.
  - assert (Hnone : job ks = None) by (destruct (job ks); [destruct Hj; by left; eexists | done]).
    assert (Ha : PublishArgs.allowRetainedEpoch a = true)
      by (destruct (PublishArgs.allowRetainedEpoch a); [done | destruct Hj; by right]).
    rewrite bool_decide_eq_true. destruct (generationEpoch ks) as [[v t]|] eqn:Ee; cbn; rewrite ?Ee; cbn; [|tauto].
    split; [intros [= ->]; tauto|]. intros [?|[?|(_ & _ & H)]]; [done | done | by rewrite H].
Qed.

Lemma guard_status a ks :
  status_guard a (generation_guard a ks).2 = true <-> job_active a ks.
Proof.
  unfold status_guard, job_active, HGET. rewrite guard_job.
  rewrite orb_true_iff, negb_true_iff, bool_decide_eq_true. done.
Qed.

(** A frame of a generation is numbered and published exactly when the generation still owns the
    stream and, for a chunk, its job is active; a refused frame takes no number. *)
Theorem published_only_by_the_owner (a : PublishArgs.t) (ks : StreamKeys) :
  (is_Some (PUBLISH_SEQ a ks).2 <-> may_publish a ks /\ job_active a ks) /\
  ((PUBLISH_SEQ a ks).2 = None ->
   (PUBLISH_SEQ a ks).1.1 = (-1)%Z /\ sequence (PUBLISH_SEQ a ks).1.2 = sequence ks).
Proof.
  rewrite <- guard_passes, <- guard_status. unfold PUBLISH_SEQ.
  pose proof (guard_counter a ks) as Hc. destruct (generation_guard a ks) as [p ks1]. cbn [fst snd] in *.
  destruct p, (status_guard a ks1); cbn; split; try done.
  all: split; [by intros [? ?] | by intros [? ?]].
Qed.

(** ** Expiry *)

(** Publishing never brings the expiry of the counter nearer, leaves it at least half the safety
    window, and when it renews it, it outlives the job. *)
Theorem publishing_extends_the_counter (m : PubSubMessage.t) (ttl count : Z) (ks : StreamKeys)
    (Httl : (0 <= ttl)%Z) :
  let ks' := (number_and_publish m ttl count ks).1.2 in
  (ttl / 2 <= TTL (sequence ks') /\ TTL (sequence ks) <= TTL (sequence ks'))%Z /\
  (TTL (sequence ks') <> TTL (sequence ks) -> TTL (job ks) <= TTL (sequence ks'))%Z.
Proof.
  assert (Hhalf : (0 <= ttl / 2 <= ttl)%Z) by (split; [apply Z.div_pos | apply Z.div_le_upper_bound]; lia).
  unfold number_and_publish. cbn [fst snd]. rewrite refresh_TTL by (by eexists).
  change (job (INCRBY count ks)) with (job ks).
  destruct (INCRBY_TTL count ks) as [-> | ->]; case_decide; split; lia.
Qed.

Example publishing_extends_the_counter_witness :
  let ks := Build_StreamKeys (Some (Key.mk 7%Z (Some 100%Z)))
              (Some (Key.mk (JobHash.mk None None None None None) (Some 172800%Z))) None in
  let ks' := (number_and_publish (chunk_message JNull None) 86400 1 ks).1.2 in
  TTL (sequence ks') = 172800%Z /\
  ((86400 / 2 <= TTL (sequence ks') /\ TTL (sequence ks) <= TTL (sequence ks'))%Z /\
   (TTL (sequence ks') <> TTL (sequence ks) -> TTL (job ks) <= TTL (sequence ks'))%Z).
Proof. split; [reflexivity | apply publishing_extends_the_counter; lia]. Defined.

(** ** Receipts *)

(** On one stream, a chunk emitted later has a greater number, whatever was batched in between;
    and no receipt is settled twice. *)
Theorem receipts_follow_emission len window inputs
    (Ht : timely len window inputs newSystem) :
  let s := RedisPublisher.run len window inputs newSystem in
  (forall e e' q q', named s e q -> named s e' q' -> stream e = stream e' ->
     receiptOf e < receiptOf e' -> (q < q')%Z) /\
  NoDup (settled s).
Proof.
  destruct (run_good len window inputs newSystem Ht new_good) as [Ho _].
  split; [apply Ho | apply (or_once _ Ho)].
Qed.

(** A receipt that names a number names the published frame of its own chunk and generation. *)
Theorem receipts_are_exact len window inputs (Ht : timely len window inputs newSystem) (e : Emission) (q : Z) :
  let s := RedisPublisher.run len window inputs newSystem in
  named s e q -> frame_of e q ∈ frames (stream e) s.
Proof.
  intros s. apply (ex_named s). apply run_exact; [done | apply new_good | apply new_exact].
Qed.

(** The frames of a stream are numbered from zero without a gap, in the order of publication,
    whichever replicas sent them. *)
Theorem numbers_are_consecutive len window inputs
    (Ht : timely len window inputs newSystem) (Hh : Forall honest_input inputs) (k : string) :
  let s := RedisPublisher.run len window inputs newSystem in
  Forall2 frame_at (seqZ 0 (counter (keys_of k s))) (frames k s).
Proof. apply nz_frames, run_numbered; [done | done | apply new_numbered]. Qed.

(** Two chunks and a terminal event of one generation, batched, and a chunk of another replica. *)
Definition sample_length (e : json) : nat := 10.
Definition sample_job : option (Key.t JobHash.t) :=
  Some (Key.mk (JobHash.mk (Some (pretty 5%Z)) (Some "running") None None None) None).
Definition sample_inputs : list RedisPublisher.Input :=
  [JobChanges "s" sample_job; Emit "s" (jint 1) (Some 5%Z) true; Emit "s" (jint 2) (Some 5%Z) true;
   Elsewhere "s" (evalPublishSequenced (chunk_message (jint 9) None) 1 None false false);
   Emit "s" (jint 3) (Some 5%Z) false; Emit "s" (jint 4) (Some 4%Z) false;
   Answer Answered; Answer Answered; Answer Answered].

Lemma sample_timely : timely sample_length 50 sample_inputs newSystem.
Proof. cbn [timely sample_inputs input_ok asks]. by split_and!. Qed.
Lemma sample_honest : Forall honest_input sample_inputs.
Proof.
  unfold sample_inputs. rewrite !Forall_cons. split_and!; try done.
  by apply honest_eval; [left; left|].
Qed.

Abbreviation sample_system := (RedisPublisher.run sample_length 50 sample_inputs newSystem).
Definition sample_emission (r : nat) (v g : Z) : Emission := Build_Emission r "s" (jint v) (Some g).

Lemma sample_outcomes :
  emissions sample_system =
    [sample_emission 0 1 5; sample_emission 1 2 5; sample_emission 3 3 5; sample_emission 5 4 4] /\
  outcomes sample_system =
    [Settled 0 (Sequence 1); Settled 1 (Sequence 2); Settled 3 (Sequence 3); Settled 5 Fenced].
Proof. split; vm_compute; reflexivity. Qed.

Lemma sample_named :
  named sample_system (sample_emission 0 1 5) 1 /\ named sample_system (sample_emission 1 2 5) 2 /\
  named sample_system (sample_emission 3 3 5) 3.
Proof.
  destruct sample_outcomes as [He Ho]. unfold named. rewrite He, Ho.
  split_and!; repeat first [left; reflexivity | right].
Qed.

Example receipts_follow_emission_witness :
  (1 < 3)%Z /\ NoDup (settled sample_system).
Proof.
  destruct (receipts_follow_emission sample_length 50 sample_inputs sample_timely) as [H1 H2].
  split; [|exact H2].
  destruct sample_named as (N1 & _ & N3).
  refine (H1 (sample_emission 0 1 5) (sample_emission 3 3 5) 1%Z 3%Z N1 N3 eq_refl _). cbn. lia.
Defined.

Example receipts_are_exact_witness :
  frame_of (sample_emission 1 2 5) 2 ∈ frames "s" sample_system.
Proof.
  destruct sample_named as (_ & N2 & _).
  pose proof (receipts_are_exact sample_length 50 sample_inputs sample_timely (sample_emission 1 2 5) 2) as H.
  exact (H N2).
Defined.

Example numbers_are_consecutive_witness :
  counter (keys_of "s" sample_system) = 4%Z /\
  Forall2 frame_at (seqZ 0 (counter (keys_of "s" sample_system))) (frames "s" sample_system).
Proof.
  split; [vm_compute; reflexivity|].
  apply (numbers_are_consecutive sample_length 50 sample_inputs sample_timely sample_honest "s").
Defined.

(** ** From the generation to the subscribers *)

(** The frames of a stream by their numbers. *)
Definition frame_number (l : list PubSubMessage.t) (q : Z) : PubSubMessage.t :=
  if decide (0 <= q)%Z then default (sample_chunk q) (l !! Z.to_nat q) else sample_chunk q.

Lemma frames_ok l n q :
  Forall2 frame_at (seqZ 0 n) l ->
  sequenced (frame_number l q) /\ PubSubMessage.seq (frame_number l q) = Some q.
Proof.
  intros H. unfold frame_number. case_decide as Hq; [|apply sample_frames_ok].
  destruct (l !! Z.to_nat q) as [f|] eqn:E; [|apply sample_frames_ok].
  destruct (Forall2_lookup_r _ _ _ _ _ H E) as (x & Hx & Hf).
  apply lookup_seqZ in Hx as [-> _]. replace (0 + Z.of_nat (Z.to_nat q))%Z with q in Hf by lia. exact Hf.
Qed.

Lemma frame_number_own l n f :
  Forall2 frame_at (seqZ 0 n) l -> f ∈ l ->
  exists q, (0 <= q < n)%Z /\ PubSubMessage.seq f = Some q /\ f = frame_number l q.
Proof.
  intros H Hf. apply list_elem_of_lookup in Hf as [i Hi].
  destruct (Forall2_lookup_r _ _ _ _ _ H Hi) as (x & Hx & _ & Hseq).
  apply lookup_seqZ in Hx as [-> Hn]. exists (0 + Z.of_nat i)%Z. split_and!; [lia | lia | done |].
  unfold frame_number. rewrite decide_True by lia. replace (Z.to_nat (0 + Z.of_nat i)) with i by lia.
  by rewrite Hi.
Qed.

(** Messages that were published expand to frames under their numbers. *)
Lemma published_numbers k s n ms :
  Forall2 frame_at (seqZ 0 n) (frames k s) ->
  Forall (fun m => (k, m) ∈ published s) ms ->
  concat (expand <$> ms) =
    frame_number (frames k s) <$> omap PubSubMessage.seq (concat (expand <$> ms)) /\
  Forall (fun q => 0 <= q < n)%Z (omap PubSubMessage.seq (concat (expand <$> ms))).
Proof.
  intros H Hms.
  assert (Hin : Forall (fun f => f ∈ frames k s) (concat (expand <$> ms))).
  { apply Forall_forall. intros f Hf. apply list_elem_of_In, in_concat in Hf as (l & Hl & Hf).
    apply list_elem_of_In, list_elem_of_fmap in Hl as (m & -> & Hm). rewrite Forall_forall in Hms.
    unfold frames, frames_in. apply list_elem_of_In, in_concat. exists (expand m). split; [|done].
    apply list_elem_of_In, list_elem_of_fmap. exists (k, m). split; [|by apply Hms]. cbn.
    by rewrite decide_True. }
  induction Hin as [|f l Hf _ [IH1 IH2]]; [done|].
  destruct (frame_number_own _ _ f H Hf) as (q & Hq & Hseq & Heq).
  cbn [omap list_omap]. rewrite Hseq, fmap_cons. cbn. split; [by f_equal | by constructor].
Qed.

Lemma frontier_all n qs :
  (0 <= n)%Z -> Forall (fun q => 0 <= q < n)%Z qs -> (forall q, 0 <= q < n -> q ∈ qs)%Z ->
  frontier qs 0 = n.
Proof.
  intros Hn Hqs Hall. apply frontier_eq. split_and!; [done | done|].
  intros Hin. rewrite Forall_forall in Hqs. specialize (Hqs n Hin). simpl in Hqs. lia.
Qed.

(** The frames in the order of their numbers are the frames in the order of publication. *)
Lemma calls_of_frames l n hs :
  Forall2 frame_at (seqZ 0 n) l -> calls_from (frame_number l) hs 0 n = concat (calls hs <$> l).
Proof.
  intros H. unfold calls_from. rewrite Z.sub_0_r. f_equal.
  apply list_eq. intros i. rewrite !list_lookup_fmap.
  destruct (l !! i) as [f|] eqn:E.
  - destruct (Forall2_lookup_r _ _ _ _ _ H E) as (x & Hx & _). rewrite Hx. cbn.
    apply lookup_seqZ in Hx as [-> _]. unfold frame_number. rewrite decide_True by lia.
    replace (Z.to_nat (0 + Z.of_nat i)) with i by lia. by rewrite E.
  - apply lookup_ge_None in E. assert (Hs : seqZ 0 n !! i = None).
    { apply lookup_ge_None. by rewrite (Forall2_length _ _ _ H). }
    by rewrite Hs.
Qed.

(** C8. Both halves together. Several replicas publish on a stream, batched or not, in a run in
    which its counter does not expire. Its published messages arrive at a replica in any order and
    any number of times, all of them at least once and none a hundred frames ahead of the first
    missing one, and the reorder timer does not fire between these arrivals. Then the subscribers of
    that replica, as long as they stay and do not throw, are called for every frame in the order of
    publication, once each, and nothing is left waiting. *)
Theorem published_frames_reach_the_subscribers len window inputs react acknowledges k ms r st
    (Ht : timely len window inputs newSystem) (Hh : Forall honest_input inputs)
    (stay : forall l id c, react l id c = Reaction.mk false false)
    (Hk : proper_id k) (E : mget (streams r) k = Some st) (Hc : StreamSubscribers.count st <> 0)
    (Hb : StreamSubscribers.reorderBuffer st = ReorderBuffer.mk 0 ∅ false false)
    (Hms : Forall (fun m => (k, m) ∈ published (RedisPublisher.run len window inputs newSystem)) ms)
    (Hall : forall f, f ∈ frames k (RedisPublisher.run len window inputs newSystem) ->
              f ∈ concat (expand <$> ms))
    (Hw : windowed [] 0 (omap PubSubMessage.seq (concat (expand <$> ms))) = true) :
  let F := frames k (RedisPublisher.run len window inputs newSystem) in
  RedisRuns.run react acknowledges (arrivals k ms) r =
  RedisWindow.settled k (ReorderBuffer.mk (Z.of_nat (length F)) ∅ false false)
    (concat (calls (StreamSubscribers.handlers st) <$> F)) r.
Proof.
  intros F. pose proof (run_numbered len window inputs newSystem Ht Hh new_numbered) as Hn.
  set (s := RedisPublisher.run len window inputs newSystem) in *.
  pose proof (nz_frames s Hn k) as HF. fold F in HF. pose proof (nz_counter s Hn k) as Hpos.
  set (n := counter (keys_of k s)) in *.
  assert (Hlen : Z.of_nat (length F) = n)
    by (rewrite <- (Forall2_length _ _ _ HF), length_seqZ; lia).
  destruct (published_numbers k s n ms HF Hms) as [Heq Hqs].
  set (qs := omap PubSubMessage.seq (concat (expand <$> ms))) in *.
  assert (Hfront : frontier qs 0 = n).
  { apply frontier_all; [done | done|]. intros q Hq.
    assert (Hfq : exists f, F !! Z.to_nat q = Some f) by (apply lookup_lt_is_Some_2; lia).
    destruct Hfq as [f Hf]. destruct (Forall2_lookup_r _ _ _ _ _ HF Hf) as (x & Hx & _ & Hseq).
    apply lookup_seqZ in Hx as [-> _]. unfold qs. apply list_elem_of_omap. exists f.
    split; [apply Hall; by eapply list_elem_of_lookup_2 | rewrite Hseq; f_equal; lia]. }
  destruct (windowed_receive react acknowledges (frame_number F) k ms qs 0 r st stay) as (b & Hhold & ->);
    [intros q; by apply (frames_ok F n) | done | done | done | done | exact Heq | done |].
  rewrite Hfront, calls_of_frames by done. f_equal. destruct Hhold as [H1 H2 H3 H4 _].
  rewrite Hfront in H2, H4.
  assert (Hp : ReorderBuffer.pending b = ∅).
  { apply map_empty. intros q. rewrite H4. destruct (decide _) as [[Hq Hlt]|]; [|done].
    rewrite Forall_forall in Hqs. specialize (Hqs q Hq). simpl in Hqs. lia. }
  rewrite Hp in H3. destruct b. cbn in *. rewrite H1, H2, H3, Hp, Hlen. done.
Qed.

(** The chunks of [sample_inputs], a batch of two among them, arriving in reverse order. *)
Definition sample_subscriber : StreamState :=
  StreamSubscribers.mk 0 1 [1] None [] [] [] (ReorderBuffer.mk 0 ∅ false false).
Abbreviation sample_receiver := (RedisRuns.run stays never [Subscribe "s" false] newReceiver).
Abbreviation sample_messages := (reverse (snd <$> published sample_system)).

Lemma sample_published :
  published sample_system =
    [("s", splice 0 (chunk_message (jint 9) None));
     ("s", splice 1 (batch_message [jint 1; jint 2] (Some 5%Z)));
     ("s", splice 3 (chunk_message (jint 3) (Some 5%Z)))].
Proof. vm_compute. reflexivity. Qed.

Lemma sample_arrive :
  Forall (fun m => ("s", m) ∈ published sample_system) sample_messages /\
  (forall f, f ∈ frames "s" sample_system -> f ∈ concat (expand <$> sample_messages)) /\
  windowed [] 0 (omap PubSubMessage.seq (concat (expand <$> sample_messages))) = true.
Proof.
  unfold frames. rewrite sample_published. split_and!; [| |vm_compute; reflexivity].
  - rewrite Forall_reverse. repeat (apply Forall_cons; split); [..|apply Forall_nil_2];
      repeat first [left; reflexivity | right].
  - intros f Hf. assert (Hp : concat (expand <$> reverse (snd <$>
      [("s", splice 0 (chunk_message (jint 9) None));
       ("s", splice 1 (batch_message [jint 1; jint 2] (Some 5%Z)));
       ("s", splice 3 (chunk_message (jint 3) (Some 5%Z)))])) ≡ₚ frames_in "s"
      [("s", splice 0 (chunk_message (jint 9) None));
       ("s", splice 1 (batch_message [jint 1; jint 2] (Some 5%Z)));
       ("s", splice 3 (chunk_message (jint 3) (Some 5%Z)))]); [|by rewrite Hp].
    cbn. solve_Permutation.
Qed.

Example published_frames_reach_the_subscribers_witness :
  length (frames "s" sample_system) = 4 /\
  RedisRuns.run stays never (arrivals "s" sample_messages) sample_receiver =
  RedisWindow.settled "s" (ReorderBuffer.mk (Z.of_nat (length (frames "s" sample_system))) ∅ false false)
    (concat (calls [1] <$> frames "s" sample_system)) sample_receiver.
Proof.
  split; [vm_compute; reflexivity|]. destruct sample_arrive as (A1 & A2 & A3).
  assert (E : mget (streams sample_receiver) "s" = Some sample_subscriber) by (vm_compute; reflexivity).
  exact (published_frames_reach_the_subscribers sample_length 50 sample_inputs stays never "s"
    sample_messages sample_receiver sample_subscriber sample_timely sample_honest (fun _ _ _ => eq_refl)
    sample_proper E ltac:(done) eq_refl A1 A2 A3).
Defined.
