(* ===== verification/RedisAborts.v ===== *)
(** * Confirmed aborts

    Any number of replicas on one server: aborts that are published with a request id, owners that
    acknowledge them, owners that are fenced off the durable job and stop their provider
    ([GenerationJobManager.retireRuntimeAfterDurableFence]), the durable proofs of [RedisProofs],
    and the waiters of [emitAbortConfirmed].  A frame that was published reaches any replica at any time, any number
    of times, or never. *)

From stdpp Require Import gmap.
From S2P Require Import Prelude JsMap Json RedisFrames RedisScripts RedisPublisher RedisProofs RedisReceiver RedisReorder RedisOrder RedisRuns.
Import StreamSubscribers ReorderBuffer.

(** ** Replicas on one server *)

(** A request of [emitAbortConfirmed] that waits: the closure of its timer. *)
Module Request.
Record t := mk {
  replica : nat;
  streamId : string;
  state : nat;
  generationId : Z;
  requestId : string
}.
End Request.

(** *** Owners that are fenced off *)

(** What a manager keeps of a runtime, of its runtimes, and of the generations whose provider it
    runs. *)
Module LocalRuntime.
Record t := mk { identity : nat; createdAt : Z; aborted : bool; retiring : bool }.
End LocalRuntime.
Module Owner.
Record t := mk { runtimeState : jsmap LocalRuntime.t; ownedJobs : jsmap Z }.
End Owner.

(** [recordFencedRuntimeAbortProof(streamId, runtime, ownsExactProvider)]: the generation whose proof
    it sets out to store. *)
Definition recordFencedRuntimeAbortProof (runtime : LocalRuntime.t) (ownsExactProvider : bool) : option Z :=
  if ownsExactProvider then Some (LocalRuntime.createdAt runtime) else None.

(** [retireRuntimeAfterDurableFence(streamId, runtime)], up to the notice to local subscribers: the
    runtime is aborted, and a proof of it is on its way. *)
Definition retireRuntimeAfterDurableFence (streamId : string) (runtime : nat) (o : Owner.t)
  : option Z * Owner.t :=
  match mget (Owner.runtimeState o) streamId with
  | None => (None, o)
  | Some r =>
      if negb (bool_decide (LocalRuntime.identity r = runtime)) || LocalRuntime.retiring r ||
         LocalRuntime.aborted r
      then (None, o)
      else
        let ownsExactProvider :=
          bool_decide (mget (Owner.ownedJobs o) streamId = Some (LocalRuntime.createdAt r)) in
        let r' := LocalRuntime.mk runtime (LocalRuntime.createdAt r) true (LocalRuntime.retiring r) in
        (recordFencedRuntimeAbortProof r ownsExactProvider,
         Owner.mk (mset (Owner.runtimeState o) streamId r') (Owner.ownedJobs o))
  end.

(** A retirement: the replica, the stream, the runtime, and what the manager kept. *)
Module Retirement.
Record t := mk { replica : nat; streamId : string; runtime : nat; owner : Owner.t }.
(** The generation whose proof it stores. *)
Definition proves (x : t) : option Z :=
  (retireRuntimeAfterDurableFence (streamId x) (runtime x) (owner x)).1.
End Retirement.

(** The replicas and their managers, the timers that were set, the proofs, the lookups that found a
    proof, the commands that stored an acknowledgement and were answered, and the retirements. *)
Record Replicas := {
  receiver : nat -> Receiver;
  requests : list Request.t;
  proofs : Proofs;
  looked : list (string * Z);
  stored : list (nat * string * Z * string);
  manager : nat -> Owner.t;
  retired : list Retirement.t
}.
Definition newReplicas : Replicas :=
  Build_Replicas (fun _ => newReceiver) [] ∅ [] [] (fun _ => Owner.mk [] []) [].

Definition upd (i : nat) (r : Receiver) (s : Replicas) : Replicas :=
  {| s with receiver := fun j => if decide (j = i) then r else receiver s j |}.

(** What happens: a replica handles an input; the server runs the [SET] of
    [publishAbortAcknowledgement] or the [GET] of [hasDurableAbortAck], whose answers come later;
    [emitAbortConfirmed] goes on after its first lookup ([None]: it failed), publishes its abort, is
    refused, or times out and goes on after its second lookup; a drain is recorded; time passes; a
    manager changes what it keeps of its runtimes, is told by a fenced append that one of them is
    no longer the durable owner, or has the proof of that stored. *)
Inductive Event :=
| Does (i : nat) (input : Input)
| Stores (i : nat) (k : string) (g : Z) (requestId : string) (d : Delivery)
| LooksUp (k : string) (g : Z)
| Confirms (i : nat) (k : string) (g : Z) (proof : option bool)
| Publishes (i : nat) (k : string) (id : nat) (g : Z) (requestId : string)
| Refused (r : Request.t)
| TimesOut (r : Request.t) (proof : bool)
| Drains (k : string) (g : Z) (p : string) (d : Delivery)
| Passes (seconds : N)
| Manages (i : nat) (o : Owner.t)
| Fences (i : nat) (k : string) (runtime : nat)
| StoresProof (x : Retirement.t) (g : Z) (d : Delivery).

Section system.
Variable react : nat -> list Effect -> nat -> Call -> Reaction.t.
Variable acknowledges : nat -> list Effect -> nat -> option Z -> bool.

Definition settles (r : Request.t) (acknowledged : bool) (s : Replicas) : Replicas :=
  let i := Request.replica r in
  upd i (settleAbortAck (Request.streamId r) (Request.state r) (Request.requestId r) acknowledged
           (receiver s i)) s.

Definition perform (e : Event) (s : Replicas) : Replicas :=
  match e with
  | Does i input => upd i (step (react i) (acknowledges i) input (receiver s i)) s
  | Stores i k g requestId d =>
      let '(answered, ps) := recordAbortAcknowledgement k g d (proofs s) in
      {| s with proofs := ps;
         stored := if answered then (i, k, g, requestId) :: stored s else stored s |}
  | LooksUp k g =>
      if hasDurableAbortAck k g (proofs s) then {| s with looked := (k, g) :: looked s |} else s
  | Confirms i k g proof => upd i (confirm_begin k proof (receiver s i)).2 s
  | Publishes i k id g requestId =>
      let '(refused, r) := confirm_ready k id g requestId (receiver s i) in
      let s' := upd i r s in
      match refused with
      | Some _ => s'
      | None => {| s' with requests := Request.mk i k id g requestId :: requests s' |}
      end
  | Refused r => settles r false s
  | TimesOut r proof => settles r proof s
  | Drains k g p d => {| s with proofs := (recordProviderDrain k g p d (proofs s)).2 |}
  | Passes n => {| s with proofs := elapse (Z.of_N n) (proofs s) |}
  | Manages i o => {| s with manager := fun j => if decide (j = i) then o else manager s j |}
  | Fences i k runtime =>
      let o' := (retireRuntimeAfterDurableFence k runtime (manager s i)).2 in
      {| s with manager := fun j => if decide (j = i) then o' else manager s j;
                retired := Retirement.mk i k runtime (manager s i) :: retired s |}
  | StoresProof x g d =>
      {| s with proofs := (recordAbortAcknowledgement (Retirement.streamId x) g d (proofs s)).2 |}
  end.

(** Aborts and acknowledgements that arrive were published; an acknowledgement is stored for an
    owner that gave it, or by a retirement that set out to store it; only requests that were made are refused or time out; answers are those of
    commands that ran. *)
Definition allowed (e : Event) (s : Replicas) : Prop :=
  match e with
  | Does i (Arrives channel message) =>
      forall k m, stream_of_channel channel = Some k -> JSON_parse message ≫= decode = Some m ->
        PubSubMessage.type m = ABORT \/ PubSubMessage.type m = ABORT_ACK ->
        exists j, Published k m ∈ log (receiver s j)
  | Does i (AckStored k g requestId answered) =>
      StoreAck k g requestId ∈ log (receiver s i) /\
      (answered = true -> (i, k, g, requestId) ∈ stored s)
  | Does _ (ConfirmBegin _ _ | ConfirmReady _ _ _ _ | ConfirmEnds _ _ _ _) => False
  | Does _ _ | LooksUp _ _ | Publishes _ _ _ _ _ | Drains _ _ _ _ | Passes _ | Manages _ _ | Fences _ _ _ => True
  | StoresProof x g _ => x ∈ retired s /\ Retirement.proves x = Some g
  | Confirms _ k g proof => proof = Some true -> (k, g) ∈ looked s
  | Stores i k g requestId _ => StoreAck k g requestId ∈ log (receiver s i)
  | Refused r => r ∈ requests s
  | TimesOut r proof =>
      r ∈ requests s /\ (proof = true -> (Request.streamId r, Request.generationId r) ∈ looked s)
  end.

Inductive reaches : list Event -> Replicas -> Prop :=
| reaches_start : reaches [] newReplicas
| reaches_event es e s : reaches es s -> allowed e s -> reaches (es ++ [e]) (perform e s).

(** A callback of some replica, called for the generation, accepted the abort; the replica then
    set out to store the acknowledgement under that stream and generation. *)
Definition accepted (k : string) (g : Z) (s : Replicas) : Prop :=
  exists j before registration after requestId,
    log (receiver s j) = before ++ AbortCalled registration (Some g) :: after /\
    acknowledges j before registration (Some g) = true /\
    StoreAck k g requestId ∈ after.

(** A replica was told that its runtime of the stream is fenced off the durable job; that runtime was
    of the generation, was not aborted yet, and is by this; and the replica ran the provider of
    exactly that generation. *)
Definition fenced_off (k : string) (g : Z) (s : Replicas) : Prop :=
  exists x r r', x ∈ retired s /\ Retirement.streamId x = k /\
    mget (Owner.runtimeState (Retirement.owner x)) k = Some r /\
    LocalRuntime.identity r = Retirement.runtime x /\ LocalRuntime.createdAt r = g /\
    LocalRuntime.aborted r = false /\ mget (Owner.ownedJobs (Retirement.owner x)) k = Some g /\
    mget (Owner.runtimeState
      (retireRuntimeAfterDurableFence k (Retirement.runtime x) (Retirement.owner x)).2) k = Some r' /\
    LocalRuntime.identity r' = Retirement.runtime x /\ LocalRuntime.aborted r' = true.

(** The generation was stopped, in one of the two ways. *)
Definition stopped (k : string) (g : Z) (s : Replicas) : Prop := accepted k g s \/ fenced_off k g s.
End system.

(** ** The system *)

Section invariant.
Variable react : nat -> list Effect -> nat -> Call -> Reaction.t.
Variable acknowledges : nat -> list Effect -> nat -> option Z -> bool.
Abbreviation accepted := (accepted acknowledges).
Abbreviation stopped := (stopped acknowledges).

(** A settlement that is justified: the request was made, and its generation stopped. *)
Definition justified (i : nat) (requestId : string) (s : Replicas) : Prop :=
  exists q, q ∈ requests s /\ Request.replica q = i /\ Request.requestId q = requestId /\
    (brace_free (Request.streamId q) = true -> stopped (Request.streamId q) (Request.generationId q) s).

Definition effect_ok (s : Replicas) (i : nat) (e : Effect) : Prop :=
  match e with
  | StoreAck k g _ => stopped k g s
  | AckSettled requestId true => justified i requestId s
  | Published k m => PubSubMessage.type m = ABORT_ACK ->
      exists g requestId, m = ack_message g requestId /\ stopped k g s
  | _ => True
  end.

Record consistent (s : Replicas) : Prop := {
  co_effects : forall i e, e ∈ log (receiver s i) -> effect_ok s i e;
  co_waiters : forall i k r w, waits (receiver s i) k r w ->
    exists id, Request.mk i k id (AbortAckWaiter.generationId w) r ∈ requests s;
  co_proofs : forall k g, brace_free k = true -> is_Some (proofs s !! abortAck k g) -> stopped k g s;
  co_looked : forall k g, (k, g) ∈ looked s -> brace_free k = true -> stopped k g s;
  co_stored : forall i k g r, (i, k, g, r) ∈ stored s -> stopped k g s;
  co_held : forall i, all_held (receiver s i)
}.

(** Logs grow, requests and retirements stay. *)
Definition later (s s' : Replicas) : Prop :=
  (forall j, log (receiver s j) `prefix_of` log (receiver s' j)) /\ requests s ⊆ requests s' /\
  retired s ⊆ retired s'.

Lemma stopped_later k g s s' : later s s' -> stopped k g s -> stopped k g s'.
Proof.
  intros (Hl & _ & Hx) [(j & before & reg & after & req & Hlog & Ha & Hin)|(x & r & r' & Hin & H)].
  - left. destruct (Hl j) as [l Hj]. exists j, before, reg, (after ++ l), req.
    split_and!; [|done|by apply elem_of_app; left]. by rewrite Hj, Hlog, <- app_assoc.
  - right. exists x, r, r'. split; [by apply Hx | exact H].
Qed.
Lemma effect_later i e s s' : later s s' -> effect_ok s i e -> effect_ok s' i e.
Proof.
  intros Hs. destruct e as [| | | |r []|k g r|k m| |]; cbn; try done.
  - intros (q & Hq & H1 & H2 & H3). exists q. split_and!; [by apply Hs | done | done |].
    intros Hb. eapply stopped_later; eauto.
  - by apply stopped_later.
  - intros H Hm. destruct (H Hm) as (g & r & -> & Ha). exists g, r. split; [done|].
    eapply stopped_later; eauto.
Qed.
Lemma hushed_ok s i e : hushed e -> effect_ok s i e.
Proof. destruct e as [| | | |r []|k g r|k m| |]; cbn; try done. Qed.

Lemma receiver_upd i r s j : receiver (upd i r s) j = if decide (j = i) then r else receiver s j.
Proof. done. Qed.

Lemma later_upd i r s : log (receiver s i) `prefix_of` log r -> later s (upd i r s).
Proof. intros H. split; [|done]. intros j. rewrite receiver_upd. by case_decide; subst. Qed.

(** A step of one replica, with effects of its own. *)
Lemma consistent_upd i r s :
  consistent s ->
  (exists l, log r = log (receiver s i) ++ l /\ forall e, e ∈ l -> effect_ok (upd i r s) i e) ->
  (forall k q w, waits r k q w -> waits (receiver s i) k q w) ->
  (all_held (receiver s i) -> all_held r) -> consistent (upd i r s).
Proof.
  intros [C1 C2 C3 CL C4 C5] (l & Hlog & Hl) Hw Hh.
  assert (Hlater : later s (upd i r s)) by (apply later_upd; rewrite Hlog; by eexists).
  split.
  - intros j e. rewrite receiver_upd. case_decide as Hj; [subst j; rewrite Hlog|].
    + intros [He|He]%elem_of_app; [|by apply Hl]. eapply effect_later; [done | by apply C1].
    + intros He. eapply effect_later; [done | by apply C1].
  - intros j k q w. rewrite receiver_upd. case_decide as Hj; [subst j|]; eauto.
  - intros k g Hk Hp. eapply stopped_later; [done | by apply C3].
  - intros k g Hk Hp. eapply stopped_later; [done | by apply CL].
  - intros j k g q Hq. eapply stopped_later; [done | by eapply C4].
  - intros j. rewrite receiver_upd. case_decide as Hj; [subst j|]; auto.
Qed.

Lemma consistent_calm i r s : consistent s -> calm (receiver s i) r -> consistent (upd i r s).
Proof.
  intros Hc [(l & Hl & Hh) Hw Hp]. apply consistent_upd; [done | | done | done].
  exists l. split; [done|]. intros e He. apply hushed_ok. rewrite Forall_forall in Hh. auto.
Qed.

Lemma consistent_emit i l s :
  consistent s -> (forall e, e ∈ l -> effect_ok (upd i (emit l (receiver s i)) s) i e) ->
  consistent (upd i (emit l (receiver s i)) s).
Proof. intros Hc Hl. apply consistent_upd; [done | by exists l | done | done]. Qed.

(** Two steps of a replica are one. *)
Lemma consistent_twice i r r' s :
  consistent (upd i r' (upd i r s)) -> consistent (upd i r' s).
Proof.
  assert (Hr : forall j, receiver (upd i r' (upd i r s)) j = receiver (upd i r' s) j)
    by (intros j; rewrite !receiver_upd; by case_decide).
  assert (Hl : later (upd i r' (upd i r s)) (upd i r' s)) by (split; [|done]; intros j; by rewrite Hr).
  intros [C1 C2 C3 CL C4 C5]. split.
  - intros j e. rewrite <- Hr. intros He. eapply effect_later; [done | by apply C1].
  - intros j k q w. rewrite <- Hr. apply C2.
  - intros k g Hk Hp. eapply stopped_later; [done | by apply C3].
  - intros k g Hk Hp. eapply stopped_later; [done | by apply CL].
  - intros j k g q Hq. eapply stopped_later; [done | by eapply C4].
  - intros j. rewrite <- Hr. apply C5.
Qed.

Lemma upd_here i r s : receiver (upd i r s) i = r.
Proof. rewrite receiver_upd. by rewrite decide_True. Qed.

(** A justified settlement. *)
Lemma consistent_settle i k id requestId s :
  consistent s -> justified i requestId s ->
  consistent (upd i (settleAbortAck k id requestId true (receiver s i)) s).
Proof.
  intros Hc Hj. unfold settleAbortAck.
  assert (Hsame : consistent (upd i (receiver s i) s)) by (by apply consistent_calm).
  destruct (mget (streams (receiver s i)) k) as [st|]; [|done]. case_decide; [|done].
  destruct (mget (abortAckWaiters st) requestId); [|done].
  set (r1 := on_stream k _ (receiver s i)).
  assert (H1 : consistent (upd i r1 s)).
  { apply consistent_calm; [done|]. apply calm_stream; [|done].
    intros st' r' w'. cbn. rewrite mget_mdel. by case_decide. }
  assert (Hlog : log r1 = log (receiver s i)) by apply on_stream_log.
  apply consistent_twice with (r := r1). set (s1 := upd i r1 s) in *.
  assert (Hs1 : receiver s1 i = r1) by apply upd_here.
  apply consistent_twice with (r := emit [AckSettled requestId true] (receiver s1 i)).
  assert (H2 : consistent (upd i (emit [AckSettled requestId true] (receiver s1 i)) s1)).
  { apply consistent_emit; [done|]. intros e ->%list_elem_of_singleton.
    eapply (effect_later i (AckSettled requestId true) s); [|exact Hj].
    split; [|done]. intros j. rewrite receiver_upd. case_decide as Hji; [subst j|].
    - rewrite Hs1. cbn [emit log]. rewrite Hlog. by eexists.
    - unfold s1. rewrite receiver_upd. by rewrite decide_False. }
  apply consistent_calm; [done|]. rewrite upd_here, Hs1. apply calm_unused.
Qed.

(** ** Frames *)

Lemma consistent_same i s : consistent s -> consistent (upd i (receiver s i) s).
Proof. intros Hc. by apply consistent_calm. Qed.

(** An abort that is delivered: the callbacks are called, an stopped one is stored. *)
Lemma consistent_abort i k m s :
  consistent s -> PubSubMessage.type m = ABORT ->
  consistent (upd i (deliver_internal (acknowledges i) k m (receiver s i)) s).
Proof.
  intros Hc Ht. unfold deliver_internal.
  destruct (mget (streams (receiver s i)) k) as [st|]; [|by apply consistent_same]. rewrite Ht.
  destruct (call_aborts_calm (acknowledges i) (PubSubMessage.generationId m) (abortCallbacks st)
    (receiver s i)) as [Hcalm Hacc].
  destruct (call_aborts _ _ _ _) as [acked s1]. cbn [fst snd] in *.
  assert (H1 : consistent (upd i s1 s)) by (by apply consistent_calm).
  destruct (PubSubMessage.abortRequestId m) as [req|], (PubSubMessage.generationId m) as [g|];
    try done. destruct acked; [|done].
  apply consistent_twice with (r := s1).
  assert (Hhere : receiver (upd i s1 s) i = s1) by apply upd_here.
  replace (emit [StoreAck k g req] s1) with (emit [StoreAck k g req] (receiver (upd i s1 s) i))
    by (by rewrite Hhere).
  apply consistent_emit; [done|]. intros e ->%list_elem_of_singleton.
  destruct (Hacc eq_refl) as (before & reg & after & Hlog & Ha).
  left. exists i, before, reg, (after ++ [StoreAck k g req]), req. split_and!; [|done|set_solver].
  rewrite upd_here. cbn [emit log]. by rewrite Hhere, Hlog, <- app_assoc.
Qed.

Lemma consistent_ack i k g requestId s :
  consistent s -> stopped k g s ->
  consistent (upd i (deliver_internal (acknowledges i) k (ack_message g requestId) (receiver s i)) s).
Proof.
  intros Hc Ha. unfold deliver_internal, ack_message. cbn.
  destruct (mget (streams (receiver s i)) k) as [st|] eqn:E; [|by apply consistent_same].
  destruct (mget (abortAckWaiters st) requestId) as [w|] eqn:Hw; [|by apply consistent_same].
  case_decide as Hg; [|by apply consistent_same]. apply consistent_settle; [done|].
  destruct (co_waiters _ Hc i k requestId w) as [id Hin]; [by exists st|].
  eexists. split_and!; [exact Hin | done | done |]. cbn. by rewrite Hg.
Qed.

Lemma receive_internal react' acknowledges' k m s :
  PubSubMessage.type m = ABORT \/ PubSubMessage.type m = ABORT_ACK ->
  receive react' acknowledges' k m s = deliver_internal acknowledges' k m s.
Proof.
  intros Ht. unfold receive, deliverMessage, call_of.
  destruct (mget (streams s) k) as [st|] eqn:E; [|unfold deliver_internal; by rewrite E].
  destruct Ht as [Ht|Ht]; rewrite Ht; cbn [internal_type]; by rewrite andb_false_r.
Qed.

Lemma consistent_arrives i channel message s :
  consistent s -> allowed (Does i (Arrives channel message)) s ->
  consistent (upd i (handleMessage (react i) (acknowledges i) channel message (receiver s i)) s).
Proof.
  intros Hc Ha. unfold handleMessage. cbn [allowed] in Ha.
  destruct (stream_of_channel channel) as [k|]; [|by apply consistent_same].
  destruct (JSON_parse message ≫= decode) as [m|]; [|by apply consistent_same].
  specialize (Ha k m eq_refl eq_refl).
  destruct (decide (PubSubMessage.type m = ABORT)) as [Ht|Ht].
  { rewrite receive_internal by auto. by apply consistent_abort. }
  destruct (decide (PubSubMessage.type m = ABORT_ACK)) as [Ht'|Ht'].
  2: { apply consistent_calm; [done|]. apply calm_receive; [done | done | apply (co_held _ Hc)]. }
  destruct Ha as [j Hj]; [auto|]. destruct (co_effects _ Hc j _ Hj Ht') as (g & r & -> & Hacc).
  rewrite receive_internal by auto. by apply consistent_ack.
Qed.

(** ** Every event *)

Lemma consistent_does i input s :
  consistent s -> allowed (Does i input) s -> consistent (perform react acknowledges (Does i input) s).
Proof.
  intros Hc Ha. cbn [perform]. pose proof (co_held _ Hc i) as Hh.
  assert (H : forall r, calm (receiver s i) r -> consistent (upd i r s))
    by (intros r; by apply consistent_calm).
  destruct input; cbn [step]; try done;
    try first [apply H, calm_subscribe | apply H, calm_unsubscribe | by apply H, calm_timer
      | by apply H, calm_sync | apply H, calm_close | apply H, calm_whenAllLeft
      | apply H, calm_register | apply H, calm_unregister | apply H, calm_cleanup
      | apply H, calm_destroy | apply H, calm_emit; by repeat constructor].
  - by apply consistent_arrives.
  - apply H. unfold subscription_failed. case_decide; [by apply calm_same | reflexivity].
  - cbn [allowed] in Ha. destruct Ha as [Hs _]. unfold ack_stored.
    destruct stored0; [|by apply consistent_same]. apply consistent_emit; [done|].
    intros e ->%list_elem_of_singleton. cbn. intros _. eexists _, _. split; [done|].
    eapply stopped_later; [apply later_upd; cbn; by eexists | exact (co_effects _ Hc i _ Hs)].
Qed.

Lemma consistent_proofs ps st s :
  consistent s ->
  (forall k g, brace_free k = true -> is_Some (ps !! abortAck k g) -> stopped k g s) ->
  (forall i k g r, (i, k, g, r) ∈ st -> stopped k g s) ->
  consistent {| s with proofs := ps; stored := st |}.
Proof. intros [C1 C2 C3 CL C4 C5] Hp Hs. by split. Qed.

(** The manager of a replica changes. *)
Lemma consistent_managed ms rs s :
  consistent s -> retired s ⊆ rs -> consistent {| s with manager := ms; retired := rs |}.
Proof.
  intros [C1 C2 C3 CL C4 C5] Hr.
  assert (Hl : later s {| s with manager := ms; retired := rs |}) by (by split_and!).
  split; cbn; try done.
  - intros i e He. eapply effect_later; [exact Hl | by apply C1].
  - intros k g Hk Hp. eapply stopped_later; [exact Hl | by apply C3].
  - intros k g Hk Hp. eapply stopped_later; [exact Hl | by apply CL].
  - intros i k g q Hq. eapply stopped_later; [exact Hl | by eapply C4].
Qed.

(** A retirement that stores a proof has stopped the runtime of that generation. *)
Lemma retirement_stops x g s :
  x ∈ retired s -> Retirement.proves x = Some g -> fenced_off (Retirement.streamId x) g s.
Proof.
  intros Hx. unfold Retirement.proves, retireRuntimeAfterDurableFence.
  destruct (mget (Owner.runtimeState (Retirement.owner x)) (Retirement.streamId x)) as [r|] eqn:Hr; [|done].
  destruct (negb _ || _ || _) eqn:Hg; [done|]. apply orb_false_iff in Hg as [[Hi Hf]%orb_false_iff Ha].
  apply negb_false_iff, bool_decide_eq_true in Hi. unfold recordFencedRuntimeAbortProof. cbn.
  case_bool_decide as Ho; [|done]. intros [= <-]. unfold fenced_off, retireRuntimeAfterDurableFence.
  exists x, r, (LocalRuntime.mk (Retirement.runtime x) (LocalRuntime.createdAt r) true (LocalRuntime.retiring r)).
  rewrite Hr, bool_decide_true, Ha, Hf by done. cbn. split_and!; try done. by rewrite mget_mset_eq.
Qed.

Lemma record_lookup key key' secs d ps c :
  (record_ key secs d ps).2 !! key' = Some c -> key = key' \/ ps !! key' = Some c.
Proof.
  destruct d; cbn [record_ snd]; [|by right|]; unfold SET_EX; rewrite lookup_insert;
    case_decide; auto.
Qed.

Lemma consistent_confirms_ready i k id g requestId s :
  consistent s -> consistent (perform react acknowledges (Publishes i k id g requestId) s).
Proof.
  intros Hc. cbn [perform]. unfold confirm_ready.
  destruct (mget (streams (receiver s i)) k) as [st|] eqn:E; [|by apply consistent_same].
  case_decide; [|by apply consistent_same]. cbv zeta iota beta.
  set (r := emit _ _). set (s' := upd i r s).
  assert (Hlog : log r = log (receiver s i) ++ [Published k (abort_message (Some g) (Some requestId))])
    by (unfold r; cbn; by rewrite on_stream_log).
  destruct Hc as [C1 C2 C3 CL C4 C5].
  assert (Hl : later s {| s' with requests := Request.mk i k id g requestId :: requests s' |}).
  { split; [|set_solver]. intros j. cbn. case_decide; [subst j; rewrite Hlog; by eexists | done]. }
  split; cbn.
  - intros j e. case_decide as Hj; [subst j; rewrite Hlog|].
    + intros [He|He%list_elem_of_singleton]%elem_of_app; [eapply effect_later; [done|auto]|].
      by rewrite He.
    + intros He. eapply effect_later; [done|auto].
  - intros j k' q w. case_decide as Hj; [subst j|].
    + intros (st' & Hst' & Hw). cbn in Hst'. rewrite mget_on_stream in Hst'. case_decide as Hk.
      * subst k'. rewrite E in Hst'. injection Hst' as <-. cbn in Hw. rewrite mget_mset in Hw.
        case_decide as Hq; [subst q; injection Hw as <-; eexists; by left|].
        destruct (C2 i k q w) as [id' Hin]; [by exists st | eexists; by right].
      * destruct (C2 i k' q w) as [id' Hin]; [by exists st' | eexists; by right].
    + intros Hw. destruct (C2 _ _ _ _ Hw) as [id' Hin]. eexists. by right.
  - intros k' g' Hk Hp. eapply stopped_later; eauto.
  - intros k' g' Hk Hp. eapply stopped_later; eauto.
  - intros j k' g' q Hq. eapply stopped_later; eauto.
  - intros j. case_decide as Hj; [subst j | auto]. intros k' st'. cbn. rewrite mget_on_stream.
    case_decide; [|apply C5]. intros (st0 & Hst0 & ->)%fmap_Some. exact (C5 i k' st0 Hst0).
Qed.

Lemma durable_stopped k g s :
  consistent s -> hasDurableAbortAck k g (proofs s) = true -> brace_free k = true -> stopped k g s.
Proof.
  intros Hc Hb Hk. apply (co_proofs _ Hc); [done|]. unfold hasDurableAbortAck, GET in Hb.
  bool_facts. apply fmap_Some in Hb as (c & Hb & _). by exists c.
Qed.

Lemma consistent_step e s :
  consistent s -> allowed e s -> consistent (perform react acknowledges e s).
Proof.
  intros Hc Ha. destruct e as [i input|i k g req d|k g|i k g proof|i k id g req|r|r proof|k g p d|n|i o|i k id|x g d].
  - by apply consistent_does.
  - cbn in Ha. pose proof (co_effects _ Hc i _ Ha) as Hacc. cbn [effect_ok] in Hacc. cbn [perform].
    pose proof (record_lookup (abortAck k g)) as Hrec. unfold recordAbortAcknowledgement.
    specialize (Hrec) with (secs := ABORT_ACK_TTL_SECONDS) (d := d) (ps := proofs s).
    destruct (record_ _ _ _ _) as [answered ps]. apply consistent_proofs; [done | |].
    + intros k' g' Hk [c Hl]. destruct (Hrec _ _ Hl) as [He|He].
      * by destruct (abortAck_inj k' g' k g Hk (eq_sym He)) as [-> ->].
      * apply (co_proofs _ Hc); [done | by exists c].
    + intros j k' g' q. destruct answered; [|apply (co_stored _ Hc)].
      intros [Heq|Hq]%elem_of_cons; [by simplify_eq | by eapply (co_stored _ Hc)].
  - cbn [perform]. destruct (hasDurableAbortAck k g (proofs s)) eqn:Hb; [|done].
    assert (Hacc : brace_free k = true -> stopped k g s) by (intros Hk; by apply durable_stopped).
    destruct Hc as [C1 C2 C3 CL C4 C5]. split; try done. cbn.
    intros k' g' [Heq|Hin]%elem_of_cons; [by simplify_eq | by apply CL].
  - apply consistent_calm; [done | apply calm_begin].
  - by apply consistent_confirms_ready.
  - apply consistent_calm; [done | apply calm_settle].
  - cbn [perform allowed] in *. destruct Ha as [Hr Hl]. unfold settles. destruct proof.
    + apply consistent_settle; [done|]. exists r. split_and!; [done | done | done |].
      by apply (co_looked _ Hc), Hl.
    + apply consistent_calm; [done | apply calm_settle].
  - cbn [perform]. apply (consistent_proofs _ (stored s)); [done | | apply (co_stored _ Hc)].
    intros k' g' Hk [c Hl]. destruct (record_lookup _ _ _ _ _ _ Hl) as [He|He].
    + by destruct (abortAck_not_drain k' g' k g p Hk).
    + apply (co_proofs _ Hc); [done | by exists c].
  - cbn [perform]. apply (consistent_proofs _ (stored s)); [done | | apply (co_stored _ Hc)].
    intros k' g' Hk [c Hl]. unfold elapse in Hl. rewrite lookup_omap in Hl.
    apply bind_Some in Hl as (c' & Hl & _). apply (co_proofs _ Hc); [done | by exists c'].
  - cbn [perform]. by apply (consistent_managed _ (retired s)).
  - cbn [perform]. apply consistent_managed; [done|]. intros x Hx. by right.
  - cbn [perform allowed] in *. destruct Ha as [Hx Hg].
    apply (consistent_proofs _ (stored s)); [done | | apply (co_stored _ Hc)].
    intros k' g' Hk [c Hl]. destruct (record_lookup _ _ _ _ _ _ Hl) as [He|He].
    + destruct (abortAck_inj k' g' _ _ Hk (eq_sym He)) as [-> ->]. right. by apply retirement_stops.
    + apply (co_proofs _ Hc); [done | by exists c].
Qed.

Lemma reached_consistent es s : reaches react acknowledges es s -> consistent s.
Proof.
  induction 1 as [|es e s _ IH Ha]; [|by apply consistent_step]. split; cbn.
  - by intros i e ?%elem_of_nil.
  - by intros i k r w (st & Hst & _).
  - intros k g _ [c Hc]. by rewrite lookup_empty in Hc.
  - by intros k g ?%elem_of_nil.
  - by intros i k g r ?%elem_of_nil.
  - done.
Qed.
End invariant.


(** Replica 0 owns generation 7 of a stream; replica 1 asks for its abort. *)
Definition stays_calm (i : nat) (l : list Effect) (id : nat) (c : Call) : Reaction.t :=
  Reaction.mk false false.
Definition owner_of_7 (i : nat) (l : list Effect) (registration : nat) (g : option Z) : bool :=
  bool_decide (g = Some 7%Z).
Definition frame_to (i : nat) (m : PubSubMessage.t) : Event :=
  Does i (Arrives (events_channel "c1") (JSON_stringify (wire m))).
Definition handshake : list Event :=
  [Does 0 (Register Aborts "c1"); LooksUp "c1" 7; Confirms 1 "c1" 7 (Some false); Publishes 1 "c1" 0 7 "r";
   frame_to 0 (abort_message (Some 7%Z) (Some "r")); Stores 0 "c1" 7 "r" Answered;
   Does 0 (AckStored "c1" 7 "r" true); frame_to 1 (ack_message 7 "r")].
Definition handshake_end : Replicas := foldl (fun s e => perform stays_calm owner_of_7 e s) newReplicas handshake.

(** Events that are all allowed lead to a state that is reached. *)
Fixpoint legal react acknowledges (es : list Event) (s : Replicas) : Prop :=
  match es with
  | [] => True
  | e :: es => allowed e s /\ legal react acknowledges es (perform react acknowledges e s)
  end.
Lemma legal_reaches react acknowledges es0 es s :
  reaches react acknowledges es0 s -> legal react acknowledges es s ->
  reaches react acknowledges (es0 ++ es) (foldl (fun s e => perform react acknowledges e s) s es).
Proof.
  revert es0 s. induction es as [|e es IH]; intros es0 s Hr; [by rewrite app_nil_r|]. intros [Ha Hl].
  change (e :: es) with ([e] ++ es). rewrite app_assoc. apply IH; [by constructor | done].
Qed.
Lemma frame_allowed i j m s : Published "c1" m ∈ log (receiver s j) -> allowed (frame_to i m) s.
Proof.
  intros Hp k m'. rewrite (channel_of_stream "c1" ltac:(done) eq_refl). intros [= <-].
  change (decode (wire m) = Some m' -> PubSubMessage.type m' = ABORT \/ PubSubMessage.type m' = ABORT_ACK ->
    exists j, Published "c1" m' ∈ log (receiver s j)).
  rewrite decode_wire. intros [= <-] _. by exists j.
Qed.

Lemma handshake_legal : legal stays_calm owner_of_7 handshake newReplicas.
Proof.
  unfold handshake. cbn [legal]. split_and!; try done.
  - apply (frame_allowed 0 1). apply list_elem_of_In. vm_compute. tauto.
  - apply list_elem_of_In. vm_compute. tauto.
  - split; [apply list_elem_of_In; vm_compute; tauto | intros _]. apply list_elem_of_In.
    vm_compute. tauto.
  - apply (frame_allowed 1 0). apply list_elem_of_In. vm_compute. tauto.
Qed.

(** Replica 0 runs the provider of generation 7, and an append of it is refused: the proof that it
    stores confirms an abort for which no callback was called. *)
Definition local_7 : Owner.t := Owner.mk [("c1", LocalRuntime.mk 1 7 false false)] [("c1", 7%Z)].
Definition fence : list Event :=
  [Manages 0 local_7; Fences 0 "c1" 1; StoresProof (Retirement.mk 0 "c1" 1 local_7) 7 Answered; LooksUp "c1" 7;
   Confirms 1 "c1" 7 (Some true)].
Definition fence_end : Replicas := foldl (fun s e => perform stays_calm owner_of_7 e s) newReplicas fence.
Lemma fence_legal : legal stays_calm owner_of_7 fence newReplicas.
Proof.
  unfold fence. cbn [legal]. split_and!; try done.
  - split; [apply list_elem_of_In; vm_compute; tauto | by vm_compute].
  - intros _. apply list_elem_of_In. vm_compute. tauto.
Qed.
Example fence_confirms_without_callback :
  hasDurableAbortAck "c1" 7 (proofs fence_end) = true /\ log (receiver fence_end 0) = [].
Proof. by vm_compute. Qed.

