(* ===== verification/RedisLua.v ===== *)
(** * What the Lua scripts of the Redis job store compute with
      ([stream/implementations/RedisJobStore.ts])

    The keys of one stream as values with a time to live, the commands that the scripts send, and
    the JSON that [cjson] reads and writes.  [cjson] is not transparent: it writes an empty table
    as an object, so that an empty array does not survive, and numbers with fourteen digits
    ([lua_number], a parameter that is the identity on integers of that size).  The order in which
    it writes properties is unspecified; nothing reads it. *)

From stdpp Require Import pretty.
From S2P Require Import Prelude JsMap Json RedisScripts.

(** ** Keys of a stream *)

(** A text that Redis keeps: words, or a JSON document.  A field of the job hash holds one kind; the
    two are not compared with each other. *)
Inductive text := Word (s : string) | Doc (t : jtext).

#[export] Instance text_eq_dec : EqDecision text.
Proof. solve_decision. Defined.

Definition word (t : text) : option string := match t with Word s => Some s | Doc _ => None end.
Definition doc (t : text) : option jtext := match t with Doc t => Some t | Word _ => None end.

(** [KEYS] of a stream; a hash is a map of texts, a sorted set a map of scores. *)
Record Rows := {
  jobHash : option (Key.t (jsmap text));
  steersKey : option (Key.t (list jtext));
  claimedKey : option (Key.t (list jtext));
  parkedKey : option (Key.t jtext);
  receiptsKey : option (Key.t (jsmap jtext));
  orderKey : option (Key.t (jsmap Z))
}.
Definition no_rows : Rows := Build_Rows None None None None None None.

Definition with_steersKey v (r : Rows) : Rows := {| r with steersKey := v |}.
Definition with_claimedKey v (r : Rows) : Rows := {| r with claimedKey := v |}.
Definition with_parkedKey v (r : Rows) : Rows := {| r with parkedKey := v |}.
Definition with_receiptsKey v (r : Rows) : Rows := {| r with receiptsKey := v |}.
Definition with_orderKey v (r : Rows) : Rows := {| r with orderKey := v |}.
Definition with_jobHash v (r : Rows) : Rows := {| r with jobHash := v |}.

(** Commands on hashes, lists and sorted sets; a key that is not there is empty, and a write
    creates it without an expiry. *)
Definition content {A} (d : A) (k : option (Key.t A)) : A := from_option Key.value d k.
Definition rewrite_key {A} (v : A) (k : option (Key.t A)) : option (Key.t A) :=
  Some (Key.mk v (k ≫= Key.ttl)).

Definition HGET {A} (field : string) (k : option (Key.t (jsmap A))) : option A :=
  mget (content [] k) field.
Definition HSET {A} (field : string) (v : A) (k : option (Key.t (jsmap A)))
  : option (Key.t (jsmap A)) := rewrite_key (mset (content [] k) field v) k.
Definition LRANGE (k : option (Key.t (list jtext))) : list jtext := content [] k.
Definition LLEN (k : option (Key.t (list jtext))) : nat := length (LRANGE k).
Definition RPUSH (l : list jtext) (k : option (Key.t (list jtext))) : option (Key.t (list jtext)) :=
  match l with [] => k | _ :: _ => rewrite_key (LRANGE k ++ l) k end.
Definition LPUSH (v : jtext) (k : option (Key.t (list jtext))) : option (Key.t (list jtext)) :=
  rewrite_key (v :: LRANGE k) k.
Definition LSET (i : nat) (v : jtext) (k : option (Key.t (list jtext)))
  : option (Key.t (list jtext)) :=
  (fun key => Key.mk (<[i := v]> (Key.value key)) (Key.ttl key)) <$> k.
Definition ZADD (score : Z) (member : string) (k : option (Key.t (jsmap Z)))
  : option (Key.t (jsmap Z)) := HSET member score k.
Definition ZCARD (k : option (Key.t (jsmap Z))) : nat := length (content [] k).
Definition SET {A} (v : A) (ttl : option Z) : option (Key.t A) := Some (Key.mk v ttl).
(** [PTTL] followed by [PEXPIRE] when it is positive, on a key that was deleted and rewritten. *)
Definition keep_ttl {A} (old new : option (Key.t A)) : option (Key.t A) :=
  (fun key => Key.mk (Key.value key) (old ≫= Key.ttl)) <$> new.
(** [local ttl = TTL key; if ttl >= 0 and ttl < bound then EXPIRE key bound] *)
Definition extend_ttl {A} (bound : Z) (k : option (Key.t A)) : option (Key.t A) :=
  if decide (0 <= TTL k < bound)%Z then EXPIRE bound k else k.

(** ** Lua values *)

(** What a script answers, or the error it raises. *)
Inductive Reply :=
| RNil
| RInt (z : Z)
| RText (t : jtext)
| REmpty
| RWord (s : string)
| RArray (l : list jtext)
| RPair (t : jtext) (s : string)
| RError (message : string).

(** [nil] and [false] are not true; [null] is a value of its own, which is. *)
Definition truthy (x : option json) : bool :=
  match x with None | Some (JBool false) => false | _ => true end.

(** [a == b]: tables are equal only to themselves, hence never across two documents. *)
Definition lua_eq (a b : option json) : bool :=
  match a, b with
  | None, None | Some JNull, Some JNull => true
  | Some (JBool x), Some (JBool y) => bool_decide (x = y)
  | Some (JNum x), Some (JNum y) => bool_decide (x = y)
  | Some (JStr x), Some (JStr y) => bool_decide (x = y)
  | _, _ => false
  end.

(** [tostring(x or "")] when it can be the text of an integer: [%.14g]. *)
Definition tostring_or_empty (x : option json) : option string :=
  match x with
  | None | Some (JBool false) => Some ""
  | Some (JStr s) => Some s
  | Some (JNum (NInt z)) => if decide (Z.abs z < 10 ^ 14)%Z then Some (pretty z) else None
  | _ => None
  end.

(** [tonumber(x or 0)] for a number. *)
Definition tonumber_or_0 (x : option json) : Z :=
  match x with Some (JNum (NInt z)) => z | _ => 0 end.

(** [item.f = nil] and assignment of a property. *)
Definition jint (z : Z) : json := JNum (NInt z).

Section cjson.
Variable lua_number : jnum -> jnum.

(** A value that was decoded and is encoded again. *)
Fixpoint cjson (v : json) : json :=
  match v with
  | JNull => JNull
  | JBool b => JBool b
  | JNum n => JNum (lua_number n)
  | JStr s => JStr s
  | JArr [] => JObj []
  | JArr l => JArr (cjson <$> l)
  | JObj o => JObj ((fun e => (e.1, cjson e.2)) <$> o)
  end.

Definition cjson_encode (v : json) : jtext := Text (cjson v).
End cjson.

(** Fourteen digits: the documented behaviour that the code relies on. *)
Class LuaNumber (lua_number : jnum -> jnum) : Prop := {
  lua_number_exact : forall z, (Z.abs z < 10 ^ 14)%Z -> lua_number (NInt z) = NInt z
}.

Lemma jfield_cjson n v k : jfield (cjson n v) k = cjson n <$> jfield v k.
Proof.
  destruct v as [| | | |l|o]; cbn; try done; [by destruct l|].
  induction o as [|[k' x] o IH]; cbn; [done|]. by case_decide.
Qed.
Lemma is_object_cjson n v : is_object (cjson n v) = is_object v.
Proof. destruct v as [| | | |[]|]; done. Qed.

(** Texts of integers are not empty. *)
Lemma pretty_go_nonempty (x : N) s : s <> "" -> pretty_N_go x s <> "".
Proof.
  revert s. induction (N.lt_wf_0 x) as [x _ IH]. intros s Hs.
  destruct (decide (x = 0)%N) as [->|Hx]; [by rewrite pretty_N_go_0|].
  rewrite pretty_N_go_step by lia. apply IH; [by apply N.div_lt; lia | done].
Qed.
Lemma pretty_nonempty (z : Z) : pretty z <> "".
Proof.
  destruct z as [|p|p]; [done | | done]. change (pretty (Npos p) <> "").
  unfold pretty, pretty_N. case_decide; [done|]. rewrite pretty_N_go_step by lia.
  by apply pretty_go_nonempty.
Qed.
