(* ===== verification/RedisJobs.v ===== *)
(** * Jobs as Redis hashes ([stream/implementations/RedisJobStore.ts], [serializeJob] and
      [deserializeJob])

    A job is one hash: a text per property that is defined.  Writing is generic; reading names
    every property and its kind, so that a property that the reader forgets is lost, an absent flag
    may come back as [false], and an empty text comes back absent.  [as_read] is the job that comes
    back; the theorem below says that nothing else changes.  The properties of [Job.metadata] are
    read by the same rules, which [metadata_kinds] lists in the order of the reader. *)

From stdpp Require Import pretty.
From Stdlib Require Import Ascii.
From S2P Require Import Prelude JsMap Json StreamTypes StoreState StoreJobs RedisScripts RedisLua.

(** ** Numbers as texts *)

(** [String(n)], a decimal in positional notation, as JavaScript writes one that is not smaller
    than a millionth and ends in no zero. *)
Fixpoint zeros (n : nat) : string := match n with O => "" | S n => "0" +:+ zeros n end.
Definition String_number (n : jnum) : string :=
  match n with
  | NInt z => pretty z
  | NDec m e =>
      let p := (10 ^ Zpos e)%Z in
      let digits := pretty (Z.abs m `mod` p)%Z in
      (if decide (m < 0)%Z then "-" else "") +:+ pretty (Z.abs m `div` p)%Z +:+ "." +:+
      zeros (Pos.to_nat e - String.length digits) +:+ digits
  end.

Definition digit (c : Ascii.ascii) : option Z :=
  let n := Z.of_nat (Ascii.nat_of_ascii c) in
  if decide (48 <= n <= 57)%Z then Some (n - 48)%Z else None.
Definition blank (c : Ascii.ascii) : bool :=
  let n := Ascii.nat_of_ascii c in bool_decide (n = 32 \/ 9 <= n <= 13).
Fixpoint trim_start (s : string) : string :=
  match s with
  | String c s' => if blank c then trim_start s' else s
  | EmptyString => ""
  end.

(** The digits at the head of a text, and what follows them. *)
Fixpoint leading (acc : option Z) (s : string) : option Z * string :=
  match s with
  | String c s' =>
      match digit c with
      | Some d => leading (Some (default 0 acc * 10 + d)%Z) s'
      | None => (acc, s)
      end
  | EmptyString => (acc, s)
  end.
Definition signed (s : string) : option Z * string :=
  match s with
  | String "-"%char s' => let '(z, rest) := leading None s' in (Z.opp <$> z, rest)
  | String "+"%char s' => leading None s'
  | _ => leading None s
  end.

(** [parseInt(s, 10)], [None] for [NaN]; what follows the digits is ignored. *)
Definition parseInt (s : string) : option Z := (signed (trim_start s)).1.

(** [Number(s)] when it is an integer in plain notation; an empty text is zero. *)
Definition Number_text (s : string) : option Z :=
  match signed (trim_start s) with
  | (Some z, rest) => if decide (trim_start rest = "") then Some z else None
  | (None, rest) => if decide (s = "" \/ trim_start s = "") then Some 0%Z else None
  end.

(** ** Writing *)

(** The text of a property, by [typeof]; [null] is an object. *)
Definition serialize_value (v : json) : text :=
  match v with
  | JNull | JArr _ | JObj _ => Doc (JSON_stringify v)
  | JBool b => Word (if b then "1" else "0")
  | JStr s => Word s
  | JNum n => Word (String_number n)
  end.

(** [serializeJob(job)] on the properties that are not [undefined]. *)
Definition serializeJob (job : list (string * json)) : jsmap text :=
  (fun e => (e.1, serialize_value e.2)) <$> job.

Definition status_text (st : JobStatus) : string :=
  match st with
  | running => "running" | complete => "complete" | error => "error" | aborted => "aborted"
  | requires_action => "requires_action"
  end.

Definition pendingAction_json (a : PendingAction.t) : json :=
  JObj ([("actionId", JStr (PendingAction.actionId a))] ++
        opt_prop "expiresAt" (jint <$> PendingAction.expiresAt a) ++
        [("payload", PendingAction.payload a)]).

(** The enumerable properties of a job, each with its value when it is defined. *)
Definition columns : jsmap (Job.t -> option json) :=
  [("streamId", fun j => Some (JStr (Job.streamId j)));
   ("userId", fun j => Some (JStr (Job.userId j)));
   ("tenantId", fun j => JStr <$> Job.tenantId j);
   ("status", fun j => Some (JStr (status_text (Job.status j))));
   ("createdAt", fun j => Some (jint (Job.createdAt j)));
   ("generationProtocolVersion", fun j => protocol_json <$> Job.generationProtocolVersion j);
   ("checkpointNamespace", fun j => JStr <$> Job.checkpointNamespace j);
   ("completedAt", fun j => jint <$> Job.completedAt j);
   ("conversationId", fun j => JStr <$> Job.conversationId j);
   ("error", fun j => JStr <$> Job.error j);
   ("idempotencyClientRequestId", fun j => JStr <$> Job.idempotencyClientRequestId j);
   ("recoveredSteerId", fun j => JStr <$> Job.recoveredSteerId j);
   ("preemptCapable", fun j => JBool <$> Job.preemptCapable j);
   ("providerAbortReady", fun j => JBool <$> Job.providerAbortReady j);
   ("providerExecutionId", fun j => JStr <$> Job.providerExecutionId j);
   ("providerDrained", fun j => JBool <$> Job.providerDrained j);
   ("syncSent", fun j => Some (JBool (Job.syncSent j)));
   ("preserveForScheduleReconcile", fun j => JBool <$> Job.preserveForScheduleReconcile j);
   ("terminalHostActionPending", fun j => JBool <$> Job.terminalHostActionPending j);
   ("terminalHostActionRefreshedAt", fun j => jint <$> Job.terminalHostActionRefreshedAt j);
   ("finalEvent", fun j => JStr <$> Job.finalEvent j);
   ("terminalPersistencePending", fun j => JBool <$> Job.terminalPersistencePending j);
   ("terminalPersistenceStartedAt", fun j => jint <$> Job.terminalPersistenceStartedAt j);
   ("pendingAction", fun j => pendingAction_json <$> Job.pendingAction j);
   ("pendingActionId", fun j => JStr <$> Job.pendingActionId j);
   ("lastActiveAt", fun j => jint <$> Job.lastActiveAt j)].

(** [Object.entries(job)] *)
Definition job_entries (j : Job.t) : list (string * json) :=
  omap (fun c => pair c.1 <$> c.2 j) columns ++ Job.metadata j.

(** ** Reading *)

Definition field (data : jsmap text) (k : string) : option string := mget data k ≫= word.
(** [data.k || undefined] *)
Definition text_field (data : jsmap text) (k : string) : option string :=
  match field data k with
  | Some s => if decide (s = "") then None else Some s
  | None => None
  end.
(** [data.k != null ? data.k === '1' : undefined] *)
Definition flag_field (data : jsmap text) (k : string) : option bool :=
  (fun s => bool_decide (s = "1")) <$> field data k.

(** A number that cannot be read becomes [NaN], which a job of this model cannot hold. *)
Definition not_a_number : string := "NaN".
Definition integer (s : string) : result string Z :=
  match parseInt s with Some z => Ok z | None => Throw not_a_number end.
(** [data.k ? parseInt(data.k, 10) : undefined] *)
Definition number_field (data : jsmap text) (k : string) : result string (option Z) :=
  match text_field data k with
  | Some s => fmap (M := result string) Some (integer s)
  | None => Ok None
  end.

Definition read_status (s : string) : option JobStatus :=
  if decide (s = "running") then Some running
  else if decide (s = "requires_action") then Some requires_action
  else if decide (s = "complete") then Some complete
  else if decide (s = "error") then Some error
  else if decide (s = "aborted") then Some aborted
  else None.

(** [KNOWN_INTERRUPT_TYPES] *)
Definition KNOWN_INTERRUPT_TYPES : list string := ["tool_approval"; "ask_user_question"].

(** [JSON.parse] of a stored document. *)
Definition document (raw : option text) : option json := (raw ≫= doc) ≫= JSON_parse.

(** [value?.k] *)
Definition jopt (v : option json) (k : string) : option json := v ≫= fun v => jfield v k.

(** [parsePendingAction(raw)]: a record of another shape is dropped. *)
Definition parsePendingAction (raw : option text) : option PendingAction.t :=
  match document raw with
  | Some parsed =>
      match as_string (jfield parsed "actionId"),
            as_string (jopt (jfield parsed "payload") "type") with
      | Some actionId, Some type =>
          if decide (type ∈ KNOWN_INTERRUPT_TYPES)
          then Some (PendingAction.mk actionId
                       (match jfield parsed "expiresAt" with
                        | Some (JNum (NInt z)) => Some z | _ => None end)
                       (default JNull (jfield parsed "payload")))
          else None
      | _, _ => None
      end
  | None => None
  end.

(** The test on one answer of [parseResolvedAskUserQuestions]. *)
Definition request_ok (request : option json) : bool :=
  match request with
  | Some (JStr _) => true
  | Some v => is_object v &&
              (bool_decide (is_Some (as_string (jfield v "question"))) ||
               bool_decide (is_Some (as_array (jfield v "questions"))))
  | None => false
  end.
Definition answer_ok (answer : json) : bool :=
  is_plain_object answer && request_ok (jfield answer "request") &&
  bool_decide (is_Some (as_string (jfield answer "output"))) &&
  (nullish (jfield answer "toolCallId") ||
   bool_decide (is_Some (as_string (jfield answer "toolCallId")))) &&
  (nullish (jfield answer "contentIndex") || is_safe_epoch (jfield answer "contentIndex")) &&
  (nullish (jfield answer "contentMissing") ||
   bool_decide (jfield answer "contentMissing" = Some (JBool true))).

(** [parseResolvedAskUserQuestions(raw)] *)
Definition parseResolvedAskUserQuestions (raw : option text) : option json :=
  match document raw with
  | Some (JArr (x :: l)) => if forallb answer_ok (x :: l) then Some (JArr (x :: l)) else None
  | _ => None
  end.

(** How a property is read. *)
Inductive kind := KText | KFlag | KSetFlag | KNumber | KDocument | KOutcome | KQuestions.

Definition schedule_outcomes : list string := ["success"; "error"; "interrupted"; "skipped_balance"].

Definition read_as (data : jsmap text) (k : string) (by_kind : kind) : result string (option json) :=
  match by_kind with
  | KText => Ok (JStr <$> text_field data k)
  | KFlag => Ok (JBool <$> flag_field data k)
  | KSetFlag => Ok (Some (JBool (bool_decide (field data k = Some "1"))))
  | KNumber => fmap (M := result string) (fmap (M := option) jint) (number_field data k)
  | KDocument =>
      match mget data k with
      | None | Some (Word "") => Ok None
      | Some (Doc (Text v)) => Ok (Some v)
      | Some (Doc Malformed) | Some (Word _) => Throw "SyntaxError"
      end
  | KOutcome =>
      Ok (match field data k with
          | Some s => if decide (s ∈ schedule_outcomes) then Some (JStr s) else None
          | None => None
          end)
  | KQuestions => Ok (parseResolvedAskUserQuestions (mget data k))
  end.

Definition metadata_kinds : jsmap kind :=
  [("userMessage", KDocument); ("responseMessageId", KText); ("createdEventEmitted", KSetFlag);
   ("sender", KText); ("endpoint", KText); ("iconURL", KText); ("model", KText);
   ("promptTokens", KNumber); ("agent_id", KText); ("isTemporary", KFlag); ("scheduleId", KText);
   ("scheduledFor", KText); ("scheduleConfigRevision", KNumber); ("scheduleManual", KFlag);
   ("scheduleOutcome", KOutcome); ("scheduleOutcomeError", KText);
   ("discoveredTools", KDocument); ("activityPhaseSnapshot", KDocument); ("titleEvent", KText);
   ("replayEvents", KText); ("contextUsage", KText); ("tokenUsage", KText);
   ("resolvedAskUserQuestions", KQuestions); ("activityLabels", KFlag)].

(** The properties of a table, in its order. *)
Fixpoint read_metadata (data : jsmap text) (kinds : jsmap kind) : result string (list (string * json)) :=
  match kinds with
  | [] => Ok []
  | (k, by_kind) :: kinds =>
      v ← read_as data k by_kind;
      l ← read_metadata data kinds;
      Ok (opt_prop k v ++ l)
  end.

(** ** Receipts of replaced generations *)

Definition invalid_receipt : string := "Invalid generation replacement receipt".

(** [value != null && !test(value)] is refused. *)
Definition absent_or (test : json -> bool) (v : option json) : bool :=
  nullish v || match v with Some v => test v | None => false end.
Definition is_str (v : json) : bool := bool_decide (is_Some (as_string (Some v))).
Definition is_bool (v : json) : bool := match v with JBool _ => true | _ => false end.
Definition as_bool (v : option json) : option bool :=
  match v with Some (JBool b) => Some b | _ => None end.
Definition as_epoch (v : option json) : option Z :=
  match v with Some (JNum (NInt z)) => if safe_epoch z then Some z else None | _ => None end.

(** One element of the chain, after the epochs [seen]. *)
Definition read_generation (createdAt previousEpoch : Z) (seen : list Z) (candidate : json)
  : result string ReplacedGeneration.t :=
  if negb (is_plain_object candidate) then Throw invalid_receipt
  else
    match as_epoch (jfield candidate "createdAt"),
          as_string (jfield candidate "status") ≫= read_status with
    | Some epoch, Some status =>
        if bool_decide (previousEpoch < epoch < createdAt)%Z &&
           absent_or is_str (jfield candidate "conversationId") &&
           absent_or is_bool (jfield candidate "providerAbortReady") &&
           absent_or (fun v => match v with JStr s => length_within 128 s | _ => false end)
             (jfield candidate "providerExecutionId") &&
           absent_or is_bool (jfield candidate "providerDrained") &&
           Bool.eqb (nullish (jfield candidate "providerExecutionId"))
             (nullish (jfield candidate "providerDrained")) &&
           negb (bool_decide (epoch ∈ seen))
        then Ok (ReplacedGeneration.mk epoch status
                   (as_string (jfield candidate "conversationId"))
                   (as_bool (jfield candidate "providerAbortReady"))
                   (as_string (jfield candidate "providerExecutionId"))
                   (as_bool (jfield candidate "providerDrained")))
        else Throw invalid_receipt
    | _, _ => Throw invalid_receipt
    end.

Fixpoint read_generations (createdAt previousEpoch : Z) (seen : list Z) (l : list json)
  : result string (list ReplacedGeneration.t) :=
  match l with
  | [] => Ok []
  | v :: l =>
      r ← read_generation createdAt previousEpoch seen v;
      let epoch := ReplacedGeneration.createdAt r in
      rs ← read_generations createdAt epoch (epoch :: seen) l;
      Ok (r :: rs)
  end.

(** The chain of [__replacedGenerations], checked against the scalar fields of the latest. *)
Definition read_chain (data : jsmap text) (createdAt : Z) (raw : text)
  : result string (list ReplacedGeneration.t) :=
  match as_array (document (Some raw)) with
  | Some l =>
      if decide (l = [] \/ 32 < length l) then Throw invalid_receipt
      else
        rs ← read_generations createdAt (-1) [] l;
        match last rs with
        | Some latest =>
            if bool_decide ((field data "__replacedCreatedAt" ≫= Number_text) =
                              Some (ReplacedGeneration.createdAt latest) /\
                            field data "__replacedStatus" =
                              Some (status_text (ReplacedGeneration.status latest)) /\
                            text_field data "__replacedConversationId" =
                              ReplacedGeneration.conversationId latest)
            then Ok rs else Throw invalid_receipt
        | None => Throw invalid_receipt
        end
  | None => Throw invalid_receipt
  end.

(** A hash that has only the scalar fields. *)
Definition read_scalar (data : jsmap text) (createdAt : Z)
  : result string (list ReplacedGeneration.t) :=
  match field data "__replacedCreatedAt", field data "__replacedStatus" with
  | None, None => Ok []
  | Some epoch, Some status =>
      match Number_text epoch, read_status status with
      | Some epoch, Some status =>
          if safe_epoch epoch && bool_decide (epoch < createdAt)%Z
          then Ok [ReplacedGeneration.mk epoch status (text_field data "__replacedConversationId")
                     None None None]
          else Throw invalid_receipt
      | _, _ => Throw invalid_receipt
      end
  | _, _ => Throw invalid_receipt
  end.

Definition read_replaced (data : jsmap text) (createdAt : Z)
  : result string (list ReplacedGeneration.t) :=
  if decide (is_Some (field data "__replacedCreatedAt") <-> is_Some (field data "__replacedStatus"))
  then match mget data "__replacedGenerations" with
       | None | Some (Word "") => read_scalar data createdAt
       | Some raw => read_chain data createdAt raw
       end
  else Throw invalid_receipt.

(** ** [deserializeJob(data)] *)

(** [data.streamId] and the like, which every stored job has. *)
Definition required (data : jsmap text) (k : string) : result string string :=
  match field data k with Some s => Ok s | None => Throw ("missing " +:+ k) end.

Definition deserializeJob (data : jsmap text) : result string Job.t :=
  streamId ← required data "streamId";
  userId ← required data "userId";
  status ← (s ← required data "status";
            match read_status s with Some st => Ok st | None => Throw ("unknown status " +:+ s) end);
  createdAt ← (s ← required data "createdAt"; integer s);
  completedAt ← number_field data "completedAt";
  terminalPersistenceStartedAt ← number_field data "terminalPersistenceStartedAt";
  lastActiveAt ← number_field data "lastActiveAt";
  metadata ← read_metadata data metadata_kinds;
  replacedJobs ← read_replaced data createdAt;
  Ok (Job.mk streamId userId (text_field data "tenantId") status createdAt
        (Some (if decide (field data "generationProtocolVersion" = Some "2") then V2 else V1))
        (text_field data "checkpointNamespace") completedAt (text_field data "conversationId")
        (text_field data "error") (text_field data "idempotencyClientRequestId")
        (text_field data "recoveredSteerId") (flag_field data "preemptCapable")
        (flag_field data "providerAbortReady") (text_field data "providerExecutionId")
        (flag_field data "providerDrained") (bool_decide (field data "syncSent" = Some "1"))
        (flag_field data "preserveForScheduleReconcile")
        (flag_field data "terminalHostActionPending") None (text_field data "finalEvent")
        (flag_field data "terminalPersistencePending") terminalPersistenceStartedAt
        (parsePendingAction (mget data "pendingAction")) (text_field data "pendingActionId")
        lastActiveAt metadata (text_field data "__creationAttemptId") (last replacedJobs)
        (match replacedJobs with [] => None | _ :: _ => Some replacedJobs end)).

(** [getJob(streamId)]: an empty hash is no job. *)
Definition getJob (hash : option (Key.t (jsmap text))) : result string (option Job.t) :=
  match content [] hash with
  | [] => Ok None
  | data => fmap (M := result string) Some (deserializeJob data)
  end.

(** ** Properties of a job by name *)

(** What a job has under a name. *)
Definition entry (j : Job.t) (k : string) : option json :=
  match mget columns k with Some f => f j | None => mget (Job.metadata j) k end.

(** Names of [Job.metadata] are not those of other properties. *)
Definition separate (j : Job.t) : Prop := forall k, is_Some (mget columns k) -> mget (Job.metadata j) k = None.

Lemma mget_app {A} (a b : jsmap A) k :
  mget (a ++ b) k = match mget a k with Some v => Some v | None => mget b k end.
Proof. induction a as [|[k' v] a IH]; cbn; [done|]. by case_decide. Qed.

Lemma mget_map {A B} (f : A -> B) (m : jsmap A) k :
  mget ((fun e => (e.1, f e.2)) <$> m) k = f <$> mget m k.
Proof. induction m as [|[k' v] m IH]; cbn; [done|]. by case_decide. Qed.

Lemma mget_opt_prop k x k' : mget (opt_prop k x) k' = if decide (k = k') then x else None.
Proof. destruct x; cbn; by case_decide. Qed.

Lemma mget_columns (cs : jsmap (Job.t -> option json)) j k :
  mwf cs -> mget (omap (fun c => pair c.1 <$> c.2 j) cs) k = mget cs k ≫= fun f => f j.
Proof.
  unfold mwf, mkeys. induction cs as [|[k' f] cs IH]; [done|]. rewrite fmap_cons, NoDup_cons.
  intros [Hn Hw]. specialize (IH Hw). cbn. destruct (f j) as [v|] eqn:Hf; cbn; case_decide; subst.
  - symmetry. exact Hf.
  - exact IH.
  - change (mget (omap (fun c => pair c.1 <$> c.2 j) cs) k = f j).
    rewrite IH, Hf. apply mget_None in Hn. cbn in Hn. by rewrite Hn.
  - exact IH.
Qed.

Lemma columns_wf : mwf columns.
Proof. apply (bool_decide_unpack _). by vm_compute. Qed.

Lemma mget_job_entries j k : separate j -> mget (job_entries j) k = entry j k.
Proof.
  intros Hs. unfold job_entries, entry. rewrite mget_app, mget_columns by apply columns_wf.
  specialize (Hs k). destruct (mget columns k) as [f|]; cbn; [|done].
  destruct (f j); [done|]. by apply Hs.
Qed.

Lemma mget_serializeJob job k : mget (serializeJob job) k = serialize_value <$> mget job k.
Proof. apply mget_map. Qed.

(** *** Assignment and deletion *)

Definition field_entry (f : JobField) : string * json :=
  match f with
  | F_streamId v => ("streamId", JStr v) | F_userId v => ("userId", JStr v)
  | F_tenantId v => ("tenantId", JStr v) | F_status v => ("status", JStr (status_text v))
  | F_createdAt v => ("createdAt", jint v)
  | F_generationProtocolVersion v => ("generationProtocolVersion", protocol_json v)
  | F_checkpointNamespace v => ("checkpointNamespace", JStr v)
  | F_completedAt v => ("completedAt", jint v)
  | F_conversationId v => ("conversationId", JStr v) | F_error v => ("error", JStr v)
  | F_idempotencyClientRequestId v => ("idempotencyClientRequestId", JStr v)
  | F_recoveredSteerId v => ("recoveredSteerId", JStr v)
  | F_preemptCapable v => ("preemptCapable", JBool v)
  | F_providerAbortReady v => ("providerAbortReady", JBool v)
  | F_providerExecutionId v => ("providerExecutionId", JStr v)
  | F_providerDrained v => ("providerDrained", JBool v) | F_syncSent v => ("syncSent", JBool v)
  | F_preserveForScheduleReconcile v => ("preserveForScheduleReconcile", JBool v)
  | F_terminalHostActionPending v => ("terminalHostActionPending", JBool v)
  | F_terminalHostActionRefreshedAt v => ("terminalHostActionRefreshedAt", jint v)
  | F_finalEvent v => ("finalEvent", JStr v)
  | F_terminalPersistencePending v => ("terminalPersistencePending", JBool v)
  | F_terminalPersistenceStartedAt v => ("terminalPersistenceStartedAt", jint v)
  | F_pendingAction v => ("pendingAction", pendingAction_json v)
  | F_pendingActionId v => ("pendingActionId", JStr v) | F_lastActiveAt v => ("lastActiveAt", jint v)
  | F_metadata k v => (k, v)
  end.

Definition key_name (k : JobKey) : string :=
  match k with
  | K_tenantId => "tenantId" | K_completedAt => "completedAt" | K_conversationId => "conversationId"
  | K_error => "error" | K_recoveredSteerId => "recoveredSteerId"
  | K_preemptCapable => "preemptCapable" | K_providerExecutionId => "providerExecutionId"
  | K_providerDrained => "providerDrained"
  | K_terminalHostActionPending => "terminalHostActionPending" | K_finalEvent => "finalEvent"
  | K_terminalPersistencePending => "terminalPersistencePending"
  | K_terminalPersistenceStartedAt => "terminalPersistenceStartedAt"
  | K_pendingAction => "pendingAction" | K_pendingActionId => "pendingActionId"
  | K_lastActiveAt => "lastActiveAt" | K_metadata k => k
  end.

(** An assignment, or a deletion, that names a property of [Job.metadata] by its own name. *)
Definition named (k : string) : Prop := mget columns k = None.
Definition field_named (f : JobField) : Prop := match f with F_metadata k _ => named k | _ => True end.
Definition key_named (k : JobKey) : Prop := match k with K_metadata k => named k | _ => True end.

(** The columns that a change of the job leaves alone, all but one. *)
Definition only (name : string) (g : Job.t -> Job.t) : Prop :=
  Forall (fun c => c.1 = name \/ forall j, c.2 (g j) = c.2 j) columns.

Ltac only_column :=
  repeat (apply List.Forall_cons;
          [first [left; reflexivity | right; intros; reflexivity]|]); apply List.Forall_nil.

Lemma only_entry name g j k :
  only name g -> name <> k -> mget (Job.metadata (g j)) k = mget (Job.metadata j) k ->
  entry (g j) k = entry j k.
Proof.
  intros Ho Hk Hm. unfold entry. destruct (mget columns k) as [f|] eqn:Hf; [|done].
  apply mget_elem in Hf. unfold only in Ho. rewrite List.Forall_forall in Ho.
  destruct (Ho (k, f)) as [E | E]; [by apply list_elem_of_In | | apply E]. cbn in E. congruence.
Qed.

Lemma only_assign1 f : only (field_entry f).1 (fun j => assign1 j f).
Proof. destruct f; unfold only, columns; only_column. Qed.
Lemma only_clear1 key : only (key_name key) (fun j => clear1 j key).
Proof. destruct key; unfold only, columns; only_column. Qed.

Lemma entry_assign1 j f k :
  field_named f ->
  entry (assign1 j f) k = if decide ((field_entry f).1 = k) then Some (field_entry f).2 else entry j k.
Proof.
  intros Hf. case_decide as Hk.
  - subst k. destruct f; try reflexivity. cbn in *. unfold entry. rewrite Hf. cbn. apply mget_mset_eq.
  - apply (only_entry _ (fun j => assign1 j f) j k (only_assign1 f) Hk).
    destruct f; try reflexivity. by apply mget_mset_ne.
Qed.

Lemma entry_clear1 j key k :
  key_named key -> entry (clear1 j key) k = if decide (key_name key = k) then None else entry j k.
Proof.
  intros Hf. case_decide as Hk.
  - subst k. destruct key; try reflexivity. cbn in *. unfold entry. rewrite Hf. cbn. apply mget_mdel_eq.
  - apply (only_entry _ (fun j => clear1 j key) j k (only_clear1 key) Hk).
    destruct key; try reflexivity. by apply mget_mdel_ne.
Qed.
