(* ===== verification/RedisRoundTrip.v ===== *)
(** * A stored job is read back ([serializeJob] against [deserializeJob])

    The hash of a job has a text per defined property, and the private fields that its creation
    wrote.  Reading it gives the same job, up to what the texts cannot tell apart, what the reader
    validates, and the one property that it does not know ([as_read]). *)

From stdpp Require Import pretty.
From Stdlib Require Import Ascii.
From S2P Require Import Prelude JsMap Json StreamTypes StoreState StoreJobs RedisScripts RedisLua RedisJobs.

(** ** Integers as texts *)

Lemma digit_char (d : N) : (d < 10)%N -> digit (pretty_N_char d) = Some (Z.of_N d).
Proof.
  intros Hd. assert (Hin : d ∈ [0; 1; 2; 3; 4; 5; 6; 7; 8; 9]%N).
  { rewrite !elem_of_cons, elem_of_nil. lia. }
  repeat (apply elem_of_cons in Hin as [->|Hin]; [reflexivity|]). by apply elem_of_nil in Hin.
Qed.

Lemma leading_pretty_go (x : N) s :
  (0 < x)%N -> leading None (pretty_N_go x s) = leading (Some (Z.of_N x)) s.
Proof.
  revert s. induction (N.lt_wf_0 x) as [x _ IH]. intros s Hx.
  rewrite pretty_N_go_step by lia. pose proof (N.div_mod x 10 ltac:(lia)) as Hdm.
  pose proof (N.mod_lt x 10 ltac:(lia)) as Hlt.
  destruct (decide (x `div` 10 = 0)%N) as [H0|Hne].
  - rewrite H0, pretty_N_go_0. cbn [leading]. rewrite digit_char by done. cbn [default]. do 2 f_equal. lia.
  - rewrite IH; [|apply N.div_lt; lia | lia]. cbn [leading]. rewrite digit_char by done.
    unfold default, id. do 2 f_equal. lia.
Qed.

Lemma pretty_go_head (x : N) s :
  (0 < x)%N -> exists c s', pretty_N_go x s = String c s' /\ is_Some (digit c).
Proof.
  revert s. induction (N.lt_wf_0 x) as [x _ IH]. intros s Hx. rewrite pretty_N_go_step by lia.
  pose proof (N.mod_lt x 10 ltac:(lia)) as Hlt. destruct (decide (x `div` 10 = 0)%N) as [H0|Hne].
  - rewrite H0, pretty_N_go_0. eexists _, _. split; [done|]. rewrite digit_char by done. by eexists.
  - apply IH; [apply N.div_lt; lia | by apply N.neq_0_lt_0].
Qed.

(** A digit is neither a blank nor a sign. *)
Lemma signed_digit c s :
  is_Some (digit c) -> trim_start (String c s) = String c s /\
  signed (String c s) = leading None (String c s).
Proof.
  intros [d Hd]. destruct c as [[] [] [] [] [] [] [] []]; try done; by vm_compute in Hd.
Qed.

Lemma signed_pretty_pos (p : positive) :
  trim_start (pretty (Zpos p)) = pretty (Zpos p) /\
  leading None (pretty (Zpos p)) = (Some (Zpos p), "") /\
  signed (pretty (Zpos p)) = (Some (Zpos p), "").
Proof.
  change (pretty (Zpos p)) with (pretty (Npos p)). unfold pretty, pretty_N.
  rewrite decide_False by done.
  destruct (pretty_go_head (Npos p) "" ltac:(lia)) as (c & s' & E & Hc).
  destruct (signed_digit c s' Hc) as [H1 H2]. rewrite <- E in H1, H2.
  split; [done|]. rewrite H2. by rewrite leading_pretty_go by lia.
Qed.

Lemma signed_pretty (z : Z) : trim_start (pretty z) = pretty z /\ signed (pretty z) = (Some z, "").
Proof.
  destruct z as [|p|p]; [done | |].
  - by destruct (signed_pretty_pos p) as (H & _ & H').
  - change (pretty (Zneg p)) with (String "-"%char (pretty (Zpos p))). split; [done|].
    cbn [signed]. destruct (signed_pretty_pos p) as (_ & -> & _). done.
Qed.

Lemma parseInt_pretty z : parseInt (pretty z) = Some z.
Proof. unfold parseInt. destruct (signed_pretty z) as [-> ->]. done. Qed.
Lemma Number_pretty z : Number_text (pretty z) = Some z.
Proof. unfold Number_text. by destruct (signed_pretty z) as [-> ->]. Qed.
Lemma read_status_text st : read_status (status_text st) = Some st.
Proof. by destruct st. Qed.

(** ** The job that comes back *)

(** [x || undefined] *)
Definition nonempty (x : option string) : option string :=
  match x with Some s => if decide (s = "") then None else Some s | None => None end.

Definition normal_value (by_kind : kind) (v : option json) : option json :=
  match by_kind with
  | KText => JStr <$> nonempty (as_string v)
  | KSetFlag => Some (JBool (bool_decide (v = Some (JBool true))))
  | KOutcome =>
      match as_string v with
      | Some s => if decide (s ∈ schedule_outcomes) then v else None
      | None => None
      end
  | KQuestions =>
      match v with Some (JArr (x :: l)) => if forallb answer_ok (x :: l) then v else None | _ => None end
  | _ => v
  end.

Fixpoint normal_metadata (m : list (string * json)) (kinds : jsmap kind) : list (string * json) :=
  match kinds with
  | [] => []
  | (k, by_kind) :: kinds => opt_prop k (normal_value by_kind (mget m k)) ++ normal_metadata m kinds
  end.

Definition known_review (a : PendingAction.t) : bool :=
  match as_string (jfield (PendingAction.payload a) "type") with
  | Some t => bool_decide (t ∈ KNOWN_INTERRUPT_TYPES) | None => false
  end.

(** The job that is read back from the hash of [j]. *)
Definition as_read (j : Job.t) : Job.t :=
  Job.mk (Job.streamId j) (Job.userId j) (nonempty (Job.tenantId j)) (Job.status j)
    (Job.createdAt j) (Some (default V1 (Job.generationProtocolVersion j)))
    (nonempty (Job.checkpointNamespace j)) (Job.completedAt j)
    (nonempty (Job.conversationId j)) (nonempty (Job.error j))
    (nonempty (Job.idempotencyClientRequestId j)) (nonempty (Job.recoveredSteerId j))
    (Job.preemptCapable j) (Job.providerAbortReady j) (nonempty (Job.providerExecutionId j))
    (Job.providerDrained j) (Job.syncSent j) (Job.preserveForScheduleReconcile j)
    (Job.terminalHostActionPending j) None (nonempty (Job.finalEvent j))
    (Job.terminalPersistencePending j) (Job.terminalPersistenceStartedAt j)
    (a ← Job.pendingAction j; if known_review a then Some a else None)
    (nonempty (Job.pendingActionId j)) (Job.lastActiveAt j)
    (normal_metadata (Job.metadata j) metadata_kinds) (nonempty (Job.creationAttemptId j))
    (Job.replacedJob j) (Job.replacedJobs j).

(** ** Stored jobs *)

(** A value of the type that the interface gives to a property. *)
Definition typed (by_kind : kind) (v : json) : bool :=
  match by_kind, v with
  | (KText | KOutcome), JStr _ | (KFlag | KSetFlag), JBool _ | KNumber, JNum (NInt _)
  | KDocument, JObj _ | KDocument, JArr _ | KQuestions, JArr _ => true
  | _, _ => false
  end.
Definition typed_property (e : string * json) : Prop :=
  exists by_kind, mget metadata_kinds e.1 = Some by_kind /\ typed by_kind e.2 = true.

(** A receipt that creation may write, after the epoch [previous] and before [createdAt]. *)
Definition receipt_ok (createdAt previous : Z) (r : ReplacedGeneration.t) : Prop :=
  (previous < ReplacedGeneration.createdAt r < createdAt)%Z /\
  safe_epoch (ReplacedGeneration.createdAt r) = true /\
  (forall i, ReplacedGeneration.providerExecutionId r = Some i -> length_within 128 i = true) /\
  (ReplacedGeneration.providerExecutionId r = None <-> ReplacedGeneration.providerDrained r = None).
Fixpoint chain_ok (createdAt previous : Z) (l : list ReplacedGeneration.t) : Prop :=
  match l with
  | [] => True
  | r :: l => receipt_ok createdAt previous r /\ chain_ok createdAt (ReplacedGeneration.createdAt r) l
  end.

(** The receipts of a job: none, or at most 32 of them, the latest apart as [replacedJob]; the
    latest has no empty conversation id, which would not be read back. *)
Definition replaced_ok (j : Job.t) : Prop :=
  match Job.replacedJobs j with
  | None => Job.replacedJob j = None
  | Some l =>
      l <> [] /\ length l <= 32 /\ chain_ok (Job.createdAt j) (-1) l /\
      Job.replacedJob j = last l /\
      forall r, last l = Some r -> ReplacedGeneration.conversationId r <> Some ""
  end.

Record storable (j : Job.t) : Prop := {
  sb_typed : Forall typed_property (Job.metadata j);
  sb_replaced : replaced_ok j
}.

(** The receipt that [JOB_CREATE_LUA] writes, and the private fields of a hash. *)
Definition receipt_json (r : ReplacedGeneration.t) : json :=
  JObj ([("createdAt", jint (ReplacedGeneration.createdAt r));
         ("status", JStr (status_text (ReplacedGeneration.status r)))] ++
        opt_prop "conversationId" (JStr <$> ReplacedGeneration.conversationId r) ++
        opt_prop "providerAbortReady" (JBool <$> ReplacedGeneration.providerAbortReady r) ++
        opt_prop "providerExecutionId" (JStr <$> ReplacedGeneration.providerExecutionId r) ++
        opt_prop "providerDrained" (JBool <$> ReplacedGeneration.providerDrained r)).

Definition opt_word (k : string) (s : option string) : jsmap text :=
  match s with Some s => [(k, Word s)] | None => [] end.
Definition private_fields (j : Job.t) : jsmap text :=
  opt_word "__creationAttemptId" (Job.creationAttemptId j) ++
  match Job.replacedJob j with
  | Some r =>
      [("__replacedCreatedAt", Word (pretty (ReplacedGeneration.createdAt r)));
       ("__replacedStatus", Word (status_text (ReplacedGeneration.status r)))] ++
      opt_word "__replacedConversationId" (ReplacedGeneration.conversationId r)
  | None => []
  end ++
  match Job.replacedJobs j with
  | Some l => [("__replacedGenerations", Doc (Text (JArr (receipt_json <$> l))))]
  | None => []
  end.

(** The hash of a job, but for the flag that closes its queue. *)
Definition job_fields (j : Job.t) : jsmap text := serializeJob (job_entries j) ++ private_fields j.
Definition keeps_job (data : jsmap text) (j : Job.t) : Prop :=
  forall k, k <> "steersClosed" -> mget data k = mget (job_fields j) k.

(** ** Fields of the hash *)

Definition private_names : list string :=
  ["__creationAttemptId"; "__replacedCreatedAt"; "__replacedStatus"; "__replacedConversationId";
   "__replacedGenerations"].

Lemma opt_word_get k s k' : mget (opt_word k s) k' = if decide (k = k') then Word <$> s else None.
Proof. destruct s; cbn; by case_decide. Qed.

(** A name of a table is not one of another. *)
Lemma tables_apart {A B} (m : jsmap A) (m' : jsmap B) k :
  forallb (fun k => bool_decide (mget m' k = None)) (mkeys m) = true ->
  is_Some (mget m k) -> mget m' k = None.
Proof.
  intros H Hk. apply mkeys_mget in Hk. rewrite forallb_forall in H.
  apply list_elem_of_In in Hk. specialize (H _ Hk). by bool_facts.
Qed.

Lemma private_other j k : k ∉ private_names -> mget (private_fields j) k = None.
Proof.
  intros Hk. unfold private_names in Hk. rewrite !not_elem_of_cons in Hk.
  destruct Hk as (H0 & H1 & H2 & H3 & H4 & _). unfold private_fields.
  rewrite !mget_app, opt_word_get, decide_False by done.
  destruct (Job.replacedJob j) as [r|], (Job.replacedJobs j) as [l|]; cbn;
    rewrite ?mget_app, ?opt_word_get; repeat (rewrite decide_False by done); done.
Qed.

Section stored.
Variables (data : jsmap text) (j : Job.t).
Hypothesis Hdata : keeps_job data j.
Hypothesis Hj : storable j.

Lemma metadata_kind k v :
  mget (Job.metadata j) k = Some v ->
  exists by_kind, mget metadata_kinds k = Some by_kind /\ typed by_kind v = true.
Proof.
  intros Hv. apply mget_elem in Hv. destruct Hj as [Ht _]. rewrite List.Forall_forall in Ht.
  by apply (Ht (k, v)), list_elem_of_In.
Qed.

Lemma stored_separate : separate j.
Proof.
  intros k Hk. destruct (mget (Job.metadata j) k) as [v|] eqn:Hv; [|done].
  destruct (metadata_kind k v Hv) as (b & Hb & _).
  rewrite (tables_apart columns metadata_kinds k) in Hb; [done | by vm_compute | done].
Qed.

Lemma public_field k :
  k <> "steersClosed" -> k ∉ private_names -> mget data k = serialize_value <$> entry j k.
Proof.
  intros Hk Hp. rewrite Hdata by done. unfold job_fields.
  rewrite mget_app, mget_serializeJob, mget_job_entries by apply stored_separate.
  rewrite private_other by done. by destruct (entry j k).
Qed.

Lemma private_field k :
  k <> "steersClosed" -> mget columns k = None -> mget metadata_kinds k = None ->
  mget data k = mget (private_fields j) k.
Proof.
  intros Hk Hc Hm. rewrite Hdata by done. unfold job_fields.
  rewrite mget_app, mget_serializeJob, mget_job_entries by apply stored_separate.
  unfold entry. rewrite Hc. destruct (mget (Job.metadata j) k) as [v|] eqn:Hv; [|done].
  destruct (metadata_kind k v Hv) as (b & Hb & _). congruence.
Qed.

(** A column read by its kind. *)
Lemma text_column k (x : option string) :
  mget data k = serialize_value <$> (JStr <$> x) -> text_field data k = nonempty x.
Proof. unfold text_field, field. intros ->. by destruct x. Qed.
Lemma flag_column k (x : option bool) :
  mget data k = serialize_value <$> (JBool <$> x) -> flag_field data k = x.
Proof. unfold flag_field, field. intros ->. by destruct x as [[]|]. Qed.
Lemma number_column k (x : option Z) :
  mget data k = serialize_value <$> (jint <$> x) -> number_field data k = Ok x.
Proof.
  unfold number_field, text_field, field. intros ->. destruct x as [z|]; cbn; [|done].
  rewrite decide_False by apply pretty_nonempty. unfold integer. by rewrite parseInt_pretty.
Qed.

Lemma read_as_spec k by_kind (v : option json) :
  (forall x, v = Some x -> typed by_kind x = true) -> mget data k = serialize_value <$> v ->
  read_as data k by_kind = Ok (normal_value by_kind v).
Proof.
  intros Ht Hk. destruct by_kind; cbn [read_as].
  - rewrite (text_column k (as_string v)); [done|]. rewrite Hk.
    destruct v as [x|]; [|done]. specialize (Ht x eq_refl). by destruct x.
  - rewrite (flag_column k (as_bool v)); [|rewrite Hk];
      (destruct v as [x|]; [|done]; specialize (Ht x eq_refl); by destruct x).
  - unfold field. rewrite Hk. destruct v as [x|]; [|done]. specialize (Ht x eq_refl).
    by destruct x as [|[]| | | |].
  - rewrite (number_column k (match v with Some (JNum (NInt z)) => Some z | _ => None end));
      [|rewrite Hk]; (destruct v as [x|]; [|done]; specialize (Ht x eq_refl); destruct x as [| |[]| | |]; done).
  - rewrite Hk. destruct v as [x|]; [|done]. specialize (Ht x eq_refl). by destruct x.
  - unfold field. rewrite Hk. destruct v as [x|]; [|done]. specialize (Ht x eq_refl). by destruct x.
  - rewrite Hk. destruct v as [x|]; [|done]. specialize (Ht x eq_refl).
    destruct x as [| | | |[|y l]|]; try done.
Qed.

Lemma read_metadata_spec kinds :
  Forall (fun e => mget metadata_kinds e.1 = Some e.2 /\ e.1 <> "steersClosed" /\
                   e.1 ∉ private_names /\ mget columns e.1 = None) kinds ->
  read_metadata data kinds = Ok (normal_metadata (Job.metadata j) kinds).
Proof.
  induction 1 as [|[k b] kinds (Hb & H1 & H2 & H3) _ IH]; [done|]. cbn [read_metadata normal_metadata].
  cbn [fst snd] in *. rewrite (read_as_spec k b (mget (Job.metadata j) k)).
  - cbn. by rewrite IH.
  - intros x Hx. destruct (metadata_kind k x Hx) as (b' & Hb' & Ht). congruence.
  - rewrite public_field by done. unfold entry. by rewrite H3.
Qed.

(** ** The chain of replaced generations *)

Lemma absent_or_str (x : option string) : absent_or is_str (JStr <$> x) = true.
Proof. by destruct x. Qed.
Lemma absent_or_bool (x : option bool) : absent_or is_bool (JBool <$> x) = true.
Proof. by destruct x. Qed.
Lemma nullish_str (x : option string) : nullish (JStr <$> x) = bool_decide (x = None).
Proof. by destruct x. Qed.
Lemma nullish_bool (x : option bool) : nullish (JBool <$> x) = bool_decide (x = None).
Proof. by destruct x. Qed.
Lemma as_string_str (x : option string) : as_string (JStr <$> x) = x.
Proof. by destruct x. Qed.
Lemma as_bool_bool (x : option bool) : as_bool (JBool <$> x) = x.
Proof. by destruct x. Qed.

Lemma receipt_json_field r k :
  jfield (receipt_json r) k =
  (if decide ("createdAt" = k) then Some (jint (ReplacedGeneration.createdAt r))
   else if decide ("status" = k) then Some (JStr (status_text (ReplacedGeneration.status r)))
   else if decide ("conversationId" = k) then JStr <$> ReplacedGeneration.conversationId r
   else if decide ("providerAbortReady" = k) then JBool <$> ReplacedGeneration.providerAbortReady r
   else if decide ("providerExecutionId" = k) then JStr <$> ReplacedGeneration.providerExecutionId r
   else if decide ("providerDrained" = k) then JBool <$> ReplacedGeneration.providerDrained r
   else None).
Proof.
  cbn [jfield receipt_json app mget]. do 2 (case_decide; [done|]).
  rewrite !mget_app, !mget_opt_prop. repeat (case_decide; [|]); subst; try done;
    repeat match goal with |- context [?f <$> ?x] => destruct x; cbn end; done.
Qed.

Lemma receipt_json_fields r :
  jfield (receipt_json r) "createdAt" = Some (jint (ReplacedGeneration.createdAt r)) /\
  jfield (receipt_json r) "status" = Some (JStr (status_text (ReplacedGeneration.status r))) /\
  jfield (receipt_json r) "conversationId" = JStr <$> ReplacedGeneration.conversationId r /\
  jfield (receipt_json r) "providerAbortReady" = JBool <$> ReplacedGeneration.providerAbortReady r /\
  jfield (receipt_json r) "providerExecutionId" = JStr <$> ReplacedGeneration.providerExecutionId r /\
  jfield (receipt_json r) "providerDrained" = JBool <$> ReplacedGeneration.providerDrained r.
Proof. by rewrite !receipt_json_field. Qed.

Lemma read_generation_ok createdAt previous seen r :
  receipt_ok createdAt previous r -> Forall (fun z => (z <= previous)%Z) seen ->
  read_generation createdAt previous seen (receipt_json r) = Ok r.
Proof.
  intros (Hrange & Hsafe & Hid & Hdr) Hseen. unfold read_generation. change (is_plain_object _) with true.
  destruct (receipt_json_fields r) as (-> & -> & -> & -> & -> & ->). cbn [negb as_epoch jint].
  rewrite Hsafe, absent_or_str, !absent_or_bool, nullish_str, nullish_bool, !as_string_str, !as_bool_bool.
  change (as_string (Some (JStr ?s)) ≫= read_status) with (read_status s). rewrite read_status_text.
  rewrite bool_decide_true by done.
  assert (Hexec : absent_or (fun v => match v with JStr s => length_within 128 s | _ => false end)
                    (JStr <$> ReplacedGeneration.providerExecutionId r) = true).
  { destruct (ReplacedGeneration.providerExecutionId r) as [i|]; [|done]. by apply Hid. }
  rewrite Hexec, (bool_decide_ext _ _ Hdr), eqb_reflx.
  rewrite (bool_decide_false (_ ∈ seen)); [by destruct r|].
  intros Hin. rewrite List.Forall_forall in Hseen. apply list_elem_of_In, Hseen in Hin. lia.
Qed.

Lemma read_generations_ok createdAt l : forall previous seen,
  chain_ok createdAt previous l -> Forall (fun z => (z <= previous)%Z) seen ->
  read_generations createdAt previous seen (receipt_json <$> l) = Ok l.
Proof.
  induction l as [|r l IH]; intros previous seen; [done|]. intros [Hr Hl] Hseen.
  cbn [fmap list_fmap read_generations]. rewrite read_generation_ok by done.
  cbn [mbind result_bind]. rewrite IH; [done | done |].
  destruct Hr as [Hr _]. constructor; [lia|]. eapply Forall_impl; [exact Hseen|]. intros; cbn in *; lia.
Qed.

Lemma private_lookup k :
  k ∈ private_names -> mget data k = mget (private_fields j) k.
Proof.
  intros Hk. unfold private_names in Hk.
  repeat (apply elem_of_cons in Hk as [->|Hk]; [by apply private_field|]). by apply elem_of_nil in Hk.
Qed.

Lemma private_values :
  mget data "__creationAttemptId" = Word <$> Job.creationAttemptId j /\
  mget data "__replacedCreatedAt" =
    (fun r => Word (pretty (ReplacedGeneration.createdAt r))) <$> Job.replacedJob j /\
  mget data "__replacedStatus" =
    (fun r => Word (status_text (ReplacedGeneration.status r))) <$> Job.replacedJob j /\
  mget data "__replacedConversationId" =
    Word <$> (Job.replacedJob j ≫= ReplacedGeneration.conversationId) /\
  mget data "__replacedGenerations" =
    (fun l => Doc (Text (JArr (receipt_json <$> l)))) <$> Job.replacedJobs j.
Proof.
  rewrite !private_lookup by (apply (bool_decide_unpack _); by vm_compute). unfold private_fields.
  split_and!; rewrite !mget_app, !opt_word_get;
    destruct (Job.creationAttemptId j), (Job.replacedJob j) as [r|], (Job.replacedJobs j); cbn;
    try done; by destruct (ReplacedGeneration.conversationId r).
Qed.

Lemma read_replaced_ok :
  read_replaced data (Job.createdAt j) = Ok (default [] (Job.replacedJobs j)).
Proof.
  destruct Hj as [_ Hr]. unfold replaced_ok in Hr. unfold read_replaced, read_scalar, field.
  destruct private_values as (_ & -> & -> & Hconv & ->).
  destruct (Job.replacedJobs j) as [l|]; [|by rewrite Hr].
  destruct Hr as (Hne & Hlen & Hch & Hrj & Hlast). rewrite Hrj. cbn [fmap option_fmap option_map default].
  destruct (last l) as [r|] eqn:El; [|by apply last_None in El].
  rewrite decide_True by done. unfold read_chain. cbn [document as_array mbind option_bind doc JSON_parse].
  rewrite decide_False by (rewrite length_fmap; destruct l; cbn in *; [done | intros [|]; [done | lia]]).
  rewrite read_generations_ok by done. cbn [mbind result_bind]. rewrite El.
  rewrite bool_decide_true; [done|]. unfold field, text_field, field.
  destruct private_values as (_ & -> & -> & -> & _). rewrite Hrj. cbn. rewrite Number_pretty.
  split_and!; [done | done |]. specialize (Hlast r eq_refl).
  destruct (ReplacedGeneration.conversationId r) as [c|]; cbn; [|done]. rewrite decide_False by congruence. done.
Qed.

Lemma kinds_public :
  Forall (fun e => mget metadata_kinds e.1 = Some e.2 /\ e.1 <> "steersClosed" /\
                   e.1 ∉ private_names /\ mget columns e.1 = None) metadata_kinds.
Proof. repeat (apply List.Forall_cons; [split_and!; first [done | by apply (bool_decide_unpack _); vm_compute]|]). constructor. Qed.

Lemma pendingAction_fields a :
  jfield (pendingAction_json a) "actionId" = Some (JStr (PendingAction.actionId a)) /\
  jfield (pendingAction_json a) "payload" = Some (PendingAction.payload a) /\
  jfield (pendingAction_json a) "expiresAt" = jint <$> PendingAction.expiresAt a.
Proof. by destruct a as [id [z|] payload]. Qed.

Lemma pending_read :
  parsePendingAction (mget data "pendingAction") =
  (a ← Job.pendingAction j; if known_review a then Some a else None).
Proof.
  rewrite public_field by (done || by apply (bool_decide_unpack _); vm_compute).
  change (entry j "pendingAction") with (pendingAction_json <$> Job.pendingAction j).
  destruct (Job.pendingAction j) as [a|]; [|done]. unfold parsePendingAction, known_review.
  change (document _) with (Some (pendingAction_json a)). cbn [mbind option_bind].
  destruct (pendingAction_fields a) as (-> & -> & ->). cbn [as_string jopt mbind option_bind default].
  destruct (as_string (jfield (PendingAction.payload a) "type")) as [t|]; [|done].
  destruct (decide (t ∈ KNOWN_INTERRUPT_TYPES)); [rewrite bool_decide_true by done | by rewrite bool_decide_false].
  by destruct a as [id [z|] payload].
Qed.

Lemma column k f :
  mget columns k = Some f -> bool_decide (k <> "steersClosed" /\ k ∉ private_names) = true ->
  mget data k = serialize_value <$> f j.
Proof.
  intros Hc Hk. bool_facts. destruct Hk as [H1 H2]. rewrite public_field by done.
  unfold entry. by rewrite Hc.
Qed.

(** One column looked up by its name. *)
Ltac by_column := etransitivity; [eapply column; [reflexivity | by vm_compute] | reflexivity].

Lemma required_columns :
  field data "streamId" = Some (Job.streamId j) /\ field data "userId" = Some (Job.userId j) /\
  field data "status" = Some (status_text (Job.status j)) /\
  field data "createdAt" = Some (pretty (Job.createdAt j)) /\
  field data "syncSent" = Some (if Job.syncSent j then "1" else "0") /\
  field data "generationProtocolVersion" =
    (fun p => match p with V1 => "1" | V2 => "2" end) <$> Job.generationProtocolVersion j.
Proof.
  unfold field. split_and!;
    match goal with |- context [mget data ?k] => erewrite (column k); [|reflexivity | by vm_compute] end;
    try done.
  cbv beta. by destruct (Job.generationProtocolVersion j) as [[]|].
Qed.

Lemma stored_job_read : deserializeJob data = Ok (as_read j).
Proof.
  destruct required_columns as (H1 & H2 & H3 & H4 & H5 & H6).
  unfold deserializeJob, required. rewrite H1, H2, H3, H4. cbn [mbind result_bind].
  rewrite read_status_text. cbn [mbind result_bind]. unfold integer. rewrite parseInt_pretty.
  cbn [mbind result_bind].
  rewrite (number_column "completedAt" (Job.completedAt j)) by by_column.
  rewrite (number_column "terminalPersistenceStartedAt" (Job.terminalPersistenceStartedAt j)) by by_column.
  rewrite (number_column "lastActiveAt" (Job.lastActiveAt j)) by by_column.
  cbn [mbind result_bind]. rewrite read_metadata_spec by apply kinds_public.
  cbn [mbind result_bind]. rewrite read_replaced_ok. cbn [mbind result_bind]. unfold as_read.
  rewrite pending_read, H5, H6.
  rewrite (text_column "tenantId" (Job.tenantId j)) by by_column.
  rewrite (text_column "checkpointNamespace" (Job.checkpointNamespace j)) by by_column.
  rewrite (text_column "conversationId" (Job.conversationId j)) by by_column.
  rewrite (text_column "error" (Job.error j)) by by_column.
  rewrite (text_column "idempotencyClientRequestId" (Job.idempotencyClientRequestId j)) by by_column.
  rewrite (text_column "recoveredSteerId" (Job.recoveredSteerId j)) by by_column.
  rewrite (text_column "providerExecutionId" (Job.providerExecutionId j)) by by_column.
  rewrite (text_column "finalEvent" (Job.finalEvent j)) by by_column.
  rewrite (text_column "pendingActionId" (Job.pendingActionId j)) by by_column.
  rewrite (flag_column "preemptCapable" (Job.preemptCapable j)) by by_column.
  rewrite (flag_column "providerAbortReady" (Job.providerAbortReady j)) by by_column.
  rewrite (flag_column "providerDrained" (Job.providerDrained j)) by by_column.
  rewrite (flag_column "preserveForScheduleReconcile" (Job.preserveForScheduleReconcile j)) by by_column.
  rewrite (flag_column "terminalHostActionPending" (Job.terminalHostActionPending j)) by by_column.
  rewrite (flag_column "terminalPersistencePending" (Job.terminalPersistencePending j)) by by_column.
  destruct private_values as (Hid & _). rewrite (text_column "__creationAttemptId" (Job.creationAttemptId j))
    by (rewrite Hid; by destruct (Job.creationAttemptId j)).
  destruct Hj as [_ Hr]. unfold replaced_ok in Hr.
  assert (Hlast : last (default [] (Job.replacedJobs j)) = Job.replacedJob j).
  { destruct (Job.replacedJobs j) as [l|]; [by destruct Hr as (_ & _ & _ & -> & _) | by rewrite Hr]. }
  assert (Hall : match default [] (Job.replacedJobs j) with
                 | [] => None | _ :: _ => Some (default [] (Job.replacedJobs j)) end = Job.replacedJobs j).
  { destruct (Job.replacedJobs j) as [[|r l]|]; [by destruct Hr | done | done]. }
  rewrite Hlast, Hall. do 2 f_equal; [by destruct (Job.generationProtocolVersion j) as [[]|] | by destruct (Job.syncSent j)].
Qed.
End stored.

(** ** What was read once is read back as it is *)

Lemma nonempty_idem x : nonempty (nonempty x) = nonempty x.
Proof. destruct x as [s|]; [|done]. cbn. case_decide; cbn; [done|]. by rewrite decide_False. Qed.
Lemma normal_value_idem b v : normal_value b (normal_value b v) = normal_value b v.
Proof.
  destruct b; cbn [normal_value]; try done.
  - by rewrite as_string_str, nonempty_idem.
  - by destruct (bool_decide (v = Some (JBool true))).
  - destruct (as_string v) as [s|] eqn:E; [|done]. destruct (decide (s ∈ schedule_outcomes)); [|done].
    rewrite E. by rewrite decide_True.
  - destruct v as [[| | | |[|x l]|]|]; try done. destruct (forallb answer_ok (x :: l)) eqn:E; [|done]. by rewrite E.
Qed.

Lemma normal_metadata_get m kinds k :
  mwf kinds ->
  mget (normal_metadata m kinds) k = mget kinds k ≫= fun b => normal_value b (mget m k).
Proof.
  unfold mwf, mkeys. induction kinds as [|[k' b] kinds IH]; [done|]. rewrite fmap_cons, NoDup_cons.
  intros [Hn Hw]. cbn [normal_metadata]. rewrite mget_app, mget_opt_prop, IH by done. cbn [mget].
  destruct (decide (k' = k)) as [->|]; [|done]. cbn [mbind option_bind].
  apply mget_None in Hn. cbn in Hn. rewrite Hn. by destruct (normal_value b (mget m k)).
Qed.

Lemma normal_metadata_ext m m' kinds :
  Forall (fun e => normal_value e.2 (mget m e.1) = normal_value e.2 (mget m' e.1)) kinds ->
  normal_metadata m kinds = normal_metadata m' kinds.
Proof. induction 1 as [|[k b] kinds H _ IH]; [done|]. cbn in *. by rewrite H, IH. Qed.

Lemma kinds_wf : mwf metadata_kinds.
Proof. apply (bool_decide_unpack _). by vm_compute. Qed.

Lemma normal_metadata_idem m :
  normal_metadata (normal_metadata m metadata_kinds) metadata_kinds = normal_metadata m metadata_kinds.
Proof.
  apply normal_metadata_ext, List.Forall_forall. intros [k b] Hin. apply list_elem_of_In in Hin.
  cbn [fst snd]. rewrite normal_metadata_get by apply kinds_wf.
  rewrite (elem_mget _ _ _ kinds_wf Hin). cbn [mbind option_bind]. apply normal_value_idem.
Qed.

Lemma as_read_idem j : as_read (as_read j) = as_read j.
Proof.
  unfold as_read. cbn -[normal_metadata metadata_kinds]. rewrite !nonempty_idem, normal_metadata_idem. f_equal.
  destruct (Job.pendingAction j) as [a|]; [|done]. cbn. destruct (known_review a) eqn:E; [|done].
  cbn. by rewrite E.
Qed.

(** ** Theorem *)

(** C33. A stored job is read back. Whatever hash has the fields of a job (and perhaps the flag that
    closes its queue), [getJob] answers the job: every property with the value it was written with,
    the receipts of replaced generations included, up to [as_read]: an empty text is absent,
    createdEventEmitted is false and the protocol version 1 where they are not set,
    terminalHostActionRefreshedAt is always absent (the reader does not know it), a schedule outcome
    that is not one of the four known ones is dropped, and so are resolved questions unless they are
    a non-empty list of well-formed answers, and a review of an unknown kind; and a job that was
    read once is read back unchanged. The job is one that its writers can store (storable): its
    metadata has the names and types of the interface, and its receipts are at most 32 with
    increasing safe epochs below its own, a provider id of at most 128 characters exactly where a
    drain flag is, and a latest receipt whose conversation id is not empty (with an empty one the
    read throws, empty_conversation_breaks_the_read). *)
Theorem stored_jobs_round_trip data ttl j :
  storable j -> keeps_job data j ->
  getJob (Some (Key.mk data ttl)) = Ok (Some (as_read j)) /\ as_read (as_read j) = as_read j.
Proof.
  intros Hj Hdata. split; [|apply as_read_idem]. unfold getJob. cbn [content from_option Key.value].
  destruct data as [|e data]; [by specialize (Hdata "streamId" ltac:(done))|].
  by rewrite (stored_job_read _ j).
Qed.

Module RoundTripDemo.
Definition older : ReplacedGeneration.t := ReplacedGeneration.mk 5 aborted None (Some true) None None.
Definition newer : ReplacedGeneration.t :=
  ReplacedGeneration.mk 8 running (Some "conv") None (Some "exec") (Some false).
Definition review : PendingAction.t :=
  PendingAction.mk "act" (Some 99%Z) (JObj [("type", JStr "tool_approval")]).
Definition job : Job.t :=
  Job.mk "s1" "u1" (Some "") requires_action 12 (Some V2) (Some "12") None (Some "conv") None
    (Some "req") None (Some true) (Some false) (Some "exec2") (Some true) false None None None None
    None None (Some review) (Some "act") (Some 20%Z)
    [("userMessage", JObj [("messageId", JStr "m")]); ("sender", JStr ""); ("promptTokens", jint 7)]
    (Some "attempt") (Some newer) (Some [older; newer]).
End RoundTripDemo.

Lemma demo_storable : storable RoundTripDemo.job.
Proof.
  split.
  - repeat (apply List.Forall_cons; [by eexists|]). constructor.
  - split_and!; [done | cbn; lia | | done | by intros r [= <-]].
    repeat split; try done; by intros i [= <-].
Qed.

Lemma stored_jobs_round_trip_witness :
  getJob (Some (Key.mk (job_fields RoundTripDemo.job) None)) = Ok (Some (as_read RoundTripDemo.job)) /\
  as_read (as_read RoundTripDemo.job) = as_read RoundTripDemo.job.
Proof. apply stored_jobs_round_trip; [apply demo_storable | by intros k _]. Defined.

(** A generation without a conversation id but an empty one is replaced: [JOB_CREATE_LUA] writes the
    empty id into the receipt and beside it, and the reader takes the one beside it for absent. *)
Definition nameless : ReplacedGeneration.t := ReplacedGeneration.mk 8 running (Some "") None None None.
Definition replacing : Job.t :=
  {| RoundTripDemo.job with Job.replacedJob := Some nameless; Job.replacedJobs := Some [nameless] |}.
Example empty_conversation_breaks_the_read :
  field (job_fields replacing) "__replacedConversationId" = Some "" /\
  getJob (Some (Key.mk (job_fields replacing) None)) = Throw "Invalid generation replacement receipt".
Proof. by vm_compute. Qed.
