(* ===== verification/RedisClaims.v ===== *)
(** * Idempotency claims in Redis ([stream/implementations/RedisJobStore.ts])

    The five scripts on the key of a claim and the methods that send them, against the claims of
    the in-memory store.  A claim is a JSON text with an expiry in milliseconds; adoption also reads
    the job hash of the stream, on the same slot.  The clock of the server and the clock of the
    caller are one. *)

From stdpp Require Import pretty.
From S2P Require Import Prelude JsMap Json StreamTypes SteerRecovery StoreState StoreSteers StoreParked.
From S2P Require Import StoreJobs StoreClaims RedisScripts RedisLua RedisJobs RedisRoundTrip.

(** ** Keys *)

Module Lease.
Record t := mk { claim : jtext; expiresAt : Z }.
End Lease.

(** The claims by key and the job hashes by stream. *)
Record ClaimKeys := { claimKeys : jsmap Lease.t; jobHashes : jsmap (jsmap text) }.
Definition with_claimKeys v (st : ClaimKeys) : ClaimKeys := {| st with claimKeys := v |}.

Definition unexpired (now : Z) (l : option Lease.t) : option Lease.t :=
  match l with
  | Some l => if decide (Lease.expiresAt l <= now)%Z then None else Some l
  | None => None
  end.

(** [GET key], [SET key value PX ms] and [DEL key]. *)
Definition GET (key : string) (now : Z) (st : ClaimKeys) : option jtext :=
  Lease.claim <$> unexpired now (mget (claimKeys st) key).
Definition SET_PX (key : string) (v : jtext) (ms now : Z) (st : ClaimKeys) : ClaimKeys :=
  with_claimKeys (mset (claimKeys st) key (Lease.mk v (now + ms))) st.
Definition DEL (key : string) (st : ClaimKeys) : ClaimKeys :=
  with_claimKeys (mdel (claimKeys st) key) st.

(** [PX] takes a positive number. *)
Definition invalid_expiry : string := "ERR invalid expire time in 'set' command".
Definition set_px (key : string) (v : jtext) (ms now : Z) (ok : Reply) (st : ClaimKeys)
  : Reply * ClaimKeys :=
  if decide (0 < ms)%Z then (ok, SET_PX key v ms now st) else (RError invalid_expiry, st).

(** ** Scripts *)

Section scripts.
Variable lua_number : jnum -> jnum.
Abbreviation encode := (cjson_encode lua_number).

Definition has_token (claim : json) (token : string) : bool :=
  lua_eq (jfield claim "claimToken") (Some (JStr token)).
Definition started (claim : json) : bool := truthy (jfield claim "startedAt").

Definition IDEMPOTENCY_CLAIM (key : string) (v : jtext) (ms now : Z) (st : ClaimKeys)
  : Reply * ClaimKeys :=
  match GET key now st with
  | None => set_px key v ms now RNil st
  | Some held => if decide (0 < ms)%Z then (RText held, st) else (RError invalid_expiry, st)
  end.

(** [local raw = GET key; if not raw then return 0 end; local ok, current = pcall(decode, raw)] *)
Definition with_claim (key : string) (now : Z) (st : ClaimKeys)
    (body : json -> Reply * ClaimKeys) : Reply * ClaimKeys :=
  match GET key now st ≫= JSON_parse with
  | Some current => body current
  | None => (RInt 0, st)
  end.

Definition IDEMPOTENCY_TAKEOVER (key token : string) (v : jtext) (ms now : Z) (st : ClaimKeys)
  : Reply * ClaimKeys :=
  with_claim key now st (fun current =>
    if negb (has_token current token) || started current then (RInt 0, st)
    else set_px key v ms now (RInt 1) st).

Definition IDEMPOTENCY_MARK_STARTED (key token : string) (startedAt ms now : Z) (st : ClaimKeys)
  : Reply * ClaimKeys :=
  if decide (token = "") then (RInt 0, st)
  else with_claim key now st (fun current =>
    if negb (has_token current token) then (RInt 0, st)
    else if started current &&
            negb (bool_decide (tostring_or_empty (jfield current "startedAt") = Some (pretty startedAt)))
    then (RInt 0, st)
    else set_px key (encode (jset current "startedAt" (jint startedAt))) ms now (RInt 1) st).

(** The job is the one expected, live, and the one this request started. *)
Definition adoptable (hash : jsmap text) (createdAt userId requestId tenantId : string)
    (allowMissing : bool) : bool :=
  bool_decide (field hash "createdAt" = Some createdAt /\ field hash "userId" = Some userId) &&
  match field hash "idempotencyClientRequestId" with
  | Some stored => bool_decide (stored = requestId)
  | None => allowMissing
  end &&
  match field hash "tenantId" with
  | Some stored => bool_decide (stored = "" \/ stored = tenantId)
  | None => true
  end &&
  bool_decide (field hash "status" = Some "running" \/ field hash "status" = Some "requires_action") &&
  match field hash "generationProtocolVersion" with
  | Some p => bool_decide (p = "1" \/ p = "2")
  | None => true
  end.

Definition adopted_claim (hash : jsmap text) (startedAt : Z) (claim : json) : json :=
  jset (jset claim "startedAt" (jint startedAt)) "generationProtocolVersion"
    (jint (if decide (field hash "generationProtocolVersion" = Some "2") then 2 else 1)).

Definition IDEMPOTENCY_ADOPT_LIVE_JOB (key streamId token : string) (createdAt : Z)
    (userId requestId tenantId : string) (ms : Z) (allowMissing : bool) (now : Z) (st : ClaimKeys)
  : Reply * ClaimKeys :=
  with_claim key now st (fun claim =>
    let hash := default [] (mget (jobHashes st) streamId) in
    if negb (has_token claim token) || started claim then (RInt 0, st)
    else if negb (adoptable hash (pretty createdAt) userId requestId tenantId allowMissing)
    then (RInt 0, st)
    else set_px key (encode (adopted_claim hash createdAt claim)) ms now (RInt 1) st).

Definition IDEMPOTENCY_RELEASE (key token : string) (now : Z) (st : ClaimKeys) : Reply * ClaimKeys :=
  let release := (RInt (match GET key now st with Some _ => 1 | None => 0 end), DEL key st) in
  if decide (token = "") then release
  else with_claim key now st (fun current =>
    if has_token current token then release else (RInt 0, st)).

(** ** Methods *)

(** [JSON.stringify(value)] *)
Definition claim_json (v : IdempotencyClaimValue.t) : json :=
  JObj ([("streamId", JStr (IdempotencyClaimValue.streamId v));
         ("conversationId", JStr (IdempotencyClaimValue.conversationId v))] ++
        opt_prop "generationProtocolVersion"
          (protocol_json <$> IdempotencyClaimValue.generationProtocolVersion v) ++
        opt_prop "claimedAt" (jint <$> IdempotencyClaimValue.claimedAt v) ++
        opt_prop "claimToken" (JStr <$> IdempotencyClaimValue.claimToken v) ++
        opt_prop "previousClaimToken" (JStr <$> IdempotencyClaimValue.previousClaimToken v) ++
        opt_prop "startedAt" (jint <$> IdempotencyClaimValue.startedAt v)).

Definition Method (A : Type) : Type := ClaimKeys -> result string A * ClaimKeys.

(** [reply === 1] *)
Definition confirmed (p : Reply * ClaimKeys) : result string bool * ClaimKeys :=
  (match p.1 with
   | RInt z => Ok (bool_decide (z = 1%Z))
   | RError e => Throw e
   | _ => Ok false
   end, p.2).

Definition claimIdempotencyKey (key : string) (value : IdempotencyClaimValue.t) (ttlSeconds now : Z)
  : Method (bool * json) := fun st =>
  let '(reply, st') := IDEMPOTENCY_CLAIM key (JSON_stringify (claim_json value))
                         (ttlSeconds * 1000) now st in
  (match reply with
   | RNil => Ok (true, claim_json value)
   | RText t => match JSON_parse t with
                | Some existing => Ok (false, existing)
                | None => Throw "Invalid generation idempotency claim"
                end
   | RError e => Throw e
   | _ => Throw "Invalid generation idempotency claim"
   end, st').

(** [expected.claimToken ?? ''] *)
Definition token_arg (v : IdempotencyClaimValue.t) : string :=
  default "" (IdempotencyClaimValue.claimToken v).

Definition takeoverIdempotencyKey (key : string) (expected value : IdempotencyClaimValue.t)
    (ttlSeconds now : Z) : Method bool := fun st =>
  confirmed (IDEMPOTENCY_TAKEOVER key (token_arg expected) (JSON_stringify (claim_json value))
               (ttlSeconds * 1000) now st).

Definition markIdempotencyKeyStarted (key claimToken : string) (startedAt ttlSeconds now : Z)
  : Method bool := fun st =>
  confirmed (IDEMPOTENCY_MARK_STARTED key claimToken startedAt (ttlSeconds * 1000) now st).

Definition adoptIdempotencyKeyForJob (key : string) (expected : IdempotencyClaimValue.t)
    (streamId userId clientRequestId : string) (tenantId : option string)
    (expectedCreatedAt ttlSeconds : Z) (allowMissingClientRequestId : bool) (now : Z)
  : Method bool := fun st =>
  confirmed (IDEMPOTENCY_ADOPT_LIVE_JOB key streamId (token_arg expected) expectedCreatedAt userId
               clientRequestId (default "" tenantId) (ttlSeconds * 1000)
               allowMissingClientRequestId now st).

Definition releaseIdempotencyKey (key : string) (expected : option IdempotencyClaimValue.t)
    (now : Z) : Method () := fun st =>
  let '(reply, st') := IDEMPOTENCY_RELEASE key (from_option token_arg "" expected) now st in
  (match reply with RError e => Throw e | _ => Ok tt end, st').
End scripts.

(** ** Claims on both sides *)

Record reads_claim (v : json) (c : IdempotencyClaimValue.t) : Prop := {
  rc_object : is_plain_object v = true;
  rc_streamId : jfield v "streamId" = Some (JStr (IdempotencyClaimValue.streamId c));
  rc_conversationId : jfield v "conversationId" = Some (JStr (IdempotencyClaimValue.conversationId c));
  rc_protocol : jfield v "generationProtocolVersion" =
    protocol_json <$> IdempotencyClaimValue.generationProtocolVersion c;
  rc_claimedAt : jfield v "claimedAt" = jint <$> IdempotencyClaimValue.claimedAt c;
  rc_token : jfield v "claimToken" = JStr <$> IdempotencyClaimValue.claimToken c;
  rc_previous : jfield v "previousClaimToken" = JStr <$> IdempotencyClaimValue.previousClaimToken c;
  rc_startedAt : jfield v "startedAt" = jint <$> IdempotencyClaimValue.startedAt c
}.

(** Times that fourteen digits can write. *)
Definition fourteen (z : Z) : Prop := (Z.abs z < 10 ^ 14)%Z.
Record claim_fine (c : IdempotencyClaimValue.t) : Prop := {
  cf_claimedAt : forall z, IdempotencyClaimValue.claimedAt c = Some z -> fourteen z;
  cf_startedAt : forall z, IdempotencyClaimValue.startedAt c = Some z -> fourteen z
}.

Definition live_entry (now : Z) (c : option ClaimEntry.t) : option ClaimEntry.t :=
  match c with
  | Some c => if decide (ClaimEntry.expiresAt c <= now)%Z then None else Some c
  | None => None
  end.

(** The claim under a key: the same on both sides until the same moment. *)
Definition claim_match (now : Z) (l : option Lease.t) (c : option ClaimEntry.t) : Prop :=
  match unexpired now l, live_entry now c with
  | Some l, Some c =>
      (exists v, Lease.claim l = Text v /\ reads_claim v (ClaimEntry.value c)) /\
      claim_fine (ClaimEntry.value c) /\ Lease.expiresAt l = ClaimEntry.expiresAt c
  | None, None => True
  | _, _ => False
  end.

(** The hash of a job, as its writers leave it. *)
Definition hash_match (h : option (jsmap text)) (j : option Job.t) : Prop :=
  match j with
  | Some j => (exists h', h = Some h' /\ keeps_job h' j) /\ storable j /\ Job.tenantId j <> Some "" /\
              fourteen (Job.createdAt j)
  | None => h = None
  end.

Record mirrors_claims (now : Z) (st : ClaimKeys) (s : Store) : Prop := {
  mc_claims : forall key, claim_match now (mget (claimKeys st) key) (mget (idempotencyClaims s) key);
  mc_hashes : forall k, hash_match (mget (jobHashes st) k) (mget (jobs s) k)
}.

Lemma claim_json_reads c : reads_claim (claim_json c) c.
Proof.
  split; [done|..]; unfold claim_json; cbn [jfield app mget]; try done;
    rewrite !mget_app, !mget_opt_prop;
    destruct c as [s v [[]|] [|] [|] [|] [|]]; done.
Qed.

Lemma claim_match_later now now' l c :
  (now <= now')%Z -> claim_match now l c -> claim_match now' l c.
Proof.
  intros Hle. unfold claim_match, unexpired, live_entry.
  destruct l as [l|], c as [c|]; repeat case_decide; try done; try lia.
  all: intros (_ & _ & He); exfalso; lia.
Qed.

Lemma mirrors_later now now' st s :
  (now <= now')%Z -> mirrors_claims now st s -> mirrors_claims now' st s.
Proof. intros Hle [H1 H2]. split; [|done]. intros key. by eapply claim_match_later. Qed.

Section refine.
Context {lua_number : jnum -> jnum} {lua : LuaNumber lua_number}.
Abbreviation encode := (cjson_encode lua_number).
Abbreviation cj := (cjson lua_number).

Lemma cjson_fourteen z : fourteen z -> cj (jint z) = jint z.
Proof. intros Hz. cbn. by rewrite lua_number_exact. Qed.

Lemma cjson_claim v c : reads_claim v c -> claim_fine c -> reads_claim (cj v) c.
Proof.
  intros [R0 R1 R2 R3 R4 R5 R6 R7] [F1 F2].
  split; rewrite ?jfield_cjson, ?R1, ?R2, ?R3, ?R4, ?R5, ?R6, ?R7; try done; [by destruct v | ..].
  - destruct (IdempotencyClaimValue.generationProtocolVersion c) as [[]|]; [..|done];
      apply (f_equal Some), cjson_fourteen; by vm_compute.
  - destruct (IdempotencyClaimValue.claimedAt c) as [z|]; [|done].
    by apply (f_equal Some), cjson_fourteen, F1.
  - by destruct (IdempotencyClaimValue.claimToken c).
  - by destruct (IdempotencyClaimValue.previousClaimToken c).
  - destruct (IdempotencyClaimValue.startedAt c) as [z|]; [|done].
    by apply (f_equal Some), cjson_fourteen, F2.
Qed.

(** What a script reads of the claim under a key. *)
Lemma with_claim_spec key now st s body :
  mirrors_claims now st s ->
  match live_claim s key now with
  | Some c => exists v, with_claim key now st body = body v /\ reads_claim v (ClaimEntry.value c) /\
                claim_fine (ClaimEntry.value c)
  | None => with_claim key now st body = (RInt 0, st)
  end.
Proof.
  intros [H _]. specialize (H key). unfold live_claim, with_claim, GET.
  unfold claim_match, live_entry in H.
  destruct (unexpired now (mget (claimKeys st) key)) as [l|], (mget (idempotencyClaims s) key) as [c|];
    try case_decide; try done.
  destruct H as ((v & Hv & Hr) & Hf & _). exists v. cbn. by rewrite Hv.
Qed.

(** The same claim written on both sides. *)
Lemma mirrors_set key v c ms now st s :
  mirrors_claims now st s -> reads_claim v c -> claim_fine c ->
  mirrors_claims now (SET_PX key (Text v) ms now st) (set_claim key c (now + ms) s).
Proof.
  intros [H1 H2] Hv Hf. split; [|done]. intros key'. unfold SET_PX, set_claim. cbn.
  rewrite !mget_mset. case_decide; [|done]. unfold claim_match. cbn.
  repeat case_decide; try done; try lia. split_and!; [by exists v | done | done].
Qed.

Lemma set_px_spec key t ms now ok st : (0 < ms)%Z -> set_px key t ms now ok st = (ok, SET_PX key t ms now st).
Proof. intros. unfold set_px. by rewrite decide_True. Qed.

(** *** The five methods *)

Lemma claim_refines key c ttl now st s :
  mirrors_claims now st s -> (0 < ttl)%Z -> claim_fine c ->
  let '(a, st') := claimIdempotencyKey key c ttl now st in
  let '((won, held), s') := StoreJobs.claimIdempotencyKey key c ttl now s in
  (exists v, a = Ok (won, v) /\ reads_claim v held) /\ mirrors_claims now st' s'.
Proof.
  intros H Ht Hf. unfold claimIdempotencyKey, IDEMPOTENCY_CLAIM, StoreJobs.claimIdempotencyKey, GET.
  pose proof (mc_claims _ _ _ H key) as Hk. unfold live_claim. unfold claim_match, live_entry in Hk.
  destruct (unexpired now (mget (claimKeys st) key)) as [l|];
    destruct (mget (idempotencyClaims s) key) as [e|]; try case_decide; try done;
    cbn [fmap option_fmap option_map].
  1: { destruct Hk as ((v & -> & Hr) & _ & _). rewrite decide_True by lia. split; [by exists v | done]. }
  all: rewrite set_px_spec by lia; split;
    [exists (claim_json c); split; [done | apply claim_json_reads]
    | apply mirrors_set; [done | apply claim_json_reads | done]].
Qed.

Lemma has_token_spec v c tok :
  reads_claim v c -> has_token v tok = bool_decide (IdempotencyClaimValue.claimToken c = Some tok).
Proof.
  intros H. unfold has_token. rewrite (rc_token _ _ H).
  destruct (IdempotencyClaimValue.claimToken c) as [t|]; cbn; [|done]. apply bool_decide_ext. naive_solver.
Qed.
Lemma started_spec v c :
  reads_claim v c -> started v = negb (bool_decide (IdempotencyClaimValue.startedAt c = None)).
Proof. intros H. unfold started. rewrite (rc_startedAt _ _ H). by destruct (IdempotencyClaimValue.startedAt c). Qed.

(** A compare-and-set that is refused, or writes the same claim on both sides. *)
Definition same_cas (now : Z) (p : result string bool * ClaimKeys) (q : bool * Store) : Prop :=
  p.1 = Ok q.1 /\ mirrors_claims now p.2 q.2.

Lemma takeover_refines key ex c ttl now st s :
  mirrors_claims now st s -> (0 < ttl)%Z -> claim_fine c -> is_Some (IdempotencyClaimValue.claimToken ex) ->
  same_cas now (takeoverIdempotencyKey key ex c ttl now st)
    (StoreJobs.takeoverIdempotencyKey key ex c ttl now s).
Proof.
  intros H Ht Hf [tok Htok]. unfold takeoverIdempotencyKey, IDEMPOTENCY_TAKEOVER, token_arg.
  unfold StoreJobs.takeoverIdempotencyKey. rewrite Htok. cbn [default from_option]. unfold id.
  match goal with |- context [with_claim key now st ?b] => pose proof (with_claim_spec key now st s b H) as Hw end.
  destruct (live_claim s key now) as [e|]; [|by rewrite Hw].
  destruct Hw as (v & -> & Hr & _). cbv beta.
  rewrite (has_token_spec v _ tok Hr), (started_spec v _ Hr).
  destruct (decide (IdempotencyClaimValue.claimToken (ClaimEntry.value e) = Some tok)) as [E|E].
  2: { rewrite (bool_decide_false (_ = Some tok)), (bool_decide_false (_ /\ _)) by naive_solver. done. }
  rewrite (bool_decide_true (_ = Some tok)) by done. cbn [negb orb].
  destruct (decide (IdempotencyClaimValue.startedAt (ClaimEntry.value e) = None)) as [E'|E'].
  2: { rewrite (bool_decide_false (_ = None)), (bool_decide_false (_ /\ _)) by naive_solver. done. }
  rewrite (bool_decide_true (_ = None)), (bool_decide_true (_ /\ _)) by done. cbn [negb]. rewrite set_px_spec by lia.
  split; [done|]. apply mirrors_set; [done | apply claim_json_reads | done].
Qed.

Lemma reads_started v c z :
  reads_claim v c ->
  reads_claim (jset v "startedAt" (jint z)) {| c with IdempotencyClaimValue.startedAt := Some z |}.
Proof.
  intros [R0 R1 R2 R3 R4 R5 R6 R7].
  split; [by destruct v|..]; first [rewrite jfield_jset_ne by done | rewrite jfield_jset_eq by done]; done.
Qed.
Lemma fine_started c z :
  claim_fine c -> fourteen z -> claim_fine {| c with IdempotencyClaimValue.startedAt := Some z |}.
Proof. intros [F1 F2] Hz. split; [done|]. by intros z' [= <-]. Qed.

Lemma mark_refines key tok z ttl now st s :
  mirrors_claims now st s -> (0 < ttl)%Z -> fourteen z ->
  same_cas now (markIdempotencyKeyStarted lua_number key tok z ttl now st)
    (StoreJobs.markIdempotencyKeyStarted key tok z ttl now s).
Proof.
  intros H Ht Hz. unfold markIdempotencyKeyStarted, IDEMPOTENCY_MARK_STARTED, StoreJobs.markIdempotencyKeyStarted.
  match goal with |- context [with_claim key now st ?b] => pose proof (with_claim_spec key now st s b H) as Hw end.
  destruct (decide (tok = "")) as [->|Hne].
  { destruct (live_claim s key now); [|done]. by rewrite bool_decide_false by naive_solver. }
  destruct (live_claim s key now) as [e|]; [|by rewrite Hw].
  destruct Hw as (v & -> & Hr & Hf). cbv beta zeta.
  rewrite (has_token_spec v _ tok Hr), (started_spec v _ Hr), (rc_startedAt _ _ Hr).
  destruct (decide (IdempotencyClaimValue.claimToken (ClaimEntry.value e) = Some tok)) as [E|E].
  2: { rewrite (bool_decide_false (_ = Some tok)), (bool_decide_false (_ /\ _)) by naive_solver. done. }
  rewrite (bool_decide_true (_ = Some tok)), (bool_decide_true (_ /\ _)) by done. cbn [negb andb].
  assert (Hset : same_cas now (confirmed (set_px key (encode (jset v "startedAt" (jint z))) (ttl * 1000) now (RInt 1) st))
    (true, set_claim key {| (ClaimEntry.value e) with IdempotencyClaimValue.startedAt := Some z |} (now + ttl * 1000) s)).
  { rewrite set_px_spec by lia. split; [done|]. apply mirrors_set; [done | | by apply fine_started].
    apply cjson_claim; [by apply reads_started | by apply fine_started]. }
  destruct (IdempotencyClaimValue.startedAt (ClaimEntry.value e)) as [z'|] eqn:Es; [|exact Hset].
  cbn [fmap option_fmap option_map tostring_or_empty jint].
  rewrite decide_True by (apply (cf_startedAt _ Hf); done).
  destruct (decide (z' = z)) as [->|Hz'].
  - rewrite (bool_decide_true (z = z)), (bool_decide_true (Some (pretty z) = _)) by done.
    rewrite andb_false_r. exact Hset.
  - rewrite (bool_decide_false (z' = z)) by done. rewrite (bool_decide_false (Some (pretty z') = _)); [done|].
    intros [= ?%(inj pretty)]. done.
Qed.

(** The guards of an adoption, on the fields of the hash. *)
Lemma adoptable_spec h j u r te created allow :
  keeps_job h j -> storable j -> Job.tenantId j <> Some "" ->
  adoptable h (pretty created) u r (default "" te) allow =
  bool_decide (Job.userId j = u /\ Job.createdAt j = created) &&
  tenant_matches (Job.tenantId j) te &&
  match Job.idempotencyClientRequestId j with None => allow | Some r' => bool_decide (r' = r) end &&
  active (Job.status j).
Proof.
  intros Hh Hj Hte. destruct (required_columns h j Hh Hj) as (_ & Hu & Hs & Hc & _ & Hp).
  assert (Hr : field h "idempotencyClientRequestId" = Job.idempotencyClientRequestId j).
  { unfold field. rewrite (column h j Hh Hj "idempotencyClientRequestId" _ eq_refl eq_refl).
    cbv beta. by destruct (Job.idempotencyClientRequestId j). }
  assert (Ht : field h "tenantId" = Job.tenantId j).
  { unfold field. rewrite (column h j Hh Hj "tenantId" _ eq_refl eq_refl). cbv beta. by destruct (Job.tenantId j). }
  unfold adoptable. rewrite Hu, Hs, Hc, Hp, Hr, Ht.
  assert (E1 : bool_decide (Some (pretty (Job.createdAt j)) = Some (pretty created) /\ Some (Job.userId j) = Some u) =
               bool_decide (Job.userId j = u /\ Job.createdAt j = created)).
  { apply bool_decide_ext. rewrite !(inj_iff Some), (inj_iff pretty). tauto. }
  assert (E2 : match Job.tenantId j with
               | Some stored => bool_decide (stored = "" \/ stored = default "" te) | None => true end =
               tenant_matches (Job.tenantId j) te).
  { destruct (Job.tenantId j) as [t|]; [|done]. cbn. apply bool_decide_ext.
    destruct te; cbn; unfold id; split; [intros [|]; congruence | naive_solver | intros [|]; congruence | done]. }
  assert (E3 : bool_decide (Some (status_text (Job.status j)) = Some "running" \/
                            Some (status_text (Job.status j)) = Some "requires_action") = active (Job.status j)).
  { by destruct (Job.status j). }
  rewrite E1, E2, E3.
  rewrite <- (andb_assoc (bool_decide _)), (andb_comm (match _ with Some _ => _ | None => _ end) (tenant_matches _ _)),
    (andb_assoc (bool_decide _)).
  destruct (Job.generationProtocolVersion j) as [[]|]; cbn [fmap option_fmap option_map];
    rewrite ?bool_decide_true by auto; by rewrite andb_true_r.
Qed.

Lemma reads_protocol v c p :
  reads_claim v c ->
  reads_claim (jset v "generationProtocolVersion" (protocol_json p))
    {| c with IdempotencyClaimValue.generationProtocolVersion := Some p |}.
Proof.
  intros [R0 R1 R2 R3 R4 R5 R6 R7].
  split; [by destruct v|..]; first [rewrite jfield_jset_ne by done | rewrite jfield_jset_eq by done]; done.
Qed.

Lemma adopt_refines key ex k u r te created ttl allow now st s :
  mirrors_claims now st s -> (0 < ttl)%Z -> is_Some (IdempotencyClaimValue.claimToken ex) ->
  same_cas now (adoptIdempotencyKeyForJob lua_number key ex k u r te created ttl allow now st)
    (StoreJobs.adoptIdempotencyKeyForJob key ex k u r te created ttl allow now s).
Proof.
  intros H Ht [tok Htok]. unfold adoptIdempotencyKeyForJob, IDEMPOTENCY_ADOPT_LIVE_JOB, token_arg.
  unfold StoreJobs.adoptIdempotencyKeyForJob. rewrite Htok. cbn [default from_option]. change (id tok) with tok.
  match goal with |- context [with_claim key now st ?b] => pose proof (with_claim_spec key now st s b H) as Hw end.
  destruct (live_claim s key now) as [e|]; [|by rewrite Hw].
  destruct Hw as (v & -> & Hr & Hf). cbv beta zeta.
  rewrite (has_token_spec v _ tok Hr), (started_spec v _ Hr).
  pose proof (mc_hashes _ _ _ H k) as Hh. destruct (mget (jobs s) k) as [j|]; cbn [hash_match] in Hh.
  2: { rewrite Hh. cbn [default from_option]. destruct (negb _ || negb _); [done|].
       change (adoptable [] (pretty created) u r (default "" te) allow) with false. done. }
  destruct Hh as ((h & -> & Hh) & Hj & Hte & Hcr). cbn [default from_option]. change (id h) with h.
  rewrite (adoptable_spec h j u r te created allow Hh Hj Hte).
  set (owner := bool_decide (Job.userId j = u /\ _)). set (rest := tenant_matches _ _).
  set (request := match Job.idempotencyClientRequestId j with Some _ => _ | None => _ end).
  destruct (decide (IdempotencyClaimValue.claimToken (ClaimEntry.value e) = Some tok)) as [E|E].
  2: { rewrite (bool_decide_false (_ = Some tok)) by done. cbn [negb orb].
       rewrite (bool_decide_false (_ /\ _ /\ _ /\ _)) by naive_solver. done. }
  destruct (decide (IdempotencyClaimValue.startedAt (ClaimEntry.value e) = None)) as [E'|E'].
  2: { rewrite (bool_decide_false (_ = None)), (bool_decide_false (_ /\ _ /\ _ /\ _)) by naive_solver.
       by rewrite orb_true_r. }
  assert (Ho : bool_decide (IdempotencyClaimValue.claimToken (ClaimEntry.value e) = Some tok /\
      IdempotencyClaimValue.startedAt (ClaimEntry.value e) = None /\ Job.userId j = u /\ Job.createdAt j = created) = owner).
  { apply bool_decide_ext. tauto. }
  rewrite Ho, (bool_decide_true (_ = Some tok)), (bool_decide_true (_ = None)) by done. cbn [negb orb].
  destruct (owner && rest && request && active (Job.status j)) eqn:Eg; cbn [negb]; [|done].
  rewrite set_px_spec by lia. split; [done|].
  assert (Hc : Job.createdAt j = created) by (subst owner; bool_facts; tauto).
  destruct (required_columns h j Hh Hj) as (_ & _ & _ & _ & _ & Hp).
  set (p := normalize_job_protocol (Job.generationProtocolVersion j)).
  assert (Ev : adopted_claim h created v =
               jset (jset v "startedAt" (jint created)) "generationProtocolVersion" (protocol_json p)).
  { unfold adopted_claim. rewrite Hp. subst p. by destruct (Job.generationProtocolVersion j) as [[]|]. }
  rewrite Ev, Hc. apply mirrors_set; [done | |].
  - apply cjson_claim; [|by apply (fine_started _ created) in Hf; [destruct Hf | congruence]].
    exact (reads_protocol _ _ p (reads_started v _ created Hr)).
  - by apply (fine_started _ created) in Hf; [destruct Hf | congruence].
Qed.

(** A release names a claim by its token, or takes whatever is there. *)
Definition named_release (ex : option IdempotencyClaimValue.t) : Prop :=
  forall e, ex = Some e -> exists tok, IdempotencyClaimValue.claimToken e = Some tok /\ tok <> "".

Lemma mirrors_del key now st s :
  mirrors_claims now st s ->
  mirrors_claims now (DEL key st) (with_idempotencyClaims (mdel (idempotencyClaims s) key) s).
Proof.
  intros [H1 H2]. split; [|done]. intros key'. unfold DEL. cbn. rewrite !mget_mdel. by case_decide.
Qed.

(** A claim that is gone on one side can go on the other. *)
Lemma mirrors_expired key now st s :
  mirrors_claims now st s -> live_claim s key now = None ->
  mirrors_claims now st (with_idempotencyClaims (mdel (idempotencyClaims s) key) s).
Proof.
  intros [H1 H2] Hl. split; [|done]. intros key'. cbn. rewrite mget_mdel. case_decide; [subst|done].
  specialize (H1 key'). unfold claim_match, live_claim, live_entry in *.
  destruct (mget (idempotencyClaims s) key') as [c|]; [|done]. destruct (decide _); [|done].
  by destruct (unexpired _ _).
Qed.

Lemma release_refines key ex now st s :
  mirrors_claims now st s -> named_release ex ->
  let '(a, st') := releaseIdempotencyKey key ex now st in
  a = Ok tt /\ mirrors_claims now st' (StoreJobs.releaseIdempotencyKey key ex s).
Proof.
  intros H Hex. unfold releaseIdempotencyKey, IDEMPOTENCY_RELEASE, StoreJobs.releaseIdempotencyKey, token_arg.
  destruct ex as [e|]; [|split; [done | by apply mirrors_del]].
  destruct (Hex e eq_refl) as (tok & Htok & Hne). cbn [from_option]. rewrite Htok. cbn [default from_option].
  unfold id. rewrite decide_False by done.
  match goal with |- context [with_claim key now st ?b] => pose proof (with_claim_spec key now st s b H) as Hw end.
  destruct (live_claim s key now) as [c|] eqn:El.
  - destruct Hw as (v & -> & Hr & _). cbv beta. rewrite (has_token_spec v _ tok Hr).
    assert (Hm : mget (idempotencyClaims s) key = Some c).
    { unfold live_claim in El. destruct (mget (idempotencyClaims s) key); [|done]. by case_decide. }
    rewrite Hm. cbn [mbind option_bind].
    case_bool_decide; (split; [done|]); [by apply mirrors_del | done].
  - rewrite Hw. split; [done|]. case_bool_decide; [by apply mirrors_expired | done].
Qed.
End refine.

(** ** Calls *)

Inductive ClaimOp :=
| ClaimKey (key : string) (value : IdempotencyClaimValue.t) (ttl : Z)
| TakeoverKey (key : string) (expected value : IdempotencyClaimValue.t) (ttl : Z)
| MarkStarted (key token : string) (startedAt ttl : Z)
| AdoptKey (key : string) (expected : IdempotencyClaimValue.t) (streamId userId requestId : string)
    (tenantId : option string) (createdAt ttl : Z) (allowMissing : bool)
| ReleaseKey (key : string) (expected : option IdempotencyClaimValue.t).

(** What a call answers: on Redis a parsed claim, in memory a claim. *)
Inductive ClaimAnswer (A : Type) := Held (won : bool) (claim : A) | Done (b : bool) | Failed.
Arguments Held {A}. Arguments Done {A}. Arguments Failed {A}.

Section calls.
Variable lua_number : jnum -> jnum.

Definition done_or_failed {A} (p : result string bool * ClaimKeys) : ClaimAnswer A * ClaimKeys :=
  (match p.1 with Ok b => Done b | Throw _ => Failed end, p.2).

Definition call_redis (now : Z) (c : ClaimOp) (st : ClaimKeys) : ClaimAnswer json * ClaimKeys :=
  match c with
  | ClaimKey key v ttl =>
      let '(a, st') := claimIdempotencyKey key v ttl now st in
      (match a with Ok (won, held) => Held won held | Throw _ => Failed end, st')
  | TakeoverKey key ex v ttl => done_or_failed (takeoverIdempotencyKey key ex v ttl now st)
  | MarkStarted key tok z ttl => done_or_failed (markIdempotencyKeyStarted lua_number key tok z ttl now st)
  | AdoptKey key ex k u r te z ttl b =>
      done_or_failed (adoptIdempotencyKeyForJob lua_number key ex k u r te z ttl b now st)
  | ReleaseKey key ex =>
      let '(a, st') := releaseIdempotencyKey key ex now st in
      (match a with Ok _ => Done true | Throw _ => Failed end, st')
  end.

Definition call_memory (now : Z) (c : ClaimOp) (s : Store)
  : ClaimAnswer IdempotencyClaimValue.t * Store :=
  match c with
  | ClaimKey key v ttl =>
      let '((won, held), s') := StoreJobs.claimIdempotencyKey key v ttl now s in (Held won held, s')
  | TakeoverKey key ex v ttl =>
      let '(b, s') := StoreJobs.takeoverIdempotencyKey key ex v ttl now s in (Done b, s')
  | MarkStarted key tok z ttl =>
      let '(b, s') := StoreJobs.markIdempotencyKeyStarted key tok z ttl now s in (Done b, s')
  | AdoptKey key ex k u r te z ttl b =>
      let '(b, s') := StoreJobs.adoptIdempotencyKeyForJob key ex k u r te z ttl b now s in (Done b, s')
  | ReleaseKey key ex => (Done true, StoreJobs.releaseIdempotencyKey key ex s)
  end.

(** Calls as the manager makes them: positive expiries, tokens in the claims that are expected,
    times of fourteen digits. *)
Definition claim_call_ok (c : ClaimOp) : Prop :=
  match c with
  | ClaimKey _ v ttl => (0 < ttl)%Z /\ claim_fine v
  | TakeoverKey _ ex v ttl => (0 < ttl)%Z /\ claim_fine v /\ is_Some (IdempotencyClaimValue.claimToken ex)
  | MarkStarted _ _ z ttl => (0 < ttl)%Z /\ fourteen z
  | AdoptKey _ ex _ _ _ _ _ ttl _ => (0 < ttl)%Z /\ is_Some (IdempotencyClaimValue.claimToken ex)
  | ReleaseKey _ ex => named_release ex
  end.

Definition agree_claim (a : ClaimAnswer json) (o : ClaimAnswer IdempotencyClaimValue.t) : Prop :=
  match a, o with
  | Held won v, Held won' c => won = won' /\ reads_claim v c
  | Done b, Done b' => b = b'
  | _, _ => False
  end.

Fixpoint redis_claims (calls : list (Z * ClaimOp)) (st : ClaimKeys) : list (ClaimAnswer json) :=
  match calls with
  | [] => []
  | (now, c) :: calls => let '(a, st') := call_redis now c st in a :: redis_claims calls st'
  end.
Fixpoint memory_claims (calls : list (Z * ClaimOp)) (s : Store)
  : list (ClaimAnswer IdempotencyClaimValue.t) :=
  match calls with
  | [] => []
  | (now, c) :: calls => let '(o, s') := call_memory now c s in o :: memory_claims calls s'
  end.

(** Calls in the order of the clock. *)
Fixpoint timed (now : Z) (calls : list (Z * ClaimOp)) : Prop :=
  match calls with
  | [] => True
  | (t, c) :: calls => (now <= t)%Z /\ claim_call_ok c /\ timed t calls
  end.

Context {lua : LuaNumber lua_number}.

Lemma cas_agrees now p q :
  same_cas now p q ->
  agree_claim (done_or_failed p).1 (Done q.1) /\ mirrors_claims now (@done_or_failed json p).2 q.2.
Proof. destruct p as [a st], q as [b s]. intros [E H]. cbn in *. by rewrite E. Qed.

Lemma claim_call_refines now c st s :
  mirrors_claims now st s -> claim_call_ok c ->
  agree_claim (call_redis now c st).1 (call_memory now c s).1 /\
  mirrors_claims now (call_redis now c st).2 (call_memory now c s).2.
Proof.
  intros H. destruct c as [key v ttl|key ex v ttl|key tok z ttl|key ex k u r te z ttl b|key ex]; cbn [claim_call_ok call_redis call_memory].
  - intros [Ht Hf]. pose proof (claim_refines key v ttl now st s H Ht Hf) as Hc.
    destruct (claimIdempotencyKey key v ttl now st) as [a st'],
      (StoreJobs.claimIdempotencyKey key v ttl now s) as [[won held] s'].
    destruct Hc as [(w & -> & Hw) Hm]. done.
  - intros (Ht & Hf & Htok). pose proof (takeover_refines key ex v ttl now st s H Ht Hf Htok) as Hc.
    apply cas_agrees in Hc. by destruct (StoreJobs.takeoverIdempotencyKey key ex v ttl now s).
  - intros [Ht Hz]. pose proof (mark_refines key tok z ttl now st s H Ht Hz) as Hc.
    apply cas_agrees in Hc. by destruct (StoreJobs.markIdempotencyKeyStarted key tok z ttl now s).
  - intros [Ht Htok]. pose proof (adopt_refines key ex k u r te z ttl b now st s H Ht Htok) as Hc.
    apply cas_agrees in Hc. by destruct (StoreJobs.adoptIdempotencyKeyForJob key ex k u r te z ttl b now s).
  - intros Hn. pose proof (release_refines key ex now st s H Hn) as Hc.
    destruct (releaseIdempotencyKey key ex now st) as [a st']. destruct Hc as [-> Hm]. done.
Qed.
End calls.

(** ** Theorem *)

(** C10. The Redis store and the in-memory store keep the same idempotency claims. Started on keys
    that hold the same claims and the same jobs, they give the same answer to every sequence of
    claims, takeovers, started marks, adoptions and releases in the order of their times, made the
    way the manager makes them: with positive expiries, times of fourteen digits, an expected claim
    of a takeover or an adoption that carries a token, and a release that expects a claim with a
    token that is not empty or expects none at all. A claim is then won on one side when it is won
    on the other, expires at the same moment, and is never lost, taken over, started or released on
    one side only. A release that expects a claim without a token is outside of this: the stores do
    differ on it (tokenless_release_differs). *)
Theorem redis_claims_refine_memory lua_number (lua : LuaNumber lua_number) now calls st s :
  mirrors_claims now st s -> timed now calls ->
  Forall2 agree_claim (redis_claims lua_number calls st) (memory_claims calls s).
Proof.
  revert now st s. induction calls as [|[t c] calls IH]; intros now st s H Ht; [constructor|].
  destruct Ht as (Hle & Hok & Ht). apply (mirrors_later now t) in H; [|done].
  destruct (claim_call_refines lua_number t c st s H Hok) as [Ha Hm]. cbn [redis_claims memory_claims].
  destruct (call_redis lua_number t c st) as [a st'], (call_memory t c s) as [o s'].
  constructor; [done | by apply (IH t)].
Qed.

(** ** An evaluated instance *)

Module ClaimKeysDemo.
Definition job : Job.t := {| RoundTripDemo.job with Job.tenantId := Some "t1" |}.
Definition store : Store := with_jobs [("s1", job)] (newStore None None None).
Definition keys : ClaimKeys := Build_ClaimKeys [] [("s1", job_fields job)].
Definition claim (tok : string) (startedAt : option Z) : IdempotencyClaimValue.t :=
  IdempotencyClaimValue.mk "s1" "s1" (Some V2) (Some 5%Z) (Some tok) None startedAt.
Definition calls : list (Z * ClaimOp) :=
  [(10, ClaimKey "k" (claim "a" None) 60); (11, ClaimKey "k" (claim "b" None) 60);
   (12, TakeoverKey "k" (claim "a" None) (claim "b" None) 60); (13, MarkStarted "k" "a" 12 60);
   (14, AdoptKey "k" (claim "b" None) "s1" "u1" "req" (Some "t1") 12 60 false);
   (15, TakeoverKey "k" (claim "b" None) (claim "c" None) 60); (16, ReleaseKey "k" (Some (claim "a" None)));
   (60014, ClaimKey "k" (claim "d" None) 60); (60015, ReleaseKey "k" None)]%Z.
End ClaimKeysDemo.

Lemma claim_demo_storable : storable ClaimKeysDemo.job.
Proof. destruct demo_storable. by split. Qed.
Lemma claim_demo_fine tok : claim_fine (ClaimKeysDemo.claim tok None).
Proof. split; [by intros z [= <-] | done]. Qed.

Lemma redis_claims_refine_memory_witness :
  Forall2 agree_claim (redis_claims (fun n => n) ClaimKeysDemo.calls ClaimKeysDemo.keys)
    (memory_claims ClaimKeysDemo.calls ClaimKeysDemo.store).
Proof.
  apply (redis_claims_refine_memory (fun n => n) {| lua_number_exact := fun z _ => eq_refl |} 0).
  - split; [done|]. intros k. cbn [ClaimKeysDemo.keys jobHashes mget].
    change (jobs ClaimKeysDemo.store) with [("s1", ClaimKeysDemo.job)]. cbn [mget].
    destruct (decide ("s1" = k)); [|done]. split_and!; [by eexists | apply claim_demo_storable | done | done].
  - cbn [timed ClaimKeysDemo.calls claim_call_ok named_release].
    repeat first [apply claim_demo_fine | split]; try done; try (by eexists); try lia.
    by intros e [= <-]; eexists.
Defined.

Example claim_demo_answers :
  memory_claims ClaimKeysDemo.calls ClaimKeysDemo.store =
  [Held true (ClaimKeysDemo.claim "a" None); Held false (ClaimKeysDemo.claim "a" None); Done true;
   Done false; Done true; Done false; Done true; Held true (ClaimKeysDemo.claim "d" None); Done true].
Proof. vm_compute. reflexivity. Qed.

(** Where the two differ: a release that expects a claim without a token deletes any claim on Redis,
    and none with a token in memory.  The manager releases claims by their token. *)
Example tokenless_release_differs :
  let anonymous := {| (ClaimKeysDemo.claim "a" None) with IdempotencyClaimValue.claimToken := None |} in
  let calls := [(10, ClaimKey "k" (ClaimKeysDemo.claim "a" None) 60); (11, ReleaseKey "k" (Some anonymous));
                (12, ClaimKey "k" (ClaimKeysDemo.claim "b" None) 60)]%Z in
  redis_claims (fun n => n) calls ClaimKeysDemo.keys !! 2 =
    Some (Held true (claim_json (ClaimKeysDemo.claim "b" None))) /\
  memory_claims calls ClaimKeysDemo.store !! 2 = Some (Held false (ClaimKeysDemo.claim "a" None)).
Proof. by vm_compute. Qed.
