(* ===== verification/RedisSteers.v ===== *)
(** * Steering queue, claims and receipts of the Redis job store
      ([stream/implementations/RedisJobStore.ts], steering section)

    Every operation is one Lua script on the keys of a stream, which the server runs at once; a
    method sends it and reads its answer.  The scripts are written line by line over [RedisLua].
    Rows are JSON texts: a script finds out by itself whether one can be read.  Properties of
    values that are not tables are absent here; the shapes in which that differs from an error of
    the script are written by no method of the store. *)

From stdpp Require Import pretty.
From S2P Require Import Prelude JsMap Json StreamTypes RedisScripts RedisLua.

Section scripts.
Variable lua_number : jnum -> jnum.
Abbreviation encode := (cjson_encode lua_number).

(** ** Guards *)

(** A field of the job hash that holds words. *)
Definition hget_job (field : string) (r : Rows) : option string := HGET field (jobHash r) ≫= word.
(** [if ARGV ~= "" and HGET createdAt ~= ARGV then return .. end] *)
Definition createdAt_guard (expected : string) (r : Rows) : bool :=
  negb (bool_decide (expected <> "" /\ hget_job "createdAt" r <> Some expected)).
Definition running_and_open (r : Rows) : bool :=
  bool_decide (hget_job "status" r = Some "running" /\ hget_job "steersClosed" r <> Some "1").
Definition protocolV2 (r : Rows) : bool :=
  bool_decide (hget_job "generationProtocolVersion" r = Some "2").
Definition preempt_capable (r : Rows) : bool :=
  bool_decide (hget_job "preemptCapable" r = Some "1").

(** ** Enqueue *)

Definition STEER_ENQUEUE (itemJson : jtext) (ttl : Z) (maxDepth : nat) (expected : string)
    (r : Rows) : Reply * Rows :=
  if negb (createdAt_guard expected r) then (RInt (-1), r)
  else if negb (running_and_open r) then (RInt (-1), r)
  else if decide (maxDepth <= LLEN (steersKey r)) then (RInt (-2), r)
  else
    let queue := EXPIRE ttl (RPUSH [itemJson] (steersKey r)) in
    (RInt (Z.of_nat (LLEN queue)), with_steersKey queue r).

(** [item.preemptRevision = 1], and [item.preempt = true] when the owner can seal. *)
Definition prepared (wants : bool) (r : Rows) (item : json) : json :=
  if wants then
    let item := jset item "preemptRevision" (jint 1) in
    if preempt_capable r then jset item "preempt" (JBool true) else item
  else item.

Definition STEER_ENQUEUE_VERSIONED (itemJson : jtext) (ttl : Z) (maxDepth : nat)
    (expected : string) (wants : bool) (r : Rows) : Reply * Rows :=
  if negb (createdAt_guard expected r) then (RInt (-1), r)
  else if negb (running_and_open r) then (RInt (-1), r)
  else if decide (maxDepth <= LLEN (steersKey r)) then (RInt (-2), r)
  else
    match JSON_parse itemJson with
    | None => (RError "cjson.decode", r)
    | Some item =>
        let item := prepared wants r item in
        let queue := EXPIRE ttl (RPUSH [encode item] (steersKey r)) in
        (RText (encode (JObj [("item", item); ("position", jint (Z.of_nat (LLEN queue)))])),
         with_steersKey queue r)
    end.

(** ** Receipts *)

(** [sameActive]: the receipt's generation is the live one, under the receipt-safe protocol. *)
Definition sameActive (receipt : json) (r : Rows) : bool :=
  protocolV2 r &&
  match hget_job "createdAt" r with
  | Some epoch =>
      bool_decide (tostring_or_empty (jfield receipt "generationCreatedAt") = Some epoch)
  | None => false
  end &&
  bool_decide (hget_job "status" r = Some "running" \/ hget_job "status" r = Some "requires_action").

Definition state_is (st : string) (receipt : json) : bool :=
  lua_eq (jfield receipt "state") (Some (JStr st)).

(** Some row of the queue has the client id. *)
Definition queued_here (c : string) (rows : list jtext) : bool :=
  existsb (fun t => match JSON_parse t with
                    | Some item => lua_eq (jfield item "clientSteerId") (Some (JStr c))
                    | None => false
                    end) rows.

(** The receipt that is read, [leftover] when its steer can no longer be injected. *)
Definition becomes_leftover (c : string) (receipt : json) (r : Rows) : bool :=
  if state_is "queued" receipt
  then negb (sameActive receipt r) || negb (queued_here c (LRANGE (steersKey r)))
  else state_is "claimed" receipt && negb (sameActive receipt r).

Definition read_receipt (c : string) (raw : jtext) (r : Rows) : Reply * Rows :=
  match JSON_parse raw with
  | None => (RError "cjson.decode", r)
  | Some receipt =>
      if becomes_leftover c receipt r
      then
        let raw := encode (jset receipt "state" (JStr "leftover")) in
        (RText raw, with_receiptsKey (HSET c raw (receiptsKey r)) r)
      else (RText raw, r)
  end.

Definition STEER_RECEIPT_GET (c : string) (r : Rows) : Reply * Rows :=
  match HGET c (receiptsKey r) with
  | None => (RNil, r)
  | Some raw => read_receipt c raw r
  end.

(** [if ttl == -1 or (ttl >= 0 and ttl < bound) then EXPIRE key bound end] *)
Definition raise_ttl {A} (bound : Z) (k : option (Key.t A)) : option (Key.t A) :=
  if decide (TTL k = (-1)%Z \/ (0 <= TTL k < bound)%Z) then EXPIRE bound k else k.

(** The receipt written for an item that was pushed. *)
Definition accepted_receipt (receipt item : json) (position : nat) : json :=
  jset (jset (jset receipt "item" item) "position" (jint (Z.of_nat position)))
    "state" (JStr "queued").

Definition STEER_ENQUEUE_RECEIPT (itemJson : jtext) (ttl : Z) (maxDepth : nat) (expected : string)
    (c : string) (receiptJson : jtext) (wants : bool) (receiptTtl : Z) (maxReceipts : nat)
    (r : Rows) : Reply * Rows :=
  match HGET c (receiptsKey r) with
  | Some existing => read_receipt c existing r
  | None =>
      if negb (protocolV2 r) then STEER_ENQUEUE_VERSIONED itemJson ttl maxDepth expected wants r
      else if negb (createdAt_guard expected r) then (RInt (-1), r)
      else if negb (running_and_open r) then (RInt (-1), r)
      else if decide (maxDepth <= LLEN (steersKey r)) then (RInt (-2), r)
      else if decide (maxReceipts <= ZCARD (orderKey r)) then (RInt (-3), r)
      else
        match JSON_parse itemJson, JSON_parse receiptJson with
        | Some item, Some receipt =>
            let item := prepared wants r item in
            let queue := EXPIRE ttl (RPUSH [encode item] (steersKey r)) in
            let raw := encode (accepted_receipt receipt item (LLEN queue)) in
            let receipts := HSET c raw (receiptsKey r) in
            let order := ZADD (tonumber_or_0 (jfield item "createdAt")) c (orderKey r) in
            (RText raw,
             with_orderKey (raise_ttl receiptTtl order)
               (with_receiptsKey (raise_ttl receiptTtl receipts) (with_steersKey queue r)))
        | _, _ => (RError "cjson.decode", r)
        end
  end.

(** ** Drain and restore *)

(** The receipt [raw] of [item] when it holds: readable, bound to the item and the generation, in
    the state asked for. *)
Definition bound_receipt (r : Rows) (st : string) (item : json) (raw : jtext) : option json :=
  match JSON_parse raw, hget_job "createdAt" r with
  | Some receipt, Some currentCreatedAt =>
      if is_object receipt &&
         lua_eq (jfield receipt "clientSteerId") (jfield item "clientSteerId") &&
         bool_decide (tostring_or_empty (jfield receipt "generationCreatedAt") =
                      Some currentCreatedAt) &&
         state_is st receipt &&
         match jfield receipt "item" with
         | Some inner =>
             truthy (Some inner) && lua_eq (jfield inner "steerId") (jfield item "steerId") &&
             lua_eq (jfield inner "clientSteerId") (jfield item "clientSteerId")
         | None => false
         end
      then Some receipt else None
  | _, _ => None
  end.

(** The receipt of an item with a client id; [Ok None] for an item without. *)
Definition receipt_for (r : Rows) (st : string) (item : json) : result string (option json) :=
  if truthy (jfield item "clientSteerId") then
    match as_string (jfield item "clientSteerId") with
    | None => Throw "invalid steer receipt"
    | Some c =>
        match HGET c (receiptsKey r) with
        | None => Throw "missing steer receipt"
        | Some raw =>
            match bound_receipt r st item raw with
            | Some receipt => Ok (Some receipt)
            | None => Throw "invalid steer receipt"
            end
        end
    end
  else Ok None.

(** The first loop of [STEER_DRAIN_LUA]. *)
Fixpoint check_rows (r : Rows) (rows : list jtext) : result string (list (json * option json)) :=
  match rows with
  | [] => Ok []
  | t :: rows =>
      match JSON_parse t with
      | Some item =>
          if is_object item && truthy (jfield item "steerId") then
            match receipt_for r "queued" item with
            | Ok receipt =>
                match check_rows r rows with
                | Ok l => Ok ((item, receipt) :: l)
                | Throw e => Throw e
                end
            | Throw e => Throw e
            end
          else Throw "invalid steer queue item"
      | None => Throw "invalid steer queue item"
      end
  end.

(** [receipt.item = item; receipt.state = st; HSET receipts item.clientSteerId receipt] *)
Definition settle_row (st : string) (p : json * option json) (k : option (Key.t (jsmap jtext)))
  : option (Key.t (jsmap jtext)) :=
  match p.2, as_string (jfield p.1 "clientSteerId") with
  | Some receipt, Some c =>
      HSET c (encode (jset (jset receipt "item" p.1) "state" (JStr st))) k
  | _, _ => k
  end.
Definition settle_rows (st : string) (l : list (json * option json))
    (k : option (Key.t (jsmap jtext))) : option (Key.t (jsmap jtext)) :=
  foldl (fun k p => settle_row st p k) k l.

Definition STEER_DRAIN (expected : string) (ttl : Z) (r : Rows) : Reply * Rows :=
  if negb (createdAt_guard expected r) then (REmpty, r)
  else if negb (running_and_open r) then (REmpty, r)
  else
    let items := LRANGE (steersKey r) in
    if negb (protocolV2 r) then (RArray items, with_steersKey None r)
    else
      match check_rows r items with
      | Throw e => (RError e, r)
      | Ok decoded =>
          let claims := match items with
                        | [] => claimedKey r
                        | _ :: _ => EXPIRE ttl (RPUSH items (claimedKey r))
                        end in
          let receipts := settle_rows "claimed" decoded (receiptsKey r) in
          (RArray items,
           with_steersKey None
             (with_orderKey (extend_ttl ttl (orderKey r))
                (with_receiptsKey (extend_ttl ttl receipts) (with_claimedKey claims r))))
      end.

(** The ids of the rows; a row that cannot be read, or has none, gives [None]. *)
Fixpoint row_ids (rows : list jtext) : option (list json) :=
  match rows with
  | [] => Some []
  | t :: rows =>
      match JSON_parse t with
      | Some item =>
          match jfield item "steerId" with
          | Some id =>
              if is_object item && truthy (Some id) then cons id <$> row_ids rows else None
          | None => None
          end
      | None => None
      end
  end.

(** An item that goes back to the front of the queue: it has an id that is not queued again. *)
Definition returns_ (present : list json) (item : json) : bool :=
  match jfield item "steerId" with
  | Some id => truthy (Some id) && negb (bool_decide (id ∈ present))
  | None => false
  end.

(** The receipts of the incoming items, all of which must hold. *)
Fixpoint check_claims (r : Rows) (incoming : list json) : option (list (json * option json)) :=
  match incoming with
  | [] => Some []
  | item :: incoming =>
      match receipt_for r "claimed" item with
      | Ok receipt => cons (item, receipt) <$> check_claims r incoming
      | Throw _ => None
      end
  end.

Definition is_incoming (incoming : list json) (t : jtext) : bool :=
  match JSON_parse t with
  | Some item =>
      match jfield item "steerId" with
      | Some id => truthy (Some id) &&
                   existsb (fun i => lua_eq (jfield i "steerId") (Some id)) incoming
      | None => false
      end
  | None => false
  end.

(** [for i = #incoming, 1, -1 do LPUSH .. end], then the expiry of the queue when there is one. *)
Definition push_front (ttl : Z) (items : list json) (k : option (Key.t (list jtext)))
  : option (Key.t (list jtext)) :=
  EXPIRE ttl (foldr (fun item k => LPUSH (encode item) k) k items).

Definition STEER_RESTORE_CLAIMED (expected : string) (itemsJson : jtext) (ttl : Z) (r : Rows)
  : Reply * Rows :=
  if negb (createdAt_guard expected r) then (RInt 0, r)
  else if negb (running_and_open r) then (RInt 0, r)
  else
    match JSON_parse itemsJson ≫= fun v => as_array (Some v) with
    | None => (RError "cjson.decode", r)
    | Some incoming =>
        if negb (protocolV2 r) then
          match row_ids (LRANGE (steersKey r)) with
          | None => (RInt 0, r)
          | Some present =>
              (RInt 1, with_steersKey (push_front ttl (filter (fun i => returns_ present i = true) incoming) (steersKey r)) r)
          end
        else
          let claims := LRANGE (claimedKey r) in
          if negb (bool_decide (length (filter (fun t => is_incoming incoming t = true) claims) =
                                length incoming)) then (RInt 0, r)
          else
            match check_claims r incoming with
            | None => (RInt 0, r)
            | Some checked =>
                match row_ids (LRANGE (steersKey r)) with
                | None => (RInt 0, r)
                | Some present =>
                    let kept := filter (fun t => is_incoming incoming t = false) claims in
                    let back := filter (fun i => returns_ present i = true) incoming in
                    (RInt 1,
                     with_receiptsKey
                       (foldr (settle_row "queued") (receiptsKey r)
                          (filter (fun p => returns_ present p.1 = true) checked))
                       (with_steersKey (push_front ttl back (steersKey r))
                          (with_claimedKey
                             (keep_ttl (claimedKey r) (RPUSH kept None)) r)))
                end
            end
    end.

(** ** Reads *)

Definition STEER_PEEK (expected : string) (r : Rows) : Reply :=
  if decide (hget_job "createdAt" r = Some expected) then RArray (LRANGE (steersKey r)) else REmpty.

Definition STEER_PEEK_CLAIMED (expected : string) (r : Rows) : Reply :=
  if negb (createdAt_guard expected r) || negb (protocolV2 r) then REmpty
  else RArray (LRANGE (claimedKey r)).

(** ** Cancel and arm *)

(** A row that the scans accept: a table with an id that is a non-empty text. *)
Definition scanned (t : jtext) : option json :=
  match JSON_parse t with
  | Some item =>
      match as_string (jfield item "steerId") with
      | Some id => if decide (id = "") then None else Some item
      | None => None
      end
  | None => None
  end.

(** The loop that looks for the row with an id, checking it with [check] when it is found; the
    index counts from zero. *)
Fixpoint scan_rows (check : json -> result string (option json)) (steerId : string) (i : nat)
    (found : option (nat * json * option json)) (rows : list jtext)
  : result string (option (nat * json * option json)) :=
  match rows with
  | [] => Ok found
  | t :: rows =>
      match scanned t with
      | None => Throw "invalid steer queue item"
      | Some item =>
          if is_string (jfield item "steerId") steerId then
            match found with
            | Some _ => Throw "duplicate steer id"
            | None =>
                match check item with
                | Throw e => Throw e
                | Ok receipt => scan_rows check steerId (S i) (Some (i, item, receipt)) rows
                end
            end
          else scan_rows check steerId (S i) found rows
      end
  end.

(** The receipt that a mutation of a queued item also writes. *)
Definition mutation_receipt (r : Rows) (item : json) : result string (option json) :=
  if protocolV2 r && truthy (jfield item "clientSteerId") then
    if is_string (jfield item "clientSteerId") "" then Throw "invalid steer receipt"
    else receipt_for r "queued" item
  else Ok None.

Definition STEER_REMOVE (steerId expected : string) (r : Rows) : Reply * Rows :=
  if negb (createdAt_guard expected r) then (RInt 0, r)
  else
    let items := LRANGE (steersKey r) in
    match scan_rows (mutation_receipt r) steerId 0 None items with
    | Throw e => (RError e, r)
    | Ok None => (RInt 0, r)
    | Ok (Some (i, item, receipt)) =>
        (RInt 1,
         with_receiptsKey (settle_row "cancelled" (item, receipt) (receiptsKey r))
           (with_steersKey (keep_ttl (steersKey r) (RPUSH (splice1 i items) None)) r))
    end.

(** [item.preemptRevision = tonumber(item.preemptRevision or 0) + 1] *)
Definition bump_revision (item : json) : json :=
  jset item "preemptRevision" (jint (tonumber_or_0 (jfield item "preemptRevision") + 1)).
(** [receipt.item = item; HSET receipts item.clientSteerId receipt] *)
Definition update_row (p : json * option json) (k : option (Key.t (jsmap jtext)))
  : option (Key.t (jsmap jtext)) :=
  match p.2, as_string (jfield p.1 "clientSteerId") with
  | Some receipt, Some c => HSET c (encode (jset receipt "item" p.1)) k
  | _, _ => k
  end.

Definition STEER_ARM (steerId expected : string) (r : Rows) : Reply * Rows :=
  if negb (createdAt_guard expected r) then (RInt 0, r)
  else if negb (running_and_open r) then (RInt 0, r)
  else
    let items := LRANGE (steersKey r) in
    match scan_rows (fun _ => Ok None) steerId 0 None items with
    | Throw e => (RError e, r)
    | Ok None => (RInt 0, r)
    | Ok (Some (i, item, _)) =>
        if negb (preempt_capable r) then (RInt (-1), r)
        else
          match mutation_receipt r item with
          | Throw e => (RError e, r)
          | Ok receipt =>
              let item := jset (bump_revision item) "preempt" (JBool true) in
              (RText (encode item),
               with_receiptsKey (update_row (item, receipt) (receiptsKey r))
                 (with_steersKey (LSET i (encode item) (steersKey r)) r))
          end
    end.

(** The first loop of [STEER_DOWNGRADE_PREEMPTS_LUA]: the rows to change and their receipts. *)
Fixpoint downgradable (r : Rows) (rows : list jtext)
  : result string (list (option (json * option json))) :=
  match rows with
  | [] => Ok []
  | t :: rows =>
      match JSON_parse t with
      | Some item =>
          if lua_eq (jfield item "preempt") (Some (JBool true)) then
            match (if protocolV2 r then receipt_for r "queued" item else Ok None) with
            | Throw e => Throw e
            | Ok receipt =>
                match downgradable r rows with
                | Ok l => Ok (Some (item, receipt) :: l)
                | Throw e => Throw e
                end
            end
          else match downgradable r rows with Ok l => Ok (None :: l) | Throw e => Throw e end
      | None => match downgradable r rows with Ok l => Ok (None :: l) | Throw e => Throw e end
      end
  end.

Definition downgraded (item : json) : json := bump_revision (jdel item "preempt").

Definition STEER_DOWNGRADE_PREEMPTS (expected : string) (r : Rows) : Reply * Rows :=
  if negb (createdAt_guard expected r) then (RInt (-1), r)
  else if bool_decide (jobHash r = None) then (RInt (-1), r)
  else if preempt_capable r then (RInt (-1), r)
  else
    let items := LRANGE (steersKey r) in
    match downgradable r items with
    | Throw e => (RError e, r)
    | Ok marks =>
        let changed := (fun p => (downgraded p.1, p.2)) <$> omap id marks in
        let rows := zip_with (fun t m => match m with
                                         | Some p => encode (downgraded p.1)
                                         | None => t
                                         end) items marks in
        (RArray ((fun p => encode p.1) <$> changed),
         with_receiptsKey (foldl (fun k p => update_row p k) (receiptsKey r) changed)
           (with_steersKey ((fun key => Key.mk rows (Key.ttl key)) <$> steersKey r) r))
    end.

(** ** Methods *)

Variable ttl : Z. (* [runningStorageTtlSeconds()] *)

Definition expected_arg (expectedCreatedAt : option Z) : string :=
  match expectedCreatedAt with Some z => pretty z | None => "" end.

(** What a method returns or throws, and the keys afterwards. *)
Definition Method (A : Type) : Type := Rows -> result string A * Rows.

(** A number, or a parsed answer. *)
Inductive Answer := Code (z : Z) | Value (v : json).

Definition answer (p : Reply * Rows) : result string Answer * Rows :=
  (match p.1 with
   | RInt z => Ok (Code z)
   | RText t => match JSON_parse t with
                | Some v => Ok (Value v)
                | None => Ok (Code STEER_ENQUEUE_NOT_RUNNING)
                end
   | RError e => Throw e
   | _ => Ok (Code STEER_ENQUEUE_NOT_RUNNING)
   end, p.2).

(** [parseSteerItems(raw)] *)
Definition parseSteerItems (p : Reply) : result string (list json) :=
  match p with
  | RArray l => Ok (omap JSON_parse l)
  | RError e => Throw e
  | _ => Ok []
  end.

(** [result === 1] *)
Definition succeeded (p : Reply) : result string bool :=
  match p with RInt z => Ok (bool_decide (z = 1%Z)) | RError e => Throw e | _ => Ok false end.

Definition enqueueSteer (item : json) (expectedCreatedAt : option Z) : Method Z := fun r =>
  let '(reply, r') := STEER_ENQUEUE (JSON_stringify item) ttl STEER_QUEUE_MAX_DEPTH
                        (expected_arg expectedCreatedAt) r in
  (match reply with
   | RInt z => Ok z
   | RError e => Throw e
   | _ => Ok STEER_ENQUEUE_NOT_RUNNING
   end, r').

Definition enqueueSteerVersioned (item : json) (wantsPreempt : bool) (expectedCreatedAt : option Z)
  : Method Answer := fun r =>
  answer (STEER_ENQUEUE_VERSIONED (JSON_stringify item) ttl STEER_QUEUE_MAX_DEPTH
            (expected_arg expectedCreatedAt) wantsPreempt r).

(** A receipt that cannot be parsed is dropped. *)
Definition getSteerReceipt (clientSteerId : string) : Method (option json) := fun r =>
  let '(reply, r') := STEER_RECEIPT_GET clientSteerId r in
  match reply with
  | RText t =>
      match JSON_parse t with
      | Some v => (Ok (Some v), r')
      | None =>
          (Ok None, with_receiptsKey
                      (rewrite_key (mdel (content [] (receiptsKey r')) clientSteerId)
                         (receiptsKey r')) r')
      end
  | RError e => (Throw e, r')
  | _ => (Ok None, r')
  end.

(** [STEER_RECEIPT_MAX_PER_STREAM] *)
Definition STEER_RECEIPT_MAX : nat := 100.

Definition enqueueSteerWithReceipt (item receipt : json) (clientSteerId : string)
    (wantsPreempt : bool) (expectedCreatedAt : option Z) : Method Answer := fun r =>
  answer (STEER_ENQUEUE_RECEIPT (JSON_stringify item) ttl STEER_QUEUE_MAX_DEPTH
            (expected_arg expectedCreatedAt) clientSteerId (JSON_stringify receipt) wantsPreempt
            ttl STEER_RECEIPT_MAX r).

Definition drainSteers (expectedCreatedAt : option Z) : Method (list json) := fun r =>
  let '(reply, r') := STEER_DRAIN (expected_arg expectedCreatedAt) ttl r in
  (parseSteerItems reply, r').

Definition restoreClaimedSteers (items : list json) (expectedCreatedAt : option Z)
  : Method bool := fun r =>
  match items with
  | [] => (Ok true, r)
  | _ :: _ =>
      let '(reply, r') := STEER_RESTORE_CLAIMED (expected_arg expectedCreatedAt)
                            (JSON_stringify (JArr items)) ttl r in
      (succeeded reply, r')
  end.

Definition peekSteers (expectedCreatedAt : option Z) : Method (list json) := fun r =>
  (parseSteerItems (match expectedCreatedAt with
                    | None => RArray (LRANGE (steersKey r))
                    | Some e => STEER_PEEK (pretty e) r
                    end), r).
Definition peekClaimedSteers (expectedCreatedAt : option Z) : Method (list json) := fun r =>
  (parseSteerItems (STEER_PEEK_CLAIMED (expected_arg expectedCreatedAt) r), r).

Definition clearSteers (r : Rows) : Rows := with_steersKey None (with_claimedKey None r).

Definition removeSteer (steerId : string) (expectedCreatedAt : option Z) : Method bool := fun r =>
  let '(reply, r') := STEER_REMOVE steerId (expected_arg expectedCreatedAt) r in
  (succeeded reply, r').

(** [SteerArmResult], with the item as it was parsed. *)
Inductive ArmAnswer := ArmedItem (item : json) | NotArmed (capable : bool).

Definition armSteerVersioned (steerId : string) (expectedCreatedAt : option Z)
  : Method ArmAnswer := fun r =>
  let '(reply, r') := STEER_ARM steerId (expected_arg expectedCreatedAt) r in
  (match reply with
   | RText t => match JSON_parse t with
                | Some item => Ok (ArmedItem item)
                | None => Ok (NotArmed true)
                end
   | RInt z => Ok (NotArmed (negb (bool_decide (z = -1)%Z)))
   | RError e => Throw e
   | _ => Ok (NotArmed true)
   end, r').

Definition downgradeSteerPreempts (expectedCreatedAt : option Z)
  : Method (option (list json)) := fun r =>
  let '(reply, r') := STEER_DOWNGRADE_PREEMPTS (expected_arg expectedCreatedAt) r in
  (match reply with
   | RInt (-1) => Ok None
   | _ => match parseSteerItems reply with Ok l => Ok (Some l) | Throw e => Throw e end
   end, r').
End scripts.
