(* ===== verification/RedisRows.v ===== *)
(** * Redis rows and the values they stand for

    Rows are JSON texts whose properties come in any order; a text is read by looking its
    properties up.  [represents] relates the keys of a stream to the in-memory store of
    [StoreState]: the same job, queue, claims and receipts.  It says nothing of what a key's expiry
    is, only that the key is there, and nothing of the closed queue of a job that has ended, which
    only Redis marks. *)

From stdpp Require Import pretty.
From S2P Require Import Prelude JsMap Json StreamTypes SteerRecovery StoreState StoreSteers StoreParked.
From S2P Require Import StoreJobs StoreCleanup StoreFrame StoreRun StoreEpochs StoreParking StoreRecovery StoreQueue.
From S2P Require Import RedisScripts RedisLua RedisJobs RedisSteers.

(** ** Items *)

(** An integer that fourteen digits can write. *)
Definition small (z : Z) : Prop := (Z.abs z < 10 ^ 14)%Z.

Record reads_item (v : json) (it : SteerQueueItem.t) : Prop := {
  ri_object : is_plain_object v = true;
  ri_steerId : jfield v "steerId" = Some (JStr (SteerQueueItem.steerId it));
  ri_client : jfield v "clientSteerId" = JStr <$> SteerQueueItem.clientSteerId it;
  ri_text : jfield v "text" = Some (JStr (SteerQueueItem.text it));
  ri_userId : jfield v "userId" = Some (JStr (SteerQueueItem.userId it));
  ri_createdAt : jfield v "createdAt" = Some (jint (SteerQueueItem.createdAt it));
  ri_files : jfield v "files" = JArr <$> SteerQueueItem.files it;
  ri_preempt : jfield v "preempt" = JBool <$> SteerQueueItem.preempt it;
  ri_revision : jfield v "preemptRevision" = jint <$> SteerQueueItem.preemptRevision it
}.

Section rows.
Context {lua_number : jnum -> jnum} {lua : LuaNumber lua_number}.
Abbreviation cj := (cjson lua_number).
Abbreviation encode := (cjson_encode lua_number).

(** An item that [cjson] writes as it is: ids are not empty, numbers are small, and there is no
    empty array in its files. *)
Record item_fine (it : SteerQueueItem.t) : Prop := {
  if_id : SteerQueueItem.steerId it <> "";
  if_client : SteerQueueItem.clientSteerId it <> Some "";
  if_createdAt : small (SteerQueueItem.createdAt it);
  if_files : forall l, SteerQueueItem.files it = Some l -> cj (JArr l) = JArr l;
  if_revision : forall z, SteerQueueItem.preemptRevision it = Some z -> small z
}.

Lemma cjson_int z : small z -> cj (jint z) = jint z.
Proof. intros Hz. cbn. by rewrite lua_number_exact. Qed.
Lemma cjson_str x : cj (JStr x) = JStr x.
Proof. done. Qed.
Lemma plain_cjson v : is_plain_object v = true -> is_plain_object (cj v) = true.
Proof. by destruct v. Qed.

Lemma reads_cjson v it : reads_item v it -> item_fine it -> reads_item (cj v) it.
Proof.
  intros [R0 R1 R2 R3 R4 R5 R6 R7 R8] [F1 F2 F3 F4 F5].
  split; rewrite ?jfield_cjson; [by apply plain_cjson | by rewrite R1 | | by rewrite R3 | by rewrite R4
    | | | |].
  - rewrite R2. by destruct (SteerQueueItem.clientSteerId it).
  - rewrite R5. cbn [fmap option_fmap option_map]. by rewrite cjson_int.
  - rewrite R6. destruct (SteerQueueItem.files it) as [l|]; [|done].
    cbn [fmap option_fmap option_map]. by rewrite (F4 l).
  - rewrite R7. by destruct (SteerQueueItem.preempt it).
  - rewrite R8. destruct (SteerQueueItem.preemptRevision it) as [z|]; [|done].
    cbn [fmap option_fmap option_map]. by rewrite cjson_int by (by apply F5).
Qed.

Lemma plain_jset v f x : is_plain_object v = true -> is_plain_object (jset v f x) = true.
Proof. by destruct v. Qed.
Lemma plain_jdel v f : is_plain_object v = true -> is_plain_object (jdel v f) = true.
Proof. by destruct v. Qed.
Lemma jfield_jset v f x f' :
  is_plain_object v = true -> jfield (jset v f x) f' = if decide (f = f') then Some x else jfield v f'.
Proof. intros H. case_decide; [subst; by apply jfield_jset_eq | by apply jfield_jset_ne]. Qed.
Lemma jfield_jdel v f f' : jfield (jdel v f) f' = if decide (f = f') then None else jfield v f'.
Proof. case_decide; [subst; by apply jfield_jdel_eq | by apply jfield_jdel_ne]. Qed.

(** Assignment of the fields that the store changes. *)
Lemma reads_revision v it z :
  reads_item v it -> reads_item (jset v "preemptRevision" (jint z))
                       {| it with SteerQueueItem.preemptRevision := Some z |}.
Proof.
  intros [R0 R1 R2 R3 R4 R5 R6 R7 R8].
  split; [by apply plain_jset | ..]; rewrite jfield_jset by done; done.
Qed.
Lemma reads_preempt v it b :
  reads_item v it -> reads_item (jset v "preempt" (JBool b)) {| it with SteerQueueItem.preempt := Some b |}.
Proof.
  intros [R0 R1 R2 R3 R4 R5 R6 R7 R8].
  split; [by apply plain_jset | ..]; rewrite jfield_jset by done; done.
Qed.
Lemma reads_no_preempt v it :
  reads_item v it -> reads_item (jdel v "preempt") {| it with SteerQueueItem.preempt := None |}.
Proof.
  intros [R0 R1 R2 R3 R4 R5 R6 R7 R8].
  split; [by apply plain_jdel | ..]; rewrite jfield_jdel; done.
Qed.

(** A row of the queue or of the claims. *)
Definition row (t : jtext) (it : SteerQueueItem.t) : Prop :=
  exists v, t = Text v /\ reads_item v it /\ item_fine it.

Lemma row_encode v it : reads_item v it -> item_fine it -> row (encode v) it.
Proof. intros Hv Hf. exists (cj v). split_and!; [done | by apply reads_cjson | done]. Qed.

(** ** Receipts *)

Definition state_text (st : ReceiptState) : string :=
  match st with
  | queued => "queued" | claimed => "claimed" | delivered => "delivered"
  | leftover => "leftover" | recovered => "recovered" | cancelled => "cancelled"
  end.
Lemma state_text_inj st st' : state_text st = state_text st' -> st = st'.
Proof. by destruct st, st'. Qed.

Record reads_receipt (v : json) (rc : SteerReceipt.t) : Prop := {
  rr_object : is_plain_object v = true;
  rr_client : jfield v "clientSteerId" = Some (JStr (SteerReceipt.clientSteerId rc));
  rr_fingerprint : jfield v "fingerprint" = Some (JStr (SteerReceipt.fingerprint rc));
  rr_userId : jfield v "userId" = Some (JStr (SteerReceipt.userId rc));
  rr_tenantId : jfield v "tenantId" = JStr <$> SteerReceipt.tenantId rc;
  rr_agentId : jfield v "agentId" = JStr <$> SteerReceipt.agentId rc;
  rr_endpoint : jfield v "endpoint" = JStr <$> SteerReceipt.endpoint rc;
  rr_generation : jfield v "generationCreatedAt" = Some (jint (SteerReceipt.generationCreatedAt rc));
  rr_item : exists w, jfield v "item" = Some w /\ reads_item w (SteerReceipt.item rc);
  rr_position : jfield v "position" = Some (jint (Z.of_nat (SteerReceipt.position rc)));
  rr_state : jfield v "state" = Some (JStr (state_text (SteerReceipt.state rc)))
}.

Record receipt_fine (rc : SteerReceipt.t) : Prop := {
  rf_generation : small (SteerReceipt.generationCreatedAt rc);
  rf_item : item_fine (SteerReceipt.item rc);
  rf_position : small (Z.of_nat (SteerReceipt.position rc))
}.

Lemma fmap_str (x : option string) : cj <$> (JStr <$> x) = JStr <$> x.
Proof. by destruct x. Qed.

Lemma receipt_cjson v rc : reads_receipt v rc -> receipt_fine rc -> reads_receipt (cj v) rc.
Proof.
  intros [R0 R1 R2 R3 R4 R5 R6 R7 (w & R8 & Hw) R9 R10] [F1 F2 F3].
  split; rewrite ?jfield_cjson; rewrite ?R1, ?R2, ?R3, ?R4, ?R5, ?R6, ?R7, ?R9, ?R10;
    rewrite ?fmap_str; try done.
  - by apply plain_cjson.
  - cbn [fmap option_fmap option_map]. by rewrite cjson_int.
  - exists (cj w). rewrite R8. split; [done | by apply reads_cjson].
  - cbn [fmap option_fmap option_map]. by rewrite cjson_int.
Qed.

(** The item and the state of a receipt replaced. *)
Definition rebound (it : SteerQueueItem.t) (st : ReceiptState) (rc : SteerReceipt.t) : SteerReceipt.t :=
  {| rc with SteerReceipt.item := it; SteerReceipt.state := st |}.

Lemma rebound_same rc : rebound (SteerReceipt.item rc) (SteerReceipt.state rc) rc = rc.
Proof. by destruct rc. Qed.

Lemma receipt_set_item v rc w it :
  reads_receipt v rc -> reads_item w it ->
  reads_receipt (jset v "item" w) (rebound it (SteerReceipt.state rc) rc).
Proof.
  intros [R0 R1 R2 R3 R4 R5 R6 R7 R8 R9 R10] Hw.
  split; [by apply plain_jset | ..]; rewrite jfield_jset by done; try done. by exists w.
Qed.
Lemma receipt_set_state v rc st :
  reads_receipt v rc -> reads_receipt (jset v "state" (JStr (state_text st)))
                          (rebound (SteerReceipt.item rc) st rc).
Proof.
  intros [R0 R1 R2 R3 R4 R5 R6 R7 R8 R9 R10].
  split; [by apply plain_jset | ..]; rewrite jfield_jset by done; done.
Qed.

Lemma rebound_fine it st rc : receipt_fine rc -> item_fine it -> receipt_fine (rebound it st rc).
Proof. intros [F1 F2 F3] Hf. by split. Qed.

Definition receipt_row (t : jtext) (rc : SteerReceipt.t) : Prop :=
  exists v, t = Text v /\ reads_receipt v rc /\ receipt_fine rc.

Lemma receipt_row_encode v rc : reads_receipt v rc -> receipt_fine rc -> receipt_row (encode v) rc.
Proof. intros Hv Hf. exists (cj v). split_and!; [done | by apply receipt_cjson | done]. Qed.

(** ** Streams *)

Record job_row (r : Rows) (s : Store) (k : string) (j : Job.t) : Prop := {
  jr_createdAt : hget_job "createdAt" r = Some (pretty (Job.createdAt j));
  jr_small : small (Job.createdAt j);
  jr_status : hget_job "status" r = Some (status_text (Job.status j));
  jr_closed : active (Job.status j) = true ->
              hget_job "steersClosed" r = Some "1" <-> k ∈ closedSteerQueues s;
  jr_protocol : hget_job "generationProtocolVersion" r = Some "2" <->
                Job.generationProtocolVersion j = Some V2;
  jr_capable : hget_job "preemptCapable" r = Some "1" <-> Job.preemptCapable j = Some true
}.

(** The receipt under a client id: there on both sides, and not expired. *)
Definition receipt_match (now : Z) (c : string) (t : option jtext) (e : option ReceiptEntry.t) : Prop :=
  match t, e with
  | Some t, Some e =>
      receipt_row t (ReceiptEntry.receipt e) /\ expired (ReceiptEntry.expiresAt e) now = false /\
      SteerReceipt.clientSteerId (ReceiptEntry.receipt e) = c
  | None, None => True
  | _, _ => False
  end.

Record represents (k : string) (now : Z) (r : Rows) (s : Store) : Prop := {
  re_job : match mget (jobs s) k with
           | Some j => job_row r s k j
           | None => jobHash r = None
           end;
  re_queue : Forall2 row (LRANGE (steersKey r)) (queue_of s k);
  re_ids : NoDup (steer_ids (queue_of s k));
  re_claims : Forall2 row (LRANGE (claimedKey r)) (claims_of s k);
  re_receipts : forall c, receipt_match now c (HGET c (receiptsKey r)) (receipt_of s k c);
  re_wf : mwf (receipts_of s k);
  re_order : forall c, is_Some (HGET c (orderKey r)) <-> is_Some (receipt_of s k c);
  re_order_wf : mwf (content [] (orderKey r))
}.
End rows.
