(* ===== verification/RedisAdmission.v ===== *)
(** * Admission: the Redis steering queue against the in-memory one

    Guards, enqueue and receipts.  Each method of [RedisSteers] is compared with the method of the
    same name of [StoreSteers] on a stream whose keys represent the store
    ([RedisRows.represents]): both answer the same, and the keys represent the store again. *)

From stdpp Require Import pretty.
From S2P Require Import Prelude JsMap Json StreamTypes SteerRecovery StoreState StoreSteers StoreParked.
From S2P Require Import StoreJobs StoreCleanup StoreFrame StoreRun StoreEpochs StoreParking StoreRecovery StoreQueue.
From S2P Require Import RedisScripts RedisLua RedisJobs RedisSteers RedisRows.

Section refine.
Context {lua_number : jnum -> jnum} {lua : LuaNumber lua_number}.
Variable ttl : Z.
Abbreviation cj := (cjson lua_number).
Abbreviation encode := (cjson_encode lua_number).
Abbreviation represents := (represents (lua_number := lua_number)).
Abbreviation item_fine := (item_fine (lua_number := lua_number)).
Abbreviation row := (row (lua_number := lua_number)).
Abbreviation receipt_row := (receipt_row (lua_number := lua_number)).
Abbreviation receipt_fine := (receipt_fine (lua_number := lua_number)).
Abbreviation receipt_match := (receipt_match (lua_number := lua_number)).

(** ** Guards *)

Lemma guard_epoch r s k j e :
  job_row r s k j -> createdAt_guard (expected_arg e) r = epoch_matches e (Job.createdAt j).
Proof.
  intros [H _ _ _ _ _]. unfold createdAt_guard. rewrite H. destruct e as [z|]; cbn.
  - pose proof (pretty_nonempty z). destruct (decide (Job.createdAt j = z)) as [->|Hne].
    + rewrite bool_decide_false by naive_solver. by rewrite bool_decide_true.
    + rewrite bool_decide_true, bool_decide_false by naive_solver. done.
  - by rewrite bool_decide_false by naive_solver.
Qed.

Lemma v2_spec r s k j : job_row r s k j -> protocolV2 r = usesReceiptSafeProtocol (Some j).
Proof. intros [_ _ _ _ H _]. unfold protocolV2. cbn. by apply bool_decide_ext. Qed.
Lemma capable_spec r s k j :
  job_row r s k j -> preempt_capable r = bool_decide (Job.preemptCapable j = Some true).
Proof. intros [_ _ _ _ _ H]. unfold preempt_capable. by apply bool_decide_ext. Qed.
Lemma open_spec r s k j :
  job_row r s k j ->
  running_and_open r = bool_decide (Job.status j = running /\ k ∉ closedSteerQueues s).
Proof.
  intros [_ _ H1 H2 _ _]. unfold running_and_open. apply bool_decide_ext. rewrite H1.
  destruct (Job.status j); try (split; intros [Ha _]; discriminate Ha). rewrite H2 by done. naive_solver.
Qed.

Lemma steerable_spec k now r s e :
  represents k now r s ->
  match steerable_job s k e with
  | Some j => mget (jobs s) k = Some j /\ job_row r s k j /\
              createdAt_guard (expected_arg e) r = true /\ running_and_open r = true
  | None => createdAt_guard (expected_arg e) r = false \/ running_and_open r = false
  end.
Proof.
  intros [Hj _ _ _ _ _ _ _]. unfold steerable_job. destruct (mget (jobs s) k) as [j|].
  - rewrite (guard_epoch r s k j e Hj), (open_spec r s k j Hj).
    destruct (bool_decide (Job.status j = running /\ _)), (epoch_matches e (Job.createdAt j));
      cbn [andb]; auto.
  - right. unfold running_and_open, hget_job, HGET. rewrite Hj. cbn.
    apply bool_decide_false. by intros [? _].
Qed.

(** The two guards at the head of a script that needs a live, open queue. *)
Lemma guarded k now r s e {A} (x y : A) :
  represents k now r s ->
  (if negb (createdAt_guard (expected_arg e) r) then x
   else if negb (running_and_open r) then x else y) =
  match steerable_job s k e with Some _ => y | None => x end.
Proof.
  intros H. pose proof (steerable_spec k now r s e H) as Hs.
  destruct (steerable_job s k e) as [j|].
  - destruct Hs as (_ & _ & -> & ->). done.
  - destruct Hs as [-> | ->]; cbn; [done|]. by destruct (negb _).
Qed.

(** ** Parts of the relation *)

Lemma queue_length k now r s : represents k now r s -> LLEN (steersKey r) = length (queue_of s k).
Proof. intros [_ H _ _ _ _ _ _]. unfold LLEN. by eapply Forall2_length. Qed.

Lemma LRANGE_push l k : LRANGE (RPUSH l k) = LRANGE k ++ l.
Proof. destruct l as [|t l]; [by rewrite app_nil_r | done]. Qed.
Lemma LRANGE_EXPIRE t k : LRANGE (EXPIRE t k) = LRANGE k.
Proof. by destruct k. Qed.
Lemma LRANGE_keep k l : LRANGE (keep_ttl k (RPUSH l None)) = l.
Proof. by destruct l. Qed.
Lemma content_EXPIRE {A} (d : A) t k : content d (EXPIRE t k) = content d k.
Proof. by destruct k. Qed.
Lemma content_raise {A} (d : A) t k : content d (raise_ttl t k) = content d k.
Proof. unfold raise_ttl. case_decide; [apply content_EXPIRE | done]. Qed.
Lemma content_extend {A} (d : A) t k : content d (extend_ttl t k) = content d k.
Proof. unfold extend_ttl. case_decide; [apply content_EXPIRE | done]. Qed.
Lemma HGET_HSET {A} f (v : A) k f' : HGET f' (HSET f v k) = if decide (f = f') then Some v else HGET f' k.
Proof. unfold HGET, HSET, rewrite_key. cbn. apply mget_mset. Qed.

(** The queue replaced on both sides. *)
Lemma represents_queue k now r s rows q :
  represents k now r s -> Forall2 row (LRANGE rows) q -> NoDup (steer_ids q) ->
  represents k now (with_steersKey rows r) (set_queue k q s).
Proof.
  intros [H1 H2 H3 H4 H5 H6 H7 H8] Hq Hn. split; rewrite ?queue_of_set; try done.
  cbn [jobs set_queue with_steerQueues]. destruct (mget (jobs s) k) as [j|]; [|done].
  destruct H1. by split.
Qed.

Lemma item_persisted wants r s k j v it :
  job_row r s k j -> reads_item v it ->
  reads_item (prepared wants r v) (persisted_item it wants j).
Proof.
  intros Hj Hv. unfold prepared, persisted_item. destruct wants; [|done].
  rewrite (capable_spec r s k j Hj). case_bool_decide; [apply reads_preempt|]; by apply reads_revision.
Qed.
Lemma persisted_fine wants j it : item_fine it -> item_fine (persisted_item it wants j).
Proof.
  intros [F1 F2 F3 F4 F5]. unfold persisted_item. destruct wants; [|by split].
  case_bool_decide; split; try done; cbn; intros z [= <-]; unfold small; lia.
Qed.
Lemma queue_snoc k now r s v it :
  represents k now r s -> reads_item v it -> item_fine it ->
  SteerQueueItem.steerId it ∉ steer_ids (queue_of s k) ->
  represents k now (with_steersKey (EXPIRE ttl (RPUSH [encode v] (steersKey r))) r)
    (set_queue k (queue_of s k ++ [it]) s).
Proof.
  intros H Hv Hf Hn. apply represents_queue; [done | |].
  - rewrite LRANGE_EXPIRE, LRANGE_push. apply Forall2_app; [apply (re_queue _ _ _ _ H)|].
    constructor; [by apply row_encode | constructor].
  - unfold steer_ids. rewrite fmap_app. apply NoDup_app. split_and!; [apply (re_ids _ _ _ _ H) | |].
    + intros x Hx ->%list_elem_of_singleton. by apply Hn.
    + apply NoDup_singleton.
Qed.

(** ** Enqueue *)

(** An answer that stands for the outcome of the in-memory store. *)
Definition answers (a : Answer) (o : SteerEnqueueOutcome) : Prop :=
  match o, a with
  | EnqueueRejected code, Code z => z = code
  | EnqueueResult it position, Value v =>
      (exists w, jfield v "item" = Some w /\ reads_item w it) /\
      jfield v "position" = Some (jint (Z.of_nat position))
  | EnqueueReceipt rc, Value v => reads_receipt v rc
  | _, _ => False
  end.

Lemma depth_small n : n <= STEER_QUEUE_MAX_DEPTH -> small (Z.of_nat n).
Proof. unfold STEER_QUEUE_MAX_DEPTH, small. lia. Qed.

Lemma enqueue_refines k now r s v it wants e :
  represents k now r s -> reads_item v it -> item_fine it ->
  SteerQueueItem.steerId it ∉ steer_ids (queue_of s k) ->
  let '(a, r') := enqueueSteerVersioned lua_number ttl v wants e r in
  let '(o, s') := StoreSteers.enqueueSteerVersioned k it wants e s in
  (exists x, a = Ok x /\ answers x o) /\ represents k now r' s'.
Proof.
  intros H Hv Hf Hn. unfold enqueueSteerVersioned, STEER_ENQUEUE_VERSIONED, JSON_stringify.
  rewrite (guarded k now r s e _ _ H). unfold StoreSteers.enqueueSteerVersioned.
  pose proof (steerable_spec k now r s e H) as Hs. rewrite (queue_length k now r s H).
  destruct (steerable_job s k e) as [j|]; [|split; [by eexists | done]].
  destruct Hs as (Hjob & Hj & _). case_decide as Hd; [split; [by eexists | done]|].
  pose proof (queue_snoc k now r s (prepared wants r v) (persisted_item it wants j) H
    (item_persisted wants r s k j v it Hj Hv) (persisted_fine wants j it Hf)
    ltac:(by rewrite persisted_id)) as Hr.
  split; [|exact Hr]. eexists. split; [done|].
  assert (Hlen : LLEN (EXPIRE ttl (RPUSH [encode (prepared wants r v)] (steersKey r))) =
                 S (length (queue_of s k))).
  { pose proof (queue_length _ _ _ _ Hr) as Hl. cbn [steersKey with_steersKey] in Hl.
    rewrite Hl, queue_of_set, length_app. cbn. lia. }
  cbn [JSON_parse]. rewrite Hlen. cbn [answers]. split.
  - exists (cj (prepared wants r v)). split; [done|].
    apply reads_cjson; [by eapply item_persisted | by apply persisted_fine].
  - change (Some (cj (jint (Z.of_nat (S (length (queue_of s k))))))
      = Some (jint (Z.of_nat (S (length (queue_of s k)))))).
    rewrite cjson_int; [done|]. apply depth_small. lia.
Qed.

(** ** Receipts *)

Lemma receipt_of_updated k c f s c' :
  receipt_of (update_receipt k c f s) k c' =
    if decide (c = c') then f <$> receipt_of s k c' else receipt_of s k c'.
Proof. case_decide; [subst; apply receipt_of_update | by apply receipt_of_update_ne]. Qed.

Lemma update_queue k c f s : queue_of (update_receipt k c f s) k = queue_of s k.
Proof. unfold queue_of. by rewrite (update_receipt_frame steerQueues ltac:(done)). Qed.
Lemma update_claims k c f s : claims_of (update_receipt k c f s) k = claims_of s k.
Proof. unfold claims_of. by rewrite (update_receipt_frame claimedSteers ltac:(done)). Qed.
Lemma update_wf k c f s : mwf (receipts_of s k) -> mwf (receipts_of (update_receipt k c f s) k).
Proof.
  unfold receipts_of, update_receipt. destruct (mget (steerReceipts s) k) as [rs|] eqn:E; [|by rewrite E].
  destruct (mget rs c); [|by rewrite E]. cbn. rewrite mget_mset_eq. cbn. apply mwf_mset.
Qed.

Lemma job_row_frame r r' s s' k j :
  jobHash r' = jobHash r -> closedSteerQueues s' = closedSteerQueues s ->
  job_row r s k j -> job_row r' s' k j.
Proof.
  intros Hr Hs [H1 H2 H3 H4 H5 H6]. split; unfold hget_job in *; rewrite ?Hr, ?Hs; done.
Qed.

(** One receipt replaced on both sides. *)
Lemma represents_receipt k now r s c f e rk t :
  represents k now r s -> receipt_of s k c = Some e ->
  (forall c', HGET c' rk = if decide (c = c') then Some t else HGET c' (receiptsKey r)) ->
  receipt_match now c (Some t) (Some (f e)) ->
  represents k now (with_receiptsKey rk r) (update_receipt k c f s).
Proof.
  intros [H1 H2 H3 H4 H5 H6 H7 H8] He Hk Ht.
  split; rewrite ?update_queue, ?update_claims; try done.
  - rewrite (update_receipt_frame jobs ltac:(done)). destruct (mget (jobs s) k) as [j|]; [|done].
    apply (job_row_frame r _ s); [done | | exact H1]. by apply (update_receipt_frame closedSteerQueues).
  - intros c'. cbn [receiptsKey with_receiptsKey]. rewrite Hk, receipt_of_updated.
    case_decide; [subst c'; by rewrite He | apply H5].
  - by apply update_wf.
  - intros c'. cbn [orderKey with_receiptsKey]. rewrite H7, receipt_of_updated.
    case_decide; [by rewrite fmap_is_Some | done].
Qed.

Lemma sameActive_spec k now r s v rc :
  represents k now r s -> reads_receipt v rc -> receipt_fine rc ->
  sameActive v r =
    match mget (jobs s) k with
    | Some j => usesReceiptSafeProtocol (Some j) &&
                bool_decide (Job.createdAt j = SteerReceipt.generationCreatedAt rc) &&
                active (Job.status j)
    | None => false
    end.
Proof.
  intros [Hj _ _ _ _ _ _ _] Hv [Hg _ _]. unfold sameActive.
  destruct (mget (jobs s) k) as [j|].
  - rewrite (v2_spec r s k j Hj), (jr_createdAt _ _ _ _ Hj), (jr_status _ _ _ _ Hj).
    rewrite (rr_generation _ _ Hv). cbn [tostring_or_empty jint]. rewrite decide_True by done.
    f_equal; [f_equal|].
    + apply bool_decide_ext. split; [|by intros ->]. intros [= He]. by apply (inj pretty).
    + destruct (Job.status j); done.
  - unfold protocolV2, hget_job, HGET. rewrite Hj. done.
Qed.

Lemma queued_here_spec c rows q :
  Forall2 row rows q ->
  queued_here c rows = existsb (fun i => bool_decide (SteerQueueItem.clientSteerId i = Some c)) q.
Proof.
  unfold queued_here. induction 1 as [|t it rows q (v & -> & Hv & _) _ IH]; [done|].
  cbn [existsb JSON_parse]. rewrite IH. f_equal.
  rewrite (ri_client _ _ Hv). destruct (SteerQueueItem.clientSteerId it) as [c'|]; cbn.
  - apply bool_decide_ext. naive_solver.
  - by rewrite bool_decide_false.
Qed.

Lemma state_is_spec v rc st :
  reads_receipt v rc -> state_is (state_text st) v = bool_decide (SteerReceipt.state rc = st).
Proof.
  intros Hv. unfold state_is. rewrite (rr_state _ _ Hv). cbn. apply bool_decide_ext.
  split; [apply state_text_inj | by intros ->].
Qed.

Lemma leftover_spec k now r s v rc :
  represents k now r s -> reads_receipt v rc -> receipt_fine rc ->
  normalized_state s k rc =
    if becomes_leftover (SteerReceipt.clientSteerId rc) v r then leftover else SteerReceipt.state rc.
Proof.
  intros H Hv Hf. unfold becomes_leftover, normalized_state.
  change "queued" with (state_text queued). change "claimed" with (state_text claimed).
  rewrite !(state_is_spec v rc _ Hv), (sameActive_spec k now r s v rc H Hv Hf).
  rewrite (queued_here_spec _ _ _ (re_queue _ _ _ _ H)).
  set (sa := match mget (jobs s) k with Some j => _ | None => false end).
  set (qh := existsb _ _).
  destruct (SteerReceipt.state rc); cbn; try done; destruct sa, qh; done.
Qed.

Lemma set_same_state e : set_receipt_state (SteerReceipt.state (ReceiptEntry.receipt e)) e = e.
Proof. by destruct e as [[]]. Qed.
Lemma with_same_receipts r : with_receiptsKey (receiptsKey r) r = r.
Proof. by destruct r. Qed.

Lemma read_refines k now r s c raw e :
  represents k now r s -> HGET c (receiptsKey r) = Some raw -> receipt_of s k c = Some e ->
  let e' := normalizeSteerReceipt s k e in
  exists t, (read_receipt lua_number c raw r).1 = RText t /\ receipt_row t (ReceiptEntry.receipt e') /\
    represents k now (read_receipt lua_number c raw r).2 (update_receipt k c (fun _ => e') s).
Proof.
  intros H Hraw He. pose proof (re_receipts _ _ _ _ H c) as Hm. rewrite Hraw, He in Hm.
  destruct Hm as ((v & -> & Hv & Hf) & Hx & Hc). cbn zeta. unfold normalizeSteerReceipt.
  rewrite (leftover_spec k now r s v _ H Hv Hf), Hc. unfold read_receipt. cbn [JSON_parse].
  destruct (becomes_leftover c v r) eqn:Hb; cbn [fst snd].
  - eexists. split; [done|].
    assert (Hrow : receipt_row (encode (jset v "state" (JStr "leftover")))
              (rebound (SteerReceipt.item (ReceiptEntry.receipt e)) leftover (ReceiptEntry.receipt e))).
    { apply receipt_row_encode; [apply (receipt_set_state v _ leftover Hv)|].
      apply rebound_fine; [done | apply Hf]. }
    split; [exact Hrow|]. eapply represents_receipt; [done | done | |].
    + intros c'. apply HGET_HSET.
    + by split_and!.
  - exists (Text v). rewrite set_same_state. split_and!; [done | by exists v |].
    rewrite <- (with_same_receipts r) at 1. eapply represents_receipt; [done | done | |].
    + intros c'. by case_decide; [subst|].
    + split_and!; [by exists v | done | done].
Qed.

(** [getSteerReceipt] *)
Lemma get_receipt_refines k now r s c :
  represents k now r s ->
  let '(a, r') := getSteerReceipt lua_number c r in
  let '(o, s') := StoreSteers.getSteerReceipt k c now s in
  (exists x, a = Ok x /\ match o, x with
                         | Some rc, Some v => reads_receipt v rc
                         | None, None => True
                         | _, _ => False
                         end) /\ represents k now r' s'.
Proof.
  intros H. unfold getSteerReceipt, STEER_RECEIPT_GET, StoreSteers.getSteerReceipt.
  pose proof (re_receipts _ _ _ _ H c) as Hm.
  destruct (HGET c (receiptsKey r)) as [raw|] eqn:Hraw, (receipt_of s k c) as [e|] eqn:He; try done.
  - destruct Hm as (_ & Hx & _). rewrite Hx.
    destruct (read_refines k now r s c raw e H Hraw He) as (t & Ht & (v & -> & Hv & _) & Hr).
    destruct (read_receipt lua_number c raw r) as [reply r']. cbn [fst snd] in *. rewrite Ht.
    cbn [JSON_parse]. split; [by eexists | done].
  - split; [by eexists | done].
Qed.

(** [enqueueSteerWithReceipt] *)

(** The serialized [SteerReceiptInput]. *)
Record reads_input (v : json) (i : SteerReceiptInput.t) : Prop := {
  rp_object : is_plain_object v = true;
  rp_client : jfield v "clientSteerId" = Some (JStr (SteerReceiptInput.clientSteerId i));
  rp_fingerprint : jfield v "fingerprint" = Some (JStr (SteerReceiptInput.fingerprint i));
  rp_userId : jfield v "userId" = Some (JStr (SteerReceiptInput.userId i));
  rp_tenantId : jfield v "tenantId" = JStr <$> SteerReceiptInput.tenantId i;
  rp_agentId : jfield v "agentId" = JStr <$> SteerReceiptInput.agentId i;
  rp_endpoint : jfield v "endpoint" = JStr <$> SteerReceiptInput.endpoint i;
  rp_generation : jfield v "generationCreatedAt" =
    Some (jint (SteerReceiptInput.generationCreatedAt i));
  rp_small : small (SteerReceiptInput.generationCreatedAt i)
}.

Lemma accepted_spec v i w it n :
  reads_input v i -> reads_item w it -> reads_receipt (accepted_receipt v w n) (new_receipt i it n).
Proof.
  intros [R0 R1 R2 R3 R4 R5 R6 R7 _] Hw. unfold accepted_receipt.
  assert (P1 : is_plain_object (jset v "item" w) = true) by (by apply plain_jset).
  assert (P2 : is_plain_object (jset (jset v "item" w) "position" (jint (Z.of_nat n))) = true)
    by (by apply plain_jset).
  split; [by apply plain_jset | ..]; rewrite !jfield_jset by done; try done. by exists w.
Qed.

(** The relation sees only the parts of one stream. *)
Lemma represents_ext k now r s s' :
  represents k now r s -> mget (jobs s') k = mget (jobs s) k ->
  closedSteerQueues s' = closedSteerQueues s -> queue_of s' k = queue_of s k ->
  claims_of s' k = claims_of s k -> receipts_of s' k = receipts_of s k -> represents k now r s'.
Proof.
  intros [H1 H2 H3 H4 H5 H6 H7 H8] E1 E2 E3 E4 E5. unfold receipt_of in *.
  split; unfold receipt_of in *; rewrite ?E3, ?E4, ?E5; try done.
  rewrite E1. destruct (mget (jobs s) k); [|done]. by eapply (job_row_frame r _ s).
Qed.

Lemma receipts_of_set k rs s : receipts_of (with_steerReceipts (mset (steerReceipts s) k rs) s) k = rs.
Proof. unfold receipts_of. cbn. by rewrite mget_mset_eq. Qed.

Lemma represents_new_receipt k now r s c entry rk ord t :
  represents k now r s ->
  (forall c', HGET c' rk = if decide (c = c') then Some t else HGET c' (receiptsKey r)) ->
  (forall c', is_Some (HGET c' ord) <-> c' = c \/ is_Some (HGET c' (orderKey r))) ->
  mwf (content [] ord) -> receipt_match now c (Some t) (Some entry) ->
  represents k now (with_orderKey ord (with_receiptsKey rk r))
    (with_steerReceipts (mset (steerReceipts s) k (mset (receipts_of s k) c entry)) s).
Proof.
  intros [H1 H2 H3 H4 H5 H6 H7 H8] Hk Ho Hwf Ht.
  assert (Hr : forall c', receipt_of (with_steerReceipts (mset (steerReceipts s) k
      (mset (receipts_of s k) c entry)) s) k c' = if decide (c = c') then Some entry else receipt_of s k c').
  { intros c'. unfold receipt_of. rewrite receipts_of_set. apply mget_mset. }
  split; try done.
  - cbn [jobs with_steerReceipts]. destruct (mget (jobs s) k); [|done]. by apply (job_row_frame r _ s).
  - intros c'. rewrite Hr. cbn [receiptsKey with_orderKey with_receiptsKey]. rewrite Hk.
    case_decide; [by subst | apply H5].
  - rewrite receipts_of_set. by apply mwf_mset.
  - intros c'. rewrite Hr. cbn [orderKey with_orderKey]. rewrite Ho, H7.
    case_decide; naive_solver.
Qed.

Lemma order_length k now r s : represents k now r s -> ZCARD (orderKey r) = length (receipts_of s k).
Proof.
  intros [_ _ _ _ _ Hwf Ho Hwo]. unfold ZCARD.
  assert (Hp : mkeys (content [] (orderKey r)) ≡ₚ mkeys (receipts_of s k)).
  { apply NoDup_Permutation; [exact Hwo | exact Hwf|]. intros c. rewrite !mkeys_mget. apply Ho. }
  apply Permutation_length in Hp. unfold mkeys in Hp. by rewrite !length_fmap in Hp.
Qed.

Lemma none_expired k now r s :
  represents k now r s ->
  mprune (fun _ e => expired (ReceiptEntry.expiresAt e) now) (receipts_of s k) = receipts_of s k.
Proof.
  intros H. unfold mprune. apply filter_all. intros [c e] Hin. cbn.
  pose proof (elem_mget _ _ _ (re_wf _ _ _ _ H) Hin) as He. change (receipt_of s k c = Some e) in He.
  pose proof (re_receipts _ _ _ _ H c) as Hm. rewrite He in Hm.
  destruct (HGET c (receiptsKey r)); [|done]. by destruct Hm as (_ & -> & _).
Qed.

Lemma receipt_refines k now r s v it vi i wants e :
  represents k now r s -> reads_item v it -> item_fine it -> reads_input vi i ->
  SteerQueueItem.steerId it ∉ steer_ids (queue_of s k) ->
  let '(a, r') := enqueueSteerWithReceipt lua_number ttl v vi (SteerReceiptInput.clientSteerId i)
                    wants e r in
  let '(o, s') := StoreSteers.enqueueSteerWithReceipt k it i wants e now s in
  (exists x, a = Ok x /\ answers x o) /\ represents k now r' s'.
Proof.
  intros H Hv Hf Hi Hn. set (c := SteerReceiptInput.clientSteerId i).
  pose proof (enqueue_refines k now r s v it wants e H Hv Hf Hn) as Hplain.
  unfold enqueueSteerWithReceipt, STEER_ENQUEUE_RECEIPT, StoreSteers.enqueueSteerWithReceipt.
  fold c. cbv zeta. pose proof (re_receipts _ _ _ _ H c) as Hm.
  destruct (HGET c (receiptsKey r)) as [raw|] eqn:Hraw, (receipt_of s k c) as [en|] eqn:He; try done.
  { destruct Hm as (_ & Hx & _). rewrite Hx.
    destruct (read_refines k now r s c raw en H Hraw He) as (t & Ht & (w & -> & Hw & _) & Hr).
    unfold answer. rewrite Ht. split; [|exact Hr]. by eexists. }
  unfold enqueueSteerVersioned in Hplain.
  pose proof (steerable_spec k now r s e H) as Hs.
  destruct (steerable_job s k e) as [j|] eqn:Hst.
  2: { destruct (protocolV2 r); cbn [negb].
       - rewrite (guarded k now r s e _ _ H), Hst. split; [by eexists | done].
       - unfold StoreSteers.enqueueSteerVersioned in Hplain. rewrite Hst in Hplain. exact Hplain. }
  destruct Hs as (Hjob & Hj & Hg & Ho). rewrite (v2_spec r s k j Hj).
  destruct (usesReceiptSafeProtocol (Some j)); cbn [negb]; [|exact Hplain].
  rewrite Hg, Ho. cbn [negb]. rewrite (queue_length k now r s H), (order_length k now r s H).
  case_decide as Hd; [split; [by eexists | done]|]. rewrite (none_expired k now r s H).
  change STEER_RECEIPT_MAX_PER_STREAM with STEER_RECEIPT_MAX. case_decide as Hd'.
  { split; [by eexists|]. apply (represents_ext k now r s); try done.
    - apply queue_of_set.
    - unfold receipts_of. cbn. by rewrite mget_mset_eq. }
  cbn [JSON_parse JSON_stringify]. set (w := prepared wants r v). set (it' := persisted_item it wants j).
  assert (Hw : reads_item w it') by (by eapply item_persisted).
  assert (Hf' : item_fine it') by (by apply persisted_fine).
  pose proof (queue_snoc k now r s w it' H Hw Hf' ltac:(unfold it'; by rewrite persisted_id)) as Hq.
  assert (Hlen : LLEN (EXPIRE ttl (RPUSH [encode w] (steersKey r))) = S (length (queue_of s k))).
  { pose proof (queue_length _ _ _ _ Hq) as Hl. cbn [steersKey with_steersKey] in Hl.
    rewrite Hl, queue_of_set, length_app. cbn. lia. }
  rewrite Hlen. set (n := S (length (queue_of s k))).
  assert (Hrow : receipt_row (encode (accepted_receipt vi w n)) (new_receipt i it' n)).
  { apply receipt_row_encode; [by apply accepted_spec|]. split; [apply Hi | done|].
    apply depth_small. cbn. unfold n. lia. }
  split.
  - eexists. split; [done|]. destruct Hrow as (w' & [= <-] & Hw' & _). exact Hw'.
  - apply (represents_new_receipt k now _ _ c _ _ _ (encode (accepted_receipt vi w n)) Hq).
    + intros c'. unfold HGET at 1. rewrite content_raise. apply (HGET_HSET c _ (receiptsKey r)).
    + intros c'. unfold HGET at 1. rewrite content_raise.
      change (mget (content [] (ZADD (tonumber_or_0 (jfield w "createdAt")) c (orderKey r))) c') with
        (HGET c' (HSET c (tonumber_or_0 (jfield w "createdAt")) (orderKey r))).
      rewrite HGET_HSET. cbn [orderKey with_steersKey]. case_decide; naive_solver.
    + rewrite content_raise. cbn. apply mwf_mset. apply (re_order_wf _ _ _ _ H).
    + split_and!; [done | | done]. cbn. apply bool_decide_eq_false. unfold STEER_RECEIPT_TTL_MS. lia.
Qed.
End refine.
