(* ===== verification/RedisDrain.v ===== *)
(** * Drain and restore: the Redis steering queue against the in-memory one

    The receipts of the items that a script moves are read first and written back afterwards, from
    what was read; the in-memory store updates them in place, in its own order. *)

From stdpp Require Import pretty.
From S2P Require Import Prelude JsMap Json StreamTypes SteerRecovery StoreState StoreSteers StoreParked.
From S2P Require Import StoreJobs StoreCleanup StoreFrame StoreRun StoreEpochs StoreParking StoreRecovery StoreQueue.
From S2P Require Import RedisScripts RedisLua RedisJobs RedisSteers RedisRows RedisAdmission.

Section refine.
Context {lua_number : jnum -> jnum} {lua : LuaNumber lua_number}.
Variable ttl : Z.
Abbreviation cj := (cjson lua_number).
Abbreviation encode := (cjson_encode lua_number).
Abbreviation represents := (represents (lua_number := lua_number)).
Abbreviation item_fine := (item_fine (lua_number := lua_number)).
Abbreviation row := (row (lua_number := lua_number)).
Abbreviation receipt_row := (receipt_row (lua_number := lua_number)).
Abbreviation receipt_fine := (receipt_fine (lua_number := lua_number)).
Abbreviation receipt_match := (receipt_match (lua_number := lua_number)).

(** ** Receipts of queued and claimed items *)

Lemma lua_eq_str x y : lua_eq (Some (JStr x)) (Some (JStr y)) = bool_decide (x = y).
Proof. done. Qed.
Lemma lua_eq_opt (x y : option string) : lua_eq (JStr <$> x) (JStr <$> y) = bool_decide (x = y).
Proof.
  destruct x as [x|], y as [y|]; cbn; [| done | done | done]. apply bool_decide_ext. naive_solver.
Qed.

Lemma receipt_for_spec k now r s j w it st :
  represents k now r s -> mget (jobs s) k = Some j -> reads_item w it -> item_fine it ->
  match SteerQueueItem.clientSteerId it with
  | None => receipt_for r (state_text st) w = Ok None
  | Some c =>
      if receipt_consistent s k (Job.createdAt j) st it
      then exists v e, receipt_for r (state_text st) w = Ok (Some v) /\ receipt_of s k c = Some e /\
             reads_receipt v (ReceiptEntry.receipt e)
      else exists x, receipt_for r (state_text st) w = Throw x
  end.
Proof.
  intros H Hjob Hw Hf. unfold receipt_for, receipt_consistent. rewrite (ri_client _ _ Hw).
  destruct (SteerQueueItem.clientSteerId it) as [c|] eqn:Hc; [|done].
  cbn [fmap option_fmap option_map truthy as_string].
  pose proof (re_receipts _ _ _ _ H c) as Hm. pose proof (re_job _ _ _ _ H) as Hj. rewrite Hjob in Hj.
  destruct (HGET c (receiptsKey r)) as [raw|], (receipt_of s k c) as [e|]; try done; [|by eexists].
  destruct Hm as ((v & -> & Hv & Hrf) & _ & _). unfold bound_receipt. cbn [JSON_parse].
  rewrite (jr_createdAt _ _ _ _ Hj), (rr_client _ _ Hv), (ri_client _ _ Hw), Hc.
  cbn [fmap option_fmap option_map]. rewrite lua_eq_str, (rr_generation _ _ Hv).
  cbn [tostring_or_empty jint]. rewrite decide_True by apply Hrf.
  rewrite (state_is_spec v _ st Hv). destruct (rr_item _ _ Hv) as (inner & -> & Hi).
  rewrite (ri_steerId _ _ Hi), (ri_steerId _ _ Hw), lua_eq_str, (ri_client _ _ Hi).
  change (Some (JStr c)) with (JStr <$> Some c). rewrite lua_eq_opt.
  assert (Ho : is_object v = true) by (pose proof (rr_object _ _ Hv); by destruct v).
  assert (Ht : truthy (Some inner) = true) by (pose proof (ri_object _ _ Hi); by destruct inner).
  rewrite Ho, Ht. cbn [andb].
  match goal with |- context [if ?b then Some v else None] =>
    match goal with |- context [if ?d then exists v e, _ else _] => replace b with d end end.
  - case_match; [|by eexists]. by eexists _, _.
  - apply eq_true_iff_eq. rewrite !andb_true_iff, !bool_decide_eq_true.
    rewrite (inj_iff (Some (A:=string))), (inj_iff pretty). naive_solver.
Qed.

(** A decoded item with the receipt that was read for it, up to its item and state. *)
Definition carries (s : Store) (k : string) (p : json * option json) (it : SteerQueueItem.t) : Prop :=
  reads_item p.1 it /\ item_fine it /\
  match SteerQueueItem.clientSteerId it with
  | None => p.2 = None
  | Some c => exists v e it0 st0, p.2 = Some v /\ receipt_of s k c = Some e /\
                reads_receipt v (rebound it0 st0 (ReceiptEntry.receipt e))
  end.

Lemma check_rows_spec k now r s j rows items :
  represents k now r s -> mget (jobs s) k = Some j -> Forall2 row rows items ->
  if forallb (receipt_consistent s k (Job.createdAt j) queued) items
  then exists l, check_rows r rows = Ok l /\ Forall2 (carries s k) l items
  else exists x, check_rows r rows = Throw x.
Proof.
  intros H Hjob. induction 1 as [|t it rows items (w & -> & Hw & Hf) _ IH]; [by exists []|].
  cbn [check_rows forallb JSON_parse].
  assert (Ho : is_object w = true) by (pose proof (ri_object _ _ Hw); by destruct w).
  rewrite Ho, (ri_steerId _ _ Hw). cbn [andb truthy].
  pose proof (receipt_for_spec k now r s j w it queued H Hjob Hw Hf) as Hr.
  change "queued" with (state_text queued). unfold carries.
  destruct (SteerQueueItem.clientSteerId it) as [c|] eqn:Hc.
  - destruct (receipt_consistent s k (Job.createdAt j) queued it); cbn [andb].
    + destruct Hr as (v & e & -> & He & Hv). destruct (forallb _ items).
      * destruct IH as (l & -> & Hl). eexists. split; [done|]. constructor; [|done].
        split_and!; [done | done |]. rewrite Hc. exists v, e, (SteerReceipt.item (ReceiptEntry.receipt e)),
          (SteerReceipt.state (ReceiptEntry.receipt e)). split_and!; [done | done |].
        rewrite rebound_same. exact Hv.
      * destruct IH as (x & ->). by eexists.
    + destruct Hr as (x & ->). by eexists.
  - rewrite Hr. assert (Hcons : receipt_consistent s k (Job.createdAt j) queued it = true)
      by (unfold receipt_consistent; by rewrite Hc). rewrite Hcons. cbn [andb].
    destruct (forallb _ items).
    + destruct IH as (l & -> & Hl). eexists. split; [done|]. constructor; [|done].
      split_and!; [done | done |]. by rewrite Hc.
    + destruct IH as (x & ->). by eexists.
Qed.

(** ** Settling receipts *)

Definition settle_one (k : string) (st : ReceiptState) (s : Store) (it : SteerQueueItem.t) : Store :=
  match SteerQueueItem.clientSteerId it with
  | Some c => update_receipt k c (set_receipt_item it st) s
  | None => s
  end.

Lemma settle_is_fold k items st s j :
  mget (jobs s) k = Some j -> usesReceiptSafeProtocol (Some j) = true -> Forall item_fine items ->
  settleSteerReceipts k items st s = foldl (settle_one k st) s items.
Proof.
  intros Hj Hv Hf. unfold settleSteerReceipts. rewrite Hj, Hv. clear Hj Hv. revert s.
  induction Hf as [|it items Hit _ IH]; intros s; [done|]. cbn [foldl]. unfold settle_one at 2.
  destruct (SteerQueueItem.clientSteerId it) as [c|] eqn:Hc; [|apply IH].
  rewrite decide_False; [apply IH|]. intros ->. by apply (if_client _ Hit).
Qed.

Lemma carries_update k c f s p it :
  (forall e, exists it0 st0, ReceiptEntry.receipt (f e) = rebound it0 st0 (ReceiptEntry.receipt e)) ->
  carries s k p it -> carries (update_receipt k c f s) k p it.
Proof.
  intros Hfe (Hw & Hf & Hp). split_and!; [done | done |].
  destruct (SteerQueueItem.clientSteerId it) as [c'|]; [|done].
  destruct Hp as (v & e & it0 & st0 & Hv & He & Hr). rewrite receipt_of_updated, He.
  case_decide; [|by exists v, e, it0, st0]. exists v, (f e), it0, st0.
  split_and!; [done | done |]. destruct (Hfe e) as (it1 & st1 & ->). exact Hr.
Qed.

Lemma settle_step k now r rk s st p it :
  represents k now (with_receiptsKey rk r) s -> carries s k p it ->
  represents k now (with_receiptsKey (settle_row lua_number (state_text st) p rk) r) (settle_one k st s it).
Proof.
  intros H (Hw & Hf & Hp). unfold settle_row, settle_one. rewrite (ri_client _ _ Hw).
  destruct (SteerQueueItem.clientSteerId it) as [c|]; [|by rewrite Hp].
  destruct Hp as (v & e & it0 & st0 & -> & He & Hv). cbn [fmap option_fmap option_map as_string].
  pose proof (re_receipts _ _ _ _ H c) as Hm. rewrite He in Hm.
  destruct (HGET c (receiptsKey (with_receiptsKey rk r))) as [raw|]; [|done].
  destruct Hm as ((v' & _ & _ & Hrf) & Hx & Hcl).
  apply (represents_receipt k now (with_receiptsKey rk r) s c _ e _
    (encode (jset (jset v "item" p.1) "state" (JStr (state_text st)))) H He).
  - intros c'. cbn [receiptsKey with_receiptsKey]. apply HGET_HSET.
  - split_and!; [|done|done]. apply receipt_row_encode.
    + apply (receipt_set_state _ _ st (receipt_set_item v _ p.1 it Hv Hw)).
    + apply rebound_fine; [done | apply Hf].
Qed.

Lemma settle_all_rows k now r rk s st l items :
  Forall2 (carries s k) l items -> represents k now (with_receiptsKey rk r) s ->
  represents k now (with_receiptsKey (settle_rows lua_number (state_text st) l rk) r)
    (foldl (settle_one k st) s items).
Proof.
  intros Hl. revert rk s items Hl. induction l as [|p l IH]; intros rk s items Hl H.
  { apply Forall2_nil_inv_l in Hl as ->. done. }
  apply Forall2_cons_inv_l in Hl as (it & items' & Hp & Hl & ->). cbn [foldl settle_rows].
  apply IH; [|by apply settle_step].
  eapply Forall2_impl; [exact Hl|]. intros p' it' Hc'. unfold settle_one.
  destruct (SteerQueueItem.clientSteerId it); [|done]. apply carries_update; [|done].
  intros e. by eexists _, _.
Qed.

(** Expiries that move. *)
Lemma represents_extend k now r s c t :
  represents k now r s -> represents k now r (update_receipt k c (extend_receipt t) s).
Proof.
  intros H. pose proof (re_receipts _ _ _ _ H c) as Hm.
  destruct (receipt_of s k c) as [e|] eqn:He.
  - destruct (HGET c (receiptsKey r)) as [raw|] eqn:Hraw; [|done]. rewrite <- (with_same_receipts r).
    eapply represents_receipt; [done | done | |].
    + intros c'. case_decide; [subst; exact Hraw | done].
    + destruct Hm as (H1 & H2 & H3). split_and!; [done | | done]. cbn. revert H2.
      destruct (ReceiptEntry.expiresAt e), t; cbn; try done.
      rewrite !bool_decide_eq_false. lia.
  - unfold update_receipt. unfold receipt_of, receipts_of in He.
    destruct (mget (steerReceipts s) k) as [rs|]; [|done]. cbn in He. by rewrite He.
Qed.

(** Rows with the same contents. *)
Lemma represents_rows k now r r' s :
  represents k now r s -> jobHash r' = jobHash r -> LRANGE (steersKey r') = LRANGE (steersKey r) ->
  LRANGE (claimedKey r') = LRANGE (claimedKey r) ->
  content [] (receiptsKey r') = content [] (receiptsKey r) ->
  content [] (orderKey r') = content [] (orderKey r) -> represents k now r' s.
Proof.
  intros [H1 H2 H3 H4 H5 H6 H7 H8] E1 E2 E3 E4 E5.
  split; unfold HGET in *; rewrite ?E2, ?E3, ?E4, ?E5; try done.
  destruct (mget (jobs s) k); [by apply (job_row_frame r _ s) | by rewrite E1].
Qed.

Lemma represents_claims k now r s s' rows cl :
  represents k now r s -> Forall2 row (LRANGE rows) cl ->
  mget (jobs s') k = mget (jobs s) k -> closedSteerQueues s' = closedSteerQueues s ->
  queue_of s' k = queue_of s k -> claims_of s' k = cl -> receipts_of s' k = receipts_of s k ->
  represents k now (with_claimedKey rows r) s'.
Proof.
  intros [H1 H2 H3 H4 H5 H6 H7 H8] Hc E1 E2 E3 E4 E5. unfold receipt_of in *.
  split; unfold receipt_of in *; rewrite ?E3, ?E4, ?E5; try done.
  rewrite E1. destruct (mget (jobs s) k); [|done]. by apply (job_row_frame r _ s).
Qed.

Lemma rows_fine rows q : Forall2 row rows q -> Forall item_fine q.
Proof. induction 1 as [|t it rows q (v & _ & _ & Hf) _ IH]; by constructor. Qed.
Lemma parsed_rows rows q : Forall2 row rows q -> Forall2 reads_item (omap JSON_parse rows) q.
Proof. induction 1 as [|t it rows q (v & -> & Hv & _) _ IH]; [done|]. cbn. by constructor. Qed.

(** ** Drain *)

(** Both stores answer, or both refuse. *)
Definition same_result {A B E} (R : A -> B -> Prop) (a : result string A) (b : result E B) : Prop :=
  match a, b with Ok x, Ok y => R x y | Throw _, Throw _ => True | _, _ => False end.

Lemma drain_refines k now r s e :
  represents k now r s ->
  let '(a, r') := drainSteers lua_number ttl e r in
  let '(o, s') := StoreSteers.drainSteers k e now s in
  same_result (Forall2 reads_item) a o /\ represents k now r' s'.
Proof.
  intros H. unfold drainSteers, STEER_DRAIN. rewrite (guarded k now r s e _ _ H).
  unfold StoreSteers.drainSteers. pose proof (steerable_spec k now r s e H) as Hs.
  destruct (steerable_job s k e) as [j|]; [|split; [constructor | done]].
  destruct Hs as (Hjob & Hj & _). rewrite (v2_spec r s k j Hj). pose proof (re_queue _ _ _ _ H) as Hq.
  assert (Hempty : represents k now (with_steersKey None r) (set_queue k [] s)).
  { apply represents_queue; [done | constructor | constructor]. }
  destruct (usesReceiptSafeProtocol (Some j)) eqn:Hv; cbn [negb].
  2: { destruct (queue_of s k) as [|it0 q] eqn:Eq.
       - apply Forall2_nil_inv_r in Hq. rewrite Hq. split; [constructor|].
         eapply represents_rows; [exact H | done | | done | done | done]. by rewrite Hq.
       - split; [by apply parsed_rows | exact Hempty]. }
  pose proof (check_rows_spec k now r s j _ _ H Hjob Hq) as Hc.
  destruct (queue_of s k) as [|it0 q0] eqn:Eq.
  { apply Forall2_nil_inv_r in Hq. rewrite Hq. cbn [check_rows settle_rows foldl]. split; [constructor|].
    eapply represents_rows; [exact H | done | by rewrite Hq | done | |]; apply content_extend. }
  rewrite <- Eq in *. revert Hc. destruct (forallb _ (queue_of s k)); intros Hc.
  2: { destruct Hc as (x & ->). by split. }
  destruct Hc as (l & -> & Hl). split; [by apply parsed_rows|].
  set (s2 := with_claimedSteers _ (set_queue k [] s)).
  set (claims := match LRANGE (steersKey r) with [] => _ | _ :: _ => _ end).
  assert (Hclaims : LRANGE claims = LRANGE (claimedKey r) ++ LRANGE (steersKey r)).
  { subst claims. destruct (LRANGE (steersKey r)) as [|t rows] eqn:Er; [by rewrite app_nil_r|].
    rewrite LRANGE_EXPIRE. apply LRANGE_push. }
  assert (H2 : represents k now (with_claimedKey claims (with_steersKey None r)) s2).
  { eapply represents_claims; [exact Hempty | | done | done | done | |done].
    - rewrite Hclaims. apply Forall2_app; [apply (re_claims _ _ _ _ H) | exact Hq].
    - unfold claims_of, s2. cbn. rewrite mget_mset_eq. done. }
  assert (Hl2 : Forall2 (carries s2 k) l (queue_of s k)) by exact Hl.
  rewrite (settle_is_fold k (queue_of s k) claimed s2 j Hjob Hv (rows_fine _ _ Hq)).
  rewrite <- (with_same_receipts (with_claimedKey claims (with_steersKey None r))) in H2.
  pose proof (settle_all_rows k now _ _ s2 claimed l (queue_of s k) Hl2 H2) as H3.
  set (s3 := foldl (settle_one k claimed) s2 (queue_of s k)) in *.
  assert (H4 : forall q s', represents k now (with_receiptsKey (settle_rows lua_number (state_text claimed) l
      (receiptsKey (with_claimedKey claims (with_steersKey None r)))) (with_claimedKey claims (with_steersKey None r))) s' ->
    represents k now (with_receiptsKey (settle_rows lua_number (state_text claimed) l
      (receiptsKey (with_claimedKey claims (with_steersKey None r)))) (with_claimedKey claims (with_steersKey None r)))
      (foldl (fun s item => match SteerQueueItem.clientSteerId item with
                            | Some c => update_receipt k c
                                          (extend_receipt (At (now + STEER_RECEIPT_TTL_MS))) s
                            | None => s end) s' q)).
  { induction q as [|it q IH]; intros s' Hs'; [done|]. cbn [foldl]. apply IH.
    destruct (SteerQueueItem.clientSteerId it); [by apply represents_extend | done]. }
  eapply represents_rows; [apply H4, H3 | done | done | done | |]; apply content_extend.
Qed.

(** ** Restore *)

Lemma row_ids_spec rows q :
  Forall2 row rows q -> row_ids rows = Some (JStr <$> steer_ids q).
Proof.
  induction 1 as [|t it rows q (w & -> & Hw & Hf) _ IH]; [done|]. cbn [row_ids JSON_parse].
  assert (Ho : is_object w = true) by (pose proof (ri_object _ _ Hw); by destruct w).
  rewrite (ri_steerId _ _ Hw), Ho, IH. done.
Qed.

Lemma returns_spec v it ids :
  reads_item v it -> returns_ (JStr <$> ids) v = negb (bool_decide (SteerQueueItem.steerId it ∈ ids)).
Proof.
  intros Hv. unfold returns_. rewrite (ri_steerId _ _ Hv). cbn [truthy andb]. f_equal.
  apply bool_decide_ext. rewrite list_elem_of_fmap. naive_solver.
Qed.

Lemma Forall2_filter2 {A B} (R : A -> B -> Prop) (P : A -> Prop) (Q : B -> Prop)
    `{!forall x, Decision (P x)} `{!forall x, Decision (Q x)} l l' :
  (forall x y, R x y -> P x <-> Q y) -> Forall2 R l l' -> Forall2 R (filter P l) (filter Q l').
Proof.
  intros HPQ. induction 1 as [|x y l l' Hxy _ IH]; [done|]. rewrite !filter_cons.
  specialize (HPQ x y Hxy). destruct (decide (P x)), (decide (Q y)); [by constructor | naive_solver
    | naive_solver | done].
Qed.

Lemma LRANGE_front items k :
  LRANGE (push_front lua_number ttl items k) = (encode <$> items) ++ LRANGE k.
Proof.
  unfold push_front. rewrite LRANGE_EXPIRE. induction items as [|v items IH]; [done|].
  cbn [foldr]. unfold LPUSH at 1. cbn. f_equal. exact IH.
Qed.

Lemma encoded_rows vs items :
  Forall2 reads_item vs items -> Forall item_fine items -> Forall2 row (encode <$> vs) items.
Proof.
  induction 1 as [|v it vs items Hv _ IH]; intros Hf; [constructor|].
  apply Forall_cons in Hf as [Hf Hfs]. cbn. constructor; [by apply row_encode | by apply IH].
Qed.

Lemma nodup_front items q :
  NoDup (steer_ids items) -> NoDup (steer_ids q) ->
  NoDup (steer_ids (filter (fun i => SteerQueueItem.steerId i ∉ steer_ids q) items ++ q)).
Proof.
  intros Hi Hq. unfold steer_ids in *. rewrite fmap_app. apply NoDup_app. split_and!; [| |done].
  - induction items as [|it items IH]; [constructor|]. cbn in Hi. apply NoDup_cons in Hi as [Hn Hi].
    rewrite filter_cons. case_decide; [|by apply IH]. cbn. apply NoDup_cons. split; [|by apply IH].
    intros (y & Hy & [_ Hin]%list_elem_of_filter)%list_elem_of_fmap. apply Hn. rewrite Hy.
    by apply list_elem_of_fmap_2.
  - intros x (y & -> & [Hy _]%list_elem_of_filter)%list_elem_of_fmap. exact Hy.
Qed.

(** A claim that is among the incoming items. *)
Lemma incoming_spec vs items t it :
  Forall2 reads_item vs items -> row t it ->
  is_incoming vs t = bool_decide (SteerQueueItem.steerId it ∈ steer_ids items).
Proof.
  intros Hvs (w & -> & Hw & Hf). unfold is_incoming. cbn [JSON_parse]. rewrite (ri_steerId _ _ Hw).
  cbn [truthy andb]. induction Hvs as [|v it' vs items Hv _ IH]; [done|]. cbn [existsb].
  rewrite IH, (ri_steerId _ _ Hv), lua_eq_str. cbn [steer_ids fmap list_fmap].
  apply eq_true_iff_eq. rewrite orb_true_iff, !bool_decide_eq_true, elem_of_cons. naive_solver.
Qed.

Lemma claim_is_receipt k now r s created it :
  represents k now r s -> claim_consistent s k created it = receipt_consistent s k created claimed it.
Proof.
  intros H. unfold claim_consistent, receipt_consistent.
  destruct (SteerQueueItem.clientSteerId it) as [c|]; [|done].
  pose proof (re_receipts _ _ _ _ H c) as Hm. destruct (receipt_of s k c) as [e|]; [|done].
  destruct (HGET c (receiptsKey r)); [|done]. destruct Hm as (_ & _ & Hc).
  apply bool_decide_ext. naive_solver.
Qed.

Lemma check_claims_spec k now r s j vs items :
  represents k now r s -> mget (jobs s) k = Some j -> Forall2 reads_item vs items ->
  Forall item_fine items ->
  if forallb (receipt_consistent s k (Job.createdAt j) claimed) items
  then exists l, check_claims r vs = Some l /\ Forall2 (carries s k) l items
  else check_claims r vs = None.
Proof.
  intros H Hjob. induction 1 as [|w it vs items Hw _ IH]; intros Hf; [by exists []|].
  apply Forall_cons in Hf as [Hf Hfs]. specialize (IH Hfs). cbn [check_claims forallb].
  pose proof (receipt_for_spec k now r s j w it claimed H Hjob Hw Hf) as Hr.
  change "claimed" with (state_text claimed).
  assert (Hcar : forall rc, match SteerQueueItem.clientSteerId it with
      | None => rc = None
      | Some c => exists v e, rc = Some v /\ receipt_of s k c = Some e /\
                    reads_receipt v (ReceiptEntry.receipt e)
      end -> carries s k (w, rc) it).
  { intros rc Hrc. split_and!; [done | done|]. destruct (SteerQueueItem.clientSteerId it); [|done].
    destruct Hrc as (v & e & H1 & H2 & H3).
    exists v, e, (SteerReceipt.item (ReceiptEntry.receipt e)), (SteerReceipt.state (ReceiptEntry.receipt e)).
    rewrite rebound_same. by split_and!. }
  assert (Hcase : match receipt_consistent s k (Job.createdAt j) claimed it with
    | true => exists rc, receipt_for r (state_text claimed) w = Ok rc /\ carries s k (w, rc) it
    | false => exists x, receipt_for r (state_text claimed) w = Throw x end).
  { destruct (SteerQueueItem.clientSteerId it) as [c|] eqn:Hc.
    - destruct (receipt_consistent s k (Job.createdAt j) claimed it); [|exact Hr].
      destruct Hr as (v & e & -> & He & Hv). exists (Some v). split; [done|]. apply Hcar. by exists v, e.
    - assert (Hcons : receipt_consistent s k (Job.createdAt j) claimed it = true)
        by (unfold receipt_consistent; by rewrite Hc). rewrite Hcons, Hr. exists None.
      split; [done | by apply Hcar]. }
  destruct (receipt_consistent s k (Job.createdAt j) claimed it); cbn [andb].
  2: { destruct Hcase as (x & ->). done. }
  destruct Hcase as (rc & -> & Hp). destruct (forallb _ items).
  - destruct IH as (l & -> & Hl). eexists. split; [done|]. by constructor.
  - by rewrite IH.
Qed.

(** Receipts settled from the last item to the first. *)
Lemma settle_back_rows k now r rk s st l items :
  Forall2 (carries s k) l items -> represents k now (with_receiptsKey rk r) s ->
  represents k now (with_receiptsKey (foldr (settle_row lua_number (state_text st)) rk l) r)
    (foldr (fun it s => settle_one k st s it) s items).
Proof.
  intros Hl H. assert (Hgen : represents k now
      (with_receiptsKey (foldr (settle_row lua_number (state_text st)) rk l) r)
      (foldr (fun it s => settle_one k st s it) s items) /\
    forall p it, carries s k p it -> carries (foldr (fun it s => settle_one k st s it) s items) k p it);
    [|by apply Hgen].
  induction Hl as [|p it l items Hp _ [IH1 IH2]]; [done|]. cbn [foldr]. split.
  - apply settle_step; [done | by apply IH2].
  - intros p' it' Hp'. specialize (IH2 p' it' Hp'). unfold settle_one at 1.
    destruct (SteerQueueItem.clientSteerId it); [|done]. apply carries_update; [|done].
    intros e. by eexists _, _.
Qed.

Definition client_is (c : string) (it : SteerQueueItem.t) : bool :=
  bool_decide (SteerQueueItem.clientSteerId it = Some c).

Lemma settle_one_receipt k st s it c :
  receipt_of (settle_one k st s it) k c =
    if client_is c it then set_receipt_item it st <$> receipt_of s k c else receipt_of s k c.
Proof.
  unfold settle_one, client_is. destruct (SteerQueueItem.clientSteerId it) as [c'|].
  - rewrite receipt_of_updated. case_decide; [subst; by rewrite bool_decide_true|].
    rewrite bool_decide_false by congruence. done.
  - by rewrite bool_decide_false.
Qed.

Lemma settle_back_receipt k st s items c :
  receipt_of (foldr (fun it s => settle_one k st s it) s items) k c =
    match find_first (client_is c) items with
    | Some it => set_receipt_item it st <$> receipt_of s k c
    | None => receipt_of s k c
    end.
Proof.
  induction items as [|it items IH]; [done|]. cbn [foldr find_first].
  rewrite settle_one_receipt, IH. destruct (client_is c it); [|done].
  destruct (find_first _ items); [|done]. by destruct (receipt_of s k c).
Qed.

Lemma settle_forth_receipt k st s items c :
  (forall i i', i ∈ items -> i' ∈ items -> client_is c i = true -> client_is c i' = true -> i = i') ->
  receipt_of (foldl (settle_one k st) s items) k c =
    match find_first (client_is c) items with
    | Some it => set_receipt_item it st <$> receipt_of s k c
    | None => receipt_of s k c
    end.
Proof.
  revert s. induction items as [|it items IH]; intros s Hu; [done|]. cbn [foldl find_first].
  rewrite IH; [|intros i i' Hi Hi'; apply Hu; by right]. rewrite settle_one_receipt.
  destruct (client_is c it) eqn:E; [|done].
  destruct (find_first (client_is c) items) as [it'|] eqn:Ef; [|done].
  assert (Hit' : it' ∈ items /\ client_is c it' = true).
  { clear -Ef. induction items as [|x items IH]; [done|]. cbn in Ef.
    destruct (client_is c x) eqn:Ex; [injection Ef as ->; split; [by left | done]|].
    destruct (IH Ef). split; [by right | done]. }
  destruct Hit' as [H1 H2]. rewrite (Hu it it'); [by destruct (receipt_of s k c) | by left | by right
    | done | done].
Qed.

(** Only the receipts themselves matter, not the order in which they are kept. *)
Lemma represents_pointwise k now r s s' :
  represents k now r s -> mget (jobs s') k = mget (jobs s) k ->
  closedSteerQueues s' = closedSteerQueues s -> queue_of s' k = queue_of s k ->
  claims_of s' k = claims_of s k -> (forall c, receipt_of s' k c = receipt_of s k c) ->
  mwf (receipts_of s' k) -> represents k now r s'.
Proof.
  intros [H1 H2 H3 H4 H5 H6 H7 H8] E1 E2 E3 E4 E5 Hwf. split; rewrite ?E3, ?E4; try done.
  - rewrite E1. destruct (mget (jobs s) k); [|done]. by apply (job_row_frame r _ s).
  - intros c. rewrite E5. apply H5.
  - intros c. rewrite E5. apply H7.
Qed.

Section frame.
Context {X : Type} (f : Store -> X).
Hypothesis Hf : forall v s, f (with_steerReceipts v s) = f s.

Lemma settle_one_frame k st s it : f (settle_one k st s it) = f s.
Proof.
  unfold settle_one. destruct (SteerQueueItem.clientSteerId it); [|done]. by apply update_receipt_frame.
Qed.
Lemma settle_forth_frame k st s items : f (foldl (settle_one k st) s items) = f s.
Proof.
  revert s. induction items as [|it items IH]; intros s; [done|]. cbn [foldl].
  by rewrite IH, settle_one_frame.
Qed.
Lemma settle_back_frame k st s items : f (foldr (fun it s => settle_one k st s it) s items) = f s.
Proof. induction items as [|it items IH]; [done|]. cbn [foldr]. by rewrite settle_one_frame. Qed.
End frame.

Lemma settle_forth_wf k st s items :
  mwf (receipts_of s k) -> mwf (receipts_of (foldl (settle_one k st) s items) k).
Proof.
  revert s. induction items as [|it items IH]; intros s Hs; [done|]. cbn [foldl]. apply IH.
  unfold settle_one. destruct (SteerQueueItem.clientSteerId it); [by apply update_wf | done].
Qed.

(** Items whose receipts hold are told apart by their client ids. *)
Lemma consistent_clients s k created st items :
  forallb (receipt_consistent s k created st) items = true -> NoDup (steer_ids items) ->
  forall c i i', i ∈ items -> i' ∈ items -> client_is c i = true -> client_is c i' = true -> i = i'.
Proof.
  intros Hall Hnd c i i' Hi Hi' Hc Hc'. unfold client_is in *. bool_facts.
  rewrite forallb_forall in Hall. eapply nodup_ids_inj; [exact Hnd | done | done |].
  eapply receipt_consistent_same_id; [apply Hall; by apply list_elem_of_In
    | apply Hall; by apply list_elem_of_In | done | done].
Qed.

Lemma settle_restored k now r rk s j checked items :
  mget (jobs s) k = Some j -> usesReceiptSafeProtocol (Some j) = true ->
  Forall2 (carries s k) checked items ->
  (forall c i i', i ∈ items -> i' ∈ items -> client_is c i = true -> client_is c i' = true -> i = i') ->
  represents k now (with_receiptsKey rk r) s ->
  represents k now (with_receiptsKey (foldr (settle_row lua_number "queued") rk checked) r)
    (settleSteerReceipts k items queued s).
Proof.
  intros Hjob Hv Hl Hu H. rewrite (settle_is_fold k items queued s j Hjob Hv).
  2: { clear -Hl. induction Hl as [|p it l items (_ & Hf & _) _ IH]; by constructor. }
  pose proof (settle_back_rows k now r rk s queued checked items Hl H) as Hb.
  change (state_text queued) with "queued" in Hb. apply (represents_pointwise k now _ _ _ Hb).
  - by rewrite (settle_forth_frame (fun s => mget (jobs s) k)), (settle_back_frame (fun s => mget (jobs s) k)).
  - by rewrite (settle_forth_frame closedSteerQueues), (settle_back_frame closedSteerQueues).
  - by rewrite (settle_forth_frame (fun s => queue_of s k)), (settle_back_frame (fun s => queue_of s k)).
  - by rewrite (settle_forth_frame (fun s => claims_of s k)), (settle_back_frame (fun s => claims_of s k)).
  - intros c. rewrite settle_back_receipt. apply settle_forth_receipt. apply Hu.
  - apply settle_forth_wf, (re_wf _ _ _ _ H).
Qed.

(** What may be handed back: distinct items, which are the claims of their ids in their order. *)
Definition returnable (s : Store) (k : string) (items : list SteerQueueItem.t) : Prop :=
  NoDup (steer_ids items) /\ Forall item_fine items /\
  (length (filter (fun i => SteerQueueItem.steerId i ∈ steer_ids items) (claims_of s k)) = length items ->
   filter (fun i => SteerQueueItem.steerId i ∈ steer_ids items) (claims_of s k) = items).

Lemma checked_filter s k ids l items :
  Forall2 (carries s k) l items ->
  Forall2 (carries s k) (filter (fun p => returns_ (JStr <$> ids) p.1 = true) l)
    (filter (fun i => SteerQueueItem.steerId i ∉ ids) items).
Proof.
  apply Forall2_filter2. intros p it (Hw & _). rewrite (returns_spec _ it ids Hw), negb_true_iff.
  apply bool_decide_eq_false.
Qed.

Lemma restore_refines k now r s vs items e :
  represents k now r s -> Forall2 reads_item vs items -> items <> [] -> returnable s k items ->
  let '(a, r') := restoreClaimedSteers lua_number ttl vs e r in
  let '(o, s') := StoreSteers.restoreClaimedSteers k items e s in
  a = Ok o /\ represents k now r' s'.
Proof.
  intros H Hvs Hne (Hnd & Hf & Hret).
  destruct vs as [|v0 vs0]; [by apply Forall2_nil_inv_l in Hvs|]. unfold restoreClaimedSteers.
  set (vs := v0 :: vs0) in *. unfold STEER_RESTORE_CLAIMED. rewrite (guarded k now r s e _ _ H).
  unfold StoreSteers.restoreClaimedSteers. pose proof (steerable_spec k now r s e H) as Hs.
  destruct (steerable_job s k e) as [j|]; [|by split].
  destruct Hs as (Hjob & Hj & _). cbn [JSON_parse JSON_stringify mbind option_bind as_array].
  rewrite (v2_spec r s k j Hj), (row_ids_spec _ _ (re_queue _ _ _ _ H)). cbv zeta.
  set (ids := steer_ids (queue_of s k)).
  assert (Hback : Forall2 reads_item (filter (fun i => returns_ (JStr <$> ids) i = true) vs)
                    (filter (fun i => SteerQueueItem.steerId i ∉ ids) items)).
  { apply Forall2_filter2; [|exact Hvs]. intros v it Hv. rewrite (returns_spec v it ids Hv), negb_true_iff.
    apply bool_decide_eq_false. }
  assert (Hbf : Forall item_fine (filter (fun i => SteerQueueItem.steerId i ∉ ids) items))
    by (rewrite Forall_forall in Hf |- *; intros x [_ Hx]%list_elem_of_filter; auto).
  assert (Hfront : Forall2 row (LRANGE (push_front lua_number ttl
      (filter (fun i => returns_ (JStr <$> ids) i = true) vs) (steersKey r)))
      (filter (fun i => SteerQueueItem.steerId i ∉ ids) items ++ queue_of s k)).
  { rewrite LRANGE_front. apply Forall2_app; [by apply encoded_rows | apply (re_queue _ _ _ _ H)]. }
  pose proof (nodup_front items (queue_of s k) Hnd (re_ids _ _ _ _ H)) as Hndf. fold ids in Hndf.
  destruct (usesReceiptSafeProtocol (Some j)) eqn:Hv; cbn [negb].
  2: { split; [done|]. by apply represents_queue. }
  pose proof (re_claims _ _ _ _ H) as Hcl.
  assert (Hin : Forall2 row
      (filter (fun t => is_incoming vs t = true) (LRANGE (claimedKey r)))
      (filter (fun i => SteerQueueItem.steerId i ∈ steer_ids items) (claims_of s k))).
  { apply Forall2_filter2; [|exact Hcl]. intros t it Ht. rewrite (incoming_spec vs items t it Hvs Ht).
    apply bool_decide_eq_true. }
  assert (Hout : Forall2 row
      (filter (fun t => is_incoming vs t = false) (LRANGE (claimedKey r)))
      (filter (fun i => SteerQueueItem.steerId i ∉ steer_ids items) (claims_of s k))).
  { apply Forall2_filter2; [|exact Hcl]. intros t it Ht. rewrite (incoming_spec vs items t it Hvs Ht).
    apply bool_decide_eq_false. }
  rewrite (Forall2_length _ _ _ Hin), (Forall2_length _ _ _ Hvs).
  change (default [] (mget (claimedSteers s) k)) with (claims_of s k).
  case_bool_decide as Hlen; cbn [negb]; [|by split]. specialize (Hret Hlen). rewrite Hret.
  pose proof (check_claims_spec k now r s j vs items H Hjob Hvs Hf) as Hc.
  assert (Heq : forallb (claim_consistent s k (Job.createdAt j)) items =
                forallb (receipt_consistent s k (Job.createdAt j) claimed) items).
  { clear -H. induction items as [|it items IH]; [done|]. cbn [forallb].
    by rewrite IH, (claim_is_receipt k now r s). }
  rewrite Heq. destruct (forallb (receipt_consistent s k (Job.createdAt j) claimed) items) eqn:Hall; cbn [negb].
  2: { rewrite Hc. by split. }
  destruct Hc as (l & -> & Hl). pose proof (checked_filter s k ids l items Hl) as Hlb.
  set (kept := filter (fun i => SteerQueueItem.steerId i ∉ steer_ids items) (claims_of s k)) in *.
  set (s1 := match kept with [] => _ | _ :: _ => _ end).
  set (rows := keep_ttl (claimedKey r) (RPUSH _ None)).
  assert (H1 : represents k now (with_claimedKey rows r) s1).
  { assert (Hcl1 : claims_of s1 k = kept).
    { subst s1. unfold claims_of. destruct kept; cbn; [by rewrite mget_mdel_eq | by rewrite mget_mset_eq]. }
    apply (represents_claims k now r s _ _ kept H); [|by subst s1; destruct kept
      | by subst s1; destruct kept | by subst s1; destruct kept | done | by subst s1; destruct kept].
    subst rows. rewrite LRANGE_keep. exact Hout. }
  assert (Hjob1 : mget (jobs s1) k = Some j) by (by subst s1; destruct kept).
  assert (Hq1 : queue_of s1 k = queue_of s k) by (by subst s1; destruct kept).
  set (back := filter (fun i => SteerQueueItem.steerId i ∉ ids) items) in *.
  assert (H2 : represents k now (with_steersKey (push_front lua_number ttl
    (filter (fun i => returns_ (JStr <$> ids) i = true) vs) (steersKey r)) (with_claimedKey rows r))
    (set_queue k (back ++ queue_of s k) s1)) by (by apply represents_queue).
  assert (Hfinal : represents k now
    (with_receiptsKey (foldr (settle_row lua_number "queued") (receiptsKey r)
      (filter (fun p => returns_ (JStr <$> ids) p.1 = true) l))
      (with_steersKey (push_front lua_number ttl
        (filter (fun i => returns_ (JStr <$> ids) i = true) vs) (steersKey r)) (with_claimedKey rows r)))
    (settleSteerReceipts k back queued (set_queue k (back ++ queue_of s k) s1))).
  { apply (settle_restored k now _ _ _ j); [exact Hjob1 | exact Hv | | |].
    - eapply Forall2_impl; [exact Hlb|]. intros p it Hp. subst s1. by destruct kept.
    - intros c i i' Hi Hi'. apply (consistent_clients s k _ _ items Hall Hnd c);
        by apply list_elem_of_filter in Hi as [_ ?], Hi' as [_ ?].
    - change (receiptsKey r) with (receiptsKey (with_steersKey (push_front lua_number ttl
        (filter (fun i => returns_ (JStr <$> ids) i = true) vs) (steersKey r)) (with_claimedKey rows r))).
      by rewrite with_same_receipts. }
  destruct back as [|b0 back0] eqn:Eb; [|by split]. split; [done|].
  eapply represents_ext; [exact Hfinal | | | | |]; unfold settleSteerReceipts;
    cbn [jobs set_queue with_steerQueues]; rewrite ?Hjob1, ?Hv; cbn [foldl]; try done.
  rewrite queue_of_set. by rewrite Hq1.
Qed.
End refine.
