(* ===== verification/RedisEdits.v ===== *)
(** * Cancel, arm and downgrade: the Redis steering queue against the in-memory one *)

From stdpp Require Import pretty.
From S2P Require Import Prelude JsMap Json StreamTypes SteerRecovery StoreState StoreSteers StoreParked.
From S2P Require Import StoreJobs StoreCleanup StoreFrame StoreRun StoreEpochs StoreParking StoreRecovery StoreQueue.
From S2P Require Import RedisScripts RedisLua RedisJobs RedisSteers RedisRows RedisAdmission RedisDrain.

Section refine.
Context {lua_number : jnum -> jnum} {lua : LuaNumber lua_number}.
Abbreviation cj := (cjson lua_number).
Abbreviation encode := (cjson_encode lua_number).
Abbreviation represents := (represents (lua_number := lua_number)).
Abbreviation item_fine := (item_fine (lua_number := lua_number)).
Abbreviation row := (row (lua_number := lua_number)).
Abbreviation receipt_row := (receipt_row (lua_number := lua_number)).
Abbreviation receipt_fine := (receipt_fine (lua_number := lua_number)).
Abbreviation carries := (carries (lua_number := lua_number)).
Abbreviation receipt_match := (receipt_match (lua_number := lua_number)).

(** ** Cancel and arm *)

Lemma found_spec check id n f rows items :
  Forall2 row rows items -> id ∉ steer_ids items ->
  scan_rows check id n (Some f) rows = Ok (Some f).
Proof.
  intros H. revert n. induction H as [|t it rows items (w & -> & Hw & Hf) _ IH]; intros n Hn; [done|].
  cbn [scan_rows]. unfold scanned. cbn [JSON_parse]. rewrite (ri_steerId _ _ Hw). cbn [as_string].
  rewrite decide_False by apply Hf. apply not_elem_of_cons in Hn as [Hid Hn].
  unfold is_string. rewrite (ri_steerId _ _ Hw). cbn [as_string].
  rewrite bool_decide_false by (intros [= E]; by apply Hid). by apply IH.
Qed.

Definition with_id (id : string) (it : SteerQueueItem.t) : bool :=
  bool_decide (SteerQueueItem.steerId it = id).

Lemma find_index_none id items :
  find_index (with_id id) items = None -> id ∉ steer_ids items.
Proof.
  unfold with_id. induction items as [|it items IH]; cbn; [intros _; apply not_elem_of_nil|].
  case_bool_decide as Hid; [done|]. destruct (find_index _ items); [done|]. intros _.
  apply not_elem_of_cons. auto.
Qed.

(** The scan finds the row of the item, and checks it. *)
Lemma scan_spec check id n rows items :
  Forall2 row rows items -> NoDup (steer_ids items) ->
  match find_index (with_id id) items with
  | None => scan_rows check id n None rows = Ok None
  | Some i => exists w it, items !! i = Some it /\ reads_item w it /\ item_fine it /\
      scan_rows check id n None rows =
        match check w with Ok rc => Ok (Some (n + i, w, rc)) | Throw e => Throw e end
  end.
Proof.
  intros H. revert n. induction H as [|t it rows items (w & -> & Hw & Hf) Hrows IH]; intros n Hnd; [done|].
  cbn [steer_ids fmap list_fmap] in Hnd. apply NoDup_cons in Hnd as [Hn Hnd].
  cbn [find_index scan_rows]. unfold scanned. cbn [JSON_parse]. rewrite (ri_steerId _ _ Hw).
  cbn [as_string]. rewrite decide_False by apply Hf. unfold is_string. rewrite (ri_steerId _ _ Hw). cbn [as_string].
  unfold with_id at 1. case_bool_decide as Hid.
  - subst id. rewrite bool_decide_true by done. exists w, it. split_and!; [done | done | done |].
    destruct (check w); [|done]. rewrite Nat.add_0_r. by eapply found_spec.
  - rewrite bool_decide_false by congruence. specialize (IH (S n) Hnd).
    destruct (find_index (with_id id) items) as [i|]; [|done]. cbn [fmap option_fmap option_map].
    destruct IH as (w' & it' & H1 & H2 & H3 & H4). exists w', it'. split_and!; [done | done | done |].
    rewrite H4. by rewrite Nat.add_succ_comm.
Qed.

Lemma scan_found k' id n i items :
  Forall item_fine items -> id ∉ steer_ids items -> scan_steer k' id n (Some i) items = Ok (Some i).
Proof.
  intros Hf. revert n. induction Hf as [|it items Hit _ IH]; intros n Hn; [done|].
  apply not_elem_of_cons in Hn as [Hid Hn]. cbn [scan_steer].
  rewrite decide_False by apply Hit. rewrite decide_False by congruence. by apply IH.
Qed.
Lemma scan_steer_spec k' id n items :
  Forall item_fine items -> NoDup (steer_ids items) ->
  scan_steer k' id n None items = Ok (Nat.add n <$> find_index (with_id id) items).
Proof.
  intros Hf. revert n. induction Hf as [|it items Hit Hf IH]; intros n Hnd; [done|].
  cbn [steer_ids fmap list_fmap] in Hnd. apply NoDup_cons in Hnd as [Hn Hnd].
  cbn [scan_steer find_index]. rewrite decide_False by apply Hit. unfold with_id at 1.
  destruct (decide _) as [Hid|Hid].
  - rewrite bool_decide_true by done. cbn. rewrite Nat.add_0_r. subst id. by apply scan_found.
  - rewrite bool_decide_false by done. rewrite (IH (S n) Hnd).
    destruct (find_index (with_id id) items); cbn; [|done]. do 2 f_equal. lia.
Qed.

(** What a mutation of a queued item is bound to. *)
Definition bound_to (s : Store) (k : string) (b : option string) (p : json * option json)
    (it : SteerQueueItem.t) : Prop :=
  reads_item p.1 it /\ item_fine it /\
  match b with
  | None => p.2 = None
  | Some c => SteerQueueItem.clientSteerId it = Some c /\
      exists v e it0, p.2 = Some v /\ receipt_of s k c = Some e /\
        reads_receipt v (rebound it0 (SteerReceipt.state (ReceiptEntry.receipt e))
                           (ReceiptEntry.receipt e))
  end.

Lemma mutation_spec k now r s j w it op :
  represents k now r s -> mget (jobs s) k = Some j -> reads_item w it -> item_fine it ->
  match queuedReceiptForMutation s k j it op with
  | Ok b => exists rc, mutation_receipt r w = Ok rc /\ bound_to s k b (w, rc) it
  | Throw _ => exists x, mutation_receipt r w = Throw x
  end.
Proof.
  intros H Hjob Hw Hf. pose proof (re_job _ _ _ _ H) as Hj. rewrite Hjob in Hj.
  unfold mutation_receipt, queuedReceiptForMutation. rewrite (v2_spec r s k j Hj).
  pose proof (receipt_for_spec k now r s j w it queued H Hjob Hw Hf) as Hr.
  change (state_text queued) with "queued" in Hr. rewrite (ri_client _ _ Hw).
  destruct (usesReceiptSafeProtocol (Some j)); cbn [negb andb]; [|by exists None].
  destruct (SteerQueueItem.clientSteerId it) as [c|] eqn:Hc; [|by exists None].
  cbn [fmap option_fmap option_map truthy]. unfold is_string. cbn [as_string].
  rewrite bool_decide_false by (intros [= ->]; by apply (if_client _ Hf)).
  destruct (receipt_consistent s k (Job.createdAt j) queued it); [|exact Hr].
  destruct Hr as (v & e & -> & He & Hv). exists (Some v). split; [done|].
  split_and!; [done | done | done |]. exists v, e, (SteerReceipt.item (ReceiptEntry.receipt e)).
  rewrite rebound_same. by split_and!.
Qed.

Lemma bound_carries s k c p it : bound_to s k (Some c) p it -> carries s k p it.
Proof.
  intros (Hw & Hf & Hc & v & e & it0 & Hp & He & Hv). split_and!; [done | done |]. rewrite Hc. naive_solver.
Qed.

Lemma Forall2_splice {A B} (R : A -> B -> Prop) i l l' :
  Forall2 R l l' -> Forall2 R (splice1 i l) (splice1 i l').
Proof.
  intros H. unfold splice1. apply Forall2_app; [by apply Forall2_take | by apply Forall2_drop].
Qed.
Lemma nodup_splice i l x :
  l !! i = Some x -> NoDup (steer_ids l) -> NoDup (steer_ids (splice1 i l)).
Proof.
  intros Hx H. unfold steer_ids in *. rewrite (splice1_perm i l x Hx) in H. cbn in H.
  by apply NoDup_cons in H as [_ H].
Qed.

(** [removeSteer], while the job is there. *)
Lemma remove_refines k now r s id e :
  represents k now r s -> is_Some (mget (jobs s) k) ->
  let '(a, r') := removeSteer lua_number id e r in
  let '(o, s') := StoreSteers.removeSteer k id e s in
  same_result eq a o /\ represents k now r' s'.
Proof.
  intros H [j Hjob]. pose proof (re_job _ _ _ _ H) as Hj. rewrite Hjob in Hj.
  unfold removeSteer, STEER_REMOVE, StoreSteers.removeSteer.
  rewrite (guard_epoch r s k j e Hj), Hjob. cbn [fmap option_fmap option_map].
  assert (Hguard : match e with
                   | None => false
                   | Some e => negb (bool_decide (Some (Job.createdAt j) = Some e))
                   end = negb (epoch_matches e (Job.createdAt j))).
  { destruct e as [z|]; [|done]. cbn. f_equal. apply bool_decide_ext. naive_solver. }
  rewrite Hguard. destruct (epoch_matches e (Job.createdAt j)); cbn [negb]; [|by split].
  pose proof (re_queue _ _ _ _ H) as Hq. pose proof (re_ids _ _ _ _ H) as Hnd.
  pose proof (scan_spec (mutation_receipt r) id 0 _ _ Hq Hnd) as Hscan.
  pose proof (scan_steer_spec k id 0 _ (rows_fine _ _ Hq) Hnd) as Hscan'.
  unfold queue_of in Hscan, Hscan', Hq.
  destruct (mget (steerQueues s) k) as [queue|] eqn:Eq; cbn [default] in *; unfold Datatypes.id in *.
  2: { rewrite Hscan. by split. }
  rewrite Hscan'. destruct (find_index (with_id id) queue) as [i|]; cbn [fmap option_fmap option_map].
  2: { rewrite Hscan. by split. }
  destruct Hscan as (w & it & Hi & Hw & Hf & ->). cbn [Nat.add]. rewrite Hi.
  pose proof (mutation_spec k now r s j w it "cancelling" H Hjob Hw Hf) as Hmut.
  destruct (queuedReceiptForMutation s k j it "cancelling") as [b|x].
  2: { destruct Hmut as (x' & ->). by split. }
  destruct Hmut as (rc & -> & Hb). split; [done|].
  assert (Hset : represents k now (with_steersKey (keep_ttl (steersKey r)
    (RPUSH (splice1 i (LRANGE (steersKey r))) None)) r) (set_queue k (splice1 i queue) s)).
  { apply represents_queue; [done | rewrite LRANGE_keep; by apply Forall2_splice |].
    eapply nodup_splice; [exact Hi|]. unfold queue_of in Hnd. by rewrite Eq in Hnd. }
  destruct b as [c|].
  - pose proof (bound_carries _ _ _ _ _ Hb) as Hcar. destruct Hb as (_ & _ & Hc & _).
    rewrite <- (with_same_receipts (with_steersKey _ r)) in Hset.
    pose proof (settle_step k now _ _ _ cancelled (w, rc) it Hset) as Hstep.
    unfold settle_one in Hstep. rewrite Hc in Hstep. by apply Hstep.
  - destruct Hb as (_ & _ & Hrc). cbn [snd] in Hrc. subst rc. cbn [settle_row snd].
    change (receiptsKey r) with (receiptsKey (with_steersKey (keep_ttl (steersKey r)
      (RPUSH (splice1 i (LRANGE (steersKey r))) None)) r)).
    rewrite with_same_receipts. exact Hset.
Qed.

(** ** Arming *)

(** Revisions have room to grow. *)
Definition room (it : SteerQueueItem.t) : Prop :=
  small (default 0 (SteerQueueItem.preemptRevision it) + 1)%Z.

Lemma bump_spec v it :
  reads_item v it -> reads_item (bump_revision v)
    {| it with SteerQueueItem.preemptRevision :=
         Some (default 0 (SteerQueueItem.preemptRevision it) + 1)%Z |}.
Proof.
  intros Hv. unfold bump_revision. rewrite (ri_revision _ _ Hv).
  replace (tonumber_or_0 (jint <$> SteerQueueItem.preemptRevision it)) with
    (default 0%Z (SteerQueueItem.preemptRevision it)) by (by destruct (SteerQueueItem.preemptRevision it)).
  by apply reads_revision.
Qed.
Lemma bump_fine it flag : item_fine it -> room it -> item_fine (bump_preempt flag it).
Proof. intros [F1 F2 F3 F4 F5] Hr. split; try done. cbn. intros z [= <-]. exact Hr. Qed.

Lemma LRANGE_LSET i t k : LRANGE (LSET i t k) = <[i := t]> (LRANGE k).
Proof. destruct k; [done|]. cbn. by destruct i. Qed.

(** The queue with one item changed in place, its id kept. *)
Lemma represents_insert k now r s i v it it' :
  represents k now r s -> queue_of s k !! i = Some it ->
  SteerQueueItem.steerId it' = SteerQueueItem.steerId it -> reads_item v it' -> item_fine it' ->
  represents k now (with_steersKey (LSET i (encode v) (steersKey r)) r)
    (set_queue k (<[i := it']> (queue_of s k)) s).
Proof.
  intros H Hi Hid Hv Hf. apply represents_queue; [done | |].
  - rewrite LRANGE_LSET. apply Forall2_insert; [apply (re_queue _ _ _ _ H) | by apply row_encode].
  - unfold steer_ids. rewrite list_fmap_insert, list_insert_id; [apply (re_ids _ _ _ _ H)|].
    rewrite list_lookup_fmap, Hi. cbn. by rewrite Hid.
Qed.

(** The receipt of a mutated item follows it. *)
Lemma update_step k now r rk s b p it it' v :
  represents k now (with_receiptsKey rk r) s -> bound_to s k b p it -> reads_item v it' ->
  item_fine it' -> SteerQueueItem.clientSteerId it' = SteerQueueItem.clientSteerId it ->
  represents k now (with_receiptsKey (update_row lua_number (v, p.2) rk) r)
    match b with Some c => update_receipt k c (set_item_of_receipt it') s | None => s end.
Proof.
  intros H (_ & _ & Hb) Hv Hf Hcl. unfold update_row. cbn [fst snd].
  destruct b as [c|]; [|by rewrite Hb].
  destruct Hb as (Hc & w & e & it0 & -> & He & Hr). rewrite (ri_client _ _ Hv), Hcl, Hc.
  cbn [fmap option_fmap option_map as_string].
  pose proof (re_receipts _ _ _ _ H c) as Hm. rewrite He in Hm.
  destruct (HGET c (receiptsKey (with_receiptsKey rk r))) as [raw|]; [|done].
  destruct Hm as ((v' & _ & _ & Hrf) & Hx & Hcid).
  apply (represents_receipt k now (with_receiptsKey rk r) s c _ e _ (encode (jset w "item" v)) H He).
  - intros c'. cbn [receiptsKey with_receiptsKey]. apply HGET_HSET.
  - split_and!; [|done|done]. apply receipt_row_encode; [exact (receipt_set_item w _ v it' Hr Hv)|].
    by apply rebound_fine.
Qed.

(** An outcome of arming. *)
Definition arm_answers (a : ArmAnswer) (o : SteerArmResult) : Prop :=
  match a, o with
  | ArmedItem v, Armed revision it =>
      reads_item v it /\ SteerQueueItem.preemptRevision it = Some revision
  | NotArmed true, ArmMissing => True
  | NotArmed false, ArmIncapable => True
  | _, _ => False
  end.

Lemma arm_refines k now r s id e :
  represents k now r s -> Forall room (queue_of s k) ->
  let '(a, r') := armSteerVersioned lua_number id e r in
  let '(o, s') := StoreSteers.armSteerVersioned k id e s in
  same_result arm_answers a o /\ represents k now r' s'.
Proof.
  intros H Hroom. unfold armSteerVersioned, STEER_ARM. rewrite (guarded k now r s e _ _ H).
  unfold StoreSteers.armSteerVersioned. pose proof (steerable_spec k now r s e H) as Hs.
  destruct (steerable_job s k e) as [j|]; [|by split].
  destruct Hs as (Hjob & Hj & _). cbv zeta.
  pose proof (re_queue _ _ _ _ H) as Hq. pose proof (re_ids _ _ _ _ H) as Hnd.
  pose proof (scan_spec (fun _ => Ok None) id 0 _ _ Hq Hnd) as Hscan.
  change (find_index (fun i => bool_decide (SteerQueueItem.steerId i = id)) (queue_of s k)) with
    (find_index (with_id id) (queue_of s k)).
  destruct (find_index (with_id id) (queue_of s k)) as [i|]; [|rewrite Hscan; by split].
  destruct Hscan as (w & it & Hi & Hw & Hf & ->). cbn [Nat.add]. rewrite Hi.
  rewrite (capable_spec r s k j Hj). destruct (bool_decide (Job.preemptCapable j = Some true));
    cbn [negb]; [|by split].
  pose proof (mutation_spec k now r s j w it "arming" H Hjob Hw Hf) as Hmut.
  destruct (queuedReceiptForMutation s k j it "arming") as [b|x].
  2: { destruct Hmut as (x' & ->). by split. }
  destruct Hmut as (rc & -> & Hb).
  assert (Hr : room it).
  { rewrite Forall_forall in Hroom. apply Hroom. by eapply list_elem_of_lookup_2. }
  set (v := jset (bump_revision w) "preempt" (JBool true)). set (it' := bump_preempt (Some true) it).
  assert (Hv : reads_item v it') by exact (reads_preempt _ _ true (bump_spec w it Hw)).
  assert (Hf' : item_fine it') by (by apply bump_fine).
  split; [split; [by apply reads_cjson | done]|].
  pose proof (represents_insert k now r s i v it it' H Hi eq_refl Hv Hf') as Hset.
  rewrite <- (with_same_receipts (with_steersKey _ r)) in Hset.
  exact (update_step k now _ _ _ b (w, rc) it it' v Hset Hb Hv Hf' eq_refl).
Qed.

(** ** Downgrade *)

(** The rows to change, and what each is bound to. *)
Definition marked (s : Store) (k : string) (j : Job.t) (m : option (json * option json))
    (it : SteerQueueItem.t) : Prop :=
  if is_preempt it
  then exists p b, m = Some p /\ bound_to s k b p it /\
         queuedReceiptForMutation s k j it "downgrading" = Ok b
  else m = None.

Lemma downgrade_receipt k now r s j w it :
  represents k now r s -> mget (jobs s) k = Some j -> job_row r s k j -> reads_item w it -> item_fine it ->
  match queuedReceiptForMutation s k j it "downgrading" with
  | Ok b => exists rc, (if protocolV2 r then receipt_for r "queued" w else Ok None) = Ok rc /\
                       bound_to s k b (w, rc) it
  | Throw _ => exists x, (if protocolV2 r then receipt_for r "queued" w else Ok None) = Throw x
  end.
Proof.
  intros H Hjob Hj Hw Hf. pose proof (mutation_spec k now r s j w it "downgrading" H Hjob Hw Hf) as Hm.
  unfold mutation_receipt in Hm. destruct (protocolV2 r); cbn [andb] in Hm; [|exact Hm].
  destruct (truthy (jfield w "clientSteerId")) eqn:Ht.
  - rewrite (ri_client _ _ Hw) in Hm, Ht.
    destruct (SteerQueueItem.clientSteerId it) as [c|] eqn:Hc; [|done].
    cbn [fmap option_fmap option_map] in Hm. unfold is_string in Hm. cbn [as_string] in Hm.
    rewrite bool_decide_false in Hm by (intros [= ->]; by apply (if_client _ Hf)). exact Hm.
  - unfold receipt_for. rewrite Ht. exact Hm.
Qed.

Lemma downgradable_spec k now r s j rows items :
  represents k now r s -> mget (jobs s) k = Some j -> job_row r s k j -> Forall2 row rows items ->
  match mapM (fun i => match queuedReceiptForMutation s k j i "downgrading" with
                       | Ok b => Some b
                       | Throw _ => None
                       end) (filter (fun i => is_preempt i = true) items) with
  | Some bounds => exists marks, downgradable r rows = Ok marks /\ Forall2 (marked s k j) marks items
  | None => exists x, downgradable r rows = Throw x
  end.
Proof.
  intros H Hjob Hj. induction 1 as [|t it rows items (w & -> & Hw & Hf) _ IH]; [by exists []|].
  cbn [downgradable JSON_parse]. rewrite (ri_preempt _ _ Hw), filter_cons.
  assert (Hp : lua_eq (JBool <$> SteerQueueItem.preempt it) (Some (JBool true)) = is_preempt it).
  { unfold is_preempt. destruct (SteerQueueItem.preempt it) as [[]|]; by cbn. }
  rewrite Hp. pose proof (downgrade_receipt k now r s j w it H Hjob Hj Hw Hf) as Hr.
  assert (Hmark : forall m, (is_preempt it = true -> marked s k j m it) ->
    (is_preempt it = false -> m = None) -> marked s k j m it).
  { intros m H1 H2. destruct (is_preempt it) eqn:E; [auto|]. unfold marked. by rewrite E, H2. }
  destruct (is_preempt it) eqn:E.
  - rewrite decide_True by done. cbn [mapM]. 
    destruct (queuedReceiptForMutation s k j it "downgrading") as [b|x] eqn:Eb.
    + destruct Hr as (rc & -> & Hb). cbn [mbind option_bind].
      destruct (mapM _ (filter _ items)) as [bounds|]; cbn [mret option_ret].
      * destruct IH as (marks & -> & Hm). eexists. split; [done|]. constructor; [|done].
        unfold marked. rewrite E. by exists (w, rc), b.
      * destruct IH as (x & ->). by eexists.
    + destruct Hr as (y & ->). by eexists.
  - rewrite decide_False by done. destruct (mapM _ (filter _ items)) as [bounds|].
    + destruct IH as (marks & -> & Hm). eexists. split; [done|]. constructor; [|done].
      unfold marked. by rewrite E.
    + destruct IH as (x & ->). by eexists.
Qed.

Lemma downgraded_spec v it :
  reads_item v it -> reads_item (downgraded v) (bump_preempt None it).
Proof. intros Hv. exact (bump_spec _ _ (reads_no_preempt v it Hv)). Qed.

(** The rows after the change. *)
Lemma downgraded_rows s k j rows items marks :
  Forall2 row rows items -> Forall2 (marked s k j) marks items -> Forall room items ->
  Forall2 row (zip_with (fun t m => match m with Some p => encode (downgraded p.1) | None => t end)
                 rows marks)
    ((fun i => if is_preempt i then bump_preempt None i else i) <$> items).
Proof.
  intros Hrows. revert marks. induction Hrows as [|t it rows items Ht _ IH]; intros marks Hm Hr.
  - apply Forall2_nil_inv_r in Hm as ->. constructor.
  - apply Forall2_cons_inv_r in Hm as (m & marks' & Hm & Hms & ->).
    apply Forall_cons in Hr as [Hr Hrs]. cbn. constructor; [|by apply IH].
    unfold marked in Hm. destruct (is_preempt it); [|by subst].
    destruct Hm as (p & b & -> & (Hv & Hf & _) & _).
    apply row_encode; [by apply downgraded_spec | by apply bump_fine].
Qed.

(** The changed items and their receipts, pairwise. *)
Definition changed_with (s : Store) (k : string) (p : json * option json)
    (q : option string * SteerQueueItem.t) : Prop :=
  reads_item p.1 q.2 /\ item_fine q.2 /\
  exists w it, bound_to s k q.1 (w, p.2) it /\
    SteerQueueItem.clientSteerId q.2 = SteerQueueItem.clientSteerId it.

Lemma changed_pairs s k j marks items :
  Forall2 (marked s k j) marks items -> Forall room items ->
  exists bounds,
    mapM (fun i => match queuedReceiptForMutation s k j i "downgrading" with
                   | Ok b => Some b
                   | Throw _ => None
                   end) (filter (fun i => is_preempt i = true) items) = Some bounds /\
    Forall2 (changed_with s k) ((fun p => (downgraded p.1, p.2)) <$> omap id marks)
      (zip bounds (bump_preempt None <$> filter (fun i => is_preempt i = true) items)).
Proof.
  induction 1 as [|m it marks items Hm _ IH]; intros Hr; [by exists []|].
  apply Forall_cons in Hr as [Hr Hrs]. destruct (IH Hrs) as (bounds & Hb & Hl).
  rewrite filter_cons. unfold marked in Hm. destruct (is_preempt it) eqn:E.
  - destruct Hm as ([w rc] & b & -> & Hp & Hq). exists (b :: bounds).
    rewrite decide_True by done. split; [cbn [mapM]; rewrite Hq; cbn [mbind option_bind]; by rewrite Hb|].
    cbn. constructor; [|exact Hl]. pose proof Hp as (Hv & Hf & _).
    split_and!; [by apply downgraded_spec | by apply bump_fine|]. by exists w, it.
  - subst m. exists bounds. rewrite decide_False by done. by split.
Qed.

Lemma changed_update k c it' s p q :
  changed_with s k p q -> changed_with (update_receipt k c (set_item_of_receipt it') s) k p q.
Proof.
  intros (Hv & Hf & w & it & (Hw & Hfi & Hb) & Hc). split_and!; [done | done|]. exists w, it.
  split; [|done]. split_and!; [done | done|]. destruct q.1 as [c'|]; [|done].
  destruct Hb as (Hcl & v & e & it0 & Hp & He & Hr). split; [done|].
  rewrite receipt_of_updated, He. case_decide; [|by exists v, e, it0].
  exists v, (set_item_of_receipt it' e), it0. by split_and!.
Qed.

Lemma update_all k now r rk s ps qs :
  Forall2 (changed_with s k) ps qs -> represents k now (with_receiptsKey rk r) s ->
  represents k now (with_receiptsKey (foldl (fun k p => update_row lua_number p k) rk ps) r)
    (foldl (fun s (p : option string * SteerQueueItem.t) =>
              match p.1 with
              | Some c => update_receipt k c (set_item_of_receipt p.2) s
              | None => s
              end) s qs).
Proof.
  intros Hl. revert rk s qs Hl. induction ps as [|p ps IH]; intros rk s qs Hl H.
  { by apply Forall2_nil_inv_l in Hl as ->. }
  apply Forall2_cons_inv_l in Hl as (q & qs' & Hp & Hl & ->). cbn [foldl]. apply IH.
  - eapply Forall2_impl; [exact Hl|]. intros p' q' Hc. destruct q.1; [by apply changed_update | done].
  - destruct Hp as (Hv & Hf & w & it & Hb & Hc).
    pose proof (update_step k now r rk s q.1 (w, p.2) it q.2 p.1 H Hb Hv Hf Hc) as Hs.
    cbn [snd] in Hs. destruct p. exact Hs.
Qed.

Lemma changed_answers s k ps qs :
  Forall2 (changed_with s k) ps qs ->
  Forall2 reads_item (omap JSON_parse ((fun p => encode p.1) <$> ps)) (snd <$> qs).
Proof.
  induction 1 as [|p q ps qs (Hv & Hf & _) _ IH]; [done|]. cbn. constructor; [by apply reads_cjson | done].
Qed.

Lemma downgrade_refines k now r s e :
  represents k now r s -> Forall room (queue_of s k) ->
  let '(a, r') := downgradeSteerPreempts lua_number e r in
  let '(o, s') := StoreSteers.downgradeSteerPreempts k e s in
  same_result (option_Forall2 (Forall2 reads_item)) a o /\ represents k now r' s'.
Proof.
  intros H Hroom. unfold downgradeSteerPreempts, STEER_DOWNGRADE_PREEMPTS,
    StoreSteers.downgradeSteerPreempts. pose proof (re_job _ _ _ _ H) as Hj.
  destruct (mget (jobs s) k) as [j|] eqn:Hjob.
  2: { rewrite Hj. destruct (negb (createdAt_guard _ r)); [by split; [constructor|]|].
       rewrite bool_decide_true by done. by split; [constructor|]. }
  rewrite (guard_epoch r s k j e Hj). destruct (epoch_matches e (Job.createdAt j)); cbn [negb orb].
  2: by split; [constructor|].
  assert (Hne : jobHash r <> None).
  { intros E. pose proof (jr_createdAt _ _ _ _ Hj) as Hc. unfold hget_job, HGET in Hc. by rewrite E in Hc. }
  rewrite bool_decide_false by done. rewrite (capable_spec r s k j Hj).
  destruct (bool_decide (Job.preemptCapable j = Some true)); [by split; [constructor|]|]. cbv zeta.
  pose proof (re_queue _ _ _ _ H) as Hq.
  pose proof (downgradable_spec k now r s j _ _ H Hjob Hj Hq) as Hd.
  destruct (mapM _ (filter _ (queue_of s k))) as [bounds|] eqn:Em.
  2: { destruct Hd as (x & ->). by split. }
  destruct Hd as (marks & -> & Hm).
  destruct (changed_pairs s k j marks _ Hm Hroom) as (bounds' & Em' & Hch).
  rewrite Em in Em'. injection Em' as <-. split.
  { cbn [parseSteerItems same_result]. constructor. pose proof (changed_answers _ _ _ _ Hch) as Hans.
    assert (Hlen : length bounds = length (filter (fun i => is_preempt i = true) (queue_of s k)))
      by (apply mapM_Some in Em; symmetry; by eapply Forall2_length).
    rewrite snd_zip in Hans; [exact Hans|]. rewrite length_fmap. lia. }
  set (rows := (fun key => Key.mk _ (Key.ttl key)) <$> steersKey r).
  assert (Hrows : LRANGE rows = zip_with (fun t m => match m with
      Some p => encode (downgraded p.1) | None => t end) (LRANGE (steersKey r)) marks).
  { subst rows. destruct (steersKey r) as [key|]; [done|]. done. }
  set (s1 := if mhas (steerQueues s) k then _ else s).
  assert (Hs1 : represents k now (with_steersKey rows r) s1).
  { assert (Hset : represents k now (with_steersKey rows r)
      (set_queue k ((fun i => if is_preempt i then bump_preempt None i else i) <$> queue_of s k) s)).
    { apply represents_queue; [done | rewrite Hrows; by eapply downgraded_rows |].
      unfold steer_ids. rewrite <- list_fmap_compose. erewrite list_fmap_ext;
        [apply (re_ids _ _ _ _ H)|]. intros n it _. cbn. by destruct (is_preempt it). }
    subst s1. unfold mhas. case_bool_decide as Hh; [exact Hset|].
    apply (represents_ext k now _ _ s Hset); try done. rewrite queue_of_set. unfold queue_of.
    destruct (mget (steerQueues s) k); [|done]. exfalso. by apply Hh. }
  assert (Hch1 : Forall2 (changed_with s1 k) ((fun p => (downgraded p.1, p.2)) <$> omap id marks)
    (zip bounds (bump_preempt None <$> filter (fun i => is_preempt i = true) (queue_of s k)))).
  { subst s1. by destruct (mhas (steerQueues s) k). }
  rewrite <- (with_same_receipts (with_steersKey rows r)) in Hs1.
  exact (update_all k now _ _ s1 _ _ Hch1 Hs1).
Qed.

(** ** Reads *)

Lemma peek_refines k now r s e :
  represents k now r s ->
  match (peekSteers e r).1 with
  | Ok l => Forall2 reads_item l (StoreSteers.peekSteers s k e)
  | Throw _ => False
  end.
Proof.
  intros H. pose proof (parsed_rows _ _ (re_queue _ _ _ _ H)) as Hq. unfold peekSteers, StoreSteers.peekSteers.
  destruct e as [z|]; [|exact Hq]. unfold STEER_PEEK. pose proof (re_job _ _ _ _ H) as Hj.
  destruct (mget (jobs s) k) as [j|]; cbn [fmap option_fmap option_map].
  - rewrite (jr_createdAt _ _ _ _ Hj). destruct (decide (Job.createdAt j = z)) as [->|Hne].
    + rewrite decide_True, bool_decide_true by done. exact Hq.
    + rewrite decide_False, bool_decide_false by (intros [= E]; first [done | by apply (inj pretty) in E]).
      constructor.
  - unfold hget_job, HGET. rewrite Hj. rewrite decide_False by done.
    rewrite bool_decide_false by done. constructor.
Qed.

Lemma peek_claimed_refines k now r s e :
  represents k now r s ->
  match (peekClaimedSteers e r).1 with
  | Ok l => Forall2 reads_item l (StoreSteers.peekClaimedSteers s k e)
  | Throw _ => False
  end.
Proof.
  intros H. pose proof (parsed_rows _ _ (re_claims _ _ _ _ H)) as Hq.
  unfold peekClaimedSteers, StoreSteers.peekClaimedSteers, STEER_PEEK_CLAIMED, claimedSteerItems.
  pose proof (re_job _ _ _ _ H) as Hj. destruct (mget (jobs s) k) as [j|].
  - rewrite (guard_epoch r s k j e Hj), (v2_spec r s k j Hj).
    destruct (epoch_matches e (Job.createdAt j)), (usesReceiptSafeProtocol (Some j)); try constructor.
    exact Hq.
  - assert (Hv : protocolV2 r = false) by (unfold protocolV2, hget_job, HGET; by rewrite Hj).
    rewrite Hv, orb_true_r. constructor.
Qed.
End refine.
