(* ===== verification/RedisStore.v ===== *)
(** * The Redis store implements the steering contract of the in-memory store

    Sequences of calls made to both stores: every call is answered alike, whatever came before. *)

From stdpp Require Import pretty.
From S2P Require Import Prelude JsMap Json StreamTypes SteerRecovery StoreState StoreSteers StoreParked.
From S2P Require Import StoreJobs StoreCleanup StoreFrame StoreRun StoreEpochs StoreParking StoreRecovery StoreQueue.
From S2P Require Import RedisScripts RedisLua RedisJobs RedisSteers RedisRows RedisAdmission RedisDrain RedisEdits.

(** ** Serialized arguments *)

(** [JSON.stringify] of an item and of a receipt input. *)
Definition item_json (it : SteerQueueItem.t) : json :=
  JObj ([("steerId", JStr (SteerQueueItem.steerId it))] ++
        opt_prop "clientSteerId" (JStr <$> SteerQueueItem.clientSteerId it) ++
        [("text", JStr (SteerQueueItem.text it)); ("userId", JStr (SteerQueueItem.userId it));
         ("createdAt", jint (SteerQueueItem.createdAt it))] ++
        opt_prop "files" (JArr <$> SteerQueueItem.files it) ++
        opt_prop "preempt" (JBool <$> SteerQueueItem.preempt it) ++
        opt_prop "preemptRevision" (jint <$> SteerQueueItem.preemptRevision it)).

Definition input_json (i : SteerReceiptInput.t) : json :=
  JObj ([("clientSteerId", JStr (SteerReceiptInput.clientSteerId i));
         ("fingerprint", JStr (SteerReceiptInput.fingerprint i));
         ("userId", JStr (SteerReceiptInput.userId i))] ++
        opt_prop "tenantId" (JStr <$> SteerReceiptInput.tenantId i) ++
        opt_prop "agentId" (JStr <$> SteerReceiptInput.agentId i) ++
        opt_prop "endpoint" (JStr <$> SteerReceiptInput.endpoint i) ++
        [("generationCreatedAt", jint (SteerReceiptInput.generationCreatedAt i))]).

Lemma reads_item_json it : reads_item (item_json it) it.
Proof. destruct it as [? [] ? ? ? [] [] []]; by split. Qed.
Lemma reads_input_json i :
  small (SteerReceiptInput.generationCreatedAt i) -> reads_input (input_json i) i.
Proof. intros Hs. destruct i as [? ? ? [] [] [] ?]; by split. Qed.

(** ** Calls *)

(** The calls of the steering contract that both stores make on one stream. *)
Inductive Op :=
| EnqueueVersioned (item : SteerQueueItem.t) (wantsPreempt : bool) (expected : option Z)
| EnqueueWithReceipt (item : SteerQueueItem.t) (input : SteerReceiptInput.t) (wantsPreempt : bool)
    (expected : option Z)
| GetReceipt (clientSteerId : string)
| Drain (expected : option Z)
| RestoreClaimed (items : list SteerQueueItem.t) (expected : option Z)
| Remove (steerId : string) (expected : option Z)
| Arm (steerId : string) (expected : option Z)
| Downgrade (expected : option Z)
| Peek (expected : option Z)
| PeekClaimed (expected : option Z).

(** What the Redis store answers; values are parsed JSON. *)
Inductive RedisOut :=
| RAnswer (a : result string Answer)
| RReceipt (v : result string (option json))
| RItems (l : result string (list json))
| RFlag (b : result string bool)
| RArm (a : result string ArmAnswer)
| RChanged (l : result string (option (list json))).

(** What the in-memory store answers. *)
Inductive MemoryOut :=
| MAnswer (o : SteerEnqueueOutcome)
| MReceipt (r : option SteerReceipt.t)
| MItems (l : result StoreError (list SteerQueueItem.t))
| MFlag (b : result StoreError bool)
| MArm (a : result StoreError SteerArmResult)
| MChanged (l : result StoreError (option (list SteerQueueItem.t))).

(** The same answer: equal values, or a failure on both sides. *)
Definition agree (a : RedisOut) (o : MemoryOut) : Prop :=
  match a, o with
  | RAnswer (Ok a), MAnswer o => answers a o
  | RReceipt (Ok (Some v)), MReceipt (Some rc) => reads_receipt v rc
  | RReceipt (Ok None), MReceipt None => True
  | RItems a, MItems o => same_result (Forall2 reads_item) a o
  | RFlag a, MFlag o => same_result eq a o
  | RArm a, MArm o => same_result arm_answers a o
  | RChanged a, MChanged o => same_result (option_Forall2 (Forall2 reads_item)) a o
  | _, _ => False
  end.

Section stores.
Variable lua_number : jnum -> jnum.
Context {lua : LuaNumber lua_number}.
Variable ttl : Z.

Definition call_redis (op : Op) (r : Rows) : RedisOut * Rows :=
  match op with
  | EnqueueVersioned it w e =>
      let '(a, r') := enqueueSteerVersioned lua_number ttl (item_json it) w e r in (RAnswer a, r')
  | EnqueueWithReceipt it i w e =>
      let '(a, r') := enqueueSteerWithReceipt lua_number ttl (item_json it) (input_json i)
                        (SteerReceiptInput.clientSteerId i) w e r in (RAnswer a, r')
  | GetReceipt c => let '(a, r') := getSteerReceipt lua_number c r in (RReceipt a, r')
  | Drain e => let '(a, r') := drainSteers lua_number ttl e r in (RItems a, r')
  | RestoreClaimed items e =>
      let '(a, r') := restoreClaimedSteers lua_number ttl (item_json <$> items) e r in (RFlag a, r')
  | Remove id e => let '(a, r') := removeSteer lua_number id e r in (RFlag a, r')
  | Arm id e => let '(a, r') := armSteerVersioned lua_number id e r in (RArm a, r')
  | Downgrade e => let '(a, r') := downgradeSteerPreempts lua_number e r in (RChanged a, r')
  | Peek e => let '(a, r') := peekSteers e r in (RItems a, r')
  | PeekClaimed e => let '(a, r') := peekClaimedSteers e r in (RItems a, r')
  end.

Definition call_memory (k : string) (now : Z) (op : Op) (s : Store) : MemoryOut * Store :=
  match op with
  | EnqueueVersioned it w e =>
      let '(o, s') := StoreSteers.enqueueSteerVersioned k it w e s in (MAnswer o, s')
  | EnqueueWithReceipt it i w e =>
      let '(o, s') := StoreSteers.enqueueSteerWithReceipt k it i w e now s in (MAnswer o, s')
  | GetReceipt c => let '(o, s') := StoreSteers.getSteerReceipt k c now s in (MReceipt o, s')
  | Drain e => let '(o, s') := StoreSteers.drainSteers k e now s in (MItems o, s')
  | RestoreClaimed items e =>
      let '(o, s') := StoreSteers.restoreClaimedSteers k items e s in (MFlag (Ok o), s')
  | Remove id e => let '(o, s') := StoreSteers.removeSteer k id e s in (MFlag o, s')
  | Arm id e => let '(o, s') := StoreSteers.armSteerVersioned k id e s in (MArm o, s')
  | Downgrade e => let '(o, s') := StoreSteers.downgradeSteerPreempts k e s in (MChanged o, s')
  | Peek e => (MItems (Ok (StoreSteers.peekSteers s k e)), s)
  | PeekClaimed e => (MItems (Ok (StoreSteers.peekClaimedSteers s k e)), s)
  end.

(** What callers respect: new items are fine and have an id that is not queued; items are handed
    back as they were claimed; an item is cancelled while its job is there; revisions have room. *)
Definition respected (k : string) (op : Op) (s : Store) : Prop :=
  match op with
  | EnqueueVersioned it _ _ =>
      item_fine (lua_number := lua_number) it /\ SteerQueueItem.steerId it ∉ steer_ids (queue_of s k)
  | EnqueueWithReceipt it i _ _ =>
      item_fine (lua_number := lua_number) it /\ SteerQueueItem.steerId it ∉ steer_ids (queue_of s k) /\
      small (SteerReceiptInput.generationCreatedAt i)
  | RestoreClaimed items _ => items <> [] /\ returnable (lua_number := lua_number) s k items
  | Remove _ _ => is_Some (mget (jobs s) k)
  | Arm _ _ | Downgrade _ => Forall room (queue_of s k)
  | GetReceipt _ | Drain _ | Peek _ | PeekClaimed _ => True
  end.

(** No receipt of the stream has expired. *)
Definition receipts_live (k : string) (now : Z) (s : Store) : Prop :=
  forall c e, receipt_of s k c = Some e -> expired (ReceiptEntry.expiresAt e) now = false.

Lemma call_refines k now r s op :
  represents (lua_number := lua_number) k now r s -> respected k op s ->
  agree (call_redis op r).1 (call_memory k now op s).1 /\
  represents (lua_number := lua_number) k now (call_redis op r).2 (call_memory k now op s).2.
Proof.
  intros H Hop. destruct op as [it w e|it i w e|c|e|items e|id e|id e|e|e|e]; cbn [call_redis call_memory].
  - destruct Hop as [Hf Hn].
    pose proof (enqueue_refines ttl k now r s _ it w e H (reads_item_json it) Hf Hn) as Hr.
    destruct (enqueueSteerVersioned _ _ _ _ _ r), (StoreSteers.enqueueSteerVersioned k it w e s).
    destruct Hr as [(x & -> & Ha) Hr]. by split.
  - destruct Hop as (Hf & Hn & Hs).
    pose proof (receipt_refines ttl k now r s _ it _ i w e H (reads_item_json it) Hf
      (reads_input_json i Hs) Hn) as Hr.
    destruct (enqueueSteerWithReceipt _ _ _ _ _ _ _ r),
      (StoreSteers.enqueueSteerWithReceipt k it i w e now s).
    destruct Hr as [(x & -> & Ha) Hr]. by split.
  - pose proof (get_receipt_refines k now r s c H) as Hr.
    destruct (getSteerReceipt _ c r), (StoreSteers.getSteerReceipt k c now s) as [o s'].
    destruct Hr as [(x & -> & Ha) Hr]. split; [|done]. by destruct x, o.
  - pose proof (drain_refines ttl k now r s e H) as Hr.
    by destruct (drainSteers _ _ e r), (StoreSteers.drainSteers k e now s).
  - destruct Hop as [Hne Hret].
    assert (Hvs : Forall2 reads_item (item_json <$> items) items).
    { clear. induction items as [|it items IH]; constructor; [apply reads_item_json | done]. }
    pose proof (restore_refines ttl k now r s _ items e H Hvs Hne Hret) as Hr.
    destruct (restoreClaimedSteers _ _ _ e r), (StoreSteers.restoreClaimedSteers k items e s).
    destruct Hr as [-> Hr]. by split.
  - pose proof (remove_refines k now r s id e H Hop) as Hr.
    by destruct (removeSteer _ id e r), (StoreSteers.removeSteer k id e s).
  - pose proof (arm_refines k now r s id e H Hop) as Hr.
    by destruct (armSteerVersioned _ id e r), (StoreSteers.armSteerVersioned k id e s).
  - pose proof (downgrade_refines k now r s e H Hop) as Hr.
    by destruct (downgradeSteerPreempts _ e r), (StoreSteers.downgradeSteerPreempts k e s).
  - pose proof (peek_refines k now r s e H) as Hr. unfold peekSteers in *. cbn [fst snd] in *.
    split; [|done]. by destruct (parseSteerItems _).
  - pose proof (peek_claimed_refines k now r s e H) as Hr. unfold peekClaimedSteers in *.
    cbn [fst snd] in *. split; [|done]. by destruct (parseSteerItems _).
Qed.

Lemma represents_now k now now' r s :
  represents (lua_number := lua_number) k now r s -> receipts_live k now' s ->
  represents (lua_number := lua_number) k now' r s.
Proof.
  intros [H1 H2 H3 H4 H5 H6 H7 H8] Hl. split; try done. intros c. specialize (H5 c).
  unfold receipt_match in *. destruct (HGET c (receiptsKey r)), (receipt_of s k c) eqn:E; try done.
  destruct H5 as (Ha & _ & Hc). split_and!; [done | by apply (Hl c) | done].
Qed.

(** Calls made one after the other, each at its time. *)
Fixpoint redis_run (calls : list (Z * Op)) (r : Rows) : list RedisOut :=
  match calls with
  | [] => []
  | (_, op) :: calls => let '(a, r') := call_redis op r in a :: redis_run calls r'
  end.
Fixpoint memory_run (k : string) (calls : list (Z * Op)) (s : Store) : list MemoryOut :=
  match calls with
  | [] => []
  | (now, op) :: calls => let '(o, s') := call_memory k now op s in o :: memory_run k calls s'
  end.
(** The calls are made as callers make them, before receipts expire. *)
Fixpoint well_called (k : string) (calls : list (Z * Op)) (s : Store) : Prop :=
  match calls with
  | [] => True
  | (now, op) :: calls =>
      respected k op s /\ receipts_live k now s /\ well_called k calls (call_memory k now op s).2
  end.
End stores.

(** C9. The Redis store and the in-memory store are interchangeable for steering: started on keys
    that represent the same stream, they give the same answers to every sequence of admissions with
    and without receipts, retries, drains, hand-backs, cancellations, arms, downgrades and reads, as
    long as receipts have not expired and callers respect what the routes respect: an admitted steer
    has an id that is not in the queue, ids that are not empty, times and revisions of fourteen
    digits and files that the script's JSON library writes back unchanged; a cancellation finds the
    job; a hand-back is not empty, names no steer twice and gives back claimed steers as they were
    claimed; arms and downgrades leave revisions within fourteen digits. *)
Theorem redis_steering_refines_memory lua_number (lua : LuaNumber lua_number) ttl k now calls r s
    (Hs : represents (lua_number := lua_number) k now r s)
    (Hc : well_called lua_number k calls s) :
  Forall2 agree (redis_run lua_number ttl calls r) (memory_run k calls s).
Proof.
  revert now r s Hs Hc. induction calls as [|[t op] calls IH]; intros now r s Hs Hc; [constructor|].
  destruct Hc as (Hop & Hl & Hc). pose proof (represents_now lua_number k now t r s Hs Hl) as Ht.
  destruct (call_refines lua_number ttl k t r s op Ht Hop) as [Ha Hr]. cbn [redis_run memory_run].
  destruct (call_redis lua_number ttl op r) as [a r'], (call_memory k t op s) as [o s'].
  constructor; [done | by apply (IH t)].
Qed.

(** ** An evaluated instance *)

Lemma receipts_live_check k now s :
  forallb (fun e => negb (expired (ReceiptEntry.expiresAt e.2) now)) (receipts_of s k) = true ->
  receipts_live k now s.
Proof.
  intros H c e He. rewrite forallb_forall in H. apply mget_elem, list_elem_of_In in He.
  specialize (H _ He). by rewrite negb_true_iff in H.
Qed.

Module RedisDemo.
(** A running generation that can be preempted, on both sides. *)
Definition rows : Rows :=
  with_jobHash (Some (Key.mk [("createdAt", Word "10"); ("status", Word "running");
                              ("preemptCapable", Word "1");
                              ("generationProtocolVersion", Word "2")] None)) no_rows.
Definition create : CreateArgs.t :=
  CreateArgs.mk "s1" "u1" None None
    {| JobMetadataPatch.empty with JobMetadataPatch.preemptCapable := Some true |}
    None None None None None None None false.
Definition store : Store := run_ops [(CreateBegin create, 10%Z); (CreateCommit create, 10%Z)] Demo.store.

Definition st1 : SteerQueueItem.t := Demo.item "st1" (Some "c1") "u1".
Definition st2 : SteerQueueItem.t := Demo.item "st2" None "u1".
Definition calls : list (Z * Op) :=
  [(11, EnqueueWithReceipt st1 (Demo.input "c1" "u1" 10) false None);
   (12, EnqueueVersioned st2 false (Some 10)); (13, Drain (Some 10)); (14, PeekClaimed None);
   (15, RestoreClaimed [st1; st2] None); (16, Arm "st1" (Some 10)); (17, Remove "st2" None);
   (18, GetReceipt "c1"); (19, Downgrade None); (20, Peek (Some 10)); (21, Drain (Some 9))]%Z.
End RedisDemo.

#[local] Instance room_dec it : Decision (room it).
Proof. unfold room, small. apply _. Defined.

Lemma demo_represented :
  represents (lua_number := fun n => n) "s1" 10 RedisDemo.rows RedisDemo.store.
Proof.
  split; try (by vm_compute); try by (vm_compute; constructor).
  - destruct (mget (jobs RedisDemo.store) "s1") as [j|] eqn:E; [|by vm_compute in E].
    vm_compute in E. injection E as <-. split; try by vm_compute.
    intros _. split; [by vm_compute | by intros ?%elem_of_nil].
  - intros c. vm_compute. split; by intros [].
Qed.

Lemma demo_fine1 : item_fine (lua_number := fun n => n) RedisDemo.st1.
Proof. by split. Qed.
Lemma demo_fine2 : item_fine (lua_number := fun n => n) RedisDemo.st2.
Proof. by split. Qed.

Lemma redis_steering_refines_memory_witness :
  Forall2 agree (redis_run (fun n => n) 600 RedisDemo.calls RedisDemo.rows)
    (memory_run "s1" RedisDemo.calls RedisDemo.store).
Proof.
  apply (redis_steering_refines_memory (fun n => n) {| lua_number_exact := fun z _ => eq_refl |}
           600 "s1" 10); [apply demo_represented|].
  unfold RedisDemo.calls. cbn [well_called].
  repeat (refine (conj _ (conj (receipts_live_check _ _ _ _) _)); [|vm_compute; reflexivity|]);
    cbn [respected]; try exact I.
  - split; [by apply demo_fine1|]. split; [|by vm_compute]. by apply (bool_decide_unpack _); vm_compute.
  - split; [by apply demo_fine2|]. by apply (bool_decide_unpack _); vm_compute.
  - split; [done|]. split; [by apply (bool_decide_unpack _); vm_compute|].
    split; [|by vm_compute]. apply Forall_cons; split; [apply demo_fine1|].
    apply Forall_singleton, demo_fine2.
  - by apply (bool_decide_unpack _); vm_compute.
  - vm_compute. eauto.
  - by apply (bool_decide_unpack _); vm_compute.
Defined.
