(* ===== verification/RedisLeftovers.v ===== *)
(** * Parked steers in Redis ([stream/implementations/RedisJobStore.ts], recovery section)

    The scripts that park, claim, consume and discard leftovers, and the methods that send them.
    A parked payload is validated by each script before it is used; what a script refuses it leaves
    in place.  [type(v) == "table"] holds of arrays and objects; an empty table of either kind has
    no element. *)

From stdpp Require Import pretty.
From S2P Require Import Prelude JsMap Json StreamTypes RedisScripts RedisLua RedisSteers.

(** ** Shapes *)

(** [isDenseArray(value)], with the elements. *)
Definition dense (v : option json) : option (list json) :=
  match v with
  | Some (JArr l) => Some l
  | Some (JObj []) => Some []
  | _ => None
  end.

(** [not v or (type(v) == "string" and v ~= "")] and the like. *)
Definition nil_or (test : json -> bool) (v : option json) : bool :=
  negb (truthy v) || match v with Some v => test v | None => false end.
Definition full_string (v : json) : bool :=
  match v with JStr s => bool_decide (s <> "") | _ => false end.
Definition is_text (v : json) : bool := match v with JStr _ => true | _ => false end.
Definition natural (v : json) : bool :=
  match v with
  | JNum (NInt z) => bool_decide (0 <= z)%Z
  | JNum (NDec m _) => bool_decide (0 <= m)%Z
  | _ => false
  end.

Definition has_id (item : json) : bool :=
  is_object item && match jfield item "steerId" with Some v => full_string v | None => false end.
Definition valid_item (item : json) : bool :=
  has_id item && nil_or full_string (jfield item "clientSteerId") &&
  nil_or is_text (jfield item "text") && nil_or natural (jfield item "createdAt") &&
  nil_or natural (jfield item "recoveringCreatedAt").

Definition valid_marker (v : option json) : bool :=
  nil_or (fun v => match v with JNum (NInt z) => bool_decide (z = 1 \/ z = 2)%Z | _ => false end) v.

(** The payload and its steers, when it has an owner, a known marker and valid steers. *)
Definition parked_shape (raw : jtext) : option (json * list json) :=
  match JSON_parse raw with
  | Some parked =>
      match dense (jfield parked "steers") with
      | Some steers =>
          if is_object parked &&
             match jfield parked "userId" with Some v => full_string v | None => false end &&
             bool_decide (steers <> []) && valid_marker (jfield parked "generationProtocolVersion") &&
             forallb valid_item steers
          then Some (parked, steers) else None
      | None => None
      end
  | None => None
  end.

(** [parked.userId == userId and (not parked.tenantId or parked.tenantId == tenantId)] *)
Definition owned_by (parked : json) (userId tenantId : string) : bool :=
  lua_eq (jfield parked "userId") (Some (JStr userId)) &&
  (negb (truthy (jfield parked "tenantId")) ||
   lua_eq (jfield parked "tenantId") (Some (JStr tenantId))).

(** [parked.generationProtocolVersion == 2] *)
Definition marked_v2 (parked : json) : bool :=
  lua_eq (jfield parked "generationProtocolVersion") (Some (jint 2)).

Definition GET_parked (r : Rows) : option jtext := Key.value <$> parkedKey r.

Section scripts.
Variable lua_number : jnum -> jnum.
Abbreviation encode := (cjson_encode lua_number).

(** [SET key value], then [PEXPIRE] with the expiry that was left. *)
Definition rewrite_parked (parked : json) (r : Rows) : Rows :=
  with_parkedKey (rewrite_key (encode parked) (parkedKey r)) r.

(** The parked steers replaced, the key gone with the last of them. *)
Definition keep_parked (parked : json) (kept : list json) (r : Rows) : Rows :=
  match kept with
  | [] => with_parkedKey None r
  | _ :: _ => rewrite_parked (jset parked "steers" (JArr kept)) r
  end.

(** ** Claim *)

(** [activeRecovery]: the generation that recovers one of the owner's steers, and which. *)
Definition recovering (userId tenantId : string) (r : Rows) : option (string * string) :=
  match hget_job "createdAt" r, hget_job "recoveredSteerId" r with
  | Some createdAt, Some steerId =>
      if bool_decide (hget_job "status" r = Some "running" \/ hget_job "status" r = Some "requires_action") &&
         protocolV2 r && bool_decide (steerId <> "") &&
         bool_decide (hget_job "userId" r = Some userId) &&
         match hget_job "tenantId" r with Some t => bool_decide (t = tenantId) | None => true end
      then Some (createdAt, steerId) else None
  | _, _ => None
  end.

(** [tostring(item.recoveringCreatedAt or "") == createdAt] and the id. *)
Definition leased_to (createdAt steerId : string) (item : json) : bool :=
  lua_eq (jfield item "steerId") (Some (JStr steerId)) &&
  bool_decide (tostring_or_empty (jfield item "recoveringCreatedAt") = Some createdAt).

Definition claim_leased (recovery : option (string * string)) (item : json) : bool :=
  match recovery with Some (createdAt, steerId) => leased_to createdAt steerId item | None => false end.

Definition retained_payload (parked : json) (leased : list json) : json :=
  JObj (opt_prop "userId" (jfield parked "userId") ++
        [("generationProtocolVersion", jint 2); ("steers", JArr leased)] ++
        (if truthy (jfield parked "tenantId") then opt_prop "tenantId" (jfield parked "tenantId") else [])).

Definition CLAIM_PARKED (userId tenantId requested : string) (r : Rows) : Reply * Rows :=
  match GET_parked r with
  | None => (RNil, r)
  | Some raw =>
      match parked_shape raw with
      | None => (RWord "", r)
      | Some (parked, steers) =>
          if negb (owned_by parked userId tenantId) then (RWord "", r)
          else
            let recovery := recovering userId tenantId r in
            let leased := filter (fun i => claim_leased recovery i = true) steers in
            let visible := (fun i => jdel i "recoveringCreatedAt") <$>
                             filter (fun i => claim_leased recovery i = false) steers in
            let legacy := negb (marked_v2 parked && bool_decide (requested = "2")) in
            let answered v := jset (jset parked "generationProtocolVersion" (jint v)) "steers" (JArr visible) in
            if legacy && bool_decide (leased = []) then
              (RPair (encode (answered 1%Z)) "1", with_parkedKey None r)
            else if bool_decide (visible = []) then (RWord "", r)
            else if legacy then
              (RPair (encode (answered 1%Z)) "1", rewrite_parked (retained_payload parked leased) r)
            else (RPair (encode (jset parked "steers" (JArr visible))) "2", r)
      end
  end.

(** ** Consume *)

(** [parked.steers] of a readable payload, dense and not empty. *)
Definition parked_steers (raw : jtext) : option (json * list json) :=
  match JSON_parse raw with
  | Some parked =>
      match dense (jfield parked "steers") with
      | Some (x :: l) => if is_object parked then Some (parked, x :: l) else None
      | _ => None
      end
  | None => None
  end.

(** The first leased item taken out; [None] when an item has no id. *)
Fixpoint take_leased (createdAt steerId : string) (found : option json) (l : list json)
  : option (option json * list json) :=
  match l with
  | [] => Some (found, [])
  | item :: l =>
      if negb (has_id item) then None
      else match found with
           | None => if leased_to createdAt steerId item
                     then take_leased createdAt steerId (Some item) l
                     else (fun p => (p.1, item :: p.2)) <$> take_leased createdAt steerId None l
           | Some _ => (fun p => (p.1, item :: p.2)) <$> take_leased createdAt steerId found l
           end
  end.

(** The receipt of a leftover that may be settled by its owner. *)
Definition settleable (receipt : json) (steerId userId tenantId : string) : bool :=
  state_is "leftover" receipt && lua_eq (jfield receipt "userId") (Some (JStr userId)) &&
  (negb (truthy (jfield receipt "tenantId")) ||
   lua_eq (jfield receipt "tenantId") (Some (JStr tenantId))) &&
  match jfield receipt "item" with
  | Some inner => truthy (Some inner) && lua_eq (jfield inner "steerId") (Some (JStr steerId))
  | None => false
  end.

(** The receipt of the consumed item: none without a client id, [None] when it does not hold. *)
Definition consumed_receipt (consumed : json) (steerId userId tenantId : string) (r : Rows)
  : option (option (string * json)) :=
  if truthy (jfield consumed "clientSteerId") then
    match as_string (jfield consumed "clientSteerId") with
    | Some c =>
        match HGET c (receiptsKey r) ≫= JSON_parse with
        | Some receipt => if settleable receipt steerId userId tenantId then Some (Some (c, receipt)) else None
        | None => None
        end
    | None => None
    end
  else Some None.

Definition settle_receipt (st : string) (found : option (string * json)) (r : Rows) : Rows :=
  match found with
  | Some (c, receipt) =>
      with_receiptsKey (HSET c (encode (jset receipt "state" (JStr st))) (receiptsKey r)) r
  | None => r
  end.

Definition CONSUME_PARKED_STEER (createdAt steerId userId tenantId : string) (r : Rows)
  : Reply * Rows :=
  if negb (bool_decide (hget_job "createdAt" r = Some createdAt /\ hget_job "userId" r = Some userId /\
                        hget_job "recoveredSteerId" r = Some steerId)) then (RInt 0, r)
  else if negb match hget_job "tenantId" r with Some t => bool_decide (t = tenantId) | None => true end
  then (RInt 0, r)
  else
    match GET_parked r with
    | None => (RInt 1, r)
    | Some raw =>
        match parked_steers raw with
        | None => (RInt 0, r)
        | Some (parked, steers) =>
            if negb (owned_by parked userId tenantId) then (RInt 0, r)
            else
              match take_leased createdAt steerId None steers with
              | Some (Some consumed, kept) =>
                  match consumed_receipt consumed steerId userId tenantId r with
                  | Some receipt =>
                      (RInt 1, settle_receipt "recovered" receipt (keep_parked parked kept r))
                  | None => (RInt 0, r)
                  end
              | _ => (RInt 0, r)
              end
        end
    end.

(** ** Discard *)

(** The items with another id; [None] when an item has no id. *)
Fixpoint without (steerId : string) (l : list json) : option (list json) :=
  match l with
  | [] => Some []
  | item :: l =>
      if negb (has_id item) then None
      else if lua_eq (jfield item "steerId") (Some (JStr steerId)) then without steerId l
      else cons item <$> without steerId l
  end.

(** The steer is being recovered by a generation of its owner. *)
Definition being_recovered (steerId userId tenantId : string) (r : Rows) : bool :=
  bool_decide (hget_job "status" r = Some "running" \/ hget_job "status" r = Some "requires_action") &&
  bool_decide (hget_job "recoveredSteerId" r = Some steerId) &&
  bool_decide (hget_job "userId" r = Some userId) &&
  match hget_job "tenantId" r with Some t => bool_decide (t = tenantId) | None => true end.

Definition DISCARD_STEER_LEFTOVER (c steerId userId tenantId expected : string) (r : Rows)
  : Reply * Rows :=
  match HGET c (receiptsKey r) ≫= JSON_parse with
  | None => (RInt 0, r)
  | Some receipt =>
      if negb (is_object receipt) then (RInt 0, r)
      else if bool_decide (expected <> "" /\
                 tostring_or_empty (jfield receipt "generationCreatedAt") <> Some expected)
      then (RInt 0, r)
      else if negb (settleable receipt steerId userId tenantId) then (RInt 0, r)
      else if being_recovered steerId userId tenantId r then (RInt 0, r)
      else
        match GET_parked r with
        | None => (RInt 1, settle_receipt "cancelled" (Some (c, receipt)) r)
        | Some raw =>
            match parked_steers raw with
            | None => (RInt 0, r)
            | Some (parked, steers) =>
                if negb (owned_by parked userId tenantId) then (RInt 0, r)
                else
                  match without steerId steers with
                  | None => (RInt 0, r)
                  | Some kept =>
                      (RInt 1, settle_receipt "cancelled" (Some (c, receipt)) (keep_parked parked kept r))
                  end
            end
        end
  end.

(** ** Park *)

Definition PARK_STEERS (expected : string) (payload : jtext) (ttl : Z) (r : Rows) : Reply * Rows :=
  if negb (createdAt_guard expected r) then (RInt 0, r)
  else
    match JSON_parse payload with
    | Some parked =>
        if is_object parked then
          let marked := jset parked "generationProtocolVersion" (jint (if protocolV2 r then 2 else 1)) in
          (RInt 1, with_parkedKey (SET (encode marked) (Some ttl)) r)
        else (RInt 0, r)
    | None => (RInt 0, r)
    end.

(** ** Methods *)

Variable completed : Z. (* [this.ttl.completed] *)

(** [PARKED_RECOVERY_TTL_S] and [parkedRecoveryTtlSeconds()] *)
Definition PARKED_RECOVERY_TTL_S : Z := 300.
Definition parkedRecoveryTtlSeconds : Z :=
  if decide (0 < completed)%Z then completed else PARKED_RECOVERY_TTL_S.

Definition parkSteers (payload : jtext) (expectedCreatedAt : option Z) : Method () := fun r =>
  (Ok tt, (PARK_STEERS (expected_arg expectedCreatedAt) payload parkedRecoveryTtlSeconds r).2).

Definition protocol_text (p : GenerationProtocolVersion) : string :=
  match p with V1 => "1" | V2 => "2" end.

Definition claimParkedSteersDetailed (ownerUserId : string) (ownerTenantId : option string)
    (requested : GenerationProtocolVersion)
  : Method (option (GenerationProtocolVersion * jtext)) := fun r =>
  let '(reply, r') := CLAIM_PARKED ownerUserId (default "" ownerTenantId) (protocol_text requested) r in
  (Ok (match reply with
       | RPair payload p => if decide (p = "2") then Some (V2, payload)
                            else if decide (p = "1") then Some (V1, payload) else None
       | _ => None
       end), r').

Definition claimParkedSteers (ownerUserId : string) (ownerTenantId : option string)
  : Method (option jtext) := fun r =>
  let '(a, r') := claimParkedSteersDetailed ownerUserId ownerTenantId V2 r in
  (match a with Ok p => Ok (snd <$> p) | Throw e => Throw e end, r').

Definition consumeParkedSteer (steerId ownerUserId : string) (ownerTenantId : option string)
    (expectedCreatedAt : Z) : Method bool := fun r =>
  let '(reply, r') := CONSUME_PARKED_STEER (pretty expectedCreatedAt) steerId ownerUserId
                        (default "" ownerTenantId) r in
  (succeeded reply, r').

Definition discardSteerLeftover (clientSteerId steerId ownerUserId : string)
    (ownerTenantId : option string) (expectedGenerationCreatedAt : option Z) : Method bool := fun r =>
  let '(reply, r') := DISCARD_STEER_LEFTOVER clientSteerId steerId ownerUserId
                        (default "" ownerTenantId) (expected_arg expectedGenerationCreatedAt) r in
  (succeeded reply, r').
End scripts.
