(* ===== verification/RedisParcels.v ===== *)
(** * Parked steers: the Redis store against the in-memory one

    A [Parcel] is what a parked payload says, whatever the order of its properties: the owner, the
    protocol and the steers with the generation that recovers each.  Both stores read and write
    payloads of the same parcel; the operations of either are operations on it. *)

From stdpp Require Import pretty.
From S2P Require Import Prelude JsMap Json StreamTypes SteerRecovery StoreState StoreSteers StoreParked.
From S2P Require Import StoreJobs StoreCleanup StoreFrame StoreRun StoreEpochs StoreParking StoreRecovery StoreQueue.
From S2P Require Import RedisScripts RedisLua RedisJobs RedisRoundTrip RedisSteers RedisRows RedisAdmission RedisDrain.
From S2P Require Import RedisLeftovers.

(** ** Parcels *)

(** A leftover: the steer (its [userId] apart) and the generation that recovers it. *)
Module Leftover.
Record t := mk { item : SteerQueueItem.t; recoveringCreatedAt : option Z }.
End Leftover.

Module Parcel.
Record t := mk {
  userId : string;
  tenantId : option string;
  protocol : GenerationProtocolVersion;
  steers : list Leftover.t
}.
End Parcel.

Definition leftover_id (l : Leftover.t) : string := SteerQueueItem.steerId (Leftover.item l).

Record reads_leftover (v : json) (l : Leftover.t) : Prop := {
  rl_object : is_plain_object v = true;
  rl_steerId : jfield v "steerId" = Some (JStr (leftover_id l));
  rl_client : jfield v "clientSteerId" = JStr <$> SteerQueueItem.clientSteerId (Leftover.item l);
  rl_text : jfield v "text" = Some (JStr (SteerQueueItem.text (Leftover.item l)));
  rl_createdAt : jfield v "createdAt" = Some (jint (SteerQueueItem.createdAt (Leftover.item l)));
  rl_files : jfield v "files" = JArr <$> SteerQueueItem.files (Leftover.item l);
  rl_preempt : jfield v "preempt" =
    if bool_decide (SteerQueueItem.preempt (Leftover.item l) = Some true) then Some (JBool true) else None;
  rl_revision : jfield v "preemptRevision" = jint <$> SteerQueueItem.preemptRevision (Leftover.item l);
  rl_recovering : jfield v "recoveringCreatedAt" = jint <$> Leftover.recoveringCreatedAt l
}.

Record reads_parcel (v : json) (p : Parcel.t) : Prop := {
  rp_object : is_plain_object v = true;
  rp_userId : jfield v "userId" = Some (JStr (Parcel.userId p));
  rp_tenantId : jfield v "tenantId" = JStr <$> Parcel.tenantId p;
  rp_protocol : jfield v "generationProtocolVersion" = Some (protocol_json (Parcel.protocol p));
  rp_steers : exists l, jfield v "steers" = Some (JArr l) /\ Forall2 reads_leftover l (Parcel.steers p)
}.

Section parcels.
Context {lua_number : jnum -> jnum} {lua : LuaNumber lua_number}.
Abbreviation cj := (cjson lua_number).
Abbreviation encode := (cjson_encode lua_number).
Abbreviation item_fine := (item_fine (lua_number := lua_number)).

Record leftover_fine (l : Leftover.t) : Prop := {
  lf_item : item_fine (Leftover.item l);
  lf_createdAt : (0 <= SteerQueueItem.createdAt (Leftover.item l))%Z;
  lf_files : SteerQueueItem.files (Leftover.item l) <> Some [];
  lf_recovering : forall z, Leftover.recoveringCreatedAt l = Some z -> (0 <= z)%Z /\ small z
}.

Record parcel_fine (p : Parcel.t) : Prop := {
  pf_userId : Parcel.userId p <> "";
  pf_tenantId : Parcel.tenantId p <> Some "";
  pf_steers : Forall leftover_fine (Parcel.steers p);
  pf_some : Parcel.steers p <> []
}.

(** *** Encoding *)

Lemma leftover_cjson v l : reads_leftover v l -> leftover_fine l -> reads_leftover (cj v) l.
Proof.
  intros [R0 R1 R2 R3 R4 R5 R6 R7 R8] [[F1 F2 F3 F4 F5] F6 F7 F8].
  split; rewrite ?jfield_cjson, ?R1, ?R2, ?R3, ?R4, ?R5, ?R6, ?R7, ?R8;
    [by apply plain_cjson | done | by destruct (SteerQueueItem.clientSteerId _) | done
    | cbn [fmap option_fmap option_map]; by rewrite cjson_int | | by case_bool_decide | |].
  - destruct (SteerQueueItem.files (Leftover.item l)) as [fs|]; [|done].
    cbn [fmap option_fmap option_map]. by rewrite (F4 fs).
  - destruct (SteerQueueItem.preemptRevision _) as [z|]; [|done].
    cbn [fmap option_fmap option_map]. by rewrite cjson_int by (by apply F5).
  - destruct (Leftover.recoveringCreatedAt l) as [z|]; [|done].
    cbn [fmap option_fmap option_map]. by rewrite cjson_int by (by apply F8).
Qed.

Lemma leftovers_cjson l ls :
  Forall2 reads_leftover l ls -> Forall leftover_fine ls -> Forall2 reads_leftover (cj <$> l) ls.
Proof.
  induction 1 as [|v x l ls Hv _ IH]; [constructor|]. intros [Hx Hls]%Forall_cons.
  constructor; [by apply leftover_cjson | auto].
Qed.

Lemma parcel_cjson v p : reads_parcel v p -> parcel_fine p -> reads_parcel (cj v) p.
Proof.
  intros [R0 R1 R2 R3 (l & R4 & R5)] [F1 F2 F3 F4].
  split; rewrite ?jfield_cjson, ?R1, ?R2, ?R3, ?R4; [by apply plain_cjson | done | | |].
  - by destruct (Parcel.tenantId p).
  - destruct (Parcel.protocol p); apply (f_equal Some), cjson_int; unfold small; lia.
  - destruct l as [|x l]; [by apply Forall2_nil_inv_l in R5; rewrite R5 in F4|].
    exists (cj <$> (x :: l)). split; [done | by apply leftovers_cjson].
Qed.

(** *** Validation *)

Lemma dense_leftovers v p :
  reads_parcel v p -> exists l, dense (jfield v "steers") = Some l /\ jfield v "steers" = Some (JArr l) /\
    Forall2 reads_leftover l (Parcel.steers p).
Proof. intros [_ _ _ _ (l & H & Hl)]. exists l. by rewrite H. Qed.

Lemma small_nonneg z : (0 <= z)%Z -> small z -> safe_epoch z = true.
Proof. unfold small, safe_epoch, MAX_SAFE_INTEGER. intros. apply bool_decide_eq_true. lia. Qed.

Lemma plain_is_object v : is_plain_object v = true -> is_object v = true.
Proof. by destruct v. Qed.

Lemma leftover_has_id v l : reads_leftover v l -> leftover_fine l -> has_id v = true.
Proof.
  intros Hr Hf. unfold has_id. rewrite (plain_is_object v), (rl_steerId _ _ Hr) by apply Hr.
  apply bool_decide_eq_true, (if_id _ (lf_item _ Hf)).
Qed.

(** A leftover is valid to either store. *)
Lemma leftover_valid v l :
  reads_leftover v l -> leftover_fine l -> valid_item v = true /\ isValidParkedSteer v = true.
Proof.
  intros Hr Hf. pose proof (leftover_has_id v l Hr Hf) as Hid. destruct Hr as [R0 R1 R2 R3 R4 R5 R6 R7 R8].
  destruct Hf as [[F1 F2 F3 F4 F5] F6 F7 F8].
  assert (Hc : nil_or full_string (jfield v "clientSteerId") = true /\
               (nullish (jfield v "clientSteerId") ||
                match as_string (jfield v "clientSteerId") with
                | Some id => bool_decide (id <> "") | None => false end) = true).
  { rewrite R2. destruct (SteerQueueItem.clientSteerId _) as [c|]; [|done]. cbn.
    rewrite bool_decide_true by congruence. done. }
  assert (Hz : nil_or natural (jfield v "recoveringCreatedAt") = true /\
               (nullish (jfield v "recoveringCreatedAt") ||
                is_safe_epoch (jfield v "recoveringCreatedAt")) = true).
  { rewrite R8. destruct (Leftover.recoveringCreatedAt l) as [z|]; [|done]. cbn.
    destruct (F8 z eq_refl). rewrite bool_decide_true, small_nonneg by done. done. }
  destruct Hc as [Hc1 Hc2], Hz as [Hz1 Hz2]. split.
  - unfold valid_item. rewrite Hid, Hc1, Hz1, R3, R4. cbn. by rewrite bool_decide_true.
  - destruct v as [| | | | |o]; try done. unfold isValidParkedSteer.
    rewrite Hc2, Hz2, R1, R3, R4. cbn [as_string nullish is_safe_epoch jint orb].
    rewrite small_nonneg by done. rewrite bool_decide_true by done. done.
Qed.

Lemma leftovers_valid l ls :
  Forall2 reads_leftover l ls -> Forall leftover_fine ls ->
  forallb valid_item l = true /\ forallb isValidParkedSteer l = true.
Proof.
  induction 1 as [|v x l ls Hv _ IH]; [done|]. intros [Hx Hls]%Forall_cons.
  destruct (leftover_valid v x Hv Hx) as [H1 H2], (IH Hls) as [H3 H4]. cbn. by rewrite H1, H2, H3, H4.
Qed.

Lemma steers_some l p : Forall2 reads_leftover l (Parcel.steers p) -> parcel_fine p -> l <> [].
Proof. intros Hl Hf ->. apply Forall2_nil_inv_l in Hl. by apply (pf_some _ Hf). Qed.

(** What a script, and what the in-memory store, makes of a payload. *)
Lemma parcel_shape v p :
  reads_parcel v p -> parcel_fine p ->
  exists l, parked_shape (Text v) = Some (v, l) /\ parked_steers (Text v) = Some (v, l) /\
    valid_steers v = Some l /\ valid_recovery v = true /\ jfield v "steers" = Some (JArr l) /\
    Forall2 reads_leftover l (Parcel.steers p).
Proof.
  intros Hr Hf. destruct (dense_leftovers v p Hr) as (l & Hd & Hs & Hl). exists l.
  destruct (leftovers_valid l _ Hl (pf_steers _ Hf)) as [Hv1 Hv2].
  pose proof (steers_some l p Hl Hf) as Hne. pose proof (rp_object _ _ Hr) as Ho.
  assert (Hvs : valid_steers v = Some l).
  { unfold valid_steers. rewrite Hs. cbn. by rewrite decide_True. }
  split_and!; try done.
  - unfold parked_shape. cbn [JSON_parse]. rewrite Hd, (plain_is_object v Ho), (rp_userId _ _ Hr), (rp_protocol _ _ Hr).
    rewrite Hv1. rewrite (bool_decide_true (l <> [])) by done.
    cbn [full_string]. rewrite (bool_decide_true (_ <> "")) by apply Hf. by destruct (Parcel.protocol p).
  - unfold parked_steers. cbn [JSON_parse]. rewrite Hd, (plain_is_object v Ho). by destruct l.
  - unfold valid_recovery. rewrite Hvs, (plain_is_object v Ho), (rp_userId _ _ Hr), (rp_protocol _ _ Hr).
    cbn [as_string]. rewrite (bool_decide_true (_ <> "")) by apply Hf. by destruct (Parcel.protocol p).
Qed.

(** The owner of a parcel. *)
Definition parcel_owner (p : Parcel.t) (userId : string) (tenantId : option string) : bool :=
  bool_decide (Parcel.userId p = userId) && tenant_matches (Parcel.tenantId p) tenantId.

Lemma tenant_arg (t : string) (te : option string) :
  t <> "" -> bool_decide (t = default "" te) = bool_decide (Some t = te).
Proof. intros Ht. apply bool_decide_ext. destruct te as [x|]; cbn; unfold id; naive_solver. Qed.

Lemma parcel_owned v p userId tenantId :
  reads_parcel v p -> parcel_fine p ->
  owned_by v userId (default "" tenantId) = parcel_owner p userId tenantId /\
  payload_owner v userId tenantId = parcel_owner p userId tenantId.
Proof.
  intros Hr Hf. unfold owned_by, payload_owner, parcel_owner, tenant_matches, is_string.
  rewrite (rp_userId _ _ Hr), (rp_tenantId _ _ Hr). pose proof (pf_tenantId _ Hf) as Ht.
  assert (E : bool_decide (as_string (Some (JStr (Parcel.userId p))) = Some userId) =
              bool_decide (Parcel.userId p = userId)) by (apply bool_decide_ext; cbn; naive_solver).
  rewrite E. cbn [lua_eq].
  destruct (Parcel.tenantId p) as [t|]; cbn [fmap option_fmap option_map truthy negb orb lua_eq nullish];
    [|done]. rewrite tenant_arg by congruence. split; [done|]. f_equal.
  destruct tenantId as [te|]; [|by rewrite bool_decide_false].
  apply bool_decide_ext. cbn. naive_solver.
Qed.

Lemma parcel_marked v p : reads_parcel v p -> marked_v2 v = bool_decide (Parcel.protocol p = V2).
Proof. intros Hr. unfold marked_v2. rewrite (rp_protocol _ _ Hr). by destruct (Parcel.protocol p). Qed.

(** *** Changes *)

Definition released (l : Leftover.t) : Leftover.t := {| l with Leftover.recoveringCreatedAt := None |}.

Lemma reads_released v l : reads_leftover v l -> reads_leftover (jdel v "recoveringCreatedAt") (released l).
Proof.
  intros [R0 R1 R2 R3 R4 R5 R6 R7 R8].
  split; [by apply plain_jdel|..]; rewrite jfield_jdel; done.
Qed.
Lemma fine_released l : leftover_fine l -> leftover_fine (released l).
Proof. by intros [F1 F2 F3 F4]. Qed.

Lemma reads_steers v p l ls :
  reads_parcel v p -> Forall2 reads_leftover l ls ->
  reads_parcel (jset v "steers" (JArr l)) {| p with Parcel.steers := ls |}.
Proof.
  intros [R0 R1 R2 R3 R4] Hl.
  split; [by apply plain_jset|..]; rewrite jfield_jset by done; try done. by exists l.
Qed.
Lemma parcel_protocol v p q :
  reads_parcel v p ->
  reads_parcel (jset v "generationProtocolVersion" (protocol_json q)) {| p with Parcel.protocol := q |}.
Proof.
  intros [R0 R1 R2 R3 R4]. split; [by apply plain_jset|..]; rewrite jfield_jset by done; done.
Qed.
Lemma fine_steers p ls :
  parcel_fine p -> Forall leftover_fine ls -> ls <> [] -> parcel_fine {| p with Parcel.steers := ls |}.
Proof. by intros [F1 F2 F3 F4]. Qed.
Lemma fine_protocol p q : parcel_fine p -> parcel_fine {| p with Parcel.protocol := q |}.
Proof. by intros [F1 F2 F3 F4]. Qed.

(** The same selection on payloads and on the parcel. *)
Lemma select_leftovers (f : json -> bool) (g : Leftover.t -> bool) b l ls :
  Forall2 reads_leftover l ls -> (forall v x, reads_leftover v x -> f v = g x) ->
  Forall2 reads_leftover (filter (fun v => f v = b) l) (filter (fun x => g x = b) ls).
Proof.
  intros Hl Hfg. induction Hl as [|v x l ls Hv _ IH]; [constructor|]. rewrite !filter_cons, (Hfg v x Hv).
  case_decide; [by constructor | done].
Qed.
Lemma release_leftovers l ls :
  Forall2 reads_leftover l ls ->
  Forall2 reads_leftover ((fun i => jdel i "recoveringCreatedAt") <$> l) (released <$> ls).
Proof. induction 1; [constructor|]. constructor; [by apply reads_released | done]. Qed.

Lemma leftovers_nil l ls : Forall2 reads_leftover l ls -> l = [] <-> ls = [].
Proof. intros H. by destruct H. Qed.

(** ** Streams *)

Definition parked_match (key : option (Key.t jtext)) (p : option Parked.t) : Prop :=
  match key, p with
  | Some key, Some p =>
      exists parcel vr vm, Key.value key = Text vr /\ Parked.payload p = Text vm /\
        reads_parcel vr parcel /\ reads_parcel vm parcel /\ parcel_fine parcel
  | None, None => True
  | _, _ => False
  end.

Abbreviation represents := (represents (lua_number := lua_number)).

(** The keys of a stream and the in-memory store hold the same: job, queue, claims, receipts and
    parked steers. *)
Record mirrors (k : string) (now : Z) (r : Rows) (s : Store) : Prop := {
  mi_represents : represents k now r s;
  mi_job : forall j, mget (jobs s) k = Some j ->
    keeps_job (content [] (jobHash r)) j /\ storable j /\ Job.userId j <> "" /\ Job.tenantId j <> Some "";
  mi_receipts : forall c e, receipt_of s k c = Some e ->
    SteerReceipt.tenantId (ReceiptEntry.receipt e) <> Some "";
  mi_parked : parked_match (parkedKey r) (live_parked s k now)
}.

(** Fields of the job hash. *)
Lemma hget_columns k now r s j :
  mirrors k now r s -> mget (jobs s) k = Some j ->
  hget_job "createdAt" r = Some (pretty (Job.createdAt j)) /\
  hget_job "status" r = Some (status_text (Job.status j)) /\
  hget_job "userId" r = Some (Job.userId j) /\ hget_job "tenantId" r = Job.tenantId j /\
  hget_job "recoveredSteerId" r = Job.recoveredSteerId j /\
  hget_job "pendingActionId" r = Job.pendingActionId j.
Proof.
  intros H Hj. destruct (mi_job _ _ _ _ H j Hj) as (Hh & Hs & _).
  assert (Hget : forall f, hget_job f r = field (content [] (jobHash r)) f) by done.
  rewrite !Hget. destruct (required_columns _ j Hh Hs) as (_ & -> & -> & -> & _).
  assert (Ht : forall f (x : option string), mget (content [] (jobHash r)) f = serialize_value <$> (JStr <$> x) ->
            field (content [] (jobHash r)) f = x) by (intros f x E; unfold field; rewrite E; by destruct x).
  split_and!; try done; apply Ht; by (etransitivity; [eapply (column _ j Hh Hs); [reflexivity | by vm_compute] | reflexivity]).
Qed.

Lemma hget_none k now r s f : mirrors k now r s -> mget (jobs s) k = None -> hget_job f r = None.
Proof.
  intros H Hj. pose proof (re_job _ _ _ _ (mi_represents _ _ _ _ H)) as Hr. rewrite Hj in Hr.
  unfold hget_job, HGET. by rewrite Hr.
Qed.

Lemma status_active r st :
  hget_job "status" r = Some (status_text st) ->
  bool_decide (hget_job "status" r = Some "running" \/ hget_job "status" r = Some "requires_action") = active st.
Proof. intros ->. by destruct st. Qed.

Lemma tenant_fields (t te : option string) :
  t <> Some "" ->
  match t with Some t => bool_decide (t = default "" te) | None => true end = tenant_matches t te.
Proof. intros Ht. destruct t as [t|]; [|done]. cbn. by rewrite tenant_arg by congruence. Qed.

Lemma v2_of_job k now r s j :
  mirrors k now r s -> mget (jobs s) k = Some j ->
  protocolV2 r = bool_decide (Job.generationProtocolVersion j = Some V2).
Proof.
  intros H Hj. pose proof (re_job _ _ _ _ (mi_represents _ _ _ _ H)) as Hr. rewrite Hj in Hr.
  exact (v2_spec r s k j Hr).
Qed.

(** *** The active recovery *)

Lemma recovering_spec k now r s u te :
  mirrors k now r s ->
  recovering u (default "" te) r =
  (fun j => (pretty (Job.createdAt j), default "" (Job.recoveredSteerId j))) <$> active_recovery s k u te.
Proof.
  intros H. unfold recovering, active_recovery. destruct (mget (jobs s) k) as [j|] eqn:Hj.
  2: { by rewrite (hget_none k now r s "createdAt" H Hj). }
  destruct (hget_columns k now r s j H Hj) as (Hc & Hs & Hu & Ht & Hr & _).
  rewrite (status_active r _ Hs), Hc, Hu, Ht, Hr, (v2_of_job k now r s j H Hj).
  destruct (mi_job _ _ _ _ H j Hj) as (_ & _ & _ & Hte). rewrite (tenant_fields _ te Hte).
  destruct (Job.recoveredSteerId j) as [rid|] eqn:Erid; [|by rewrite !andb_false_r].
  rewrite (andb_comm (active _)).
  rewrite (bool_decide_ext (Some (Job.userId j) = Some u) (Job.userId j = u)) by naive_solver.
  destruct (_ && _ && _ && _ && _); [|done]. cbn. by rewrite Erid.
Qed.

(** The leftovers hidden by a recovery. *)
Definition hides (recovery : option Job.t) (l : Leftover.t) : bool :=
  match recovery with
  | Some j => bool_decide (Job.recoveredSteerId j = Some (leftover_id l) /\
                           Leftover.recoveringCreatedAt l = Some (Job.createdAt j))
  | None => false
  end.

Lemma leased_to_spec v l c rid :
  reads_leftover v l -> leftover_fine l ->
  leased_to (pretty c) rid v = bool_decide (leftover_id l = rid /\ Leftover.recoveringCreatedAt l = Some c).
Proof.
  intros Hr Hf. unfold leased_to. rewrite (rl_steerId _ _ Hr), (rl_recovering _ _ Hr). cbn [lua_eq].
  rewrite bool_decide_and. f_equal. apply bool_decide_ext.
  destruct (Leftover.recoveringCreatedAt l) as [z|] eqn:Ez; cbn [fmap option_fmap option_map tostring_or_empty jint].
  - rewrite decide_True by (by apply (lf_recovering _ Hf)).
    split; [by intros [= ->%(inj pretty)] | by intros [= ->]].
  - split; [|done]. intros [= E]. by destruct (pretty_nonempty c).
Qed.

Lemma hidden_spec v l recovery :
  reads_leftover v l -> leftover_fine l ->
  (forall j, recovery = Some j -> exists rid, Job.recoveredSteerId j = Some rid) ->
  RedisLeftovers.claim_leased ((fun j => (pretty (Job.createdAt j), default "" (Job.recoveredSteerId j))) <$> recovery) v =
    hides recovery l /\
  hidden recovery v = hides recovery l.
Proof.
  intros Hr Hf Hrec. destruct recovery as [j|]; [|done]. destruct (Hrec j eq_refl) as [rid Hid].
  cbn [fmap option_fmap option_map RedisLeftovers.claim_leased hidden hides]. unfold leased_by.
  rewrite Hid. cbn [default from_option]. change (id rid) with rid.
  rewrite (leased_to_spec v l) by done. split; [apply bool_decide_ext; naive_solver|].
  unfold is_string, is_int. rewrite (rl_steerId _ _ Hr), (rl_recovering _ _ Hr). cbn [as_string].
  destruct (Leftover.recoveringCreatedAt l) as [z|]; cbn [fmap option_fmap option_map jint].
  - rewrite <- bool_decide_and. apply bool_decide_ext. naive_solver.
  - rewrite andb_false_r, bool_decide_false by naive_solver. done.
Qed.

Lemma active_recovers s k u te j :
  active_recovery s k u te = Some j -> exists rid, Job.recoveredSteerId j = Some rid.
Proof.
  unfold active_recovery. destruct (mget (jobs s) k) as [j'|]; [|done].
  destruct (Job.recoveredSteerId j') as [rid|] eqn:E; [|by rewrite !andb_false_r].
  destruct (_ && _); [|done]. intros [= <-]. by exists rid.
Qed.
End parcels.
