(* ===== verification/RedisRecovery.v ===== *)
(** * Recovery of parked steers: the Redis store against the in-memory one

    Parking, the claim of either protocol, the consumption of a recovered steer and the discarding
    of a leftover, each compared on a stream whose keys mirror the store
    ([RedisParcels.mirrors]). *)

From stdpp Require Import pretty.
From S2P Require Import Prelude JsMap Json StreamTypes SteerRecovery StoreState StoreSteers StoreParked.
From S2P Require Import StoreJobs StoreCleanup StoreFrame StoreRun StoreEpochs StoreParking StoreRecovery StoreQueue.
From S2P Require Import RedisScripts RedisLua RedisJobs RedisRoundTrip RedisSteers RedisRows RedisAdmission RedisDrain RedisEdits.
From S2P Require Import RedisLeftovers RedisParcels.

Section refine.
Context {lua_number : jnum -> jnum} {lua : LuaNumber lua_number}.
Abbreviation encode := (cjson_encode lua_number).
Abbreviation represents := (represents (lua_number := lua_number)).
Abbreviation mirrors := (mirrors (lua_number := lua_number)).
Abbreviation parked_match := (parked_match (lua_number := lua_number)).
Abbreviation parcel_fine := (parcel_fine (lua_number := lua_number)).
Abbreviation leftover_fine := (leftover_fine (lua_number := lua_number)).

(** ** The parked payload replaced on both sides *)

Lemma represents_parked k now r s key m :
  represents k now r s -> represents k now (with_parkedKey key r) (with_parkedSteers m s).
Proof.
  intros [H1 H2 H3 H4 H5 H6 H7 H8]. split; try done. cbn [jobs with_parkedSteers].
  destruct (mget (jobs s) k); [|done]. destruct H1. by split.
Qed.

Lemma mirrors_parked k now r s key m :
  mirrors k now r s -> parked_match key (live_parked (with_parkedSteers m s) k now) ->
  mirrors k now (with_parkedKey key r) (with_parkedSteers m s).
Proof. intros [H1 H2 H3 H4] Hp. split; [by apply represents_parked | exact H2 | exact H3 | exact Hp]. Qed.

Lemma live_parked_set k now s p :
  expired (Parked.expiresAt p) now = false ->
  live_parked (with_parkedSteers (mset (parkedSteers s) k p) s) k now = Some p.
Proof. intros He. unfold live_parked. cbn. by rewrite mget_mset_eq, He. Qed.
Lemma live_parked_del k now s :
  live_parked (with_parkedSteers (mdel (parkedSteers s) k) s) k now = None.
Proof. unfold live_parked. cbn. by rewrite mget_mdel_eq. Qed.
Lemma live_parked_inv s k now p :
  live_parked s k now = Some p -> mget (parkedSteers s) k = Some p /\ expired (Parked.expiresAt p) now = false.
Proof. unfold live_parked. destruct (mget (parkedSteers s) k) as [q|]; [|done]. destruct (expired _ _) eqn:E; [done | by intros [= <-]]. Qed.

(** Payloads of the same parcel written on both sides. *)
Lemma mirrors_write k now r s p vr vm parcel ttl :
  mirrors k now r s -> reads_parcel vr parcel -> reads_parcel vm parcel -> parcel_fine parcel ->
  expired (Parked.expiresAt p) now = false ->
  mirrors k now (with_parkedKey (Some (Key.mk (encode vr) ttl)) r)
    (with_parkedSteers (mset (parkedSteers s) k {| p with Parked.payload := Text vm |}) s).
Proof.
  intros H Hr Hm Hf He. apply mirrors_parked; [done|]. rewrite live_parked_set by done.
  exists parcel, (cjson lua_number vr), vm. split_and!; try done. by apply parcel_cjson.
Qed.
Lemma mirrors_drop k now r s :
  mirrors k now r s ->
  mirrors k now (with_parkedKey None r) (with_parkedSteers (mdel (parkedSteers s) k) s).
Proof. intros H. apply mirrors_parked; [done|]. by rewrite live_parked_del. Qed.

(** What either side reads of the parked payload. *)
Lemma parked_cases k now r s :
  mirrors k now r s ->
  (parkedKey r = None /\ live_parked s k now = None) \/
  exists ttl parcel vr vm p lr lm,
    parkedKey r = Some (Key.mk (Text vr) ttl) /\ live_parked s k now = Some p /\
    Parked.payload p = Text vm /\ reads_parcel vr parcel /\ reads_parcel vm parcel /\ parcel_fine parcel /\
    parked_shape (Text vr) = Some (vr, lr) /\ parked_steers (Text vr) = Some (vr, lr) /\
    valid_steers vm = Some lm /\ valid_recovery vm = true /\
    Forall2 reads_leftover lr (Parcel.steers parcel) /\ Forall2 reads_leftover lm (Parcel.steers parcel).
Proof.
  intros [_ _ _ H]. destruct (parkedKey r) as [[t ttl]|], (live_parked s k now) as [p|]; try done; [right | by left].
  destruct H as (parcel & vr & vm & E & Hp & Hr & Hm & Hf). cbn in E. subst t.
  destruct (parcel_shape vr parcel Hr Hf) as (lr & H1 & H2 & _ & _ & _ & H3).
  destruct (parcel_shape vm parcel Hm Hf) as (lm & _ & _ & H4 & H5 & _ & H6).
  by exists ttl, parcel, vr, vm, p, lr, lm.
Qed.

(** ** Claim *)

Definition same_payload (t t' : jtext) : Prop :=
  exists parcel v v', t = Text v /\ t' = Text v' /\ reads_parcel v parcel /\ reads_parcel v' parcel.
Definition same_claim (a o : option (GenerationProtocolVersion * jtext)) : Prop :=
  match a, o with
  | Some (p, t), Some (p', t') => p = p' /\ same_payload t t'
  | None, None => True
  | _, _ => False
  end.

(** The leftovers that a claim sees, and those that it does not. *)
Definition seen_leftovers (recovery : option Job.t) (ls : list Leftover.t) : list Leftover.t :=
  released <$> filter (fun x => hides recovery x = false) ls.
Definition hidden_leftovers (recovery : option Job.t) (ls : list Leftover.t) : list Leftover.t :=
  filter (fun x => hides recovery x = true) ls.

Lemma split_leftovers k now r s u te lr lm ls :
  mirrors k now r s -> Forall2 reads_leftover lr ls -> Forall2 reads_leftover lm ls -> Forall leftover_fine ls ->
  let rec := active_recovery s k u te in
  let rec' := recovering u (default "" te) r in
  Forall2 reads_leftover (filter (fun i => RedisLeftovers.claim_leased rec' i = true) lr) (hidden_leftovers rec ls) /\
  Forall2 reads_leftover ((fun i => jdel i "recoveringCreatedAt") <$> filter (fun i => RedisLeftovers.claim_leased rec' i = false) lr) (seen_leftovers rec ls) /\
  Forall2 reads_leftover (leased_steers rec lm) (hidden_leftovers rec ls) /\
  Forall2 reads_leftover (visible_steers rec lm) (seen_leftovers rec ls).
Proof.
  intros H Hlr Hlm Hf rec rec'. subst rec'. rewrite (recovering_spec k now r s u te H). fold rec.
  assert (Hrec : forall j, rec = Some j -> exists rid, Job.recoveredSteerId j = Some rid)
    by (intros j; apply active_recovers).
  assert (Hsel : forall (f : json -> bool) b l, Forall2 reads_leftover l ls ->
            (forall v x, reads_leftover v x -> leftover_fine x -> f v = hides rec x) ->
            Forall2 reads_leftover (filter (fun v => f v = b) l) (filter (fun x => hides rec x = b) ls)).
  { intros f b l Hl Hfg. clear Hlr Hlm. induction Hl as [|v x l ls Hv _ IH]; [constructor|].
    apply Forall_cons in Hf as [Hx Hf]. rewrite !filter_cons, (Hfg v x Hv Hx).
    case_decide; [constructor; [done | by apply IH] | by apply IH]. }
  split_and!; [| apply release_leftovers | | apply release_leftovers]; apply Hsel; try done;
    intros v x Hv Hx; by destruct (hidden_spec v x rec Hv Hx Hrec).
Qed.

Lemma fine_select (f : Leftover.t -> bool) b ls :
  Forall leftover_fine ls -> Forall leftover_fine (filter (fun x => f x = b) ls).
Proof. rewrite !Forall_forall. intros Hf x [_ Hx]%list_elem_of_filter. auto. Qed.
Lemma fine_seen rec ls : Forall leftover_fine ls -> Forall leftover_fine (seen_leftovers rec ls).
Proof.
  intros Hf. apply Forall_fmap. eapply Forall_impl; [by apply fine_select|]. intros x. apply fine_released.
Qed.

(** The payload that a legacy claim leaves behind, and the ones that claims answer. *)
Lemma reads_retained v p l ls :
  reads_parcel v p -> Forall2 reads_leftover l ls ->
  reads_parcel (retained_payload v l) (Parcel.mk (Parcel.userId p) (Parcel.tenantId p) V2 ls).
Proof.
  intros [R0 R1 R2 R3 R4] Hl. unfold retained_payload. rewrite R1, R2.
  split; [done | done | | |]; destruct (Parcel.tenantId p); try done; by exists l.
Qed.
Lemma reads_rebuilt v p q l ls :
  reads_parcel v p -> Forall2 reads_leftover l ls ->
  reads_parcel (rebuilt_payload v q l) (Parcel.mk (Parcel.userId p) (Parcel.tenantId p) q ls).
Proof.
  intros [R0 R1 R2 R3 R4] Hl. unfold rebuilt_payload. rewrite R1, R2.
  split; [done | done | | |]; destruct (Parcel.tenantId p); try done; by exists l.
Qed.
Lemma reads_answered v p q l ls :
  reads_parcel v p -> Forall2 reads_leftover l ls ->
  reads_parcel (jset (jset v "generationProtocolVersion" (protocol_json q)) "steers" (JArr l))
    (Parcel.mk (Parcel.userId p) (Parcel.tenantId p) q ls).
Proof. intros Hr Hl. exact (reads_steers _ _ _ _ (parcel_protocol _ _ q Hr) Hl). Qed.

Lemma fine_rebuilt p q ls :
  parcel_fine p -> Forall leftover_fine ls -> ls <> [] ->
  parcel_fine (Parcel.mk (Parcel.userId p) (Parcel.tenantId p) q ls).
Proof. by intros [F1 F2 F3 F4]. Qed.

(** Empty on one side, empty on the other. *)
Lemma leftovers_empty l ls :
  Forall2 reads_leftover l ls -> bool_decide (l = []) = bool_decide (ls = []).
Proof. intros H. apply bool_decide_ext. split; intros ->; by inversion H. Qed.

Lemma seen_all rec ls : hidden_leftovers rec ls = [] -> seen_leftovers rec ls = released <$> ls.
Proof.
  unfold hidden_leftovers, seen_leftovers. intros H. f_equal.
  induction ls as [|l ls IH]; [done|]. rewrite filter_cons in H. rewrite filter_cons.
  destruct (hides rec l); [done|]. cbn in *. by rewrite IH.
Qed.
Lemma is_int_marked v p :
  reads_parcel v p -> is_int (jfield v "generationProtocolVersion") 2 = bool_decide (Parcel.protocol p = V2).
Proof. intros Hr. rewrite (rp_protocol _ _ Hr). by destruct (Parcel.protocol p). Qed.
Lemma drop_absent r : parkedKey r = None -> with_parkedKey None r = r.
Proof. destruct r. by intros [= ->]. Qed.

Lemma same_claim_intro q v v' p :
  reads_parcel v p -> reads_parcel v' p -> parcel_fine p ->
  same_claim (Some (q, encode v)) (Some (q, JSON_stringify v')).
Proof. intros Hv Hv' Hf. split; [done|]. exists p, (cjson lua_number v), v'. split_and!; try done. by apply parcel_cjson. Qed.

Lemma claim_parked_refines k now r s u te q :
  mirrors k now r s ->
  let '(a, r') := claimParkedSteersDetailed lua_number u te q r in
  let '(o, s') := StoreParked.claimParkedSteersDetailed k u te q now s in
  (exists x, a = Ok x /\ same_claim x o) /\ mirrors k now r' s'.
Proof.
  intros H. unfold claimParkedSteersDetailed, CLAIM_PARKED, GET_parked, StoreParked.claimParkedSteersDetailed.
  destruct (parked_cases k now r s H) as [[Hk Hl] | (ttl & parcel & vr & vm & p & lr & lm & Hk & Hl & Hp & Hr & Hm & Hf & Hsh & _ & Hvs & Hvr & Hlr & Hlm)].
  { rewrite Hk, Hl. split; [by exists None|]. apply mirrors_drop in H. by rewrite drop_absent in H. }
  rewrite Hk, Hl. cbn [fmap option_fmap option_map Key.value]. rewrite Hsh, Hp. cbn [JSON_parse].
  rewrite Hvs, Hvr. destruct (parcel_owned vr parcel u te Hr Hf) as [-> _].
  destruct (parcel_owned vm parcel u te Hm Hf) as [_ ->]. cbn [andb].
  destruct (parcel_owner parcel u te); cbn [negb]; [|by split; [exists None|]].
  destruct (split_leftovers k now r s u te lr lm (Parcel.steers parcel) H Hlr Hlm (pf_steers _ Hf)) as (S1 & S2 & S3 & S4).
  revert S1 S2 S3 S4. cbv zeta.
  set (rec := active_recovery s k u te). set (rec' := recovering u (default "" te) r).
  set (hr := filter _ lr). set (sr := _ <$> filter _ lr). set (hm := leased_steers rec lm).
  set (sm := visible_steers rec lm). intros S1 S2 S3 S4.
  rewrite (parcel_marked vr parcel Hr), (is_int_marked vm parcel Hm).
  replace (bool_decide (protocol_text q = "2")) with (bool_decide (q = V2)) by (by destruct q).
  pose proof (fine_seen rec _ (pf_steers _ Hf)) as Fs. pose proof (fine_select (hides rec) true _ (pf_steers _ Hf)) as Fh.
  destruct (bool_decide (Parcel.protocol parcel = V2) && bool_decide (q = V2)) eqn:Eq; cbn [negb andb].
  - apply andb_true_iff in Eq as [Ep%bool_decide_eq_true _].
    rewrite (bool_decide_false (V2 = V1 /\ _)) by naive_solver.
    rewrite (leftovers_empty sr _ S2), (leftovers_empty sm _ S4).
    case_bool_decide as Es; [by split; [exists None|]|]. rewrite bool_decide_false by done.
    split; [|done]. eexists. split; [done|]. eapply same_claim_intro.
    + exact (reads_steers _ _ _ _ Hr S2).
    + destruct parcel as [pu pt pq ps]. cbn in Ep. subst pq. exact (reads_rebuilt _ _ V2 _ _ Hm S4).
    + by apply fine_steers.
  - rewrite (leftovers_empty hr _ S1).
    rewrite (bool_decide_ext (V1 = V1 /\ hm = []) (hidden_leftovers rec (Parcel.steers parcel) = []))
      by (rewrite <- (bool_decide_eq_true (hm = [])), (leftovers_empty hm _ S3), bool_decide_eq_true; tauto).
    destruct (bool_decide_reflect (hidden_leftovers rec (Parcel.steers parcel) = [])) as [Eh|Eh].
    + split; [|by apply mirrors_drop]. eexists. split; [done|]. eapply same_claim_intro.
      * exact (reads_answered _ _ V1 _ _ Hr S2).
      * exact (reads_answered _ _ V1 _ _ Hm S4).
      * apply fine_rebuilt; try done. rewrite seen_all by done. intros E%fmap_nil_inv. by apply (pf_some _ Hf).
    + rewrite (leftovers_empty sr _ S2), (leftovers_empty sm _ S4).
      destruct (bool_decide_reflect (seen_leftovers rec (Parcel.steers parcel) = [])) as [Es|Es]; [by split; [exists None|]|]. rewrite !(bool_decide_true (V1 = V1)) by done.
      split.
      * eexists. split; [done|]. eapply same_claim_intro;
          [exact (reads_answered _ _ V1 _ _ Hr S2) | exact (reads_rebuilt _ _ V1 _ _ Hm S4) | by apply fine_rebuilt].
      * unfold rewrite_parked. rewrite Hk. apply (mirrors_write _ _ _ _ _ _ _ _ _ H
          (reads_retained _ _ _ _ Hr S1) (reads_rebuilt _ _ V2 _ _ Hm S3)); [by apply fine_rebuilt|].
        by apply live_parked_inv in Hl as [].
Qed.

(** ** Receipts *)

(** A receipt settled on both sides. *)
Lemma mirrors_settle k now r s c v e st :
  mirrors k now r s -> receipt_of s k c = Some e -> reads_receipt v (ReceiptEntry.receipt e) ->
  mirrors k now (settle_receipt lua_number (state_text st) (Some (c, v)) r)
    (update_receipt k c (set_receipt_state st) s).
Proof.
  intros [H1 H2 H3 H4] He Hv. pose proof (re_receipts _ _ _ _ H1 c) as Hm. rewrite He in Hm.
  destruct (HGET c (receiptsKey r)) as [raw|]; [|done]. destruct Hm as ((w & _ & _ & Hf) & Hx & Hc).
  split.
  - apply (represents_receipt k now r s c _ e _ (encode (jset v "state" (JStr (state_text st)))) H1 He).
    + intros c'. apply HGET_HSET.
    + split_and!; [|done|done]. apply receipt_row_encode; [by apply receipt_set_state | by destruct Hf].
  - rewrite (update_receipt_frame jobs ltac:(done)). exact H2.
  - intros c' e'. rewrite receipt_of_updated. case_decide; [subst c'|apply H3]. rewrite He.
    intros [= <-]. exact (H3 c e He).
  - unfold live_parked. rewrite (update_receipt_frame parkedSteers ltac:(done)). exact H4.
Qed.

Lemma receipt_read k now r s c :
  mirrors k now r s ->
  match HGET c (receiptsKey r) ≫= JSON_parse with
  | Some v => exists e, receipt_of s k c = Some e /\ reads_receipt v (ReceiptEntry.receipt e) /\
                receipt_fine (lua_number := lua_number) (ReceiptEntry.receipt e)
  | None => receipt_of s k c = None
  end.
Proof.
  intros H. pose proof (re_receipts _ _ _ _ (mi_represents _ _ _ _ H) c) as Hm.
  destruct (HGET c (receiptsKey r)) as [raw|], (receipt_of s k c) as [e|]; try done.
  destruct Hm as ((v & -> & Hv & Hf) & _). by exists e.
Qed.

(** A leftover that its owner may settle. *)
Definition settles (e : ReceiptEntry.t) (steerId userId : string) (tenantId : option string) : bool :=
  let rc := ReceiptEntry.receipt e in
  bool_decide (SteerReceipt.state rc = leftover) &&
  bool_decide (SteerQueueItem.steerId (SteerReceipt.item rc) = steerId) &&
  bool_decide (SteerReceipt.userId rc = userId) && tenant_matches (SteerReceipt.tenantId rc) tenantId.

Lemma settleable_spec k now r s c v e id u te :
  mirrors k now r s -> receipt_of s k c = Some e -> reads_receipt v (ReceiptEntry.receipt e) ->
  settleable v id u (default "" te) = settles e id u te.
Proof.
  intros H He Hv. pose proof (mi_receipts _ _ _ _ H c e He) as Ht. unfold settleable, settles.
  change "leftover" with (state_text leftover). rewrite (state_is_spec v _ _ Hv).
  rewrite (rr_userId _ _ Hv), (rr_tenantId _ _ Hv). destruct (rr_item _ _ Hv) as (w & -> & Hw).
  rewrite (ri_steerId _ _ Hw). assert (Hto : truthy (Some w) = true) by (pose proof (ri_object _ _ Hw); by destruct w).
  rewrite Hto. cbn [andb]. rewrite !lua_eq_str.
  assert (Htn : negb (truthy (JStr <$> SteerReceipt.tenantId (ReceiptEntry.receipt e))) ||
    lua_eq (JStr <$> SteerReceipt.tenantId (ReceiptEntry.receipt e)) (Some (JStr (default "" te))) =
    tenant_matches (SteerReceipt.tenantId (ReceiptEntry.receipt e)) te).
  { rewrite <- tenant_fields by done. by destruct (SteerReceipt.tenantId _). }
  rewrite Htn. destruct (bool_decide (_ = leftover)), (bool_decide (_ = id)), (bool_decide (_ = u)), (tenant_matches _ _); done.
Qed.

(** The steers kept on both sides. *)
Lemma mirrors_keep k now r s ttl parcel vr vm p kr km ks :
  mirrors k now r s -> parkedKey r = Some (Key.mk (Text vr) ttl) -> live_parked s k now = Some p ->
  reads_parcel vr parcel -> reads_parcel vm parcel -> parcel_fine parcel ->
  Forall2 reads_leftover kr ks -> Forall2 reads_leftover km ks -> Forall leftover_fine ks ->
  mirrors k now (keep_parked lua_number vr kr r) (store_parked_steers k p vm km s).
Proof.
  intros H Hk Hl Hr Hm Hf Hkr Hkm Hks. unfold keep_parked, store_parked_steers.
  destruct Hkr as [|x y kr ks Hx Hkr].
  - apply Forall2_nil_inv_r in Hkm as ->. by apply mirrors_drop.
  - destruct km as [|z km]; [by inversion Hkm|]. unfold rewrite_parked. rewrite Hk.
    apply (mirrors_write _ _ _ _ _ _ _ _ _ H (reads_steers _ _ _ _ Hr (List.Forall2_cons _ _ Hx Hkr))
      (reads_steers _ _ _ _ Hm Hkm)); [by apply fine_steers | by apply live_parked_inv in Hl as []].
Qed.

(** ** Consume *)

Definition leased_leftover (created : Z) (id : string) (l : Leftover.t) : bool :=
  bool_decide (leftover_id l = id /\ Leftover.recoveringCreatedAt l = Some created).

Lemma take_rest c id x l ls :
  Forall2 reads_leftover l ls -> Forall leftover_fine ls ->
  take_leased c id (Some x) l = Some (Some x, l).
Proof.
  induction 1 as [|v y l ls Hv _ IH]; [done|]. intros [Hy Hls]%Forall_cons. cbn [take_leased].
  rewrite (leftover_has_id v y Hv Hy). cbn [negb]. by rewrite IH.
Qed.
Lemma take_spec created id l ls :
  Forall2 reads_leftover l ls -> Forall leftover_fine ls ->
  take_leased (pretty created) id None l =
  Some match find_index (leased_leftover created id) ls with
       | Some i => (l !! i, splice1 i l)
       | None => (None, l)
       end.
Proof.
  induction 1 as [|v y l ls Hv Hl IH]; [done|]. intros [Hy Hls]%Forall_cons. cbn [take_leased find_index].
  rewrite (leftover_has_id v y Hv Hy), (leased_to_spec v y) by done. cbn [negb].
  fold (leased_leftover created id y). destruct (leased_leftover created id y).
  - by rewrite (take_rest _ _ _ _ _ Hl Hls).
  - rewrite (IH Hls). by destruct (find_index _ ls).
Qed.
Lemma find_leased created id l ls :
  Forall2 reads_leftover l ls ->
  find_index (fun i => is_string (jfield i "steerId") id && is_int (jfield i "recoveringCreatedAt") created) l =
  find_index (leased_leftover created id) ls.
Proof.
  induction 1 as [|v y l ls Hv _ IH]; [done|]. cbn [find_index]. rewrite IH.
  replace (is_string (jfield v "steerId") id && is_int (jfield v "recoveringCreatedAt") created)
    with (leased_leftover created id y); [done|].
  unfold leased_leftover, is_string, is_int. rewrite (rl_steerId _ _ Hv), (rl_recovering _ _ Hv), bool_decide_and.
  f_equal; [apply bool_decide_ext; cbn; naive_solver|].
  destruct (Leftover.recoveringCreatedAt y); cbn; [|done]. apply bool_decide_ext. naive_solver.
Qed.

Lemma keep_settle parked kept st found r :
  settle_receipt lua_number st found (keep_parked lua_number parked kept r) =
  keep_parked lua_number parked kept (settle_receipt lua_number st found r).
Proof. by destruct kept, found as [[]|]. Qed.
Lemma settle_live k now s c st :
  live_parked (update_receipt k c (set_receipt_state st) s) k now = live_parked s k now.
Proof. unfold live_parked. by rewrite (update_receipt_frame parkedSteers ltac:(done)). Qed.
Lemma settle_key st found r : parkedKey (settle_receipt lua_number st found r) = parkedKey r.
Proof. by destruct found as [[]|]. Qed.

Lemma consume_refines k now r s id u te created :
  mirrors k now r s ->
  let '(a, r') := consumeParkedSteer lua_number id u te created r in
  let '(o, s') := StoreParked.consumeParkedSteer k id u te created now s in
  a = Ok o /\ mirrors k now r' s'.
Proof.
  intros H. unfold consumeParkedSteer, CONSUME_PARKED_STEER, StoreParked.consumeParkedSteer.
  destruct (mget (jobs s) k) as [j|] eqn:Hj.
  2: { rewrite (hget_none k now r s "createdAt" H Hj). by rewrite bool_decide_false by naive_solver. }
  destruct (hget_columns k now r s j H Hj) as (Hc & _ & Hu & Ht & Hr & _).
  destruct (mi_job _ _ _ _ H j Hj) as (_ & _ & _ & Hte). rewrite Hc, Hu, Ht, Hr, (tenant_fields _ te Hte).
  replace (bool_decide (Some (pretty (Job.createdAt j)) = Some (pretty created) /\ Some (Job.userId j) = Some u /\
    Job.recoveredSteerId j = Some id)) with (bool_decide (Job.createdAt j = created) &&
    bool_decide (Job.userId j = u) && bool_decide (Job.recoveredSteerId j = Some id)).
  2: { rewrite <- andb_assoc, <- !bool_decide_and. apply bool_decide_ext. split; [naive_solver|].
       intros ([= ->%(inj pretty)] & [= ->] & ->). done. }
  destruct (bool_decide (Job.createdAt j = created) && _ && _); cbn [negb andb]; [|by split].
  destruct (tenant_matches (Job.tenantId j) te); cbn [negb]; [|by split].
  destruct (parked_cases k now r s H) as [[Hk Hl] | (ttl & parcel & vr & vm & p & lr & lm & Hk & Hl & Hp & Hpr & Hm & Hf & _ & Hps & Hvs & _ & Hlr & Hlm)].
  { unfold GET_parked. by rewrite Hk, Hl. }
  unfold GET_parked. rewrite Hk, Hl. cbn [fmap option_fmap option_map Key.value]. rewrite Hps, Hp. cbn [JSON_parse].
  rewrite Hvs. destruct (parcel_owned vr parcel u te Hpr Hf) as [-> _].
  destruct (parcel_owned vm parcel u te Hm Hf) as [_ ->].
  destruct (parcel_owner parcel u te); cbn [negb]; [|by split].
  rewrite (take_spec created id lr _ Hlr (pf_steers _ Hf)), (find_leased created id lm _ Hlm).
  destruct (find_index _ (Parcel.steers parcel)) as [i|] eqn:Ei; [|by split].
  destruct (find_index_Some _ _ _ Ei) as (y & Hy & _).
  destruct (Forall2_lookup_r _ _ _ _ _ Hlr Hy) as (x & Hx & Hxy).
  destruct (Forall2_lookup_r _ _ _ _ _ Hlm Hy) as (x' & Hx' & Hxy').
  rewrite Hx, Hx'. cbn [mbind option_bind]. unfold consumed_receipt.
  rewrite (rl_client _ _ Hxy), (rl_client _ _ Hxy').
  pose proof (Forall2_splice _ i _ _ Hlr) as Kr. pose proof (Forall2_splice _ i _ _ Hlm) as Km.
  assert (Kf : Forall leftover_fine (splice1 i (Parcel.steers parcel))).
  { unfold splice1. apply Forall_app. split; [apply Forall_take | apply Forall_drop]; apply Hf. }
  destruct (SteerQueueItem.clientSteerId (Leftover.item y)) as [c|]; cbn [fmap option_fmap option_map truthy as_string].
  2: { split; [done|]. cbn [settle_receipt]. by eapply mirrors_keep. }
  pose proof (receipt_read k now r s c H) as Hrc.
  destruct (HGET c (receiptsKey r) ≫= JSON_parse) as [v|]; [|by rewrite Hrc].
  destruct Hrc as (e & He & Hv & _). rewrite He, (settleable_spec k now r s c v e id u te H He Hv).
  fold (settles e id u te). destruct (settles e id u te); [|by split].
  split; [done|]. rewrite keep_settle. change "recovered" with (state_text recovered).
  eapply mirrors_keep; [by eapply mirrors_settle | by rewrite settle_key | by rewrite settle_live | done..].
Qed.

(** ** Discard *)

Lemma is_string_str x y : is_string (Some (JStr x)) y = bool_decide (x = y).
Proof. apply bool_decide_ext. cbn. naive_solver. Qed.
Lemma without_spec id l ls :
  Forall2 reads_leftover l ls -> Forall leftover_fine ls ->
  without id l = Some (filter (fun i => is_string (jfield i "steerId") id = false) l).
Proof.
  induction 1 as [|v y l ls Hv _ IH]; [done|]. intros [Hy Hls]%Forall_cons. cbn [without].
  rewrite (leftover_has_id v y Hv Hy), (IH Hls), filter_cons.
  rewrite (rl_steerId _ _ Hv), is_string_str. cbn [negb lua_eq].
  by destruct (bool_decide (leftover_id y = id)).
Qed.
Lemma others_spec id l ls :
  Forall2 reads_leftover l ls ->
  Forall2 reads_leftover (filter (fun i => is_string (jfield i "steerId") id = false) l)
    (filter (fun x => bool_decide (leftover_id x = id) = false) ls).
Proof.
  intros Hl. apply select_leftovers; [done|]. intros v x Hv.
  by rewrite (rl_steerId _ _ Hv), is_string_str.
Qed.

(** The generation that recovers the steer on behalf of its owner. *)
Lemma being_recovered_spec k now r s id u te :
  mirrors k now r s ->
  being_recovered id u (default "" te) r =
  match mget (jobs s) k with
  | Some j => bool_decide (Job.recoveredSteerId j = Some id) && bool_decide (Job.userId j = u) &&
              tenant_matches (Job.tenantId j) te && active (Job.status j)
  | None => false
  end.
Proof.
  intros H. unfold being_recovered. destruct (mget (jobs s) k) as [j|] eqn:Hj.
  2: { rewrite (hget_none k now r s "recoveredSteerId" H Hj).
       by rewrite (bool_decide_false (None = Some id)), andb_false_r by done. }
  destruct (hget_columns k now r s j H Hj) as (_ & Hs & Hu & Ht & Hr & _).
  destruct (mi_job _ _ _ _ H j Hj) as (_ & _ & _ & Hte).
  rewrite (status_active r _ Hs), Hu, Ht, Hr, (tenant_fields _ te Hte).
  rewrite (bool_decide_ext (Some (Job.userId j) = Some u) (Job.userId j = u)) by naive_solver.
  by rewrite <- !andb_assoc, andb_comm, <- !andb_assoc.
Qed.

Lemma expected_generation v rc e :
  reads_receipt v rc -> receipt_fine (lua_number := lua_number) rc ->
  bool_decide (expected_arg e <> "" /\ tostring_or_empty (jfield v "generationCreatedAt") <> Some (expected_arg e)) =
  negb (epoch_matches e (SteerReceipt.generationCreatedAt rc)).
Proof.
  intros Hv Hf. rewrite (rr_generation _ _ Hv). cbn [tostring_or_empty jint].
  rewrite decide_True by apply Hf. destruct e as [z|]; cbn.
  - pose proof (pretty_nonempty z). destruct (decide (SteerReceipt.generationCreatedAt rc = z)) as [->|Hne].
    + rewrite bool_decide_false by naive_solver. by rewrite bool_decide_true.
    + rewrite bool_decide_true by naive_solver. by rewrite bool_decide_false.
  - by rewrite bool_decide_false by naive_solver.
Qed.

Lemma discard_refines k now r s c id u te e :
  mirrors k now r s ->
  let '(a, r') := discardSteerLeftover lua_number c id u te e r in
  let '(o, s') := StoreParked.discardSteerLeftover k c id u te e now s in
  a = Ok o /\ mirrors k now r' s'.
Proof.
  intros H. unfold discardSteerLeftover, DISCARD_STEER_LEFTOVER, StoreParked.discardSteerLeftover.
  pose proof (receipt_read k now r s c H) as Hrc.
  destruct (HGET c (receiptsKey r) ≫= JSON_parse) as [v|]; [|by rewrite Hrc].
  destruct Hrc as (en & He & Hv & Hfine). rewrite He, (plain_is_object v (rr_object _ _ Hv)).
  rewrite (expected_generation v _ e Hv Hfine), (settleable_spec k now r s c v en id u te H He Hv).
  rewrite (being_recovered_spec k now r s id u te H). cbn [negb].
  assert (Hg : bool_decide (SteerReceipt.state (ReceiptEntry.receipt en) = leftover) &&
    epoch_matches e (SteerReceipt.generationCreatedAt (ReceiptEntry.receipt en)) &&
    bool_decide (SteerQueueItem.steerId (SteerReceipt.item (ReceiptEntry.receipt en)) = id) &&
    bool_decide (SteerReceipt.userId (ReceiptEntry.receipt en) = u) &&
    tenant_matches (SteerReceipt.tenantId (ReceiptEntry.receipt en)) te =
    epoch_matches e (SteerReceipt.generationCreatedAt (ReceiptEntry.receipt en)) && settles en id u te)
    by (unfold settles; by destruct (bool_decide (_ = leftover)), (epoch_matches e _)).
  rewrite Hg. destruct (epoch_matches e _); cbn [negb andb]; [|by split].
  destruct (settles en id u te); cbn [negb]; [|by split].
  destruct (match mget (jobs s) k with Some _ => _ | None => _ end); [by split|].
  unfold GET_parked. change "cancelled" with (state_text cancelled).
  destruct (parked_cases k now r s H) as [[Hk Hl] | (ttl & parcel & vr & vm & p & lr & lm & Hk & Hl & Hp & Hpr & Hm & Hf & _ & Hps & Hvs & _ & Hlr & Hlm)].
  { rewrite Hk, Hl. split; [done|]. by eapply mirrors_settle. }
  rewrite Hk, Hl. cbn [fmap option_fmap option_map Key.value]. rewrite Hps, Hp. cbn [JSON_parse].
  rewrite Hvs. destruct (parcel_owned vr parcel u te Hpr Hf) as [-> _].
  destruct (parcel_owned vm parcel u te Hm Hf) as [_ ->].
  destruct (parcel_owner parcel u te); cbn [negb]; [|by split].
  rewrite (without_spec id lr _ Hlr (pf_steers _ Hf)). split; [done|].
  eapply mirrors_settle; [| by rewrite (receipt_of_same s) by (apply store_parked_receipts) | done].
  apply (mirrors_keep _ _ _ _ _ _ _ _ _ _ _ _ H Hk Hl Hpr Hm Hf (others_spec id _ _ Hlr) (others_spec id _ _ Hlm)).
  exact (fine_select (fun x => bool_decide (leftover_id x = id)) false _ (pf_steers _ Hf)).
Qed.

(** ** Park *)

(** A payload of the parcel, up to the protocol that the store writes over its own.  Without a job
    the in-memory store keeps the payload's protocol and the script writes 1. *)
Definition parks (v : json) (p : Parcel.t) : Prop :=
  reads_parcel (jset v "generationProtocolVersion" (protocol_json (Parcel.protocol p))) p /\
  is_plain_object v = true /\ parcel_fine p.

Lemma reads_parked v p q :
  parks v p -> reads_parcel (jset v "generationProtocolVersion" (protocol_json q)) {| p with Parcel.protocol := q |}.
Proof.
  intros ([R0 R1 R2 R3 R4] & Ho & _). rewrite !jfield_jset in R1, R2, R4 by done.
  split; [by apply plain_jset|..]; rewrite jfield_jset by done; done.
Qed.

Lemma mirrors_park k now r s v p q ttl :
  mirrors k now r s -> parks v p ->
  let v' := jset v "generationProtocolVersion" (protocol_json q) in
  mirrors k now (with_parkedKey (SET (encode v') (Some ttl)) r)
    (with_parkedSteers (mset (parkedSteers s) k (Parked.mk (JSON_stringify v') (At (now + PARKED_STEERS_TTL_MS)))) s).
Proof.
  intros H Hp v'. pose proof (reads_parked v p q Hp) as Hr.
  apply (mirrors_write k now r s (Parked.mk (JSON_stringify v') (At (now + PARKED_STEERS_TTL_MS)))
           v' v' _ (Some ttl) H Hr Hr).
  - apply fine_protocol, Hp.
  - apply bool_decide_eq_false. unfold PARKED_STEERS_TTL_MS. lia.
Qed.

Lemma park_refines k now r s v p e completed :
  mirrors k now r s -> parks v p ->
  (mget (jobs s) k = None -> normalizeGenerationProtocol (jfield v "generationProtocolVersion") = V1) ->
  let '(a, r') := parkSteers lua_number completed (Text v) e r in
  a = Ok tt /\ mirrors k now r' (StoreParked.parkSteers k (Text v) e now s).
Proof.
  intros H Hp Hmark. unfold parkSteers, PARK_STEERS, StoreParked.parkSteers.
  pose proof (re_job _ _ _ _ (mi_represents _ _ _ _ H)) as Hj. destruct (Hp) as (_ & Ho & _).
  cbn [JSON_parse]. rewrite (plain_is_object v Ho).
  assert (Hn : forall j, normalize_payload j (Text v) = JSON_stringify (jset v "generationProtocolVersion"
      (protocol_json match j with
        | Some j => normalize_job_protocol (Job.generationProtocolVersion j)
        | None => normalizeGenerationProtocol (jfield v "generationProtocolVersion") end))) by (by destruct v).
  rewrite Hn. destruct (mget (jobs s) k) as [j|] eqn:Hjob.
  - assert (Hg : match e with Some e0 => negb (bool_decide (Job.createdAt <$> Some j = Some e0)) | None => false end =
        negb (epoch_matches e (Job.createdAt j))).
    { destruct e as [z|]; [|done]. cbn. f_equal. apply bool_decide_ext. naive_solver. }
    rewrite (guard_epoch r s k j e Hj), Hg. destruct (epoch_matches e (Job.createdAt j)); cbn [negb]; [|by split].
    split; [done|]. rewrite (v2_of_job k now r s j H Hjob).
    destruct (Job.generationProtocolVersion j) as [[]|];
      [exact (mirrors_park k now r s v p V1 _ H Hp) | exact (mirrors_park k now r s v p V2 _ H Hp)
      | exact (mirrors_park k now r s v p V1 _ H Hp)].
  - assert (Hc : hget_job "createdAt" r = None) by (by unfold hget_job, HGET; rewrite Hj).
    assert (Hv : protocolV2 r = false) by (unfold protocolV2, hget_job, HGET; by rewrite Hj).
    rewrite (Hmark eq_refl), Hv. unfold createdAt_guard. rewrite Hc.
    destruct e as [z|]; cbn [expected_arg fmap option_fmap option_map default from_option].
    + rewrite bool_decide_true by (split; [apply pretty_nonempty | done]). by rewrite bool_decide_false.
    + rewrite bool_decide_false by naive_solver. split; [done|]. exact (mirrors_park k now r s v p V1 _ H Hp).
Qed.
End refine.
