(* ===== verification/RedisParking.v ===== *)
(** * The Redis store recovers steers as the in-memory store does

    Sequences of parkings, claims, consumptions and discards made to both stores, on keys that
    mirror the in-memory store. *)

From stdpp Require Import pretty.
From S2P Require Import Prelude JsMap Json StreamTypes SteerRecovery StoreState StoreSteers StoreParked.
From S2P Require Import StoreJobs StoreCleanup StoreFrame StoreRun StoreEpochs StoreParking StoreRecovery StoreQueue.
From S2P Require Import RedisScripts RedisLua RedisJobs RedisRoundTrip RedisSteers RedisRows RedisAdmission.
From S2P Require Import RedisDrain RedisEdits RedisStore RedisLeftovers RedisParcels RedisRecovery.

(** ** Calls *)

Inductive RecoveryOp :=
| Park (payload : json) (expected : option Z)
| ClaimDetailed (userId : string) (tenantId : option string) (requested : GenerationProtocolVersion)
| ClaimPayload (userId : string) (tenantId : option string)
| Consume (steerId userId : string) (tenantId : option string) (created : Z)
| Discard (clientSteerId steerId userId : string) (tenantId : option string) (expected : option Z).

Inductive RecoveryOut :=
| Done
| Claimed (o : option (GenerationProtocolVersion * jtext))
| Payload (o : option jtext)
| Settled (b : bool).

(** Claims answer payloads of the same parcel, perhaps with their properties in another order. *)
Definition agrees (a : result string RecoveryOut) (o : RecoveryOut) : Prop :=
  match a, o with
  | Ok Done, Done => True
  | Ok (Claimed a), Claimed o => same_claim a o
  | Ok (Payload a), Payload o => option_Forall2 same_payload a o
  | Ok (Settled a), Settled o => a = o
  | _, _ => False
  end.

Section stores.
Variable lua_number : jnum -> jnum.
Context {lua : LuaNumber lua_number}.
Variable completed : Z.
Abbreviation mirrors := (mirrors (lua_number := lua_number)).

Definition answered {A} (f : A -> RecoveryOut) (p : result string A * Rows) : result string RecoveryOut * Rows :=
  (match p.1 with Ok x => Ok (f x) | Throw e => Throw e end, p.2).

Definition recover_redis (op : RecoveryOp) (r : Rows) : result string RecoveryOut * Rows :=
  match op with
  | Park v e => answered (fun _ => Done) (parkSteers lua_number completed (Text v) e r)
  | ClaimDetailed u t q => answered Claimed (claimParkedSteersDetailed lua_number u t q r)
  | ClaimPayload u t => answered Payload (claimParkedSteers lua_number u t r)
  | Consume id u t c => answered Settled (consumeParkedSteer lua_number id u t c r)
  | Discard c id u t e => answered Settled (discardSteerLeftover lua_number c id u t e r)
  end.

Definition recover_memory (k : string) (now : Z) (op : RecoveryOp) (s : Store) : RecoveryOut * Store :=
  match op with
  | Park v e => (Done, StoreParked.parkSteers k (Text v) e now s)
  | ClaimDetailed u t q => prod_map Claimed id (StoreParked.claimParkedSteersDetailed k u t q now s)
  | ClaimPayload u t => prod_map Payload id (StoreParked.claimParkedSteers k u t now s)
  | Consume i u t c => prod_map Settled id (StoreParked.consumeParkedSteer k i u t c now s)
  | Discard c i u t e => prod_map Settled id (StoreParked.discardSteerLeftover k c i u t e now s)
  end.

(** What is parked is a parcel, and a payload parked without a job does not ask for protocol 2. *)
Definition allowed (k : string) (op : RecoveryOp) (s : Store) : Prop :=
  match op with
  | Park v _ => (exists p, parks (lua_number := lua_number) v p) /\
      (mget (jobs s) k = None -> normalizeGenerationProtocol (jfield v "generationProtocolVersion") = V1)
  | _ => True
  end.

Lemma recover_refines k now r s op :
  mirrors k now r s -> allowed k op s ->
  agrees (recover_redis op r).1 (recover_memory k now op s).1 /\
  mirrors k now (recover_redis op r).2 (recover_memory k now op s).2.
Proof.
  intros H Hop. destruct op as [v e|u t q|u t|i u t c|c i u t e]; cbn [recover_redis recover_memory].
  - destruct Hop as [[p Hp] Hm]. pose proof (park_refines k now r s v p e completed H Hp Hm) as Hr.
    destruct (parkSteers _ _ _ _ r) as [a r']. destruct Hr as [-> Hr]. by split.
  - pose proof (claim_parked_refines k now r s u t q H) as Hr.
    destruct (claimParkedSteersDetailed _ u t q r), (StoreParked.claimParkedSteersDetailed k u t q now s).
    destruct Hr as [(x & -> & Hx) Hr]. by split.
  - pose proof (claim_parked_refines k now r s u t V2 H) as Hr.
    unfold claimParkedSteers, StoreParked.claimParkedSteers.
    destruct (claimParkedSteersDetailed _ u t V2 r) as [a r'],
      (StoreParked.claimParkedSteersDetailed k u t V2 now s) as [o s'].
    destruct Hr as [(x & -> & Hx) Hr]. split; [|done]. cbn.
    destruct x as [[]|], o as [[]|]; try done; constructor. apply Hx.
  - pose proof (consume_refines k now r s i u t c H) as Hr.
    destruct (consumeParkedSteer _ i u t c r), (StoreParked.consumeParkedSteer k i u t c now s).
    destruct Hr as [-> Hr]. by split.
  - pose proof (discard_refines k now r s c i u t e H) as Hr.
    destruct (discardSteerLeftover _ c i u t e r), (StoreParked.discardSteerLeftover k c i u t e now s).
    destruct Hr as [-> Hr]. by split.
Qed.

(** Time passes without the expiry of a receipt or of the parked payload. *)
Definition parked_alive (k : string) (now : Z) (s : Store) : Prop :=
  match mget (parkedSteers s) k with
  | Some p => expired (Parked.expiresAt p) now = false
  | None => True
  end.

Lemma mirrors_now k now now' r s :
  mirrors k now r s -> (now <= now')%Z -> receipts_live k now' s -> parked_alive k now' s ->
  mirrors k now' r s.
Proof.
  intros [H1 H2 H3 H4] Hle Hl Hp. split; [by eapply represents_now | exact H2 | exact H3 |].
  replace (live_parked s k now') with (live_parked s k now); [exact H4|].
  unfold live_parked, parked_alive in *. destruct (mget (parkedSteers s) k) as [p|]; [|done].
  rewrite Hp. destruct (Parked.expiresAt p); [|done]. cbn in *.
  rewrite bool_decide_eq_false in Hp. rewrite bool_decide_eq_false_2 by lia. done.
Qed.

Fixpoint redis_recoveries (calls : list (Z * RecoveryOp)) (r : Rows) : list (result string RecoveryOut) :=
  match calls with
  | [] => []
  | (_, op) :: calls => let '(a, r') := recover_redis op r in a :: redis_recoveries calls r'
  end.
Fixpoint memory_recoveries (k : string) (calls : list (Z * RecoveryOp)) (s : Store) : list RecoveryOut :=
  match calls with
  | [] => []
  | (now, op) :: calls => let '(o, s') := recover_memory k now op s in o :: memory_recoveries k calls s'
  end.
(** The calls come in the order of their times, before anything they may read expires. *)
Fixpoint timely (k : string) (now : Z) (calls : list (Z * RecoveryOp)) (s : Store) : Prop :=
  match calls with
  | [] => True
  | (t, op) :: calls =>
      (now <= t)%Z /\ receipts_live k t s /\ parked_alive k t s /\ allowed k op s /\
      timely k t calls (recover_memory k t op s).2
  end.
End stores.

(** The Redis store and the in-memory store are interchangeable for the recovery of steers: started
    on keys that mirror the store, they answer every sequence of parkings, claims of either
    protocol, consumptions and discards alike, as long as neither the receipts nor the parked
    payload have expired: the same owner is let in, the same leftovers are hidden behind the
    generation that recovers one of them, and the same receipts are settled. *)
Theorem redis_recovery_refines_memory lua_number (lua : LuaNumber lua_number) completed k now calls r s
    (Hs : mirrors (lua_number := lua_number) k now r s) (Hc : timely lua_number k now calls s) :
  Forall2 agrees (redis_recoveries lua_number completed calls r) (memory_recoveries k calls s).
Proof.
  revert now r s Hs Hc. induction calls as [|[t op] calls IH]; intros now r s Hs Hc; [constructor|].
  destruct Hc as (Hle & Hl & Hp & Hop & Hc). pose proof (mirrors_now lua_number k now t r s Hs Hle Hl Hp) as Ht.
  destruct (recover_refines lua_number completed k t r s op Ht Hop) as [Ha Hr].
  cbn [redis_recoveries memory_recoveries].
  destruct (recover_redis lua_number completed op r) as [a r'], (recover_memory k t op s) as [o s'].
  constructor; [done | by apply (IH t)].
Qed.

(** ** An evaluated instance *)

(** The generation that recovers the first of two leftovers of its owner, in both stores. *)
Module ParkingDemo.
Definition job : Job.t :=
  let old := ReplacedGeneration.mk 10 aborted None (Some false) None None in
  Job.mk "s1" "u1" None running 30 (Some V2) (Some "30") None None None None (Some "st1") None (Some false)
    None None false None None None None None None None None None [] None (Some old) (Some [old]).
Definition hash : jsmap text :=
  [("streamId", Word "s1"); ("userId", Word "u1"); ("status", Word "running"); ("createdAt", Word "30");
   ("generationProtocolVersion", Word "2"); ("checkpointNamespace", Word "30");
   ("recoveredSteerId", Word "st1"); ("providerAbortReady", Word "0"); ("syncSent", Word "0");
   ("__replacedCreatedAt", Word "10"); ("__replacedStatus", Word "aborted");
   ("__replacedGenerations",
    Doc (Text (JArr [JObj [("createdAt", jint 10); ("status", JStr "aborted");
                           ("providerAbortReady", JBool false)]])))].
Definition receipt : json :=
  JObj [("clientSteerId", JStr "c1"); ("fingerprint", JStr "fp"); ("userId", JStr "u1");
        ("generationCreatedAt", jint 10); ("position", jint 1); ("state", JStr "leftover");
        ("item", item_json (Demo.item "st1" (Some "c1") "u1"))].
Definition leftover1 : json :=
  JObj [("recoveringCreatedAt", jint 30); ("text", JStr "text"); ("createdAt", jint 5);
        ("clientSteerId", JStr "c1"); ("steerId", JStr "st1")].
Definition leftover2 : json := JObj [("steerId", JStr "st2"); ("text", JStr "text"); ("createdAt", jint 5)].
Definition payload : json :=
  JObj [("steers", JArr [leftover1; leftover2]); ("generationProtocolVersion", jint 2);
        ("userId", JStr "u1")].
Definition rows : Rows :=
  with_parkedKey (Some (Key.mk (Text payload) (Some 300%Z)))
    (with_orderKey (Some (Key.mk [("c1", 11%Z)] None))
       (with_receiptsKey (Some (Key.mk [("c1", Text receipt)] None))
          (with_jobHash (Some (Key.mk hash None)) no_rows))).
Definition entry : ReceiptEntry.t :=
  ReceiptEntry.mk (SteerReceipt.mk "c1" "fp" "u1" None None None 10 (Demo.item "st1" (Some "c1") "u1") 1 leftover)
    (At 1500030).
Definition payload2 : json := JObj [("userId", JStr "u1"); ("steers", JArr [leftover2])].
Definition calls : list (Z * RecoveryOp) :=
  [(31, ClaimPayload "u1" None); (32, Discard "c1" "st1" "u1" None (Some 10));
   (33, ClaimDetailed "u2" None V2); (34, ClaimDetailed "u1" None V1); (35, Consume "st1" "u1" None 30);
   (36, Consume "st1" "u1" None 30);
   (37, Park payload2 (Some 30));
   (38, ClaimDetailed "u1" None V1); (39, ClaimPayload "u1" None)]%Z.
End ParkingDemo.

Lemma leftover1_read :
  reads_leftover ParkingDemo.leftover1 (Leftover.mk (Demo.item "st1" (Some "c1") "u1") (Some 30%Z)).
Proof. by split. Qed.
Lemma leftover2_read : reads_leftover ParkingDemo.leftover2 (Leftover.mk (Demo.item "st2" None "u1") None).
Proof. by split. Qed.
Lemma leftovers_fine :
  leftover_fine (lua_number := fun n => n) (Leftover.mk (Demo.item "st1" (Some "c1") "u1") (Some 30%Z)) /\
  leftover_fine (lua_number := fun n => n) (Leftover.mk (Demo.item "st2" None "u1") None).
Proof. by split; split; try done; intros z [= <-]. Qed.

Lemma demo_receipts : receipts_of Demo.recovering "s1" = [("c1", ParkingDemo.entry)].
Proof. by vm_compute. Qed.
Lemma demo_receipt_row : receipt_row (lua_number := fun n => n) (Text ParkingDemo.receipt) (ReceiptEntry.receipt ParkingDemo.entry).
Proof.
  exists ParkingDemo.receipt. split_and!; [done | |].
  - split; try done. eexists. split; [done | apply reads_item_json].
  - by split.
Qed.

Lemma demo_job : mget (jobs Demo.recovering) "s1" = Some ParkingDemo.job.
Proof. by vm_compute. Qed.
Lemma demo_open : closedSteerQueues Demo.recovering = [].
Proof. by vm_compute. Qed.
Lemma demo_hash : job_fields ParkingDemo.job = ParkingDemo.hash.
Proof. by vm_compute. Qed.

Lemma demo_job_row : job_row ParkingDemo.rows Demo.recovering "s1" ParkingDemo.job.
Proof.
  split; [reflexivity | reflexivity | reflexivity | | by split | by split].
  intros _. rewrite demo_open. split; [by intros H; vm_compute in H | by intros ?%elem_of_nil].
Qed.
Lemma demo_job_storable : storable ParkingDemo.job.
Proof.
  split; [by constructor|]. split_and!; [done | cbn; lia | | done | by intros r [= <-]].
  repeat split; try done; by intros i [= <-].
Qed.

Lemma demo_queues : queue_of Demo.recovering "s1" = [] /\ claims_of Demo.recovering "s1" = [].
Proof. by vm_compute. Qed.
Lemma demo_parked :
  live_parked Demo.recovering "s1" 30 =
  Some (Parked.mk (Text (JObj [("userId", JStr "u1"); ("generationProtocolVersion", jint 2);
    ("steers", JArr [JObj [("steerId", JStr "st1"); ("clientSteerId", JStr "c1"); ("text", JStr "text");
                           ("createdAt", jint 5); ("recoveringCreatedAt", jint 30)];
                     ParkingDemo.leftover2])])) (At 1500030)).
Proof. by vm_compute. Qed.

Lemma demo_mirrored : mirrors (lua_number := fun n => n) "s1" 30 ParkingDemo.rows Demo.recovering.
Proof.
  destruct demo_queues as [Hq Hc]. split.
  - split.
    + rewrite demo_job. apply demo_job_row.
    + rewrite Hq. constructor.
    + rewrite Hq. constructor.
    + rewrite Hc. constructor.
    + intros c. unfold receipt_of. rewrite demo_receipts.
      change (HGET c (receiptsKey ParkingDemo.rows)) with (mget [("c1", Text ParkingDemo.receipt)] c).
      cbn [mget]. case_decide as Ec; [|done]. subst c. split_and!; [apply demo_receipt_row | done | done].
    + rewrite demo_receipts. apply NoDup_singleton.
    + intros c. unfold receipt_of. rewrite demo_receipts.
      change (HGET c (orderKey ParkingDemo.rows)) with (mget [("c1", 11%Z)] c).
      cbn [mget]. clear Hq Hc. destruct (decide ("c1" = c)); [|by split; intros [? ?]].
      split; intros _; by eexists.
    + apply NoDup_singleton.
  - clear Hq Hc. intros j. rewrite demo_job. intros [= <-]. split_and!; [|apply demo_job_storable | done | done].
    intros k _. change (content [] (jobHash ParkingDemo.rows)) with ParkingDemo.hash. by rewrite demo_hash.
  - clear Hq Hc. intros c e. unfold receipt_of. rewrite demo_receipts. cbn [mget]. case_decide; [|done]. by intros [= <-].
  - clear Hq Hc. rewrite demo_parked. destruct leftovers_fine as [F1 F2].
    exists (Parcel.mk "u1" None V2 [Leftover.mk (Demo.item "st1" (Some "c1") "u1") (Some 30%Z);
                                  Leftover.mk (Demo.item "st2" None "u1") None]), ParkingDemo.payload.
    eexists. split_and!; [done | done | | |].
    + split; try done. eexists. split; [done|].
      apply List.Forall2_cons; [apply leftover1_read | apply List.Forall2_cons; [apply leftover2_read | constructor]].
    + split; try done. eexists. split; [done|].
      apply List.Forall2_cons; [by split | apply List.Forall2_cons; [by split | constructor]].
    + split; [done | done | | done]. apply Forall_cons; split; [done | by apply Forall_singleton].
Qed.

Lemma parked_again : parks (lua_number := fun n => n) ParkingDemo.payload2
  (Parcel.mk "u1" None V1 [Leftover.mk (Demo.item "st2" None "u1") None]).
Proof.
  split_and!; [|done|].
  - split; try done. eexists. split; [done|]. apply List.Forall2_cons; [apply leftover2_read | constructor].
  - destruct leftovers_fine. split; [done | done | | done]. by apply Forall_singleton.
Qed.

Lemma redis_recovery_refines_memory_witness :
  Forall2 agrees (redis_recoveries (fun n => n) 0 ParkingDemo.calls ParkingDemo.rows)
    (memory_recoveries "s1" ParkingDemo.calls Demo.recovering).
Proof.
  apply (redis_recovery_refines_memory (fun n => n) {| lua_number_exact := fun z _ => eq_refl |}
           0 "s1" 30); [apply demo_mirrored|].
  unfold ParkingDemo.calls. cbn [timely].
  repeat (refine (conj _ (conj (receipts_live_check _ _ _ _) (conj _ (conj _ _))));
    [lia | vm_compute; reflexivity | vm_compute; first [reflexivity | exact I] | |]); cbn [allowed]; try exact I.
  split; [eexists; apply parked_again | reflexivity].
Defined.
