(* ===== verification/RedisTransitions.v ===== *)
(** * Status transitions in Redis ([stream/implementations/RedisJobStore.ts])

    [JOB_CAS_LUA] checks the guards, validates what a terminal transition is about to move, rewrites
    the job, refreshes the expiries of the stream's keys and, when the new status is terminal, turns
    the unsettled steers into leftovers and parks them, all in one script.  The reconciliation of
    the membership sets, which follows it, is in [RedisMembership]. *)

From stdpp Require Import pretty.
From S2P Require Import Prelude JsMap Json StreamTypes StoreState StoreJobs.
From S2P Require Import RedisScripts RedisLua RedisJobs RedisSteers RedisLeftovers.

(** ** Keys *)

(** The keys of a stream that a transition touches, besides [Rows]; the script only deletes the
    chunks and the run steps, or sets their expiry. *)
Record Stream := mkStream {
  rows : Rows;
  sequenceKey : option (Key.t Z);
  chunksKey : option (Key.t (list jtext));
  runStepsKey : option (Key.t (list jtext));
  epochKey : option (Key.t string)
}.
Definition with_rows (r : Rows) (st : Stream) : Stream := {| st with rows := r |}.

(** [EXPIRE key seconds]: an expiry that is not in the future deletes the key. *)
Definition EXPIRE_IN {A} (seconds : Z) (k : option (Key.t A)) : option (Key.t A) :=
  if decide (0 < seconds)%Z then EXPIRE seconds k else None.
(** [if ttl == 0 then DEL else EXPIRE] *)
Definition retire {A} (seconds : Z) (k : option (Key.t A)) : option (Key.t A) :=
  if decide (seconds = 0)%Z then None else EXPIRE_IN seconds k.
(** [HDEL]: a hash without fields is gone. *)
Definition HDEL {A} (field : string) (k : option (Key.t (jsmap A))) : option (Key.t (jsmap A)) :=
  match mdel (content [] k) field with [] => None | m => rewrite_key m k end.

(** ** [JOB_CAS_LUA] *)

Module CasArgs.
Record t := mk {
  from : string;
  expectActionId : string;
  expectCreatedAt : string;
  ttl : Z;
  is_terminal : bool;
  chunksAfterComplete : Z;
  runStepsAfterComplete : Z;
  parkedSteersTtl : Z;
  generationEpochGraceTtl : Z;
  steerReceiptTtl : Z;
  returnDrainedSteers : bool;
  hdelFields : list string;
  hsetPairs : jsmap text
}.
End CasArgs.

Definition cas_guard (a : CasArgs.t) (r : Rows) : bool :=
  bool_decide (hget_job "status" r = Some (CasArgs.from a)) &&
  negb (bool_decide (CasArgs.expectActionId a <> "" /\
                     hget_job "pendingActionId" r <> Some (CasArgs.expectActionId a))) &&
  createdAt_guard (CasArgs.expectCreatedAt a) r.

(** The rows of [sources]: claimed items of protocol 2, then queued ones. *)
Definition source_rows (r : Rows) : list jtext :=
  (if protocolV2 r then LRANGE (claimedKey r) else []) ++ LRANGE (steersKey r).
Definition sound_row (t : jtext) : bool :=
  match JSON_parse t with Some v => has_id v | None => false end.

(** [validatedPrior] and [parkedProtocol]; [None] when what is parked is not the owner's or is not
    readable. *)
Definition prior (r : Rows) : option (list json * GenerationProtocolVersion) :=
  let own := if protocolV2 r then V2 else V1 in
  match GET_parked r with
  | None => Some ([], own)
  | Some raw =>
      match parked_shape raw with
      | Some (parked, steers) =>
          if lua_eq (jfield parked "userId") (JStr <$> hget_job "userId" r) &&
             (negb (truthy (jfield parked "tenantId")) ||
              lua_eq (jfield parked "tenantId") (JStr <$> hget_job "tenantId" r))
          then Some (steers, if marked_v2 parked then V2 else own) else None
      | None => None
      end
  end.

(** The job after [HDEL], [HSET] and the closing of its queue. *)
Definition write_job (a : CasArgs.t) (h : option (Key.t (jsmap text))) : option (Key.t (jsmap text)) :=
  let h := foldl (fun h f => HDEL f h) h (CasArgs.hdelFields a) in
  let h := foldl (fun h e => HSET e.1 e.2 h) h (CasArgs.hsetPairs a) in
  if CasArgs.is_terminal a then HSET "steersClosed" (Word "1") h else h.

(** The distinct items of the rows, the first of each id. *)
Definition steer_key (v : json) : option json := jfield v "steerId".
Definition distinct_items (rows : list jtext) : list json := dedup_on steer_key (omap JSON_parse rows).

(** [clientItem] *)
Definition if_truthy (item : json) (f : string) : list (string * json) :=
  if truthy (jfield item f) then opt_prop f (jfield item f) else [].
Definition projected (item : json) : json :=
  JObj (opt_prop "steerId" (jfield item "steerId") ++ opt_prop "text" (jfield item "text") ++
        opt_prop "createdAt" (jfield item "createdAt") ++ if_truthy item "clientSteerId" ++
        if_truthy item "files" ++ if_truthy item "preempt" ++ if_truthy item "preemptRevision").

(** The lifetimes of a store, in seconds ([this.ttl]). *)
Module Ttl.
Record t := mk {
  completed : Z;
  running : Z;
  chunksAfterComplete : Z;
  runStepsAfterComplete : Z;
  requiresAction : Z
}.
End Ttl.

Section scripts.
Variable lua_number : jnum -> jnum.
Abbreviation encode := (cjson_encode lua_number).

(** The receipt of an item that becomes a leftover. *)
Definition leave_receipt (rk : option (Key.t (jsmap jtext))) (item : json) : option (Key.t (jsmap jtext)) :=
  match as_string (jfield item "clientSteerId") with
  | Some c =>
      match HGET c rk ≫= JSON_parse with
      | Some receipt =>
          if is_object receipt
          then HSET c (encode (jset (jset receipt "item" item) "state" (JStr "leftover"))) rk
          else rk
      | None => rk
      end
  | None => rk
  end.

(** The payload [{ userId, generationProtocolVersion, steers, tenantId? }]. *)
Definition parked_payload_of (ownerUserId : string) (ownerTenantId : option string)
    (protocol : GenerationProtocolVersion) (steers : list json) : json :=
  JObj ([("userId", JStr ownerUserId); ("generationProtocolVersion", protocol_json protocol);
         ("steers", JArr steers)] ++ opt_prop "tenantId" (JStr <$> ownerTenantId)).

(** The parked steers merged with the items. *)
Definition merge_parked (old : Rows) (prior : list json * GenerationProtocolVersion) (items : list json)
    (parkedTtl : Z) (r : Rows) : Rows :=
  match items, hget_job "userId" old with
  | _ :: _, Some ownerUserId =>
      with_parkedKey
        (SET (encode (parked_payload_of ownerUserId (hget_job "tenantId" old) prior.2
                        (dedup_on steer_key (prior.1 ++ (projected <$> items))))) (Some parkedTtl)) r
  | _, _ => r
  end.

(** The expiries of the job, its receipts, the parked steers and the event sequence. *)
Definition refresh (a : CasArgs.t) (st : Stream) : Z * Stream :=
  let r := rows st in
  let ttl := if negb (CasArgs.is_terminal a) && bool_decide (hget_job "status" r = Some "requires_action")
             then Z.max (CasArgs.ttl a) (TTL (jobHash r)) else CasArgs.ttl a in
  let r := with_jobHash (EXPIRE_IN ttl (jobHash r)) r in
  let recovers := negb (CasArgs.is_terminal a) && bool_decide (is_Some (hget_job "recoveredSteerId" r)) in
  let lease := (ttl + CasArgs.parkedSteersTtl a)%Z in
  let receiptTtl := Z.max (CasArgs.steerReceiptTtl a)
                      (if CasArgs.is_terminal a then CasArgs.parkedSteersTtl a else ttl) in
  let receiptTtl := if recovers then Z.max receiptTtl lease else receiptTtl in
  let r := if recovers then with_parkedKey (extend_ttl lease (parkedKey r)) r else r in
  let r := if decide (0 < receiptTtl)%Z
           then with_receiptsKey (extend_ttl receiptTtl (receiptsKey r))
                  (with_orderKey (extend_ttl receiptTtl (orderKey r)) r) else r in
  (ttl, {| (with_rows r st) with sequenceKey := extend_ttl ttl (sequenceKey st) |}).

(** What a terminal transition does with the unsettled steers and the content of the stream. *)
Definition settle_terminal (a : CasArgs.t) (old : Rows) (prior : list json * GenerationProtocolVersion)
    (st : Stream) : Stream :=
  let r := rows st in
  let items := distinct_items (source_rows old) in
  let r := if protocolV2 old
           then with_receiptsKey (foldl leave_receipt (receiptsKey r) items) r else r in
  let r := merge_parked old prior items (CasArgs.parkedSteersTtl a) r in
  let r := with_steersKey None (with_claimedKey None r) in
  {| (with_rows r st) with
     chunksKey := retire (CasArgs.chunksAfterComplete a) (chunksKey st);
     runStepsKey := retire (CasArgs.runStepsAfterComplete a) (runStepsKey st) |}.

Definition keep_running (ttl : Z) (st : Stream) : Stream :=
  let r := rows st in
  {| (with_rows (with_steersKey (EXPIRE_IN ttl (steersKey r)) (with_claimedKey (EXPIRE_IN ttl (claimedKey r)) r)) st)
     with chunksKey := EXPIRE_IN ttl (chunksKey st); runStepsKey := EXPIRE_IN ttl (runStepsKey st) |}.

Definition JOB_CAS (a : CasArgs.t) (st : Stream) : Reply * Stream :=
  let old := rows st in
  if negb (cas_guard a old) then (RInt 0, st)
  else
    let validated :=
      if CasArgs.is_terminal a
      then if forallb sound_row (source_rows old) then prior old else None
      else Some ([], V1) in
    match validated with
    | None => (RInt 0, st)
    | Some found =>
        let '(ttl, st1) := refresh a (with_rows (with_jobHash (write_job a (jobHash old)) old) st) in
        let st2 :=
          match hget_job "createdAt" old with
          | Some createdAt =>
              {| st1 with epochKey := SET createdAt (Some (ttl + CasArgs.generationEpochGraceTtl a)%Z) |}
          | None => st1
          end in
        if CasArgs.is_terminal a then
          let st3 := settle_terminal a old found st2 in
          (if CasArgs.returnDrainedSteers a
           then match distinct_items (source_rows old) with
                | [] => RText (Text (JArr []))
                | items => RText (encode (JArr items))
                end
           else RInt 1, st3)
        else (RInt 1, keep_running ttl st2)
    end.

(** ** Methods *)

Section methods.
Variable ttls : Ttl.t.

(** [GENERATION_EPOCH_GRACE_TTL_S], [TERMINAL_PERSISTENCE_RETENTION_TTL_S] *)
Definition GENERATION_EPOCH_GRACE_TTL_S : Z := 300.
Definition TERMINAL_PERSISTENCE_RETENTION_TTL_S : Z := 300.

(** [pauseTtlSeconds(pendingAction)], with [Math.ceil] of the seconds left. *)
Definition pauseTtlSeconds (expiresAt : option Z) (now : Z) : Z :=
  match expiresAt with
  | None => Ttl.requiresAction ttls + GENERATION_EPOCH_GRACE_TTL_S
  | Some exp =>
      let secondsUntilExpiry := - ((now - exp) / 1000) + 60 in
      Z.max (Ttl.requiresAction ttls) secondsUntilExpiry + GENERATION_EPOCH_GRACE_TTL_S
  end%Z.
Definition runningStorageTtlSeconds : Z := (Ttl.running ttls + GENERATION_EPOCH_GRACE_TTL_S)%Z.

(** [Object.entries({ status: to, ...patch })] *)
Definition entries_of (fields : list JobField) (m : list (string * json)) : list (string * json) :=
  foldl (fun m f => mset m (field_entry f).1 (field_entry f).2) m fields.
Definition patch_entries (args : JobStatusTransition.t) : list (string * json) :=
  entries_of (F_status (JobStatusTransition.to args) :: JobStatusTransition.patch args) [].

(** The lifetime of the job after the transition. *)
Definition transition_ttl (args : JobStatusTransition.t) (now : Z) : Z :=
  let is_true k := bool_decide (mget (patch_entries args) k = Some (JBool true)) in
  let to := JobStatusTransition.to args in
  let ttl := if terminal to then Ttl.completed ttls else runningStorageTtlSeconds in
  let ttl := if terminal to && is_true "terminalPersistencePending"
             then Z.max ttl TERMINAL_PERSISTENCE_RETENTION_TTL_S else ttl in
  let ttl := if terminal to && is_true "terminalHostActionPending"
             then Z.max ttl (Ttl.requiresAction ttls) else ttl in
  if decide (to = requires_action)
  then pauseTtlSeconds (patch_approvalExpiry (JobStatusTransition.patch args)) now else ttl.

Definition cas_args (args : JobStatusTransition.t) (returnDrainedSteers : bool) (now : Z) : CasArgs.t :=
  CasArgs.mk (status_text (JobStatusTransition.from args))
    (default "" (JobStatusTransition.expectActionId args))
    (expected_arg (JobStatusTransition.expectCreatedAt args)) (transition_ttl args now)
    (terminal (JobStatusTransition.to args)) (Ttl.chunksAfterComplete ttls)
    (Ttl.runStepsAfterComplete ttls) (parkedRecoveryTtlSeconds (Ttl.completed ttls))
    GENERATION_EPOCH_GRACE_TTL_S (default 0%Z (JobStatusTransition.steerReceiptTtlSeconds args))
    returnDrainedSteers (key_name <$> JobStatusTransition.clear args)
    (serializeJob (patch_entries args)).

(** What a transition comes to: [true], the drained steers, or [null]. *)
Inductive CasAnswer := Fired | Drained (items : list json) | Lost.

(** [transitionStatusInternal(streamId, args, returnDrainedSteers)], up to the reconciliation of the
    membership sets. *)
Definition transitionStatusInternal (args : JobStatusTransition.t) (returnDrainedSteers : bool)
    (now : Z) (st : Stream) : result string CasAnswer * Stream :=
  let terminalJob := if terminal (JobStatusTransition.to args) then getJob (jobHash (rows st)) else Ok None in
  match terminalJob with
  | Throw e => (Throw e, st)
  | Ok _ =>
      let '(reply, st') := JOB_CAS (cas_args args returnDrainedSteers now) st in
      (match returnDrainedSteers, reply with
       | false, RInt 1 => Ok Fired
       | true, RText t =>
           match JSON_parse t with
           | Some (JArr items) => Ok (Drained items)
           | Some _ => Throw "Invalid terminal steer drain response"
           | None => Throw "SyntaxError"
           end
       | _, _ => Ok Lost
       end, st')
  end.

Definition transitionStatus (args : JobStatusTransition.t) (now : Z) (st : Stream)
  : result string bool * Stream :=
  let '(a, st') := transitionStatusInternal args false now st in
  (match a with Ok Fired => Ok true | Ok _ => Ok false | Throw e => Throw e end, st').

Definition transitionStatusAndDrainSteers (args : JobStatusTransition.t) (now : Z) (st : Stream)
  : result string (option (list json)) * Stream :=
  if negb (terminal (JobStatusTransition.to args))
  then (Throw "Steer-draining status transitions must be terminal", st)
  else
    let '(a, st') := transitionStatusInternal args true now st in
    (match a with Ok (Drained items) => Ok (Some items) | Ok _ => Ok None | Throw e => Throw e end, st').
End methods.
End scripts.
