(* ===== verification/RedisWrites.v ===== *)
(** * Writes of the job hash against assignments of the job

    A transition deletes and sets fields of the hash; the in-memory store assigns and deletes
    properties.  When no property is in both lists the two orders agree, and the hash keeps the
    job. *)

From stdpp Require Import pretty.
From S2P Require Import Prelude JsMap Json StreamTypes StoreState StoreJobs.
From S2P Require Import RedisScripts RedisLua RedisJobs RedisRoundTrip RedisSteers RedisLeftovers RedisTransitions.

(** ** Entries of a patch *)

Definition pair_of (f : JobField) : string := (field_entry f).1.

Lemma entries_wf fs m : mwf m -> mwf (entries_of fs m).
Proof. revert m. induction fs as [|f fs IH]; intros m Hm; [done|]. apply IH, mwf_mset, Hm. Qed.

Lemma mget_mset_dec {A} (m : jsmap A) k v k' : mget (mset m k v) k' = if decide (k = k') then Some v else mget m k'.
Proof. case_decide; [subst; apply mget_mset_eq | by apply mget_mset_ne]. Qed.
Lemma mget_mdel_dec {A} (m : jsmap A) k k' : mget (mdel m k) k' = if decide (k = k') then None else mget m k'.
Proof. case_decide; [subst; apply mget_mdel_eq | by apply mget_mdel_ne]. Qed.

(** Assignment, as the entries that are assigned and those that stay. *)
Lemma entry_assign fs j j0 m :
  Forall field_named fs ->
  (forall k, entry j k = match mget m k with Some v => Some v | None => entry j0 k end) ->
  forall k, entry (assign j fs) k = match mget (entries_of fs m) k with Some v => Some v | None => entry j0 k end.
Proof.
  intros Hf. revert j m. induction Hf as [|f fs Hn _ IH]; intros j m Hm k; [apply Hm|].
  apply (IH (assign1 j f)). intros k'. rewrite entry_assign1 by done. rewrite mget_mset_dec.
  case_decide; [done | apply Hm].
Qed.

Lemma entry_clear keys j k :
  Forall key_named keys ->
  entry (clear j keys) k = if decide (k ∈ key_name <$> keys) then None else entry j k.
Proof.
  intros Hk. revert j. induction Hk as [|key keys Hn _ IH]; intros j; [done|].
  change (clear j (key :: keys)) with (clear (clear1 j key) keys). rewrite IH, entry_clear1 by done.
  rewrite fmap_cons. destruct (decide (k ∈ key_name <$> keys)) as [H|H].
  - by rewrite decide_True by (by right).
  - destruct (decide (key_name key = k)) as [<-|Hne].
    + by rewrite decide_True by (by left).
    + rewrite decide_False; [done|]. rewrite elem_of_cons. naive_solver.
Qed.

Lemma entries_domain fs m k :
  is_Some (mget (entries_of fs m) k) <-> k ∈ pair_of <$> fs \/ is_Some (mget m k).
Proof.
  revert m. induction fs as [|f fs IH]; intros m; cbn; [rewrite elem_of_nil; tauto|].
  unfold entries_of in *. cbn. rewrite IH, mget_mset_dec, elem_of_cons. unfold pair_of at 2.
  case_decide; naive_solver.
Qed.

(** The job of a transition: status and patch, less what is cleared. *)
Lemma entry_transitioned args j k :
  Forall field_named (JobStatusTransition.patch args) -> Forall key_named (JobStatusTransition.clear args) ->
  entry (transitioned args j) k =
  if decide (k ∈ key_name <$> JobStatusTransition.clear args) then None
  else match mget (patch_entries args) k with Some v => Some v | None => entry j k end.
Proof.
  intros Hp Hc. unfold transitioned. rewrite entry_clear by done. case_decide; [done|].
  unfold patch_entries. apply (entry_assign (F_status _ :: _)); [by constructor | done].
Qed.

(** ** Writes of a hash *)

Section hash.
Context {A : Type}.
Implicit Types h : option (Key.t (jsmap A)).

Lemma mget_HDEL f h k : mget (content [] (HDEL f h)) k = if decide (f = k) then None else mget (content [] h) k.
Proof.
  rewrite <- mget_mdel_dec. unfold HDEL. by destruct (mdel (content [] h) f).
Qed.
Lemma mget_HSET f v h k :
  mget (content [] (HSET f v h)) k = if decide (f = k) then Some v else mget (content [] h) k.
Proof. apply mget_mset_dec. Qed.

Lemma mget_HDELs fs h k :
  mget (content [] (foldl (fun h f => HDEL f h) h fs)) k = if decide (k ∈ fs) then None else mget (content [] h) k.
Proof.
  revert h. induction fs as [|f fs IH]; intros h; [done|]. cbn [foldl]. rewrite IH, mget_HDEL.
  destruct (decide (k ∈ fs)) as [H|H].
  - by rewrite decide_True by (by right).
  - destruct (decide (f = k)) as [<-|Hne].
    + by rewrite decide_True by (by left).
    + rewrite decide_False; [done|]. rewrite elem_of_cons. naive_solver.
Qed.

Lemma mget_HSETs (es : jsmap A) h k :
  mwf es ->
  mget (content [] (foldl (fun h e => HSET e.1 e.2 h) h es)) k =
  match mget es k with Some v => Some v | None => mget (content [] h) k end.
Proof.
  revert h. induction es as [|[f v] es IH]; intros h Hw; [done|].
  unfold mwf, mkeys in Hw. rewrite fmap_cons, NoDup_cons in Hw. destruct Hw as [Hn Hw].
  cbn [foldl mget fst snd]. rewrite IH, mget_HSET by done. case_decide; [|done]. subst f.
  apply mget_None in Hn. cbn in Hn. by rewrite Hn.
Qed.
End hash.

(** ** The hash keeps the job *)

(** A property that a transition may write or delete: it has a column or is metadata of its kind,
    and it does not say whose job it is, which generation, or in which status. *)
Definition patchable (f : JobField) : Prop :=
  match f with
  | F_streamId _ | F_userId _ | F_tenantId _ | F_status _ | F_createdAt _ | F_generationProtocolVersion _ => False
  | F_metadata k v => typed_property (k, v)
  | _ => True
  end.
Definition clearable (k : JobKey) : Prop :=
  match k with
  | K_tenantId => False
  | K_metadata k => is_Some (mget metadata_kinds k)
  | _ => True
  end.

Record patch_fine (args : JobStatusTransition.t) : Prop := {
  tp_patch : Forall patchable (JobStatusTransition.patch args);
  tp_clear : Forall clearable (JobStatusTransition.clear args);
  tp_apart : forall k, k ∈ key_name <$> JobStatusTransition.clear args -> k ∉ pair_of <$> JobStatusTransition.patch args
}.

Lemma kinds_names k :
  is_Some (mget metadata_kinds k) -> named k /\ k ∉ private_names /\ k <> "steersClosed".
Proof.
  intros Hk. split; [by apply (tables_apart metadata_kinds); [vm_compute|]|].
  apply mkeys_mget in Hk. assert (Hc : Forall (fun k => k ∉ private_names /\ k <> "steersClosed") (mkeys metadata_kinds)).
  { apply (bool_decide_unpack _). by vm_compute. }
  rewrite Forall_forall in Hc. by apply Hc.
Qed.

Lemma patchable_names f :
  patchable f -> field_named f /\ pair_of f ∉ private_names /\ pair_of f <> "steersClosed".
Proof.
  intros Hf. destruct f; try done; try (split; [exact I|]; split; [by apply (bool_decide_unpack _); vm_compute | done]).
  destruct Hf as (b & Hb & _). apply kinds_names. by exists b.
Qed.
Lemma clearable_names key :
  clearable key -> key_named key /\ key_name key ∉ private_names /\ key_name key <> "steersClosed".
Proof.
  intros Hf. destruct key; try done; try (split; [exact I|]; split; [by apply (bool_decide_unpack _); vm_compute | done]).
  by apply kinds_names.
Qed.

Lemma patch_named args : patch_fine args ->
  Forall field_named (JobStatusTransition.patch args) /\ Forall key_named (JobStatusTransition.clear args).
Proof.
  intros [Hp Hc _]. split; eapply Forall_impl; try done; [intros f Hf; by apply patchable_names | intros k Hk; by apply clearable_names].
Qed.

(** *** What a transition leaves alone *)

Definition identity (j : Job.t) :=
  (Job.streamId j, Job.userId j, Job.createdAt j, Job.generationProtocolVersion j, Job.creationAttemptId j,
   Job.replacedJob j, Job.replacedJobs j).

Lemma assigned_stamps fs j : Forall patchable fs -> identity (assign j fs) = identity j /\
  Job.tenantId (assign j fs) = Job.tenantId j /\ Job.status (assign j fs) = Job.status j.
Proof.
  intros Hf. revert j. induction Hf as [|f fs Hn _ IH]; intros j; [done|].
  change (assign j (f :: fs)) with (assign (assign1 j f) fs). destruct (IH (assign1 j f)) as (-> & -> & ->).
  by destruct f.
Qed.
Lemma cleared_stamps ks j : Forall clearable ks -> identity (clear j ks) = identity j /\
  Job.tenantId (clear j ks) = Job.tenantId j /\ Job.status (clear j ks) = Job.status j.
Proof.
  intros Hf. revert j. induction Hf as [|k ks Hn _ IH]; intros j; [done|].
  change (clear j (k :: ks)) with (clear (clear1 j k) ks). destruct (IH (clear1 j k)) as (-> & -> & ->).
  by destruct k.
Qed.

Lemma transitioned_stamps args j : patch_fine args ->
  identity (transitioned args j) = identity j /\ Job.tenantId (transitioned args j) = Job.tenantId j /\
  Job.status (transitioned args j) = JobStatusTransition.to args.
Proof.
  intros [Hp Hc _]. unfold transitioned.
  destruct (cleared_stamps _ (assign {| j with Job.status := JobStatusTransition.to args |}
    (JobStatusTransition.patch args)) Hc) as (-> & -> & ->).
  by destruct (assigned_stamps _ {| j with Job.status := JobStatusTransition.to args |} Hp) as (-> & -> & ->).
Qed.

(** Metadata stays of its kinds. *)
Lemma typed_mset m k v : Forall typed_property m -> typed_property (k, v) -> Forall typed_property (mset m k v).
Proof.
  intros Hm Hv. induction Hm as [|[k' v'] m Hp Hr IH]; cbn; [by apply Forall_singleton|].
  case_decide; [subst; by constructor | by constructor].
Qed.
Lemma typed_mdel m k : Forall typed_property m -> Forall typed_property (mdel m k).
Proof. rewrite !Forall_forall. intros Hm x [_ Hx]%list_elem_of_filter. auto. Qed.

Lemma typed_assign fs j : Forall patchable fs ->
  Forall typed_property (Job.metadata j) -> Forall typed_property (Job.metadata (assign j fs)).
Proof.
  intros Hf. revert j. induction Hf as [|f fs Hn _ IH]; intros j Hj; [done|].
  apply (IH (assign1 j f)). destruct f; try done. by apply typed_mset.
Qed.
Lemma typed_clear ks j : Forall typed_property (Job.metadata j) -> Forall typed_property (Job.metadata (clear j ks)).
Proof.
  revert j. induction ks as [|k ks IH]; intros j Hj; [done|]. apply (IH (clear1 j k)).
  destruct k; try done. by apply typed_mdel.
Qed.

Lemma transitioned_storable args j : patch_fine args -> storable j -> storable (transitioned args j).
Proof.
  intros Ha [Ht Hr]. destruct (transitioned_stamps args j Ha) as (Hi & _). destruct Ha as [Hp _ _]. split.
  - apply typed_clear. by apply typed_assign.
  - unfold replaced_ok in *. injection Hi as _ _ -> _ _ -> ->. exact Hr.
Qed.

Lemma job_fields_get j k :
  separate j -> mget (job_fields j) k = match entry j k with Some v => Some (serialize_value v) | None => mget (private_fields j) k end.
Proof.
  intros Hs. unfold job_fields. rewrite mget_app, mget_serializeJob, mget_job_entries by done. by destruct (entry j k).
Qed.

(** [write_job] against [transitioned]. *)
Lemma write_keeps a args j h :
  patch_fine args -> storable j -> keeps_job (content [] h) j ->
  CasArgs.hdelFields a = key_name <$> JobStatusTransition.clear args ->
  CasArgs.hsetPairs a = serializeJob (patch_entries args) ->
  keeps_job (content [] (write_job a h)) (transitioned args j).
Proof.
  intros Ha Hj Hk Hdel Hset k Hne. pose proof (transitioned_storable args j Ha Hj) as Hj'.
  destruct (transitioned_stamps args j Ha) as (Hi & _). destruct (patch_named args Ha) as [Hpn Hcn].
  assert (Hpf : private_fields (transitioned args j) = private_fields j).
  { unfold private_fields. by injection Hi as _ _ _ _ -> -> ->. }
  assert (Hsep : separate j) by (by eapply stored_separate).
  assert (Hsep' : separate (transitioned args j)) by (by eapply stored_separate).
  rewrite job_fields_get, entry_transitioned, Hpf by done.
  assert (Hw : mget (content [] (write_job a h)) k =
    match mget (serializeJob (patch_entries args)) k with
    | Some v => Some v
    | None => if decide (k ∈ key_name <$> JobStatusTransition.clear args) then None else mget (content [] h) k
    end).
  { unfold write_job. rewrite Hdel, Hset.
    assert (Hm : mwf (serializeJob (patch_entries args))).
    { unfold mwf, mkeys, serializeJob. rewrite <- list_fmap_compose. apply (entries_wf _ []). constructor. }
    destruct (CasArgs.is_terminal a); rewrite ?mget_HSET, ?decide_False by done; by rewrite mget_HSETs, mget_HDELs. }
  rewrite Hw, mget_serializeJob. clear Hw.
  destruct (decide (k ∈ key_name <$> JobStatusTransition.clear args)) as [Hc|Hc].
  - assert (Hp : mget (patch_entries args) k = None).
    { apply eq_None_not_Some. unfold patch_entries. rewrite entries_domain. cbn.
      intros [[->|Hin]%elem_of_cons | []%is_Some_None].
      - apply list_elem_of_fmap in Hc as (key & Hn & Hc). destruct Ha as [_ Hcl _].
        rewrite Forall_forall in Hcl. specialize (Hcl _ Hc). cbn in Hn. destruct key; try done.
        cbn in Hn. subst key. by apply kinds_names in Hcl as [Hcl _].
      - by apply (tp_apart _ Ha k). }
    rewrite Hp. cbn. symmetry. apply private_other.
    apply list_elem_of_fmap in Hc as (key & -> & Hc). destruct Ha as [_ Hcl _]. rewrite Forall_forall in Hcl.
    by apply clearable_names, Hcl.
  - destruct (mget (patch_entries args) k) as [v|]; [done|]. cbn. rewrite Hk by done. by apply job_fields_get.
Qed.
