(* ===== verification/StoreTransition.v ===== *)
(** * The compare and the set of a transition, written out

    [transitionStatus] of the in-memory store, against the properties of the job and the payload
    that its call compares, and the properties that it writes and deletes: no helper of the
    operation is mentioned in what it is compared with. *)

From S2P Require Import Prelude JsMap Json StreamTypes StoreState StoreJobs StoreParking.
From S2P Require Import RedisScripts RedisLua RedisJobs RedisRoundTrip RedisSteers RedisLeftovers RedisTransitions RedisWrites.

(** ** What is compared *)

(** The job is the one that the caller means: its status, and its action and generation where the
    caller names one. *)
Definition expected_job (args : JobStatusTransition.t) (j : Job.t) : Prop :=
  Job.status j = JobStatusTransition.from args /\
  (forall a, JobStatusTransition.expectActionId args = Some a -> Job.pendingActionId j = Some a) /\
  (forall e, JobStatusTransition.expectCreatedAt args = Some e -> Job.createdAt j = e).

(** A recovery payload that the job's owner may add to: a plain object of the same user, of no tenant
    or the same one, with a protocol marker and at least one steer, all of them valid. *)
Definition mergeable (j : Job.t) (v : json) : Prop :=
  is_object v = true /\ jfield v "userId" = Some (JStr (Job.userId j)) /\ Job.userId j <> "" /\
  (jfield v "tenantId" = None \/ jfield v "tenantId" = Some JNull \/
   exists t, Job.tenantId j = Some t /\ jfield v "tenantId" = Some (JStr t)) /\
  isValidGenerationProtocolMarker (jfield v "generationProtocolVersion") = true /\
  exists l, jfield v "steers" = Some (JArr l) /\ l <> [] /\ forall x, x ∈ l -> isValidParkedSteer x = true.

(** Nothing that is parked for the stream, and has not expired, is in the way of the job's steers. *)
Definition recoverable (s : Store) (k : string) (j : Job.t) (now : Z) : Prop :=
  forall p, mget (parkedSteers s) k = Some p -> expired (Parked.expiresAt p) now = false ->
  exists v, JSON_parse (Parked.payload p) = Some v /\ mergeable j v.

(** ** What is written *)

(** What the patch assigns to a property: the last assignment counts. *)
Definition patched (args : JobStatusTransition.t) (name : string) : option json :=
  mget (reverse (field_entry <$> JobStatusTransition.patch args)) name.

(** The property [name] of the job after the transition. *)
Definition written (args : JobStatusTransition.t) (j : Job.t) (name : string) (x : option json) : Prop :=
  (name ∈ key_name <$> JobStatusTransition.clear args /\ x = None) \/
  (name ∉ key_name <$> JobStatusTransition.clear args /\
   ((exists v, patched args name = Some v /\ x = Some v) \/
    (patched args name = None /\ name = "status" /\ x = Some (JStr (status_text (JobStatusTransition.to args)))) \/
    (patched args name = None /\ name <> "status" /\ x = entry j name))).

(** ** Lemmas *)

Lemma transition_guard_spec args j : transition_guard args j = true <-> expected_job args j.
Proof.
  unfold transition_guard, expected_job, epoch_matches. rewrite !andb_true_iff, bool_decide_eq_true.
  destruct (JobStatusTransition.expectActionId args) as [a|], (JobStatusTransition.expectCreatedAt args) as [e|];
    rewrite ?bool_decide_eq_true; naive_solver.
Qed.

Lemma nullish_spec x : nullish x = true <-> x = None \/ x = Some JNull.
Proof. destruct x as [[]|]; cbn; naive_solver. Qed.

Lemma mergeable_spec j v :
  valid_recovery v && payload_owner v (Job.userId j) (Job.tenantId j) = true <-> mergeable j v.
Proof.
  unfold valid_recovery, payload_owner, mergeable.
  rewrite !andb_true_iff, orb_true_iff, is_string_true, nullish_spec. split.
  - intros ((((Ho & Hu) & Hp) & Hs) & Hn & Ht). rewrite Hn in Hu. cbn in Hu. bool_facts. split_and!; try done.
    + destruct Ht as [[?|?]|Ht]; [by left | by right; left|]. do 2 right.
      destruct (Job.tenantId j) as [t|]; [|done]. apply is_string_true in Ht. by exists t.
    + unfold valid_steers in Hs. destruct (as_array _) as [l|] eqn:El; [|done]. case_decide as Hd; [|done].
      exists l. split; [by destruct (jfield v "steers") as [[]|]; simplify_eq/= |].
      destruct Hd as [Hne Hall]. split; [done|]. intros x Hx. rewrite forallb_forall in Hall.
      by apply Hall, list_elem_of_In.
  - intros (Ho & Hn & Hu & Ht & Hp & l & Hl & Hne & Hall). rewrite Hn. split_and!; try done.
    + cbn. by apply bool_decide_eq_true.
    + unfold valid_steers. rewrite Hl. cbn. rewrite decide_True; [done|]. split; [done|].
      apply forallb_forall. intros x Hx. by apply Hall, list_elem_of_In.
    + destruct Ht as [?|[?|(t & -> & Ht)]]; [by left; left | by left; right|]. right. by apply is_string_true.
Qed.

Lemma recoverable_spec s k j now : isParkedRecoveryCompatible s k j now = true <-> recoverable s k j now.
Proof.
  unfold isParkedRecoveryCompatible, live_parked, recoverable.
  destruct (mget (parkedSteers s) k) as [p|]; [|naive_solver].
  destruct (expired (Parked.expiresAt p) now) eqn:He; [split; [by intros _ q [= <-]; rewrite He | done]|].
  destruct (JSON_parse (Parked.payload p)) as [v|] eqn:Hv; [rewrite mergeable_spec|]; split.
  - intros H q [= <-] _. by exists v.
  - intros H. destruct (H p eq_refl He) as (v' & Hv' & Hm). congruence.
  - done.
  - intros H. destruct (H p eq_refl He) as (v' & Hv' & Hm). congruence.
Qed.

(** The entries of a patch, and its last assignments. *)
Lemma entries_last fs m k :
  mget (entries_of fs m) k =
  match mget (reverse (field_entry <$> fs)) k with Some v => Some v | None => mget m k end.
Proof.
  revert m. induction fs as [|f fs IH]; intros m; [done|].
  change (entries_of (f :: fs) m) with (entries_of fs (mset m (field_entry f).1 (field_entry f).2)).
  rewrite IH, fmap_cons, reverse_cons, mget_app, mget_mset_dec.
  destruct (mget (reverse _) k); [done|]. destruct (field_entry f) as [name v]. cbn. by case_decide.
Qed.

Lemma entry_written args j name :
  Forall field_named (JobStatusTransition.patch args) -> Forall key_named (JobStatusTransition.clear args) ->
  written args j name (entry (transitioned args j) name).
Proof.
  intros Hp Hc. rewrite entry_transitioned by done. unfold written. case_decide; [by left|]. right. split; [done|].
  unfold patch_entries. rewrite entries_last, fmap_cons, reverse_cons, mget_app. fold (patched args name).
  destruct (patched args name) as [v|]; [left; by exists v | right]. cbn.
  destruct (decide ("status" = name)) as [<-|Hn]; [by left | by right].
Qed.

Lemma private_transitioned args j :
  Job.creationAttemptId (transitioned args j) = Job.creationAttemptId j /\
  Job.replacedJob (transitioned args j) = Job.replacedJob j /\
  Job.replacedJobs (transitioned args j) = Job.replacedJobs j.
Proof.
  assert (Ha : forall fs x, Job.creationAttemptId (assign x fs) = Job.creationAttemptId x /\
    Job.replacedJob (assign x fs) = Job.replacedJob x /\ Job.replacedJobs (assign x fs) = Job.replacedJobs x).
  { induction fs as [|f fs IH]; intros x; [done|]. change (assign x (f :: fs)) with (assign (assign1 x f) fs).
    destruct (IH (assign1 x f)) as (-> & -> & ->). by destruct f. }
  assert (Hc : forall ks x, Job.creationAttemptId (clear x ks) = Job.creationAttemptId x /\
    Job.replacedJob (clear x ks) = Job.replacedJob x /\ Job.replacedJobs (clear x ks) = Job.replacedJobs x).
  { induction ks as [|f ks IH]; intros x; [done|]. change (clear x (f :: ks)) with (clear (clear1 x f) ks).
    destruct (IH (clear1 x f)) as (-> & -> & ->). by destruct f. }
  unfold transitioned. destruct (Hc (JobStatusTransition.clear args)
    (assign {| j with Job.status := JobStatusTransition.to args |} (JobStatusTransition.patch args))) as (-> & -> & ->).
  destruct (Ha (JobStatusTransition.patch args) {| j with Job.status := JobStatusTransition.to args |}) as (-> & -> & ->).
  done.
Qed.

(** ** The theorem *)

(** C20. A transition is an exact compare-and-set of one job.  It never throws.  It answers [true]
    exactly when the job exists, has the status that the caller expects, and the pending action and
    the creation time where the caller names them, and, for a final status, when what is parked for
    the stream has expired or is a valid recovery payload of the job's own user and tenant.  Then the
    job keeps every property, but the status is the new one, the patched ones have the value that
    the patch assigned last, and the cleared ones are gone (clearing comes after the patch); every
    other job is what it was.  When it answers [false], nothing at all has changed.  Properties are
    read by name, and a patch names no property of the metadata like another one. *)
Theorem transition_is_exact k args now s
    (Hp : Forall field_named (JobStatusTransition.patch args))
    (Hc : Forall key_named (JobStatusTransition.clear args)) :
  let '(r, s') := StoreJobs.transitionStatus k args now s in
  (r = Ok true <->
   exists j, mget (jobs s) k = Some j /\ expected_job args j /\
     (JobStatusTransition.to args ∈ [complete; error; aborted] -> recoverable s k j now)) /\
  (r = Ok true -> exists j j', mget (jobs s) k = Some j /\ mget (jobs s') k = Some j' /\
     (forall name, written args j name (entry j' name)) /\
     Job.creationAttemptId j' = Job.creationAttemptId j /\ Job.replacedJob j' = Job.replacedJob j /\
     Job.replacedJobs j' = Job.replacedJobs j /\
     forall k', k' <> k -> mget (jobs s') k' = mget (jobs s) k') /\
  (r <> Ok true -> r = Ok false /\ s' = s).
Proof.
  destruct (mget (jobs s) k) as [j|] eqn:Hj.
  2: { unfold StoreJobs.transitionStatus. rewrite Hj. split_and!; [split; [done | by intros (? & ? & _)] | done | done]. }
  pose proof (transition_cas k args now s j Hj) as H.
  assert (Ha : cas_allowed s k args now j = true <->
    expected_job args j /\ (JobStatusTransition.to args ∈ [complete; error; aborted] -> recoverable s k j now)).
  { unfold cas_allowed. rewrite andb_true_iff, orb_true_iff, transition_guard_spec, recoverable_spec.
    rewrite !elem_of_cons, elem_of_nil. destruct (JobStatusTransition.to args); cbn; naive_solver. }
  destruct (cas_allowed s k args now j) eqn:E.
  - destruct H as (s' & -> & Hw & Ho). destruct (proj1 Ha eq_refl) as [He Hr]. split_and!.
    + split; [|done]. intros _. by exists j.
    + intros _. destruct (private_transitioned args j) as (H1 & H2 & H3).
      exists j, (transitioned args j). split_and!; try done. intros name. by apply entry_written.
    + done.
  - rewrite H. split_and!; [|done|done]. split; [done|]. intros (j' & [= <-] & He & Hr).
    discriminate (proj2 Ha (conj He Hr)).
Qed.

(** A paused run that is aborted while a foreign payload is parked, and after that has expired. *)
Module TransitionDemo.
Definition paused : Job.t :=
  {| RoundTripDemo.job with Job.status := requires_action; Job.pendingActionId := Some "a1" |}.
Definition args (action : string) : JobStatusTransition.t :=
  JobStatusTransition.mk requires_action aborted [F_error "expired"; F_completedAt 30] [K_pendingActionId] (Some action)
    (Some (Job.createdAt paused)) None.
Definition store : Store := with_jobs [("s1", paused)] (newStore None None None).
End TransitionDemo.

(** An approval that has moved on to another review is not expired; the one it names is. *)
Lemma transition_is_exact_witness :
  StoreJobs.transitionStatus "s1" (TransitionDemo.args "a2") 30 TransitionDemo.store = (Ok false, TransitionDemo.store) /\
  (StoreJobs.transitionStatus "s1" (TransitionDemo.args "a1") 30 TransitionDemo.store).1 = Ok true.
Proof.
  split.
  - pose proof (transition_is_exact "s1" (TransitionDemo.args "a2") 30 TransitionDemo.store) as H.
    destruct (StoreJobs.transitionStatus _ _ _ _) as [r s'].
    destruct H as (Hiff & _ & H); [by repeat constructor..|]. destruct H as [-> ->]; [|done].
    rewrite Hiff. intros (j & [= <-] & (_ & Ha & _) & _). by specialize (Ha "a2" eq_refl).
  - pose proof (transition_is_exact "s1" (TransitionDemo.args "a1") 30 TransitionDemo.store) as H.
    destruct (StoreJobs.transitionStatus _ _ _ _) as [r s'].
    destruct H as (Hiff & _); [by repeat constructor..|]. apply Hiff.
    exists TransitionDemo.paused. split_and!; [done | |by intros _ p Hp].
    split_and!; [done | by intros a [= <-] | by intros e [= <-]].
Defined.
