(* ===== verification/RedisTerminal.v ===== *)
(** * Status transitions: the Redis store against the in-memory one

    The parts of a transition, each compared on a stream whose keys mirror the store: the job, the
    receipts, the parked leftovers, the queues, the expiries. *)

From stdpp Require Import pretty.
From S2P Require Import Prelude JsMap Json StreamTypes SteerRecovery StoreState StoreSteers StoreParked.
From S2P Require Import StoreJobs StoreCleanup StoreFrame StoreRun StoreEpochs StoreParking StoreRecovery StoreQueue.
From S2P Require Import RedisScripts RedisLua RedisJobs RedisRoundTrip RedisSteers RedisRows RedisAdmission RedisDrain.
From S2P Require Import RedisEdits RedisLeftovers RedisParcels RedisRecovery RedisTransitions RedisWrites.

(** The key of an item with an id. *)
Definition text_key (id : string) : option json := Some (JStr id).
#[export] Instance text_key_inj : Inj eq eq text_key.
Proof. by intros x y [= ->]. Qed.

Section refine.
Context {lua_number : jnum -> jnum} {lua : LuaNumber lua_number}.
Abbreviation encode := (cjson_encode lua_number).
Abbreviation represents := (represents (lua_number := lua_number)).
Abbreviation mirrors := (mirrors (lua_number := lua_number)).
Abbreviation item_fine := (item_fine (lua_number := lua_number)).
Abbreviation row := (row (lua_number := lua_number)).
Abbreviation parcel_fine := (parcel_fine (lua_number := lua_number)).
Abbreviation leftover_fine := (leftover_fine (lua_number := lua_number)).

(** ** The job *)

Lemma keeps_row k r s j :
  keeps_job (content [] (jobHash r)) j -> storable j -> small (Job.createdAt j) ->
  (active (Job.status j) = true -> hget_job "steersClosed" r = Some "1" <-> k ∈ closedSteerQueues s) ->
  job_row r s k j.
Proof.
  intros Hk Hj Hs Hc. destruct (required_columns _ j Hk Hj) as (_ & _ & H3 & H4 & _ & H6).
  split; [exact H4 | done | exact H3 | done | |].
  - change (hget_job "generationProtocolVersion" r) with (field (content [] (jobHash r)) "generationProtocolVersion").
    rewrite H6. destruct (Job.generationProtocolVersion j) as [[]|]; cbn; naive_solver.
  - assert (E : hget_job "preemptCapable" r = (fun b : bool => if b then "1" else "0") <$> Job.preemptCapable j).
    { unfold hget_job, HGET. pose proof (column _ j Hk Hj "preemptCapable" _ eq_refl ltac:(by vm_compute)) as Hcol.
      rewrite Hcol. cbn. by destruct (Job.preemptCapable j) as [[]|]. }
    rewrite E. destruct (Job.preemptCapable j) as [[]|]; cbn; naive_solver.
Qed.

Lemma hash_present r s k j : job_row r s k j -> jobHash r <> None.
Proof. intros [H _ _ _ _ _] E. unfold hget_job, HGET in H. by rewrite E in H. Qed.

Definition job_fine (j : Job.t) : Prop := storable j /\ Job.userId j <> "" /\ Job.tenantId j <> Some "".

Lemma mirrors_job k now r s h j :
  mirrors k now r s -> keeps_job (content [] h) j -> job_fine j -> small (Job.createdAt j) ->
  (active (Job.status j) = true ->
   hget_job "steersClosed" (with_jobHash h r) = Some "1" <-> k ∈ closedSteerQueues s) ->
  mirrors k now (with_jobHash h r) (set_job k j s).
Proof.
  intros [[H1 H2 H3 H4 H5 H6 H7 H8] Hj Hr Hp] Hk (Hst & Hu & Ht) Hs Hc. split; [| |exact Hr | exact Hp].
  - split; try done. cbn. rewrite mget_mset_eq. by apply keeps_row.
  - intros j'. cbn. rewrite mget_mset_eq. by intros [= <-].
Qed.

(** ** Receipts that change their expiry *)

Definition same_receipt (now : Z) (f : ReceiptEntry.t -> ReceiptEntry.t) : Prop :=
  forall e, expired (ReceiptEntry.expiresAt e) now = false ->
    ReceiptEntry.receipt (f e) = ReceiptEntry.receipt e /\ expired (ReceiptEntry.expiresAt (f e)) now = false.

Lemma match_same now c f t e : same_receipt now f ->
  receipt_match (lua_number := lua_number) now c t e -> receipt_match (lua_number := lua_number) now c t (f <$> e).
Proof.
  intros Hf. destruct t, e as [e|]; try done. intros (H1 & H2 & H3). destruct (Hf e H2) as [Hr He].
  cbn. rewrite Hr. done.
Qed.

Lemma mirrors_expiry k now r s s' f :
  mirrors k now r s -> same_receipt now f ->
  mget (jobs s') k = mget (jobs s) k -> closedSteerQueues s' = closedSteerQueues s ->
  queue_of s' k = queue_of s k -> claims_of s' k = claims_of s k -> live_parked s' k now = live_parked s k now ->
  (forall c, receipt_of s' k c = receipt_of s k c \/ receipt_of s' k c = f <$> receipt_of s k c) ->
  mwf (receipts_of s' k) -> mirrors k now r s'.
Proof.
  intros [[H1 H2 H3 H4 H5 H6 H7 H8] Hj Hr Hp] Hf E1 E2 E3 E4 E5 Hc Hwf. split.
  - split; rewrite ?E3, ?E4; try done.
    + rewrite E1. destruct (mget (jobs s) k); [|done]. by apply (job_row_frame r _ s).
    + intros c. destruct (Hc c) as [-> | ->]; [done | by apply match_same].
    + intros c. rewrite H7. destruct (Hc c) as [-> | ->]; [done | by rewrite fmap_is_Some].
  - by rewrite E1.
  - intros c e He. destruct (Hc c) as [E | E]; rewrite E in He; [by apply (Hr c)|].
    destruct (receipt_of s k c) as [e0|] eqn:He0; [|done]. injection He as <-.
    pose proof (H5 c) as Hm. rewrite He0 in Hm. destruct (HGET c (receiptsKey r)); [|done].
    destruct Hm as (_ & Hx & _). destruct (Hf e0 Hx) as [-> _]. by apply (Hr c).
  - by rewrite E5.
Qed.

Lemma mirrors_update k now r s c f :
  mirrors k now r s -> same_receipt now f -> mirrors k now r (update_receipt k c f s).
Proof.
  intros H Hf. eapply mirrors_expiry; [done | done | by rewrite (update_receipt_frame jobs ltac:(done))
    | by rewrite (update_receipt_frame closedSteerQueues ltac:(done)) | apply update_queue | apply update_claims
    | by unfold live_parked; rewrite (update_receipt_frame parkedSteers ltac:(done)) | |].
  - intros c'. rewrite receipt_of_updated. case_decide; [right; by subst | by left].
  - apply update_wf, (re_wf _ _ _ _ (mi_represents _ _ _ _ H)).
Qed.

Lemma mirrors_updates {A} k now r (cid : A -> option string) f l s :
  mirrors k now r s -> same_receipt now f ->
  mirrors k now r (foldl (fun s x => match cid x with Some c => update_receipt k c f s | None => s end) s l).
Proof.
  intros H Hf. revert s H. induction l as [|x l IH]; intros s H; [done|]. cbn [foldl]. apply IH.
  destruct (cid x); [by apply mirrors_update | done].
Qed.

Lemma mirrors_map k now r s f :
  mirrors k now r s -> same_receipt now f -> mirrors k now r (map_receipts k f s).
Proof.
  intros H Hf.
  assert (Hrs : receipts_of (map_receipts k f s) k = mmap f (receipts_of s k)).
  { unfold map_receipts, receipts_of. destruct (mget (steerReceipts s) k) eqn:E; cbn; [by rewrite mget_mset_eq | by rewrite E]. }
  eapply mirrors_expiry; [done | done | by rewrite (map_receipts_frame jobs ltac:(done))
    | by rewrite (map_receipts_frame closedSteerQueues ltac:(done)) | | | | |].
  - unfold queue_of. by rewrite (map_receipts_frame steerQueues ltac:(done)).
  - unfold claims_of. by rewrite (map_receipts_frame claimedSteers ltac:(done)).
  - unfold live_parked. by rewrite (map_receipts_frame parkedSteers ltac:(done)).
  - intros c. right. unfold receipt_of. by rewrite Hrs, mget_mmap.
  - rewrite Hrs. apply mwf_mmap, (re_wf _ _ _ _ (mi_represents _ _ _ _ H)).
Qed.

Lemma bound_same now t : (now < t)%Z -> same_receipt now (StoreState.bound_receipt t).
Proof.
  intros Ht e He. split; [done|]. unfold StoreState.bound_receipt. cbn.
  destruct (ReceiptEntry.expiresAt e); cbn in *; apply bool_decide_eq_false; [|lia].
  apply bool_decide_eq_false in He. lia.
Qed.
Lemma extend_same now t : same_receipt now (extend_receipt t).
Proof.
  intros e He. split; [done|]. cbn. destruct (ReceiptEntry.expiresAt e), t; cbn in *; try done.
  apply bool_decide_eq_false. apply bool_decide_eq_false in He. lia.
Qed.

(** ** Keys whose expiry changes *)

Lemma mirrors_contents k now r r' s :
  mirrors k now r s -> jobHash r' = jobHash r -> LRANGE (steersKey r') = LRANGE (steersKey r) ->
  LRANGE (claimedKey r') = LRANGE (claimedKey r) -> content [] (receiptsKey r') = content [] (receiptsKey r) ->
  content [] (orderKey r') = content [] (orderKey r) ->
  Key.value <$> parkedKey r' = Key.value <$> parkedKey r -> mirrors k now r' s.
Proof.
  intros [H Hj Hr Hp] E1 E2 E3 E4 E5 E6. split; [by eapply represents_rows | by rewrite E1 | done |].
  unfold parked_match in *. destruct (parkedKey r) as [kr|], (parkedKey r') as [kr'|], (live_parked s k now); try done.
  cbn in E6. injection E6 as ->. exact Hp.
Qed.

Lemma content_IN {A} (d : A) t k : (0 < t)%Z -> content d (EXPIRE_IN t k) = content d k.
Proof. intros Ht. unfold EXPIRE_IN. rewrite decide_True by done. apply content_EXPIRE. Qed.
Lemma value_extend {A} t (k : option (Key.t A)) : Key.value <$> extend_ttl t k = Key.value <$> k.
Proof. unfold extend_ttl. case_decide; [|done]. by destruct k. Qed.

(** ** Queues *)

Lemma mirrors_empty k now r s :
  mirrors k now r s ->
  mirrors k now (with_steersKey None (with_claimedKey None r))
    (with_claimedSteers (mdel (claimedSteers s) k) (with_steerQueues (mdel (steerQueues s) k) s)).
Proof.
  intros [[H1 H2 H3 H4 H5 H6 H7 H8] Hj Hr Hp]. split; [| done | done | done].
  assert (Hq : queue_of (with_claimedSteers (mdel (claimedSteers s) k) (with_steerQueues (mdel (steerQueues s) k) s)) k = [])
    by (unfold queue_of; cbn; by rewrite mget_mdel_eq).
  assert (Hc : claims_of (with_claimedSteers (mdel (claimedSteers s) k) (with_steerQueues (mdel (steerQueues s) k) s)) k = [])
    by (unfold claims_of; cbn; by rewrite mget_mdel_eq).
  split; rewrite ?Hq, ?Hc;
    [| constructor | by apply NoDup_nil_2 | constructor | exact H5 | exact H6 | exact H7 | exact H8].
  cbn. destruct (mget (jobs s) k); [|done]. by apply (job_row_frame r _ s).
Qed.

(** ** Unsettled steers *)

Lemma dedup_pairs {A B K L} `{EqDecision K, EqDecision L} (R : A -> B -> Prop) (f : A -> K) (g : B -> L) (h : L -> K)
    `{!Inj eq eq h} l l' seen :
  Forall2 R l l' -> (forall x y, R x y -> f x = h (g y)) ->
  Forall2 R (dedup_from f (h <$> seen) l) (dedup_from g seen l').
Proof.
  intros Hl Hf. revert seen. induction Hl as [|x y l l' Hxy _ IH]; intros seen; [constructor|]. cbn.
  rewrite (Hf x y Hxy). destruct (decide (g y ∈ seen)) as [Hin|Hin].
  - rewrite decide_True by (by apply list_elem_of_fmap_2). apply IH.
  - rewrite decide_False by (by intros (z & <-%(inj h) & Hz)%list_elem_of_fmap).
    constructor; [done|]. apply (IH (g y :: seen)).
Qed.

Lemma distinct_spec rows items :
  Forall2 row rows items -> Forall2 reads_item (distinct_items rows) (dedup_on SteerQueueItem.steerId items).
Proof.
  intros H. apply (dedup_pairs reads_item steer_key SteerQueueItem.steerId text_key _ _ []); [by eapply parsed_rows|].
  intros v it Hv. apply (ri_steerId _ _ Hv).
Qed.

Lemma sources_spec k now r s j :
  mirrors k now r s -> mget (jobs s) k = Some j ->
  Forall2 row (source_rows r) (claimedSteerItems s k (Some (Job.createdAt j)) ++ queue_of s k).
Proof.
  intros H Hj. pose proof (mi_represents _ _ _ _ H) as Hr. unfold source_rows, claimedSteerItems. rewrite Hj.
  pose proof (re_job _ _ _ _ Hr) as Hrow. rewrite Hj in Hrow. rewrite (v2_spec r s k j Hrow).
  assert (He : epoch_matches (Some (Job.createdAt j)) (Job.createdAt j) = true) by (by apply bool_decide_eq_true).
  rewrite He, andb_true_r. apply Forall2_app; [|apply (re_queue _ _ _ _ Hr)].
  destruct (usesReceiptSafeProtocol (Some j)); [apply (re_claims _ _ _ _ Hr) | constructor].
Qed.
Lemma sources_sound rows items : Forall2 row rows items -> forallb sound_row rows = true.
Proof.
  induction 1 as [|t it rows items (v & -> & Hv & Hf) _ IH]; [done|]. cbn. rewrite IH, andb_true_r.
  unfold has_id. rewrite (plain_is_object v (ri_object _ _ Hv)), (ri_steerId _ _ Hv). cbn.
  apply bool_decide_eq_true, (if_id _ Hf).
Qed.
Lemma items_fine rows items : Forall2 row rows items -> Forall item_fine (dedup_on SteerQueueItem.steerId items).
Proof.
  intros H%rows_fine. rewrite Forall_forall in *. intros x Hx. apply H. by eapply (dedup_from_sub SteerQueueItem.steerId).
Qed.

(** *** Their receipts *)

Lemma leave_one k now r rk s v it :
  mirrors k now (with_receiptsKey rk r) s -> reads_item v it -> item_fine it ->
  mirrors k now (with_receiptsKey (leave_receipt lua_number rk v) r) (settle_one k leftover s it).
Proof.
  intros H Hv Hf. unfold leave_receipt, settle_one. rewrite (ri_client _ _ Hv).
  destruct (SteerQueueItem.clientSteerId it) as [c|]; cbn [fmap option_fmap option_map as_string]; [|done].
  pose proof (receipt_read k now _ s c H) as Hrc. cbn [receiptsKey with_receiptsKey] in Hrc.
  destruct (HGET c rk ≫= JSON_parse) as [w|].
  2: { unfold update_receipt. unfold receipt_of, receipts_of in Hrc.
       destruct (mget (steerReceipts s) k) as [rs|]; [|done]. cbn in Hrc. by rewrite Hrc. }
  destruct Hrc as (e & He & Hw & Hfw). rewrite (plain_is_object w (rr_object _ _ Hw)).
  pose proof (re_receipts _ _ _ _ (mi_represents _ _ _ _ H) c) as Hm. rewrite He in Hm.
  destruct (HGET c (receiptsKey (with_receiptsKey rk r))) as [raw|]; [|done].
  destruct Hm as (_ & Hx & Hc). destruct H as [H1 H2 H3 H4]. split.
  - apply (represents_receipt k now (with_receiptsKey rk r) s c _ e _
      (encode (jset (jset w "item" v) "state" (JStr (state_text leftover)))) H1 He).
    + intros c'. apply HGET_HSET.
    + split_and!; [|done|done]. apply receipt_row_encode.
      * apply (receipt_set_state _ _ leftover (receipt_set_item w _ v it Hw Hv)).
      * by apply rebound_fine.
  - rewrite (update_receipt_frame jobs ltac:(done)). exact H2.
  - intros c' e'. rewrite receipt_of_updated. case_decide; [subst c'|apply H3]. rewrite He. intros [= <-]. exact (H3 c e He).
  - unfold live_parked. rewrite (update_receipt_frame parkedSteers ltac:(done)). exact H4.
Qed.

Lemma leave_all k now r rk s vs items :
  mirrors k now (with_receiptsKey rk r) s -> Forall2 reads_item vs items -> Forall item_fine items ->
  mirrors k now (with_receiptsKey (foldl (leave_receipt lua_number) rk vs) r) (foldl (settle_one k leftover) s items).
Proof.
  intros H Hl. revert rk s H. induction Hl as [|v it vs items Hv _ IH]; intros rk s H; [done|].
  intros [Hf Hfs]%Forall_cons. cbn [foldl]. apply IH; [by apply leave_one | done].
Qed.

(** *** Leftovers *)

Definition unclaimed (it : SteerQueueItem.t) : Leftover.t := Leftover.mk it None.

Lemma files_some it : item_fine it -> SteerQueueItem.files it <> Some [].
Proof. intros Hf E. pose proof (if_files _ Hf [] E) as H. done. Qed.

Lemma unclaimed_fine it :
  item_fine it -> (0 <= SteerQueueItem.createdAt it)%Z -> leftover_fine (unclaimed it).
Proof. intros Hf Hc. split; [done | done | by apply files_some | done]. Qed.

Lemma field_opt k (x : option json) l k' :
  jfield (JObj (opt_prop k x ++ l)) k' = if decide (k = k') then match x with Some v => Some v | None => jfield (JObj l) k' end else jfield (JObj l) k'.
Proof. cbn. rewrite mget_app, mget_opt_prop. case_decide; [|done]. by destruct x. Qed.

Lemma projected_read v it : reads_item v it -> item_fine it -> reads_leftover (projected v) (unclaimed it).
Proof.
  intros [R0 R1 R2 R3 R4 R5 R6 R7 R8] Hf. unfold projected, if_truthy. rewrite R1, R2, R3, R5, R6, R7, R8.
  destruct it as [id c tx u ca fs pr rv]; cbn in *.
  split; cbn [leftover_id Leftover.item unclaimed SteerQueueItem.steerId SteerQueueItem.clientSteerId
    SteerQueueItem.text SteerQueueItem.createdAt SteerQueueItem.files SteerQueueItem.preempt
    SteerQueueItem.preemptRevision Leftover.recoveringCreatedAt]; try done;
    destruct c, fs, pr as [[]|], rv; done.
Qed.

Lemma pending_leftover_read it : item_fine it -> reads_leftover (toPendingSteer it) (unclaimed it).
Proof.
  intros Hf. pose proof (files_some it Hf) as Hfs. destruct Hf as [_ Hc _ _ _]. unfold toPendingSteer.
  destruct it as [id c tx u ca fs pr rv]; cbn in *.
  assert (Hcd : match c with Some c => if decide (c = "") then [] else [("clientSteerId", JStr c)] | None => [] end =
                opt_prop "clientSteerId" (JStr <$> c)).
  { destruct c as [c|]; [|done]. rewrite decide_False by congruence. done. }
  rewrite Hcd. split; cbn [leftover_id Leftover.item unclaimed SteerQueueItem.steerId SteerQueueItem.clientSteerId
    SteerQueueItem.text SteerQueueItem.createdAt SteerQueueItem.files SteerQueueItem.preempt
    SteerQueueItem.preemptRevision Leftover.recoveringCreatedAt]; try done;
    destruct c, fs as [[|]|], pr as [[]|], rv; done.
Qed.

(** ** What is already parked *)

Lemma owner_of_job v p u t :
  reads_parcel v p ->
  lua_eq (jfield v "userId") (JStr <$> Some u) &&
  (negb (truthy (jfield v "tenantId")) || lua_eq (jfield v "tenantId") (JStr <$> t)) = parcel_owner p u t.
Proof.
  intros Hr. rewrite (rp_userId _ _ Hr), (rp_tenantId _ _ Hr). unfold parcel_owner, tenant_matches.
  cbn [fmap option_fmap option_map]. rewrite lua_eq_str. f_equal.
  destruct (Parcel.tenantId p) as [x|]; [|done]. cbn [truthy negb orb fmap option_fmap option_map].
  change (Some (JStr x)) with (JStr <$> Some x). apply lua_eq_opt.
Qed.

Lemma prior_spec k now r s j :
  mirrors k now r s -> mget (jobs s) k = Some j ->
  match prior r with
  | None => isParkedRecoveryCompatible s k j now = false
  | Some (l, q) =>
      isParkedRecoveryCompatible s k j now = true /\
      exists lm ls, prior_parked s k j now = (lm, q) /\ Forall2 reads_leftover l ls /\
        Forall2 reads_leftover lm ls /\ Forall leftover_fine ls
  end.
Proof.
  intros H Hj. destruct (hget_columns k now r s j H Hj) as (_ & _ & Hu & Ht & _).
  unfold prior, isParkedRecoveryCompatible, prior_parked, GET_parked. rewrite Hu, Ht, (v2_of_job k now r s j H Hj).
  assert (Hown : (if bool_decide (Job.generationProtocolVersion j = Some V2) then V2 else V1) =
    normalize_job_protocol (Job.generationProtocolVersion j)) by (by destruct (Job.generationProtocolVersion j) as [[]|]).
  rewrite Hown. set (own := normalize_job_protocol _).
  destruct (parked_cases k now r s H) as [[Hk Hl] | (ttl & parcel & vr & vm & p & lr & lm & Hk & Hl & Hp & Hpr & Hm & Hf & Hsh & _ & Hvs & Hvr & Hlr & Hlm)].
  { rewrite Hk, Hl. split; [done|]. exists [], []. by split_and!. }
  rewrite Hk, Hl. cbn [fmap option_fmap option_map Key.value]. rewrite Hsh, Hp. cbn [JSON_parse].
  rewrite Hvr. destruct (parcel_owned vm parcel (Job.userId j) (Job.tenantId j) Hm Hf) as [_ ->].
  pose proof (owner_of_job vr parcel (Job.userId j) (Job.tenantId j) Hpr) as Ho.
  cbn [fmap option_fmap option_map] in Ho. rewrite Ho. clear Ho.
  destruct (parcel_owner parcel (Job.userId j) (Job.tenantId j)); [|done]. cbn [andb]. split; [done|].
  exists lm, (Parcel.steers parcel). rewrite (parcel_marked vr parcel Hpr), (rp_protocol _ _ Hm).
  assert (Hs : as_array (jfield vm "steers") = Some lm).
  { unfold valid_steers in Hvs. destruct (as_array (jfield vm "steers")) as [l|]; [|done].
    destruct l; [done|]. by repeat case_match. }
  rewrite Hs. split_and!; [|done|done|apply Hf]. destruct (Parcel.protocol parcel), own; done.
Qed.

(** ** Parking *)

Lemma reads_parked_payload u t q l ls :
  Forall2 reads_leftover l ls -> reads_parcel (parked_payload_of u t q l) (Parcel.mk u t q ls).
Proof. intros Hl. split; try done; [by destruct t | by exists l]. Qed.
Lemma reads_recovery_payload u t q l ls :
  Forall2 reads_leftover l ls -> reads_parcel (recovery_payload u t q l) (Parcel.mk u t q ls).
Proof. intros Hl. unfold recovery_payload. split; try (by destruct t). exists l. by destruct t. Qed.

Lemma dedup_parked_spec l ls seen :
  Forall2 reads_leftover l ls ->
  Forall2 reads_leftover (dedup_parked (text_key <$> seen) l) (dedup_from leftover_id seen ls).
Proof.
  intros H. revert seen. induction H as [|v x l ls Hv _ IH]; intros seen; [constructor|]. cbn.
  unfold parked_key. rewrite (rl_steerId _ _ Hv). destruct (decide (leftover_id x ∈ seen)) as [Hin|Hin].
  - rewrite decide_True by (split; [done | by apply (list_elem_of_fmap_2 text_key)]). apply IH.
  - rewrite decide_False by (intros [_ (z & <-%(inj text_key) & Hz)%list_elem_of_fmap]; done).
    constructor; [done | apply (IH (leftover_id x :: seen))].
Qed.

Lemma dedup_some {A} (f : A -> string) l : l <> [] -> dedup_on f l <> [].
Proof. destruct l; [done|]. intros _. unfold dedup_on. cbn. by rewrite decide_False by (apply not_elem_of_nil). Qed.

Definition merged (ls : list Leftover.t) (its : list SteerQueueItem.t) : list Leftover.t :=
  dedup_on leftover_id (ls ++ (unclaimed <$> its)).

Lemma merged_fine ls its :
  Forall leftover_fine ls -> Forall item_fine its -> Forall (fun it => 0 <= SteerQueueItem.createdAt it)%Z its ->
  Forall leftover_fine (merged ls its).
Proof.
  intros Hl Hi Hc. assert (Ha : Forall leftover_fine (ls ++ (unclaimed <$> its))).
  { apply Forall_app. split; [done|]. apply Forall_fmap. rewrite Forall_forall in *.
    intros it Hit. apply unclaimed_fine; auto. }
  rewrite Forall_forall in *. intros x Hx. apply Ha. by eapply (dedup_from_sub leftover_id).
Qed.

(** The same parcel parked on both sides. *)
Lemma mirrors_parcel k now r s j L lm ls q its ttl :
  mirrors k now r s -> Job.userId j <> "" -> Job.tenantId j <> Some "" ->
  Forall2 reads_leftover L (merged ls its) -> Forall2 reads_leftover lm ls -> Forall leftover_fine ls ->
  Forall item_fine its -> Forall (fun it => 0 <= SteerQueueItem.createdAt it)%Z its -> its <> [] ->
  mirrors k now
    (with_parkedKey (SET (encode (parked_payload_of (Job.userId j) (Job.tenantId j) q L)) (Some ttl)) r)
    (with_parkedSteers (mset (parkedSteers s) k
       (Parked.mk (JSON_stringify (recovery_payload (Job.userId j) (Job.tenantId j) q
                     (dedup_parked [] (lm ++ (toPendingSteer <$> its))))) (At (now + PARKED_STEERS_TTL_MS)))) s).
Proof.
  intros H Hun Htn Hr Hlm Hfl Hfi Hc Hne.
  assert (Hm : Forall2 reads_leftover (dedup_parked [] (lm ++ (toPendingSteer <$> its))) (merged ls its)).
  { apply (dedup_parked_spec _ _ []). apply Forall2_app; [done|]. clear -Hfi.
    induction Hfi; constructor; [by apply pending_leftover_read | done]. }
  refine (mirrors_write k now r s (Parked.mk (Text JNull) _) _ _ _ (Some ttl) H (reads_parked_payload _ _ _ _ _ Hr)
    (reads_recovery_payload _ _ _ _ _ Hm) _ _).
  - split; [done | done | by apply merged_fine |]. cbn. apply dedup_some. destruct ls, its; done.
  - apply bool_decide_eq_false. unfold PARKED_STEERS_TTL_MS. lia.
Qed.

Lemma projected_items vs its :
  Forall2 reads_item vs its -> Forall item_fine its -> Forall2 reads_leftover (projected <$> vs) (unclaimed <$> its).
Proof.
  induction 1 as [|w it ws its Hw _ IH]; [constructor|]. intros [? ?]%Forall_cons.
  constructor; [by apply projected_read | by apply IH].
Qed.

Lemma mirrors_merge k now r s old j l lm ls q vs its ttl :
  mirrors k now r s -> hget_job "userId" old = Some (Job.userId j) -> hget_job "tenantId" old = Job.tenantId j ->
  Job.userId j <> "" -> Job.tenantId j <> Some "" ->
  Forall2 reads_leftover l ls -> Forall2 reads_leftover lm ls -> Forall leftover_fine ls ->
  Forall2 reads_item vs its -> Forall item_fine its -> Forall (fun it => 0 <= SteerQueueItem.createdAt it)%Z its ->
  its <> [] ->
  mirrors k now (merge_parked lua_number old (l, q) vs ttl r)
    (with_parkedSteers (mset (parkedSteers s) k
       (Parked.mk (JSON_stringify (recovery_payload (Job.userId j) (Job.tenantId j) q
                     (dedup_parked [] (lm ++ (toPendingSteer <$> its))))) (At (now + PARKED_STEERS_TTL_MS)))) s).
Proof.
  intros H Hu Ht Hun Htn Hl Hlm Hfl Hv Hfi Hc Hne. unfold merge_parked. rewrite Hu, Ht.
  destruct vs as [|v vs]; [by apply Forall2_nil_inv_l in Hv|].
  apply (mirrors_parcel k now r s j _ lm ls q its ttl H Hun Htn); try done.
  apply (dedup_pairs reads_leftover steer_key leftover_id text_key _ _ []);
    [|intros w x Hw; apply (rl_steerId _ _ Hw)].
  apply Forall2_app; [done | by apply projected_items].
Qed.
End refine.
