(* ===== verification/RedisMoves.v ===== *)
(** * Status transitions: the script against the in-memory transition

    The guards, the settlement of the unsettled steers and the refreshed expiries of
    [RedisTransitions.JOB_CAS], each compared with the in-memory store on a stream whose keys
    mirror it, and the transition put together from them. *)

From stdpp Require Import pretty.
From S2P Require Import Prelude JsMap Json StreamTypes SteerRecovery StoreState StoreSteers StoreParked.
From S2P Require Import StoreJobs StoreCleanup StoreFrame StoreRun StoreEpochs StoreParking StoreRecovery StoreQueue.
From S2P Require Import RedisScripts RedisLua RedisJobs RedisRoundTrip RedisSteers RedisRows RedisAdmission RedisDrain.
From S2P Require Import RedisEdits RedisLeftovers RedisParcels RedisRecovery RedisTransitions RedisWrites RedisTerminal.

Section refine.
Context {lua_number : jnum -> jnum} {lua : LuaNumber lua_number}.
Abbreviation encode := (cjson_encode lua_number).
Abbreviation mirrors := (mirrors (lua_number := lua_number)).
Abbreviation row := (row (lua_number := lua_number)).

(** ** Guards *)

Lemma status_text_same a b : status_text a = status_text b <-> a = b.
Proof. split; [by destruct a, b | by intros ->]. Qed.

Lemma guard_spec ttls k now r s j args d t :
  mirrors k now r s -> mget (jobs s) k = Some j -> JobStatusTransition.expectActionId args <> Some "" ->
  cas_guard (cas_args ttls args d t) r = transition_guard args j.
Proof.
  intros H Hj He. destruct (hget_columns k now r s j H Hj) as (_ & Hs & _ & _ & _ & Ha).
  pose proof (re_job _ _ _ _ (mi_represents _ _ _ _ H)) as Hr. rewrite Hj in Hr.
  unfold cas_guard, transition_guard. cbn [CasArgs.from CasArgs.expectActionId CasArgs.expectCreatedAt cas_args].
  rewrite Hs, Ha, (guard_epoch r s k j _ Hr). f_equal. f_equal.
  - apply bool_decide_ext. rewrite <- status_text_same. split; [by intros [= ->] | by intros ->].
  - destruct (JobStatusTransition.expectActionId args) as [a|]; cbn.
    + destruct (decide (Job.pendingActionId j = Some a)) as [E|E].
      * rewrite bool_decide_false by naive_solver. by rewrite bool_decide_true.
      * rewrite bool_decide_true by (split; congruence). by rewrite bool_decide_false.
    + by rewrite bool_decide_false by naive_solver.
Qed.
Lemma guard_absent a r : jobHash r = None -> cas_guard a r = false.
Proof. intros E. unfold cas_guard, hget_job, HGET. by rewrite E, bool_decide_false. Qed.

(** ** What is unsettled *)

Lemma with_same_steers k now r s :
  mirrors k now r s -> queue_of s k = [] -> claims_of s k = [] ->
  mirrors k now (with_steersKey None (with_claimedKey None r)) s.
Proof.
  intros H Hq Hc. pose proof (mi_represents _ _ _ _ H) as Hr.
  pose proof (re_queue _ _ _ _ Hr) as Eq. pose proof (re_claims _ _ _ _ Hr) as Ec. rewrite Hq in Eq. rewrite Hc in Ec.
  apply Forall2_nil_inv_r in Eq, Ec. eapply mirrors_contents; [exact H | done | | | done | done | done]; by rewrite ?Eq, ?Ec.
Qed.

Lemma prior_settled k items st s k' j now :
  prior_parked (settleSteerReceipts k items st s) k' j now = prior_parked s k' j now.
Proof.
  unfold prior_parked, live_parked. by rewrite (settle_frame parkedSteers ltac:(done)).
Qed.
Lemma jobs_settled k items st s : jobs (settleSteerReceipts k items st s) = jobs s.
Proof. by rewrite (settle_frame jobs ltac:(done)). Qed.

Lemma leftovers_not_null l ls : Forall2 reads_leftover l ls -> JNull ∉ l.
Proof.
  induction 1 as [|v x l ls Hv _ IH]; [apply not_elem_of_nil|]. intros [E|Hin]%elem_of_cons; [|done].
  subst v. by pose proof (rl_object _ _ Hv).
Qed.

(** The unsettled steers of a job that has its claims in order: protocol 1 claims nothing. *)
Definition settles (s : Store) (k : string) (j : Job.t) : Prop :=
  (usesReceiptSafeProtocol (Some j) = false -> claims_of s k = []) /\
  Forall (fun it => 0 <= SteerQueueItem.createdAt it)%Z (unsettled s k (Job.createdAt j)).

Lemma unsettled_nil k now r s j :
  mirrors k now r s -> mget (jobs s) k = Some j -> settles s k j -> unsettled s k (Job.createdAt j) = [] ->
  queue_of s k = [] /\ claims_of s k = [].
Proof.
  intros H Hj [Hv _] Hu. unfold unsettled in Hu.
  assert (E : claimedSteerItems s k (Some (Job.createdAt j)) ++ queue_of s k = []).
  { destruct (claimedSteerItems s k (Some (Job.createdAt j)) ++ queue_of s k) eqn:E; [done|].
    exfalso. by eapply (dedup_some SteerQueueItem.steerId). }
  apply app_eq_nil in E as [Ec ->]. split; [done|]. unfold claimedSteerItems in Ec. rewrite Hj in Ec.
  assert (He : epoch_matches (Some (Job.createdAt j)) (Job.createdAt j) = true) by (by apply bool_decide_eq_true).
  rewrite He, andb_true_r in Ec. destruct (usesReceiptSafeProtocol (Some j)); [done | by apply Hv].
Qed.

Lemma settle_left k now r s j rk vs items :
  mirrors k now (with_receiptsKey rk r) s -> mget (jobs s) k = Some j ->
  Forall2 reads_item vs items -> Forall (item_fine (lua_number := lua_number)) items ->
  mirrors k now
    (with_receiptsKey (if usesReceiptSafeProtocol (Some j) then foldl (leave_receipt lua_number) rk vs else rk) r)
    (settleSteerReceipts k items leftover s).
Proof.
  intros H Hj Hv Hf. destruct (usesReceiptSafeProtocol (Some j)) eqn:E.
  - rewrite (settle_is_fold k items leftover s j Hj E Hf). by apply leave_all.
  - unfold settleSteerReceipts. by rewrite Hj, E.
Qed.

Lemma settle_spec k now old r s j found ttl :
  mirrors k now old s -> mirrors k now r s -> mget (jobs s) k = Some j -> settles s k j -> prior old = Some found ->
  let items := distinct_items (source_rows old) in
  exists s1, parkQueuedSteers k j now s = (Ok tt, s1) /\
    mirrors k now
      (with_steersKey None (with_claimedKey None
         (merge_parked lua_number old found items ttl
            (with_receiptsKey
               (if protocolV2 old then foldl (leave_receipt lua_number) (receiptsKey r) items else receiptsKey r) r)))) s1.
Proof.
  intros Ho H Hj Hs Hp items. pose proof (sources_spec k now old s j Ho Hj) as Hrows.
  pose proof (distinct_spec _ _ Hrows) as Hd. pose proof (items_fine _ _ Hrows) as Hf.
  change (dedup_on SteerQueueItem.steerId (claimedSteerItems s k (Some (Job.createdAt j)) ++ queue_of s k))
    with (unsettled s k (Job.createdAt j)) in Hd, Hf. fold items in Hd.
  unfold parkQueuedSteers. destruct (unsettled s k (Job.createdAt j)) as [|it its] eqn:Hu.
  { exists s. apply Forall2_nil_inv_r in Hd. rewrite Hd. cbn [merge_parked foldl].
    destruct (unsettled_nil k now r s j H Hj Hs Hu) as [Hq Hc]. split; [done|].
    apply with_same_steers; [|done|done]. destruct (protocolV2 old); by rewrite with_same_receipts. }
  destruct Hs as [_ Hc]. rewrite Hu in Hc. set (queue := it :: its) in *.
  destruct (hget_columns k now old s j Ho Hj) as (_ & _ & Hou & Hot & _).
  destruct (mi_job _ _ _ _ Ho j Hj) as (_ & _ & Hun & Htn).
  pose proof (re_job _ _ _ _ (mi_represents _ _ _ _ Ho)) as Hrow. rewrite Hj in Hrow.
  pose proof (prior_spec k now old s j Ho Hj) as Hpr. rewrite Hp in Hpr. destruct found as [l q].
  destruct Hpr as (_ & lm & ls & Hpm & Hl & Hlm & Hfl).
  rewrite <- (with_same_receipts r) in H. pose proof (settle_left k now r s j _ items queue H Hj Hd Hf) as H1.
  rewrite <- (v2_spec old s k j Hrow) in H1.
  set (s0 := settleSteerReceipts k queue leftover s) in *.
  pose proof (mirrors_merge k now _ s0 old j l lm ls q items queue ttl H1 Hou Hot Hun Htn Hl Hlm Hfl Hd Hf Hc
    ltac:(done)) as H2.
  pose proof (mirrors_updates k now _ SteerQueueItem.clientSteerId
    (StoreState.bound_receipt (now + PARKED_STEERS_TTL_MS)) queue _ H2
    ltac:(apply bound_same; unfold PARKED_STEERS_TTL_MS; lia)) as H3.
  apply mirrors_empty in H3. unfold bindM, modify, retM, parkLeftovers. subst s0. rewrite prior_settled, Hpm.
  subst queue. rewrite decide_False by (by eapply leftovers_not_null). eexists. split; [reflexivity | exact H3].
Qed.

(** ** The expiries *)

(** Rows that hold the same, up to their expiries. *)
Record same_rows (r r' : Rows) : Prop := {
  sr_job : content [] (jobHash r') = content [] (jobHash r);
  sr_steers : steersKey r' = steersKey r;
  sr_claimed : claimedKey r' = claimedKey r;
  sr_receipts : content [] (receiptsKey r') = content [] (receiptsKey r);
  sr_order : content [] (orderKey r') = content [] (orderKey r);
  sr_parked : Key.value <$> parkedKey r' = Key.value <$> parkedKey r
}.

Lemma refresh_spec a st :
  (0 < CasArgs.ttl a)%Z -> (0 < (refresh a st).1)%Z /\ same_rows (rows st) (rows (refresh a st).2).
Proof.
  intros Ht. unfold refresh. cbn [fst snd rows with_rows].
  set (ttl := if negb (CasArgs.is_terminal a) && _ then _ else _).
  assert (Hp : (0 < ttl)%Z) by (subst ttl; case_match; lia). split; [exact Hp|].
  set (recovers := negb (CasArgs.is_terminal a) && bool_decide (is_Some _)). clearbody recovers ttl.
  destruct recovers; case_decide; split;
    cbn [jobHash steersKey claimedKey receiptsKey orderKey parkedKey with_jobHash with_parkedKey with_receiptsKey with_orderKey];
    by rewrite ?content_extend, ?value_extend, ?content_IN.
Qed.

(** ** Recovery leases and receipts after the transition *)

Lemma with_same_parked r : with_parkedKey (parkedKey r) r = r.
Proof. by destruct r. Qed.

Lemma mirrors_lease k now r s j t :
  mirrors k now r s -> mirrors k now r (extendRecoveryLease k j t now s).
Proof.
  intros H. unfold extendRecoveryLease. destruct (Job.recoveredSteerId j); [|done].
  destruct (live_parked s k now) as [p|] eqn:Hl; [|done]. destruct (JSON_parse (Parked.payload p)) as [v|]; [|done].
  destruct (as_array (jfield v "steers") ≫= find_item (leased_by j)) as [leased|]; [|done].
  unfold extend_lease. destruct (payload_owner v (Job.userId j) (Job.tenantId j)); [|done].
  set (p' := {| p with Parked.expiresAt := imax (Parked.expiresAt p) t |}).
  assert (Hm : mirrors k now r (with_parkedSteers (mset (parkedSteers s) k p') s)).
  { rewrite <- (with_same_parked r). apply mirrors_parked; [done|].
    pose proof Hl as [_ He]%live_parked_inv. rewrite live_parked_set.
    - pose proof (mi_parked _ _ _ _ H) as Hp. rewrite Hl in Hp. exact Hp.
    - cbn. destruct (Parked.expiresAt p), t; cbn in *; try done.
      apply bool_decide_eq_false. apply bool_decide_eq_false in He. lia. }
  destruct (as_string (jfield leased "clientSteerId")) as [c|]; [|done].
  apply mirrors_update; [done | apply extend_same].
Qed.

Lemma transition_same now args c : same_receipt now (transition_receipts args c now).
Proof.
  intros e He. unfold transition_receipts. case_match; [done|]. case_match; [done|].
  destruct (decide (0 < _)%Z) as [Ht|_]; [|done]. apply (bound_same now); [|exact He]. revert Ht.
  unfold PARKED_STEERS_TTL_MS, STEER_RECEIPT_TTL_MS.
  destruct (JobStatusTransition.steerReceiptTtlSeconds args), (terminal _),
    (decide (JobStatusTransition.from args = requires_action)); lia.
Qed.

(** ** The transition *)

(** Calls as the generation manager makes them: out of an active status, with an action id that is
    not empty, and a patch that does not say whose job it is. *)
Record transition_fine (args : JobStatusTransition.t) : Prop := {
  tf_patch : patch_fine args;
  tf_from : active (JobStatusTransition.from args) = true;
  tf_action : JobStatusTransition.expectActionId args <> Some ""
}.

Lemma guard_from args j : transition_guard args j = true -> Job.status j = JobStatusTransition.from args.
Proof. unfold transition_guard. rewrite !andb_true_iff. by intros [[H%bool_decide_eq_true _] _]. Qed.

Lemma steersClosed_kept a args h :
  patch_fine args -> CasArgs.is_terminal a = false ->
  CasArgs.hdelFields a = key_name <$> JobStatusTransition.clear args ->
  CasArgs.hsetPairs a = serializeJob (patch_entries args) ->
  mget (content [] (write_job a h)) "steersClosed" = mget (content [] h) "steersClosed".
Proof.
  intros [Hp Hc _] Ht Hdel Hset. unfold write_job. rewrite Ht, Hdel, Hset.
  rewrite mget_HSETs, mget_HDELs, mget_serializeJob.
  2: { unfold mwf, mkeys, serializeJob. rewrite <- list_fmap_compose. apply (entries_wf _ []). constructor. }
  rewrite decide_False.
  2: { intros (key & E & Hk)%list_elem_of_fmap. rewrite Forall_forall in Hc.
       pose proof (clearable_names key (Hc _ Hk)) as (_ & _ & Hn). by rewrite <- E in Hn. }
  assert (Hn : mget (patch_entries args) "steersClosed" = None).
  { apply eq_None_not_Some. unfold patch_entries. rewrite entries_domain. cbn.
    intros [[E|(f & E & Hf)%list_elem_of_fmap]%elem_of_cons | []%is_Some_None]; [done|].
    rewrite Forall_forall in Hp. pose proof (patchable_names f (Hp _ Hf)) as (_ & _ & Hn). by rewrite <- E in Hn. }
  by rewrite Hn.
Qed.

(** The job written on both sides. *)
Lemma mirrors_written ttls k now old r s0 s j args d t h :
  mirrors k now old s0 -> mget (jobs s0) k = Some j -> closedSteerQueues s = closedSteerQueues s0 ->
  mirrors k now r s -> transition_fine args -> transition_guard args j = true ->
  content [] h = content [] (write_job (cas_args ttls args d t) (jobHash old)) ->
  mirrors k now (with_jobHash h r) (set_job k (transitioned args j) s).
Proof.
  intros Ho Hj Hcl H [Hp Hfrom _] Hg Hh. pose proof (guard_from args j Hg) as Hst.
  destruct (mi_job _ _ _ _ Ho j Hj) as (Hk & Hs & Hu & Ht). pose proof (re_job _ _ _ _ (mi_represents _ _ _ _ Ho)) as Hrow.
  rewrite Hj in Hrow. destruct (transitioned_stamps args j Hp) as (Hi & Hte & Hto). injection Hi as _ Hus Hcr _ _ _ _.
  apply mirrors_job; [done | | | |].
  - rewrite Hh. by apply write_keeps.
  - split_and!; [by apply transitioned_storable | by rewrite Hus | by rewrite Hte].
  - rewrite Hcr. apply (jr_small _ _ _ _ Hrow).
  - rewrite Hto, Hcl. intros Ha. rewrite <- (jr_closed _ _ _ _ Hrow) by (by rewrite Hst).
    unfold hget_job, HGET. cbn [jobHash with_jobHash]. rewrite Hh.
    rewrite (steersClosed_kept _ args) by (try done; cbn; by destruct (JobStatusTransition.to args)). done.
Qed.

(** What the in-memory transition does once it fires. *)
Lemma transition_run args k j now s s1 :
  mget (jobs s) k = Some j -> transition_guard args j = true ->
  (terminal (JobStatusTransition.to args) = true -> isParkedRecoveryCompatible s k j now = true) ->
  (if terminal (JobStatusTransition.to args) then parkQueuedSteers k j now else retM tt) s = (Ok tt, s1) ->
  exists s', StoreJobs.transitionStatus k args now s = (Ok true, s') /\
    forall r, mirrors k now r (set_job k (transitioned args j) s1) -> mirrors k now r s'.
Proof.
  intros Hj Hg Hc Hp. unfold StoreJobs.transitionStatus. rewrite Hj, Hg. cbn [negb].
  destruct (terminal (JobStatusTransition.to args) && negb (isParkedRecoveryCompatible s k j now)) eqn:E.
  { apply andb_true_iff in E as [E1 E2]. by rewrite (Hc E1) in E2. }
  unfold bindM at 1. rewrite Hp. unfold bindM, modify, retM. eexists. split; [reflexivity|].
  intros r H. apply (mirrors_map k now r _ (transition_receipts args (Job.createdAt (transitioned args j)) now)) in H;
    [|apply transition_same].
  destruct (JobStatusTransition.to args); try done; by apply mirrors_lease.
Qed.

Definition ttls_fine (t : Ttl.t) : Prop :=
  (0 < Ttl.completed t)%Z /\ (0 < Ttl.running t)%Z /\ (0 <= Ttl.requiresAction t)%Z.
Lemma ttl_positive ttls args now : ttls_fine ttls -> (0 < transition_ttl ttls args now)%Z.
Proof.
  intros (H1 & H2 & H3). unfold transition_ttl, runningStorageTtlSeconds, pauseTtlSeconds,
    GENERATION_EPOCH_GRACE_TTL_S, TERMINAL_PERSISTENCE_RETENTION_TTL_S.
  case_decide; [case_match; lia|]. repeat case_match; lia.
Qed.

(** The rows after [refresh]: the expiries of the written job, and of what was there. *)
Lemma mirrors_refreshed k now st s a h :
  mirrors k now (rows st) s -> (0 < CasArgs.ttl a)%Z ->
  let r := rows (refresh a (with_rows (with_jobHash h (rows st)) st)).2 in
  content [] (jobHash r) = content [] h /\ mirrors k now (with_jobHash (jobHash (rows st)) r) s.
Proof.
  intros H Ht r. destruct (refresh_spec a (with_rows (with_jobHash h (rows st)) st) Ht) as [_ [H1 H2 H3 H4 H5 H6]].
  fold r in H1, H2, H3, H4, H5, H6. split; [exact H1|].
  eapply mirrors_contents; [exact H | done | | | exact H4 | exact H5 | exact H6];
    cbn [steersKey claimedKey with_jobHash]; [by rewrite H2 | by rewrite H3].
Qed.

(** The job is written before the steers are settled. *)
Lemma write_first h x r old found items ttl b :
  jobHash r = h ->
  with_jobHash h (with_steersKey None (with_claimedKey None
    (merge_parked lua_number old found items ttl
       (with_receiptsKey (if b : bool then foldl (leave_receipt lua_number) (receiptsKey (with_jobHash x r)) items
                          else receiptsKey (with_jobHash x r)) (with_jobHash x r))))) =
  with_steersKey None (with_claimedKey None
    (merge_parked lua_number old found items ttl
       (if b then with_receiptsKey (foldl (leave_receipt lua_number) (receiptsKey r) items) r else r))).
Proof.
  intros <-. unfold merge_parked. destruct r, b, items as [|i items], (hget_job "userId" old); done.
Qed.
End refine.
