(* ===== verification/RedisStatus.v ===== *)
(** * Status transitions of the Redis store are those of the in-memory store

    Sequences of transitions, with or without the drain of the unsettled steers, among parkings,
    claims, consumptions and discards of leftovers, made to both stores. *)

From stdpp Require Import pretty.
From S2P Require Import Prelude JsMap Json StreamTypes SteerRecovery StoreState StoreSteers StoreParked.
From S2P Require Import StoreJobs StoreCleanup StoreFrame StoreRun StoreEpochs StoreParking StoreRecovery StoreQueue.
From S2P Require Import RedisScripts RedisLua RedisJobs RedisRoundTrip RedisSteers RedisRows RedisAdmission RedisDrain.
From S2P Require Import RedisEdits RedisStore RedisLeftovers RedisParcels RedisRecovery RedisParking.
From S2P Require Import RedisTransitions RedisWrites RedisTerminal RedisMoves.

Section refine.
Context {lua_number : jnum -> jnum} {lua : LuaNumber lua_number}.
Variable ttls : Ttl.t.
Hypothesis ttls_ok : ttls_fine ttls.
Abbreviation mirrors := (mirrors (lua_number := lua_number)).
Abbreviation JOB_CAS := (JOB_CAS lua_number).

(** ** The script *)

Definition unsettled_of (s : Store) (k : string) : list SteerQueueItem.t :=
  match mget (jobs s) k with Some j => unsettled s k (Job.createdAt j) | None => [] end.

(** The reply of a transition that fires ([ok]) or not: the drained items, one, or zero. *)
Definition cas_reply (args : JobStatusTransition.t) (drain : bool) (items : list SteerQueueItem.t)
    (ok : bool) (reply : Reply) : Prop :=
  if ok then
    if terminal (JobStatusTransition.to args) && drain
    then exists vs, reply = RText (Text (JArr vs)) /\ Forall2 reads_item vs items
    else reply = RInt 1
  else reply = RInt 0.

Lemma drained_text vs items :
  Forall2 reads_item vs items -> Forall (item_fine (lua_number := lua_number)) items ->
  exists ws, match vs with [] => RText (Text (JArr [])) | v :: l => RText (cjson_encode lua_number (JArr (v :: l))) end =
    RText (Text (JArr ws)) /\ Forall2 reads_item ws items.
Proof.
  intros H Hf. exists (cjson lua_number <$> vs). split; [by destruct vs|].
  revert Hf. induction H as [|v it vs items Hv _ IH]; [constructor|]. intros [Hi Hf]%Forall_cons.
  constructor; [by apply reads_cjson | auto].
Qed.

(** The transition of a job that has its claims in order. *)
Definition settles_in (s : Store) (k : string) (args : JobStatusTransition.t) : Prop :=
  terminal (JobStatusTransition.to args) = true -> forall j, mget (jobs s) k = Some j -> settles s k j.

(** A final transition that may fire: refused by what is parked, or done up to the expiries. *)
Lemma end_script k now st s j args drain :
  mirrors k now (rows st) s -> transition_fine args -> mget (jobs s) k = Some j -> settles s k j ->
  transition_guard args j = true -> terminal (JobStatusTransition.to args) = true ->
  let r := JOB_CAS (cas_args ttls args drain now) st in
  if isParkedRecoveryCompatible s k j now
  then exists s1, parkQueuedSteers k j now s = (Ok tt, s1) /\
         cas_reply args drain (unsettled s k (Job.createdAt j)) true r.1 /\
         mirrors k now (rows r.2) (set_job k (transitioned args j) s1)
  else r = (RInt 0, st).
Proof.
  intros H Ha Hj Hs Hg Ht r. pose proof (sources_spec k now (rows st) s j H Hj) as Hrows.
  pose proof (prior_spec k now (rows st) s j H Hj) as Hpr.
  unfold r, RedisTransitions.JOB_CAS. rewrite (guard_spec ttls k now (rows st) s j args drain now H Hj (tf_action _ Ha)), Hg.
  cbn [negb]. change (CasArgs.is_terminal (cas_args ttls args drain now)) with (terminal (JobStatusTransition.to args)).
  rewrite Ht, (sources_sound _ _ Hrows).
  destruct (prior (rows st)) as [found|] eqn:Hp; [|by rewrite Hpr].
  destruct found as [l q]. destruct Hpr as [-> _].
  pose proof (mirrors_refreshed k now st s (cas_args ttls args drain now)
    (write_job (cas_args ttls args drain now) (jobHash (rows st))) H (ttl_positive ttls args now ttls_ok)) as [Hh Hm].
  destruct (refresh _ _) as [ttl st1]. cbn [snd] in Hh, Hm.
  destruct (hget_columns k now (rows st) s j H Hj) as [-> _].
  destruct (settle_spec k now (rows st) _ s j (l, q) (CasArgs.parkedSteersTtl (cas_args ttls args drain now)) H Hm Hj Hs Hp)
    as (s1 & Hpark & Hm1).
  assert (Hcl : closedSteerQueues s1 = closedSteerQueues s).
  { pose proof (parkQueuedSteers_frame closedSteerQueues ltac:(done) k ltac:(done) ltac:(done) j now s) as E.
    by rewrite Hpark in E. }
  pose proof (mirrors_written ttls k now (rows st) _ s s1 j args drain now _ H Hj Hcl Hm1 Ha Hg Hh) as Hm2.
  rewrite write_first in Hm2 by done.
  exists s1. cbn [fst snd]. split_and!; [exact Hpark | | exact Hm2].
  unfold cas_reply. rewrite Ht. destruct drain; [|done].
  exact (drained_text _ _ (distinct_spec _ _ Hrows) (items_fine _ _ Hrows)).
Qed.

Lemma end_refines k now st s j args drain :
  mirrors k now (rows st) s -> transition_fine args -> mget (jobs s) k = Some j -> settles s k j ->
  transition_guard args j = true -> terminal (JobStatusTransition.to args) = true ->
  let r := JOB_CAS (cas_args ttls args drain now) st in
  exists ok s', StoreJobs.transitionStatus k args now s = (Ok ok, s') /\
    cas_reply args drain (unsettled s k (Job.createdAt j)) ok r.1 /\ mirrors k now (rows r.2) s'.
Proof.
  intros H Ha Hj Hs Hg Ht r. pose proof (end_script k now st s j args drain H Ha Hj Hs Hg Ht) as He. fold r in He.
  destruct (isParkedRecoveryCompatible s k j now) eqn:Hc.
  - destruct He as (s1 & Hpark & Hr & Hm).
    destruct (transition_run (lua_number := lua_number) args k j now s s1 Hj Hg (fun _ => Hc)) as (s' & Hrun & Hs'); [by rewrite Ht|].
    exists true, s'. split_and!; [exact Hrun | exact Hr | by apply Hs'].
  - exists false, s. rewrite He. split_and!; [|done|done]. unfold StoreJobs.transitionStatus. by rewrite Hj, Hg, Ht, Hc.
Qed.
Lemma run_refines k now st s j args drain :
  mirrors k now (rows st) s -> transition_fine args -> mget (jobs s) k = Some j ->
  transition_guard args j = true -> terminal (JobStatusTransition.to args) = false ->
  let r := JOB_CAS (cas_args ttls args drain now) st in
  exists s', StoreJobs.transitionStatus k args now s = (Ok true, s') /\ r.1 = RInt 1 /\ mirrors k now (rows r.2) s'.
Proof.
  intros H Ha Hj Hg Ht r. unfold r, RedisTransitions.JOB_CAS.
  rewrite (guard_spec ttls k now (rows st) s j args drain now H Hj (tf_action _ Ha)), Hg.
  cbn [negb]. change (CasArgs.is_terminal (cas_args ttls args drain now)) with (terminal (JobStatusTransition.to args)).
  rewrite Ht. pose proof (mirrors_refreshed k now st s (cas_args ttls args drain now)
    (write_job (cas_args ttls args drain now) (jobHash (rows st))) H (ttl_positive ttls args now ttls_ok)) as [Hh Hm].
  pose proof (refresh_spec (cas_args ttls args drain now) (with_rows (with_jobHash (write_job
    (cas_args ttls args drain now) (jobHash (rows st))) (rows st)) st) (ttl_positive ttls args now ttls_ok)) as [Hpos _].
  destruct (refresh _ _) as [ttl st1]. cbn [fst snd] in Hh, Hm, Hpos.
  destruct (hget_columns k now (rows st) s j H Hj) as [-> _].
  pose proof (mirrors_written ttls k now (rows st) _ s s j args drain now _ H Hj eq_refl Hm Ha Hg Hh) as Hm2.
  destruct (transition_run (lua_number := lua_number) args k j now s s Hj Hg) as (s' & Hrun & Hs');
    [by rewrite Ht | by rewrite Ht |].
  exists s'. split_and!; [exact Hrun | done |]. apply Hs'. cbn [fst snd keep_running rows with_rows].
  replace (with_jobHash (jobHash (rows st1)) (with_jobHash (jobHash (rows st)) (rows st1))) with (rows st1) in Hm2
    by (by destruct (rows st1)).
  eapply mirrors_contents; [exact Hm2 | done | | | done | done | done];
    unfold LRANGE; cbn [steersKey claimedKey with_steersKey with_claimedKey]; by rewrite content_IN.
Qed.

(** The script on a stream that mirrors the store. *)
Lemma cas_refines k now st s args drain :
  mirrors k now (rows st) s -> transition_fine args -> settles_in s k args ->
  let r := JOB_CAS (cas_args ttls args drain now) st in
  exists ok s', StoreJobs.transitionStatus k args now s = (Ok ok, s') /\
    cas_reply args drain (unsettled_of s k) ok r.1 /\ mirrors k now (rows r.2) s'.
Proof.
  intros H Ha Hs r. unfold unsettled_of. destruct (mget (jobs s) k) as [j|] eqn:Hj.
  - destruct (transition_guard args j) eqn:Hg.
    + destruct (terminal (JobStatusTransition.to args)) eqn:Ht; [by apply end_refines; auto|].
      destruct (run_refines k now st s j args drain H Ha Hj Hg Ht) as (s' & Hr & Hi & Hm).
      exists true, s'. split_and!; [done | | done]. unfold cas_reply. by rewrite Ht.
    + exists false, s. unfold r, RedisTransitions.JOB_CAS, StoreJobs.transitionStatus.
      rewrite (guard_spec ttls k now (rows st) s j args drain now H Hj (tf_action _ Ha)), Hj, Hg. done.
  - exists false, s. pose proof (re_job _ _ _ _ (mi_represents _ _ _ _ H)) as Hr. rewrite Hj in Hr.
    unfold r, RedisTransitions.JOB_CAS, StoreJobs.transitionStatus. by rewrite guard_absent, Hj.
Qed.

(** ** The methods *)

Lemma getJob_reads k now r s : mirrors k now r s -> exists o, getJob (jobHash r) = Ok o.
Proof.
  intros H. destruct (mget (jobs s) k) as [j|] eqn:Hj.
  - destruct (mi_job _ _ _ _ H j Hj) as (Hk & Hs & _). pose proof (stored_job_read _ j Hk Hs) as E.
    unfold getJob. destruct (content [] (jobHash r)); [by eexists | rewrite E; by eexists].
  - pose proof (re_job _ _ _ _ (mi_represents _ _ _ _ H)) as Hr. rewrite Hj in Hr. rewrite Hr. by eexists.
Qed.

Lemma internal_refines k now st s args drain :
  mirrors k now (rows st) s -> transition_fine args -> settles_in s k args ->
  exists reply st', JOB_CAS (cas_args ttls args drain now) st = (reply, st') /\
    transitionStatusInternal lua_number ttls args drain now st =
      (match drain, reply with
       | false, RInt 1 => Ok Fired
       | true, RText t =>
           match JSON_parse t with
           | Some (JArr items) => Ok (Drained items)
           | Some _ => Throw "Invalid terminal steer drain response"
           | None => Throw "SyntaxError"
           end
       | _, _ => Ok Lost
       end, st').
Proof.
  intros H Ha Hs. destruct (JOB_CAS _ st) as [reply st'] eqn:E. exists reply, st'. split; [done|].
  unfold transitionStatusInternal. destruct (getJob_reads k now _ s H) as [o Ho].
  rewrite E. destruct (terminal _); [|done]. by rewrite Ho.
Qed.

Lemma transition_refines k now st s args :
  mirrors k now (rows st) s -> transition_fine args -> settles_in s k args ->
  let '(a, st') := RedisTransitions.transitionStatus lua_number ttls args now st in
  let '(o, s') := StoreJobs.transitionStatus k args now s in
  (exists ok, a = Ok ok /\ o = Ok ok) /\ mirrors k now (rows st') s'.
Proof.
  intros H Ha Hs. unfold RedisTransitions.transitionStatus.
  destruct (internal_refines k now st s args false H Ha Hs) as (reply & st' & E & ->).
  destruct (cas_refines k now st s args false H Ha Hs) as (ok & s' & -> & Hr & Hm). rewrite E in Hr, Hm.
  split; [|exact Hm]. exists ok. split; [|done]. cbn [fst] in Hr. unfold cas_reply in Hr. rewrite andb_false_r in Hr.
  by destruct ok; rewrite Hr.
Qed.

Lemma drain_answers k now st s args :
  mirrors k now (rows st) s -> transition_fine args -> settles_in s k args ->
  terminal (JobStatusTransition.to args) = true ->
  let '(a, st') := RedisTransitions.transitionStatusAndDrainSteers lua_number ttls args now st in
  let '(o, s') := StoreJobs.transitionStatusAndDrainSteers k args now s in
  (exists l l', a = Ok l /\ o = Ok l' /\ option_Forall2 (Forall2 reads_item) l l') /\ mirrors k now (rows st') s'.
Proof.
  intros H Ha Hs Ht. unfold RedisTransitions.transitionStatusAndDrainSteers, StoreJobs.transitionStatusAndDrainSteers.
  rewrite Ht. cbn [negb]. destruct (internal_refines k now st s args true H Ha Hs) as (reply & st' & E & ->).
  destruct (cas_refines k now st s args true H Ha Hs) as (ok & s' & Ho & Hr & Hm). rewrite E in Hr, Hm.
  cbn [fst snd] in Hr, Hm. unfold cas_reply, unsettled_of in Hr. rewrite Ht in Hr. cbn [andb] in Hr.
  unfold StoreJobs.transitionStatus in Ho |- *. destruct (mget (jobs s) k) as [j|] eqn:Hj.
  2: { injection Ho as <- <-. rewrite Hr. split; [|exact Hm]. exists None, None. split_and!; [done | done | constructor]. }
  destruct (transition_guard args j) eqn:Hg; cbn [negb] in Ho |- *.
  2: { injection Ho as <- <-. rewrite Hr. split; [|exact Hm]. exists None, None. split_and!; [done | done | constructor]. }
  unfold bindM at 1. rewrite Hj, Hg. cbn [negb]. rewrite Ho.
  destruct ok; cbn; split; try exact Hm.
  - destruct Hr as (vs & -> & Hvs). eexists (Some vs), _. split_and!; [done | done | by constructor].
  - rewrite Hr. exists None, None. split_and!; [done | done | constructor].
Qed.
End refine.
