(* ===== verification/RedisClosing.v ===== *)
(** * The end of a queue in Redis ([stream/implementations/RedisJobStore.ts])

    [STEER_CLOSE_DRAIN_LUA] closes the queue of a job, takes what is claimed and queued, turns the
    receipts into leftovers and parks the items in front of the job's end; compared with the
    in-memory [closeAndDrainSteers]. *)

From stdpp Require Import pretty.
From S2P Require Import Prelude JsMap Json StreamTypes SteerRecovery StoreState StoreSteers StoreParked.
From S2P Require Import StoreJobs StoreCleanup StoreFrame StoreRun StoreEpochs StoreParking StoreRecovery StoreQueue.
From S2P Require Import RedisScripts RedisLua RedisJobs RedisRoundTrip RedisSteers RedisRows RedisAdmission RedisDrain.
From S2P Require Import RedisEdits RedisLeftovers RedisParcels RedisRecovery RedisTransitions RedisWrites RedisTerminal.
From S2P Require Import RedisMoves.

(** ** The script *)

Section script.
Variable lua_number : jnum -> jnum.
Abbreviation encode := (cjson_encode lua_number).

(** What was parked under other ids, in front of the drained items. *)
Definition park_drained (old : Rows) (prior : list json * GenerationProtocolVersion) (combined : list json)
    (parkedTtl : Z) (r : Rows) : Rows :=
  match combined, hget_job "userId" old with
  | _ :: _, Some ownerUserId =>
      let filtered := dedup_from steer_key (steer_key <$> combined) prior.1 in
      with_parkedKey
        (SET (encode (parked_payload_of ownerUserId (hget_job "tenantId" old) prior.2
                        (filtered ++ (projected <$> combined)))) (Some parkedTtl)) r
  | _, _ => r
  end.

Definition STEER_CLOSE_DRAIN (expected : string) (parkedTtl : Z) (r : Rows) : Reply * Rows :=
  if negb (createdAt_guard expected r) then (REmpty, r)
  else if bool_decide (jobHash r = None) then (REmpty, r)
  else
    let sources := source_rows r in
    if negb (forallb sound_row sources) then (RWord "recovery_corrupt", r)
    else if negb (bool_decide (sources = [])) && bool_decide (default "" (hget_job "userId" r) = "")
    then (RWord "recovery_corrupt", r)
    else
      match prior r with
      | None => (RWord "recovery_corrupt", r)
      | Some found =>
          let combined := distinct_items sources in
          let receipts := if protocolV2 r
                          then foldl (leave_receipt lua_number) (receiptsKey r) (omap JSON_parse sources)
                          else receiptsKey r in
          let r1 := with_jobHash (HSET "steersClosed" (Word "1") (jobHash r)) r in
          let r2 := park_drained r found combined parkedTtl (with_receiptsKey receipts r1) in
          let r3 := with_orderKey (extend_ttl parkedTtl (orderKey r2))
                      (with_receiptsKey (extend_ttl parkedTtl (receiptsKey r2)) r2) in
          (RArray (encode <$> combined), with_steersKey None (with_claimedKey None r3))
      end.

(** [closeAndDrainSteers(streamId, expectedCreatedAt)] *)
Definition closeAndDrainSteers (completed : Z) (expectedCreatedAt : option Z) : Method (list json) := fun r =>
  let '(reply, r') := STEER_CLOSE_DRAIN (expected_arg expectedCreatedAt) (parkedRecoveryTtlSeconds completed) r in
  match reply with
  | RWord _ => (Throw "Generation recovery state is corrupt or belongs to another owner", r')
  | _ => (parseSteerItems reply, r')
  end.
End script.

(** ** Against the in-memory store *)

(** Items with new, distinct keys go last whichever list is filtered first. *)
Lemma dedup_distinct {A K} `{EqDecision K} (f : A -> K) l seen :
  NoDup (f <$> l) -> (forall x, x ∈ l -> f x ∉ seen) -> dedup_from f seen l = l.
Proof.
  revert seen. induction l as [|x l IH]; intros seen; [done|]. rewrite fmap_cons, NoDup_cons. intros [Hx Hn] Hs.
  cbn. rewrite decide_False by (by apply Hs; left). f_equal. apply IH; [done|]. intros y Hy.
  rewrite not_elem_of_cons. split; [|by apply Hs; right]. intros E. apply Hx. rewrite <- E. by apply list_elem_of_fmap_2.
Qed.
Lemma dedup_fresh {A K} `{EqDecision K} (f : A -> K) l1 l2 seen seen' :
  NoDup (f <$> l2) -> (forall x, x ∈ l2 -> f x ∉ seen /\ f x ∉ f <$> l1) ->
  (forall k, k ∈ seen' <-> k ∈ f <$> l2 \/ k ∈ seen) ->
  dedup_from f seen (l1 ++ l2) = dedup_from f seen' l1 ++ l2.
Proof.
  intros Hn. revert seen seen'. induction l1 as [|x l1 IH]; intros seen seen' Hs Hk; cbn.
  { apply dedup_distinct; [done|]. intros y Hy. by apply Hs. }
  assert (Hx : f x ∉ f <$> l2).
  { intros (y & Hy & Hin)%list_elem_of_fmap. destruct (Hs y Hin) as [_ Hf]. apply Hf. rewrite <- Hy. left. }
  destruct (decide (f x ∈ seen)) as [Hin|Hin].
  - rewrite decide_True by (apply Hk; by right). apply IH; [|done].
    intros y Hy. destruct (Hs y Hy) as [? Hf]. split; [done|]. intros Hi. apply Hf. by right.
  - rewrite decide_False by (rewrite Hk; tauto). cbn. f_equal. apply IH.
    + intros y Hy. destruct (Hs y Hy) as [? Hf]. cbn in Hf. rewrite not_elem_of_cons in Hf |- *. tauto.
    + intros k. rewrite !elem_of_cons, Hk. tauto.
Qed.

Section refine.
Context {lua_number : jnum -> jnum} {lua : LuaNumber lua_number}.
Abbreviation encode := (cjson_encode lua_number).
Abbreviation mirrors := (mirrors (lua_number := lua_number)).
Abbreviation row := (row (lua_number := lua_number)).

Lemma drained_parcel old j l ls q vs its ttl r :
  hget_job "userId" old = Some (Job.userId j) -> hget_job "tenantId" old = Job.tenantId j ->
  Forall2 reads_leftover l ls -> Forall2 reads_item vs its -> Forall (item_fine (lua_number := lua_number)) its ->
  its <> [] -> NoDup (steer_ids its) -> (forall it, it ∈ its -> SteerQueueItem.steerId it ∉ leftover_id <$> ls) ->
  exists L, park_drained lua_number old (l, q) vs ttl r =
      with_parkedKey (SET (encode (parked_payload_of (Job.userId j) (Job.tenantId j) q L)) (Some ttl)) r /\
    Forall2 reads_leftover L (merged ls its).
Proof.
  intros Hu Ht Hl Hv Hf Hne Hn Hd. unfold park_drained. rewrite Hu, Ht.
  destruct vs as [|v vs]; [by apply Forall2_nil_inv_l in Hv|]. eexists. split; [reflexivity|].
  unfold merged, dedup_on. rewrite (dedup_fresh leftover_id ls _ [] (steer_ids its)).
  - apply Forall2_app; [|by apply (projected_items (lua_number := lua_number))].
    assert (E : steer_key <$> v :: vs = text_key <$> steer_ids its).
    { clear -Hv. induction Hv as [|w it ws its Hw _ IH]; [done|]. cbn. rewrite IH. f_equal. apply (ri_steerId _ _ Hw). }
    rewrite E. apply (dedup_pairs reads_leftover steer_key leftover_id text_key); [done|].
    intros w x Hw. apply (rl_steerId _ _ Hw).
  - by rewrite <- list_fmap_compose.
  - intros x (it & -> & Hit)%list_elem_of_fmap. split; [apply not_elem_of_nil | by apply Hd].
  - intros k. rewrite elem_of_nil. unfold steer_ids. rewrite <- list_fmap_compose. tauto.
Qed.
(** Nothing that is unsettled is there twice or already parked, and it has a time. *)
Definition closable (s : Store) (k : string) (now : Z) (j : Job.t) : Prop :=
  let items := claimedSteerItems s k (Some (Job.createdAt j)) ++ queue_of s k in
  NoDup (steer_ids items) /\ Forall (fun it => 0 <= SteerQueueItem.createdAt it)%Z items /\
  Forall (fun v => forall it, it ∈ items -> parked_key v <> text_key (SteerQueueItem.steerId it)) (prior_parked s k j now).1.

(** The queue closed and emptied on both sides. *)
Lemma mirrors_closed k now r s :
  mirrors k now r s ->
  mirrors k now (with_jobHash (HSET "steersClosed" (Word "1") (jobHash r)) r)
    (with_closedSteerQueues (sadd (closedSteerQueues s) k) s) \/ mget (jobs s) k = None.
Proof.
  intros [[H1 H2 H3 H4 H5 H6 H7 H8] Hj Hr Hp]. destruct (mget (jobs s) k) as [j|] eqn:E; [left | by right].
  assert (Hget : forall f, f <> "steersClosed" ->
    mget (content [] (HSET "steersClosed" (Word "1") (jobHash r))) f = mget (content [] (jobHash r)) f).
  { intros f Hf. rewrite mget_HSET. by rewrite decide_False. }
  split; [split; try done| | done | done]; cbn [jobs with_closedSteerQueues]; rewrite ?E.
  - destruct H1 as [J1 J2 J3 J4 J5 J6].
    split; unfold hget_job, HGET in *; cbn [jobHash with_jobHash closedSteerQueues with_closedSteerQueues];
      rewrite ?Hget by done; try done.
    intros _. rewrite mget_HSET, decide_True by done. cbn. rewrite elem_sadd. naive_solver.
  - intros j' [= <-]. destruct (Hj j eq_refl) as (Hk & Hj'). split; [|exact Hj'].
    intros f Hf. cbn [jobHash with_jobHash]. rewrite Hget by done. by apply Hk.
Qed.

Lemma mirrors_emptied k now r s :
  mirrors k now r s ->
  mirrors k now (with_steersKey None r) (if mhas (steerQueues s) k then set_queue k [] s else s).
Proof.
  intros [H Hj Hr Hp]. destruct (mhas (steerQueues s) k) eqn:E.
  - split; [|done|done|done]. apply represents_queue; [exact H | constructor | constructor].
  - assert (Hq : queue_of s k = []).
    { unfold queue_of. unfold mhas in E. by destruct (mget (steerQueues s) k). }
    pose proof (re_queue _ _ _ _ H) as Hrow. rewrite Hq in Hrow. apply Forall2_nil_inv_r in Hrow.
    apply (mirrors_contents k now r); [by split | done | by rewrite Hrow | done..].
Qed.

Lemma mirrors_unclaimed k now r s :
  mirrors k now r s ->
  mirrors k now (with_claimedKey None r) (with_claimedSteers (mdel (claimedSteers s) k) s).
Proof.
  intros [[H1 H2 H3 H4 H5 H6 H7 H8] Hj Hr Hp]. split; [|done|done|done].
  assert (Hc : claims_of (with_claimedSteers (mdel (claimedSteers s) k) s) k = [])
    by (unfold claims_of; cbn; by rewrite mget_mdel_eq).
  split; rewrite ?Hc; try done. cbn. destruct (mget (jobs s) k); [|done]. by apply (job_row_frame r _ s).
Qed.
(** The sources of a job under a generation guard. *)
Lemma guarded_items s k j e :
  mget (jobs s) k = Some j -> epoch_matches e (Job.createdAt j) = true ->
  (if usesReceiptSafeProtocol (Some j) then claimedSteerItems s k e else []) ++ queue_of s k =
  claimedSteerItems s k (Some (Job.createdAt j)) ++ queue_of s k.
Proof.
  intros Hj He. f_equal. unfold claimedSteerItems. rewrite Hj.
  assert (E : epoch_matches (Some (Job.createdAt j)) (Job.createdAt j) = true) by (by apply bool_decide_eq_true).
  rewrite He, E. by destruct (usesReceiptSafeProtocol (Some j)).
Qed.

Lemma fine_rows rows items : Forall2 row rows items -> Forall (item_fine (lua_number := lua_number)) items.
Proof. apply rows_fine. Qed.

(** The items as a caller reads them. *)
Lemma encoded_items vs items :
  Forall2 reads_item vs items -> Forall (item_fine (lua_number := lua_number)) items ->
  Forall2 reads_item (omap JSON_parse (encode <$> vs)) items.
Proof.
  induction 1 as [|v it vs items Hv _ IH]; [constructor|]. intros [Hi Hf]%Forall_cons. cbn.
  constructor; [by apply reads_cjson | auto].
Qed.

(** The leftovers of a closed queue parked on both sides. *)
Lemma park_drained_refines k now old base s j l lm ls q vs items ttl :
  mirrors k now base s -> hget_job "userId" old = Some (Job.userId j) -> hget_job "tenantId" old = Job.tenantId j ->
  Job.userId j <> "" -> Job.tenantId j <> Some "" -> prior_parked s k j now = (lm, q) ->
  Forall2 reads_leftover l ls -> Forall2 reads_leftover lm ls ->
  Forall (leftover_fine (lua_number := lua_number)) ls ->
  Forall2 reads_item vs items -> Forall (item_fine (lua_number := lua_number)) items ->
  Forall (fun it => 0 <= SteerQueueItem.createdAt it)%Z items -> NoDup (steer_ids items) ->
  Forall (fun v => forall it, it ∈ items -> parked_key v <> text_key (SteerQueueItem.steerId it)) lm ->
  exists s1, parkLeftovers k items (Some j) now s = (Ok tt, s1) /\
    mirrors k now (park_drained lua_number old (l, q) vs ttl base) s1.
Proof.
  intros H Hu Ht Hun Htn Hpm Hl Hlm Hfl Hv Hf Hc Hn Hap. unfold parkLeftovers. destruct items as [|it its].
  { apply Forall2_nil_inv_r in Hv as ->. by exists s. }
  rewrite Hpm. set (items := it :: its) in *. rewrite decide_False by (by eapply leftovers_not_null).
  destruct (drained_parcel old j l ls q vs items ttl base Hu Ht Hl Hv Hf ltac:(done) Hn) as (L & -> & HL).
  { intros x Hx (y & Hy & Hin)%list_elem_of_fmap. clear -Hlm Hap Hx Hy Hin.
    induction Hlm as [|w z lm ls Hw _ IH]; [by apply elem_of_nil in Hin|]. apply Forall_cons in Hap as [Ha Hap].
    apply elem_of_cons in Hin as [->|Hin]; [|by apply IH]. apply (Ha x Hx). unfold parked_key, text_key.
    rewrite (rl_steerId _ _ Hw). by rewrite Hy. }
  eexists. split; [reflexivity|]. apply (mirrors_updates k now _ SteerQueueItem.clientSteerId
    (StoreState.bound_receipt (now + PARKED_STEERS_TTL_MS)) items).
  - by apply mirrors_parcel with (ls := ls).
  - apply bound_same. unfold PARKED_STEERS_TTL_MS. lia.
Qed.

Lemma close_refines completed k now r s e :
  mirrors k now r s -> (forall j, mget (jobs s) k = Some j -> closable s k now j) ->
  let '(a, r') := closeAndDrainSteers lua_number completed e r in
  let '(o, s') := StoreSteers.closeAndDrainSteers k e now s in
  same_result (Forall2 reads_item) a o /\ mirrors k now r' s'.
Proof.
  intros H Hc. unfold closeAndDrainSteers, STEER_CLOSE_DRAIN, StoreSteers.closeAndDrainSteers.
  pose proof (re_job _ _ _ _ (mi_represents _ _ _ _ H)) as Hr. destruct (mget (jobs s) k) as [j|] eqn:Hj.
  2: { destruct (createdAt_guard _ r); cbn [negb]; [rewrite bool_decide_true by done|]; (split; [constructor | done]). }
  rewrite (guard_epoch r s k j e Hr). destruct (epoch_matches e (Job.createdAt j)) eqn:He; cbn [negb]; [|split; [constructor | done]].
  rewrite (bool_decide_false (jobHash r = None)) by (by apply (hash_present _ s k j)).
  pose proof (sources_spec k now r s j H Hj) as Hrows. rewrite (sources_sound _ _ Hrows). cbn [negb].
  destruct (hget_columns k now r s j H Hj) as (_ & _ & Hu & Ht & _).
  destruct (mi_job _ _ _ _ H j Hj) as (_ & _ & Hun & Htn).
  rewrite Hu, (bool_decide_false (_ = "")) by done. rewrite andb_false_r.
  pose proof (prior_spec k now r s j H Hj) as Hp. destruct (prior r) as [[l q]|].
  2: { rewrite Hp. cbn [negb]. by split. }
  destruct Hp as (Hcomp & lm & ls & Hpm & Hl & Hlm & Hfl). rewrite Hcomp. cbn [negb].
  rewrite (guarded_items s k j e Hj He). destruct (Hc j eq_refl) as (Hn & Hca & Hap). rewrite Hpm in Hap. cbn [fst] in Hap.
  pose proof (fine_rows _ _ Hrows) as Hf. pose proof (distinct_spec _ _ Hrows) as Hd. pose proof (parsed_rows _ _ Hrows) as Hv.
  set (items := claimedSteerItems s k (Some (Job.createdAt j)) ++ queue_of s k) in *.
  assert (Ed : dedup_on SteerQueueItem.steerId items = items)
    by (apply dedup_distinct; [exact Hn | by intros x _ ?%elem_of_nil]).
  rewrite Ed in Hd |- *. set (ttl := parkedRecoveryTtlSeconds completed).
  destruct (mirrors_closed k now r s H) as [H1|]; [|by rewrite Hj in *].
  apply mirrors_emptied in H1. set (s2 := if mhas _ k then _ else _) in H1.
  assert (E2 : jobs s2 = jobs s /\ parkedSteers s2 = parkedSteers s) by (subst s2; by case_match).
  set (r2 := with_steersKey None _) in H1. rewrite <- (with_same_receipts r2) in H1.
  pose proof (settle_left k now r2 s2 j _ _ items H1 ltac:(by rewrite (proj1 E2)) Hv Hf) as H3.
  rewrite <- (v2_spec r s k j Hr) in H3. apply mirrors_unclaimed in H3.
  set (s4 := with_claimedSteers _ _) in H3.
  assert (E4 : prior_parked s4 k j now = (lm, q)).
  { rewrite <- Hpm. transitivity (prior_parked (settleSteerReceipts k items leftover s2) k j now); [done|].
    rewrite prior_settled. unfold prior_parked, live_parked. by rewrite (proj2 E2). }
  destruct (park_drained_refines k now r _ s4 j l lm ls q _ items ttl H3 Hu Ht Hun Htn E4 Hl Hlm Hfl Hd Hf Hca Hn Hap)
    as (s5 & Hpark & H5).
  unfold bindM, modify, retM. cbn [fst snd]. fold s2. fold s4. rewrite Hpark.
  split; [by apply encoded_items|]. unfold park_drained in H5 |- *. rewrite Hu in H5 |- *.
  destruct (distinct_items (source_rows r)); (eapply mirrors_contents;
    [exact H5 | reflexivity | reflexivity | reflexivity | apply content_extend | apply content_extend | reflexivity]).
Qed.
End refine.
