(* ===== verification/RedisUpdates.v ===== *)
(** * Writes and deletion of a job in Redis ([stream/implementations/RedisJobStore.ts])

    [JOB_UPDATE_LUA], the fences of the provider and of terminal persistence, and
    [JOB_DELETE_LUA], with the methods that send them, each compared with the in-memory store.  The
    membership sets are reconciled afterwards ([RedisMembership]). *)

From stdpp Require Import pretty.
From S2P Require Import Prelude JsMap Json StreamTypes SteerRecovery StoreState StoreSteers StoreParked.
From S2P Require Import StoreJobs StoreCleanup StoreFrame StoreRun StoreEpochs StoreParking StoreRecovery StoreQueue.
From S2P Require Import RedisScripts RedisLua RedisJobs RedisRoundTrip RedisSteers RedisRows RedisAdmission RedisDrain.
From S2P Require Import RedisEdits RedisLeftovers RedisParcels RedisRecovery RedisTransitions RedisWrites RedisTerminal.
From S2P Require Import RedisMoves RedisStatus.

(** ** Scripts *)

Definition HSETs (pairs : jsmap text) (h : option (Key.t (jsmap text))) : option (Key.t (jsmap text)) :=
  foldl (fun h e => HSET e.1 e.2 h) h pairs.
Definition write_pairs (pairs : jsmap text) (r : Rows) : Rows := with_jobHash (HSETs pairs (jobHash r)) r.

Definition JOB_UPDATE (expected : string) (is_terminal : bool) (completedTtl chunksTtl runStepsTtl : Z)
    (pairs : jsmap text) (st : Stream) : Reply * Stream :=
  let r := rows st in
  if bool_decide (jobHash r = None) then (RInt 0, st)
  else if negb (createdAt_guard expected r) then (RInt 0, st)
  else
    let r := write_pairs pairs r in
    (RInt 1,
     if is_terminal
     then {| (with_rows (with_steersKey None (with_jobHash (EXPIRE_IN completedTtl (jobHash r)) r)) st) with
             chunksKey := retire chunksTtl (chunksKey st); runStepsKey := retire runStepsTtl (runStepsKey st) |}
     else with_rows r st).

Definition PROVIDER_DRAIN (expected executionId : string) (r : Rows) : Reply * Rows :=
  if negb (bool_decide (hget_job "createdAt" r = Some expected)) then (RInt 0, r)
  else if negb (bool_decide (hget_job "providerExecutionId" r = Some executionId)) then (RInt 0, r)
  else (RInt 1, write_pairs [("providerDrained", Word "1")] r).

Definition PROVIDER_BEGIN (expected executionId : string) (r : Rows) : Reply * Rows :=
  if negb (bool_decide (hget_job "createdAt" r = Some expected)) then (RInt 0, r)
  else if negb (bool_decide (hget_job "providerExecutionId" r = Some executionId)) then (RInt 0, r)
  else if negb (bool_decide (hget_job "status" r = Some "running")) then (RInt 0, r)
  else if negb (bool_decide (hget_job "providerDrained" r = Some "1")) then (RInt 0, r)
  else (RInt 1, write_pairs [("providerDrained", Word "0")] r).

Definition TERMINAL_PERSISTENCE_FINALIZE (expected finalEvent : string) (r : Rows) : Reply * Rows :=
  if negb (bool_decide (hget_job "createdAt" r = Some expected)) then (RInt 0, r)
  else if negb (bool_decide (hget_job "terminalPersistencePending" r = Some "1")) then (RInt 0, r)
  else (RInt 1, write_pairs [("terminalPersistencePending", Word "0"); ("finalEvent", Word finalEvent)] r).

(** The number of jobs deleted. *)
Definition JOB_DELETE (expected : string) (expectMissing : bool) (st : Stream) : Z * Stream :=
  let r := rows st in
  if negb (createdAt_guard expected r) then (0%Z, st)
  else
    let existed := negb (bool_decide (jobHash r = None)) in
    if expectMissing && existed then (0%Z, st)
    else
      (if existed then 1%Z else 0%Z,
       {| (with_rows (with_jobHash None (with_steersKey None (with_claimedKey None r))) st) with
          chunksKey := None; runStepsKey := None |}).

(** ** Methods *)

Definition markProviderExecutionDrained (expectedCreatedAt : Z) (providerExecutionId : string)
  : Method bool := fun r =>
  let '(reply, r') := PROVIDER_DRAIN (pretty expectedCreatedAt) providerExecutionId r in (succeeded reply, r').
Definition beginProviderExecution (expectedCreatedAt : Z) (providerExecutionId : string)
  : Method bool := fun r =>
  let '(reply, r') := PROVIDER_BEGIN (pretty expectedCreatedAt) providerExecutionId r in (succeeded reply, r').
Definition finalizeTerminalPersistence (expectedCreatedAt : Z) (finalEvent : string) : Method bool := fun r =>
  let '(reply, r') := TERMINAL_PERSISTENCE_FINALIZE (pretty expectedCreatedAt) finalEvent r in (succeeded reply, r').

Section methods.
Variable lua_number : jnum -> jnum.
Variable ttls : Ttl.t.

(** The lifetime that a terminal update leaves to the job. *)
Definition completed_ttl (updates : list JobField) (observed : option Job.t) : Z :=
  if bool_decide (mget (entries_of updates []) "terminalPersistencePending" = Some (JBool true)) ||
     bool_decide (observed ≫= Job.terminalPersistencePending = Some true)
  then Z.max (Ttl.completed ttls) TERMINAL_PERSISTENCE_RETENTION_TTL_S else Ttl.completed ttls.

(** The plain field write of [updateJob]. *)
Definition update_fields (updates : list JobField) (expectedCreatedAt : option Z) (is_terminal : bool)
    (st : Stream) : result string () * Stream :=
  match serializeJob (entries_of updates []) with
  | [] => (Ok tt, st)
  | serialized =>
      match (if is_terminal then getJob (jobHash (rows st)) else Ok None) with
      | Throw e => (Throw e, st)
      | Ok observed =>
          (Ok tt, (JOB_UPDATE (expected_arg expectedCreatedAt) is_terminal (completed_ttl updates observed)
                     (Ttl.chunksAfterComplete ttls) (Ttl.runStepsAfterComplete ttls) serialized st).2)
      end
  end.

(** [updateJob(streamId, updates, expectedCreatedAt)], up to the reconciliation of the membership. *)
Definition updateJob (updates : list JobField) (expectedCreatedAt : option Z) (now : Z) (st : Stream)
  : result string () * Stream :=
  match patch_status updates with
  | Some status =>
      if terminal status then
        match getJob (jobHash (rows st)) with
        | Throw e => (Throw e, st)
        | Ok observed =>
            match observed with
            | Some j =>
                if epoch_matches expectedCreatedAt (Job.createdAt j) && active (Job.status j)
                then
                  let '(a, st') :=
                    transitionStatus lua_number ttls
                      (JobStatusTransition.mk (Job.status j) status
                         (filter (fun f => is_status_field f = false) updates) [] None
                         (Some (default (Job.createdAt j) expectedCreatedAt)) None) now st in
                  (match a with Ok _ => Ok tt | Throw e => Throw e end, st')
                else update_fields updates expectedCreatedAt true st
            | None => update_fields updates expectedCreatedAt true st
            end
        end
      else update_fields updates expectedCreatedAt false st
  | None => update_fields updates expectedCreatedAt false st
  end.

(** [deleteJob(streamId, expectedCreatedAt)], up to the reconciliation of the membership. *)
Definition deleteJob (expectedCreatedAt : option Z) (st : Stream) : result string bool * Stream :=
  match getJob (jobHash (rows st)) with
  | Throw e => (Throw e, st)
  | Ok observed =>
      let target := match expectedCreatedAt with Some e => Some e | None => Job.createdAt <$> observed end in
      let expectMissing := bool_decide (expectedCreatedAt = None /\ observed = None) in
      let '(deleted, st') := JOB_DELETE (expected_arg target) expectMissing st in
      (Ok (bool_decide (deleted = 1%Z)), st')
  end.
End methods.

(** ** The job that is written *)

(** A property that an update may set: also a final status. *)
Definition settable (f : JobField) : Prop :=
  match f with F_status st => terminal st = true | _ => patchable f end.

Lemma settable_names f :
  settable f -> field_named f /\ pair_of f ∉ private_names /\ pair_of f <> "steersClosed".
Proof.
  destruct f; try exact (patchable_names _). intros _. split; [exact I|]. split; [|done].
  by apply (bool_decide_unpack _); vm_compute.
Qed.

Lemma settable_identity fs j : Forall settable fs -> identity (assign j fs) = identity j /\
  Job.tenantId (assign j fs) = Job.tenantId j.
Proof.
  intros Hf. revert j. induction Hf as [|f fs Hn _ IH]; intros j; [done|].
  change (assign j (f :: fs)) with (assign (assign1 j f) fs). destruct (IH (assign1 j f)) as (-> & ->). by destruct f.
Qed.
Lemma settable_typed fs j : Forall settable fs ->
  Forall typed_property (Job.metadata j) -> Forall typed_property (Job.metadata (assign j fs)).
Proof.
  intros Hf. revert j. induction Hf as [|f fs Hn _ IH]; intros j Hj; [done|].
  apply (IH (assign1 j f)). destruct f; try done. by apply typed_mset.
Qed.
Lemma settable_storable fs j : Forall settable fs -> storable j -> storable (assign j fs).
Proof.
  intros Hf [Ht Hr]. destruct (settable_identity fs j Hf) as [Hi _]. split; [by apply settable_typed|].
  unfold replaced_ok in *. injection Hi as _ _ -> _ _ -> ->. exact Hr.
Qed.

(** The hash after the fields of an update keeps the job after them. *)
Lemma assign_keeps fs j h :
  Forall settable fs -> storable j -> keeps_job (content [] h) j ->
  keeps_job (content [] (HSETs (serializeJob (entries_of fs [])) h)) (assign j fs).
Proof.
  intros Hf Hj Hk k Hne. pose proof (settable_storable fs j Hf Hj) as Hj'.
  destruct (settable_identity fs j Hf) as [Hi _].
  assert (Hpf : private_fields (assign j fs) = private_fields j).
  { unfold private_fields. by injection Hi as _ _ _ _ -> -> ->. }
  assert (Hn : Forall field_named fs) by (eapply Forall_impl; [exact Hf | intros f Hs; by apply settable_names]).
  assert (Hw : mwf (serializeJob (entries_of fs []))).
  { unfold mwf, mkeys, serializeJob. rewrite <- list_fmap_compose. apply (entries_wf _ []). constructor. }
  unfold HSETs. rewrite mget_HSETs, mget_serializeJob by done.
  rewrite job_fields_get, Hpf by (by eapply stored_separate).
  rewrite (entry_assign fs j j [] Hn) by done.
  destruct (mget (entries_of fs []) k); [done|]. cbn. rewrite Hk by done. apply job_fields_get. by eapply stored_separate.
Qed.

Lemma closed_kept fs h :
  Forall settable fs ->
  mget (content [] (HSETs (serializeJob (entries_of fs [])) h)) "steersClosed" = mget (content [] h) "steersClosed".
Proof.
  intros Hf. unfold HSETs. rewrite mget_HSETs, mget_serializeJob.
  2: { unfold mwf, mkeys, serializeJob. rewrite <- list_fmap_compose. apply (entries_wf _ []). constructor. }
  assert (Hn : mget (entries_of fs []) "steersClosed" = None).
  { apply eq_None_not_Some. rewrite entries_domain.
    intros [(f & E & Hin)%list_elem_of_fmap | []%is_Some_None].
    rewrite Forall_forall in Hf. pose proof (settable_names f (Hf _ Hin)) as (_ & _ & Hn). by rewrite <- E in Hn. }
  by rewrite Hn.
Qed.

Section refine.
Context {lua_number : jnum -> jnum} {lua : LuaNumber lua_number}.
Abbreviation mirrors := (mirrors (lua_number := lua_number)).

(** An update of the job on both sides, whatever the expiry of its hash. *)
Lemma mirrors_assign k now r s j fs h :
  mirrors k now r s -> mget (jobs s) k = Some j -> Forall settable fs ->
  (active (Job.status (assign j fs)) = true -> active (Job.status j) = true) ->
  content [] h = content [] (HSETs (serializeJob (entries_of fs [])) (jobHash r)) ->
  mirrors k now (with_jobHash h r) (set_job k (assign j fs) s).
Proof.
  intros H Hj Hf Ha Hh. destruct (mi_job _ _ _ _ H j Hj) as (Hk & Hs & Hu & Ht).
  pose proof (re_job _ _ _ _ (mi_represents _ _ _ _ H)) as Hrow. rewrite Hj in Hrow.
  destruct (settable_identity fs j Hf) as (Hi & Hte). injection Hi as _ Hus Hcr _ _ _ _.
  apply mirrors_job; [done | | | |].
  - rewrite Hh. by apply assign_keeps.
  - split_and!; [by apply settable_storable | by rewrite Hus | by rewrite Hte].
  - rewrite Hcr. apply (jr_small _ _ _ _ Hrow).
  - intros Hact. rewrite <- (jr_closed _ _ _ _ Hrow) by auto.
    unfold hget_job, HGET. cbn [jobHash with_jobHash]. by rewrite Hh, closed_kept.
Qed.

(** ** Fences *)

Lemma hget_fields k now r s j :
  mirrors k now r s -> mget (jobs s) k = Some j ->
  hget_job "providerExecutionId" r = Job.providerExecutionId j /\
  hget_job "providerDrained" r = (fun b : bool => if b then "1" else "0") <$> Job.providerDrained j /\
  hget_job "terminalPersistencePending" r = (fun b : bool => if b then "1" else "0") <$> Job.terminalPersistencePending j.
Proof.
  intros H Hj. destruct (mi_job _ _ _ _ H j Hj) as (Hk & Hs & _). unfold hget_job, HGET.
  pose proof (column _ j Hk Hs "providerExecutionId" _ eq_refl ltac:(by vm_compute)) as ->.
  pose proof (column _ j Hk Hs "providerDrained" _ eq_refl ltac:(by vm_compute)) as ->.
  pose proof (column _ j Hk Hs "terminalPersistencePending" _ eq_refl ltac:(by vm_compute)) as ->. cbn.
  by destruct (Job.providerExecutionId j), (Job.providerDrained j) as [[]|], (Job.terminalPersistencePending j) as [[]|].
Qed.
(** The tests of a fence against those of the in-memory store. *)
Lemma created_is r (z c : Z) :
  hget_job "createdAt" r = Some (pretty z) -> hget_job "createdAt" r = Some (pretty c) <-> z = c.
Proof. intros ->. split; [by intros [= E%(inj pretty)] | by intros ->]. Qed.
Lemma flag_is (b : option bool) :
  (fun b : bool => if b then "1" else "0") <$> b = Some "1" <-> b = Some true.
Proof. destruct b as [[]|]; cbn; naive_solver. Qed.
Lemma running_is st : Some (status_text st) = Some "running" <-> st = running.
Proof. change "running" with (status_text running). rewrite <- status_text_same. split; [by intros [= ->] | by intros ->]. Qed.

(** Case analysis on the tests, one by one; a failed one refuses on both sides. *)
Ltac fence :=
  repeat (match goal with
    | |- context [negb (bool_decide ?P)] =>
        destruct (decide P); [rewrite (bool_decide_true P) by done | rewrite (bool_decide_false P) by done]; cbn [negb]
    end; [|rewrite bool_decide_false by tauto; by split]);
  rewrite bool_decide_true by done; split; [done|].

Lemma drained_refines k now r s c id :
  mirrors k now r s ->
  let '(a, r') := markProviderExecutionDrained c id r in
  let '(o, s') := StoreJobs.markProviderExecutionDrained k c id s in
  a = Ok o /\ mirrors k now r' s'.
Proof.
  intros H. unfold markProviderExecutionDrained, PROVIDER_DRAIN, StoreJobs.markProviderExecutionDrained.
  destruct (mget (jobs s) k) as [j|] eqn:Hj; [|rewrite (hget_none k now r s "createdAt" H Hj); by split].
  destruct (hget_columns k now r s j H Hj) as (Hc & _). destruct (hget_fields k now r s j H Hj) as (Hid & _).
  rewrite (bool_decide_ext _ _ (created_is r _ c Hc)), Hid. fence.
  apply (mirrors_assign k now r s j [F_providerDrained true]); [done | done | by repeat constructor | done | done].
Qed.

Lemma begin_refines k now r s c id :
  mirrors k now r s ->
  let '(a, r') := beginProviderExecution c id r in
  let '(o, s') := StoreJobs.beginProviderExecution k c id s in
  a = Ok o /\ mirrors k now r' s'.
Proof.
  intros H. unfold beginProviderExecution, PROVIDER_BEGIN, StoreJobs.beginProviderExecution.
  destruct (mget (jobs s) k) as [j|] eqn:Hj; [|rewrite (hget_none k now r s "createdAt" H Hj); by split].
  destruct (hget_columns k now r s j H Hj) as (Hc & Hst & _). destruct (hget_fields k now r s j H Hj) as (Hid & Hd & _).
  rewrite (bool_decide_ext _ _ (created_is r _ c Hc)), Hid, Hst, Hd,
    (bool_decide_ext _ _ (running_is _)), (bool_decide_ext _ _ (flag_is _)). fence.
  apply (mirrors_assign k now r s j [F_providerDrained false]); [done | done | by repeat constructor | done | done].
Qed.

Lemma finalize_refines k now r s c ev :
  mirrors k now r s ->
  let '(a, r') := finalizeTerminalPersistence c ev r in
  let '(o, s') := StoreJobs.finalizeTerminalPersistence k c ev s in
  a = Ok o /\ mirrors k now r' s'.
Proof.
  intros H. unfold finalizeTerminalPersistence, TERMINAL_PERSISTENCE_FINALIZE, StoreJobs.finalizeTerminalPersistence.
  destruct (mget (jobs s) k) as [j|] eqn:Hj; [|rewrite (hget_none k now r s "createdAt" H Hj); by split].
  destruct (hget_columns k now r s j H Hj) as (Hc & _). destruct (hget_fields k now r s j H Hj) as (_ & _ & Hp).
  rewrite (bool_decide_ext _ _ (created_is r _ c Hc)), Hp, (bool_decide_ext _ _ (flag_is _)). fence.
  apply (mirrors_assign k now r s j [F_terminalPersistencePending false; F_finalEvent ev]);
    [done | done | by repeat constructor | done | done].
Qed.

(** ** Updates *)

(** An update sets no property that says whose job it is, no status but a final one, and finds no
    steers once the job has ended. *)
Record update_fine (updates : list JobField) (k : string) (s : Store) : Prop := {
  uf_fields : Forall settable updates;
  uf_ended : forall j, mget (jobs s) k = Some j -> active (Job.status j) = false -> queue_of s k = [];
  uf_settles : patch_status updates <> None -> forall j, mget (jobs s) k = Some j -> settles s k j
}.

Lemma status_assigned fs st acc j :
  Job.status j = default st acc ->
  Job.status (assign j fs) =
  default st (foldl (fun acc f => match f with F_status v => Some v | _ => acc end) acc fs).
Proof.
  revert acc j. induction fs as [|f fs IH]; intros acc j Hj; [done|].
  change (assign j (f :: fs)) with (assign (assign1 j f) fs). cbn [foldl]. apply IH. by destruct f.
Qed.
Lemma patch_status_set fs j : Job.status (assign j fs) = default (Job.status j) (patch_status fs).
Proof. by apply status_assigned. Qed.

Lemma settable_final fs st : Forall settable fs -> patch_status fs = Some st -> terminal st = true.
Proof.
  intros Hf. unfold patch_status. assert (Hg : forall acc, (forall a, acc = Some a -> terminal a = true) ->
    foldl (fun acc f => match f with F_status v => Some v | _ => acc end) acc fs = Some st -> terminal st = true).
  { induction Hf as [|f fs Hs _ IH]; intros acc Ha; [apply Ha|]. cbn [foldl]. apply IH.
    destruct f; try done. by intros a [= <-]. }
  by apply Hg.
Qed.

Lemma stays_active fs j :
  Forall settable fs -> active (Job.status (assign j fs)) = true -> active (Job.status j) = true.
Proof.
  intros Hf. rewrite patch_status_set. destruct (patch_status fs) as [st|] eqn:E; [|done].
  pose proof (settable_final fs st Hf E). by destruct st.
Qed.

Lemma completed_positive ttls updates o : ttls_fine ttls -> (0 < completed_ttl ttls updates o)%Z.
Proof. intros (? & _). unfold completed_ttl. case_match; lia. Qed.

(** The job and the keys after the plain field write. *)
Definition updated (k : string) (updates : list JobField) (e : option Z) (s : Store) : Store :=
  match mget (jobs s) k with
  | Some j => if epoch_matches e (Job.createdAt j) then set_job k (assign j updates) s else s
  | None => s
  end.

Lemma fields_refine ttls k now st s updates e b :
  ttls_fine ttls -> mirrors k now (rows st) s -> update_fine updates k s ->
  (b = true -> forall j, mget (jobs s) k = Some j -> epoch_matches e (Job.createdAt j) = true ->
     active (Job.status j) = false) ->
  exists st', update_fields ttls updates e b st = (Ok tt, st') /\ mirrors k now (rows st') (updated k updates e s).
Proof.
  intros Httl H [Hf He _] Hb. unfold update_fields, updated.
  assert (Hsame : forall j, mget (jobs s) k = Some j -> forall h r, mirrors k now r s -> jobHash r = jobHash (rows st) ->
    content [] h = content [] (HSETs (serializeJob (entries_of updates [])) (jobHash (rows st))) ->
    mirrors k now (with_jobHash h r) (set_job k (assign j updates) s)).
  { intros j Hj h r Hr E Hh. apply mirrors_assign; try done; [by apply stays_active | by rewrite E]. }
  destruct (serializeJob (entries_of updates [])) as [|p ps] eqn:Es.
  { exists st. split; [done|]. destruct (mget (jobs s) k) as [j|]; [|done]. case_match; [|done].
    replace (rows st) with (with_jobHash (jobHash (rows st)) (rows st)) by (by destruct (rows st)). by apply Hsame. }
  rewrite <- Es in *. set (pairs := serializeJob _) in *. clearbody pairs.
  assert (Hget : exists o, (if b then getJob (jobHash (rows st)) else Ok None) = Ok o)
    by (destruct b; [by eapply getJob_reads | by eexists]).
  destruct Hget as [o' ->]. eexists. split; [reflexivity|]. unfold JOB_UPDATE.
  pose proof (re_job _ _ _ _ (mi_represents _ _ _ _ H)) as Hr. destruct (mget (jobs s) k) as [j|] eqn:Hj.
  2: { by rewrite bool_decide_true. }
  rewrite (bool_decide_false (jobHash (rows st) = None)) by (by apply (hash_present _ s k j)).
  rewrite (guard_epoch _ s k j e Hr). destruct (epoch_matches e (Job.createdAt j)) eqn:Hep; cbn [negb]; [|done].
  destruct b; cbn [snd rows with_rows]; [|by apply (Hsame j)].
  apply (Hsame j eq_refl _ (with_steersKey None (rows st))); [|done|].
  - assert (Hq : LRANGE (steersKey (rows st)) = []).
    { pose proof (re_queue _ _ _ _ (mi_represents _ _ _ _ H)) as Hq. rewrite (He j eq_refl (Hb eq_refl j eq_refl Hep)) in Hq.
      by apply Forall2_nil_inv_r in Hq. }
    eapply mirrors_contents; [exact H | done | by rewrite Hq | done..].
  - by apply content_IN, completed_positive.
Qed.
Lemma observed_job k now r s j :
  mirrors k now r s -> mget (jobs s) k = Some j -> getJob (jobHash r) = Ok (Some (as_read j)).
Proof.
  intros H Hj. destruct (mi_job _ _ _ _ H j Hj) as (Hk & Hs & _).
  pose proof (stored_job_read _ j Hk Hs) as E. destruct (hget_columns k now r s j H Hj) as (Hc & _).
  unfold getJob. unfold hget_job, HGET in Hc. destruct (content [] (jobHash r)); [done | by rewrite E].
Qed.

(** The transition that a final update of an active job becomes. *)
Definition ending (updates : list JobField) (e : option Z) (j : Job.t) (status : JobStatus) : JobStatusTransition.t :=
  JobStatusTransition.mk (Job.status j) status (filter (fun f => is_status_field f = false) updates) [] None
    (Some (default (Job.createdAt j) e)) None.

Lemma ending_fine updates e j status :
  Forall settable updates -> active (Job.status j) = true -> transition_fine (ending updates e j status).
Proof.
  intros Hf Ha. split; [|done|done]. split; cbn; [|constructor | by intros k ?%elem_of_nil].
  rewrite Forall_forall in *. intros f [Hs Hin]%list_elem_of_filter. specialize (Hf f Hin). by destruct f.
Qed.

Lemma update_refines ttls k now st s updates e :
  ttls_fine ttls -> mirrors k now (rows st) s -> update_fine updates k s ->
  let '(a, st') := updateJob lua_number ttls updates e now st in
  let '(o, s') := StoreJobs.updateJob k updates e now s in
  a = Ok tt /\ o = Ok tt /\ mirrors k now (rows st') s'.
Proof.
  intros Httl H Hu. pose proof Hu as [Hf _ Hset]. unfold updateJob, StoreJobs.updateJob.
  pose proof (fields_refine ttls k now st s updates e) as Hplain. unfold updated in Hplain.
  destruct (mget (jobs s) k) as [j|] eqn:Hj.
  2: { pose proof (re_job _ _ _ _ (mi_represents _ _ _ _ H)) as Hr. rewrite Hj in Hr. rewrite Hr.
       destruct (Hplain true Httl H Hu) as (st1 & E1 & H1); [by intros _ j|].
       destruct (Hplain false Httl H Hu) as (st2 & E2 & H2); [done|].
       destruct (patch_status updates) as [status|]; [|by rewrite E2].
       destruct (terminal status); [by cbn; rewrite E1 | by rewrite E2]. }
  rewrite (observed_job k now (rows st) s j H Hj). cbn [as_read Job.createdAt Job.status].
  destruct (patch_status updates) as [status|] eqn:Eps.
  - rewrite (settable_final updates status Hf Eps). cbn [andb].
    destruct (epoch_matches e (Job.createdAt j)) eqn:He; cbn [andb negb].
    + destruct (active (Job.status j)) eqn:Ha.
      * change (JobStatusTransition.mk _ _ _ _ _ _ _) with (ending updates e j status).
        pose proof (transition_refines ttls Httl k now st s (ending updates e j status) H
          (ending_fine updates e j status Hf Ha)) as Ht.
        destruct (RedisTransitions.transitionStatus _ _ _ now st) as [a st'].
        unfold bindM. destruct (StoreJobs.transitionStatus k _ now s) as [o s'].
        destruct Ht as [(ok & -> & ->) Hm]; [intros _ j' Hj'; apply Hset; congruence|]. by split_and!.
      * destruct (Hplain true Httl H Hu) as (st1 & -> & H1); [by intros _ j' [= <-] _|]. by split_and!.
    + destruct (Hplain true Httl H Hu) as (st1 & -> & H1); [intros _ j' [= <-]; by rewrite He|]. by split_and!.
  - destruct (Hplain false Httl H Hu) as (st1 & -> & H1); [done|].
    destruct (epoch_matches e (Job.createdAt j)); by split_and!.
Qed.
(** ** Deletion *)

(** Without a job the stream has no steers. *)
Definition orderly (k : string) (s : Store) : Prop :=
  mget (jobs s) k = None -> queue_of s k = [] /\ claims_of s k = [].

Lemma mirrors_deleted k now r s s' :
  mirrors k now r s -> mget (jobs s') k = None -> queue_of s' k = [] -> claims_of s' k = [] ->
  steerReceipts s' = steerReceipts s -> parkedSteers s' = parkedSteers s ->
  mirrors k now (with_jobHash None (with_steersKey None (with_claimedKey None r))) s'.
Proof.
  intros [[H1 H2 H3 H4 H5 H6 H7 H8] Hj Hr Hp] Ej Eq Ec Er Ep.
  assert (Hrc : forall c, receipt_of s' k c = receipt_of s k c)
    by (intros c; unfold receipt_of, receipts_of; by rewrite Er).
  split.
  - split; rewrite ?Ej, ?Eq, ?Ec; try done; try (by constructor); try (by apply NoDup_nil_2).
    + intros c. rewrite Hrc. apply H5.
    + unfold receipts_of. rewrite Er. exact H6.
    + intros c. rewrite Hrc. apply H7.
  - by rewrite Ej.
  - intros c e. rewrite Hrc. apply Hr.
  - unfold live_parked. by rewrite Ep.
Qed.

Lemma delete_refines k now st s e :
  mirrors k now (rows st) s -> orderly k s ->
  let '(a, st') := deleteJob e st in
  let '(o, s') := StoreJobs.deleteJob k e now s in
  a = Ok o /\ mirrors k now (rows st') s'.
Proof.
  intros H Ho. unfold deleteJob, StoreJobs.deleteJob, JOB_DELETE.
  pose proof (re_job _ _ _ _ (mi_represents _ _ _ _ H)) as Hr. destruct (mget (jobs s) k) as [j|] eqn:Hj.
  - rewrite (observed_job k now (rows st) s j H Hj). cbn [fmap option_fmap option_map as_read Job.createdAt].
    rewrite (bool_decide_false (e = None /\ _)) by (by intros [_ ?]). rewrite (guard_epoch _ s k j _ Hr).
    assert (He : epoch_matches (match e with Some z => Some z | None => Some (Job.createdAt j) end) (Job.createdAt j) =
      epoch_matches e (Job.createdAt j)) by (destruct e; [done | by apply bool_decide_eq_true]).
    rewrite He. destruct (epoch_matches e (Job.createdAt j)); cbn [negb andb]; [|by split].
    rewrite (bool_decide_false (jobHash (rows st) = None)) by (by apply (hash_present _ s k j)).
    split; [done|]. apply (mirrors_deleted k now (rows st) s); [done | | | | |]; cbn;
      unfold queue_of, claims_of; cbn; rewrite ?mget_mdel_eq; try done;
      unfold retainGenerationEpoch; by repeat case_match.
  - rewrite Hr. cbn [getJob content fmap option_fmap option_map].
    destruct e as [z|].
    + unfold createdAt_guard, hget_job, HGET. rewrite Hr. cbn.
      rewrite bool_decide_true by (split; [apply pretty_nonempty | done]). by split.
    + cbn. split; [done|]. destruct (Ho Hj). by apply (mirrors_deleted k now (rows st) s).
Qed.
End refine.
