(* ===== verification/RedisReplaced.v ===== *)
(** * Acknowledgement of replaced generations in Redis
      ([stream/implementations/RedisJobStore.ts], [REPLACEMENT_RECEIPT_ACK_LUA])

    A job carries a receipt of every generation that it, or an unacknowledged predecessor,
    replaced.  The attempt that created it takes the receipts away once the providers of those
    generations are stopped.  Compared with the in-memory store on a stream that mirrors it. *)

From stdpp Require Import pretty.
From Stdlib Require Import Ascii.
From S2P Require Import Prelude JsMap Json StreamTypes SteerRecovery StoreState StoreSteers StoreParked.
From S2P Require Import StoreJobs StoreCleanup StoreFrame StoreRun StoreEpochs StoreParking StoreRecovery StoreQueue.
From S2P Require Import RedisScripts RedisLua RedisJobs RedisRoundTrip RedisSteers RedisRows RedisAdmission RedisDrain.
From S2P Require Import RedisEdits RedisLeftovers RedisParcels RedisRecovery RedisTransitions RedisWrites RedisTerminal.
From S2P Require Import RedisMoves RedisStatus RedisUpdates.

(** ** Numbers in Lua *)

(** [tonumber(s)] when it is an integer in plain notation; [nil] of no text, or of a blank one. *)
Definition tonumber (s : option string) : option Z :=
  s ≫= fun s => if decide (trim_start s = "") then None else Number_text s.

Lemma tonumber_pretty z : tonumber (Some (pretty z)) = Some z.
Proof.
  unfold tonumber. cbn. destruct (signed_pretty z) as [E _]. rewrite E, decide_False by apply pretty_nonempty.
  apply Number_pretty.
Qed.

(** [a / b] rounded to the nearest integer, ties to even. *)
Definition half_even (a b : Z) : Z :=
  let q := (a / b)%Z in
  let r := (2 * (a `mod` b))%Z in
  if decide (r < b \/ r = b /\ Z.even q = true)%Z then q else (q + 1)%Z.

(** The digits of a mantissa without its last zeros, after the point. *)
Fixpoint drop_zeros (s : string) : string :=
  match s with
  | EmptyString => ""
  | String c s' =>
      match drop_zeros s' with
      | EmptyString => if decide (c = "0"%char) then "" else String c ""
      | rest => String c rest
      end
  end.

(** [tostring(z)], [%.14g] on an integer. *)
Definition tostring (z : Z) : string :=
  if decide (Z.abs z < 10 ^ 14)%Z then pretty z
  else
    let e := (String.length (pretty (Z.abs z)) - 1)%nat in
    let q := half_even (Z.abs z) (10 ^ (Z.of_nat e - 13)) in
    let '(q, e) := if decide (q = 10 ^ 14)%Z then (10 ^ 13, S e)%Z else (q, e) in
    let digits := pretty q in
    let fraction := drop_zeros (String.substring 1 13 digits) in
    (if decide (z < 0)%Z then "-" else "") +:+ String.substring 0 1 digits +:+
    (if decide (fraction = "") then "" else "." +:+ fraction) +:+ "e+" +:+ pretty (Z.of_nat e).

Lemma tostring_small z : small z -> tostring z = pretty z.
Proof. intros H. unfold tostring. by rewrite decide_True. Qed.

(** ** [REPLACEMENT_RECEIPT_ACK_LUA] *)

Definition HDELs (fields : list string) (r : Rows) : Rows :=
  with_jobHash (foldl (fun h f => HDEL f h) (jobHash r) fields) r.

Section script.
Variable lua_number : jnum -> jnum.
Abbreviation encode := (cjson_encode lua_number).

(** [tostring(n)] *)
Definition number_text (n : jnum) : string :=
  match n with NInt z => tostring z | NDec _ _ => String_number (lua_number n) end.
Definition json_number (v : option json) : option jnum :=
  match v with Some (JNum n) => Some n | _ => None end.

(** The receipts that were not acknowledged; [None] when one of them cannot be read. *)
Fixpoint unacknowledged (acks : list string) (l : list json) : option (list json) :=
  match l with
  | [] => Some []
  | item :: l =>
      match json_number (jfield item "createdAt") with
      | Some n =>
          if is_object item
          then (fun rest => if decide (number_text n ∈ acks) then rest else item :: rest) <$>
                 unacknowledged acks l
          else None
      | None => None
      end
  end.

(** What a command takes as an argument. *)
Definition argument (v : option json) : option string :=
  match v with Some (JStr s) => Some s | Some (JNum n) => Some (number_text n) | _ => None end.
Definition bad_argument : string := "Lua redis lib command arguments must be strings or integers".

(** The scalar fields rewritten from the latest receipt that is left. *)
Definition retain (retained : list json) (latest : json) (r : Rows) : Reply * Rows :=
  match json_number (jfield latest "createdAt"), argument (jfield latest "status") with
  | Some n, Some status =>
      let r := write_pairs [("__replacedGenerations", Doc (encode (JArr retained)));
                            ("__replacedCreatedAt", Word (number_text n));
                            ("__replacedStatus", Word status)] r in
      if truthy (jfield latest "conversationId") then
        match argument (jfield latest "conversationId") with
        | Some c => (RInt 1, write_pairs [("__replacedConversationId", Word c)] r)
        | None => (RError bad_argument, r)
        end
      else (RInt 1, HDELs ["__replacedConversationId"] r)
  | _, _ => (RError bad_argument, r)
  end.

(** [#current] of a table, with its elements. *)
Definition elements (v : json) : option (list json) :=
  match v with JArr l => Some l | JObj _ => Some [] | _ => None end.

Definition REPLACEMENT_RECEIPT_ACK (attempt : string) (acks : list string) (r : Rows) : Reply * Rows :=
  if negb (bool_decide (hget_job "__creationAttemptId" r = Some attempt)) then (RInt 0, r)
  else
    match HGET "__replacedGenerations" (jobHash r) with
    | Some raw =>
        match (doc raw ≫= JSON_parse) ≫= elements with
        | Some current =>
            match unacknowledged acks current with
            | None => (RInt 0, r)
            | Some retained =>
                match last retained with
                | None =>
                    (RInt 1, HDELs ["__replacedGenerations"; "__replacedCreatedAt"; "__replacedStatus";
                                    "__replacedConversationId"] r)
                | Some latest => retain retained latest r
                end
            end
        | None => (RInt 0, r)
        end
    | None =>
        match hget_job "__replacedCreatedAt" r with
        | Some immediate =>
            if decide (immediate ∈ acks)
            then (RInt 1, HDELs ["__replacedCreatedAt"; "__replacedStatus"; "__replacedConversationId"] r)
            else (RInt 1, r)
        | None => (RInt 1, r)
        end
    end.

(** [acknowledgeReplacedJobs(streamId, creationAttemptId, replacedCreatedAts)] *)
Definition acknowledgeReplacedJobs (creationAttemptId : string) (replacedCreatedAts : list Z)
  : Method bool := fun r =>
  if decide (creationAttemptId = "" \/ replacedCreatedAts = []) then (Ok false, r)
  else
    let '(reply, r') := REPLACEMENT_RECEIPT_ACK creationAttemptId (pretty <$> replacedCreatedAts) r in
    (succeeded reply, r').
End script.

(** ** Against the in-memory store *)

(** A job as it is after the acknowledgement. *)
Definition acknowledged (retained : list ReplacedGeneration.t) (j : Job.t) : Job.t :=
  {| j with Job.replacedJobs := match retained with [] => None | _ :: _ => Some retained end;
     Job.replacedJob := last retained |}.

Lemma entry_acknowledged l j k : entry (acknowledged l j) k = entry j k.
Proof.
  assert (H : Forall (fun c : string * (Job.t -> option json) => c.2 (acknowledged l j) = c.2 j) columns)
    by (repeat (apply List.Forall_cons; [reflexivity|]); apply List.Forall_nil).
  unfold entry. destruct (mget columns k) as [f|] eqn:E; [|done].
  apply mget_elem, list_elem_of_In in E. rewrite List.Forall_forall in H. by apply (H _ E).
Qed.

(** The hash of the job with other receipts. *)
Lemma acknowledged_keeps data data' l j :
  keeps_job data j -> storable j -> storable (acknowledged l j) ->
  (forall k, k <> "steersClosed" -> mget data' k =
     if decide (k ∈ private_names) then mget (private_fields (acknowledged l j)) k else mget data k) ->
  keeps_job data' (acknowledged l j).
Proof.
  intros Hd Hj Hj' H k Hk. rewrite H by done. clear H.
  rewrite job_fields_get, entry_acknowledged by (by eapply stored_separate).
  case_decide as Hp.
  - assert (E : entry j k = None).
    { pose proof (private_lookup data j Hd Hj k Hp) as E1. rewrite Hd, job_fields_get in E1 by (done || by eapply stored_separate).
      unfold entry in *.
      assert (Hn : Forall (fun k => mget columns k = None /\ mget metadata_kinds k = None) private_names)
        by (apply (bool_decide_unpack _); by vm_compute).
      rewrite Forall_forall in Hn. destruct (Hn k Hp) as [Hc Hm]. rewrite Hc.
      destruct (mget (Job.metadata j) k) as [v|] eqn:Ev; [|done].
      destruct (metadata_kind j Hj k v Ev) as (b & Hb & _). congruence. }
    by rewrite E.
  - rewrite Hd, job_fields_get by (done || by eapply stored_separate).
    by rewrite !private_other.
Qed.

Lemma chain_filter c p (P : ReplacedGeneration.t -> Prop) `{!forall x, Decision (P x)} l :
  chain_ok c p l -> chain_ok c p (filter P l).
Proof.
  revert p. induction l as [|r l IH]; intros p; [done|]. intros [Hr Hl]. rewrite filter_cons. case_decide.
  - split; [done | by apply IH].
  - apply IH. destruct l as [|r' l]; [done|]. destruct Hl as [(H1 & H2) Hl], Hr as ((H3 & _) & _).
    split; [split; [lia | done] | done].
Qed.
Lemma chain_small c l r : small c -> chain_ok c (-1) l -> r ∈ l -> small (ReplacedGeneration.createdAt r).
Proof.
  intros Hc. assert (forall p, (-1 <= p)%Z -> chain_ok c p l -> r ∈ l -> small (ReplacedGeneration.createdAt r)).
  { induction l as [|x l IH]; intros p Hp; [by intros _ ?%elem_of_nil|]. intros [((H1 & H2) & _) Hl] [->|Hin]%elem_of_cons.
    - unfold small in *. lia.
    - apply (IH (ReplacedGeneration.createdAt x)); [lia | done..]. }
  by apply H.
Qed.

(** Every receipt names a conversation that can be read back, or none. *)
Definition named_conversations (j : Job.t) : Prop :=
  forall r, r ∈ default [] (Job.replacedJobs j) -> ReplacedGeneration.conversationId r <> Some "".

Lemma acknowledged_storable (P : ReplacedGeneration.t -> Prop) `{!forall x, Decision (P x)} j :
  storable j -> named_conversations j -> storable (acknowledged (filter P (default [] (Job.replacedJobs j))) j).
Proof.
  intros [Ht Hr] Hn. split; [exact Ht|]. unfold replaced_ok, named_conversations in *. cbn.
  destruct (Job.replacedJobs j) as [l|]; [|done]. cbn [default from_option] in *. change (id l) with l in *.
  destruct Hr as (_ & Hlen & Hch & _). destruct (filter P l) as [|x m] eqn:E; [done|]. rewrite <- E.
  split_and!; [by rewrite E | | by apply chain_filter | done |].
  - pose proof (length_filter P l). lia.
  - intros r Hl. apply Hn. assert (Hin : r ∈ filter P l) by (by apply last_Some_elem_of).
    by apply list_elem_of_filter in Hin as [_ Hin].
Qed.

Section refine.
Context {lua_number : jnum -> jnum} {lua : LuaNumber lua_number}.
Abbreviation mirrors := (mirrors (lua_number := lua_number)).
Abbreviation cj := (cjson lua_number).

Lemma receipt_cj r : small (ReplacedGeneration.createdAt r) -> cj (receipt_json r) = receipt_json r.
Proof.
  intros Hs. destruct r as [z st c a i d]. unfold receipt_json, jint. cbn in Hs. cbn. rewrite lua_number_exact by done.
  by destruct c, a, i, d.
Qed.
Lemma receipts_cj l :
  Forall (fun r => small (ReplacedGeneration.createdAt r)) l -> l <> [] ->
  cj (JArr (receipt_json <$> l)) = JArr (receipt_json <$> l).
Proof.
  intros Hs Hne. assert (E : cj <$> (receipt_json <$> l) = receipt_json <$> l).
  { clear Hne. induction Hs as [|r l Hr _ IH]; [done|]. cbn [fmap list_fmap]. by rewrite receipt_cj, IH. }
  destruct l as [|r l]; [done|]. cbn [fmap list_fmap] in E |- *.
  change (cj (JArr (receipt_json r :: (receipt_json <$> l)))) with (JArr (cj (receipt_json r) :: (cj <$> (receipt_json <$> l)))).
  by rewrite E.
Qed.

Lemma unacknowledged_spec zs l :
  Forall (fun r => small (ReplacedGeneration.createdAt r)) l ->
  unacknowledged lua_number (pretty <$> zs) (receipt_json <$> l) =
    Some (receipt_json <$> filter (fun r => ReplacedGeneration.createdAt r ∉ zs) l).
Proof.
  induction 1 as [|r l Hr _ IH]; [done|]. cbn [fmap list_fmap unacknowledged].
  destruct (receipt_json_fields r) as (-> & _). cbn [json_number jint number_text].
  rewrite tostring_small, IH by done. change (is_object (receipt_json r)) with true. cbn [fmap option_fmap option_map].
  rewrite filter_cons. f_equal.
  destruct (decide (ReplacedGeneration.createdAt r ∈ zs)) as [Hin|Hin].
  - rewrite decide_True by (by apply list_elem_of_fmap_2). by rewrite decide_False by tauto.
  - rewrite decide_False by (by intros (z & <-%(inj pretty) & Hz)%list_elem_of_fmap). by rewrite decide_True.
Qed.

(** The writes of a script on the job hash, the scalar fields and the chain. *)
Lemma private_none j l k :
  k ∈ private_names -> l = [] -> mget (private_fields (acknowledged l j)) k =
    if decide (k = "__creationAttemptId") then Word <$> Job.creationAttemptId j else None.
Proof.
  intros Hk ->. unfold private_fields. cbn. rewrite mget_app, opt_word_get. cbn. case_decide.
  - subst. rewrite decide_True by done. by destruct (Job.creationAttemptId j).
  - by rewrite decide_False by congruence.
Qed.
Lemma private_some j l r k :
  k ∈ private_names -> last l = Some r -> mget (private_fields (acknowledged l j)) k =
    if decide (k = "__creationAttemptId") then Word <$> Job.creationAttemptId j
    else if decide (k = "__replacedCreatedAt") then Some (Word (pretty (ReplacedGeneration.createdAt r)))
    else if decide (k = "__replacedStatus") then Some (Word (status_text (ReplacedGeneration.status r)))
    else if decide (k = "__replacedConversationId") then Word <$> ReplacedGeneration.conversationId r
    else Some (Doc (Text (JArr (receipt_json <$> l)))).
Proof.
  intros Hk Hl. destruct l as [|x l0] eqn:E; [done|]. unfold private_fields. cbn [acknowledged Job.replacedJob Job.replacedJobs Job.creationAttemptId].
  rewrite Hl. rewrite <- E in *. unfold private_names in Hk. rewrite !elem_of_cons, elem_of_nil in Hk.
  destruct Hk as [->|[->|[->|[->|[->|[]]]]]]; rewrite !mget_app, !opt_word_get; cbn;
    destruct (Job.creationAttemptId j), (ReplacedGeneration.conversationId r); done.
Qed.

Lemma with_same_job r : with_jobHash (jobHash r) r = r.
Proof. by destruct r. Qed.

(** Hashes written by the script. *)
Lemma written_keeps k now r s j l h :
  mirrors k now r s -> mget (jobs s) k = Some j -> storable (acknowledged l j) ->
  (forall f, mget (content [] h) f =
     if decide (f ∈ private_names) then mget (private_fields (acknowledged l j)) f
     else mget (content [] (jobHash r)) f) ->
  mirrors k now (with_jobHash h r) (set_job k (acknowledged l j) s).
Proof.
  intros H Hj Hst Hh. destruct (mi_job _ _ _ _ H j Hj) as (Hk & Hs & Hu & Ht).
  pose proof (re_job _ _ _ _ (mi_represents _ _ _ _ H)) as Hrow. rewrite Hj in Hrow.
  apply mirrors_job; [done | | done | apply (jr_small _ _ _ _ Hrow) |].
  - by eapply acknowledged_keeps.
  - intros Ha. rewrite <- (jr_closed _ _ _ _ Hrow) by done. unfold hget_job, HGET. cbn [jobHash with_jobHash]. by rewrite Hh.
Qed.

(** A field of the hash that the script leaves alone, or the one of the attempt. *)
Lemma attempt_field k now r s j f :
  mirrors k now r s -> mget (jobs s) k = Some j ->
  f = "__creationAttemptId" -> mget (content [] (jobHash r)) f = Word <$> Job.creationAttemptId j.
Proof.
  intros H Hj ->. destruct (mi_job _ _ _ _ H j Hj) as (Hk & Hs & _). by destruct (private_values _ j Hk Hs) as (-> & _).
Qed.

Lemma scripted k now r s j l h f :
  mirrors k now r s -> mget (jobs s) k = Some j ->
  (f ∈ private_names -> f <> "__creationAttemptId" -> mget (content [] h) f = mget (private_fields (acknowledged l j)) f) ->
  (f ∉ private_names \/ f = "__creationAttemptId" -> mget (content [] h) f = mget (content [] (jobHash r)) f) ->
  mget (content [] h) f = if decide (f ∈ private_names) then mget (private_fields (acknowledged l j)) f
                          else mget (content [] (jobHash r)) f.
Proof.
  intros H Hj H1 H2. case_decide as Hp; [|by apply H2; left].
  destruct (decide (f = "__creationAttemptId")) as [Hf|Hf]; [|by apply H1].
  rewrite H2, (attempt_field k now r s j f H Hj Hf) by (by right).
  destruct (last l) as [x|] eqn:El.
  - rewrite (private_some j l x) by done. by rewrite decide_True.
  - apply last_None in El. rewrite private_none by done. by rewrite decide_True.
Qed.

(** The private fields, one by one, and the others. *)
Ltac private_cases Hp :=
  unfold private_names in Hp; rewrite !elem_of_cons, elem_of_nil in Hp;
  destruct Hp as [->|[->|[->|[->|[->|[]]]]]].

Lemma apart f c :
  f ∉ private_names \/ f = "__creationAttemptId" -> c ∈ private_names -> c <> "__creationAttemptId" -> c <> f.
Proof. intros [Hf | ->] Hc Hne; congruence. Qed.
Ltac other_fields Hf :=
  repeat (rewrite decide_False by (apply (apart _ _ Hf); [by apply (bool_decide_unpack _); vm_compute | done])).

Lemma forgotten k now r s j :
  mirrors k now r s -> mget (jobs s) k = Some j -> storable (acknowledged [] j) ->
  mirrors k now (HDELs ["__replacedGenerations"; "__replacedCreatedAt"; "__replacedStatus"; "__replacedConversationId"] r)
    (set_job k (acknowledged [] j) s).
Proof.
  intros H Hj Hst. apply (written_keeps k now r s j); [done..|]. intros f.
  apply (scripted k now r s j); [done..| |]; cbn [foldl]; rewrite !mget_HDEL.
  - intros Hp Hne. rewrite private_none by done. private_cases Hp; done.
  - intros Hf. by other_fields Hf.
Qed.

Lemma remembered k now r s j l x :
  mirrors k now r s -> mget (jobs s) k = Some j -> storable (acknowledged l j) ->
  Forall (fun r => small (ReplacedGeneration.createdAt r)) l -> last l = Some x ->
  let p := retain lua_number (receipt_json <$> l) (receipt_json x) r in
  p.1 = RInt 1 /\ mirrors k now p.2 (set_job k (acknowledged l j) s).
Proof.
  intros H Hj Hst Hs Hl. cbv zeta. unfold retain. destruct (receipt_json_fields x) as (-> & -> & -> & _).
  cbn [json_number jint argument number_text]. unfold cjson_encode.
  assert (Hx : x ∈ l) by (by apply last_Some_elem_of).
  rewrite tostring_small by (rewrite Forall_forall in Hs; by apply Hs).
  rewrite receipts_cj by (done || by intros ->).
  destruct (ReplacedGeneration.conversationId x) as [c|] eqn:Ec; cbn [fmap option_fmap option_map truthy argument].
  all: split; [done|]; apply (written_keeps k now r s j); [done..|]; intros f.
  all: apply (scripted k now r s j); [done..| |];
    cbn [write_pairs HDELs with_jobHash jobHash HSETs foldl fst snd]; rewrite ?mget_HDEL, !mget_HSET.
  1, 3: intros Hp Hne; rewrite (private_some j l x) by done; rewrite Ec; private_cases Hp; done.
  all: intros Hf; by other_fields Hf.
Qed.

Lemma ack_refines k now r s attempt zs :
  mirrors k now r s -> attempt <> "" -> zs <> [] ->
  (forall j, mget (jobs s) k = Some j -> named_conversations j) ->
  let '(a, r') := acknowledgeReplacedJobs lua_number attempt zs r in
  let '(o, s') := StoreJobs.acknowledgeReplacedJobs k attempt zs s in
  a = Ok o /\ mirrors k now r' s'.
Proof.
  intros H Ha Hz Hn. unfold acknowledgeReplacedJobs, StoreJobs.acknowledgeReplacedJobs.
  rewrite decide_False by tauto. unfold REPLACEMENT_RECEIPT_ACK.
  destruct (mget (jobs s) k) as [j|] eqn:Hj.
  2: { by rewrite (hget_none k now r s "__creationAttemptId" H Hj). }
  destruct (mi_job _ _ _ _ H j Hj) as (Hk & Hs & _). specialize (Hn j eq_refl).
  pose proof (re_job _ _ _ _ (mi_represents _ _ _ _ H)) as Hrow. rewrite Hj in Hrow.
  destruct (private_values _ j Hk Hs) as (E1 & E2 & E3 & E4 & E5).
  assert (Hat : hget_job "__creationAttemptId" r = Job.creationAttemptId j)
    by (unfold hget_job, HGET; rewrite E1; by destruct (Job.creationAttemptId j)).
  rewrite Hat. case_bool_decide; cbn [negb]; [|by split].
  set (kept := filter _ _).
  change {| j with Job.replacedJobs := _; Job.replacedJob := last kept |} with (acknowledged kept j).
  unfold HGET at 1. rewrite E5. pose proof Hs as [_ Hrep]. unfold replaced_ok in Hrep.
  destruct (Job.replacedJobs j) as [l|] eqn:El; cbn [fmap option_fmap option_map].
  2: { assert (E : acknowledged kept j = j).
       { subst kept. cbn. rewrite El, Hrep. unfold acknowledged. cbn. destruct j; cbn in *; by subst. }
       assert (Hno : hget_job "__replacedCreatedAt" r = None) by (unfold hget_job, HGET; by rewrite E2, Hrep).
       rewrite Hno, E. split; [done|]. rewrite <- (with_same_job r). apply mirrors_job; [done | done |
         by destruct (mi_job _ _ _ _ H j Hj) as (_ & ?) | apply (jr_small _ _ _ _ Hrow) | apply (jr_closed _ _ _ _ Hrow)]. }
  assert (Hsm : Forall (fun r => small (ReplacedGeneration.createdAt r)) l).
  { apply Forall_forall. intros x Hx. destruct Hrep as (_ & _ & Hch & _). by eapply chain_small; [apply (jr_small _ _ _ _ Hrow)| |]. }
  cbn [doc mbind option_bind JSON_parse elements]. rewrite unacknowledged_spec by done.
  assert (Hkept : kept = filter (fun r => ReplacedGeneration.createdAt r ∉ zs) l) by (subst kept; cbn; by rewrite El).
  rewrite <- Hkept.
  assert (Hst : storable (acknowledged kept j)).
  { pose proof (acknowledged_storable (fun r => ReplacedGeneration.createdAt r ∉ zs) j Hs Hn) as Hst. rewrite El in Hst.
    cbn in Hst. by rewrite <- Hkept in Hst. }
  assert (Hks : Forall (fun r => small (ReplacedGeneration.createdAt r)) kept).
  { rewrite Hkept. rewrite Forall_forall in *. intros x [_ Hx]%list_elem_of_filter. auto. }
  rewrite fmap_last. destruct (last kept) as [x|] eqn:Elast; cbn [fmap option_fmap option_map].
  - pose proof (remembered k now r s j kept x H Hj Hst Hks Elast) as [E Hm].
    destruct (retain _ _ _ r) as [reply r']. cbn in E. by subst.
  - split; [done|]. apply last_None in Elast. rewrite Elast in Hst |- *. by apply forgotten.
Qed.
End refine.

(** ** An evaluated instance *)

Module ReplacedDemo.
(** A turn that replaced two generations, and has stopped the provider of the later one. *)
Definition receipts : list ReplacedGeneration.t :=
  [ReplacedGeneration.mk 10 aborted (Some "c1") (Some false) None None;
   ReplacedGeneration.mk 20 running None None (Some "p2") (Some false)].
Definition rows (l : list ReplacedGeneration.t) (latest : jsmap text) : Rows :=
  with_jobHash (Some (Key.mk (("createdAt", Word "30") :: ("__creationAttemptId", Word "at1") ::
    ("__replacedGenerations", Doc (Text (JArr (receipt_json <$> l)))) :: latest) (Some 60%Z))) no_rows.
Definition replaced : Rows :=
  rows receipts [("__replacedCreatedAt", Word "20"); ("__replacedStatus", Word "running")].
End ReplacedDemo.

Example latest_is_acknowledged :
  acknowledgeReplacedJobs (fun n => n) "at1" [20%Z] ReplacedDemo.replaced =
    (Ok true, ReplacedDemo.rows (take 1 ReplacedDemo.receipts)
       [("__replacedCreatedAt", Word "10"); ("__replacedStatus", Word "aborted");
        ("__replacedConversationId", Word "c1")]) /\
  acknowledgeReplacedJobs (fun n => n) "at2" [20%Z] ReplacedDemo.replaced = (Ok false, ReplacedDemo.replaced).
Proof. split; vm_compute; reflexivity. Qed.
