(* ===== verification/RedisReaping.v ===== *)
(** * Stale jobs in Redis ([stream/implementations/RedisJobStore.ts], [STALE_JOB_DELETE_LUA] and
      [cleanup])

    One visit of the periodic cleanup to one stream: a running job without a sign of life is reaped
    by a script that parks its unsettled steers and deletes it; an abandoned pause barrier and a
    stale approval are finished by a transition.  Compared with the visit of the in-memory store
    on a stream that mirrors it.  The sets that say which streams are visited, and their
    reconciliation afterwards, are in [RedisMembership]; the caches of the process are not modelled. *)

From stdpp Require Import pretty.
From S2P Require Import Prelude JsMap Json StreamTypes SteerRecovery StoreState StoreSteers StoreParked.
From S2P Require Import StoreJobs StoreCleanup StoreFrame StoreRun StoreEpochs StoreParking StoreRecovery StoreQueue.
From S2P Require Import StoreReaping.
From S2P Require Import RedisScripts RedisLua RedisJobs RedisRoundTrip RedisSteers RedisRows RedisAdmission RedisDrain.
From S2P Require Import RedisEdits RedisLeftovers RedisParcels RedisRecovery RedisTransitions RedisWrites RedisTerminal.
From S2P Require Import RedisMoves RedisStatus RedisUpdates RedisReplaced.

(** ** [STALE_JOB_DELETE_LUA] *)

Section script.
Variable lua_number : jnum -> jnum.

(** [lastActiveAt] of the job, else its [createdAt]. *)
Definition live_since (r : Rows) : option Z :=
  match tonumber (hget_job "lastActiveAt" r) with
  | Some z => Some z
  | None => tonumber (hget_job "createdAt" r)
  end.
Definition is_stale (now staleAfterMs : Z) (r : Rows) : bool :=
  match live_since r with Some z => bool_decide (staleAfterMs < now - z)%Z | None => false end.

(** [not ownerUserId or ownerUserId == ""] *)
Definition ownerless (r : Rows) : bool :=
  match hget_job "userId" r with Some u => bool_decide (u = "") | None => true end.

Definition STALE_JOB_DELETE (expected : string) (now staleAfterMs parkedTtl epochTtl : Z) (st : Stream)
  : Reply * Stream :=
  let old := rows st in
  if negb (bool_decide (hget_job "status" old = Some "running")) then (RInt 0, st)
  else if negb (bool_decide (hget_job "createdAt" old = Some expected)) then (RInt 0, st)
  else if negb (is_stale now staleAfterMs old) then (RInt 0, st)
  else
    match prior old with
    | None => (RInt 0, st)
    | Some found =>
        let source := source_rows old in
        if negb (forallb sound_row source) then (RInt 0, st)
        else if negb (bool_decide (source = [])) && ownerless old then (RInt 0, st)
        else
          let r :=
            if protocolV2 old
            then with_receiptsKey (foldl (leave_receipt lua_number) (receiptsKey old) (omap JSON_parse source)) old
            else old in
          let r := merge_parked lua_number old found (distinct_items source) parkedTtl r in
          let r := with_receiptsKey (extend_ttl parkedTtl (receiptsKey r))
                     (with_orderKey (extend_ttl parkedTtl (orderKey r)) r) in
          (RInt 1,
           {| (with_rows (with_jobHash None (with_steersKey None (with_claimedKey None r))) st) with
              epochKey := SET expected (Some epochTtl); chunksKey := None; runStepsKey := None |})
    end.

(** ** Methods *)

Variable ttls : Ttl.t.

(** [deleteStaleRunningJob(streamId, observedJob, now)] *)
Definition deleteStaleRunningJob (observed : Job.t) (now : Z) (st : Stream) : result string bool * Stream :=
  let '(reply, st') :=
    STALE_JOB_DELETE (pretty (Job.createdAt observed)) now (Ttl.running ttls * 1000)
      (parkedRecoveryTtlSeconds (Ttl.completed ttls)) GENERATION_EPOCH_GRACE_TTL_S st in
  (succeeded reply, st').

(** The count that a visit adds, and the error that is logged. *)
Definition counted (a : result string bool) : result string nat :=
  match a with Ok b => Ok (if b then 1 else 0) | Throw e => Throw e end.

(** What [cleanup] does with a member of the set of running jobs. *)
Definition cleanup_running (now : Z) (st : Stream) : result string nat * Stream :=
  match getJob (jobHash (rows st)) with
  | Throw e => (Throw e, st)
  | Ok None => (Ok 1, st)
  | Ok (Some j) =>
      if decide (Job.status j = running) then
        if decide (Ttl.running ttls * 1000 < now - default (Job.createdAt j) (Job.lastActiveAt j))%Z
        then let '(a, st') := deleteStaleRunningJob j now st in (counted a, st')
        else (Ok 0, st)
      else (Ok 1, st)
  end.

(** The approval that [cleanupRequiresActionIndex] ends. *)
Definition expire_approval (j : Job.t) (now : Z) : JobStatusTransition.t :=
  JobStatusTransition.mk requires_action aborted
    [F_error "Approval expired before a decision was made"; F_completedAt now; F_terminalHostActionPending true]
    [K_pendingAction; K_pendingActionId] (PendingAction.actionId <$> Job.pendingAction j)
    (Some (Job.createdAt j)) None.

Definition exceededNoExpiryBackstop (j : Job.t) (now : Z) : bool :=
  bool_decide (Job.pendingAction j ≫= PendingAction.expiresAt = None) &&
  bool_decide (Ttl.requiresAction ttls * 1000 < now - default (Job.createdAt j) (Job.lastActiveAt j))%Z.

(** What [cleanupRequiresActionIndex] does with a member of the set of paused jobs. *)
Definition cleanup_paused (now : Z) (st : Stream) : result string nat * Stream :=
  match getJob (jobHash (rows st)) with
  | Throw e => (Throw e, st)
  | Ok None => (Ok 1, st)
  | Ok (Some j) =>
      if negb (bool_decide (Job.status j = requires_action)) then (Ok 1, st)
      else if bool_decide (Job.terminalPersistencePending j = Some true) then
        if decide (now - persistence_started j < PAUSE_PERSISTENCE_TIMEOUT_MS)%Z then (Ok 0, st)
        else match Job.pendingActionId j with
        | None => (Ok 0, st)
        | Some actionId =>
            let '(a, st') :=
              transitionStatusAndDrainSteers lua_number ttls (pause_timeout_transition j actionId now) now st in
            (counted (match a with Ok l => Ok (bool_decide (is_Some l)) | Throw e => Throw e end), st')
        end
      else if isPendingActionStale j now || exceededNoExpiryBackstop j now then
        let '(a, st') := transitionStatus lua_number ttls (expire_approval j now) now st in (counted a, st')
      else (Ok 0, st)
  end.
End script.

(** ** Against the in-memory store *)

Section refine.
Context {lua_number : jnum -> jnum} {lua : LuaNumber lua_number}.
Variable ttls : Ttl.t.
Hypothesis ttls_ok : ttls_fine ttls.
Abbreviation mirrors := (mirrors (lua_number := lua_number)).

(** No steer is both claimed and queued. *)
Definition unshared (s : Store) (k : string) (j : Job.t) : Prop :=
  NoDup (steer_ids (claimedSteerItems s k (Some (Job.createdAt j)) ++ queue_of s k)).

Lemma distinct_all rows items :
  Forall2 (row (lua_number := lua_number)) rows items -> NoDup (steer_ids items) ->
  distinct_items rows = omap JSON_parse rows.
Proof.
  intros H Hn. unfold distinct_items. apply dedup_on_id.
  assert (E : steer_key <$> omap JSON_parse rows = text_key <$> steer_ids items).
  { unfold steer_ids. rewrite <- list_fmap_compose. apply parsed_rows in H.
    induction H as [|v it vs its Hv _ IH]; [done|]. cbn. rewrite IH by (by apply NoDup_cons in Hn as [_ ?]).
    unfold steer_key at 1. by rewrite (ri_steerId _ _ Hv). }
  rewrite E. by apply (NoDup_fmap_2 text_key).
Qed.

Lemma stale_field k now r s j (after : Z) :
  mirrors k now r s -> mget (jobs s) k = Some j ->
  is_stale now after r = bool_decide (after < now - default (Job.createdAt j) (Job.lastActiveAt j))%Z.
Proof.
  intros H Hj. destruct (mi_job _ _ _ _ H j Hj) as (Hk & Hs & _). destruct (hget_columns k now r s j H Hj) as (Hc & _).
  assert (E : hget_job "lastActiveAt" r = pretty <$> Job.lastActiveAt j).
  { unfold hget_job, HGET. pose proof (column _ j Hk Hs "lastActiveAt" _ eq_refl ltac:(by vm_compute)) as Hcol.
    rewrite Hcol. cbn. by destruct (Job.lastActiveAt j). }
  unfold is_stale, live_since. rewrite E, Hc. destruct (Job.lastActiveAt j) as [z|]; cbn [fmap option_fmap option_map default from_option].
  - by rewrite tonumber_pretty.
  - by rewrite tonumber_pretty.
Qed.

(** The job and the queues deleted, the receipts and the parked steers kept. *)
Lemma mirrors_reaped k now r s c :
  mirrors k now (with_steersKey None (with_claimedKey None r)) s ->
  (exists j, mget (jobs s) k = Some j /\ Job.createdAt j = c) ->
  mirrors k now (with_jobHash None (with_steersKey None (with_claimedKey None r)))
    (StoreJobs.deleteJob k (Some c) now s).2.
Proof.
  intros H (j & Hj & Hc). pose proof (mirrors_deleted k now _ s (StoreJobs.deleteJob k (Some c) now s).2 H) as Hd.
  unfold StoreJobs.deleteJob in *. rewrite Hj in *.
  assert (He : epoch_matches (Some c) (Job.createdAt j) = true) by (by apply epoch_matches_Some).
  rewrite He in *. cbn [negb snd] in *. apply Hd; cbn; unfold queue_of, claims_of; cbn; rewrite ?mget_mdel_eq; try done;
    unfold retainGenerationEpoch; by repeat case_match.
Qed.

Lemma mirrors_receipt_ttl k now r s t :
  mirrors k now r s ->
  mirrors k now (with_receiptsKey (extend_ttl t (receiptsKey r)) (with_orderKey (extend_ttl t (orderKey r)) r)) s.
Proof.
  intros H. eapply mirrors_contents; [exact H | done | done | done | | | done]; cbn; apply content_extend.
Qed.

Lemma reap_refines k now st s j c after parkedTtl epochTtl :
  mirrors k now (rows st) s -> mget (jobs s) k = Some j -> settles s k j -> unshared s k j ->
  Job.status j = running -> c = Job.createdAt j -> is_stale now after (rows st) = true ->
  let p := STALE_JOB_DELETE lua_number (pretty c) now after parkedTtl epochTtl st in
  if isParkedRecoveryCompatible s k j now
  then p.1 = RInt 1 /\ exists s1, parkQueuedSteers k j now s = (Ok tt, s1) /\
         mirrors k now (rows p.2) (StoreJobs.deleteJob k (Some c) now s1).2
  else p = (RInt 0, st).
Proof.
  intros H Hj Hs Hu Hrun -> Hst p. subst p. unfold STALE_JOB_DELETE.
  destruct (hget_columns k now (rows st) s j H Hj) as (Hc & Hstat & Hou & _). rewrite Hstat, Hc, Hrun, Hst.
  rewrite !bool_decide_true by done. cbn [negb].
  pose proof (sources_spec k now (rows st) s j H Hj) as Hrows. rewrite (sources_sound _ _ Hrows). cbn [negb].
  pose proof (prior_spec k now (rows st) s j H Hj) as Hpr.
  destruct (prior (rows st)) as [found|] eqn:Hp; [|by rewrite Hpr].
  assert (Hcomp : isParkedRecoveryCompatible s k j now = true) by (destruct found; apply Hpr). rewrite Hcomp. clear Hpr.
  assert (Hown : ownerless (rows st) = false).
  { unfold ownerless. rewrite Hou. apply bool_decide_eq_false. by destruct (mi_job _ _ _ _ H j Hj) as (_ & _ & ? & _). }
  rewrite Hown, andb_false_r. cbn [fst snd rows with_rows]. split; [done|].
  destruct (settle_spec k now (rows st) (rows st) s j found parkedTtl H H Hj Hs Hp) as (s1 & Hpark & Hm).
  exists s1. split; [exact Hpark|].
  rewrite <- (distinct_all _ _ Hrows Hu).
  assert (Hj1 : jobs s1 = jobs s).
  { pose proof (parkQueuedSteers_frame jobs ltac:(done) k ltac:(done) ltac:(done) j now s) as E. by rewrite Hpark in E. }
  apply mirrors_reaped; [|exists j; by rewrite Hj1].
  destruct (protocolV2 (rows st)); [|rewrite with_same_receipts in Hm]; exact (mirrors_receipt_ttl k now _ s1 parkedTtl Hm).
Qed.

(** ** One visit of the cleanup *)

(** Both cleanups visit the stream, the members of the running set first. *)
Definition sweep_redis (now : Z) (st : Stream) : Stream :=
  (cleanup_paused lua_number ttls now (cleanup_running lua_number ttls now st).2).2.

(** The in-memory visit, and the deletion of what it collects. *)
Definition sweep_memory (k : string) (now : Z) (s : Store) : Store :=
  match cleanup_visit k now s with
  | (Ok (Some e), s') => (StoreJobs.deleteJob k (Some e) now s').2
  | (_, s') => s'
  end.

(** A job that both cleanups judge alike: the same lifetime of a running job, read off the same
    sign of life; no ended job to collect, which Redis leaves to the expiry of its key; a paused
    job with a review that can be read back, if any, under its own id, and with an expiry before the backstop. *)
Record swept_fine (s : Store) (k : string) (now : Z) (j : Job.t) : Prop := {
  sw_settles : settles s k j;
  sw_unshared : unshared s k j;
  sw_timeout : staleJobTimeout s = (Ttl.running ttls * 1000)%Z;
  sw_retention : (0 < ttlAfterComplete s)%Z;
  sw_alive : Job.status j = running -> last_active s k j = default (Job.createdAt j) (Job.lastActiveAt j);
  sw_ended : terminal (Job.status j) = true -> finished_outcome s j now = Some j;
  sw_pending : Job.pendingActionId j <> Some "";
  sw_review : forall a, Job.pendingAction j = Some a ->
    known_review a = true /\ PendingAction.actionId a <> "" /\ Job.pendingActionId j = Some (PendingAction.actionId a);
  sw_backstop : exceededNoExpiryBackstop ttls j now = true -> isPendingActionStale j now = true
}.

Lemma as_read_review s k now j : swept_fine s k now j ->
  Job.pendingAction (as_read j) = Job.pendingAction j /\ Job.pendingActionId (as_read j) = Job.pendingActionId j.
Proof.
  intros H. split; cbn.
  - destruct (Job.pendingAction j) as [a|] eqn:E; [|done]. destruct (sw_review _ _ _ _ H a E) as [Hk _]. cbn. by rewrite Hk.
  - pose proof (sw_pending _ _ _ _ H). destruct (Job.pendingActionId j) as [x|]; [|done]. cbn.
    by rewrite decide_False by congruence.
Qed.

Lemma pause_timeout_fine j actionId now : actionId <> "" -> transition_fine (pause_timeout_transition j actionId now).
Proof.
  intros Ha. split; [split|done|cbn; congruence]; cbn; [by repeat constructor | by repeat constructor |].
  intros f. rewrite !elem_of_cons, !elem_of_nil. unfold pair_of. cbn. naive_solver.
Qed.
Lemma expire_fine j now :
  (forall a, Job.pendingAction j = Some a -> PendingAction.actionId a <> "") -> transition_fine (expire_approval j now).
Proof.
  intros Ha. split; [split|done|]; cbn; [by repeat constructor | by repeat constructor | |].
  - intros f. rewrite !elem_of_cons, !elem_of_nil. unfold pair_of. cbn. naive_solver.
  - destruct (Job.pendingAction j) as [a|]; [|done]. cbn. specialize (Ha a eq_refl). congruence.
Qed.

(** A stale approval ended by the transition, or left alone. *)
Lemma approval_refines k now st s j :
  mirrors k now (rows st) s -> mget (jobs s) k = Some j -> swept_fine s k now j -> Job.status j = requires_action ->
  let st' := (RedisTransitions.transitionStatus lua_number ttls (expire_approval j now) now st).2 in
  let s' := match (if isParkedRecoveryCompatible s k j now
                   then parkQueuedSteers k j now >> modify (set_job k (expired_approval j now)) >> retM false
                   else retM false) s with (_, s') => s' end in
  mirrors k now (rows st') s'.
Proof.
  intros H Hj Hf Hst. cbv zeta. unfold RedisTransitions.transitionStatus.
  assert (Ha : transition_fine (expire_approval j now)).
  { apply expire_fine. intros a E. by destruct (sw_review _ _ _ _ Hf a E) as (_ & ? & _). }
  assert (Hg : transition_guard (expire_approval j now) j = true).
  { unfold transition_guard, expire_approval. cbn. rewrite Hst, !bool_decide_true by done. cbn.
    destruct (Job.pendingAction j) as [a|] eqn:E; [|done]. destruct (sw_review _ _ _ _ Hf a E) as (_ & _ & ->). cbn.
    by rewrite bool_decide_true. }
  pose proof (end_script ttls ttls_ok k now st s j (expire_approval j now) false H Ha Hj (sw_settles _ _ _ _ Hf) Hg eq_refl) as He.
  destruct (internal_refines ttls k now st s (expire_approval j now) false H Ha) as (reply & st' & E & ->).
  { intros _ j' Hj'. rewrite Hj in Hj'. injection Hj' as <-. apply (sw_settles _ _ _ _ Hf). }
  cbv zeta in He. rewrite E in He. cbn [fst snd] in He |- *.
  destruct (isParkedRecoveryCompatible s k j now); [|by injection He as -> ->].
  destruct He as (s1 & Hp & _ & Hm). unfold bindM. rewrite Hp. exact Hm.
Qed.

Lemma deleted_job k c j now s :
  mget (jobs s) k = Some j -> Job.createdAt j = c -> mget (jobs (StoreJobs.deleteJob k (Some c) now s).2) k = None.
Proof.
  intros Hj Hc. unfold StoreJobs.deleteJob. rewrite Hj.
  assert (He : epoch_matches (Some c) (Job.createdAt j) = true) by (by apply epoch_matches_Some). rewrite He. cbn.
  apply mget_mdel_eq.
Qed.

Lemma paused_quiet now st o :
  getJob (jobHash (rows st)) = Ok o -> (forall j, o = Some j -> Job.status j <> requires_action) ->
  (cleanup_paused lua_number ttls now st).2 = st.
Proof.
  intros E Ho. unfold cleanup_paused. rewrite E. destruct o as [j|]; [|done]. by rewrite bool_decide_false by auto.
Qed.

Lemma visit_no_barrier k now s j :
  mget (jobs s) k = Some j -> ~ (Job.status j = requires_action /\ Job.terminalPersistencePending j = Some true) ->
  cleanup_visit k now s =
    (cleanup_job k now >>= fun reap => retM (if reap then Some (Job.createdAt j) else None)) s.
Proof. intros Hj Hn. unfold cleanup_visit, cleanup_barrier. by rewrite Hj, bool_decide_false. Qed.

Lemma sweep_running k now st s j :
  (0 < Ttl.running ttls)%Z ->
  mirrors k now (rows st) s -> mget (jobs s) k = Some j -> swept_fine s k now j -> Job.status j = running ->
  mirrors k now (rows (sweep_redis now st)) (sweep_memory k now s).
Proof.
  intros Hpos H Hj Hf Hst. unfold sweep_redis, sweep_memory.
  pose proof (observed_job k now (rows st) s j H Hj) as Ho.
  rewrite (visit_no_barrier k now s j Hj) by (rewrite Hst; by intros [? _]).
  unfold cleanup_job, cleanup_running. unfold bindM at 1. rewrite Hj, Ho. cbn [as_read Job.status Job.lastActiveAt Job.createdAt].
  unfold cleanup_finished. rewrite Hst, decide_True by done. cbn [terminal andb].
  rewrite !(bool_decide_false (running = _)), andb_false_l, (bool_decide_true (running = _)), andb_true_r by done.
  pose proof (sw_timeout _ _ _ _ Hf) as Hto. rewrite Hto, (sw_alive _ _ _ _ Hf Hst), (bool_decide_true (0 < _)%Z) by lia.
  cbn [andb]. destruct (decide _) as [Hd|Hd].
  2: { rewrite (bool_decide_false (_ < _)%Z) by done. cbn [fst snd retM].
       rewrite (paused_quiet now st _ Ho); [done|]. intros j' [= <-]. cbn. by rewrite Hst. }
  rewrite (bool_decide_true (_ < _)%Z) by done. unfold deleteStaleRunningJob.
  pose proof (reap_refines k now st s j _ (Ttl.running ttls * 1000) (parkedRecoveryTtlSeconds (Ttl.completed ttls))
    GENERATION_EPOCH_GRACE_TTL_S H Hj (sw_settles _ _ _ _ Hf) (sw_unshared _ _ _ _ Hf) Hst eq_refl) as Hr.
  rewrite (stale_field k now (rows st) s j _ H Hj), bool_decide_true in Hr by done. specialize (Hr eq_refl). cbv zeta in Hr.
  cbn [as_read Job.createdAt].
  destruct (isParkedRecoveryCompatible s k j now).
  - destruct (STALE_JOB_DELETE _ _ _ _ _ _ st) as [reply st'] eqn:E. destruct Hr as (_ & s1 & Hp & Hm). cbn [fst snd] in *.
    unfold bindM. rewrite Hp. cbn [retM fst snd].
    rewrite (paused_quiet now st' None); [exact Hm | | done].
    pose proof (re_job _ _ _ _ (mi_represents _ _ _ _ Hm)) as Hrow.
    rewrite (deleted_job k _ j now s1) in Hrow by (done || by rewrite (park_jobs _ _ _ _ _ _ Hp)). by rewrite Hrow.
  - rewrite Hr. cbn [retM fst snd]. rewrite (paused_quiet now st _ Ho); [done|]. intros j' [= <-]. cbn. by rewrite Hst.
Qed.

(** A barrier that was failed in this visit is retained. *)
Lemma timed_out_visit k now s j :
  mget (jobs s) k = Some j -> Job.status j = error -> Job.completedAt j = Some now ->
  Job.terminalPersistencePending j = None -> (0 < ttlAfterComplete s)%Z -> cleanup_job k now s = (Ok false, s).
Proof.
  intros Hj Hst Hc Hp Ht. unfold cleanup_job. rewrite Hj. destruct (cleanup_finished j now).
  - unfold terminal_ttl. rewrite Hp, Hc, (bool_decide_false (None = Some true)) by done. cbn.
    by rewrite !bool_decide_false by lia.
  - by rewrite Hst, andb_false_r.
Qed.
Lemma pause_of_read j a now : pause_timeout_transition (as_read j) a now = pause_timeout_transition j a now.
Proof. done. Qed.

Lemma sweep_paused k now st s j :
  mirrors k now (rows st) s -> mget (jobs s) k = Some j -> swept_fine s k now j -> Job.status j = requires_action ->
  mirrors k now (rows (sweep_redis now st)) (sweep_memory k now s).
Proof.
  intros H Hj Hf Hst. unfold sweep_redis, sweep_memory.
  pose proof (observed_job k now (rows st) s j H Hj) as Ho. destruct (as_read_review s k now j Hf) as [Era Eri].
  unfold cleanup_running. rewrite Ho. cbn [as_read Job.status]. rewrite Hst, decide_False by done. cbn [snd].
  unfold cleanup_paused. rewrite Ho. cbn [as_read Job.status]. rewrite Hst, bool_decide_true by done. cbn [negb].
  assert (Epend : Job.terminalPersistencePending (as_read j) = Job.terminalPersistencePending j) by done. rewrite Epend.
  assert (Estart : persistence_started (as_read j) = persistence_started j) by done. rewrite Estart, Eri.
  assert (Estale : isPendingActionStale (as_read j) now = isPendingActionStale j now)
    by (unfold isPendingActionStale, isPendingActionExpired; by rewrite Era).
  assert (Eback : exceededNoExpiryBackstop ttls (as_read j) now = exceededNoExpiryBackstop ttls j now)
    by (unfold exceededNoExpiryBackstop; by rewrite Era).
  assert (Eexp : expire_approval (as_read j) now = expire_approval j now) by (unfold expire_approval; by rewrite Era).
  rewrite Estale, Eback, Eexp. destruct (decide (Job.terminalPersistencePending j = Some true)) as [Hp|Hp].
  - rewrite bool_decide_true by done. unfold cleanup_visit, cleanup_barrier. rewrite Hj, bool_decide_true by done.
    destruct (decide _) as [Hd|Hd]; [done|].
    destruct (Job.pendingActionId j) as [a|] eqn:Ea; [|done].
    rewrite (pause_of_read j a now). set (args := pause_timeout_transition j a now).
    assert (Hargs : transition_fine args).
    { apply pause_timeout_fine. intros ->. by apply (sw_pending _ _ _ _ Hf). }
    pose proof (drain_answers ttls ttls_ok k now st s args H Hargs) as Hd'.
    destruct (RedisTransitions.transitionStatusAndDrainSteers _ _ args now st) as [x st'].
    pose proof (pause_timeout_wins k j a now s Hj Hst Ea) as Hw. fold args in Hw. unfold bindM. rewrite Hw in Hd' |- *.
    destruct (isParkedRecoveryCompatible s k j now) eqn:Hc.
    2: { apply Hd'; [|done]. intros _ j' Hj'. rewrite Hj in Hj'. injection Hj' as <-. apply (sw_settles _ _ _ _ Hf). }
    destruct (parkQueuedSteers_total k j now s Hc) as [s1 Hs1]. rewrite Hs1 in Hd' |- *.
    cbv zeta in Hd' |- *. cbn [retM]. cbv beta iota.
    rewrite (timed_out_visit k now _ (transitioned args j)); [| | done | done | done |].
    + apply Hd'; [|done]. intros _ j' Hj'. rewrite Hj in Hj'. injection Hj' as <-. apply (sw_settles _ _ _ _ Hf).
    + rewrite (map_receipts_frame jobs ltac:(done)). apply mget_mset_eq.
    + rewrite (map_receipts_frame ttlAfterComplete ltac:(done)). cbn.
      pose proof (park_config _ _ _ _ _ _ Hs1) as Hcfg. injection Hcfg as -> _ _. apply (sw_retention _ _ _ _ Hf).
  - rewrite bool_decide_false by done. rewrite (visit_no_barrier k now s j Hj) by (by intros [_ ?]).
    unfold cleanup_job, cleanup_finished. unfold bindM at 1. rewrite Hj, Hst. cbn [terminal andb].
    rewrite (bool_decide_true (requires_action = _)), andb_true_l by done.
    rewrite (bool_decide_false (requires_action = running)), andb_false_r by done.
    pose proof (sw_backstop _ _ _ _ Hf) as Hb.
    destruct (isPendingActionStale j now) eqn:Es; cbn [orb].
    + pose proof (approval_refines k now st s j H Hj Hf Hst) as Ha. cbv zeta in Ha.
      destruct (RedisTransitions.transitionStatus _ _ _ now st) as [x st'].
      destruct (isParkedRecoveryCompatible s k j now) eqn:Hc; [|exact Ha].
      destruct (parkQueuedSteers_total k j now s Hc) as [s1 Hs1]. unfold bindM in *. rewrite Hs1 in *. exact Ha.
    + destruct (exceededNoExpiryBackstop ttls j now); [by specialize (Hb eq_refl) | done].
Qed.

Lemma sweep_refines k now st s :
  mirrors k now (rows st) s -> (forall j, mget (jobs s) k = Some j -> swept_fine s k now j) ->
  mirrors k now (rows (sweep_redis now st)) (sweep_memory k now s).
Proof.
  intros H Hf. destruct (mget (jobs s) k) as [j|] eqn:Hj.
  2: { unfold sweep_redis, sweep_memory, cleanup_running, cleanup_paused, cleanup_visit. rewrite Hj.
       pose proof (re_job _ _ _ _ (mi_represents _ _ _ _ H)) as Hr. rewrite Hj in Hr. rewrite Hr. cbn. by rewrite Hr. }
  specialize (Hf j eq_refl). destruct (Job.status j) eqn:Hst.
  1: by apply (sweep_running k now st s j); [apply ttls_ok|..].
  4: by apply (sweep_paused k now st s j).
  all: assert (Ht : terminal (Job.status j) = true) by (by rewrite Hst).
  all: unfold sweep_redis, sweep_memory, cleanup_running; rewrite (observed_job k now (rows st) s j H Hj);
    cbn [as_read Job.status]; rewrite decide_False by congruence; cbn [snd];
    rewrite (paused_quiet now st _ (observed_job k now (rows st) s j H Hj)) by (intros j' [= <-]; cbn; congruence);
    rewrite (visit_no_barrier k now s j Hj) by (intros [? _]; congruence); unfold bindM;
    destruct (finished_visit k s j now Hj Ht) as (b & -> & Hb); rewrite (sw_ended _ _ _ _ Hf Ht) in Hb;
    by destruct b.
Qed.
End refine.
