(* ===== verification/RedisStreams.v ===== *)
(** * Streams in Redis and in memory

    Sequences of every kind of call on one stream, made to both stores: steering, parking and
    recovery, status transitions with or without the drain of the unsettled steers, the
    acknowledgement of replaced generations. *)

From stdpp Require Import pretty.
From S2P Require Import Prelude JsMap Json StreamTypes SteerRecovery StoreState StoreSteers StoreParked.
From S2P Require Import StoreJobs StoreCleanup StoreFrame StoreRun StoreEpochs StoreParking StoreRecovery StoreQueue.
From S2P Require Import RedisScripts RedisLua RedisJobs RedisRoundTrip RedisSteers RedisRows RedisAdmission RedisDrain.
From S2P Require Import RedisEdits RedisStore RedisLeftovers RedisParcels RedisRecovery RedisParking.
From S2P Require Import RedisTransitions RedisWrites RedisTerminal RedisMoves RedisStatus RedisClosing RedisUpdates RedisReplaced.

(** ** What steering leaves alone *)

(** The scripts of steering write neither the job nor the parked steers. *)
Definition still (r : Rows) := (jobHash r, parkedKey r).

Lemma still_steer lua_number ttl op r : still (call_redis lua_number ttl op r).2 = still r.
Proof.
  destruct op; cbn [call_redis];
    unfold enqueueSteerVersioned, STEER_ENQUEUE_VERSIONED, enqueueSteerWithReceipt, STEER_ENQUEUE_RECEIPT,
      read_receipt, STEER_ENQUEUE_VERSIONED, getSteerReceipt, STEER_RECEIPT_GET, read_receipt,
      drainSteers, STEER_DRAIN, restoreClaimedSteers, STEER_RESTORE_CLAIMED, removeSteer, STEER_REMOVE,
      armSteerVersioned, STEER_ARM, downgradeSteerPreempts, STEER_DOWNGRADE_PREEMPTS, peekSteers, peekClaimedSteers;
    repeat (case_match; unfold answer in *; simplify_eq/=); done.
Qed.

(** Neither do those of the in-memory store. *)
Definition table_parked (s : Store) := (jobs s, parkedSteers s).

Lemma held_steer k now op s : table_parked (call_memory k now op s).2 = table_parked s.
Proof.
  assert (Hu : forall c f s, table_parked (update_receipt k c f s) = table_parked s)
    by (intros; by apply update_receipt_frame).
  assert (Hs : forall items st s, table_parked (settleSteerReceipts k items st s) = table_parked s)
    by (intros; by apply settle_frame).
  destruct op; cbn [call_memory];
    unfold StoreSteers.enqueueSteerVersioned, StoreSteers.enqueueSteerWithReceipt, StoreSteers.getSteerReceipt,
      StoreSteers.drainSteers, StoreSteers.restoreClaimedSteers, StoreSteers.removeSteer,
      StoreSteers.armSteerVersioned, StoreSteers.downgradeSteerPreempts, delete_receipt;
    repeat (case_match; unfold StoreSteers.enqueueSteerVersioned in *; simplify_eq/=);
    rewrite ?(fold_receipts_frame table_parked ltac:(done) SteerQueueItem.clientSteerId),
      ?(fold_receipts_frame table_parked ltac:(done) fst (fun p => set_item_of_receipt p.2)), ?Hu, ?Hs; done.
Qed.

(** Receipts name no empty tenant. *)
Definition tenants (k : string) (s : Store) : Prop :=
  forall c e, receipt_of s k c = Some e -> SteerReceipt.tenantId (ReceiptEntry.receipt e) <> Some "".

Definition same_tenant (f : ReceiptEntry.t -> ReceiptEntry.t) : Prop :=
  forall e, SteerReceipt.tenantId (ReceiptEntry.receipt (f e)) = SteerReceipt.tenantId (ReceiptEntry.receipt e).

Lemma tenants_update k c f s :
  tenants k s -> (forall e, receipt_of s k c = Some e ->
    SteerReceipt.tenantId (ReceiptEntry.receipt (f e)) = SteerReceipt.tenantId (ReceiptEntry.receipt e)) ->
  tenants k (update_receipt k c f s).
Proof.
  intros Ht Hf c' e. rewrite receipt_of_updated. case_decide; [subst c' | by apply Ht].
  destruct (receipt_of s k c) as [e0|] eqn:E; [|done]. intros [= <-]. rewrite (Hf e0 eq_refl). by apply (Ht c).
Qed.
Lemma tenants_updates {A} k (cid : A -> option string) (f : A -> ReceiptEntry.t -> ReceiptEntry.t) l s :
  tenants k s -> (forall x, same_tenant (f x)) ->
  tenants k (foldl (fun s x => match cid x with Some c => update_receipt k c (f x) s | None => s end) s l).
Proof.
  intros Ht Hf. revert s Ht. induction l as [|x l IH]; intros s Ht; [done|]. cbn [foldl]. apply IH.
  destruct (cid x); [|done]. apply tenants_update; [done|]. intros e _. apply Hf.
Qed.
Lemma tenants_settle k items st s : tenants k s -> tenants k (settleSteerReceipts k items st s).
Proof.
  intros Ht. assert (Hf : tenants k (foldl (fun s item =>
    match SteerQueueItem.clientSteerId item with
    | Some c => if decide (c = "") then s else update_receipt k c (set_receipt_item item st) s
    | None => s
    end) s items)).
  { revert s Ht. induction items as [|it items IH]; intros s Ht; [done|]. cbn [foldl]. apply IH.
    destruct (SteerQueueItem.clientSteerId it); [|done]. case_decide; [done|].
    apply tenants_update; [done|]. by intros e _. }
  unfold settleSteerReceipts. by repeat case_match.
Qed.
Lemma tenants_receipts k s s' : steerReceipts s' = steerReceipts s -> tenants k s -> tenants k s'.
Proof. intros E Ht c e. unfold receipt_of, receipts_of. rewrite E. apply Ht. Qed.

Lemma tenants_enqueue k it w e s : tenants k s -> tenants k (StoreSteers.enqueueSteerVersioned k it w e s).2.
Proof. intros Ht. unfold StoreSteers.enqueueSteerVersioned. by repeat case_match. Qed.
Lemma receipt_set k rs m s c : receipt_of (with_steerReceipts (mset m k rs) s) k c = mget rs c.
Proof. unfold receipt_of, receipts_of. cbn. by rewrite mget_mset_eq. Qed.

Section steer.
Context {lua_number : jnum -> jnum}.
Abbreviation represents := (represents (lua_number := lua_number)).

Lemma receipt_alive k now r s c e :
  represents k now r s -> receipt_of s k c = Some e -> expired (ReceiptEntry.expiresAt e) now = false.
Proof.
  intros H He. pose proof (re_receipts _ _ _ _ H c) as Hm. rewrite He in Hm.
  destruct (HGET c (receiptsKey r)); [apply Hm | done].
Qed.

Lemma tenants_normalized k c s e :
  tenants k s -> receipt_of s k c = Some e ->
  tenants k (update_receipt k c (fun _ => normalizeSteerReceipt s k e) s).
Proof. intros Ht E. apply tenants_update; [done|]. intros e' E'. rewrite E in E'. by injection E' as <-. Qed.

(** A receipt is made out to a tenant with a name, if any. *)
Definition named_tenant (op : Op) : Prop :=
  match op with EnqueueWithReceipt _ i _ _ => SteerReceiptInput.tenantId i <> Some "" | _ => True end.

Lemma tenants_steer k now r op s :
  represents k now r s -> tenants k s -> named_tenant op -> tenants k (call_memory k now op s).2.
Proof.
  intros H Ht Hn. destruct op as [it w e|it i w e|c|e|items e|id e|id e|e|e|e]; cbn [call_memory]; try done.
  - pose proof (tenants_enqueue k it w e s Ht) as Hr. by destruct (StoreSteers.enqueueSteerVersioned k it w e s).
  - unfold StoreSteers.enqueueSteerWithReceipt.
    destruct (receipt_of s k (SteerReceiptInput.clientSteerId i)) as [e0|] eqn:E.
    { rewrite (receipt_alive k now r s _ e0 H E). by apply tenants_normalized. }
    destruct (steerable_job s k e) as [j|]; [|done].
    destruct (negb (usesReceiptSafeProtocol (Some j))).
    { pose proof (tenants_enqueue k it w e s Ht) as Hr. by destruct (StoreSteers.enqueueSteerVersioned k it w e s). }
    rewrite (none_expired k now r s H). case_decide; [done|]. intros c e0. case_decide; cbn [snd]; rewrite receipt_set.
    + by apply Ht.
    + rewrite mget_mset. case_decide; [by intros [= <-] | by apply Ht].
  - unfold StoreSteers.getSteerReceipt. destruct (receipt_of s k c) as [e0|] eqn:E; [|done].
    rewrite (receipt_alive k now r s c e0 H E). by apply tenants_normalized.
  - unfold StoreSteers.drainSteers. destruct (steerable_job s k e) as [j|]; [|done].
    destruct (queue_of s k) as [|q qs]; [done|]. destruct (negb _); [done|]. destruct (forallb _ _); [|done].
    apply (tenants_updates k SteerQueueItem.clientSteerId (fun _ => extend_receipt (At (now + STEER_RECEIPT_TTL_MS))));
      [by apply tenants_settle | done].
  - unfold StoreSteers.restoreClaimedSteers. destruct (steerable_job s k e) as [j|]; [|done].
    repeat (case_match; cbn [snd]; simplify_eq; try done). all: by apply tenants_settle.
  - unfold StoreSteers.removeSteer. repeat (case_match; cbn [snd]; simplify_eq; try done).
    all: by apply tenants_update.
  - unfold StoreSteers.armSteerVersioned. repeat (case_match; cbn [snd]; simplify_eq; try done).
    all: by apply tenants_update.
  - unfold StoreSteers.downgradeSteerPreempts. repeat (case_match; cbn [snd]; simplify_eq; try done).
    all: by apply (tenants_updates k fst (fun p => set_item_of_receipt p.2)).
Qed.
End steer.

(** ** Calls on a stream *)

Inductive StreamOp :=
| Steer (op : Op)
| Recover (op : RecoveryOp)
| Close (expected : option Z)
| Transition (args : JobStatusTransition.t)
| TransitionDrain (args : JobStatusTransition.t)
| Update (updates : list JobField) (expected : option Z)
| MarkDrained (expected : Z) (providerExecutionId : string)
| BeginProvider (expected : Z) (providerExecutionId : string)
| Finalize (expected : Z) (finalEvent : string)
| Delete (expected : option Z)
| Acknowledge (creationAttemptId : string) (replacedCreatedAts : list Z).

(** What the Redis store answers, and the in-memory one. *)
Inductive StreamReply :=
| Steered (o : RedisOut)
| Recovered (o : result string RecoveryOut)
| Ended (l : result string (list json))
| Moved (b : result string bool)
| MovedWith (l : result string (option (list json)))
| Updated (u : result string ())
| Fenced (b : result string bool).
Inductive StreamOut :=
| MSteered (o : MemoryOut)
| MRecovered (o : RecoveryOut)
| MEnded (l : result StoreError (list SteerQueueItem.t))
| MMoved (b : result StoreError bool)
| MMovedWith (l : result StoreError (option (list SteerQueueItem.t)))
| MUpdated (u : result StoreError ())
| MFenced (b : bool).

Definition alike (a : StreamReply) (o : StreamOut) : Prop :=
  match a, o with
  | Steered a, MSteered o => agree a o
  | Recovered a, MRecovered o => agrees a o
  | Ended a, MEnded o => same_result (Forall2 reads_item) a o
  | Moved a, MMoved o => same_result eq a o
  | MovedWith a, MMovedWith o => same_result (option_Forall2 (Forall2 reads_item)) a o
  | Updated a, MUpdated o => same_result eq a o
  | Fenced a, MFenced o => a = Ok o
  | _, _ => False
  end.

Section streams.
Variable lua_number : jnum -> jnum.
Context {lua : LuaNumber lua_number}.
Variable ttls : Ttl.t.
Hypothesis ttls_ok : ttls_fine ttls.
Abbreviation mirrors := (mirrors (lua_number := lua_number)).

Definition on_rows {A} (p : A * Rows) (st : Stream) : A * Stream := (p.1, with_rows p.2 st).

Definition stream_redis (now : Z) (op : StreamOp) (st : Stream) : StreamReply * Stream :=
  match op with
  | Steer op => on_rows (prod_map Steered id (call_redis lua_number (runningStorageTtlSeconds ttls) op (rows st))) st
  | Recover op => on_rows (prod_map Recovered id (recover_redis lua_number (Ttl.completed ttls) op (rows st))) st
  | Close e => on_rows (prod_map Ended id (closeAndDrainSteers lua_number (Ttl.completed ttls) e (rows st))) st
  | Transition args => prod_map Moved id (RedisTransitions.transitionStatus lua_number ttls args now st)
  | TransitionDrain args =>
      prod_map MovedWith id (RedisTransitions.transitionStatusAndDrainSteers lua_number ttls args now st)
  | Update updates e => prod_map Updated id (updateJob lua_number ttls updates e now st)
  | MarkDrained c i => on_rows (prod_map Fenced id (markProviderExecutionDrained c i (rows st))) st
  | BeginProvider c i => on_rows (prod_map Fenced id (beginProviderExecution c i (rows st))) st
  | Finalize c ev => on_rows (prod_map Fenced id (finalizeTerminalPersistence c ev (rows st))) st
  | Delete e => prod_map Fenced id (deleteJob e st)
  | Acknowledge a zs => on_rows (prod_map Fenced id (acknowledgeReplacedJobs lua_number a zs (rows st))) st
  end.

Definition stream_memory (k : string) (now : Z) (op : StreamOp) (s : Store) : StreamOut * Store :=
  match op with
  | Steer op => prod_map MSteered id (call_memory k now op s)
  | Recover op => prod_map MRecovered id (recover_memory k now op s)
  | Close e => prod_map MEnded id (StoreSteers.closeAndDrainSteers k e now s)
  | Transition args => prod_map MMoved id (StoreJobs.transitionStatus k args now s)
  | TransitionDrain args => prod_map MMovedWith id (StoreJobs.transitionStatusAndDrainSteers k args now s)
  | Update updates e => prod_map MUpdated id (StoreJobs.updateJob k updates e now s)
  | MarkDrained c i => prod_map MFenced id (StoreJobs.markProviderExecutionDrained k c i s)
  | BeginProvider c i => prod_map MFenced id (StoreJobs.beginProviderExecution k c i s)
  | Finalize c ev => prod_map MFenced id (StoreJobs.finalizeTerminalPersistence k c ev s)
  | Delete e => prod_map MFenced id (StoreJobs.deleteJob k e now s)
  | Acknowledge a zs => prod_map MFenced id (StoreJobs.acknowledgeReplacedJobs k a zs s)
  end.

(** What callers respect, in the state the call finds. *)
Definition proper (k : string) (now : Z) (op : StreamOp) (s : Store) : Prop :=
  match op with
  | Steer op => respected lua_number k op s /\ named_tenant op
  | Recover op => RedisParking.allowed lua_number k op s
  | Close _ => forall j, mget (jobs s) k = Some j -> closable s k now j
  | Transition args => transition_fine args /\ settles_in s k args
  | TransitionDrain args =>
      terminal (JobStatusTransition.to args) = true -> transition_fine args /\ settles_in s k args
  | Update updates _ => update_fine updates k s
  | Delete _ => orderly k s
  | Acknowledge a zs =>
      a <> "" /\ zs <> [] /\ forall j, mget (jobs s) k = Some j -> named_conversations j
  | MarkDrained _ _ | BeginProvider _ _ | Finalize _ _ => True
  end.

Lemma steer_mirrors k now r s op :
  mirrors k now r s -> respected lua_number k op s -> named_tenant op ->
  agree (call_redis lua_number (runningStorageTtlSeconds ttls) op r).1 (call_memory k now op s).1 /\
  mirrors k now (call_redis lua_number (runningStorageTtlSeconds ttls) op r).2 (call_memory k now op s).2.
Proof.
  intros [H Hj Hr Hp] Hop Hn.
  destruct (call_refines lua_number (runningStorageTtlSeconds ttls) k now r s op H Hop) as [Ha Hm]. split; [exact Ha|].
  pose proof (still_steer lua_number (runningStorageTtlSeconds ttls) op r) as Hs. injection Hs as E1 E2.
  pose proof (held_steer k now op s) as Ht. injection Ht as E3 E4. split; [exact Hm | | |].
  - by rewrite E1, E3.
  - by apply (tenants_steer k now r op s H).
  - unfold live_parked. by rewrite E2, E4.
Qed.

Lemma stream_refines k now st s op :
  mirrors k now (rows st) s -> proper k now op s ->
  alike (stream_redis now op st).1 (stream_memory k now op s).1 /\
  mirrors k now (rows (stream_redis now op st).2) (stream_memory k now op s).2.
Proof.
  intros H Hop. destruct op as [op|op|e|args|args|u e|c i|c i|c ev|e|a zs]; cbn [stream_redis stream_memory].
  - destruct Hop as [Hop Hn]. exact (steer_mirrors k now (rows st) s op H Hop Hn).
  - exact (recover_refines lua_number (Ttl.completed ttls) k now (rows st) s op H Hop).
  - pose proof (close_refines (Ttl.completed ttls) k now (rows st) s e H Hop) as Hc.
    by destruct (closeAndDrainSteers _ _ e (rows st)), (StoreSteers.closeAndDrainSteers k e now s).
  - destruct Hop as [Ha Hs]. pose proof (transition_refines ttls ttls_ok k now st s args H Ha Hs) as Hc.
    destruct (RedisTransitions.transitionStatus _ _ args now st), (StoreJobs.transitionStatus k args now s).
    destruct Hc as [(ok & -> & ->) Hm]. by split.
  - destruct (terminal (JobStatusTransition.to args)) eqn:Ht.
    + destruct (Hop Ht) as [Ha Hs]. pose proof (drain_answers ttls ttls_ok k now st s args H Ha Hs Ht) as Hc.
      destruct (RedisTransitions.transitionStatusAndDrainSteers _ _ args now st),
        (StoreJobs.transitionStatusAndDrainSteers k args now s).
      destruct Hc as [(l & l' & -> & -> & Hl) Hm]. by split.
    + unfold RedisTransitions.transitionStatusAndDrainSteers, StoreJobs.transitionStatusAndDrainSteers.
      rewrite Ht. by split.
  - pose proof (update_refines ttls k now st s u e ttls_ok H Hop) as Hc.
    destruct (updateJob _ _ u e now st), (StoreJobs.updateJob k u e now s). by destruct Hc as (-> & -> & Hm).
  - pose proof (drained_refines k now (rows st) s c i H) as Hc.
    by destruct (markProviderExecutionDrained c i (rows st)), (StoreJobs.markProviderExecutionDrained k c i s).
  - pose proof (begin_refines k now (rows st) s c i H) as Hc.
    by destruct (beginProviderExecution c i (rows st)), (StoreJobs.beginProviderExecution k c i s).
  - pose proof (finalize_refines k now (rows st) s c ev H) as Hc.
    by destruct (finalizeTerminalPersistence c ev (rows st)), (StoreJobs.finalizeTerminalPersistence k c ev s).
  - pose proof (delete_refines k now st s e H Hop) as Hc.
    by destruct (deleteJob e st), (StoreJobs.deleteJob k e now s).
  - destruct Hop as (Ha & Hz & Hn). pose proof (ack_refines k now (rows st) s a zs H Ha Hz Hn) as Hc.
    by destruct (acknowledgeReplacedJobs _ a zs (rows st)), (StoreJobs.acknowledgeReplacedJobs k a zs s).
Qed.

Fixpoint redis_stream (calls : list (Z * StreamOp)) (st : Stream) : list StreamReply :=
  match calls with
  | [] => []
  | (now, op) :: calls => let '(a, st') := stream_redis now op st in a :: redis_stream calls st'
  end.
Fixpoint memory_stream (k : string) (calls : list (Z * StreamOp)) (s : Store) : list StreamOut :=
  match calls with
  | [] => []
  | (now, op) :: calls => let '(o, s') := stream_memory k now op s in o :: memory_stream k calls s'
  end.
(** The calls come in the order of their times, before anything they may read expires. *)
Fixpoint in_time (k : string) (now : Z) (calls : list (Z * StreamOp)) (s : Store) : Prop :=
  match calls with
  | [] => True
  | (t, op) :: calls =>
      (now <= t)%Z /\ receipts_live k t s /\ parked_alive k t s /\ proper k t op s /\
      in_time k t calls (stream_memory k t op s).2
  end.
End streams.

(** C11. The Redis store and the in-memory store are interchangeable for the life of a stream:
    started on keys that mirror the store, which include no corrupt row or payload, they answer
    every sequence of steering calls, parkings, claims, consumptions and discards of leftovers,
    closings of the queue, transitions, updates, provider marks, acknowledgements of replaced
    generations and deletions alike: the same callers win the same transitions, a foreign payload
    refuses a terminal transition on both sides, and the unsettled steers it takes are drained, marked and parked alike. The calls come in the
    order of their times, with no receipt and no parked payload expired (in_time), and each finds
    the store as callers leave it (proper): steering as in redis_steering_refines_memory, with
    tenants that are not empty; parkings of well-formed payloads, of protocol 1 when there is no
    job; closings that find no unsettled steer twice, already parked or without a time; transitions
    out of an active status that expect no empty action id, and that write and clear columns or
    known metadata apart from each other and from the identity of the job; terminal ones only where
    a protocol-1 job holds no claims and the steers have times; updates of the same properties to a
    final status at most, with no steers left queued once the job has ended; deletions where a
    stream without a job has no steers; acknowledgements by a named attempt, of one generation at
    least, where no receipt has an empty conversation id. *)
Theorem redis_streams_refine_memory lua_number (lua : LuaNumber lua_number) ttls k now calls st s
    (Ht : ttls_fine ttls) (Hs : mirrors (lua_number := lua_number) k now (rows st) s)
    (Hc : in_time lua_number k now calls s) :
  Forall2 alike (redis_stream lua_number ttls calls st) (memory_stream k calls s).
Proof.
  revert now st s Hs Hc. induction calls as [|[t op] calls IH]; intros now st s Hs Hc; [constructor|].
  destruct Hc as (Hle & Hl & Hp & Hop & Hc). pose proof (mirrors_now lua_number k now t (rows st) s Hs Hle Hl Hp) as Hm.
  destruct (stream_refines lua_number ttls Ht k t st s op Hm Hop) as [Ha Hr].
  cbn [redis_stream memory_stream].
  destruct (stream_redis lua_number ttls t op st) as [a st'], (stream_memory k t op s) as [o s'].
  constructor; [done | by apply (IH t)].
Qed.

(** ** An evaluated instance *)

(** What [settles] and [closable] come to in a given store. *)
Definition settles_check (s : Store) (k : string) : bool :=
  match mget (jobs s) k with
  | Some j => (usesReceiptSafeProtocol (Some j) || bool_decide (claims_of s k = [])) &&
              forallb (fun it => 0 <=? SteerQueueItem.createdAt it)%Z (unsettled s k (Job.createdAt j))
  | None => true
  end.
Lemma settles_checked s k args : settles_check s k = true -> settles_in s k args.
Proof.
  intros H _ j Hj. unfold settles_check in H. rewrite Hj in H. apply andb_true_iff in H as [H1 H2]. split.
  - intros E. rewrite E in H1. by apply bool_decide_eq_true in H1.
  - apply Forall_forall. intros it Hit. rewrite forallb_forall in H2. apply Z.leb_le, H2. by apply list_elem_of_In.
Qed.
Lemma nothing_closable s k now :
  (forall j, mget (jobs s) k = Some j -> claimedSteerItems s k (Some (Job.createdAt j)) ++ queue_of s k = []) ->
  forall j, mget (jobs s) k = Some j -> closable s k now j.
Proof.
  intros H j Hj. unfold closable. rewrite (H j Hj). split; [constructor|]. split; [constructor|].
  apply Forall_forall. by intros v _ it ?%elem_of_nil.
Qed.

Module StreamDemo.
Definition st3 : SteerQueueItem.t := Demo.item "st3" None "u1".
Definition move (from to : JobStatus) (patch : list JobField) (clear : list JobKey) (action : option string)
  : JobStatusTransition.t := JobStatusTransition.mk from to patch clear action (Some 30%Z) None.
Definition pause := move running requires_action [F_pendingActionId "a1"] [] None.
Definition resume (action : string) :=
  move requires_action running [F_lastActiveAt 35] [K_pendingActionId] (Some action).
Definition finish := move running complete [F_completedAt 41; F_terminalPersistencePending true] [] None.
Definition lifetimes : Ttl.t := Ttl.mk 300 1200 0 0 86400.
Definition stream : Stream := mkStream ParkingDemo.rows None None None None.
Definition calls : list (Z * StreamOp) :=
  [(31, Steer (EnqueueVersioned st3 false (Some 30))); (32, Transition pause);
   (33, Steer (Drain (Some 30))); (34, Transition (resume "a2")); (35, Transition (resume "a1"));
   (36, Update [F_providerExecutionId "p1"; F_providerDrained true] (Some 30)); (37, BeginProvider 30 "p1");
   (38, Recover (ClaimPayload "u1" None)); (39, Steer (Drain None)); (40, TransitionDrain pause);
   (41, TransitionDrain finish); (42, TransitionDrain finish); (43, Finalize 30 "final");
   (44, MarkDrained 30 "p1"); (44, Acknowledge "at1" [10]); (45, Recover (ClaimPayload "u1" None)); (46, Close (Some 30));
   (47, Delete (Some 30)); (48, Delete None)]%Z.
End StreamDemo.

Lemma demo_moves_fine :
  transition_fine StreamDemo.pause /\ (forall a, a <> "" -> transition_fine (StreamDemo.resume a)) /\
  transition_fine StreamDemo.finish.
Proof.
  split_and!; [|intros a Ha|]; (split; [split; cbn; [by repeat constructor | by repeat constructor | intros k] | done | cbn; congruence]).
  - by intros ?%elem_of_nil.
  - intros ->%list_elem_of_singleton. by intros [?|?%elem_of_nil]%elem_of_cons.
  - by intros ?%elem_of_nil.
Qed.

Lemma redis_streams_refine_memory_witness :
  Forall2 alike (redis_stream (fun n => n) StreamDemo.lifetimes StreamDemo.calls StreamDemo.stream)
    (memory_stream "s1" StreamDemo.calls Demo.recovering).
Proof.
  apply (redis_streams_refine_memory (fun n => n) {| lua_number_exact := fun z _ => eq_refl |}
           StreamDemo.lifetimes "s1" 30); [by vm_compute | apply demo_mirrored|].
  destruct demo_moves_fine as (Hpause & Hresume & Hfinish).
  unfold StreamDemo.calls. cbn [in_time].
  repeat (refine (conj _ (conj (receipts_live_check _ _ _ _) (conj _ (conj _ _))));
    [lia | vm_compute; reflexivity | vm_compute; first [reflexivity | exact I] | |]); cbn [proper]; try exact I.
  all: try (split; [first [exact Hpause | exact Hfinish | by apply Hresume] | by apply settles_checked; vm_compute]).
  all: try (split; exact I).
  - split; [|exact I]. split; [by split | by apply (bool_decide_unpack _); vm_compute].
  - split; [by repeat constructor | |].
    + clear. intros j Hj. vm_compute in Hj. by injection Hj as <-.
    + by intros [].
  - split_and!; [done | done|]. clear. intros j Hj. vm_compute in Hj. injection Hj as <-.
    intros r [->|?%elem_of_nil]%elem_of_cons; done.
  - apply nothing_closable. clear. intros j Hj. vm_compute in Hj. injection Hj as <-. by vm_compute.
  - clear. intros Hj. by vm_compute in Hj.
  - by vm_compute.
Defined.
