(* ===== verification/RedisMembership.v ===== *)
(** * The membership sets of the Redis store ([stream/implementations/RedisJobStore.ts])

    The sets that list running jobs, paused jobs, jobs that owe a host action and the jobs of a
    user live on other slots than the job, so that no script writes them together with it.  Every
    writer rewrites them from the durable hash and then reads the hash again, until two reads
    agree ([reconcileJobMembership]).  Here are the sets of one stream, as the set of keys that
    list it, and the reconciliations that run on them at once: one command, or one read, at a time.
    On a cluster the commands of a round are sent together and land in any order. *)

From stdpp Require Import gmap strings.
From S2P Require Import Prelude JsMap Json StreamTypes StoreState.

(** ** Keys *)

Definition runningJobs : string := "stream:running".
Definition requiresActionJobs : string := "stream:requires_action".
Definition terminalHostActionJobs : string := "stream:terminal_host_action".

(** [KEYS.userJobs(userId, tenantId)] *)
Definition userJobs (userId : string) (tenantId : option string) : string :=
  match tenantId with
  | Some t => if decide (t = "") then "stream:user:{" +:+ userId +:+ "}:jobs"
              else "stream:user:{" +:+ t +:+ ":" +:+ userId +:+ "}:jobs"
  | None => "stream:user:{" +:+ userId +:+ "}:jobs"
  end.

(** [statusSetKey(status)] *)
Definition statusSetKey (st : JobStatus) : option string :=
  match st with
  | running => Some runningJobs
  | requires_action => Some requiresActionJobs
  | _ => None
  end.

Definition job_status_key (job : option Job.t) : option string :=
  job ≫= fun j => statusSetKey (Job.status j).

(** [activeUserKey] *)
Definition activeUserKey (job : option Job.t) : option string :=
  job ≫= fun j =>
    if bool_decide (is_Some (statusSetKey (Job.status j)) \/ Job.providerDrained j = Some false)
    then Some (userJobs (Job.userId j) (Job.tenantId j)) else None.

Definition owes_host_action (job : option Job.t) : bool :=
  match job with Some j => bool_decide (Job.terminalHostActionPending j = Some true) | None => false end.

(** ** One round *)

Inductive Command := SADD (key : string) | SREM (key : string) | EXPIRE (key : string).

(** [addObservedUserKey(keys, job)]; the keys are a [Set]. *)
Definition addObservedUserKey (keys : list string) (job : option Job.t) : list string :=
  match job with
  | Some j => if decide (Job.userId j = "") then keys
              else sadd keys (userJobs (Job.userId j) (Job.tenantId j))
  | None => keys
  end.

Definition toggle (listed : bool) (key : string) : Command := if listed then SADD key else SREM key.

(** The commands of [applyMembershipSnapshot(streamId, job, observedUserKeys)]. *)
Definition snapshot_commands (userJobsSet : Z) (job : option Job.t) (observed : list string)
  : list Command :=
  [toggle (bool_decide (job_status_key job = Some runningJobs)) runningJobs;
   toggle (bool_decide (job_status_key job = Some requiresActionJobs)) requiresActionJobs;
   toggle (owes_host_action job) terminalHostActionJobs] ++
  (SREM <$> filter (fun key => Some key <> activeUserKey job) observed) ++
  match activeUserKey job with
  | Some key => SADD key :: (if decide (0 < userJobsSet)%Z then [EXPIRE key] else [])
  | None => []
  end.

(** [sameMembershipSource(left, right)] *)
Definition sameMembershipSource (left right : option Job.t) : bool :=
  match left, right with
  | Some l, Some r =>
      bool_decide (Job.createdAt l = Job.createdAt r /\ Job.status l = Job.status r /\
                   Job.userId l = Job.userId r /\ Job.tenantId l = Job.tenantId r /\
                   Job.providerDrained l = Job.providerDrained r)
  | None, None => true
  | _, _ => false
  end.

(** ** Processes *)

Definition MEMBERSHIP_RECONCILE_MAX_ATTEMPTS : nat := 8.

(** A reconciliation that is about to read the hash, that sends the commands of a round or reads
    the hash after them, that has returned, or that has given up (with the warning, or after an
    error); a listing of the jobs that owe a host action, before it reads the job and before it
    removes the stream from the set. *)
Inductive Process :=
| Loading (observed : list string)
| Round (observed : list string) (current : option Job.t) (pending : list Command) (attempt : nat)
| Settled (verified : option Job.t)
| GaveUp
| HostCheck
| HostForget.

(** The keys of the sets that hold the stream, of those that hold another one, the times in
    milliseconds at which sets expire, and the time. *)
Record Sets := mkSets {
  listed : gset string; elsewhere : gset string; expiries : gmap string Z; clock : Z
}.

(** The durable hash, the sets, and what runs. *)
Record World := mkWorld { hash : option Job.t; sets : Sets; processes : list Process }.

(** Time passes, and a set whose time has come is gone, with everything in it. *)
Definition elapse (ms : N) (s : Sets) : Sets :=
  let now := (clock s + Z.of_N ms)%Z in
  let due := dom (filter (fun e => (e.2 <= now)%Z) (expiries s)) in
  mkSets (listed s ∖ due) (elsewhere s ∖ due) (filter (fun e => ~ (e.2 <= now)%Z) (expiries s)) now.

Section reconcile.
Variable userJobsSet : Z.

(** A command for the stream.  A set without members is gone, and its expiry with it; a set that
    does not exist gets none. *)
Definition execute (c : Command) (s : Sets) : Sets :=
  match c with
  | SADD key => mkSets ({[key]} ∪ listed s) (elsewhere s) (expiries s) (clock s)
  | SREM key =>
      mkSets (listed s ∖ {[key]}) (elsewhere s)
        (if decide (key ∈ elsewhere s) then expiries s else delete key (expiries s)) (clock s)
  | EXPIRE key =>
      if decide (key ∈ listed s \/ key ∈ elsewhere s)
      then mkSets (listed s) (elsewhere s) (<[key := (clock s + userJobsSet * 1000)%Z]> (expiries s)) (clock s)
      else s
  end.

(** The same command for another stream. *)
Definition mirrored (s : Sets) : Sets := mkSets (elsewhere s) (listed s) (expiries s) (clock s).
Definition execute_elsewhere (c : Command) (s : Sets) : Sets := mirrored (execute c (mirrored s)).

(** The head of the loop. *)
Definition enter (observed : list string) (current : option Job.t) (attempt : nat) : Process :=
  if decide (attempt < MEMBERSHIP_RECONCILE_MAX_ATTEMPTS)
  then let observed := addObservedUserKey observed current in
       Round observed current (snapshot_commands userJobsSet current observed) attempt
  else GaveUp.

(** One step of a process: the command at index [i] of its round, or its next read. *)
Definition advance (i : nat) (p : Process) (w : World) : Process * Sets :=
  match p with
  | Loading observed => (enter observed (hash w) 0, sets w)
  | Round observed current pending attempt =>
      match pending !! i with
      | Some c => (Round observed current (splice1 i pending) attempt, execute c (sets w))
      | None =>
          match pending with
          | [] =>
              let verified := hash w in
              let observed := addObservedUserKey observed verified in
              (if sameMembershipSource current verified then Settled verified
               else enter observed verified (S attempt), sets w)
          | _ :: _ => (p, sets w)
          end
      end
  | HostCheck => (if owes_host_action (hash w) then Settled (hash w) else HostForget, sets w)
  | HostForget => (Settled (hash w), execute (SREM terminalHostActionJobs) (sets w))
  | Settled _ | GaveUp => (p, sets w)
  end.

(** What happens to a stream.  A script writes the hash and its method starts to reconcile, with a
    read or from the job it wrote; the hash changes and nobody reconciles (it expires, or its
    provider drains); somebody reconciles from a job that was read before; a process makes a step
    or fails; the jobs that owe a host action are listed; a host action is acknowledged; a command
    for another stream lands; time passes. *)
Inductive Event :=
| Write (job : option Job.t) (written : bool) (owners : list (string * option string))
| Silent (job : option Job.t)
| Heal (initial : option Job.t) (owners : list (string * option string))
| Step (pid i : nat)
| Fail_ (pid : nat)
| ListHostActions
| AcknowledgeHostAction (expectedCreatedAt : Z)
| Elsewhere (c : Command)
| Elapse (ms : N).

Definition owner_keys (owners : list (string * option string)) : list string :=
  (fun o => userJobs o.1 o.2) <$> owners.

Definition spawn (p : Process) (w : World) : World :=
  mkWorld (hash w) (sets w) (processes w ++ [p]).

Definition step (w : World) (e : Event) : World :=
  match e with
  | Write job written owners =>
      let w := mkWorld job (sets w) (processes w) in
      spawn (if written then enter (owner_keys owners) job 0 else Loading (owner_keys owners)) w
  | Silent job => mkWorld job (sets w) (processes w)
  | Heal initial owners => spawn (enter (owner_keys owners) initial 0) w
  | Step pid i =>
      match processes w !! pid with
      | Some p => let '(p', s) := advance i p w in mkWorld (hash w) s (<[pid := p']> (processes w))
      | None => w
      end
  | Fail_ pid =>
      match processes w !! pid with
      | Some (Loading _) | Some (Round _ _ _ _) => mkWorld (hash w) (sets w) (<[pid := GaveUp]> (processes w))
      | _ => w
      end
  | ListHostActions =>
      if decide (terminalHostActionJobs ∈ listed (sets w)) then spawn HostCheck w else w
  | AcknowledgeHostAction expected =>
      match hash w with
      | Some j =>
          if decide (Job.createdAt j = expected)
          then spawn HostForget
                 (mkWorld (Some {| j with Job.terminalHostActionPending := None |}) (sets w) (processes w))
          else w
      | None => w
      end
  | Elsewhere c => mkWorld (hash w) (execute_elsewhere c (sets w)) (processes w)
  | Elapse ms => mkWorld (hash w) (elapse ms (sets w)) (processes w)
  end.
Definition run (events : list Event) (w : World) : World := foldl step w events.
End reconcile.

(** The sets that should list a job: the one of its status, and its user's while it is active or
    its provider runs. *)
Definition wanted (job : option Job.t) : list string :=
  option_list (job_status_key job) ++ option_list (activeUserKey job).

(** A key that some job can want. *)
Definition user_key (key : string) : Prop := exists u t, key = userJobs u t.

(** No change goes unreconciled that lists the job in one more set, and only sets of users are made
    to expire. *)
Fixpoint permitted (userJobsSet : Z) (events : list Event) (w : World) : Prop :=
  match events with
  | [] => True
  | e :: events =>
      match e with
      | Silent job => wanted job ⊆ wanted (hash w)
      | Elsewhere (EXPIRE key) => user_key key
      | _ => True
      end /\
      permitted userJobsSet events (step userJobsSet w e)
  end.

(** The set of a key expires in the course of a run. *)
Fixpoint lapses (userJobsSet : Z) (key : string) (events : list Event) (w : World) : bool :=
  match events with
  | [] => false
  | e :: events =>
      match e, expiries (sets w) !! key with
      | Elapse ms, Some d => (d <=? clock (sets w) + Z.of_N ms)%Z
      | _, _ => false
      end || lapses userJobsSet key events (step userJobsSet w e)
  end.

(** ** What a snapshot lists *)

Lemma wanted_source a b : sameMembershipSource a b = true -> wanted a = wanted b.
Proof.
  destruct a as [a|], b as [b|]; try done. cbn. intros H%bool_decide_eq_true.
  destruct H as (_ & H1 & H2 & H3 & H4). unfold wanted, job_status_key, activeUserKey. cbn.
  by rewrite H1, H2, H3, H4.
Qed.

Definition status_key (key : string) : Prop := key = runningJobs \/ key = requiresActionJobs.

Lemma user_key_apart u t : userJobs u t <> runningJobs /\ userJobs u t <> requiresActionJobs /\
  userJobs u t <> terminalHostActionJobs.
Proof. unfold userJobs. destruct t as [t|]; [case_decide|]; split_and!; discriminate. Qed.

Lemma elem_of_opt {A} (x : A) (o : option A) : x ∈ option_list o <-> o = Some x.
Proof. destruct o; cbn; [rewrite list_elem_of_singleton; naive_solver | rewrite elem_of_nil; naive_solver]. Qed.

Lemma wanted_status key job : status_key key -> key ∈ wanted job <-> job_status_key job = Some key.
Proof.
  intros Hk. unfold wanted. rewrite elem_of_app, !elem_of_opt. split; [|by left]. intros [H|H]; [done|].
  exfalso. unfold activeUserKey in H. destruct job as [j|]; [|done]. cbn in H. case_bool_decide; [|done].
  injection H as H. destruct (user_key_apart (Job.userId j) (Job.tenantId j)) as (? & ? & _).
  by destruct Hk as [-> | ->].
Qed.

Definition listing (key : string) : Prop := status_key key \/ user_key key.

Lemma active_user job key : activeUserKey job = Some key -> user_key key.
Proof.
  unfold activeUserKey. destruct job as [j|]; [|done]. cbn. case_bool_decide; [|done]. intros [= <-]. by eexists _, _.
Qed.
Lemma status_listed job key : job_status_key job = Some key -> status_key key.
Proof. destruct job as [j|]; [|done]. cbn. unfold status_key. destruct (Job.status j); naive_solver. Qed.
Lemma wanted_listing key job : key ∈ wanted job -> listing key.
Proof.
  unfold wanted. rewrite elem_of_app, !elem_of_opt. intros [H|H]; [left; by eapply status_listed | right; by eapply active_user].
Qed.
Lemma user_not_status key : user_key key -> ~ status_key key /\ key <> terminalHostActionJobs.
Proof. intros (u & t & ->). destruct (user_key_apart u t) as (? & ? & ?). split; [by intros [?|?] | done]. Qed.
Lemma listing_not_host key : listing key -> key <> terminalHostActionJobs.
Proof. intros [[-> | ->] | H]; [done | done |]. by apply user_not_status. Qed.

Section commands.
Variable userJobsSet : Z.
Abbreviation commands := (snapshot_commands userJobsSet).

Lemma toggle_spec b key c : c = toggle b key <-> (b = true /\ c = SADD key) \/ (b = false /\ c = SREM key).
Proof. destruct b; naive_solver. Qed.

Lemma in_commands c job observed :
  c ∈ commands job observed <->
  c = toggle (bool_decide (job_status_key job = Some runningJobs)) runningJobs \/
  c = toggle (bool_decide (job_status_key job = Some requiresActionJobs)) requiresActionJobs \/
  c = toggle (owes_host_action job) terminalHostActionJobs \/
  (exists key, c = SREM key /\ Some key <> activeUserKey job /\ key ∈ observed) \/
  exists key, activeUserKey job = Some key /\ (c = SADD key \/ (c = EXPIRE key /\ (0 < userJobsSet)%Z)).
Proof.
  unfold snapshot_commands. rewrite elem_of_app, !elem_of_cons, elem_of_app, list_elem_of_fmap.
  setoid_rewrite list_elem_of_filter.
  assert (Hu : c ∈ match activeUserKey job with
      | Some key => SADD key :: (if decide (0 < userJobsSet)%Z then [EXPIRE key] else [])
      | None => [] end <->
    exists key, activeUserKey job = Some key /\ (c = SADD key \/ (c = EXPIRE key /\ (0 < userJobsSet)%Z))).
  { destruct (activeUserKey job) as [key|]; [|rewrite elem_of_nil; naive_solver].
    rewrite elem_of_cons. case_decide; rewrite ?list_elem_of_singleton, ?elem_of_nil; naive_solver. }
  rewrite Hu. set_solver.
Qed.

(** What is removed is not wanted, what is added is, and what is wanted is added. *)
Lemma removed_unwanted key job observed :
  Forall user_key observed -> listing key -> SREM key ∈ commands job observed -> key ∉ wanted job.
Proof.
  intros Ho Hl. rewrite in_commands, !toggle_spec. unfold wanted. rewrite elem_of_app, !elem_of_opt.
  intros [H|[H|[H|[H|H]]]] Hw.
  - destruct H as [[_ ?] | [Hb [= ->]]]; [done|]. apply bool_decide_eq_false in Hb. destruct Hw as [?|Hw]; [done|].
    apply active_user, user_not_status in Hw as [Hw _]. apply Hw. by left.
  - destruct H as [[_ ?] | [Hb [= ->]]]; [done|]. apply bool_decide_eq_false in Hb. destruct Hw as [?|Hw]; [done|].
    apply active_user, user_not_status in Hw as [Hw _]. apply Hw. by right.
  - destruct H as [[_ ?] | [_ [= ->]]]; [done|]. by apply listing_not_host in Hl.
  - destruct H as (key' & [= <-] & Hne & Hin). destruct Hw as [Hw|Hw]; [|congruence].
    rewrite Forall_forall in Ho. apply Ho, user_not_status in Hin as [Hin _]. apply Hin.
    by eapply status_listed.
  - destruct H as (key' & _ & [? | [? _]]); done.
Qed.

Lemma added_wanted key job observed :
  listing key -> SADD key ∈ commands job observed -> key ∈ wanted job.
Proof.
  intros Hl. rewrite in_commands, !toggle_spec. unfold wanted. rewrite elem_of_app, !elem_of_opt.
  intros [[[Hb [= ->]] | [_ ?]]|[[[Hb [= ->]] | [_ ?]]|[[[_ [= ->]] | [_ ?]]|[(? & ? & _)|(key' & Hk & [[= <-] | [? _]])]]]];
    try done; [apply bool_decide_eq_true in Hb; by left | apply bool_decide_eq_true in Hb; by left
      | by apply listing_not_host in Hl | by right].
Qed.

Lemma wanted_added key job observed : key ∈ wanted job -> SADD key ∈ commands job observed.
Proof.
  unfold wanted. rewrite elem_of_app, !elem_of_opt, in_commands, !toggle_spec. intros [H|H].
  - destruct (status_listed _ _ H) as [-> | ->]; rewrite H; [left | right; left]; left;
      by rewrite bool_decide_true.
  - do 4 right. exists key. by split; [|left].
Qed.

Lemma unwanted_removed key job observed :
  status_key key -> key ∉ wanted job -> SREM key ∈ commands job observed.
Proof.
  intros Hk. rewrite (wanted_status key job Hk), in_commands, !toggle_spec. intros Hn.
  destruct Hk as [-> | ->]; [left | right; left]; right; by rewrite bool_decide_false.
Qed.
End commands.

(** ** The invariant *)

Section invariant.
Variable userJobsSet : Z.
Abbreviation commands := (snapshot_commands userJobsSet).
Abbreviation advance := (advance userJobsSet).
Abbreviation enter := (enter userJobsSet).
Abbreviation execute := (execute userJobsSet).
Abbreviation execute_elsewhere := (execute_elsewhere userJobsSet).

(** The pending commands are of the snapshot, and only keys of users are observed. *)
Definition proc_ok (p : Process) : Prop :=
  match p with
  | Loading observed => Forall user_key observed
  | Round observed current pending _ => Forall user_key observed /\ pending ⊆ commands current observed
  | _ => True
  end.

(** A process that answers for a wanted key whose set does not list the stream, and for a key that
    is not wanted whose set does. *)
Definition answers_missing (key : string) (p : Process) : Prop :=
  match p with
  | Loading _ | GaveUp => True
  | Round _ current pending _ => SADD key ∈ pending \/ key ∉ wanted current
  | _ => False
  end.
Definition answers_stale (key : string) (p : Process) : Prop :=
  match p with
  | Loading _ | GaveUp => True
  | Round _ current pending _ => SREM key ∈ pending \/ key ∈ wanted current
  | _ => False
  end.

Definition answered_by (P : Process -> Prop) (ps : list Process) : Prop := exists n p, ps !! n = Some p /\ P p.

(** Processes are in order, and only sets of users expire. *)
Record sound (w : World) : Prop := {
  so_ok : Forall proc_ok (processes w);
  so_expiring : forall x d, expiries (sets w) !! x = Some d -> user_key x
}.
(** A wanted set that does not list the stream, or a set that should not but does, has somebody who
    answers for it. *)
Definition covered (key : string) (w : World) : Prop :=
  key ∈ wanted (hash w) -> key ∉ listed (sets w) -> answered_by (answers_missing key) (processes w).
Definition exact (key : string) (w : World) : Prop :=
  key ∉ wanted (hash w) -> key ∈ listed (sets w) -> answered_by (answers_stale key) (processes w).

Lemma answered_grow P p ps : answered_by P ps -> answered_by P (ps ++ [p]).
Proof. intros (n & q & Hn & Hq). exists n, q. split; [by apply lookup_app_l_Some | done]. Qed.
Lemma answered_last (P : Process -> Prop) p ps : P p -> answered_by P (ps ++ [p]).
Proof. intros Hp. exists (length ps), p. split; [by rewrite lookup_app_r, Nat.sub_diag by lia | done]. Qed.
Lemma answered_insert (P : Process -> Prop) pid p p' ps :
  ps !! pid = Some p -> (P p -> P p') -> answered_by P ps -> answered_by P (<[pid := p']> ps).
Proof.
  intros Hp Hpp (n & q & Hn & Hq). destruct (decide (n = pid)) as [->|Hne].
  - exists pid, p'. split; [apply list_lookup_insert_eq; by eapply lookup_lt_Some | apply Hpp; congruence].
  - exists n, q. by rewrite list_lookup_insert_ne by done.
Qed.
Lemma answered_here (P : Process -> Prop) pid p p' ps :
  ps !! pid = Some p -> P p' -> answered_by P (<[pid := p']> ps).
Proof.
  intros Hp Hpp. exists pid, p'. split; [apply list_lookup_insert_eq; by eapply lookup_lt_Some | done].
Qed.

Lemma observe_ok observed job : Forall user_key observed -> Forall user_key (addObservedUserKey observed job).
Proof.
  intros Ho. destruct job as [j|]; [|done]. cbn. case_decide; [done|]. unfold sadd. case_decide; [done|].
  apply Forall_app. split; [done|]. apply Forall_singleton. by eexists _, _.
Qed.
Lemma owner_keys_ok owners : Forall user_key (owner_keys owners).
Proof. induction owners; constructor; [by eexists _, _ | done]. Qed.

(** The start of a round from a snapshot of the hash. *)
Lemma enter_sound observed job n : Forall user_key observed -> proc_ok (enter observed job n).
Proof. intros Ho. unfold RedisMembership.enter. case_decide; [|done]. split; [by apply observe_ok | done]. Qed.
Lemma enter_missing key observed job n : answers_missing key (enter observed job n).
Proof.
  unfold RedisMembership.enter. case_decide; [|done]. cbn.
  destruct (decide (key ∈ wanted job)); [left; by apply wanted_added | by right].
Qed.
Lemma enter_stale key observed job n : status_key key -> answers_stale key (enter observed job n).
Proof.
  intros Hk. unfold RedisMembership.enter. case_decide; [|done]. cbn.
  destruct (decide (key ∈ wanted job)); [by right | left; by apply unwanted_removed].
Qed.

Lemma splice_elem {A} i (l : list A) x y : l !! i = Some x -> y ∈ l -> y = x \/ y ∈ splice1 i l.
Proof. intros Hx Hy. rewrite (splice1_perm i l x Hx) in Hy. by apply elem_of_cons. Qed.

Lemma execute_in c key s : key ∈ listed (execute c s) -> key ∉ listed s -> c = SADD key.
Proof.
  destruct c as [k|k|k]; cbn; intros H1 H2; [|set_solver | by case_decide].
  apply elem_of_union in H1 as [->%elem_of_singleton | ?]; done.
Qed.
Lemma execute_out c key s : key ∉ listed (execute c s) -> key ∈ listed s -> c = SREM key.
Proof.
  destruct c as [k|k|k]; cbn; intros H1 H2; [set_solver | | by case_decide].
  destruct (decide (key = k)) as [->|]; [done|]. set_solver.
Qed.
Lemma execute_expiring c s x d :
  expiries (execute c s) !! x = Some d -> is_Some (expiries s !! x) \/ c = EXPIRE x.
Proof.
  destruct c as [k|k|k]; cbn; [by left | |].
  - case_decide; [by left|]. intros [_ Hdel]%lookup_delete_Some. by left.
  - case_decide; [|by left]. cbn. destruct (decide (k = x)) as [->|Hne]; [by right|].
    rewrite lookup_insert_ne by done. by left.
Qed.
Lemma execute_elsewhere_listed c s : listed (execute_elsewhere c s) = listed s.
Proof. destruct c; cbn; [done | done |]. by case_decide. Qed.
Lemma elapse_expiring ms s x d : expiries (elapse ms s) !! x = Some d -> expiries s !! x = Some d.
Proof. by intros [H _]%map_lookup_filter_Some. Qed.

(** Only a set that is due is gone. *)
Lemma elapse_listed ms s key :
  key ∈ listed (elapse ms s) <->
  key ∈ listed s /\ forall d, expiries s !! key = Some d -> (clock s + Z.of_N ms < d)%Z.
Proof.
  cbn. rewrite elem_of_difference, elem_of_dom. split; intros [H1 H2]; split; try done.
  - intros d Hd. destruct (decide (d <= clock s + Z.of_N ms)%Z) as [Hle|]; [|lia]. destruct H2.
    exists d. by apply map_lookup_filter_Some.
  - intros (d & (Hd & Hle)%map_lookup_filter_Some). specialize (H2 d Hd). cbn in Hle. lia.
Qed.

Lemma advance_sound i p w : proc_ok p -> proc_ok (advance i p w).1.
Proof.
  destruct p as [observed|observed current pending n| | | |]; cbn; try done.
  - apply enter_sound.
  - intros [Ho Hp]. destruct (pending !! i) as [c|] eqn:Hc; cbn.
    + split; [done|]. intros x Hx. apply Hp. by eapply splice1_sub.
    + destruct pending; [|done]. cbn. destruct (sameMembershipSource current (hash w)); [done|].
      by apply enter_sound, observe_ok.
  - intros _. by destruct (owes_host_action (hash w)).
Qed.

Lemma advance_missing i p w key :
  proc_ok p -> key ∈ wanted (hash w) -> key ∉ listed (advance i p w).2 ->
  key ∈ listed (sets w) \/ answers_missing key p -> answers_missing key (advance i p w).1.
Proof.
  intros Hok Hw. pose proof (wanted_listing _ _ Hw) as Hl.
  destruct p as [observed|observed current pending n|v| | |]; cbn; try tauto.
  - intros _ _. apply enter_missing.
  - destruct Hok as [Ho Hp]. destruct (pending !! i) as [c|] eqn:Hc; cbn.
    + intros Hout [Hin | [Ha | Hn]]; [| | by right].
      * right. eapply removed_unwanted; [done | done |]. apply Hp. rewrite <- (execute_out _ _ _ Hout Hin).
        by eapply list_elem_of_lookup_2.
      * destruct (splice_elem i pending c (SADD key) Hc Ha) as [<- | ?]; [|by left]. cbn in Hout. set_solver.
    + destruct pending as [|c l]; cbn; [|tauto]. intros Hout [?|[[]%elem_of_nil | Hn]]; [done|].
      destruct (sameMembershipSource current (hash w)) eqn:E; [|apply enter_missing].
      by rewrite (wanted_source _ _ E) in Hn.
  - intros Hout [Hin|[]]. exfalso. apply Hout, elem_of_difference. split; [done|].
    rewrite elem_of_singleton. by apply listing_not_host.
Qed.

Lemma advance_stale i p w key :
  proc_ok p -> status_key key -> key ∉ wanted (hash w) -> key ∈ listed (advance i p w).2 ->
  key ∉ listed (sets w) \/ answers_stale key p -> answers_stale key (advance i p w).1.
Proof.
  intros Hok Hk Hw. assert (Hl : listing key) by (by left).
  destruct p as [observed|observed current pending n|v| | |]; cbn; try tauto.
  - intros _ _. by apply enter_stale.
  - destruct Hok as [Ho Hp]. destruct (pending !! i) as [c|] eqn:Hc; cbn.
    + intros Hin [Hout | [Ha | Hn]]; [| | by right].
      * right. eapply added_wanted; [done|]. apply Hp. rewrite <- (execute_in _ _ _ Hin Hout).
        by eapply list_elem_of_lookup_2.
      * destruct (splice_elem i pending c (SREM key) Hc Ha) as [<- | ?]; [|by left]. cbn in Hin. set_solver.
    + destruct pending as [|c l]; cbn; [|tauto]. intros Hin [?|[[]%elem_of_nil | Hn]]; [done|].
      destruct (sameMembershipSource current (hash w)) eqn:E; [|by apply enter_stale].
      by rewrite (wanted_source _ _ E) in Hn.
  - intros Hin [Hout|[]]. set_solver.
Qed.

(** *** Steps *)

Lemma advance_expiring i p w x d :
  proc_ok p -> expiries (advance i p w).2 !! x = Some d -> is_Some (expiries (sets w) !! x) \/ user_key x.
Proof.
  destruct p as [observed|observed current pending n|v| | |]; cbn; try by left.
  - intros [Ho Hp]. destruct (pending !! i) as [c|] eqn:Hc; cbn; [|by destruct pending; left].
    intros [?| ->]%execute_expiring; [by left|]. right.
    apply list_elem_of_lookup_2, Hp, in_commands in Hc.
    destruct Hc as [Hc|[Hc|[Hc|[(key & ? & _)|(key & Hk & [? | [[= <-] _]])]]]];
      try done; try (apply toggle_spec in Hc as [[_ ?]|[_ ?]]; done). by eapply active_user.
  - intros _. case_decide; [by left|]. intros [_ Hdel]%lookup_delete_Some. by left.
Qed.

Lemma sound_advance pid i p w :
  processes w !! pid = Some p -> sound w ->
  sound (mkWorld (hash w) (advance i p w).2 (<[pid := (advance i p w).1]> (processes w))).
Proof.
  intros Hp [Hok Hx]. pose proof (Forall_lookup_1 _ _ _ _ Hok Hp) as Hpo. split; cbn.
  - by apply Forall_insert, advance_sound.
  - intros x d Hd. by destruct (advance_expiring _ _ _ _ _ Hpo Hd) as [[d' ?%Hx]|].
Qed.

Lemma covered_advance key pid i p w :
  processes w !! pid = Some p -> sound w -> covered key w ->
  covered key (mkWorld (hash w) (advance i p w).2 (<[pid := (advance i p w).1]> (processes w))).
Proof.
  intros Hp [Hok _] Hm Hw Hout. pose proof (Forall_lookup_1 _ _ _ _ Hok Hp) as Hpo. cbn in *.
  destruct (decide (key ∈ listed (sets w))) as [Hin|Hin].
  - eapply answered_here; [done|]. apply advance_missing; auto.
  - eapply answered_insert; [done | | by apply Hm]. intros Ha. apply advance_missing; auto.
Qed.

Lemma exact_advance key pid i p w :
  status_key key -> processes w !! pid = Some p -> sound w -> exact key w ->
  exact key (mkWorld (hash w) (advance i p w).2 (<[pid := (advance i p w).1]> (processes w))).
Proof.
  intros Hk Hp [Hok _] He Hw Hin. pose proof (Forall_lookup_1 _ _ _ _ Hok Hp) as Hpo. cbn in *.
  destruct (decide (key ∈ listed (sets w))) as [Hs|Hs].
  - eapply answered_insert; [done | | by apply He]. intros Ha. apply advance_stale; auto.
  - eapply answered_here; [done|]. apply advance_stale; auto.
Qed.

(** *** Events *)

Definition event_ok (w : World) (e : Event) : Prop :=
  match e with
  | Silent job => wanted job ⊆ wanted (hash w)
  | Elsewhere (EXPIRE key) => user_key key
  | _ => True
  end.

Lemma sound_spawn job w p :
  sound w -> proc_ok p -> sound (mkWorld job (sets w) (processes w ++ [p])).
Proof. intros [Hok Hx] Hp. split; [|done]. apply Forall_app. by split; [|apply Forall_singleton]. Qed.

Lemma membership_sound_step e w : event_ok w e -> sound w -> sound (step userJobsSet w e).
Proof.
  intros He Hs. pose proof Hs as [Hok Hx].
  destruct e as [job written owners|job|initial owners|pid i|pid| |created|c|ms]; cbn.
  - destruct written; (apply sound_spawn; [done|]); [by apply enter_sound, owner_keys_ok | by apply owner_keys_ok].
  - by split.
  - apply sound_spawn; [done|]. by apply enter_sound, owner_keys_ok.
  - destruct (processes w !! pid) as [p|] eqn:Hp; [|done].
    pose proof (sound_advance pid i p w Hp Hs) as H. by destruct (advance i p w).
  - destruct (processes w !! pid) as [[]|] eqn:Hp; try done; (split; [by apply Forall_insert | done]).
  - case_decide; [by apply sound_spawn | done].
  - destruct (hash w) as [j|]; [|done]. case_decide; [by apply sound_spawn | done].
  - split; [done|]. cbn. intros x d [[d' ?]| ->]%execute_expiring; [by eapply Hx | done].
  - split; [done|]. intros x d Hd. by eapply Hx, elapse_expiring.
Qed.

Lemma covered_spawn key job w p :
  (covered key (mkWorld job (sets w) (processes w)) \/ answers_missing key p) ->
  covered key (mkWorld job (sets w) (processes w ++ [p])).
Proof. intros [H|H] Hw Hout; [by apply answered_grow, H | by apply answered_last]. Qed.

(** The set of the key does not expire in a step. *)
Definition kept (key : string) (w : World) (e : Event) : Prop :=
  match e with
  | Elapse ms => forall d, expiries (sets w) !! key = Some d -> (clock (sets w) + Z.of_N ms < d)%Z
  | _ => True
  end.

Lemma covered_step key e w :
  event_ok w e -> kept key w e -> sound w -> covered key w -> covered key (step userJobsSet w e).
Proof.
  intros He Hkept Hs Hm.
  destruct e as [job written owners|job|initial owners|pid i|pid| |created|c|ms]; cbn.
  - destruct written; apply covered_spawn; right; [apply enter_missing | done].
  - intros Hw. apply Hm. by apply He.
  - apply covered_spawn. left. by destruct w.
  - destruct (processes w !! pid) as [p|] eqn:Hp; [|done].
    pose proof (covered_advance key pid i p w Hp Hs Hm) as H. by destruct (advance i p w).
  - destruct (processes w !! pid) as [[]|] eqn:Hp; try done; intros _ _; by eapply answered_here.
  - case_decide; [|done]. apply covered_spawn. left. by destruct w.
  - destruct (hash w) as [j|] eqn:Hj; [|done]. case_decide; [|done].
    apply covered_spawn. left. intros Hw. apply Hm. by rewrite Hj.
  - intros Hw Hout. apply Hm; [done|]. by rewrite <- (execute_elsewhere_listed c).
  - intros Hw Hout. apply Hm; [done|]. intros Hin. apply Hout, elapse_listed. by split.
Qed.

Lemma exact_step key e w :
  status_key key -> match e with Silent _ => False | _ => True end ->
  sound w -> exact key w -> exact key (step userJobsSet w e).
Proof.
  intros Hk He Hs Hx. destruct e as [job written owners|job|initial owners|pid i|pid| |created|c|ms]; cbn; [|done|..].
  - intros _ _. cbn. apply answered_last. destruct written; [by apply enter_stale | done].
  - intros Hw Hin. by apply answered_grow, Hx.
  - destruct (processes w !! pid) as [p|] eqn:Hp; [|done].
    pose proof (exact_advance key pid i p w Hk Hp Hs Hx) as H. by destruct (advance i p w).
  - destruct (processes w !! pid) as [[]|] eqn:Hp; try done; intros Hw Hin; by eapply answered_here.
  - case_decide; [|done]. intros Hw Hin. by apply answered_grow, Hx.
  - destruct (hash w) as [j|] eqn:Hj; [|done]. case_decide; [|done]. intros Hw Hin.
    apply answered_grow, Hx; [by rewrite Hj | done].
  - intros Hw Hin. apply Hx; [done|]. by rewrite <- (execute_elsewhere_listed c).
  - intros Hw [Hin _]%elapse_listed. by apply Hx.
Qed.

(** *** Runs *)

Lemma lapses_kept key e events w :
  lapses userJobsSet key (e :: events) w = false ->
  kept key w e /\ lapses userJobsSet key events (step userJobsSet w e) = false.
Proof.
  cbn [lapses]. intros [H ->]%orb_false_iff. split; [|done]. destruct e; try done. intros d Hd. rewrite Hd in H. lia.
Qed.

(** The sets of running and of paused jobs do not expire. *)
Lemma status_stays key events w :
  status_key key -> permitted userJobsSet events w -> sound w -> lapses userJobsSet key events w = false.
Proof.
  intros Hk. revert w. induction events as [|e events IH]; intros w Hp Hs; [done|]. destruct Hp as [He Hp].
  cbn [lapses]. rewrite IH; [|done | by apply membership_sound_step]. rewrite orb_false_r. destruct e; try done.
  destruct (expiries (sets w) !! key) as [d|] eqn:Hd; [|done].
  apply (so_expiring _ Hs), user_not_status in Hd as [Hd _]. done.
Qed.

Lemma covered_run key events w :
  permitted userJobsSet events w -> lapses userJobsSet key events w = false ->
  sound w -> covered key w -> covered key (run userJobsSet events w).
Proof.
  revert w. induction events as [|e events IH]; intros w Hp Hl Hs Hc; [done|]. destruct Hp as [He Hp].
  apply lapses_kept in Hl as [Hk Hl]. apply IH; [done | done | by apply membership_sound_step | by apply covered_step].
Qed.
Lemma exact_run key events w :
  status_key key -> (forall job, Silent job ∉ events) -> permitted userJobsSet events w ->
  sound w -> exact key w -> exact key (run userJobsSet events w).
Proof.
  intros Hk. revert w. induction events as [|e events IH]; intros w Hq Hp Hs Hx; [done|].
  destruct Hp as [He Hp]. apply IH; [| done | by apply membership_sound_step |].
  - intros job Hj. apply (Hq job). by right.
  - apply exact_step; try done. destruct e as [| job | | | | | | |]; try done. apply (Hq job). by left.
Qed.

(** *** How long a set lives *)

(** A set expires no sooner than it was to expire at the start, or than [userJobsSet] seconds later. *)
Definition not_before (t : Z) (w : World) (key : string) : Prop :=
  (t <= clock (sets w) + userJobsSet * 1000)%Z /\
  forall d, expiries (sets w) !! key = Some d -> (t <= d)%Z.

Lemma execute_not_before t key c s d :
  (t <= clock s + userJobsSet * 1000)%Z -> (forall d, expiries s !! key = Some d -> (t <= d)%Z) ->
  expiries (execute c s) !! key = Some d -> (t <= d)%Z.
Proof.
  intros Ht Hd. destruct c as [k|k|k]; cbn; [apply Hd | |].
  - case_decide; [apply Hd|]. intros [_ Hdel]%lookup_delete_Some. by apply Hd.
  - case_decide; [|apply Hd]. cbn. destruct (decide (k = key)) as [->|Hne].
    + rewrite lookup_insert_eq. by intros [= <-].
    + rewrite lookup_insert_ne by done. apply Hd.
Qed.
Lemma execute_clock c s : clock (execute c s) = clock s.
Proof. destruct c; cbn; [done | done |]. by case_decide. Qed.

Lemma step_not_before t key e w : not_before t w key -> not_before t (step userJobsSet w e) key.
Proof.
  intros [Ht Hd]. destruct e as [job written owners|job|initial owners|pid i|pid| |created|c|ms]; cbn; try by split.
  - destruct (processes w !! pid) as [p|]; [|by split].
    destruct p as [observed|observed current pending n|v| | |]; cbn; try by split.
    + destruct (pending !! i) as [c|]; cbn; [|by destruct pending; split].
      split; cbn; [by rewrite execute_clock | intros d; by apply execute_not_before].
    + split; cbn; [done|]. intros d. by apply (execute_not_before t key (SREM terminalHostActionJobs)).
  - destruct (processes w !! pid) as [[]|]; by split.
  - case_decide; by split.
  - destruct (hash w) as [j|]; [|by split]. case_decide; by split.
  - split; cbn; [rewrite execute_clock; exact Ht|]. intros d. by apply execute_not_before.
  - split; [cbn; lia|]. intros d Hd'. apply Hd. exact (elapse_expiring ms (sets w) key d Hd').
Qed.

Lemma clock_step e w : (clock (sets w) <= clock (sets (step userJobsSet w e)))%Z.
Proof.
  destruct e as [job written owners|job|initial owners|pid i|pid| |created|c|ms]; cbn; try lia.
  - destruct (processes w !! pid) as [p|]; [|done].
    destruct p as [observed|observed current pending n|v| | |]; cbn; try done.
    destruct (pending !! i) as [c|]; cbn; [by rewrite execute_clock | by destruct pending].
  - by destruct (processes w !! pid) as [[]|].
  - by case_decide.
  - destruct (hash w) as [j|]; [|done]. by case_decide.
  - rewrite execute_clock. cbn. lia.
Qed.
Lemma clock_run events w : (clock (sets w) <= clock (sets (run userJobsSet events w)))%Z.
Proof.
  revert w. induction events as [|e events IH]; intros w; [done|]. etrans; [apply (clock_step e) | apply IH].
Qed.

Lemma short_runs_keep t key events w :
  not_before t w key -> (clock (sets (run userJobsSet events w)) < t)%Z ->
  lapses userJobsSet key events w = false.
Proof.
  revert w. induction events as [|e events IH]; intros w Hn Hc; [done|]. cbn [lapses].
  rewrite (IH (step userJobsSet w e)); [|by apply step_not_before | done]. rewrite orb_false_r.
  destruct e; try done. destruct (expiries (sets w) !! key) as [d|] eqn:Hd; [|done].
  apply (proj2 Hn) in Hd. pose proof (clock_run events (step userJobsSet w (Elapse ms))) as H.
  change (clock (sets w) + Z.of_N ms <= clock (sets (run userJobsSet events (step userJobsSet w (Elapse ms)))))%Z in H.
  change (clock (sets (run userJobsSet events (step userJobsSet w (Elapse ms)))) < t)%Z in Hc. lia.
Qed.
End invariant.

(** ** Convergence *)

Definition returned (p : Process) : Prop := match p with Settled _ => True | _ => False end.

Lemma nothing_answers P ps :
  (forall p, returned p -> ~ P p) -> Forall returned ps -> ~ answered_by P ps.
Proof. intros HP Hr (n & p & Hn & Hp). exact (HP p (Forall_lookup_1 _ _ _ _ Hr Hn) Hp). Qed.

(** C12. The membership sets converge.  Scripts write the job and their methods reconcile the sets,
    other callers reconcile from jobs that they read long ago, the commands of all of them and of
    other streams land one by one, in any order within a round, jobs expire and providers drain with
    nobody reconciling, sets of users expire: once every reconciliation has returned and none has
    given up, a running job is in the running set and a paused one in the set of paused jobs; either,
    as well as a job whose provider has not drained, is in the set of its user unless that set
    expired in the course of the run, which it does no sooner than it was due at the start or
    [userJobsSet] seconds later.  When no change went unreconciled, the two status sets list nothing else. *)
Theorem membership_converges userJobsSet events w
    (Hp : processes w = []) (Hw : forall key, key ∈ wanted (hash w) -> key ∈ listed (sets w))
    (Hx : forall key d, expiries (sets w) !! key = Some d -> user_key key)
    (Hc : permitted userJobsSet events w) (Hd : Forall returned (processes (run userJobsSet events w))) :
  let w' := run userJobsSet events w in
  (forall key, key ∈ wanted (hash w') -> key ∈ listed (sets w') \/
     user_key key /\ lapses userJobsSet key events w = true) /\
  (forall key t, lapses userJobsSet key events w = true ->
     (forall d, expiries (sets w) !! key = Some d -> (t <= d)%Z) ->
     (t <= clock (sets w) + userJobsSet * 1000)%Z -> (t <= clock (sets w'))%Z) /\
  ((forall job, Silent job ∉ events) ->
   (forall key, status_key key -> key ∈ listed (sets w) -> key ∈ wanted (hash w)) ->
   forall key, status_key key -> key ∈ listed (sets w') -> job_status_key (hash w') = Some key).
Proof.
  assert (H0 : sound userJobsSet w) by (split; [by rewrite Hp | done]).
  intros w'. split_and!.
  - intros key Hk. destruct (decide (key ∈ listed (sets w'))) as [|Hn]; [by left|]. right.
    assert (Hl : lapses userJobsSet key events w = true).
    { destruct (lapses userJobsSet key events w) eqn:Hl; [done|]. exfalso.
      assert (H1 : covered key w) by (intros Hk1 Hn1; by apply Hw in Hk1).
      refine (nothing_answers _ _ _ Hd (covered_run userJobsSet key events w Hc Hl H0 H1 Hk Hn)).
      intros []; cbn; tauto. }
    split; [|done]. destruct (wanted_listing _ _ Hk) as [Hs|]; [|done].
    by rewrite (status_stays userJobsSet key events w Hs Hc H0) in Hl.
  - intros key t Hl Ht Hc0. destruct (decide (t <= clock (sets w'))%Z) as [|Hlt]; [done|].
    rewrite (short_runs_keep userJobsSet t key events w) in Hl; [done | by split | fold w'; lia].
  - intros Hs Hs' key Hk Hin. apply wanted_status; [done|].
    destruct (decide (key ∈ wanted (hash w'))) as [|Hn]; [done|]. exfalso.
    assert (H2 : exact key w) by (intros Hn' Hin'; by apply Hs' in Hin').
    refine (nothing_answers _ _ _ Hd (exact_run userJobsSet key events w Hk Hs Hc H0 H2 Hn Hin)).
    intros []; cbn; tauto.
Qed.

(** ** Evaluated runs *)

Module MembershipDemo.
Definition job (created : Z) (st : JobStatus) (pending : option bool) : option Job.t :=
  Some (Job.mk "s1" "u1" None st created (Some V2) None None None None None None None None None None false None
          pending None None None None None None None [] None None None).

(** All commands of a round in order, and the read that follows. *)
Definition finish (pid commands : nat) : list Event := replicate (S commands) (Step pid 0).

(** A run pauses while the reconciliation of its start, with the job it wrote, is late: its
    commands land after those of the pause, in another order, and it repairs what it broke. *)
Definition late : list Event :=
  [Write (job 10 running None) true []; Step 0 1; Write (job 10 requires_action None) false [];
   Step 1 0] ++ finish 1 5 ++ [Step 0 3; Step 0 0] ++ finish 0 2 ++ [Step 0 4] ++ finish 0 4.
Definition empty : World := mkWorld None (mkSets ∅ ∅ ∅ 0) [].

(** A run pauses for a review; a day and a second later the set of its user is gone, while the
    job, whose review is due in two days, is still paused and nobody has a reason to reconcile. *)
Definition forgetful : list Event :=
  [Write (job 10 requires_action None) true []] ++ finish 0 5 ++ [Elapse 86401000].

(** A listing of the jobs that owe a host action finds the stream in the set, which the new
    generation has not left yet, and removes it when that generation owes one itself. *)
Definition forgotten : list Event :=
  [Write (job 20 running None) true []; ListHostActions; Step 1 0] ++ finish 0 5 ++
  [Write (job 20 aborted (Some true)) false [("u1", None)]; Step 2 0] ++ finish 2 4 ++ [Step 1 0].
Definition owing : World := mkWorld (job 10 aborted (Some true)) (mkSets {[terminalHostActionJobs]} ∅ ∅ 0) [].
Definition busy : list Event := late ++ [Silent (job 10 requires_action (Some false)); Elapse 3600000].
End MembershipDemo.

Example late_reconciliation_repairs :
  listed (sets (run 86400 MembershipDemo.late MembershipDemo.empty)) =
  {[requiresActionJobs; userJobs "u1" None]}.
Proof. apply (bool_decide_unpack _). by vm_compute. Qed.

(** The raw removal of a stale entry loses a job that owes a host action: nobody reconciles after
    it, and no later listing enumerates the job. *)
Example listing_forgets_a_host_action :
  let w := run 86400 MembershipDemo.forgotten MembershipDemo.owing in
  owes_host_action (hash w) = true /\ listed (sets w) = ∅ /\ forallb (fun p => match p with Settled _ => true | _ => false end) (processes w) = true.
Proof. by vm_compute. Qed.

(** The set of the user expires under a job that stays paused. *)
Example paused_job_leaves_its_user :
  let w := run 86400 MembershipDemo.forgetful MembershipDemo.empty in
  job_status_key (hash w) = Some requiresActionJobs /\ listed (sets w) = {[requiresActionJobs]}.
Proof. split; [done|]. apply (bool_decide_unpack _). by vm_compute. Qed.

Lemma membership_converges_witness :
  (requiresActionJobs ∈ listed (sets (run 86400 MembershipDemo.busy MembershipDemo.empty)) \/
   user_key requiresActionJobs /\
   lapses 86400 requiresActionJobs MembershipDemo.busy MembershipDemo.empty = true) /\
  lapses 86400 (userJobs "u1" None) MembershipDemo.busy MembershipDemo.empty = false.
Proof.
  split; [|by vm_compute]. apply (membership_converges 86400 MembershipDemo.busy MembershipDemo.empty).
  - reflexivity.
  - by intros key Hk%elem_of_nil.
  - by intros key d Hd.
  - vm_compute. repeat split. by intros key Hk.
  - vm_compute. repeat constructor.
  - apply (bool_decide_unpack _). by vm_compute.
Defined.
