(* ===== verification/Sse.v ===== *)
(** * The desktop stream transport ([client/tempest/stream/TempestSSE.ts])

    An object with the interface of an event source, fed by host events.  It subscribes first,
    holds what the live feed pushes until the replayed page of the ledger is delivered, then
    releases it.  Every method runs without [await] except [attach], whose continuation point is
    part of the state ([Attach]); the host and the client act through the inputs of [step].  What
    a listener does when it is called is a parameter: it may call [close()].  Listeners do not
    throw. *)

From Stdlib Require Import Ascii.
From S2P Require Import Prelude JsMap Json.

(** ** Frames and pushes *)

(** [StreamFrame] *)
Module StreamFrame.
Record t := mk { seq : Z; frame_json : jtext }.
End StreamFrame.

#[export] Instance StreamFrame_eq_dec : EqDecision StreamFrame.t.
Proof. solve_decision. Defined.

(** [StreamPush] *)
Module StreamPush.
Record t := mk { stream_id : string; status : string; events : list StreamFrame.t }.
End StreamPush.

(** What is emitted; [Message f] is [emit("message", f.frame_json)]. *)
Inductive Event :=
| Opened
| Message (f : StreamFrame.t)
| Errored (message : string)
| Aborted.

Definition event_type (e : Event) : string :=
  match e with Opened => "open" | Message _ => "message" | Errored _ => "error" | Aborted => "abort" end.

(** ** The stream id *)

Definition hex_digit (c : ascii) : option Z :=
  let n := Z.of_nat (nat_of_ascii c) in
  if decide (48 <= n <= 57)%Z then Some (n - 48)%Z
  else if decide (65 <= n <= 70)%Z then Some (n - 55)%Z
  else if decide (97 <= n <= 102)%Z then Some (n - 87)%Z
  else None.

(** The bytes of a string, each escape [%XX] replaced by its byte and marked; [None] when an
    escape is malformed. *)
Fixpoint unescape (l : list ascii) : option (list (bool * Z)) :=
  match l with
  | [] => Some []
  | c :: rest =>
      if decide (c = "%"%char) then
        match rest with
        | h :: l :: rest' =>
            match hex_digit h, hex_digit l, unescape rest' with
            | Some h, Some l, Some r => Some ((true, 16 * h + l)%Z :: r)
            | _, _, _ => None
            end
        | _ => None
        end
      else (fun r => (false, Z.of_nat (nat_of_ascii c)) :: r) <$> unescape rest
  end.

(** How many continuation bytes follow an escaped first byte, with the code point bits it holds
    and the least code point of that length. *)
Definition utf8_lead (b : Z) : option (nat * Z * Z) :=
  if decide (b < 128)%Z then Some (0, b, 0%Z)
  else if decide (192 <= b < 224)%Z then Some (1, Z.land b 31, 128%Z)
  else if decide (224 <= b < 240)%Z then Some (2, Z.land b 15, 2048%Z)
  else if decide (240 <= b < 248)%Z then Some (3, Z.land b 7, 65536%Z)
  else None.

(** Continuation bytes must be escaped as well. *)
Fixpoint utf8_tail (n : nat) (code : Z) (l : list (bool * Z)) : option (Z * list (bool * Z)) :=
  match n with
  | O => Some (code, l)
  | S n =>
      match l with
      | (true, b) :: rest =>
          if decide (128 <= b < 192)%Z then utf8_tail n (64 * code + Z.land b 63)%Z rest else None
      | _ => None
      end
  end.

(** Every escaped sequence is a well-formed UTF-8 character. *)
Fixpoint utf8_ok (fuel : nat) (l : list (bool * Z)) : bool :=
  match fuel with
  | O => false
  | S fuel =>
      match l with
      | [] => true
      | (false, _) :: rest => utf8_ok fuel rest
      | (true, b) :: rest =>
          match utf8_lead b with
          | None => false
          | Some (n, code, least) =>
              match utf8_tail n code rest with
              | None => false
              | Some (code, rest') =>
                  bool_decide (least <= code <= 1114111 /\ ~ (55296 <= code <= 57343))%Z &&
                  utf8_ok fuel rest'
              end
          end
      end
  end.

(** [decodeURIComponent], [None] when it throws; strings are their UTF-8 bytes. *)
Definition decodeURIComponent (s : string) : option string :=
  match unescape (String.list_ascii_of_string s) with
  | Some l =>
      if utf8_ok (S (length l)) l
      then Some (String.string_of_list_ascii ((fun b => ascii_of_nat (Z.to_nat b.2)) <$> l))
      else None
  | None => None
  end.

(** [s.split(sep)] and the part of a text before the first [sep]. *)
Fixpoint split_on (sep : ascii) (l : list ascii) : list (list ascii) :=
  match l with
  | [] => [[]]
  | c :: rest =>
      if decide (c = sep) then [] :: split_on sep rest
      else match split_on sep rest with
           | [] => [[c]]
           | seg :: segs => (c :: seg) :: segs
           end
  end.
Definition before (sep : ascii) (l : list ascii) : list ascii := hd [] (split_on sep l).

(** The last non-empty path segment of the URL, without its query. *)
Definition last_segment (url : string) : string :=
  String.string_of_list_ascii
    (default [] (last (filter (fun seg => seg <> [])
       (split_on "/" (before "?" (String.list_ascii_of_string url)))))).

Definition streamId_of_url (url : string) : option string := decodeURIComponent (last_segment url).

(** ** The transport *)

Definition INITIALIZING : Z := -1.
Definition CONNECTING : Z := 0.
Definition OPEN : Z := 1.
Definition CLOSED : Z := 2.

(** Where [attach] is: not called, waiting for the host loader, for the subscription, for the
    page (asked from a cursor), or finished. *)
Inductive Attach := Idle | Loading | Subscribing | Replaying (after : Z) | Settled.

(** The fields of the class, with the continuation point of [attach], the host subscriptions
    alive ([feeds]) and the [emit] calls made so far with the listeners each one reached. *)
Record Sse := {
  readyState : Z;
  streamId : string;
  listeners : jsmap (list nat);
  delivered : list Z;
  highWater : Z;
  subscribed : bool;
  primed : bool;
  held : list StreamPush.t;
  closed : bool;
  attach_at : Attach;
  feeds : nat;
  log : list (list nat * Event)
}.

(** [new TempestSSE(url, options)]; [None] when the id cannot be decoded. *)
Definition fresh (id : string) : Sse :=
  Build_Sse INITIALIZING id [] [] 0 false false [] false Idle 0 [].
Definition newSse (url : string) : option Sse := fresh <$> streamId_of_url url.

Definition addEventListener (type : string) (listener : nat) (s : Sse) : Sse :=
  {| s with listeners :=
       mset (listeners s) type (default [] (mget (listeners s) type) ++ [listener]) |}.

Definition removeEventListener (type : string) (listener : nat) (s : Sse) : Sse :=
  {| s with listeners :=
       mset (listeners s) type
         (filter (fun l => l <> listener) (default [] (mget (listeners s) type))) |}.

(** The continuation point of [attach]. *)
Definition with_attach (a : Attach) (s : Sse) : Sse := {| s with attach_at := a |}.

Definition detach (s : Sse) : Sse :=
  {| s with closed := true; readyState := CLOSED; held := []; subscribed := false;
     feeds := if subscribed s then pred (feeds s) else feeds s |}.

(** The subscription is there and the stream is open. *)
Definition opened (s : Sse) : Sse :=
  {| s with subscribed := true; feeds := S (feeds s); readyState := OPEN |}.

(** Whether a frame ends the stream: [JSON.parse(frame_json).final === true]. *)
Definition terminal_frame (f : StreamFrame.t) : bool :=
  match JSON_parse (StreamFrame.frame_json f) with
  | Some v => bool_decide (jfield v "final" = Some (JBool true))
  | None => false
  end.

Section client.
(** What a listener does when it is called: [true] when it calls [close()]. *)
Variable closes : nat -> Event -> bool.

(** The loop of [emit] over the listeners present at the call, [close] being what [k] does. *)
Definition notify (k : Sse -> Sse) (e : Event) (s : Sse) : Sse :=
  let to := default [] (mget (listeners s) (event_type e)) in
  foldl (fun s l => if closes l e then k s else s) {| s with log := log s ++ [(to, e)] |} to.

(** [close()]; inside the listeners of [abort], a further [close()] returns at once. *)
Definition close (s : Sse) : Sse :=
  if closed s then s else notify (fun s => s) Aborted (detach s).

Definition emit (e : Event) (s : Sse) : Sse := notify close e s.

Definition fail (message : string) (s : Sse) : Sse :=
  if closed s then s else emit (Errored message) (detach s).

(** The loop of [deliver] over the ordered frames; [true] when a terminal frame ended it. *)
Fixpoint deliver_frames (l : list StreamFrame.t) (s : Sse) : Sse * bool :=
  match l with
  | [] => (s, false)
  | f :: l' =>
      if decide (StreamFrame.seq f ∈ delivered s) then deliver_frames l' s
      else
        let s1 := {| s with delivered := delivered s ++ [StreamFrame.seq f];
                     highWater := Z.max (highWater s) (StreamFrame.seq f) |} in
        let s2 := emit (Message f) s1 in
        if terminal_frame f then (detach s2, true) else deliver_frames l' s2
  end.

Definition ended_message (status : string) : string :=
  if decide (status = "error")
  then "the live stream stopped: the host gave up waiting for the engine"
  else "the turn ended without a final frame (" +:+ status +:+ ")".

Definition deliver (push : StreamPush.t) (s : Sse) : Sse :=
  if closed s || negb (bool_decide (StreamPush.stream_id push = streamId s)) then s
  else
    let '(s', ended) := deliver_frames (sort_on StreamFrame.seq (StreamPush.events push)) s in
    if ended then s'
    else if bool_decide (StreamPush.status push <> "active" /\ StreamPush.events push = [])
    then fail (ended_message (StreamPush.status push)) s'
    else s'.

Definition receive (push : StreamPush.t) (s : Sse) : Sse :=
  if primed s then deliver push s else {| s with held := held s ++ [push] |}.

(** The part of a held push that the page does not cover. *)
Definition uncovered (covered : Z) (push : StreamPush.t) : StreamPush.t :=
  {| push with StreamPush.events :=
       filter (fun f => covered < StreamFrame.seq f)%Z (StreamPush.events push) |}.

Definition release (s : Sse) : Sse :=
  foldl (fun s' push => deliver (uncovered (highWater s) push) s')
    {| s with primed := true; held := [] |} (held s).

(** [stream()] *)
Definition stream (s : Sse) : Sse :=
  if decide (readyState s = INITIALIZING)
  then {| s with readyState := CONNECTING; attach_at := Loading |} else s.

(** The continuation of [attach] once the subscription is there. *)
Definition attach_listened (s : Sse) : Sse :=
  if closed s then with_attach Settled s
  else
    let s1 := emit Opened (opened s) in
    with_attach (Replaying (highWater s1)) s1.

(** The continuation of [attach] once the page is there. *)
Definition attach_page (page : StreamPush.t) (s : Sse) : Sse :=
  with_attach Settled (if closed s then s else release (deliver page s)).

(** The [catch] of [attach]. *)
Definition attach_rejected (message : string) (s : Sse) : Sse :=
  with_attach Settled (fail message (release s)).

(** What the client and the host do. *)
Inductive Input :=
| CallStream
| CallClose
| AddListener (type : string) (listener : nat)
| RemoveListener (type : string) (listener : nat)
| HostLoaded
| Listened
| Push (push : StreamPush.t)
| Page (page : StreamPush.t)
| Rejected (message : string).

Definition step (s : Sse) (i : Input) : Sse :=
  match i with
  | CallStream => stream s
  | CallClose => close s
  | AddListener t l => addEventListener t l s
  | RemoveListener t l => removeEventListener t l s
  | Push p => receive p s
  | HostLoaded =>
      match attach_at s with Loading => with_attach Subscribing s | _ => s end
  | Listened => match attach_at s with Subscribing => attach_listened s | _ => s end
  | Page p => match attach_at s with Replaying _ => attach_page p s | _ => s end
  | Rejected m =>
      match attach_at s with
      | Loading | Subscribing | Replaying _ => attach_rejected m s
      | _ => s
      end
  end.

Definition run (inputs : list Input) (s : Sse) : Sse := foldl step s inputs.
End client.
