(* ===== verification/SseRuns.v ===== *)
(** * Runs of the desktop stream transport

    What a client of the transport may rely on, whatever the host and the listeners do: each frame
    is shown once, none is lost while the stream is open, and a closed stream is silent. *)

From S2P Require Import Prelude JsMap Json Sse.

(** ** Invariants *)

(** The sequence numbers shown to the client, in order. *)
Definition message_seq (e : list nat * Event) : option Z :=
  match e.2 with Message f => Some (StreamFrame.seq f) | _ => None end.
Definition messages (s : Sse) : list Z := omap message_seq (log s).

(** What [detach], [close], [fail] and [emit] leave alone. *)
Definition cursor (s : Sse) := (streamId s, delivered s, highWater s, primed s, attach_at s).

Record sound (s : Sse) : Prop := {
  so_closed : closed s = true -> readyState s = CLOSED /\ subscribed s = false;
  so_feeds : feeds s = Nat.b2n (subscribed s);
  so_seen : messages s = delivered s;
  so_nodup : NoDup (delivered s)
}.

(** [attach] runs once, and holds no subscription before the host gives it one. *)
Record placed (s : Sse) : Prop := {
  pl_pending : attach_at s = Idle \/ attach_at s = Loading \/ attach_at s = Subscribing ->
               subscribed s = false;
  pl_init : readyState s = INITIALIZING -> attach_at s = Idle
}.

Section runs.
Variable closes : nat -> Event -> bool.

Lemma notify_inv (P : Sse -> Prop) k e s :
  (forall to, P {| s with log := log s ++ [(to, e)] |}) -> (forall s, P s -> P (k s)) ->
  P (notify closes k e s).
Proof.
  intros Hlog Hk. unfold notify. set (to := default [] _).
  specialize (Hlog to). revert Hlog. generalize {| s with log := log s ++ [(to, e)] |}.
  induction to as [|l to IH]; intros s0 H0; simpl; [done|]. apply IH. destruct (closes l e); auto.
Qed.

Lemma close_inv (P : Sse -> Prop) s :
  P s -> (forall s, P s -> P (detach s)) ->
  (forall s to, P s -> P {| s with log := log s ++ [(to, Aborted)] |}) -> P (close closes s).
Proof.
  intros Hs Hd Hl. unfold close. destruct (closed s); [done|]. apply notify_inv; auto.
Qed.

Lemma emit_inv (P : Sse -> Prop) e s :
  (forall to, P {| s with log := log s ++ [(to, e)] |}) -> (forall s, P s -> P (detach s)) ->
  (forall s to, P s -> P {| s with log := log s ++ [(to, Aborted)] |}) -> P (emit closes e s).
Proof.
  intros Hs Hd Hl. unfold emit. apply notify_inv; [done|]. intros s0 Hs0. by apply close_inv.
Qed.

Lemma emit_cursor e s : cursor (emit closes e s) = cursor s.
Proof.
  apply (emit_inv (fun s' => cursor s' = cursor s)); [done | by intros s0 <- | by intros s0 to <-].
Qed.
Lemma close_cursor s : cursor (close closes s) = cursor s.
Proof.
  apply (close_inv (fun s' => cursor s' = cursor s)); [done | by intros s0 <- | by intros s0 to <-].
Qed.
Lemma fail_cursor m s : cursor (fail closes m s) = cursor s.
Proof. unfold fail. destruct (closed s); [done|]. by rewrite emit_cursor. Qed.

(** A closed stream stays closed and silent. *)
Lemma emit_closed e s : closed s = true -> closed (emit closes e s) = true.
Proof. intros H. by apply (emit_inv (fun s => closed s = true)). Qed.

Lemma fail_closed m s : closed (fail closes m s) = true.
Proof.
  unfold fail. destruct (closed s) eqn:Hc; [done|]. by apply emit_closed.
Qed.

Lemma deliver_frames_closed l s :
  closed s = true -> closed (deliver_frames closes l s).1 = true.
Proof.
  revert s. induction l as [|f l IH]; intros s Hc; simpl; [done|]. destruct (decide _); [by apply IH|].
  destruct (terminal_frame f); [done|]. by apply IH, emit_closed.
Qed.

Lemma deliver_when_closed p s : closed s = true -> deliver closes p s = s.
Proof. unfold deliver. by intros ->. Qed.

Lemma deliver_closed p s : closed s = true -> closed (deliver closes p s) = true.
Proof. intros H. by rewrite deliver_when_closed. Qed.

Lemma release_when_closed s :
  closed s = true -> release closes s = {| s with primed := true; held := [] |}.
Proof.
  intros H. unfold release.
  assert (Hs : closed {| s with primed := true; held := [] |} = true) by done.
  revert Hs. generalize {| s with primed := true; held := [] |}. generalize (held s).
  intros l. induction l as [|p l IH]; intros s0 H0; simpl; [done|].
  rewrite deliver_when_closed by done. by apply IH.
Qed.

Lemma release_closed s : closed s = true -> closed (release closes s) = true.
Proof. intros H. by rewrite release_when_closed. Qed.

Lemma step_closed i s :
  closed s = true -> closed (step closes s i) = true /\ log (step closes s i) = log s.
Proof.
  intros H. destruct i as [| |t l|t l| | |p|p|m]; simpl; try done.
  - unfold stream. by destruct (decide _).
  - unfold close. by rewrite H.
  - by destruct (attach_at s).
  - destruct (attach_at s); try done. unfold attach_listened. by rewrite H.
  - unfold receive. destruct (primed s); [|done]. by rewrite deliver_when_closed.
  - destruct (attach_at s); try done. unfold attach_page. by rewrite H.
  - assert (Hr : closed (attach_rejected closes m s) = true /\ log (attach_rejected closes m s) = log s).
    { unfold attach_rejected. rewrite release_when_closed by done. unfold fail. simpl. by rewrite H. }
    by destruct (attach_at s).
Qed.

Lemma run_app l1 l2 s : run closes (l1 ++ l2) s = run closes l2 (run closes l1 s).
Proof. apply foldl_app. Qed.

Lemma run_closed ins s :
  closed s = true -> closed (run closes ins s) = true /\ log (run closes ins s) = log s.
Proof.
  revert s. induction ins as [|i ins IH]; intros s H; simpl; [done|].
  destruct (step_closed i s H) as [Hc Hl]. destruct (IH _ Hc) as [? Hl']. by rewrite Hl', Hl.
Qed.

Lemma run_open ins s : closed (run closes ins s) = false -> closed s = false.
Proof.
  destruct (closed s) eqn:E; [|done]. intros H. destruct (run_closed ins s E). congruence.
Qed.

(** ** Soundness of each operation *)

Lemma sound_detach s : sound s -> sound (detach s).
Proof.
  intros [H1 H2 H5 H6]. split; try done. simpl. rewrite H2. by destruct (subscribed s).
Qed.

Lemma sound_log e s to :
  message_seq ([], e) = None -> sound s -> sound {| s with log := log s ++ [(to, e)] |}.
Proof.
  intros He [H1 H2 H5 H6]. split; try done. unfold messages in *. simpl.
  rewrite omap_app, H5. simpl. unfold message_seq in *. simpl in *. rewrite He. apply app_nil_r.
Qed.

Lemma sound_close s : sound s -> sound (close closes s).
Proof. intros H. apply close_inv; [done | apply sound_detach | intros ? ?; by apply sound_log]. Qed.

Lemma sound_emit e s : message_seq ([], e) = None -> sound s -> sound (emit closes e s).
Proof.
  intros He Hs. apply emit_inv; [intros to; by apply sound_log | apply sound_detach |].
  intros ? ?. by apply sound_log.
Qed.

Lemma sound_fail m s : sound s -> sound (fail closes m s).
Proof.
  intros H. unfold fail. destruct (closed s); [done|]. by apply sound_emit, sound_detach.
Qed.

Lemma sound_message f s :
  sound s -> StreamFrame.seq f ∉ delivered s ->
  sound (emit closes (Message f) {| s with delivered := delivered s ++ [StreamFrame.seq f];
           highWater := Z.max (highWater s) (StreamFrame.seq f) |}).
Proof.
  intros [H1 H2 H5 H6] Hf. apply emit_inv.
  - intros to. split; try done.
    + unfold messages in *. simpl. by rewrite omap_app, H5.
    + simpl. apply NoDup_app. split; [done|]. split; [|apply NoDup_singleton].
      intros x Hx ->%list_elem_of_singleton. done.
  - apply sound_detach.
  - intros ? ?. by apply sound_log.
Qed.

Lemma sound_frames l s : sound s -> sound (deliver_frames closes l s).1.
Proof.
  revert s. induction l as [|f l IH]; intros s Hs; simpl; [done|].
  case_decide as Hd; [by apply IH|]. pose proof (sound_message f s Hs Hd).
  destruct (terminal_frame f); [by apply sound_detach | by apply IH].
Qed.

Lemma sound_deliver p s : sound s -> sound (deliver closes p s).
Proof.
  intros Hs. unfold deliver. destruct (_ || _); [done|].
  pose proof (sound_frames (sort_on StreamFrame.seq (StreamPush.events p)) s Hs) as H.
  destruct (deliver_frames _ _ _) as [s' ended]. simpl in H. destruct ended; [done|].
  case_bool_decide; [by apply sound_fail | done].
Qed.

Lemma sound_release s : sound s -> sound (release closes s).
Proof.
  intros Hs. unfold release.
  assert (Hs' : sound {| s with primed := true; held := [] |}) by by destruct Hs; split.
  revert Hs'. generalize {| s with primed := true; held := [] |}. generalize (held s).
  intros l. induction l as [|p l IH]; intros s0 H0; simpl; [done|]. by apply IH, sound_deliver.
Qed.

(** ** What delivery leaves alone *)

Definition route (s : Sse) := (streamId s, primed s, attach_at s).

Lemma cursor_route s s' : cursor s' = cursor s -> route s' = route s.
Proof. unfold cursor, route. by intros [= -> _ _ -> ->]. Qed.

Lemma frames_route l s : route (deliver_frames closes l s).1 = route s.
Proof.
  revert s. induction l as [|f l IH]; intros s; simpl; [done|]. destruct (decide _); [by apply IH|].
  pose proof (cursor_route _ _ (emit_cursor (Message f)
    {| s with delivered := delivered s ++ [StreamFrame.seq f];
       highWater := Z.max (highWater s) (StreamFrame.seq f) |})) as He.
  destruct (terminal_frame f); [exact He|]. rewrite IH. exact He.
Qed.

Lemma deliver_route p s : route (deliver closes p s) = route s.
Proof.
  unfold deliver. destruct (_ || _); [done|].
  pose proof (frames_route (sort_on StreamFrame.seq (StreamPush.events p)) s) as H.
  destruct (deliver_frames _ _ _) as [s' ended]. simpl in H. destruct ended; [done|].
  case_bool_decide; [|done]. rewrite <- H. apply cursor_route, fail_cursor.
Qed.

Lemma release_route s : route (release closes s) = (streamId s, true, attach_at s).
Proof.
  unfold release.
  change (streamId s, true, attach_at s) with (route {| s with primed := true; held := [] |}).
  generalize {| s with primed := true; held := [] |}. generalize (held s).
  intros l. induction l as [|p l IH]; intros s0; simpl; [done|]. by rewrite IH, deliver_route.
Qed.

Lemma attach_of s s' : route s' = route s -> attach_at s' = attach_at s.
Proof. unfold route. by intros [= _ _ ->]. Qed.

Lemma release_attach s : attach_at (release closes s) = attach_at s.
Proof. pose proof (release_route s) as H. unfold route in H. by injection H as _ _ ->. Qed.

(** ** A started stream never looks unstarted again *)

Definition launched (s : Sse) : Prop := readyState s <> INITIALIZING.

Lemma launched_emit e s : launched s -> launched (emit closes e s).
Proof. intros H. by apply (emit_inv launched). Qed.
Lemma launched_fail m s : launched s -> launched (fail closes m s).
Proof. intros H. unfold fail. destruct (closed s); [done|]. by apply launched_emit. Qed.

Lemma launched_frames l s : launched s -> launched (deliver_frames closes l s).1.
Proof.
  revert s. induction l as [|f l IH]; intros s Hs; simpl; [done|].
  destruct (decide _); [by apply IH|]. destruct (terminal_frame f); [done|].
  by apply IH, launched_emit.
Qed.

Lemma launched_deliver p s : launched s -> launched (deliver closes p s).
Proof.
  intros Hs. unfold deliver. destruct (_ || _); [done|].
  pose proof (launched_frames (sort_on StreamFrame.seq (StreamPush.events p)) s Hs) as H.
  destruct (deliver_frames _ _ _) as [s' ended]. simpl in H. destruct ended; [done|].
  case_bool_decide; [by apply launched_fail | done].
Qed.

Lemma launched_release s : launched s -> launched (release closes s).
Proof.
  intros Hs. unfold release.
  assert (Hs' : launched {| s with primed := true; held := [] |}) by done.
  revert Hs'. generalize {| s with primed := true; held := [] |}. generalize (held s).
  intros l. induction l as [|p l IH]; intros s0 H0; simpl; [done|]. by apply IH, launched_deliver.
Qed.

Lemma placed_past s a :
  launched s -> a <> Idle -> a <> Loading -> a <> Subscribing -> placed (with_attach a s).
Proof. intros Hl H1 H2 H3. split; simpl; [by intros [?|[?|?]] | by intros ?%Hl]. Qed.

Lemma placed_launched s : placed s -> attach_at s <> Idle -> launched s.
Proof. intros [_ Hi] Ha Hr. auto. Qed.

(** ** One input *)

Lemma sound_attach s a : sound s -> sound (with_attach a s).
Proof. intros [H1 H2 H5 H6]. by split. Qed.

Lemma sound_step i s : sound s -> placed s -> sound (step closes s i).
Proof.
  intros Hs [Hp Hi]. destruct i as [| |t l|t l| | |p|p|m]; simpl.
  - unfold stream. case_decide as Hr; [|done]. destruct Hs as [H1 H2 H5 H6]. split; try done.
    simpl. intros Hc. destruct (H1 Hc) as [Hx _]. by rewrite Hr in Hx.
  - by apply sound_close.
  - by destruct Hs.
  - by destruct Hs.
  - destruct (attach_at s); try done. by apply sound_attach.
  - destruct (attach_at s) eqn:Ha; try done. unfold attach_listened.
    destruct (closed s) eqn:Hc; [by apply sound_attach|]. cbn zeta.
    apply sound_attach. apply sound_emit; [done|]. destruct Hs as [H1 H2 H5 H6]. split; try done; simpl.
    + congruence.
    + by rewrite H2, Hp by auto.
  - unfold receive. destruct (primed s); [by apply sound_deliver | by destruct Hs].
  - destruct (attach_at s); try done. apply sound_attach.
    destruct (closed s); [done|]. by apply sound_release, sound_deliver.
  - destruct (attach_at s); try done; by apply sound_attach, sound_fail, sound_release.
Qed.

Lemma placed_close s : placed s -> placed (close closes s).
Proof.
  intros Hs. apply close_inv; [done | |].
  - intros s0 [H1 H2]. by split.
  - intros s0 to [H1 H2]. by split.
Qed.

Lemma placed_deliver p s : launched s -> attach_at s = Settled -> placed (deliver closes p s).
Proof.
  intros Hl Ha. pose proof (launched_deliver p s Hl) as Hl'.
  pose proof (attach_of _ _ (deliver_route p s)) as Ha'. rewrite Ha in Ha'.
  split; [rewrite Ha'; by intros [?|[?|?]] | by intros ?%Hl'].
Qed.

Lemma placed_step i s :
  placed s -> (primed s = true -> attach_at s = Settled) -> placed (step closes s i).
Proof.
  intros Hs Hpr. pose proof Hs as [Hp Hi]. destruct i as [| |t l|t l| | |p|p|m]; simpl.
  - unfold stream. case_decide as Hr; [|done]. split; simpl; [|done]. intros _. apply Hp. auto.
  - by apply placed_close.
  - by split.
  - by split.
  - destruct (attach_at s) eqn:Ha; try done. split; simpl; [by intros _; apply Hp; auto|].
    intros Hr. by apply Hi in Hr.
  - destruct (attach_at s) eqn:Ha; try done.
    assert (Hl : launched s) by (apply placed_launched; [done | by rewrite Ha]).
    unfold attach_listened. destruct (closed s); apply placed_past; try done. by apply launched_emit.
  - unfold receive. destruct (primed s) eqn:E; [|by split].
    apply placed_deliver; [|by apply Hpr]. apply placed_launched; [done|]. by rewrite Hpr.
  - destruct (attach_at s) eqn:Ha; try done.
    assert (Hl : launched s) by (apply placed_launched; [done | by rewrite Ha]).
    apply placed_past; try done. destruct (closed s); [done|].
    by apply launched_release, launched_deliver.
  - assert (Hr : attach_at s <> Idle -> placed (attach_rejected closes m s)).
    { intros Ha. apply placed_past; try done.
      apply launched_fail, launched_release, placed_launched; done. }
    destruct (attach_at s) eqn:Ha; try done; by apply Hr.
Qed.
(** Nothing is shown before the page. *)
Record timed (s : Sse) : Prop := {
  ti_primed : primed s = true -> attach_at s = Settled;
  ti_unprimed : primed s = false -> delivered s = [] /\ highWater s = 0%Z
}.

Lemma timed_cursor s s' : cursor s' = cursor s -> timed s -> timed s'.
Proof. unfold cursor. intros [= _ Hd Hh Hp Ha] [H1 H2]. split; rewrite ?Hd, ?Hh, ?Hp, ?Ha; auto. Qed.

Lemma timed_settled s : primed s = true -> timed (with_attach Settled s).
Proof. intros H. split; simpl; [done | congruence]. Qed.

Lemma primed_of s s' : route s' = route s -> primed s' = primed s.
Proof. unfold route. by intros [= _ -> _]. Qed.

Lemma release_primed s : primed (release closes s) = true.
Proof. pose proof (release_route s) as H. unfold route in H. by injection H as _ -> _. Qed.

Lemma timed_step i s : placed s -> timed s -> timed (step closes s i).
Proof.
  intros [_ Hi] Hs. pose proof Hs as [H1 H2].
  assert (Hun : attach_at s <> Settled -> primed s = false) by (destruct (primed s); naive_solver).
  assert (Hmove : forall a, attach_at s <> Settled -> timed (with_attach a s)).
  { intros a Ha. split; simpl; [rewrite Hun by done; done | done]. }
  destruct i as [| |t l|t l| | |p|p|m]; simpl.
  - unfold stream. case_decide as Hr; [|done]. split; simpl; [|done].
    rewrite Hun by by rewrite Hi. done.
  - by eapply timed_cursor; [apply close_cursor|].
  - by split.
  - by split.
  - destruct (attach_at s) eqn:Ha; try done. by apply Hmove.
  - destruct (attach_at s) eqn:Ha; try done. unfold attach_listened.
    destruct (closed s); [by apply Hmove|]. cbn zeta. set (s1 := emit closes Opened _).
    assert (Hc : cursor s1 = cursor s) by (subst s1; by rewrite emit_cursor).
    unfold cursor in Hc. injection Hc as _ Hd Hh Hp _.
    split; simpl; rewrite ?Hd, ?Hh, ?Hp; [by rewrite Hun | done].
  - unfold receive. destruct (primed s) eqn:E; [|split; simpl; [congruence | done]].
    pose proof (deliver_route p s) as Hr. split; rewrite (primed_of _ _ Hr); [|congruence].
    rewrite (attach_of _ _ Hr). auto.
  - destruct (attach_at s) eqn:Ha; try done. unfold attach_page.
    destruct (closed s); [by apply Hmove|]. apply timed_settled, release_primed.
  - assert (Hr : timed (attach_rejected closes m s)).
    { apply timed_settled. rewrite (primed_of (release closes s)); [apply release_primed|].
      apply cursor_route, fail_cursor. }
    by destruct (attach_at s).
Qed.

Lemma run_inv ins s :
  sound s -> placed s -> timed s ->
  sound (run closes ins s) /\ placed (run closes ins s) /\ timed (run closes ins s).
Proof.
  revert s. induction ins as [|i ins IH]; intros s Hs Hp Ht; simpl; [done|].
  apply IH; [by apply sound_step | apply placed_step; [done | by destruct Ht] | by apply timed_step].
Qed.

Lemma fresh_inv ins id :
  sound (run closes ins (fresh id)) /\ placed (run closes ins (fresh id)) /\
  timed (run closes ins (fresh id)).
Proof. apply run_inv; split; try done. constructor. Qed.

(** ** What is delivered *)

(** All frames of [l] have been delivered. *)
Definition shown (l : list StreamFrame.t) (s : Sse) : Prop :=
  forall f, f ∈ l -> StreamFrame.seq f ∈ delivered s.

Record delivers (l : list StreamFrame.t) (s s' : Sse) (complete : Prop) : Prop := {
  de_grows : delivered s ⊆ delivered s';
  de_all : complete -> shown l s';
  de_cursor : highWater s' = highWater s \/ exists f, f ∈ l /\ highWater s' = StreamFrame.seq f
}.

Lemma frames_spec l s :
  let r := deliver_frames closes l s in
  delivers l s r.1 (r.2 = false) /\ (r.2 = true -> closed r.1 = true).
Proof.
  revert s. induction l as [|f l IH]; intros s; simpl.
  - split; [|done]. split; [done | by intros _ f ?%elem_of_nil | by left].
  - case_decide as Hd.
    + destruct (IH s) as [[H1 H2 H3] H4]. split; [|done]. split; [done| |].
      * intros Hc g [->|Hg]%elem_of_cons; [by apply H1 | by apply H2].
      * destruct H3 as [?|(g & ? & ?)]; [by left | right; exists g; split; [by right | done]].
    + set (s1 := {| s with delivered := _; highWater := _ |}).
      pose proof (emit_cursor (Message f) s1) as Hc. unfold cursor in Hc.
      injection Hc as _ Hde Hhw _ _. set (s2 := emit closes (Message f) s1) in *.
      assert (Hg : delivered s ⊆ delivered s2) by (rewrite Hde; subst s1; simpl; set_solver).
      assert (Hf : StreamFrame.seq f ∈ delivered s2) by (rewrite Hde; subst s1; simpl; set_solver).
      assert (Hw : highWater s2 = highWater s \/ highWater s2 = StreamFrame.seq f)
        by (rewrite Hhw; subst s1; simpl; lia).
      destruct (terminal_frame f); simpl.
      * split; [|done]. split; [done | done|].
        destruct Hw; [by left | right; exists f; split; [by left | done]].
      * destruct (IH s2) as [[H1 H2 H3] H4]. split; [|done]. split.
        -- by transitivity (delivered s2).
        -- intros Hc g [->|Hin]%elem_of_cons; [by apply H1 | by apply H2].
        -- destruct H3 as [->|(g & ? & ?)].
           ++ destruct Hw; [by left | right; exists f; split; [by left | done]].
           ++ right. exists g. split; [by right | done].
Qed.

Lemma cursor_delivers l s s1 s2 P :
  cursor s2 = cursor s1 -> delivers l s s1 P -> delivers l s s2 P.
Proof.
  unfold cursor. intros [= _ Hd Hh _ _] [H1 H2 H3]. split; unfold shown in *; by rewrite ?Hd, ?Hh.
Qed.

Lemma deliver_spec p s :
  delivers (StreamPush.events p) s (deliver closes p s)
    (closed (deliver closes p s) = false /\ StreamPush.stream_id p = streamId s).
Proof.
  unfold deliver. destruct (closed s || _) eqn:Hg.
  { split; [done| |by left]. intros [Hc Hid]. rewrite Hc in Hg. simpl in Hg. by bool_facts. }
  pose proof (frames_spec (sort_on StreamFrame.seq (StreamPush.events p)) s) as [[H1 H2 H3] H4].
  destruct (deliver_frames _ _ _) as [s' ended]. simpl in *.
  assert (H : delivers (StreamPush.events p) s s' (ended = false)).
  { split; [done| |].
    - intros He f Hf. apply H2; [done|]. by apply elem_of_sort_on.
    - destruct H3 as [?|(f & Hf & ?)]; [by left | right; exists f].
      by rewrite elem_of_sort_on in Hf. }
  destruct ended.
  - destruct H as [G1 G2 G3]. split; [done| |done]. intros [Hc _]. by rewrite H4 in Hc.
  - destruct (bool_decide (_ /\ _)).
    + eapply cursor_delivers; [apply fail_cursor|]. destruct H as [G1 G2 G3].
      split; [done| |done]. intros _. by apply G2.
    + destruct H as [G1 G2 G3]. split; [done| |done]. intros _. by apply G2.
Qed.
Lemma release_loop l covered s :
  let s' := foldl (fun s p => deliver closes (uncovered covered p) s) s l in
  delivered s ⊆ delivered s' /\
  (closed s' = false -> forall p f, p ∈ l -> StreamPush.stream_id p = streamId s ->
     f ∈ StreamPush.events p -> (covered < StreamFrame.seq f)%Z -> StreamFrame.seq f ∈ delivered s').
Proof.
  revert s. induction l as [|p l IH]; intros s; simpl.
  - split; [done|]. by intros _ p f ?%elem_of_nil.
  - set (s1 := deliver closes (uncovered covered p) s). destruct (IH s1) as [H1 H2].
    destruct (deliver_spec (uncovered covered p) s) as [G1 G2 _]. fold s1 in G1, G2.
    split; [by transitivity (delivered s1)|]. intros Hc q f Hq Hid Hf Hlt.
    assert (Hc1 : closed s1 = false).
    { destruct (closed s1) eqn:E; [|done]. rewrite <- Hc. symmetry. clear -E. revert E.
      generalize s1. induction l as [|q' l IH]; intros s0 E; simpl; [done|]. by apply IH, deliver_closed. }
    apply elem_of_cons in Hq as [->|Hq].
    + apply H1, G2; [done|]. apply list_elem_of_filter. done.
    + apply (H2 Hc q f Hq); [|done | done]. subst s1.
      pose proof (deliver_route (uncovered covered p) s) as Hr. unfold route in Hr.
      injection Hr as -> _ _. done.
Qed.

(** ** What is held *)

Definition pushed (i : Input) : option StreamPush.t :=
  match i with Push p => Some p | _ => None end.
Definition pushes (ins : list Input) : list StreamPush.t := omap pushed ins.

Lemma close_closes s : closed (close closes s) = true.
Proof.
  unfold close. destruct (closed s) eqn:Hc; [done|].
  by apply (notify_inv (fun s => closed s = true)).
Qed.

Lemma emit_held e s : closed (emit closes e s) = false -> held (emit closes e s) = held s.
Proof.
  assert (H : closed (emit closes e s) = true \/ held (emit closes e s) = held s).
  { apply (emit_inv (fun s' => closed s' = true \/ held s' = held s)); [by right | by left |].
    intros s0 to []; [by left | by right]. }
  destruct H as [H|H]; [by rewrite H | done].
Qed.

Lemma step_held i s :
  closed (step closes s i) = false -> primed (step closes s i) = false ->
  primed s = false /\ held (step closes s i) = held s ++ option_list (pushed i).
Proof.
  destruct i as [| |t l|t l| | |p|p|m]; simpl; rewrite ?app_nil_r; try done.
  - unfold stream. by case_decide.
  - by rewrite close_closes.
  - by destruct (attach_at s).
  - destruct (attach_at s); try done. unfold attach_listened. destruct (closed s) eqn:E; [done|].
    simpl. intros Hc Hp. pose proof (emit_cursor Opened (opened s)) as Hr. unfold cursor in Hr.
    injection Hr as _ _ _ Hpr _. rewrite Hpr in Hp. split; [done|]. by rewrite emit_held.
  - unfold receive. destruct (primed s) eqn:E; [|done]. intros _.
    by rewrite (primed_of _ _ (deliver_route p s)), E.
  - destruct (attach_at s); try done. unfold attach_page.
    destruct (closed s) eqn:E; simpl; [by rewrite E|]. by rewrite release_primed.
  - assert (Hr : closed (attach_rejected closes m s) = true) by apply fail_closed.
    destruct (attach_at s); try done; by rewrite Hr.
Qed.

Lemma run_held ins s :
  closed (run closes ins s) = false -> primed (run closes ins s) = false ->
  held (run closes ins s) = held s ++ pushes ins.
Proof.
  revert s. induction ins as [|i ins IH] using rev_ind; intros s; [by rewrite app_nil_r|].
  rewrite run_app. simpl. intros Hc Hp. destruct (step_held _ _ Hc Hp) as [Hp' ->].
  assert (Hc' : closed (run closes ins s) = false).
  { destruct (closed (run closes ins s)) eqn:E; [|done].
    destruct (step_closed i _ E). congruence. }
  rewrite IH by done. unfold pushes. rewrite omap_app, <- app_assoc. simpl. by destruct (pushed i).
Qed.

(** ** The live feed *)

Definition live (s : Sse) : Prop := primed s = true /\ attach_at s = Settled /\ launched s.

Lemma step_live i s :
  live s -> live (step closes s i) /\ delivered s ⊆ delivered (step closes s i) /\
            streamId (step closes s i) = streamId s.
Proof.
  intros (Hp & Ha & Hl). destruct i as [| |t l|t l| | |p|p|m]; simpl; rewrite ?Ha; try done.
  - unfold stream. by rewrite decide_False.
  - pose proof (close_cursor s) as Hc. unfold cursor in Hc. injection Hc as Hid Hd _ Hp' Ha'.
    rewrite Hd, Hid. split_and!; [|done|done]. split_and!; [congruence | congruence |].
    by apply close_inv.
  - unfold receive. rewrite Hp. pose proof (deliver_route p s) as Hr. unfold route in Hr.
    injection Hr as Hid Hp' Ha'. rewrite Hid. split_and!; [|by destruct (deliver_spec p s) | done].
    split_and!; [congruence | congruence | by apply launched_deliver].
Qed.

Lemma live_run ins s :
  live s -> closed (run closes ins s) = false ->
  delivered s ⊆ delivered (run closes ins s) /\
  forall p, p ∈ pushes ins -> StreamPush.stream_id p = streamId s ->
            shown (StreamPush.events p) (run closes ins s).
Proof.
  revert s. induction ins as [|i ins IH]; intros s Hl Hc; simpl in *.
  - split; [done|]. by intros p ?%elem_of_nil.
  - destruct (step_live i s Hl) as (Hl' & Hg & Hid). destruct (IH _ Hl' Hc) as [H1 H2].
    split; [by transitivity (delivered (step closes s i))|]. intros p Hp Hpid.
    unfold pushes in Hp. simpl in Hp.
    assert (Hin : (exists q, pushed i = Some q /\ p = q) \/ p ∈ pushes ins).
    { destruct (pushed i) as [q|]; [|by right].
      apply elem_of_cons in Hp as [->|Hp]; [left; eauto | by right]. }
    destruct Hin as [(q & Hq & ->)|Hin]; [|apply H2; [done | by rewrite Hid]].
    destruct i; simpl in Hq; try done. injection Hq as ->. intros f Hf. apply H1.
    simpl in Hc |- *. unfold receive in *. destruct Hl as [Hpr _]. rewrite Hpr in *.
    apply (de_all _ _ _ _ (deliver_spec q s)); [|done]. split; [|done]. by eapply run_open.
Qed.

(** ** From the page on *)

Lemma frames_held l s :
  closed (deliver_frames closes l s).1 = false -> held (deliver_frames closes l s).1 = held s.
Proof.
  revert s. induction l as [|f l IH]; intros s; simpl; [done|]. destruct (decide _); [apply IH|].
  set (s1 := {| s with delivered := _; highWater := _ |}). destruct (terminal_frame f); [done|].
  intros Hc. rewrite IH by done. change (held s) with (held s1). apply emit_held.
  destruct (closed (emit closes (Message f) s1)) eqn:E; [|done].
  by rewrite (deliver_frames_closed l _ E) in Hc.
Qed.

Lemma deliver_held p s : closed (deliver closes p s) = false -> held (deliver closes p s) = held s.
Proof.
  unfold deliver. destruct (_ || _); [done|].
  pose proof (frames_held (sort_on StreamFrame.seq (StreamPush.events p)) s) as H.
  destruct (deliver_frames _ _ _) as [s' []]; [done|].
  destruct (bool_decide _); [by rewrite fail_closed | done].
Qed.

(** A frame that the page [l] either carries or ends below. *)
Definition continues (l : list StreamFrame.t) (f : StreamFrame.t) : Prop :=
  (0 < StreamFrame.seq f)%Z /\
  ((forall g, g ∈ l -> StreamFrame.seq g < StreamFrame.seq f)%Z \/
   exists g, g ∈ l /\ StreamFrame.seq g = StreamFrame.seq f).

Lemma page_delivers page s :
  highWater s = 0%Z -> StreamPush.stream_id page = streamId s ->
  closed (release closes (deliver closes page s)) = false ->
  shown (StreamPush.events page) (release closes (deliver closes page s)) /\
  forall p, p ∈ held s -> StreamPush.stream_id p = streamId s ->
    Forall (continues (StreamPush.events page)) (StreamPush.events p) ->
    shown (StreamPush.events p) (release closes (deliver closes page s)).
Proof.
  intros Hhw Hid Hc. set (s1 := deliver closes page s) in *.
  assert (Hc1 : closed s1 = false).
  { destruct (closed s1) eqn:E; [|done]. by rewrite release_closed in Hc. }
  destruct (deliver_spec page s) as [G1 G2 G3]. fold s1 in G1, G2, G3.
  pose proof (G2 (conj Hc1 Hid)) as Hshown.
  pose proof (deliver_held page s Hc1) as Hheld. fold s1 in Hheld.
  pose proof (deliver_route page s) as Hr. fold s1 in Hr. unfold route in Hr. injection Hr as Hid1 _ _.
  destruct (release_loop (held s1) (highWater s1) {| s1 with primed := true; held := [] |}) as [L1 L2].
  split.
  - intros f Hf. apply L1. simpl. by apply Hshown.
  - intros p Hp Hpid Hall f Hf. rewrite Forall_forall in Hall.
    destruct (Hall f Hf) as [Hpos [Hlt|(g & Hg & Hs)]].
    + apply (L2 Hc p f); [by rewrite Hheld | simpl; congruence | done|].
      destruct G3 as [->|(g & Hg & ->)]; [lia | by apply Hlt].
    + rewrite <- Hs. apply L1. simpl. by apply Hshown.
Qed.

Lemma run_streamId ins s : streamId (run closes ins s) = streamId s.
Proof.
  revert s. induction ins as [|i ins IH]; intros s; simpl; [done|]. rewrite IH.
  assert (Hd : forall p s, streamId (deliver closes p s) = streamId s).
  { intros p0 s0. pose proof (deliver_route p0 s0) as Hr. unfold route in Hr. by injection Hr. }
  assert (Hrel : forall s, streamId (release closes s) = streamId s).
  { intros s0. pose proof (release_route s0) as Hr. unfold route in Hr. by injection Hr. }
  destruct i as [| |t l|t l| | |p|p|m]; simpl; try done.
  - unfold stream. by case_decide.
  - pose proof (close_cursor s) as Hc. unfold cursor in Hc. by injection Hc.
  - by destruct (attach_at s).
  - destruct (attach_at s); try done. unfold attach_listened. destruct (closed s); [done|].
    simpl. pose proof (emit_cursor Opened (opened s)) as Hc. unfold cursor in Hc. by injection Hc.
  - unfold receive. by destruct (primed s).
  - destruct (attach_at s); try done. unfold attach_page. destruct (closed s); simpl; [done|].
    by rewrite Hrel.
  - assert (Hf : streamId (fail closes m (release closes s)) = streamId s).
    { pose proof (fail_cursor m (release closes s)) as Hc. unfold cursor in Hc. injection Hc as -> _ _ _ _.
      apply Hrel. }
    by destruct (attach_at s).
Qed.

(** Everything from the page and from the feed is shown, when the feed continues the page. *)
Lemma nothing_lost id pre page post s s' :
  s = run closes pre (fresh id) -> s' = run closes post (step closes s (Page page)) ->
  (exists after, attach_at s = Replaying after) -> StreamPush.stream_id page = id ->
  (forall p, p ∈ pushes pre -> StreamPush.stream_id p = id ->
     Forall (continues (StreamPush.events page)) (StreamPush.events p)) ->
  closed s' = false ->
  shown (StreamPush.events page) s' /\
  forall p, p ∈ pushes (pre ++ post) -> StreamPush.stream_id p = id -> shown (StreamPush.events p) s'.
Proof.
  intros Es -> [after Ha] Hid Hcont Hc. pose proof (run_open _ _ Hc) as Hc1.
  destruct (fresh_inv pre id) as (_ & Hpl & [Ht1 Ht2]). rewrite <- Es in Hpl, Ht1, Ht2.
  assert (Hpr : primed s = false) by (destruct (primed s); [by rewrite Ht1 in Ha | done]).
  destruct (Ht2 Hpr) as [_ Hhw]. pose proof (run_streamId pre (fresh id)) as Hsid.
  rewrite <- Es in Hsid. simpl in Hsid.
  assert (Hc0 : closed s = false).
  { destruct (closed s) eqn:E; [|done]. destruct (step_closed (Page page) s E). congruence. }
  assert (Hstep : step closes s (Page page) =
                  with_attach Settled (release closes (deliver closes page s))).
  { simpl. rewrite Ha. unfold attach_page. by rewrite Hc0. }
  assert (Hlive : live (step closes s (Page page))).
  { rewrite Hstep. split_and!; [apply release_primed | done |].
    apply launched_release, launched_deliver, placed_launched; [done|]. by rewrite Ha. }
  destruct (live_run post _ Hlive Hc) as [Hgrow Hlater].
  pose proof (run_streamId [Page page] s) as Hsid1. cbn [run foldl] in Hsid1. rewrite Hsid1 in Hlater.
  assert (Hgrow' : delivered (release closes (deliver closes page s)) ⊆
                   delivered (run closes post (step closes s (Page page)))) by (by rewrite Hstep in Hgrow |- *).
  rewrite Hstep in Hc1. clear Hgrow.
  destruct (page_delivers page s Hhw) as [Hpage Hheld]; [congruence | done|]. split.
  - intros f Hf. by apply Hgrow', Hpage.
  - intros p Hp Hpid. unfold pushes in Hp. rewrite omap_app in Hp.
    apply elem_of_app in Hp as [Hp|Hp]; [|apply Hlater; [done | congruence]].
    intros f Hf. apply Hgrow'. apply (Hheld p); [|congruence | by apply Hcont | done].
    rewrite Es in Hc0, Hpr |- *. by rewrite (run_held pre (fresh id) Hc0 Hpr).
Qed.
End runs.

(** ** Theorems *)

(** C24. Each frame is shown once.  Whatever the host sends, in whatever order and however often,
    and whatever the listeners do, no sequence number is ever emitted twice. *)
Theorem frames_shown_once closes id ins : NoDup (messages (run closes ins (fresh id))).
Proof.
  destruct (fresh_inv closes ins id) as ([_ _ Hseen Hnd] & _ & _). by rewrite Hseen.
Qed.

(** A closed stream is final.  Once the stream is closed, by its client, by a final frame or
    by a failure, it reports the state [CLOSED], holds no host subscription, and no later input
    makes it emit anything or reopens it, not even a subscription or a page that was on its way. *)
Theorem closed_is_final closes id pre post :
  let s := run closes pre (fresh id) in
  let s' := run closes (pre ++ post) (fresh id) in
  closed s = true -> closed s' = true /\ readyState s' = CLOSED /\ feeds s' = 0 /\ log s' = log s.
Proof.
  intros s s' Hc. subst s s'. destruct (fresh_inv closes (pre ++ post) id) as ([H1 H2 _ _] & _ & _).
  rewrite run_app in *. destruct (run_closed closes post _ Hc) as [Hc' Hl].
  destruct (H1 Hc') as [Hr Hs]. split_and!; [done | done | by rewrite H2, Hs | done].
Qed.

(** C25. Nothing is lost.  Let the live feed continue the page: a frame pushed while the page was
    on its way is in the page or beyond its end.  Then, as long as the stream is open, every
    frame of the page and of every push of the stream, from before or after the page, has been
    shown. *)
Theorem open_stream_misses_nothing closes id pre page post :
  let s := run closes pre (fresh id) in
  let s' := run closes (pre ++ Page page :: post) (fresh id) in
  (exists after, attach_at s = Replaying after) -> StreamPush.stream_id page = id ->
  (forall p, p ∈ pushes pre -> StreamPush.stream_id p = id ->
     Forall (continues (StreamPush.events page)) (StreamPush.events p)) ->
  closed s' = false ->
  forall p f, p ∈ page :: pushes (pre ++ post) -> StreamPush.stream_id p = id ->
    f ∈ StreamPush.events p -> StreamFrame.seq f ∈ messages s'.
Proof.
  intros s s' Ha Hid Hcont Hc p f Hp Hpid Hf.
  assert (Hs' : s' = run closes post (step closes s (Page page))).
  { subst s s'. by rewrite run_app. }
  destruct (nothing_lost closes id pre page post s s' eq_refl Hs' Ha Hid Hcont Hc) as [H1 H2].
  destruct (fresh_inv closes (pre ++ Page page :: post) id) as ([_ _ Hseen _] & _ & _).
  subst s'. rewrite Hseen. apply elem_of_cons in Hp as [->|Hp]; [by apply H1 | by apply (H2 p)].
Qed.

Lemma notify_closed closes e s :
  closed s = true ->
  notify closes (close closes) e s =
  {| s with log := log s ++ [(default [] (mget (listeners s) (event_type e)), e)] |}.
Proof.
  intros Hc. unfold notify. set (to := default [] _).
  assert (H : closed {| s with log := log s ++ [(to, e)] |} = true) by done. revert H.
  generalize {| s with log := log s ++ [(to, e)] |} as s0. generalize to as l.
  intros l. induction l as [|x l IH]; intros s0 H0; simpl; [done|].
  assert (Hx : (if closes x e then close closes s0 else s0) = s0).
  { destruct (closes x e); [|done]. unfold close. by rewrite H0. }
  rewrite Hx. by apply IH.
Qed.

(** The host's last word is heard.  When the live feed of an open stream reports, without any
    frame, that the turn is over or that the host gave up, the stream tells its client so by
    exactly one error event and closes: the view never stays open on a feed that has ended. *)
Theorem ended_feed_is_reported closes p s :
  primed s = true -> closed s = false -> StreamPush.stream_id p = streamId s ->
  StreamPush.status p <> "active" -> StreamPush.events p = [] ->
  let s' := step closes s (Push p) in
  closed s' = true /\ readyState s' = CLOSED /\ subscribed s' = false /\
  log s' = log s ++ [(default [] (mget (listeners s) "error"),
                      Errored (ended_message (StreamPush.status p)))].
Proof.
  intros Hp Hc Hid Hst Hev. simpl. unfold receive. rewrite Hp. unfold deliver.
  rewrite Hc, Hid, bool_decide_true, Hev by done. simpl. rewrite bool_decide_true by done.
  unfold fail. rewrite Hc. unfold emit. by rewrite notify_closed.
Qed.

(** ** Instances *)

Module SseDemo.
Definition frame (n : Z) (final : bool) : StreamFrame.t :=
  StreamFrame.mk n (Text (JObj [("final", JBool final)])).
Definition push (status : string) (ns : list Z) : StreamPush.t :=
  StreamPush.mk "run1" status ((fun n => frame n false) <$> ns).
Definition no_close (l : nat) (e : Event) : bool := false.
Definition attached : list Input :=
  [AddListener "message" 0; CallStream; HostLoaded; Listened; Push (push "active" [3; 4]%Z)].
End SseDemo.

Lemma closed_is_final_witness :
  let s := run SseDemo.no_close SseDemo.attached (fresh "run1") in
  let s' := run SseDemo.no_close ((SseDemo.attached ++ [CallClose]) ++
              [Page (SseDemo.push "active" [1; 2]%Z)]) (fresh "run1") in
  feeds s = 1 /\ readyState s' = CLOSED /\ feeds s' = 0.
Proof.
  destruct (closed_is_final SseDemo.no_close "run1" (SseDemo.attached ++ [CallClose])
    [Page (SseDemo.push "active" [1; 2]%Z)]) as (_ & H1 & H2 & _); [by vm_compute|].
  split; [by vm_compute|]. split; [exact H1 | exact H2].
Defined.

Lemma open_stream_misses_nothing_witness :
  let s' := run SseDemo.no_close (SseDemo.attached ++ Page (SseDemo.push "active" [1; 2]%Z) ::
              [Push (SseDemo.push "active" [5]%Z)]) (fresh "run1") in
  messages s' = [1; 2; 3; 4; 5]%Z /\ 4%Z ∈ messages s'.
Proof.
  intros s'. split; [by vm_compute|].
  apply (open_stream_misses_nothing SseDemo.no_close "run1" SseDemo.attached
    (SseDemo.push "active" [1; 2]%Z) [Push (SseDemo.push "active" [5]%Z)])
    with (p := SseDemo.push "active" [3; 4]%Z) (f := SseDemo.frame 4 false).
  - by exists 0%Z.
  - by vm_compute.
  - intros p Hp _. apply list_elem_of_singleton in Hp as ->.
    assert (Hlt : forall n g, (2 < n)%Z -> g ∈ StreamPush.events (SseDemo.push "active" [1; 2]%Z) ->
              (StreamFrame.seq g < n)%Z).
    { intros n g Hn [->|[->|Hg%elem_of_nil]%elem_of_cons]%elem_of_cons; simpl; [lia | lia | done]. }
    apply Forall_cons. split; [|apply Forall_cons; split; [|apply Forall_nil; done]];
      (split; [done|]; left; intros g; by apply Hlt).
  - by vm_compute.
  - right. left.
  - by vm_compute.
  - right. left.
Defined.

Lemma ended_feed_is_reported_witness :
  let s := run SseDemo.no_close (SseDemo.attached ++ [Page (SseDemo.push "active" [1; 2]%Z)])
             (fresh "run1") in
  closed (step SseDemo.no_close s (Push (SseDemo.push "aborted" []))) = true.
Proof.
  intros s. apply (ended_feed_is_reported SseDemo.no_close (SseDemo.push "aborted" []) s);
    [by vm_compute | by vm_compute | by vm_compute | by vm_compute | by vm_compute].
Defined.

(** A held terminal push whose frames are all covered by the page is taken for an empty one: the
    stream is failed although the push carried frames and the final one may still come. *)
Example covered_terminal_push_fails :
  let s := run SseDemo.no_close [CallStream; HostLoaded; Listened; Push (SseDemo.push "complete" [2]%Z);
             Page (SseDemo.push "active" [1; 2]%Z)] (fresh "run1") in
  closed s = true /\
  last (log s) = Some ([], Errored "the turn ended without a final frame (complete)").
Proof. split; by vm_compute. Qed.
