(* ===== verification/EditorPolicy.v ===== *)
(** * The editor's completions ([client/tempest/views/editor/]: [completionPolicy.ts],
      [documentSource.ts] and [risk.ts])

    When a completion is believed: the policy of inline completions as pure transitions on what the editor displays, with the
    instrumentation threaded along (the source mutates the metrics object in place).  The nearest
    rank [percentile] is left out: its rank is a floating-point product.

    What a completion names, and what is known about it: the offline completion source completes
    an identifier from the words of the document; the risk indicator reports the divergences
    recorded against the symbol that a suggestion names.  Texts are lists of characters there;
    identifier characters are ASCII, as in the source's regular expressions. *)

From Stdlib Require Import QArith Ascii.
From stdpp Require Import pretty.
From S2P Require Import Prelude.

#[local] Open Scope nat_scope.

(** [Pending], [Shown] and [PolicyState] *)
Module Pending.
Record t := mk { generation : Z; requestedAt : Z }.
End Pending.

Module Shown.
Record t := mk { text : string; generation : Z }.
End Shown.

Inductive PolicyState :=
| idle
| pending (p : Pending.t)
| showing (s : Shown.t).

(** [Metrics] *)
Module Metrics.
Record t := mk { latencies : list Z; shown : nat; accepted : nat; stale : nat }.
End Metrics.

Definition emptyMetrics : Metrics.t := Metrics.mk [] 0 0 0.

Definition acceptanceRate (m : Metrics.t) : option Q :=
  if decide (Metrics.shown m = 0) then None
  else Some (Qmake (Z.of_nat (Metrics.accepted m)) (Pos.of_nat (Metrics.shown m))).

Definition mark_stale (m : Metrics.t) : Metrics.t :=
  {| m with Metrics.stale := S (Metrics.stale m) |}.

Definition onDocumentChanged (state : PolicyState) (m : Metrics.t) : PolicyState * Metrics.t :=
  match state with
  | showing _ => (idle, m)
  | pending _ => (idle, mark_stale m)
  | idle => (state, m)
  end.

Definition onRequest (state : PolicyState) (m : Metrics.t) (now nextGeneration : Z)
  : PolicyState * Metrics.t :=
  (pending (Pending.mk nextGeneration now),
   match state with pending _ => mark_stale m | _ => m end).

Definition onSuggestion (state : PolicyState) (m : Metrics.t) (now generation : Z) (text : string)
  : PolicyState * Metrics.t :=
  match state with
  | pending p =>
      if decide (Pending.generation p = generation) then
        if decide (text = "") then (idle, m)
        else
          (showing (Shown.mk text generation),
           {| m with Metrics.latencies := Metrics.latencies m ++ [now - Pending.requestedAt p]%Z;
              Metrics.shown := S (Metrics.shown m) |})
      else (state, mark_stale m)
  | _ => (state, mark_stale m)
  end.

(** The new state, the text to insert if any, and the metrics. *)
Definition onAccept (state : PolicyState) (m : Metrics.t)
  : PolicyState * option string * Metrics.t :=
  match state with
  | showing s =>
      (idle, Some (Shown.text s), {| m with Metrics.accepted := S (Metrics.accepted m) |})
  | _ => (state, None, m)
  end.

Definition onDismiss (state : PolicyState) : PolicyState := idle.

(** ** Editing sessions *)

Inductive EditorEvent :=
| DocumentChanged
| Requested (now generation : Z)
| Suggested (now generation : Z) (text : string)
| Accepted
| Dismissed.

Definition on (c : PolicyState * Metrics.t) (e : EditorEvent) : PolicyState * Metrics.t :=
  let '(state, m) := c in
  match e with
  | DocumentChanged => onDocumentChanged state m
  | Requested now g => onRequest state m now g
  | Suggested now g text => onSuggestion state m now g text
  | Accepted => let '(state', _, m') := onAccept state m in (state', m')
  | Dismissed => (onDismiss state, m)
  end.

Definition session (l : list EditorEvent) : PolicyState * Metrics.t :=
  foldl on (idle, emptyMetrics) l.

(** An event that leaves an open question open: an answer to another question, or [Tab]. *)
Definition keeps_asking (g : Z) (e : EditorEvent) : Prop :=
  match e with
  | Suggested _ g' _ => g' <> g
  | Accepted => True
  | _ => False
  end.

(** An event that leaves what is displayed on the screen: a late answer. *)
Definition keeps_showing (e : EditorEvent) : Prop :=
  match e with Suggested _ _ _ => True | _ => False end.

(** Question [g], asked at [t0], is the one being asked at the end of [l]. *)
Definition asks (l : list EditorEvent) (g t0 : Z) : Prop :=
  exists pre mid, l = pre ++ Requested t0 g :: mid /\ Forall (keeps_asking g) mid.

(** [text] is the answer to question [g] that arrived last and is still displayed. *)
Definition displays (l : list EditorEvent) (text : string) (g : Z) : Prop :=
  exists pre now post t0, l = pre ++ Suggested now g text :: post /\ Forall keeps_showing post /\
    asks pre g t0 /\ text <> "" /\
    last (Metrics.latencies (session l).2) = Some (now - t0)%Z.

Lemma session_snoc l e : session (l ++ [e]) = on (session l) e.
Proof. unfold session. by rewrite foldl_app. Qed.

Lemma asks_snoc l g t0 e : asks l g t0 -> keeps_asking g e -> asks (l ++ [e]) g t0.
Proof.
  intros (pre & mid & -> & Hm) He. exists pre, (mid ++ [e]).
  split; [by rewrite <- app_assoc|]. apply Forall_app. split; [done | by constructor].
Qed.

Lemma pending_asks l p : (session l).1 = pending p -> asks l (Pending.generation p) (Pending.requestedAt p).
Proof.
  revert p. induction l as [|e l IH] using rev_ind; intros p; [done|].
  rewrite session_snoc. destruct (session l) as [state m]. simpl in IH.
  destruct e as [|now g|now g text| |]; simpl.
  - by destruct state.
  - intros [= <-]. exists l, []. split; [done | constructor].
  - unfold onSuggestion. destruct state as [|q|s]; simpl; [done| |done].
    case_decide as Hg; [by case_decide|]. intros [= ->].
    apply asks_snoc; [by apply IH | by intros ->].
  - destruct state as [|q|s]; simpl; [done| |done]. intros [= ->]. apply asks_snoc; [by apply IH | done].
  - done.
Qed.

Lemma displays_snoc l text g e :
  displays l text g -> keeps_showing e -> Metrics.latencies (session (l ++ [e])).2 =
  Metrics.latencies (session l).2 -> displays (l ++ [e]) text g.
Proof.
  intros (pre & now & post & t0 & -> & Hp & Ha & Ht & Hl) He Heq.
  exists pre, now, (post ++ [e]), t0. split_and!; [by rewrite <- app_assoc | | done | done |].
  - apply Forall_app. split; [done | by constructor].
  - by rewrite Heq.
Qed.

(** C40. Only the answer to the open question is displayed.  Whenever the editor shows a
    suggestion, the session contains its request and its non-empty answer, with nothing between
    them but answers to other questions and void acceptances, and nothing since but late answers:
    no edit, no newer request, no dismissal.  The latency recorded last is the time between the
    two. *)
Theorem shown_answers_the_open_question l s :
  (session l).1 = showing s -> displays l (Shown.text s) (Shown.generation s).
Proof.
  revert s. induction l as [|e l IH] using rev_ind; intros s; [done|]. intros Hs.
  rewrite session_snoc in Hs. pose proof (pending_asks l) as Hask.
  destruct (session l) as [state m] eqn:E. simpl in IH, Hask.
  destruct e as [|now g|now g text| |]; simpl in Hs; [by destruct state | done | | by destruct state | done].
  destruct state as [|q|s0]; simpl in Hs; [done| |].
  - case_decide as Hg; [|done]. case_decide as Ht; [done|]. injection Hs as <-. simpl.
    exists l, now, [], (Pending.requestedAt q). subst g.
    split_and!; [done | constructor | by apply Hask | done |].
    rewrite session_snoc, E. simpl. rewrite decide_True, decide_False by done. simpl.
    by rewrite last_snoc.
  - injection Hs as <-. apply displays_snoc; [by apply IH | done|]. by rewrite session_snoc, E.
Qed.

Lemma shown_answers_the_open_question_witness :
  displays [Requested 5 1; Requested 8 2; Suggested 9 1 "old"; Suggested 11 2 "new"]%Z "new" 2.
Proof.
  apply (shown_answers_the_open_question
    [Requested 5 1; Requested 8 2; Suggested 9 1 "old"; Suggested 11 2 "new"]%Z
    (Shown.mk "new" 2)). by vm_compute.
Defined.

(** The instrumentation adds up.  In every session there is one latency per suggestion shown,
    a suggestion is accepted at most once and only after being shown, so that the acceptance rate
    is unknown exactly when nothing was shown and otherwise lies between 0 and 1. *)
Theorem metrics_add_up l :
  let m := (session l).2 in
  length (Metrics.latencies m) = Metrics.shown m /\
  Metrics.accepted m + (match (session l).1 with showing _ => 1 | _ => 0 end) <= Metrics.shown m /\
  match acceptanceRate m with
  | None => Metrics.shown m = 0
  | Some r => (0 <= r <= 1)%Q
  end.
Proof.
  assert (H : length (Metrics.latencies (session l).2) = Metrics.shown (session l).2 /\
    Metrics.accepted (session l).2 + (match (session l).1 with showing _ => 1 | _ => 0 end)
      <= Metrics.shown (session l).2).
  { induction l as [|e l IH] using rev_ind; [done|]. rewrite session_snoc.
    destruct (session l) as [state m]. simpl in IH. destruct e as [|now g|now g text| |]; simpl;
      destruct state as [|q|s]; simpl in *; try lia.
    repeat case_decide; simpl; rewrite ?length_app; simpl; lia. }
  cbn zeta. destruct H as [H1 H2]. split_and!; [done | done|]. unfold acceptanceRate.
  case_decide as Hz; [done|]. unfold Qle. cbn [Qnum Qden].
  assert (Hp : Z.pos (Pos.of_nat (Metrics.shown (session l).2)) =
               Z.of_nat (Metrics.shown (session l).2)) by lia.
  rewrite Hp. destruct (session l).1; lia.
Qed.

(** ** Texts *)

Abbreviation text := (list ascii).
Definition lit (s : string) : text := String.list_ascii_of_string s.

(** ** Identifiers *)

Definition code (c : ascii) : nat := nat_of_ascii c.
(** [[A-Za-z_$]] and [[A-Za-z0-9_$]] *)
Definition is_start (c : ascii) : bool :=
  bool_decide (65 <= code c <= 90 \/ 97 <= code c <= 122 \/ code c = 95 \/ code c = 36).
Definition is_word (c : ascii) : bool := is_start c || bool_decide (48 <= code c <= 57).

(** [document.matchAll(WORD)]: the maximal runs of word characters, [cur] being read. *)
Fixpoint words_from (cur : text) (l : text) : list text :=
  match l with
  | [] => if decide (cur = []) then [] else [cur]
  | c :: rest =>
      if is_word c then words_from (cur ++ [c]) rest
      else if decide (cur = []) then words_from [] rest
      else cur :: words_from [] rest
  end.
Definition words (document : text) : list text := words_from [] document.

(** [/[A-Za-z_$][A-Za-z0-9_$]*$/.exec(text)]: the leftmost match, or nothing. *)
Fixpoint prefixAt (textBeforeCursor : text) : text :=
  match textBeforeCursor with
  | [] => []
  | c :: rest =>
      if is_start c && forallb is_word rest then textBeforeCursor else prefixAt rest
  end.

(** ** Completion from the document *)

(** [word.length > prefix.length && word.startsWith(prefix)] *)
Definition candidate (pre word : text) : bool :=
  bool_decide (length pre < length word /\ take (length pre) word = pre).

(** [counts.set(word, (counts.get(word) ?? 0) + 1)] on a map in insertion order. *)
Fixpoint bump (word : text) (counts : list (text * nat)) : list (text * nat) :=
  match counts with
  | [] => [(word, 1)]
  | (w, n) :: rest => if decide (w = word) then (w, S n) :: rest else (w, n) :: bump word rest
  end.

Definition count_words (pre : text) (ws : list text) : list (text * nat) :=
  foldl (fun counts w => if candidate pre w then bump w counts else counts) [] ws.

(** The loop that keeps the best word seen so far. *)
Definition better (best : option (text * nat)) (e : text * nat) : option (text * nat) :=
  match best with
  | None => Some e
  | Some (b, n) =>
      if decide (n < e.2 \/ e.2 = n /\ length e.1 < length b) then Some e else best
  end.

Definition completeFromDocument (document pre : text) : text :=
  if decide (length pre < 2) then []
  else match foldl better None (count_words pre (words document)) with
  | None => []
  | Some (best, _) => drop (length pre) best
  end.

Definition documentCompletionSource (textBeforeCursor textAfterCursor : text) : text :=
  let pre := prefixAt textBeforeCursor in
  completeFromDocument
    (take (length textBeforeCursor - length pre) textBeforeCursor ++ textAfterCursor) pre.

(** ** Risk *)

(** [Severity] and the fields of [SymbolDivergence] that the badge reads *)
Inductive Severity := LOW | NORMAL | HEADLINE.

Module DivergenceRecord.
Record t := mk { module_ : text; qualname : text; severity : Severity }.
End DivergenceRecord.

Inductive RiskLevel := unmeasured | elevated | high.

Module Risk.
Record t := mk { level : RiskLevel; divergences : nat; reason : text }.
End Risk.

(** [ESCALATES[severity]] *)
Definition ESCALATES (s : Severity) : bool :=
  match s with LOW => false | NORMAL => false | HEADLINE => true end.

Definition decimal (n : nat) : text := lit (pretty n).

Definition full_name (hit : DivergenceRecord.t) : text :=
  DivergenceRecord.module_ hit ++ lit "." ++ DivergenceRecord.qualname hit.

Definition names (recorded : list DivergenceRecord.t) : list text :=
  dedup_on (fun n => n) (full_name <$> recorded).

Definition attribution (symbol : text) (recorded : list DivergenceRecord.t) : text :=
  match names recorded with
  | [name] => name
  | l => decimal (length l) ++ lit " symbols named " ++ symbol
  end.

Definition plural (n : nat) (word : text) : text :=
  decimal n ++ lit " " ++ word ++ (if decide (n = 1) then [] else lit "s").

Definition riskFor (symbol : text) (recorded : option (list DivergenceRecord.t)) : Risk.t :=
  match recorded with
  | None => Risk.mk unmeasured 0 (lit "no measurement available")
  | Some [] => Risk.mk unmeasured 0 (lit "no recorded runs name this symbol")
  | Some l =>
      let where_ := attribution symbol l in
      let serious := length (filter (fun h => ESCALATES (DivergenceRecord.severity h) = true) l) in
      if decide (0 < serious)
      then Risk.mk high (length l)
             (plural serious (lit "headline divergence") ++ lit " recorded in " ++ where_)
      else Risk.mk elevated (length l)
             (plural (length l) (lit "divergence") ++ lit " recorded in " ++ where_)
  end.

(** The longest run of word characters at the head. *)
Fixpoint word_run (l : text) : text :=
  match l with c :: rest => if is_word c then c :: word_run rest else [] | [] => [] end.

Definition symbolNamedBy (pre suggestion : text) : option text :=
  match pre ++ suggestion with
  | c :: rest => if is_start c then Some (c :: word_run rest) else None
  | [] => None
  end.

Definition namesNoSymbol : Risk.t :=
  Risk.mk unmeasured 0 (lit "this suggestion does not name a symbol").

Definition riskLabel (risk : Risk.t) : text :=
  match Risk.level risk with
  | high => lit "⚠ high risk — " ++ Risk.reason risk
  | elevated => lit "⚠ elevated — " ++ Risk.reason risk
  | unmeasured => lit "unmeasured — " ++ Risk.reason risk
  end.

(** ** Words *)

Lemma words_from_chars cur l w :
  Forall (fun c => is_word c = true) cur -> w ∈ words_from cur l ->
  Forall (fun c => is_word c = true) w.
Proof.
  revert cur. induction l as [|c l IH]; intros cur Hcur; simpl.
  - case_decide; [by intros ?%elem_of_nil | by intros ->%list_elem_of_singleton].
  - destruct (is_word c) eqn:E.
    + apply IH, Forall_app. split; [done | by constructor].
    + case_decide; [apply IH; constructor|].
      intros [->|Hw]%elem_of_cons; [done | by apply (IH [])].
Qed.

Lemma words_chars document w : w ∈ words document -> Forall (fun c => is_word c = true) w.
Proof. apply words_from_chars. constructor. Qed.

(** ** Counting *)

Definition occurrences (w : text) (ws : list text) : nat := length (filter (fun v => v = w) ws).

Definition lookup_count (counts : list (text * nat)) (w : text) : nat :=
  match find_first (fun e => bool_decide (e.1 = w)) counts with Some e => e.2 | None => 0 end.

Lemma bump_count counts w v :
  lookup_count (bump w counts) v = lookup_count counts v + (if decide (v = w) then 1 else 0).
Proof.
  unfold lookup_count. induction counts as [|[x n] counts IH]; simpl.
  - repeat case_bool_decide; repeat case_decide; simplify_eq; try done; lia.
  - destruct (decide (x = w)) as [->|Hx]; simpl.
    + case_bool_decide; repeat case_decide; simplify_eq; simpl; lia.
    + case_bool_decide; [|exact IH]. case_decide; simplify_eq; simpl; lia.
Qed.

Lemma bump_keys counts w : (bump w counts).*1 ⊆ w :: counts.*1 /\ counts.*1 ⊆ (bump w counts).*1.
Proof.
  induction counts as [|[x n] counts [H1 H2]]; simpl; [set_solver|].
  case_decide; simpl; [set_solver|]. split; set_solver.
Qed.

Lemma bump_nodup counts w : NoDup counts.*1 -> NoDup (bump w counts).*1.
Proof.
  induction counts as [|[x n] counts IH]; simpl; [intros _; apply NoDup_singleton|].
  intros [Hx Hnd]%NoDup_cons. case_decide; simpl; apply NoDup_cons; split; auto.
  pose proof (bump_keys counts w) as [HK _]. set_solver.
Qed.

Lemma nodup_count counts w n : NoDup counts.*1 -> (w, n) ∈ counts -> lookup_count counts w = n.
Proof.
  unfold lookup_count. induction counts as [|[x m] counts IH]; simpl; [by intros _ ?%elem_of_nil|].
  intros [Hx Hnd]%NoDup_cons [[= -> ->]|Hin]%elem_of_cons; simpl.
  - by rewrite bool_decide_true.
  - case_bool_decide; [|by apply IH]. subst. exfalso. apply Hx. apply list_elem_of_fmap. by exists (w, n).
Qed.

(** What the loop over the words has counted. *)
Record counted (pre : text) (ws : list text) (counts : list (text * nat)) : Prop := {
  co_nodup : NoDup counts.*1;
  co_keys : forall w, w ∈ counts.*1 <-> w ∈ ws /\ candidate pre w = true;
  co_count : forall w, candidate pre w = true -> lookup_count counts w = occurrences w ws
}.

Lemma count_words_spec pre ws : counted pre ws (count_words pre ws).
Proof.
  unfold count_words. induction ws as [|w ws IH] using rev_ind.
  { split; [constructor | set_solver | done]. }
  rewrite foldl_app. simpl. set (counts := foldl _ [] ws) in *. destruct IH as [H1 H2 H3].
  assert (Hocc : forall v, occurrences v (ws ++ [w]) =
                           occurrences v ws + (if decide (v = w) then 1 else 0)).
  { intros v. unfold occurrences. rewrite filter_app, length_app, filter_cons, filter_nil.
    repeat case_decide; simplify_eq; simpl; lia. }
  destruct (candidate pre w) eqn:Hw; split.
  - by apply bump_nodup.
  - intros v. pose proof (bump_keys counts w) as [K1 K2].
    rewrite elem_of_app, list_elem_of_singleton. split.
    + intros Hv. apply K1, elem_of_cons in Hv as [->|Hv]; [auto|]. apply H2 in Hv. tauto.
    + intros [[Hv| ->] Hc]; [by apply K2, H2|].
      assert (Hin : lookup_count (bump w counts) w <> 0)
        by (rewrite bump_count, decide_True by done; lia).
      unfold lookup_count in Hin. destruct (find_first _ _) as [e|] eqn:E; [|done].
      apply find_first_Some in E as [He Hk]. bool_facts.
      apply (list_elem_of_fmap_2 fst) in He. by rewrite Hk in He.
  - intros v Hv. by rewrite bump_count, H3, Hocc.
  - done.
  - intros v. rewrite H2, elem_of_app, list_elem_of_singleton. split; [tauto|].
    intros [[Hv| ->] Hc]; [done | congruence].
  - intros v Hv. rewrite H3, Hocc by done. rewrite decide_False; [lia|]. intros ->. congruence.
Qed.

(** ** The best word *)

Definition worse (a b : text * nat) : Prop :=
  a.2 < b.2 \/ a.2 = b.2 /\ length b.1 <= length a.1.

Lemma better_loop l best :
  match foldl better best l with
  | None => best = None /\ l = []
  | Some b => (best = Some b \/ b ∈ l) /\ (forall e, e ∈ l -> worse e b) /\
              (forall e, best = Some e -> worse e b)
  end.
Proof.
  revert best. induction l as [|e l IH]; intros best; simpl.
  - destruct best as [b|]; [|done]. split; [by left|]. split; [by intros ? ?%elem_of_nil|].
    intros e [= ->]. right. lia.
  - specialize (IH (better best e)). destruct (foldl better (better best e) l) as [b|].
    + destruct IH as (H1 & H2 & H3). unfold better in H1, H3.
      destruct best as [[w n]|].
      * case_decide as Hd.
        -- split_and!.
           ++ destruct H1 as [[= ->]|?]; [right; by left | right; by right].
           ++ intros x [->|Hx]%elem_of_cons; auto.
           ++ intros x [= <-]. specialize (H3 e eq_refl). unfold worse in *. simpl in *. lia.
        -- specialize (H3 (w, n) eq_refl). split_and!.
           ++ destruct H1 as [?|?]; [by left | right; by right].
           ++ intros x [->|Hx]%elem_of_cons; [|auto]. unfold worse in *. simpl in *. lia.
           ++ intros x [= <-]. done.
      * split_and!; [|intros x [->|Hx]%elem_of_cons; auto|done].
        destruct H1 as [[= ->]|?]; [right; by left | right; by right].
    + destruct IH as [H _]. unfold better in H. destruct best as [[w n]|]; [|done]. by case_decide.
Qed.

Lemma candidate_split pre w : candidate pre w = true -> w = pre ++ drop (length pre) w /\ drop (length pre) w <> [].
Proof.
  unfold candidate. intros [Hl Ht]%bool_decide_eq_true. split.
  - rewrite <- Ht at 1. by rewrite take_drop.
  - intros Hd. apply (f_equal length) in Hd. rewrite length_drop in Hd. simpl in Hd. lia.
Qed.

Lemma completion_spec document pre :
  let r := completeFromDocument document pre in
  if decide (length pre < 2) then r = []
  else if decide (r = [])
  then forall w, w ∈ words document -> candidate pre w = false
  else (pre ++ r) ∈ words document /\ candidate pre (pre ++ r) = true /\
       forall w, w ∈ words document -> candidate pre w = true ->
         occurrences w (words document) < occurrences (pre ++ r) (words document) \/
         occurrences w (words document) = occurrences (pre ++ r) (words document) /\
         length (pre ++ r) <= length w.
Proof.
  cbn zeta. unfold completeFromDocument. case_decide as Hp; [done|].
  pose proof (count_words_spec pre (words document)) as [Hnd Hkeys Hcount].
  pose proof (better_loop (count_words pre (words document)) None) as Hbest.
  set (counts := count_words pre (words document)) in *.
  destruct (foldl better None counts) as [[w n]|].
  - destruct Hbest as ([?|Hin] & Hall & _); [done|].
    assert (Hw : w ∈ words document /\ candidate pre w = true)
      by (apply Hkeys; by apply (list_elem_of_fmap_2 fst _ (w, n))).
    destruct Hw as [Hw Hc]. destruct (candidate_split pre w Hc) as [Hsplit Hne].
    rewrite decide_False by done. rewrite <- Hsplit. split_and!; [done | done|].
    intros v Hv Hcv. assert (Hvc : v ∈ counts.*1) by by apply Hkeys.
    apply list_elem_of_fmap in Hvc as ([v' m] & -> & Hvm). simpl in *.
    pose proof (Hall _ Hvm) as Hworse. unfold worse in Hworse. simpl in Hworse.
    rewrite <- (Hcount v'), <- (Hcount w) by done.
    by rewrite (nodup_count counts v' m), (nodup_count counts w n).
  - rewrite decide_True by done. destruct Hbest as [_ Hnil]. intros w Hw.
    destruct (candidate pre w) eqn:E; [|done].
    assert (Hin : w ∈ counts.*1) by by apply Hkeys. rewrite Hnil in Hin. by apply elem_of_nil in Hin.
Qed.

(** Absence is never safety, and nothing is attributed to the wrong symbol.  The badge is
    [high] exactly when a headline divergence was recorded, [elevated] exactly when divergences
    were recorded but no headline one, and [unmeasured] exactly when there is no record; it counts
    every recorded divergence; and it names a symbol as the place only when all the records are of
    that very symbol. *)
Theorem risk_is_what_was_measured symbol recorded :
  let r := riskFor symbol recorded in
  let l := default [] recorded in
  Risk.divergences r = length l /\
  match Risk.level r with
  | unmeasured => l = []
  | elevated => l <> [] /\ Forall (fun h => DivergenceRecord.severity h <> HEADLINE) l
  | high => Exists (fun h => DivergenceRecord.severity h = HEADLINE) l
  end /\
  (l <> [] -> Forall (fun h => full_name h = attribution symbol l) l \/
     exists h1 h2, h1 ∈ l /\ h2 ∈ l /\ full_name h1 <> full_name h2 /\
       attribution symbol l = decimal (length (names l)) ++ lit " symbols named " ++ symbol).
Proof.
  cbn zeta. split_and!.
  - destruct recorded as [[|h l]|]; [done | | done]. simpl. by case_decide.
  - destruct recorded as [[|h0 l0]|]; [done | | done]. cbn [riskFor default].
    set (l := h0 :: l0). case_decide as Hs; cbn [Risk.level].
    + apply Exists_exists. destruct (filter _ l) as [|h f] eqn:E; [simpl in Hs; lia|].
      assert (Hin : h ∈ filter (fun h => ESCALATES (DivergenceRecord.severity h) = true) l)
        by (rewrite E; by left).
      apply list_elem_of_filter in Hin as [He Hin]. exists h. split; [done|].
      by destruct (DivergenceRecord.severity h).
    + split; [done|]. apply Forall_forall. intros h Hin Hh. apply Hs.
      assert (Hf : h ∈ filter (fun h => ESCALATES (DivergenceRecord.severity h) = true) l)
        by (apply list_elem_of_filter; by rewrite Hh).
      destruct (filter _ l); [by apply elem_of_nil in Hf | simpl; lia].
  - generalize (default [] recorded) as l. intros l Hne.
    assert (Hk : forall h, h ∈ l -> full_name h ∈ names l).
    { intros h Hh. pose proof (dedup_on_keys (fun n : text => n) (full_name <$> l) (full_name h)) as H.
      rewrite !list_fmap_id in H. apply H. by apply list_elem_of_fmap_2. }
    assert (Hsub : forall n, n ∈ names l -> exists h, h ∈ l /\ n = full_name h).
    { intros n Hn. apply dedup_from_sub, list_elem_of_fmap in Hn as (h & -> & Hh). eauto. }
    pose proof (dedup_on_nodup (fun n : text => n) (full_name <$> l)) as Hnd.
    rewrite list_fmap_id in Hnd. fold (names l) in Hnd.
    unfold attribution. destruct (names l) as [|n1 [|n2 ns]] eqn:En.
    + destruct l as [|h l]; [done|]. specialize (Hk h ltac:(by left)). by apply elem_of_nil in Hk.
    + left. apply Forall_forall. intros h Hh. by apply list_elem_of_singleton, Hk.
    + right. destruct (Hsub n1 ltac:(by left)) as (h1 & H1 & E1).
      destruct (Hsub n2 ltac:(right; by left)) as (h2 & H2 & E2).
      exists h1, h2. split_and!; try done. rewrite <- E1, <- E2. intros ->.
      apply NoDup_cons in Hnd as [Hn _]. apply Hn. by left.
Qed.

(** The offline completion is the most used word of the document.  With a prefix of two
    characters or more, the completion extends it to a word of the document that occurs at least
    as often as every other word extending the prefix, and is no longer than those that occur as
    often; it is empty exactly when no word of the document extends the prefix. *)
Theorem completion_is_the_most_used_word document pre :
  let r := completeFromDocument document pre in
  if decide (length pre < 2) then r = []
  else if decide (r = [])
  then forall w, w ∈ words document -> candidate pre w = false
  else (pre ++ r) ∈ words document /\ candidate pre (pre ++ r) = true /\
       forall w, w ∈ words document -> candidate pre w = true ->
         occurrences w (words document) < occurrences (pre ++ r) (words document) \/
         occurrences w (words document) = occurrences (pre ++ r) (words document) /\
         length (pre ++ r) <= length w.
Proof. apply completion_spec. Qed.

Lemma prefixAt_start l : prefixAt l = [] \/
  exists c rest, prefixAt l = c :: rest /\ is_start c = true /\ Forall (fun c => is_word c = true) rest.
Proof.
  induction l as [|c l IH]; simpl; [by left|].
  destruct (is_start c && forallb is_word l) eqn:E; [|done].
  apply andb_true_iff in E as [Hc Hl]. right. exists c, l. split_and!; [done | done|].
  apply Forall_forall. intros x Hx. rewrite forallb_forall in Hl. by apply Hl, list_elem_of_In.
Qed.

Lemma word_run_all l : Forall (fun c => is_word c = true) l -> word_run l = l.
Proof. induction 1 as [|c l Hc _ IH]; simpl; [done|]. by rewrite Hc, IH. Qed.

(** The badge asks about the symbol being completed.  Whenever the offline source completes
    the identifier before the cursor, the symbol looked up for the risk of that suggestion is the
    whole completed identifier. *)
Theorem offline_completion_names_its_symbol textBeforeCursor textAfterCursor :
  let pre := prefixAt textBeforeCursor in
  let r := documentCompletionSource textBeforeCursor textAfterCursor in
  r <> [] -> symbolNamedBy pre r = Some (pre ++ r).
Proof.
  cbn zeta. intros Hr. set (pre := prefixAt textBeforeCursor) in *.
  unfold documentCompletionSource in *. fold pre in Hr |- *.
  set (document := take _ _ ++ textAfterCursor) in *.
  pose proof (completion_spec document pre) as H. cbn zeta in H.
  rewrite (decide_False (P := completeFromDocument document pre = [])) in H by done.
  destruct (prefixAt_start textBeforeCursor) as [Hn|(c & rest & Hpre & Hc & Hrest)].
  - case_decide as Hp; [done|]. fold pre in Hn. rewrite Hn in Hp. simpl in Hp. lia.
  - case_decide as Hp; [done|]. fold pre in Hpre. destruct H as (Hw & _ & _).
    apply words_chars, Forall_app in Hw as [_ Hr'].
    set (r := completeFromDocument document pre) in *. clearbody r. unfold symbolNamedBy. rewrite Hpre. simpl.
    rewrite Hc, word_run_all; [done|]. apply Forall_app. done.
Qed.

Lemma offline_completion_names_its_symbol_witness :
  let r := documentCompletionSource (lit "total = getTotal(a); getT") (lit ";") in
  r = lit "otal" /\ symbolNamedBy (lit "getT") r = Some (lit "getTotal").
Proof.
  intros r. split; [by vm_compute|].
  apply (offline_completion_names_its_symbol (lit "total = getTotal(a); getT") (lit ";")).
  by vm_compute.
Defined.
